(* ===== verification/_CoqProject ===== *)
-Q . S2P
Prelude.v
RustStd.v
Json.v
EventChain.v
ChainAnchor.v
ChainVerify.v
Types.v
Events.v
QuarantineTransitions.v
Artifact.v
Exclusion.v
AliasGroup.v
ScanPolicyFold.v
ScanEngine.v
PolicyGates.v
ScanHistory.v
Store.v
Lifecycle.v
LifecycleSafety.v
Concurrent.v
PolicyUseCase.v
PolicyCoherence.v
PolicyRefinement.v
PolicyExamples.v
Retention.v
RetentionUseCase.v
RetentionSafety.v
ContentRefs.v
Purge.v
Reconcile.v
Claims.v
PurgeSafety.v
ReconcileSafety.v
PurgeExamples.v
Rbac.v
TokenCache.v
RepositoryAccess.v
Tokens.v
Authenticate.v
TokenSafety.v
SessionSafety.v
TokenExamples.v
VersionOrder.v
VersionSafety.v
IndexServe.v
IndexSafety.v
IndexExamples.v
Downloads.v
NpmRoutes.v
DownloadSafety.v
DownloadPromise.v
DownloadExamples.v
Liveness.v
Jobs.v
TaskDispatch.v
JobSafety.v
TaskPromise.v
TaskExamples.v
CheckpointObject.v
EventLog.v
EventRetention.v
EventLogSafety.v
EventRetentionSafety.v
EventLogPromise.v
EventLogExamples.v
