(* ===== verification/Prelude.v ===== *)
(** * Verification of hort

    hort is an artifact registry that holds packages in quarantine until policy
    lets them out.  Every artifact has a row (its status) and an append-only
    event stream (its history).  Scan results, curators, provenance verdicts and
    timers move it through a state machine; streams are hash-chained and their
    heads anchored in signed checkpoints, so that later tampering shows.
    Paths below are relative to src/crates/.

    ** Parts and files

    Foundations.
    - [Prelude]: results, the state-and-error monad, error text, list lemmas.
    - [RustStd]: machine integers, byte encodings, strings and options of Rust.
    - [Json]: serde_json values with sorted object keys.

    Tamper evidence.
    - [EventChain]: hort-domain/src/events/chain.rs, the canonical bytes of an
      event, hash linking, and the walk over a stream.
    - [ChainAnchor]: checkpoints and their cross-check in the same file, and
      the checkpoint builder.
    - [ChainVerify]: hort-server/src/cli/verify_event_chain.rs, one run.
    - [CheckpointObject]: hort-adapters-checkpoint-anchor/src/lib.rs, the signed
      object a checkpoint is stored as, and reading it back.
    - [EventLog]: event_store.rs of hort-adapters-postgres, the chained append
      and the sealing of a stream, with terminal_stream_reader.rs,
      event_chain_head_reader.rs and event_chain_reader.rs beside it, which read
      the table for the sweep, the checkpoints and the verifier.
    - [EventRetention]: eventstore_retention_use_case.rs of hort-app, the sweep
      that seals streams past their floor, and the handlers eventstore_archive.rs
      and eventstore_checkpoint.rs.
    - [EventLogSafety], [EventRetentionSafety]: the invariant of the table and the
      checkpoints, and that every handler keeps it call by call.
    - [EventLogPromise], [EventLogExamples]: what that gives; runs.

    Domain (hort-domain/src).
    - [Types], [Events]: errors, enums, values; the events of artifact and
      policy streams and their validation.
    - [QuarantineTransitions]: entities/quarantine_transitions.rs.
    - [Artifact]: entities/artifact.rs; a [&mut self] method is a [mut].
    - [Exclusion], [ScanEngine], [PolicyGates]: the policy/ directory.
    - [AliasGroup]: types/alias_group.rs, records of one advisory collapsed.
    - [ScanPolicyFold]: entities/scan_policy_fold.rs, a policy as its events.
    - [Retention]: the retention/ directory, predicates, scopes and reasons.

    Application (hort-app/src/use_cases, hort-adapters-postgres).
    - [ScanHistory]: scan_history.rs and release_clearance.rs, what a stream
      says and which release it authorises.
    - [Store]: the paired read of a row with its stream version, the version
      check and the commits.
    - [Lifecycle]: the handlers, each from the paired read to the commit.
    - [LifecycleSafety]: the step relation over all of them.
    - [Concurrent]: handlers as sequences of atomic port calls, their
      interleavings, and a rely-guarantee rule for invariants.
    - [PolicyUseCase]: policy_use_case.rs, the six commands on a policy, with
      append_conflict.rs and the projection tables and their constraints.
    - [PolicyCoherence], [PolicyRefinement], [PolicyExamples]: what every
      interleaving keeps; what a command does; runs.
    - [RetentionUseCase], [RetentionSafety]: retention_use_case.rs, the sweep
      that expires artifacts, and its theorems.
    - [ContentRefs]: the edges from artifacts to the bytes they claim, the blob
      locks, the storage, and everybody who writes edges: the minting commit of
      an ingest, the sweep behind a rejection, tags.
    - [Purge]: purge_use_case.rs and purge_gc.rs, storage GC.
    - [Reconcile]: refcount_reconcile_use_case.rs and its adapter.
    - [Claims], [PurgeSafety], [ReconcileSafety], [PurgeExamples]: what it means
      to claim bytes, what every task keeps, what a sweep restores; runs.

    Access control (hort-app/src, hort-domain/src/entities, hort-http-core).
    - [Rbac]: rbac.rs and api_token.rs, grants, caps and the evaluator.
    - [RepositoryAccess]: repository_access.rs, virtual_resolution.rs and the
      list of repositories of hort-http-discovery, which repositories a caller
      can look up, list and write.
    - [TokenCache]: pat_cache.rs, validations of native tokens.
    - [Tokens]: api_token_use_case.rs with its tables, the replay guard, the
      short-lived store and the signer of CLI sessions.
    - [Authenticate]: authenticate_use_case.rs, pat_validation_use_case.rs and
      the interactive branch of handlers/exchange.rs.
    - [TokenSafety], [SessionSafety], [TokenExamples]: what every interleaving
      of these handlers keeps; sessions and tokens at the door; runs.

    Reads (hort-app/src/use_cases, hort-http-npm, hort-http-core, hort-formats).
    - [VersionOrder], [VersionSafety]: index_serve_filter.rs, the orderings of
      versions and the served set; their theorems.
    - [IndexServe], [IndexSafety], [IndexExamples]: index_serve.rs,
      index_filters.rs, virtual_resolution.rs and the npm packument, entries
      and filters, virtual repositories, the index routes; theorems; runs.
    - [Downloads]: artifact_use_case.rs with its queries, lookups, listings by
      pages, quarantine windows, downloads and their audit.
    - [NpmRoutes]: artifact_gate.rs and the tarball routes of hort-http-npm,
      the hosted index.
    - [DownloadSafety], [DownloadPromise], [DownloadExamples]: what a request
      that serves bytes has seen; what an index promises; runs.

    Background tasks (hort-app/src, hort-domain/src, hort-adapters-postgres).
    - [Liveness]: the *_liveness.rs policies, whether a scheduled task is alive.
    - [Jobs]: ports/jobs_repository.rs and its adapter, the jobs table with its
      checks and unique indexes, and every statement on it.
    - [TaskDispatch]: task_dispatcher.rs, retry_backoff.rs, result_write_fence.rs,
      destructive_task_reauthorization.rs and task_use_case.rs, the worker's poll
      loop, leases, dispatch and results, and the request for a task.
    - [JobSafety], [TaskPromise], [TaskExamples]: the invariant of the table under
      every pool of workers, requests and sweeps; what it gives; runs.

    ** What the theorems show

    - Chain: verification accepts exactly intact chains, names the first
      fault, survives appends, and a head commits to its history.  A run that
      does not report a break preserves all anchored history; a faithful store
      is not reported broken.  Cryptographic strength is not assumed: the
      conclusions read "or two hashed messages collide".
    - Event log: from an empty store, however appends, sweeps and checkpoint
      emissions interleave, fail and lose replies, the verifier does not report a
      break as long as nobody writes to a sealed stream, sequence numbers are
      distinct and tombstones are anchored; rows leave only as whole streams whose
      end and age were proven, with a tombstone that says what left; a sweep that
      completes alone has anchored what it sealed; and a checkpoint is read back
      exactly, or an object was signed by somebody else.
    - State machine: each method follows the transition table; release and
      re-evaluation are characterised by their exact conditions.
    - Policy: the scan verdict is exact, re-evaluation agrees with the scan,
      the quarantine anchor is the earliest admissible one, and the first
      matching curation rule decides.
    - Lifecycle: in every sequence of handler runs the status is the
      projection of the stream and streams only grow; a release is recorded
      only with the authority the stream and the policy give.
    - Aliases: the collapse returns, never panics, and keeps one record per
      class of records that share identifiers; no exclusion loses its match.
    - Policy administration: a policy survives its encoding as events; rows
      restate stream prefixes under every interleaving and failure; a command
      that succeeds alone implements its abstract effect, unless it is an update
      that a stale row makes look done; one that is refused has no effect but an
      event the table turned away, and archiving goes through.
    - Retention: the reason of an expiry is a part of the predicate that
      holds; a sweep always reports, expires only what an active policy covers
      and is foretold by its dry run.
    - Storage GC: under every interleaving of purges, uploads, ingests,
      rejections, sweeps and tags, with any faults, no step removes claimed bytes
      but the rollback of an upload of those bytes.  A
      reconcile sweep that reports convergence has restored the edges.
    - Access: a caller cannot tell a hidden repository from a missing one.  A
      personal token is never worth more than its owner was when it was issued,
      token rows are well formed and bounded in time, a federated token is
      exchanged once, and all of this holds while handlers interleave call by
      call, grants change and calls fail.  A token that was issued opens the
      door with exactly its cap; a session that was cut off does not, while the
      cut-off and everything else interleave.  A hit of
      the validation cache is fresh and was not revoked.
    - Versions and indexes: the orderings of npm, Cargo and PyPI are total on
      all texts and agree with the numbers in dotted versions; a served set is
      exact.  In a virtual repository the first member that has a version
      decides, a name that another member owns never reaches a proxy, the lazy
      walk gives the index of the eager one, and a packument names only
      versions whose rows are servable.
    - Downloads: whatever runs beside it, a request that streams bytes has seen
      a repository its caller can read, the row in it, the row in service and
      the bytes in the store.  What a hosted index lists can be downloaded when
      its bytes are there; an
      artifact in a hidden repository looks missing; listings by pages end and
      are complete up to their cap when the rows keep their order; index and
      download announce the same deadline; a served download is audited once.
    - Background tasks: whatever workers, renewals, sweeps and requests interleave
      and whichever calls fail, a result lands on the execution it belongs to, a
      row is executed no more often than its budget, a key is in flight once, no
      waiting row is passed over more often than older rows have executions left,
      and the sweep of leases takes only rows whose lease has lapsed and repeats
      nothing destructive.  A destructive task runs only on authority that holds at
      that moment, and otherwise no handler is reached; an accepted request has its audit event, and the sweeps of old
      rows keep what is read back later.
    - Thirty theorems record behaviour that departs from the documentation or
      the intent: [stream_selection_reports_broken],
      [medium_and_low_never_block], [corruption_tombstone_can_be_waived],
      [archived_names_stay_taken], [concurrent_requests_can_leave_a_row_behind],
      [reverted_update_comes_back], [a_waived_artifact_loses_its_bytes],
      [an_ingest_can_commit_missing_bytes],
      [a_failed_upload_can_delete_claimed_bytes],
      [a_session_outranks_its_scope], [a_session_renews_itself],
      [a_deactivated_user_logs_in], [a_revoked_session_comes_back],
      [overlapping_cutoffs_readmit], [maven_order_is_cyclic],
      [separated_prerelease_is_oldest],
      [duplicate_rows_are_not_last_write_wins], [a_hidden_owner_does_not_pin],
      [a_members_index_mode_is_ignored],
      [pages_of_one_version_can_lose_a_file],
      [a_range_of_everything_is_not_audited],
      [waiting_for_a_permit_is_taken_for_dead],
      [an_honest_late_result_is_dropped], [an_unaudited_task_ran],
      [a_concurrent_duplicate_is_not_found], [a_fresh_run_is_never_overdue],
      [young_events_are_removed], [writes_after_a_seal_read_as_tampering],
      [overlapping_emissions_break_the_anchor] and
      [a_lost_reply_leaves_a_seal_unanchored].

    ** Assumptions and bounds

    - [ChainPrimitives]: a digest of 32 bytes and an injective JSON printer.
      [SerdeJson], [Unicode] and [Ports] are unconstrained.
    - [Serde] and [PolicySerde] give the derived JSON forms of the policy's
      field types, with the law that decoding inverts encoding.  [EventWire],
      the serialisation of an event, is unconstrained; so is [ScanReader], the
      findings and faults a sweep meets.
    - Scanner findings and provenance verdicts are inputs: nothing is proved
      about scanners or signatures.
    - A step of the lifecycle is a whole handler, so the lifecycle theorems
      interleave handlers, not their insides.  The gap between a handler's read
      and its commit is the subject of [paired_commit_is_current], in which the
      deletion of a repository and the sealing of a purged stream, which remove
      rows and streams together, are left out.  Policy
      commands interleave at every port call, and each call may fail.
    - [Backend] gives the faults of database and storage, the clock and the ids
      of the storage tasks; its one law is that a new id is not in use.  A call
      is one statement or one transaction, which commits or leaves no trace; a
      blob lock that outlives its transaction statement is a lease on the task
      that took it.  A transaction that waits for locks is scheduled at most
      [polls] times, for any number.
    - [Lru] gives the map under the cache, [TokenBackend] the faults, a clock
      that does not go back, random bytes and argon2 with the law that a hash
      verifies its text, [Jwt] the signed tokens with the law that one decodes
      under its key to the claims it was signed with until it expires,
      [Identity] the provider and SHA-256, [RepositoryBackend] the faults, order
      and collation of the repository table.  [TokenExamples] gives an instance
      of each.  Nothing is assumed about forged tokens.
    - [Lowercase] gives [str::to_lowercase] with the law that ASCII text maps as
      in ASCII, [Rfc3339] the text of an instant, [ServingCode] percent
      decoding, JSON text in blobs and header values, [ArtifactQueries] the
      order of rows, which respects ORDER BY version and nothing else.  The
      index of a proxy and the pull from an upstream are arguments of the npm
      routes.  [IndexExamples] and [DownloadExamples] give instances.
    - [served_bytes_are_in_service] holds for the states a request observes, one
      per call, with anything in between ([observes]);
      [destructive_tasks_need_live_authority] for the states it finds and leaves
      ([performs]); the promise of an index
      is about tables that stay as they are and ports that do not fail.
    - [JobBackend] gives the faults, a clock that does not go back, ids that are
      not drawn twice, the order of scans, locks that others hold and rows that a
      snapshot misses.  One statement is one call at one instant, and a call that
      fails has no effect; the header of [Jobs] says what that leaves out.  The handlers of tasks are any
      programs that keep to the table's rules ([tame]); waiting for a permit of a
      task's kind is the time between two calls of a pool.  Users, grants and the
      evaluator may change at any time.  [TaskExamples] gives an instance.
    - [LogBackend] gives the faults of the event store, before or after a call took
      effect, a clock that does not go back, ids and their text with the law that a
      printed id parses, the order of text and of objects, and what a payload
      decodes to, whose type is the type column's.  A transaction that reads before
      it writes is a call per read and one for its writes.  A column of type jsonb
      is taken to return what was stored in it.  [AnchorPrimitives] gives the
      signature, hex and JSON text of checkpoints with the laws that a signature
      verifies and text reads back; nothing is assumed about forged signatures.
      [EventLogExamples] gives an instance of each.
    - In the claim of bytes, an artifact whose rejection was lifted counts only
      through its edges; the theorem on waived artifacts shows why.
    - Policy states are those reached from an empty database; rows that the
      migration 017 archived without an event are outside.
    - Counts keep their width where the code's arithmetic depends on it.
    - Fuel: [find_loop] follows parents for at most as many steps as there are
      nodes, which [collapse_is_the_advisory_grouping] shows to be enough;
      [successors] walks the fifteen policy fields, whose list is computed.
      [pages_loop] has a round more than rows and cap allow, which
      [page_listings_are_exact] shows to be enough; [select_source] has depth
      one, since members of a virtual repository are not virtual.  [read_pages]
      has a round more than the stream has rows, which [read_pages_all] shows to be
      enough.  [poll_loop]
      and [renew_while_held] run for any number of ticks, until they are
      cancelled; the theorems hold for every number.
      All other recursion is structural; [retry_loop] recurses on the attempts
      the code allows.  The one cap is the code's own bound of 200 events on a
      stream read.

    ** Not modelled

    SQL, network, storage and process I/O, HTTP routing, cryptography, metrics
    and logging.  Not modelled so far, though the method applies: the ingest
    paths other than the signature manifest, the promotion use case, the
    re-evaluation passes of policy changes, the provenance cascade,
    multi-version curation, the commands on retention policies, on
    repositories and on grants, the audit events of logins, the federated branch
    of the exchange before the mint, the category reads and start-up checks of
    the event store, the handlers of tasks beyond the use cases above, package format parsers, the indexes of formats
    other than npm and the index of a proxy. *)

From stdpp Require Export base tactics list strings numbers option sorting sets gmap.
From Stdlib Require Export ZArith Lia.

#[global] Open Scope Z_scope.

(** ** Results and effects

    [result E A] is Rust's [Result<A, E>] (error type first, so that
    [result E] is a monad); [mut S E A] is the type of a method that takes
    [&mut self] on a state [S] and returns [Result<A, E>].  The state is
    returned next to the outcome, errors included: that a failing method leaves
    its receiver alone is a theorem of the model, not a consequence of its
    type. *)

Inductive result (E A : Type) : Type :=
  | Ok (a : A)
  | Err (e : E).
Arguments Ok {E A} a.
Arguments Err {E A} e.

#[export] Instance result_ret E : MRet (result E) := @Ok E.

#[export] Instance result_bind E : MBind (result E) :=
  λ A B f m, match m with Ok a => f a | Err e => Err e end.

#[export] Instance result_fmap E : FMap (result E) :=
  λ A B f m, match m with Ok a => Ok (f a) | Err e => Err e end.

#[export] Instance result_eq_dec E A `{EqDecision E, EqDecision A} : EqDecision (result E A).
Proof. solve_decision. Defined.

Definition is_ok {E A} (r : result E A) : bool :=
  match r with Ok _ => true | Err _ => false end.

(** [Result::map_err]. *)
Definition map_err {E F A} (f : E → F) (r : result E A) : result F A :=
  match r with Ok a => Ok a | Err e => Err (f e) end.

(** [Option::ok_or_else]. *)
Definition ok_or {E A} (e : E) (o : option A) : result E A :=
  match o with Some a => Ok a | None => Err e end.

Definition mut (S E A : Type) : Type := S → S * result E A.

#[export] Instance mut_ret S E : MRet (mut S E) := λ A a s, (s, Ok a).

#[export] Instance mut_bind S E : MBind (mut S E) :=
  λ A B f m s,
    match m s with
    | (s', Ok a) => f a s'
    | (s', Err e) => (s', Err e)
    end.

(** Read the receiver, replace it, return early with an error, and run a
    fallible computation that does not touch the receiver ([?]). *)
Definition self {S E} : mut S E S := λ s, (s, Ok s).
Definition modify {S E} (f : S → S) : mut S E unit := λ s, (f s, Ok ()).
Definition throw {S E A} (e : E) : mut S E A := λ s, (s, Err e).
Definition lift {S E A} (r : result E A) : mut S E A := λ s, (s, r).

(** How a computation that succeeded ran. *)
Section runs.
Context {S E : Type}.

Lemma bind_Ok {A B} (r : result E A) (f : A → result E B) b :
  r ≫= f = Ok b ↔ ∃ a, r = Ok a ∧ f a = Ok b.
Proof. destruct r; cbv [mbind result_bind]; naive_solver. Qed.

Lemma mut_bind_Ok {A B} (m : mut S E A) (f : A → mut S E B) s s' b :
  (m ≫= f) s = (s', Ok b) ↔ ∃ a s1, m s = (s1, Ok a) ∧ f a s1 = (s', Ok b).
Proof. cbv [mbind mut_bind]. destruct (m s) as [s1 [a|e]]; naive_solver. Qed.

Lemma lift_Ok {A} (r : result E A) (s s' : S) a :
  lift r s = (s', Ok a) ↔ s' = s ∧ r = Ok a.
Proof. unfold lift. naive_solver. Qed.

Lemma modify_Ok (f : S → S) (s s' : S) u :
  modify (E := E) f s = (s', Ok u) ↔ s' = f s.
Proof. unfold modify. destruct u. naive_solver. Qed.

Lemma self_Ok (s s' a : S) : self (E := E) s = (s', Ok a) ↔ s' = s ∧ a = s.
Proof. unfold self. naive_solver. Qed.

Lemma throw_Ok {A} (e : E) (s s' : S) (a : A) : throw e s = (s', Ok a) ↔ False.
Proof. unfold throw. naive_solver. Qed.

Lemma ret_Ok {A} (s s' : S) (a b : A) :
  (mret a : mut S E A) s = (s', Ok b) ↔ s' = s ∧ a = b.
Proof. cbv [mret mut_ret]. naive_solver. Qed.

Lemma result_ret_Ok {A} (a b : A) : (mret a : result E A) = Ok b ↔ a = b.
Proof. cbv [mret result_ret]. naive_solver. Qed.

Lemma map_err_Ok {F A} (g : E → F) (r : result E A) a : map_err g r = Ok a ↔ r = Ok a.
Proof. destruct r; simpl; naive_solver. Qed.
End runs.

(** Unfold a successful run in the hypotheses, one bind at a time. *)
Ltac unbind :=
  repeat match goal with
  | H : mbind _ _ = Ok _ |- _ => apply bind_Ok in H; destruct H as (? & ? & H)
  | H : mbind _ _ _ = (_, Ok _) |- _ => apply mut_bind_Ok in H; destruct H as (? & ? & ? & H)
  | H : lift _ _ = (_, Ok _) |- _ => apply lift_Ok in H; destruct H as [-> H]
  | H : self _ = (_, Ok _) |- _ => apply self_Ok in H; destruct H as [-> ->]
  | H : modify _ _ = (_, Ok _) |- _ => apply modify_Ok in H
  | H : throw _ _ = (_, Ok _) |- _ => apply throw_Ok in H; destruct H
  | H : mret _ _ = (_, Ok _) |- _ => apply ret_Ok in H; destruct H as [-> H]
  | H : mret ?a = @Ok ?E _ ?b |- _ => apply (proj1 (result_ret_Ok (E := E) a b)) in H
  | H : map_err _ _ = Ok _ |- _ => apply map_err_Ok in H
  | u : unit |- _ => destruct u
  end.

(** ** Formatted text

    [format!] output that only serves a human reader (error messages) is kept
    as its sequence of literal fragments and interpolated values; the printed
    form of a [Uuid] or a [DateTime] is not modelled. *)

Inductive frag : Type :=
  | Lit (s : string)
  | ArgStr (s : string)
  | ArgInt (z : Z)
  | ArgUuid (u : Z)
  | ArgTime (t : Z).

Abbreviation fmt := (list frag).

#[export] Instance frag_eq_dec : EqDecision frag.
Proof. solve_decision. Defined.

(** ** Proof automation *)

Create HintDb hort.
Create Rewrite HintDb hort.

(** Split every [match], [if] and boolean guard of the goal or of a
    hypothesis, closing the contradictory branches on the way. *)
Ltac split_guards :=
  repeat (case_match; simplify_eq/=; try done).

(** Expose the conjuncts and disjuncts of boolean hypotheses. *)
Ltac breflect :=
  repeat match goal with
  | H : andb _ _ = true |- _ => apply andb_true_iff in H; destruct H
  | H : orb _ _ = false |- _ => apply orb_false_iff in H; destruct H
  | H : negb _ = true |- _ => apply negb_true_iff in H
  | H : negb _ = false |- _ => apply negb_false_iff in H
  | H : bool_decide _ = true |- _ => apply bool_decide_eq_true in H
  | H : bool_decide _ = false |- _ => apply bool_decide_eq_false in H
  | H : (_ =? _) = true |- _ => apply Z.eqb_eq in H
  | H : (_ =? _) = false |- _ => apply Z.eqb_neq in H
  | H : (_ <? _) = true |- _ => apply Z.ltb_lt in H
  | H : (_ <? _) = false |- _ => apply Z.ltb_ge in H
  | H : (_ <=? _) = true |- _ => apply Z.leb_le in H
  | H : (_ <=? _) = false |- _ => apply Z.leb_gt in H
  end.

(** ** Lists *)

Section lists.
Context {A : Type}.
Implicit Types (l k : list A) (x y : A).

(** Two equal concatenations whose first halves have the same length split. *)
Lemma app_inj_len l1 l2 k1 k2 :
  length l1 = length k1 → l1 ++ l2 = k1 ++ k2 → l1 = k1 ∧ l2 = k2.
Proof. intros Hl Happ. by apply app_inj_1. Qed.

Lemma existsb_True (f : A → bool) l : existsb f l = true ↔ ∃ x, x ∈ l ∧ f x = true.
Proof.
  rewrite existsb_exists. split; intros (x & Hx & Hf); exists x; split; auto;
    by apply list_elem_of_In.
Qed.

Lemma existsb_False (f : A → bool) l : existsb f l = false ↔ ∀ x, x ∈ l → f x = false.
Proof.
  rewrite <- not_true_iff_false, existsb_True. split.
  - intros H x Hx. destruct (f x) eqn:E; [| done]. exfalso. eauto.
  - intros H (x & Hx & Hf). rewrite H in Hf; done.
Qed.

Lemma forallb_True (f : A → bool) l : forallb f l = true ↔ ∀ x, x ∈ l → f x = true.
Proof.
  rewrite forallb_forall. split; intros H x Hx; apply H; by apply list_elem_of_In.
Qed.

(** [slice::contains] and the push-unless-present idiom. *)
Definition contains `{EqDecision A} l x : bool := bool_decide (x ∈ l).

Definition push_new `{EqDecision A} l x : list A := if contains l x then l else l ++ [x].

Lemma elem_of_push_new `{EqDecision A} l x y : y ∈ push_new l x ↔ y ∈ l ∨ y = x.
Proof.
  unfold push_new, contains. case_bool_decide; [| set_solver].
  split; [auto |]. by intros [? | ->].
Qed.

Lemma NoDup_push_new `{EqDecision A} l x : NoDup l → NoDup (push_new l x).
Proof.
  unfold push_new, contains. case_bool_decide; [done |].
  intros Hl. apply NoDup_app. repeat split; [done | set_solver | apply NoDup_singleton].
Qed.

(** [slice::sort_by]: a stable sort, here by insertion. *)
Fixpoint insert_by (le : A → A → bool) x l : list A :=
  match l with
  | [] => [x]
  | y :: l' => if le x y then x :: l else y :: insert_by le x l'
  end.

Definition sort_by (le : A → A → bool) l : list A := foldr (insert_by le) [] l.

Lemma insert_by_Permutation le x l : insert_by le x l ≡ₚ x :: l.
Proof.
  induction l as [| y l IH]; simpl; [done |].
  destruct (le x y); [done |]. rewrite IH. by constructor.
Qed.

Lemma sort_by_Permutation le l : sort_by le l ≡ₚ l.
Proof.
  induction l as [| x l IH]; simpl; [done |]. by rewrite insert_by_Permutation, IH.
Qed.

Lemma insert_by_Sorted le x l :
  (∀ x y, le x y = true ∨ le y x = true) → Sorted le l → Sorted le (insert_by le x l).
Proof.
  intros Htot. induction 1 as [| y l Hl IHl Hhd]; simpl; [by repeat constructor |].
  destruct (le x y) eqn:Hxy.
  - constructor; [by constructor |]. constructor. by rewrite Hxy.
  - constructor; [done |]. destruct l as [| z l]; simpl.
    + constructor. destruct (Htot x y) as [E|E]; [congruence | by rewrite E].
    + destruct (le x z); constructor.
      * destruct (Htot x y) as [E|E]; [congruence | by rewrite E].
      * by inversion Hhd.
Qed.

Lemma sort_by_Sorted le l :
  (∀ x y, le x y = true ∨ le y x = true) → Sorted le (sort_by le l).
Proof.
  intros Htot. induction l as [| x l IH]; simpl; [constructor |].
  by apply insert_by_Sorted.
Qed.

(** Sorting leaves alone what comes in order behind everything else. *)
Lemma insert_by_app le x l k :
  (∀ y, y ∈ k → le x y = true) → insert_by le x (l ++ k) = insert_by le x l ++ k.
Proof.
  intros Hk. induction l as [| y l IH]; cbn; [| destruct (le x y); [done | by rewrite IH]].
  destruct k as [| y k]; [done |]. cbn. by rewrite Hk by left.
Qed.

Lemma sort_by_app le l k :
  (∀ x y, x ∈ l → y ∈ k → le x y = true) → sort_by le (l ++ k) = sort_by le l ++ sort_by le k.
Proof.
  induction l as [| x l IH]; intros Hl; [done |].
  change (insert_by le x (sort_by le (l ++ k)) = insert_by le x (sort_by le l) ++ sort_by le k).
  rewrite IH by set_solver.
  apply insert_by_app. intros y Hy. apply Hl; [by left |]. by rewrite sort_by_Permutation in Hy.
Qed.

Lemma Sorted_weaken (R S : relation A) l :
  (∀ x y, R x y → S x y) → Sorted R l → Sorted S l.
Proof.
  intros HRS. induction 1 as [| x l Hl IH Hx]; constructor; [done |].
  destruct Hx; constructor. auto.
Qed.
End lists.

(** [Option::is_some] and [slice::is_empty]. *)
Definition is_some {A} (o : option A) : bool := match o with Some _ => true | None => false end.

Definition is_empty {A} (l : list A) : bool := match l with [] => true | _ => false end.

Lemma is_empty_true {A} (l : list A) : is_empty l = true ↔ l = [].
Proof. by destruct l. Qed.

Lemma is_empty_false {A} (l : list A) : is_empty l = false ↔ l ≠ [].
Proof. by destruct l. Qed.

(** [Iterator::max_by], which keeps the last of several maxima. *)
Definition max_by {A} (cmp : A → A → comparison) (l : list A) : option A :=
  foldl (λ acc x,
    match acc with
    | None => Some x
    | Some a => match cmp a x with Gt => Some a | _ => Some x end
    end) None l.

Lemma max_by_elem {A} (cmp : A → A → comparison) l m : max_by cmp l = Some m → m ∈ l.
Proof.
  revert m. induction l as [| x l IH] using rev_ind; [done |]. intros m.
  unfold max_by. rewrite foldl_snoc. fold (max_by cmp l).
  destruct (max_by cmp l) as [a |]; [| intros [= <-]; set_solver].
  specialize (IH a eq_refl). destruct (cmp a x); intros [= <-]; set_solver.
Qed.

Section max_by.
Context {A : Type} (cmp : A → A → comparison).
Hypothesis cmp_opp : ∀ a b, cmp b a = CompOpp (cmp a b).
Hypothesis cmp_trans : ∀ a b c, cmp a b ≠ Lt → cmp b c ≠ Lt → cmp a c ≠ Lt.

Lemma max_by_None l : max_by cmp l = None ↔ l = [].
Proof.
  split; [| by intros ->]. destruct l as [| x l] using rev_ind; [done |].
  unfold max_by. rewrite foldl_snoc. by split_guards.
Qed.

Lemma max_by_Some l m : max_by cmp l = Some m → m ∈ l ∧ ∀ x, x ∈ l → cmp m x ≠ Lt.
Proof.
  revert m. induction l as [| x l IH] using rev_ind; [done |]. intros m.
  assert (cmp x x ≠ Lt) as Hrefl by (pose proof (cmp_opp x x); by destruct (cmp x x)).
  unfold max_by. rewrite foldl_snoc. fold (max_by cmp l).
  destruct (max_by cmp l) as [a |] eqn:E.
  - destruct (IH a eq_refl) as [Ha Hall].
    assert (∀ y, cmp a x ≠ Gt → y ∈ l ++ [x] → cmp x y ≠ Lt) as Hx.
    { intros y Hgt Hy. apply elem_of_app in Hy as [Hy | ->%list_elem_of_singleton]; [| done].
      apply (cmp_trans x a); [| by apply Hall].
      rewrite (cmp_opp a x). by destruct (cmp a x). }
    destruct (cmp a x) eqn:Hc; intros [= <-];
      (split; [set_solver |]); [by intros; apply Hx .. |].
    intros y Hy. apply elem_of_app in Hy as [Hy | ->%list_elem_of_singleton]; [by apply Hall |].
    by rewrite Hc.
  - apply max_by_None in E as ->. intros [= <-]. simpl.
    split; [set_solver |]. by intros y ->%list_elem_of_singleton.
Qed.
End max_by.

(** ** Lexicographic comparison

    [Ordering::then]: the second comparison decides only between equals.  A
    comparison is lawful when it orders totally up to [Eq]. *)

Definition cmp_then (c d : comparison) : comparison := match c with Eq => d | _ => c end.

Definition is_lt (c : comparison) : bool := match c with Lt => true | _ => false end.
Definition is_gt (c : comparison) : bool := match c with Gt => true | _ => false end.
Definition is_ne (c : comparison) : bool := match c with Eq => false | _ => true end.

Class LawfulCmp {A} (cmp : A → A → comparison) : Prop := {
  cmp_sym a b : cmp b a = CompOpp (cmp a b);
  cmp_ge_trans a b c : cmp a b ≠ Lt → cmp b c ≠ Lt → cmp a c ≠ Lt;
}.

Section lawful.
Context {A : Type}.
Implicit Types (f g : A → A → comparison).

Lemma cmp_refl f `{!LawfulCmp f} a : f a a = Eq.
Proof. pose proof (cmp_sym a a). by destruct (f a a). Qed.

(** Between two equal ends everything is equal. *)
Lemma cmp_squeeze f `{!LawfulCmp f} a b c :
  f a b ≠ Lt → f b c ≠ Lt → f a c = Eq → f a b = Eq ∧ f b c = Eq.
Proof.
  intros Hab Hbc Hac. assert (f c a ≠ Lt) as Hca by (rewrite (cmp_sym a c), Hac; done).
  pose proof (cmp_ge_trans _ _ _ Hbc Hca) as Hba. pose proof (cmp_ge_trans _ _ _ Hca Hab) as Hcb.
  rewrite (cmp_sym a b) in Hba. rewrite (cmp_sym b c) in Hcb.
  by destruct (f a b), (f b c).
Qed.

Lemma cmp_then_opp c d : CompOpp (cmp_then c d) = cmp_then (CompOpp c) (CompOpp d).
Proof. by destruct c. Qed.

(** Only between equals does the rest have to be transitive. *)
Lemma cmp_then_ge_trans f `{!LawfulCmp f} a b c d1 d2 d3 :
  (d1 ≠ Lt → d2 ≠ Lt → d3 ≠ Lt) →
  cmp_then (f a b) d1 ≠ Lt → cmp_then (f b c) d2 ≠ Lt → cmp_then (f a c) d3 ≠ Lt.
Proof.
  intros Hd Hab Hbc.
  assert (f a b ≠ Lt) as Fab by (by destruct (f a b)).
  assert (f b c ≠ Lt) as Fbc by (by destruct (f b c)).
  pose proof (cmp_ge_trans _ _ _ Fab Fbc) as Fac.
  destruct (f a c) eqn:E; [| done | done].
  destruct (cmp_squeeze f a b c Fab Fbc E) as [E1 E2].
  rewrite E1 in Hab. rewrite E2 in Hbc. by apply Hd.
Qed.

#[export] Instance cmp_then_lawful f g :
  LawfulCmp f → LawfulCmp g → LawfulCmp (λ a b, cmp_then (f a b) (g a b)).
Proof.
  intros Hf Hg. split.
  - intros a b. by rewrite cmp_then_opp, (cmp_sym (cmp := f) a b), (cmp_sym (cmp := g) a b).
  - intros a b c. apply cmp_then_ge_trans, cmp_ge_trans; done.
Qed.

#[export] Instance cmp_flip_lawful f : LawfulCmp f → LawfulCmp (λ a b, f b a).
Proof.
  intros Hf. split.
  - intros a b. apply cmp_sym.
  - intros a b c Hab Hbc. by apply (cmp_ge_trans c b a).
Qed.

#[export] Instance cmp_on_lawful {B} (k : B → A) f :
  LawfulCmp f → LawfulCmp (λ a b, f (k a) (k b)).
Proof. intros Hf. split; intros; [apply cmp_sym | by eapply cmp_ge_trans]. Qed.
End lawful.

#[export] Instance Z_compare_lawful : LawfulCmp Z.compare.
Proof.
  split.
  - intros a b. by rewrite Z.compare_antisym.
  - intros a b c. rewrite !Z.compare_nlt_iff. lia.
Qed.

(** Rust's [Ord] on slices and [Vec]: lexicographic, a prefix is less. *)
Fixpoint list_cmp {A} (cmp : A → A → comparison) (l1 l2 : list A) : comparison :=
  match l1, l2 with
  | [], [] => Eq
  | [], _ :: _ => Lt
  | _ :: _, [] => Gt
  | x :: l1', y :: l2' => cmp_then (cmp x y) (list_cmp cmp l1' l2')
  end.

#[export] Instance list_cmp_lawful {A} (cmp : A → A → comparison) :
  LawfulCmp cmp → LawfulCmp (list_cmp cmp).
Proof.
  intros Hcmp. split.
  - intros a. induction a as [| x a IH]; intros [| y b]; [done .. |]. simpl.
    by rewrite cmp_then_opp, (cmp_sym x y), IH.
  - intros a. induction a as [| x a IH]; intros [| y b] [| z c]; try done.
    apply cmp_then_ge_trans, IH; done.
Qed.

(** ** Loops that may stop early

    [try_fold f l s] runs the body [f] over [l] from state [s]; [None] is a
    panic of some iteration. *)
Fixpoint try_fold {S A} (f : S → A → option S) (l : list A) (s : S) : option S :=
  match l with
  | [] => Some s
  | x :: l' => s' ← f s x; try_fold f l' s'
  end.

Lemma try_fold_app {S A} (f : S → A → option S) l k s :
  try_fold f (l ++ k) s = (try_fold f l s ≫= try_fold f k).
Proof.
  revert s. induction l as [| x l IH]; intros s; [done |]. cbn.
  destruct (f s x) as [s'|]; [apply IH | done].
Qed.

(** An invariant indexed by the items already consumed. *)
Lemma try_fold_invariant {S A} (f : S → A → option S) (I : list A → S → Prop) l s :
  I [] s →
  (∀ done x s, done ++ [x] `prefix_of` l → I done s → ∃ s', f s x = Some s' ∧ I (done ++ [x]) s') →
  ∃ s', try_fold f l s = Some s' ∧ I l s'.
Proof.
  intros H0 Hstep. induction l as [| x l IH] using rev_ind; [by exists s |].
  destruct IH as (s1 & H1 & I1).
  { intros done y s1 Hp. apply Hstep. by apply prefix_app_r. }
  destruct (Hstep l x s1) as (s2 & H2 & I2); [done | done |].
  exists s2. split; [| done]. rewrite try_fold_app, H1. cbn. by rewrite H2.
Qed.

#[export] Hint Rewrite @existsb_True @existsb_False @forallb_True : hort.
