(* ===== verification/RustStd.v ===== *)
(** Model of the parts of Rust's language and standard library the sources use:
    machine integers, byte encodings, byte strings with their ASCII and Unicode
    helpers, [f32] comparisons and [chrono] instants. *)

From Stdlib Require Import Ascii.
From Stdlib Require String.
From Stdlib Require Import SpecFloat.
From S2P Require Import Prelude.

(** ** Machine integers

    A [w]-bit unsigned integer is a [Z] in [[0, 2^w)].  The workspace's release
    profile leaves overflow checks off, so [+=] wraps. *)

Definition wrap (w x : Z) : Z := x mod 2 ^ w.

Definition u32_add (x y : Z) : Z := wrap 32 (x + y).
Definition u64_add (x y : Z) : Z := wrap 64 (x + y).

Definition u64_MAX : Z := 2 ^ 64 - 1.
Definition u32_MAX : Z := 2 ^ 32 - 1.
Definition i64_MAX : Z := 2 ^ 63 - 1.

Definition is_uint (w x : Z) : Prop := 0 ≤ x < 2 ^ w.

Lemma wrap_small w x : is_uint w x → wrap w x = x.
Proof. apply Z.mod_small. Qed.

#[export] Hint Resolve wrap_small : hort.

(** Lengths of Rust vectors and strings fit in [isize], hence in [u64]. *)
Definition len {A} (l : list A) : Z := Z.of_nat (length l).

(** ** Bytes

    A byte is an [ascii]; a byte vector is a [list ascii]; a [String]'s UTF-8
    bytes are the characters of a Rocq [string]. *)

Abbreviation byte := ascii.

Definition byte_of_Z (x : Z) : byte := ascii_of_N (Z.to_N x).
Definition Z_of_byte (b : byte) : Z := Z.of_N (N_of_ascii b).

Definition as_bytes (s : string) : list byte := String.list_ascii_of_string s.

Lemma as_bytes_inj s t : as_bytes s = as_bytes t → s = t.
Proof.
  intros H. rewrite <- (String.string_of_list_ascii_of_string s), <- (String.string_of_list_ascii_of_string t).
  unfold as_bytes in H. by rewrite H.
Qed.

Lemma Z_of_byte_range b : 0 ≤ Z_of_byte b < 256.
Proof. unfold Z_of_byte. pose proof (N_ascii_bounded b). lia. Qed.

Lemma byte_of_Z_of_byte b : byte_of_Z (Z_of_byte b) = b.
Proof. unfold byte_of_Z, Z_of_byte. by rewrite N2Z.id, ascii_N_embedding. Qed.

Lemma Z_of_byte_of_Z x : 0 ≤ x < 256 → Z_of_byte (byte_of_Z x) = x.
Proof. intros. unfold byte_of_Z, Z_of_byte. rewrite N_ascii_embedding; lia. Qed.

(** [uN::to_be_bytes], most significant byte first. *)
Fixpoint to_be_bytes (n : nat) (x : Z) : list byte :=
  match n with
  | O => []
  | S n' => byte_of_Z (x / 256 ^ Z.of_nat n' mod 256) :: to_be_bytes n' x
  end.

Fixpoint from_be_bytes (l : list byte) : Z :=
  match l with
  | [] => 0
  | b :: l' => Z_of_byte b * 256 ^ len l' + from_be_bytes l'
  end.

Lemma length_to_be_bytes n x : length (to_be_bytes n x) = n.
Proof. induction n; simpl; auto. Qed.

Lemma from_to_be_bytes n x : from_be_bytes (to_be_bytes n x) = x mod 256 ^ Z.of_nat n.
Proof.
  induction n as [| n IH]; [by rewrite Z.mod_1_r |].
  cbn [to_be_bytes from_be_bytes]. unfold len. rewrite length_to_be_bytes, IH.
  rewrite Z_of_byte_of_Z by (apply Z.mod_pos_bound; lia).
  rewrite Nat2Z.inj_succ, Z.pow_succ_r by lia.
  rewrite (Z.mul_comm 256), Z.rem_mul_r by lia. lia.
Qed.

Lemma to_be_bytes_inj n x y :
  0 ≤ x < 256 ^ Z.of_nat n → 0 ≤ y < 256 ^ Z.of_nat n →
  to_be_bytes n x = to_be_bytes n y → x = y.
Proof.
  intros Hx Hy H. apply (f_equal from_be_bytes) in H.
  rewrite !from_to_be_bytes, !Z.mod_small in H; done.
Qed.

(** A [Uuid] is its 128-bit value; [as_bytes] is the big-endian form. *)
Abbreviation Uuid := Z.

Definition uuid_bytes (u : Uuid) : list byte := to_be_bytes 16 u.

(** ** ASCII *)

Definition is_upper (c : byte) : bool := (65 <=? Z_of_byte c) && (Z_of_byte c <=? 90).
Definition is_lower (c : byte) : bool := (97 <=? Z_of_byte c) && (Z_of_byte c <=? 122).
Definition is_digit (c : byte) : bool := (48 <=? Z_of_byte c) && (Z_of_byte c <=? 57).

Definition byte_to_lower (c : byte) : byte :=
  if is_upper c then byte_of_Z (Z_of_byte c + 32) else c.
Definition byte_to_upper (c : byte) : byte :=
  if is_lower c then byte_of_Z (Z_of_byte c - 32) else c.

Fixpoint string_map (f : byte → byte) (s : string) : string :=
  match s with
  | EmptyString => EmptyString
  | String c s' => String (f c) (string_map f s')
  end.

Definition to_ascii_lowercase (s : string) : string := string_map byte_to_lower s.

(** [str::eq_ignore_ascii_case]. *)
Definition eq_ignore_ascii_case (s t : string) : bool :=
  bool_decide (to_ascii_lowercase s = to_ascii_lowercase t).

(** [str::to_lowercase], as far as a comparison with an ASCII literal can see
    it: besides the ASCII letters, the only character whose lowercase form is
    ASCII is U+212A KELVIN SIGN (bytes E2 84 AA), which becomes [k]; every other
    non-ASCII character lowercases to text that still holds a non-ASCII byte. *)
Fixpoint to_lowercase (s : string) : string :=
  match s with
  | String "226" (String "132" (String "170" s')) => String "k" (to_lowercase s')
  | String c s' => String (byte_to_lower c) (to_lowercase s')
  | EmptyString => EmptyString
  end.

Definition strlen (s : string) : Z := Z.of_nat (String.length s).

Lemma len_as_bytes s : len (as_bytes s) = strlen s.
Proof. unfold len, strlen. induction s; simpl in *; lia. Qed.

Lemma byte_to_lower_idem c : byte_to_lower (byte_to_lower c) = byte_to_lower c.
Proof. by destruct c as [[] [] [] [] [] [] [] []]. Qed.

Lemma to_ascii_lowercase_idem s : to_ascii_lowercase (to_ascii_lowercase s) = to_ascii_lowercase s.
Proof.
  unfold to_ascii_lowercase. induction s as [| c s IH]; simpl; [done |].
  by rewrite byte_to_lower_idem, IH.
Qed.

Lemma eq_ignore_ascii_case_spec s t :
  eq_ignore_ascii_case s t = true ↔ to_ascii_lowercase s = to_ascii_lowercase t.
Proof. unfold eq_ignore_ascii_case. by rewrite bool_decide_eq_true. Qed.

(** ** [str::trim]

    The UTF-8 encodings of the characters with the Unicode [White_Space]
    property.  In valid UTF-8 an encoding that ends (or starts) a string is the
    last (or first) character of it. *)

Definition white_space : list (list byte) :=
  [["009"]; ["010"]; ["011"]; ["012"]; ["013"]; ["032"];
   ["194"; "133"]; ["194"; "160"]; ["225"; "154"; "128"];
   ["226"; "128"; "128"]; ["226"; "128"; "129"]; ["226"; "128"; "130"];
   ["226"; "128"; "131"]; ["226"; "128"; "132"]; ["226"; "128"; "133"];
   ["226"; "128"; "134"]; ["226"; "128"; "135"]; ["226"; "128"; "136"];
   ["226"; "128"; "137"]; ["226"; "128"; "138"]; ["226"; "128"; "168"];
   ["226"; "128"; "169"]; ["226"; "128"; "175"]; ["226"; "129"; "159"];
   ["227"; "128"; "128"]]%char.

Fixpoint strip_prefix (p l : list byte) : option (list byte) :=
  match p, l with
  | [], _ => Some l
  | a :: p', b :: l' => if bool_decide (a = b) then strip_prefix p' l' else None
  | _ :: _, [] => None
  end.

Fixpoint strip_first (ps : list (list byte)) (l : list byte) : option (list byte) :=
  match ps with
  | [] => None
  | p :: ps' => match strip_prefix p l with Some r => Some r | None => strip_first ps' l end
  end.

(** Each turn drops at least one byte, so [length l] turns are enough. *)
Fixpoint strip_all (fuel : nat) (ps : list (list byte)) (l : list byte) : list byte :=
  match fuel with
  | O => l
  | S fuel' => match strip_first ps l with Some r => strip_all fuel' ps r | None => l end
  end.

Definition trim_start (l : list byte) : list byte := strip_all (length l) white_space l.
Definition trim_end (l : list byte) : list byte :=
  rev (strip_all (length l) ((@rev byte) <$> white_space) (rev l)).

Definition trim (s : string) : string :=
  String.string_of_list_ascii (trim_end (trim_start (as_bytes s))).

Example trim_plain : trim "  CVE-1	" = "CVE-1"%string.
Proof. reflexivity. Qed.

(** ** String order

    Rust orders [str] by bytes. *)

Definition str_leb (s t : string) : bool :=
  match String.compare s t with Gt => false | _ => true end.
Definition str_ltb (s t : string) : bool :=
  match String.compare s t with Lt => true | _ => false end.

Lemma ascii_compare_spec a b : Ascii.compare a b = N.compare (N_of_ascii a) (N_of_ascii b).
Proof. done. Qed.

Lemma str_compare_refl s : String.compare s s = Eq.
Proof. induction s as [| c s IH]; simpl; [done |]. by rewrite ascii_compare_spec, N.compare_refl. Qed.

Lemma str_leb_total s t : str_leb s t = true ∨ str_leb t s = true.
Proof.
  unfold str_leb. rewrite (String.compare_antisym s t).
  destruct (String.compare t s); simpl; auto.
Qed.

Lemma str_leb_antisym s t : str_leb s t = true → str_leb t s = true → s = t.
Proof.
  unfold str_leb. rewrite (String.compare_antisym s t).
  destruct (String.compare t s) eqn:E; simpl; try done.
  intros _ _. symmetry. by apply String.compare_eq_iff.
Qed.

Lemma str_leb_trans s t u : str_leb s t = true → str_leb t u = true → str_leb s u = true.
Proof.
  unfold str_leb. revert t u. induction s as [| a s IH]; intros [| b t] [| c u]; simpl; try done.
  rewrite !ascii_compare_spec.
  destruct (N.compare_spec (N_of_ascii a) (N_of_ascii b));
    destruct (N.compare_spec (N_of_ascii b) (N_of_ascii c));
    destruct (N.compare_spec (N_of_ascii a) (N_of_ascii c)); try done; try lia.
  apply IH.
Qed.

#[export] Instance str_compare_lawful : LawfulCmp String.compare.
Proof.
  split.
  - intros s t. apply String.compare_antisym.
  - intros s t u Hst Htu.
    assert (str_leb t s = true) as H1.
    { unfold str_leb. rewrite String.compare_antisym. by destruct (String.compare s t). }
    assert (str_leb u t = true) as H2.
    { unfold str_leb. rewrite String.compare_antisym. by destruct (String.compare t u). }
    pose proof (str_leb_trans _ _ _ H2 H1) as H3. unfold str_leb in H3.
    rewrite String.compare_antisym in H3. by destruct (String.compare s u).
Qed.

#[export] Hint Resolve str_leb_total str_leb_antisym str_leb_trans : hort.

(** [BTreeSet] iteration: distinct, in string order. *)
Definition btree_set (l : list string) : list string := sort_by str_leb (remove_dups l).

Lemma elem_of_btree_set s l : s ∈ btree_set l ↔ s ∈ l.
Proof. unfold btree_set. by rewrite sort_by_Permutation, elem_of_remove_dups. Qed.

(** ** [f32]

    IEEE-754 binary32 values as Rocq's [spec_float]; NaN payloads and signs are
    identified.  [<], [<=] and [>=] are the IEEE comparisons (false on NaN). *)

Abbreviation f32 := spec_float.

#[export] Instance f32_eq_dec : EqDecision f32.
Proof. solve_decision. Defined.

Definition f32_is_finite (x : f32) : bool :=
  match x with S754_zero _ | S754_finite _ _ _ => true | _ => false end.
Definition f32_is_nan (x : f32) : bool := match x with S754_nan => true | _ => false end.

Definition f32_le (x y : f32) : bool := SFleb x y.
Definition f32_lt (x y : f32) : bool := SFltb x y.

Definition f32_NEG_INFINITY : f32 := S754_infinity true.
Definition f32_zero : f32 := S754_zero false.
(** [10.0] is [5 * 2^21 * 2^-20]. *)
Definition f32_ten : f32 := S754_finite false (5 * 2 ^ 21) (-20).

(** [f32::max]: a NaN operand loses. *)
Definition f32_max (x y : f32) : f32 :=
  if f32_is_nan x then y else if f32_is_nan y then x else if f32_lt x y then y else x.

(** [f32::total_cmp] away from NaN: the IEEE order with [-0.0 < +0.0]. *)
Definition f32_total_cmp (x y : f32) : comparison :=
  match x, y with
  | S754_zero sx, S754_zero sy => Bool.compare sy sx
  | _, _ => match SFcompare x y with Some c => c | None => Eq end
  end.

(** Away from NaN, [total_cmp] is the lexicographic order of sign class,
    exponent and mantissa. *)
Definition f32_key (x : f32) : Z * (Z * Z) :=
  match x with
  | S754_infinity s => (if s then -2 else 2, (0, 0))
  | S754_finite s m e => if s then (-1, (- e, - Zpos m)) else (1, (e, Zpos m))
  | S754_zero s => (0, (if s then -1 else 0, 0))
  | S754_nan => (3, (0, 0))
  end.

Definition f32_key_cmp (x y : f32) : comparison :=
  cmp_then (Z.compare (f32_key x).1 (f32_key y).1)
    (cmp_then (Z.compare (f32_key x).2.1 (f32_key y).2.1)
              (Z.compare (f32_key x).2.2 (f32_key y).2.2)).

#[export] Instance f32_key_cmp_lawful : LawfulCmp f32_key_cmp.
Proof.
  apply cmp_then_lawful; [apply (cmp_on_lawful (λ x, (f32_key x).1)), _ |].
  apply cmp_then_lawful;
    [apply (cmp_on_lawful (λ x, (f32_key x).2.1)), _ | apply (cmp_on_lawful (λ x, (f32_key x).2.2)), _].
Qed.

Lemma f32_total_cmp_key x y :
  f32_is_nan x = false → f32_is_nan y = false → f32_total_cmp x y = f32_key_cmp x y.
Proof.
  unfold f32_key_cmp.
  destruct x as [[]|[]| |[] m e], y as [[]|[]| |[] m' e']; try done; intros _ _;
    cbn [f32_total_cmp SFcompare f32_key fst snd]; change (Pos.compare_cont Eq m m') with (m ?= m')%positive.
  - rewrite !Z.compare_opp, Z.compare_antisym, (Z.compare_antisym (Zpos m) (Zpos m')).
    cbn. by destruct (e' ?= e), (m ?= m')%positive.
  - cbn. by destruct (e ?= e').
Qed.

Example f32_ten_cmp :
  f32_le (S754_finite false (2 ^ 23) (-20)) f32_ten = true ∧ f32_le f32_ten f32_ten = true.
Proof. by split. Qed.

(** ** Time

    [DateTime<Utc>] is a count of nanoseconds since the Unix epoch within
    chrono's range, [chrono::Duration] a signed count of nanoseconds.  [+] and
    [-] between the two panic outside the range: [None]. *)

Abbreviation DateTime := Z.
Abbreviation Duration := Z.

Definition NANOS : Z := 10 ^ 9.

(** [DateTime::MIN_UTC], -262143-01-01T00:00:00Z, and [DateTime::MAX_UTC],
    +262142-12-31T23:59:59.999999999Z. *)
Definition MIN_UTC : Z := -8334601228800 * NANOS.
Definition MAX_UTC : Z := 8210266876800 * NANOS - 1.

Definition in_range (t : Z) : Prop := MIN_UTC ≤ t ≤ MAX_UTC.

Definition checked_time (t : Z) : option DateTime :=
  if (MIN_UTC <=? t) && (t <=? MAX_UTC) then Some t else None.

Definition time_add (t : DateTime) (d : Duration) : option DateTime := checked_time (t + d).
Definition time_sub (t : DateTime) (d : Duration) : option DateTime := checked_time (t - d).

(** [a.signed_duration_since(b)] and [a - b]: never out of range for two instants. *)
Definition signed_duration_since (a b : DateTime) : Duration := a - b.

(** [Duration::num_seconds] truncates towards zero. *)
Definition num_seconds (d : Duration) : Z := Z.quot d NANOS.

(** [Duration::to_std]: refused when negative; [as_secs] of the result. *)
Definition to_std_as_secs (d : Duration) : option Z :=
  if d <? 0 then None else Some (d / NANOS).

(** [chrono::Duration::seconds], which panics outside [i64] milliseconds. *)
Definition duration_seconds (secs : Z) : option Duration :=
  if Z.abs secs <=? i64_MAX / 1000 then Some (secs * NANOS) else None.

Lemma checked_time_Some t t' : checked_time t = Some t' ↔ t' = t ∧ in_range t.
Proof.
  unfold checked_time, in_range. case_match; breflect.
  - split; [by intros [= <-] | by intros [-> _]].
  - split; [done |]. intros [-> [H1 H2]]. apply Z.leb_le in H1, H2.
    rewrite H1, H2 in *. done.
Qed.

(** ** Vectors *)

(** [Vec::dedup]: drop consecutive repetitions. *)
Fixpoint dedup (l : list Z) : list Z :=
  match l with
  | x :: ((y :: _) as l') => if x =? y then dedup l' else x :: dedup l'
  | _ => l
  end.

Lemma elem_of_dedup l x : x ∈ dedup l ↔ x ∈ l.
Proof.
  induction l as [| y l IH]; [done |]. destruct l as [| z l]; [done |].
  cbn [dedup]. destruct (Z.eqb_spec y z) as [-> |]; rewrite ?elem_of_cons, IH; set_solver.
Qed.

Lemma dedup_sorted l : StronglySorted Z.le l → StronglySorted Z.lt (dedup l).
Proof.
  induction l as [| x l IH]; intros Hs; [constructor |].
  apply StronglySorted_inv in Hs as [Hs Hx]. destruct l as [| y l].
  { repeat constructor. }
  cbn [dedup]. destruct (Z.eqb_spec x y) as [| Hne]; [by apply IH |].
  constructor; [by apply IH |]. apply Forall_forall. intros z Hz.
  apply (elem_of_dedup (y :: l)) in Hz.
  rewrite Forall_cons in Hx. destruct Hx as [Hxy _].
  apply elem_of_cons in Hz as [-> | Hz]; [lia |].
  apply StronglySorted_inv in Hs as [_ Hy]. rewrite Forall_forall in Hy.
  specialize (Hy z Hz). lia.
Qed.

(** ** Integers in text *)

(** [char::to_digit(16)]. *)
Definition hex_digit (c : byte) : option Z :=
  let x := Z_of_byte c in
  if is_digit c then Some (x - 48)
  else if (97 <=? x) && (x <=? 102) then Some (x - 87)
  else if (65 <=? x) && (x <=? 70) then Some (x - 55)
  else None.

Fixpoint hex_digits (acc : Z) (l : list byte) : option Z :=
  match l with
  | [] => Some acc
  | c :: l' => d ← hex_digit c; let acc' := 16 * acc + d in
               if acc' <=? u64_MAX then hex_digits acc' l' else None
  end.

(** [u64::from_str_radix(_, 16)]: a leading plus is skipped, no digit or an
    overflow is an error. *)
Definition u64_from_hex (s : string) : option Z :=
  let digits := match as_bytes s with
                | c :: l => if Z_of_byte c =? 43 then l else c :: l
                | [] => []
                end in
  if is_empty digits then None else hex_digits 0 digits.

(** [x as i64]. *)
Definition u64_as_i64 (x : Z) : Z := if x <=? i64_MAX then x else x - 2 ^ 64.
