(* ===== verification/Json.v ===== *)
(** [serde_json::Value]: the data, the [BTreeMap]-backed object map, the
    accessors the sources use, and the equivalence of two values up to the order
    of object keys. *)

From S2P Require Import Prelude RustStd.

(** ** Values

    A number is an unsigned or a negative integer, or the 64-bit pattern of a
    finite float.  An object is the list of its entries in iteration order. *)

Inductive Number : Type :=
  | PosInt (n : Z)
  | NegInt (n : Z)
  | Float (bits : Z).

Inductive Value : Type :=
  | VNull
  | VBool (b : bool)
  | VNumber (n : Number)
  | VString (s : string)
  | VArray (l : list Value)
  | VObject (m : list (string * Value)).

#[export] Instance Number_eq_dec : EqDecision Number.
Proof. solve_decision. Defined.

Section Value_ind.
Context (P : Value → Prop).
Context (Hnull : P VNull) (Hbool : ∀ b, P (VBool b)) (Hnum : ∀ n, P (VNumber n)).
Context (Hstr : ∀ s, P (VString s)).
Context (Harr : ∀ l, (∀ v, v ∈ l → P v) → P (VArray l)).
Context (Hobj : ∀ m, (∀ k v, (k, v) ∈ m → P v) → P (VObject m)).

Fixpoint Value_nested_ind (v : Value) : P v.
Proof using Hnull Hbool Hnum Hstr Harr Hobj.
  destruct v as [| b | n | s | l | m]; [exact Hnull | apply Hbool | apply Hnum | apply Hstr | |].
  - apply Harr. induction l as [| v l IH]; intros w Hw; [destruct (not_elem_of_nil _ Hw) |].
    apply elem_of_cons in Hw as [-> | Hw]; [apply Value_nested_ind | by apply IH].
  - apply Hobj. induction m as [| [k v] m IH]; intros k' w Hw; [destruct (not_elem_of_nil _ Hw) |].
    apply elem_of_cons in Hw as [[= -> ->] | Hw]; [apply Value_nested_ind | by eapply IH].
Defined.
End Value_ind.

#[export] Instance Value_eq_dec : EqDecision Value.
Proof.
  unfold EqDecision. fix go 1. intros v w.
  destruct v as [| b | n | s | l | m], w as [| b' | n' | s' | l' | m'];
    try (right; discriminate).
  - by left.
  - destruct (decide (b = b')); [left | right]; congruence.
  - destruct (decide (n = n')); [left | right]; congruence.
  - destruct (decide (s = s')); [left | right]; congruence.
  - assert (Decision (l = l')) as [-> | H].
    { revert l'. induction l as [| v l IH]; intros [| w l'];
        [by left | by right | by right |].
      destruct (go v w) as [-> | H]; [| right; congruence].
      destruct (IH l') as [-> | H]; [by left | right; congruence]. }
    + by left.
    + right; congruence.
  - assert (Decision (m = m')) as [-> | H].
    { revert m'. induction m as [| [k v] m IH]; intros [| [k' w] m'];
        [by left | by right | by right |].
      destruct (decide (k = k')) as [-> | H]; [| right; congruence].
      destruct (go v w) as [-> | H]; [| right; congruence].
      destruct (IH m') as [-> | H]; [by left | right; congruence]. }
    + by left.
    + right; congruence.
Defined.

(** ** Object maps *)

Fixpoint map_get (k : string) (m : list (string * Value)) : option Value :=
  match m with
  | [] => None
  | (k', v) :: m' => if bool_decide (k = k') then Some v else map_get k m'
  end.

(** [BTreeMap::insert]: keys stay in byte order, an equal key is replaced. *)
Fixpoint map_insert (k : string) (v : Value) (m : list (string * Value)) : list (string * Value) :=
  match m with
  | [] => [(k, v)]
  | (k', v') :: m' =>
      match String.compare k k' with
      | Lt => (k, v) :: m
      | Eq => (k, v) :: m'
      | Gt => (k', v') :: map_insert k v m'
      end
  end.

(** [Map::from_iter]. *)
Definition map_collect (l : list (string * Value)) : list (string * Value) :=
  foldl (λ m kv, map_insert kv.1 kv.2 m) [] l.

(** ** Accessors *)

Definition is_null (v : Value) : bool := match v with VNull => true | _ => false end.
Definition as_str (v : Value) : option string := match v with VString s => Some s | _ => None end.
Definition as_bool (v : Value) : option bool := match v with VBool b => Some b | _ => None end.
Definition as_array (v : Value) : option (list Value) :=
  match v with VArray l => Some l | _ => None end.
Definition as_object (v : Value) : option (list (string * Value)) :=
  match v with VObject m => Some m | _ => None end.

(** [Value::as_i64]: an integer that fits. *)
Definition as_i64 (v : Value) : option Z :=
  match v with
  | VNumber (PosInt n) => if n <=? i64_MAX then Some n else None
  | VNumber (NegInt n) => Some n
  | _ => None
  end.

(** [Value::from(i64)]. *)
Definition value_of_i64 (n : Z) : Value :=
  VNumber (if n <? 0 then NegInt n else PosInt n).

Lemma as_i64_of_i64 n : n ≤ i64_MAX → as_i64 (value_of_i64 n) = Some n.
Proof.
  intros Hn. unfold value_of_i64. destruct (n <? 0) eqn:E; simpl; [done |].
  apply Z.leb_le in Hn. by rewrite Hn.
Qed.

(** ** Well-formed values

    The type's own invariants: a map's keys are unique and a number is stored in
    the variant its range selects. *)

Definition number_wf (n : Number) : Prop :=
  match n with
  | PosInt n => 0 ≤ n < 2 ^ 64
  | NegInt n => - 2 ^ 63 ≤ n < 0
  | Float bits => 0 ≤ bits < 2 ^ 64
  end.

Inductive json_wf : Value → Prop :=
  | wf_null : json_wf VNull
  | wf_bool b : json_wf (VBool b)
  | wf_number n : number_wf n → json_wf (VNumber n)
  | wf_string s : json_wf (VString s)
  | wf_array l : (∀ v, v ∈ l → json_wf v) → json_wf (VArray l)
  | wf_object m : NoDup m.*1 → (∀ k v, (k, v) ∈ m → json_wf v) → json_wf (VObject m).

#[export] Hint Constructors json_wf : hort.

Lemma elem_of_map_get k v m : map_get k m = Some v → (k, v) ∈ m.
Proof.
  induction m as [| [k' v'] m IH]; simpl; [done |].
  case_bool_decide; intros H'; simplify_eq; set_solver.
Qed.

Lemma map_get_elem_of k v m : NoDup m.*1 → (k, v) ∈ m → map_get k m = Some v.
Proof.
  induction m as [| [k' v'] m IH]; simpl; [set_solver |].
  intros [Hk' Hm]%NoDup_cons [[= -> ->] | Hin]%elem_of_cons.
  - by rewrite bool_decide_true.
  - rewrite bool_decide_false; [by apply IH |].
    intros ->. apply Hk'. apply list_elem_of_fmap. by exists (k', v).
Qed.

Lemma map_get_None k m : map_get k m = None ↔ k ∉ m.*1.
Proof.
  induction m as [| [k' v'] m IH]; simpl; [set_solver |].
  case_bool_decide; set_solver.
Qed.

Lemma map_insert_get k v m j :
  map_get j (map_insert k v m) = if bool_decide (j = k) then Some v else map_get j m.
Proof.
  induction m as [| [k' v'] m IH]; simpl; [done |].
  destruct (String.compare k k') eqn:E; simpl.
  - apply String.compare_eq_iff in E as ->. by case_bool_decide.
  - done.
  - rewrite IH. destruct (decide (j = k')) as [-> | ?]; [| by rewrite bool_decide_false].
    rewrite (bool_decide_true (k' = k')) by done.
    destruct (decide (k' = k)) as [-> | ?]; [| by rewrite bool_decide_false].
    by rewrite str_compare_refl in E.
Qed.

Lemma map_collect_snoc l k v : map_collect (l ++ [(k, v)]) = map_insert k v (map_collect l).
Proof. unfold map_collect. by rewrite foldl_snoc. Qed.

(** Of entries with distinct keys, the map has each. *)
Lemma map_collect_get l k v :
  NoDup l.*1 → map_get k (map_collect l) = Some v ↔ (k, v) ∈ l.
Proof.
  induction l as [| [j w] l IH] using rev_ind; [set_solver |].
  rewrite fmap_app, map_collect_snoc, map_insert_get, elem_of_app, list_elem_of_singleton.
  intros (Hnd & Hdis & _)%NoDup_app. case_bool_decide as Hk; subst.
  - split; [by intros [= ->]; right |]. intros [Hin | [= ->]]; [| done].
    destruct (Hdis j); [by apply (list_elem_of_fmap_2 fst _ (j, v)) | by left].
  - rewrite IH by done. split; [auto | intros [| [= ]]; congruence].
Qed.

(** ** Canonical key order

    [canonicalize_json] rewrites every object so that its keys come out in byte
    order.  The source sorts the entries and canonicalizes each value as it is
    inserted; the comparison only reads keys, so sorting after the values were
    rewritten is the same list. *)

Definition key_leb (a b : string * Value) : bool := str_leb a.1 b.1.

Fixpoint canonicalize_json (v : Value) : Value :=
  match v with
  | VObject m =>
      VObject (map_collect (sort_by key_leb (map (λ kv, (kv.1, canonicalize_json kv.2)) m)))
  | VArray l => VArray (map canonicalize_json l)
  | scalar => scalar
  end.

(** Two values are equivalent when they agree up to the order of object keys. *)
Inductive json_equiv : Value → Value → Prop :=
  | equiv_null : json_equiv VNull VNull
  | equiv_bool b : json_equiv (VBool b) (VBool b)
  | equiv_number n : json_equiv (VNumber n) (VNumber n)
  | equiv_string s : json_equiv (VString s) (VString s)
  | equiv_array l1 l2 :
      length l1 = length l2 →
      (∀ i v1 v2, l1 !! i = Some v1 → l2 !! i = Some v2 → json_equiv v1 v2) →
      json_equiv (VArray l1) (VArray l2)
  | equiv_object m1 m2 :
      (∀ k, is_Some (map_get k m1) ↔ is_Some (map_get k m2)) →
      (∀ k v1 v2, map_get k m1 = Some v1 → map_get k m2 = Some v2 → json_equiv v1 v2) →
      json_equiv (VObject m1) (VObject m2).

#[export] Hint Constructors json_equiv : hort.

Definition canon_entries (m : list (string * Value)) : list (string * Value) :=
  sort_by key_leb (map (λ kv, (kv.1, canonicalize_json kv.2)) m).

Lemma key_leb_total x y : key_leb x y = true ∨ key_leb y x = true.
Proof. apply str_leb_total. Qed.

#[export] Instance key_leb_trans : Transitive (λ x y, Is_true (key_leb x y)).
Proof. intros x y z. rewrite !Is_true_true. apply str_leb_trans. Qed.

Lemma canon_entries_keys m : (canon_entries m).*1 ≡ₚ m.*1.
Proof.
  unfold canon_entries. rewrite sort_by_Permutation, <- list_fmap_compose. done.
Qed.

Lemma canon_entries_sorted m : StronglySorted (λ x y, Is_true (key_leb x y)) (canon_entries m).
Proof.
  apply Sorted_StronglySorted; [apply _ |]. apply sort_by_Sorted, key_leb_total.
Qed.

(** Inserting strictly increasing entries one after the other rebuilds the list. *)
Lemma map_insert_last k v m :
  (∀ k', k' ∈ m.*1 → str_ltb k' k = true) → map_insert k v m = m ++ [(k, v)].
Proof.
  induction m as [| [k' v'] m IH]; simpl; intros Hlt; [done |].
  assert (String.compare k k' = Gt) as ->.
  { specialize (Hlt k'). unfold str_ltb in Hlt. rewrite String.compare_antisym.
    destruct (String.compare k' k); simpl; try done; by ospecialize (Hlt _); [left |]. }
  rewrite IH; [done |]. intros; apply Hlt. by right.
Qed.

Lemma map_collect_sorted l :
  NoDup l.*1 → StronglySorted (λ x y, Is_true (key_leb x y)) l → map_collect l = l.
Proof.
  unfold map_collect. intros Hnd Hs.
  assert (∀ acc, NoDup (acc ++ l).*1 →
    StronglySorted (λ x y, Is_true (key_leb x y)) (acc ++ l) →
    foldl (λ m kv, map_insert kv.1 kv.2 m) acc l = acc ++ l) as H.
  { clear Hnd Hs. induction l as [| [k v] l IH]; intros acc Hnd Hs; simpl;
      [by rewrite app_nil_r |].
    rewrite map_insert_last.
    - rewrite IH; by rewrite <- (assoc_L (++)).
    - intros k' Hk'. rewrite fmap_app in Hnd. apply NoDup_app in Hnd as (_ & Hnot & _).
      apply list_elem_of_fmap in Hk' as ([k1 v1] & -> & Hin). simpl.
      apply StronglySorted_app in Hs as (Hs & _ & _).
      specialize (Hs (k1, v1) (k, v) Hin (list_elem_of_here _ _)).
      unfold key_leb, str_leb, str_ltb in *. simpl in *.
      destruct (String.compare k1 k) eqn:E; try done.
      apply String.compare_eq_iff in E as ->. exfalso.
      apply (Hnot k); [apply list_elem_of_fmap; by exists (k, v1) | simpl; by left]. }
  by rewrite H.
Qed.

Lemma canonicalize_object m :
  NoDup m.*1 → canonicalize_json (VObject m) = VObject (canon_entries m).
Proof.
  intros Hm. simpl. f_equal. apply map_collect_sorted; [| apply canon_entries_sorted].
  by rewrite canon_entries_keys.
Qed.

Lemma canon_entries_get m k :
  NoDup m.*1 → map_get k (canon_entries m) = canonicalize_json <$> map_get k m.
Proof.
  intros Hm. assert (NoDup (canon_entries m).*1) as Hc by by rewrite canon_entries_keys.
  destruct (map_get k m) as [v |] eqn:E; simpl.
  - apply map_get_elem_of; [done |]. unfold canon_entries. rewrite sort_by_Permutation.
    apply list_elem_of_fmap. exists (k, v). split; [done |]. by apply elem_of_map_get.
  - apply map_get_None. rewrite canon_entries_keys. by apply map_get_None.
Qed.

(** Sorted maps with unique keys are determined by their lookups. *)
Lemma sorted_map_ext m1 m2 :
  NoDup m1.*1 → NoDup m2.*1 →
  StronglySorted (λ x y, Is_true (key_leb x y)) m1 →
  StronglySorted (λ x y, Is_true (key_leb x y)) m2 →
  (∀ k, map_get k m1 = map_get k m2) → m1 = m2.
Proof.
  intros Hn1 Hn2 Hs1 Hs2 Hget.
  assert (m1 ≡ₚ m2) as Hp.
  { apply NoDup_Permutation; [by eapply NoDup_fmap_1 .. |].
    intros [k v]. split; intros Hin.
    - apply elem_of_map_get. rewrite <- Hget. by apply map_get_elem_of.
    - apply elem_of_map_get. rewrite Hget. by apply map_get_elem_of. }
  apply (StronglySorted_unique_strong (λ x y, Is_true (key_leb x y))); try done.
  intros [k1 v1] [k2 v2] Hin1 Hin2. rewrite !Is_true_true. unfold key_leb; simpl.
  intros H12 H21. assert (k1 = k2) as -> by eauto using str_leb_antisym.
  rewrite <- Hp in Hin2. apply map_get_elem_of in Hin1, Hin2; congruence.
Qed.

Lemma canonicalize_json_equiv_1 v w :
  json_wf v → json_wf w → canonicalize_json v = canonicalize_json w → json_equiv v w.
Proof.
  intros Hv. revert w. induction Hv as [| | | | l Hl IH | m Hm Hvs IH]; intros w Hw Heq;
    destruct Hw as [| | | | l' Hl' | m' Hm' Hvs'];
    rewrite ?canonicalize_object in Heq by done; simpl in Heq;
    rewrite ?canonicalize_object in Heq by done; simplify_eq; auto with hort.
  - constructor; [by apply (f_equal length) in Heq; rewrite !length_map in Heq |].
    intros i v1 v2 H1 H2. apply IH; eauto using list_elem_of_lookup_2.
    apply (f_equal (.!! i)) in Heq.
    change (map canonicalize_json) with (fmap (M := list) canonicalize_json) in Heq.
    rewrite !list_lookup_fmap, H1, H2 in Heq. by simplify_eq/=.
  - assert (∀ k, canonicalize_json <$> map_get k m = canonicalize_json <$> map_get k m') as Hk.
    { intros k. by rewrite <- !canon_entries_get, Heq. }
    constructor.
    + intros k. specialize (Hk k). destruct (map_get k m), (map_get k m'); simplify_eq/=; naive_solver.
    + intros k v1 v2 H1 H2. specialize (Hk k). rewrite H1, H2 in Hk. simplify_eq/=.
      eapply IH; eauto using elem_of_map_get.
Qed.

Lemma canonicalize_json_equiv_2 v w :
  json_wf v → json_wf w → json_equiv v w → canonicalize_json v = canonicalize_json w.
Proof.
  intros Hv Hw Heq. revert Hv Hw.
  induction Heq as [| | | | l1 l2 Hlen _ IH | m1 m2 Hdom _ IH]; intros Hv Hw; try done.
  - inversion Hv as [| | | | ? Hw1 |]; inversion Hw as [| | | | ? Hw2 |]; subst. simpl. f_equal.
    change (map canonicalize_json) with (fmap (M := list) canonicalize_json).
    apply list_eq. intros i. rewrite !list_lookup_fmap.
    destruct (l1 !! i) as [v1 |] eqn:H1.
    + destruct (lookup_lt_is_Some_2 l2 i) as [v2 H2]; [rewrite <- Hlen; by eapply lookup_lt_Some |].
      rewrite H2. simpl. f_equal. eapply IH; eauto using list_elem_of_lookup_2.
    + apply lookup_ge_None in H1. rewrite (proj2 (lookup_ge_None l2 i)); [done | lia].
  - inversion Hv as [| | | | | ? Hm1 Hv1]; inversion Hw as [| | | | | ? Hm2 Hv2]; subst.
    rewrite !canonicalize_object by done. f_equal.
    apply sorted_map_ext; rewrite ?canon_entries_keys; auto using canon_entries_sorted.
    intros k. rewrite !canon_entries_get by done.
    destruct (map_get k m1) as [v1 |] eqn:H1, (map_get k m2) as [v2 |] eqn:H2; simpl.
    + f_equal. eapply IH; eauto using elem_of_map_get.
    + destruct (proj1 (Hdom k)) as [? ?]; [by rewrite H1 | congruence].
    + destruct (proj2 (Hdom k)) as [? ?]; [by rewrite H2 | congruence].
    + done.
Qed.

Lemma canonicalize_json_wf v : json_wf v → json_wf (canonicalize_json v).
Proof.
  induction 1 as [| | | | l Hl IH | m Hm Hvs IH]; try (by constructor).
  - constructor. intros v (w & -> & Hw)%list_elem_of_fmap. by apply IH.
  - rewrite canonicalize_object by done. constructor; [by rewrite canon_entries_keys |].
    intros k v. unfold canon_entries. rewrite sort_by_Permutation.
    intros ([k' w] & [= -> ->] & Hw)%list_elem_of_fmap. by eapply IH.
Qed.
