(* ===== verification/EventChain.v ===== *)
(** The tamper-evident event chain of [crates/hort-domain/src/events/chain.rs]:
    the canonical byte form of an event row, its hash, and the walk that verifies
    one stream. *)

From S2P Require Import Prelude RustStd Json.

(** ** Primitives from other crates

    [sha256] is the [sha2] crate's digest and [to_vec] is [serde_json::to_vec].
    The chain relies on the digest being 32 bytes and on distinct values having
    distinct serializations; collision resistance is not assumed, the theorems
    that need it name the colliding messages instead. *)
Class ChainPrimitives : Type := {
  sha256 : list byte → list byte;
  sha256_len : ∀ m, length (sha256 m) = 32%nat;
  to_vec : Value → list byte;
  to_vec_inj : ∀ v w, json_wf v → json_wf w → to_vec v = to_vec w → v = w;
}.

(** ** Rows *)

(** [EventHash([u8; 32])]; the length is part of [chain_input_wf]. *)
Abbreviation EventHash := (list byte).

Definition DOMAIN_TAG : list byte := as_bytes "hort-evchain/v1" ++ [byte_of_Z 0x00].
Definition GENESIS_PREIMAGE : list byte := as_bytes "hort-event-chain/v1/genesis".

Record ActorCanonical : Type := {
  actor_type : string;
  actor_id : option Uuid;
  actor_source_file : option string;
  actor_spec_digest : option (list byte);
}.

Record ChainInput : Type := {
  prev_event_hash : EventHash;
  event_id : Uuid;
  stream_id : string;
  stream_category : string;
  stream_position : Z;
  event_type : string;
  event_version : Z;
  payload : Value;
  correlation_id : Uuid;
  causation_id : option Uuid;
  actor : ActorCanonical;
}.

Record StreamRow : Type := {
  input : ChainInput;
  stored_prev : EventHash;
  stored_hash : EventHash;
}.

Record ChainRow : Type := {
  cr_event_data : Value;
  cr_event_id : Uuid;
  cr_stream_id : string;
  cr_stream_category : string;
  cr_stream_position : Z;
  cr_event_type : string;
  cr_event_version : Z;
  cr_correlation_id : Uuid;
  cr_causation_id : option Uuid;
  cr_actor_type : string;
  cr_actor_id : option Uuid;
  cr_actor_source_file : option string;
  cr_actor_spec_digest : option (list byte);
  cr_stored_prev : EventHash;
  cr_stored_hash : EventHash;
}.

Definition as_stream_row (r : ChainRow) : StreamRow := {|
  input := {|
    prev_event_hash := cr_stored_prev r;
    event_id := cr_event_id r;
    stream_id := cr_stream_id r;
    stream_category := cr_stream_category r;
    stream_position := cr_stream_position r;
    event_type := cr_event_type r;
    event_version := cr_event_version r;
    payload := cr_event_data r;
    correlation_id := cr_correlation_id r;
    causation_id := cr_causation_id r;
    actor := {|
      actor_type := cr_actor_type r;
      actor_id := cr_actor_id r;
      actor_source_file := cr_actor_source_file r;
      actor_spec_digest := cr_actor_spec_digest r;
    |};
  |};
  stored_prev := cr_stored_prev r;
  stored_hash := cr_stored_hash r;
|}.

(** ** Canonical encoding *)

Definition put_lp (buf bytes : list byte) : list byte :=
  (buf ++ to_be_bytes 8 (len bytes)) ++ bytes.

Definition put_opt (buf : list byte) (present : bool) (emit : list byte → list byte) : list byte :=
  if present then emit (buf ++ [byte_of_Z 0x01]) else buf ++ [byte_of_Z 0x00].

(** [Option::is_some] and the closures' [expect], entered only when present. *)
Definition expect {A} (d : A) (o : option A) : A := match o with Some a => a | None => d end.

Section canonical.
Context `{CP : ChainPrimitives}.

Definition genesis_hash : EventHash := sha256 GENESIS_PREIMAGE.

Definition canonical_payload_bytes (payload : Value) : list byte :=
  to_vec (canonicalize_json payload).

Definition canonical_event_bytes (i : ChainInput) : list byte :=
  let buf := [] ++ DOMAIN_TAG in
  let buf := buf ++ prev_event_hash i in
  let buf := buf ++ uuid_bytes (event_id i) in
  let buf := put_lp buf (as_bytes (stream_id i)) in
  let buf := put_lp buf (as_bytes (stream_category i)) in
  let buf := buf ++ to_be_bytes 8 (stream_position i) in
  let buf := put_lp buf (as_bytes (event_type i)) in
  let buf := buf ++ to_be_bytes 4 (event_version i) in
  let payload := canonical_payload_bytes (payload i) in
  let buf := put_lp buf payload in
  let buf := buf ++ uuid_bytes (correlation_id i) in
  let buf := put_opt buf (is_some (causation_id i))
               (λ b, b ++ uuid_bytes (expect 0 (causation_id i))) in
  let buf := put_lp buf (as_bytes (actor_type (actor i))) in
  let buf := put_opt buf (is_some (actor_id (actor i)))
               (λ b, b ++ uuid_bytes (expect 0 (actor_id (actor i)))) in
  let buf := put_opt buf (is_some (actor_source_file (actor i)))
               (λ b, put_lp b (as_bytes (expect ""%string (actor_source_file (actor i))))) in
  let buf := put_opt buf (is_some (actor_spec_digest (actor i)))
               (λ b, put_lp b (expect [] (actor_spec_digest (actor i)))) in
  buf.

Definition compute_event_hash (i : ChainInput) : EventHash :=
  sha256 (canonical_event_bytes i).
End canonical.

(** ** Unambiguous encodings

    [framed P enc]: on values satisfying [P], the encoding of a value can be cut
    off the front of any byte string in at most one way. *)

Definition framed {A} (P : A → Prop) (enc : A → list byte) : Prop :=
  ∀ a b r s, P a → P b → enc a ++ r = enc b ++ s → a = b ∧ r = s.

Lemma framed_fixed {A} (P : A → Prop) (enc : A → list byte) n :
  (∀ a, P a → length (enc a) = n) →
  (∀ a b, P a → P b → enc a = enc b → a = b) → framed P enc.
Proof.
  intros Hlen Hinj a b r s Ha Hb H. apply app_inj_len in H as [H1 H2]; [eauto |].
  by rewrite !Hlen.
Qed.

Lemma framed_be n : framed (is_uint (8 * Z.of_nat n)) (to_be_bytes n).
Proof.
  apply (framed_fixed _ _ n); [intros; apply length_to_be_bytes |].
  intros a b Ha Hb. apply to_be_bytes_inj; unfold is_uint in *;
    by change 256 with (2 ^ 8); rewrite <- Z.pow_mul_r by lia.
Qed.

Definition lp (bytes : list byte) : list byte := to_be_bytes 8 (len bytes) ++ bytes.

Lemma framed_lp : framed (λ bs, len bs < 2 ^ 64) lp.
Proof.
  intros a b r s Ha Hb. unfold lp. rewrite <- !(assoc_L (++)). intros H.
  apply (framed_be 8) in H as [Hl H]; [| unfold is_uint, len in *; lia ..].
  apply app_inj_len in H; [done |]. unfold len in Hl. lia.
Qed.

Definition opt {A} (enc : A → list byte) (o : option A) : list byte :=
  match o with Some a => byte_of_Z 0x01 :: enc a | None => [byte_of_Z 0x00] end.

Lemma framed_opt {A} (P : A → Prop) (enc : A → list byte) :
  framed P enc → framed (λ o, ∀ a, o = Some a → P a) (opt enc).
Proof.
  intros Henc [a |] [b |] r s Ha Hb H; simplify_eq/=.
  - apply Henc in H as [-> ->]; eauto.
  - done.
Qed.

Lemma put_opt_opt {A} buf (d : A) (o : option A) (enc : A → list byte) :
  put_opt buf (is_some o) (λ b, b ++ enc (expect d o)) = buf ++ opt enc o.
Proof. destruct o; simpl; [by rewrite <- (assoc_L (++)) | done]. Qed.

Lemma put_lp_lp buf bs : put_lp buf bs = buf ++ lp bs.
Proof. unfold put_lp, lp. by rewrite (assoc_L (++)). Qed.

Definition lps (s : string) : list byte := lp (as_bytes s).

Lemma framed_lps : framed (λ s, strlen s < 2 ^ 64) lps.
Proof.
  intros a b r s Ha Hb H. rewrite <- len_as_bytes in Ha, Hb.
  apply framed_lp in H as [H ->]; [| done ..]. split; [by apply as_bytes_inj | done].
Qed.

Lemma framed_uuid : framed (is_uint 128) uuid_bytes.
Proof. exact (framed_be 16). Qed.

Lemma framed_hash : framed (λ h : EventHash, length h = 32%nat) id.
Proof. by apply (framed_fixed _ _ 32). Qed.

(** ** The ranges Rust's types give the columns *)
Record chain_input_wf `{ChainPrimitives} (i : ChainInput) : Prop := {
  wf_prev : length (prev_event_hash i) = 32%nat;
  wf_event_id : is_uint 128 (event_id i);
  wf_stream_id : strlen (stream_id i) < 2 ^ 64;
  wf_category : strlen (stream_category i) < 2 ^ 64;
  wf_position : is_uint 64 (stream_position i);
  wf_event_type : strlen (event_type i) < 2 ^ 64;
  wf_version : is_uint 32 (event_version i);
  wf_payload : json_wf (payload i);
  wf_payload_len : len (canonical_payload_bytes (payload i)) < 2 ^ 64;
  wf_correlation : is_uint 128 (correlation_id i);
  wf_causation : ∀ u, causation_id i = Some u → is_uint 128 u;
  wf_actor_type : strlen (actor_type (actor i)) < 2 ^ 64;
  wf_actor_id : ∀ u, actor_id (actor i) = Some u → is_uint 128 u;
  wf_source_file : ∀ s, actor_source_file (actor i) = Some s → strlen s < 2 ^ 64;
  wf_spec_digest : ∀ d, actor_spec_digest (actor i) = Some d → len d < 2 ^ 64;
}.

(** Two inputs that differ at most in the key order of their payloads. *)
Record input_equiv (i j : ChainInput) : Prop := {
  ie_prev : prev_event_hash i = prev_event_hash j;
  ie_event_id : event_id i = event_id j;
  ie_stream_id : stream_id i = stream_id j;
  ie_category : stream_category i = stream_category j;
  ie_position : stream_position i = stream_position j;
  ie_event_type : event_type i = event_type j;
  ie_version : event_version i = event_version j;
  ie_payload : json_equiv (payload i) (payload j);
  ie_correlation : correlation_id i = correlation_id j;
  ie_causation : causation_id i = causation_id j;
  ie_actor : actor i = actor j;
}.

Section encoding.
Context `{CP : ChainPrimitives}.

Lemma canonical_event_bytes_app i :
  canonical_event_bytes i =
    DOMAIN_TAG ++ id (prev_event_hash i) ++ uuid_bytes (event_id i) ++ lps (stream_id i) ++
    lps (stream_category i) ++ to_be_bytes 8 (stream_position i) ++ lps (event_type i) ++
    to_be_bytes 4 (event_version i) ++ lp (canonical_payload_bytes (payload i)) ++
    uuid_bytes (correlation_id i) ++ opt uuid_bytes (causation_id i) ++
    lps (actor_type (actor i)) ++ opt uuid_bytes (actor_id (actor i)) ++
    opt lps (actor_source_file (actor i)) ++ opt lp (actor_spec_digest (actor i)) ++ [].
Proof.
  unfold canonical_event_bytes. cbv zeta.
  assert (∀ buf (o : option string), put_opt buf (is_some o)
    (λ b, put_lp b (as_bytes (expect ""%string o))) = buf ++ opt lps o) as Hs.
  { intros buf [s |]; simpl; [| done]. by rewrite put_lp_lp, <- (assoc_L (++)). }
  assert (∀ buf (o : option (list byte)), put_opt buf (is_some o)
    (λ b, put_lp b (expect [] o)) = buf ++ opt lp o) as Hb.
  { intros buf [s |]; simpl; [| done]. by rewrite put_lp_lp, <- (assoc_L (++)). }
  rewrite Hb, Hs, !put_opt_opt, !put_lp_lp. unfold lps, id.
  by rewrite app_nil_r, <- !(assoc_L (++)).
Qed.

(** The fields a canonical byte string was built from can be read back. *)
Lemma canonical_event_bytes_inj i j :
  chain_input_wf i → chain_input_wf j →
  canonical_event_bytes i = canonical_event_bytes j → input_equiv i j.
Proof.
  intros Hi Hj. rewrite !canonical_event_bytes_app. intros H.
  apply app_inv_head in H.
  destruct Hi as [], Hj as [].
  repeat first
    [ apply framed_hash in H; [destruct H as [? H] | done | done]
    | apply framed_uuid in H; [destruct H as [? H] | done | done]
    | apply framed_lps in H; [destruct H as [? H] | done | done]
    | apply framed_lp in H; [destruct H as [? H] | done | done]
    | apply (framed_be 8) in H; [destruct H as [? H] | done | done]
    | apply (framed_be 4) in H; [destruct H as [? H] | done | done]
    | apply (framed_opt _ _ framed_uuid) in H; [destruct H as [? H] | done | done]
    | apply (framed_opt _ _ framed_lps) in H; [destruct H as [? H] | done | done]
    | apply (framed_opt _ _ framed_lp) in H; [destruct H as [? H] | done | done] ].
  split; try done.
  - apply canonicalize_json_equiv_1; [done ..|].
    apply to_vec_inj; auto using canonicalize_json_wf.
  - destruct (actor i), (actor j); simpl in *; congruence.
Qed.
End encoding.

(** ** Stream verification *)

Inductive ChainBreak : Type :=
  | HashMismatch
  | PrevMismatch
  | NonGenesisAtZero
  | GenesisAtNonZero
  | PositionGap
  | CB_UnsealedAbsentStream
  | HeadNotAnchored.

Inductive StreamVerdict : Type :=
  | SV_Ok (head : EventHash) (position : Z)
  | SV_Broken (at_position : Z) (reason : ChainBreak)
  | SV_SealedGap (final_event_hash : EventHash).

#[export] Instance ChainBreak_eq_dec : EqDecision ChainBreak.
Proof. solve_decision. Defined.
#[export] Instance StreamVerdict_eq_dec : EqDecision StreamVerdict.
Proof. solve_decision. Defined.

Section verification.
Context `{CP : ChainPrimitives}.

(** The body of the row loop of [walk_stream_chain].  The observer closure is
    a fold over an accumulator [O]; the loop's locals are its arguments. *)
Fixpoint walk_rows {O} (observe : Z → EventHash → O → O) (rows : list StreamRow)
    (expected_prev : EventHash) (expected_position : Z)
    (last_head : EventHash) (last_position : Z) (o : O) : O * StreamVerdict :=
  match rows with
  | [] => (o, SV_Ok last_head last_position)
  | row :: rows' =>
      let pos := stream_position (input row) in
      if negb (bool_decide (pos = expected_position)) then (o, SV_Broken pos PositionGap)
      else if bool_decide (pos = 0) && negb (bool_decide (stored_prev row = genesis_hash)) then
        (o, SV_Broken pos NonGenesisAtZero)
      else if negb (bool_decide (pos = 0)) && bool_decide (stored_prev row = genesis_hash) then
        (o, SV_Broken pos GenesisAtNonZero)
      else if negb (bool_decide (stored_prev row = expected_prev)) then
        (o, SV_Broken pos PrevMismatch)
      else
        let recomputed := compute_event_hash (input row) in
        let o := observe pos recomputed o in
        if negb (bool_decide (recomputed = stored_hash row)) then
          (o, SV_Broken pos HashMismatch)
        else
          walk_rows observe rows' (stored_hash row) (u64_add pos 1) (stored_hash row) pos o
  end.

Definition walk_stream_chain {O} (observe : Z → EventHash → O → O)
    (rows : list StreamRow) (o : O) : O * StreamVerdict :=
  walk_rows observe rows genesis_hash 0 genesis_hash u64_MAX o.

Definition verify_stream_chain (rows : list StreamRow) : StreamVerdict :=
  (walk_stream_chain (λ _ _ o, o) rows ()).2.

(** *** What an intact chain is *)

Inductive linked : EventHash → Z → list StreamRow → EventHash → Prop :=
  | linked_nil prev pos : linked prev pos [] prev
  | linked_cons prev pos r rows head :
      stream_position (input r) = pos →
      stored_prev r = prev →
      (pos ≠ 0 → prev ≠ genesis_hash) →
      stored_hash r = compute_event_hash (input r) →
      linked (stored_hash r) (pos + 1) rows head →
      linked prev pos (r :: rows) head.

Definition intact (rows : list StreamRow) (head : EventHash) : Prop :=
  linked genesis_hash 0 rows head.

Lemma linked_app prev pos rows1 rows2 head :
  linked prev pos (rows1 ++ rows2) head ↔
  ∃ mid, linked prev pos rows1 mid ∧ linked mid (pos + len rows1) rows2 head.
Proof.
  revert prev pos. induction rows1 as [| r rows1 IH]; intros prev pos; cbn [app].
  - unfold len; simpl. rewrite Z.add_0_r. split; [| intros (? & H & ?); by inversion H; subst].
    intros. exists prev. split; [constructor | done].
  - replace (pos + len (r :: rows1)) with (pos + 1 + len rows1) by (unfold len; simpl; lia).
    split.
    + inversion 1; subst. edestruct IH as [[mid [??]] _]; [done |].
      exists mid. split; [by constructor | done].
    + intros (mid & H1 & H2). inversion H1; subst. constructor; try done.
      apply IH. eauto.
Qed.

Lemma linked_nil_inv prev pos head : linked prev pos [] head → head = prev.
Proof. by inversion 1. Qed.

Lemma linked_head_fun prev pos rows h1 h2 :
  linked prev pos rows h1 → linked prev pos rows h2 → h1 = h2.
Proof. intros H1. revert h2. induction H1; inversion 1; subst; auto. Qed.

Lemma linked_lookup prev pos rows head i r :
  linked prev pos rows head → rows !! i = Some r →
  stream_position (input r) = pos + Z.of_nat i ∧ stored_hash r = compute_event_hash (input r).
Proof.
  intros H. revert i. induction H as [| prev pos r' rows head Hp Hs Hg Hh H IH]; intros i Hi;
    [by rewrite lookup_nil in Hi |].
  destruct i as [| i]; simplify_eq/=; [split; [lia | done] |].
  destruct (IH i Hi). split; [lia | done].
Qed.

Lemma linked_last prev pos rows r head :
  linked prev pos (rows ++ [r]) head →
  head = stored_hash r ∧ linked prev pos rows (stored_prev r) ∧
  stream_position (input r) = pos + len rows ∧ stored_hash r = compute_event_hash (input r).
Proof.
  intros (mid & H1 & H2)%linked_app. inversion H2 as [| ??????? Hg ? H3]; subst.
  inversion H3; subst. eauto.
Qed.

(** *** The walk decides it *)

Inductive row_fault (prev : EventHash) (pos : Z) (r : StreamRow) : ChainBreak → Prop :=
  | fault_gap : stream_position (input r) ≠ pos → row_fault prev pos r PositionGap
  | fault_genesis_zero :
      stream_position (input r) = pos → pos = 0 → stored_prev r ≠ genesis_hash →
      row_fault prev pos r NonGenesisAtZero
  | fault_genesis_later :
      stream_position (input r) = pos → pos ≠ 0 → stored_prev r = genesis_hash →
      row_fault prev pos r GenesisAtNonZero
  | fault_prev :
      stream_position (input r) = pos → stored_prev r ≠ prev →
      (pos = 0 → stored_prev r = genesis_hash) → (pos ≠ 0 → stored_prev r ≠ genesis_hash) →
      row_fault prev pos r PrevMismatch
  | fault_hash :
      stream_position (input r) = pos → stored_prev r = prev →
      (pos ≠ 0 → prev ≠ genesis_hash) → stored_hash r ≠ compute_event_hash (input r) →
      row_fault prev pos r HashMismatch.

Definition last_position (pos lastp : Z) (rows : list StreamRow) : Z :=
  match rows with [] => lastp | _ => pos + len rows - 1 end.

Lemma walk_rows_spec {O} (obs : Z → EventHash → O → O) rows prev pos lastp o :
  0 ≤ pos → pos + len rows < 2 ^ 64 → (pos = 0 → prev = genesis_hash) →
  match (walk_rows obs rows prev pos prev lastp o).2 with
  | SV_Ok head p => linked prev pos rows head ∧ p = last_position pos lastp rows
  | SV_Broken p why =>
      ∃ pre r post mid, rows = pre ++ r :: post ∧ linked prev pos pre mid ∧
        p = stream_position (input r) ∧ row_fault mid (pos + len pre) r why
  | SV_SealedGap _ => False
  end.
Proof.
  revert prev pos lastp o.
  induction rows as [| r rows IH]; intros prev pos lastp o Hpos Hlen Hz;
    simpl; [split; [constructor | done] |].
  assert (len (r :: rows) = 1 + len rows) as Hl by (unfold len; simpl; lia).
  assert (∀ why, row_fault prev pos r why →
    ∃ pre r' post mid, r :: rows = pre ++ r' :: post ∧ linked prev pos pre mid ∧
      stream_position (input r) = stream_position (input r') ∧
      row_fault mid (pos + len pre) r' why) as Hhere.
  { intros why Hf. exists [], r, rows, prev. repeat split; [constructor |].
    unfold len; simpl. by rewrite Z.add_0_r. }
  case_bool_decide as Hp; simpl; [| by apply Hhere; constructor].
  destruct (bool_decide (stream_position (input r) = 0) &&
    negb (bool_decide (stored_prev r = genesis_hash))) eqn:G0; breflect; simpl;
    [apply Hhere; constructor; congruence |].
  destruct (negb (bool_decide (stream_position (input r) = 0)) &&
    bool_decide (stored_prev r = genesis_hash)) eqn:G1; breflect; simpl;
    [apply Hhere; constructor; congruence |].
  apply andb_false_iff in G0, G1.
  assert (pos = 0 → stored_prev r = genesis_hash) as Hg0
    by (intros ?; destruct G0; breflect; congruence).
  assert (pos ≠ 0 → stored_prev r ≠ genesis_hash) as Hg1
    by (intros ??; destruct G1; breflect; congruence).
  clear G0 G1. case_bool_decide as Hprev; simpl; [| by apply Hhere; constructor; auto].
  case_bool_decide as Hhash; simpl;
    [| by apply Hhere; constructor; auto; intros ?; rewrite <- Hprev; auto].
  unfold u64_add. rewrite wrap_small by (unfold is_uint, len in *; lia). rewrite Hp.
  specialize (IH (stored_hash r) (pos + 1) pos (obs pos (compute_event_hash (input r)) o)).
  destruct (walk_rows _ rows _ _ _ _ _) as [o' [head p | p why | ?]]; simpl in *.
  - destruct IH as [IH ->]; [unfold len in *; lia .. |]. split.
    + constructor; auto. intros ?. rewrite <- Hprev. auto.
    + unfold last_position. destruct rows; unfold len; simpl; lia.
  - destruct IH as (pre & r' & post & mid & -> & Hl' & -> & Hf); [unfold len in *; lia .. |].
    exists (r :: pre), r', post, mid. split; [done |]. split; [| split; [done |]].
    + constructor; auto. intros ?. rewrite <- Hprev. auto.
    + replace (pos + len (r :: pre)) with (pos + 1 + len pre) by (unfold len; simpl; lia). done.
  - apply IH; unfold len in *; lia.
Qed.
End verification.

(** ** Theorems about one stream *)

Section stream_theorems.
Context `{CP : ChainPrimitives}.

(** Two different messages with the same digest. *)
Definition collides (m1 m2 : list byte) : Prop := m1 ≠ m2 ∧ sha256 m1 = sha256 m2.

Definition row_bytes (r : ChainRow) : list byte := canonical_event_bytes (input (as_stream_row r)).

(** Everything a verification run over [rows] feeds to the digest. *)
Definition hashed (rows : list ChainRow) : list (list byte) :=
  GENESIS_PREIMAGE :: (row_bytes <$> rows).

Definition collision_between (rows1 rows2 : list ChainRow) : Prop :=
  ∃ m1 m2, m1 ∈ hashed rows1 ∧ m2 ∈ hashed rows2 ∧ collides m1 m2.

(** The same row, up to the key order of its payload. *)
Definition same_row (r1 r2 : ChainRow) : Prop :=
  input_equiv (input (as_stream_row r1)) (input (as_stream_row r2)) ∧
  cr_stored_hash r1 = cr_stored_hash r2.

Record rows_wf (rows : list ChainRow) : Prop := {
  rows_wf_len : len rows < 2 ^ 64;
  rows_wf_row : ∀ r, r ∈ rows → chain_input_wf (input (as_stream_row r));
}.

Abbreviation stream rows := (as_stream_row <$> rows : list StreamRow).

Lemma rows_wf_app rows1 rows2 : rows_wf (rows1 ++ rows2) → rows_wf rows1 ∧ rows_wf rows2.
Proof.
  intros [Hl Hr]. unfold len in *. rewrite length_app in Hl.
  split; split; (unfold len; lia) || (intros; apply Hr; set_solver).
Qed.

Lemma collision_between_mono rows1 rows2 rows1' rows2' :
  rows1 ⊆ rows1' → rows2 ⊆ rows2' →
  collision_between rows1 rows2 → collision_between rows1' rows2'.
Proof.
  intros H1 H2 (m1 & m2 & Hm1 & Hm2 & Hc). exists m1, m2. unfold hashed in *.
  set_solver.
Qed.

Lemma genesis_not_row r : row_bytes r ≠ GENESIS_PREIMAGE.
Proof. unfold row_bytes. rewrite canonical_event_bytes_app. discriminate. Qed.

Lemma len_stream (rows : list ChainRow) : len (stream rows) = len rows.
Proof. unfold len. by rewrite length_fmap. Qed.

Lemma verify_spec (rows : list ChainRow) :
  len rows < 2 ^ 64 →
  match verify_stream_chain (stream rows) with
  | SV_Ok head p => intact (stream rows) head ∧ p = last_position 0 u64_MAX (stream rows)
  | SV_Broken p why =>
      ∃ pre r post mid, stream rows = pre ++ r :: post ∧ intact pre mid ∧
        p = stream_position (input r) ∧ row_fault mid (len pre) r why
  | SV_SealedGap _ => False
  end.
Proof.
  intros Hl. unfold verify_stream_chain, walk_stream_chain.
  pose proof (walk_rows_spec (λ (_ : Z) (_ : EventHash) (o : unit), o) (stream rows)
    genesis_hash 0 u64_MAX tt) as H.
  rewrite len_stream in H. by apply H.
Qed.

Lemma verify_intact (rows : list ChainRow) head :
  len rows < 2 ^ 64 → intact (stream rows) head →
  verify_stream_chain (stream rows) = SV_Ok head (last_position 0 u64_MAX (stream rows)).
Proof.
  intros Hl Hi. pose proof (verify_spec rows Hl) as H.
  destruct (verify_stream_chain _) as [h p | p why | h]; [| | done].
  - destruct H as [H ->]. f_equal. by eapply linked_head_fun.
  - exfalso. destruct H as (pre & r & post & mid & Heq & Hpre & -> & Hf).
    unfold intact in *. rewrite Heq in Hi. apply linked_app in Hi as (mid' & H1 & H2).
    rewrite (linked_head_fun _ _ _ _ _ H1 Hpre) in H2.
    inversion H2 as [| ????? Hp Hs Hg Hh Hrest]. rewrite Z.add_0_l in *.
    destruct Hf as [? | ? Hz ? | ??? | ???? | ????]; try congruence.
    + assert (pre = []) as -> by (destruct pre; [done | unfold len in Hz; simpl in Hz; lia]).
      inversion Hpre; congruence.
    + apply Hg; congruence.
Qed.

Lemma head_collision_or_prefix rows1 rows2 head :
  rows_wf rows1 → rows_wf rows2 →
  intact (stream rows1) head → intact (stream rows2) head →
  Forall2 same_row rows1 rows2 ∨ collision_between rows1 rows2.
Proof.
  revert rows2 head. induction rows1 as [| r1 rows1 IH] using rev_ind; intros rows2 head.
  - destruct rows2 as [| r2 rows2 _] using rev_ind; [by left |].
    intros _ _ H1 H2. right. unfold intact in *. rewrite fmap_app in H2.
    apply linked_last in H2 as (-> & _ & _ & Hh).
    apply linked_nil_inv in H1 as Hg. rewrite Hg in Hh.
    exists GENESIS_PREIMAGE, (row_bytes r2). unfold hashed. split; [set_solver |].
    split; [set_solver |]. split; [intros ?; by eapply genesis_not_row |].
    exact Hh.
  - destruct rows2 as [| r2 rows2 _] using rev_ind; intros Hw1 Hw2 H1 H2;
      unfold intact in *; rewrite fmap_app in H1.
    + right. apply linked_last in H1 as (-> & _ & _ & Hh).
      apply linked_nil_inv in H2 as Hg. rewrite Hg in Hh.
      exists (row_bytes r1), GENESIS_PREIMAGE. unfold hashed. split; [set_solver |].
      split; [set_solver |]. split; [apply genesis_not_row |].
      symmetry. exact Hh.
    + rewrite fmap_app in H2.
      apply linked_last in H1 as (-> & H1 & _ & Hh1).
      apply linked_last in H2 as (Hh & H2 & _ & Hh2).
      destruct (decide (row_bytes r1 = row_bytes r2)) as [Heq | Hne].
      * apply canonical_event_bytes_inj in Heq; [| by apply Hw1; set_solver | by apply Hw2; set_solver].
        assert (stored_prev (as_stream_row r1) = stored_prev (as_stream_row r2)) as Hprev
          by apply Heq.
        rewrite Hprev in H1.
        destruct (IH rows2 _ (proj1 (rows_wf_app _ _ Hw1)) (proj1 (rows_wf_app _ _ Hw2)) H1 H2).
        -- left. apply Forall2_app; [done |]. constructor; [| constructor]. by split.
        -- right. eapply collision_between_mono; [.. | done]; set_solver.
      * right. exists (row_bytes r1), (row_bytes r2). unfold hashed. split; [set_solver |].
        split; [set_solver |]. split; [done |].
        unfold row_bytes, compute_event_hash in *. simpl in *. congruence.
Qed.

(** C19.  A stream's verified head commits to its whole history: if two row
    sequences both verify with the same head, they are row for row the same
    (up to the key order inside JSON payloads, which the database does not
    keep), unless two of the byte strings the two runs hashed are a SHA-256
    collision. *)
Theorem verified_head_commits_to_history rows1 rows2 head p1 p2 :
  rows_wf rows1 → rows_wf rows2 →
  verify_stream_chain (stream rows1) = SV_Ok head p1 →
  verify_stream_chain (stream rows2) = SV_Ok head p2 →
  Forall2 same_row rows1 rows2 ∨ collision_between rows1 rows2.
Proof.
  intros Hw1 Hw2 H1 H2.
  pose proof (verify_spec rows1 (rows_wf_len _ Hw1)) as S1. rewrite H1 in S1.
  pose proof (verify_spec rows2 (rows_wf_len _ Hw2)) as S2. rewrite H2 in S2.
  by apply (head_collision_or_prefix _ _ head); [.. | apply S1 | apply S2].
Qed.

(**  The walk accepts exactly the intact chains: positions 0, 1, 2, ...,
    every stored predecessor is the previous row's hash, the genesis sentinel
    stands before row 0 and nowhere else, every stored hash is the recomputed
    one; and it reports the last row's hash and position. *)
Theorem verify_accepts_exactly_intact_chains (rows : list ChainRow) head p :
  len rows < 2 ^ 64 →
  verify_stream_chain (stream rows) = SV_Ok head p ↔
  intact (stream rows) head ∧ p = (if bool_decide (rows = []) then u64_MAX else len rows - 1).
Proof.
  intros Hl.
  assert (last_position 0 u64_MAX (stream rows) =
    (if bool_decide (rows = []) then u64_MAX else len rows - 1)) as Hp.
  { destruct rows as [| r rows]; [done |]. rewrite bool_decide_false by done.
    unfold last_position, len. simpl. rewrite length_fmap. lia. }
  rewrite <- Hp. split.
  - intros H. pose proof (verify_spec rows Hl) as S. by rewrite H in S.
  - intros [Hi ->]. by apply verify_intact.
Qed.

(**  A reported break is real and is the first one: the rows before it form
    an intact chain, the reported position is the offending row's, and the
    reason says which of the checks that row fails against that chain. *)
Theorem verify_reports_first_fault (rows : list ChainRow) p why :
  len rows < 2 ^ 64 →
  verify_stream_chain (stream rows) = SV_Broken p why →
  ∃ pre r post mid, stream rows = pre ++ r :: post ∧ intact pre mid ∧
    p = stream_position (input r) ∧ row_fault mid (len pre) r why.
Proof. intros Hl H. pose proof (verify_spec rows Hl) as S. by rewrite H in S. Qed.

(**  Appending preserves verification: a row written at the next position,
    over the current head, with the hash the code computes for it, extends a
    verified stream to a verified stream with the new head, as long as the old
    head is not itself the genesis sentinel. *)
Theorem append_preserves_verification (rows : list ChainRow) head p r :
  len rows + 1 < 2 ^ 64 →
  verify_stream_chain (stream rows) = SV_Ok head p →
  (rows ≠ [] → head ≠ genesis_hash) →
  cr_stream_position r = len rows →
  cr_stored_prev r = head →
  cr_stored_hash r = compute_event_hash (input (as_stream_row r)) →
  verify_stream_chain (stream (rows ++ [r])) = SV_Ok (cr_stored_hash r) (len rows).
Proof.
  intros Hl H Hg Hpos Hprev Hhash.
  pose proof (verify_spec rows ltac:(lia)) as Hi. rewrite H in Hi. destruct Hi as [Hi _].
  rewrite (verify_intact _ (cr_stored_hash r)).
  - f_equal. unfold last_position, len. rewrite fmap_app. destruct rows; simpl;
      rewrite ?length_app, ?length_fmap; simpl; lia.
  - unfold len in *. rewrite length_app. simpl. lia.
  - unfold intact. rewrite fmap_app. apply linked_app. exists head. split; [done |].
    rewrite len_stream. constructor; try done; [| constructor].
    rewrite Z.add_0_l. intros Hne. apply Hg. intros ->. by apply Hne.
Qed.
End stream_theorems.

(** ** A concrete choice of the primitives

    Used by the witnesses only: a self-delimiting encoding of values, and a
    "digest" that keeps the last 32 bytes of its input. *)

Module Sample.
Fixpoint enc_str (s : string) : list byte :=
  match s with
  | EmptyString => [byte_of_Z 0]
  | String c s' => byte_of_Z 1 :: c :: enc_str s'
  end.

Definition enc_num (n : Number) : list byte :=
  match n with
  | PosInt n => byte_of_Z 0 :: to_be_bytes 8 n
  | NegInt n => byte_of_Z 1 :: to_be_bytes 8 (- n)
  | Float b => byte_of_Z 2 :: to_be_bytes 8 b
  end.

Fixpoint enc_value (v : Value) : list byte :=
  match v with
  | VNull => [byte_of_Z 0]
  | VBool b => [byte_of_Z 1; byte_of_Z (if b then 1 else 0)]
  | VNumber n => byte_of_Z 2 :: enc_num n
  | VString s => byte_of_Z 3 :: enc_str s
  | VArray l => byte_of_Z 4 :: foldr (λ v k, byte_of_Z 1 :: enc_value v ++ k) [byte_of_Z 0] l
  | VObject m =>
      byte_of_Z 5 ::
      foldr (λ kv k, byte_of_Z 1 :: enc_str kv.1 ++ enc_value kv.2 ++ k) [byte_of_Z 0] m
  end.

Lemma framed_str : framed (λ _, True) enc_str.
Proof.
  intros s. induction s as [| c s IH]; intros [| d t] r u _ _ H; simplify_eq/=; try done.
  destruct (IH t r u) as [-> ->]; done.
Qed.

Lemma framed_num : framed number_wf enc_num.
Proof.
  intros [n | n | n] [m | m | m] r u Hn Hm H; try discriminate H;
    apply (f_equal tail) in H; cbn [enc_num app tail] in H; unfold number_wf in *;
    apply (framed_be 8) in H as [H ->]; unfold is_uint; try lia; split; f_equal; lia.
Qed.

Lemma framed_value : framed json_wf enc_value.
Proof.
  intros v. induction v as [| b | n | s | l IH | m IH] using Value_nested_ind;
    intros w r u Hv Hw H; destruct w as [| b' | n' | s' | l' | m']; try discriminate H.
  - by simplify_eq/=.
  - destruct b, b'; simplify_eq/=; done.
  - inversion Hv; inversion Hw; subst. apply (f_equal tail) in H. cbn [enc_value app tail] in H.
    apply framed_num in H as [-> ->]; done.
  - simplify_eq/=. apply framed_str in H as [-> ->]; done.
  - inversion Hv as [| | | | ? Hl |]; inversion Hw as [| | | | ? Hl' |]; subst.
    injection H as H. clear Hv Hw.
    assert (l = l' ∧ r = u) as [-> ->]; [| done]. revert l' Hl' H.
    induction l as [| v l IHl]; intros [| w l'] Hl' H; simplify_eq/=; try done.
    rewrite <- !(assoc_L (++)) in H. apply IH in H as [-> H]; [| set_solver ..].
    apply IHl in H as [-> ->]; set_solver.
  - inversion Hv as [| | | | | ? _ Hm]; inversion Hw as [| | | | | ? _ Hm']; subst.
    injection H as H. clear Hv Hw.
    assert (m = m' ∧ r = u) as [-> ->]; [| done]. revert m' Hm' H.
    induction m as [| [k v] m IHm]; intros [| [k' w] m'] Hm' H; simplify_eq/=; try done.
    rewrite <- !(assoc_L (++)) in H. apply framed_str in H as [-> H]; [| done ..].
    apply (IH k' v) in H as [-> H];
      [| by left | apply (Hm k'); by left | apply (Hm' k'); by left].
    apply IHm in H as [-> ->]; [done | | |]; intros k0 v0 Hin.
    + apply (IH k0). by right.
    + apply (Hm k0). by right.
    + apply (Hm' k0). by right.
Qed.

Definition digest (m : list byte) : list byte :=
  to_be_bytes 32 (foldl (λ a b, (a * 65599 + Z_of_byte b + 1) mod (2 ^ 255 - 19)) 0 m).

#[export] Instance prims : ChainPrimitives.
Proof.
  refine {| sha256 := digest; to_vec := enc_value |}.
  - intros m. apply length_to_be_bytes.
  - intros v w Hv Hw H. destruct (framed_value v w [] [] Hv Hw); [by rewrite H | done].
Defined.

(** A row at [pos] over [prev], with the hash the code computes. *)
Definition row (prev : EventHash) (pos : Z) (data : Value) : ChainRow :=
  let r h := {| cr_event_data := data; cr_event_id := 7; cr_stream_id := "artifact-1";
                cr_stream_category := "artifact"; cr_stream_position := pos;
                cr_event_type := "ArtifactIngested"; cr_event_version := 1;
                cr_correlation_id := 9; cr_causation_id := None; cr_actor_type := "api";
                cr_actor_id := Some 3; cr_actor_source_file := None;
                cr_actor_spec_digest := None; cr_stored_prev := prev; cr_stored_hash := h |} in
  r (compute_event_hash (input (as_stream_row (r [])))).

Definition row0 : ChainRow := row genesis_hash 0 (VObject [("a", VNull); ("b", VBool true)]).
Definition row0' : ChainRow := row genesis_hash 0 (VObject [("b", VBool true); ("a", VNull)]).
Definition row1 : ChainRow := row (cr_stored_hash row0) 1 (VNumber (PosInt 5)).

Definition rows : list ChainRow := [row0; row1].
Definition head : EventHash := cr_stored_hash row1.

Lemma row_wf prev pos data :
  length prev = 32%nat → is_uint 64 pos → json_wf data →
  len (canonical_payload_bytes data) < 2 ^ 64 →
  chain_input_wf (input (as_stream_row (row prev pos data))).
Proof. intros. by split; simpl; try done; intros ? [= <-]. Qed.

Lemma payload_ok a b : a = "a"%string → b = "b"%string →
  json_wf (VObject [(a, VNull); (b, VBool true)]) ∧ json_wf (VObject [(b, VBool true); (a, VNull)]).
Proof.
  intros -> ->. split; (constructor; [by apply (bool_decide_unpack _) |]); intros k v Hin;
    repeat (apply elem_of_cons in Hin as [[= -> ->] | Hin]); try constructor;
    by apply not_elem_of_nil in Hin.
Qed.

(** The same history with the first payload's keys in the other order. *)
Definition rows' : list ChainRow := [row0'; row1].

Lemma rows_ok : rows_wf rows ∧ rows_wf rows'.
Proof.
  destruct (payload_ok "a" "b" eq_refl eq_refl).
  split; (split; [reflexivity |]); intros r Hr;
    apply elem_of_cons in Hr as [-> | Hr%list_elem_of_singleton]; [| subst r | | subst r];
    apply row_wf; try done; try apply sha256_len; by constructor.
Qed.
End Sample.

#[local] Existing Instance Sample.prims.

Lemma verified_head_commits_to_history_witness :
  Forall2 same_row Sample.rows Sample.rows' ∨ collision_between Sample.rows Sample.rows'.
Proof.
  apply (verified_head_commits_to_history Sample.rows Sample.rows' Sample.head 1 1).
  - apply Sample.rows_ok.
  - apply Sample.rows_ok.
  - vm_compute. reflexivity.
  - vm_compute. reflexivity.
Defined.

Lemma verify_accepts_exactly_intact_chains_witness :
  intact (as_stream_row <$> Sample.rows) Sample.head ∧ 1 = len Sample.rows - 1.
Proof.
  apply (verify_accepts_exactly_intact_chains Sample.rows Sample.head 1); [reflexivity |].
  vm_compute. reflexivity.
Defined.

Lemma verify_reports_first_fault_witness :
  ∃ pre r post mid, as_stream_row <$> [Sample.row0; Sample.row0] = pre ++ r :: post ∧
    intact pre mid ∧ 0 = stream_position (input r) ∧ row_fault mid (len pre) r PositionGap.
Proof.
  apply (verify_reports_first_fault [Sample.row0; Sample.row0] 0 PositionGap); [reflexivity |].
  vm_compute. reflexivity.
Defined.

Lemma append_preserves_verification_witness :
  verify_stream_chain (as_stream_row <$> ([Sample.row0] ++ [Sample.row1])) =
    SV_Ok (cr_stored_hash Sample.row1) 1.
Proof.
  apply (append_preserves_verification [Sample.row0] (cr_stored_hash Sample.row0) 0 Sample.row1).
  - reflexivity.
  - vm_compute. reflexivity.
  - intros _. vm_compute. discriminate.
  - reflexivity.
  - reflexivity.
  - vm_compute. reflexivity.
Defined.
