(* ===== verification/ChainAnchor.v ===== *)
(** Cross-check of the event chain against its signed checkpoints:
    the second half of crates/hort-domain/src/events/chain.rs and
    crates/hort-domain/src/events/checkpoint_build.rs.

    The checkpoint store is read before the streams; each stream's walk records
    the recomputed hash at every position some checkpoint anchored
    ([verify_stream_chain_observing]), [verify_against_checkpoint] compares the
    live heads and those hashes with every anchored statement, and [roll_up]
    ranks the outcome.  Hash maps keyed by strings are [gmap]s: the code only
    looks keys up, it never iterates them in an order that shows. *)

From S2P Require Import Prelude.
From S2P Require Import RustStd.
From S2P Require Import Json.
From S2P Require Import EventChain.

(** ** Data *)

Record SealedStreamRecord : Type := {
  sealed_stream_id : string;
  final_event_hash : EventHash;
}.

Record Checkpoint : Type := {
  chain_format_version : string;
  checkpoint_seq : Z;
  created_at : DateTime;
  stream_heads : list (string * Z * EventHash);
  sealed_streams : list SealedStreamRecord;
}.

Abbreviation Slots := (gmap Z (option EventHash)).

Record AnchoredPositionHashes : Type := {
  by_stream : gmap string Slots;
}.

Inductive MissingReason : Type :=
  | NoCheckpoint
  | SequenceGap
  | Stale.

Inductive AnchorBreak : Type :=
  | HeadMismatch
  | UnsealedAbsentStream
  | SealUnanchored
  | DuplicateCheckpointSeq.

Record AnchorFindings : Type := {
  breaks : list AnchorBreak;
  coverage_gaps : list MissingReason;
}.

Inductive ChainReport : Type :=
  | CR_Ok
  | CR_Broken
  | CR_MissingCheckpoint.

#[export] Instance SealedStreamRecord_eq_dec : EqDecision SealedStreamRecord.
Proof. solve_decision. Defined.
#[export] Instance Checkpoint_eq_dec : EqDecision Checkpoint.
Proof. solve_decision. Defined.
#[export] Instance MissingReason_eq_dec : EqDecision MissingReason.
Proof. solve_decision. Defined.
#[export] Instance AnchorBreak_eq_dec : EqDecision AnchorBreak.
Proof. solve_decision. Defined.
#[export] Instance AnchorFindings_eq_dec : EqDecision AnchorFindings.
Proof. solve_decision. Defined.
#[export] Instance ChainReport_eq_dec : EqDecision ChainReport.
Proof. solve_decision. Defined.

(** ** The anchored positions *)

Definition seed_statement (m : gmap string Slots) (st : string * Z * EventHash)
    : gmap string Slots :=
  let '(sid, pos, _) := st in
  match m !! sid with
  | Some slots =>
      <[sid := match slots !! pos with Some _ => slots | None => <[pos := None]> slots end]> m
  | None => <[sid := {[pos := None]}]> m
  end.

Definition from_checkpoints (checkpoints : list Checkpoint) : AnchoredPositionHashes :=
  {| by_stream := foldl (λ m cp, foldl seed_statement m (stream_heads cp)) ∅ checkpoints |}.

Definition statements (a : AnchoredPositionHashes) : Z :=
  map_fold (λ _ slots n, n + Z.of_nat (size slots)) 0 (by_stream a).

Definition observed_at (a : AnchoredPositionHashes) (stream_id : string) (position : Z)
    : option EventHash :=
  slots ← by_stream a !! stream_id;
  slot ← slots !! position;
  slot.

Definition slots_for (a : AnchoredPositionHashes) (stream_id : string) : option Slots :=
  by_stream a !! stream_id.

(** The observer closure of [verify_stream_chain_observing]. *)
Definition observe_slot (pos : Z) (recomputed : EventHash) (slots : Slots) : Slots :=
  match slots !! pos with
  | Some _ => <[pos := Some recomputed]> slots
  | None => slots
  end.

Definition verify_stream_chain_observing `{ChainPrimitives} (stream_id : string)
    (rows : list StreamRow) (anchored : AnchoredPositionHashes)
    : AnchoredPositionHashes * StreamVerdict :=
  match slots_for anchored stream_id with
  | None => (anchored, verify_stream_chain rows)
  | Some slots =>
      let '(slots', verdict) := walk_stream_chain observe_slot rows slots in
      ({| by_stream := <[stream_id := slots']> (by_stream anchored) |}, verdict)
  end.

(** ** The cross-check *)

Definition record_break (f : AnchorFindings) (value : AnchorBreak) : AnchorFindings :=
  {| breaks := push_new (breaks f) value; coverage_gaps := coverage_gaps f |}.

Definition record_gap (f : AnchorFindings) (value : MissingReason) : AnchorFindings :=
  {| breaks := breaks f; coverage_gaps := push_new (coverage_gaps f) value |}.

(** The order of [newest_checkpoint]: by [checkpoint_seq], then by the earlier
    [created_at]. *)
Definition newest_cmp (a b : Checkpoint) : comparison :=
  match checkpoint_seq a ?= checkpoint_seq b with
  | Eq => created_at b ?= created_at a
  | c => c
  end.

Definition newest_checkpoint (checkpoints : list Checkpoint) : option Checkpoint :=
  max_by newest_cmp checkpoints.

Definition contradicts_anchored_head (live_position : Z) (live_head : EventHash)
    (anchored_position : Z) (anchored_head : EventHash)
    (live_hash_at_anchored_position : option EventHash) : bool :=
  if live_position <? anchored_position then true
  else if negb (Bool.eqb (anchored_position =? live_position)
                         (bool_decide (anchored_head = live_head))) then true
  else
    match live_hash_at_anchored_position with
    | Some live => negb (bool_decide (live = anchored_head))
    | None => false
    end.

(** [windows(2).any(|w| w[0] == w[1])]. *)
Fixpoint adjacent_equal (l : list Z) : bool :=
  match l with
  | x :: ((y :: _) as l') => (x =? y) || adjacent_equal l'
  | _ => false
  end.

(** [std::time::Duration::MAX] and [chrono::Duration::MAX], in nanoseconds. *)
Definition STD_DURATION_MAX : Z := (2 ^ 64 - 1) * NANOS + (NANOS - 1).
Definition CHRONO_DURATION_MAX : Z := i64_MAX * 10 ^ 6.

(** [chrono::Duration::from_std(cadence.saturating_mul(2))], saturated. *)
Definition max_anchor_age (cadence : Duration) : Duration :=
  let d := Z.min (2 * cadence) STD_DURATION_MAX in
  if d <=? CHRONO_DURATION_MAX then d else CHRONO_DURATION_MAX.

Definition live_index (live_heads : list (string * Z * EventHash))
    : gmap string (Z * EventHash) :=
  foldl (λ m st,
    let '(sid, pos, head) := st in
    match m !! sid with Some _ => m | None => <[sid := (pos, head)]> m end) ∅ live_heads.

(** One iteration of the loop over the anchored statements. *)
Definition check_statement (live_by_id : gmap string (Z * EventHash)) (sealed_ids : gset string)
    (observed : AnchoredPositionHashes) (f : AnchorFindings) (st : string * Z * EventHash)
    : AnchorFindings :=
  let '(sid, anchored_pos, anchored_head) := st in
  match live_by_id !! sid with
  | Some (live_pos, live_head) =>
      let at_anchored := observed_at observed sid anchored_pos in
      if contradicts_anchored_head live_pos live_head anchored_pos anchored_head at_anchored
      then record_break f HeadMismatch else f
  | None =>
      if negb (bool_decide (sid ∈ sealed_ids)) then record_break f UnsealedAbsentStream else f
  end.

(** One iteration of the loop over the seals. *)
Definition check_seal (anchored_seals : gset (string * EventHash)) (f : AnchorFindings)
    (rec : SealedStreamRecord) : AnchorFindings :=
  if negb (bool_decide ((sealed_stream_id rec, final_event_hash rec) ∈ anchored_seals))
  then record_break f SealUnanchored else f.

Definition verify_against_checkpoint (live_heads : list (string * Z * EventHash))
    (sealed : list SealedStreamRecord) (checkpoints : list Checkpoint)
    (observed : AnchoredPositionHashes) (now : DateTime) (cadence : Duration)
    : AnchorFindings :=
  let findings := {| breaks := []; coverage_gaps := [] |} in
  match newest_checkpoint checkpoints with
  | None => record_gap findings NoCheckpoint
  | Some newest =>
      let seqs := sort_by Z.leb (checkpoint_seq <$> checkpoints) in
      let findings :=
        if adjacent_equal seqs then record_break findings DuplicateCheckpointSeq else findings in
      let seqs := dedup seqs in
      let findings :=
        if negb (bool_decide (head seqs = Some 1)) || negb (len seqs =? checkpoint_seq newest)
        then record_gap findings SequenceGap else findings in
      let max_age := max_anchor_age cadence in
      let findings :=
        if max_age <? signed_duration_since now (created_at newest)
        then record_gap findings Stale else findings in
      let live_by_id := live_index live_heads in
      let sealed_ids : gset string := list_to_set (sealed_stream_id <$> sealed) in
      let anchored_seals : gset (string * EventHash) :=
        list_to_set ((λ s, (sealed_stream_id s, final_event_hash s)) <$>
                     (checkpoints ≫= sealed_streams)) in
      let findings :=
        foldl (λ f cp, foldl (check_statement live_by_id sealed_ids observed) f (stream_heads cp))
          findings checkpoints in
      foldl (check_seal anchored_seals) findings sealed
  end.

Definition is_broken (v : StreamVerdict) : bool :=
  match v with SV_Broken _ _ => true | _ => false end.

Definition roll_up (stream_verdicts : list StreamVerdict) (anchor : AnchorFindings)
    : ChainReport :=
  let any_broken := existsb is_broken stream_verdicts || negb (is_empty (breaks anchor)) in
  if any_broken then CR_Broken
  else if negb (is_empty (coverage_gaps anchor)) then CR_MissingCheckpoint
  else CR_Ok.

(** ** Building a checkpoint *)

Record StreamHead : Type := {
  sh_stream_id : string;
  final_stream_position : Z;
  head_event_hash : EventHash;
}.

Record BackfillBaseline : Type := {
  baseline_max_global_position : Z;
  migration_timestamp : DateTime;
}.

Record CheckpointToEmit : Type := {
  e_chain_format_version : string;
  e_checkpoint_seq : Z;
  e_created_at : DateTime;
  e_max_global_position : Z;
  e_stream_heads : list StreamHead;
  e_sealed_streams : list SealedStreamRecord;
  e_backfill_baseline : option BackfillBaseline;
}.

Definition sorted_witness (heads : list StreamHead) : list StreamHead :=
  sort_by (λ a b, str_leb (sh_stream_id a) (sh_stream_id b)) heads.

(** [Iterator::max] on the sequence numbers. *)
Definition max_seq (l : list Z) : option Z := max_by Z.compare l.

Definition next_checkpoint_seq (existing : list Checkpoint) : Z :=
  match max_seq (checkpoint_seq <$> existing) with
  | Some m => u64_add m 1
  | None => 1
  end.

Definition is_first_checkpoint (existing : list Checkpoint) : bool := is_empty existing.

Definition build_checkpoint (chain_format_version : string) (existing : list Checkpoint)
    (heads : list StreamHead) (sealed : list SealedStreamRecord) (max_global_position : Z)
    (created_at : DateTime) (backfill : option BackfillBaseline) : CheckpointToEmit :=
  let witness := sorted_witness heads in
  let first := is_first_checkpoint existing in
  {| e_chain_format_version := chain_format_version;
     e_checkpoint_seq := next_checkpoint_seq existing;
     e_created_at := created_at;
     e_max_global_position := max_global_position;
     e_stream_heads := witness;
     e_sealed_streams := sealed;
     e_backfill_baseline := if first then backfill else None |}.

(** ** Sequence numbers *)

Lemma sorted_seqs l : StronglySorted Z.le (sort_by Z.leb l).
Proof.
  apply Sorted_StronglySorted; [intros ???; lia |].
  apply (Sorted_weaken (λ x y, Z.leb x y)); [| apply sort_by_Sorted; lia].
  intros x y ?%Is_true_true. lia.
Qed.

Lemma adjacent_equal_spec l : StronglySorted Z.le l → adjacent_equal l = false ↔ NoDup l.
Proof.
  induction l as [| x l IH]; intros Hs; [split; [constructor | done] |].
  apply StronglySorted_inv in Hs as [Hs Hx]. destruct l as [| y l]; [split; [| done] |].
  { intros _. apply NoDup_singleton. }
  cbn [adjacent_equal]. rewrite orb_false_iff, (IH Hs), (NoDup_cons x), Z.eqb_neq.
  split; [| intros [Hin ?]; split; [intros ->; set_solver | done]].
  intros [Hne Hnd]. split; [| done]. intros Hin. rewrite Forall_cons in Hx.
  apply elem_of_cons in Hin as [-> | Hin]; [done |].
  apply StronglySorted_inv in Hs as [_ Hy]. rewrite Forall_forall in Hy.
  specialize (Hy x Hin). lia.
Qed.

Lemma strictly_sorted_NoDup l : StronglySorted Z.lt l → NoDup l.
Proof.
  induction 1 as [| x l Hs IH Hx]; constructor; [| done].
  intros Hin. rewrite Forall_forall in Hx. specialize (Hx x Hin). lia.
Qed.

Lemma head_min l x : StronglySorted Z.lt l → head l = Some x → ∀ y, y ∈ l → x ≤ y.
Proof.
  intros Hs Hh y Hy. destruct l as [| z l]; [done |]. injection Hh as ->.
  apply StronglySorted_inv in Hs as [_ Hx]. rewrite Forall_forall in Hx.
  apply elem_of_cons in Hy as [-> | Hy]; [lia |]. specialize (Hx y Hy). lia.
Qed.

Lemma elem_of_run m x : x ∈ seqZ 1 m ↔ 1 ≤ x ≤ m.
Proof. rewrite elem_of_seqZ. lia. Qed.

(** First is 1 and as many as the greatest: exactly the contiguous runs. *)
Lemma contiguous_spec l m :
  StronglySorted Z.lt l → m ∈ l → (∀ x, x ∈ l → x ≤ m) →
  (head l = Some 1 ∧ len l = m) ↔ ∀ s, s ∈ l ↔ 1 ≤ s ≤ m.
Proof.
  intros Hs Hm Hmax. pose proof (strictly_sorted_NoDup l Hs) as Hnd. split.
  - intros [Hh Hl]. assert (l ⊆+ seqZ 1 m) as Hsub.
    { apply NoDup_submseteq; [done |]. intros x Hx. apply elem_of_run.
      split; [by eapply head_min | by apply Hmax]. }
    assert (l ≡ₚ seqZ 1 m) as Hp.
    { apply submseteq_length_Permutation; [done |]. rewrite length_seqZ. unfold len in Hl. lia. }
    intros s. by rewrite Hp, elem_of_run.
  - intros Hall. assert (l ≡ₚ seqZ 1 m) as Hp.
    { apply NoDup_Permutation; [done | apply NoDup_seqZ |]. intros s.
      by rewrite Hall, elem_of_run. }
    assert (1 ≤ m) as H1 by (by apply Hall in Hm as [? ?]; lia). split.
    + assert (1 ∈ l) as Hin by (apply Hall; lia). destruct l as [| x l]; [by apply not_elem_of_nil in Hin |].
      pose proof (head_min (x :: l) x Hs eq_refl 1 Hin).
      assert (1 ≤ x) by (apply Hall; left). simpl. f_equal. lia.
    + unfold len. rewrite Hp, length_seqZ. lia.
Qed.

(** ** The findings, axis by axis *)

Lemma newest_cmp_opp a b : newest_cmp b a = CompOpp (newest_cmp a b).
Proof.
  unfold newest_cmp. rewrite (Z.compare_antisym (checkpoint_seq a)).
  destruct (checkpoint_seq a ?= checkpoint_seq b); simpl; try done. apply Z.compare_antisym.
Qed.

Lemma newest_cmp_ge a b :
  newest_cmp a b ≠ Lt ↔
  checkpoint_seq b < checkpoint_seq a ∨
  checkpoint_seq b = checkpoint_seq a ∧ created_at a ≤ created_at b.
Proof.
  unfold newest_cmp. destruct (Z.compare_spec (checkpoint_seq a) (checkpoint_seq b)).
  - rewrite Z.compare_lt_iff. lia.
  - split; [done | lia].
  - split; [lia | done].
Qed.

Lemma newest_checkpoint_spec cps c :
  newest_checkpoint cps = Some c →
  c ∈ cps ∧ ∀ d, d ∈ cps → checkpoint_seq d < checkpoint_seq c ∨
    checkpoint_seq d = checkpoint_seq c ∧ created_at c ≤ created_at d.
Proof.
  intros H. apply (max_by_Some newest_cmp) in H as [Hin Hall].
  - split; [done |]. intros d Hd. by apply newest_cmp_ge, Hall.
  - apply newest_cmp_opp.
  - intros x y z. rewrite !newest_cmp_ge. lia.
Qed.

Lemma newest_checkpoint_None cps : newest_checkpoint cps = None ↔ cps = [].
Proof. apply max_by_None. Qed.

(** A loop that may record one break per item. *)
Definition break_loop {A} (g : A → option AnchorBreak) (f : AnchorFindings) (l : list A) :=
  foldl (λ f x, match g x with Some b => record_break f b | None => f end) f l.

Lemma break_loop_spec {A} (g : A → option AnchorBreak) f (l : list A) :
  coverage_gaps (break_loop g f l) = coverage_gaps f ∧
  (∀ b, b ∈ breaks (break_loop g f l) ↔ b ∈ breaks f ∨ ∃ x, x ∈ l ∧ g x = Some b) ∧
  (NoDup (breaks f) → NoDup (breaks (break_loop g f l))).
Proof.
  revert f. induction l as [| x l IH]; intros f; simpl; [set_solver |].
  destruct (IH (match g x with Some b => record_break f b | None => f end)) as (-> & IHb & IHn).
  split; [by destruct (g x) |]. split.
  - intros b. rewrite IHb. destruct (g x) as [b' |] eqn:E; simpl.
    + rewrite elem_of_push_new. set_solver.
    + set_solver.
  - intros Hn. apply IHn. destruct (g x); [by apply NoDup_push_new | done].
Qed.

Definition statement_break (live : gmap string (Z * EventHash)) (sealed_ids : gset string)
    (observed : AnchoredPositionHashes) (st : string * Z * EventHash) : option AnchorBreak :=
  let '(sid, p, h) := st in
  match live !! sid with
  | Some (lp, lh) =>
      if contradicts_anchored_head lp lh p h (observed_at observed sid p)
      then Some HeadMismatch else None
  | None => if bool_decide (sid ∈ sealed_ids) then None else Some UnsealedAbsentStream
  end.

Definition seal_break (anchored_seals : gset (string * EventHash)) (rec : SealedStreamRecord)
    : option AnchorBreak :=
  if bool_decide ((sealed_stream_id rec, final_event_hash rec) ∈ anchored_seals)
  then None else Some SealUnanchored.

Lemma foldl_bind {A B C} (g : C → B → C) (h : A → list B) (l : list A) c :
  foldl (λ c a, foldl g c (h a)) c l = foldl g c (l ≫= h).
Proof.
  revert c. induction l as [| a l IH]; intros c; simpl; [done |]. by rewrite IH, foldl_app.
Qed.

Lemma foldl_ext_in {A B} (f g : A → B → A) l a :
  (∀ a b, f a b = g a b) → foldl f a l = foldl g a l.
Proof. intros H. revert a. induction l; intros; simpl; [done |]. by rewrite H. Qed.

Lemma statement_loop live ids obs f cps :
  foldl (λ f cp, foldl (check_statement live ids obs) f (stream_heads cp)) f cps =
  break_loop (statement_break live ids obs) f (cps ≫= stream_heads).
Proof.
  rewrite (foldl_bind (check_statement live ids obs)). apply foldl_ext_in.
  intros g [[sid p] h]. unfold check_statement, statement_break. split_guards.
Qed.

Lemma seal_loop seals f sealed :
  foldl (check_seal seals) f sealed = break_loop (seal_break seals) f sealed.
Proof. apply foldl_ext_in. intros g r. unfold check_seal, seal_break. split_guards. Qed.

Lemma contradicts_spec lp lh p h o :
  contradicts_anchored_head lp lh p h o = true ↔
  lp < p ∨ ¬ (p = lp ↔ h = lh) ∨ ∃ l, o = Some l ∧ l ≠ h.
Proof.
  unfold contradicts_anchored_head. destruct (Z.ltb_spec lp p) as [Hlt | Hge]; [naive_solver |].
  destruct (Z.eqb_spec p lp) as [-> | Hne]; case_bool_decide as Hh; simpl;
    try (split; [| done]; intros _; right; left; naive_solver);
    (destruct o as [l |]; [case_bool_decide; simpl |]); naive_solver lia.
Qed.

Lemma live_index_lookup live sid :
  live_index live !! sid =
  (λ st : string * Z * EventHash, (st.1.2, st.2)) <$> head (filter (λ st, st.1.1 = sid) live).
Proof.
  unfold live_index. assert (∀ m : gmap string (Z * EventHash),
    foldl (λ m st, let '(sid, pos, head) := st in
      match m !! sid with Some _ => m | None => <[sid := (pos, head)]> m end) m live !! sid =
    match m !! sid with
    | Some x => Some x
    | None => (λ st : string * Z * EventHash, (st.1.2, st.2)) <$>
              head (filter (λ st, st.1.1 = sid) live)
    end) as ->; [| by rewrite lookup_empty].
  induction live as [| [[s p] h] live IH]; intros m; simpl; [by destruct (m !! sid) |].
  rewrite IH. destruct (decide (s = sid)) as [-> | Hne].
  - rewrite filter_cons_True by done. simpl.
    destruct (m !! sid) as [x |] eqn:E; rewrite ?E; [done |]. by rewrite lookup_insert_eq.
  - rewrite filter_cons_False by done. destruct (m !! s) eqn:E; [done |].
    by rewrite lookup_insert_ne.
Qed.

Lemma live_index_Some live sid p h :
  live_index live !! sid = Some (p, h) → (sid, p, h) ∈ live.
Proof.
  rewrite live_index_lookup. intros ([[s q] g] & Hh & [= -> ->])%fmap_Some.
  apply head_Some_elem_of, list_elem_of_filter in Hh as [Hs ?]. simpl in Hs. by subst s.
Qed.

Lemma live_index_None live sid :
  live_index live !! sid = None ↔ ∀ p h, (sid, p, h) ∉ live.
Proof.
  rewrite live_index_lookup, fmap_None, head_None. split.
  - intros Hf p h Hin. apply (not_elem_of_nil (sid, p, h)). rewrite <- Hf.
    by apply list_elem_of_filter.
  - intros Hn. apply elem_of_nil_inv. intros [[s p] h] [Hs Hin]%list_elem_of_filter.
    simpl in Hs. subst s. by eapply Hn.
Qed.

Section cross_check.
Context (live : list (string * Z * EventHash)) (sealed : list SealedStreamRecord).
Context (cps : list Checkpoint) (obs : AnchoredPositionHashes).
Context (now : DateTime) (cadence : Duration).

(** Some checkpoint of the store states that [sid] had head [h] at [p]. *)
Definition anchored (cps : list Checkpoint) (sid : string) (p : Z) (h : EventHash) : Prop :=
  ∃ cp, cp ∈ cps ∧ (sid, p, h) ∈ stream_heads cp.

Lemma elem_of_statements sid p h : (sid, p, h) ∈ cps ≫= stream_heads ↔ anchored cps sid p h.
Proof. unfold anchored. rewrite list_elem_of_bind. naive_solver. Qed.

Abbreviation found := (verify_against_checkpoint live sealed cps obs now cadence).

(** What each recorded violation means. *)
Definition break_holds (b : AnchorBreak) : Prop :=
  match b with
  | HeadMismatch =>
      ∃ sid p h lp lh, anchored cps sid p h ∧ live_index live !! sid = Some (lp, lh) ∧
        (lp < p ∨ ¬ (p = lp ↔ h = lh) ∨ ∃ l, observed_at obs sid p = Some l ∧ l ≠ h)
  | UnsealedAbsentStream =>
      ∃ sid p h, anchored cps sid p h ∧ (∀ p' h', (sid, p', h') ∉ live) ∧
        sid ∉ sealed_stream_id <$> sealed
  | SealUnanchored =>
      cps ≠ [] ∧ ∃ rec, rec ∈ sealed ∧ ∀ cp, cp ∈ cps → rec ∉ sealed_streams cp
  | DuplicateCheckpointSeq => ¬ NoDup (checkpoint_seq <$> cps)
  end.

(** What each recorded coverage gap means. *)
Definition gap_holds (g : MissingReason) : Prop :=
  match g with
  | NoCheckpoint => cps = []
  | SequenceGap =>
      ∃ c, newest_checkpoint cps = Some c ∧
        ¬ ∀ s, s ∈ checkpoint_seq <$> cps ↔ 1 ≤ s ≤ checkpoint_seq c
  | Stale =>
      ∃ c, newest_checkpoint cps = Some c ∧ max_anchor_age cadence < now - created_at c
  end.

Lemma statement_break_spec st b :
  statement_break (live_index live) (list_to_set (sealed_stream_id <$> sealed)) obs st = Some b ↔
  let '(sid, p, h) := st in
  match b with
  | HeadMismatch =>
      ∃ lp lh, live_index live !! sid = Some (lp, lh) ∧
        (lp < p ∨ ¬ (p = lp ↔ h = lh) ∨ ∃ l, observed_at obs sid p = Some l ∧ l ≠ h)
  | UnsealedAbsentStream =>
      (∀ p' h', (sid, p', h') ∉ live) ∧ sid ∉ sealed_stream_id <$> sealed
  | _ => False
  end.
Proof.
  destruct st as [[sid p] h]. unfold statement_break.
  pose proof (live_index_None live sid) as Habs.
  destruct (live_index live !! sid) as [[lp lh] |].
  - destruct (contradicts_anchored_head _ _ _ _ _) eqn:E; [apply contradicts_spec in E |].
    + destruct b; naive_solver.
    + apply not_true_iff_false in E. rewrite contradicts_spec in E. destruct b; naive_solver.
  - case_bool_decide as Hs; rewrite elem_of_list_to_set in Hs; destruct b; naive_solver.
Qed.

Lemma seal_break_spec rec b :
  seal_break (list_to_set ((λ s, (sealed_stream_id s, final_event_hash s)) <$>
    (cps ≫= sealed_streams))) rec = Some b ↔
  b = SealUnanchored ∧ ∀ cp, cp ∈ cps → rec ∉ sealed_streams cp.
Proof.
  unfold seal_break. case_bool_decide as Hs; rewrite elem_of_list_to_set, list_elem_of_fmap in Hs.
  - split; [done |]. intros [_ Hn]. destruct Hs as (s & [= H1 H2] & Hin).
    apply list_elem_of_bind in Hin as (cp & Hcp & Hin). exfalso. apply (Hn cp Hin).
    destruct rec, s; simpl in *; by subst.
  - split; [| naive_solver]. intros [= <-]. split; [done |]. intros cp Hcp Hin.
    apply Hs. exists rec. split; [done |]. apply list_elem_of_bind. eauto.
Qed.

(** The findings before the two integrity loops. *)
Definition coverage_findings (c : Checkpoint) : AnchorFindings :=
  let seqs := sort_by Z.leb (checkpoint_seq <$> cps) in
  {| breaks := if adjacent_equal seqs then [DuplicateCheckpointSeq] else [];
     coverage_gaps :=
       (if negb (bool_decide (head (dedup seqs) = Some 1)) ||
           negb (len (dedup seqs) =? checkpoint_seq c) then [SequenceGap] else []) ++
       (if max_anchor_age cadence <? now - created_at c then [Stale] else []) |}.

Lemma found_loops c :
  newest_checkpoint cps = Some c →
  found =
  break_loop (seal_break (list_to_set ((λ s, (sealed_stream_id s, final_event_hash s)) <$>
                                       (cps ≫= sealed_streams))))
    (break_loop (statement_break (live_index live) (list_to_set (sealed_stream_id <$> sealed)) obs)
       (coverage_findings c) (cps ≫= stream_heads)) sealed.
Proof.
  intros Hc. unfold verify_against_checkpoint. rewrite Hc, statement_loop, seal_loop.
  f_equal. f_equal. unfold coverage_findings, signed_duration_since.
  by destruct (adjacent_equal _), (_ || _), (_ <? _).
Qed.

Lemma coverage_findings_gap c g :
  newest_checkpoint cps = Some c → g ∈ coverage_gaps (coverage_findings c) ↔ gap_holds g.
Proof.
  intros Hc. destruct (newest_checkpoint_spec cps c Hc) as [Hin Hmax]. simpl.
  set (seqs := dedup (sort_by Z.leb (checkpoint_seq <$> cps))).
  assert (∀ s, s ∈ seqs ↔ s ∈ checkpoint_seq <$> cps) as Hseqs.
  { intros s. unfold seqs. by rewrite elem_of_dedup, sort_by_Permutation. }
  assert (head seqs = Some 1 ∧ len seqs = checkpoint_seq c ↔
    ∀ s, s ∈ checkpoint_seq <$> cps ↔ 1 ≤ s ≤ checkpoint_seq c) as Hcont.
  { setoid_rewrite <- Hseqs. apply contiguous_spec.
    - apply dedup_sorted, sorted_seqs.
    - apply Hseqs. by apply list_elem_of_fmap_2.
    - intros x Hx. apply Hseqs, list_elem_of_fmap in Hx as (d & -> & Hd).
      destruct (Hmax d Hd); lia. }
  clearbody seqs. rewrite elem_of_app. destruct g; simpl.
  - split; [| intros ->; by simpl in Hc]. intros [H | H]; split_guards; set_solver.
  - split.
    + intros [H | H]; [| split_guards; set_solver]. exists c. split; [done |].
      rewrite <- Hcont. intros [H1 H2]. rewrite bool_decide_true, H2, Z.eqb_refl in H by done.
      simpl in H. set_solver.
    + intros (c' & Hc' & Hn). rewrite Hc in Hc'. injection Hc' as <-. left.
      rewrite <- Hcont in Hn. case_bool_decide; simpl; [| set_solver].
      destruct (Z.eqb_spec (len seqs) (checkpoint_seq c)); simpl; [tauto | set_solver].
  - destruct (Z.ltb_spec (max_anchor_age cadence) (now - created_at c)); split.
    + intros _. by exists c.
    + intros _. right. by left.
    + intros [Hg | Hg]; [split_guards; set_solver | by apply not_elem_of_nil in Hg].
    + intros (c' & Hc' & ?). rewrite Hc in Hc'. injection Hc' as <-. lia.
Qed.

Lemma coverage_findings_break c b :
  b ∈ breaks (coverage_findings c) ↔
  b = DuplicateCheckpointSeq ∧ ¬ NoDup (checkpoint_seq <$> cps).
Proof.
  simpl. rewrite <- (sort_by_Permutation Z.leb (checkpoint_seq <$> cps)) at 2.
  rewrite <- (adjacent_equal_spec _ (sorted_seqs _)), not_false_iff_true.
  destruct (adjacent_equal _); set_solver.
Qed.

Lemma found_breaks b : b ∈ breaks found ↔ break_holds b.
Proof.
  destruct (newest_checkpoint cps) as [c |] eqn:Hc.
  - rewrite (found_loops c Hc), (proj1 (proj2 (break_loop_spec _ _ _))),
      (proj1 (proj2 (break_loop_spec _ _ _))), coverage_findings_break.
    setoid_rewrite seal_break_spec. setoid_rewrite statement_break_spec.
    assert (cps ≠ []) by (intros ->; done).
    destruct b; simpl; split.
    + intros [[[? ?] | ([[sid p] h] & Hin%elem_of_statements & lp & lh & ? & ?)]
             | (? & ? & ? & ?)]; [done | | done]. by exists sid, p, h, lp, lh.
    + intros (sid & p & h & lp & lh & Hin%elem_of_statements & ? & ?).
      left. right. exists (sid, p, h). eauto.
    + intros [[[? ?] | ([[sid p] h] & Hin%elem_of_statements & ? & ?)]
             | (? & ? & ? & ?)]; [done | | done]. by exists sid, p, h.
    + intros (sid & p & h & Hin%elem_of_statements & ? & ?).
      left. right. exists (sid, p, h). eauto.
    + intros [[[? ?] | ([[sid p] h] & ? & [])] | (rec & ? & _ & ?)]; [done |]. eauto.
    + intros (_ & rec & ? & ?). right. eauto.
    + intros [[[? ?] | ([[sid p] h] & ? & [])] | (rec & ? & ? & ?)]; done.
    + intros ?. by left; left.
  - apply newest_checkpoint_None in Hc. unfold break_holds, anchored, verify_against_checkpoint.
    rewrite Hc. simpl. split; [by intros ?%not_elem_of_nil |].
    intros Hb. exfalso. destruct b; [| | by destruct Hb | by apply Hb; constructor];
      destruct Hb as (sid & p & h & Hb); [destruct Hb as (? & ? & Hb & _) | destruct Hb as [Hb _]];
      destruct Hb as (cp & ?%not_elem_of_nil & _); done.
Qed.

Lemma found_gaps g : g ∈ coverage_gaps found ↔ gap_holds g.
Proof.
  destruct (newest_checkpoint cps) as [c |] eqn:Hc.
  - by rewrite (found_loops c Hc), !(proj1 (break_loop_spec _ _ _)), coverage_findings_gap.
  - unfold verify_against_checkpoint. rewrite Hc. apply newest_checkpoint_None in Hc.
    unfold gap_holds. rewrite Hc. destruct g; simpl; set_solver.
Qed.

Lemma found_NoDup : NoDup (breaks found) ∧ NoDup (coverage_gaps found).
Proof.
  destruct (newest_checkpoint cps) as [c |] eqn:Hc.
  - rewrite (found_loops c Hc), !(proj1 (break_loop_spec _ _ _)). split.
    + do 2 apply break_loop_spec. simpl. destruct (adjacent_equal _); repeat constructor; set_solver.
    + simpl. destruct (_ || _), (_ <? _); simpl; repeat constructor; set_solver.
  - unfold verify_against_checkpoint. rewrite Hc. split; [constructor | apply NoDup_singleton].
Qed.
End cross_check.

(** ** The report *)

Lemma roll_up_broken vs f : roll_up vs f = CR_Broken ↔ (∃ v, v ∈ vs ∧ is_broken v = true) ∨ breaks f ≠ [].
Proof.
  unfold roll_up. rewrite <- existsb_True, <- is_empty_false.
  destruct (existsb is_broken vs), (is_empty (breaks f)), (is_empty (coverage_gaps f)); naive_solver.
Qed.

Lemma roll_up_ok vs f :
  roll_up vs f = CR_Ok ↔
  (∀ v, v ∈ vs → is_broken v = false) ∧ breaks f = [] ∧ coverage_gaps f = [].
Proof.
  unfold roll_up. rewrite <- existsb_False, <- !is_empty_true.
  destruct (existsb is_broken vs), (is_empty (breaks f)), (is_empty (coverage_gaps f)); naive_solver.
Qed.

Lemma roll_up_ext vs f g :
  (breaks f = [] ↔ breaks g = []) → (coverage_gaps f = [] ↔ coverage_gaps g = []) →
  roll_up vs f = roll_up vs g.
Proof.
  rewrite <- !is_empty_true. intros Hb Hg. unfold roll_up.
  destruct (existsb is_broken vs), (is_empty (breaks f)), (is_empty (breaks g)),
    (is_empty (coverage_gaps f)), (is_empty (coverage_gaps g)); naive_solver.
Qed.

Lemma newest_checkpoint_perm cps cps' c :
  cps ≡ₚ cps' → newest_checkpoint cps = Some c →
  ∃ c', newest_checkpoint cps' = Some c' ∧
    checkpoint_seq c' = checkpoint_seq c ∧ created_at c' = created_at c.
Proof.
  intros Hp Hc. destruct (newest_checkpoint_spec _ _ Hc) as [Hin Hmax].
  destruct (newest_checkpoint cps') as [c' |] eqn:Hc'.
  - exists c'. destruct (newest_checkpoint_spec _ _ Hc') as [Hin' Hmax'].
    rewrite <- Hp in Hin'. specialize (Hmax c' Hin'). rewrite Hp in Hin. specialize (Hmax' c Hin).
    split; [done |]. lia.
  - apply newest_checkpoint_None in Hc'. subst. apply Permutation_nil_r in Hp. by subst.
Qed.

Lemma anchored_perm cps cps' sid p h : cps ≡ₚ cps' → anchored cps sid p h → anchored cps' sid p h.
Proof. intros Hp (cp & Hcp & ?). exists cp. by rewrite <- Hp. Qed.

Lemma break_holds_perm live sealed cps cps' obs b :
  cps ≡ₚ cps' → break_holds live sealed cps obs b → break_holds live sealed cps' obs b.
Proof.
  intros Hp. destruct b; simpl.
  - intros (sid & p & h & lp & lh & Ha & ?). exists sid, p, h, lp, lh.
    split; [by eapply anchored_perm | done].
  - intros (sid & p & h & Ha & ?). exists sid, p, h. split; [by eapply anchored_perm | done].
  - intros (Hne & rec & Hr & Hall). split; [intros ->; by apply Permutation_nil_r in Hp |].
    exists rec. split; [done |]. intros cp. rewrite <- Hp. apply Hall.
  - by rewrite Hp.
Qed.

Lemma gap_holds_perm cps cps' now cadence g :
  cps ≡ₚ cps' → gap_holds cps now cadence g → gap_holds cps' now cadence g.
Proof.
  intros Hp. destruct g; simpl.
  - intros ->. by apply Permutation_nil_l in Hp.
  - intros (c & Hc & Hn). destruct (newest_checkpoint_perm _ _ _ Hp Hc) as (c' & Hc' & Hs & _).
    exists c'. split; [done |]. rewrite Hs. by setoid_rewrite <- Hp.
  - intros (c & Hc & Hn). destruct (newest_checkpoint_perm _ _ _ Hp Hc) as (c' & Hc' & _ & Ht).
    exists c'. by rewrite Ht.
Qed.

Lemma empty_iff {A} (l k : list A) : (∀ x, x ∈ l ↔ x ∈ k) → l = [] ↔ k = [].
Proof.
  intros H. split; intros ->; apply elem_of_nil_inv; intros x Hx;
    by eapply not_elem_of_nil, H.
Qed.

Lemma not_empty_elem {A} (l : list A) : l ≠ [] ↔ ∃ x, x ∈ l.
Proof.
  split; [| by intros (x & Hx) ->; apply not_elem_of_nil in Hx].
  destruct l as [| x l]; [done |]. intros _. exists x. left.
Qed.

(** The store may hand its checkpoints over in any order. *)
Lemma report_perm vs live sealed cps cps' obs now cadence :
  cps ≡ₚ cps' →
  roll_up vs (verify_against_checkpoint live sealed cps obs now cadence) =
  roll_up vs (verify_against_checkpoint live sealed cps' obs now cadence).
Proof.
  intros Hp. apply roll_up_ext; apply empty_iff; intros x.
  - rewrite !found_breaks. split; by apply break_holds_perm.
  - rewrite !found_gaps. split; by apply gap_holds_perm.
Qed.

(** ** What the observing walk records *)

Section observing.
Context `{CP : ChainPrimitives}.

Lemma walk_rows_verdict {O} (obs : Z → EventHash → O → O) rows prev pos lh lp o :
  (walk_rows obs rows prev pos lh lp o).2 =
  (walk_rows (λ _ _ (u : unit), u) rows prev pos lh lp tt).2.
Proof.
  revert prev pos lh lp o. induction rows as [| r rows IH]; intros; simpl; [done |].
  repeat (case_match; [done |]). apply IH.
Qed.

(** The hash stored at position [p] of a chain whose first row is at [pos]. *)
Definition hash_at (pos p : Z) (rows : list StreamRow) : option EventHash :=
  if bool_decide (pos ≤ p) then stored_hash <$> rows !! Z.to_nat (p - pos) else None.

Lemma hash_at_cons pos p r rows :
  hash_at pos p (r :: rows) = if bool_decide (p = pos) then Some (stored_hash r)
                              else hash_at (pos + 1) p rows.
Proof.
  unfold hash_at. repeat case_bool_decide; try lia; subst; try done.
  - by rewrite Z.sub_diag.
  - by replace (Z.to_nat (p - pos)) with (S (Z.to_nat (p - (pos + 1)))) by lia.
Qed.

Lemma walk_rows_observes rows prev pos lastp slots slots' head q p :
  0 ≤ pos → pos + len rows < 2 ^ 64 → (pos = 0 → prev = genesis_hash) →
  walk_rows observe_slot rows prev pos prev lastp slots = (slots', SV_Ok head q) →
  slots' !! p = match slots !! p, hash_at pos p rows with
                | Some _, Some h => Some (Some h)
                | o, _ => o
                end.
Proof.
  revert prev pos lastp slots. induction rows as [| r rows IH];
    intros prev pos lastp slots Hpos Hlen Hz H.
  - injection H as <- <- <-. unfold hash_at. case_bool_decide; simpl; by destruct (slots !! p).
  - simpl in H. repeat (case_match; [done |]). breflect.
    assert (len (r :: rows) = 1 + len rows) as Hl by (unfold len; simpl; lia).
    unfold u64_add in H. rewrite wrap_small in H by (unfold is_uint, len in *; lia).
    apply IH in H; [| unfold len in *; lia ..]. rewrite H, hash_at_cons.
    replace (stream_position (input r)) with pos by congruence.
    replace (compute_event_hash (input r)) with (stored_hash r) by congruence.
    unfold observe_slot. destruct (decide (p = pos)) as [-> | Hne].
    + rewrite (bool_decide_true (pos = pos)) by done. unfold hash_at. rewrite bool_decide_false by lia.
      destruct (slots !! pos) eqn:E; [by rewrite lookup_insert_eq | by rewrite E].
    + rewrite (bool_decide_false (p = pos)) by done.
      destruct (slots !! pos) eqn:E; [by rewrite lookup_insert_ne | done].
Qed.

(** A checkpoint asked about this position. *)
Definition seeded (a : AnchoredPositionHashes) (sid : string) (p : Z) : Prop :=
  ∃ slots, by_stream a !! sid = Some slots ∧ is_Some (slots !! p).

Lemma observed_at_Some a sid p l :
  observed_at a sid p = Some l ↔ ∃ slots, by_stream a !! sid = Some slots ∧ slots !! p = Some (Some l).
Proof.
  unfold observed_at. destruct (by_stream a !! sid) as [slots |]; simpl; [| naive_solver].
  destruct (slots !! p) as [[l' |] |] eqn:E; simpl; naive_solver.
Qed.

(** An accepting walk answers every question about its own stream, and leaves
    every other stream's answers alone. *)
Lemma observing_spec sid rows a a' head q :
  len rows < 2 ^ 64 →
  verify_stream_chain_observing sid rows a = (a', SV_Ok head q) →
  verify_stream_chain rows = SV_Ok head q ∧
  (∀ sid' p, seeded a' sid' p ↔ seeded a sid' p) ∧
  (∀ sid' p, sid' ≠ sid → observed_at a' sid' p = observed_at a sid' p) ∧
  (∀ p, seeded a sid p → is_Some (hash_at 0 p rows) → observed_at a' sid p = hash_at 0 p rows) ∧
  (∀ p, hash_at 0 p rows = None → observed_at a' sid p = observed_at a sid p).
Proof.
  intros Hlen. unfold verify_stream_chain_observing, slots_for.
  destruct (by_stream a !! sid) as [slots |] eqn:Hs.
  - destruct (walk_stream_chain observe_slot rows slots) as [slots' v] eqn:Hw.
    intros [= <- ->].
    assert (∀ p, slots' !! p = match slots !! p, hash_at 0 p rows with
      | Some _, Some h => Some (Some h) | o, _ => o end) as Hob.
    { intros p. by eapply walk_rows_observes. }
    split; [| split; [| split; [| split]]].
    + unfold verify_stream_chain. unfold walk_stream_chain in *.
      by rewrite <- (walk_rows_verdict observe_slot _ _ _ _ _ slots), Hw.
    + intros sid' p. unfold seeded. simpl. destruct (decide (sid' = sid)) as [-> | Hne].
      * rewrite lookup_insert_eq, Hs. split; intros (? & [= <-] & Hp);
          eexists; (split; [done |]); [| rewrite Hob]; [rewrite Hob in Hp |];
          destruct (slots !! p), (hash_at 0 p rows); done || by destruct Hp.
      * by rewrite lookup_insert_ne.
    + intros sid' p Hne. unfold observed_at. simpl. by rewrite lookup_insert_ne.
    + intros p (? & Hs' & [x Hx]) [h Hh]. rewrite Hs in Hs'. injection Hs' as <-.
      unfold observed_at. simpl. rewrite lookup_insert_eq. simpl. by rewrite Hob, Hx, Hh.
    + intros p Hh. unfold observed_at. simpl. rewrite lookup_insert_eq, Hs. simpl.
      rewrite Hob, Hh. by destruct (slots !! p).
  - intros [= <- ?]. repeat split; try done. intros p (? & ? & _). congruence.
Qed.
End observing.

Lemma seeded_statement m st sid p :
  (∃ slots, seed_statement m st !! sid = Some slots ∧ is_Some (slots !! p)) ↔
  (∃ slots, m !! sid = Some slots ∧ is_Some (slots !! p)) ∨ (∃ h, st = (sid, p, h)).
Proof.
  destruct st as [[s q] h]. simpl. destruct (m !! s) as [slots |] eqn:E.
  - destruct (decide (sid = s)) as [-> | Hne]; [rewrite lookup_insert_eq, E | rewrite lookup_insert_ne by done].
    + destruct (slots !! q) eqn:Eq; [naive_solver |].
      destruct (decide (p = q)) as [-> | Hne].
      * split; [intros _; right; by exists h |]. intros _. eexists. split; [done |].
        by rewrite lookup_insert_eq.
      * split; [intros (? & [= <-] & Hp) | intros [(? & [= <-] & Hp) | (? & [= ? _])]; [| done]].
        -- rewrite lookup_insert_ne in Hp by done. eauto.
        -- eexists. split; [done |]. by rewrite lookup_insert_ne.
    + naive_solver.
  - destruct (decide (sid = s)) as [-> | Hne];
      [rewrite lookup_insert_eq, E | rewrite lookup_insert_ne by done; naive_solver].
    split; [intros (? & [= <-] & Hp) | intros [(? & ? & _) | (? & [= -> _])]; [done |]].
    + right. exists h. destruct (decide (p = q)) as [-> |]; [done |].
      rewrite lookup_singleton_ne in Hp by done. by destruct Hp.
    + eexists. split; [done |]. by rewrite lookup_singleton_eq.
Qed.

Lemma from_checkpoints_seeded cps sid p :
  seeded (from_checkpoints cps) sid p ↔ ∃ h, anchored cps sid p h.
Proof.
  unfold seeded, from_checkpoints. simpl. rewrite foldl_bind.
  setoid_rewrite <- (elem_of_statements cps). generalize (cps ≫= stream_heads) as l. intros l.
  induction l as [| st l IH] using rev_ind; simpl.
  - split; [intros (? & ? & _); done | intros (h & ?%not_elem_of_nil); done].
  - rewrite foldl_snoc, seeded_statement, IH. split.
    + intros [(h & ?) | (h & ->)]; exists h; set_solver.
    + intros (h & [? | <-%list_elem_of_singleton]%elem_of_app); [left | right]; eauto.
Qed.

Lemma from_checkpoints_unanswered cps sid p : observed_at (from_checkpoints cps) sid p = None.
Proof.
  unfold observed_at, from_checkpoints. simpl. rewrite foldl_bind.
  set (l := cps ≫= stream_heads). clearbody l.
  induction l as [| st l IH] using rev_ind; [done |]. rewrite foldl_snoc.
  set (m := foldl seed_statement ∅ l) in *. clearbody m. destruct st as [[s q] h]. simpl.
  destruct (m !! s) as [slots |] eqn:E; (destruct (decide (sid = s)) as [-> |];
    [rewrite lookup_insert_eq | by rewrite lookup_insert_ne]); rewrite ?E in *; simpl in *.
  - destruct (slots !! q) eqn:Eq; [done |]. destruct (decide (p = q)) as [-> |];
      [by rewrite lookup_insert_eq | by rewrite lookup_insert_ne].
  - destruct (decide (p = q)) as [-> |];
      [by rewrite lookup_singleton_eq | by rewrite lookup_singleton_ne].
Qed.

(**  The anchor cross-check records exactly what is the case, each kind at
    most once: a violation is recorded if and only if some anchored statement,
    seal or pair of checkpoints exhibits it, and a coverage gap if and only if
    the store is empty, its sequence numbers are not exactly 1 to the greatest,
    or its newest checkpoint is older than twice the cadence.  A coverage gap
    never hides a violation. *)
Theorem anchor_findings_exact live sealed cps obs now cadence :
  let found := verify_against_checkpoint live sealed cps obs now cadence in
  (∀ b, b ∈ breaks found ↔ break_holds live sealed cps obs b) ∧
  (∀ g, g ∈ coverage_gaps found ↔ gap_holds cps now cadence g) ∧
  NoDup (breaks found) ∧ NoDup (coverage_gaps found).
Proof.
  split; [apply found_breaks |]. split; [apply found_gaps |]. apply found_NoDup.
Qed.
