(* ===== verification/ChainVerify.v ===== *)
(** The [verify-event-chain] command
    (crates/hort-server/src/cli/verify_event_chain.rs): the composition of the
    pure chain core over what the event-chain reader port and the checkpoint
    anchor port return.

    The ports are records of functions: the reader is one snapshot of the event
    store, so that asking twice for a stream gives the same rows.  The clock is
    an argument. *)

From S2P Require Import Prelude.
From S2P Require Import RustStd.
From S2P Require Import Json.
From S2P Require Import EventChain.
From S2P Require Import ChainAnchor.

(** ** Ports, arguments, summary *)

Record EventChainReaderPort : Type := {
  list_stream_ids : option Z → result fmt (list string);
  read_stream_chain : string → result fmt (list ChainRow);
  read_sealed_records : result fmt (list SealedStreamRecord);
}.

Record CheckpointAnchorPort : Type := {
  read_all : result fmt (list Checkpoint);
}.

Inductive OutputFormat : Type :=
  | OF_Text
  | OF_Json.

Record VerifyEventChainArgs : Type := {
  streams : list string;
  since_global : option Z;
  checkpoint_source : option string;
  format : OutputFormat;
  fail_on_missing_checkpoint : option bool;
}.

Record VerifySummary : Type := {
  report : ChainReport;
  streams_verified : Z;
  rows_read : Z;
  first_broken_stream : option string;
  anchor_expected : bool;
}.

(** ** The run *)

Definition explicit_stream_ids (streams : list string) : list string :=
  sort_by str_leb (btree_set streams).

(** The locals the loop over the streams updates. *)
Record VerifyLoop : Type := {
  anchored_hashes : AnchoredPositionHashes;
  stream_verdicts : list StreamVerdict;
  live_heads : list (string * Z * EventHash);
  rows_so_far : Z;
  first_broken : option string;
}.

Section run.
Context `{CP : ChainPrimitives}.

Definition verify_stream (reader : EventChainReaderPort) (l : VerifyLoop) (sid : string)
    : result fmt VerifyLoop :=
  rows ← map_err (λ e, Lit "reading stream " :: ArgStr sid :: Lit ": " :: e)
           (read_stream_chain reader sid);
  let views := as_stream_row <$> rows in
  let '(anchored, verdict) := verify_stream_chain_observing sid views (anchored_hashes l) in
  let live :=
    match verdict with
    | SV_Ok head position =>
        if negb (position =? u64_MAX) then live_heads l ++ [(sid, position, head)]
        else live_heads l
    | _ => live_heads l
    end in
  let broken :=
    match verdict, first_broken l with
    | SV_Broken _ _, None => Some sid
    | _, b => b
    end in
  Ok {| anchored_hashes := anchored;
        stream_verdicts := stream_verdicts l ++ [verdict];
        live_heads := live;
        rows_so_far := u64_add (rows_so_far l) (len rows);
        first_broken := broken |}.

Fixpoint verify_streams (reader : EventChainReaderPort) (l : VerifyLoop) (ids : list string)
    : result fmt VerifyLoop :=
  match ids with
  | [] => Ok l
  | sid :: ids' => l' ← verify_stream reader l sid; verify_streams reader l' ids'
  end.

Definition verify (reader : EventChainReaderPort) (args : VerifyEventChainArgs)
    (anchor : CheckpointAnchorPort) (now : DateTime) (cadence : Duration)
    (anchor_expected : bool) : result fmt VerifySummary :=
  stream_ids ←
    (if is_empty (streams args) then
       map_err (λ e, Lit "listing stream ids: " :: e) (list_stream_ids reader (since_global args))
     else Ok (explicit_stream_ids (streams args)));
  checkpoints ← map_err (λ e, Lit "reading anchored checkpoints: " :: e) (read_all anchor);
  l ← verify_streams reader
        {| anchored_hashes := from_checkpoints checkpoints; stream_verdicts := [];
           live_heads := []; rows_so_far := 0; first_broken := None |} stream_ids;
  sealed ← map_err (λ e, Lit "reading StreamSealed records: " :: e) (read_sealed_records reader);
  let anchor_findings :=
    verify_against_checkpoint (live_heads l) sealed checkpoints (anchored_hashes l) now cadence in
  let report := roll_up (stream_verdicts l) anchor_findings in
  Ok {| report := report;
        streams_verified := len stream_ids;
        rows_read := rows_so_far l;
        first_broken_stream := first_broken l;
        anchor_expected := anchor_expected |}.
End run.

(** ** Exit code and metric label *)

Definition resolve_fail_on_missing (flag : option bool) (anchor_expected : bool) : bool :=
  match flag with Some b => b | None => anchor_expected end.

Definition report_to_exit_code (r : ChainReport) (fail_on_missing : bool) : Z :=
  match r with
  | CR_Ok => 0
  | CR_Broken => 2
  | CR_MissingCheckpoint => if fail_on_missing then 3 else 0
  end.

Definition result_label (r : ChainReport) (anchor_expected : bool) : string :=
  match r with
  | CR_Ok => "ok"
  | CR_Broken => "broken"
  | CR_MissingCheckpoint => if anchor_expected then "missing_checkpoint" else "ok"
  end.

(** ** What a run's loop has established *)

Section loop.
Context `{CP : ChainPrimitives} (reader : EventChainReaderPort) (a0 : AnchoredPositionHashes).
Hypothesis reader_wf : ∀ sid rows, read_stream_chain reader sid = Ok rows → rows_wf rows.

(** [sid] was read, verified and is not empty. *)
Definition live_stream (sid : string) (p : Z) (h : EventHash) (rows : list ChainRow) : Prop :=
  read_stream_chain reader sid = Ok rows ∧ rows ≠ [] ∧ intact (as_stream_row <$> rows) h ∧
  p = len rows - 1.

Record walked (visited : list string) (l : VerifyLoop) : Prop := {
  w_read : ∀ sid, sid ∈ visited → ∃ rows h, read_stream_chain reader sid = Ok rows ∧
             intact (as_stream_row <$> rows) h;
  w_live : ∀ sid p h, (sid, p, h) ∈ live_heads l ↔
             sid ∈ visited ∧ ∃ rows, live_stream sid p h rows;
  w_seeded : ∀ sid p, seeded (anchored_hashes l) sid p ↔ seeded a0 sid p;
  w_observed : ∀ sid p h, observed_at (anchored_hashes l) sid p = Some h ↔
             sid ∈ visited ∧ seeded a0 sid p ∧
             ∃ rows, read_stream_chain reader sid = Ok rows ∧
               hash_at 0 p (as_stream_row <$> rows) = Some h;
}.

Definition no_break (l : VerifyLoop) : Prop :=
  ∀ v, v ∈ stream_verdicts l → is_broken v = false.

Lemma verify_ok_intact (rows : list ChainRow) h p :
  rows_wf rows → verify_stream_chain (as_stream_row <$> rows) = SV_Ok h p →
  intact (as_stream_row <$> rows) h ∧ (p = u64_MAX ↔ rows = []) ∧ (rows ≠ [] → p = len rows - 1).
Proof.
  intros Hw H. pose proof (rows_wf_len _ Hw) as Hl.
  pose proof (verify_spec rows Hl) as S. rewrite H in S. destruct S as [Hi ->].
  split; [done |]. unfold last_position, len, u64_MAX in *.
  destruct rows as [| r rows]; simpl in *; [done |]. rewrite length_fmap.
  split; [split; [lia | done] |]. lia.
Qed.

Lemma observing_verdict sid rows a :
  (verify_stream_chain_observing sid rows a).2 = verify_stream_chain rows.
Proof.
  unfold verify_stream_chain_observing. destruct (slots_for _ _) as [slots |]; [| done].
  destruct (walk_stream_chain observe_slot _ slots) as [slots' v'] eqn:E. simpl.
  unfold verify_stream_chain, walk_stream_chain in *.
  by rewrite <- (walk_rows_verdict observe_slot _ _ _ _ _ slots), E.
Qed.

Lemma observed_seeded a sid p h : observed_at a sid p = Some h → seeded a sid p.
Proof. intros (slots & ? & ?)%observed_at_Some. exists slots. by split; [| eexists]. Qed.

Lemma verify_stream_walked visited l sid l' :
  walked visited l → verify_stream reader l sid = Ok l' → no_break l' → walked (visited ++ [sid]) l'.
Proof.
  intros W H Hnb. unfold verify_stream in H.
  destruct (read_stream_chain reader sid) as [rows |] eqn:Hread; [| done].
  pose proof (reader_wf _ _ Hread) as Hw. simpl in H.
  destruct (verify_stream_chain_observing _ _ _) as [a v] eqn:Hv. injection H as <-.
  assert (v = (verify_stream_chain_observing sid (as_stream_row <$> rows) (anchored_hashes l)).2)
    as Hv2 by by rewrite Hv.
  assert (verify_stream_chain (as_stream_row <$> rows) = v) as Hv1
    by by rewrite Hv2, observing_verdict.
  pose proof (verify_spec rows (rows_wf_len _ Hw)) as Hspec. rewrite Hv1 in Hspec.
  destruct v as [h p | p why | ?]; [| by specialize (Hnb (SV_Broken p why)); set_solver | done].
  clear Hspec Hv2. destruct (verify_ok_intact rows h p Hw Hv1) as (Hi & Hp1 & Hp2).
  apply observing_spec in Hv as (_ & Hseed & Hother & Hhere & Hnone);
    [| rewrite len_stream; by apply rows_wf_len].
  split; simpl.
  - intros sid' [Hin | ->%list_elem_of_singleton]%elem_of_app; [by apply W | eauto].
  - intros sid' p' h'.
    assert ((∃ rows', live_stream sid p' h' rows') ↔ p ≠ u64_MAX ∧ p' = p ∧ h' = h) as Hlive.
    { unfold live_stream. rewrite Hp1. split.
      - intros (rows' & Hr & Hne & Hi' & ->). rewrite Hread in Hr. injection Hr as <-.
        split; [done |]. split; [by rewrite Hp2 | by eapply linked_head_fun].
      - intros (Hne & -> & ->). exists rows. auto. }
    pose proof (w_live _ _ W sid' p' h') as Hold.
    destruct (Z.eqb_spec p u64_MAX) as [-> | Hne]; simpl.
    + rewrite Hold, elem_of_app, list_elem_of_singleton. naive_solver.
    + rewrite elem_of_app, list_elem_of_singleton, Hold, elem_of_app, list_elem_of_singleton.
      split; [intros [[? ?] | [= -> -> ->]]; [by auto |] | intros [[? | ->] Hex]; [by auto |]].
      * split; [by right | by apply Hlive].
      * apply Hlive in Hex as (_ & -> & ->). by right.
  - intros sid' p'. by rewrite Hseed, (w_seeded _ _ W).
  - intros sid' p' h'. rewrite elem_of_app, list_elem_of_singleton.
    destruct (decide (sid' = sid)) as [-> | Hne].
    + split.
      * intros Ho. pose proof (observed_seeded _ _ _ _ Ho) as Hs. rewrite Hseed in Hs.
        split; [by right |]. rewrite (w_seeded _ _ W) in Hs. split; [done |]. exists rows.
        split; [done |]. destruct (hash_at 0 p' (as_stream_row <$> rows)) as [g |] eqn:Hg.
        -- rewrite Hhere, Hg in Ho; [congruence | by apply (w_seeded _ _ W) | rewrite Hg; by eexists].
        -- rewrite (Hnone p' Hg) in Ho. apply (w_observed _ _ W) in Ho as (_ & _ & rows' & Hr & Ho).
           congruence.
      * intros (_ & Hs & rows' & Hr & Hh). rewrite Hread in Hr. injection Hr as <-.
        rewrite Hhere; [done | by apply (w_seeded _ _ W) | rewrite Hh; by eexists].
    + rewrite Hother by done. rewrite (w_observed _ _ W). naive_solver.
Qed.

Lemma verify_streams_walked visited l ids l' :
  walked visited l → verify_streams reader l ids = Ok l' → no_break l' →
  walked (visited ++ ids) l'.
Proof.
  revert visited l. induction ids as [| sid ids IH]; intros visited l W H Hnb; simpl in H.
  - injection H as <-. by rewrite app_nil_r.
  - destruct (verify_stream reader l sid) as [l1 |] eqn:E; [| done]. simpl in H.
    replace (visited ++ sid :: ids) with ((visited ++ [sid]) ++ ids) by (by rewrite <- (assoc_L (++))).
    apply (IH _ l1); [| done | done]. apply (verify_stream_walked _ l); [done | done |].
    intros v Hv. apply Hnb. clear -H Hv. revert l1 H Hv. induction ids as [| s ids IH];
      intros l1 H Hv; simpl in H; [congruence |].
    destruct (verify_stream reader l1 s) as [l2 |] eqn:E; [| done]. apply (IH l2 H).
    unfold verify_stream in E. destruct (read_stream_chain reader s); [| done]. simpl in E.
    destruct (verify_stream_chain_observing _ _ _). injection E as <-. simpl. set_solver.
Qed.

Hypothesis a0_unanswered : ∀ sid p, observed_at a0 sid p = None.

Lemma walked_start : walked [] {| anchored_hashes := a0; stream_verdicts := []; live_heads := [];
  rows_so_far := 0; first_broken := None |}.
Proof.
  split; simpl.
  - by intros sid ?%not_elem_of_nil.
  - intros sid p h. rewrite elem_of_nil. split; [done | by intros [?%not_elem_of_nil _]].
  - done.
  - intros sid p h. rewrite a0_unanswered. split; [done | by intros [?%not_elem_of_nil _]].
Qed.
End loop.

(** ** End-to-end theorems *)

Section end_to_end.
Context `{CP : ChainPrimitives}.
Context (reader : EventChainReaderPort) (args : VerifyEventChainArgs).
Context (anchor : CheckpointAnchorPort) (now : DateTime) (cadence : Duration) (expected : bool).
Context (s : VerifySummary).
Hypothesis run_ok : verify reader args anchor now cadence expected = Ok s.

(** The streams a run visits. *)
Definition selected (reader : EventChainReaderPort) (args : VerifyEventChainArgs)
    : result fmt (list string) :=
  if is_empty (streams args) then list_stream_ids reader (since_global args)
  else Ok (explicit_stream_ids (streams args)).

Definition start_loop (cps : list Checkpoint) : VerifyLoop :=
  {| anchored_hashes := from_checkpoints cps; stream_verdicts := []; live_heads := [];
     rows_so_far := 0; first_broken := None |}.

Lemma run_inv :
  ∃ ids cps l sealed,
    selected reader args = Ok ids ∧ read_all anchor = Ok cps ∧
    verify_streams reader (start_loop cps) ids = Ok l ∧ read_sealed_records reader = Ok sealed ∧
    report s = roll_up (stream_verdicts l)
      (verify_against_checkpoint (live_heads l) sealed cps (anchored_hashes l) now cadence).
Proof.
  revert run_ok. unfold verify, selected.
  destruct (if is_empty (streams args) then _ else _) as [ids |] eqn:Hids; [| done]. simpl.
  destruct (read_all anchor) as [cps |]; [| done]. simpl. fold (start_loop cps).
  destruct (verify_streams reader (start_loop cps) ids) as [l |] eqn:Hl; [| done]. simpl.
  destruct (read_sealed_records reader) as [sealed |]; [| done]. simpl. intros [= <-].
  exists ids, cps, l, sealed. repeat split; try done.
  destruct (is_empty (streams args)); [| done].
  by destruct (list_stream_ids reader (since_global args)).
Qed.

Lemma elem_of_explicit sid l : sid ∈ explicit_stream_ids l ↔ sid ∈ l.
Proof.
  unfold explicit_stream_ids. by rewrite sort_by_Permutation, elem_of_btree_set.
Qed.

Lemma live_heads_selected l ids l' sid p h :
  verify_streams reader l ids = Ok l' → (sid, p, h) ∈ live_heads l' →
  (sid, p, h) ∈ live_heads l ∨ sid ∈ ids.
Proof.
  revert l. induction ids as [| s' ids IH]; intros l H Hin; simpl in H;
    [injection H as <-; by left |].
  destruct (verify_stream reader l s') as [l1 |] eqn:E; [| done].
  destruct (IH l1 H Hin) as [H1 | H1]; [| right; by right].
  unfold verify_stream in E. destruct (read_stream_chain reader s'); [| done]. simpl in E.
  destruct (verify_stream_chain_observing _ _ _) as [a1 v]. injection E as <-. simpl in H1.
  destruct v; [destruct (negb _) | |]; auto.
  apply elem_of_app in H1 as [H1 | [= -> -> ->]%list_elem_of_singleton]; [by left |].
  right. by left.
Qed.

Lemma intact_prefix (rows : list ChainRow) head p h :
  intact (as_stream_row <$> rows) head → hash_at 0 p (as_stream_row <$> rows) = Some h →
  ∃ pre post, rows = pre ++ post ∧ intact (as_stream_row <$> pre) h ∧ len pre = p + 1.
Proof.
  unfold hash_at. case_bool_decide as Hp; [| done]. rewrite Z.sub_0_r.
  intros Hi (r & Hr & ->)%fmap_Some. rewrite list_lookup_fmap in Hr.
  apply fmap_Some in Hr as (cr & Hcr & ->).
  exists (take (S (Z.to_nat p)) rows), (drop (S (Z.to_nat p)) rows).
  assert (length (take (S (Z.to_nat p)) rows) = S (Z.to_nat p)) as Hlen.
  { rewrite length_take. apply lookup_lt_Some in Hcr. lia. }
  split; [by rewrite take_drop |]. split; [| unfold len; lia].
  rewrite <- (take_drop (S (Z.to_nat p)) rows), fmap_app in Hi.
  apply linked_app in Hi as (mid & Hi & _).
  rewrite (take_S_r _ _ cr Hcr), fmap_app in Hi |- *.
  by destruct (linked_last _ _ _ _ _ Hi) as (<- & _).
Qed.

Hypothesis reader_wf : ∀ sid rows, read_stream_chain reader sid = Ok rows → rows_wf rows.

Lemma passing_run :
  report s ≠ CR_Broken →
  ∃ ids cps l sealed,
    selected reader args = Ok ids ∧ read_all anchor = Ok cps ∧
    read_sealed_records reader = Ok sealed ∧
    walked reader (from_checkpoints cps) ids l ∧
    ∀ b, ¬ break_holds (live_heads l) sealed cps (anchored_hashes l) b.
Proof.
  destruct run_inv as (ids & cps & l & sealed & Hids & Hcps & Hl & Hsealed & ->).
  intros Hb. rewrite roll_up_broken in Hb. exists ids, cps, l, sealed.
  repeat (split; [done |]). split.
  - apply (verify_streams_walked _ _ reader_wf [] (start_loop cps)); [| done |].
    + apply walked_start. apply from_checkpoints_unanswered.
    + intros v Hv. destruct (is_broken v) eqn:E; [| done]. exfalso. eauto.
  - intros b. rewrite <- (found_breaks _ _ _ _ now cadence). intros Hin. apply Hb. right.
    intros Hn. rewrite Hn in Hin. by apply not_elem_of_nil in Hin.
Qed.

(** If no contradiction was found, the live chain has the anchored hash at the
    anchored position. *)
Lemma uncontradicted_hash cps ids l sid p h lp lh rows :
  walked reader (from_checkpoints cps) ids l →
  anchored cps sid p h → 0 ≤ p → sid ∈ ids → live_stream reader sid lp lh rows →
  ¬ (lp < p ∨ ¬ (p = lp ↔ h = lh) ∨
     ∃ g, observed_at (anchored_hashes l) sid p = Some g ∧ g ≠ h) →
  hash_at 0 p (as_stream_row <$> rows) = Some h.
Proof.
  intros W Hanch Hp Hsid (Hread & _ & _ & ->) Hnc.
  assert (is_Some (hash_at 0 p (as_stream_row <$> rows))) as [g Hg].
  { unfold hash_at. rewrite bool_decide_true by lia.
    rewrite fmap_is_Some, Z.sub_0_r. apply lookup_lt_is_Some. rewrite length_fmap.
    destruct (decide (len rows - 1 < p)); [exfalso; apply Hnc; by left |]. unfold len in *. lia. }
  rewrite Hg. destruct (decide (g = h)) as [-> |]; [done |]. exfalso. apply Hnc. right. right.
  exists g. split; [| done]. apply (w_observed _ _ _ _ W). split; [done |]. split; [| eauto].
  apply from_checkpoints_seeded. eauto.
Qed.

(** C1.  A run of [verify-event-chain] that does not report [Broken] vouches
    for everything any checkpoint ever anchored.  Suppose some checkpoint in
    the store states that stream [sid] had head [h] at position [p], and [old]
    is a history that verifies with that head and position.  Then either the
    stream was sealed away, by a seal some checkpoint covers, or the live
    stream still starts with exactly the rows of [old], however far it has
    grown since — unless two of the hashed byte strings collide. *)
Theorem passing_run_preserves_anchored_history cps sid p h old :
  report s ≠ CR_Broken →
  read_all anchor = Ok cps →
  anchored cps sid p h →
  rows_wf old → old ≠ [] →
  verify_stream_chain (as_stream_row <$> old) = SV_Ok h p →
  (∃ sealed rec cp, read_sealed_records reader = Ok sealed ∧ rec ∈ sealed ∧
     sealed_stream_id rec = sid ∧ cp ∈ cps ∧ rec ∈ sealed_streams cp) ∨
  (∃ pre post, read_stream_chain reader sid = Ok (pre ++ post) ∧
     (Forall2 same_row old pre ∨ collision_between old pre)).
Proof.
  intros Hrep Hcps Hanch Hold Hne Hver.
  destruct (passing_run Hrep) as (ids & cps' & l & sealed & _ & Hcps' & Hsealed & W & Hnb).
  rewrite Hcps in Hcps'. injection Hcps' as <-.
  destruct (live_index (live_heads l) !! sid) as [[lp lh] |] eqn:Hlive.
  - right. pose proof (live_index_Some _ _ _ _ Hlive) as Hin.
    apply (w_live _ _ _ _ W) in Hin as (Hsid & rows & Hread & Hrne & Hi & Hlp).
    destruct (verify_ok_intact old h p Hold Hver) as (Hoi & _ & Hp). specialize (Hp Hne).
    assert (hash_at 0 p (as_stream_row <$> rows) = Some h) as Hg.
    { apply (uncontradicted_hash cps ids l sid p h lp lh); try done.
      - destruct old; [done |]. unfold len in Hp. simpl in Hp. lia.
      - intros Hc. apply (Hnb HeadMismatch). by exists sid, p, h, lp, lh. }
    destruct (intact_prefix rows lh p h Hi Hg) as (pre & post & -> & Hpi & _).
    exists pre, post. split; [done |].
    apply (head_collision_or_prefix _ _ h); [done | | done | done].
    by apply (rows_wf_app pre post), (reader_wf sid).
  - left. rewrite live_index_None in Hlive.
    destruct (decide (sid ∈ sealed_stream_id <$> sealed)) as [Hs | Hs].
    + apply list_elem_of_fmap in Hs as (rec & -> & Hrec).
      destruct (decide (rec ∈ cps ≫= sealed_streams)) as [Hc | Hc].
      * apply list_elem_of_bind in Hc as (cp & ? & ?). by exists sealed, rec, cp.
      * exfalso. apply (Hnb SealUnanchored). split.
        -- intros ->. destruct Hanch as (? & ?%not_elem_of_nil & _). done.
        -- exists rec. split; [done |]. intros cp Hcp Hr. apply Hc, list_elem_of_bind. eauto.
    + exfalso. apply (Hnb UnsealedAbsentStream). by exists sid, p, h.
Qed.

Lemma verify_streams_verdicts l ids l' v :
  verify_streams reader l ids = Ok l' → v ∈ stream_verdicts l' →
  v ∈ stream_verdicts l ∨
  ∃ sid rows, sid ∈ ids ∧ read_stream_chain reader sid = Ok rows ∧
    v = verify_stream_chain (as_stream_row <$> rows).
Proof.
  revert l. induction ids as [| s' ids IH]; intros l H Hin; simpl in H;
    [injection H as <-; by left |].
  destruct (verify_stream reader l s') as [l1 |] eqn:E; [| done].
  destruct (IH l1 H Hin) as [H1 | (sid & rows & ? & ? & ?)];
    [| right; exists sid, rows; split; [by right | done]].
  unfold verify_stream in E. destruct (read_stream_chain reader s') as [rows |] eqn:Hr; [| done].
  simpl in E. destruct (verify_stream_chain_observing _ _ _) as [a1 v1] eqn:Hv.
  injection E as <-. simpl in H1.
  apply elem_of_app in H1 as [H1 | ->%list_elem_of_singleton]; [by left |].
  right. exists s', rows. split; [by left |]. split; [done |].
  apply (f_equal snd) in Hv. by rewrite observing_verdict in Hv.
Qed.

(** Two rows of one verified chain with the same hash collide. *)
Lemma same_hash_collides (rows : list ChainRow) head p q h :
  rows_wf rows → intact (as_stream_row <$> rows) head → p ≠ q →
  hash_at 0 p (as_stream_row <$> rows) = Some h → hash_at 0 q (as_stream_row <$> rows) = Some h →
  collision_between rows rows.
Proof.
  intros Hw Hi Hpq. unfold hash_at. do 2 (case_bool_decide; [| done]). rewrite !Z.sub_0_r.
  intros (r1 & H1 & ->)%fmap_Some (r2 & H2 & Hh)%fmap_Some.
  destruct (linked_lookup _ _ _ _ _ _ Hi H1) as [P1 C1].
  destruct (linked_lookup _ _ _ _ _ _ Hi H2) as [P2 C2].
  rewrite list_lookup_fmap in H1, H2.
  apply fmap_Some in H1 as (c1 & H1 & ->), H2 as (c2 & H2 & ->).
  apply list_elem_of_lookup_2 in H1, H2.
  exists (row_bytes c1), (row_bytes c2). unfold hashed. split; [set_solver |].
  split; [set_solver |]. split.
  - intros Heq. apply canonical_event_bytes_inj in Heq; [| by apply Hw ..].
    assert (cr_stream_position c1 = cr_stream_position c2) by apply Heq. simpl in *. lia.
  - unfold row_bytes, compute_event_hash in *. congruence.
Qed.

Lemma hash_at_last (rows : list ChainRow) head :
  rows ≠ [] → intact (as_stream_row <$> rows) head →
  hash_at 0 (len rows - 1) (as_stream_row <$> rows) = Some head.
Proof.
  intros Hne. destruct rows as [| r rows _] using rev_ind; [done |]. intros Hi.
  rewrite fmap_app in Hi. destruct (linked_last _ _ _ _ _ Hi) as (-> & _).
  unfold hash_at, len. rewrite length_app. simpl. rewrite bool_decide_true by lia.
  replace (Z.to_nat _) with (length (as_stream_row <$> rows)) by (rewrite length_fmap; lia).
  by rewrite fmap_app, lookup_app_r, Nat.sub_diag by lia.
Qed.

(** An anchored statement the live chain still bears out is no mismatch. *)
Lemma kept_statement_no_mismatch cps ids l sid p h lp lh rows :
  walked reader (from_checkpoints cps) ids l →
  live_stream reader sid lp lh rows → hash_at 0 p (as_stream_row <$> rows) = Some h →
  (lp < p ∨ ¬ (p = lp ↔ h = lh) ∨
   ∃ g, observed_at (anchored_hashes l) sid p = Some g ∧ g ≠ h) →
  collision_between rows rows.
Proof.
  intros W (Hread & Hne & Hi & ->) Hh Hc. pose proof (hash_at_last rows lh Hne Hi) as Hlast.
  destruct Hc as [Hlt | [Hiff | (g & Hg & Hgh)]].
  - exfalso. unfold hash_at in Hh. case_bool_decide; [| done]. rewrite Z.sub_0_r in Hh.
    apply fmap_Some in Hh as (r & Hr%lookup_lt_Some & _). rewrite length_fmap in Hr.
    unfold len in Hlt. lia.
  - destruct (decide (p = len rows - 1)) as [-> | Hpq]; [rewrite Hlast in Hh; naive_solver |].
    assert (h = lh) as -> by (destruct (decide (h = lh)); [done | naive_solver]).
    by apply (same_hash_collides rows lh p (len rows - 1) lh (reader_wf _ _ Hread)).
  - exfalso. apply (w_observed _ _ _ _ W) in Hg as (_ & _ & rows' & Hread' & Hg). congruence.
Qed.

(** No false alarm: when every visited stream is intact, every anchored
    statement is still borne out by the live chain (or its stream is gone and
    sealed), every seal is covered by a checkpoint and no sequence number is
    used twice, the run does not report [Broken] — unless one of the streams
    contains a SHA-256 collision. *)
Theorem faithful_store_is_not_broken ids cps sealed :
  selected reader args = Ok ids → read_all anchor = Ok cps →
  read_sealed_records reader = Ok sealed →
  NoDup (checkpoint_seq <$> cps) →
  (∀ rec, rec ∈ sealed → ∃ cp, cp ∈ cps ∧ rec ∈ sealed_streams cp) →
  (∀ sid, sid ∈ ids → ∃ rows h, read_stream_chain reader sid = Ok rows ∧
     intact (as_stream_row <$> rows) h) →
  (∀ sid p h, anchored cps sid p h →
     ((sid ∉ ids) ∧ sid ∈ sealed_stream_id <$> sealed) ∨
     (sid ∈ ids ∧ ∃ rows, read_stream_chain reader sid = Ok rows ∧
        hash_at 0 p (as_stream_row <$> rows) = Some h)) →
  report s ≠ CR_Broken ∨
  ∃ sid rows, read_stream_chain reader sid = Ok rows ∧ collision_between rows rows.
Proof.
  intros Hids Hcps Hsealed Hnd Hseals Hintact Hkept.
  destruct (decide (report s = CR_Broken)) as [Hb |]; [right; revert Hb | by left].
  destruct run_inv as (ids' & cps' & l & sealed' & Hids' & Hcps' & Hl & Hsealed' & ->).
  rewrite Hids in Hids'. rewrite Hcps in Hcps'. rewrite Hsealed in Hsealed'. simplify_eq.
  assert (no_break l) as Hnb.
  { intros v Hv. destruct (verify_streams_verdicts _ _ _ _ Hl Hv)
      as [?%not_elem_of_nil | (sid & rows & Hin & Hr & ->)]; [done |].
    destruct (Hintact sid Hin) as (rows' & h & Hr' & Hi). rewrite Hr in Hr'. simplify_eq.
    by rewrite (verify_intact _ h (rows_wf_len _ (reader_wf _ _ Hr)) Hi). }
  assert (walked reader (from_checkpoints cps') ids' l) as W.
  { apply (verify_streams_walked _ _ reader_wf [] (start_loop cps')); [| done | done].
    apply walked_start, from_checkpoints_unanswered. }
  rewrite roll_up_broken. intros [(v & Hv & Hb) | Hb]; [by rewrite (Hnb v Hv) in Hb |].
  apply not_empty_elem in Hb as [b Hb]. apply found_breaks in Hb. destruct b; simpl in Hb.
  - destruct Hb as (sid & p & h & lp & lh & Ha & Hlive%live_index_Some & Hc).
    apply (w_live _ _ _ _ W) in Hlive as (Hsid & rows & Hlive). exists sid, rows.
    split; [apply Hlive |]. apply (kept_statement_no_mismatch cps' ids' l sid p h lp lh); try done.
    destruct (Hkept _ _ _ Ha) as [[? _] | (_ & rows' & Hr & Hh)]; [done |].
    destruct Hlive as [Hr' _]. congruence.
  - destruct Hb as (sid & p & h & Ha & Habs & Hns).
    destruct (Hkept _ _ _ Ha) as [[_ ?] | (Hin & rows & Hr & Hh)]; [done |]. exfalso.
    destruct (Hintact sid Hin) as (rows' & g & Hr' & Hi). rewrite Hr in Hr'. simplify_eq.
    apply (Habs (len rows' - 1) g), (w_live _ _ _ _ W). split; [done |]. exists rows'.
    repeat split; try done. intros ->. unfold hash_at in Hh. by destruct (bool_decide _).
  - destruct Hb as (_ & rec & Hr & Hn). destruct (Hseals rec Hr) as (cp & Hcp & Hin).
    exfalso. by apply (Hn cp Hcp).
  - done.
Qed.
End end_to_end.

(**  Limiting a run to some streams makes it report [Broken] as soon as a
    checkpoint anchored any other stream that has not been sealed: the
    cross-check still visits every anchored statement and takes the streams
    that were not read for deleted ones. *)
Theorem stream_selection_reports_broken `{CP : ChainPrimitives}
    reader args anchor now cadence expected s cps sealed sid p h :
  verify reader args anchor now cadence expected = Ok s →
  streams args ≠ [] → sid ∉ streams args →
  read_all anchor = Ok cps → anchored cps sid p h →
  read_sealed_records reader = Ok sealed → sid ∉ sealed_stream_id <$> sealed →
  report s = CR_Broken.
Proof.
  intros Hrun Hne Hsel Hcps Ha Hsealed Hns.
  destruct (run_inv _ _ _ _ _ _ _ Hrun) 
    as (ids & cps' & l & sealed' & Hids & Hcps' & Hl & Hsl & ->).
  rewrite Hcps in Hcps'. rewrite Hsealed in Hsl. unfold selected in Hids.
  rewrite (proj2 (is_empty_false _) Hne) in Hids. simplify_eq.
  apply roll_up_broken. right. apply not_empty_elem. exists UnsealedAbsentStream.
  apply found_breaks. exists sid, p, h. split; [done |]. split; [| done].
  intros p' h' Hin. apply (live_heads_selected _ _ _ _ _ _ _ Hl) in Hin as [Hin | Hin];
    [by apply not_elem_of_nil in Hin | by apply Hsel, elem_of_explicit].
Qed.

(** ** A concrete run *)

Module SampleRun.
#[local] Existing Instance Sample.prims.

Definition reader : EventChainReaderPort := {|
  list_stream_ids := λ _, Ok ["artifact-1"%string];
  read_stream_chain := λ sid,
    if bool_decide (sid = "artifact-1"%string) then Ok Sample.rows else Ok [];
  read_sealed_records := Ok [] |}.

(** The store anchored the first row, and another stream. *)
Definition checkpoint : Checkpoint := {|
  chain_format_version := "hort-evchain/v1"; checkpoint_seq := 1; created_at := 0;
  stream_heads := [("artifact-1"%string, 0, cr_stored_hash Sample.row0)]; sealed_streams := [] |}.

Definition checkpoint2 : Checkpoint := {|
  chain_format_version := "hort-evchain/v1"; checkpoint_seq := 1; created_at := 0;
  stream_heads := [("artifact-1"%string, 0, cr_stored_hash Sample.row0);
                   ("artifact-2"%string, 0, cr_stored_hash Sample.row0)];
  sealed_streams := [] |}.

Definition args (streams : list string) : VerifyEventChainArgs := {|
  streams := streams; since_global := None; checkpoint_source := None; format := OF_Text;
  fail_on_missing_checkpoint := None |}.

Definition store (c : Checkpoint) : CheckpointAnchorPort := {| read_all := Ok [c] |}.

Definition summary (r : ChainReport) : VerifySummary := {|
  report := r; streams_verified := 1; rows_read := 2; first_broken_stream := None;
  anchor_expected := true |}.

Lemma reader_wf sid rows : read_stream_chain reader sid = Ok rows → rows_wf rows.
Proof.
  simpl. case_bool_decide; intros [= <-]; [apply Sample.rows_ok |].
  split; [done |]. by intros r ?%not_elem_of_nil.
Qed.

Lemma old_wf : rows_wf [Sample.row0].
Proof. destruct Sample.rows_ok as [Hw _]. exact (proj1 (rows_wf_app [Sample.row0] [Sample.row1] Hw)). Qed.

Lemma rows_verify : verify_stream_chain (as_stream_row <$> Sample.rows) = SV_Ok Sample.head 1.
Proof. vm_compute. reflexivity. Qed.

Lemma rows_intact : intact (as_stream_row <$> Sample.rows) Sample.head.
Proof.
  pose proof (verify_spec Sample.rows eq_refl) as H. rewrite rows_verify in H. apply H.
Qed.

Lemma run_ok :
  verify reader (args []) (store checkpoint) 0 (3600 * NANOS) true = Ok (summary CR_Ok).
Proof. vm_compute. reflexivity. Qed.
End SampleRun.

#[local] Existing Instance Sample.prims.

Lemma passing_run_preserves_anchored_history_witness :
  (∃ sealed rec cp, read_sealed_records SampleRun.reader = Ok sealed ∧ rec ∈ sealed ∧
     sealed_stream_id rec = "artifact-1"%string ∧ cp ∈ [SampleRun.checkpoint] ∧
     rec ∈ sealed_streams cp) ∨
  (∃ pre post, read_stream_chain SampleRun.reader "artifact-1"%string = Ok (pre ++ post) ∧
     (Forall2 same_row [Sample.row0] pre ∨ collision_between [Sample.row0] pre)).
Proof.
  apply (passing_run_preserves_anchored_history SampleRun.reader (SampleRun.args [])
    (SampleRun.store SampleRun.checkpoint) 0 (3600 * NANOS) true (SampleRun.summary CR_Ok)
    SampleRun.run_ok SampleRun.reader_wf
    [SampleRun.checkpoint] "artifact-1"%string 0 (cr_stored_hash Sample.row0) [Sample.row0]).
  - discriminate.
  - reflexivity.
  - exists SampleRun.checkpoint. split; left.
  - exact SampleRun.old_wf.
  - discriminate.
  - vm_compute. reflexivity.
Defined.

Lemma faithful_store_is_not_broken_witness :
  report (SampleRun.summary CR_Ok) ≠ CR_Broken ∨
  ∃ sid rows, read_stream_chain SampleRun.reader sid = Ok rows ∧ collision_between rows rows.
Proof.
  apply (faithful_store_is_not_broken SampleRun.reader (SampleRun.args [])
    (SampleRun.store SampleRun.checkpoint) 0 (3600 * NANOS) true (SampleRun.summary CR_Ok)
    SampleRun.run_ok SampleRun.reader_wf
    ["artifact-1"%string] [SampleRun.checkpoint] []).
  - reflexivity.
  - reflexivity.
  - reflexivity.
  - apply NoDup_singleton.
  - by intros rec ?%not_elem_of_nil.
  - intros sid ->%list_elem_of_singleton. exists Sample.rows, Sample.head. split; [reflexivity |].
    exact SampleRun.rows_intact.
  - intros sid p h (cp & ->%list_elem_of_singleton & [= -> -> ->]%list_elem_of_singleton).
    right. split; [left |]. exists Sample.rows. split; reflexivity.
Defined.

Lemma stream_selection_reports_broken_witness :
  report (SampleRun.summary CR_Broken) = CR_Broken.
Proof.
  apply (stream_selection_reports_broken SampleRun.reader (SampleRun.args ["artifact-1"%string])
    (SampleRun.store SampleRun.checkpoint2) 0 (3600 * NANOS) true (SampleRun.summary CR_Broken)
    [SampleRun.checkpoint2] [] "artifact-2"%string 0 (cr_stored_hash Sample.row0)).
  - vm_compute. reflexivity.
  - discriminate.
  - intros [=]%list_elem_of_singleton.
  - reflexivity.
  - exists SampleRun.checkpoint2. split; [left | right; left].
  - reflexivity.
  - by intros ?%not_elem_of_nil.
Defined.
