(* ===== verification/Types.v ===== *)
(** The shared data of hort-domain: the error type (error.rs), the textual
    enums of the entities (entities/artifact.rs, entities/scan_policy.rs,
    entities/curation_rule.rs, entities/repository.rs), the provenance verdict
    (ports/provenance.rs), findings (types/finding.rs) and artifact kinds
    (types/artifact_kind.rs).

    Rust enums keep their names.  A constructor that several enums share gets a
    short prefix: [QS_Rejected] is [QuarantineStatus::Rejected]. *)

From S2P Require Import Prelude.
From S2P Require Import RustStd.
From S2P Require Import Json.

(** ** Errors *)

Inductive FetchClass : Type :=
  | FC_Metadata
  | FC_Manifest.

Record ExclusionCandidate : Type := {
  xc_exclusion_id : Uuid;
  xc_package_pattern : option string;
}.

Inductive DomainError : Type :=
  | NotFound (entity : string) (id : fmt)
  | Conflict (msg : fmt)
  | Contended (msg : fmt)
  | Validation (msg : fmt)
  | Forbidden (msg : fmt)
  | Invariant (msg : fmt)
  | InvalidState (msg : fmt)
  | ManagedByConfiguration (kind name : string)
  | CurationBlocked (rule_name : string) (rule_id : Uuid) (reason : string)
  | UpstreamBodyTooLarge (fetch_class : FetchClass) (bytes_read cap : Z)
  | UpstreamMetadataInvalid
  | AmbiguousExclusion (cve_id : string) (candidates : list ExclusionCandidate).

Abbreviation DomainResult := (result DomainError).

Definition FetchClass_display (c : FetchClass) : string :=
  match c with FC_Metadata => "metadata" | FC_Manifest => "manifest" end.

(** [Display] of an error. *)
Definition DomainError_display (e : DomainError) : fmt :=
  match e with
  | NotFound entity id => [Lit "not found: "; Lit entity; Lit " "] ++ id
  | Conflict msg => [Lit "conflict: "] ++ msg
  | Contended msg => [Lit "contended: "] ++ msg
  | Validation msg => [Lit "validation: "] ++ msg
  | Forbidden msg => [Lit "forbidden: "] ++ msg
  | Invariant msg => msg
  | InvalidState msg => msg
  | ManagedByConfiguration kind name =>
      [Lit kind; Lit " '"; ArgStr name; Lit "' is managed by configuration"]
  | CurationBlocked rule_name _ reason =>
      [Lit "curation rule '"; ArgStr rule_name; Lit "' blocked this package: "; ArgStr reason]
  | UpstreamBodyTooLarge fetch_class bytes_read cap =>
      [Lit "upstream "; Lit (FetchClass_display fetch_class); Lit " body too large: read ";
       ArgInt bytes_read; Lit " bytes, cap "; ArgInt cap]
  | UpstreamMetadataInvalid => [Lit "upstream metadata invalid"]
  | AmbiguousExclusion cve_id candidates =>
      [ArgInt (len candidates); Lit " exclusions match "; ArgStr cve_id;
       Lit "; name one by exclusion_id"]
  end.

(** ** Textual enums

    [Display] writes the lowercase wire form, [FromStr] compares the
    [to_lowercase]d input with each literal in turn. *)

Class Display (A : Type) : Type := display : A → string.

Fixpoint match_literal {A} (s : string) (arms : list (string * A)) : option A :=
  match arms with
  | [] => None
  | (lit, a) :: arms' => if bool_decide (to_lowercase s = lit) then Some a else match_literal s arms'
  end.

Definition from_str {A} (what : string) (arms : list (string * A)) (s : string)
    : DomainResult A :=
  match match_literal s arms with
  | Some a => Ok a
  | None => Err (Validation [Lit "unknown "; Lit what; Lit ": "; ArgStr s])
  end.

Inductive QuarantineStatus : Type :=
  | QS_None
  | QS_Quarantined
  | QS_Released
  | QS_Rejected
  | QS_ScanIndeterminate.

#[export] Instance QuarantineStatus_display : Display QuarantineStatus := λ s,
  match s with
  | QS_None => "none"
  | QS_Quarantined => "quarantined"
  | QS_Released => "released"
  | QS_Rejected => "rejected"
  | QS_ScanIndeterminate => "scan_indeterminate"
  end.

Definition QuarantineStatus_from_str : string → DomainResult QuarantineStatus :=
  from_str "quarantine status"
    [("none", QS_None); ("quarantined", QS_Quarantined); ("released", QS_Released);
     ("rejected", QS_Rejected); ("scan_indeterminate", QS_ScanIndeterminate)]%string.

Inductive SeverityThreshold : Type :=
  | Critical
  | High
  | Medium
  | Low.

#[export] Instance SeverityThreshold_display : Display SeverityThreshold := λ s,
  match s with Critical => "critical" | High => "high" | Medium => "medium" | Low => "low" end.

Definition SeverityThreshold_from_str : string → DomainResult SeverityThreshold :=
  from_str "severity threshold"
    [("critical", Critical); ("high", High); ("medium", Medium); ("low", Low)]%string.

Inductive ProvenanceMode : Type :=
  | PM_Off
  | PM_VerifyIfPresent
  | PM_Required.

#[export] Instance ProvenanceMode_display : Display ProvenanceMode := λ m,
  match m with
  | PM_Off => "off"
  | PM_VerifyIfPresent => "verify_if_present"
  | PM_Required => "required"
  end.

Definition ProvenanceMode_from_str : string → DomainResult ProvenanceMode :=
  from_str "provenance mode"
    [("off", PM_Off); ("verify_if_present", PM_VerifyIfPresent); ("required", PM_Required)]%string.

(** [ProvenanceMode::default()]. *)
Definition ProvenanceMode_default : ProvenanceMode := PM_VerifyIfPresent.

Inductive NegligibleAction : Type :=
  | NA_Ignore
  | NA_Warn
  | NA_Block.

#[export] Instance NegligibleAction_display : Display NegligibleAction := λ a,
  match a with NA_Ignore => "ignore" | NA_Warn => "warn" | NA_Block => "block" end.

Definition NegligibleAction_from_str : string → DomainResult NegligibleAction :=
  from_str "negligible action"
    [("ignore", NA_Ignore); ("warn", NA_Warn); ("block", NA_Block)]%string.

Inductive ScanEnforcement : Type :=
  | SE_Reject
  | SE_Record.

#[export] Instance ScanEnforcement_display : Display ScanEnforcement := λ e,
  match e with SE_Reject => "reject" | SE_Record => "record" end.

Definition ScanEnforcement_from_str : string → DomainResult ScanEnforcement :=
  from_str "scan enforcement" [("reject", SE_Reject); ("record", SE_Record)]%string.

Inductive CompositeVerdictMode : Type :=
  | CV_Observed
  | CV_Promoted.

Definition carries_release_authority (m : CompositeVerdictMode) : bool :=
  match m with CV_Observed => false | CV_Promoted => true end.

#[export] Instance CompositeVerdictMode_display : Display CompositeVerdictMode := λ m,
  match m with CV_Observed => "observed" | CV_Promoted => "promoted" end.

Definition CompositeVerdictMode_from_str : string → DomainResult CompositeVerdictMode :=
  from_str "composite verdict mode" [("observed", CV_Observed); ("promoted", CV_Promoted)]%string.

Inductive CurationRuleAction : Type :=
  | CA_Block
  | CA_Warn
  | CA_Allow.

#[export] Instance CurationRuleAction_display : Display CurationRuleAction := λ a,
  match a with CA_Block => "block" | CA_Warn => "warn" | CA_Allow => "allow" end.

Definition CurationRuleAction_from_str : string → DomainResult CurationRuleAction :=
  from_str "curation rule action"
    [("block", CA_Block); ("warn", CA_Warn); ("allow", CA_Allow)]%string.

#[export] Instance QuarantineStatus_eq_dec : EqDecision QuarantineStatus.
Proof. solve_decision. Defined.
#[export] Instance SeverityThreshold_eq_dec : EqDecision SeverityThreshold.
Proof. solve_decision. Defined.
#[export] Instance ProvenanceMode_eq_dec : EqDecision ProvenanceMode.
Proof. solve_decision. Defined.
#[export] Instance NegligibleAction_eq_dec : EqDecision NegligibleAction.
Proof. solve_decision. Defined.
#[export] Instance ScanEnforcement_eq_dec : EqDecision ScanEnforcement.
Proof. solve_decision. Defined.
#[export] Instance CompositeVerdictMode_eq_dec : EqDecision CompositeVerdictMode.
Proof. solve_decision. Defined.
#[export] Instance CurationRuleAction_eq_dec : EqDecision CurationRuleAction.
Proof. solve_decision. Defined.

(** [QuarantineStatus::worst_of], [is_terminal] and [ALL]. *)
Definition status_rank (s : QuarantineStatus) : Z :=
  match s with
  | QS_Rejected => 4
  | QS_Quarantined => 3
  | QS_ScanIndeterminate => 2
  | QS_Released => 1
  | QS_None => 0
  end.

Definition worst_of (s other : QuarantineStatus) : QuarantineStatus :=
  if status_rank other <=? status_rank s then s else other.

Definition is_terminal (s : QuarantineStatus) : bool :=
  match s with
  | QS_Rejected | QS_ScanIndeterminate => true
  | QS_None | QS_Quarantined | QS_Released => false
  end.

Definition QuarantineStatus_ALL : list QuarantineStatus :=
  [QS_None; QS_Quarantined; QS_Released; QS_Rejected; QS_ScanIndeterminate].

(** ** Identifiers and coordinates *)

(** [ContentHash]: 64 lowercase hex characters, built by [from_str] only. *)
Abbreviation ContentHash := string.

Definition is_lower_hex (c : byte) : bool :=
  is_digit c || ((97 <=? Z_of_byte c) && (Z_of_byte c <=? 102)).

Definition is_valid_sha256_hex (s : string) : bool :=
  (strlen s =? 64) && forallb is_lower_hex (as_bytes s).

Definition ContentHash_from_str (s : string) : DomainResult ContentHash :=
  if is_valid_sha256_hex s then Ok s
  else Err (Validation [Lit "invalid SHA-256 hash: expected 64 lowercase hex characters, got ";
                        ArgInt (strlen s); Lit " characters"]).

Inductive RepositoryFormat : Type :=
  | Maven | Gradle | Npm | Pypi | Nuget | Go | Rubygems | Docker | Oci | Helm | Rpm | Debian
  | Conan | Cargo | Generic | Podman | Buildx | Oras | WasmOci | HelmOci | Poetry | Conda
  | Yarn | Bower | Pnpm | Chocolatey | Powershell | Terraform | Opentofu | Alpine
  | CondaNative | Composer | Hex | Cocoapods | Swift | Pub | Sbt | Chef | Puppet | Ansible
  | Gitlfs | Vscode | Jetbrains | Huggingface | Mlmodel | Cran | Vagrant | Opkg | P2 | Bazel
  | Protobuf | Incus | Lxc
  | RF_Other (name : string).

#[export] Instance RepositoryFormat_eq_dec : EqDecision RepositoryFormat.
Proof. solve_decision. Defined.

Record ArtifactCoords : Type := {
  co_name : string;
  co_name_as_published : string;
  co_version : option string;
  co_path : string;
  co_format : RepositoryFormat;
  co_metadata : Value;
}.

Inductive PolicyScope : Type :=
  | PS_Global
  | PS_Repository (id : Uuid).

#[export] Instance PolicyScope_eq_dec : EqDecision PolicyScope.
Proof. solve_decision. Defined.

(** ** Provenance *)

Record SignerIdentity : Type := {
  issuer : string;
  san : string;
}.

Inductive ProvenanceRejectReason : Type :=
  | Unsigned
  | UntrustedIdentity
  | RekorNotFound
  | CertChainInvalid
  | BundleMalformed
  | DigestMismatch.

(** [{:?}] of the reason. *)
Definition ProvenanceRejectReason_debug (r : ProvenanceRejectReason) : string :=
  match r with
  | Unsigned => "Unsigned"
  | UntrustedIdentity => "UntrustedIdentity"
  | RekorNotFound => "RekorNotFound"
  | CertChainInvalid => "CertChainInvalid"
  | BundleMalformed => "BundleMalformed"
  | DigestMismatch => "DigestMismatch"
  end.

Inductive IndeterminateReason : Type :=
  | AttestationFetchFailed
  | TrustRootUnusable
  | VerifierUnavailable.

Inductive ProvenanceOutcome : Type :=
  | PO_Verified (signer : SignerIdentity) (predicate_type : option string)
  | PO_Rejected (reason : ProvenanceRejectReason)
  | PO_NoAttestation
  | PO_Indeterminate (reason : IndeterminateReason).

Record ProvenanceVerdict : Type := {
  outcome : ProvenanceOutcome;
  unreadable_skipped : Z;
}.

Inductive ProvenanceClearance : Type :=
  | PC_NotRequired
  | PC_Cleared
  | PC_Pending.

Inductive CurationClearance : Type :=
  | CC_Cleared
  | CC_Blocked.

#[export] Instance SignerIdentity_eq_dec : EqDecision SignerIdentity.
Proof. solve_decision. Defined.
#[export] Instance ProvenanceRejectReason_eq_dec : EqDecision ProvenanceRejectReason.
Proof. solve_decision. Defined.
#[export] Instance ProvenanceClearance_eq_dec : EqDecision ProvenanceClearance.
Proof. solve_decision. Defined.
#[export] Instance CurationClearance_eq_dec : EqDecision CurationClearance.
Proof. solve_decision. Defined.

(** ** Findings *)

Inductive ArtifactKind : Type :=
  | MavenJar
  | MavenPom
  | NpmTarball
  | CargoCrate
  | PyWheel
  | PySdist
  | OciBlob
  | OciManifest
  | AK_Other.

Definition is_composition_constituent (k : ArtifactKind) : bool :=
  match k with OciBlob => true | _ => false end.

Inductive SeverityBasis : Type :=
  | Assessed
  | Unassessed.

Inductive ComponentRelation : Type :=
  | Subject
  | Contained
  | NotContained
  | NotEstablished.

Inductive FindingStatement : Type :=
  | FS_Bytes
  | FS_Filesystem
  | FS_Unstated.

Record Finding : Type := {
  purl : string;
  vulnerability_id : string;
  severity : SeverityThreshold;
  cvss_score : option f32;
  title : string;
  fixed_versions : list string;
  source_scanner : string;
  references : list string;
  aliases : list string;
  informational_class : option string;
  severity_basis : SeverityBasis;
  component_relation : ComponentRelation;
  statement : FindingStatement;
  advisory_published_at : option DateTime;
}.

Record SeveritySummary : Type := {
  critical : Z;
  high : Z;
  medium : Z;
  low : Z;
  negligible : Z;
}.

#[export] Instance SeveritySummary_eq_dec : EqDecision SeveritySummary.
Proof. solve_decision. Defined.

(** ** Policies *)

Record SignerIdentityPattern : Type := {
  sp_issuer : string;
  sp_san : string;
}.

Record ScanPolicyProjection : Type := {
  policy_id : Uuid;
  p_name : string;
  p_scope : PolicyScope;
  severity_threshold : SeverityThreshold;
  quarantine_duration_secs : Z;
  require_approval : bool;
  provenance_mode : ProvenanceMode;
  provenance_backends : list string;
  provenance_identities : list SignerIdentityPattern;
  max_artifact_age_secs : option Z;
  license_policy : Value;
  archived : bool;
  scan_backends : list string;
  rescan_interval_hours : Z;
  negligible_action : NegligibleAction;
  enforcement : ScanEnforcement;
  composite_verdict_mode : CompositeVerdictMode;
  stream_version : Z;
  p_created_at : DateTime;
  p_updated_at : DateTime;
}.

Record ExclusionProjection : Type := {
  exclusion_id : Uuid;
  x_policy_id : Uuid;
  cve_id : string;
  package_pattern : option string;
  x_scope : PolicyScope;
  x_reason : string;
  added_by_actor_id : option Uuid;
  expires_at : option DateTime;
}.

Inductive ManagedBy : Type :=
  | MB_Local
  | MB_GitOps.

Record CurationRule : Type := {
  r_id : Uuid;
  r_name : string;
  r_format : option RepositoryFormat;
  r_package_pattern : string;
  r_action : CurationRuleAction;
  r_reason : string;
  r_managed_by : ManagedBy;
  r_managed_by_digest : option (list byte);
}.

(** ** Textual round trips *)

(** The wire form of every enum parses back to it, in any ASCII case. *)
Lemma status_roundtrip x : QuarantineStatus_from_str (display x) = Ok x.
Proof. by destruct x. Qed.
Lemma severity_roundtrip x : SeverityThreshold_from_str (display x) = Ok x.
Proof. by destruct x. Qed.
Lemma provenance_mode_roundtrip x : ProvenanceMode_from_str (display x) = Ok x.
Proof. by destruct x. Qed.
Lemma negligible_action_roundtrip x : NegligibleAction_from_str (display x) = Ok x.
Proof. by destruct x. Qed.
Lemma enforcement_roundtrip x : ScanEnforcement_from_str (display x) = Ok x.
Proof. by destruct x. Qed.
Lemma composite_verdict_roundtrip x : CompositeVerdictMode_from_str (display x) = Ok x.
Proof. by destruct x. Qed.
Lemma curation_action_roundtrip x : CurationRuleAction_from_str (display x) = Ok x.
Proof. by destruct x. Qed.
