(* ===== verification/Events.v ===== *)
(** The events of an artifact stream (crates/hort-domain/src/events/
    artifact_events.rs, domain_event.rs) with their write-time validation
    (events/validation.rs), and the rejection and release vocabulary.

    [DomainEvent] has a constructor per event of an artifact stream and of a
    scan-policy stream (events/policy_events.rs); every other event of the
    system is a [DE_Other], of which only the type name and the answer of its
    [validate] are kept. *)

From S2P Require Import Prelude.
From S2P Require Import RustStd.
From S2P Require Import Json.
From S2P Require Import Types.

(** ** Vocabulary *)

Inductive RejectionReason : Type :=
  | RR_Scanner
  | RR_Admin
  | RR_CurationRetroactive (rule_id : Uuid)
  | RR_ScanPolicyRetroactive
  | RR_Curator (curator_id : Uuid)
  | RR_Provenance
  | RR_Corruption.

Definition wire_kind (r : RejectionReason) : string :=
  match r with
  | RR_Scanner => "scanner"
  | RR_Admin => "admin"
  | RR_CurationRetroactive _ => "curation_retroactive"
  | RR_ScanPolicyRetroactive => "scan_policy_retroactive"
  | RR_Curator _ => "curator"
  | RR_Provenance => "provenance"
  | RR_Corruption => "corruption"
  end.

Inductive ReleaseReason : Type :=
  | RL_Timer
  | RL_Admin
  | RL_PolicyReEvaluation
  | RL_Curator.

Inductive PolicyResult : Type :=
  | PR_Pass
  | PR_Fail.

Inductive ScanAssessment : Type :=
  | SA_Analysed
  | SA_NotApplicable.

Inductive IngestSource : Type :=
  | IS_Direct
  | IS_Proxied.

Inductive ReEvaluationTrigger : Type :=
  | RT_ExclusionAdded (exclusion_id : Uuid)
  | RT_ExclusionRemoved (exclusion_id : Uuid)
  | RT_PolicyUpdated (policy_id : Uuid)
  | RT_CuratorRequested
  | RT_ProvenanceMisrejectionRepair.

#[export] Instance RejectionReason_eq_dec : EqDecision RejectionReason.
Proof. solve_decision. Defined.
#[export] Instance ReleaseReason_eq_dec : EqDecision ReleaseReason.
Proof. solve_decision. Defined.
#[export] Instance PolicyResult_eq_dec : EqDecision PolicyResult.
Proof. solve_decision. Defined.

(** ** Payloads *)

Record ArtifactIngested : Type := {
  ai_artifact_id : Uuid;
  ai_repository_id : Uuid;
  ai_name : string;
  ai_version : option string;
  ai_sha256 : ContentHash;
  ai_size_bytes : Z;
  ai_source : IngestSource;
  ai_metadata : Value;
  ai_metadata_blob : option ContentHash;
  ai_upstream_published_at : option DateTime;
}.

Inductive HashAlgorithm : Type :=
  | Sha1
  | Sha256
  | Sha512.

Record ChecksumVerified : Type := {
  cv_artifact_id : Uuid;
  algorithm : HashAlgorithm;
  upstream_value : string;
  computed_value : string;
}.

Record ArtifactQuarantined : Type := {
  aq_artifact_id : Uuid;
  aq_quarantine_window_start : DateTime;
}.

Record ScanRequested : Type := {
  sr_artifact_id : Uuid;
  sr_scanner : string;
}.

Record ScanCompleted : Type := {
  sc_artifact_id : Uuid;
  scanner : string;
  finding_count : Z;
  severity_summary : SeveritySummary;
  findings_blob : option ContentHash;
  assessment : ScanAssessment;
}.

Record ArtifactBecameVulnerable : Type := {
  bv_artifact_id : Uuid;
  new_findings : list Finding;
  previously_clean_at : DateTime;
}.

Record ArtifactReleased : Type := {
  ar_artifact_id : Uuid;
  released_by : ReleaseReason;
  released_by_user_id : option Uuid;
  justification : option string;
}.

Record ArtifactReEvaluated : Type := {
  re_artifact_id : Uuid;
  re_policy_id : Uuid;
  re_trigger : ReEvaluationTrigger;
  previous_status : QuarantineStatus;
  new_status : QuarantineStatus;
}.

Record ArtifactRejected : Type := {
  rj_artifact_id : Uuid;
  rejected_by : RejectionReason;
  rj_reason : string;
}.

Record ScanIndeterminate : Type := {
  si_artifact_id : Uuid;
  si_scanner : string;
  si_reason : string;
  attempts : Z;
}.

Record ProvenanceVerified : Type := {
  pv_artifact_id : Uuid;
  pv_content_hash : ContentHash;
  pv_backend : string;
  signer : SignerIdentity;
  predicate_type : option string;
  cascaded_from : option ContentHash;
}.

Record ProvenanceRejected : Type := {
  pj_artifact_id : Uuid;
  pj_content_hash : ContentHash;
  pj_backend : string;
  pj_reason : ProvenanceRejectReason;
}.

Record ArtifactCorrupted : Type := {
  ac_artifact_id : Uuid;
  computed_hash : ContentHash;
  expected_hash : ContentHash;
  detected_at : DateTime;
}.

Record PolicyViolation : Type := {
  rule : string;
  v_severity : SeverityThreshold;
  message : string;
  details : Value;
}.

Record PolicyEvaluated : Type := {
  pe_artifact_id : Uuid;
  pe_policy_id : Uuid;
  pe_result : PolicyResult;
  violations : list PolicyViolation;
}.

Definition NO_POLICY : Uuid := 0.

(** The three fields [PromotionRequested], [ApprovalRequested] and
    [ArtifactPromoted] have in common. *)
Record Promotion : Type := {
  pm_artifact_id : Uuid;
  source_repository_id : Uuid;
  target_repository_id : Uuid;
}.

Inductive ApprovalDecision : Type :=
  | Approved
  | AD_Rejected.

Record ApprovalDecided : Type := {
  apd_artifact_id : Uuid;
  decision : ApprovalDecision;
  notes : option string;
}.

Record PromotionRejected : Type := {
  pmr_promotion : Promotion;
  pmr_reason : string;
}.

(** Why retention expired an artifact (retention/reason.rs, anchor.rs). *)
Inductive FindingAgeAnchorSource : Type :=
  | AdvisoryPublication (backend : string)
  | FirstObservation.

Inductive ExpirationReason : Type :=
  | ER_AgeExceeded (published_at : DateTime) (ttl_secs : Z)
  | ER_UnusedTtl (last_downloaded_at : option DateTime) (ttl_secs : Z)
  | ER_KeepLastN (keep total rank : Z)
  | ER_Manual (actor : Uuid) (reason : string)
  | ER_SecurityFinding (max_severity : SeverityThreshold) (max_cvss : option f32)
      (finding_count : Z) (fix_available : bool) (known_since : option DateTime)
      (known_since_source : option FindingAgeAnchorSource) (latest_scan_at : DateTime).

Record ArtifactExpired : Type := {
  ax_artifact_id : Uuid;
  ax_policy_id : Uuid;
  ax_policy_name : string;
  ax_reason : ExpirationReason;
  ax_eligible_at : DateTime;
}.

Record ArtifactPurged : Type := {
  ap_artifact_id : Uuid;
  ap_content_hash : ContentHash;
  refs_remaining : Z;
  purged_at : DateTime;
}.

Record ArtifactDeleted : Type := {
  ad_artifact_id : Uuid;
  ad_repository_id : Uuid;
  ad_path : string;
  ad_content_hash : ContentHash;
}.

(** *** Scan-policy streams *)

Record PolicyCreated : Type := {
  pc_policy_id : Uuid;
  pc_name : string;
  pc_scope : PolicyScope;
  config_snapshot : Value;
}.

Inductive PolicyField : Type :=
  | PF_Name
  | PF_Scope
  | PF_SeverityThreshold
  | PF_QuarantineDuration
  | PF_RequireApproval
  | PF_ProvenanceMode
  | PF_ProvenanceBackends
  | PF_ProvenanceIdentities
  | PF_MaxArtifactAge
  | PF_LicensePolicy
  | PF_ScanBackends
  | PF_RescanIntervalHours
  | PF_NegligibleAction
  | PF_Enforcement
  | PF_CompositeVerdictMode.

#[export] Instance PolicyField_eq_dec : EqDecision PolicyField.
Proof. solve_decision. Defined.

Definition is_gate_affecting (f : PolicyField) : bool :=
  match f with
  | PF_SeverityThreshold | PF_LicensePolicy | PF_NegligibleAction | PF_Enforcement => true
  | PF_Name | PF_Scope | PF_QuarantineDuration | PF_RequireApproval | PF_ProvenanceMode
  | PF_ProvenanceBackends | PF_ProvenanceIdentities | PF_MaxArtifactAge | PF_ScanBackends
  | PF_RescanIntervalHours | PF_CompositeVerdictMode => false
  end.

Record PolicyUpdated : Type := {
  pu_policy_id : Uuid;
  field : PolicyField;
  previous_value : Value;
  new_value : Value;
}.

Record ExclusionAdded : Type := {
  ea_policy_id : Uuid;
  ea_exclusion_id : Uuid;
  ea_cve_id : string;
  ea_package_pattern : option string;
  ea_scope : PolicyScope;
  ea_reason : string;
  ea_expires_at : option DateTime;
}.

Record ExclusionRemoved : Type := {
  er_policy_id : Uuid;
  er_exclusion_id : Uuid;
  er_reason : string;
}.

Inductive DomainEvent : Type :=
  | DE_ArtifactIngested (e : ArtifactIngested)
  | DE_ChecksumVerified (e : ChecksumVerified)
  | DE_ArtifactQuarantined (e : ArtifactQuarantined)
  | DE_ScanRequested (e : ScanRequested)
  | DE_ScanCompleted (e : ScanCompleted)
  | DE_ArtifactBecameVulnerable (e : ArtifactBecameVulnerable)
  | DE_ArtifactReleased (e : ArtifactReleased)
  | DE_ArtifactRejected (e : ArtifactRejected)
  | DE_ScanIndeterminate (e : ScanIndeterminate)
  | DE_ProvenanceVerified (e : ProvenanceVerified)
  | DE_ProvenanceRejected (e : ProvenanceRejected)
  | DE_ArtifactReEvaluated (e : ArtifactReEvaluated)
  | DE_PromotionRequested (e : Promotion)
  | DE_PolicyEvaluated (e : PolicyEvaluated)
  | DE_ApprovalRequested (e : Promotion)
  | DE_ApprovalDecided (e : ApprovalDecided)
  | DE_ArtifactPromoted (e : Promotion)
  | DE_PromotionRejected (e : PromotionRejected)
  | DE_ArtifactExpired (e : ArtifactExpired)
  | DE_ArtifactPurged (e : ArtifactPurged)
  | DE_ArtifactDeleted (e : ArtifactDeleted)
  | DE_ArtifactCorrupted (e : ArtifactCorrupted)
  | DE_PolicyCreated (e : PolicyCreated)
  | DE_PolicyUpdated (e : PolicyUpdated)
  | DE_ExclusionAdded (e : ExclusionAdded)
  | DE_ExclusionRemoved (e : ExclusionRemoved)
  | DE_PolicyArchived (policy_id : Uuid)
  | DE_PolicyReactivated (policy_id : Uuid)
  | DE_Other (event_type : string) (validity : DomainResult unit).

(** An event as the store returns it: its payload and its commit time. *)
Record PersistedEvent : Type := {
  event : DomainEvent;
  stored_at : DateTime;
}.

(** ** Validation *)

Definition MAX_NAME_LEN : Z := 1024.
Definition MAX_PATH_LEN : Z := 2048.
Definition MAX_REASON_LEN : Z := 4096.
Definition MAX_SCANNER_LEN : Z := 256.
Definition MAX_SEVERITY_COUNT : Z := 100000.
Definition MAX_RULE_LEN : Z := 256.
Definition MAX_MESSAGE_LEN : Z := 4096.
Definition MAX_VIOLATION_DETAILS_SIZE : Z := 4 * 1024.
Definition MAX_VIOLATION_DETAILS_DEPTH : Z := 10.

Definition validate_string (field value : string) (max : Z) : DomainResult unit :=
  if strlen value =? 0 then Err (Validation [ArgStr field; Lit " must not be empty"])
  else if max <? strlen value then
    Err (Validation [ArgStr field; Lit " exceeds maximum length of "; ArgInt max; Lit " (got ";
                     ArgInt (strlen value); Lit ")"])
  else Ok ().

Definition validate_optional_string (field : string) (value : option string) (max : Z)
    : DomainResult unit :=
  match value with Some v => validate_string field v max | None => Ok () end.

(** [serde_json::to_string], of which only the length of the text matters. *)
Class SerdeJson : Type := json_to_string : Value → string.

Fixpoint json_depth (v : Value) : Z :=
  match v with
  | VArray arr => 1 + foldr (λ v m, Z.max (json_depth v) m) 0 arr
  | VObject obj => 1 + foldr (λ kv m, Z.max (json_depth kv.2) m) 0 obj
  | _ => 0
  end.

Definition validate_json `{SerdeJson} (field : string) (value : Value) (max_size max_depth : Z)
    : DomainResult unit :=
  let serialised := json_to_string value in
  if max_size <? strlen serialised then
    Err (Validation [ArgStr field; Lit " exceeds maximum serialised size of "; ArgInt max_size;
                     Lit " bytes (got "; ArgInt (strlen serialised); Lit " bytes)"])
  else
    let depth := json_depth value in
    if max_depth <? depth then
      Err (Validation [ArgStr field; Lit " exceeds maximum nesting depth of "; ArgInt max_depth;
                       Lit " (got "; ArgInt depth; Lit ")"])
    else Ok ().

Definition severity_counts (s : SeveritySummary) : list (string * Z) :=
  [("critical", critical s); ("high", high s); ("medium", medium s); ("low", low s);
   ("negligible", negligible s)]%string.

Fixpoint validate_counts (l : list (string * Z)) : DomainResult unit :=
  match l with
  | [] => Ok ()
  | (name, val) :: l' =>
      if MAX_SEVERITY_COUNT <? val then
        Err (Validation [Lit "severity_summary."; ArgStr name; Lit " exceeds maximum of ";
                         ArgInt MAX_SEVERITY_COUNT; Lit " (got "; ArgInt val; Lit ")"])
      else validate_counts l'
  end.

Definition SeveritySummary_validate (s : SeveritySummary) : DomainResult unit :=
  validate_counts (severity_counts s).

(** [u32::checked_add]. *)
Definition u32_checked_add (x y : Z) : option Z :=
  if x + y <=? u32_MAX then Some (x + y) else None.

Definition SeveritySummary_sum (s : SeveritySummary) : option Z :=
  n ← u32_checked_add (critical s) (high s);
  n ← u32_checked_add n (medium s);
  n ← u32_checked_add n (low s);
  u32_checked_add n (negligible s).

Definition is_not_applicable (a : ScanAssessment) : bool :=
  match a with SA_NotApplicable => true | SA_Analysed => false end.

Definition ScanCompleted_validate (e : ScanCompleted) : DomainResult unit :=
  _ ← validate_string "scanner" (scanner e) MAX_SCANNER_LEN;
  _ ← SeveritySummary_validate (severity_summary e);
  sum ← ok_or (Validation [Lit "severity counts overflow u32"])
          (SeveritySummary_sum (severity_summary e));
  if negb (finding_count e =? sum) then
    Err (Validation [Lit "finding_count ("; ArgInt (finding_count e);
                     Lit ") does not equal sum of severity counts ("; ArgInt sum; Lit ")"])
  else
    _ ← match is_some (findings_blob e), 0 <? finding_count e with
        | true, false =>
            Err (Validation [Lit "ScanCompleted has findings_blob but finding_count is zero"])
        | false, true =>
            Err (Validation [Lit "ScanCompleted has finding_count > 0 but no findings_blob"])
        | _, _ => Ok ()
        end;
    if is_not_applicable (assessment e) && (0 <? finding_count e) then
      Err (Validation [Lit "ScanCompleted is not_applicable but carries ";
                       ArgInt (finding_count e); Lit " findings"])
    else Ok ().

Definition ArtifactRejected_validate (e : ArtifactRejected) : DomainResult unit :=
  validate_string "reason" (rj_reason e) MAX_REASON_LEN.

Definition PolicyViolation_validate `{SerdeJson} (v : PolicyViolation) : DomainResult unit :=
  _ ← validate_string "rule" (rule v) MAX_RULE_LEN;
  _ ← validate_string "message" (message v) MAX_MESSAGE_LEN;
  validate_json "details" (details v) MAX_VIOLATION_DETAILS_SIZE MAX_VIOLATION_DETAILS_DEPTH.

Fixpoint validate_all {A} (f : A → DomainResult unit) (l : list A) : DomainResult unit :=
  match l with
  | [] => Ok ()
  | x :: l' => _ ← f x; validate_all f l'
  end.

Definition PolicyEvaluated_validate `{SerdeJson} (e : PolicyEvaluated) : DomainResult unit :=
  validate_all PolicyViolation_validate (violations e).

Definition MAX_PURL_LEN : Z := 512.
Definition MAX_VULNERABILITY_ID_LEN : Z := 128.
Definition MAX_TITLE_LEN : Z := 1024.
Definition MAX_FIXED_VERSIONS : Z := 32.
Definition MAX_REFERENCES : Z := 32.
Definition MAX_ALIASES : Z := 16.

Definition too_long (what : string) (got max : Z) : DomainError :=
  Validation [Lit "Finding."; ArgStr what; Lit " is "; ArgInt got; Lit " bytes, max is "; ArgInt max].

Definition too_many (what : string) (got max : Z) : DomainError :=
  Validation [Lit "Finding."; ArgStr what; Lit " has "; ArgInt got; Lit " entries, max is ";
              ArgInt max].

Fixpoint validate_aliases (idx : Z) (l : list string) : DomainResult unit :=
  match l with
  | [] => Ok ()
  | alias :: l' =>
      if MAX_VULNERABILITY_ID_LEN <? strlen alias then
        Err (Validation [Lit "Finding.aliases["; ArgInt idx; Lit "] is "; ArgInt (strlen alias);
                         Lit " bytes, max is "; ArgInt MAX_VULNERABILITY_ID_LEN])
      else validate_aliases (idx + 1) l'
  end.

Definition Finding_validate (f : Finding) : DomainResult unit :=
  if MAX_PURL_LEN <? strlen (purl f) then
    Err (too_long "purl" (strlen (purl f)) MAX_PURL_LEN)
  else if MAX_VULNERABILITY_ID_LEN <? strlen (vulnerability_id f) then
    Err (too_long "vulnerability_id" (strlen (vulnerability_id f)) MAX_VULNERABILITY_ID_LEN)
  else if MAX_TITLE_LEN <? strlen (title f) then
    Err (too_long "title" (strlen (title f)) MAX_TITLE_LEN)
  else if MAX_FIXED_VERSIONS <? len (fixed_versions f) then
    Err (too_many "fixed_versions" (len (fixed_versions f)) MAX_FIXED_VERSIONS)
  else if MAX_REFERENCES <? len (references f) then
    Err (too_many "references" (len (references f)) MAX_REFERENCES)
  else if MAX_ALIASES <? len (aliases f) then
    Err (too_many "aliases" (len (aliases f)) MAX_ALIASES)
  else validate_aliases 0 (aliases f).

Definition ArtifactBecameVulnerable_validate (e : ArtifactBecameVulnerable) : DomainResult unit :=
  if is_empty (new_findings e) then
    Err (Validation [Lit "ArtifactBecameVulnerable requires at least one new finding"])
  else validate_all Finding_validate (new_findings e).

(** The text of the two release messages that name a reason. *)
Definition ReleaseReason_debug (r : ReleaseReason) : string :=
  match r with
  | RL_Timer => "Timer"
  | RL_Admin => "Admin"
  | RL_PolicyReEvaluation => "PolicyReEvaluation"
  | RL_Curator => "Curator"
  end.

Definition release_field_error (r : ReleaseReason) (what : string) : DomainError :=
  Validation [Lit "ArtifactReleased { released_by: "; ArgStr (ReleaseReason_debug r); Lit " } ";
              Lit what].

Definition ArtifactReleased_validate (e : ArtifactReleased) : DomainResult unit :=
  _ ← match released_by e with
      | RL_Admin | RL_Curator =>
          if negb (is_some (released_by_user_id e)) then
            Err (release_field_error (released_by e) "requires released_by_user_id")
          else if negb (is_some (justification e)) then
            Err (release_field_error (released_by e) "requires justification")
          else Ok ()
      | RL_Timer | RL_PolicyReEvaluation =>
          if is_some (released_by_user_id e) then
            Err (release_field_error (released_by e) "must not carry released_by_user_id")
          else if is_some (justification e) then
            Err (release_field_error (released_by e) "must not carry justification")
          else Ok ()
      end;
  validate_optional_string "justification" (justification e) 512.

Definition ArtifactIngested_validate (e : ArtifactIngested) : DomainResult unit :=
  _ ← validate_string "name" (ai_name e) MAX_NAME_LEN;
  validate_optional_string "version" (ai_version e) MAX_NAME_LEN.

Definition ScanRequested_validate (e : ScanRequested) : DomainResult unit :=
  validate_string "scanner" (sr_scanner e) MAX_SCANNER_LEN.

Definition ScanIndeterminate_validate (e : ScanIndeterminate) : DomainResult unit :=
  _ ← validate_string "scanner" (si_scanner e) MAX_SCANNER_LEN;
  validate_string "reason" (si_reason e) MAX_REASON_LEN.

Definition ProvenanceVerified_validate (e : ProvenanceVerified) : DomainResult unit :=
  _ ← validate_string "backend" (pv_backend e) MAX_SCANNER_LEN;
  _ ← validate_string "signer.issuer" (issuer (signer e)) MAX_NAME_LEN;
  _ ← validate_string "signer.san" (san (signer e)) MAX_NAME_LEN;
  validate_optional_string "predicate_type" (predicate_type e) MAX_NAME_LEN.

Definition ProvenanceRejected_validate (e : ProvenanceRejected) : DomainResult unit :=
  validate_string "backend" (pj_backend e) MAX_SCANNER_LEN.

Definition MAX_NOTES_LEN : Z := 4096.

Definition ApprovalDecided_validate (e : ApprovalDecided) : DomainResult unit :=
  validate_optional_string "notes" (notes e) MAX_NOTES_LEN.

Definition PromotionRejected_validate (e : PromotionRejected) : DomainResult unit :=
  validate_string "reason" (pmr_reason e) MAX_REASON_LEN.

Definition ArtifactDeleted_validate (e : ArtifactDeleted) : DomainResult unit :=
  validate_string "path" (ad_path e) MAX_PATH_LEN.

(** [!c.is_finite() || c < 0.0 || c > 10.0]. *)
Definition cvss_out_of_range (c : f32) : bool :=
  negb (f32_is_finite c) || f32_lt c f32_zero || f32_lt f32_ten c.

Definition is_observed_source (s : option FindingAgeAnchorSource) : bool :=
  match s with None | Some FirstObservation => true | Some (AdvisoryPublication _) => false end.

(** The offending score at the end of the [max_cvss] message is not kept. *)
Definition ExpirationReason_validate (r : ExpirationReason) : DomainResult unit :=
  match r with
  | ER_Manual _ reason =>
      if strlen reason =? 0 then
        Err (Validation [Lit "ExpirationReason::Manual reason must not be empty"])
      else if MAX_REASON_LEN <? strlen reason then
        Err (Validation [Lit "ExpirationReason::Manual reason exceeds the maximum length of ";
                         ArgInt MAX_REASON_LEN; Lit " (got "; ArgInt (strlen reason); Lit ")"])
      else Ok ()
  | ER_KeepLastN keep total rank =>
      if rank =? 0 then
        Err (Validation [Lit "ExpirationReason::KeepLastN rank is 1-based and must be >= 1"])
      else if total <? rank then
        Err (Validation [Lit "ExpirationReason::KeepLastN rank ("; ArgInt rank;
                         Lit ") cannot exceed total ("; ArgInt total; Lit ")"])
      else if rank <=? keep then
        Err (Validation [Lit "ExpirationReason::KeepLastN records an expiry but rank ("; ArgInt rank;
                         Lit ") is within the keep window ("; ArgInt keep; Lit ") — not an expiry"])
      else Ok ()
  | ER_SecurityFinding _ max_cvss count _ known_since known_since_source latest_scan_at =>
      if count =? 0 then
        Err (Validation [Lit "ExpirationReason::SecurityFinding must carry at least one finding"])
      else if match max_cvss with Some c => cvss_out_of_range c | None => false end then
        Err (Validation [Lit "ExpirationReason::SecurityFinding max_cvss must be a finite score ";
                         Lit "within [0.0, 10.0]"])
      else if negb (is_some known_since) && is_some known_since_source then
        Err (Validation [Lit "ExpirationReason::SecurityFinding carries a known_since_source ";
                         Lit "without a known_since date"])
      else if is_observed_source known_since_source &&
              match known_since with Some k => latest_scan_at <? k | None => false end then
        Err (Validation [Lit "ExpirationReason::SecurityFinding latest_scan_at precedes known_since"])
      else Ok ()
  | ER_AgeExceeded _ _ | ER_UnusedTtl _ _ => Ok ()
  end.

Definition ArtifactExpired_validate (e : ArtifactExpired) : DomainResult unit :=
  _ ← validate_string "policy_name" (ax_policy_name e) MAX_NAME_LEN;
  ExpirationReason_validate (ax_reason e).

Definition MAX_POLICY_NAME_LEN : Z := 256.
Definition MAX_CVE_ID_LEN : Z := 64.
Definition MAX_PACKAGE_PATTERN_LEN : Z := 512.
Definition MAX_JSON_SIZE : Z := 32 * 1024.
Definition MAX_JSON_DEPTH : Z := 10.

Definition PolicyCreated_validate `{SerdeJson} (e : PolicyCreated) : DomainResult unit :=
  _ ← validate_string "name" (pc_name e) MAX_POLICY_NAME_LEN;
  validate_json "config_snapshot" (config_snapshot e) MAX_JSON_SIZE MAX_JSON_DEPTH.

Definition PolicyUpdated_validate `{SerdeJson} (e : PolicyUpdated) : DomainResult unit :=
  _ ← validate_json "previous_value" (previous_value e) MAX_JSON_SIZE MAX_JSON_DEPTH;
  validate_json "new_value" (new_value e) MAX_JSON_SIZE MAX_JSON_DEPTH.

Definition ExclusionAdded_validate (e : ExclusionAdded) : DomainResult unit :=
  _ ← validate_string "cve_id" (ea_cve_id e) MAX_CVE_ID_LEN;
  _ ← validate_optional_string "package_pattern" (ea_package_pattern e) MAX_PACKAGE_PATTERN_LEN;
  validate_string "reason" (ea_reason e) MAX_REASON_LEN.

Definition ExclusionRemoved_validate (e : ExclusionRemoved) : DomainResult unit :=
  validate_string "reason" (er_reason e) MAX_REASON_LEN.

(** [DomainEvent::event_type] and [DomainEvent::validate]. *)
Definition event_type (e : DomainEvent) : string :=
  match e with
  | DE_ArtifactIngested _ => "ArtifactIngested"
  | DE_ChecksumVerified _ => "ChecksumVerified"
  | DE_ArtifactQuarantined _ => "ArtifactQuarantined"
  | DE_ScanRequested _ => "ScanRequested"
  | DE_ScanCompleted _ => "ScanCompleted"
  | DE_ArtifactBecameVulnerable _ => "ArtifactBecameVulnerable"
  | DE_ArtifactReleased _ => "ArtifactReleased"
  | DE_ArtifactRejected _ => "ArtifactRejected"
  | DE_ScanIndeterminate _ => "ScanIndeterminate"
  | DE_ProvenanceVerified _ => "ProvenanceVerified"
  | DE_ProvenanceRejected _ => "ProvenanceRejected"
  | DE_ArtifactReEvaluated _ => "ArtifactReEvaluated"
  | DE_PromotionRequested _ => "PromotionRequested"
  | DE_PolicyEvaluated _ => "PolicyEvaluated"
  | DE_ApprovalRequested _ => "ApprovalRequested"
  | DE_ApprovalDecided _ => "ApprovalDecided"
  | DE_ArtifactPromoted _ => "ArtifactPromoted"
  | DE_PromotionRejected _ => "PromotionRejected"
  | DE_ArtifactExpired _ => "ArtifactExpired"
  | DE_ArtifactPurged _ => "ArtifactPurged"
  | DE_ArtifactDeleted _ => "ArtifactDeleted"
  | DE_ArtifactCorrupted _ => "ArtifactCorrupted"
  | DE_PolicyCreated _ => "PolicyCreated"
  | DE_PolicyUpdated _ => "PolicyUpdated"
  | DE_ExclusionAdded _ => "ExclusionAdded"
  | DE_ExclusionRemoved _ => "ExclusionRemoved"
  | DE_PolicyArchived _ => "PolicyArchived"
  | DE_PolicyReactivated _ => "PolicyReactivated"
  | DE_Other event_type _ => event_type
  end.

Definition DomainEvent_validate `{SerdeJson} (e : DomainEvent) : DomainResult unit :=
  match e with
  | DE_ArtifactIngested e => ArtifactIngested_validate e
  | DE_ScanRequested e => ScanRequested_validate e
  | DE_ScanCompleted e => ScanCompleted_validate e
  | DE_ArtifactBecameVulnerable e => ArtifactBecameVulnerable_validate e
  | DE_ArtifactReleased e => ArtifactReleased_validate e
  | DE_ArtifactRejected e => ArtifactRejected_validate e
  | DE_ScanIndeterminate e => ScanIndeterminate_validate e
  | DE_ProvenanceVerified e => ProvenanceVerified_validate e
  | DE_ProvenanceRejected e => ProvenanceRejected_validate e
  | DE_PolicyEvaluated e => PolicyEvaluated_validate e
  | DE_ApprovalDecided e => ApprovalDecided_validate e
  | DE_PromotionRejected e => PromotionRejected_validate e
  | DE_ArtifactExpired e => ArtifactExpired_validate e
  | DE_ArtifactDeleted e => ArtifactDeleted_validate e
  | DE_PolicyCreated e => PolicyCreated_validate e
  | DE_PolicyUpdated e => PolicyUpdated_validate e
  | DE_ExclusionAdded e => ExclusionAdded_validate e
  | DE_ExclusionRemoved e => ExclusionRemoved_validate e
  | DE_Other _ validity => validity
  | DE_ChecksumVerified _ | DE_ArtifactQuarantined _ | DE_ArtifactReEvaluated _
  | DE_PromotionRequested _ | DE_ApprovalRequested _ | DE_ArtifactPromoted _
  | DE_ArtifactPurged _ | DE_ArtifactCorrupted _
  | DE_PolicyArchived _ | DE_PolicyReactivated _ => Ok ()
  end.

(** *** What validation guarantees *)

Lemma validate_counts_spec l :
  validate_counts l = Ok () ↔ ∀ n v, (n, v) ∈ l → v ≤ MAX_SEVERITY_COUNT.
Proof.
  induction l as [| [n v] l IH]; simpl.
  { split; [by intros _ ?? ?%not_elem_of_nil | done]. }
  destruct (Z.ltb_spec MAX_SEVERITY_COUNT v) as [Hv | Hv].
  - split; [done |]. intros H. specialize (H n v ltac:(left)). lia.
  - rewrite IH. set_solver by lia.
Qed.

Lemma u32_checked_add_Some x y z : u32_checked_add x y = Some z ↔ z = x + y ∧ x + y ≤ u32_MAX.
Proof. unfold u32_checked_add. destruct (Z.leb_spec (x + y) u32_MAX); naive_solver lia. Qed.

(** A stored scan event is consistent with its own counts. *)
Lemma ScanCompleted_validate_spec e :
  ScanCompleted_validate e = Ok () →
  finding_count e = critical (severity_summary e) + high (severity_summary e) +
    medium (severity_summary e) + low (severity_summary e) + negligible (severity_summary e) ∧
  (0 < finding_count e ↔ is_Some (findings_blob e)) ∧
  (assessment e = SA_NotApplicable → finding_count e ≤ 0).
Proof.
  unfold ScanCompleted_validate. intros H.
  destruct (validate_string _ _ _) as [[] |]; [| done]. simpl in H.
  destruct (SeveritySummary_validate _) as [[] |]; [| done]. simpl in H.
  destruct (SeveritySummary_sum _) as [sum |] eqn:Hsum; [| done]. simpl in H.
  unfold SeveritySummary_sum in Hsum.
  apply bind_Some in Hsum as (a & Ha%u32_checked_add_Some & Hsum).
  apply bind_Some in Hsum as (b & Hb%u32_checked_add_Some & Hsum).
  apply bind_Some in Hsum as (c & Hc%u32_checked_add_Some & Hsum%u32_checked_add_Some).
  destruct (Z.eqb_spec (finding_count e) sum); [| done]. simpl in H.
  split; [lia |].
  destruct (findings_blob e) as [b' |], (Z.ltb_spec 0 (finding_count e)), (assessment e);
    simpl in *; try done; (split; [split; done || lia || (intros [? ?]; done) |]); try done; lia.
Qed.

(** A curator's release carries who and why; an automatic one carries neither. *)
Lemma ArtifactReleased_validate_spec e :
  ArtifactReleased_validate e = Ok () →
  match released_by e with
  | RL_Admin | RL_Curator => is_Some (released_by_user_id e) ∧ is_Some (justification e)
  | RL_Timer | RL_PolicyReEvaluation => released_by_user_id e = None ∧ justification e = None
  end.
Proof.
  unfold ArtifactReleased_validate.
  destruct (released_by e), (released_by_user_id e), (justification e); simpl; try done; intros _;
    split; by eexists.
Qed.
