(* ===== verification/QuarantineTransitions.v ===== *)
(** The quarantine transition table and its classification
    (crates/hort-domain/src/entities/quarantine_transitions.rs).

    The prose that documents a row's triggers ([required_triggers]) and the
    GraphViz rendering are not modelled. *)

From S2P Require Import Prelude.
From S2P Require Import RustStd.
From S2P Require Import Types.

Inductive QuarantineEvent : Type :=
  | Quarantine
  | RecordCleanScan
  | RejectFromScan
  | RejectFromRetroactiveCuration
  | RejectFromScanPolicyRetroactive
  | BlockByCurator
  | TombstoneFromCorruption
  | Release
  | CascadeProvenanceClearance
  | FailScanIndeterminate
  | ReEvaluate
  | RepairProvenanceMisrejection
  | CompleteProvenance.

#[export] Instance QuarantineEvent_eq_dec : EqDecision QuarantineEvent.
Proof. solve_decision. Defined.

Definition QuarantineEvent_ALL : list QuarantineEvent :=
  [Quarantine; RecordCleanScan; RejectFromScan; RejectFromRetroactiveCuration;
   RejectFromScanPolicyRetroactive; BlockByCurator; TombstoneFromCorruption; Release;
   CascadeProvenanceClearance; FailScanIndeterminate; ReEvaluate; CompleteProvenance;
   RepairProvenanceMisrejection].

Definition label (e : QuarantineEvent) : string :=
  match e with
  | Quarantine => "quarantine"
  | RecordCleanScan => "record_clean_scan"
  | RejectFromScan => "reject_from_scan"
  | RejectFromRetroactiveCuration => "reject_from_retroactive_curation"
  | RejectFromScanPolicyRetroactive => "reject_from_scan_policy_retroactive"
  | BlockByCurator => "block_by_curator"
  | TombstoneFromCorruption => "tombstone_from_corruption"
  | Release => "release"
  | CascadeProvenanceClearance => "cascade_provenance_clearance"
  | FailScanIndeterminate => "fail_scan_indeterminate"
  | ReEvaluate => "re_evaluate"
  | CompleteProvenance => "complete_provenance"
  | RepairProvenanceMisrejection => "repair_provenance_misrejection"
  end.

(** ** The classification *)

Inductive Cell : Type :=
  | CellForbidden
  | CellAllowed (targets : list QuarantineStatus).

Definition classify (event : QuarantineEvent) (state : QuarantineStatus) : Cell :=
  match event with
  | Quarantine =>
      match state with
      | QS_None => CellAllowed [QS_Quarantined]
      | QS_Quarantined | QS_Released | QS_Rejected | QS_ScanIndeterminate => CellForbidden
      end
  | RecordCleanScan =>
      match state with
      | QS_None => CellAllowed [QS_None]
      | QS_Quarantined => CellAllowed [QS_Quarantined]
      | QS_Released | QS_Rejected | QS_ScanIndeterminate => CellForbidden
      end
  | RejectFromScan =>
      match state with
      | QS_None => CellAllowed [QS_Rejected]
      | QS_Quarantined => CellAllowed [QS_Rejected]
      | QS_Released => CellAllowed [QS_Rejected]
      | QS_Rejected | QS_ScanIndeterminate => CellForbidden
      end
  | RejectFromRetroactiveCuration =>
      match state with
      | QS_Quarantined => CellAllowed [QS_Rejected]
      | QS_Released => CellAllowed [QS_Rejected]
      | QS_None | QS_Rejected | QS_ScanIndeterminate => CellForbidden
      end
  | RejectFromScanPolicyRetroactive =>
      match state with
      | QS_Quarantined => CellAllowed [QS_Quarantined; QS_Rejected]
      | QS_Released => CellAllowed [QS_Released; QS_Rejected]
      | QS_None | QS_Rejected | QS_ScanIndeterminate => CellForbidden
      end
  | BlockByCurator =>
      match state with
      | QS_None => CellAllowed [QS_Rejected]
      | QS_Quarantined => CellAllowed [QS_Rejected]
      | QS_Released => CellAllowed [QS_Rejected]
      | QS_Rejected | QS_ScanIndeterminate => CellForbidden
      end
  | TombstoneFromCorruption =>
      match state with
      | QS_None => CellAllowed [QS_Rejected]
      | QS_Quarantined => CellAllowed [QS_Rejected]
      | QS_Released => CellAllowed [QS_Rejected]
      | QS_ScanIndeterminate => CellAllowed [QS_Rejected]
      | QS_Rejected => CellForbidden
      end
  | Release =>
      match state with
      | QS_Quarantined => CellAllowed [QS_Released]
      | QS_ScanIndeterminate => CellAllowed [QS_Released]
      | QS_Rejected => CellAllowed [QS_Released]
      | QS_None | QS_Released => CellForbidden
      end
  | CascadeProvenanceClearance =>
      match state with
      | QS_Quarantined => CellAllowed [QS_Quarantined]
      | QS_None | QS_Released | QS_Rejected | QS_ScanIndeterminate => CellForbidden
      end
  | FailScanIndeterminate =>
      match state with
      | QS_None => CellAllowed [QS_ScanIndeterminate]
      | QS_Quarantined => CellAllowed [QS_ScanIndeterminate]
      | QS_Released | QS_Rejected | QS_ScanIndeterminate => CellForbidden
      end
  | ReEvaluate =>
      match state with
      | QS_Rejected => CellAllowed [QS_Quarantined; QS_Released]
      | QS_None | QS_Quarantined | QS_Released | QS_ScanIndeterminate => CellForbidden
      end
  | CompleteProvenance =>
      match state with
      | QS_None => CellAllowed [QS_None; QS_Rejected]
      | QS_Quarantined => CellAllowed [QS_Quarantined; QS_Rejected]
      | QS_Released => CellAllowed [QS_Released; QS_Rejected]
      | QS_Rejected => CellAllowed [QS_Rejected]
      | QS_ScanIndeterminate => CellAllowed [QS_ScanIndeterminate; QS_Rejected]
      end
  | RepairProvenanceMisrejection =>
      match state with
      | QS_Rejected => CellAllowed [QS_Quarantined]
      | QS_None | QS_Quarantined | QS_Released | QS_ScanIndeterminate => CellForbidden
      end
  end.

(** ** The table *)

Record QuarantineTransitionRow : Type := {
  row_event : QuarantineEvent;
  row_from : QuarantineStatus;
  row_to : list QuarantineStatus;
}.

Definition transition (e : QuarantineEvent) (from : QuarantineStatus)
    (to : list QuarantineStatus) : QuarantineTransitionRow :=
  {| row_event := e; row_from := from; row_to := to |}.

Definition QUARANTINE_TRANSITIONS : list QuarantineTransitionRow :=
  [transition Quarantine QS_None [QS_Quarantined];
   transition RecordCleanScan QS_None [QS_None];
   transition RecordCleanScan QS_Quarantined [QS_Quarantined];
   transition RejectFromScan QS_None [QS_Rejected];
   transition RejectFromScan QS_Quarantined [QS_Rejected];
   transition RejectFromScan QS_Released [QS_Rejected];
   transition RejectFromRetroactiveCuration QS_Quarantined [QS_Rejected];
   transition RejectFromRetroactiveCuration QS_Released [QS_Rejected];
   transition RejectFromScanPolicyRetroactive QS_Quarantined [QS_Quarantined; QS_Rejected];
   transition RejectFromScanPolicyRetroactive QS_Released [QS_Released; QS_Rejected];
   transition BlockByCurator QS_None [QS_Rejected];
   transition BlockByCurator QS_Quarantined [QS_Rejected];
   transition BlockByCurator QS_Released [QS_Rejected];
   transition TombstoneFromCorruption QS_None [QS_Rejected];
   transition TombstoneFromCorruption QS_Quarantined [QS_Rejected];
   transition TombstoneFromCorruption QS_Released [QS_Rejected];
   transition TombstoneFromCorruption QS_ScanIndeterminate [QS_Rejected];
   transition Release QS_Quarantined [QS_Released];
   transition Release QS_ScanIndeterminate [QS_Released];
   transition Release QS_Rejected [QS_Released];
   transition CascadeProvenanceClearance QS_Quarantined [QS_Quarantined];
   transition FailScanIndeterminate QS_None [QS_ScanIndeterminate];
   transition FailScanIndeterminate QS_Quarantined [QS_ScanIndeterminate];
   transition ReEvaluate QS_Rejected [QS_Quarantined; QS_Released];
   transition CompleteProvenance QS_None [QS_None; QS_Rejected];
   transition CompleteProvenance QS_Quarantined [QS_Quarantined; QS_Rejected];
   transition CompleteProvenance QS_Released [QS_Released; QS_Rejected];
   transition CompleteProvenance QS_Rejected [QS_Rejected];
   transition CompleteProvenance QS_ScanIndeterminate [QS_ScanIndeterminate; QS_Rejected];
   transition RepairProvenanceMisrejection QS_Rejected [QS_Quarantined]].

Definition allowed_targets (event : QuarantineEvent) (from : QuarantineStatus)
    : option (list QuarantineStatus) :=
  row_to <$> find (λ row, bool_decide (row_event row = event) && bool_decide (row_from row = from))
               QUARANTINE_TRANSITIONS.

(** [allowed_targets(..).is_none()], the guard of every transition method. *)
Definition forbidden (event : QuarantineEvent) (from : QuarantineStatus) : bool :=
  negb (is_some (allowed_targets event from)).

(** ** The table is the classification *)

Lemma allowed_targets_classify e s :
  allowed_targets e s = match classify e s with
                        | CellForbidden => None
                        | CellAllowed targets => Some targets
                        end.
Proof. by destruct e, s. Qed.

(** One row per (event, state) pair, so that [find] does not depend on the
    order of the rows. *)
Lemma table_NoDup : NoDup ((λ r, (row_event r, row_from r)) <$> QUARANTINE_TRANSITIONS).
Proof. by apply (bool_decide_unpack _). Qed.

Lemma forbidden_spec e s : forbidden e s = true ↔ classify e s = CellForbidden.
Proof. unfold forbidden. rewrite allowed_targets_classify. by destruct (classify e s). Qed.

(** [to] is one of the states [e] may lead to from [from]. *)
Definition permitted (e : QuarantineEvent) (from to : QuarantineStatus) : bool :=
  match allowed_targets e from with
  | Some targets => bool_decide (to ∈ targets)
  | None => false
  end.
