(* ===== verification/Artifact.v ===== *)
(** The artifact aggregate (crates/hort-domain/src/entities/artifact.rs): the
    row, and every method that reads or changes its quarantine state.

    A method on [&mut self] is a computation of the [mut] monad over
    [Artifact]; a method on [&self] is a plain function.  The guards stand in
    the source's order. *)

From S2P Require Import Prelude.
From S2P Require Import RustStd.
From S2P Require Import Json.
From S2P Require Import Types.
From S2P Require Import Events.
From S2P Require Import QuarantineTransitions.

Record Artifact : Type := {
  artifact_id : Uuid;
  repository_id : Uuid;
  name : string;
  name_as_published : string;
  version : option string;
  path : string;
  size_bytes : Z;
  sha256_checksum : ContentHash;
  sha1_checksum : option string;
  md5_checksum : option string;
  content_type : string;
  quarantine_status : QuarantineStatus;
  rejection_reason : option RejectionReason;
  quarantine_window_start : option DateTime;
  quarantine_deadline : option DateTime;
  provenance_hold_indefinite : bool;
  upstream_published_at : option DateTime;
  uploaded_by : option Uuid;
  a_created_at : DateTime;
  a_updated_at : DateTime;
  deleted_at : option DateTime;
}.

(** The field assignments the methods make. *)
Definition set_status (s : QuarantineStatus) (a : Artifact) : Artifact :=
  {| artifact_id := artifact_id a; repository_id := repository_id a; name := name a;
     name_as_published := name_as_published a; version := version a; path := path a;
     size_bytes := size_bytes a; sha256_checksum := sha256_checksum a;
     sha1_checksum := sha1_checksum a; md5_checksum := md5_checksum a;
     content_type := content_type a; quarantine_status := s;
     rejection_reason := rejection_reason a;
     quarantine_window_start := quarantine_window_start a;
     quarantine_deadline := quarantine_deadline a;
     provenance_hold_indefinite := provenance_hold_indefinite a;
     upstream_published_at := upstream_published_at a; uploaded_by := uploaded_by a;
     a_created_at := a_created_at a; a_updated_at := a_updated_at a; deleted_at := deleted_at a |}.

Definition set_reason (r : option RejectionReason) (a : Artifact) : Artifact :=
  {| artifact_id := artifact_id a; repository_id := repository_id a; name := name a;
     name_as_published := name_as_published a; version := version a; path := path a;
     size_bytes := size_bytes a; sha256_checksum := sha256_checksum a;
     sha1_checksum := sha1_checksum a; md5_checksum := md5_checksum a;
     content_type := content_type a; quarantine_status := quarantine_status a;
     rejection_reason := r;
     quarantine_window_start := quarantine_window_start a;
     quarantine_deadline := quarantine_deadline a;
     provenance_hold_indefinite := provenance_hold_indefinite a;
     upstream_published_at := upstream_published_at a; uploaded_by := uploaded_by a;
     a_created_at := a_created_at a; a_updated_at := a_updated_at a; deleted_at := deleted_at a |}.

Definition set_window_start (w : option DateTime) (a : Artifact) : Artifact :=
  {| artifact_id := artifact_id a; repository_id := repository_id a; name := name a;
     name_as_published := name_as_published a; version := version a; path := path a;
     size_bytes := size_bytes a; sha256_checksum := sha256_checksum a;
     sha1_checksum := sha1_checksum a; md5_checksum := md5_checksum a;
     content_type := content_type a; quarantine_status := quarantine_status a;
     rejection_reason := rejection_reason a; quarantine_window_start := w;
     quarantine_deadline := quarantine_deadline a;
     provenance_hold_indefinite := provenance_hold_indefinite a;
     upstream_published_at := upstream_published_at a; uploaded_by := uploaded_by a;
     a_created_at := a_created_at a; a_updated_at := a_updated_at a; deleted_at := deleted_at a |}.

Definition set_deadline (d : option DateTime) (a : Artifact) : Artifact :=
  {| artifact_id := artifact_id a; repository_id := repository_id a; name := name a;
     name_as_published := name_as_published a; version := version a; path := path a;
     size_bytes := size_bytes a; sha256_checksum := sha256_checksum a;
     sha1_checksum := sha1_checksum a; md5_checksum := md5_checksum a;
     content_type := content_type a; quarantine_status := quarantine_status a;
     rejection_reason := rejection_reason a;
     quarantine_window_start := quarantine_window_start a; quarantine_deadline := d;
     provenance_hold_indefinite := provenance_hold_indefinite a;
     upstream_published_at := upstream_published_at a; uploaded_by := uploaded_by a;
     a_created_at := a_created_at a; a_updated_at := a_updated_at a; deleted_at := deleted_at a |}.

Definition set_deleted (d : option DateTime) (a : Artifact) : Artifact :=
  {| artifact_id := artifact_id a; repository_id := repository_id a; name := name a;
     name_as_published := name_as_published a; version := version a; path := path a;
     size_bytes := size_bytes a; sha256_checksum := sha256_checksum a;
     sha1_checksum := sha1_checksum a; md5_checksum := md5_checksum a;
     content_type := content_type a; quarantine_status := quarantine_status a;
     rejection_reason := rejection_reason a;
     quarantine_window_start := quarantine_window_start a;
     quarantine_deadline := quarantine_deadline a;
     provenance_hold_indefinite := provenance_hold_indefinite a;
     upstream_published_at := upstream_published_at a; uploaded_by := uploaded_by a;
     a_created_at := a_created_at a; a_updated_at := a_updated_at a; deleted_at := d |}.

(** ** Release and repair vocabulary *)

Inductive ReleaseAuthorization : Type :=
  | ScanSucceeded
  | ScanCleared
  | ScanWaived
  | ScanRecorded
  | PolicyReEvaluation
  | CuratorWaiver.

Inductive ReleaseOrigin : Type :=
  | NeverReleased
  | ReleasedBy (reason : ReleaseReason).

Definition permits_scan_reblock (o : ReleaseOrigin) : bool :=
  match o with
  | NeverReleased => true
  | ReleasedBy RL_Timer | ReleasedBy RL_PolicyReEvaluation => true
  | ReleasedBy RL_Admin | ReleasedBy RL_Curator => false
  end.

#[export] Instance ReleaseOrigin_display : Display ReleaseOrigin := λ o,
  match o with
  | NeverReleased => "never_released"
  | ReleasedBy RL_Timer => "timer"
  | ReleasedBy RL_PolicyReEvaluation => "policy_reevaluation"
  | ReleasedBy RL_Admin => "admin"
  | ReleasedBy RL_Curator => "curator"
  end.

Inductive TerminalRejectionRecord : Type :=
  | TR_Present
  | TR_CorruptionTombstone
  | TR_Absent.

Definition is_rejected_event (e : DomainEvent) : bool :=
  match e with DE_ArtifactRejected _ => true | _ => false end.

Definition is_corrupted_event (e : DomainEvent) : bool :=
  match e with DE_ArtifactCorrupted _ => true | _ => false end.

Definition has_terminal_rejection_event (events : list DomainEvent) : bool :=
  existsb is_rejected_event events.

Definition TerminalRejectionRecord_from_events (events : list DomainEvent)
    : TerminalRejectionRecord :=
  if has_terminal_rejection_event events then TR_Present
  else if existsb is_corrupted_event events then TR_CorruptionTombstone
  else TR_Absent.

Inductive ProvenanceRejectionEvidence : Type :=
  | Contradicted
  | NeverTerminal
  | Disproved (reason : ProvenanceRejectReason)
  | NoVerdict.

Definition disproves_terminality (e : ProvenanceRejectionEvidence) : bool :=
  match e with Contradicted | NeverTerminal => true | Disproved _ | NoVerdict => false end.

Definition is_scan_clearable (reason : option RejectionReason) : bool :=
  match reason with
  | Some RR_Scanner | Some RR_ScanPolicyRetroactive => true
  | Some RR_Admin | Some (RR_Curator _) | Some (RR_CurationRetroactive _) | Some RR_Provenance
  | Some RR_Corruption | None => false
  end.

Definition is_curator_overridable (reason : option RejectionReason) : bool :=
  match reason with
  | Some RR_Scanner | Some RR_ScanPolicyRetroactive | Some (RR_Curator _)
  | Some (RR_CurationRetroactive _) | Some RR_Provenance => true
  | Some RR_Admin | Some RR_Corruption | None => false
  end.

(** [ScanOutcome] of policy/scan.rs. *)
Inductive ScanOutcome : Type :=
  | SO_Clean
  | SO_Reject (violations : list PolicyViolation)
  | SO_FindingsRecorded (violations : list PolicyViolation).

#[export] Instance ReleaseAuthorization_eq_dec : EqDecision ReleaseAuthorization.
Proof. solve_decision. Defined.
#[export] Instance ReleaseOrigin_eq_dec : EqDecision ReleaseOrigin.
Proof. solve_decision. Defined.
#[export] Instance TerminalRejectionRecord_eq_dec : EqDecision TerminalRejectionRecord.
Proof. solve_decision. Defined.

(** ** The methods *)

Abbreviation method := (mut Artifact DomainError).

Definition status_text (a : Artifact) : frag := ArgStr (display (quarantine_status a)).

Definition quarantine (window_start : DateTime) : method ArtifactQuarantined :=
  a ← self;
  if forbidden Quarantine (quarantine_status a) then
    throw (Invariant [Lit "cannot quarantine artifact in state "; status_text a])
  else
    _ ← modify (set_status QS_Quarantined);
    _ ← modify (set_window_start (Some window_start));
    mret {| aq_artifact_id := artifact_id a; aq_quarantine_window_start := window_start |}.

Definition record_clean_scan (a : Artifact) : DomainResult unit :=
  match allowed_targets RecordCleanScan (quarantine_status a) with
  | Some _ => Ok ()
  | None =>
      Err (Invariant [Lit "cannot record clean scan for artifact in state "; status_text a])
  end.

Definition reject_from_scan (reason : string) (prior_release : ReleaseOrigin)
    : method ArtifactRejected :=
  a ← self;
  if forbidden RejectFromScan (quarantine_status a) then
    throw (Invariant [Lit "cannot reject artifact in state "; status_text a])
  else if bool_decide (quarantine_status a = QS_Released) &&
          negb (permits_scan_reblock prior_release) then
    throw (Invariant [Lit "cannot reject artifact in state released: an explicit ";
                      ArgStr (display prior_release);
                      Lit " release outweighs a later scan verdict"])
  else
    _ ← modify (set_status QS_Rejected);
    _ ← modify (set_reason (Some RR_Scanner));
    mret {| rj_artifact_id := artifact_id a; rejected_by := RR_Scanner; rj_reason := reason |}.

Definition reject_from_retroactive_curation (rule_id : Uuid) (reason : string)
    : method ArtifactRejected :=
  a ← self;
  if forbidden RejectFromRetroactiveCuration (quarantine_status a) then
    throw (Invariant [Lit "cannot retroactively-reject artifact in state "; status_text a])
  else
    _ ← modify (set_status QS_Rejected);
    _ ← modify (set_reason (Some (RR_CurationRetroactive rule_id)));
    mret {| rj_artifact_id := artifact_id a; rejected_by := RR_CurationRetroactive rule_id;
            rj_reason := reason |}.

Definition reject_from_scan_policy_retroactive (outcome : ScanOutcome) (reason : string)
    : method (option ArtifactRejected) :=
  a ← self;
  if forbidden RejectFromScanPolicyRetroactive (quarantine_status a) then
    throw (Invariant [Lit "cannot retroactively scan-re-hold artifact in state "; status_text a])
  else
    match outcome with
    | SO_Clean => mret None
    | SO_FindingsRecorded _ => mret None
    | SO_Reject _ =>
        _ ← modify (set_status QS_Rejected);
        _ ← modify (set_reason (Some RR_ScanPolicyRetroactive));
        mret (Some {| rj_artifact_id := artifact_id a; rejected_by := RR_ScanPolicyRetroactive;
                      rj_reason := reason |})
    end.

Definition block_by_curator (curator_id : Uuid) (reason : string) : method ArtifactRejected :=
  a ← self;
  if forbidden BlockByCurator (quarantine_status a) then
    throw (Invariant [Lit "cannot curator-block artifact in state "; status_text a])
  else
    _ ← modify (set_status QS_Rejected);
    _ ← modify (set_reason (Some (RR_Curator curator_id)));
    mret {| rj_artifact_id := artifact_id a; rejected_by := RR_Curator curator_id;
            rj_reason := reason |}.

Definition tombstone_from_corruption (computed : ContentHash) (now : DateTime)
    : method (list DomainEvent) :=
  a ← self;
  if forbidden TombstoneFromCorruption (quarantine_status a) then
    throw (Invariant [Lit "cannot tombstone artifact in state "; status_text a;
                      Lit " (already rejected)"])
  else
    let expected := sha256_checksum a in
    _ ← modify (set_status QS_Rejected);
    _ ← modify (set_reason (Some RR_Corruption));
    let reason :=
      ("CAS integrity mismatch: stored bytes hash to " +:+ computed +:+ ", expected " +:+
       expected)%string in
    mret [DE_ArtifactCorrupted {| ac_artifact_id := artifact_id a; computed_hash := computed;
                                  expected_hash := expected; detected_at := now |};
          DE_ArtifactRejected {| rj_artifact_id := artifact_id a; rejected_by := RR_Corruption;
                                 rj_reason := reason |}].

Definition ReleaseAuthorization_debug (z : ReleaseAuthorization) : string :=
  match z with
  | ScanSucceeded => "ScanSucceeded"
  | ScanCleared => "ScanCleared"
  | ScanWaived => "ScanWaived"
  | ScanRecorded => "ScanRecorded"
  | PolicyReEvaluation => "PolicyReEvaluation"
  | CuratorWaiver => "CuratorWaiver"
  end.

(** [(reason, authz)] is the curator's manual waive. *)
Definition is_curator_waive (reason : ReleaseReason) (authz : ReleaseAuthorization) : bool :=
  match reason, authz with RL_Curator, CuratorWaiver => true | _, _ => false end.

Definition provenance_clears (p : ProvenanceClearance) : bool :=
  match p with PC_NotRequired | PC_Cleared => true | PC_Pending => false end.

(** The [authorized] match of [release]. *)
Definition release_authorized (reason : ReleaseReason) (authz : ReleaseAuthorization)
    (provenance_clears_timer : bool) : bool :=
  match reason, authz with
  | RL_Timer, ScanSucceeded => provenance_clears_timer
  | RL_Timer, ScanCleared => provenance_clears_timer
  | RL_Timer, ScanWaived => provenance_clears_timer
  | RL_Timer, ScanRecorded => provenance_clears_timer
  | RL_Timer, _ => false
  | RL_Admin, _ => false
  | RL_PolicyReEvaluation, PolicyReEvaluation => true
  | RL_PolicyReEvaluation, _ => false
  | RL_Curator, CuratorWaiver => true
  | RL_Curator, _ => false
  end.

Definition release_not_authorized : DomainError :=
  Invariant [Lit "release not authorized: timer-only release requires a finding-free scan, a scan whose verdict cleared the artifact, an explicit scan_backends:[] waiver or a recorded verdict under enforcement:record, and a cleared/not-required provenance gate (fail-closed release predicate, ADR 0007)"].

(** The refusal of a release from [Rejected]: [unattended_release] for a pair that is
    not the curator's waive, [unreachable_axis] for a rejection the waive does
    not reach.  The explanatory prose that closes both messages is left out. *)
Definition unattended_release (a : Artifact) (reason : ReleaseReason)
    (authz : ReleaseAuthorization) : DomainError :=
  InvalidState [Lit "cannot release artifact in state "; status_text a;
                Lit ": only a curator's manual waive overrides a recorded rejection — (";
                ArgStr (ReleaseReason_debug reason); Lit ", ";
                ArgStr (ReleaseAuthorization_debug authz);
                Lit ") is an unattended authority"].

Definition unreachable_axis (a : Artifact) : DomainError :=
  InvalidState [Lit "cannot release artifact in state "; status_text a;
                Lit ": a curator's waive does not reach ";
                match rejection_reason a with
                | Some r => ArgStr ("a " +:+ wire_kind r +:+ " rejection")%string
                | None => Lit "a rejection with no recorded reason"
                end].

Definition release (reason : ReleaseReason) (authz : ReleaseAuthorization)
    (provenance : ProvenanceClearance) : method ArtifactReleased :=
  a ← self;
  if forbidden Release (quarantine_status a) then
    throw (InvalidState [Lit "cannot release artifact in state "; status_text a])
  else if bool_decide (quarantine_status a = QS_Rejected) &&
          negb (is_curator_waive reason authz) then
    throw (unattended_release a reason authz)
  else if bool_decide (quarantine_status a = QS_Rejected) &&
          negb (is_curator_overridable (rejection_reason a)) then
    throw (unreachable_axis a)
  else if negb (release_authorized reason authz (provenance_clears provenance)) then
    throw release_not_authorized
  else
    _ ← modify (set_status QS_Released);
    _ ← modify (set_reason None);
    mret {| ar_artifact_id := artifact_id a; released_by := reason;
            released_by_user_id := None; justification := None |}.

Definition complete_provenance (verdict : ProvenanceVerdict) (backend : string)
    : method (list DomainEvent) :=
  a ← self;
  match outcome verdict with
  | PO_Verified signer predicate_type =>
      mret [DE_ProvenanceVerified
              {| pv_artifact_id := artifact_id a; pv_content_hash := sha256_checksum a;
                 pv_backend := backend; signer := signer; predicate_type := predicate_type;
                 cascaded_from := None |}]
  | PO_Rejected reason =>
      _ ← modify (set_status QS_Rejected);
      _ ← modify (set_reason None);
      mret [DE_ProvenanceRejected
              {| pj_artifact_id := artifact_id a; pj_content_hash := sha256_checksum a;
                 pj_backend := backend; pj_reason := reason |};
            DE_ArtifactRejected
              {| rj_artifact_id := artifact_id a; rejected_by := RR_Provenance;
                 rj_reason := ("provenance verification failed (" +:+
                               ProvenanceRejectReason_debug reason +:+ ") — backend " +:+
                               backend)%string |}]
  | PO_NoAttestation => mret []
  | PO_Indeterminate _ => mret []
  end.

Definition cascade_provenance_clearance (cascaded : ContentHash) (signer : SignerIdentity)
    (predicate_type : option string) (backend : string) (a : Artifact)
    : DomainResult ProvenanceVerified :=
  if forbidden CascadeProvenanceClearance (quarantine_status a) then
    Err (Invariant [Lit "cannot cascade provenance clearance to artifact in state ";
                    status_text a])
  else
    Ok {| pv_artifact_id := artifact_id a; pv_content_hash := sha256_checksum a;
          pv_backend := backend; signer := signer; predicate_type := predicate_type;
          cascaded_from := Some cascaded |}.

Definition fail_scan_indeterminate (scanner reason : string) (attempts : Z)
    : method ScanIndeterminate :=
  a ← self;
  if forbidden FailScanIndeterminate (quarantine_status a) then
    throw (Invariant [Lit "cannot mark scan-indeterminate for artifact in state "; status_text a])
  else
    _ ← modify (set_status QS_ScanIndeterminate);
    mret {| si_artifact_id := artifact_id a; si_scanner := scanner; si_reason := reason;
            attempts := attempts |}.

Definition is_cleared (c : CurationClearance) : bool :=
  match c with CC_Cleared => true | CC_Blocked => false end.

Definition reason_text (r : option RejectionReason) : frag :=
  ArgStr (match r with Some r => wire_kind r | None => "none" end).

Definition re_evaluate (now : DateTime) (provenance : ProvenanceClearance)
    (curation : CurationClearance) : method DomainEvent :=
  a ← self;
  if forbidden ReEvaluate (quarantine_status a) then
    throw (Invariant [Lit "cannot re-evaluate artifact in state "; status_text a])
  else if negb (is_scan_clearable (rejection_reason a)) then
    throw (Invariant [Lit "cannot scan-re-evaluate artifact rejected by ";
                      reason_text (rejection_reason a);
                      Lit ": only a scan-axis rejection is scan-clearable"])
  else if negb (is_cleared curation) then
    throw (Invariant [Lit "cannot re-evaluate artifact under an active curation block"])
  else
    let still_in_window :=
      match quarantine_deadline a with Some deadline => now <? deadline | None => false end in
    if still_in_window then
      _ ← modify (set_status QS_Quarantined);
      _ ← modify (set_reason None);
      mret (DE_ArtifactQuarantined
              {| aq_artifact_id := artifact_id a;
                 aq_quarantine_window_start := default now (quarantine_window_start a) |})
    else if negb (provenance_clears provenance) then
      throw (Invariant [Lit "cannot release re-evaluated artifact: cross-axis release conjunction not satisfied"])
    else
      _ ← modify (set_status QS_Released);
      _ ← modify (set_reason None);
      mret (DE_ArtifactReleased
              {| ar_artifact_id := artifact_id a; released_by := RL_PolicyReEvaluation;
                 released_by_user_id := None; justification := None |}).

Definition repair_refusal (a : Artifact) (why : string) : DomainError :=
  Invariant [Lit "refusing to repair artifact "; ArgUuid (artifact_id a); Lit ": "; Lit why].

Definition repair_provenance_misrejection (terminal_record : TerminalRejectionRecord)
    (provenance : ProvenanceRejectionEvidence) (now : DateTime) : method ArtifactQuarantined :=
  a ← self;
  if forbidden RepairProvenanceMisrejection (quarantine_status a) then
    throw (Invariant [Lit "cannot repair a provenance misrejection for artifact in state ";
                      status_text a;
                      Lit ": only a Rejected artifact can be in the illegal state this repairs"])
  else
    _ ← match terminal_record with
        | TR_Present => throw (repair_refusal a "its stream carries an ArtifactRejected")
        | TR_CorruptionTombstone => throw (repair_refusal a "its stream carries an ArtifactCorrupted")
        | TR_Absent => mret ()
        end;
    _ ← match provenance with
        | Contradicted | NeverTerminal => mret ()
        | Disproved _ => throw (repair_refusal a "its stream carries a positive provenance disproof")
        | NoVerdict => throw (repair_refusal a "its stream carries no provenance verdict at all")
        end;
    _ ← modify (set_status QS_Quarantined);
    _ ← modify (set_reason None);
    mret {| aq_artifact_id := artifact_id a;
            aq_quarantine_window_start := default now (quarantine_window_start a) |}.

Definition delete (at_ : DateTime) : method ArtifactDeleted :=
  a ← self;
  match deleted_at a with
  | Some at_ =>
      throw (Invariant [Lit "artifact "; ArgUuid (artifact_id a); Lit " was already deleted at ";
                        ArgTime at_])
  | None =>
      _ ← modify (set_deleted (Some at_));
      mret {| ad_artifact_id := artifact_id a; ad_repository_id := repository_id a;
              ad_path := path a; ad_content_hash := sha256_checksum a |}
  end.

Definition servable (s : QuarantineStatus) : bool :=
  match s with QS_None | QS_Released => true | _ => false end.

Definition is_downloadable (a : Artifact) : bool :=
  negb (is_some (deleted_at a)) && servable (quarantine_status a).

Definition is_promotable (a : Artifact) : bool :=
  negb (is_some (deleted_at a)) && servable (quarantine_status a).

(** ** Failure leaves the row alone *)

Section no_partial_writes.
Context {A : Type}.

(** A method that reports an error has not written. *)
Definition atomic (m : method A) : Prop := ∀ a a' e, m a = (a', Err e) → a' = a.

(** A method whose writes stay within the transition table. *)
Definition respects (e : QuarantineEvent) (m : method A) : Prop :=
  ∀ a a' x, m a = (a', Ok x) → permitted e (quarantine_status a) (quarantine_status a') = true.

(** A method that only ever touches the quarantine columns and [deleted_at]. *)
Definition same_identity (a a' : Artifact) : Prop :=
  artifact_id a' = artifact_id a ∧ repository_id a' = repository_id a ∧ name a' = name a ∧
  version a' = version a ∧ path a' = path a ∧ sha256_checksum a' = sha256_checksum a ∧
  size_bytes a' = size_bytes a ∧ a_created_at a' = a_created_at a.

Definition keeps_identity (m : method A) : Prop :=
  ∀ a a' r, m a = (a', r) → same_identity a a'.
End no_partial_writes.

(** Run a method on an artifact and take its guards apart. *)
Ltac run_method H :=
  cbv [mbind mut_bind mret mut_ret self modify throw lift] in H; simpl in H;
  repeat (case_match; simplify_eq/=; try done).

(** Decide a table guard by the artifact's status. *)
Ltac by_status :=
  match goal with |- context [quarantine_status ?a] => destruct (quarantine_status a) eqn:? end;
  match goal with H : forbidden _ _ = false |- _ => vm_compute in H | _ => idtac end;
  simplify_eq/=; try done.

Record well_behaved {A} (e : QuarantineEvent) (m : method A) : Prop := {
  wb_atomic : atomic m;
  wb_respects : respects e m;
  wb_identity : keeps_identity m;
}.

Ltac behave :=
  split; let H := fresh "H" in intros ? ? ? H; run_method H;
  try (unfold permitted; rewrite allowed_targets_classify; by_status);
  by repeat split.

Lemma quarantine_behaves w : well_behaved Quarantine (quarantine w).
Proof. unfold quarantine. behave. Qed.

Lemma reject_from_scan_behaves r o : well_behaved RejectFromScan (reject_from_scan r o).
Proof. unfold reject_from_scan. behave. Qed.

Lemma reject_from_retroactive_curation_behaves i r :
  well_behaved RejectFromRetroactiveCuration (reject_from_retroactive_curation i r).
Proof. unfold reject_from_retroactive_curation. behave. Qed.

Lemma reject_from_scan_policy_retroactive_behaves o r :
  well_behaved RejectFromScanPolicyRetroactive (reject_from_scan_policy_retroactive o r).
Proof. unfold reject_from_scan_policy_retroactive. behave. Qed.

Lemma block_by_curator_behaves c r : well_behaved BlockByCurator (block_by_curator c r).
Proof. unfold block_by_curator. behave. Qed.

Lemma tombstone_from_corruption_behaves h t :
  well_behaved TombstoneFromCorruption (tombstone_from_corruption h t).
Proof. unfold tombstone_from_corruption. behave. Qed.

Lemma release_behaves r z p : well_behaved Release (release r z p).
Proof. unfold release. behave. Qed.

Lemma complete_provenance_behaves v b : well_behaved CompleteProvenance (complete_provenance v b).
Proof. unfold complete_provenance. behave. Qed.

Lemma fail_scan_indeterminate_behaves s r n :
  well_behaved FailScanIndeterminate (fail_scan_indeterminate s r n).
Proof. unfold fail_scan_indeterminate. behave. Qed.

Lemma re_evaluate_behaves t p c : well_behaved ReEvaluate (re_evaluate t p c).
Proof. unfold re_evaluate. behave. Qed.

Lemma repair_behaves r e t :
  well_behaved RepairProvenanceMisrejection (repair_provenance_misrejection r e t).
Proof. unfold repair_provenance_misrejection. behave. Qed.

(**  Every method that changes an artifact's quarantine state is
    all-or-nothing and stays within the transition table: when it returns an
    error the row is exactly as before, when it succeeds the move from the old
    to the new status is one the table lists for that method's event, and in
    both cases the artifact's identity (id, repository, coordinates, content
    hash, size) is untouched. *)
Theorem methods_follow_the_table :
  (∀ w, well_behaved Quarantine (quarantine w)) ∧
  (∀ r o, well_behaved RejectFromScan (reject_from_scan r o)) ∧
  (∀ i r, well_behaved RejectFromRetroactiveCuration (reject_from_retroactive_curation i r)) ∧
  (∀ o r, well_behaved RejectFromScanPolicyRetroactive
            (reject_from_scan_policy_retroactive o r)) ∧
  (∀ c r, well_behaved BlockByCurator (block_by_curator c r)) ∧
  (∀ h t, well_behaved TombstoneFromCorruption (tombstone_from_corruption h t)) ∧
  (∀ r z p, well_behaved Release (release r z p)) ∧
  (∀ v b, well_behaved CompleteProvenance (complete_provenance v b)) ∧
  (∀ s r n, well_behaved FailScanIndeterminate (fail_scan_indeterminate s r n)) ∧
  (∀ t p c, well_behaved ReEvaluate (re_evaluate t p c)) ∧
  (∀ r e t, well_behaved RepairProvenanceMisrejection (repair_provenance_misrejection r e t)).
Proof.
  eauto 12 using quarantine_behaves, reject_from_scan_behaves,
    reject_from_retroactive_curation_behaves, reject_from_scan_policy_retroactive_behaves,
    block_by_curator_behaves, tombstone_from_corruption_behaves, release_behaves,
    complete_provenance_behaves, fail_scan_indeterminate_behaves, re_evaluate_behaves,
    repair_behaves.
Qed.

(** ** When a release goes through *)

(** The four scan-axis authorities a timer release may carry. *)
Definition scan_authority (z : ReleaseAuthorization) : Prop :=
  z = ScanSucceeded ∨ z = ScanCleared ∨ z = ScanWaived ∨ z = ScanRecorded.

(** The pairs the release predicate accepts. *)
Definition authorizes (r : ReleaseReason) (z : ReleaseAuthorization) (p : ProvenanceClearance)
    : Prop :=
  (r = RL_Timer ∧ scan_authority z ∧ p ≠ PC_Pending) ∨
  (r = RL_PolicyReEvaluation ∧ z = PolicyReEvaluation) ∨
  (r = RL_Curator ∧ z = CuratorWaiver).

Lemma release_authorized_spec r z p :
  release_authorized r z (provenance_clears p) = true ↔ authorizes r z p.
Proof.
  unfold authorizes, scan_authority. destruct r, z, p; simpl; intuition congruence.
Qed.

(**  [release] succeeds exactly when the fail-closed predicate holds: from
    [Quarantined] or [ScanIndeterminate] on an authorised pair (a timer release
    needs a scan authority and a provenance gate that is not pending); from
    [Rejected] only on the curator's own waive, and only for a recorded
    rejection of the scan, curation or provenance axis; from [None] and
    [Released] never.  An administrator's release is never authorised. *)
Theorem release_predicate_exact r z p a :
  is_ok (release r z p a).2 = true ↔
  ((quarantine_status a = QS_Quarantined ∨ quarantine_status a = QS_ScanIndeterminate) ∧
     authorizes r z p) ∨
  (quarantine_status a = QS_Rejected ∧ r = RL_Curator ∧ z = CuratorWaiver ∧
     ∃ reason, rejection_reason a = Some reason ∧ reason ≠ RR_Admin ∧ reason ≠ RR_Corruption).
Proof.
  unfold release. cbv [mbind mut_bind mret mut_ret self modify throw]. simpl.
  rewrite <- release_authorized_spec.
  destruct (quarantine_status a) eqn:Hs; simpl.
  - split; [done | by intros [[[? | ?] _] | [? _]]].
  - destruct (release_authorized _ _ _); (split; [by auto | by intros [[_ ?] | [? _]]]).
  - split; [done | by intros [[[? | ?] _] | [? _]]].
  - destruct (is_curator_waive r z) eqn:Hw; simpl.
    + destruct r, z; try done. simpl.
      destruct (rejection_reason a) as [[] |]; simpl;
        (split; [done || (intros _; right; by eauto 8) |
                 intros [[[? | ?] _] | (_ & _ & _ & ? & [= <-] & ? & ?)]; done]).
    + split; [done |]. intros [[[? | ?] _] | (_ & -> & -> & _)]; done.
  - destruct (release_authorized _ _ _); (split; [by auto | by intros [[_ ?] | [? _]]]).
Qed.

(** What a successful release writes and records. *)
Lemma release_ok r z p a a' x :
  release r z p a = (a', Ok x) →
  a' = set_reason None (set_status QS_Released a) ∧
  x = {| ar_artifact_id := artifact_id a; released_by := r; released_by_user_id := None;
         justification := None |}.
Proof. unfold release. intros H. run_method H. Qed.

(** A deadline in the future. *)
Definition in_window (a : Artifact) (now : DateTime) : Prop :=
  ∃ d, quarantine_deadline a = Some d ∧ now < d.

Lemma in_window_spec a now :
  match quarantine_deadline a with Some d => now <? d | None => false end = true ↔ in_window a now.
Proof.
  unfold in_window. destruct (quarantine_deadline a) as [d |]; [| by split; [| intros (? & ? & _)]].
  rewrite Z.ltb_lt. split; [by exists d | by intros (? & [= <-] & ?)].
Qed.

Lemma is_scan_clearable_spec r :
  is_scan_clearable r = true ↔ r = Some RR_Scanner ∨ r = Some RR_ScanPolicyRetroactive.
Proof. destruct r as [[] |]; simpl; split; (by auto) || (by intros [? | ?]). Qed.

(**  [re_evaluate] moves a rejected artifact exactly when its rejection
    came from the scan axis and no curation block is active: back to
    [Quarantined], keeping the window anchor, while the window is open, and to
    [Released] afterwards, only if the provenance gate is not pending.  Every
    other call is refused. *)
Theorem re_evaluate_exact now p c a a' ev :
  re_evaluate now p c a = (a', Ok ev) ↔
  quarantine_status a = QS_Rejected ∧
  (rejection_reason a = Some RR_Scanner ∨ rejection_reason a = Some RR_ScanPolicyRetroactive) ∧
  c = CC_Cleared ∧
  ((in_window a now ∧ a' = set_reason None (set_status QS_Quarantined a) ∧
    ev = DE_ArtifactQuarantined
           {| aq_artifact_id := artifact_id a;
              aq_quarantine_window_start := default now (quarantine_window_start a) |}) ∨
   (¬ in_window a now ∧ p ≠ PC_Pending ∧ a' = set_reason None (set_status QS_Released a) ∧
    ev = DE_ArtifactReleased
           {| ar_artifact_id := artifact_id a; released_by := RL_PolicyReEvaluation;
              released_by_user_id := None; justification := None |})).
Proof.
  unfold re_evaluate. cbv [mbind mut_bind mret mut_ret self modify throw]. simpl.
  destruct (decide (quarantine_status a = QS_Rejected)) as [Hs | Hs];
    [| by destruct (quarantine_status a); try done; split; try done; intros (? & _)].
  rewrite Hs. simpl. rewrite <- is_scan_clearable_spec.
  destruct (is_scan_clearable (rejection_reason a)); simpl; [| split; [done | by intros (_ & ? & _)]].
  destruct c; simpl; [| split; [done | by intros (_ & _ & ? & _)]].
  rewrite <- in_window_spec.
  destruct (match quarantine_deadline a with Some d => now <? d | None => false end); simpl.
  - split; [intros [= <- <-]; by auto 8 |].
    by intros (_ & _ & _ & [(_ & -> & ->) | (? & _)]).
  - destruct p; simpl;
      (split; [intros [= <- <-]; by auto 8 | intros (_ & _ & _ & [(? & _) | (_ & ? & -> & ->)]); done]).
Qed.
