(* ===== verification/Exclusion.v ===== *)
(** Package patterns, finding exclusions and severity summaries:
    crates/hort-domain/src/policy/exclusion.rs (whose glob matcher
    policy/curation.rs repeats) and the verdict-relevant part of
    types/finding.rs. *)

From S2P Require Import Prelude.
From S2P Require Import RustStd.
From S2P Require Import Json.
From S2P Require Import Types.

(** ** The glob matcher *)

Definition STAR : byte := byte_of_Z 42.

Fixpoint matches_inner (pattern name : list byte) : bool :=
  match pattern with
  | [] => is_empty name
  | p :: pattern' =>
      if bool_decide (p = STAR) then
        existsb (λ split, matches_inner pattern' (drop split name)) (seq 0 (S (length name)))
      else
        match name with
        | [] => false
        | n :: name' =>
            if negb (bool_decide (p = n)) then false else matches_inner pattern' name'
        end
  end.

Definition pattern_matches (pattern name : string) : bool :=
  matches_inner (as_bytes pattern) (as_bytes name).

(** What a pattern means: [*] stands for any run of bytes, every other byte for
    itself. *)
Inductive glob : list byte → list byte → Prop :=
  | glob_nil : glob [] []
  | glob_star p run name : glob p name → glob (STAR :: p) (run ++ name)
  | glob_byte c p name : c ≠ STAR → glob p name → glob (c :: p) (c :: name).

Lemma matches_inner_glob p n : matches_inner p n = true ↔ glob p n.
Proof.
  revert n. induction p as [| c p IH]; intros n; cbn [matches_inner].
  - rewrite is_empty_true. split; [intros ->; constructor | by inversion 1].
  - case_bool_decide as Hc.
    + subst c. rewrite existsb_True. split.
      * intros (i & Hi & H). apply IH in H. rewrite <- (take_drop i n). by constructor.
      * inversion 1 as [| ? run name Hg |]; subst; [| done]. exists (length run).
        split; [apply elem_of_seq; rewrite length_app; lia |]. apply IH.
        by rewrite drop_app_length.
    + destruct n as [| d n]; [split; [done | by inversion 1] |].
      case_bool_decide as Hd; simpl.
      * subst d. rewrite IH. split; [by constructor | by inversion 1].
      * split; [done | by inversion 1].
Qed.

(** ** Findings *)

Definition is_informational_class (s : string) : bool :=
  let t := to_ascii_lowercase (trim s) in
  bool_decide (t = "unmaintained"%string) || bool_decide (t = "unsound"%string) ||
  bool_decide (t = "notice"%string).

Definition is_informational (f : Finding) : bool :=
  negb (is_some (cvss_score f)) &&
  match informational_class f with Some c => is_informational_class c | None => false end.

Definition zero_summary : SeveritySummary :=
  {| critical := 0; high := 0; medium := 0; low := 0; negligible := 0 |}.

Definition add_critical (s : SeveritySummary) : SeveritySummary :=
  {| critical := u32_add (critical s) 1; high := high s; medium := medium s; low := low s;
     negligible := negligible s |}.
Definition add_high (s : SeveritySummary) : SeveritySummary :=
  {| critical := critical s; high := u32_add (high s) 1; medium := medium s; low := low s;
     negligible := negligible s |}.
Definition add_medium (s : SeveritySummary) : SeveritySummary :=
  {| critical := critical s; high := high s; medium := u32_add (medium s) 1; low := low s;
     negligible := negligible s |}.
Definition add_low (s : SeveritySummary) : SeveritySummary :=
  {| critical := critical s; high := high s; medium := medium s; low := u32_add (low s) 1;
     negligible := negligible s |}.
Definition add_negligible (s : SeveritySummary) : SeveritySummary :=
  {| critical := critical s; high := high s; medium := medium s; low := low s;
     negligible := u32_add (negligible s) 1 |}.

(** One iteration of the counting loop. *)
Definition count_finding (s : SeveritySummary) (f : Finding) : SeveritySummary :=
  if is_informational f then add_negligible s
  else
    match severity f with
    | Critical => add_critical s
    | High => add_high s
    | Medium => add_medium s
    | Low => add_low s
    end.

Definition severity_summary_from_findings (findings : list Finding) : SeveritySummary :=
  foldl count_finding zero_summary findings.

(** The same loop in policy/exclusion.rs. *)
Definition summary_of (findings : list Finding) : SeveritySummary :=
  foldl count_finding zero_summary findings.

Definition severity_tier (s : SeverityThreshold) : Z :=
  match s with Critical => 0 | High => 1 | Medium => 2 | Low => 3 end.

Definition highest_severity (findings : list Finding) : option SeverityThreshold :=
  foldl (λ best f,
    let tier := severity_tier (severity f) in
    match best with
    | None => Some (severity f)
    | Some b => if tier <? severity_tier b then Some (severity f) else best
    end) None findings.

Definition may_condemn_artifact (kind : ArtifactKind) (composite_verdict : CompositeVerdictMode)
    (f : Finding) : bool :=
  let carries_the_component :=
    match component_relation f with
    | Subject => true
    | Contained => true
    | NotContained => false
    | NotEstablished => true
    end in
  let decides_this_artifact :=
    match statement f with
    | FS_Bytes => true
    | FS_Unstated => true
    | FS_Filesystem =>
        negb (is_composition_constituent kind && carries_release_authority composite_verdict)
    end in
  carries_the_component && decides_this_artifact.

(** ** Exclusions *)

Definition is_active (ex : ExclusionProjection) (now : DateTime) : bool :=
  match expires_at ex with None => true | Some e => now <? e end.

Definition cve_matches (ex : ExclusionProjection) (f : Finding) : bool :=
  if eq_ignore_ascii_case (cve_id ex) (vulnerability_id f) then true
  else existsb (λ alias, eq_ignore_ascii_case (cve_id ex) alias) (aliases f).

Definition matches_coords (ex : ExclusionProjection) (coords : ArtifactCoords) : bool :=
  match package_pattern ex with
  | None => true
  | Some pattern => pattern_matches pattern (co_name coords)
  end.

Record FilteredFindings : Type := {
  remaining : SeveritySummary;
  remaining_findings : list Finding;
  excluded_count : Z;
  matched_exclusion_ids : list Uuid;
}.

(** The three [continue]s of the inner loop. *)
Definition applies (coords : ArtifactCoords) (now : DateTime) (f : Finding)
    (ex : ExclusionProjection) : bool :=
  if negb (is_active ex now) then false
  else if negb (cve_matches ex f) then false
  else if negb (matches_coords ex coords) then false
  else true.

(** The inner loop over the exclusions: [(drop_finding, matched_exclusion_ids)]. *)
Definition match_exclusions (coords : ArtifactCoords) (now : DateTime) (f : Finding)
    (exclusions : list ExclusionProjection) (matched : list Uuid) : bool * list Uuid :=
  foldl (λ acc ex,
    if applies coords now f ex then (true, push_new acc.2 (exclusion_id ex)) else acc)
    (false, matched) exclusions.

Definition filter_excluded_findings (findings : list Finding)
    (exclusions : list ExclusionProjection) (coords : ArtifactCoords) (now : DateTime)
    : FilteredFindings :=
  let '(rest, matched) :=
    foldl (λ acc f,
      let '(drop_finding, matched) := match_exclusions coords now f exclusions acc.2 in
      (if drop_finding then acc.1 else acc.1 ++ [f], matched)) ([], []) findings in
  {| remaining := summary_of rest;
     remaining_findings := rest;
     excluded_count := wrap 32 (len findings - len rest);
     matched_exclusion_ids := matched |}.

Record FilteredSummary : Type := {
  fs_remaining : SeveritySummary;
  fs_excluded_count : Z;
  fs_matched_exclusion_ids : list Uuid;
}.

(** Take one finding off the highest non-empty tier; the flag says whether
    there was one. *)
Definition take_highest (s : SeveritySummary) : SeveritySummary * bool :=
  if 0 <? critical s then
    ({| critical := critical s - 1; high := high s; medium := medium s; low := low s;
        negligible := negligible s |}, true)
  else if 0 <? high s then
    ({| critical := critical s; high := high s - 1; medium := medium s; low := low s;
        negligible := negligible s |}, true)
  else if 0 <? medium s then
    ({| critical := critical s; high := high s; medium := medium s - 1; low := low s;
        negligible := negligible s |}, true)
  else if 0 <? low s then
    ({| critical := critical s; high := high s; medium := medium s; low := low s - 1;
        negligible := negligible s |}, true)
  else (s, false).

Definition filter_excluded_summary (summary : SeveritySummary)
    (exclusions : list ExclusionProjection) (coords : ArtifactCoords) (now : DateTime)
    : FilteredSummary :=
  foldl (λ acc ex,
    if negb (is_active ex now) then acc
    else if negb (matches_coords ex coords) then acc
    else
      let '(rest, taken) := take_highest (fs_remaining acc) in
      {| fs_remaining := rest;
         fs_excluded_count :=
           if taken then u32_add (fs_excluded_count acc) 1 else fs_excluded_count acc;
         fs_matched_exclusion_ids := fs_matched_exclusion_ids acc ++ [exclusion_id ex] |})
    {| fs_remaining := summary; fs_excluded_count := 0; fs_matched_exclusion_ids := [] |}
    exclusions.

(** ** What the filter keeps *)

(** An exclusion is about a finding: it has not expired, it names the finding's
    identifier or one of its aliases (letter case aside), and its package
    pattern, if any, matches the artifact's name. *)
Definition excludes (coords : ArtifactCoords) (now : DateTime) (ex : ExclusionProjection)
    (f : Finding) : Prop :=
  (∀ e, expires_at ex = Some e → now < e) ∧
  (∃ id, id ∈ vulnerability_id f :: aliases f ∧
         to_ascii_lowercase (cve_id ex) = to_ascii_lowercase id) ∧
  (∀ p, package_pattern ex = Some p → glob (as_bytes p) (as_bytes (co_name coords))).

Lemma is_active_spec ex now :
  is_active ex now = true ↔ ∀ e, expires_at ex = Some e → now < e.
Proof.
  unfold is_active. destruct (expires_at ex) as [e|]; [| naive_solver].
  rewrite Z.ltb_lt. naive_solver.
Qed.

Lemma cve_matches_spec ex f :
  cve_matches ex f = true ↔
  ∃ id, id ∈ vulnerability_id f :: aliases f ∧
        to_ascii_lowercase (cve_id ex) = to_ascii_lowercase id.
Proof.
  unfold cve_matches. setoid_rewrite elem_of_cons.
  destruct (eq_ignore_ascii_case _ _) eqn:E.
  - apply eq_ignore_ascii_case_spec in E. naive_solver.
  - rewrite existsb_True. setoid_rewrite eq_ignore_ascii_case_spec. split.
    + naive_solver.
    + intros (id & [-> | Hid] & Heq); [| by exists id].
      apply eq_ignore_ascii_case_spec in Heq. congruence.
Qed.

Lemma matches_coords_spec ex coords :
  matches_coords ex coords = true ↔
  ∀ p, package_pattern ex = Some p → glob (as_bytes p) (as_bytes (co_name coords)).
Proof.
  unfold matches_coords, pattern_matches. destruct (package_pattern ex); [| naive_solver].
  rewrite matches_inner_glob. naive_solver.
Qed.

Lemma applies_spec coords now f ex : applies coords now f ex = true ↔ excludes coords now ex f.
Proof.
  unfold applies, excludes.
  rewrite <- is_active_spec, <- cve_matches_spec, <- matches_coords_spec.
  by destruct (is_active _ _), (cve_matches _ _), (matches_coords _ _);
    simpl; intuition congruence.
Qed.

Lemma match_exclusions_dropped coords now f exclusions b matched :
  (foldl (λ acc ex,
     if applies coords now f ex then (true, push_new acc.2 (exclusion_id ex)) else acc)
     (b, matched) exclusions).1 = b || existsb (applies coords now f) exclusions.
Proof.
  revert b matched. induction exclusions as [| ex l IH]; intros b matched; simpl.
  - by rewrite orb_false_r.
  - destruct (applies coords now f ex); rewrite IH; simpl; by rewrite ?orb_true_r.
Qed.

Lemma filter_loop coords now exclusions findings kept matched :
  (foldl (λ acc f,
     let '(drop_finding, matched) := match_exclusions coords now f exclusions acc.2 in
     (if drop_finding then acc.1 else acc.1 ++ [f], matched)) (kept, matched) findings).1 =
  kept ++ filter (λ f, existsb (applies coords now f) exclusions = false) findings.
Proof.
  revert kept matched. induction findings as [| f l IH]; intros kept matched; simpl.
  - by rewrite app_nil_r.
  - pose proof (match_exclusions_dropped coords now f exclusions false matched) as Hd.
    unfold match_exclusions. destruct (foldl _ (false, matched) exclusions) as [d m]; simpl in *.
    subst d. rewrite IH, filter_cons. destruct (existsb _ exclusions); simpl; [done |].
    by rewrite <- app_assoc.
Qed.

(** The filter is a plain selection, in the order of the findings. *)
Lemma remaining_findings_filter findings exclusions coords now :
  remaining_findings (filter_excluded_findings findings exclusions coords now) =
  filter (λ f, existsb (applies coords now f) exclusions = false) findings.
Proof.
  unfold filter_excluded_findings.
  pose proof (filter_loop coords now exclusions findings [] []) as Hl.
  destruct (foldl _ _ findings) as [rest m]. simpl in *. by subst.
Qed.

Lemma elem_of_remaining findings exclusions coords now f :
  f ∈ remaining_findings (filter_excluded_findings findings exclusions coords now) ↔
  f ∈ findings ∧ ∀ ex, ex ∈ exclusions → ¬ excludes coords now ex f.
Proof.
  rewrite remaining_findings_filter, list_elem_of_filter, existsb_False.
  setoid_rewrite <- applies_spec. setoid_rewrite not_true_iff_false. tauto.
Qed.

(** ** What the counts count *)

(** The counter a finding goes to ([None]: negligible), and its value. *)
Definition bucket (f : Finding) : option SeverityThreshold :=
  if is_informational f then None else Some (severity f).

Definition tally (s : SeveritySummary) (b : option SeverityThreshold) : Z :=
  match b with
  | Some Critical => critical s
  | Some High => high s
  | Some Medium => medium s
  | Some Low => low s
  | None => negligible s
  end.

Lemma tally_count_finding s f b :
  tally (count_finding s f) b =
  if bool_decide (bucket f = b) then u32_add (tally s b) 1 else tally s b.
Proof.
  unfold count_finding, bucket. destruct (is_informational f), (severity f), b as [[]|]; done.
Qed.

Lemma tally_loop l s b :
  0 ≤ tally s b → tally s b + len l < 2 ^ 32 →
  tally (foldl count_finding s l) b = tally s b + len (filter (λ f, bucket f = b) l).
Proof.
  revert s. induction l as [| f l IH]; intros s H0 Hb; [unfold len; simpl; lia |].
  unfold len in Hb; rewrite length_cons in Hb. cbn [foldl]. rewrite filter_cons.
  pose proof (tally_count_finding s f b) as Ht. case_bool_decide as Hf.
  - assert (Hu : tally (count_finding s f) b = tally s b + 1).
    { rewrite Ht. apply wrap_small. unfold is_uint. lia. }
    rewrite IH by (unfold len; lia). rewrite decide_True by done.
    unfold len. rewrite length_cons. lia.
  - rewrite IH by (unfold len; lia). by rewrite decide_False, Ht.
Qed.

Lemma tally_summary l b :
  len l < 2 ^ 32 →
  tally (severity_summary_from_findings l) b = len (filter (λ f, bucket f = b) l).
Proof.
  intros Hl. unfold severity_summary_from_findings.
  assert (Hz : tally zero_summary b = 0) by by destruct b as [[]|].
  rewrite tally_loop; lia.
Qed.

Lemma tally_positive l b :
  len l < 2 ^ 32 →
  0 < tally (severity_summary_from_findings l) b ↔ ∃ f, f ∈ l ∧ bucket f = b.
Proof.
  intros Hl. rewrite tally_summary by done.
  assert (He : ∀ f, f ∈ filter (λ f, bucket f = b) l ↔ f ∈ l ∧ bucket f = b).
  { intros f. rewrite list_elem_of_filter. tauto. }
  setoid_rewrite <- He. destruct (filter _ l) as [| f k]; unfold len; simpl.
  - split; [lia |]. intros (f & Hf). by apply elem_of_nil in Hf.
  - split; [intros _; exists f; left | lia].
Qed.
