(* ===== verification/AliasGroup.v ===== *)
(** Alias groups (crates/hort-domain/src/types/alias_group.rs): findings that
    name one advisory under several identifiers collapse into the best-informed
    of them.

    The identifiers are grouped with a union-find over the finding indices.  A
    [Vec] index out of range and a failed [expect] are [None]; the loop of
    [find] runs on fuel, one unit per node, and the development shows that
    neither happens. *)

From Stdlib Require String.
From S2P Require Import Prelude.
From S2P Require Import RustStd.
From S2P Require Import Json.
From S2P Require Import Types.
From S2P Require Import Events.
From S2P Require Import Exclusion.

(** ** How much a finding says *)

Inductive InformationRank : Type :=
  | IR_Unassessed
  | IR_Assessed
  | IR_Informational
  | IR_Scored.

(** The derived order, by discriminant. *)
Definition InformationRank_disc (r : InformationRank) : Z :=
  match r with
  | IR_Unassessed => 0
  | IR_Assessed => 1
  | IR_Informational => 2
  | IR_Scored => 3
  end.

Definition usable_score (f : Finding) : option f32 :=
  match cvss_score f with
  | Some s => if f32_is_finite s then Some s else None
  | None => None
  end.

Definition information_rank (f : Finding) : InformationRank :=
  if is_some (usable_score f) then IR_Scored
  else if is_informational f then IR_Informational
  else match severity_basis f with Assessed => IR_Assessed | Unassessed => IR_Unassessed end.

Definition score_or_floor (f : Finding) : f32 :=
  match usable_score f with Some s => s | None => f32_NEG_INFINITY end.

Definition is_better_member (candidate incumbent : Finding) : bool :=
  let by_rank := Z.compare (InformationRank_disc (information_rank candidate))
                           (InformationRank_disc (information_rank incumbent)) in
  if is_ne by_rank then is_gt by_rank
  else
    let by_score := f32_total_cmp (score_or_floor candidate) (score_or_floor incumbent) in
    if is_ne by_score then is_gt by_score
    else
      let by_tier := Z.compare (severity_tier (severity candidate))
                               (severity_tier (severity incumbent)) in
      if is_ne by_tier then is_lt by_tier
      else str_ltb (vulnerability_id candidate) (vulnerability_id incumbent).

(** ** [DisjointSet] *)

Definition DisjointSet_new (n : nat) : list nat := seq 0 n.

Fixpoint find_loop (fuel : nat) (x : nat) (parent : list nat) : option (list nat * nat) :=
  match fuel with
  | O => None
  | S fuel' =>
      px ← parent !! x;
      if bool_decide (px = x) then Some (parent, x)
      else
        ppx ← parent !! px;
        let parent := <[x := ppx]> parent in
        x' ← parent !! x;
        find_loop fuel' x' parent
  end.

Definition DisjointSet_find (parent : list nat) (x : nat) : option (list nat * nat) :=
  find_loop (length parent) x parent.

Definition DisjointSet_union (parent : list nat) (a b : nat) : option (list nat) :=
  '(parent, ra) ← DisjointSet_find parent a;
  '(parent, rb) ← DisjointSet_find parent b;
  if bool_decide (ra = rb) then Some parent
  else _ ← parent !! rb; Some (<[rb := ra]> parent).

(** ** Grouping *)

Abbreviation AliasKey := (string * string)%type.

Definition alias_key (purl id : string) : AliasKey := (purl, to_ascii_lowercase (trim id)).

Definition is_blank (id : string) : bool := bool_decide (trim id = ""%string).

Definition claim_id (purl : string) (idx : nat) (st : list nat * gmap AliasKey nat) (id : string)
    : option (list nat * gmap AliasKey nat) :=
  let '(dsu, claims) := st in
  if is_blank id then Some st
  else
    match claims !! alias_key purl id with
    | Some claimant => dsu ← DisjointSet_union dsu claimant idx; Some (dsu, claims)
    | None => Some (dsu, <[alias_key purl id := idx]> claims)
    end.

Definition finding_ids (f : Finding) : list string := vulnerability_id f :: aliases f.

Definition claim_finding (st : list nat * gmap AliasKey nat) (item : nat * Finding)
    : option (list nat * gmap AliasKey nat) :=
  try_fold (claim_id (purl item.2) item.1) (finding_ids item.2) st.

Definition enumerate {A} (l : list A) : list (nat * A) := imap pair l.

Definition bucket_index (st : list nat * list nat * gmap nat (list nat)) (idx : nat)
    : option (list nat * list nat * gmap nat (list nat)) :=
  let '(dsu, group_order, groups) := st in
  '(dsu, root) ← DisjointSet_find dsu idx;
  let '(group_order, groups) :=
    match groups !! root with
    | Some _ => (group_order, groups)
    | None => (group_order ++ [root], <[root := []]> groups)
    end in
  members ← groups !! root;
  Some (dsu, group_order, <[root := members ++ [idx]]> groups).

(** ** Collapsing one group *)

Abbreviation Slots := (list (option Finding)).

(** [slots[i].as_ref().expect(..)] and [slots[i].take().expect(..)]. *)
Definition slot_ref (slots : Slots) (i : nat) : option Finding :=
  slot ← slots !! i; slot.

Definition slot_take (slots : Slots) (i : nat) : option (Slots * Finding) :=
  f ← slot_ref slots i; Some (<[i := None]> slots, f).

Definition push_alias (st : list string * list string) (candidate : string)
    : list string * list string :=
  let '(out, seen) := st in
  let trimmed := trim candidate in
  if bool_decide (trimmed = ""%string) || (MAX_ALIASES <=? len out) then st
  else
    let normalised := to_ascii_lowercase trimmed in
    if contains seen normalised then st
    else (out ++ [trimmed], seen ++ [normalised]).

Definition union_aliases (winner : Finding) (others : list Finding) : list string :=
  let st := ([], [to_ascii_lowercase (trim (vulnerability_id winner))]) in
  let st := foldl (λ st o, push_alias st (vulnerability_id o)) st others in
  let st := foldl push_alias st (aliases winner) in
  let st := foldl (λ st o, foldl push_alias st (aliases o)) st others in
  st.1.

Definition set_aliases (f : Finding) (a : list string) : Finding :=
  {| purl := purl f; vulnerability_id := vulnerability_id f; severity := severity f;
     cvss_score := cvss_score f; title := title f; fixed_versions := fixed_versions f;
     source_scanner := source_scanner f; references := references f; aliases := a;
     informational_class := informational_class f; severity_basis := severity_basis f;
     component_relation := component_relation f; statement := statement f;
     advisory_published_at := advisory_published_at f |}.

Definition challenge (slots : Slots) (members : list nat) (winner_pos : nat) (item : nat * nat)
    : option nat :=
  let '(pos, idx) := item in
  w ← members !! winner_pos;
  incumbent ← slot_ref slots w;
  candidate ← slot_ref slots idx;
  Some (if is_better_member candidate incumbent then pos else winner_pos).

Definition take_member (st : Slots * list Finding) (item : nat * nat)
    : option (Slots * list Finding) :=
  '(slots, f) ← slot_take st.1 item.2; Some (slots, st.2 ++ [f]).

Definition by_vulnerability_id (a b : Finding) : bool :=
  str_leb (vulnerability_id a) (vulnerability_id b).

Definition collapse_one_group (slots : Slots) (members : list nat) : option (Slots * Finding) :=
  if (length members =? 1)%nat then m ← members !! 0%nat; slot_take slots m
  else
    winner_pos ← try_fold (challenge slots members) (drop 1 (enumerate members)) 0%nat;
    '(slots, others) ←
      try_fold take_member (filter (λ item, item.1 ≠ winner_pos) (enumerate members)) (slots, []);
    let others := sort_by by_vulnerability_id others in
    w ← members !! winner_pos;
    '(slots, winner) ← slot_take slots w;
    Some (slots, set_aliases winner (union_aliases winner others)).

Definition collapse_root (st : Slots * gmap nat (list nat) * list Finding) (root : nat)
    : option (Slots * gmap nat (list nat) * list Finding) :=
  let '(slots, groups, out) := st in
  members ← groups !! root;
  '(slots, f) ← collapse_one_group slots members;
  Some (slots, delete root groups, out ++ [f]).

Definition collapse_alias_groups (findings : list Finding) : option (list Finding) :=
  if (length findings <? 2)%nat then Some findings
  else
    '(dsu, _) ← try_fold claim_finding (enumerate findings)
                  (DisjointSet_new (length findings), ∅);
    '(_, group_order, groups) ← try_fold bucket_index (seq 0 (length findings)) (dsu, [], ∅);
    '(_, _, out) ← try_fold collapse_root group_order (Some <$> findings, groups, []);
    Some out.

(** ** The union-find *)

(** [reaches p k x r]: following parents from [x] gets to the root [r] in [k] steps. *)
Inductive reaches (p : list nat) : nat → nat → nat → Prop :=
  | reaches_root x : p !! x = Some x → reaches p 0 x x
  | reaches_step k x y r : p !! x = Some y → y ≠ x → reaches p k y r → reaches p (S k) x r.

(** Every node has a root: what the parent array must satisfy. *)
Definition dsu_ok (p : list nat) : Prop :=
  ∀ x, (x < length p)%nat → ∃ k r, reaches p k x r.

(** The abstract value of the structure: which nodes share a root. *)
Definition root (p : list nat) (x r : nat) : Prop := ∃ k, reaches p k x r.

Lemma reaches_fun p k k' x r r' : reaches p k x r → reaches p k' x r' → k = k' ∧ r = r'.
Proof.
  intros H. revert k' r'. induction H as [x Hx | k x y r Hx Hne _ IH]; intros k' r'.
  - inversion 1; simplify_eq; done.
  - inversion 1; simplify_eq. by edestruct IH as [-> ->].
Qed.

Lemma root_fun p x r r' : root p x r → root p x r' → r = r'.
Proof. intros [k H] [k' H']. by eapply reaches_fun. Qed.

Lemma reaches_end p k x r : reaches p k x r → p !! r = Some r.
Proof. by induction 1. Qed.

Lemma root_of_root p x r : root p x r → root p r r.
Proof. intros [k H]. exists 0%nat. constructor. by eapply reaches_end. Qed.

Lemma reaches_lt p k x r : reaches p k x r → (x < length p)%nat.
Proof. by inversion 1; eapply lookup_lt_Some. Qed.

(** The walk to the root visits nodes at distinct distances, so it is shorter
    than the array. *)
Lemma reaches_path p k x r :
  reaches p k x r →
  ∃ l, length l = S k ∧ NoDup l ∧ ∀ y, y ∈ l → (y < length p)%nat ∧ ∃ j, (j ≤ k)%nat ∧ reaches p j y r.
Proof.
  induction 1 as [x Hx | k x y r Hx Hne Hr (l & Hlen & Hnd & Hl)].
  - exists [x]. split_and!; [done | apply NoDup_singleton |].
    intros y ->%list_elem_of_singleton. split; [by eapply lookup_lt_Some |].
    exists 0%nat. split; [lia | by constructor].
  - assert (reaches p (S k) x r) as Hxr by (by econstructor).
    exists (x :: l). split_and!; [simpl; lia | |].
    + constructor; [| done]. intros (_ & j & Hj & Hr')%Hl.
      destruct (reaches_fun _ _ _ _ _ _ Hxr Hr'). lia.
    + intros z [-> | Hz]%elem_of_cons; [split; [by eapply reaches_lt | by exists (S k)] |].
      destruct (Hl _ Hz) as (? & j & ? & ?). split; [done |]. exists j. split; [lia | done].
Qed.

Lemma reaches_short p k x r : reaches p k x r → (k < length p)%nat.
Proof.
  intros (l & Hlen & Hnd & Hl)%reaches_path.
  assert (length l ≤ length (seq 0 (length p)))%nat as Hle.
  { apply NoDup_incl_length; [by apply NoDup_ListNoDup |].
    intros y Hy%list_elem_of_In. apply list_elem_of_In, elem_of_seq. apply Hl in Hy as [? _]. lia. }
  rewrite length_seq in Hle. lia.
Qed.

(** Path halving keeps every root and lengthens no walk. *)
Lemma halve_reaches p x y z k w r :
  p !! x = Some y → p !! y = Some z →
  reaches p k w r → ∃ k', (k' ≤ k)%nat ∧ reaches (<[x := z]> p) k' w r.
Proof.
  intros Hx Hy. revert w. induction (lt_wf k) as [k _ IH]; intros w Hr.
  assert (x < length p)%nat as Hlt by (by eapply lookup_lt_Some).
  destruct (decide (w = x)) as [-> | Hw].
  - inversion Hr as [? Hxx | k0 ? y' ? Hxy Hne Hy']; simplify_eq.
    + exists 0%nat. split; [lia |]. constructor. by rewrite list_lookup_insert_eq.
    + inversion Hy' as [? Hyy | k1 ? z' ? Hyz Hne' Hz]; simplify_eq.
      * exists 1%nat. split; [lia |]. eapply (reaches_step _ 0).
        -- by apply list_lookup_insert_eq.
        -- done.
        -- constructor. by rewrite list_lookup_insert_ne.
      * destruct (IH k1 ltac:(lia) _ Hz) as (k' & Hk' & Hr').
        exists (S k'). split; [lia |]. eapply (reaches_step _ k').
        -- by apply list_lookup_insert_eq.
        -- intros ->. destruct (reaches_fun _ _ _ _ _ _ Hr Hz). lia.
        -- done.
  - inversion Hr as [? Hww | k0 ? v ? Hwv Hne Hv]; simplify_eq.
    + exists 0%nat. split; [lia |]. constructor. by rewrite list_lookup_insert_ne.
    + destruct (IH k0 ltac:(lia) _ Hv) as (k' & Hk' & Hr').
      exists (S k'). split; [lia |]. apply (reaches_step _ k' _ v); [| done | done].
      by rewrite list_lookup_insert_ne.
Qed.

(** [p'] represents the same partition as [p], with the same representatives. *)
Definition same_roots (p p' : list nat) : Prop :=
  length p' = length p ∧ ∀ w r, root p w r → root p' w r.

Lemma same_roots_refl p : same_roots p p.
Proof. by split. Qed.

Lemma same_roots_trans p q s : same_roots p q → same_roots q s → same_roots p s.
Proof. intros [H1 H2] [H3 H4]. split; [congruence | auto]. Qed.

Lemma same_roots_ok p p' : dsu_ok p → same_roots p p' → dsu_ok p'.
Proof.
  intros Hok [Hl Hr] x Hx. rewrite Hl in Hx. destruct (Hok x Hx) as (k & r & H).
  destruct (Hr x r) as [k' H']; [by exists k | by exists k', r].
Qed.

Lemma same_roots_iff p p' w r :
  dsu_ok p → same_roots p p' → root p' w r ↔ root p w r.
Proof.
  intros Hok [Hl Hr]. split; [| apply Hr]. intros H.
  assert (w < length p)%nat as Hw.
  { destruct H as [k H]. rewrite <- Hl. by eapply reaches_lt. }
  destruct (Hok w Hw) as (k & r' & H'). assert (root p w r') as Hw' by (by exists k).
  by rewrite (root_fun p' w r r' H (Hr _ _ Hw')).
Qed.

Lemma find_loop_spec fuel p k x r :
  reaches p k x r → (k < fuel)%nat →
  ∃ p', find_loop fuel x p = Some (p', r) ∧ same_roots p p'.
Proof.
  revert p k x. induction fuel as [| fuel IH]; intros p k x Hr Hk; [lia |]. cbn [find_loop].
  inversion Hr as [? Hxx | k0 ? y ? Hxy Hne Hy]; subst.
  - rewrite Hxx. cbn. rewrite bool_decide_true by done. exists p. split; [done | apply same_roots_refl].
  - rewrite Hxy. cbn. rewrite bool_decide_false by done.
    assert (∃ z, p !! y = Some z) as [z Hz] by (inversion Hy; eauto).
    rewrite Hz. cbn. rewrite list_lookup_insert_eq by (by eapply lookup_lt_Some). cbn.
    assert (same_roots p (<[x := z]> p)) as Hs.
    { split; [apply length_insert |]. intros w s [j Hj].
      destruct (halve_reaches _ _ _ _ _ _ _ Hxy Hz Hj) as (j' & _ & H). by exists j'. }
    assert (∃ j, (j ≤ k0)%nat ∧ reaches p j z r) as (j & Hj & Hzr).
    { inversion Hy as [? Hyy | k1 ? z' ? Hyz ? Hz']; simplify_eq; [by exists 0%nat |].
      exists k1. split; [lia | done]. }
    destruct (halve_reaches _ _ _ _ _ _ _ Hxy Hz Hzr) as (j' & Hj' & Hzr').
    destruct (IH _ j' z Hzr' ltac:(lia)) as (p' & Hf & Hs').
    exists p'. split; [done |]. by eapply same_roots_trans.
Qed.

Lemma find_spec p x r :
  root p x r → ∃ p', DisjointSet_find p x = Some (p', r) ∧ same_roots p p'.
Proof. intros [k Hr]. apply (find_loop_spec _ _ k); [done | by eapply reaches_short]. Qed.

(** Hanging the root [rb] under the root [ra] redirects exactly the class of [rb]. *)
Lemma link_reaches p ra rb k w r :
  p !! ra = Some ra → p !! rb = Some rb → ra ≠ rb → reaches p k w r →
  root (<[rb := ra]> p) w (if decide (r = rb) then ra else r).
Proof.
  intros Ha Hb Hne. assert (rb < length p)%nat by (by eapply lookup_lt_Some).
  induction 1 as [x Hx | k x y r Hx Hxy _ [k' IH]].
  - case_decide as Hd.
    + subst x. exists 1%nat. apply (reaches_step _ 0 _ ra); [by rewrite list_lookup_insert_eq | done |].
      constructor. by rewrite list_lookup_insert_ne.
    + exists 0%nat. constructor. by rewrite list_lookup_insert_ne.
  - exists (S k'). apply (reaches_step _ k' _ y); [| done | done].
    rewrite list_lookup_insert_ne; [done |]. intros ->. simplify_eq.
Qed.

Lemma union_spec p a b :
  dsu_ok p → (a < length p)%nat → (b < length p)%nat →
  ∃ p' ra rb, DisjointSet_union p a b = Some p' ∧ length p' = length p ∧ dsu_ok p' ∧
    root p a ra ∧ root p b rb ∧
    ∀ w r, root p w r → root p' w (if decide (r = rb) then ra else r).
Proof.
  intros Hok Ha Hb. destruct (Hok a Ha) as (ka & ra & Hra), (Hok b Hb) as (kb & rb & Hrb).
  assert (root p a ra) as Ra by (by exists ka). assert (root p b rb) as Rb by (by exists kb).
  destruct (find_spec p a ra Ra) as (p1 & Hf1 & Hs1).
  pose proof (proj2 Hs1 _ _ Rb) as Rb1.
  destruct (find_spec p1 b rb Rb1) as (p2 & Hf2 & Hs2).
  pose proof (same_roots_trans _ _ _ Hs1 Hs2) as Hs.
  pose proof (same_roots_ok _ _ Hok Hs) as Hok2. unfold DisjointSet_union.
  rewrite Hf1. cbn. rewrite Hf2. cbn. case_bool_decide as Heq.
  - exists p2, ra, rb. split_and!; [done | apply Hs | done | done | done |].
    intros w r Hw%Hs. subst rb. by case_decide; subst.
  - assert (p2 !! ra = Some ra) as Ea.
    { destruct (proj2 Hs _ _ Ra) as [? ?]. by eapply reaches_end. }
    assert (p2 !! rb = Some rb) as Eb.
    { destruct (proj2 Hs _ _ Rb) as [? ?]. by eapply reaches_end. }
    rewrite Eb. cbn. exists (<[rb := ra]> p2), ra, rb.
    split_and!; [done | rewrite length_insert; apply Hs | | done | done |].
    + intros x Hx. rewrite length_insert in Hx. destruct (Hok2 x Hx) as (k & r & Hr).
      destruct (link_reaches _ _ _ _ _ _ Ea Eb Heq Hr) as [k' H]. by eexists k', _.
    + intros w r Hw%Hs. destruct Hw as [k Hk]. by eapply link_reaches.
Qed.

(** ** Connected identifiers *)

Definition same (p : list nat) (i j : nat) : Prop := ∃ r, root p i r ∧ root p j r.

Lemma same_refl p i : dsu_ok p → (i < length p)%nat → same p i i.
Proof. intros Hok (k & r & H)%Hok. by exists r; split; exists k. Qed.

Lemma same_sym p i j : same p i j → same p j i.
Proof. intros (r & ? & ?). by exists r. Qed.

Lemma same_trans p i j k : same p i j → same p j k → same p i k.
Proof.
  intros (r & Hi & Hj) (s & Hj' & Hk). rewrite (root_fun _ _ _ _ Hj Hj') in *. by exists s.
Qed.

Lemma union_same p a b :
  dsu_ok p → (a < length p)%nat → (b < length p)%nat →
  ∃ p', DisjointSet_union p a b = Some p' ∧ length p' = length p ∧ dsu_ok p' ∧
    ∀ i j, (i < length p)%nat → (j < length p)%nat →
      same p' i j ↔ same p i j ∨ (same p i a ∧ same p b j) ∨ (same p i b ∧ same p a j).
Proof.
  intros Hok Ha Hb. destruct (union_spec p a b Hok Ha Hb)
    as (p' & ra & rb & Hu & Hlen & Hok' & Ra & Rb & Hr).
  exists p'. split_and!; [done | done | done |]. intros i j Hi Hj.
  destruct (Hok i Hi) as (ki & ri & Hri), (Hok j Hj) as (kj & rj & Hrj).
  assert (root p i ri) as Ri by (by exists ki). assert (root p j rj) as Rj by (by exists kj).
  pose proof (Hr _ _ Ri) as Ri'. pose proof (Hr _ _ Rj) as Rj'.
  assert (∀ x y rx ry, root p x rx → root p y ry → same p x y ↔ rx = ry) as Hsame.
  { intros x y rx ry Hx Hy. split; [| by intros ->; exists ry].
    intros (r & Hx' & Hy'). by rewrite (root_fun _ _ _ _ Hx Hx'), (root_fun _ _ _ _ Hy Hy'). }
  rewrite (Hsame i j ri rj), (Hsame i a ri ra), (Hsame b j rb rj), (Hsame i b ri rb),
    (Hsame a j ra rj) by done.
  split.
  - intros (r & Hi' & Hj'). pose proof (root_fun _ _ _ _ Ri' Hi') as E1.
    pose proof (root_fun _ _ _ _ Rj' Hj') as E2. repeat case_decide; subst; auto.
  - intros H. exists (if decide (ri = rb) then ra else ri). split; [done |].
    assert ((if decide (ri = rb) then ra else ri) = (if decide (rj = rb) then ra else rj)) as ->;
      [| done]. repeat case_decide; naive_solver.
Qed.

(** The identifiers a finding is known under, for one package. *)
Definition finding_keys (f : Finding) : list AliasKey :=
  alias_key (purl f) <$> filter (λ id, is_blank id = false) (finding_ids f).

Definition mentions_of (item : nat * Finding) : list (nat * AliasKey) :=
  pair item.1 <$> finding_keys item.2.

(** Two findings share an identifier, among the mentions [ps]. *)
Definition shares (ps : list (nat * AliasKey)) (i j : nat) : Prop :=
  ∃ k, (i, k) ∈ ps ∧ (j, k) ∈ ps.

Lemma shares_mono ps qs i j : shares ps i j → shares (ps ++ qs) i j.
Proof. intros (k & ? & ?). exists k. set_solver. Qed.

Lemma rtc_shares_mono ps qs i j : rtc (shares ps) i j → rtc (shares (ps ++ qs)) i j.
Proof. apply rtc_subrel. intros ?? ?. by apply shares_mono. Qed.

Lemma rtc_shares_sym ps i j : rtc (shares ps) i j → rtc (shares ps) j i.
Proof.
  induction 1 as [| x y z (k & ? & ?) _ IH]; [done |].
  eapply rtc_r; [done | by exists k].
Qed.

Lemma rtc_shares_trans ps i j k :
  rtc (shares ps) i j → rtc (shares ps) j k → rtc (shares ps) i k.
Proof. apply transitivity. Qed.

(** The loop over the mentions keeps one claimant per identifier, and the
    union-find connects exactly what the mentions connect. *)
Record claimed (n : nat) (ps : list (nat * AliasKey)) (st : list nat * gmap AliasKey nat) : Prop := {
  cl_len : length st.1 = n;
  cl_ok : dsu_ok st.1;
  cl_claimant : ∀ k c, st.2 !! k = Some c → (c, k) ∈ ps;
  cl_total : ∀ i k, (i, k) ∈ ps → is_Some (st.2 !! k);
  cl_range : ∀ i k, (i, k) ∈ ps → (i < n)%nat;
  cl_same : ∀ i j, (i < n)%nat → (j < n)%nat → same st.1 i j ↔ rtc (shares ps) i j;
}.

Lemma seq_dsu_ok n : dsu_ok (DisjointSet_new n).
Proof.
  intros x Hx. exists 0%nat, x. constructor. unfold DisjointSet_new in *.
  rewrite length_seq in Hx. by apply lookup_seq_lt.
Qed.

Lemma claimed_init n : claimed n [] (DisjointSet_new n, ∅).
Proof.
  split; cbn; [apply length_seq | apply seq_dsu_ok | by intros ?? ?%lookup_empty_Some
    | by intros ?? ?%not_elem_of_nil .. |].
  intros i j Hi Hj. assert (∀ x, (x < n)%nat → root (DisjointSet_new n) x x) as Hx.
  { intros x Hx. exists 0%nat. constructor. by apply lookup_seq_lt. }
  split.
  - intros (r & Hr & Hr'). by rewrite (root_fun _ _ _ _ (Hx i Hi) Hr), (root_fun _ _ _ _ (Hx j Hj) Hr').
  - inversion 1 as [| ? ? ? (k & ?%not_elem_of_nil & _)]; [| done]. subst. eexists. eauto.
Qed.

(** A mention of a new identifier connects nothing. *)
Lemma rtc_shares_fresh ps idx k i j :
  (∀ c, (c, k) ∉ ps) → rtc (shares (ps ++ [(idx, k)])) i j ↔ rtc (shares ps) i j.
Proof.
  intros Hk. split; [| apply rtc_shares_mono].
  induction 1 as [| x y z (k' & Hx & Hy) _ IH]; [done |].
  apply elem_of_app in Hx as [Hx | [= -> ->]%list_elem_of_singleton];
    apply elem_of_app in Hy as [Hy | [=]%list_elem_of_singleton]; subst.
  - eapply rtc_l; [by exists k' | done].
  - by apply Hk in Hx.
  - by apply Hk in Hy.
  - done.
Qed.

(** A mention of a claimed identifier connects the finding to the claimant. *)
Lemma rtc_shares_claimed ps idx c k i j :
  (c, k) ∈ ps →
  rtc (shares (ps ++ [(idx, k)])) i j ↔
  rtc (shares ps) i j ∨ (rtc (shares ps) i c ∧ rtc (shares ps) idx j) ∨
  (rtc (shares ps) i idx ∧ rtc (shares ps) c j).
Proof.
  intros Hc. assert (∀ x, (x, k) ∈ ps → rtc (shares ps) x c) as Hcon.
  { intros x Hx. apply rtc_once. by exists k. }
  assert (rtc (shares (ps ++ [(idx, k)])) c idx) as Hlink.
  { apply rtc_once. exists k. set_solver. }
  split.
  - induction 1 as [x | x y z (k' & Hx & Hy) _ IH]; [by left |].
    apply elem_of_app in Hx as [Hx | [= -> ->]%list_elem_of_singleton];
      apply elem_of_app in Hy as [Hy | [=]%list_elem_of_singleton]; subst; [| | | done].
    + assert (rtc (shares ps) x y) as Hxy by (apply rtc_once; by exists k').
      destruct IH as [? | [[? ?] | [? ?]]]; [left | right; left | right; right]; eauto using rtc_shares_trans.
    + apply Hcon in Hx. destruct IH as [? | [[? ?] | [? ?]]]; eauto using rtc_shares_trans.
    + apply Hcon in Hy. apply rtc_shares_sym in Hy.
      destruct IH as [? | [[? ?] | [? ?]]]; eauto 6 using rtc_shares_trans, rtc_refl.
  - intros [H | [[H1 H2] | [H1 H2]]]; [by apply rtc_shares_mono | |].
    + etrans; [by apply rtc_shares_mono |]. etrans; [done | by apply rtc_shares_mono].
    + etrans; [by apply rtc_shares_mono |]. etrans; [by apply rtc_shares_sym | by apply rtc_shares_mono].
Qed.

Lemma claim_id_spec n ps p idx st id :
  claimed n ps st → (idx < n)%nat →
  ∃ st', claim_id p idx st id = Some st' ∧
    claimed n (ps ++ (if is_blank id then [] else [(idx, alias_key p id)])) st'.
Proof.
  intros Hst Hidx. destruct st as [dsu claims]. unfold claim_id.
  destruct (is_blank id); [exists (dsu, claims); by rewrite app_nil_r |].
  set (k := alias_key p id). destruct Hst as [Hlen Hok Hcl Htot Hran Hsame]; cbn in *.
  assert (∀ i k', (i, k') ∈ ps ++ [(idx, k)] → (i < n)%nat) as Hran'.
  { intros i k' [H | [= -> ->]%list_elem_of_singleton]%elem_of_app; [by eapply Hran | done]. }
  destruct (claims !! k) as [c|] eqn:Hk.
  - pose proof (Hcl _ _ Hk) as Hc. pose proof (Hran _ _ Hc) as Hcn.
    destruct (union_same dsu c idx) as (dsu' & Hu & Hlen' & Hok' & Hsame'); [done | lia | lia |].
    rewrite Hu. cbn. exists (dsu', claims). split; [done |].
    split; cbn; [congruence | done | | | done |].
    + intros k' c' H%Hcl. set_solver.
    + intros i k' [H | [= -> ->]%list_elem_of_singleton]%elem_of_app; [by eapply Htot | by exists c].
    + intros i j Hi Hj. rewrite Hsame', (rtc_shares_claimed _ _ c), !Hsame by lia || done. done.
  - exists (dsu, <[k := idx]> claims). split; [done |].
    assert (∀ c, (c, k) ∉ ps) as Hfresh.
    { intros c [? Hs]%Htot. congruence. }
    split; cbn; [done | done | | | done |].
    + intros k' c' [[<- <-] | [_ H%Hcl]]%lookup_insert_Some; set_solver.
    + intros i k' [H | [= -> ->]%list_elem_of_singleton]%elem_of_app.
      * apply Htot in H as [c Hc]. destruct (decide (k = k')) as [<- |];
          [rewrite lookup_insert_eq | rewrite lookup_insert_ne by done]; by eexists.
      * rewrite lookup_insert_eq. by eexists.
    + intros i j Hi Hj. rewrite rtc_shares_fresh by done. by apply Hsame.
Qed.

Lemma claim_finding_spec n ps item st :
  claimed n ps st → (item.1 < n)%nat →
  ∃ st', claim_finding st item = Some st' ∧ claimed n (ps ++ mentions_of item) st'.
Proof.
  destruct item as [idx f]. unfold claim_finding, mentions_of, finding_keys. cbn [fst snd].
  generalize (finding_ids f) as ids. intros ids. revert ps st.
  induction ids as [| id ids IH]; intros ps st Hst Hidx.
  { exists st. by rewrite app_nil_r. }
  cbn [try_fold]. destruct (claim_id_spec n ps (purl f) idx st id Hst Hidx) as (st1 & -> & H1).
  cbn [mbind option_bind].
  destruct (IH _ _ H1 Hidx) as (st2 & H2 & H3). exists st2. split; [done |].
  rewrite <- app_assoc in H3. rewrite filter_cons.
  destruct (is_blank id); [rewrite decide_False by done | rewrite decide_True by done]; exact H3.
Qed.

Definition mentions (findings : list Finding) : list (nat * AliasKey) :=
  enumerate findings ≫= mentions_of.

(** Two findings report one advisory: a chain of shared identifiers joins them. *)
Definition same_advisory (findings : list Finding) : relation nat := rtc (shares (mentions findings)).

Lemma elem_of_enumerate {A} (l : list A) i x : (i, x) ∈ enumerate l ↔ l !! i = Some x.
Proof.
  unfold enumerate. rewrite list_elem_of_lookup. split.
  - intros (j & Hj). rewrite list_lookup_imap in Hj. destruct (l !! j) eqn:E; naive_solver.
  - intros H. exists i. rewrite list_lookup_imap, H. done.
Qed.

Lemma claims_spec findings :
  ∃ dsu claims,
    try_fold claim_finding (enumerate findings) (DisjointSet_new (length findings), ∅)
      = Some (dsu, claims) ∧ claimed (length findings) (mentions findings) (dsu, claims).
Proof.
  destruct (try_fold_invariant claim_finding
    (λ items st, claimed (length findings) (items ≫= mentions_of) st)
    (enumerate findings) (DisjointSet_new (length findings), ∅)) as ([dsu claims] & H1 & H2).
  - apply claimed_init.
  - intros items [i f] st Hp Hst. rewrite bind_app, bind_singleton.
    apply claim_finding_spec; [done |]. cbn. apply (lookup_lt_Some findings i f), elem_of_enumerate.
    destruct Hp as [k ->]. set_solver.
  - by exists dsu, claims.
Qed.

(** ** Buckets *)

(** The representative [find] answers. *)
Definition rep (p : list nat) (i : nat) : nat :=
  match DisjointSet_find p i with Some (_, r) => r | None => i end.

Lemma rep_root p i : dsu_ok p → (i < length p)%nat → root p i (rep p i).
Proof.
  intros Hok (k & r & Hr)%Hok. unfold rep.
  destruct (find_spec p i r) as (p' & -> & _); by exists k.
Qed.

Definition class_in (p : list nat) (l : list nat) (i : nat) : list nat :=
  filter (λ j, rep p j = rep p i) l.

(** After the indices below [m]: [firsts] are the first members of the groups
    seen, in order. *)
Record bucketed (p : list nat) (m : nat) (firsts : list nat)
    (st : list nat * list nat * gmap nat (list nat)) : Prop := {
  bk_roots : same_roots p st.1.1;
  bk_order : st.1.2 = rep p <$> firsts;
  bk_sorted : StronglySorted lt firsts;
  bk_first : ∀ i, i ∈ firsts → (i < m)%nat ∧ ∀ j, (j < i)%nat → rep p j ≠ rep p i;
  bk_cover : ∀ j, (j < m)%nat → ∃ i, i ∈ firsts ∧ rep p i = rep p j;
  bk_class : ∀ i, i ∈ firsts → st.2 !! rep p i = Some (class_in p (seq 0 m) i);
  bk_only : ∀ r, r ∉ rep p <$> firsts → st.2 !! r = None;
}.

Lemma StronglySorted_snoc (l : list nat) m :
  StronglySorted lt l → (∀ i, i ∈ l → (i < m)%nat) → StronglySorted lt (l ++ [m]).
Proof.
  intros Hl Hm. apply StronglySorted_app. split_and!; [| done | repeat constructor].
  intros i j Hi ->%list_elem_of_singleton. auto.
Qed.

Lemma class_in_snoc p m i :
  class_in p (seq 0 (S m)) i = class_in p (seq 0 m) i ++ (if decide (rep p m = rep p i) then [m] else []).
Proof. unfold class_in. rewrite seq_S, filter_app, filter_cons, filter_nil. cbn. by case_decide. Qed.

Lemma class_in_empty p m i :
  (∀ j, (j < m)%nat → rep p j ≠ rep p i) → class_in p (seq 0 m) i = [].
Proof.
  intros H. apply elem_of_nil_inv. unfold class_in.
  intros j [Hj Hin%elem_of_seq]%list_elem_of_filter. by apply (H j); [lia |].
Qed.

(** One more index: it joins its group, or opens one. *)
Lemma bucket_index_spec p m firsts st :
  dsu_ok p → (m < length p)%nat → bucketed p m firsts st →
  ∃ st' firsts', bucket_index st m = Some st' ∧ bucketed p (S m) firsts' st'.
Proof.
  intros Hok Hm Hb. destruct st as [[dsu order] groups].
  destruct Hb as [Hr Ho Hs Hf Hc Hcl Hon]; cbn in *. subst order. unfold bucket_index.
  destruct (find_spec dsu m (rep p m)) as (dsu' & -> & Hr'); [by apply Hr, rep_root |].
  pose proof (same_roots_trans _ _ _ Hr Hr') as Hr2. cbn.
  destruct (decide (rep p m ∈ rep p <$> firsts)) as [Hin | Hnew].
  - apply list_elem_of_fmap in Hin as (i & Hi & Hif). rewrite Hi, (Hcl i Hif). cbn.
    rewrite (Hcl i Hif). cbn. eexists _, firsts. split; [done |].
    split; cbn [fst snd]; [done | done | done | | | |].
    + intros j [? ?]%Hf. split; [lia | done].
    + intros j Hj. destruct (decide (j = m)) as [-> |]; [by exists i | apply Hc; lia].
    + intros j Hj. rewrite class_in_snoc. case_decide as Hd.
      * rewrite <- Hd, Hi, lookup_insert_eq. f_equal. f_equal. unfold class_in. by rewrite <- Hi, Hd.
      * rewrite lookup_insert_ne, app_nil_r by congruence. auto.
    + intros r Hrn. rewrite lookup_insert_ne; [by apply Hon |].
      intros <-. apply Hrn. apply list_elem_of_fmap. eauto.
  - rewrite (Hon _ Hnew), lookup_insert_eq. cbn. eexists _, (firsts ++ [m]). split; [done |].
    assert (∀ j, (j < m)%nat → rep p j ≠ rep p m) as Hfirst.
    { intros j (i & Hi & E)%Hc E'. apply Hnew, list_elem_of_fmap. exists i. split; [congruence | done]. }
    split; cbn [fst snd]; [done | by rewrite fmap_app | | | | |].
    + apply StronglySorted_snoc; [done |]. intros i Hi. by apply Hf.
    + intros i [[? ?]%Hf | ->%list_elem_of_singleton]%elem_of_app; split; [lia | done | lia | done].
    + intros j Hj. destruct (decide (j = m)) as [-> |]; [exists m; set_solver |].
      destruct (Hc j) as (i & ? & ?); [lia |]. exists i. set_solver.
    + intros i [Hi | ->%list_elem_of_singleton]%elem_of_app; rewrite class_in_snoc.
      * assert (rep p m ≠ rep p i) as Hne.
        { intros E. apply Hnew, list_elem_of_fmap. eauto. }
        rewrite decide_False, !lookup_insert_ne, app_nil_r by done. auto.
      * rewrite decide_True, lookup_insert_eq, class_in_empty by done. done.
    + intros r Hrn. rewrite fmap_app in Hrn.
      rewrite !lookup_insert_ne by (intros <-; apply Hrn; set_solver).
      apply Hon. set_solver.
Qed.

Lemma buckets_spec p :
  dsu_ok p →
  ∃ st firsts, try_fold bucket_index (seq 0 (length p)) (p, [], ∅) = Some st ∧
    bucketed p (length p) firsts st.
Proof.
  intros Hok. destruct (try_fold_invariant bucket_index
    (λ l st, l = seq 0 (length l) ∧ ∃ firsts, bucketed p (length l) firsts st)
    (seq 0 (length p)) (p, [], ∅)) as (st & H1 & _ & firsts & H2).
  - split; [done |]. exists []. split; cbn; [apply same_roots_refl | done | constructor
      | by intros ? ?%not_elem_of_nil | lia | by intros ? ?%not_elem_of_nil | by intros; apply lookup_empty].
  - intros l x st [k Hk] [Hl [firsts Hb]].
    assert (length (seq 0 (length p)) = length p) as Hlen by apply length_seq.
    rewrite Hk, !length_app in Hlen. cbn in Hlen.
    assert (x = length l) as ->.
    { assert (seq 0 (length p) !! length l = Some x) as Hx
        by (rewrite Hk, <- app_assoc; by apply list_lookup_middle).
      apply lookup_seq in Hx. lia. }
    destruct (bucket_index_spec p (length l) firsts st) as (st' & firsts' & H1 & H2); [done | lia | done |].
    exists st'. rewrite length_app. cbn. rewrite Nat.add_comm, seq_S, <- Hl. eauto.
  - rewrite length_seq in H2. eauto.
Qed.

(** ** The order of the members *)

Definition member_cmp (a b : Finding) : comparison :=
  cmp_then (Z.compare (InformationRank_disc (information_rank a))
                      (InformationRank_disc (information_rank b)))
    (cmp_then (f32_key_cmp (score_or_floor a) (score_or_floor b))
       (cmp_then (Z.compare (severity_tier (severity b)) (severity_tier (severity a)))
                 (String.compare (vulnerability_id b) (vulnerability_id a)))).

#[export] Instance member_cmp_lawful : LawfulCmp member_cmp.
Proof.
  apply cmp_then_lawful;
    [apply (cmp_on_lawful (λ f, InformationRank_disc (information_rank f))), _ |].
  apply cmp_then_lawful; [apply (cmp_on_lawful score_or_floor f32_key_cmp), _ |].
  apply cmp_then_lawful.
  - apply (cmp_flip_lawful (λ a b, Z.compare (severity_tier (severity a)) (severity_tier (severity b)))).
    apply (cmp_on_lawful (λ f, severity_tier (severity f))), _.
  - apply (cmp_flip_lawful (λ a b, String.compare (vulnerability_id a) (vulnerability_id b))).
    apply (cmp_on_lawful vulnerability_id), _.
Qed.

Lemma score_or_floor_not_nan f : f32_is_nan (score_or_floor f) = false.
Proof.
  unfold score_or_floor, usable_score. destruct (cvss_score f) as [s|]; [| done].
  by destruct s.
Qed.

Lemma is_better_member_cmp a b : is_better_member a b = is_gt (member_cmp a b).
Proof.
  unfold is_better_member, member_cmp, str_ltb.
  rewrite f32_total_cmp_key by apply score_or_floor_not_nan.
  destruct (Z.compare (InformationRank_disc _) _); [| done | done]. cbn.
  destruct (f32_key_cmp _ _); [| done | done]. cbn.
  rewrite (Z.compare_antisym (severity_tier (severity b))).
  destruct (Z.compare (severity_tier (severity b)) _); [| done | done]. cbn.
  rewrite (String.compare_antisym (vulnerability_id a)).
  by destruct (String.compare (vulnerability_id b) _).
Qed.

Definition not_better (h f : Finding) : Prop := is_better_member h f = false.

Lemma not_better_cmp h f : not_better h f ↔ member_cmp f h ≠ Lt.
Proof.
  unfold not_better. rewrite is_better_member_cmp, (cmp_sym (cmp := member_cmp) f h).
  by destruct (member_cmp f h).
Qed.

Lemma not_better_refl f : not_better f f.
Proof. rewrite not_better_cmp. by rewrite (cmp_refl member_cmp). Qed.

Lemma not_better_trans h g f : not_better h g → not_better g f → not_better h f.
Proof. rewrite !not_better_cmp. intros. by eapply cmp_ge_trans. Qed.

Lemma better_not_better g f : is_better_member g f = true → not_better f g.
Proof.
  rewrite not_better_cmp, is_better_member_cmp. by destruct (member_cmp g f).
Qed.

(** ** Collapsing *)

(** The member of [g] the collapse keeps, and what it becomes. *)
Definition survives (findings : list Finding) (g : list nat) (out : Finding) : Prop :=
  ∃ w f, w ∈ g ∧ findings !! w = Some f ∧
    (∀ j h, j ∈ g → findings !! j = Some h → not_better h f) ∧
    out = if (length g =? 1)%nat then f
          else set_aliases f (union_aliases f (sort_by by_vulnerability_id
                 (omap (λ j, findings !! j) (filter (λ j, j ≠ w) g)))).

(** The slots of [g] still hold the findings. *)
Definition slots_hold (findings : list Finding) (slots : Slots) (g : list nat) : Prop :=
  ∀ j, j ∈ g → ∃ f, findings !! j = Some f ∧ slots !! j = Some (Some f).

Lemma drop_enumerate {A} (x : A) l : drop 1 (enumerate (x :: l)) = imap (λ i y, (S i, y)) l.
Proof. done. Qed.

Lemma snd_imap_pair {A B} (h : nat → B) (l : list A) : (imap (λ i y, (h i, y)) l).*2 = l.
Proof.
  apply list_eq. intros i. rewrite list_lookup_fmap, list_lookup_imap. by destruct (l !! i).
Qed.

Lemma challenge_spec findings slots g w0 :
  slots_hold findings slots (w0 :: g) →
  ∃ wp w f, try_fold (challenge slots (w0 :: g)) (drop 1 (enumerate (w0 :: g))) 0%nat = Some wp ∧
    (w0 :: g) !! wp = Some w ∧ findings !! w = Some f ∧
    ∀ j h, j ∈ w0 :: g → findings !! j = Some h → not_better h f.
Proof.
  intros Hs. rewrite drop_enumerate.
  destruct (try_fold_invariant (challenge slots (w0 :: g))
    (λ l wp, ∃ w f, (w0 :: g) !! wp = Some w ∧ findings !! w = Some f ∧
       ∀ j h, j ∈ w0 :: l.*2 → findings !! j = Some h → not_better h f)
    (imap (λ i y, (S i, y)) g) 0%nat) as (wp & H1 & w & f & H2 & H3 & H4).
  - destruct (Hs w0) as (f & Hf & _); [set_solver |]. exists w0, f. split_and!; [done | done |].
    intros j h ->%list_elem_of_singleton. rewrite Hf. intros [= <-]. apply not_better_refl.
  - intros l [pos idx] wp [k Hk] (w & f & Hw & Hf & Hbest).
    assert ((pos, idx) ∈ imap (λ i y, (S i, y)) g) as (i & Hi)%list_elem_of_lookup
      by (rewrite Hk; set_solver).
    rewrite list_lookup_imap in Hi. destruct (g !! i) as [y|] eqn:Hg; [| done].
    injection Hi as <- ->. cbn [challenge]. rewrite Hw. cbn [mbind option_bind].
    destruct (Hs w) as (f' & Hf' & Hsw); [by eapply list_elem_of_lookup_2 |].
    destruct (Hs idx) as (c & Hc & Hsc); [apply list_elem_of_further; by eapply list_elem_of_lookup_2 |].
    unfold slot_ref. rewrite Hsw, Hsc. cbn. simplify_eq. eexists. split; [done |].
    rewrite fmap_app. cbn. destruct (is_better_member c f) eqn:Hb.
    + exists idx, c. split_and!; [done | done |]. intros j h Hj Hh.
      rewrite app_comm_cons in Hj. apply elem_of_app in Hj as [Hj | ->%list_elem_of_singleton].
      * eapply not_better_trans; [by apply (Hbest j h) | by apply better_not_better].
      * simplify_eq. apply not_better_refl.
    + exists w, f. split_and!; [done | done |]. intros j h Hj Hh.
      rewrite app_comm_cons in Hj. apply elem_of_app in Hj as [Hj | ->%list_elem_of_singleton].
      * by apply (Hbest j h).
      * by simplify_eq.
  - exists wp, w, f. split_and!; [done | done | done |].
    by rewrite snd_imap_pair in H4.
Qed.

(** Taking members empties their slots and no other. *)
Lemma take_members_spec findings slots items acc :
  NoDup items.*2 → slots_hold findings slots items.*2 →
  ∃ slots', try_fold take_member items (slots, acc)
      = Some (slots', acc ++ omap (λ j, findings !! j) items.*2) ∧
    ∀ j, j ∉ items.*2 → slots' !! j = slots !! j.
Proof.
  revert slots acc. induction items as [| [pos idx] items IH]; intros slots acc Hnd Hs.
  { exists slots. by rewrite app_nil_r. }
  cbn [fmap list_fmap snd] in *. apply NoDup_cons in Hnd as [Hidx Hnd].
  destruct (Hs idx) as (f & Hf & Hsf); [set_solver |].
  assert (take_member (slots, acc) (pos, idx) = Some (<[idx := None]> slots, acc ++ [f])) as Ht.
  { unfold take_member, slot_take, slot_ref. cbn [fst snd]. by rewrite Hsf. }
  cbn [try_fold]. rewrite Ht. cbn [mbind option_bind].
  destruct (IH (<[idx := None]> slots) (acc ++ [f])) as (slots' & H1 & H2); [done | |].
  { intros j Hj. destruct (Hs j) as (h & ? & ?); [set_solver |]. exists h. split; [done |].
    rewrite list_lookup_insert_ne; [done |]. by intros ->. }
  exists slots'. split.
  - rewrite H1, <- app_assoc. cbn. by rewrite Hf.
  - intros j Hj. rewrite H2 by set_solver. rewrite list_lookup_insert_ne; [done | set_solver].
Qed.

Lemma filter_enumerate_snd (l : list nat) wp w :
  NoDup l → l !! wp = Some w →
  (filter (λ item, item.1 ≠ wp) (enumerate l)).*2 = filter (λ j, j ≠ w) l.
Proof.
  intros Hnd Hw. unfold enumerate.
  enough (∀ n k, (∀ i, k !! i = l !! (n + i)%nat) →
    (filter (λ item, item.1 ≠ wp) (imap (λ i x, (n + i, x)%nat) k)).*2 = filter (λ j, j ≠ w) k) as H.
  { apply (H 0%nat l). done. }
  intros n k. revert n. induction k as [| x k IH]; intros n Hk; [done |].
  rewrite imap_cons, !filter_cons. pose proof (Hk 0%nat) as Hx. rewrite Nat.add_0_r in Hx. cbn in Hx.
  assert (filter (λ item, item.1 ≠ wp) (imap ((λ i x, (n + i, x)%nat) ∘ S) k)
    = filter (λ item, item.1 ≠ wp) (imap (λ i x, (S n + i, x)%nat) k)) as ->.
  { f_equal. apply imap_ext. intros i y _. cbn. f_equal. lia. }
  assert (∀ i, k !! i = l !! (S n + i)%nat) as Hk'.
  { intros i. replace (S n + i)%nat with (n + S i)%nat by lia. by rewrite <- Hk. }
  cbn [fst]. destruct (decide (x = w)) as [-> | Hne].
  - rewrite (decide_False (P := w ≠ w)) by naive_solver.
    rewrite decide_False; [by apply IH |]. intros Hnp. apply Hnp.
    symmetry in Hx. rewrite Nat.add_0_r. by eapply NoDup_lookup.
  - rewrite (decide_True (P := x ≠ w)) by done. rewrite decide_True.
    + cbn [fmap list_fmap snd]. f_equal. by apply IH.
    + intros <-. rewrite Nat.add_0_r in Hw. congruence.
Qed.

Lemma collapse_one_group_spec findings slots g :
  g ≠ [] → NoDup g → slots_hold findings slots g →
  ∃ slots' f, collapse_one_group slots g = Some (slots', f) ∧ survives findings g f ∧
    ∀ j, j ∉ g → slots' !! j = slots !! j.
Proof.
  intros Hne Hnd Hs. destruct g as [| w0 g]; [done |]. unfold collapse_one_group, survives.
  destruct (length (w0 :: g) =? 1)%nat eqn:Hlen.
  - destruct g; [| done]. destruct (Hs w0) as (f & Hf & Hsf); [set_solver |].
    cbn. unfold slot_take, slot_ref. rewrite Hsf. cbn. eexists _, f. split; [done |]. split.
    + exists w0, f. split_and!; [set_solver | done | | done].
      intros j h ->%list_elem_of_singleton. rewrite Hf. intros [= <-]. apply not_better_refl.
    + intros j Hj. rewrite list_lookup_insert_ne; [done | set_solver].
  - destruct (challenge_spec findings slots g w0 Hs) as (wp & w & f & -> & Hw & Hf & Hbest).
    cbn [mbind option_bind].
    pose proof (list_elem_of_lookup_2 _ _ _ Hw) as Hwg.
    pose proof (filter_enumerate_snd _ _ _ Hnd Hw) as Hothers.
    destruct (take_members_spec findings slots
      (filter (λ item, item.1 ≠ wp) (enumerate (w0 :: g))) []) as (slots' & Ht & Hkeep).
    { rewrite Hothers. by apply NoDup_filter. }
    { rewrite Hothers. intros j [_ Hj]%list_elem_of_filter. by apply Hs. }
    rewrite Ht, Hw, Hothers in *. cbn [mbind option_bind app].
    destruct (Hs w Hwg) as (f' & Hf' & Hsw). simplify_eq.
    unfold slot_take, slot_ref. rewrite Hkeep by (intros [? _]%list_elem_of_filter; done).
    rewrite Hsw. cbn [mbind option_bind]. eexists _, _. split; [done |]. split.
    + exists w, f. by split_and!.
    + intros j Hj. rewrite list_lookup_insert_ne by (by intros ->). apply Hkeep.
      by intros [_ ?]%list_elem_of_filter.
Qed.

(** ** The whole collapse *)

(** [gs] lists the advisories of [findings]: every finding is in the group of
    exactly the findings that report its advisory; members and groups come in
    the order first seen. *)
Record grouping (findings : list Finding) (gs : list (list nat)) : Prop := {
  gr_cover : ∀ i, (i < length findings)%nat → ∃ g, g ∈ gs ∧ i ∈ g;
  gr_class : ∀ g i j, g ∈ gs → i ∈ g → j ∈ g ↔ (j < length findings)%nat ∧ same_advisory findings i j;
  gr_members : ∀ g, g ∈ gs → g ≠ [] ∧ StronglySorted lt g;
  gr_order : StronglySorted (λ g h, ∀ i j, head g = Some i → head h = Some j → (i < j)%nat) gs;
}.

Lemma rep_same p i j :
  dsu_ok p → (i < length p)%nat → (j < length p)%nat → rep p i = rep p j ↔ same p i j.
Proof.
  intros Hok Hi Hj. pose proof (rep_root p i Hok Hi) as Ri. pose proof (rep_root p j Hok Hj) as Rj.
  split; [intros E; exists (rep p j); by rewrite <- E at 1 |].
  intros (r & H1 & H2). by rewrite (root_fun _ _ _ _ Ri H1), (root_fun _ _ _ _ Rj H2).
Qed.

Lemma StronglySorted_seq n m : StronglySorted lt (seq n m).
Proof.
  revert n. induction m as [| m IH]; intros n; constructor; [done |].
  apply Forall_forall. intros x Hx%elem_of_seq. lia.
Qed.

Lemma StronglySorted_filter (P : nat → Prop) `{∀ x, Decision (P x)} (l : list nat) :
  StronglySorted lt l → StronglySorted lt (filter P l).
Proof.
  induction 1 as [| x l Hl IH Hx]; [constructor |]. rewrite filter_cons. case_decide; [| done].
  constructor; [done |]. apply Forall_forall. intros y [_ Hy]%list_elem_of_filter.
  by apply (proj1 (Forall_forall _ _) Hx).
Qed.

Lemma class_in_head p n i :
  (i < n)%nat → (∀ j, (j < i)%nat → rep p j ≠ rep p i) → head (class_in p (seq 0 n) i) = Some i.
Proof.
  intros Hi Hfirst. replace n with (i + S (n - i - 1))%nat by lia.
  unfold class_in. rewrite seq_app, filter_app. fold (class_in p (seq 0 i) i).
  rewrite class_in_empty by done. cbn [seq app plus]. by rewrite filter_cons, decide_True by done.
Qed.

Lemma collapse_roots_spec findings p firsts slots grps out :
  let n := length findings in
  NoDup (rep p <$> firsts) →
  (∀ i, i ∈ firsts → (i < n)%nat ∧ grps !! rep p i = Some (class_in p (seq 0 n) i) ∧
     slots_hold findings slots (class_in p (seq 0 n) i)) →
  ∃ slots' grps' outs,
    try_fold collapse_root (rep p <$> firsts) (slots, grps, out) = Some (slots', grps', out ++ outs) ∧
    Forall2 (survives findings) (class_in p (seq 0 n) <$> firsts) outs.
Proof.
  intros n. revert slots grps out. induction firsts as [| i firsts IH]; intros slots grps out Hnd H.
  { exists slots, grps, []. split; [by rewrite app_nil_r | constructor]. }
  rewrite fmap_cons in Hnd. apply NoDup_cons in Hnd as [Hi Hnd].
  destruct (H i) as (Hin & Hg & Hs); [set_solver |].
  destruct (collapse_one_group_spec findings slots (class_in p (seq 0 n) i))
    as (slots1 & f & Hc & Hsurv & Hkeep); [| by apply NoDup_filter, NoDup_seq | done |].
  { intros Hnil. assert (i ∈ class_in p (seq 0 n) i) as Hii; [| rewrite Hnil in Hii; by apply not_elem_of_nil in Hii].
    apply list_elem_of_filter. split; [done | apply elem_of_seq; lia]. }
  assert (collapse_root (slots, grps, out) (rep p i)
    = Some (slots1, delete (rep p i) grps, out ++ [f])) as Hstep.
  { unfold collapse_root. rewrite Hg. cbn [mbind option_bind]. by rewrite Hc. }
  destruct (IH slots1 (delete (rep p i) grps) (out ++ [f])) as (slots' & grps' & outs & H1 & H2); [done | |].
  { intros j Hj. destruct (H j) as (Hjn & Hgj & Hsj); [set_solver |].
    assert (rep p i ≠ rep p j) as Hij by (intros E; apply Hi; rewrite E; by apply list_elem_of_fmap_2).
    split_and!; [done | by rewrite lookup_delete_ne |].
    intros x Hx. destruct (Hsj x Hx) as (h & ? & ?). exists h. split; [done |]. rewrite Hkeep; [done |].
    intros [E _]%list_elem_of_filter. apply list_elem_of_filter in Hx as [E' _]. congruence. }
  exists slots', grps', (f :: outs). rewrite fmap_cons. cbn [try_fold]. rewrite Hstep. cbn [mbind option_bind].
  split; [by rewrite H1, <- app_assoc | by constructor].
Qed.

Lemma firsts_NoDup p m firsts st : bucketed p m firsts st → NoDup (rep p <$> firsts).
Proof.
  intros [_ _ Hs Hf _ _ _]. induction Hs as [| i l Hl IH Hi]; [constructor |].
  rewrite fmap_cons. apply NoDup_cons. split.
  - intros (j & E & Hj)%list_elem_of_fmap.
    destruct (Hf j) as [_ Hne]; [set_solver |]. apply (Hne i); [| done].
    by apply (proj1 (Forall_forall _ _) Hi).
  - apply IH. intros j Hj. apply Hf. set_solver.
Qed.

Lemma bucketed_grouping findings p claims firsts st :
  claimed (length findings) (mentions findings) (p, claims) →
  bucketed p (length findings) firsts st →
  grouping findings (class_in p (seq 0 (length findings)) <$> firsts).
Proof.
  intros [Hlen Hok _ _ _ Hsame] [_ _ Hs Hf Hc _ _]; cbn in *. set (n := length findings) in *.
  assert (∀ i j, (i < n)%nat → (j < n)%nat → rep p i = rep p j ↔ same_advisory findings i j) as Hrep.
  { intros i j Hi Hj. rewrite rep_same by (done || lia). by apply Hsame. }
  split.
  - intros i Hi. destruct (Hc i Hi) as (j & Hj & E). exists (class_in p (seq 0 n) j).
    split; [by apply list_elem_of_fmap_2 |]. apply list_elem_of_filter. split; [done | apply elem_of_seq; lia].
  - intros g i j (k & -> & Hk)%list_elem_of_fmap [Ei Hi%elem_of_seq]%list_elem_of_filter.
    unfold class_in. rewrite list_elem_of_filter, elem_of_seq, <- Ei. split.
    + intros [E Hj]. split; [lia |]. apply Hrep; [lia | lia | done].
    + intros [Hj H]. split; [symmetry; apply Hrep; [lia | lia | done] | lia].
  - intros g (k & -> & [Hk Hfst]%Hf)%list_elem_of_fmap. split.
    + intros E. pose proof (class_in_head p n k Hk Hfst) as Hh. by rewrite E in Hh.
    + apply StronglySorted_filter, StronglySorted_seq.
  - assert (∀ k, k ∈ firsts → head (class_in p (seq 0 n) k) = Some k) as Hh.
    { intros k [? ?]%Hf. by apply class_in_head. }
    clear Hc. induction Hs as [| i l Hl IH Hi]; [constructor |]. rewrite fmap_cons. constructor.
    + apply IH; intros; [apply Hf | apply Hh]; set_solver.
    + apply Forall_forall. intros g (k & -> & Hk)%list_elem_of_fmap x y.
      rewrite !Hh by set_solver. intros [= <-] [= <-]. by apply (proj1 (Forall_forall _ _) Hi).
Qed.

Lemma slots_hold_all findings g :
  (∀ j, j ∈ g → (j < length findings)%nat) → slots_hold findings (Some <$> findings) g.
Proof.
  intros Hg j [f Hf]%Hg%lookup_lt_is_Some. exists f. split; [done |].
  by rewrite list_lookup_fmap, Hf.
Qed.

Lemma collapse_groups findings :
  (2 ≤ length findings)%nat →
  ∃ gs out, collapse_alias_groups findings = Some out ∧ grouping findings gs ∧
    Forall2 (survives findings) gs out.
Proof.
  intros Hlen. unfold collapse_alias_groups. rewrite (proj2 (Nat.ltb_ge _ _)) by lia.
  destruct (claims_spec findings) as (dsu & claims & Hc & Hcl). rewrite Hc. cbn [mbind option_bind].
  pose proof (cl_len _ _ _ Hcl) as Hl. pose proof (cl_ok _ _ _ Hcl) as Hok. cbn in Hl, Hok.
  destruct (buckets_spec dsu Hok) as ([[dsu' order] groups] & firsts & Hb & Hbk).
  rewrite Hl in Hb, Hbk. rewrite Hb. cbn [mbind option_bind].
  destruct (collapse_roots_spec findings dsu firsts (Some <$> findings) groups [])
    as (slots' & grps' & outs & H1 & H2).
  { by eapply firsts_NoDup. }
  { intros i Hi. split_and!; [by eapply (bk_first _ _ _ _ Hbk) | by apply (bk_class _ _ _ _ Hbk) |].
    apply slots_hold_all. intros j [_ Hj%elem_of_seq]%list_elem_of_filter. lia. }
  pose proof (bk_order _ _ _ _ Hbk) as Ho. cbn in Ho. subst order. rewrite H1. cbn.
  eexists _, outs. split; [done |]. split; [| done]. by eapply bucketed_grouping.
Qed.

(** ** The alias list of a survivor *)

(** What [push_alias] keeps true: [seen] is the winner's identifier and the
    normal forms of the list. *)
Definition aliases_ok (winner : string) (st : list string * list string) : Prop :=
  st.2 = winner :: (to_ascii_lowercase <$> st.1) ∧ len st.1 ≤ MAX_ALIASES.

Lemma push_alias_ok winner st c : aliases_ok winner st → aliases_ok winner (push_alias st c).
Proof.
  destruct st as [out seen]. intros [Hs Hl]; cbn in *. unfold push_alias.
  destruct (_ || _) eqn:Hc; [by split |]. apply orb_false_iff in Hc as [_ Hc%Z.leb_gt].
  destruct (contains _ _); [by split |]. split; cbn.
  - by rewrite Hs, fmap_app.
  - unfold len in *. rewrite length_app. cbn. lia.
Qed.

(** Only appends, at most one entry. *)
Lemma push_alias_grows st c :
  ∃ k, (push_alias st c).1 = st.1 ++ k ∧ (length k ≤ 1)%nat ∧ st.2 `prefix_of` (push_alias st c).2.
Proof.
  destruct st as [out seen]. unfold push_alias.
  destruct (_ || _); [exists []; rewrite app_nil_r; cbn; split_and!; (done || lia) |].
  destruct (contains _ _); [exists []; rewrite app_nil_r; cbn; split_and!; (done || lia) |].
  exists [trim c]. cbn. split_and!; [done | lia | by exists [to_ascii_lowercase (trim c)]].
Qed.

Lemma push_alias_records st c :
  is_blank c = false → len st.1 < MAX_ALIASES →
  to_ascii_lowercase (trim c) ∈ (push_alias st c).2.
Proof.
  destruct st as [out seen]. unfold is_blank, push_alias. cbn [fst]. intros -> Hl.
  rewrite (proj2 (Z.leb_gt _ _)) by done. cbn [orb]. unfold contains.
  case_bool_decide; [done | cbn; set_solver].
Qed.

Lemma foldl_push_ok winner cs st : aliases_ok winner st → aliases_ok winner (foldl push_alias st cs).
Proof. revert st. induction cs as [| c cs IH]; intros st H; [done |]. by apply IH, push_alias_ok. Qed.

Lemma foldl_push_grows cs st :
  (length (foldl push_alias st cs).1 ≤ length st.1 + length cs)%nat ∧
  st.2 `prefix_of` (foldl push_alias st cs).2.
Proof.
  revert st. induction cs as [| c cs IH]; intros st; [split; [cbn; lia | done] |].
  cbn [foldl]. destruct (push_alias_grows st c) as (k & Hk & Hlen & Hp).
  destruct (IH (push_alias st c)) as [H1 H2]. rewrite Hk, length_app in H1. split; [cbn; lia |].
  by etrans.
Qed.

(** While the cap is not reached, every candidate is recorded. *)
Lemma foldl_push_records cs st c :
  len st.1 + len cs ≤ MAX_ALIASES → c ∈ cs → is_blank c = false →
  to_ascii_lowercase (trim c) ∈ (foldl push_alias st cs).2.
Proof.
  revert st. induction cs as [| d cs IH]; intros st Hl Hc Hb; [by apply not_elem_of_nil in Hc |].
  cbn [foldl]. unfold len in *. cbn [length] in Hl. apply elem_of_cons in Hc as [<- | Hc].
  - destruct (foldl_push_grows cs (push_alias st c)) as [_ [k ->]].
    apply elem_of_app. left. apply push_alias_records; [done | unfold len in *; cbn in *; lia].
  - apply IH; [| done | done]. destruct (push_alias_grows st d) as (k & -> & ? & _).
    unfold len in *. rewrite length_app. lia.
Qed.

Lemma foldl_map_push {A} (g : A → string) l st :
  foldl (λ st o, push_alias st (g o)) st l = foldl push_alias st (g <$> l).
Proof. revert st. induction l as [| x l IH]; intros st; [done |]. apply IH. Qed.

Lemma foldl_bind_push {A} (g : A → list string) l st :
  foldl (λ st o, foldl push_alias st (g o)) st l = foldl push_alias st (l ≫= g).
Proof.
  revert st. induction l as [| x l IH]; intros st; [done |]. cbn. rewrite IH. by rewrite foldl_app.
Qed.

(** The union is one run of [push_alias], primary identifiers first. *)
Lemma union_aliases_run w others :
  union_aliases w others =
  (foldl push_alias ([], [to_ascii_lowercase (trim (vulnerability_id w))])
     ((vulnerability_id <$> others) ++ aliases w ++ (others ≫= aliases))).1.
Proof.
  unfold union_aliases.
  by rewrite (foldl_map_push vulnerability_id), foldl_bind_push, !foldl_app.
Qed.

Lemma union_aliases_keeps w others o :
  o ∈ others → is_blank (vulnerability_id o) = false → len others ≤ MAX_ALIASES →
  to_ascii_lowercase (trim (vulnerability_id o)) = to_ascii_lowercase (trim (vulnerability_id w)) ∨
  ∃ a, a ∈ union_aliases w others ∧ to_ascii_lowercase a = to_ascii_lowercase (trim (vulnerability_id o)).
Proof.
  intros Ho Hb Hl. rewrite union_aliases_run, foldl_app.
  set (st0 := ([], [to_ascii_lowercase (trim (vulnerability_id w))])).
  set (st1 := foldl push_alias st0 (vulnerability_id <$> others)).
  assert (to_ascii_lowercase (trim (vulnerability_id o)) ∈ st1.2) as Hin.
  { apply foldl_push_records; [unfold len in *; rewrite length_fmap; cbn; lia | by apply list_elem_of_fmap_2 | done]. }
  destruct (foldl_push_grows (aliases w ++ (others ≫= aliases)) st1) as [_ [k Hk]].
  assert (aliases_ok (to_ascii_lowercase (trim (vulnerability_id w)))
    (foldl push_alias st1 (aliases w ++ (others ≫= aliases)))) as [Hs _].
  { apply foldl_push_ok, foldl_push_ok. split; [done | by vm_compute]. }
  assert (to_ascii_lowercase (trim (vulnerability_id o)) ∈
    (foldl push_alias st1 (aliases w ++ (others ≫= aliases))).2) as Hin'.
  { rewrite Hk. apply elem_of_app. by left. }
  rewrite Hs in Hin'. apply elem_of_cons in Hin' as [? | (a & -> & Ha)%list_elem_of_fmap]; [by left |].
  right. by exists a.
Qed.

Lemma union_aliases_capped w others : len (union_aliases w others) ≤ MAX_ALIASES.
Proof.
  rewrite union_aliases_run.
  eapply (foldl_push_ok (to_ascii_lowercase (trim (vulnerability_id w)))).
  split; [done | by vm_compute].
Qed.

(** ** What the collapse promises *)

Lemma grouping_single f : grouping [f] [[0%nat]].
Proof.
  split.
  - intros i Hi. exists [0%nat]. cbn in Hi. assert (i = 0%nat) as -> by lia. set_solver.
  - intros g i j ->%list_elem_of_singleton ->%list_elem_of_singleton. cbn.
    rewrite list_elem_of_singleton. split; [intros ->; split; [lia | apply rtc_refl] | lia].
  - intros g ->%list_elem_of_singleton. split; [done | repeat constructor].
  - repeat constructor.
Qed.

Lemma collapse_total findings :
  ∃ gs out, collapse_alias_groups findings = Some out ∧ grouping findings gs ∧
    Forall2 (survives findings) gs out.
Proof.
  destruct (decide (2 ≤ length findings)%nat) as [H | H]; [by apply collapse_groups |].
  destruct findings as [| f [| g findings]]; [| | cbn in H; lia].
  - exists [], []. split_and!; [done | | constructor].
    split; [cbn; lia | by intros ??? ?%not_elem_of_nil | by intros ? ?%not_elem_of_nil | constructor].
  - exists [[0%nat]], [f]. split_and!; [done | apply grouping_single |].
    constructor; [| constructor]. exists 0%nat, f. split_and!; [set_solver | done | | done].
    intros j h ->%list_elem_of_singleton [= <-]. apply not_better_refl.
Qed.

Lemma elem_of_mentions findings i k :
  (i, k) ∈ mentions findings ↔ ∃ f, findings !! i = Some f ∧ k ∈ finding_keys f.
Proof.
  unfold mentions. rewrite list_elem_of_bind. split.
  - intros ([j f] & (k' & [= <- <-] & Hk)%list_elem_of_fmap & Hin%elem_of_enumerate). by exists f.
  - intros (f & Hf & Hk). exists (i, f). split; [by apply list_elem_of_fmap_2 | by apply elem_of_enumerate].
Qed.

(** One advisory is about one package. *)
Lemma same_advisory_purl findings i j f h :
  same_advisory findings i j → findings !! i = Some f → findings !! j = Some h → purl f = purl h.
Proof.
  intros H. revert f. induction H as [| i k j (key & Hi & Hk) _ IH]; intros f Hf Hh; [congruence |].
  apply elem_of_mentions in Hi as (f' & Hf' & Hkey), Hk as (g & Hg & Hkey'). simplify_eq.
  apply list_elem_of_fmap in Hkey as (? & -> & _), Hkey' as (? & [= E _] & _).
  rewrite E. by apply IH.
Qed.

Lemma Forall2_elem_l {A B} (R : A → B → Prop) l k x :
  Forall2 R l k → x ∈ l → ∃ y, y ∈ k ∧ R x y.
Proof.
  intros H [i Hi]%list_elem_of_lookup. destruct (Forall2_lookup_l _ _ _ _ _ H Hi) as (y & Hy & HR).
  exists y. split; [by eapply list_elem_of_lookup_2 | done].
Qed.

Lemma f32_key_le x y :
  f32_is_finite x = true → f32_is_finite y = true → f32_key_cmp y x ≠ Lt → f32_le x y = true.
Proof.
  intros Hx Hy Hc. rewrite (cmp_sym (cmp := f32_key_cmp) x y), <- f32_total_cmp_key in Hc
    by (by destruct x, y).
  unfold f32_le, SpecFloat.SFleb. destruct x as [[]|[]| |[] m e], y as [[]|[]| |[] m' e']; try done;
    cbn [f32_total_cmp SpecFloat.SFcompare] in Hc |- *; destruct (e ?= e') eqn:?; try done;
    by destruct (Pos.compare_cont Eq m m').
Qed.

(** A reading that is not better has no higher score. *)
Lemma not_better_score h f s :
  not_better h f → usable_score h = Some s →
  ∃ s', usable_score f = Some s' ∧ f32_le s s' = true.
Proof.
  rewrite not_better_cmp. unfold member_cmp, score_or_floor, information_rank.
  intros Hc Hs. rewrite Hs in Hc. cbn [is_some InformationRank_disc] in Hc.
  assert (∀ g t, usable_score g = Some t → f32_is_finite t = true) as Hfin.
  { intros g t. unfold usable_score. destruct (cvss_score g) as [u|]; [| done].
    destruct (f32_is_finite u) eqn:E; [| done]. by intros [= <-]. }
  destruct (usable_score f) as [s'|] eqn:Hf.
  - exists s'. split; [done |]. cbn [is_some InformationRank_disc cmp_then Z.compare] in Hc.
    apply f32_key_le; [by eapply Hfin | by eapply Hfin |].
    by destruct (f32_key_cmp s' s).
  - exfalso. apply Hc. cbn [is_some]. by destruct (is_informational f), (severity_basis f).
Qed.

(** C39. The collapse is the grouping by advisory: it always returns (no index
    panic, no missing slot, and path halving terminates), with one finding per
    connected component of the "share a package and an identifier" relation, in
    first-seen order, each the member no other member is better informed than,
    and a finding without aliased sibling untouched. *)
Theorem collapse_is_the_advisory_grouping findings :
  ∃ gs out, collapse_alias_groups findings = Some out ∧ grouping findings gs ∧
    Forall2 (survives findings) gs out.
Proof. apply collapse_total. Qed.

(** The other members of a group are one fewer than the group. *)
Lemma others_length (findings : list Finding) g w :
  w ∈ g → NoDup g →
  (length (omap (λ j, findings !! j) (filter (λ j, j ≠ w) g)) ≤ length g - 1)%nat.
Proof.
  intros Hw Hnd. etrans.
  { assert (∀ l, length (omap (λ j, findings !! j) l) ≤ length l)%nat as H; [| apply H].
    intros l. induction l as [| x l IH]; cbn; [lia |]. destruct (findings !! x); cbn; lia. }
  apply list_elem_of_lookup_1 in Hw as [i Hi].
  assert (S (length (filter (λ j, j ≠ w) g)) ≤ length g)%nat; [| lia].
  assert (NoDup (w :: filter (λ j, j ≠ w) g)) as Hnd'.
  { apply NoDup_cons. split; [by intros [? _]%list_elem_of_filter | by apply NoDup_filter]. }
  apply (NoDup_incl_length (proj1 (NoDup_ListNoDup _) Hnd')).
  intros x Hx%list_elem_of_In. apply list_elem_of_In.
  apply elem_of_cons in Hx as [-> | [_ ?]%list_elem_of_filter]; [by eapply list_elem_of_lookup_2 | done].
Qed.

Lemma eq_ignore_case_lower c s t :
  eq_ignore_ascii_case c s = true → to_ascii_lowercase t = to_ascii_lowercase s →
  eq_ignore_ascii_case c t = true.
Proof. rewrite !eq_ignore_ascii_case_spec. congruence. Qed.

Lemma StronglySorted_lt_NoDup (l : list nat) : StronglySorted lt l → NoDup l.
Proof.
  induction 1 as [| x l Hl IH Hx]; constructor; [| done].
  intros Hin. apply (proj1 (Forall_forall _ _) Hx) in Hin. lia.
Qed.

(** The exclusion of a member's identifier matches what the member became. *)
Lemma survives_cve_matches findings g out i f ex :
  survives findings g out → NoDup g → len g ≤ MAX_ALIASES + 1 → i ∈ g →
  findings !! i = Some f → is_blank (vulnerability_id f) = false →
  Forall (λ h, trim (vulnerability_id h) = vulnerability_id h) findings →
  eq_ignore_ascii_case (cve_id ex) (vulnerability_id f) = true → cve_matches ex out = true.
Proof.
  intros (w & fw & Hw & Hfw & _ & Hout) Hnd Hlen Hi Hf Hb Htrim Hex.
  assert (∀ j h, findings !! j = Some h → trim (vulnerability_id h) = vulnerability_id h) as Ht.
  { intros j h Hj. by eapply (proj1 (Forall_lookup _ _) Htrim). }
  unfold cve_matches. destruct (decide (i = w)) as [<- | Hiw].
  { assert (vulnerability_id out = vulnerability_id f) as ->; [| by rewrite Hex].
    assert (fw = f) as -> by congruence. rewrite Hout. by destruct (length g =? 1)%nat. }
  destruct (length g =? 1)%nat eqn:Hl1.
  { apply Nat.eqb_eq in Hl1. destruct g as [| x [| ??]]; [done | | done].
    apply list_elem_of_singleton in Hi as ->, Hw as ->. done. }
  subst out. cbn [vulnerability_id aliases set_aliases].
  set (others := sort_by by_vulnerability_id _).
  assert (f ∈ others) as Hfo.
  { unfold others. rewrite sort_by_Permutation. apply list_elem_of_omap. exists i.
    split; [by apply list_elem_of_filter | done]. }
  assert (len others ≤ MAX_ALIASES) as Hlo.
  { unfold others. unfold len. rewrite sort_by_Permutation.
    pose proof (others_length findings g w Hw Hnd). unfold len, MAX_ALIASES in *. lia. }
  destruct (union_aliases_keeps fw others f Hfo Hb Hlo) as [E | (a & Ha & E)];
    rewrite (Ht i f Hf) in E.
  - rewrite (Ht w fw Hfw) in E. by rewrite (eq_ignore_case_lower _ _ _ Hex (eq_sym E)).
  - destruct (eq_ignore_ascii_case _ (vulnerability_id fw)); [done |].
    apply existsb_True. exists a. split; [done | by eapply eq_ignore_case_lower].
Qed.

(** Collapsing loses neither an exclusion nor a score.  For every finding of
    an advisory with at most 17 records, the result has a finding of the same
    package that every exclusion of the finding's own identifier still clears,
    that is no worse informed, and whose score is at least the finding's, if it
    had one. *)
Theorem collapse_preserves_exclusions_and_scores findings i f :
  findings !! i = Some f → is_blank (vulnerability_id f) = false →
  Forall (λ h, trim (vulnerability_id h) = vulnerability_id h) findings →
  (∀ l, NoDup l → (∀ j, j ∈ l → (j < length findings)%nat ∧ same_advisory findings i j) →
     len l ≤ MAX_ALIASES + 1) →
  ∃ out f', collapse_alias_groups findings = Some out ∧ f' ∈ out ∧ purl f' = purl f ∧
    not_better f f' ∧
    (∀ s, usable_score f = Some s → ∃ s', usable_score f' = Some s' ∧ f32_le s s' = true) ∧
    ∀ ex, eq_ignore_ascii_case (cve_id ex) (vulnerability_id f) = true → cve_matches ex f' = true.
Proof.
  intros Hf Hb Htrim Hsize. destruct (collapse_total findings) as (gs & out & Hc & Hgr & Hsurv).
  destruct (gr_cover _ _ Hgr i) as (g & Hg & Hi); [by eapply lookup_lt_Some |].
  destruct (gr_members _ _ Hgr g Hg) as [_ Hnd%StronglySorted_lt_NoDup].
  destruct (Forall2_elem_l _ _ _ _ Hsurv Hg) as (f' & Hf' & Hs).
  assert (len g ≤ MAX_ALIASES + 1) as Hlen.
  { apply Hsize; [done |]. intros j Hj. by apply (gr_class _ _ Hgr g). }
  pose proof Hs as (w & fw & Hw & Hfw & Hbest & Hout).
  assert (purl f' = purl fw ∧ (∀ h, not_better h fw → not_better h f')) as [Hp Hnb].
  { rewrite Hout. by destruct (length g =? 1)%nat. }
  exists out, f'. split_and!; [done | done | | | |].
  - rewrite Hp. symmetry. apply (same_advisory_purl findings i w); [| done | done].
    by apply (gr_class _ _ Hgr g i w).
  - by apply Hnb, (Hbest i).
  - intros s. apply not_better_score. by apply Hnb, (Hbest i).
  - intros ex Hex. by apply (survives_cve_matches findings g f' i f).
Qed.

(** ** A concrete advisory *)


Module SampleAdvisory.
(** A RustSec record with a score and its bare GHSA mirror, which names it. *)
Definition record (id : string) (score : option f32) (names : list string) : Finding :=
  {| purl := "pkg:cargo/time"; vulnerability_id := id; severity := Critical; cvss_score := score;
     title := ""; fixed_versions := []; source_scanner := "osv"; references := [];
     aliases := names; informational_class := None; severity_basis := Unassessed;
     component_relation := Subject; statement := FS_Bytes; advisory_published_at := None |}.

Definition mirror : Finding := record "GHSA-wcg3" None ["RUSTSEC-2020"%string].
Definition scored : Finding := record "rustsec-2020" (Some f32_ten) [].
Definition other : Finding := record "CVE-2" None [].
Definition findings : list Finding := [mirror; other; scored].

Lemma collapsed :
  collapse_alias_groups findings
  = Some [set_aliases scored ["GHSA-wcg3"]%string; other].
Proof. vm_compute. reflexivity. Qed.
End SampleAdvisory.

(** Two records of one identifier that differ only outside the order's
    components tie, and the first contributed wins. *)
Lemma tie_keeps_the_first :
  let a := SampleAdvisory.other in
  collapse_alias_groups [a; {| purl := purl a; vulnerability_id := "CVE-2"; severity := Critical;
     cvss_score := None; title := "second"; fixed_versions := ["1.2"%string];
     source_scanner := "osv"; references := []; aliases := []; informational_class := None;
     severity_basis := Unassessed; component_relation := Subject; statement := FS_Bytes;
     advisory_published_at := None |}] = Some [a].
Proof. vm_compute. reflexivity. Qed.

Lemma collapse_preserves_exclusions_and_scores_witness :
  ∃ out f', collapse_alias_groups SampleAdvisory.findings = Some out ∧ f' ∈ out ∧
    purl f' = "pkg:cargo/time"%string ∧ not_better SampleAdvisory.mirror f' ∧
    (∀ s, usable_score SampleAdvisory.mirror = Some s →
       ∃ s', usable_score f' = Some s' ∧ f32_le s s' = true) ∧
    ∀ ex, eq_ignore_ascii_case (cve_id ex) "GHSA-wcg3" = true → cve_matches ex f' = true.
Proof.
  apply (collapse_preserves_exclusions_and_scores SampleAdvisory.findings 0 SampleAdvisory.mirror).
  - reflexivity.
  - vm_compute. reflexivity.
  - repeat constructor.
  - intros l Hnd Hl. transitivity (len (seq 0 3)); [| by vm_compute]. apply Nat2Z.inj_le.
    apply NoDup_incl_length; [by apply NoDup_ListNoDup |].
    intros j [Hj _]%list_elem_of_In%Hl. apply list_elem_of_In, elem_of_seq. cbn in Hj. lia.
Defined.
