(* ===== verification/ScanPolicyFold.v ===== *)
(** The scan-policy fold (crates/hort-domain/src/entities/scan_policy_fold.rs):
    the JSON form of each policy field, the events a change is recorded as, and
    the projection derived back from a policy stream.

    A [&mut] receiver is threaded with [mut], as in [Artifact].  The JSON forms
    serde derives for four field types are a class with the round-trip law. *)

From coqutil Require Import Datatypes.RecordSetters.
From S2P Require Import Prelude.
From S2P Require Import RustStd.
From S2P Require Import Json.
From S2P Require Import Types.
From S2P Require Import Events.
Import DoubleBraceUpdate.

(** ** Field order *)

Definition next_policy_field (f : PolicyField) : option PolicyField :=
  match f with
  | PF_Name => Some PF_Scope
  | PF_Scope => Some PF_SeverityThreshold
  | PF_SeverityThreshold => Some PF_QuarantineDuration
  | PF_QuarantineDuration => Some PF_RequireApproval
  | PF_RequireApproval => Some PF_ProvenanceMode
  | PF_ProvenanceMode => Some PF_ProvenanceBackends
  | PF_ProvenanceBackends => Some PF_ProvenanceIdentities
  | PF_ProvenanceIdentities => Some PF_MaxArtifactAge
  | PF_MaxArtifactAge => Some PF_LicensePolicy
  | PF_LicensePolicy => Some PF_ScanBackends
  | PF_ScanBackends => Some PF_RescanIntervalHours
  | PF_RescanIntervalHours => Some PF_NegligibleAction
  | PF_NegligibleAction => Some PF_Enforcement
  | PF_Enforcement => Some PF_CompositeVerdictMode
  | PF_CompositeVerdictMode => None
  end.

Definition POLICY_FIELD_COUNT : nat := 15.

(** [iter::successors]; one unit of fuel per item. *)
Fixpoint successors {A} (fuel : nat) (next : A → option A) (x : option A) : list A :=
  match fuel, x with
  | S fuel', Some a => a :: successors fuel' next (next a)
  | _, _ => []
  end.

Definition policy_fields : list PolicyField :=
  successors POLICY_FIELD_COUNT next_policy_field (Some PF_Name).

(** The fuel runs out exactly where the chain does. *)
Lemma policy_fields_all f : f ∈ policy_fields.
Proof. apply list_elem_of_In. destruct f; vm_compute; tauto. Qed.

Lemma policy_fields_NoDup : NoDup policy_fields.
Proof. apply (bool_decide_unpack _). vm_compute. done. Qed.

Definition snapshot_key (f : PolicyField) : string :=
  match f with
  | PF_Name => "name"
  | PF_Scope => "scope"
  | PF_SeverityThreshold => "severity_threshold"
  | PF_QuarantineDuration => "quarantine_duration_secs"
  | PF_RequireApproval => "require_approval"
  | PF_ProvenanceMode => "provenance_mode"
  | PF_ProvenanceBackends => "provenance_backends"
  | PF_ProvenanceIdentities => "provenance_identities"
  | PF_MaxArtifactAge => "max_artifact_age_secs"
  | PF_LicensePolicy => "license_policy"
  | PF_ScanBackends => "scan_backends"
  | PF_RescanIntervalHours => "rescan_interval_hours"
  | PF_NegligibleAction => "negligible_action"
  | PF_Enforcement => "enforcement"
  | PF_CompositeVerdictMode => "composite_verdict_mode"
  end.

(** [{:?}] of the field. *)
Definition PolicyField_debug (f : PolicyField) : string :=
  match f with
  | PF_Name => "Name"
  | PF_Scope => "Scope"
  | PF_SeverityThreshold => "SeverityThreshold"
  | PF_QuarantineDuration => "QuarantineDuration"
  | PF_RequireApproval => "RequireApproval"
  | PF_ProvenanceMode => "ProvenanceMode"
  | PF_ProvenanceBackends => "ProvenanceBackends"
  | PF_ProvenanceIdentities => "ProvenanceIdentities"
  | PF_MaxArtifactAge => "MaxArtifactAge"
  | PF_LicensePolicy => "LicensePolicy"
  | PF_ScanBackends => "ScanBackends"
  | PF_RescanIntervalHours => "RescanIntervalHours"
  | PF_NegligibleAction => "NegligibleAction"
  | PF_Enforcement => "Enforcement"
  | PF_CompositeVerdictMode => "CompositeVerdictMode"
  end.

Lemma snapshot_key_inj : Inj (=) (=) snapshot_key.
Proof. intros f g. by destruct f, g. Qed.

(** ** Encoding and decoding *)

(** [serde_json::to_value] and [from_value] of a type with derived forms. *)
Class Serde (A : Type) : Type := {
  to_value : A → Value;
  from_value : Value → result string A;
  from_to_value a : from_value (to_value a) = Ok a;
}.

(** The field types whose JSON serde derives. *)
Class PolicySerde : Type := {
  #[global] serde_scope :: Serde PolicyScope;
  #[global] serde_severity :: Serde SeverityThreshold;
  #[global] serde_strings :: Serde (list string);
  #[global] serde_identities :: Serde (list SignerIdentityPattern);
}.

Definition i32_MIN : Z := - 2 ^ 31.
Definition i32_MAX : Z := 2 ^ 31 - 1.

Section codec.
Context `{SerdeJson, PolicySerde}.

Definition policy_field_value (policy : ScanPolicyProjection) (field : PolicyField) : Value :=
  match field with
  | PF_Name => VString (p_name policy)
  | PF_Scope => to_value (p_scope policy)
  | PF_SeverityThreshold => to_value (severity_threshold policy)
  | PF_QuarantineDuration => value_of_i64 (quarantine_duration_secs policy)
  | PF_RequireApproval => VBool (require_approval policy)
  | PF_ProvenanceMode => VString (display (provenance_mode policy))
  | PF_ProvenanceBackends => to_value (provenance_backends policy)
  | PF_ProvenanceIdentities => to_value (provenance_identities policy)
  | PF_MaxArtifactAge =>
      match max_artifact_age_secs policy with Some secs => value_of_i64 secs | None => VNull end
  | PF_LicensePolicy => license_policy policy
  | PF_ScanBackends => to_value (scan_backends policy)
  | PF_RescanIntervalHours => value_of_i64 (rescan_interval_hours policy)
  | PF_NegligibleAction => VString (display (negligible_action policy))
  | PF_Enforcement => VString (display (enforcement policy))
  | PF_CompositeVerdictMode => VString (display (composite_verdict_mode policy))
  end.

Definition decode_error (field : PolicyField) (value : Value) (expected : string) : DomainError :=
  Validation [Lit "policy field "; ArgStr (PolicyField_debug field); Lit " expects "; Lit expected;
              Lit ", got "; ArgStr (json_to_string value)].

Definition decode_string (field : PolicyField) (value : Value) : DomainResult string :=
  ok_or (decode_error field value "a JSON string") (as_str value).

Definition decode_i64 (field : PolicyField) (value : Value) : DomainResult Z :=
  ok_or (decode_error field value "a JSON integer") (as_i64 value).

Definition decode_serde {T} `{!Serde T} (field : PolicyField) (value : Value) : DomainResult T :=
  map_err (λ e, Validation [Lit "policy field "; ArgStr (PolicyField_debug field);
                            Lit " does not decode ("; ArgStr e; Lit "): ";
                            ArgStr (json_to_string value)])
    (from_value value).

Definition decode_wire {T} (from_str : string → DomainResult T) (field : PolicyField)
    (value : Value) : DomainResult T :=
  s ← decode_string field value; from_str s.

(** [i32::try_from]. *)
Definition i32_try_from (n : Z) : option Z :=
  if (i32_MIN <=? n) && (n <=? i32_MAX) then Some n else None.

Definition set_policy_field (field : PolicyField) (value : Value)
    : mut ScanPolicyProjection DomainError unit :=
  match field with
  | PF_Name => v ← lift (decode_string field value); modify (λ p, p {{ p_name := v }})
  | PF_Scope => v ← lift (decode_serde field value); modify (λ p, p {{ p_scope := v }})
  | PF_SeverityThreshold =>
      v ← lift (decode_serde field value); modify (λ p, p {{ severity_threshold := v }})
  | PF_QuarantineDuration =>
      v ← lift (decode_i64 field value); modify (λ p, p {{ quarantine_duration_secs := v }})
  | PF_RequireApproval =>
      v ← lift (ok_or (decode_error field value "a JSON boolean") (as_bool value));
      modify (λ p, p {{ require_approval := v }})
  | PF_ProvenanceMode =>
      v ← lift (decode_wire ProvenanceMode_from_str field value);
      modify (λ p, p {{ provenance_mode := v }})
  | PF_ProvenanceBackends =>
      v ← lift (decode_serde field value); modify (λ p, p {{ provenance_backends := v }})
  | PF_ProvenanceIdentities =>
      v ← lift (decode_serde field value); modify (λ p, p {{ provenance_identities := v }})
  | PF_MaxArtifactAge =>
      v ← lift (if is_null value then Ok None else Some <$> decode_i64 field value);
      modify (λ p, p {{ max_artifact_age_secs := v }})
  | PF_LicensePolicy => modify (λ p, p {{ license_policy := value }})
  | PF_ScanBackends =>
      v ← lift (decode_serde field value); modify (λ p, p {{ scan_backends := v }})
  | PF_RescanIntervalHours =>
      hours ← lift (decode_i64 field value);
      v ← lift (ok_or (decode_error field value "a JSON integer in i32 range") (i32_try_from hours));
      modify (λ p, p {{ rescan_interval_hours := v }})
  | PF_NegligibleAction =>
      v ← lift (decode_wire NegligibleAction_from_str field value);
      modify (λ p, p {{ negligible_action := v }})
  | PF_Enforcement =>
      v ← lift (decode_wire ScanEnforcement_from_str field value);
      modify (λ p, p {{ enforcement := v }})
  | PF_CompositeVerdictMode =>
      v ← lift (decode_wire CompositeVerdictMode_from_str field value);
      modify (λ p, p {{ composite_verdict_mode := v }})
  end.

Definition apply_policy_updated (update : PolicyUpdated)
    : mut ScanPolicyProjection DomainError unit :=
  set_policy_field (field update) (new_value update).

Definition diff_field (id : Uuid) (current desired : ScanPolicyProjection) (f : PolicyField)
    : option PolicyUpdated :=
  let previous_value := policy_field_value current f in
  let new_value := policy_field_value desired f in
  if bool_decide (previous_value ≠ new_value) then
    Some {| pu_policy_id := id; field := f; previous_value := previous_value;
            new_value := new_value |}
  else None.

Definition diff_policy_fields (id : Uuid) (current desired : ScanPolicyProjection)
    : list PolicyUpdated :=
  omap (diff_field id current desired) policy_fields.

Definition policy_config_snapshot (policy : ScanPolicyProjection) : Value :=
  VObject (map_collect ((λ f, (snapshot_key f, policy_field_value policy f)) <$> policy_fields)).

(** ** Replay *)

Definition blank_policy (id : Uuid) (created_at : DateTime) : ScanPolicyProjection :=
  {| policy_id := id; p_name := ""; p_scope := PS_Global; severity_threshold := Critical;
     quarantine_duration_secs := 0; require_approval := false; provenance_mode := PM_Off;
     provenance_backends := []; provenance_identities := []; max_artifact_age_secs := None;
     license_policy := VNull; archived := false; scan_backends := []; rescan_interval_hours := 0;
     negligible_action := NA_Ignore; enforcement := SE_Reject;
     composite_verdict_mode := CV_Observed; stream_version := 0;
     p_created_at := created_at; p_updated_at := created_at |}.

Definition snapshot_get (snapshot : Value) (key : string) : option Value :=
  m ← as_object snapshot; map_get key m.

Definition replay_field (created : PolicyCreated) (f : PolicyField)
    : mut ScanPolicyProjection DomainError unit :=
  value ← lift (ok_or
    (Validation [Lit "PolicyCreated.config_snapshot for policy "; ArgUuid (pc_policy_id created);
                 Lit " has no '"; ArgStr (snapshot_key f);
                 Lit "' entry, so the stream cannot state the policy's ";
                 ArgStr (PolicyField_debug f);
                 Lit " — refusing to derive a projection that would invent one"])
    (snapshot_get (config_snapshot created) (snapshot_key f)));
  set_policy_field f value.

(** A [for] loop whose body may return early. *)
Fixpoint for_each {S E A} (body : A → mut S E unit) (l : list A) : mut S E unit :=
  match l with
  | [] => mret ()
  | x :: l' => _ ← body x; for_each body l'
  end.

Definition replay_policy_created (created : PolicyCreated) (created_at : DateTime)
    : DomainResult ScanPolicyProjection :=
  let '(policy, r) :=
    for_each (replay_field created) policy_fields (blank_policy (pc_policy_id created) created_at) in
  _ ← r;
  if bool_decide (p_name policy ≠ pc_name created) then
    Err (Invariant [Lit "PolicyCreated for policy "; ArgUuid (pc_policy_id created);
                    Lit " disagrees with its own config_snapshot about the policy name ('";
                    ArgStr (pc_name created); Lit "' vs '"; ArgStr (p_name policy); Lit "')"])
  else if bool_decide (p_scope policy ≠ pc_scope created) then
    Err (Invariant [Lit "PolicyCreated for policy "; ArgUuid (pc_policy_id created);
                    Lit " disagrees with its own config_snapshot about the policy scope"])
  else Ok policy.

(** [Actor], with the identity the fold reads. *)
Inductive Actor : Type :=
  | Actor_Api (user_id : Uuid)
  | Actor_Internal
  | Actor_GitOps.

(** The fields of a [PersistedEvent] the fold reads. *)
Record PolicyStreamEvent : Type := {
  pse_stream_position : Z;
  pse_event : DomainEvent;
  pse_actor : Actor;
  pse_stored_at : DateTime;
}.

Record ScanPolicyReplay : Type := {
  replay_policy : ScanPolicyProjection;
  replay_exclusions : list ExclusionProjection;
}.

Definition exclusion_projection (added : ExclusionAdded) (actor : Actor) : ExclusionProjection :=
  {| exclusion_id := ea_exclusion_id added; x_policy_id := ea_policy_id added;
     cve_id := ea_cve_id added; package_pattern := ea_package_pattern added;
     x_scope := ea_scope added; x_reason := ea_reason added;
     added_by_actor_id := match actor with Actor_Api user_id => Some user_id | _ => None end;
     expires_at := ea_expires_at added |}.

Definition require_same_policy (stream_policy_id event_policy_id : Uuid) (e : DomainEvent)
    : DomainResult unit :=
  if stream_policy_id =? event_policy_id then Ok ()
  else Err (Invariant [Lit "policy stream for "; ArgUuid stream_policy_id; Lit " carries a ";
                       ArgStr (event_type e); Lit " for "; ArgUuid event_policy_id]).

(** Run a method of the policy inside the replay. *)
Definition on_policy {A} (m : mut ScanPolicyProjection DomainError A)
    : mut ScanPolicyReplay DomainError A :=
  λ r, let '(p, a) := m (replay_policy r) in (r {{ replay_policy := p }}, a).

Definition apply_policy_event (e : DomainEvent) (actor : Actor)
    : mut ScanPolicyReplay DomainError unit :=
  replay ← self;
  let policy_id := policy_id (replay_policy replay) in
  match e with
  | DE_PolicyUpdated update =>
      _ ← lift (require_same_policy policy_id (pu_policy_id update) e);
      on_policy (apply_policy_updated update)
  | DE_PolicyArchived id =>
      _ ← lift (require_same_policy policy_id id e);
      on_policy (modify (λ p, p {{ archived := true }}))
  | DE_PolicyReactivated id =>
      _ ← lift (require_same_policy policy_id id e);
      on_policy (modify (λ p, p {{ archived := false }}))
  | DE_ExclusionAdded added =>
      _ ← lift (require_same_policy policy_id (ea_policy_id added) e);
      modify (λ r, r {{ replay_exclusions ::= (λ l, l ++ [exclusion_projection added actor]) }})
  | DE_ExclusionRemoved removed =>
      _ ← lift (require_same_policy policy_id (er_policy_id removed) e);
      modify (λ r, r {{ replay_exclusions ::=
                filter (λ x, exclusion_id x ≠ er_exclusion_id removed) }})
  | DE_PolicyCreated _ =>
      throw (Invariant [Lit "policy stream for "; ArgUuid policy_id;
                        Lit " has a second PolicyCreated"])
  | other =>
      throw (Invariant [ArgStr (event_type other); Lit " does not belong on policy stream ";
                        ArgUuid policy_id; Lit "; no projection is derived from a stream this ";
                        Lit "fold cannot read in full"])
  end.

Definition at_position (err : DomainError) (position : Z) : DomainError :=
  let suffix := [Lit " (stream position "; ArgInt position; Lit ")"] in
  match err with
  | Invariant msg => Invariant (msg ++ suffix)
  | Validation msg => Validation (msg ++ suffix)
  | other => other
  end.

(** One iteration of the fold: the event, then the timestamp. *)
Definition fold_event (e : PolicyStreamEvent) : mut ScanPolicyReplay DomainError unit :=
  _ ← (λ r, let '(r', a) := apply_policy_event (pse_event e) (pse_actor e) r in
            (r', map_err (λ err, at_position err (pse_stream_position e)) a));
  on_policy (modify (λ p, p {{ p_updated_at := pse_stored_at e }})).

Definition fold_scan_policy (events : list PolicyStreamEvent) : DomainResult ScanPolicyReplay :=
  match events with
  | [] => Err (NotFound "ScanPolicy" [Lit "<empty policy stream>"])
  | first :: rest =>
      match pse_event first with
      | DE_PolicyCreated created =>
          policy ← replay_policy_created created (pse_stored_at first);
          let '(replay, r) :=
            for_each fold_event rest {| replay_policy := policy; replay_exclusions := [] |} in
          _ ← r;
          Ok (replay {{ replay_policy ::= (λ p, p {{ stream_version :=
                pse_stream_position (List.last events first) }}) }})
      | other =>
          Err (Invariant [Lit "policy stream must open with PolicyCreated, got ";
                          ArgStr (event_type other)])
      end
  end.

Definition apply_policy_batch (events : list DomainEvent) (actor : Actor)
    (appended_at : DateTime) (new_stream_version : Z) : mut ScanPolicyReplay DomainError unit :=
  _ ← for_each (λ e, apply_policy_event e actor) events;
  on_policy (modify (λ p, p {{ stream_version := new_stream_version; p_updated_at := appended_at }})).
End codec.

#[export] Instance ExclusionProjection_eq_dec : EqDecision ExclusionProjection.
Proof. solve_decision. Defined.

(** ** The fields are independent *)

Section fields.
Context `{SerdeJson, PolicySerde}.

(** The ranges of the machine integers a projection holds. *)
Definition projection_wf (p : ScanPolicyProjection) : Prop :=
  quarantine_duration_secs p ≤ i64_MAX ∧
  i32_MIN ≤ rescan_interval_hours p ≤ i32_MAX ∧
  ∀ secs, max_artifact_age_secs p = Some secs → secs ≤ i64_MAX.

(** [p] with the field [f] of [q]. *)
Definition copy_field (f : PolicyField) (q p : ScanPolicyProjection) : ScanPolicyProjection :=
  match f with
  | PF_Name => p {{ p_name := p_name q }}
  | PF_Scope => p {{ p_scope := p_scope q }}
  | PF_SeverityThreshold => p {{ severity_threshold := severity_threshold q }}
  | PF_QuarantineDuration => p {{ quarantine_duration_secs := quarantine_duration_secs q }}
  | PF_RequireApproval => p {{ require_approval := require_approval q }}
  | PF_ProvenanceMode => p {{ provenance_mode := provenance_mode q }}
  | PF_ProvenanceBackends => p {{ provenance_backends := provenance_backends q }}
  | PF_ProvenanceIdentities => p {{ provenance_identities := provenance_identities q }}
  | PF_MaxArtifactAge => p {{ max_artifact_age_secs := max_artifact_age_secs q }}
  | PF_LicensePolicy => p {{ license_policy := license_policy q }}
  | PF_ScanBackends => p {{ scan_backends := scan_backends q }}
  | PF_RescanIntervalHours => p {{ rescan_interval_hours := rescan_interval_hours q }}
  | PF_NegligibleAction => p {{ negligible_action := negligible_action q }}
  | PF_Enforcement => p {{ enforcement := enforcement q }}
  | PF_CompositeVerdictMode => p {{ composite_verdict_mode := composite_verdict_mode q }}
  end.

(** Decoding what was encoded sets exactly that field. *)
Lemma set_policy_field_value f q p :
  projection_wf q → set_policy_field f (policy_field_value q f) p = (copy_field f q p, Ok ()).
Proof.
  intros (Hq & [Hlo Hhi] & Hmax).
  assert (rescan_interval_hours q ≤ i64_MAX) as Hr by (unfold i32_MAX, i64_MAX in *; lia).
  destruct f; unfold set_policy_field, policy_field_value, decode_wire, decode_string, decode_i64,
    decode_serde; cbv [mbind mut_bind lift modify]; rewrite ?from_to_value; cbn [map_err as_str ok_or].
  all: try done.
  - by rewrite as_i64_of_i64.
  - cbv [result_bind mbind]. by rewrite provenance_mode_roundtrip.
  - unfold copy_field. destruct (max_artifact_age_secs q) as [secs|]; [| done].
    change (is_null (value_of_i64 secs)) with false. cbv beta iota.
    by rewrite as_i64_of_i64 by auto.
  - rewrite as_i64_of_i64 by done. cbn. unfold i32_try_from.
    by rewrite (proj2 (Z.leb_le _ _) Hlo), (proj2 (Z.leb_le _ _) Hhi).
  - cbv [result_bind mbind]. by rewrite negligible_action_roundtrip.
  - cbv [result_bind mbind]. by rewrite enforcement_roundtrip.
  - cbv [result_bind mbind]. by rewrite composite_verdict_roundtrip.
Qed.

Lemma policy_field_value_copy f g q p :
  policy_field_value (copy_field g q p) f =
  policy_field_value (if bool_decide (f = g) then q else p) f.
Proof. by destruct f, g. Qed.

Lemma copy_field_wf f q p : projection_wf q → projection_wf p → projection_wf (copy_field f q p).
Proof. unfold projection_wf. intros (? & ? & ?) (? & ? & ?). by destruct f. Qed.

(** Fields with one JSON form are equal, so what the diff skips needs no copy. *)
Lemma copy_field_same f q p :
  projection_wf q → projection_wf p →
  policy_field_value p f = policy_field_value q f → copy_field f q p = p.
Proof.
  intros Hq Hp He. transitivity (copy_field f p p); [| by destruct f, p].
  enough ((copy_field f q p, Ok ()) = (copy_field f p p, @Ok DomainError _ ())) by congruence.
  by rewrite <- !set_policy_field_value, He.
Qed.

(** [p] with every field of [q]. *)
Definition configure (q p : ScanPolicyProjection) : ScanPolicyProjection :=
  q {{ policy_id := policy_id p; archived := archived p; stream_version := stream_version p;
       p_created_at := p_created_at p; p_updated_at := p_updated_at p }}.

Lemma copy_policy_fields q p : foldl (λ p' f, copy_field f q p') p policy_fields = configure q p.
Proof. by destruct p, q. Qed.

Lemma for_each_copy {A} (body : A → mut ScanPolicyProjection DomainError unit) (fld : A → PolicyField)
    (l : list A) q p :
  (∀ x p', x ∈ l → body x p' = (copy_field (fld x) q p', Ok ())) →
  for_each body l p = (foldl (λ p' x, copy_field (fld x) q p') p l, Ok ()).
Proof.
  revert p; induction l as [|x l IH]; intros p Hb; [done|].
  cbn [for_each foldl]. cbv [mbind mut_bind]. rewrite Hb by set_solver.
  apply IH. set_solver.
Qed.

(** *** Round trips *)

Lemma snapshot_get_config q f :
  snapshot_get (policy_config_snapshot q) (snapshot_key f) = Some (policy_field_value q f).
Proof. by destruct f. Qed.

Lemma replay_policy_created_snapshot id q t :
  projection_wf q →
  replay_policy_created {| pc_policy_id := id; pc_name := p_name q; pc_scope := p_scope q;
                           config_snapshot := policy_config_snapshot q |} t =
  Ok (configure q (blank_policy id t)).
Proof.
  intros Hq. unfold replay_policy_created. cbn [pc_policy_id].
  rewrite (for_each_copy _ (λ f, f) _ q).
  - rewrite (copy_policy_fields q). cbv [mbind result_bind].
    by rewrite !bool_decide_eq_false_2 by (intros Hn; by apply Hn).
  - intros f p' _. unfold replay_field. cbn [config_snapshot]. rewrite snapshot_get_config.
    cbv [mbind mut_bind lift ok_or]. by apply set_policy_field_value.
Qed.
End fields.

(** ** Equality up to bookkeeping

    Two projections are equivalent when they agree on everything but the stream
    version and the two timestamps, which are stamped on rather than decided. *)

Definition stamp (version : Z) (created updated : DateTime) (p : ScanPolicyProjection)
    : ScanPolicyProjection :=
  p {{ stream_version := version; p_created_at := created; p_updated_at := updated }}.

#[export] Instance projection_equiv : Equiv ScanPolicyProjection :=
  λ p q, stamp 0 0 0 p = stamp 0 0 0 q.

#[export] Instance projection_equivalence : Equivalence (≡@{ScanPolicyProjection}).
Proof. split; unfold equiv, projection_equiv; congruence. Qed.

Lemma equiv_stamp v c u p : stamp v c u p ≡ p.
Proof. by destruct p. Qed.

Lemma equiv_is_stamp p q :
  p ≡ q → q = stamp (stream_version q) (p_created_at q) (p_updated_at q) p.
Proof.
  destruct p, q. unfold equiv, projection_equiv, stamp. cbn. intros [= ]. by subst.
Qed.

#[export] Instance policy_id_proper : Proper ((≡) ==> (=)) policy_id.
Proof. intros p q H. exact (f_equal policy_id H). Qed.
#[export] Instance archived_proper : Proper ((≡) ==> (=)) archived.
Proof. intros p q H. exact (f_equal archived H). Qed.
#[export] Instance projection_wf_proper : Proper ((≡) ==> iff) projection_wf.
Proof. intros p q ->%equiv_is_stamp. done. Qed.
#[export] Instance configure_proper : Proper ((≡) ==> (≡) ==> (≡)) configure.
Proof. intros q q' ->%equiv_is_stamp p p' ->%equiv_is_stamp. by destruct p, q. Qed.

Section replay.
Context `{SerdeJson, PolicySerde}.

#[export] Instance policy_field_value_proper : Proper ((≡) ==> (=) ==> (=)) policy_field_value.
Proof. intros p q ->%equiv_is_stamp f ? <-. by destruct f. Qed.

#[export] Instance diff_policy_fields_proper :
  Proper ((=) ==> (≡) ==> (≡) ==> (=)) diff_policy_fields.
Proof.
  intros id ? <- p p' Hp q q' Hq. unfold diff_policy_fields.
  apply list_omap_ext, Forall2_same_length_lookup_2; [done|]. intros i f ? Hf Hf'.
  assert (f = y) as <- by congruence. unfold diff_field.
  by rewrite (policy_field_value_proper _ _ Hp f f), (policy_field_value_proper _ _ Hq f f).
Qed.

Lemma set_policy_field_stamp f value v c u p :
  set_policy_field f value (stamp v c u p) =
  (stamp v c u (set_policy_field f value p).1, (set_policy_field f value p).2).
Proof.
  destruct f; unfold set_policy_field; cbv [mbind mut_bind lift modify]; try done.
  all: repeat match goal with |- context [match ?d with Ok _ => _ | Err _ => _ end] =>
    destruct d; try done end.
Qed.

(** The policy half of a replay, which the exclusion half never influences. *)
Lemma apply_policy_event_equiv e a a' r r' :
  replay_policy r ≡ replay_policy r' →
  (apply_policy_event e a r).2 = (apply_policy_event e a' r').2 ∧
  replay_policy (apply_policy_event e a r).1 ≡ replay_policy (apply_policy_event e a' r').1.
Proof.
  intros Hr. pose proof (policy_id_proper _ _ Hr) as Hid.
  unfold apply_policy_event. cbv [mbind mut_bind self throw lift]. rewrite <- Hid.
  destruct e; try done.
  all: destruct (require_same_policy _ _ _) as [[]|err]; [| done].
  all: try done.
  all: cbv [on_policy modify]; apply equiv_is_stamp in Hr; rewrite Hr.
  - unfold apply_policy_updated. rewrite set_policy_field_stamp.
    destruct (set_policy_field _ _ _) as [p res]. split; [done|].
    symmetry. apply equiv_stamp.
  - done.
  - done.
Qed.
Lemma apply_events_equiv es a a' r r' :
  replay_policy r ≡ replay_policy r' →
  (for_each (λ e, apply_policy_event e a) es r).2 = (for_each (λ e, apply_policy_event e a') es r').2 ∧
  replay_policy (for_each (λ e, apply_policy_event e a) es r).1 ≡
  replay_policy (for_each (λ e, apply_policy_event e a') es r').1.
Proof.
  revert r r'; induction es as [|e es IH]; intros r r' Hr; [done|].
  cbn [for_each]. cbv [mbind mut_bind].
  destruct (apply_policy_event_equiv e a a' r r' Hr) as [He Hp].
  destruct (apply_policy_event e a r) as [s x], (apply_policy_event e a' r') as [s' x'].
  cbn in He, Hp. subst x'. destruct x as [[]|]; [by apply IH | done].
Qed.

(** Folding persisted events is applying their payloads, up to the stamps. *)
Lemma fold_events_apply es actor r r' r1 :
  replay_policy r ≡ replay_policy r' →
  for_each (λ e, apply_policy_event e actor) (pse_event <$> es) r' = (r1, Ok ()) →
  ∃ s, for_each fold_event es r = (s, Ok ()) ∧ replay_policy s ≡ replay_policy r1.
Proof.
  revert r r'; induction es as [|e es IH]; intros r r' Hr.
  { cbn. intros [= <-]. by exists r. }
  rewrite fmap_cons. cbn [for_each]. cbv [mbind mut_bind fold_event].
  destruct (apply_policy_event_equiv (pse_event e) (pse_actor e) actor r r' Hr) as [He Hp].
  destruct (apply_policy_event (pse_event e) (pse_actor e) r) as [s x],
    (apply_policy_event (pse_event e) actor r') as [s' x'].
  cbn in He, Hp. subst x'. destruct x as [[]|]; [| done]. cbn [map_err].
  apply IH. exact Hp.
Qed.

Lemma last_List_last {A} (x d : A) l : last (x :: l) = Some (List.last (x :: l) d).
Proof. revert x; induction l as [|y l IH]; intros x; [done | apply IH]. Qed.

(** The position a stream ends at. *)
Definition end_position (l : list PolicyStreamEvent) : option Z :=
  pse_stream_position <$> last l.

Lemma fold_scan_policy_inv l r :
  fold_scan_policy l = Ok r →
  ∃ first created policy rest s,
    l = first :: rest ∧ pse_event first = DE_PolicyCreated created ∧
    replay_policy_created created (pse_stored_at first) = Ok policy ∧
    for_each fold_event rest {| replay_policy := policy; replay_exclusions := [] |} = (s, Ok ()) ∧
    r = s {{ replay_policy ::= (λ p, p {{ stream_version :=
              pse_stream_position (List.last l first) }}) }}.
Proof.
  destruct l as [|first rest]; [done|]. unfold fold_scan_policy.
  destruct (pse_event first) as [] eqn:Hf; try done.
  cbv [mbind result_bind]. destruct (replay_policy_created _ _) as [policy|] eqn:Hc; [| done].
  destruct (for_each _ _ _) as [s x] eqn:Hs. destruct x as [[]|]; [| done].
  intros [= <-]. by exists first, e, policy, rest, s.
Qed.

Lemma for_each_app {S E A} (body : A → mut S E unit) l k s s' :
  for_each body l s = (s', Ok ()) → for_each body (l ++ k) s = for_each body k s'.
Proof.
  revert s; induction l as [|x l IH]; intros s; cbn [for_each app].
  { cbv. by intros [= <-]. }
  cbv [mbind mut_bind]. destruct (body x s) as [s1 [[]|]]; [apply IH | done].
Qed.

(** What a batch does to the replayed state, the fold of the longer stream does. *)
Lemma fold_scan_policy_extend l es actor r r' r1 :
  fold_scan_policy l = Ok r → replay_policy r ≡ replay_policy r' →
  for_each (λ e, apply_policy_event e actor) (pse_event <$> es) r' = (r1, Ok ()) →
  ∃ s, fold_scan_policy (l ++ es) = Ok s ∧ replay_policy s ≡ replay_policy r1 ∧
       Some (stream_version (replay_policy s)) = end_position (l ++ es).
Proof.
  intros (first & created & policy & rest & s & -> & Hf & Hc & Hs & ->)%fold_scan_policy_inv Hr Ha.
  destruct (fold_events_apply es actor s r' r1) as (s' & Hs' & Hp); [| done |].
  { exact Hr. }
  unfold fold_scan_policy. cbn [app]. rewrite Hf. cbv [mbind result_bind]. rewrite Hc.
  rewrite (for_each_app _ _ _ _ _ Hs), Hs'.
  eexists; split; [done|]; split; [exact Hp|].
  unfold end_position. by rewrite (last_List_last first first).
Qed.

(** *** Applying a diff *)

Lemma apply_update_event id f c q r actor u :
  projection_wf q → policy_id (replay_policy r) = id → diff_field id c q f = Some u →
  apply_policy_event (DE_PolicyUpdated u) actor r =
  (r {{ replay_policy := copy_field f q (replay_policy r) }}, Ok ()).
Proof.
  intros Hq <-. unfold diff_field. case_bool_decide; intros [= <-].
  unfold apply_policy_event, require_same_policy. cbv [mbind mut_bind self lift].
  cbn [pu_policy_id]. rewrite Z.eqb_refl.
  unfold on_policy, apply_policy_updated. cbn [field new_value].
  by rewrite set_policy_field_value.
Qed.

Lemma apply_diff_fields id c q l actor r :
  NoDup l → projection_wf q → projection_wf (replay_policy r) → policy_id (replay_policy r) = id →
  (∀ f, f ∈ l → policy_field_value (replay_policy r) f = policy_field_value c f) →
  for_each (λ e, apply_policy_event e actor) (DE_PolicyUpdated <$> omap (diff_field id c q) l) r =
  (r {{ replay_policy := foldl (λ p f, copy_field f q p) (replay_policy r) l }}, Ok ()).
Proof.
  intros Hl Hq. revert r; induction l as [|f l IH]; intros r Hp Hid Hc; [by destruct r|].
  apply NoDup_cons in Hl as [Hf Hl]. cbn [omap list_omap foldl].
  destruct (diff_field id c q f) as [u|] eqn:Hu.
  - rewrite fmap_cons. cbn [for_each]. cbv [mbind mut_bind].
    rewrite (apply_update_event id f c q r actor u) by done.
    rewrite IH; [done | done | by apply copy_field_wf | by destruct f | ].
    intros g Hg. change (policy_field_value (copy_field f q (replay_policy r)) g = policy_field_value c g).
    rewrite policy_field_value_copy.
    rewrite bool_decide_eq_false_2 by (intros ->; done). apply Hc. set_solver.
  - unfold diff_field in Hu. case_bool_decide as Hn; [done|].
    rewrite (copy_field_same f q) by (try done; rewrite Hc by set_solver; done).
    apply IH; [done.. |]. intros g Hg. apply Hc. set_solver.
Qed.

(** The updates a change is recorded as bring about the change. *)
Lemma apply_diff q actor r :
  projection_wf q → projection_wf (replay_policy r) →
  for_each (λ e, apply_policy_event e actor)
    (DE_PolicyUpdated <$> diff_policy_fields (policy_id (replay_policy r)) (replay_policy r) q) r =
  (r {{ replay_policy := configure q (replay_policy r) }}, Ok ()).
Proof.
  intros Hq Hp. unfold diff_policy_fields.
  rewrite apply_diff_fields, copy_policy_fields; [done | apply policy_fields_NoDup | done..].
Qed.

Lemma diff_policy_fields_nil id p q :
  projection_wf p → projection_wf q → diff_policy_fields id p q = [] → configure q p = p.
Proof.
  intros Hp Hq Hd. rewrite <- copy_policy_fields.
  assert (∀ l, omap (diff_field id p q) l = [] → foldl (λ p' f, copy_field f q p') p l = p) as Hl.
  { induction l as [|f l IH]; [done|]. cbn [omap list_omap foldl].
    unfold diff_field at 1. case_bool_decide as Hn; [done|].
    by rewrite (copy_field_same f q). }
  by apply Hl.
Qed.

(** *** A whole history

    A batch as the store persists it behind position [from - 1]. *)

Definition persist (from : Z) (actor : Actor) (now : DateTime) (batch : list DomainEvent)
    : list PolicyStreamEvent :=
  imap (λ i e, {| pse_stream_position := from + Z.of_nat i; pse_event := e; pse_actor := actor;
                  pse_stored_at := now |}) batch.

Lemma persist_events from actor now batch : pse_event <$> persist from actor now batch = batch.
Proof.
  unfold persist. rewrite fmap_imap. transitivity (id <$> batch); [| apply list_fmap_id].
  exact (imap_const id batch).
Qed.

Lemma persist_length from actor now batch : length (persist from actor now batch) = length batch.
Proof. apply length_imap. Qed.

Lemma end_position_persist l from actor now batch :
  end_position l = Some (from - 1) →
  end_position (l ++ persist from actor now batch) = Some (from + len batch - 1).
Proof.
  intros Hl. unfold end_position, len. destruct batch as [|e batch _] using rev_ind.
  - cbn. rewrite app_nil_r, Z.add_0_r. exact Hl.
  - unfold persist. rewrite imap_app. cbn [imap]. rewrite (assoc_L (++)), last_snoc. cbn.
    rewrite Nat.add_0_r, length_app. cbn. f_equal. lia.
Qed.

(** The event [create_policy] records a policy as. *)
Definition policy_created (p : ScanPolicyProjection) : PolicyCreated :=
  {| pc_policy_id := policy_id p; pc_name := p_name p; pc_scope := p_scope p;
     config_snapshot := policy_config_snapshot p |}.

Lemma fold_scan_policy_created p actor now :
  projection_wf p → archived p = false →
  ∃ r, fold_scan_policy (persist 0 actor now [DE_PolicyCreated (policy_created p)]) = Ok r ∧
       replay_policy r ≡ p ∧ stream_version (replay_policy r) = 0.
Proof.
  intros Hp Ha. cbn. unfold policy_created. rewrite replay_policy_created_snapshot by done.
  eexists; split; [done|]. split; [| done]. destruct p; cbn in Ha; by subst.
Qed.

(** Each change, diffed against the policy as the changes before it left it. *)
Fixpoint record_changes (from : Z) (current : ScanPolicyProjection)
    (changes : list (ScanPolicyProjection * Actor * DateTime)) : list PolicyStreamEvent :=
  match changes with
  | [] => []
  | (q, actor, now) :: rest =>
      let batch := DE_PolicyUpdated <$> diff_policy_fields (policy_id current) current q in
      persist from actor now batch ++ record_changes (from + len batch) (configure q current) rest
  end.

Lemma fold_record_changes changes from current l r :
  projection_wf current → Forall (λ c, projection_wf c.1.1) changes →
  fold_scan_policy l = Ok r → replay_policy r ≡ current →
  stream_version (replay_policy r) = len l - 1 → end_position l = Some (from - 1) → len l = from →
  ∃ s, fold_scan_policy (l ++ record_changes from current changes) = Ok s ∧
       replay_policy s ≡ foldl (λ p c, configure c.1.1 p) current changes ∧
       stream_version (replay_policy s) = len (l ++ record_changes from current changes) - 1.
Proof.
  revert from current l r; induction changes as [|[[q actor] now] rest IH];
    intros from current l r Hc Hall Hl Hr Hv He Hlen; cbn [record_changes foldl].
  { rewrite app_nil_r. eauto. }
  apply Forall_cons in Hall as [Hq Hall]. cbn in Hq.
  set (batch := DE_PolicyUpdated <$> _). set (es := persist from actor now batch).
  assert (len (l ++ es) = from + len batch) as Hlen'.
  { unfold es, len in *. rewrite length_app, persist_length. lia. }
  pose proof (end_position_persist l from actor now batch He) as He'. fold es in He'.
  destruct (fold_scan_policy_extend l es actor r
    {| replay_policy := current; replay_exclusions := [] |}
    {| replay_policy := configure q current; replay_exclusions := [] |})
    as (s & Hs & Hp & Hend); [done | done | |].
  { unfold es. rewrite persist_events. exact (apply_diff q actor {| replay_policy := current |} Hq Hc). }
  rewrite (assoc_L (++)). apply (IH _ _ _ s); try done.
  rewrite He' in Hend. injection Hend as ->. lia.
Qed.

(** C40. A policy that is created and then changed any number of times, each
    change recorded as one update per field whose JSON form differs, is exactly
    the policy the fold of its stream derives: every field comes back through
    its encoding, no field is disturbed by another's update, and the stream is
    never refused.  The version it derives is the stream's last position. *)
Theorem policy_history_round_trips (p : ScanPolicyProjection) (actor : Actor) (now : DateTime)
    (changes : list (ScanPolicyProjection * Actor * DateTime)) :
  projection_wf p → archived p = false → Forall (λ c, projection_wf c.1.1) changes →
  let history := persist 0 actor now [DE_PolicyCreated (policy_created p)] ++
                 record_changes 1 p changes in
  ∃ r, fold_scan_policy history = Ok r ∧
       replay_policy r ≡ foldl (λ q c, configure c.1.1 q) p changes ∧
       stream_version (replay_policy r) = len history - 1.
Proof.
  intros Hp Ha Hall. destruct (fold_scan_policy_created p actor now Hp Ha) as (r & Hr & Heq & Hv).
  by apply (fold_record_changes changes 1 p _ r).
Qed.
End replay.

(** ** A concrete encoding and a sample policy *)

Module SamplePolicy.
#[export] Instance serde : SerdeJson := λ _, "null"%string.

#[export, refine] Instance scope_serde : Serde PolicyScope := {
  to_value s := match s with PS_Global => VNull | PS_Repository id => VNumber (NegInt id) end;
  from_value v := match v with
                  | VNull => Ok PS_Global
                  | VNumber (NegInt id) => Ok (PS_Repository id)
                  | _ => Err "not a scope"%string
                  end;
}.
Proof. by intros []. Defined.

#[export, refine] Instance severity_serde : Serde SeverityThreshold := {
  to_value s := VArray (match s with
                        | Critical => [] | High => [VNull] | Medium => [VNull; VNull]
                        | Low => [VNull; VNull; VNull] end);
  from_value v := match v with
                  | VArray [] => Ok Critical
                  | VArray [_] => Ok High
                  | VArray [_; _] => Ok Medium
                  | VArray [_; _; _] => Ok Low
                  | _ => Err "not a severity"%string
                  end;
}.
Proof. by intros []. Defined.

#[export, refine] Instance strings_serde : Serde (list string) := {
  to_value l := VArray (VString <$> l);
  from_value v := match v with
                  | VArray l => ok_or "not strings"%string (mapM as_str l)
                  | _ => Err "not an array"%string
                  end;
}.
Proof. intros l. cbn. assert (mapM as_str (VString <$> l) = Some l) as ->; [| done].
  induction l as [|s l IH]; [done|]. cbn. by rewrite IH. Defined.

Definition identity_of (v : Value) : option SignerIdentityPattern :=
  match v with
  | VArray [VString issuer; VString san] => Some {| sp_issuer := issuer; sp_san := san |}
  | _ => None
  end.

#[export, refine] Instance identities_serde : Serde (list SignerIdentityPattern) := {
  to_value l := VArray ((λ i, VArray [VString (sp_issuer i); VString (sp_san i)]) <$> l);
  from_value v := match v with
                  | VArray l => ok_or "not identities"%string (mapM identity_of l)
                  | _ => Err "not an array"%string
                  end;
}.
Proof. intros l. cbn.
  assert (mapM identity_of ((λ i, VArray [VString (sp_issuer i); VString (sp_san i)]) <$> l) = Some l)
    as ->; [| done].
  induction l as [|[] l IH]; [done|]. cbn. by rewrite IH. Defined.

#[export] Instance policy_serde : PolicySerde := {}.

Definition policy : ScanPolicyProjection :=
  {| policy_id := 7; p_name := "default"; p_scope := PS_Global; severity_threshold := Critical;
     quarantine_duration_secs := 86400; require_approval := false;
     provenance_mode := PM_VerifyIfPresent; provenance_backends := ["cosign"%string];
     provenance_identities := [{| sp_issuer := "https://issuer"; sp_san := "ci@example" |}];
     max_artifact_age_secs := None; license_policy := VObject []; archived := false;
     scan_backends := ["trivy"%string]; rescan_interval_hours := 24; negligible_action := NA_Ignore;
     enforcement := SE_Reject; composite_verdict_mode := CV_Observed; stream_version := 0;
     p_created_at := 100; p_updated_at := 100 |}.

(** Two changes: a stricter gate for one repository, then an age limit. *)
Definition stricter : ScanPolicyProjection :=
  policy {{ severity_threshold := High; p_scope := PS_Repository 3 }}.
Definition aged : ScanPolicyProjection := stricter {{ max_artifact_age_secs := Some 3600 }}.

Lemma policy_wf : projection_wf policy.
Proof. unfold projection_wf, i32_MIN, i32_MAX, i64_MAX. cbn -[Z.pow]. split_and!; [lia.. | done]. Qed.

Lemma aged_wf : projection_wf aged.
Proof.
  destruct policy_wf as (? & ? & _). split_and!; [done.. |]. intros secs [= <-]. by unfold i64_MAX.
Qed.

Definition changes : list (ScanPolicyProjection * Actor * DateTime) :=
  [(stricter, Actor_Api 1, 200); (aged, Actor_GitOps, 300)].
End SamplePolicy.

Module PolicyRoundTripWitness.
Import SamplePolicy.

Lemma policy_history_round_trips_witness :
  ∃ r, fold_scan_policy (persist 0 Actor_GitOps 100 [DE_PolicyCreated (policy_created policy)] ++
                         record_changes 1 policy changes) = Ok r ∧
       replay_policy r ≡ aged ∧ stream_version (replay_policy r) = 3.
Proof.
  destruct (policy_history_round_trips policy Actor_GitOps 100 changes) as (r & Hr & He & Hv).
  - apply policy_wf.
  - done.
  - apply Forall_cons; split; [apply policy_wf | apply Forall_singleton, aged_wf].
  - exists r. split; [exact Hr|]. split; [exact He|]. rewrite Hv. by vm_compute.
Defined.
End PolicyRoundTripWitness.
