(* ===== verification/ScanEngine.v ===== *)
(** The scan-policy engine of crates/hort-domain/src/policy/: thresholds
    (threshold.rs, cve.rs), action escalation (primitives.rs), the license
    evaluator (license.rs), the scan verdict (scan.rs), the promotion gate
    (promotion.rs) and the re-evaluation decision (re_evaluation.rs).

    Violation messages are data (a rejection stores one), so they are real
    strings; numbers are printed in decimal. *)

From stdpp Require Import pretty.
From S2P Require Import Prelude.
From S2P Require Import RustStd.
From S2P Require Import Json.
From S2P Require Import Types.
From S2P Require Import Events.
From S2P Require Import Exclusion.
From S2P Require Import QuarantineTransitions.
From S2P Require Import Artifact.

(** [serde_json::json!] on an object literal. *)
Definition json_obj (l : list (string * Value)) : Value := VObject (map_collect l).

Definition json_u32 (n : Z) : Value := VNumber (PosInt n).

(** ** Thresholds *)

Definition severity_rank (s : SeverityThreshold) : Z :=
  match s with Critical => 4 | High => 3 | Medium => 2 | Low => 1 end.

Definition finding_exceeds_threshold (severity threshold : SeverityThreshold) : bool :=
  severity_rank threshold <=? severity_rank severity.

Definition tiers (s : SeveritySummary) : list (SeverityThreshold * Z) :=
  [(Critical, critical s); (High, high s); (Medium, medium s); (Low, low s)].

Definition count_findings_above_threshold (summary : SeveritySummary)
    (threshold : SeverityThreshold) : Z :=
  foldl u32_add 0
    (snd <$> filter (λ t, finding_exceeds_threshold t.1 threshold = true) (tiers summary)).

Definition CVE_RULE : string := "cve-severity-threshold".

Definition cve_violation (threshold : SeverityThreshold) (t : SeverityThreshold * Z)
    : PolicyViolation :=
  let '(tier, count) := t in
  {| rule := CVE_RULE;
     v_severity := tier;
     message := ("Found " +:+ pretty count +:+ " " +:+ display tier +:+
                 " severity vulnerabilities (threshold: " +:+ display threshold +:+ ")")%string;
     details := json_obj [("count", json_u32 count); ("tier", VString (display tier));
                          ("threshold", VString (display threshold))]%string |}.

Definition evaluate_cve_thresholds (filtered : SeveritySummary) (threshold : SeverityThreshold)
    : list PolicyViolation :=
  cve_violation threshold <$>
  filter (λ t, (0 <? t.2) && finding_exceeds_threshold t.1 threshold = true) (tiers filtered).

(** ** Escalation *)

Inductive PolicyAction : Type :=
  | PA_Allow
  | PA_Warn
  | PA_Block.

#[export] Instance PolicyAction_eq_dec : EqDecision PolicyAction.
Proof. solve_decision. Defined.

Definition escalate_action_by_severity (current : PolicyAction) (severity : SeverityThreshold)
    : PolicyAction :=
  match severity with
  | Critical | High => PA_Block
  | Medium | Low => match current with PA_Block => PA_Block | _ => PA_Warn end
  end.

Definition escalate_action_by_policy (current policy_action : PolicyAction) : PolicyAction :=
  match policy_action with
  | PA_Block => PA_Block
  | PA_Warn => match current with PA_Block => PA_Block | _ => PA_Warn end
  | PA_Allow => current
  end.

Record ViolationsAccumulator : Type := {
  acc_violations : list PolicyViolation;
  acc_action : PolicyAction;
}.

Definition new_accumulator : ViolationsAccumulator :=
  {| acc_violations := []; acc_action := PA_Allow |}.

Definition collect_with_severity_escalation (new : list PolicyViolation)
    (acc : ViolationsAccumulator) : ViolationsAccumulator :=
  foldl (λ acc v,
    {| acc_violations := acc_violations acc ++ [v];
       acc_action := escalate_action_by_severity (acc_action acc) (v_severity v) |}) acc new.

Definition collect_with_policy_action (new : list PolicyViolation) (action : PolicyAction)
    (acc : ViolationsAccumulator) : ViolationsAccumulator :=
  if negb (is_empty new) then
    {| acc_violations := acc_violations acc ++ new;
       acc_action := escalate_action_by_policy (acc_action acc) action |}
  else acc.

(** ** Licenses *)

(** [str::to_uppercase] is left abstract: the scan path passes no license, so
    no verdict below depends on it. *)
Class Unicode : Type := to_uppercase : string → string.

Definition LICENSE_RULE : string := "license-compliance".
Definition LICENSE_RULE_SHAPE : string := "license-policy-shape".
Definition MAX_LICENSE_LEN : Z := 256.

Definition json_kind (v : Value) : string :=
  match v with
  | VNull => "null"
  | VBool _ => "bool"
  | VNumber _ => "number"
  | VString _ => "string"
  | VArray _ => "array"
  | VObject _ => "object"
  end.

Definition parse_action (value : option Value) : option PolicyAction :=
  v ← value;
  s ← as_str v;
  let t := to_ascii_lowercase s in
  if bool_decide (t = "allow"%string) then Some PA_Allow
  else if bool_decide (t = "warn"%string) then Some PA_Warn
  else if bool_decide (t = "block"%string) then Some PA_Block
  else None.

Definition parse_string_list (value : option Value) : list string :=
  match value ≫= as_array with
  | None => []
  | Some arr => omap as_str arr
  end.

(** [join(", ")]. *)
Fixpoint join_comma (l : list string) : string :=
  match l with
  | [] => EmptyString
  | [s] => s
  | s :: l' => (s +:+ ", " +:+ join_comma l')%string
  end.

Definition license_violation (what key policy_name : string) (found : list string)
    : PolicyViolation :=
  {| rule := LICENSE_RULE;
     v_severity := Medium;
     message := ("Found " +:+ pretty (len found) +:+ what +:+ join_comma found)%string;
     details := json_obj [(key, VArray (VString <$> found));
                          ("policy_name"%string, VString policy_name)] |}.

Definition evaluate_license_policy `{Unicode} (licenses : list string) (policy : Value)
    : list PolicyViolation * PolicyAction :=
  if is_null policy then ([], PA_Allow)
  else
    match as_object policy with
    | None =>
        let kind := json_kind policy in
        ([{| rule := LICENSE_RULE_SHAPE; v_severity := Medium;
             message := ("license_policy is not a JSON object (got " +:+ kind +:+ ")")%string;
             details := json_obj [("kind"%string, VString kind)] |}], PA_Warn)
    | Some obj =>
        let action := default PA_Warn (parse_action (map_get "action" obj)) in
        let allowed := parse_string_list (map_get "allowed_licenses" obj) in
        let denied := parse_string_list (map_get "denied_licenses" obj) in
        let allow_unknown := default false (map_get "allow_unknown" obj ≫= as_bool) in
        let policy_name := default "<unnamed>"%string (map_get "name" obj ≫= as_str) in
        let '(denied_found, unknown_found) :=
          foldl (λ acc license,
            if MAX_LICENSE_LEN <? strlen license then acc
            else
              let normalised := to_uppercase license in
              if existsb (λ d, bool_decide (to_uppercase d = normalised)) denied then
                (acc.1 ++ [license], acc.2)
              else if negb (is_empty allowed) &&
                      negb (existsb (λ a, bool_decide (to_uppercase a = normalised)) allowed) &&
                      negb allow_unknown then
                (acc.1, acc.2 ++ [license])
              else acc) ([], []) licenses in
        ((if negb (is_empty denied_found) then
            [license_violation " denied licenses: " "denied_licenses" policy_name denied_found]
          else []) ++
         (if negb (is_empty unknown_found) then
            [license_violation " licenses not in allowed list: " "unknown_licenses" policy_name
               unknown_found]
          else []), action)
    end.

Definition has_license_policy (value : Value) : bool :=
  if is_null value then false
  else match as_object value with Some obj => negb (is_empty obj) | None => true end.

(** ** The scan verdict *)

Module DefaultPolicy.
Definition block_on_critical : SeverityThreshold := Critical.
Definition block_on_critical_default_backends : list string := ["trivy"%string].
Definition rescan_interval_hours : Z := 24.
Definition quarantine_duration_secs : Z := 86400.
Definition negligible_action : NegligibleAction := NA_Ignore.
Definition enforcement : ScanEnforcement := SE_Reject.
Definition composite_verdict_mode : CompositeVerdictMode := CV_Observed.
End DefaultPolicy.

(** [policy.map(f).unwrap_or_else(d)]. *)
Definition policy_or {A} (f : ScanPolicyProjection → A) (d : A)
    (policy : option ScanPolicyProjection) : A :=
  match policy with Some p => f p | None => d end.

Definition composite_verdict_mode_of (policy : option ScanPolicyProjection)
    : CompositeVerdictMode :=
  policy_or composite_verdict_mode DefaultPolicy.composite_verdict_mode policy.

(** [DateTime + Duration] panics outside chrono's range: [None]. *)
Definition effective_quarantine_deadline (window_start : DateTime) (duration : Duration)
    : option DateTime :=
  time_add window_start duration.

Definition NEGLIGIBLE_RULE : string := "negligible-advisory".

Definition negligible_violation (action : NegligibleAction) (count : Z) : PolicyViolation :=
  {| rule := NEGLIGIBLE_RULE;
     v_severity := Low;
     message := (pretty count +:+
                 " informational/negligible advisory finding(s) under negligibleAction = " +:+
                 display action)%string;
     details := json_obj [("negligible_count"%string, json_u32 count)] |}.

Definition collect_negligible_action (negligible_action : NegligibleAction)
    (negligible_count : Z) (acc : ViolationsAccumulator) : ViolationsAccumulator :=
  if negligible_count =? 0 then acc
  else
    match negligible_action with
    | NA_Ignore => acc
    | NA_Warn =>
        collect_with_policy_action [negligible_violation negligible_action negligible_count]
          PA_Warn acc
    | NA_Block =>
        collect_with_policy_action [negligible_violation negligible_action negligible_count]
          PA_Block acc
    end.

(** The closing match of both evaluators. *)
Definition verdict_of (enforcement : ScanEnforcement) (acc : ViolationsAccumulator)
    : ScanOutcome :=
  match acc_action acc with
  | PA_Block =>
      match enforcement with
      | SE_Reject => SO_Reject (acc_violations acc)
      | SE_Record => SO_FindingsRecorded (acc_violations acc)
      end
  | PA_Warn | PA_Allow => SO_Clean
  end.

Section engine.
Context `{Unicode}.

Definition evaluate_scan_result (coords : ArtifactCoords) (kind : ArtifactKind)
    (findings : list Finding) (policy : option ScanPolicyProjection)
    (exclusions : list ExclusionProjection) (now : DateTime) : ScanOutcome :=
  let filtered := filter_excluded_findings findings exclusions coords now in
  let composite_verdict := composite_verdict_mode_of policy in
  let condemning :=
    filter (λ f, may_condemn_artifact kind composite_verdict f = true)
      (remaining_findings filtered) in
  let condemning_summary := severity_summary_from_findings condemning in
  let threshold := policy_or severity_threshold DefaultPolicy.block_on_critical policy in
  let acc :=
    collect_with_severity_escalation (evaluate_cve_thresholds condemning_summary threshold)
      new_accumulator in
  let acc :=
    match policy with
    | Some p =>
        if has_license_policy (license_policy p) then
          let '(license_violations, license_action) :=
            evaluate_license_policy [] (license_policy p) in
          collect_with_policy_action license_violations license_action acc
        else acc
    | None => acc
    end in
  let negligible_action := policy_or negligible_action DefaultPolicy.negligible_action policy in
  let acc := collect_negligible_action negligible_action (negligible condemning_summary) acc in
  verdict_of (policy_or enforcement DefaultPolicy.enforcement policy) acc.

Definition evaluate_scan_summary (summary : SeveritySummary)
    (policy : option ScanPolicyProjection) : ScanOutcome :=
  let threshold := policy_or severity_threshold DefaultPolicy.block_on_critical policy in
  let acc :=
    collect_with_severity_escalation (evaluate_cve_thresholds summary threshold)
      new_accumulator in
  let negligible_action := policy_or negligible_action DefaultPolicy.negligible_action policy in
  let acc := collect_negligible_action negligible_action (negligible summary) acc in
  verdict_of (policy_or enforcement DefaultPolicy.enforcement policy) acc.

(** ** The promotion gate *)

Inductive PromotionOutcome : Type :=
  | PRO_Allow
  | PRO_Warn (violations : list PolicyViolation)
  | PRO_RequireApproval (violations : list PolicyViolation)
  | PRO_Reject (violations : list PolicyViolation).

(** The coordinates both decisions below build from the row. *)
Definition row_coords (a : Artifact) : ArtifactCoords :=
  {| co_name := name a; co_name_as_published := name_as_published a; co_version := version a;
     co_path := path a; co_format := RF_Other EmptyString; co_metadata := VNull |}.

Definition evaluate_promotion (artifact : Artifact) (policy : option ScanPolicyProjection)
    (last_scan_summary : option SeveritySummary) (exclusions : list ExclusionProjection)
    (now : DateTime) : PromotionOutcome :=
  let summary := default zero_summary last_scan_summary in
  let filtered := filter_excluded_summary summary exclusions (row_coords artifact) now in
  let threshold := policy_or severity_threshold DefaultPolicy.block_on_critical policy in
  let acc :=
    collect_with_severity_escalation
      (evaluate_cve_thresholds (fs_remaining filtered) threshold) new_accumulator in
  let require_approval := policy_or require_approval false policy in
  match acc_action acc with
  | PA_Block => PRO_Reject (acc_violations acc)
  | PA_Warn => PRO_Warn (acc_violations acc)
  | PA_Allow =>
      if require_approval then PRO_RequireApproval (acc_violations acc) else PRO_Allow
  end.

(** ** Re-evaluating a rejection *)

Inductive ReEvaluationOutcome : Type :=
  | StillRejected
  | ResetToQuarantined
  | ResetToReleased.

Definition decide_rejected_transition (artifact : Artifact) (kind : ArtifactKind)
    (last_scan_summary : SeveritySummary) (last_findings : option (list Finding))
    (policy : option ScanPolicyProjection) (updated_exclusions : list ExclusionProjection)
    (composite_verdict : CompositeVerdictMode) (quarantine_deadline : option DateTime)
    (now : DateTime) : ReEvaluationOutcome :=
  let verdict_summary :=
    match last_findings with
    | Some findings =>
        let filtered :=
          filter_excluded_findings findings updated_exclusions (row_coords artifact) now in
        severity_summary_from_findings
          (filter (λ f, may_condemn_artifact kind composite_verdict f = true)
             (remaining_findings filtered))
    | None => last_scan_summary
    end in
  match evaluate_scan_summary verdict_summary policy with
  | SO_Reject _ => StillRejected
  | _ =>
      match quarantine_deadline with
      | Some deadline => if now <? deadline then ResetToQuarantined else ResetToReleased
      | None => ResetToReleased
      end
  end.
End engine.

(** ** When a verdict blocks *)

Definition is_block (a : PolicyAction) : bool := bool_decide (a = PA_Block).

(** A non-empty counter [b] makes the policy block: every critical finding does,
    a high one does under any other threshold, a medium or low one never, an
    informational one under [negligibleAction: block]. *)
Definition blocks (policy : option ScanPolicyProjection) (b : option SeverityThreshold) : Prop :=
  match b with
  | Some Critical => True
  | Some High => policy_or severity_threshold DefaultPolicy.block_on_critical policy ≠ Critical
  | Some Medium | Some Low => False
  | None => policy_or negligible_action DefaultPolicy.negligible_action policy = NA_Block
  end.

Lemma severity_escalation_block vs acc :
  acc_action (collect_with_severity_escalation vs acc) = PA_Block ↔
  acc_action acc = PA_Block ∨
  ∃ v, v ∈ vs ∧ (v_severity v = Critical ∨ v_severity v = High).
Proof.
  unfold collect_with_severity_escalation. revert acc.
  induction vs as [| v vs IH]; intros acc; simpl.
  - split; [by left |]. intros [H | (v & Hv & _)]; [done |]. by apply elem_of_nil in Hv.
  - rewrite IH. setoid_rewrite elem_of_cons. simpl. split.
    + intros [H | (u & Hu & Hs)]; [| naive_solver].
      destruct (v_severity v) eqn:Ev, (acc_action acc); simpl in H; naive_solver.
    + intros [H | (u & [-> | Hu] & Hs)]; [| | naive_solver].
      * left. rewrite H. by destruct (v_severity v).
      * left. by destruct Hs as [-> | ->].
Qed.

Lemma elem_of_cve_violations summary threshold v :
  v ∈ evaluate_cve_thresholds summary threshold →
  0 < tally summary (Some (v_severity v)) ∧
  finding_exceeds_threshold (v_severity v) threshold = true.
Proof.
  unfold evaluate_cve_thresholds. rewrite list_elem_of_fmap.
  intros ([t n] & -> & Hv). apply list_elem_of_filter in Hv as [Hv Ht].
  apply andb_true_iff in Hv as [Hn Hx]. apply Z.ltb_lt in Hn. simpl in *.
  split; [| done]. unfold tiers in Ht. set_unfold in Ht.
  destruct Ht as [[= -> ->] | [[= -> ->] | [[= -> ->] | [[= -> ->] | []]]]]; done.
Qed.

Lemma cve_violation_reported summary threshold t :
  0 < tally summary (Some t) → finding_exceeds_threshold t threshold = true →
  ∃ v, v ∈ evaluate_cve_thresholds summary threshold ∧ v_severity v = t.
Proof.
  intros Hn Hx. exists (cve_violation threshold (t, tally summary (Some t))). split; [| done].
  apply list_elem_of_fmap_2, list_elem_of_filter. simpl. split.
  - apply andb_true_iff. split; [by apply Z.ltb_lt | done].
  - unfold tiers. destruct t; simpl; set_solver.
Qed.

Lemma cve_block summary threshold :
  acc_action (collect_with_severity_escalation (evaluate_cve_thresholds summary threshold)
                new_accumulator) = PA_Block ↔
  0 < critical summary ∨ (0 < high summary ∧ threshold ≠ Critical).
Proof.
  rewrite severity_escalation_block. split.
  - intros [H | (v & Hv & Hs)]; [done |]. apply elem_of_cve_violations in Hv as [Hn Hx].
    destruct Hs as [Hs | Hs]; rewrite Hs in *; simpl in *; [by left | right].
    split; [done |]. intros ->. done.
  - intros [Hc | [Hh Ht]]; right.
    + destruct (cve_violation_reported summary threshold Critical) as (v & Hv & Hs);
        [done | by destruct threshold | eauto].
    + destruct (cve_violation_reported summary threshold High) as (v & Hv & Hs);
        [done | by destruct threshold | eauto].
Qed.

Lemma policy_action_block vs action acc :
  acc_action (collect_with_policy_action vs action acc) = PA_Block ↔
  acc_action acc = PA_Block ∨ (vs ≠ [] ∧ action = PA_Block).
Proof.
  unfold collect_with_policy_action.
  destruct vs, action, (acc_action acc) eqn:E; simpl; rewrite ?E; naive_solver.
Qed.

(** The scan path passes no license: the evaluator finds at most a malformed
    policy, which warns. *)
Lemma no_license_no_block `{Unicode} policy vs action acc :
  evaluate_license_policy [] policy = (vs, action) →
  acc_action (collect_with_policy_action vs action acc) = PA_Block ↔ acc_action acc = PA_Block.
Proof.
  unfold evaluate_license_policy. intros Hl. rewrite policy_action_block.
  destruct (is_null policy), (as_object policy); simplify_eq/=; naive_solver.
Qed.

Lemma negligible_block action count acc :
  acc_action (collect_negligible_action action count acc) = PA_Block ↔
  acc_action acc = PA_Block ∨ (count ≠ 0 ∧ action = NA_Block).
Proof.
  unfold collect_negligible_action.
  destruct (Z.eqb_spec count 0), action; rewrite ?policy_action_block; naive_solver.
Qed.

(** The two evaluators block on the same counts. *)
Definition summary_blocks (policy : option ScanPolicyProjection) (s : SeveritySummary) : Prop :=
  (0 < critical s) ∨
  (0 < high s ∧ policy_or severity_threshold DefaultPolicy.block_on_critical policy ≠ Critical) ∨
  (negligible s ≠ 0 ∧
   policy_or negligible_action DefaultPolicy.negligible_action policy = NA_Block).

(** What an outcome says when [P] is the blocking condition. *)
Definition verdict_spec (policy : option ScanPolicyProjection) (P : Prop) (o : ScanOutcome)
    : Prop :=
  let enforcement := policy_or enforcement DefaultPolicy.enforcement policy in
  match o with
  | SO_Clean => ¬ P
  | SO_FindingsRecorded _ => P ∧ enforcement = SE_Record
  | SO_Reject _ => P ∧ enforcement = SE_Reject
  end.

Lemma verdict_of_spec policy P acc :
  (acc_action acc = PA_Block ↔ P) →
  verdict_spec policy P (verdict_of (policy_or enforcement DefaultPolicy.enforcement policy) acc).
Proof.
  intros HP. unfold verdict_of, verdict_spec.
  destruct (acc_action acc) eqn:E; [intuition congruence..|].
  destruct (policy_or enforcement _ policy); intuition congruence.
Qed.

Lemma scan_summary_spec s policy :
  verdict_spec policy (summary_blocks policy s) (evaluate_scan_summary s policy).
Proof.
  apply verdict_of_spec. rewrite negligible_block, cve_block. unfold summary_blocks. tauto.
Qed.

Section verdict.
Context `{Unicode}.
Implicit Types (coords : ArtifactCoords) (policy : option ScanPolicyProjection).

(** The findings the verdict is about. *)
Definition condemning coords kind findings policy exclusions now : list Finding :=
  filter (λ f, may_condemn_artifact kind (composite_verdict_mode_of policy) f = true)
    (remaining_findings (filter_excluded_findings findings exclusions coords now)).

Lemma scan_result_spec coords kind findings policy exclusions now :
  verdict_spec policy
    (summary_blocks policy
       (severity_summary_from_findings (condemning coords kind findings policy exclusions now)))
    (evaluate_scan_result coords kind findings policy exclusions now).
Proof.
  apply verdict_of_spec. rewrite negligible_block.
  unfold summary_blocks, condemning. rewrite <- Logic.or_assoc, <- cve_block.
  apply or_iff_compat_r. destruct policy as [p|]; [| done].
  destruct (has_license_policy (license_policy p)); [| done].
  destruct (evaluate_license_policy [] (license_policy p)) as [vs action] eqn:E.
  by apply (no_license_no_block _ _ _ _ E).
Qed.

Lemma summary_blocks_findings policy l :
  len l < 2 ^ 32 →
  summary_blocks policy (severity_summary_from_findings l) ↔
  ∃ f, f ∈ l ∧ blocks policy (bucket f).
Proof.
  intros Hl. unfold summary_blocks.
  pose proof (tally_positive l (Some Critical) Hl) as Hc; simpl in Hc.
  pose proof (tally_positive l (Some High) Hl) as Hh; simpl in Hh.
  pose proof (tally_positive l None Hl) as Hn; simpl in Hn.
  assert (0 ≤ negligible (severity_summary_from_findings l)).
  { pose proof (tally_summary l None Hl) as Ht. simpl in Ht. unfold len in Ht. lia. }
  rewrite Hc, Hh.
  assert (Hz : negligible (severity_summary_from_findings l) ≠ 0 ↔ ∃ f, f ∈ l ∧ bucket f = None)
    by (rewrite <- Hn; lia).
  rewrite Hz. split.
  - intros [(f & Hf & Hb) | [((f & Hf & Hb) & Ht) | ((f & Hf & Hb) & Ht)]];
      exists f; by rewrite Hb.
  - intros (f & Hf & Hb). destruct (bucket f) as [[]|] eqn:Eb; simpl in Hb; naive_solver.
Qed.

(** Whether finding [f] may decide a verdict about an artifact of kind [kind]:
    its component is not known to be absent, and it is not a composition-level
    statement about one constituent of a composite that carries the release
    authority itself. *)
Definition condemns policy kind (f : Finding) : Prop :=
  component_relation f ≠ NotContained ∧
  ¬ (statement f = FS_Filesystem ∧ is_composition_constituent kind = true ∧
     carries_release_authority (composite_verdict_mode_of policy) = true).

Lemma may_condemn_spec policy kind f :
  may_condemn_artifact kind (composite_verdict_mode_of policy) f = true ↔ condemns policy kind f.
Proof.
  unfold may_condemn_artifact, condemns.
  destruct (component_relation f), (statement f), (is_composition_constituent kind),
    (carries_release_authority _); simpl; intuition congruence.
Qed.

Lemma elem_of_condemning coords kind findings policy exclusions now f :
  f ∈ condemning coords kind findings policy exclusions now ↔
  f ∈ findings ∧ (∀ ex, ex ∈ exclusions → ¬ excludes coords now ex f) ∧ condemns policy kind f.
Proof.
  unfold condemning. rewrite list_elem_of_filter, may_condemn_spec, elem_of_remaining. tauto.
Qed.

Lemma condemning_length coords kind findings policy exclusions now :
  len (condemning coords kind findings policy exclusions now) ≤ len findings.
Proof.
  unfold condemning, len. rewrite remaining_findings_filter.
  pose proof (length_filter (λ f, existsb (applies coords now f) exclusions = false) findings).
  match goal with |- context [filter ?P ?l] => pose proof (length_filter P l) end. lia.
Qed.

(** A scan is refused exactly when some finding survives the exclusions
    (no active exclusion names it by identifier or alias, case-insensitively,
    with a package pattern that matches the artifact's name), may condemn this
    kind of artifact, and is critical, or high under a threshold other than
    critical, or informational under negligibleAction block.  The enforcement
    mode only decides between rejecting and recording; every other scan is
    clean. *)
Theorem scan_verdict_exact coords kind findings policy exclusions now :
  len findings < 2 ^ 32 →
  verdict_spec policy
    (∃ f, f ∈ findings ∧ (∀ ex, ex ∈ exclusions → ¬ excludes coords now ex f) ∧
          condemns policy kind f ∧ blocks policy (bucket f))
    (evaluate_scan_result coords kind findings policy exclusions now).
Proof.
  intros Hl. pose proof (scan_result_spec coords kind findings policy exclusions now) as Hv.
  assert (Hb : summary_blocks policy (severity_summary_from_findings
                 (condemning coords kind findings policy exclusions now)) ↔
               ∃ f, f ∈ findings ∧ (∀ ex, ex ∈ exclusions → ¬ excludes coords now ex f) ∧
                    condemns policy kind f ∧ blocks policy (bucket f)).
  { rewrite summary_blocks_findings.
    - setoid_rewrite elem_of_condemning. split; intros (f & Hf); exists f; tauto.
    - pose proof (condemning_length coords kind findings policy exclusions now). lia. }
  unfold verdict_spec in *. destruct (evaluate_scan_result _ _ _ _ _ _); tauto.
Qed.

(** A severity threshold of medium or low blocks nothing that high lets
    through: findings that are all medium or low are clean under every policy
    whose negligibleAction is not block, whatever its threshold. *)
Theorem medium_and_low_never_block coords kind findings policy exclusions now :
  len findings < 2 ^ 32 →
  (∀ f, f ∈ findings → severity f = Medium ∨ severity f = Low) →
  policy_or negligible_action DefaultPolicy.negligible_action policy ≠ NA_Block →
  evaluate_scan_result coords kind findings policy exclusions now = SO_Clean.
Proof.
  intros Hl Hs Hn. pose proof (scan_result_spec coords kind findings policy exclusions now) as Hv.
  assert (Hb : ¬ summary_blocks policy (severity_summary_from_findings
                   (condemning coords kind findings policy exclusions now))).
  { rewrite summary_blocks_findings.
    - intros (f & Hf & Hb). apply elem_of_condemning in Hf as [Hf _]. apply Hs in Hf.
      unfold bucket in Hb. destruct (is_informational f); [done |].
      by destruct Hf as [Hf | Hf]; rewrite Hf in Hb.
    - pose proof (condemning_length coords kind findings policy exclusions now). lia. }
  unfold verdict_spec in Hv. destruct (evaluate_scan_result _ _ _ _ _ _); tauto.
Qed.

Lemma remaining_name_only findings exclusions coords coords' now :
  co_name coords = co_name coords' →
  remaining_findings (filter_excluded_findings findings exclusions coords now) =
  remaining_findings (filter_excluded_findings findings exclusions coords' now).
Proof.
  intros Hn. rewrite !remaining_findings_filter. apply list_filter_iff. intros f.
  assert (Ha : ∀ ex, applies coords now f ex = applies coords' now f ex).
  { intros ex. unfold applies, matches_coords. by rewrite Hn. }
  rewrite !existsb_False. by setoid_rewrite Ha.
Qed.

Lemma scan_result_rejects coords kind findings policy exclusions now :
  (∃ vs, evaluate_scan_result coords kind findings policy exclusions now = SO_Reject vs) ↔
  ∃ vs, evaluate_scan_summary
    (severity_summary_from_findings (condemning coords kind findings policy exclusions now))
    policy = SO_Reject vs.
Proof.
  pose proof (scan_result_spec coords kind findings policy exclusions now) as H1.
  pose proof (scan_summary_spec
    (severity_summary_from_findings (condemning coords kind findings policy exclusions now))
    policy) as H2.
  unfold verdict_spec in *.
  destruct (evaluate_scan_result _ _ _ _ _ _), (evaluate_scan_summary _ _);
    split; intros (? & ?); try discriminate; eauto; exfalso; intuition congruence.
Qed.

(** Re-evaluating a rejected artifact from its stored findings decides what a
    fresh scan with the same findings would: it stays rejected exactly when
    that scan rejects; otherwise it goes back to quarantine while its deadline
    is ahead, and is released once the deadline has passed or if it has none. *)
Theorem re_evaluation_agrees_with_scan a coords kind summary findings policy exclusions
    deadline now :
  co_name coords = name a →
  let outcome :=
    decide_rejected_transition a kind summary (Some findings) policy exclusions
      (composite_verdict_mode_of policy) deadline now in
  (outcome = StillRejected ↔
   ∃ vs, evaluate_scan_result coords kind findings policy exclusions now = SO_Reject vs) ∧
  (outcome = ResetToQuarantined → ∃ d, deadline = Some d ∧ now < d) ∧
  (outcome = ResetToReleased → ∀ d, deadline = Some d → d ≤ now).
Proof.
  intros Hn outcome. rewrite scan_result_rejects. unfold condemning.
  rewrite (remaining_name_only _ _ coords (row_coords a)) by done.
  subst outcome. unfold decide_rejected_transition.
  destruct (evaluate_scan_summary _ _) as [| vs | vs]; [| by naive_solver |].
  - destruct deadline as [d|]; [destruct (Z.ltb_spec now d) |]; naive_solver lia.
  - destruct deadline as [d|]; [destruct (Z.ltb_spec now d) |]; naive_solver lia.
Qed.
End verdict.

(** ** Witnesses *)

Module SampleScan.
#[export] Instance uppercase : Unicode := λ s, s.

Definition finding (s : SeverityThreshold) (id : string) : Finding :=
  {| purl := "pkg:npm/left-pad@1.0.0"; vulnerability_id := id; severity := s;
     cvss_score := None; title := "t"; fixed_versions := []; source_scanner := "trivy";
     references := []; aliases := ["GHSA-1"%string]; informational_class := None;
     severity_basis := Assessed; component_relation := Subject; statement := FS_Bytes;
     advisory_published_at := None |}.

Definition policy (t : SeverityThreshold) : ScanPolicyProjection :=
  {| policy_id := 1; p_name := "p"; p_scope := PS_Global; severity_threshold := t;
     quarantine_duration_secs := 86400; require_approval := false; provenance_mode := PM_Off;
     provenance_backends := []; provenance_identities := []; max_artifact_age_secs := None;
     license_policy := VNull; archived := false; scan_backends := ["trivy"%string];
     rescan_interval_hours := 24; negligible_action := NA_Ignore; enforcement := SE_Reject;
     composite_verdict_mode := CV_Observed; stream_version := 0; p_created_at := 0;
     p_updated_at := 0 |}.

Definition coords : ArtifactCoords :=
  {| co_name := "left-pad"; co_name_as_published := "left-pad"; co_version := Some "1.0.0"%string;
     co_path := "left-pad-1.0.0.tgz"; co_format := RF_Other EmptyString; co_metadata := VNull |}.

Definition waiver (id : string) : ExclusionProjection :=
  {| exclusion_id := 7; x_policy_id := 1; cve_id := id; package_pattern := Some "left-*"%string;
     x_scope := PS_Global; x_reason := "accepted"; added_by_actor_id := None;
     expires_at := Some 1000 |}.

Definition row : Artifact :=
  {| artifact_id := 5; repository_id := 2; name := "left-pad"; name_as_published := "left-pad";
     version := Some "1.0.0"%string; path := "left-pad-1.0.0.tgz"; size_bytes := 10;
     sha256_checksum := "00"; sha1_checksum := None; md5_checksum := None;
     content_type := "application/gzip"; quarantine_status := QS_Rejected;
     rejection_reason := Some RR_Scanner; quarantine_window_start := Some 0;
     quarantine_deadline := Some 500; provenance_hold_indefinite := false;
     upstream_published_at := None; uploaded_by := None; a_created_at := 0; a_updated_at := 0;
     deleted_at := None |}.
End SampleScan.

#[local] Existing Instance SampleScan.uppercase.

(** A high finding blocks under a medium threshold until an exclusion names it
    by its alias. *)
Lemma scan_verdict_exact_witness :
  let run := evaluate_scan_result SampleScan.coords NpmTarball
               [SampleScan.finding High "CVE-1"] (Some (SampleScan.policy Medium)) in
  (∃ vs, run [] 10 = SO_Reject vs) ∧ run [SampleScan.waiver "ghsa-1"] 10 = SO_Clean ∧
  verdict_spec (Some (SampleScan.policy Medium))
    (∃ f, f ∈ [SampleScan.finding High "CVE-1"] ∧
          (∀ ex, ex ∈ [] → ¬ excludes SampleScan.coords 10 ex f) ∧
          condemns (Some (SampleScan.policy Medium)) NpmTarball f ∧
          blocks (Some (SampleScan.policy Medium)) (bucket f)) (run [] 10).
Proof.
  split; [eexists; vm_compute; reflexivity |]. split; [vm_compute; reflexivity |].
  apply (scan_verdict_exact SampleScan.coords NpmTarball [SampleScan.finding High "CVE-1"]
           (Some (SampleScan.policy Medium)) [] 10). vm_compute. reflexivity.
Defined.

Lemma medium_and_low_never_block_witness :
  evaluate_scan_result SampleScan.coords NpmTarball
    [SampleScan.finding Medium "CVE-1"; SampleScan.finding Low "CVE-2"]
    (Some (SampleScan.policy Low)) [] 10 = SO_Clean.
Proof.
  apply medium_and_low_never_block.
  - vm_compute. reflexivity.
  - intros f Hf. apply elem_of_cons in Hf as [-> | Hf]; [by left |].
    apply list_elem_of_singleton in Hf as ->. by right.
  - discriminate.
Defined.

Lemma re_evaluation_agrees_with_scan_witness :
  let outcome :=
    decide_rejected_transition SampleScan.row NpmTarball zero_summary
      (Some [SampleScan.finding Critical "CVE-1"]) (Some (SampleScan.policy Critical))
      [SampleScan.waiver "cve-1"] CV_Observed (Some 500) 10 in
  outcome = ResetToQuarantined ∧
  (outcome = StillRejected ↔
   ∃ vs, evaluate_scan_result SampleScan.coords NpmTarball
     [SampleScan.finding Critical "CVE-1"] (Some (SampleScan.policy Critical))
     [SampleScan.waiver "cve-1"] 10 = SO_Reject vs).
Proof.
  split; [vm_compute; reflexivity |].
  apply (re_evaluation_agrees_with_scan SampleScan.row SampleScan.coords NpmTarball zero_summary
           [SampleScan.finding Critical "CVE-1"] (Some (SampleScan.policy Critical))
           [SampleScan.waiver "cve-1"] (Some 500) 10). reflexivity.
Defined.
