(* ===== verification/PolicyGates.v ===== *)
(** The other pure gates of crates/hort-domain/src/policy/: curation rules
    (curation.rs), the age gate (age.rs), the start of the quarantine window
    (quarantine_anchor.rs) and the findings a rescan adds (scan_delta.rs). *)

From stdpp Require Import pretty.
From S2P Require Import Prelude.
From S2P Require Import RustStd.
From S2P Require Import Json.
From S2P Require Import Types.
From S2P Require Import Events.
From S2P Require Import Exclusion.
From S2P Require Import ScanEngine.

(** ** Curation *)

Definition format_matches (rule : CurationRule) (coords : ArtifactCoords) : bool :=
  match r_format rule with None => true | Some f => bool_decide (f = co_format coords) end.

Definition first_matching_rule (coords : ArtifactCoords) (rules : list CurationRule)
    : option CurationRule :=
  List.find (λ rule, format_matches rule coords &&
                     pattern_matches (r_package_pattern rule) (co_name coords)) rules.

Inductive CurationOutcome : Type :=
  | CO_Allow
  | CO_Warn (rule_name reason : string)
  | CO_Block (rule_name : string) (rule_id : Uuid) (reason : string).

Definition evaluate_curation (coords : ArtifactCoords) (rules : list CurationRule)
    : CurationOutcome :=
  match first_matching_rule coords rules with
  | None => CO_Allow
  | Some rule =>
      match r_action rule with
      | CA_Block => CO_Block (r_name rule) (r_id rule) (r_reason rule)
      | CA_Warn => CO_Warn (r_name rule) (r_reason rule)
      | CA_Allow => CO_Allow
      end
  end.

Inductive RetroactiveCurationOutcome : Type :=
  | NoChange
  | RetroWarn (rule_name reason : string) (rule_id : Uuid)
  | RetroBlock (rule_name reason : string) (rule_id : Uuid).

Definition evaluate_curation_retroactive (coords : ArtifactCoords) (rules : list CurationRule)
    : RetroactiveCurationOutcome :=
  match first_matching_rule coords rules with
  | None => NoChange
  | Some rule =>
      match r_action rule with
      | CA_Block => RetroBlock (r_name rule) (r_reason rule) (r_id rule)
      | CA_Warn => RetroWarn (r_name rule) (r_reason rule) (r_id rule)
      | CA_Allow => NoChange
      end
  end.

(** ** The age gate *)

Definition AGE_RULE : string := "max-artifact-age".

Definition evaluate_age_gates (artifact_ingested_at now : DateTime) (max_age_secs : option Z)
    : list PolicyViolation :=
  match max_age_secs with
  | None => []
  | Some max =>
      let age_secs := num_seconds (signed_duration_since now artifact_ingested_at) in
      if age_secs <=? max then []
      else
        [{| rule := AGE_RULE;
            v_severity := Medium;
            message := ("Artifact is " +:+ pretty age_secs +:+ " seconds old (maximum: " +:+
                        pretty max +:+ " seconds)")%string;
            details := json_obj [("age_secs"%string, value_of_i64 age_secs);
                                 ("max_age_secs"%string, value_of_i64 max)] |}]
  end.

(** ** The quarantine anchor *)

Record AnchorEvidence : Type := {
  minted_at : DateTime;
  window : Duration;
  explicit_override : option DateTime;
  first_seen_at : option DateTime;
  trusted_upstream_published_at : option DateTime;
  is_referenced_descendant : bool;
}.

Inductive AnchorSource : Type :=
  | AS_Override
  | AS_Mint
  | AS_FirstSeen
  | AS_TrustedUpstreamPublish
  | AS_ReferencedDescendant.

Record DerivedAnchor : Type := {
  anchor : DateTime;
  source : AnchorSource;
  upstream_clamp_fired : bool;
}.

(** One candidate of the loop. *)
Definition consider (best : DateTime * AnchorSource) (c : option DateTime * AnchorSource)
    : DateTime * AnchorSource :=
  match c with
  | (Some ts, candidate_source) => if ts <? best.1 then (ts, candidate_source) else best
  | (None, _) => best
  end.

(** [None] is the panic of [minted_at - window] outside chrono's range. *)
Definition derive_quarantine_anchor (evidence : AnchorEvidence) : option DerivedAnchor :=
  match explicit_override evidence with
  | Some explicit =>
      Some {| anchor := explicit; source := AS_Override; upstream_clamp_fired := false |}
  | None =>
      let clamp_fired :=
        match trusted_upstream_published_at evidence with
        | Some ts => minted_at evidence <? ts
        | None => false
        end in
      let clamped_upstream :=
        (λ ts, Z.min ts (minted_at evidence)) <$> trusted_upstream_published_at evidence in
      descendant ←
        (if is_referenced_descendant evidence
         then Some <$> time_sub (minted_at evidence) (window evidence) else Some None);
      let '(best, from) :=
        foldl consider (minted_at evidence, AS_Mint)
          [(first_seen_at evidence, AS_FirstSeen);
           (clamped_upstream, AS_TrustedUpstreamPublish);
           (descendant, AS_ReferencedDescendant)] in
      Some {| anchor := best; source := from; upstream_clamp_fired := clamp_fired |}
  end.

(** ** Findings a rescan adds *)

Definition finding_key (f : Finding) : string * string :=
  (purl f, to_ascii_lowercase (vulnerability_id f)).

Definition compute_added_findings (prior current : list Finding) : list Finding :=
  if is_empty current then []
  else
    let prior_keys : gset (string * string) := list_to_set (finding_key <$> prior) in
    filter (λ f, finding_key f ∉ prior_keys) current.

(** ** Properties *)

(** The instants a start of the window may be taken from. *)
Definition anchor_candidates (e : AnchorEvidence) : list DateTime :=
  minted_at e ::
  option_list (first_seen_at e) ++ option_list (trusted_upstream_published_at e) ++
  (if is_referenced_descendant e then [minted_at e - window e] else []).

(** Without an operator override the quarantine window starts at the earliest
    of the mint time, the first sighting, the trusted publication time and, for
    a referenced descendant, the mint time less the window: it is one of them
    and none is earlier.  In particular it is never after the mint time, and a
    publication time in the future changes nothing but the clamp flag.  An
    override is used as it is. *)
Theorem anchor_is_earliest e d :
  derive_quarantine_anchor e = Some d →
  match explicit_override e with
  | Some explicit => anchor d = explicit ∧ source d = AS_Override
  | None =>
      anchor d ∈ anchor_candidates e ∧
      (∀ t, t ∈ anchor_candidates e → anchor d ≤ t) ∧
      (upstream_clamp_fired d = true ↔
       ∃ t, trusted_upstream_published_at e = Some t ∧ minted_at e < t)
  end.
Proof.
  unfold derive_quarantine_anchor, anchor_candidates.
  destruct (explicit_override e) as [x|]; [by intros [= <-] |].
  destruct (is_referenced_descendant e).
  - destruct (time_sub _ _) as [t|] eqn:Et; [| done]. apply checked_time_Some in Et as [-> _].
    destruct (first_seen_at e) as [fs|], (trusted_upstream_published_at e) as [up|];
      simpl; repeat case_match; intros [= <-]; simpl; set_unfold; breflect; naive_solver lia.
  - destruct (first_seen_at e) as [fs|], (trusted_upstream_published_at e) as [up|];
      simpl; repeat case_match; intros [= <-]; simpl; set_unfold; breflect; naive_solver lia.
Qed.

Definition sample_evidence : AnchorEvidence :=
  {| minted_at := 1000; window := 300; explicit_override := None; first_seen_at := Some 900;
     trusted_upstream_published_at := Some 2000; is_referenced_descendant := true |}.

Lemma anchor_is_earliest_witness :
  let d := {| anchor := 700; source := AS_ReferencedDescendant; upstream_clamp_fired := true |} in
  derive_quarantine_anchor sample_evidence = Some d ∧
  ∀ t, t ∈ anchor_candidates sample_evidence → 700 ≤ t.
Proof.
  split; [vm_compute; reflexivity |].
  apply (anchor_is_earliest sample_evidence
           {| anchor := 700; source := AS_ReferencedDescendant; upstream_clamp_fired := true |}).
  vm_compute. reflexivity.
Defined.

(** Rule [r] is about the package: the formats agree and the pattern, read as a
    glob, matches the name. *)
Definition rule_matches (coords : ArtifactCoords) (r : CurationRule) : Prop :=
  (∀ f, r_format r = Some f → f = co_format coords) ∧
  glob (as_bytes (r_package_pattern r)) (as_bytes (co_name coords)).

Lemma rule_matches_spec coords r :
  format_matches r coords && pattern_matches (r_package_pattern r) (co_name coords) = true ↔
  rule_matches coords r.
Proof.
  unfold rule_matches, format_matches, pattern_matches.
  rewrite andb_true_iff, matches_inner_glob.
  destruct (r_format r); [rewrite bool_decide_eq_true |]; naive_solver.
Qed.

Lemma first_matching_rule_spec coords rules r :
  first_matching_rule coords rules = Some r ↔
  ∃ before after, rules = before ++ r :: after ∧ rule_matches coords r ∧
                  ∀ r', r' ∈ before → ¬ rule_matches coords r'.
Proof.
  unfold first_matching_rule. induction rules as [| r0 rules IH]; simpl.
  - split; [done |]. by intros ([|] & ? & ? & _).
  - destruct (_ && _) eqn:E.
    + apply rule_matches_spec in E. split.
      * intros [= <-]. exists [], rules. split_and!; [done..|]. by intros ? ?%elem_of_nil.
      * intros (before & after & Heq & Hr & Hb). destruct before as [| r1 before]; simplify_eq/=; [done |].
        destruct (Hb r1); [left | done].
    + assert (Hr0 : ¬ rule_matches coords r0) by (rewrite <- rule_matches_spec; congruence).
      rewrite IH. split.
      * intros (before & after & -> & Hr & Hb). exists (r0 :: before), after.
        split_and!; [done..|]. intros r' [-> | Hr']%elem_of_cons; [done | by apply Hb].
      * intros (before & after & Heq & Hr & Hb). destruct before as [| r1 before]; simplify_eq/=; [done |].
        exists before, after. split_and!; [done..|]. intros r' Hr'. apply Hb. by right.
Qed.

(** A package is blocked by the first curation rule that is about it, and only
    when that rule says so: the ingest gate blocks with rule [r] exactly when
    [r] is a blocking rule that matches (format, and package pattern read as a
    glob) and no earlier rule matches; the retroactive sweep blocks the same
    packages with the same rule. *)
Theorem curation_first_match_blocks coords rules n i reason :
  (evaluate_curation coords rules = CO_Block n i reason ↔
   ∃ before r after, rules = before ++ r :: after ∧ rule_matches coords r ∧
     (∀ r', r' ∈ before → ¬ rule_matches coords r') ∧
     r_action r = CA_Block ∧ n = r_name r ∧ i = r_id r ∧ reason = r_reason r) ∧
  (evaluate_curation coords rules = CO_Block n i reason ↔
   evaluate_curation_retroactive coords rules = RetroBlock n reason i).
Proof.
  unfold evaluate_curation, evaluate_curation_retroactive.
  destruct (first_matching_rule coords rules) as [r|] eqn:E.
  - split; [| destruct (r_action r); naive_solver]. split.
    + intros Hb. apply first_matching_rule_spec in E as (before & after & ? & ? & ?).
      exists before, r, after. destruct (r_action r); simplify_eq; naive_solver.
    + intros (before & r' & after & Heq & Hm & Hb & Ha & -> & -> & ->).
      assert (Hr : first_matching_rule coords rules = Some r')
        by (apply first_matching_rule_spec; eauto).
      assert (r' = r) as -> by congruence. by rewrite Ha.
  - split; [| done]. split; [done |]. intros (before & r & after & Heq & Hm & Hb & _).
    assert (Hr : first_matching_rule coords rules = Some r)
      by (apply first_matching_rule_spec; eauto). congruence.
Qed.

(** A rescan reports the findings whose component and identifier (letter case
    aside) the previous scan did not have. *)
Lemma elem_of_added_findings prior current f :
  f ∈ compute_added_findings prior current ↔
  f ∈ current ∧ ∀ g, g ∈ prior → finding_key g ≠ finding_key f.
Proof.
  unfold compute_added_findings. destruct (is_empty current) eqn:E.
  - apply is_empty_true in E as ->. rewrite elem_of_nil. naive_solver.
  - rewrite list_elem_of_filter, elem_of_list_to_set, list_elem_of_fmap. split.
    + intros [Hn Hf]. split; [done |]. intros g Hg Heq. apply Hn. by exists g.
    + intros [Hf Hn]. split; [| done]. intros (g & Heq & Hg). by apply (Hn g).
Qed.
