(* ===== verification/ScanHistory.v ===== *)
(** What an artifact's event stream says: crates/hort-app/src/use_cases/
    scan_history.rs and release_clearance.rs, and the release authority of
    quarantine_use_case.rs.

    Every decision about an artifact is taken from these readers, never from
    columns of the row: the latest scan and whether a rejection superseded it,
    the latest rejection reason, the origin of the latest release, and whether
    a provenance verification is on record. *)

From S2P Require Import Prelude.
From S2P Require Import RustStd.
From S2P Require Import Json.
From S2P Require Import Types.
From S2P Require Import Events.
From S2P Require Import Exclusion.
From S2P Require Import QuarantineTransitions.
From S2P Require Import Artifact.
From S2P Require Import ScanEngine.
From S2P Require Import PolicyGates.

(** ** Readers of the stream *)

(** [iter().find_map(f)]; [iter().rev().find_map(f)] is [find_map f] of the
    reversed list. *)
Fixpoint find_map {A B} (f : A → option B) (l : list A) : option B :=
  match l with
  | [] => None
  | x :: l' => match f x with Some y => Some y | None => find_map f l' end
  end.

Definition find_last {B} (f : DomainEvent → option B) (stream : list PersistedEvent) : option B :=
  find_map (λ e, f (event e)) (reverse stream).

Record ScanCompletedSnapshot : Type := {
  ss_summary : SeveritySummary;
  ss_findings_blob : option ContentHash;
}.

Definition last_scan_completed (stream : list PersistedEvent) : option ScanCompletedSnapshot :=
  find_last (λ e,
    match e with
    | DE_ScanCompleted sc =>
        Some {| ss_summary := severity_summary sc; ss_findings_blob := findings_blob sc |}
    | _ => None
    end) stream.

Definition last_rejection_reason (stream : list PersistedEvent) : option RejectionReason :=
  find_last (λ e, match e with DE_ArtifactRejected r => Some (rejected_by r) | _ => None end)
    stream.

Definition latest_release_origin (stream : list PersistedEvent) : ReleaseOrigin :=
  default NeverReleased
    (find_last (λ e, match e with
                     | DE_ArtifactReleased r => Some (ReleasedBy (released_by r))
                     | _ => None
                     end) stream).

(** [Self::prior_scan_completed] of quarantine_use_case.rs. *)
Definition prior_scan_completed (stream : list PersistedEvent)
    : option (ScanCompleted * DateTime) :=
  find_map (λ e, match event e with
                 | DE_ScanCompleted sc => Some (sc, stored_at e)
                 | _ => None
                 end) (reverse stream).

Inductive FindingsEvidence : Type :=
  | Resolved (findings : list Finding)
  | Absent
  | Unreadable (summary : SeveritySummary).

(** [storage_get] is [StoragePort::get], the read of the body and its JSON
    decoding; [None] is a failure of any of the three. *)
Definition last_findings (storage_get : ContentHash → option (list Finding))
    (stream : list PersistedEvent) : FindingsEvidence :=
  match last_scan_completed stream with
  | None => Absent
  | Some snapshot =>
      match ss_findings_blob snapshot with
      | None => Absent
      | Some blob_hash =>
          match storage_get blob_hash with
          | Some findings => Resolved findings
          | None => Unreadable (ss_summary snapshot)
          end
      end
  end.

(** ** Where the latest scan stands *)

Inductive ScanStanding : Type :=
  | Unobserved
  | Superseded
  | Clears (findings_present : bool)
  | Holds.

Definition observation_stands (s : ScanStanding) : bool :=
  match s with Clears _ | Holds => true | Unobserved | Superseded => false end.

Record LatestScan : Type := {
  clean_count : bool;
  ls_verdict : option PolicyResult;
  rejected_after : bool;
}.

(** One iteration of the loop. *)
Definition observe_event (latest : option LatestScan) (e : DomainEvent) : option LatestScan :=
  match e with
  | DE_ScanCompleted sc =>
      Some {| clean_count := finding_count sc =? 0; ls_verdict := None; rejected_after := false |}
  | DE_PolicyEvaluated p =>
      (λ scan,
         if negb (is_some (ls_verdict scan)) then
           {| clean_count := clean_count scan; ls_verdict := Some (pe_result p);
              rejected_after := rejected_after scan |}
         else scan) <$> latest
  | DE_ArtifactRejected _ =>
      (λ scan, {| clean_count := clean_count scan; ls_verdict := ls_verdict scan;
                  rejected_after := true |}) <$> latest
  | _ => latest
  end.

Definition standing_of (latest : option LatestScan) : ScanStanding :=
  match latest with
  | None => Unobserved
  | Some scan =>
      if rejected_after scan then Superseded
      else
        match ls_verdict scan with
        | Some PR_Pass => Clears (negb (clean_count scan))
        | Some PR_Fail => Holds
        | None => if clean_count scan then Clears false else Holds
        end
  end.

Definition latest_scan_standing (events : list DomainEvent) : ScanStanding :=
  standing_of (foldl observe_event None events).

(** ** Release authority *)

Definition release_authority_label (authz : ReleaseAuthorization) : string :=
  match authz with
  | ScanSucceeded => "scan_succeeded"
  | ScanCleared => "scan_cleared"
  | ScanWaived => "scan_waived"
  | ScanRecorded => "scan_recorded"
  | PolicyReEvaluation => "policy_re_evaluation"
  | CuratorWaiver => "curator_waiver"
  end.

Definition clearing_scan_authority (standing : ScanStanding) : option ReleaseAuthorization :=
  match standing with
  | Clears false => Some ScanSucceeded
  | Clears true => Some ScanCleared
  | Holds | Unobserved | Superseded => None
  end.

Definition scan_axis_release_authority (standing : ScanStanding)
    (policy : option ScanPolicyProjection) : option ReleaseAuthorization :=
  match clearing_scan_authority standing with
  | Some authz => Some authz
  | None =>
      let record_mode :=
        match policy with Some p => bool_decide (enforcement p = SE_Record) | None => false end in
      if record_mode && observation_stands standing then Some ScanRecorded
      else
        let no_scan_evidence :=
          match standing with
          | Unobserved => true
          | Clears _ | Holds | Superseded => false
          end in
        if no_scan_evidence &&
           match policy with Some p => is_empty (scan_backends p) | None => false end
        then Some ScanWaived
        else None
  end.

Definition provenance_mode_of (policy : option ScanPolicyProjection) : ProvenanceMode :=
  policy_or provenance_mode ProvenanceMode_default policy.

Definition resolve_release_authority (persisted : list PersistedEvent)
    (policy : option ScanPolicyProjection) : option ReleaseAuthorization :=
  scan_axis_release_authority (latest_scan_standing (event <$> persisted)) policy.

(** ** The other release axes *)

Definition is_verified_event (e : DomainEvent) : bool :=
  match e with DE_ProvenanceVerified _ => true | _ => false end.

Definition provenance_clearance_from (stream : list PersistedEvent) (mode : ProvenanceMode)
    : ProvenanceClearance :=
  match mode with
  | PM_Off | PM_VerifyIfPresent => PC_NotRequired
  | PM_Required =>
      if existsb (λ e, is_verified_event (event e)) stream then PC_Cleared else PC_Pending
  end.

(** [resolve_curation_clearance], from the repository's rules and format. *)
Definition resolve_curation_clearance (rules : list CurationRule)
    (format : option RepositoryFormat) (artifact : Artifact) : CurationClearance :=
  if is_empty rules then CC_Cleared
  else
    let coords :=
      {| co_name := name artifact; co_name_as_published := name_as_published artifact;
         co_version := version artifact; co_path := path artifact;
         co_format := default Generic format; co_metadata := VNull |} in
    match evaluate_curation coords rules with
    | CO_Block _ _ _ => CC_Blocked
    | CO_Warn _ _ | CO_Allow => CC_Cleared
    end.

(** [provenance_rejection_evidence] of provenance_misrejection_repair.rs: the
    loop after the early return for a verified stream. *)
Fixpoint rejection_evidence_loop (unsigned_seen : bool) (stream : list PersistedEvent)
    : ProvenanceRejectionEvidence :=
  match stream with
  | [] => if unsigned_seen then NeverTerminal else NoVerdict
  | persisted :: stream' =>
      match event persisted with
      | DE_ProvenanceRejected rejected =>
          match pj_reason rejected with
          | Unsigned => rejection_evidence_loop true stream'
          | disproof => Disproved disproof
          end
      | _ => rejection_evidence_loop unsigned_seen stream'
      end
  end.

Definition provenance_rejection_evidence (stream : list PersistedEvent)
    : ProvenanceRejectionEvidence :=
  match provenance_clearance_from stream PM_Required with
  | PC_Cleared => Contradicted
  | _ => rejection_evidence_loop false stream
  end.

(** ** What the readers mean *)

Definition is_scan_event (e : DomainEvent) : bool :=
  match e with DE_ScanCompleted _ => true | _ => false end.

Definition no_scan (events : list DomainEvent) : Prop :=
  ∀ e, e ∈ events → is_scan_event e = false.

(** The verdict of the first policy evaluation. *)
Definition first_verdict (events : list DomainEvent) : option PolicyResult :=
  find_map (λ e, match e with DE_PolicyEvaluated p => Some (pe_result p) | _ => None end) events.

Lemma observe_no_scan_None events :
  no_scan events → foldl observe_event None events = None.
Proof.
  induction events as [| e events IH]; [done |]. intros Hn. simpl.
  assert (He : is_scan_event e = false) by (apply Hn; left).
  assert (Ho : observe_event None e = None) by by destruct e.
  rewrite Ho. apply IH. intros e' He'. apply Hn. by right.
Qed.

Lemma observe_no_scan_Some events s :
  no_scan events →
  foldl observe_event (Some s) events =
  Some {| clean_count := clean_count s;
          ls_verdict := match ls_verdict s with Some v => Some v | None => first_verdict events end;
          rejected_after := rejected_after s || has_terminal_rejection_event events |}.
Proof.
  revert s. induction events as [| e events IH]; intros [c v r] Hn.
  - simpl. unfold has_terminal_rejection_event. simpl. rewrite orb_false_r. by destruct v.
  - assert (He : is_scan_event e = false) by (apply Hn; left).
    assert (Hn' : no_scan events) by (intros e' He'; apply Hn; by right).
    cbn [foldl]. unfold has_terminal_rejection_event in *.
    destruct e; try discriminate He; simpl; rewrite IH by done; simpl; try done.
    + by rewrite orb_true_r.
    + by destruct v.
Qed.

(** Every history has no scan, or a latest one. *)
Lemma latest_scan_split events :
  no_scan events ∨
  ∃ before sc after, events = before ++ DE_ScanCompleted sc :: after ∧ no_scan after.
Proof.
  induction events as [| e events IH]; [left; by intros e ?%elem_of_nil |].
  destruct IH as [IH | (before & sc & after & -> & Hn)].
  - destruct (is_scan_event e) eqn:E.
    + destruct e; try discriminate E. right. by exists [], e, events.
    + left. intros e' [-> | He']%elem_of_cons; [done | by apply IH].
  - right. by exists (e :: before), sc, after.
Qed.

Lemma standing_no_scan events : no_scan events → latest_scan_standing events = Unobserved.
Proof. intros Hn. unfold latest_scan_standing. by rewrite observe_no_scan_None. Qed.

Lemma standing_after_scan before sc after :
  no_scan after →
  latest_scan_standing (before ++ DE_ScanCompleted sc :: after) =
  if has_terminal_rejection_event after then Superseded
  else match first_verdict after with
       | Some PR_Pass => Clears (negb (finding_count sc =? 0))
       | Some PR_Fail => Holds
       | None => if finding_count sc =? 0 then Clears false else Holds
       end.
Proof.
  intros Hn. unfold latest_scan_standing. rewrite foldl_app. cbn [foldl observe_event].
  by rewrite observe_no_scan_Some.
Qed.

Lemma has_terminal_rejection_false events :
  has_terminal_rejection_event events = false ↔ ∀ r, DE_ArtifactRejected r ∉ events.
Proof.
  unfold has_terminal_rejection_event. rewrite existsb_False. split.
  - intros H r Hr. by apply H in Hr.
  - intros H e He. destruct e; try done. by apply H in He.
Qed.

(** The evidence that entitles the timer to release: what the latest scan
    proves, or, when nothing was ever scanned, a policy that waives scanning. *)
Definition scan_authority_evidence (events : list DomainEvent)
    (policy : option ScanPolicyProjection) (z : ReleaseAuthorization) : Prop :=
  (∃ before sc after,
     events = before ++ DE_ScanCompleted sc :: after ∧ no_scan after ∧
     (∀ r, DE_ArtifactRejected r ∉ after) ∧
     ((z = ScanSucceeded ∧ finding_count sc = 0 ∧ first_verdict after ≠ Some PR_Fail) ∨
      (z = ScanCleared ∧ finding_count sc ≠ 0 ∧ first_verdict after = Some PR_Pass) ∨
      (z = ScanRecorded ∧ (∃ p, policy = Some p ∧ enforcement p = SE_Record) ∧
       (first_verdict after = Some PR_Fail ∨
        (first_verdict after = None ∧ finding_count sc ≠ 0))))) ∨
  (z = ScanWaived ∧ no_scan events ∧ ∃ p, policy = Some p ∧ scan_backends p = []).

Lemma waived_spec policy :
  match policy with Some p => is_empty (scan_backends p) | None => false end = true ↔
  ∃ p, policy = Some p ∧ scan_backends p = [].
Proof. destruct policy; [rewrite is_empty_true |]; naive_solver. Qed.

Lemma record_mode_spec policy :
  match policy with Some p => bool_decide (enforcement p = SE_Record) | None => false end = true ↔
  ∃ p, policy = Some p ∧ enforcement p = SE_Record.
Proof. destruct policy; [rewrite bool_decide_eq_true |]; naive_solver. Qed.

Lemma authority_of_standing standing policy z :
  scan_axis_release_authority standing policy = Some z ↔
  (z = ScanSucceeded ∧ standing = Clears false) ∨ (z = ScanCleared ∧ standing = Clears true) ∨
  (z = ScanRecorded ∧ standing = Holds ∧ ∃ p, policy = Some p ∧ enforcement p = SE_Record) ∨
  (z = ScanWaived ∧ standing = Unobserved ∧ ∃ p, policy = Some p ∧ scan_backends p = []).
Proof.
  rewrite <- record_mode_spec, <- waived_spec. unfold scan_axis_release_authority.
  destruct standing as [| | [] |]; simpl; rewrite ?andb_false_r, ?andb_true_r;
    repeat case_match; naive_solver.
Qed.

Lemma split_unique before sc after before' sc' after' :
  before ++ DE_ScanCompleted sc :: after = before' ++ DE_ScanCompleted sc' :: after' →
  no_scan after → no_scan after' → before = before' ∧ sc = sc' ∧ after = after'.
Proof.
  revert before'. induction before as [| e before IH]; intros [| e' before'] Heq Hn Hn'.
  - by simplify_eq/=.
  - simplify_eq/=. specialize (Hn (DE_ScanCompleted sc')). discriminate Hn.
    apply elem_of_app. right. left.
  - simplify_eq/=. specialize (Hn' (DE_ScanCompleted sc)). discriminate Hn'.
    apply elem_of_app. right. left.
  - simplify_eq/=. destruct (IH before') as (-> & -> & ->); done.
Qed.

Lemma scan_authority_iff events policy z :
  scan_axis_release_authority (latest_scan_standing events) policy = Some z ↔
  scan_authority_evidence events policy z.
Proof.
  rewrite authority_of_standing. unfold scan_authority_evidence.
  destruct (latest_scan_split events) as [Hn | (before & sc & after & -> & Hn)].
  - rewrite standing_no_scan by done. split; [naive_solver |].
    intros [(before & sc & after & -> & _) | ?]; [| naive_solver].
    specialize (Hn (DE_ScanCompleted sc)). discriminate Hn. apply elem_of_app. right. left.
  - rewrite standing_after_scan by done. split.
    + intros H. left. exists before, sc, after.
      destruct (has_terminal_rejection_event after) eqn:Er; [naive_solver |].
      pose proof (proj1 (has_terminal_rejection_false after) Er). split_and!; [done..|].
      destruct (first_verdict after) as [[]|], (Z.eqb_spec (finding_count sc) 0); naive_solver.
    + intros [(b & s & a & Heq & Ha & Hr & Hz) | (_ & Hno & _)].
      * apply split_unique in Heq as (-> & -> & ->); [| done..].
        rewrite (proj2 (has_terminal_rejection_false a) Hr).
        destruct (first_verdict a) as [[]|], (Z.eqb_spec (finding_count s) 0); naive_solver.
      * specialize (Hno (DE_ScanCompleted sc)). discriminate Hno.
        apply elem_of_app. right. left.
Qed.

(** C35. The stream decides the scan authority, and nothing else does: the timer
    has scan authority [z] exactly when the latest scan on the stream, not
    followed by any rejection, was finding-free and not failed by policy, or
    had findings that policy passed, or was recorded without enforcement — or
    there never was a scan and the policy configures no scanner. *)
Theorem scan_authority_exact events policy z :
  scan_axis_release_authority (latest_scan_standing events) policy = Some z ↔
  scan_authority_evidence events policy z.
Proof. apply scan_authority_iff. Qed.
