(* ===== verification/Store.v ===== *)
(** The artifact store as the use cases see it: the paired read of
    crates/hort-app/src/use_cases/mod.rs ([ArtifactAtVersion]), and the writes
    of crates/hort-adapters-postgres/src/ (event_store.rs, artifact_repo.rs,
    artifact_lifecycle.rs, mappers.rs).

    A database maps an artifact to its row and its event stream; an event's
    position is its index.  A unit of work either commits or changes nothing.
    What is written beside the row and the stream (findings, SBOM components,
    scores, metadata, job queue) is left out, and so are failures of the
    database itself. *)

From S2P Require Import Prelude.
From S2P Require Import RustStd.
From S2P Require Import Json.
From S2P Require Import Types.
From S2P Require Import Events.
From S2P Require Import QuarantineTransitions.
From S2P Require Import Artifact.

(** ** State *)

Record Entry : Type := {
  row : Artifact;
  stream : list PersistedEvent;
}.

Abbreviation Db := (gmap Uuid Entry).

(** [OidcValidationError] of ports/identity_provider.rs. *)
Inductive OidcValidationError : Type :=
  | Oidc_Expired
  | Oidc_UnknownIssuer
  | Oidc_Malformed
  | Oidc_SignatureInvalid
  | Oidc_AudienceMismatch
  | Oidc_IdpUnavailable
  | Oidc_ClaimMissing (name : string).

Inductive AppError : Type :=
  | AE_Domain (e : DomainError)
  | AE_Storage (text : fmt)
  | AE_OidcValidation (e : OidcValidationError)
  | AE_Unauthorized (text : fmt).

Abbreviation AppResult := (result AppError).

Definition lift_domain {A} (r : DomainResult A) : AppResult A := map_err AE_Domain r.

(** The stream of an artifact; empty when it has none. *)
Definition stream_of (db : Db) (id : Uuid) : list PersistedEvent :=
  match db !! id with Some e => stream e | None => [] end.

(** ** Rows

    The reason of a rejection, the computed deadline and the hold flag are never
    stored: a row read back carries none. *)

Definition hydrate (a : Artifact) : Artifact :=
  {| artifact_id := artifact_id a; repository_id := repository_id a; name := name a;
     name_as_published := name_as_published a; version := version a; path := path a;
     size_bytes := size_bytes a; sha256_checksum := sha256_checksum a;
     sha1_checksum := sha1_checksum a; md5_checksum := md5_checksum a;
     content_type := content_type a; quarantine_status := quarantine_status a;
     rejection_reason := None; quarantine_window_start := quarantine_window_start a;
     quarantine_deadline := None; provenance_hold_indefinite := false;
     upstream_published_at := upstream_published_at a; uploaded_by := uploaded_by a;
     a_created_at := a_created_at a; a_updated_at := a_updated_at a; deleted_at := deleted_at a |}.

(** The upsert: an existing row keeps its repository, its creation time and its
    deletion mark. *)
Definition upsert (old : option Artifact) (a : Artifact) : Artifact :=
  {| artifact_id := artifact_id a;
     repository_id := match old with Some o => repository_id o | None => repository_id a end;
     name := name a; name_as_published := name_as_published a; version := version a;
     path := path a; size_bytes := size_bytes a; sha256_checksum := sha256_checksum a;
     sha1_checksum := sha1_checksum a; md5_checksum := md5_checksum a;
     content_type := content_type a; quarantine_status := quarantine_status a;
     rejection_reason := None; quarantine_window_start := quarantine_window_start a;
     quarantine_deadline := None; provenance_hold_indefinite := false;
     upstream_published_at := upstream_published_at a; uploaded_by := uploaded_by a;
     a_created_at := match old with Some o => a_created_at o | None => a_created_at a end;
     a_updated_at := a_updated_at a;
     deleted_at := match old with Some o => deleted_at o | None => None end |}.

Definition not_found (id : Uuid) : DomainError := NotFound "Artifact" [ArgUuid id].

Definition find_by_id (db : Db) (id : Uuid) : DomainResult Artifact :=
  match db !! id with
  | Some e => if is_some (deleted_at (row e)) then Err (not_found id) else Ok (hydrate (row e))
  | None => Err (not_found id)
  end.

(** ** The paired read *)

Inductive ExpectedVersion : Type :=
  | EV_NoStream
  | EV_Exact (position : Z)
  | EV_Any.

Definition STREAM_EVENT_CAP : Z := 200.

Record CappedArtifactRead : Type := {
  events : list PersistedEvent;
  over_cap : bool;
}.

Definition read_expected_version (r : CappedArtifactRead) : ExpectedVersion :=
  if is_empty (events r) then EV_NoStream else EV_Exact (len (events r) - 1).

(** [read_stream] from the start, at most [STREAM_EVENT_CAP + 1] events. *)
Definition capped_read (stored : list PersistedEvent) : CappedArtifactRead :=
  let stream_events := take (Z.to_nat (STREAM_EVENT_CAP + 1)) stored in
  {| events := stream_events; over_cap := STREAM_EVENT_CAP <? len stream_events |}.

Definition capped_artifact_read (db : Db) (id : Uuid) : CappedArtifactRead :=
  capped_read (stream_of db id).

Inductive OverCapStream : Type :=
  | Refuse
  | Tolerate.

Definition over_cap_refusal (id : Uuid) : AppError :=
  AE_Domain (Invariant [Lit "stream artifact-"; ArgUuid id; Lit " exceeds the ";
                        ArgInt STREAM_EVENT_CAP;
                        Lit "-event cap — a capped read cannot prove it reached the tail, so no decision is derived from it"]).

Record ArtifactAtVersion : Type := {
  av_artifact : Artifact;
  av_read : CappedArtifactRead;
  av_id : Uuid;
  expected_version : ExpectedVersion;
}.

Definition read_or_refuse (db : Db) (id : Uuid) (over_cap_mode : OverCapStream)
    : AppResult CappedArtifactRead :=
  let read := capped_artifact_read db id in
  match over_cap_mode with
  | Refuse =>
      if over_cap read then
        Err (AE_Domain (Conflict [Lit "stream artifact-"; ArgUuid id; Lit " exceeds ";
                                  ArgInt STREAM_EVENT_CAP; Lit "-event cap"]))
      else Ok read
  | Tolerate => Ok read
  end.

Definition assemble (a : Artifact) (id : Uuid) (read : CappedArtifactRead) : ArtifactAtVersion :=
  {| av_artifact := a; av_read := read; av_id := id;
     expected_version := read_expected_version read |}.

(** [ArtifactAtVersion::load]: the stream is read in [db], the row afterwards in
    [db'], which may be a later state. *)
Definition load_across (db db' : Db) (id : Uuid) (over_cap_mode : OverCapStream)
    : AppResult ArtifactAtVersion :=
  read ← read_or_refuse db id over_cap_mode;
  artifact ← lift_domain (find_by_id db' id);
  mret (assemble artifact id read).

Definition load (db : Db) (id : Uuid) (over_cap_mode : OverCapStream)
    : AppResult ArtifactAtVersion :=
  load_across db db id over_cap_mode.

Definition evidence (p : ArtifactAtVersion) : AppResult (list PersistedEvent) :=
  if over_cap (av_read p) then Err (over_cap_refusal (av_id p)) else Ok (events (av_read p)).

(** ** Writes *)

(** The JSON the derived [Serialize] gives an event, of which only the size
    matters here. *)
Class EventWire : Type := serialize_event_data : DomainEvent → Value.

Definition MAX_EVENT_JSON_BYTES : Z := 64 * 1024.

Definition validate_and_serialize `{EventWire, SerdeJson} (batch : list DomainEvent)
    : DomainResult unit :=
  validate_all (λ e,
    _ ← DomainEvent_validate e;
    let size := strlen (json_to_string (serialize_event_data e)) in
    if MAX_EVENT_JSON_BYTES <? size then
      Err (Validation [Lit "serialized event "; ArgStr (event_type e);
                       Lit " exceeds 64 KB limit ("; ArgInt size; Lit " bytes)"])
    else Ok ()) batch.

(** [Display] of a [StreamId]. *)
Definition artifact_stream (id : Uuid) : fmt := [Lit "artifact-"; ArgUuid id].
Definition policy_stream (id : Uuid) : fmt := [Lit "policy-"; ArgUuid id].

(** Expected positions are read from a [BIGINT] column, so they are below 2^63 and the
    cast [expected as i64] leaves them as they are. *)
Definition check_expected_version {A} (expected : ExpectedVersion) (stream_id : fmt)
    (current : list A) : DomainResult unit :=
  let current_position := len current - 1 in
  match expected with
  | EV_NoStream =>
      if negb (current_position =? -1) then
        Err (Conflict ([Lit "stream "] ++ stream_id ++
                       [Lit " already exists (position "; ArgInt current_position;
                        Lit "), expected NoStream"]))
      else Ok ()
  | EV_Exact position =>
      if negb (current_position =? position) then
        Err (Conflict ([Lit "stream "] ++ stream_id ++
                       [Lit " at position "; ArgInt current_position;
                        Lit ", expected "; ArgInt position]))
      else Ok ()
  | EV_Any => Ok ()
  end.

Section writes.
Context `{EventWire, SerdeJson}.

(** [append_in_tx]: the stream with the batch behind it. *)
Definition append_in_tx (db : Db) (id : Uuid) (expected : ExpectedVersion)
    (batch : list DomainEvent) (now : DateTime) : DomainResult (list PersistedEvent) :=
  _ ← validate_and_serialize batch;
  _ ← check_expected_version expected (artifact_stream id) (stream_of db id);
  mret (stream_of db id ++ ((λ e, {| event := e; stored_at := now |}) <$> batch)).

Definition require_paired_artifact_stream (a : Artifact) (id : Uuid) : DomainResult unit :=
  if bool_decide (id = artifact_id a) then Ok ()
  else Err (Invariant [Lit "artifact-lifecycle commit pairs artifact "; ArgUuid (artifact_id a);
                       Lit " with event stream artifact-"; ArgUuid id]).

(** [commit_transition] and [commit_transition_with_score]. *)
Definition commit_transition (a : Artifact) (id : Uuid) (expected : ExpectedVersion)
    (batch : list DomainEvent) (now : DateTime) : mut Db DomainError unit :=
  _ ← lift (require_paired_artifact_stream a id);
  db ← self;
  s ← lift (append_in_tx db id expected batch now);
  modify <[id := {| row := upsert (row <$> db !! id) a; stream := s |}]>.

Definition set_updated (t : DateTime) (a : Artifact) : Artifact :=
  {| artifact_id := artifact_id a; repository_id := repository_id a; name := name a;
     name_as_published := name_as_published a; version := version a; path := path a;
     size_bytes := size_bytes a; sha256_checksum := sha256_checksum a;
     sha1_checksum := sha1_checksum a; md5_checksum := md5_checksum a;
     content_type := content_type a; quarantine_status := quarantine_status a;
     rejection_reason := rejection_reason a;
     quarantine_window_start := quarantine_window_start a;
     quarantine_deadline := quarantine_deadline a;
     provenance_hold_indefinite := provenance_hold_indefinite a;
     upstream_published_at := upstream_published_at a; uploaded_by := uploaded_by a;
     a_created_at := a_created_at a; a_updated_at := t; deleted_at := deleted_at a |}.

(** [save_verdict_status_in_tx]: only the status and the update time, and only
    over the status the caller loaded. *)
Definition save_verdict_status_in_tx (old : option Artifact) (id : Uuid)
    (status : QuarantineStatus) (updated_at : DateTime) (prior_status : QuarantineStatus)
    : DomainResult Artifact :=
  match old with
  | None => Err (not_found id)
  | Some o =>
      if bool_decide (quarantine_status o = prior_status) then
        Ok (set_updated updated_at (set_status status o))
      else
        Err (Conflict [Lit "artifact "; ArgUuid id;
                       Lit " quarantine_status changed concurrently (expected ";
                       ArgStr (display prior_status); Lit "); verdict not applied"])
  end.

(** [commit_scan_result_with_score] and [commit_provenance_verdict].  Their
    callers have loaded the row, so it exists. *)
Definition commit_verdict (a : Artifact) (id : Uuid) (expected : ExpectedVersion)
    (batch : list DomainEvent) (prior_status : QuarantineStatus) (now : DateTime)
    : mut Db DomainError unit :=
  _ ← lift (require_paired_artifact_stream a id);
  db ← self;
  s ← lift (append_in_tx db id expected batch now);
  match db !! id with
  | None => throw (not_found id)
  | Some e =>
      r ← (if bool_decide (quarantine_status a = prior_status) then mret (row e)
           else lift (save_verdict_status_in_tx (Some (row e)) id (quarantine_status a)
                        (a_updated_at a) prior_status));
      modify <[id := {| row := r; stream := s |}]>
  end.

(** [ON DELETE SET NULL] of [uploaded_by], when a user is deleted. *)
Definition forget_uploader (user : Uuid) (a : Artifact) : Artifact :=
  if bool_decide (uploaded_by a = Some user) then
    {| artifact_id := artifact_id a; repository_id := repository_id a; name := name a;
       name_as_published := name_as_published a; version := version a; path := path a;
       size_bytes := size_bytes a; sha256_checksum := sha256_checksum a;
       sha1_checksum := sha1_checksum a; md5_checksum := md5_checksum a;
       content_type := content_type a; quarantine_status := quarantine_status a;
       rejection_reason := rejection_reason a;
       quarantine_window_start := quarantine_window_start a;
       quarantine_deadline := quarantine_deadline a;
       provenance_hold_indefinite := provenance_hold_indefinite a;
       upstream_published_at := upstream_published_at a; uploaded_by := None;
       a_created_at := a_created_at a; a_updated_at := a_updated_at a; deleted_at := deleted_at a |}
  else a.

(** [retire_row] of the purge: the row leaves service, without an event.
    [COALESCE(deleted_at, $2)]; the modification time moves only when it retires. *)
Definition retire (retired_at : DateTime) (a : Artifact) : Artifact :=
  match deleted_at a with
  | Some _ => a
  | None => set_updated retired_at (set_deleted (Some retired_at) a)
  end.

(** [ArtifactRepository::delete]. *)
Definition delete_artifact (id : Uuid) (now : DateTime) : mut Db DomainError unit :=
  db ← self;
  match db !! id with
  | None => throw (not_found id)
  | Some e =>
      if is_some (deleted_at (row e)) then throw (not_found id)
      else
        match delete now (hydrate (row e)) with
        | (_, Err err) => throw err
        | (_, Ok ev) =>
            s ← lift (append_in_tx db id EV_Any [DE_ArtifactDeleted ev] now);
            modify <[id := {| row := set_updated now (set_deleted (Some now) (row e)); stream := s |}]>
        end
  end.
End writes.

(** ** Optimistic concurrency *)

Section concurrency.
Context `{EventWire, SerdeJson}.

(** The writers of an artifact's row and stream: transitions, verdicts, deletions, events
    appended by themselves, the purge, which retires the row first and appends its
    terminal events later, and the deletion of users.  The columns [last_scan_at] and
    [release_attempt_at] are not part of a row as it is read.  Two writers are left out:
    the deletion of a repository, which takes its rows along, and the sealing of a purged
    stream. *)
Inductive db_step : Db → Db → Prop :=
  | step_transition a id expected batch now db db' :
      batch ≠ [] → commit_transition a id expected batch now db = (db', Ok ()) → db_step db db'
  | step_verdict a id expected batch prior now db db' :
      batch ≠ [] → commit_verdict a id expected batch prior now db = (db', Ok ()) → db_step db db'
  | step_delete id now db db' :
      delete_artifact id now db = (db', Ok ()) → db_step db db'
  | step_append id expected batch now db e s :
      batch ≠ [] → db !! id = Some e → append_in_tx db id expected batch now = Ok s →
      db_step db (<[id := {| row := row e; stream := s |}]> db)
  | step_retire id retired_at db :
      db_step db (alter (λ e, {| row := retire retired_at (row e); stream := stream e |}) id db)
  | step_forget user db :
      db_step db ((λ e, {| row := forget_uploader user (row e); stream := stream e |}) <$> db)
  | step_purged id retired_at batch now db e s :
      batch ≠ [] → db !! id = Some e → append_in_tx db id EV_Any batch now = Ok s →
      db_step db (<[id := {| row := set_updated retired_at (retire retired_at (row e)); stream := s |}]> db).

Lemma append_in_tx_Ok db id expected batch now s :
  append_in_tx db id expected batch now = Ok s →
  check_expected_version expected (artifact_stream id) (stream_of db id) = Ok () ∧
  s = stream_of db id ++ ((λ e, {| event := e; stored_at := now |}) <$> batch).
Proof.
  unfold append_in_tx. intros Ha. unbind. by subst.
Qed.

Lemma require_paired_Ok a id :
  require_paired_artifact_stream a id = Ok () → id = artifact_id a.
Proof. unfold require_paired_artifact_stream. by case_bool_decide. Qed.

(** What a commit does to the database: one entry is replaced, its stream
    extended by the batch. *)
Definition extends (batch : list DomainEvent) (id : Uuid) (db db' : Db) : Prop :=
  ∃ now e', db' = <[id := e']> db ∧
    stream e' = stream_of db id ++ ((λ e, {| event := e; stored_at := now |}) <$> batch).

Lemma commit_transition_Ok a id expected batch now db db' :
  commit_transition a id expected batch now db = (db', Ok ()) →
  id = artifact_id a ∧ check_expected_version expected (artifact_stream id) (stream_of db id) = Ok () ∧
  db' = <[id := {| row := upsert (row <$> db !! id) a;
                   stream := stream_of db id ++
                     ((λ e, {| event := e; stored_at := now |}) <$> batch) |}]> db.
Proof.
  unfold commit_transition. intros Hc. unbind.
  match goal with H : append_in_tx _ _ _ _ _ = _ |- _ => apply append_in_tx_Ok in H as [? ->] end.
  split_and!; [by apply require_paired_Ok | done..].
Qed.

Lemma commit_verdict_Ok a id expected batch prior now db db' :
  commit_verdict a id expected batch prior now db = (db', Ok ()) →
  id = artifact_id a ∧ check_expected_version expected (artifact_stream id) (stream_of db id) = Ok () ∧
  ∃ e, db !! id = Some e ∧
  let s := stream_of db id ++ ((λ e, {| event := e; stored_at := now |}) <$> batch) in
  (quarantine_status a = prior ∧ db' = <[id := {| row := row e; stream := s |}]> db ∨
   quarantine_status a ≠ prior ∧ quarantine_status (row e) = prior ∧
   db' = <[id := {| row := set_updated (a_updated_at a)
                             (set_status (quarantine_status a) (row e)); stream := s |}]> db).
Proof.
  unfold commit_verdict, save_verdict_status_in_tx. intros Hc. unbind.
  match goal with H : append_in_tx _ _ _ _ _ = _ |- _ => apply append_in_tx_Ok in H as [? ->] end.
  destruct (db !! id) as [e|] eqn:El; unbind.
  split_and!; [by apply require_paired_Ok | done |]. exists e. split; [done |].
  case_bool_decide as Hs; unbind; subst; [by left |]. case_bool_decide as Ho; [| done].
  simplify_eq. by right.
Qed.

Lemma delete_artifact_Ok id now db db' :
  delete_artifact id now db = (db', Ok ()) →
  ∃ e ev, db !! id = Some e ∧ deleted_at (row e) = None ∧
    db' = <[id := {| row := set_updated now (set_deleted (Some now) (row e));
                     stream := stream_of db id ++
                       [{| event := DE_ArtifactDeleted ev; stored_at := now |}] |}]> db.
Proof.
  unfold delete_artifact. intros Hc. unbind. destruct (db !! id) as [e|] eqn:El; unbind.
  destruct (deleted_at (row e)) as [t|] eqn:Ed; cbn [is_some] in *; unbind.
  destruct (delete now (hydrate (row e))) as [a [ev | err]] eqn:Edel; unbind.
  match goal with H : append_in_tx _ _ _ _ _ = _ |- _ => apply append_in_tx_Ok in H as [_ ->] end.
  exists e, ev. by subst.
Qed.

(** The changes to a row that no event records. *)
Inductive touch : Artifact → Artifact → Prop :=
  | touch_retire retired_at a : touch a (retire retired_at a)
  | touch_forget user a : touch a (forget_uploader user a).

(** The same stream, and the row as it was but for such changes. *)
Definition touched (o o' : option Entry) : Prop :=
  match o, o' with
  | Some e, Some e' => rtc touch (row e) (row e') ∧ stream e' = stream e
  | None, None => True
  | _, _ => False
  end.

#[local] Instance touched_preorder : PreOrder touched.
Proof.
  split.
  - by intros [e |].
  - intros [e1 |] [e2 |] [e3 |]; cbn; try done. intros [? ->] [? ->]. split; [by etrans | done].
Qed.

Lemma touched_stream db db' id :
  touched (db !! id) (db' !! id) → stream_of db' id = stream_of db id.
Proof. unfold stream_of. destruct (db !! id), (db' !! id); cbn; naive_solver. Qed.

Lemma extends_grows batch i db db' id :
  batch ≠ [] → extends batch i db db' →
  touched (db !! id) (db' !! id) ∨ len (stream_of db id) < len (stream_of db' id).
Proof.
  intros Hb (now & e' & -> & Hs).
  destruct (decide (i = id)) as [-> | Hne]; [right | left; by rewrite lookup_insert_ne].
  unfold stream_of at 2. rewrite lookup_insert_eq, Hs. unfold len.
  rewrite length_app, length_fmap. destruct batch; [done |]. simpl. lia.
Qed.

(** A step extends a stream, or touches rows. *)
Lemma db_step_stream db db' id :
  db_step db db' →
  touched (db !! id) (db' !! id) ∨ len (stream_of db id) < len (stream_of db' id).
Proof.
  destruct 1 as [a i ev batch now db db' Hb Hc | a i ev batch prior now db db' Hb Hc
    | i now db db' Hc | i ev batch now db e s Hb He Hs | i at_ db | user db | i at_ batch now db e s Hb He Hs].
  - apply commit_transition_Ok in Hc as (_ & _ & ->). eapply extends_grows; [done | by do 2 eexists].
  - apply commit_verdict_Ok in Hc as (_ & _ & e & _ & [(_ & ->) | (_ & _ & ->)]);
      (eapply extends_grows; [done | by do 2 eexists]).
  - apply delete_artifact_Ok in Hc as (e & ev & _ & _ & ->).
    apply (extends_grows [DE_ArtifactDeleted ev] i); [done | by exists now; eexists].
  - apply append_in_tx_Ok in Hs as [_ ->]. eapply extends_grows; [done | by do 2 eexists].
  - left. destruct (decide (i = id)) as [-> | Hne]; [| by rewrite lookup_alter_ne].
    rewrite lookup_alter_eq. destruct (db !! id); [| done]. split; [apply rtc_once, touch_retire | done].
  - left. rewrite lookup_fmap. destruct (db !! id); [| done]. split; [apply rtc_once, touch_forget | done].
  - apply append_in_tx_Ok in Hs as [_ ->]. eapply extends_grows; [done | by do 2 eexists].
Qed.

Lemma db_steps_stream db db' id :
  rtc db_step db db' →
  touched (db !! id) (db' !! id) ∨ len (stream_of db id) < len (stream_of db' id).
Proof.
  induction 1 as [| db db1 db' Hs _ IH]; [by left |].
  apply (db_step_stream _ _ id) in Hs.
  destruct Hs as [Hs | Hs], IH as [IH | IH]; [left; by etrans | | |]; right.
  - by rewrite <- (touched_stream _ _ _ Hs).
  - by rewrite (touched_stream _ _ _ IH).
  - lia.
Qed.

Lemma expected_version_current db db' id :
  check_expected_version (read_expected_version (capped_artifact_read db id)) (artifact_stream id)
    (stream_of db' id) = Ok () →
  len (stream_of db id) ≤ len (stream_of db' id) →
  len (stream_of db' id) = len (stream_of db id) ∧
  events (capped_artifact_read db id) = stream_of db id.
Proof.
  unfold read_expected_version, capped_artifact_read, capped_read, check_expected_version, len. cbn [events].
  intros Hc Hle.
  assert (Ht : length (take (Z.to_nat (STREAM_EVENT_CAP + 1)) (stream_of db id)) =
               length (stream_of db' id)).
  { destruct (take _ (stream_of db id)) as [| x l] eqn:Et; cbn [is_empty] in Hc.
    - destruct (Z.eqb_spec (Z.of_nat (length (stream_of db' id)) - 1) (-1)); [simpl; lia | done].
    - destruct (Z.eqb_spec (Z.of_nat (length (stream_of db' id)) - 1)
                  (Z.of_nat (length (x :: l)) - 1)); [lia | done]. }
  rewrite length_take in Ht. split; [lia |]. apply take_ge. lia.
Qed.

Lemma load_across_Ok db1 db2 id mode p :
  load_across db1 db2 id mode = Ok p →
  av_read p = capped_artifact_read db1 id ∧
  expected_version p = read_expected_version (capped_artifact_read db1 id) ∧
  ∃ e, db2 !! id = Some e ∧ deleted_at (row e) = None ∧ av_artifact p = hydrate (row e).
Proof.
  unfold load_across, read_or_refuse, lift_domain, find_by_id. intros Hl.
  destruct (db2 !! id) as [e |]; [| by unbind].
  destruct (deleted_at (row e)) as [d |] eqn:Ed; cbn [is_some] in Hl; [by unbind |]. unbind. subst.
  destruct mode; [destruct (over_cap _) |]; simplify_eq; split_and!; eauto.
Qed.

(** C34. Concurrent writers do not lose updates: a decision taken from a paired read
    (stream first, row afterwards, other commits possibly in between) whose append passes
    the version check was taken from the artifact's whole current stream and from its
    current row, whatever transitions, verdicts, deletions, appends, purges and deletions
    of users were committed between the reads and the append.  Only what no event records
    may have changed in the row since: a purge has retired it, or its uploader was
    deleted. *)
Theorem paired_commit_is_current db1 db2 db3 id mode p :
  rtc db_step db1 db2 → rtc db_step db2 db3 →
  load_across db1 db2 id mode = Ok p →
  check_expected_version (expected_version p) (artifact_stream id) (stream_of db3 id) = Ok () →
  ∃ e a, db3 !! id = Some e ∧ events (av_read p) = stream e ∧
    av_artifact p = hydrate a ∧ rtc touch a (row e) ∧ (row e = a → load db3 id mode = Ok p).
Proof.
  intros H12 H23 Hl Hc.
  destruct (load_across_Ok _ _ _ _ _ Hl) as (Hr & Hv & e2 & He2 & Hlive & Ha). rewrite Hv in Hc.
  destruct (db_steps_stream db1 db2 id H12) as [L12 | L12], (db_steps_stream db2 db3 id H23) as [L23 | L23].
  2-4: exfalso; apply expected_version_current in Hc as [He _];
    try apply touched_stream in L12; try apply touched_stream in L23; rewrite ?L12, ?L23 in *; lia.
  assert (Es : stream_of db1 id = stream_of db3 id)
    by by rewrite (touched_stream _ _ _ L23), (touched_stream _ _ _ L12).
  assert (Hev : events (av_read p) = stream_of db3 id).
  { rewrite Hr. apply (expected_version_current db1 db3) in Hc as [_ ->]; [done |]. rewrite Es. lia. }
  destruct (db3 !! id) as [e |] eqn:E3; rewrite He2 in L23; [| done]. destruct L23 as [Ht _].
  exists e, (row e2). split_and!; [done | by rewrite Hev; unfold stream_of; rewrite E3 | done | done |].
  intros Hrow. rewrite <- Hl. unfold load, load_across, read_or_refuse, capped_artifact_read, find_by_id.
  by rewrite Es, E3, He2, Hrow.
Qed.

(** [Tolerate] lets one event past the cap: a stream of exactly one event more
    than the cap is reported over the cap, but the version of the capped read
    is the true tail's, so the append it carries is accepted. *)
Lemma tolerate_admits_one_past_cap db id :
  len (stream_of db id) = STREAM_EVENT_CAP + 1 →
  over_cap (capped_artifact_read db id) = true ∧
  check_expected_version (read_expected_version (capped_artifact_read db id)) (artifact_stream id)
    (stream_of db id) = Ok ().
Proof.
  intros Hl. unfold capped_artifact_read, capped_read, read_expected_version. cbn [events over_cap].
  rewrite take_ge by (unfold len in Hl; lia). rewrite Hl. split; [done |].
  destruct (stream_of db id) as [| x l]; [done |]. cbn. by rewrite Hl.
Qed.
End concurrency.

(** ** Witness *)

Module SampleStore.
#[export] Instance wire : EventWire :=
  λ _, VNull.
#[export] Instance serde : SerdeJson := λ _, "null"%string.

Definition artifact (id : Uuid) : Artifact :=
  {| artifact_id := id; repository_id := 2; name := "left-pad"; name_as_published := "left-pad";
     version := Some "1.0.0"%string; path := "left-pad-1.0.0.tgz"; size_bytes := 10;
     sha256_checksum := "00"; sha1_checksum := None; md5_checksum := None;
     content_type := "application/gzip"; quarantine_status := QS_Quarantined;
     rejection_reason := None; quarantine_window_start := Some 0; quarantine_deadline := None;
     provenance_hold_indefinite := false; upstream_published_at := None; uploaded_by := None;
     a_created_at := 0; a_updated_at := 0; deleted_at := None |}.

Definition quarantined (id : Uuid) : PersistedEvent :=
  {| event := DE_ArtifactQuarantined {| aq_artifact_id := id; aq_quarantine_window_start := 0 |};
     stored_at := 1 |}.

Definition entry (id : Uuid) : Entry := {| row := artifact id; stream := [quarantined id] |}.

Definition db : Db := {[ 5 := entry 5; 6 := entry 6 ]}.

(** The other artifact is deleted between the two reads. *)
Definition db' : Db :=
  <[6 := {| row := set_updated 9 (set_deleted (Some 9) (artifact 6));
            stream := [quarantined 6] ++
              [{| event := DE_ArtifactDeleted
                    {| ad_artifact_id := 6; ad_repository_id := 2; ad_path := "left-pad-1.0.0.tgz";
                       ad_content_hash := "00" |}; stored_at := 9 |}] |}]> db.

Definition paired : ArtifactAtVersion :=
  assemble (hydrate (artifact 5)) 5 (capped_artifact_read db 5).
End SampleStore.

#[local] Existing Instances SampleStore.wire SampleStore.serde.

Lemma paired_commit_is_current_witness :
  load_across SampleStore.db SampleStore.db' 5 Tolerate = Ok SampleStore.paired ∧
  ∃ e a, SampleStore.db' !! 5 = Some e ∧ events (av_read SampleStore.paired) = stream e ∧
    av_artifact SampleStore.paired = hydrate a ∧ rtc touch a (row e) ∧
    (row e = a → load SampleStore.db' 5 Tolerate = Ok SampleStore.paired).
Proof.
  split; [vm_compute; reflexivity |].
  apply (paired_commit_is_current SampleStore.db SampleStore.db' SampleStore.db' 5 Tolerate
           SampleStore.paired).
  - apply rtc_once, (step_delete 6 9). vm_compute. reflexivity.
  - apply rtc_refl.
  - vm_compute. reflexivity.
  - vm_compute. reflexivity.
Defined.
