(* ===== verification/Lifecycle.v ===== *)
(** The artifact lifecycle: the handlers of crates/hort-app/src/use_cases/
    (quarantine_use_case.rs, curation_use_case.rs, rejected_reevaluation.rs,
    provenance_orchestration.rs, provenance_misrejection_repair.rs,
    cas_scrub_use_case.rs), each from the paired read to the commit.

    A handler runs on the database of [Store]: it loads the artifact with its
    stream, decides with the domain methods and the policy engine, and commits
    row and events in one unit of work.  Logging, metrics, scores, findings rows,
    SBOM components and job enqueueing have no effect on the row or the stream
    and are left out. *)

From S2P Require Import Prelude.
From S2P Require Import RustStd.
From S2P Require Import Json.
From S2P Require Import Types.
From S2P Require Import Events.
From S2P Require Import QuarantineTransitions.
From S2P Require Import Artifact.
From S2P Require Import Exclusion.
From S2P Require Import ScanEngine.
From S2P Require Import PolicyGates.
From S2P Require Import ScanHistory.
From S2P Require Import Store.

(** ** Ports *)

(** What the handlers read beside the database. *)
Record Ports : Type := {
  list_active : AppResult (list ScanPolicyProjection);
  list_exclusions_for_policy : Uuid → AppResult (list ExclusionProjection);
  repository_format : Uuid → AppResult (option RepositoryFormat);
  find_repository_format : Uuid → AppResult RepositoryFormat;
  list_rules_for_repo : Uuid → AppResult (list CurationRule);
  (** [find_by_target], then the [kind] of each reference. *)
  inbound_reference_kinds : Uuid → ContentHash → AppResult (list string);
  (** [StoragePort::get] of a findings blob, read and decoded. *)
  get_findings : ContentHash → AppResult (list Finding);
  (** [serde_json::to_vec(findings).len()] and [StoragePort::put]. *)
  findings_json_len : list Finding → AppResult Z;
  put_findings : list Finding → AppResult ContentHash;
  scan_kind_of : RepositoryFormat → Artifact → ArtifactKind;
  (** [Utc::now()]. *)
  clock : DateTime;
}.

(** The loop of [resolve_active_policy_for_repo]: the first policy scoped to the
    repository, else the first global one. *)
Definition pick_policy (repo_id : Uuid)
    (acc : option ScanPolicyProjection * option ScanPolicyProjection)
    (projection : ScanPolicyProjection)
    : option ScanPolicyProjection * option ScanPolicyProjection :=
  let '(repo_scoped, global) := acc in
  match p_scope projection with
  | PS_Repository id =>
      if bool_decide (id = repo_id) && negb (is_some repo_scoped)
      then (Some projection, global) else acc
  | PS_Global => if negb (is_some global) then (repo_scoped, Some projection) else acc
  end.

Definition resolve_active_policy_for_repo (ports : Ports) (repo_id : Uuid)
    : AppResult (option ScanPolicyProjection) :=
  active ← list_active ports;
  let '(repo_scoped, global) := foldl (pick_policy repo_id) (None, None) active in
  mret (match repo_scoped with Some p => Some p | None => global end).

Definition SELF_REFERENTIAL_KINDS : list string := ["primary_content"; "metadata_blob"]%string.
Definition PARENT_GATE_BLOB_KINDS : list string := ["oci_config"; "oci_layer"]%string.

Fixpoint parent_gated_loop (saw_blob_edge : bool) (kinds : list string) : bool :=
  match kinds with
  | [] => saw_blob_edge
  | kind :: kinds' =>
      if contains PARENT_GATE_BLOB_KINDS kind then parent_gated_loop true kinds'
      else if negb (contains SELF_REFERENTIAL_KINDS kind) then false
      else parent_gated_loop saw_blob_edge kinds'
  end.

Definition is_parent_gated_blob_constituent (kinds : list string) : bool :=
  parent_gated_loop false kinds.

(** ** Running domain methods and commits *)

Abbreviation handler := (mut Db AppError).

(** [artifact.m()?]: the artifact after the call and the method's value. *)
Definition apply_method {A} (m : method A) (a : Artifact) : handler (Artifact * A) :=
  match m a with
  | (a', Ok x) => mret (a', x)
  | (_, Err e) => throw (AE_Domain e)
  end.

Definition commit (m : mut Db DomainError unit) : handler unit :=
  λ db, let '(db', r) := m db in (db', map_err AE_Domain r).

(** A panic aborts the task before anything is committed. *)
Definition or_panic {A} (o : option A) : handler A :=
  match o with
  | Some a => mret a
  | None => throw (AE_Storage [Lit "panic"])
  end.

Definition load_paired (id : Uuid) (mode : OverCapStream) : handler ArtifactAtVersion :=
  db ← self; lift (load db id mode).

(** The deadline of the window that starts at [anchor]. *)
Definition deadline_after (anchor : DateTime) (secs : Z) : option DateTime :=
  d ← duration_seconds secs; effective_quarantine_deadline anchor d.

Section handlers.
Context `{EventWire, SerdeJson, Unicode}.
Context (ports : Ports).

(** ** Quarantine *)

Definition quarantine_artifact (id : Uuid) (until : DateTime) : handler unit :=
  paired ← load_paired id Refuse;
  r ← apply_method (quarantine until) (av_artifact paired);
  commit (commit_transition r.1 id (expected_version paired) [DE_ArtifactQuarantined r.2]
            (clock ports)).

(** ** Scan results *)

Record ScanResultContext : Type := {
  ctx_artifact_id : Uuid;
  ctx_expected_version : ExpectedVersion;
  ctx_now : DateTime;
  ctx_scan_event : ScanCompleted;
  ctx_prior_status : QuarantineStatus;
  ctx_prior : option (ScanCompleted * DateTime);
  ctx_policy : option ScanPolicyProjection;
  ctx_fast_path_provenance : ProvenanceClearance;
  ctx_prior_release : ReleaseOrigin;
}.

(** [maybe_push_became_vulnerable]: the event to push, if any. *)
Definition maybe_became_vulnerable (id : Uuid) (found : list Finding)
    (clean_at : option DateTime) : AppResult (list DomainEvent) :=
  if is_empty found then mret []
  else
    match clean_at with
    | None => mret []
    | Some clean_at =>
        let ev := {| bv_artifact_id := id; new_findings := found;
                     previously_clean_at := clean_at |} in
        _ ← lift_domain (ArtifactBecameVulnerable_validate ev);
        mret [DE_ArtifactBecameVulnerable ev]
    end.

Definition policy_event (ctx : ScanResultContext) (r : PolicyResult)
    (vs : list PolicyViolation) : PolicyEvaluated :=
  {| pe_artifact_id := ctx_artifact_id ctx;
     pe_policy_id := policy_or policy_id NO_POLICY (ctx_policy ctx);
     pe_result := r; violations := vs |}.

(** Whether the quarantine window of the artifact has elapsed. *)
Definition fast_path_fires (ctx : ScanResultContext) (a : Artifact) : handler bool :=
  if bool_decide (quarantine_status a = QS_Quarantined) then
    match quarantine_window_start a with
    | Some anchor =>
        let secs :=
          policy_or quarantine_duration_secs DefaultPolicy.quarantine_duration_secs
            (ctx_policy ctx) in
        deadline ← or_panic (deadline_after anchor secs);
        mret (deadline <=? ctx_now ctx)
    | None => mret false
    end
  else mret false.

(** The fast-path release: the artifact afterwards and the event to append. *)
Definition fast_path_release (fires : bool) (authority : option ReleaseAuthorization)
    (provenance : ProvenanceClearance) (a : Artifact) : Artifact * list DomainEvent :=
  match fires, authority with
  | true, Some authority =>
      match release RL_Timer authority provenance a with
      | (a', Ok ev) => (a', [DE_ArtifactReleased ev])
      | (a', Err _) => (a', [])
      end
  | _, _ => (a, [])
  end.

Definition handle_non_rejecting_verdict (a : Artifact) (ctx : ScanResultContext)
    (vs : list PolicyViolation) (found : list Finding) : handler unit :=
  _ ← match record_clean_scan a with
      | Ok _ => mret ()
      | Err (Invariant _) => mret ()
      | Err e => throw (AE_Domain e)
      end;
  let findings_recorded := negb (is_empty vs) in
  pushed ← lift (maybe_became_vulnerable (ctx_artifact_id ctx) found (snd <$> ctx_prior ctx));
  let pe := policy_event ctx (if findings_recorded then PR_Fail else PR_Pass) vs in
  _ ← lift (lift_domain (PolicyEvaluated_validate pe));
  let events_vec :=
    [DE_ScanCompleted (ctx_scan_event ctx)] ++ pushed ++ [DE_PolicyEvaluated pe] in
  fires ← fast_path_fires ctx a;
  let authority :=
    scan_axis_release_authority (latest_scan_standing events_vec) (ctx_policy ctx) in
  let '(a', released) :=
    fast_path_release fires authority (ctx_fast_path_provenance ctx) a in
  commit (commit_verdict a' (ctx_artifact_id ctx) (ctx_expected_version ctx)
            (events_vec ++ released) (ctx_prior_status ctx) (ctx_now ctx)).

Definition handle_reject_verdict (a : Artifact) (ctx : ScanResultContext)
    (vs : list PolicyViolation) (found : list Finding) : handler unit :=
  let reason :=
    match vs with
    | v :: _ => message v
    | [] => "policy evaluation rejected scan result"%string
    end in
  r ← match reject_from_scan reason (ctx_prior_release ctx) a with
      | (a', Ok ev) => mret (a', [DE_ArtifactRejected ev])
      | (a', Err (Invariant _)) => mret (a', [])
      | (_, Err e) => throw (AE_Domain e)
      end;
  let pe := policy_event ctx PR_Fail vs in
  _ ← lift (lift_domain (PolicyEvaluated_validate pe));
  pushed ← lift (maybe_became_vulnerable (ctx_artifact_id ctx) found (snd <$> ctx_prior ctx));
  commit (commit_verdict r.1 (ctx_artifact_id ctx) (ctx_expected_version ctx)
            ([DE_ScanCompleted (ctx_scan_event ctx)] ++ pushed ++ [DE_PolicyEvaluated pe] ++ r.2)
            (ctx_prior_status ctx) (ctx_now ctx)).

Definition hydrate_prior_findings (prior : ScanCompleted) : AppResult (list Finding) :=
  match findings_blob prior with
  | None => mret []
  | Some blob_hash => get_findings ports blob_hash
  end.

Definition FINDINGS_BLOB_MAX_BYTES : Z := 8 * 1024 * 1024.

Definition persist_findings_blob (findings : list Finding) : AppResult (option ContentHash) :=
  if is_empty findings then mret None
  else
    n ← findings_json_len ports findings;
    if FINDINGS_BLOB_MAX_BYTES <? n then
      Err (AE_Domain (Validation [Lit "findings_blob "; ArgInt n; Lit " bytes exceeds ";
                                  ArgInt FINDINGS_BLOB_MAX_BYTES; Lit " byte cap"]))
    else
      h ← put_findings ports findings;
      mret (Some h).

Definition coords_for_artifact (a : Artifact) : AppResult ArtifactCoords :=
  format ← find_repository_format ports (repository_id a);
  mret {| co_name := name a; co_name_as_published := name_as_published a;
          co_version := version a; co_path := path a; co_format := format;
          co_metadata := VNull |}.

Definition exclusions_of (policy : option ScanPolicyProjection)
    : AppResult (list ExclusionProjection) :=
  match policy with
  | Some p => list_exclusions_for_policy ports (policy_id p)
  | None => mret []
  end.

Definition record_scan_result (id : Uuid) (scanner : string) (findings : list Finding)
    (assessment : ScanAssessment) (kind : ArtifactKind) : handler unit :=
  let now := clock ports in
  _ ← lift (lift_domain (validate_all Finding_validate findings));
  _ ← (if u32_MAX <? len findings then
         throw (AE_Domain (Validation [Lit "scan_result: findings.len() "; ArgInt (len findings);
                                       Lit " exceeds u32::MAX"]))
       else mret ());
  let severity := severity_summary_from_findings findings in
  _ ← lift (lift_domain (SeveritySummary_validate severity));
  paired ← load_paired id Tolerate;
  stream ← lift (evidence paired);
  let prior := prior_scan_completed stream in
  policy ← lift (resolve_active_policy_for_repo ports (repository_id (av_artifact paired)));
  exclusions ← lift (exclusions_of policy);
  coords ← lift (coords_for_artifact (av_artifact paired));
  let fast_path_provenance := provenance_clearance_from stream (provenance_mode_of policy) in
  let prior_release := latest_release_origin stream in
  let artifact := av_artifact paired in
  let outcome := evaluate_scan_result coords kind findings policy exclusions now in
  prior_findings ← match prior with
                   | Some (ev, _) => lift (hydrate_prior_findings ev)
                   | None => mret []
                   end;
  let found := compute_added_findings prior_findings findings in
  blob_hash ← lift (persist_findings_blob findings);
  let scan_event :=
    {| sc_artifact_id := id; Events.scanner := scanner; finding_count := len findings;
       severity_summary := severity; findings_blob := blob_hash;
       Events.assessment := assessment |} in
  _ ← lift (lift_domain (ScanCompleted_validate scan_event));
  let ctx :=
    {| ctx_artifact_id := id; ctx_expected_version := expected_version paired; ctx_now := now;
       ctx_scan_event := scan_event; ctx_prior_status := quarantine_status artifact;
       ctx_prior := prior; ctx_policy := policy;
       ctx_fast_path_provenance := fast_path_provenance; ctx_prior_release := prior_release |} in
  match outcome with
  | SO_Reject vs => handle_reject_verdict artifact ctx vs found
  | SO_FindingsRecorded vs => handle_non_rejecting_verdict artifact ctx vs found
  | SO_Clean => handle_non_rejecting_verdict artifact ctx [] found
  end.

Definition record_scan_indeterminate (id : Uuid) (scanner reason : string) (attempts : Z)
    : handler unit :=
  paired ← load_paired id Tolerate;
  match fail_scan_indeterminate scanner reason attempts (av_artifact paired) with
  | (a', Ok ev) =>
      commit (commit_transition a' id (expected_version paired) [DE_ScanIndeterminate ev]
                (clock ports))
  | (_, Err (Invariant _)) => mret ()
  | (_, Err e) => throw (AE_Domain e)
  end.
(** ** The release sweep *)

Record ReleaseExpiredSummary : Type := {
  released : list Uuid;
  skipped_no_scan_authority : Z;
  skipped_provenance_pending : Z;
  held_parent_gated : Z;
}.

Definition empty_summary : ReleaseExpiredSummary :=
  {| released := []; skipped_no_scan_authority := 0; skipped_provenance_pending := 0;
     held_parent_gated := 0 |}.

(** [u32::saturating_add(1)]. *)
Definition saturating_succ (n : Z) : Z := Z.min (n + 1) u32_MAX.

(** The counters of the provenance branch.  The verification job it may enqueue
    is left out. *)
Definition count_provenance_pending (a : Artifact) (summary : ReleaseExpiredSummary)
    : AppResult ReleaseExpiredSummary :=
  kinds ← inbound_reference_kinds ports (repository_id a) (sha256_checksum a);
  mret (if is_parent_gated_blob_constituent kinds then
          {| released := released summary;
             skipped_no_scan_authority := skipped_no_scan_authority summary;
             skipped_provenance_pending := skipped_provenance_pending summary;
             held_parent_gated := saturating_succ (held_parent_gated summary) |}
        else
          {| released := released summary;
             skipped_no_scan_authority := skipped_no_scan_authority summary;
             skipped_provenance_pending := saturating_succ (skipped_provenance_pending summary);
             held_parent_gated := held_parent_gated summary |}).

Definition is_pending (p : ProvenanceClearance) : bool :=
  match p with PC_Pending => true | PC_NotRequired | PC_Cleared => false end.

(** The end of an iteration of [release_expired]: the release itself. *)
Definition release_decided (id : Uuid) (paired : ArtifactAtVersion)
    (persisted : list PersistedEvent) (policy : option ScanPolicyProjection)
    (provenance : ProvenanceClearance) (summary : ReleaseExpiredSummary)
    : handler ReleaseExpiredSummary :=
  match resolve_release_authority persisted policy with
  | None =>
      mret (if negb (is_pending provenance) then
              {| released := released summary;
                 skipped_no_scan_authority := saturating_succ (skipped_no_scan_authority summary);
                 skipped_provenance_pending := skipped_provenance_pending summary;
                 held_parent_gated := held_parent_gated summary |}
            else summary)
  | Some authz =>
      match release RL_Timer authz provenance (av_artifact paired) with
      | (a', Ok ev) =>
          _ ← commit (commit_transition a' id (expected_version paired) [DE_ArtifactReleased ev]
                        (clock ports));
          mret {| released := released summary ++ [id];
                  skipped_no_scan_authority := skipped_no_scan_authority summary;
                  skipped_provenance_pending := skipped_provenance_pending summary;
                  held_parent_gated := held_parent_gated summary |}
      | (_, Err _) => mret summary
      end
  end.

(** One iteration of [release_expired] once the artifact is loaded. *)
Definition release_loaded (id : Uuid) (paired : ArtifactAtVersion)
    (persisted : list PersistedEvent) (summary : ReleaseExpiredSummary)
    : handler ReleaseExpiredSummary :=
  let a := av_artifact paired in
  policy ← lift (resolve_active_policy_for_repo ports (repository_id a));
  let provenance := provenance_clearance_from persisted (provenance_mode_of policy) in
  summary ← (if is_pending provenance then lift (count_provenance_pending a summary)
             else mret summary);
  release_decided id paired persisted policy provenance summary.

Definition release_one (id : Uuid) (summary : ReleaseExpiredSummary)
    : handler ReleaseExpiredSummary :=
  db ← self;
  match load db id Tolerate with
  | Err _ => mret summary
  | Ok paired =>
      match evidence paired with
      | Err _ => mret summary
      | Ok persisted => release_loaded id paired persisted summary
      end
  end.

Fixpoint release_all (artifact_ids : list Uuid) (summary : ReleaseExpiredSummary)
    : handler ReleaseExpiredSummary :=
  match artifact_ids with
  | [] => mret summary
  | id :: ids => summary ← release_one id summary; release_all ids summary
  end.

Definition release_expired (artifact_ids : list Uuid) : handler ReleaseExpiredSummary :=
  release_all artifact_ids empty_summary.

(** ** Curation *)

Record CallerPrivileges : Type := {
  is_curator : bool;
  is_admin : bool;
}.

Definition require_curate_or_admin (p : CallerPrivileges) : AppResult unit :=
  if is_curator p || is_admin p then Ok ()
  else Err (AE_Domain (Forbidden [Lit "curate or admin privilege required"])).

Definition MAX_JUSTIFICATION_BYTES : Z := 512.

Definition validate_justification (justification : string) : AppResult unit :=
  if strlen justification =? 0 then
    Err (AE_Domain (Validation [Lit "justification must be non-empty"]))
  else if MAX_JUSTIFICATION_BYTES <? strlen justification then
    Err (AE_Domain (Validation [Lit "justification "; ArgInt (strlen justification);
                                Lit " bytes exceeds "; ArgInt MAX_JUSTIFICATION_BYTES;
                                Lit " byte cap"]))
  else Ok ().

Definition waive (id user_id : Uuid) (privileges : CallerPrivileges) (why : string)
    : handler unit :=
  _ ← lift (require_curate_or_admin privileges);
  _ ← lift (validate_justification why);
  paired ← load_paired id Tolerate;
  let a := av_artifact paired in
  a ← (if bool_decide (quarantine_status a = QS_Rejected) then
         stream ← lift (evidence paired);
         mret (set_reason (last_rejection_reason stream) a)
       else mret a);
  r ← apply_method (release RL_Curator CuratorWaiver PC_NotRequired) a;
  let ev :=
    {| ar_artifact_id := ar_artifact_id r.2; released_by := released_by r.2;
       released_by_user_id := Some user_id; justification := Some why |} in
  commit (commit_transition r.1 id (expected_version paired) [DE_ArtifactReleased ev]
            (clock ports)).

(** [block_one]; the outcome lists it fills are left out: [None] is an artifact
    that was already rejected. *)
Definition block_one (id user_id : Uuid) (why : string) : handler (option unit) :=
  paired ← load_paired id Tolerate;
  let a := av_artifact paired in
  if bool_decide (quarantine_status a = QS_Rejected) then mret None
  else
    r ← apply_method (block_by_curator user_id why) a;
    _ ← commit (commit_transition r.1 id (expected_version paired) [DE_ArtifactRejected r.2]
                  (clock ports));
    mret (Some ()).

(** [BlockTarget::Artifact]. *)
Definition block (id user_id : Uuid) (privileges : CallerPrivileges) (why : string)
    : handler (option unit) :=
  _ ← lift (require_curate_or_admin privileges);
  _ ← lift (validate_justification why);
  db ← self;
  _ ← lift (lift_domain (find_by_id db id));
  block_one id user_id why.

(** ** Re-evaluation of a rejection *)

Inductive RejectedDerivation : Type :=
  | Ineligible (reason : option RejectionReason)
  | NoScanCompleted
  | Determined (outcome : ReEvaluationOutcome) (quarantine_deadline : option DateTime)
      (rejection_reason : option RejectionReason) (provenance : ProvenanceClearance).

Definition derive_rejected_outcome (paired : ArtifactAtVersion)
    (policy : option ScanPolicyProjection) (exclusions : list ExclusionProjection)
    (kind : ArtifactKind) (composite_verdict : CompositeVerdictMode) (now : DateTime)
    : handler RejectedDerivation :=
  let a := av_artifact paired in
  stream ← lift (evidence paired);
  let reason := last_rejection_reason stream in
  if negb (is_scan_clearable reason) then mret (Ineligible reason)
  else
    match last_scan_completed stream with
    | None => mret NoScanCompleted
    | Some last_snapshot =>
        let storage_get h := match get_findings ports h with Ok l => Some l | Err _ => None end in
        let findings :=
          match last_findings storage_get stream with
          | Resolved findings => Some findings
          | Absent | Unreadable _ => None
          end in
        deadline ← match policy, quarantine_window_start a with
                   | Some p, Some anchor =>
                       d ← or_panic (deadline_after anchor (quarantine_duration_secs p));
                       mret (Some d)
                   | _, _ => mret None
                   end;
        let outcome :=
          decide_rejected_transition a kind (ss_summary last_snapshot) findings policy
            exclusions composite_verdict deadline now in
        mret (Determined outcome deadline reason
                (provenance_clearance_from stream (provenance_mode_of policy)))
    end.

(** The end of [reevaluate], when the verdict no longer rejects. *)
Definition apply_re_evaluation (id : Uuid) (paired : ArtifactAtVersion)
    (policy : option ScanPolicyProjection) (outcome : ReEvaluationOutcome)
    (deadline : option DateTime) (reason : option RejectionReason)
    (derived_provenance : ProvenanceClearance) (now : DateTime) : handler QuarantineStatus :=
  let a := set_deadline deadline (set_reason reason (av_artifact paired)) in
  rules ← lift (list_rules_for_repo ports (repository_id a));
  format ← (if is_empty rules then mret None
            else lift (repository_format ports (repository_id a)));
  let curation := resolve_curation_clearance rules format a in
  if negb (is_cleared curation) then mret QS_Rejected
  else
    let releasing := match outcome with ResetToReleased => true | _ => false end in
    if releasing && negb (provenance_clears derived_provenance) then mret QS_Rejected
    else
      let provenance := if releasing then derived_provenance else PC_NotRequired in
      r ← apply_method (re_evaluate now provenance curation) a;
      let re_evaluated :=
        {| re_artifact_id := id; re_policy_id := policy_or policy_id NO_POLICY policy;
           re_trigger := RT_CuratorRequested; previous_status := quarantine_status a;
           new_status := quarantine_status r.1 |} in
      _ ← commit (commit_transition r.1 id (expected_version paired)
                    [DE_ArtifactReEvaluated re_evaluated; r.2] now);
      mret (quarantine_status r.1).

(** [reevaluate] returns the status after it. *)
Definition reevaluate (id : Uuid) (privileges : CallerPrivileges) : handler QuarantineStatus :=
  _ ← lift (require_curate_or_admin privileges);
  paired ← load_paired id Tolerate;
  let a := av_artifact paired in
  let now := clock ports in
  if negb (bool_decide (quarantine_status a = QS_Rejected)) then
    throw (AE_Domain (InvalidState [Lit "cannot re-evaluate artifact in state "; status_text a]))
  else
    policy ← lift (resolve_active_policy_for_repo ports (repository_id a));
    exclusions ← lift (exclusions_of policy);
    f ← lift (repository_format ports (repository_id a));
    let kind := scan_kind_of ports (default Generic f) a in
    derivation ← derive_rejected_outcome paired policy exclusions kind
                   (composite_verdict_mode_of policy) now;
    match derivation with
    | Ineligible _ => mret QS_Rejected
    | NoScanCompleted =>
        throw (AE_Domain (Invariant [Lit "no ScanCompleted event found for artifact ";
                                     ArgUuid id]))
    | Determined outcome deadline reason derived_provenance =>
        match outcome with
        | StillRejected => mret QS_Rejected
        | ResetToQuarantined | ResetToReleased =>
            apply_re_evaluation id paired policy outcome deadline reason derived_provenance now
        end
    end.

(** ** Provenance *)

Definition PROVENANCE_ANCHOR_GRACE_SECS : Z := 300.

(** [apply_verdict]; [false] is the early [RequeuedNoAnchor]. *)
Definition apply_verdict (paired : ArtifactAtVersion) (backend : string)
    (verdict : ProvenanceVerdict) (mode : ProvenanceMode) : handler bool :=
  let a := av_artifact paired in
  let now := clock ports in
  if bool_decide (mode = PM_Required) && bool_decide (quarantine_status a = QS_None) &&
     negb (is_some (quarantine_window_start a)) &&
     match outcome verdict with PO_NoAttestation => true | _ => false end &&
     (signed_duration_since now (a_created_at a) <? PROVENANCE_ANCHOR_GRACE_SECS * NANOS)
  then mret false
  else
    let prior_status := quarantine_status a in
    r ← apply_method (complete_provenance verdict backend) a;
    _ ← (if is_empty r.2 then mret ()
         else commit (commit_verdict r.1 (artifact_id r.1) (expected_version paired) r.2
                        prior_status now));
    mret true.

(** Whether the stream, read anew, carries a provenance verification. *)
Definition already_cleared (id : Uuid) : handler bool :=
  db ← self;
  let read := capped_artifact_read db id in
  if over_cap read then throw (over_cap_refusal id)
  else mret (existsb (λ e, is_verified_event (event e)) (events read)).

(** The run of [verify_artifact] in which some verifier applies and the
    verifiers answer [verdict] (a failure to fetch what they need is the
    verdict [PO_Indeterminate]).  Clearances of other artifacts are left out. *)
Definition verify_and_apply (id : Uuid) (backend : string) (verdict : ProvenanceVerdict)
    : handler bool :=
  paired ← load_paired id Tolerate;
  policy ← lift (resolve_active_policy_for_repo ports (repository_id (av_artifact paired)));
  let mode := provenance_mode_of policy in
  if bool_decide (mode = PM_Off) then mret false
  else
    cleared ← (if bool_decide (mode = PM_Required) then already_cleared id else mret false);
    if (cleared : bool) then mret false else apply_verdict paired backend verdict mode.

(** [repair_one]; [false] is an artifact the repair is not about. *)
Definition repair_one (id : Uuid) (dry_run : bool) : handler bool :=
  paired ← load_paired id Tolerate;
  let a := av_artifact paired in
  if negb (bool_decide (quarantine_status a = QS_Rejected)) then mret false
  else
    persisted ← lift (evidence paired);
    let terminal_record := TerminalRejectionRecord_from_events (event <$> persisted) in
    if negb (bool_decide (terminal_record = TR_Absent)) then mret false
    else
      let provenance := provenance_rejection_evidence persisted in
      if negb (disproves_terminality provenance) then mret false
      else
        r ← apply_method (repair_provenance_misrejection terminal_record provenance (clock ports)) a;
        if dry_run then mret true
        else
          let re_evaluated :=
            {| re_artifact_id := id; re_policy_id := NO_POLICY;
               re_trigger := RT_ProvenanceMisrejectionRepair;
               previous_status := quarantine_status a; new_status := quarantine_status r.1 |} in
          _ ← commit (commit_transition r.1 id (expected_version paired)
                        [DE_ArtifactReEvaluated re_evaluated; DE_ArtifactQuarantined r.2]
                        (clock ports));
          mret true.

(** ** Corruption *)

(** [try_tombstone_artifact] on the row [find_by_checksum] returned ([LIMIT 1]:
    any live row with that checksum). *)
Definition try_tombstone_artifact (found : option Uuid) (computed : ContentHash)
    : handler unit :=
  match found with
  | None => mret ()
  | Some id =>
      db ← self;
      a ← lift (lift_domain (find_by_id db id));
      match tombstone_from_corruption computed (clock ports) a with
      | (_, Err _) => mret ()
      | (a', Ok evs) => commit (commit_transition a' id EV_Any evs (clock ports))
      end
  end.
End handlers.
