(* ===== verification/LifecycleSafety.v ===== *)
(** Safety of the artifact lifecycle: what every handler of [Lifecycle] does to
    the database, whatever the ports answer.

    The proofs use a small program logic: [safe J m db] says that running the
    handler [m] on [db], whether it succeeds or fails, either leaves the
    database alone or commits one batch of events to one artifact whose status
    is what the batch projects to, and that the batch satisfies [J].  The rules
    follow the shape of the handlers (read, decide, commit). *)

From S2P Require Import Prelude.
From S2P Require Import RustStd.
From S2P Require Import Json.
From S2P Require Import Types.
From S2P Require Import Events.
From S2P Require Import QuarantineTransitions.
From S2P Require Import Artifact.
From S2P Require Import Exclusion.
From S2P Require Import ScanEngine.
From S2P Require Import PolicyGates.
From S2P Require Import ScanHistory.
From S2P Require Import Store.
From S2P Require Import Lifecycle.

(** ** The status a stream projects to *)

Definition project (s : QuarantineStatus) (e : DomainEvent) : QuarantineStatus :=
  match e with
  | DE_ArtifactQuarantined _ => QS_Quarantined
  | DE_ArtifactReleased _ => QS_Released
  | DE_ArtifactRejected _ => QS_Rejected
  | DE_ScanIndeterminate _ => QS_ScanIndeterminate
  | _ => s
  end.

Definition projected_status (stream : list PersistedEvent) : QuarantineStatus :=
  foldl project QS_None (event <$> stream).

(** Every row is filed under its id and shows the status of its stream. *)
Definition db_ok (db : Db) : Prop :=
  ∀ id e, db !! id = Some e →
    artifact_id (row e) = id ∧ quarantine_status (row e) = projected_status (stream e).

Definition persisted (now : DateTime) (evs : list DomainEvent) : list PersistedEvent :=
  (λ e, {| event := e; stored_at := now |}) <$> evs.

(** What no transition changes. *)
Definition identity (a : Artifact) : Uuid * Uuid * ContentHash :=
  (artifact_id a, repository_id a, sha256_checksum a).

(** One commit: the batch [evs] on artifact [id], justified by [J]. *)
Definition advances (J : Entry → list DomainEvent → Prop) (db db' : Db) : Prop :=
  db' = db ∨
  ∃ id e e' evs now,
    db !! id = Some e ∧ db' = <[id := e']> db ∧ evs ≠ [] ∧
    stream e' = stream e ++ persisted now evs ∧
    identity (row e') = identity (row e) ∧
    (deleted_at (row e') = None → deleted_at (row e) = None) ∧
    quarantine_status (row e') = foldl project (quarantine_status (row e)) evs ∧
    J e evs.

Lemma advances_db_ok J db db' : advances J db db' → db_ok db → db_ok db'.
Proof.
  intros [-> | (id & e & e' & evs & now & Hl & -> & _ & Hs & Hid & _ & Hq & _)]; [done |].
  intros Hok id' e0 Hl'. destruct (decide (id = id')) as [-> | Hne].
  - rewrite lookup_insert_eq in Hl'. injection Hl' as <-. apply Hok in Hl as [Hi Hst].
    split; [injection Hid; congruence |]. rewrite Hq, Hst, Hs. unfold projected_status, persisted.
    rewrite fmap_app, foldl_app. f_equal. rewrite <- list_fmap_compose. simpl.
    by rewrite list_fmap_id.
  - rewrite lookup_insert_ne in Hl' by done. by apply Hok.
Qed.

(** ** The rules *)

Section rules.
Context (J : Entry → list DomainEvent → Prop).

Definition safe {A} (m : handler A) (db : Db) : Prop :=
  ∀ db' r, m db = (db', r) → advances J db db'.

Lemma safe_ret {A} (a : A) db : safe (mret a) db.
Proof. intros db' r [= <- <-]. by left. Qed.

Lemma safe_throw {A} e db : safe (A := A) (throw e) db.
Proof. intros db' r [= <- <-]. by left. Qed.

Lemma safe_self {A} (f : Db → handler A) db : safe (f db) db → safe (self ≫= f) db.
Proof. done. Qed.

Lemma safe_lift {A B} (r : AppResult A) (f : A → handler B) db :
  (∀ a, r = Ok a → safe (f a) db) → safe (lift r ≫= f) db.
Proof.
  intros Hf db' x. cbv [mbind mut_bind lift]. destruct r; [by apply Hf | intros [= <- <-]; by left].
Qed.

Lemma safe_bind_ret {A B} (a : A) (f : A → handler B) db : safe (f a) db → safe (mret a ≫= f) db.
Proof. done. Qed.

Lemma safe_bind_throw {A B} e (f : A → handler B) db : safe (throw e ≫= f) db.
Proof. intros db' r [= <- <-]. by left. Qed.

Lemma safe_or_panic {A B} (o : option A) (f : A → handler B) db :
  (∀ a, o = Some a → safe (f a) db) → safe (or_panic o ≫= f) db.
Proof. destruct o; [by eauto using safe_bind_ret | intros _; apply safe_bind_throw]. Qed.

Lemma safe_apply_method {A B} (m : method A) a (f : Artifact * A → handler B) db :
  (∀ a' x, m a = (a', Ok x) → safe (f (a', x)) db) → safe (apply_method m a ≫= f) db.
Proof.
  intros Hf. unfold apply_method. destruct (m a) as [a' [x|e]]; [by apply safe_bind_ret, Hf |].
  apply safe_bind_throw.
Qed.

(** A computation that only reads. *)
Definition reads {A} (m : handler A) : Prop := ∀ db db' r, m db = (db', r) → db' = db.

Lemma safe_bind_reads {A B} (m : handler A) (f : A → handler B) db :
  reads m → (∀ a, m db = (db, Ok a) → safe (f a) db) → safe (m ≫= f) db.
Proof.
  intros Hm Hf db' r. cbv [mbind mut_bind]. specialize (Hm db).
  destruct (m db) as [db1 [a|e]] eqn:E.
  - pose proof (Hm db1 (Ok a) eq_refl) as ->. by apply Hf.
  - intros [= <- <-]. left. by eapply Hm.
Qed.

(** Nothing happens to the database after the commit. *)
Lemma safe_commit_ret {A} (m : handler unit) (x : A) db :
  safe m db → safe (_ ← m; mret x) db.
Proof.
  intros Hm db' r. cbv [mbind mut_bind mret mut_ret].
  destruct (m db) as [db1 [[]|e]] eqn:E; intros [= <- <-]; by eapply Hm.
Qed.

Lemma safe_bind_assoc {A B C} (m : handler A) (f : A → handler B) (g : B → handler C) db :
  safe (x ← m; f x ≫= g) db → safe ((m ≫= f) ≫= g) db.
Proof.
  intros Hm db' r. specialize (Hm db' r). revert Hm. cbv [mbind mut_bind].
  by destruct (m db) as [db1 [a|e]].
Qed.

(** The artifact the paired read found, and that its evidence is the stream. *)
Definition loaded (db : Db) (id : Uuid) (e : Entry) (p : ArtifactAtVersion) : Prop :=
  db !! id = Some e ∧ deleted_at (row e) = None ∧ av_artifact p = hydrate (row e) ∧
  ∀ s, evidence p = Ok s → s = stream e.

Lemma load_loaded db id mode p : load db id mode = Ok p → ∃ e, loaded db id e p.
Proof.
  unfold load, load_across, read_or_refuse, lift_domain. intros Hl. unbind. subst p.
  unfold find_by_id in *. destruct (db !! id) as [e|] eqn:El; [| done].
  destruct (deleted_at (row e)) eqn:Ed; cbn [is_some] in *; [done |]. simplify_eq.
  exists e. split_and!; [done..|]. intros s. unfold evidence, assemble. cbn [av_read].
  assert (Hr : x = capped_artifact_read db id) by
    (destruct mode; [destruct (over_cap _) |]; by simplify_eq).
  subst x. destruct (over_cap _) eqn:Eo; [done |]. intros [= <-].
  unfold capped_artifact_read, capped_read in *. cbn [events over_cap] in *. unfold stream_of in *.
  rewrite El in *. apply take_ge. apply Z.ltb_ge in Eo. unfold len, STREAM_EVENT_CAP in *.
  rewrite length_take in Eo. lia.
Qed.

Lemma safe_load_paired {A} id mode (f : ArtifactAtVersion → handler A) db :
  (∀ p e, loaded db id e p → safe (f p) db) → safe (load_paired id mode ≫= f) db.
Proof.
  intros Hf. unfold load_paired. apply safe_bind_assoc, safe_self, safe_lift.
  intros p Hp. destruct (load_loaded _ _ _ _ Hp) as (e & He). by eapply Hf.
Qed.
End rules.

(** ** Commits *)

Section commits.
Context `{EventWire, SerdeJson}.
Context (J : Entry → list DomainEvent → Prop).

Lemma commit_transition_Err a id expected evs now db db' err :
  commit_transition a id expected evs now db = (db', Err err) → db' = db.
Proof.
  unfold commit_transition. cbv [mbind mut_bind lift self modify].
  destruct (require_paired_artifact_stream a id); [| by intros [= <- <-]].
  destruct (append_in_tx _ _ _ _ _); [done | by intros [= <- <-]].
Qed.

Lemma commit_verdict_Err a id expected evs prior now db db' err :
  commit_verdict a id expected evs prior now db = (db', Err err) → db' = db.
Proof.
  unfold commit_verdict. cbv [mbind mut_bind lift self modify throw mret mut_ret].
  destruct (require_paired_artifact_stream a id); [| by intros [= <- <-]].
  destruct (append_in_tx _ _ _ _ _); [| by intros [= <- <-]].
  destruct (db !! id); [| by intros [= <- <-]].
  case_bool_decide; [done |]. destruct (save_verdict_status_in_tx _ _ _ _ _); [done | by intros [= <- <-]].
Qed.

Lemma safe_commit_transition a id e expected evs now db :
  db !! id = Some e → evs ≠ [] → identity a = identity (row e) →
  quarantine_status a = foldl project (quarantine_status (row e)) evs → J e evs →
  safe J (commit (commit_transition a id expected evs now)) db.
Proof.
  intros Hl Hne Hid Hq HJ db' r. unfold commit.
  destruct (commit_transition a id expected evs now db) as [db1 [[]|err]] eqn:E; cbn;
    intros [= <- <-]; [| left; by eapply commit_transition_Err].
  apply commit_transition_Ok in E as (Hi & _ & ->). right.
  exists id, e. eexists _, evs, now. cbn. rewrite Hl. cbn.
  split_and!; [done | done | done | | | done..]; [unfold stream_of; by rewrite Hl |].
  unfold identity in *. cbn. congruence.
Qed.

Lemma safe_commit_verdict a id e expected evs prior now db :
  db !! id = Some e → evs ≠ [] → prior = quarantine_status (row e) →
  quarantine_status a = foldl project (quarantine_status (row e)) evs → J e evs →
  safe J (commit (commit_verdict a id expected evs prior now)) db.
Proof.
  intros Hl Hne Hp Hq HJ db' r. unfold commit.
  destruct (commit_verdict a id expected evs prior now db) as [db1 [[]|err]] eqn:E; cbn;
    intros [= <- <-]; [| left; by eapply commit_verdict_Err].
  apply commit_verdict_Ok in E as (Hi & _ & e' & Hl' & Hdb).
  assert (e' = e) as -> by congruence. right. exists id, e. unfold stream_of in Hdb.
  rewrite Hl in Hdb. destruct Hdb as [(Hs & ->) | (Hs & _ & ->)].
  - eexists _, evs, now. split_and!; [done | done | done | done | done | done | | done]. cbn. congruence.
  - by eexists _, evs, now.
Qed.
End commits.

(** ** What the domain methods contribute *)

Lemma release_timer_facts z p a a' x :
  release RL_Timer z p a = (a', Ok x) →
  (quarantine_status a = QS_Quarantined ∨ quarantine_status a = QS_ScanIndeterminate) ∧
  provenance_clears p = true.
Proof.
  unfold release. cbv [mbind mut_bind mret mut_ret self modify throw].
  destruct (quarantine_status a) eqn:Hs; simpl; try done;
    destruct z; simpl; try done; destruct (provenance_clears p); simpl; by auto.
Qed.

Lemma release_curator_facts z p a a' x :
  release RL_Curator z p a = (a', Ok x) →
  quarantine_status a = QS_Rejected → is_curator_overridable (rejection_reason a) = true.
Proof.
  unfold release. cbv [mbind mut_bind mret mut_ret self modify throw].
  intros H Hs. rewrite Hs in H. simpl in H. destruct z; simpl in H; try done.
  by destruct (is_curator_overridable (rejection_reason a)).
Qed.

Lemma complete_provenance_projects v b a a' evs :
  complete_provenance v b a = (a', Ok evs) →
  identity a' = identity a ∧
  quarantine_status a' = foldl project (quarantine_status a) evs ∧
  ∀ r, DE_ArtifactReleased r ∉ evs.
Proof.
  unfold complete_provenance. intros H. run_method H.
  all: split_and!; [done..|]; intros r Hr; set_unfold in Hr; by naive_solver.
Qed.

Lemma re_evaluate_facts now p c a a' ev :
  re_evaluate now p c a = (a', Ok ev) →
  quarantine_status a = QS_Rejected ∧ is_scan_clearable (rejection_reason a) = true ∧
  c = CC_Cleared ∧ identity a' = identity a ∧
  quarantine_status a' = project QS_Rejected ev ∧
  (∀ r, ev = DE_ArtifactReleased r →
        released_by r = RL_PolicyReEvaluation ∧ provenance_clears p = true).
Proof.
  unfold re_evaluate. intros H. run_method H. all: breflect.
  all: destruct (quarantine_status a); try done; destruct c; try done.
  all: split_and!; [done..|]; naive_solver.
Qed.

Lemma provenance_gate stream mode :
  provenance_clears (provenance_clearance_from stream mode) = true →
  mode = PM_Required → ∃ v, DE_ProvenanceVerified v ∈ (event <$> stream).
Proof.
  intros Hc ->. simpl in Hc. destruct (existsb _ stream) eqn:E; [| done].
  apply existsb_True in E as (e & He & Hv). unfold is_verified_event in Hv.
  destruct (event e) eqn:Ee; try done. exists e0. rewrite <- Ee. by apply list_elem_of_fmap_2.
Qed.

(** A scan in the batch decides for the whole stream. *)
Lemma evidence_prefix pre sc evs policy z :
  scan_authority_evidence (DE_ScanCompleted sc :: evs) policy z →
  scan_authority_evidence (pre ++ DE_ScanCompleted sc :: evs) policy z.
Proof.
  intros [(before & sc' & after & Heq & Hrest) | (_ & Hno & _)].
  - left. exists (pre ++ before), sc', after. split; [| done]. rewrite Heq. by rewrite app_assoc.
  - specialize (Hno (DE_ScanCompleted sc)). discriminate Hno. left.
Qed.

(** ** When a release may be recorded *)

Definition release_justified (ports : Ports) (e : Entry) (evs : list DomainEvent) : Prop :=
  ∀ r, DE_ArtifactReleased r ∈ evs →
  match released_by r with
  | RL_Timer =>
      (quarantine_status (row e) = QS_Quarantined ∨
       quarantine_status (row e) = QS_ScanIndeterminate) ∧
      ∃ policy z before,
        resolve_active_policy_for_repo ports (repository_id (row e)) = Ok policy ∧
        evs = before ++ [DE_ArtifactReleased r] ∧
        scan_authority_evidence ((event <$> stream e) ++ before) policy z ∧
        (provenance_mode_of policy = PM_Required →
         ∃ v, DE_ProvenanceVerified v ∈ (event <$> stream e))
  | RL_Curator =>
      (quarantine_status (row e) = QS_Rejected →
       ∃ reason, last_rejection_reason (stream e) = Some reason ∧
                 reason ≠ RR_Admin ∧ reason ≠ RR_Corruption) ∧
      (∃ user, released_by_user_id r = Some user) ∧
      (∃ why, justification r = Some why ∧ 0 < strlen why ≤ MAX_JUSTIFICATION_BYTES)
  | RL_PolicyReEvaluation =>
      quarantine_status (row e) = QS_Rejected ∧
      (last_rejection_reason (stream e) = Some RR_Scanner ∨
       last_rejection_reason (stream e) = Some RR_ScanPolicyRetroactive) ∧
      ∃ policy rules format,
        resolve_active_policy_for_repo ports (repository_id (row e)) = Ok policy ∧
        (provenance_mode_of policy = PM_Required →
         ∃ v, DE_ProvenanceVerified v ∈ (event <$> stream e)) ∧
        list_rules_for_repo ports (repository_id (row e)) = Ok rules ∧
        resolve_curation_clearance rules format (row e) = CC_Cleared
  | RL_Admin => False
  end.

(** A batch without a release needs no justification. *)
Lemma justified_no_release ports e evs :
  (∀ r, DE_ArtifactReleased r ∉ evs) → release_justified ports e evs.
Proof. intros Hn r Hr. by apply Hn in Hr. Qed.

Lemma is_curator_overridable_spec r :
  is_curator_overridable r = true →
  ∃ reason, r = Some reason ∧ reason ≠ RR_Admin ∧ reason ≠ RR_Corruption.
Proof. destruct r as [[] |]; try done; eauto. Qed.

(** ** Every handler is safe *)

Section handlers_safe.
Context `{EventWire, SerdeJson, Unicode}.
Context (ports : Ports).

Abbreviation safe := (safe (release_justified ports)).

(** Facts about the loaded row. *)
Ltac use_loaded :=
  match goal with
  | Hl : loaded ?db ?id ?e ?p |- _ =>
      let Ha := fresh "Ha" in
      destruct Hl as (? & ? & Ha & ?); rewrite ?Ha in *
  end.

Lemma quarantine_artifact_safe id until db : safe (quarantine_artifact ports id until) db.
Proof.
  unfold quarantine_artifact. apply safe_load_paired. intros p e Hp. use_loaded.
  apply safe_apply_method. intros a' x Hm. unfold quarantine in Hm. run_method Hm.
  apply safe_commit_transition with e; [done..|].
  apply justified_no_release. intros r Hr. set_unfold in Hr. by naive_solver.
Qed.

Lemma record_scan_indeterminate_safe id scanner reason n db :
  safe (record_scan_indeterminate ports id scanner reason n) db.
Proof.
  unfold record_scan_indeterminate. apply safe_load_paired. intros p e Hp. use_loaded.
  destruct (fail_scan_indeterminate _ _ _ _) as [a' [ev|err]] eqn:Hm.
  - unfold fail_scan_indeterminate in Hm. run_method Hm.
    apply safe_commit_transition with e; [done..|].
    apply justified_no_release. intros r Hr. set_unfold in Hr. by naive_solver.
  - destruct err; first [apply safe_ret | apply safe_throw].
Qed.

Lemma block_one_safe id user why db : safe (block_one ports id user why) db.
Proof.
  unfold block_one. apply safe_load_paired. intros p e Hp. use_loaded.
  case_bool_decide; [apply safe_ret |].
  apply safe_apply_method. intros a' x Hm. unfold block_by_curator in Hm. run_method Hm.
  apply safe_commit_ret, safe_commit_transition with e; [done..|].
  apply justified_no_release. intros r Hr. set_unfold in Hr. by naive_solver.
Qed.

Lemma block_safe id user privileges why db : safe (block ports id user privileges why) db.
Proof.
  unfold block. do 2 (apply safe_lift; intros [] _). apply safe_self, safe_lift. intros _ _.
  apply block_one_safe.
Qed.

Lemma try_tombstone_safe found computed db : safe (try_tombstone_artifact ports found computed) db.
Proof.
  unfold try_tombstone_artifact. destruct found as [id|]; [| apply safe_ret].
  apply safe_self, safe_lift. intros a Ha. unfold lift_domain, find_by_id in Ha.
  destruct (db !! id) as [e|] eqn:El; [| done].
  destruct (is_some (deleted_at (row e))); [done |]. injection Ha as <-.
  destruct (tombstone_from_corruption _ _ _) as [a' [evs|err]] eqn:Hm; [| apply safe_ret].
  unfold tombstone_from_corruption in Hm. run_method Hm.
  apply safe_commit_transition with e; [done..|].
  apply justified_no_release. intros r Hr. set_unfold in Hr. by naive_solver.
Qed.

Lemma apply_verdict_safe id e p backend verdict mode db :
  db_ok db → loaded db id e p → safe (apply_verdict ports p backend verdict mode) db.
Proof.
  intros Hok Hp. unfold apply_verdict. destruct (_ && _); [apply safe_ret |].
  apply safe_apply_method. intros a' evs Hm. use_loaded. cbn [fst snd].
  apply complete_provenance_projects in Hm as (Hid & Hq & Hn).
  destruct (is_empty evs) eqn:Ee; [apply safe_bind_ret, safe_ret |].
  apply is_empty_false in Ee. apply safe_commit_ret.
  assert (artifact_id (row e) = id) by by apply Hok.
  apply safe_commit_verdict with e; [injection Hid; congruence | done | done | done |].
  by apply justified_no_release.
Qed.

Lemma verify_and_apply_safe id backend verdict db :
  db_ok db → safe (verify_and_apply ports id backend verdict) db.
Proof.
  intros Hok. unfold verify_and_apply. apply safe_load_paired. intros p e Hp.
  apply safe_lift. intros policy _. case_bool_decide; [apply safe_ret |].
  case_bool_decide; [| by eapply apply_verdict_safe].
  unfold already_cleared. apply safe_bind_assoc, safe_self.
  destruct (over_cap _); [apply safe_bind_throw |]. apply safe_bind_ret.
  destruct (existsb _ _); [apply safe_ret | by eapply apply_verdict_safe].
Qed.

Lemma repair_one_safe id dry_run db : safe (repair_one ports id dry_run) db.
Proof.
  unfold repair_one. apply safe_load_paired. intros p e Hp. use_loaded.
  case_bool_decide as Hs; [| apply safe_ret]. cbn [negb]. apply safe_lift. intros s _.
  destruct (negb _); [apply safe_ret |]. destruct (negb _); [apply safe_ret |].
  apply safe_apply_method. intros a' x Hm. destruct dry_run; [apply safe_ret |].
  apply safe_commit_ret. unfold repair_provenance_misrejection in Hm. run_method Hm.
  all: apply safe_commit_transition with e; [done..|].
  all: apply justified_no_release; intros r Hr; set_unfold in Hr; by naive_solver.
Qed.

Lemma validate_justification_Ok why :
  validate_justification why = Ok () → 0 < strlen why ≤ MAX_JUSTIFICATION_BYTES.
Proof.
  unfold validate_justification, strlen. intros Hv. split_guards. breflect. lia.
Qed.

Lemma waive_justified e a a' x user why :
  release RL_Curator CuratorWaiver PC_NotRequired a = (a', Ok x) →
  quarantine_status a = quarantine_status (row e) →
  (quarantine_status (row e) = QS_Rejected →
   rejection_reason a = last_rejection_reason (stream e)) →
  validate_justification why = Ok () →
  release_justified ports e
    [DE_ArtifactReleased {| ar_artifact_id := ar_artifact_id x; released_by := released_by x;
                            released_by_user_id := Some user; justification := Some why |}].
Proof.
  intros Hr Hs Hrr Hv r Hin. apply list_elem_of_singleton in Hin as [= ->].
  pose proof (release_curator_facts _ _ _ _ _ Hr) as Hc.
  apply release_ok in Hr as [_ ->]. cbn. split_and!.
  - intros Hrej. rewrite <- Hrr by done. apply is_curator_overridable_spec, Hc. congruence.
  - by eauto.
  - exists why. split; [done |]. by apply validate_justification_Ok.
Qed.

Lemma waive_safe id user privileges why db : safe (waive ports id user privileges why) db.
Proof.
  unfold waive. apply safe_lift. intros [] _. apply safe_lift. intros [] Hv.
  apply safe_load_paired. intros p e Hp. destruct Hp as (Hl & _ & Ha & Hev).
  case_bool_decide as Hs.
  - apply safe_bind_assoc, safe_lift. intros s Hse. apply Hev in Hse as ->. apply safe_bind_ret.
    apply safe_apply_method. intros a' x Hm. pose proof (release_ok _ _ _ _ _ _ Hm) as [-> _].
    apply safe_commit_transition with e; [done | done | by cbn; rewrite Ha | done |].
    rewrite Ha in *. eapply waive_justified; by eauto.
  - apply safe_bind_ret, safe_apply_method. intros a' x Hm.
    pose proof (release_ok _ _ _ _ _ _ Hm) as [-> _].
    apply safe_commit_transition with e; [done | done | by cbn; rewrite Ha | done |].
    rewrite Ha in *. eapply waive_justified; by eauto.
Qed.

Lemma timer_justified e policy z a a' x before s :
  release RL_Timer z (provenance_clearance_from s (provenance_mode_of policy)) a = (a', Ok x) →
  quarantine_status a = quarantine_status (row e) → s = stream e →
  resolve_active_policy_for_repo ports (repository_id (row e)) = Ok policy →
  scan_authority_evidence ((event <$> stream e) ++ before) policy z →
  (∀ r, DE_ArtifactReleased r ∉ before) →
  release_justified ports e (before ++ [DE_ArtifactReleased x]).
Proof.
  intros Hr Hs -> Hpol Hev Hb r [Hin | Hin]%elem_of_app; [by apply Hb in Hin |].
  apply list_elem_of_singleton in Hin as [= ->].
  pose proof (release_timer_facts _ _ _ _ _ Hr) as [Hst Hc].
  apply release_ok in Hr as [_ ->]. cbn. split; [by rewrite <- Hs |].
  exists policy, z, before. split_and!; [done.. |]. by apply provenance_gate.
Qed.

Lemma release_decided_safe id e p policy summary db :
  loaded db id e p →
  resolve_active_policy_for_repo ports (repository_id (row e)) = Ok policy →
  safe (release_decided ports id p (stream e) policy
          (provenance_clearance_from (stream e) (provenance_mode_of policy)) summary) db.
Proof.
  intros (Hl & _ & Ha & _) Hpol. unfold release_decided.
  destruct (resolve_release_authority _ _) as [z|] eqn:Ez; [| apply safe_ret].
  destruct (release _ _ _ _) as [a' [ev|]] eqn:Er; [| apply safe_ret]. apply safe_commit_ret.
  pose proof (release_ok _ _ _ _ _ _ Er) as [-> _]. rewrite Ha in *.
  apply safe_commit_transition with e; [done..|].
  apply (timer_justified e policy z _ _ _ [] (stream e) Er); [done..| | by intros ? ?%elem_of_nil].
  rewrite app_nil_r. by apply scan_authority_iff.
Qed.

Lemma release_one_safe id summary db : safe (release_one ports id summary) db.
Proof.
  unfold release_one. apply safe_self. destruct (load db id Tolerate) as [p|] eqn:El;
    [| apply safe_ret].
  destruct (load_loaded _ _ _ _ El) as (e & Hp). pose proof Hp as (Hl & _ & Ha & Hev).
  destruct (evidence p) as [s|] eqn:Es; [| apply safe_ret]. rewrite (Hev s) in * by done.
  unfold release_loaded. apply safe_lift. intros policy Hpol. rewrite Ha in Hpol.
  destruct (is_pending _); [apply safe_lift; intros sum _ | apply safe_bind_ret];
    by apply release_decided_safe.
Qed.

Lemma became_vulnerable_no_release i found t evs :
  maybe_became_vulnerable i found t = Ok evs →
  foldl project QS_None evs = QS_None ∧ (∀ s, foldl project s evs = s) ∧
  (∀ r, DE_ArtifactReleased r ∉ evs) ∧ no_scan evs.
Proof.
  unfold maybe_became_vulnerable. intros Hm. destruct (is_empty found); [| destruct t]; unbind; subst.
  all: split_and!; [done..| |]; intros r Hr; set_unfold in Hr; by naive_solver.
Qed.

(** What the scan-result handlers know about the loaded artifact. *)
Definition ctx_of (ctx : ScanResultContext) (e : Entry) : Prop :=
  ctx_prior_status ctx = quarantine_status (row e) ∧
  resolve_active_policy_for_repo ports (repository_id (row e)) = Ok (ctx_policy ctx) ∧
  ctx_fast_path_provenance ctx =
    provenance_clearance_from (stream e) (provenance_mode_of (ctx_policy ctx)).

Lemma scan_batch_no_release sc pushed pe :
  (∀ r, DE_ArtifactReleased r ∉ pushed) →
  ∀ r, DE_ArtifactReleased r ∉ [DE_ScanCompleted sc] ++ pushed ++ [DE_PolicyEvaluated pe].
Proof. intros Hp r Hr. specialize (Hp r). set_unfold in Hr. by naive_solver. Qed.

Lemma fast_path_fires_reads ctx a : reads (fast_path_fires ctx a).
Proof.
  intros db db' r. unfold fast_path_fires. case_bool_decide; [| by intros [= <- <-]].
  destruct (quarantine_window_start a); [| by intros [= <- <-]].
  cbv [mbind mut_bind or_panic]. destruct (deadline_after _ _); by intros [= <- <-].
Qed.

Lemma record_clean_scan_reads a :
  reads (match record_clean_scan a with
         | Ok _ => mret ()
         | Err (Invariant _) => mret ()
         | Err e => throw (AE_Domain e)
         end).
Proof.
  intros db db' r. destruct (record_clean_scan a) as [|[]]; by intros [= <- <-].
Qed.

Lemma fast_path_release_cases fires authority provenance a a' evs :
  fast_path_release fires authority provenance a = (a', evs) →
  (a' = a ∧ evs = []) ∨
  ∃ z x, authority = Some z ∧ release RL_Timer z provenance a = (a', Ok x) ∧
         evs = [DE_ArtifactReleased x].
Proof.
  unfold fast_path_release. destruct fires, authority as [z|]; try (by intros [= <- <-]; left).
  destruct (release RL_Timer z provenance a) as [a1 [x|err]] eqn:Er; intros [= <- <-].
  - right. by eauto.
  - left. split; [| done]. by apply (wb_atomic _ _ (release_behaves _ _ _)) in Er.
Qed.

Lemma handle_non_rejecting_safe e ctx vs found db :
  db !! ctx_artifact_id ctx = Some e → ctx_of ctx e →
  safe (handle_non_rejecting_verdict (hydrate (row e)) ctx vs found) db.
Proof.
  intros Hl (Hps & Hpol & Hpr). unfold handle_non_rejecting_verdict.
  apply safe_bind_reads; [apply record_clean_scan_reads | intros _ _].
  apply safe_lift. intros pushed Hp.
  apply became_vulnerable_no_release in Hp as (_ & Hpp & Hpn & _).
  apply safe_lift. intros _ _. apply safe_bind_reads; [apply fast_path_fires_reads | intros fires _].
  match goal with |- context [[DE_PolicyEvaluated ?pe]] => set (pe1 := pe) end.
  pose proof (scan_batch_no_release (ctx_scan_event ctx) pushed pe1 Hpn) as Hn.
  set (batch := [DE_ScanCompleted (ctx_scan_event ctx)] ++ pushed ++ [DE_PolicyEvaluated pe1]) in *.
  assert (Hproj : ∀ s, foldl project s batch = s).
  { intros s. unfold batch. simpl. rewrite foldl_app. cbn. by rewrite Hpp. }
  destruct (fast_path_release _ _ _ _) as [a' evs] eqn:Ef.
  apply fast_path_release_cases in Ef as [[-> ->] | (z & x & Hz & Hr & ->)].
  - apply safe_commit_verdict with e; [done | done | done | |].
    + by rewrite app_nil_r, Hproj.
    + rewrite app_nil_r. by apply justified_no_release.
  - pose proof (release_ok _ _ _ _ _ _ Hr) as [Ha' _]. rewrite Hpr in Hr.
    apply safe_commit_verdict with e; [done | done | done | |].
    + rewrite foldl_app. by subst a'.
    + apply (timer_justified e (ctx_policy ctx) z _ _ _ batch (stream e) Hr); [done..| | done].
      apply evidence_prefix, scan_authority_iff, Hz.
Qed.

Lemma handle_reject_safe e ctx vs found db :
  db !! ctx_artifact_id ctx = Some e → ctx_of ctx e →
  safe (handle_reject_verdict (hydrate (row e)) ctx vs found) db.
Proof.
  intros Hl (Hps & Hpol & Hpr). unfold handle_reject_verdict.
  destruct (reject_from_scan _ _ _) as [a' [ev|err]] eqn:Hm.
  - apply safe_bind_ret. apply safe_lift. intros _ _. apply safe_lift. intros pushed Hp.
    apply became_vulnerable_no_release in Hp as (_ & Hpp & Hpn & _).
    unfold reject_from_scan in Hm. run_method Hm.
    all: apply safe_commit_verdict with e; [done | done | done | |];
      [simpl; rewrite foldl_app; done |].
    all: apply justified_no_release; intros r Hr; specialize (Hpn r); set_unfold in Hr;
      by naive_solver.
  - pose proof (wb_atomic _ _ (reject_from_scan_behaves _ _) _ _ _ Hm) as ->.
    destruct err; try apply safe_bind_throw. apply safe_bind_ret.
    apply safe_lift. intros _ _. apply safe_lift. intros pushed Hp.
    apply became_vulnerable_no_release in Hp as (_ & Hpp & Hpn & _).
    apply safe_commit_verdict with e; [done | done | done | |].
    + simpl. rewrite foldl_app. cbn. by rewrite Hpp.
    + cbn [snd]. rewrite app_nil_r. apply justified_no_release. by apply scan_batch_no_release.
Qed.

Lemma record_scan_result_safe id scanner findings assessment kind db :
  safe (record_scan_result ports id scanner findings assessment kind) db.
Proof.
  unfold record_scan_result. apply safe_lift. intros _ _.
  destruct (u32_MAX <? len findings); [apply safe_bind_throw | apply safe_bind_ret].
  apply safe_lift. intros _ _. apply safe_load_paired. intros p e (Hl & _ & Ha & Hev).
  apply safe_lift. intros s Hs. apply Hev in Hs as ->.
  apply safe_lift. intros policy Hpol. rewrite Ha in *.
  do 2 (apply safe_lift; intros ? _).
  apply safe_bind_reads.
  { intros d d' r. destruct (prior_scan_completed _) as [[? ?]|]; [| by intros [= <- <-]].
    by intros [= <- <-]. }
  intros prior _. do 2 (apply safe_lift; intros ? _).
  destruct (evaluate_scan_result _ _ _ _ _ _);
    first [apply handle_reject_safe | apply handle_non_rejecting_safe]; done.
Qed.

Lemma derive_rejected_outcome_reads p policy exclusions kind mode now :
  reads (derive_rejected_outcome ports p policy exclusions kind mode now).
Proof.
  intros db db' r. unfold derive_rejected_outcome. cbv [mbind mut_bind lift].
  destruct (evidence p) as [s|]; [| by intros [= <- <-]].
  destruct (negb _); [by intros [= <- <-] |].
  destruct (last_scan_completed s); [| by intros [= <- <-]].
  destruct policy as [pol|], (quarantine_window_start (av_artifact p)) as [w|];
    try (by intros [= <- <-]). unfold or_panic.
  destruct (deadline_after w _); by intros [= <- <-].
Qed.

Lemma derive_rejected_outcome_facts db id e p policy exclusions kind mode now o d r pr :
  loaded db id e p →
  derive_rejected_outcome ports p policy exclusions kind mode now db =
    (db, Ok (Determined o d r pr)) →
  r = last_rejection_reason (stream e) ∧
  pr = provenance_clearance_from (stream e) (provenance_mode_of policy).
Proof.
  intros (_ & _ & _ & Hev). unfold derive_rejected_outcome. intros Hd. unbind.
  match goal with Hs : evidence p = Ok ?s |- _ => rewrite (Hev s Hs) in * end.
  destruct (negb _); unbind; [done |].
  destruct (last_scan_completed (stream e)); unbind; by simplify_eq.
Qed.

(** A re-evaluation that releases passed the provenance gate of the stream. *)
Lemma apply_re_evaluation_safe id e p policy o d now db :
  loaded db id e p →
  resolve_active_policy_for_repo ports (repository_id (row e)) = Ok policy →
  (o = ResetToReleased ∨ o = ResetToQuarantined ∧ in_window (set_deadline d (row e)) now) →
  safe (apply_re_evaluation ports id p policy o d (last_rejection_reason (stream e))
          (provenance_clearance_from (stream e) (provenance_mode_of policy)) now) db.
Proof.
  intros (Hl & _ & Ha & _) Hpol Ho. unfold apply_re_evaluation. rewrite Ha.
  apply safe_lift. intros rules Hrules. apply safe_bind_reads.
  { intros ? ? ?. destruct (is_empty rules); by intros [= <- <-]. }
  intros format _. destruct (negb _); [apply safe_ret |].
  destruct (_ && _) eqn:Eg; [apply safe_ret |].
  apply safe_apply_method. intros a' ev Hm. cbn [fst snd]. apply safe_commit_ret.
  pose proof Hm as Hm'. apply re_evaluate_facts in Hm as (Hs & Hc & Hcur & Hid & Hq & Hrel).
  apply safe_commit_transition with e; [done | done | done | |].
  { rewrite Hq. cbn in Hs |- *. by rewrite Hs. }
  intros r Hin. assert (ev = DE_ArtifactReleased r) as ->.
  { set_unfold in Hin. by destruct Hin as [? | [<- | []]]. }
  destruct (Hrel r eq_refl) as [-> Hp]. split; [done |].
  split; [by apply is_scan_clearable_spec |].
  exists policy, rules, format. split_and!; [done | | done | done].
  destruct Ho as [-> | [-> Hw]].
  - by apply provenance_gate.
  - exfalso. apply in_window_spec in Hw. revert Hm'. unfold re_evaluate.
    cbv [mbind mut_bind mret mut_ret self modify throw]. simpl. simpl in Hw. rewrite Hw.
    split_guards.
Qed.

Lemma reset_to_quarantined_in_window a kind s fs policy ex mode d now :
  decide_rejected_transition a kind s fs policy ex mode d now = ResetToQuarantined →
  ∃ t, d = Some t ∧ now < t.
Proof.
  unfold decide_rejected_transition. destruct (evaluate_scan_summary _ _); [| done |];
    destruct d as [t|]; try done; destruct (Z.ltb_spec now t); naive_solver.
Qed.

Lemma derived_outcome db p policy exclusions kind mode now o d r pr :
  derive_rejected_outcome ports p policy exclusions kind mode now db =
    (db, Ok (Determined o d r pr)) → o = ResetToQuarantined → ∃ t, d = Some t ∧ now < t.
Proof.
  unfold derive_rejected_outcome. intros Hd Ho. unbind. destruct (negb _); unbind; [done |].
  destruct (last_scan_completed _); unbind; simplify_eq.
  by eapply reset_to_quarantined_in_window.
Qed.

Lemma reevaluate_safe id privileges db : safe (reevaluate ports id privileges) db.
Proof.
  unfold reevaluate. apply safe_lift. intros _ _. apply safe_load_paired. intros p e Hp.
  pose proof Hp as (Hl & _ & Ha & Hev).
  case_bool_decide as Hs; [| apply safe_throw]. cbn [negb].
  apply safe_lift. intros policy Hpol. rewrite Ha in Hpol. do 2 (apply safe_lift; intros ? _).
  apply safe_bind_reads; [apply derive_rejected_outcome_reads |]. intros derivation Hd.
  destruct derivation as [? | | o d r pr]; [apply safe_ret | apply safe_throw |].
  pose proof (derive_rejected_outcome_facts _ _ _ _ _ _ _ _ _ _ _ _ _ Hp Hd) as [-> ->].
  pose proof (derived_outcome _ _ _ _ _ _ _ _ _ _ _ Hd) as Hw.
  destruct o; [apply safe_ret | |]; apply apply_re_evaluation_safe; [done | done | | done | done |].
  - right. split; [done | by apply Hw].
  - by left.
Qed.
End handlers_safe.

(** ** Runs of the system *)

Section runs.
Context `{EventWire, SerdeJson, Unicode}.

(** One request, job or sweep step on one artifact, with any ports. *)
Inductive lifecycle_step (ports : Ports) (db db' : Db) : Prop :=
  | ls_quarantine id until r :
      quarantine_artifact ports id until db = (db', r) → lifecycle_step ports db db'
  | ls_scan id scanner findings assessment kind r :
      record_scan_result ports id scanner findings assessment kind db = (db', r) →
      lifecycle_step ports db db'
  | ls_scan_indeterminate id scanner reason attempts r :
      record_scan_indeterminate ports id scanner reason attempts db = (db', r) →
      lifecycle_step ports db db'
  | ls_release id summary r :
      release_one ports id summary db = (db', r) → lifecycle_step ports db db'
  | ls_waive id user privileges why r :
      waive ports id user privileges why db = (db', r) → lifecycle_step ports db db'
  | ls_block id user privileges why r :
      block ports id user privileges why db = (db', r) → lifecycle_step ports db db'
  | ls_reevaluate id privileges r :
      reevaluate ports id privileges db = (db', r) → lifecycle_step ports db db'
  | ls_provenance id backend verdict r :
      verify_and_apply ports id backend verdict db = (db', r) → lifecycle_step ports db db'
  | ls_repair id dry_run r :
      repair_one ports id dry_run db = (db', r) → lifecycle_step ports db db'
  | ls_tombstone found computed r :
      try_tombstone_artifact ports found computed db = (db', r) → lifecycle_step ports db db'
  | ls_delete id now r :
      delete_artifact id now db = (db', r) → lifecycle_step ports db db'.

Definition some_step (db db' : Db) : Prop := ∃ ports, lifecycle_step ports db db'.

Lemma delete_artifact_advances J id now db db' r :
  (∀ e evs, (∀ x, DE_ArtifactReleased x ∉ evs) → J e evs) →
  delete_artifact id now db = (db', r) → advances J db db'.
Proof.
  intros HJ. destruct r as [[]|err]; intros Hd.
  - apply delete_artifact_Ok in Hd as (e & ev & Hl & _ & ->). right.
    exists id, e. eexists _, [DE_ArtifactDeleted ev], now.
    split_and!; [done | done | done | | done | done | done |].
    + unfold stream_of. by rewrite Hl.
    + apply HJ. intros x Hx. set_unfold in Hx. by naive_solver.
  - left. revert Hd. unfold delete_artifact. cbv [mbind mut_bind self throw lift modify].
    destruct (db !! id) as [e|]; [| by intros [= <- <-]].
    destruct (is_some _); [by intros [= <- <-] |].
    destruct (delete now _) as [a [ev|]]; [| by intros [= <- <-]].
    destruct (append_in_tx _ _ _ _ _); [done | by intros [= <- <-]].
Qed.

Lemma step_advances ports db db' :
  db_ok db → lifecycle_step ports db db' → advances (release_justified ports) db db'.
Proof.
  intros Hok [].
  - by eapply quarantine_artifact_safe.
  - by eapply record_scan_result_safe.
  - by eapply record_scan_indeterminate_safe.
  - by eapply release_one_safe.
  - by eapply waive_safe.
  - by eapply block_safe.
  - by eapply reevaluate_safe.
  - by eapply verify_and_apply_safe.
  - by eapply repair_one_safe.
  - by eapply try_tombstone_safe.
  - eapply delete_artifact_advances; [| done]. intros e evs. apply justified_no_release.
Qed.

Lemma release_all_steps ports ids summary db db' r :
  release_all ports ids summary db = (db', r) → rtc some_step db db'.
Proof.
  revert summary db. induction ids as [| id ids IH]; intros summary db; cbn [release_all].
  - intros [= <- <-]. apply rtc_refl.
  - cbv [mbind mut_bind]. destruct (release_one ports id summary db) as [db1 [s|err]] eqn:E.
    + intros Hr. apply rtc_l with db1; [| by eapply IH]. exists ports. by eapply ls_release.
    + intros [= <- <-]. apply rtc_once. exists ports. by eapply ls_release.
Qed.

(** The sweep over many artifacts is a run of single releases. *)
Lemma release_expired_steps ports ids db db' r :
  release_expired ports ids db = (db', r) → rtc some_step db db'.
Proof. apply release_all_steps. Qed.

Lemma advances_grows J db db' id e :
  advances J db db' → db !! id = Some e →
  ∃ e' evs now, db' !! id = Some e' ∧ stream e' = stream e ++ persisted now evs.
Proof.
  intros [-> | (id' & e0 & e1 & evs & now & Hl & -> & _ & Hs & _)] He.
  - exists e, [], 0. by rewrite app_nil_r.
  - destruct (decide (id' = id)) as [-> | Hne].
    + exists e1, evs, now. rewrite lookup_insert_eq. split; [done |]. congruence.
    + exists e, [], 0. rewrite lookup_insert_ne by done. by rewrite app_nil_r.
Qed.

(** C23. The stream is the record and the status its projection, in every run of
    the system: starting from rows that agree with their streams, any
    sequence of whole handler runs (scan results, sweeps, curator actions,
    provenance verdicts, repairs, tombstones and deletions), with whatever the policy store and the
    scanners answer, ends in a database where every artifact's status is the
    one its event stream projects to, and no stream has lost or changed an
    event. *)
Theorem status_is_the_projection_of_the_stream db db' :
  rtc some_step db db' → db_ok db →
  db_ok db' ∧
  ∀ id e, db !! id = Some e →
    ∃ e' more, db' !! id = Some e' ∧ stream e' = stream e ++ more.
Proof.
  induction 1 as [db | db db1 db' [ports Hs] _ IH]; intros Hok.
  - split; [done |]. intros id e He. exists e, []. by rewrite app_nil_r.
  - pose proof (step_advances _ _ _ Hok Hs) as Ha.
    destruct (IH (advances_db_ok _ _ _ Ha Hok)) as [Hok' Hgrow]. split; [done |].
    intros id e He. destruct (advances_grows _ _ _ _ _ Ha He) as (e1 & evs & now & He1 & Hs1).
    destruct (Hgrow id e1 He1) as (e' & more & He' & Hs'). exists e', (persisted now evs ++ more).
    split; [done |]. by rewrite Hs', Hs1, app_assoc.
Qed.

Lemma project_released evs s :
  foldl project s evs = QS_Released → s = QS_Released ∨ ∃ r, DE_ArtifactReleased r ∈ evs.
Proof.
  revert s. induction evs as [| e evs IH]; intros s; simpl; [by left |].
  intros [Hp | (r & Hr)]%IH; [| right; exists r; by right].
  destruct e; simpl in Hp; try done; try (by left). right. eexists. left.
Qed.

(** C5. Nothing is released without authority.  A step that turns an artifact's
    status to released appends a release event, and every release event a step
    appends is justified by the artifact's own stream and the policy in force:
    a timer release by scan evidence not superseded by a rejection (or a
    policy without scanners, before any scan) and, where provenance is
    required, a recorded verification; a curator's release by a named user and
    a justification, and from a rejection only when the latest recorded reason
    is neither corruption nor an administrator's; a re-evaluation by a
    scan-axis rejection, the provenance gate and the absence of a curation
    block.  Administrators' releases do not occur. *)
Theorem nothing_released_without_authority ports db db' id e e' :
  lifecycle_step ports db db' → db_ok db → db !! id = Some e → db' !! id = Some e' →
  ∃ now evs, stream e' = stream e ++ persisted now evs ∧ release_justified ports e evs ∧
    (quarantine_status (row e') = QS_Released →
     quarantine_status (row e) = QS_Released ∨ ∃ r, DE_ArtifactReleased r ∈ evs).
Proof.
  intros Hs Hok He He'. destruct (step_advances _ _ _ Hok Hs) as
    [-> | (id' & e0 & e1 & evs & now & Hl & -> & _ & Hst & _ & _ & Hq & HJ)].
  - assert (e' = e) as -> by congruence. exists 0, []. split_and!.
    + by rewrite app_nil_r.
    + apply justified_no_release. by intros ? ?%elem_of_nil.
    + by left.
  - destruct (decide (id' = id)) as [-> | Hne].
    + rewrite lookup_insert_eq in He'. assert (e0 = e) as -> by congruence. simplify_eq.
      exists now, evs. split_and!; [done | done |]. rewrite Hq. apply project_released.
    + rewrite lookup_insert_ne in He' by done. assert (e' = e) as -> by congruence.
      exists 0, []. split_and!; [by rewrite app_nil_r | | by left].
      apply justified_no_release. by intros ? ?%elem_of_nil.
Qed.
End runs.

(** ** Sample runs *)

Module SampleLifecycle.
#[export] Instance uppercase : Unicode := λ s, s.

(** No policy configured: the defaults apply (a day of quarantine, provenance
    verified if present). *)
Definition ports : Ports :=
  {| list_active := Ok []; list_exclusions_for_policy := λ _, Ok [];
     repository_format := λ _, Ok (Some Generic); find_repository_format := λ _, Ok Generic;
     list_rules_for_repo := λ _, Ok []; inbound_reference_kinds := λ _ _, Ok [];
     get_findings := λ _, Ok []; findings_json_len := λ _, Ok 2;
     put_findings := λ _, Ok "00"%string; scan_kind_of := λ _ _, AK_Other;
     clock := 10 ^ 18 |}.

Definition db : Db := {[ 5 := SampleStore.entry 5 ]}.

Definition status (db : Db) : option QuarantineStatus :=
  (λ e, quarantine_status (row e)) <$> db !! 5.

Definition curator : CallerPrivileges := {| is_curator := true; is_admin := false |}.

Definition disproof : ProvenanceVerdict :=
  {| outcome := PO_Rejected DigestMismatch; unreadable_skipped := 0 |}.
End SampleLifecycle.

#[local] Existing Instances SampleStore.wire SampleStore.serde SampleLifecycle.uppercase.

Lemma sample_db_ok : db_ok SampleLifecycle.db.
Proof.
  intros id e He. unfold SampleLifecycle.db in He. apply lookup_singleton_Some in He as [<- <-].
  by split.
Qed.

(** A clean scan after the window releases the artifact on the spot. *)
Definition after_scan : Db :=
  (record_scan_result SampleLifecycle.ports 5 "trivy" [] SA_Analysed AK_Other
     SampleLifecycle.db).1.

Lemma scan_step : lifecycle_step SampleLifecycle.ports SampleLifecycle.db after_scan.
Proof. eapply ls_scan. apply surjective_pairing. Qed.

Lemma status_is_the_projection_of_the_stream_witness :
  SampleLifecycle.status after_scan = Some QS_Released ∧ db_ok after_scan.
Proof.
  split; [vm_compute; reflexivity |].
  apply (status_is_the_projection_of_the_stream SampleLifecycle.db after_scan).
  - apply rtc_once. exists SampleLifecycle.ports. apply scan_step.
  - apply sample_db_ok.
Defined.

Definition released_entry : Entry := default (SampleStore.entry 5) (after_scan !! 5).

Lemma nothing_released_without_authority_witness :
  quarantine_status (row released_entry) = QS_Released ∧
  ∃ now evs, stream released_entry = stream (SampleStore.entry 5) ++ persisted now evs ∧
    release_justified SampleLifecycle.ports (SampleStore.entry 5) evs ∧
    (quarantine_status (row released_entry) = QS_Released →
     quarantine_status (row (SampleStore.entry 5)) = QS_Released ∨
     ∃ r, DE_ArtifactReleased r ∈ evs).
Proof.
  split; [vm_compute; reflexivity |].
  apply (nothing_released_without_authority SampleLifecycle.ports SampleLifecycle.db after_scan 5
           (SampleStore.entry 5) released_entry).
  - apply scan_step.
  - apply sample_db_ok.
  - reflexivity.
  - vm_compute. reflexivity.
Defined.

(** A corruption tombstone does not survive a provenance verdict.  The curator's
    waive of a tombstoned artifact is refused, but once a verification run
    answers with a disproof, the latest rejection on the stream is a provenance
    one, and the same waive releases the artifact.  The disproof is an input
    here; while the stored bytes still fail their read check the code's own
    verification run is indeterminate instead. *)
Theorem corruption_tombstone_can_be_waived :
  let ports := SampleLifecycle.ports in
  let waive5 := waive ports 5 7 SampleLifecycle.curator "checked by hand" in
  let db1 := (try_tombstone_artifact ports (Some 5) "ff" SampleLifecycle.db).1 in
  let db2 := (verify_and_apply ports 5 "cosign" SampleLifecycle.disproof db1).1 in
  SampleLifecycle.status db1 = Some QS_Rejected ∧
  (last_rejection_reason <$> (stream <$> db1 !! 5)) = Some (Some RR_Corruption) ∧
  is_ok (waive5 db1).2 = false ∧
  is_ok (waive5 db2).2 = true ∧
  SampleLifecycle.status (waive5 db2).1 = Some QS_Released.
Proof. vm_compute. repeat split. Qed.
