(* ===== verification/Concurrent.v ===== *)
(** Handlers that interleave.

    An [async fn] runs until its next call of a port, and between two calls any
    other handler may run.  [prog S E A] is such a handler over the shared state
    [S]: it is done, or it is a call, which is atomic and yields the rest.  The
    same handler runs alone ([run]) or in a pool of handlers ([pool_step]).

    [wp] is a rely/guarantee weakest precondition: the environment moves the
    state along [Rely] and keeps [I] before each call, and the call has to keep
    [I] and move the state along [Guar].  [pool_adequate] and [pool_step_guar]
    are its soundness for pools.  A handler knows its place in the pool, and
    every place may have a rely and a guarantee of its own. *)

From S2P Require Import Prelude.

Section prog.
Context {S E : Type}.

Inductive prog (A : Type) : Type :=
  | Done (r : result E A)
  | Call (step : S → S * prog A).
#[global] Arguments Done {A} r.
#[global] Arguments Call {A} step.

Fixpoint prog_bind {A B} (f : A → prog B) (p : prog A) : prog B :=
  match p with
  | Done (Ok a) => f a
  | Done (Err e) => Done (Err e)
  | Call step => Call (λ s, let '(s', p') := step s in (s', prog_bind f p'))
  end.

Fixpoint run {A} (p : prog A) (s : S) : S * result E A :=
  match p with
  | Done r => (s, r)
  | Call step => let '(s', p') := step s in run p' s'
  end.

(** One port call; the caller sees its outcome as a value. *)
Definition port {A} (m : S → S * A) : prog A :=
  Call (λ s, let '(s', a) := m s in (s', Done (Ok a))).

(** [match f().await]: the outcome of a handler as a value. *)
Fixpoint attempt {A} (p : prog A) : prog (result E A) :=
  match p with
  | Done r => Done (Ok r)
  | Call step => Call (λ s, let '(s', p') := step s in (s', attempt p'))
  end.

(** *** Pools *)

(** [start i p]: the handler [p] may be spawned at place [i]. *)
Inductive pool_step {A} (start : nat → prog A → Prop) : S * list (prog A) → S * list (prog A) → Prop :=
  | pool_call s ps i step s' p' :
      ps !! i = Some (Call step) → step s = (s', p') →
      pool_step start (s, ps) (s', <[i := p']> ps)
  | pool_spawn s ps p : start (length ps) p → pool_step start (s, ps) (s, ps ++ [p]).
End prog.
#[global] Arguments prog : clear implicits.

#[export] Instance prog_ret {S E} : MRet (prog S E) := λ A a, Done (Ok a).
#[export] Instance prog_mbind {S E} : MBind (prog S E) := λ A B f p, prog_bind f p.

Section prog_induction.
Context {S E A : Type} (P : prog S E A → Prop).
Context (P_done : ∀ r, P (Done r)).
Context (P_call : ∀ step, (∀ s, P (step s).2) → P (Call step)).

Fixpoint prog_induction (p : prog S E A) : P p :=
  match p with
  | Done r => P_done r
  | Call step => P_call step (λ s, match step s as x return P x.2 with (_, p') => prog_induction p' end)
  end.
End prog_induction.

Lemma run_bind {S E A B} (p : prog S E A) (f : A → prog S E B) s :
  run (p ≫= f) s =
  let '(s', r) := run p s in
  match r with Ok a => run (f a) s' | Err e => (s', Err e) end.
Proof.
  revert s; induction p as [r | step IH] using prog_induction; intros s; [by destruct r|].
  cbn. specialize (IH s). destruct (step s) as [s' p']. apply IH.
Qed.

Lemma run_attempt {S E A} (p : prog S E A) s :
  run (attempt p) s = let '(s', r) := run p s in (s', Ok r).
Proof.
  revert s; induction p as [r | step IH] using prog_induction; intros s; [done|].
  cbn. specialize (IH s). destruct (step s) as [s' p']. apply IH.
Qed.

Lemma run_result {S E A} (p : prog S E A) s r : (run p s).2 = r → run p s = ((run p s).1, r).
Proof. intros <-. apply surjective_pairing. Qed.

(** [map_err] on the outcome of a handler. *)
Fixpoint map_error {S E E' A} (f : E → E') (p : prog S E A) : prog S E' A :=
  match p with
  | Done r => Done (map_err f r)
  | Call step => Call (λ s, let '(s', p') := step s in (s', map_error f p'))
  end.

Lemma run_map_error {S E E' A} (f : E → E') (p : prog S E A) s :
  run (map_error f p) s = let '(s', r) := run p s in (s', map_err f r).
Proof.
  revert s; induction p as [r | step IH] using prog_induction; intros s; [done|].
  cbn. specialize (IH s). destruct (step s) as [s' p']. apply IH.
Qed.

(** A handler whose outcome, error or not, is its reply. *)
Fixpoint conclude {S E E' A B} (f : result E A → B) (p : prog S E A) : prog S E' B :=
  match p with
  | Done r => Done (Ok (f r))
  | Call step => Call (λ s, let '(s', p') := step s in (s', conclude f p'))
  end.

(** A handler that works on one part of a larger state. *)
Fixpoint on_fst {S X E A} (p : prog S E A) : prog (S * X) E A :=
  match p with
  | Done r => Done r
  | Call step => Call (λ s, let '(s', p') := step s.1 in ((s', s.2), on_fst p'))
  end.

Lemma run_on_fst {S X E A} (p : prog S E A) (s : S) (x : X) :
  run (on_fst p) (s, x) = let '(s', r) := run p s in ((s', x), r).
Proof.
  revert s; induction p as [r | step IH] using prog_induction; intros s; [done|].
  cbn. specialize (IH s). destruct (step s) as [s' p']. apply IH.
Qed.

(** A handler that works on the part of a state that [get] reads and [put] writes. *)
Fixpoint on_part {S T E A} (get : S → T) (put : T → S → S) (p : prog T E A) : prog S E A :=
  match p with
  | Done r => Done r
  | Call step => Call (λ s, let '(t', p') := step (get s) in (put t' s, on_part get put p'))
  end.

Lemma run_on_part {S T E A} (get : S → T) (put : T → S → S) (p : prog T E A) s :
  (∀ t s, get (put t s) = t) → (∀ s, put (get s) s = s) →
  (∀ t t' s, put t' (put t s) = put t' s) →
  run (on_part get put p) s = let '(t', r) := run p (get s) in (put t' s, r).
Proof.
  intros Hgp Hpg Hpp. revert s; induction p as [r | step IH] using prog_induction; intros s.
  { cbn. by rewrite Hpg. }
  cbn. specialize (IH (get s)). destruct (step (get s)) as [t' p']. cbn in *.
  rewrite IH, Hgp. destruct (run p' t') as [t'' r]. by rewrite Hpp.
Qed.

(** ** Observations

    A handler among others that may do anything between two of its calls:
    [observes p seen r] when it finds the states [seen], one per call, and ends
    with [r]. *)
Inductive observes {S E A} : prog S E A → list S → result E A → Prop :=
  | observes_done r : observes (Done r) [] r
  | observes_call step s s' p' seen r :
      step s = (s', p') → observes p' seen r → observes (Call step) (s :: seen) r.

Lemma observes_bind {S E A B} (p : prog S E A) (f : A → prog S E B) seen r :
  observes (p ≫= f) seen r →
  (∃ e, r = Err e ∧ observes p seen (Err e)) ∨
  ∃ a seen1 seen2, seen = seen1 ++ seen2 ∧ observes p seen1 (Ok a) ∧ observes (f a) seen2 r.
Proof.
  revert seen; induction p as [[a|e] | step IH] using prog_induction; intros seen Hobs.
  - right. exists a, [], seen. split_and!; [done | constructor | done].
  - left. exists e. inversion Hobs; subst. split; [done | constructor].
  - cbn in Hobs. inversion Hobs as [| ? s s' p' seen' ? Hs Hobs']; subst. specialize (IH s).
    destruct (step s) as [s1 p1] eqn:Hstep. simplify_eq.
    destruct (IH _ Hobs') as [(e & -> & He) | (a & seen1 & seen2 & -> & Ha & Hf)].
    + left. exists e. split; [done|]. by econstructor.
    + right. exists a, (s :: seen1), seen2. split_and!; [done | by econstructor | done].
Qed.

Lemma observes_port {S E A} (m : S → S * A) seen (r : result E A) :
  observes (port m) seen r → ∃ s, seen = [s] ∧ r = Ok (m s).2.
Proof.
  intros Hobs. inversion Hobs as [| ? s s' p' seen' ? Hs Hobs']; subst. exists s.
  destruct (m s) as [s1 a]. simplify_eq. by inversion Hobs'.
Qed.

Lemma observes_attempt {S E A} (p : prog S E A) seen (r : result E (result E A)) :
  observes (attempt p) seen r → ∃ r', r = Ok r' ∧ observes p seen r'.
Proof.
  revert seen; induction p as [r' | step IH] using prog_induction; intros seen Hobs.
  - inversion Hobs; subst. exists r'. split; [done | constructor].
  - cbn in Hobs. inversion Hobs as [| ? s s' p' seen' ? Hs Hobs']; subst. specialize (IH s).
    destruct (step s) as [s1 p1] eqn:Hstep. simplify_eq.
    destruct (IH _ Hobs') as (r' & -> & Hr'). exists r'. split; [done|]. by econstructor.
Qed.

(** *** Traces

    [performs p trace r]: the same, with the state that each call leaves besides the one
    it finds. *)
Inductive performs {S E A} : prog S E A → list (S * S) → result E A → Prop :=
  | performs_done r : performs (Done r) [] r
  | performs_call step s s' p' trace r :
      step s = (s', p') → performs p' trace r → performs (Call step) ((s, s') :: trace) r.

Lemma performs_observes {S E A} (p : prog S E A) trace r : performs p trace r → observes p trace.*1 r.
Proof. induction 1; by econstructor. Qed.

Lemma performs_bind {S E A B} (p : prog S E A) (f : A → prog S E B) trace r :
  performs (p ≫= f) trace r →
  (∃ e, r = Err e ∧ performs p trace (Err e)) ∨
  ∃ a trace1 trace2, trace = trace1 ++ trace2 ∧ performs p trace1 (Ok a) ∧ performs (f a) trace2 r.
Proof.
  revert trace; induction p as [[a|e] | step IH] using prog_induction; intros trace Hp.
  - right. exists a, [], trace. split_and!; [done | constructor | done].
  - left. exists e. inversion Hp; subst. split; [done | constructor].
  - cbn in Hp. inversion Hp as [| ? s s' p' trace' ? Hs Hp']; subst. specialize (IH s).
    destruct (step s) as [s1 p1] eqn:Hstep. simplify_eq.
    destruct (IH _ Hp') as [(e & -> & He) | (a & trace1 & trace2 & -> & Ha & Hf)].
    + left. exists e. split; [done|]. by econstructor.
    + right. exists a, ((s, s') :: trace1), trace2. split_and!; [done | by econstructor | done].
Qed.

Lemma performs_then {S E A B} (p : prog S E A) (f : A → prog S E B) trace1 trace2 a r :
  performs p trace1 (Ok a) → performs (f a) trace2 r → performs (p ≫= f) (trace1 ++ trace2) r.
Proof.
  intros Hp Hf. remember (Ok a) as r1 eqn:Hr. induction Hp as [r0 | step s s' p' trace r0 Hs Hp IH]; [by subst|].
  cbn. econstructor; [| by apply IH]. cbn. by rewrite Hs.
Qed.

Lemma performs_port {S E A} (m : S → S * A) trace (r : result E A) :
  performs (port m) trace r → ∃ s, trace = [(s, (m s).1)] ∧ r = Ok (m s).2.
Proof.
  intros Hp. inversion Hp as [| ? s s' p' trace' ? Hs Hp']; subst. exists s.
  destruct (m s) as [s1 a]. simplify_eq. by inversion Hp'.
Qed.

Lemma performs_one {S E A} (p : prog S E A) s s' r : performs p [(s, s')] r → run p s = (s', r).
Proof.
  intros Hp. inversion Hp as [| step ? ? p' ? ? Hs Hp']; subst. inversion Hp'; subst. cbn. by rewrite Hs.
Qed.

(** Every call does at most what [R] allows. *)
Definition calls_only {S E A} (R : relation S) (p : prog S E A) : Prop :=
  ∀ trace r, performs p trace r → Forall (λ x, R x.1 x.2) trace.

Lemma calls_only_done {S E A} (R : relation S) (r : result E A) : calls_only R (Done r).
Proof. intros trace r' Hp. by inversion Hp. Qed.

Lemma calls_only_port {S E A} (R : relation S) (m : S → S * A) :
  (∀ s, R s (m s).1) → calls_only R (port m : prog S E A).
Proof. intros Hm trace r (s & -> & ->)%performs_port. by constructor. Qed.

Lemma calls_only_bind {S E A B} (R : relation S) (p : prog S E A) (f : A → prog S E B) :
  calls_only R p → (∀ a, calls_only R (f a)) → calls_only R (p ≫= f).
Proof.
  intros Hp Hf trace r [(e & -> & He) | (a & t1 & t2 & -> & H1 & H2)]%performs_bind; [by eapply Hp|].
  apply Forall_app. split; [by eapply Hp | by eapply Hf].
Qed.

Lemma run_performs {S E A} (p : prog S E A) s : ∃ trace, performs p trace (run p s).2.
Proof.
  revert s; induction p as [r | step IH] using prog_induction; intros s; [by exists []; constructor|].
  cbn. specialize (IH s). destruct (step s) as [s' p'] eqn:Hs. destruct (IH s') as [trace Hp].
  exists ((s, s') :: trace). by econstructor.
Qed.

Lemma observes_on_part {S T E A} (get : S → T) (put : T → S → S) (p : prog T E A) seen r :
  observes (on_part get put p) seen r → observes p (get <$> seen) r.
Proof.
  revert seen; induction p as [r' | step IH] using prog_induction; intros seen Hobs.
  - inversion Hobs; subst. constructor.
  - cbn in Hobs. inversion Hobs as [| ? s s' p' seen' ? Hs Hobs']; subst. specialize (IH (get s)).
    destruct (step (get s)) as [t1 p1] eqn:Hstep. simplify_eq. econstructor; [done | by apply IH].
Qed.

Lemma observes_on_fst {S X E A} (p : prog S E A) seen (r : result E A) :
  observes (on_fst (X := X) p) seen r → observes p seen.*1 r.
Proof.
  revert seen; induction p as [r' | step IH] using prog_induction; intros seen Hobs.
  - inversion Hobs; subst. constructor.
  - cbn in Hobs. inversion Hobs as [| ? s s' p' seen' ? Hs Hobs']; subst. specialize (IH s.1).
    destruct (step s.1) as [t1 p1] eqn:Hstep. simplify_eq. econstructor; [done | by apply IH].
Qed.

(** Every call of the handler keeps [I]. *)
Fixpoint keeps {S E A} (I : S → Prop) (p : prog S E A) : Prop :=
  match p with
  | Done _ => True
  | Call step => ∀ s, I s → let '(s', p') := step s in I s' ∧ keeps I p'
  end.

Section keeps.
Context {S E : Type} (I : S → Prop).

Lemma keeps_bind {A B} (p : prog S E A) (f : A → prog S E B) :
  keeps I p → (∀ a, keeps I (f a)) → keeps I (p ≫= f).
Proof.
  intros Hp Hf. induction p as [[a|e] | step IH] using prog_induction; [apply Hf | done |].
  intros s Hs. cbn in *. specialize (Hp s Hs). specialize (IH s). destruct (step s) as [s' p'].
  destruct Hp as [Hs' Hp]. split; [done | by apply IH].
Qed.

Lemma keeps_port {A} (m : S → S * A) : (∀ s, I s → I (m s).1) → keeps (E := E) I (port m).
Proof. intros Hm s Hs. specialize (Hm s Hs). by destruct (m s). Qed.

Lemma keeps_attempt {A} (p : prog S E A) : keeps I p → keeps I (attempt p).
Proof.
  induction p as [r | step IH] using prog_induction; intros Hp; [done|]. intros s Hs. cbn in *.
  specialize (Hp s Hs). specialize (IH s). destruct (step s) as [s' p']. naive_solver.
Qed.

(** Alone, a handler sees only states in which [I] holds. *)
Lemma run_observes {A} (p : prog S E A) s :
  I s → keeps I p → I (run p s).1 ∧ ∃ seen, observes p seen (run p s).2 ∧ Forall I seen.
Proof.
  revert s. induction p as [r | step IH] using prog_induction; intros s Hs Hp.
  { split; [done|]. exists []. split; [constructor | done]. }
  cbn in *. specialize (Hp s Hs). specialize (IH s). destruct (step s) as [s' p'] eqn:Hstep.
  destruct Hp as [Hs' Hp]. destruct (IH s' Hs' Hp) as [Hi (seen & Hobs & Hseen)].
  split; [done|]. exists (s :: seen). split; [by econstructor | by constructor].
Qed.
End keeps.

Lemma keeps_anything {S E A} (p : prog S E A) : keeps (λ _, True) p.
Proof.
  induction p as [r | step IH] using prog_induction; [done|]. intros s _. specialize (IH s).
  by destruct (step s).
Qed.

Lemma keeps_on_fst {S X E A} (I : S → Prop) (J : S * X → Prop) (p : prog S E A) :
  (∀ s x, J (s, x) → I s) → (∀ s x s', J (s, x) → I s' → J (s', x)) →
  keeps I p → keeps J (on_fst p).
Proof.
  intros HJI HIJ. induction p as [r | step IH] using prog_induction; intros Hp; [done|].
  intros [s x] Hs. cbn in *. specialize (Hp s (HJI s x Hs)). specialize (IH s).
  destruct (step s) as [s' p']. naive_solver.
Qed.

Lemma keeps_on_part {S T E A} (I : T → Prop) (J : S → Prop) (get : S → T) (put : T → S → S)
    (p : prog T E A) :
  (∀ s, J s → I (get s)) → (∀ s t, J s → I t → J (put t s)) →
  keeps I p → keeps J (on_part get put p).
Proof.
  intros HJI HIJ. induction p as [r | step IH] using prog_induction; intros Hp; [done|].
  intros s Hs. cbn in *. specialize (Hp (get s) (HJI s Hs)). specialize (IH (get s)).
  destruct (step (get s)) as [t' p']. naive_solver.
Qed.

(** ** Schedules *)

(** Let the handlers at the given places of a pool take one call each. *)
Fixpoint schedule {S E A} (picks : list nat) (c : S * list (prog S E A)) : S * list (prog S E A) :=
  match picks with
  | [] => c
  | i :: picks' =>
      match c.2 !! i with
      | Some (Call step) => let '(s', p') := step c.1 in schedule picks' (s', <[i := p']> c.2)
      | _ => schedule picks' c
      end
  end.

Lemma schedule_steps {S E A} (start : nat → prog S E A → Prop) picks c :
  rtc (pool_step start) c (schedule picks c).
Proof.
  revert c; induction picks as [|i picks IH]; intros [s ps]; [done|]. cbn.
  destruct (ps !! i) as [[r|step]|] eqn:Hi; [apply IH | | apply IH].
  destruct (step s) as [s' p'] eqn:Hs. eapply rtc_l; [by eapply pool_call | apply IH].
Qed.

Definition running {S E A} (c : S * list (prog S E A)) (i : nat) : bool :=
  match c.2 !! i with Some (Call _) => true | _ => false end.

Lemma schedule_step {S E A} (start : nat → prog S E A → Prop) i c :
  running c i = true → pool_step start c (schedule [i] c).
Proof.
  destruct c as [s ps]. unfold running. cbn. destruct (ps !! i) as [[r|step]|] eqn:Hi; [done | | done].
  intros _. destruct (step s) as [s' p'] eqn:Hs. by eapply pool_call.
Qed.

(** Handlers may start before any of them takes a step. *)
Lemma spawn_all {S E A} (start : nat → prog S E A → Prop) s ps :
  (∀ i p, ps !! i = Some p → start i p) → rtc (pool_step start) (s, []) (s, ps).
Proof.
  induction ps as [|p ps IH] using rev_ind; intros Hps; [done|]. eapply rtc_r.
  - apply IH. intros i q Hi. by apply Hps, lookup_app_l_Some.
  - apply pool_spawn, Hps. by apply list_lookup_middle.
Qed.

(** A handler that runs alone is a schedule. *)
Lemma run_steps {S E A} (start : nat → prog S E A → Prop) ps (p : prog S E A) s :
  rtc (pool_step start) (s, ps ++ [p]) ((run p s).1, ps ++ [Done (run p s).2]).
Proof.
  revert s; induction p as [r | step IH] using prog_induction; intros s; [done|].
  cbn. specialize (IH s). destruct (step s) as [s' p'] eqn:Hs. cbn in IH.
  eapply rtc_l; [| apply IH].
  replace (ps ++ [p']) with (<[length ps := p']> (ps ++ [Call step])).
  - eapply pool_call; [by apply list_lookup_middle | done].
  - rewrite insert_app_r_alt by lia. by rewrite Nat.sub_diag.
Qed.

(** ** Rely and guarantee *)

Section logic.
Context {S E : Type} (I : S → Prop) (Rely Guar : relation S).

Fixpoint wp {A} (p : prog S E A) (Q : result E A → S → Prop) (s : S) : Prop :=
  match p with
  | Done r => Q r s
  | Call step =>
      ∀ s1, Rely s s1 → I s1 →
      let '(s2, p') := step s1 in I s2 ∧ Guar s1 s2 ∧ wp p' Q s2
  end.

Lemma wp_bind {A B} (p : prog S E A) (f : A → prog S E B) Q s :
  wp p (λ r s', match r with Ok a => wp (f a) Q s' | Err e => Q (Err e) s' end) s →
  wp (p ≫= f) Q s.
Proof.
  revert s; induction p as [r | step IH] using prog_induction; intros s; [by destruct r|].
  cbn. intros Hwp s1 Hr Hi. specialize (Hwp s1 Hr Hi). specialize (IH s1).
  destruct (step s1) as [s2 p']. cbn in *. naive_solver.
Qed.

Lemma wp_mono {A} (p : prog S E A) (Q Q' : result E A → S → Prop) s :
  (∀ r s', Q r s' → Q' r s') → wp p Q s → wp p Q' s.
Proof.
  intros HQ. revert s; induction p as [r | step IH] using prog_induction; intros s; [apply HQ|].
  cbn. intros Hwp s1 Hr Hi. specialize (Hwp s1 Hr Hi). specialize (IH s1).
  destruct (step s1) as [s2 p']. cbn in *. naive_solver.
Qed.

Lemma wp_port {A} (m : S → S * A) (Q : result E A → S → Prop) s :
  (∀ s1, Rely s s1 → I s1 → I (m s1).1 ∧ Guar s1 (m s1).1 ∧ Q (Ok (m s1).2) (m s1).1) →
  wp (port m) Q s.
Proof. intros Hm s1 Hr Hi. specialize (Hm s1 Hr Hi). by destruct (m s1). Qed.

(** A handler that runs alone. *)
Lemma run_adequate {A} (p : prog S E A) Q s :
  Reflexive Rely → PreOrder Guar → I s → wp p Q s →
  let '(s', r) := run p s in I s' ∧ Guar s s' ∧ Q r s'.
Proof.
  intros Hrefl Hpre. revert s; induction p as [r | step IH] using prog_induction; intros s Hi Hwp.
  { done. }
  cbn in *. specialize (Hwp s (Hrefl s) Hi). specialize (IH s). destruct (step s) as [s2 p'].
  destruct Hwp as (Hi2 & Hg & Hwp). specialize (IH s2 Hi2 Hwp). cbn in *.
  destruct (run p' s2) as [s3 r]. destruct IH as (? & ? & ?). split_and!; [done | | done].
  by transitivity s2.
Qed.

(** The same without its guarantee. *)
Lemma run_post {A} (p : prog S E A) Q s :
  (∀ s, Rely s s) → I s → wp p Q s → Q (run p s).2 (run p s).1.
Proof.
  intros Hrefl. revert s; induction p as [r | step IH] using prog_induction; intros s Hi Hwp; [done|].
  cbn in *. specialize (Hwp s (Hrefl s) Hi). specialize (IH s). destruct (step s) as [s2 p'].
  destruct Hwp as (Hi2 & _ & Hwp). by apply IH.
Qed.
End logic.

Lemma wp_attempt {S E A} (I : S → Prop) (Rely Guar : relation S) (p : prog S E A)
    (Q : result E (result E A) → S → Prop) s :
  wp I Rely Guar p (λ r, Q (Ok r)) s → wp I Rely Guar (attempt p) Q s.
Proof.
  revert s; induction p as [r | step IH] using prog_induction; intros s; [done|].
  cbn. intros Hwp s1 Hr Hi. specialize (Hwp s1 Hr Hi). specialize (IH s1).
  destruct (step s1) as [s2 p']. cbn in *. naive_solver.
Qed.

(** Less may be promised. *)
Lemma wp_guar {S E A} (I : S → Prop) (Rely Guar Guar' : relation S) (p : prog S E A) Q s :
  (∀ s s', I s → Guar s s' → Guar' s s') → wp I Rely Guar p Q s → wp I Rely Guar' p Q s.
Proof.
  intros HG. revert s; induction p as [r | step IH] using prog_induction; intros s; [done|].
  cbn. intros Hwp s1 Hr Hi. specialize (Hwp s1 Hr Hi). specialize (IH s1).
  destruct (step s1) as [s2 p']. cbn in *. naive_solver.
Qed.

(** The state has moved along everything that its moves are part of. *)
Lemma wp_moves {S E A} (I : S → Prop) (Rely Guar T : relation S) `{!PreOrder T} (p : prog S E A) Q s :
  (∀ s s', Rely s s' → T s s') → (∀ s s', Guar s s' → T s s') →
  wp I Rely Guar p Q s → wp I Rely Guar p (λ r s', T s s' ∧ Q r s') s.
Proof.
  intros HR HG. revert s; induction p as [r | step IH] using prog_induction; intros s Hwp; [done|].
  cbn in *. intros s1 Hr Hi. specialize (Hwp s1 Hr Hi). specialize (IH s1).
  destruct (step s1) as [s2 p']. destruct Hwp as (? & Hg & Hwp). split_and!; [done | done |].
  eapply wp_mono; [| by apply IH]. cbn. intros r s3 [? ?]. split; [| done].
  transitivity s1; [by apply HR|]. transitivity s2; [by apply HG | done].
Qed.

Lemma wp_map_error {S E E' A} (I : S → Prop) (Rely Guar : relation S) (f : E' → E)
    (p : prog S E' A) (Q : result E A → S → Prop) s :
  wp I Rely Guar p (λ r, Q (map_err f r)) s → wp I Rely Guar (map_error f p) Q s.
Proof.
  revert s; induction p as [r | step IH] using prog_induction; intros s; [done|].
  cbn. intros Hwp s1 Hr Hi. specialize (Hwp s1 Hr Hi). specialize (IH s1).
  destruct (step s1) as [s2 p']. cbn in *. naive_solver.
Qed.

Lemma wp_conclude {S E E' A B} (I : S → Prop) (Rely Guar : relation S)
    (f : result E' A → B) (p : prog S E' A) (Q : result E B → S → Prop) s :
  wp I Rely Guar p (λ r, Q (Ok (f r))) s → wp I Rely Guar (conclude f p) Q s.
Proof.
  revert s; induction p as [r | step IH] using prog_induction; intros s; [done|].
  cbn. intros Hwp s1 Hr Hi. specialize (Hwp s1 Hr Hi). specialize (IH s1).
  destruct (step s1) as [s2 p']. cbn in *. naive_solver.
Qed.

(** What neither the environment nor the handler destroys may join the invariant. *)
Lemma wp_keep {S E A} (I K : S → Prop) (Rely Guar : relation S) (p : prog S E A) Q s :
  (∀ s s', K s → Guar s s' → K s') →
  wp I Rely Guar p Q s → wp (λ s, I s ∧ K s) Rely Guar p Q s.
Proof.
  intros HK. revert s; induction p as [r | step IH] using prog_induction; intros s Hwp; [done|].
  cbn in *. intros s1 Hr [Hi Hk]. specialize (Hwp s1 Hr Hi). specialize (IH s1).
  destruct (step s1) as [s2 p']. destruct Hwp as (? & Hg & Hwp). split_and!; [done | by eapply HK | done |].
  by apply IH.
Qed.

(** A handler in the middle of its work keeps to its guarantee when the others come to
    keep to more. *)
Lemma wp_resume {S E A} (I K : S → Prop) (Rely Rely' Guar Guar' : relation S) `{!PreOrder Rely}
    (p : prog S E A) Q s0 s :
  (∀ s s', Rely' s s' → Rely s s') → (∀ s s', Guar s s' → Guar' s s') →
  (∀ s s', K s → Guar s s' → K s') → Rely s0 s → wp I Rely Guar p Q s0 →
  wp (λ s, I s ∧ K s) Rely' Guar' p (λ _ _, True) s.
Proof.
  intros HR HG HK. revert s0 s; induction p as [r | step IH] using prog_induction; intros s0 s H0 Hwp; [done|].
  cbn in *. intros s1 Hr [Hi Hk]. specialize (Hwp s1 (transitivity H0 (HR _ _ Hr)) Hi).
  specialize (IH s1). destruct (step s1) as [s2 p']. destruct Hwp as (? & Hg & Hwp).
  split_and!; [done | by eapply HK | by apply HG |]. by apply (IH s2).
Qed.

Section pool.
Context {S E A : Type} (I : S → Prop) (Rely Guar : nat → relation S).
Context (start : nat → prog S E A → Prop).
Context {Rely_preorder : ∀ i, PreOrder (Rely i)}.
Context (Guar_Rely : ∀ i j s s', i ≠ j → Guar i s s' → Rely j s s').
(** What holds once the handler at a place is done. *)
Context (Post : nat → result E A → S → Prop).
Context (start_wp : ∀ i p s, start i p → I s → wp I (Rely i) (Guar i) p (Post i) s).

(** The invariant, and for every handler a state before which it was verified. *)
Definition pool_ok (c : S * list (prog S E A)) : Prop :=
  I c.1 ∧ ∀ i p, c.2 !! i = Some p →
    ∃ s0, Rely i s0 c.1 ∧ wp I (Rely i) (Guar i) p (Post i) s0.

Lemma pool_ok_start s ps :
  I s → (∀ i p, ps !! i = Some p → start i p) → pool_ok (s, ps).
Proof. intros Hi Hps. split; [done|]. intros i p Hp. exists s. split; [done | by auto]. Qed.

(** The handler at place [i] took a step. *)
Definition moved (i : nat) (ps ps' : list (prog S E A)) : Prop :=
  ∃ p p', ps !! i = Some p ∧ ps' = <[i := p']> ps.

Lemma pool_ok_step c c' :
  pool_ok c → pool_step start c c' →
  pool_ok c' ∧ (c'.1 = c.1 ∨ ∃ i, moved i c.2 c'.2 ∧ Guar i c.1 c'.1).
Proof.
  intros [Hi Hall] Hstep.
  inversion Hstep as [s1 ps1 i step s2 p' Hp Hcall Heq1 Heq2 | s1 ps1 p Hp Heq1 Heq2]; subst;
    cbn in *.
  - destruct (Hall i _ Hp) as (s0 & Hr0 & Hwp). cbn in Hwp. specialize (Hwp s1 Hr0 Hi).
    rewrite Hcall in Hwp. destruct Hwp as (Hi2 & Hg & Hwp).
    split; [| right; exists i; split; [by eexists _, p' | done]]. split; [done|]. cbn. intros j p Hj. destruct (decide (j = i)) as [-> | Hne].
    + rewrite list_lookup_insert_eq in Hj by (by eapply lookup_lt_Some). simplify_eq. by exists s2.
    + rewrite list_lookup_insert_ne in Hj by done. destruct (Hall j p Hj) as (s3 & ? & ?).
      exists s3. split; [transitivity s1; [done | by eapply Guar_Rely] | done].
  - split; [split | by left]; [done|]. cbn.
    intros j q [Hj | [Hge Hj]]%lookup_app_Some; [by apply (Hall j)|].
    apply list_lookup_singleton_Some in Hj as [Hj <-]. exists s1. split; [done|].
    apply start_wp; [| done]. by replace j with (length ps1) by lia.
Qed.

Lemma pool_ok_steps c c' : pool_ok c → rtc (pool_step start) c c' → pool_ok c'.
Proof. intros Hok. induction 1 as [| c c1 c' Hs _ IH]; [done|]. by apply IH, (pool_ok_step c). Qed.

(** What holds of every handler holds of every pool of them, in every order: the
    invariant holds throughout, and every step keeps to the guarantee of the
    handler that takes it. *)
Lemma pool_adequate s ps c :
  I s → (∀ i p, ps !! i = Some p → start i p) → rtc (pool_step start) (s, ps) c → I c.1.
Proof. intros Hi Hps Hsteps. by apply (pool_ok_steps (s, ps)); [apply pool_ok_start|]. Qed.

Lemma pool_step_guar s ps c c' :
  I s → (∀ i p, ps !! i = Some p → start i p) → rtc (pool_step start) (s, ps) c →
  pool_step start c c' → c'.1 = c.1 ∨ ∃ i, moved i c.2 c'.2 ∧ I c.1 ∧ Guar i c.1 c'.1.
Proof.
  intros Hi Hps Hsteps Hstep.
  assert (pool_ok c) as Hok by (by apply (pool_ok_steps (s, ps)); [apply pool_ok_start|]).
  destruct (pool_ok_step c c' Hok Hstep) as [_ [? | (i & ? & ?)]]; [by left | right].
  exists i. split_and!; [done | apply Hok | done].
Qed.

Lemma pool_result s ps c i r :
  I s → (∀ i p, ps !! i = Some p → start i p) → rtc (pool_step start) (s, ps) c →
  c.2 !! i = Some (Done r) → ∃ s0, Rely i s0 c.1 ∧ Post i r s0.
Proof.
  intros Hi Hps Hsteps Hr.
  assert (pool_ok c) as [_ Hall] by (by apply (pool_ok_steps (s, ps)); [apply pool_ok_start|]).
  exact (Hall i _ Hr).
Qed.
End pool.

Definition finished {S E A} (p : prog S E A) : Prop := ∃ r, p = Done r.

(** From some point on, what is known of a pool may grow: the handlers that are not
    finished by then keep to more, and so do the ones that are spawned later. *)
Lemma pool_resume {S E A} (I K : S → Prop) (Rely Rely' Guar Guar' : nat → relation S)
    `{!∀ i, PreOrder (Rely i), !∀ i, PreOrder (Rely' i)}
    (Post Post' : nat → result E A → S → Prop) (c : S * list (prog S E A)) :
  pool_ok I Rely Guar Post c → K c.1 → (∀ i s s', Rely' i s s' → Rely i s s') →
  (∀ i p, c.2 !! i = Some p → finished p ∨ ∀ s s', Guar i s s' → Guar' i s s' ∧ (K s → K s')) →
  pool_ok (λ s, I s ∧ K s) Rely' Guar' (λ i r s, (length c.2 ≤ i)%nat → Post' i r s) c.
Proof.
  intros [Hi Hall] Hk HR HG. split; [done|]. intros i p Hp. exists c.1. split; [done|].
  apply (wp_mono _ _ _ _ (λ _ _, True)).
  { intros r s' _ Hle. apply lookup_lt_Some in Hp. lia. }
  destruct (HG i p Hp) as [[r ->] | HG']; [done|]. destruct (Hall i p Hp) as (s0 & Hr & Hwp).
  apply (wp_resume I K (Rely i) (Rely' i) (Guar i) (Guar' i) p (Post i) s0); [apply HR | | | done | done].
  - intros s s' Hg. by apply HG'.
  - intros s s' ? Hg. by apply (HG' s s' Hg).
Qed.

(** A handler of a pool observes states that the pool goes through. *)
Lemma pool_observes {S E A} (start : nat → prog S E A → Prop) s c i r :
  rtc (pool_step start) (s, []) c → c.2 !! i = Some (Done r) →
  ∃ p seen, start i p ∧ observes p seen r ∧
    ∀ x, x ∈ seen → ∃ ps, rtc (pool_step start) (s, []) (x, ps) ∧ rtc (pool_step start) (x, ps) c.
Proof.
  intros Hsteps. cut (∀ q, c.2 !! i = Some q → ∃ p seen, start i p ∧
    (∀ seen' r', observes q seen' r' → observes p (seen ++ seen') r') ∧
    ∀ x, x ∈ seen → ∃ ps, rtc (pool_step start) (s, []) (x, ps) ∧ rtc (pool_step start) (x, ps) c).
  { intros Hcut Hi. destruct (Hcut _ Hi) as (p & seen & Hp & Hobs & Hseen). exists p, seen.
    split_and!; [done | | done]. rewrite <- (app_nil_r seen). apply Hobs. constructor. }
  clear r. revert c Hsteps. refine (rtc_ind_r _ _ _ _); [by intros q|].
  intros c1 c2 Hsteps Hstep IH q Hq.
  assert (∀ x, (∃ ps, rtc (pool_step start) (s, []) (x, ps) ∧ rtc (pool_step start) (x, ps) c1) →
    ∃ ps, rtc (pool_step start) (s, []) (x, ps) ∧ rtc (pool_step start) (x, ps) c2) as Hlater.
  { intros x (ps & ? & ?). exists ps. split; [done|]. by eapply rtc_r. }
  pose proof Hstep as Hstep'.
  inversion Hstep as [s1 ps1 j step s2 p' Hp Hcall | s1 ps1 p Hp]; subst; cbn in *.
  - destruct (decide (i = j)) as [<- | Hne].
    + rewrite list_lookup_insert_eq in Hq by (by eapply lookup_lt_Some). simplify_eq.
      destruct (IH _ Hp) as (p & seen & Hstart & Hobs & Hseen). exists p, (seen ++ [s1]).
      split_and!; [done | |].
      * intros seen' r' Hq. rewrite <- app_assoc. apply Hobs. by econstructor.
      * intros x [Hx | ->%list_elem_of_singleton]%elem_of_app; [by auto|].
        exists ps1. split; [done | by eapply rtc_l].
    + rewrite list_lookup_insert_ne in Hq by done.
      destruct (IH _ Hq) as (p & seen & Hstart & Hobs & Hseen). exists p, seen. split_and!; auto.
  - apply lookup_app_Some in Hq as [Hq | [Hge Hq]].
    + destruct (IH _ Hq) as (p0 & seen & Hstart & Hobs & Hseen). exists p0, seen. split_and!; auto.
    + apply list_lookup_singleton_Some in Hq as [Hq <-]. exists p, []. split_and!; [| done |].
      * by replace i with (length ps1) by lia.
      * intros x Hx. by apply elem_of_nil in Hx.
Qed.
