(* ===== verification/PolicyUseCase.v ===== *)
(** Policy administration (crates/hort-app/src/use_cases/policy_use_case.rs): the
    six handlers that create, change and archive a scan policy and its
    exclusions, over the policy streams, the projection rows and the exclusion
    rows.

    The handlers are [prog]s: every port call is atomic, and any other handler
    may run between two calls.  [Env] says which calls of a run fail, and the
    times it is stamped with; an append that reports a failure may have landed.
    The constraints the migrations put on the tables (unique name, unique active
    scope, the checks on a row, the foreign key of an exclusion) are modelled with
    the writes they guard.  Identifiers the handlers
    mint are arguments, and are not assumed fresh.  Metrics and logs are left
    out; of the job queue, the requests sent to it are kept. *)

From coqutil Require Import Datatypes.RecordSetters.
From S2P Require Import Prelude.
From S2P Require Import RustStd.
From S2P Require Import Json.
From S2P Require Import Types.
From S2P Require Import Events.
From S2P Require Import Store.
From S2P Require Import ScanPolicyFold.
From S2P Require Import Concurrent.
Import DoubleBraceUpdate.

(** ** State *)

Record PolicyDb : Type := {
  streams : gmap Uuid (list PolicyStreamEvent);
  rows : gmap Uuid ScanPolicyProjection;
  exclusion_rows : gmap Uuid ExclusionProjection;
  re_evaluations : list (Uuid * ReEvaluationTrigger);
}.

Record Env : Type := {
  find_fails : option DomainError;
  (** The flag says whether the batch was committed all the same. *)
  append_fails : option (bool * DomainError);
  read_fails : option DomainError;
  upsert_fails : option DomainError;
  exclusion_write_fails : option DomainError;
  enqueue_fails : option DomainError;
  (** What the database says of a row it does not admit. *)
  constraint_error : fmt;
  stored_at_now : DateTime;
  utc_now : DateTime;
}.

Abbreviation handler := (prog PolicyDb AppError).

(** ** Ports *)

(** A call that changes nothing when it fails. *)
Definition fallible {A} (fault : option DomainError) (m : PolicyDb → PolicyDb * A)
    : handler (DomainResult A) :=
  port (λ db, match fault with
              | Some e => (db, Err e)
              | None => let '(db', a) := m db in (db', Ok a)
              end).

(** [?] on a port call. *)
Definition ask {A} (fault : option DomainError) (m : PolicyDb → PolicyDb * A) : handler A :=
  r ← fallible fault m; Done (lift_domain r).

Definition fail {A} (e : DomainError) : handler A := Done (Err (AE_Domain e)).

Definition find_by_id (env : Env) (id : Uuid) : handler (option ScanPolicyProjection) :=
  ask (find_fails env) (λ db, (db, rows db !! id)).

Definition find_by_name (env : Env) (name : string) : handler (option ScanPolicyProjection) :=
  ask (find_fails env) (λ db, (db,
    head (filter (λ p, p_name p = name ∧ archived p = false) ((map_to_list (rows db)).*2)))).

Definition list_exclusions_for_policy (env : Env) (id : Uuid) : handler (list ExclusionProjection) :=
  ask (find_fails env) (λ db, (db,
    filter (λ x, x_policy_id x = id) ((map_to_list (exclusion_rows db)).*2))).

(** *** The tables' constraints *)

(** The checks of policy_projections that the types do not imply
    (migrations/005_policy.sql). *)
Definition row_check (p : ScanPolicyProjection) : bool :=
  (bool_decide (provenance_mode p = PM_Off) || negb (is_empty (provenance_backends p))) &&
  (len (provenance_identities p) <=? 32) &&
  forallb (λ i, negb (bool_decide (sp_issuer i = ""%string)) && negb (bool_decide (sp_san i = ""%string)))
    (provenance_identities p).

(** Two rows that the unique name (005_policy.sql) or the unique active scope
    (017_scan_policy_scope_unique.sql) keep from coexisting. *)
Definition clashes (p q : ScanPolicyProjection) : bool :=
  bool_decide (p_name p = p_name q) ||
  negb (archived p) && negb (archived q) && bool_decide (p_scope p = p_scope q).

Definition admits (m : gmap Uuid ScanPolicyProjection) (p : ScanPolicyProjection) : bool :=
  row_check p && forallb (λ '(id, q), (id =? policy_id p) || negb (clashes p q)) (map_to_list m).

(** The upsert has no condition on the version; an existing row keeps its
    creation time. *)
Definition upsert_projection (p : ScanPolicyProjection) (db : PolicyDb) : PolicyDb :=
  let p' := match rows db !! policy_id p with
            | Some old => p {{ p_created_at := p_created_at old }}
            | None => p
            end in
  db {{ rows ::= <[policy_id p := p']> }}.

(** An existing exclusion keeps the actor that added it. *)
Definition put_exclusion (x : ExclusionProjection) (m : gmap Uuid ExclusionProjection)
    : gmap Uuid ExclusionProjection :=
  <[exclusion_id x := match m !! exclusion_id x with
                      | Some old => x {{ added_by_actor_id := added_by_actor_id old }}
                      | None => x
                      end]> m.

Definition upsert_exclusion_row (x : ExclusionProjection) (db : PolicyDb) : PolicyDb :=
  db {{ exclusion_rows ::= put_exclusion x }}.

Definition upsert (env : Env) (p : ScanPolicyProjection) : handler (DomainResult unit) :=
  port (λ db,
    match upsert_fails env with
    | Some e => (db, Err e)
    | None =>
        if admits (rows db) p then (upsert_projection p db, Ok ())
        else (db, Err (Invariant (Lit "policy_projections upsert: " :: constraint_error env)))
    end).

(** The policy of an exclusion is a foreign key. *)
Definition upsert_exclusion (env : Env) (x : ExclusionProjection) : handler unit :=
  r ← port (λ db,
    match exclusion_write_fails env, rows db !! x_policy_id x with
    | Some e, _ => (db, Err e)
    | None, None =>
        (db, Err (Invariant (Lit "policy_projections upsert_exclusion: " :: constraint_error env)))
    | None, Some _ => (upsert_exclusion_row x db, Ok ())
    end);
  Done (lift_domain r).

Definition delete_exclusion (env : Env) (id : Uuid) : handler unit :=
  ask (exclusion_write_fails env) (λ db, (db {{ exclusion_rows ::= delete id }}, ())).

Definition enqueue_re_evaluation (env : Env) (id : Uuid) (trigger : ReEvaluationTrigger)
    : handler unit :=
  _ ← fallible (enqueue_fails env) (λ db, (db {{ re_evaluations ::= (λ l, l ++ [(id, trigger)]) }}, ()));
  mret ().

Definition policy_events (db : PolicyDb) (id : Uuid) : list PolicyStreamEvent :=
  default [] (streams db !! id).

Section use_case.
Context `{EventWire, SerdeJson, PolicySerde}.

(** [EventStore::append] on a policy stream; the result is the position of the
    last event. *)
Definition append_batch (env : Env) (id : Uuid) (expected : ExpectedVersion)
    (batch : list DomainEvent) (actor : Actor) (db : PolicyDb) : PolicyDb * DomainResult Z :=
  let current := policy_events db id in
  match validate_and_serialize batch, check_expected_version expected (policy_stream id) current with
  | Err e, _ | Ok _, Err e => (db, Err e)
  | Ok _, Ok _ =>
      let s := current ++ persist (len current) actor (stored_at_now env) batch in
      (db {{ streams ::= <[id := s]> }}, Ok (len s - 1))
  end.

Definition append (env : Env) (id : Uuid) (expected : ExpectedVersion) (batch : list DomainEvent)
    (actor : Actor) : handler (DomainResult Z) :=
  port (λ db,
    match append_fails env with
    | None => append_batch env id expected batch actor db
    | Some (false, e) => (db, Err e)
    | Some (true, e) => ((append_batch env id expected batch actor db).1, Err e)
    end).

(** ** Read, decide, append *)

(** [append_conflict::append_with_conflict_retry], with [remaining] attempts left. *)
Inductive ConflictCycleOutcome (T : Type) : Type :=
  | CC_Satisfied (value : T)
  | CC_Retry.
#[global] Arguments CC_Satisfied {T} value.
#[global] Arguments CC_Retry {T}.

Fixpoint retry_loop {T} (attempts attempt : Z) (cycle : Z → handler (ConflictCycleOutcome T))
    (remaining : nat) : handler T :=
  match remaining with
  | O => fail (Contended [Lit "append-conflict retry budget exhausted after "; ArgInt attempts;
                          Lit " attempt(s)"])
  | Datatypes.S remaining' =>
      o ← cycle attempt;
      match o with
      | CC_Satisfied value => mret value
      | CC_Retry => retry_loop attempts (attempt + 1) cycle remaining'
      end
  end.

Definition append_with_conflict_retry {T} (attempts : Z)
    (cycle : Z → handler (ConflictCycleOutcome T)) : handler T :=
  retry_loop attempts 1 cycle (Z.to_nat attempts).

Definition POLICY_APPEND_ATTEMPTS : Z := 2.

Inductive PolicyIntent : Type :=
  | PI_Satisfied
  | PI_Append (events : list DomainEvent).

Record HealedMutation : Type := {
  hm_projection : ScanPolicyProjection;
  hm_events : list DomainEvent;
  hm_appended : bool;
  hm_healed : bool;
}.

Definition rebase_policy_from_stream (env : Env) (id : Uuid) : handler ScanPolicyReplay :=
  events ← ask (read_fails env) (λ db, (db, policy_events db id));
  Done (lift_domain (fold_scan_policy events)).

(** One attempt, once the state it stands on is known: decide, append, fold. *)
Definition decided_cycle (env : Env) (id : Uuid) (actor : Actor)
    (decide : ScanPolicyReplay → AppResult PolicyIntent) (state : ScanPolicyReplay) (healed : bool)
    : handler (ConflictCycleOutcome HealedMutation) :=
  intent ← Done (decide state);
  match intent with
  | PI_Satisfied =>
      mret (CC_Satisfied {| hm_projection := replay_policy state; hm_events := [];
                            hm_appended := false; hm_healed := healed |})
  | PI_Append events =>
      r ← append env id (EV_Exact (stream_version (replay_policy state))) events actor;
      match r with
      | Ok position =>
          let '(state', applied) := apply_policy_batch events actor (utc_now env) position state in
          _ ← Done (lift_domain applied);
          mret (CC_Satisfied {| hm_projection := replay_policy state'; hm_events := events;
                                hm_appended := true; hm_healed := healed |})
      | Err (Conflict _) => mret CC_Retry
      | Err other => fail other
      end
  end.

Definition mutation_cycle (env : Env) (id : Uuid) (base : ScanPolicyReplay) (actor : Actor)
    (decide : ScanPolicyReplay → AppResult PolicyIntent) (attempt : Z)
    : handler (ConflictCycleOutcome HealedMutation) :=
  let healed := 1 <? attempt in
  state ← (if healed then rebase_policy_from_stream env id else mret base);
  decided_cycle env id actor decide state healed.

Definition mutate_policy_stream (env : Env) (id : Uuid) (base : ScanPolicyReplay) (actor : Actor)
    (decide : ScanPolicyReplay → AppResult PolicyIntent) : handler HealedMutation :=
  append_with_conflict_retry POLICY_APPEND_ATTEMPTS (mutation_cycle env id base actor decide).

Definition write_projection (env : Env) (p : ScanPolicyProjection) : handler unit :=
  r ← upsert env p; Done (lift_domain r).

(** ** Commands *)

Record CreatePolicyCommand : Type := {
  cp_name : string;
  cp_scope : PolicyScope;
  cp_severity_threshold : SeverityThreshold;
  cp_quarantine_duration_secs : Z;
  cp_require_approval : bool;
  cp_provenance_mode : ProvenanceMode;
  cp_provenance_backends : list string;
  cp_provenance_identities : list SignerIdentityPattern;
  cp_max_artifact_age_secs : option Z;
  cp_license_policy : Value;
  cp_scan_backends : list string;
  cp_rescan_interval_hours : Z;
  cp_negligible_action : NegligibleAction;
  cp_enforcement : ScanEnforcement;
  cp_composite_verdict_mode : CompositeVerdictMode;
}.

Inductive FieldChange (T : Type) : Type :=
  | Unchanged
  | Set_ (value : T).
#[global] Arguments Unchanged {T}.
#[global] Arguments Set_ {T} value.

Record UpdatePolicyCommand : Type := {
  up_policy_id : Uuid;
  up_name : FieldChange string;
  up_scope : FieldChange PolicyScope;
  up_severity_threshold : FieldChange SeverityThreshold;
  up_quarantine_duration_secs : FieldChange Z;
  up_require_approval : FieldChange bool;
  up_provenance_mode : FieldChange ProvenanceMode;
  up_provenance_backends : FieldChange (list string);
  up_provenance_identities : FieldChange (list SignerIdentityPattern);
  up_max_artifact_age_secs : FieldChange (option Z);
  up_license_policy : FieldChange Value;
  up_scan_backends : FieldChange (list string);
  up_rescan_interval_hours : FieldChange Z;
  up_negligible_action : FieldChange NegligibleAction;
  up_enforcement : FieldChange ScanEnforcement;
  up_composite_verdict_mode : FieldChange CompositeVerdictMode;
}.

(** [UpdatePolicyCommand::new]: nothing changes. *)
Definition UpdatePolicyCommand_new (id : Uuid) : UpdatePolicyCommand :=
  {| up_policy_id := id; up_name := Unchanged; up_scope := Unchanged;
     up_severity_threshold := Unchanged; up_quarantine_duration_secs := Unchanged;
     up_require_approval := Unchanged; up_provenance_mode := Unchanged;
     up_provenance_backends := Unchanged; up_provenance_identities := Unchanged;
     up_max_artifact_age_secs := Unchanged; up_license_policy := Unchanged;
     up_scan_backends := Unchanged; up_rescan_interval_hours := Unchanged;
     up_negligible_action := Unchanged; up_enforcement := Unchanged;
     up_composite_verdict_mode := Unchanged |}.

Record AddExclusionCommand : Type := {
  ax_policy_id : Uuid;
  ax_cve_id : string;
  ax_package_pattern : option string;
  ax_scope : PolicyScope;
  ax_reason : string;
  ax_expires_at : option DateTime;
}.

Record RemoveExclusionCommand : Type := {
  rx_policy_id : Uuid;
  rx_exclusion_id : Uuid;
  rx_reason : string;
}.

Definition set_or {T} (change : FieldChange T) (current : T) : T :=
  match change with Set_ v => v | Unchanged => current end.

Definition desired_projection (cmd : UpdatePolicyCommand) (current : ScanPolicyProjection)
    : ScanPolicyProjection :=
  current {{
    p_name := set_or (up_name cmd) (p_name current);
    p_scope := set_or (up_scope cmd) (p_scope current);
    severity_threshold := set_or (up_severity_threshold cmd) (severity_threshold current);
    quarantine_duration_secs :=
      set_or (up_quarantine_duration_secs cmd) (quarantine_duration_secs current);
    require_approval := set_or (up_require_approval cmd) (require_approval current);
    provenance_mode := set_or (up_provenance_mode cmd) (provenance_mode current);
    provenance_backends := set_or (up_provenance_backends cmd) (provenance_backends current);
    provenance_identities := set_or (up_provenance_identities cmd) (provenance_identities current);
    max_artifact_age_secs := set_or (up_max_artifact_age_secs cmd) (max_artifact_age_secs current);
    license_policy := set_or (up_license_policy cmd) (license_policy current);
    scan_backends := set_or (up_scan_backends cmd) (scan_backends current);
    rescan_interval_hours := set_or (up_rescan_interval_hours cmd) (rescan_interval_hours current);
    negligible_action := set_or (up_negligible_action cmd) (negligible_action current);
    enforcement := set_or (up_enforcement cmd) (enforcement current);
    composite_verdict_mode :=
      set_or (up_composite_verdict_mode cmd) (composite_verdict_mode current) }}.

(** ** Handlers *)

Definition not_found_policy (id : Uuid) : DomainError := NotFound "ScanPolicy" [ArgUuid id].
Definition is_archived_error (p : ScanPolicyProjection) : DomainError :=
  Validation [Lit "policy '"; ArgStr (p_name p); Lit "' is archived"].

Definition new_projection (cmd : CreatePolicyCommand) (id : Uuid) (now : DateTime)
    : ScanPolicyProjection :=
  {| policy_id := id; p_name := cp_name cmd; p_scope := cp_scope cmd;
     severity_threshold := cp_severity_threshold cmd;
     quarantine_duration_secs := cp_quarantine_duration_secs cmd;
     require_approval := cp_require_approval cmd; provenance_mode := cp_provenance_mode cmd;
     provenance_backends := cp_provenance_backends cmd;
     provenance_identities := cp_provenance_identities cmd;
     max_artifact_age_secs := cp_max_artifact_age_secs cmd;
     license_policy := cp_license_policy cmd; archived := false;
     scan_backends := cp_scan_backends cmd; rescan_interval_hours := cp_rescan_interval_hours cmd;
     negligible_action := cp_negligible_action cmd; enforcement := cp_enforcement cmd;
     composite_verdict_mode := cp_composite_verdict_mode cmd; stream_version := 0;
     p_created_at := now; p_updated_at := now |}.

Definition create_policy (env : Env) (cmd : CreatePolicyCommand) (id : Uuid) (actor : Actor)
    : handler Uuid :=
  existing ← find_by_name env (cp_name cmd);
  match existing with
  | Some _ =>
      fail (Conflict [Lit "policy with name '"; ArgStr (cp_name cmd); Lit "' already exists"])
  | None =>
      let projection := new_projection cmd id (utc_now env) in
      r ← append env id EV_NoStream [DE_PolicyCreated (policy_created projection)] actor;
      position ← Done (lift_domain r);
      w ← upsert env (projection {{ stream_version := position }});
      _ ← Done (lift_domain w);
      mret id
  end.

Definition decide_update (cmd : UpdatePolicyCommand) (state : ScanPolicyReplay)
    : AppResult PolicyIntent :=
  let policy := replay_policy state in
  if archived policy then Err (AE_Domain (is_archived_error policy))
  else
    let updates := diff_policy_fields (up_policy_id cmd) policy (desired_projection cmd policy) in
    match updates with
    | [] => Ok PI_Satisfied
    | _ => Ok (PI_Append (DE_PolicyUpdated <$> updates))
    end.

(** Does an event change a field the gates read? *)
Definition changes_gate_field (e : DomainEvent) : bool :=
  match e with DE_PolicyUpdated u => is_gate_affecting (field u) | _ => false end.

Definition update_policy (env : Env) (cmd : UpdatePolicyCommand) (actor : Actor) : handler unit :=
  let id := up_policy_id cmd in
  found ← find_by_id env id;
  projection ← Done (ok_or (AE_Domain (not_found_policy id)) found);
  if archived projection then fail (is_archived_error projection)
  else
    let base := {| replay_policy := projection; replay_exclusions := [] |} in
    first ← Done (decide_update cmd base);
    match first with
    | PI_Satisfied => mret ()
    | PI_Append _ =>
        outcome ← mutate_policy_stream env id base actor (decide_update cmd);
        _ ← write_projection env (hm_projection outcome);
        let re_evaluation_owed :=
          if hm_appended outcome then existsb changes_gate_field (hm_events outcome)
          else existsb (λ u, is_gate_affecting (field u))
                 (diff_policy_fields id projection (hm_projection outcome)) in
        if re_evaluation_owed then enqueue_re_evaluation env id (RT_PolicyUpdated id)
        else mret ()
    end.

Definition decide_archive (id : Uuid) (state : ScanPolicyReplay) : AppResult PolicyIntent :=
  if archived (replay_policy state) then Ok PI_Satisfied
  else Ok (PI_Append [DE_PolicyArchived id]).

Definition archive_policy (env : Env) (id : Uuid) (actor : Actor) : handler unit :=
  found ← find_by_id env id;
  projection ← Done (ok_or (AE_Domain (not_found_policy id)) found);
  if archived projection then
    fail (Validation [Lit "policy '"; ArgStr (p_name projection); Lit "' is already archived"])
  else
    let base := {| replay_policy := projection; replay_exclusions := [] |} in
    outcome ← mutate_policy_stream env id base actor (decide_archive id);
    write_projection env (hm_projection outcome).

Definition decide_reactivate (id : Uuid) (state : ScanPolicyReplay) : AppResult PolicyIntent :=
  if negb (archived (replay_policy state)) then Ok PI_Satisfied
  else Ok (PI_Append [DE_PolicyReactivated id]).

Definition reactivate_policy (env : Env) (id : Uuid) (actor : Actor) : handler unit :=
  found ← find_by_id env id;
  projection ← Done (ok_or (AE_Domain (not_found_policy id)) found);
  if negb (archived projection) then
    fail (Validation [Lit "policy '"; ArgStr (p_name projection); Lit "' is already active"])
  else
    let base := {| replay_policy := projection; replay_exclusions := [] |} in
    outcome ← mutate_policy_stream env id base actor (decide_reactivate id);
    _ ← write_projection env (hm_projection outcome);
    enqueue_re_evaluation env id (RT_PolicyUpdated id).

Definition SCOPE_NOT_ENFORCED : string :=
  "a repository-scoped exclusion is not enforced: the finding filter never reads the exclusion's scope — the artifact coordinates it matches against carry no repository identity — so an exclusion narrowed to one repository suppresses its CVE for every repository the parent policy governs".

Definition no_policy_error (id : Uuid) : DomainError :=
  Validation [Lit "policy "; ArgUuid id; Lit " does not exist"].

Definition new_exclusion_event (cmd : AddExclusionCommand) (exclusion_id : Uuid) : ExclusionAdded :=
  {| ea_policy_id := ax_policy_id cmd; ea_exclusion_id := exclusion_id; ea_cve_id := ax_cve_id cmd;
     ea_package_pattern := ax_package_pattern cmd; ea_scope := ax_scope cmd;
     ea_reason := ax_reason cmd; ea_expires_at := ax_expires_at cmd |}.

Definition decide_add_exclusion (event : ExclusionAdded) (state : ScanPolicyReplay)
    : AppResult PolicyIntent :=
  if archived (replay_policy state) then Err (AE_Domain (is_archived_error (replay_policy state)))
  else Ok (PI_Append [DE_ExclusionAdded event]).

Definition add_exclusion (env : Env) (cmd : AddExclusionCommand) (exclusion_id : Uuid)
    (actor : Actor) : handler Uuid :=
  let id := ax_policy_id cmd in
  match ax_scope cmd with
  | PS_Repository repo_id =>
      fail (Validation [Lit SCOPE_NOT_ENFORCED;
                        Lit ". Re-issue the exclusion with a global scope if clearing ";
                        Lit "this CVE everywhere the policy governs is what was meant, or drop ";
                        Lit "it until per-repository scoping is implemented. (policy: ";
                        ArgUuid id; Lit ", requested repository scope: "; ArgUuid repo_id; Lit ")"])
  | PS_Global =>
      found ← find_by_id env id;
      match found with
      | None => fail (no_policy_error id)
      | Some parent =>
          if archived parent then fail (is_archived_error parent)
          else
            let event := new_exclusion_event cmd exclusion_id in
            let new_exclusion := exclusion_projection event actor in
            let base := {| replay_policy := parent; replay_exclusions := [] |} in
            outcome ← mutate_policy_stream env id base actor (decide_add_exclusion event);
            _ ← upsert_exclusion env new_exclusion;
            _ ← write_projection env (hm_projection outcome);
            _ ← enqueue_re_evaluation env id (RT_ExclusionAdded exclusion_id);
            mret exclusion_id
      end
  end.

Definition decide_remove_exclusion (event : ExclusionRemoved) (state : ScanPolicyReplay)
    : AppResult PolicyIntent :=
  if archived (replay_policy state) then Err (AE_Domain (is_archived_error (replay_policy state)))
  else if existsb (λ x, exclusion_id x =? er_exclusion_id event) (replay_exclusions state)
  then Ok (PI_Append [DE_ExclusionRemoved event])
  else Ok PI_Satisfied.

Definition remove_exclusion (env : Env) (cmd : RemoveExclusionCommand) (actor : Actor)
    : handler unit :=
  let id := rx_policy_id cmd in
  found ← find_by_id env id;
  match found with
  | None => fail (no_policy_error id)
  | Some parent =>
      if archived parent then fail (is_archived_error parent)
      else
        exclusions ← list_exclusions_for_policy env id;
        match List.find (λ x, exclusion_id x =? rx_exclusion_id cmd) exclusions with
        | None => fail (NotFound "Exclusion" [ArgUuid (rx_exclusion_id cmd)])
        | Some x =>
            if negb (x_policy_id x =? id) then
              fail (Validation [Lit "exclusion "; ArgUuid (rx_exclusion_id cmd);
                                Lit " belongs to a different policy"])
            else
              let event := {| er_policy_id := id; er_exclusion_id := rx_exclusion_id cmd;
                              er_reason := rx_reason cmd |} in
              let base := {| replay_policy := parent; replay_exclusions := exclusions |} in
              outcome ← mutate_policy_stream env id base actor (decide_remove_exclusion event);
              _ ← delete_exclusion env (rx_exclusion_id cmd);
              _ ← write_projection env (hm_projection outcome);
              enqueue_re_evaluation env id (RT_ExclusionRemoved (rx_exclusion_id cmd))
        end
  end.

(** A request, with the identifier the handler mints for it. *)
Inductive Command : Type :=
  | C_Create (cmd : CreatePolicyCommand) (id : Uuid)
  | C_Update (cmd : UpdatePolicyCommand)
  | C_Archive (id : Uuid)
  | C_Reactivate (id : Uuid)
  | C_AddExclusion (cmd : AddExclusionCommand) (id : Uuid)
  | C_RemoveExclusion (cmd : RemoveExclusionCommand).

Definition handle (env : Env) (actor : Actor) (c : Command) : handler unit :=
  match c with
  | C_Create cmd id => _ ← create_policy env cmd id actor; mret ()
  | C_Update cmd => update_policy env cmd actor
  | C_Archive id => archive_policy env id actor
  | C_Reactivate id => reactivate_policy env id actor
  | C_AddExclusion cmd id => _ ← add_exclusion env cmd id actor; mret ()
  | C_RemoveExclusion cmd => remove_exclusion env cmd actor
  end.

(** The policy a command is for. *)
Definition target (c : Command) : Uuid :=
  match c with
  | C_Create _ id | C_Archive id | C_Reactivate id => id
  | C_Update cmd => up_policy_id cmd
  | C_AddExclusion cmd _ => ax_policy_id cmd
  | C_RemoveExclusion cmd => rx_policy_id cmd
  end.

(** The machine integers of a command are in range. *)
Definition in_range {T} (P : T → Prop) (c : FieldChange T) : Prop :=
  match c with Set_ v => P v | Unchanged => True end.

Definition command_wf (c : Command) : Prop :=
  match c with
  | C_Create cmd id => projection_wf (new_projection cmd id 0)
  | C_Update cmd =>
      in_range (λ n, n ≤ i64_MAX) (up_quarantine_duration_secs cmd) ∧
      in_range (λ n, i32_MIN ≤ n ≤ i32_MAX) (up_rescan_interval_hours cmd) ∧
      in_range (λ o, ∀ n, o = Some n → n ≤ i64_MAX) (up_max_artifact_age_secs cmd)
  | _ => True
  end.
End use_case.
