(* ===== verification/PolicyCoherence.v ===== *)
(** What policy administration guarantees of its rows, in every interleaving of
    its handlers and under every failure of their ports.

    The stream is the authority: a row restates a prefix of its policy's stream
    ([coherent]), a stream always folds ([stream_ok]), and an exclusion row is
    backed by the event that added it ([recorded]).  [inv] collects the three and
    [grows] says that streams are only ever extended; the handlers are verified
    one by one with [wp inv grows grows]. *)

From coqutil Require Import Datatypes.RecordSetters.
From S2P Require Import Prelude.
From S2P Require Import RustStd.
From S2P Require Import Json.
From S2P Require Import Types.
From S2P Require Import Events.
From S2P Require Import Store.
From S2P Require Import ScanPolicyFold.
From S2P Require Import Concurrent.
From S2P Require Import PolicyUseCase.
Import DoubleBraceUpdate.

Section coherence.
Context `{EventWire, SerdeJson, PolicySerde}.

(** ** The invariant *)

(** [p] is what [l] says. *)
Definition folds_to (l : list PolicyStreamEvent) (p : ScanPolicyProjection) : Prop :=
  ∃ r, fold_scan_policy l = Ok r ∧ replay_policy r ≡ p ∧ stream_version p = len l - 1.

Definition well_formed (id : Uuid) (p : ScanPolicyProjection) : Prop :=
  policy_id p = id ∧ projection_wf p.

Definition coherent (db : PolicyDb) (id : Uuid) (p : ScanPolicyProjection) : Prop :=
  well_formed id p ∧ ∃ k l, streams db !! id = Some l ∧ k `prefix_of` l ∧ folds_to k p.

Definition stream_ok (id : Uuid) (l : list PolicyStreamEvent) : Prop :=
  end_position l = Some (len l - 1) ∧
  ∃ r, fold_scan_policy l = Ok r ∧ well_formed id (replay_policy r) ∧
       stream_version (replay_policy r) = len l - 1.

Definition recorded (db : PolicyDb) (x : ExclusionProjection) : Prop :=
  ∃ l e added,
    streams db !! x_policy_id x = Some l ∧ e ∈ l ∧ pse_event e = DE_ExclusionAdded added ∧
    x = (exclusion_projection added (pse_actor e)) {{ added_by_actor_id := added_by_actor_id x }}.

(** No two rows share a name, and no two active ones a scope. *)
Definition unique_rows (m : gmap Uuid ScanPolicyProjection) : Prop :=
  ∀ i j p q, m !! i = Some p → m !! j = Some q → i ≠ j → clashes p q = false.

Record inv (db : PolicyDb) : Prop := {
  inv_streams id l : streams db !! id = Some l → stream_ok id l;
  inv_rows id p : rows db !! id = Some p → coherent db id p;
  inv_exclusions id x : exclusion_rows db !! id = Some x → recorded db x;
  inv_unique : unique_rows (rows db);
}.

Lemma clashes_comm p q : clashes p q = clashes q p.
Proof.
  unfold clashes. rewrite (andb_comm (negb (archived p))). f_equal; [| f_equal];
    apply bool_decide_ext; split; congruence.
Qed.

(** What the table admits keeps its rows unique. *)
Lemma admits_spec m p :
  admits m p = true ↔
  row_check p = true ∧ ∀ id q, m !! id = Some q → id ≠ policy_id p → clashes p q = false.
Proof.
  unfold admits. rewrite andb_true_iff, List.forallb_forall. apply and_iff_compat_l. split.
  - intros Hall id q Hq Hne. specialize (Hall (id, q)). cbn in Hall.
    rewrite <- list_elem_of_In, elem_of_map_to_list in Hall.
    apply Hall, orb_true_iff in Hq as [->%Z.eqb_eq | Hc]; [done | by apply negb_true_iff].
  - intros Hall [id q] Hin%list_elem_of_In%elem_of_map_to_list. apply orb_true_iff.
    destruct (Z.eqb_spec id (policy_id p)) as [|Hne]; [by left | right].
    by rewrite (Hall id q Hin Hne).
Qed.

Lemma unique_insert m p p' :
  unique_rows m → admits m p = true → (∀ q, clashes p' q = clashes p q) →
  unique_rows (<[policy_id p := p']> m).
Proof.
  intros Hu [_ Hp]%admits_spec Hp' i j a b. rewrite !lookup_insert_Some.
  intros [[<- <-] | [Hi Ha]] [[<- <-] | [Hj Hb]] Hne; [done | | | by eapply Hu].
  - rewrite Hp'. by eapply Hp.
  - rewrite clashes_comm, Hp'. by eapply Hp.
Qed.

Definition grows (db db' : PolicyDb) : Prop :=
  ∀ id l, streams db !! id = Some l → ∃ l', streams db' !! id = Some l' ∧ l `prefix_of` l'.

#[export] Instance grows_preorder : PreOrder grows.
Proof.
  split.
  - intros db id l Hl. by exists l.
  - intros db1 db2 db3 H12 H23 id l Hl. destruct (H12 id l Hl) as (l2 & Hl2 & Hp).
    destruct (H23 id l2 Hl2) as (l3 & Hl3 & Hp'). exists l3. split; [done|]. by transitivity l2.
Qed.

Lemma coherent_grows db db' id p : grows db db' → coherent db id p → coherent db' id p.
Proof.
  intros Hg (Hwf & k & l & Hl & Hk & Hf). destruct (Hg id l Hl) as (l' & Hl' & Hp).
  split; [done|]. exists k, l'. split_and!; [done | by transitivity l | done].
Qed.

Lemma recorded_grows db db' x : grows db db' → recorded db x → recorded db' x.
Proof.
  intros Hg (l & e & added & Hl & He & Hadd & Hx). destruct (Hg _ l Hl) as (l' & Hl' & Hp).
  exists l', e, added. split_and!; try done. by eapply elem_of_prefix.
Qed.

(** Writes that leave the streams alone. *)
Lemma inv_same_streams db db' :
  streams db' = streams db → inv db →
  (∀ id p, rows db' !! id = Some p → rows db !! id = Some p ∨ coherent db id p) →
  (∀ id x, exclusion_rows db' !! id = Some x → exclusion_rows db !! id = Some x ∨ recorded db x) →
  unique_rows (rows db') → inv db' ∧ grows db db'.
Proof.
  intros Hs Hi Hr Hx Hu.
  assert (grows db db') as Hg by (intros id l Hl; exists l; by rewrite Hs).
  split; [| done]. split.
  - intros id l. rewrite Hs. apply Hi.
  - intros id p Hp. apply (coherent_grows db _ _ _ Hg).
    destruct (Hr id p Hp); [by apply Hi | done].
  - intros id x Hxp. apply (recorded_grows db _ _ Hg).
    destruct (Hx id x Hxp); [by eapply Hi | done].
  - done.
Qed.

Lemma inv_upsert_projection db p :
  inv db → coherent db (policy_id p) p → admits (rows db) p = true →
  inv (upsert_projection p db) ∧ grows db (upsert_projection p db).
Proof.
  intros Hi Hp Hadm. apply inv_same_streams; [done | done | | by left |].
  2: { apply unique_insert; [apply Hi | done |]. by destruct (rows db !! policy_id p). }
  intros id q. cbn. rewrite lookup_insert_Some. intros [[<- <-] | [_ Hq]]; [right | by left].
  destruct (rows db !! policy_id p) as [old|]; [| done].
  destruct Hp as ((? & ?) & k & l & Hl & Hk & r & Hf & Hr & Hv).
  split; [done|]. exists k, l. split_and!; [done | done |]. by exists r.
Qed.

Lemma inv_upsert_exclusion_row db x :
  inv db → recorded db x →
  inv (upsert_exclusion_row x db) ∧ grows db (upsert_exclusion_row x db).
Proof.
  intros Hi Hx. apply inv_same_streams; [done | done | by left | | apply Hi].
  intros id y. change (exclusion_rows (upsert_exclusion_row x db))
    with (put_exclusion x (exclusion_rows db)).
  unfold put_exclusion. rewrite lookup_insert_Some. intros [[<- <-] | [_ Hy]]; [right | by left].
  destruct (exclusion_rows db !! exclusion_id x) as [old|]; [| done].
  destruct Hx as (l & e & added & ? & ? & ? & Hx). exists l, e, added. split_and!; try done.
  by rewrite Hx.
Qed.

(** ** Appends *)

(** The batch applies to [state], and what it leaves is well formed. *)
Definition applies (id : Uuid) (actor : Actor) (batch : list DomainEvent)
    (state state' : ScanPolicyReplay) : Prop :=
  for_each (λ e, apply_policy_event e actor) batch state = (state', Ok ()) ∧
  well_formed id (replay_policy state').

Lemma check_exact_Ok {A} version stream_id (l : list A) :
  check_expected_version (EV_Exact version) stream_id l = Ok () → version = len l - 1.
Proof. cbn. by destruct (Z.eqb_spec (len l - 1) version). Qed.

Lemma check_no_stream_Ok {A} stream_id (l : list A) :
  check_expected_version EV_NoStream stream_id l = Ok () → l = [].
Proof.
  cbn. destruct (Z.eqb_spec (len l - 1) (-1)) as [Hl|]; [| done].
  intros _. unfold len in Hl. destruct l; [done | cbn in Hl; lia].
Qed.

Lemma inv_extend db id l :
  inv db → stream_ok id l → policy_events db id `prefix_of` l →
  inv (db {{ streams ::= <[id := l]> }}) ∧ grows db (db {{ streams ::= <[id := l]> }}).
Proof.
  intros Hi Hok Hpre.
  assert (grows db (db {{ streams ::= <[id := l]> }})) as Hg.
  { intros id' l' Hl'. cbn. destruct (decide (id = id')) as [<- | Hne].
    - rewrite lookup_insert_eq. exists l. split; [done|].
      unfold policy_events in Hpre. by rewrite Hl' in Hpre.
    - rewrite lookup_insert_ne by done. by exists l'. }
  split; [| done]. split.
  - intros id' l'. cbn. rewrite lookup_insert_Some. intros [[<- <-] | [_ Hl']]; [done | by apply Hi].
  - intros id' p Hp. apply (coherent_grows db); [done | by apply Hi].
  - intros id' x Hx. apply (recorded_grows db); [done | by eapply Hi].
  - apply Hi.
Qed.

(** Behind a stream that says what the state says, the batch says what the
    state becomes. *)
Lemma stream_ok_extend id l batch actor now state state' p :
  stream_ok id l → folds_to l p → replay_policy state = p →
  applies id actor batch state state' →
  let s := l ++ persist (len l) actor now batch in
  stream_ok id s ∧ ∀ v c u, v = len s - 1 → folds_to s (stamp v c u (replay_policy state')).
Proof.
  intros [Hend _] (r & Hr & Heq & Hv) <- [Hap [Hid Hwf]] s.
  assert (end_position s = Some (len s - 1)) as Hs.
  { unfold s. rewrite (end_position_persist l (len l)) by done. f_equal.
    unfold len. rewrite length_app, persist_length. lia. }
  destruct (fold_scan_policy_extend l (persist (len l) actor now batch) actor r state state')
    as (r' & Hr' & Heq' & Hv'); [done | done | by rewrite persist_events |].
  fold s in Hr', Hv'. rewrite Hs in Hv'. injection Hv' as Hv'.
  split.
  - split; [done|]. exists r'. split_and!; [done | | done].
    split; [by rewrite (policy_id_proper _ _ Heq') | by rewrite (projection_wf_proper _ _ Heq')].
  - intros v c u ->. exists r'. split_and!; [done | | done].
    etransitivity; [exact Heq' | symmetry; apply equiv_stamp].
Qed.

(** A coherent state whose version is the stream's is the stream's. *)
Lemma coherent_current db id p l :
  coherent db id p → streams db !! id = Some l → stream_version p = len l - 1 → folds_to l p.
Proof.
  intros (_ & k & l' & Hl' & Hk & Hf) Hl Hv. assert (l' = l) as -> by congruence.
  destruct Hf as (r & Hr & Heq & Hv'). assert (len k = len l) as Hlen by lia.
  destruct Hk as [k' ->]. unfold len in Hlen. rewrite length_app in Hlen.
  assert (k' = []) as -> by (destruct k'; [done | cbn in Hlen; lia]).
  rewrite app_nil_r. by exists r.
Qed.

(** What an append that succeeded leaves. *)
Definition persisted (db : PolicyDb) (id : Uuid) (actor : Actor) (e : DomainEvent) : Prop :=
  ∃ l pe, streams db !! id = Some l ∧ pe ∈ l ∧ pse_event pe = e ∧ pse_actor pe = actor.

Lemma persist_persisted from actor now batch e :
  e ∈ batch → ∃ pe, pe ∈ persist from actor now batch ∧ pse_event pe = e ∧ pse_actor pe = actor.
Proof.
  intros He. apply list_elem_of_lookup in He as [i Hi].
  exists {| pse_stream_position := from + Z.of_nat i; pse_event := e; pse_actor := actor;
            pse_stored_at := now |}.
  split; [| done]. apply list_elem_of_lookup. exists i. unfold persist.
  by rewrite list_lookup_imap, Hi.
Qed.

Lemma append_batch_sound env id batch actor db state state' :
  inv db → coherent db id (replay_policy state) → applies id actor batch state state' →
  let '(db', res) :=
    append_batch env id (EV_Exact (stream_version (replay_policy state))) batch actor db in
  inv db' ∧ grows db db' ∧
  match res with
  | Ok position =>
      (∀ c u, coherent db' id (stamp position c u (replay_policy state'))) ∧
      ∀ e, e ∈ batch → persisted db' id actor e
  | Err _ => True
  end.
Proof.
  intros Hi Hc Ha. unfold append_batch.
  destruct (validate_and_serialize batch) as [[]|]; [| done].
  destruct (check_expected_version _ _ _) as [[]|] eqn:Hcheck; [| done].
  apply check_exact_Ok in Hcheck.
  destruct Hc as (Hwf & k & l & Hl & Hk & Hf).
  assert (policy_events db id = l) as Hev by (unfold policy_events; by rewrite Hl).
  rewrite Hev in Hcheck |- *.
  assert (folds_to l (replay_policy state)) as Hcur.
  { apply (coherent_current db id); [| done..]. split; [done|]. by exists k, l. }
  destruct (stream_ok_extend id l batch actor (stored_at_now env) state state' (replay_policy state))
    as [Hok Hto]; [by apply Hi | done.. |].
  destruct (inv_extend db id _ Hi Hok) as [Hi' Hg]; [rewrite Hev; by eexists|].
  split_and!; [done | done | |].
  - intros c u. split; [by destruct Ha as [_ []]|].
    eexists _, _. split; [apply lookup_insert_eq|]. split; [done | by apply Hto].
  - intros e He. destruct (persist_persisted (len l) actor (stored_at_now env) batch e He)
      as (pe & Hpe & <- & Hact).
    eexists _, pe. split; [apply lookup_insert_eq|]. split; [set_solver | done].
Qed.

Lemma persisted_grows db db' id actor e :
  grows db db' → persisted db id actor e → persisted db' id actor e.
Proof.
  intros Hg (l & pe & Hl & Hpe & Hev). destruct (Hg id l Hl) as (l' & Hl' & Hp).
  exists l', pe. split_and!; try done; [by eapply elem_of_prefix | naive_solver..].
Qed.

(** ** Verification conditions

    The handlers promise something of the state when they succeed; when they
    fail, only the invariant. *)

Definition on_ok {A} (P : A → PolicyDb → Prop) (r : AppResult A) (db : PolicyDb) : Prop :=
  match r with Ok a => P a db | Err _ => True end.

Abbreviation WP p P := (wp inv grows grows p (on_ok P)).

Lemma wp_seq {A B} (p : handler A) (f : A → handler B) P db :
  WP p (λ a, WP (f a) P) db → WP (p ≫= f) P db.
Proof. intros Hp. apply wp_bind. eapply wp_mono; [| exact Hp]. by intros []. Qed.

Lemma wp_done {A} (r : AppResult A) (P : A → PolicyDb → Prop) db :
  (∀ a, r = Ok a → P a db) → WP (Done r) P db.
Proof. intros HP. destruct r as [a|]; [by apply HP | done]. Qed.

Lemma wp_ask {A} fault (m : PolicyDb → PolicyDb * A) (P : A → PolicyDb → Prop) db :
  (∀ db1, grows db db1 → inv db1 → inv (m db1).1 ∧ grows db1 (m db1).1 ∧ P (m db1).2 (m db1).1) →
  WP (ask fault m) P db.
Proof.
  intros Hm. apply wp_seq, wp_port. intros db1 Hg Hi. specialize (Hm db1 Hg Hi).
  destruct fault as [e|]; [done|]. by destruct (m db1).
Qed.

(** A call that only reads. *)
Lemma wp_read {A} fault (f : PolicyDb → A) (P : A → PolicyDb → Prop) db :
  (∀ db1, grows db db1 → inv db1 → P (f db1) db1) → WP (ask fault (λ d, (d, f d))) P db.
Proof. intros Hf. apply wp_ask. intros db1 Hg Hi. split_and!; [done | done | by apply Hf]. Qed.

Lemma wp_fallible fault m (P : DomainResult unit → PolicyDb → Prop) db :
  (∀ db1, grows db db1 → inv db1 → inv (m db1).1 ∧ grows db1 (m db1).1) →
  (∀ r db1, P r db1) → WP (fallible fault m) P db.
Proof.
  intros Hm HP. apply wp_port. intros db1 Hg Hi. specialize (Hm db1 Hg Hi).
  destruct fault as [e|]; [split_and!; [done..|]; apply HP|].
  destruct (m db1) as [db2 []]. cbn in *. split_and!; try apply Hm. apply HP.
Qed.

Lemma wp_find_by_id env id (P : option ScanPolicyProjection → PolicyDb → Prop) db :
  (∀ p db1, grows db db1 → coherent db1 id p → P (Some p) db1) → (∀ db1, P None db1) →
  WP (find_by_id env id) P db.
Proof.
  intros HS HN. apply wp_read. intros db1 Hg Hi.
  destruct (rows db1 !! id) as [p|] eqn:Hp; [| apply HN]. apply HS; [done | by apply Hi].
Qed.

Lemma wp_write_projection env p db (P : unit → PolicyDb → Prop) :
  coherent db (policy_id p) p → (∀ db1, grows db db1 → P () db1) →
  WP (write_projection env p) P db.
Proof.
  intros Hp HP. apply wp_seq, wp_port. intros db1 Hg Hi.
  destruct (upsert_fails env) as [e|]; [done|]. destruct (admits (rows db1) p) eqn:Hadm; [| done]. cbn.
  destruct (inv_upsert_projection db1 p Hi) as [Hi' Hg']; [by apply (coherent_grows db) | done |].
  split_and!; [done | done |]. apply HP. by transitivity db1.
Qed.

Lemma wp_enqueue env id trigger db (P : unit → PolicyDb → Prop) :
  (∀ db1, P () db1) → WP (enqueue_re_evaluation env id trigger) P db.
Proof.
  intros HP. apply wp_seq, wp_fallible; [| intros r db1; apply HP].
  intros db1 Hg Hi. by apply inv_same_streams; [done | done | left | left | apply Hi].
Qed.

(** *** The append cycle *)

Definition sound_decision (id : Uuid) (actor : Actor)
    (decide : ScanPolicyReplay → AppResult PolicyIntent) : Prop :=
  ∀ state events,
    well_formed id (replay_policy state) → decide state = Ok (PI_Append events) →
    ∃ state', applies id actor events state state'.

Definition mutated (id : Uuid) (actor : Actor) (decide : ScanPolicyReplay → AppResult PolicyIntent)
    (hm : HealedMutation) (db : PolicyDb) : Prop :=
  coherent db id (hm_projection hm) ∧
  (∃ state, decide state =
     Ok (if hm_appended hm then PI_Append (hm_events hm) else PI_Satisfied)) ∧
  (hm_appended hm = true → ∀ e, e ∈ hm_events hm → persisted db id actor e).

Lemma apply_policy_batch_applies id actor batch state state' u v :
  applies id actor batch state state' →
  apply_policy_batch batch actor u v state =
  (state' {{ replay_policy := stamp v (p_created_at (replay_policy state')) u (replay_policy state') }},
   Ok ()).
Proof.
  intros [Ha _]. unfold apply_policy_batch. cbv [mbind mut_bind]. rewrite Ha.
  cbv [on_policy modify]. by destruct (replay_policy state').
Qed.

Lemma wp_rebase env id db (P : ScanPolicyReplay → PolicyDb → Prop) :
  (∀ r db1, grows db db1 → coherent db1 id (replay_policy r) → P r db1) →
  WP (rebase_policy_from_stream env id) P db.
Proof.
  intros HP. apply wp_seq, wp_read. intros db1 Hg Hi. apply wp_done. intros r' Hf%map_err_Ok.
  unfold policy_events in Hf. destruct (streams db1 !! id) as [l|] eqn:Hl; [| done].
  apply HP; [done|]. destruct (inv_streams _ Hi id l Hl) as (_ & r & Hr & Hwf & Hv).
  assert (r = r') as -> by (cbn in Hf; congruence).
  split; [done|]. exists l, l. split_and!; [done | done |]. by exists r'.
Qed.

Lemma wp_append env id actor events state state' db (P : DomainResult Z → PolicyDb → Prop) :
  coherent db id (replay_policy state) → applies id actor events state state' →
  (∀ position db1, grows db db1 →
     (∀ c u, coherent db1 id (stamp position c u (replay_policy state'))) →
     (∀ e, e ∈ events → persisted db1 id actor e) → P (Ok position) db1) →
  (∀ e db1, grows db db1 → P (Err e) db1) →
  WP (append env id (EV_Exact (stream_version (replay_policy state))) events actor) P db.
Proof.
  intros Hc Ha HOk HErr. apply wp_port. intros db1 Hg Hi.
  pose proof (append_batch_sound env id events actor db1 state state' Hi
    (coherent_grows _ _ _ _ Hg Hc) Ha) as Hs.
  destruct (append_batch _ _ _ _ _ _) as [db2 res]. destruct Hs as (Hi2 & Hg2 & Hres).
  destruct (append_fails env) as [[[] e]|]; cbn; split_and!; try done.
  - apply HErr. by transitivity db1.
  - by apply HErr.
  - destruct res as [position|e]; [destruct Hres; apply HOk | apply HErr]; try done;
      by transitivity db1.
Qed.

Lemma wp_mutation_cycle env id base actor decide attempt db :
  sound_decision id actor decide → coherent db id (replay_policy base) →
  WP (mutation_cycle env id base actor decide attempt)
     (λ o db1, grows db db1 ∧
        match o with CC_Satisfied hm => mutated id actor decide hm db1 | CC_Retry => True end) db.
Proof.
  intros Hsound Hbase. unfold mutation_cycle. apply wp_seq.
  apply (wp_mono _ _ _ _ (on_ok (λ state db1, grows db db1 ∧ coherent db1 id (replay_policy state)))).
  2: { destruct (1 <? attempt); [by apply wp_rebase | done]. }
  intros [state|] db1; [| done]. intros [Hg Hc]. apply wp_seq, wp_done. intros [|events] Hd.
  { cbn. split; [done|]. split; [done|]. split; [by exists state | done]. }
  destruct (Hsound state events) as (state' & Ha); [apply Hc | done |].
  apply wp_seq, (wp_append _ _ _ _ state state'); [done | done | |].
  - intros position db2 Hg2 Hc2 Hp2.
    rewrite (apply_policy_batch_applies id actor events state state') by done. cbn.
    split; [by transitivity db1|]. split; [apply Hc2|]. split; [by exists state | done].
  - intros e db2 Hg2. destruct e; cbn; try done. split; [| done]. by transitivity db1.
Qed.

Lemma wp_mutate env id base actor decide db (P : HealedMutation → PolicyDb → Prop) :
  sound_decision id actor decide → coherent db id (replay_policy base) →
  (∀ hm db1, grows db db1 → mutated id actor decide hm db1 → P hm db1) →
  WP (mutate_policy_stream env id base actor decide) P db.
Proof.
  intros Hsound Hbase HP. unfold mutate_policy_stream, append_with_conflict_retry.
  generalize 1 as attempt. set (n := Z.to_nat _). clearbody n.
  assert (∀ db1, grows db db1 → ∀ attempt,
    WP (retry_loop POLICY_APPEND_ATTEMPTS attempt (mutation_cycle env id base actor decide) n) P db1)
    as Hloop; [| intros attempt; by apply Hloop].
  induction n as [|n IH]; intros db1 Hg attempt; [done|]. cbn [retry_loop]. apply wp_seq.
  eapply wp_mono; [| apply wp_mutation_cycle; [done | by apply (coherent_grows db)]].
  intros [[hm|]|] db2; [| | done].
  - intros [Hg2 Hm]. cbn. apply HP; [by transitivity db1 | done].
  - intros [Hg2 _]. cbn. apply IH. by transitivity db1.
Qed.

(** *** The decisions *)

Lemma applies_one id actor e state state' :
  apply_policy_event e actor state = (state', Ok ()) → well_formed id (replay_policy state') →
  applies id actor [e] state state'.
Proof. intros He Hwf. split; [| done]. cbn [for_each]. cbv [mbind mut_bind]. by rewrite He. Qed.

(** An event for this policy that is not an update never fails to apply. *)
Ltac applies_one :=
  intros state events [Hid Hwf]; unfold decide_archive, decide_reactivate, decide_add_exclusion,
    decide_remove_exclusion; repeat case_match; try done; intros [= <-];
  eexists; apply applies_one;
  [unfold apply_policy_event, require_same_policy; cbv [mbind mut_bind self lift];
   cbn [ea_policy_id er_policy_id]; rewrite Hid, Z.eqb_refl; reflexivity
  | done].

Lemma sound_archive id actor : sound_decision id actor (decide_archive id).
Proof. applies_one. Qed.

Lemma sound_reactivate id actor : sound_decision id actor (decide_reactivate id).
Proof. applies_one. Qed.

Lemma sound_add_exclusion actor added :
  sound_decision (ea_policy_id added) actor (decide_add_exclusion added).
Proof. applies_one. Qed.

Lemma sound_remove_exclusion actor removed :
  sound_decision (er_policy_id removed) actor (decide_remove_exclusion removed).
Proof. applies_one. Qed.

Lemma desired_projection_wf cmd p :
  command_wf (C_Update cmd) → projection_wf p → projection_wf (desired_projection cmd p).
Proof.
  intros (Hq & Hr & Hm) (Hq' & Hr' & Hm'). unfold projection_wf, desired_projection. cbn.
  by destruct (up_quarantine_duration_secs cmd), (up_rescan_interval_hours cmd),
    (up_max_artifact_age_secs cmd).
Qed.

Lemma sound_update cmd actor :
  command_wf (C_Update cmd) → sound_decision (up_policy_id cmd) actor (decide_update cmd).
Proof.
  intros Hcmd state events [Hid Hwf]. unfold decide_update.
  destruct (archived (replay_policy state)); [done|].
  destruct (diff_policy_fields _ _ _) as [|u us] eqn:Hd; [done|]. intros [= <-].
  rewrite <- fmap_cons, <- Hd, <- Hid.
  pose proof (desired_projection_wf cmd _ Hcmd Hwf) as Hwf'.
  eexists. split; [by apply apply_diff|]. split; [done|]. exact Hwf'.
Qed.

(** *** The handlers *)

Lemma wp_update env cmd actor db :
  command_wf (C_Update cmd) → WP (update_policy env cmd actor) (λ _ _, True) db.
Proof.
  intros Hcmd. apply wp_seq, wp_find_by_id; [| done]. intros p db1 _ Hp.
  apply wp_seq, wp_done. intros ? [= <-]. destruct (archived p); [done|].
  apply wp_seq, wp_done. intros [|first] _; [done|].
  apply wp_seq, wp_mutate; [by apply sound_update | done |]. intros hm db2 _ (Hc & _).
  apply wp_seq, wp_write_projection; [by rewrite (proj1 (proj1 Hc))|]. intros db3 _.
  set (owed := if hm_appended hm then _ else _).
  destruct owed; [by apply wp_enqueue | done].
Qed.

Lemma wp_archive env id actor db : WP (archive_policy env id actor) (λ _ _, True) db.
Proof.
  apply wp_seq, wp_find_by_id; [| done]. intros p db1 _ Hp.
  apply wp_seq, wp_done. intros ? [= <-]. destruct (archived p); [done|].
  apply wp_seq, wp_mutate; [apply sound_archive | done |]. intros hm db2 _ (Hc & _).
  apply wp_write_projection; [by rewrite (proj1 (proj1 Hc)) | done].
Qed.

Lemma wp_reactivate env id actor db : WP (reactivate_policy env id actor) (λ _ _, True) db.
Proof.
  apply wp_seq, wp_find_by_id; [| done]. intros p db1 _ Hp.
  apply wp_seq, wp_done. intros ? [= <-]. destruct (negb (archived p)); [done|].
  apply wp_seq, wp_mutate; [apply sound_reactivate | done |]. intros hm db2 _ (Hc & _).
  apply wp_seq, wp_write_projection; [by rewrite (proj1 (proj1 Hc))|]. intros db3 _.
  by apply wp_enqueue.
Qed.

Lemma wp_add_exclusion env cmd id actor db : WP (add_exclusion env cmd id actor) (λ _ _, True) db.
Proof.
  unfold add_exclusion. destruct (ax_scope cmd); [| done].
  apply wp_seq, wp_find_by_id; [| done]. intros p db1 _ Hp. destruct (archived p); [done|].
  set (added := new_exclusion_event cmd id).
  apply wp_seq, wp_mutate; [apply (sound_add_exclusion actor added) | done |].
  intros hm db2 _ (Hc & [state Hd] & Hpers).
  assert (persisted db2 (ax_policy_id cmd) actor (DE_ExclusionAdded added)) as Hadd.
  { unfold decide_add_exclusion in Hd. destruct (archived (replay_policy state)); [done|].
    destruct (hm_appended hm); [| done]. injection Hd as Hd. apply Hpers; [done|].
    rewrite <- Hd. set_solver. }
  apply wp_seq, wp_seq, wp_port. intros db3 Hg Hi3.
  destruct (exclusion_write_fails env); [done|]. destruct (rows db3 !! _); [| done].
  destruct (persisted_grows _ _ _ _ _ Hg Hadd) as (l & e & Hl & He & Hev & Hact).
  destruct (inv_upsert_exclusion_row db3 (exclusion_projection added actor) Hi3) as [Hi4 Hg4].
  { exists l, e, added. split_and!; done. }
  split_and!; [done | done |]. cbn [fst snd].
  apply wp_seq, wp_write_projection.
  { rewrite (proj1 (proj1 Hc)). apply (coherent_grows db2); [by transitivity db3 | done]. }
  intros db5 _. apply wp_seq, wp_enqueue. done.
Qed.

Lemma wp_remove_exclusion env cmd actor db : WP (remove_exclusion env cmd actor) (λ _ _, True) db.
Proof.
  apply wp_seq, wp_find_by_id; [| done]. intros p db1 _ Hp. destruct (archived p); [done|].
  apply wp_seq, wp_read. intros db2 Hg2 _. case_match; [| done]. destruct (negb _); [done|].
  apply wp_seq, wp_mutate;
    [apply (sound_remove_exclusion actor {| er_policy_id := _ |}) | by apply (coherent_grows db1) |].
  intros hm db3 _ (Hc & _). apply wp_seq, wp_ask. intros db4 Hg4 Hi4.
  destruct (inv_same_streams db4 (db4 {{ exclusion_rows ::= delete (rx_exclusion_id cmd) }}))
    as [Hi5 Hg5]; [done | done | by left | | apply Hi4 |].
  { intros id x. cbn. rewrite lookup_delete_Some. intros [_ Hx]. by left. }
  split_and!; [done | done |]. cbn [fst snd].
  apply wp_seq, wp_write_projection.
  { rewrite (proj1 (proj1 Hc)). apply (coherent_grows db3); [by transitivity db4 | done]. }
  intros db6 _. by apply wp_enqueue.
Qed.

Lemma stream_ok_created p actor now :
  projection_wf p → archived p = false →
  let s := persist 0 actor now [DE_PolicyCreated (policy_created p)] in
  stream_ok (policy_id p) s ∧ ∀ q, q ≡ p → stream_version q = 0 → folds_to s q.
Proof.
  intros Hp Ha s. destruct (fold_scan_policy_created p actor now Hp Ha) as (r & Hr & Heq & Hv).
  split.
  - split; [done|]. exists r. split_and!; [done | | done].
    split; [by rewrite (policy_id_proper _ _ Heq) | by rewrite (projection_wf_proper _ _ Heq)].
  - intros q Hq Hqv. exists r. split_and!; [done | by rewrite Heq, Hq | done].
Qed.

Lemma wp_create env cmd id actor db :
  command_wf (C_Create cmd id) → WP (create_policy env cmd id actor) (λ _ _, True) db.
Proof.
  intros Hcmd. apply wp_seq, wp_read. intros db1 _ _. case_match; [done|].
  set (p := new_projection cmd id (utc_now env)).
  destruct (stream_ok_created p actor (stored_at_now env)) as [Hok Hto]; [exact Hcmd | done |].
  set (batch := [DE_PolicyCreated (policy_created p)]).
  assert (∀ db2, inv db2 → let '(db3, res) := append_batch env id EV_NoStream batch actor db2 in
    inv db3 ∧ grows db2 db3 ∧
    match res with
    | Ok position => coherent db3 id (p {{ stream_version := position }})
    | Err _ => True
    end) as Happend.
  { intros db2 Hi2. unfold append_batch.
    destruct (validate_and_serialize batch) as [[]|]; [| done].
    destruct (check_expected_version _ _ _) as [[]|] eqn:Hc; [| done].
    apply check_no_stream_Ok in Hc. rewrite Hc.
    destruct (inv_extend db2 id _ Hi2 Hok) as [Hi3 Hg3]; [rewrite Hc; apply prefix_nil|].
    split_and!; [exact Hi3 | exact Hg3 |]. split; [done|].
    eexists _, _. split; [apply lookup_insert_eq|]. split; [done|]. by apply Hto. }
  apply wp_seq, wp_port. intros db2 _ Hi2. specialize (Happend db2 Hi2).
  unfold batch in Happend. destruct (append_batch _ _ _ _ _ _) as [db3 res].
  destruct Happend as (Hi3 & Hg3 & Hc).
  destruct (append_fails env) as [[[] e]|]; cbn [fst snd]; split_and!; try done.
  cbn. destruct res as [position|]; [| done]. cbn. intros db4 Hg4 Hi4.
  destruct (upsert_fails env); [done|]. destruct (admits _ _) eqn:Hadm; [| done].
  destruct (inv_upsert_projection db4 (p {{ stream_version := position }})) as [Hi5 Hg5];
    [done | by apply (coherent_grows db3) | done |].
  done.
Qed.

Lemma wp_handle env actor c db : command_wf c → WP (handle env actor c) (λ _ _, True) db.
Proof.
  intros Hc. destruct c; cbn [handle].
  - apply wp_seq. eapply wp_mono; [| by apply wp_create]. by intros [].
  - by apply wp_update.
  - by apply wp_archive.
  - by apply wp_reactivate.
  - apply wp_seq. eapply wp_mono; [| by apply wp_add_exclusion]. by intros [].
  - by apply wp_remove_exclusion.
Qed.

(** ** Every interleaving *)

Definition empty_db : PolicyDb :=
  {| streams := ∅; rows := ∅; exclusion_rows := ∅; re_evaluations := [] |}.

Lemma inv_empty_db : inv empty_db.
Proof. split; intros id x; intros; cbn in *; simplify_map_eq. Qed.

(** A request comes in: any command, with any failures ahead of it. *)
Definition started (place : nat) (p : handler unit) : Prop :=
  ∃ env actor c, command_wf c ∧ p = handle env actor c.

(** The states that any number of requests, interleaved call by call, can leave. *)
Definition reachable (db : PolicyDb) : Prop :=
  ∃ ps, rtc (pool_step started) (empty_db, []) (db, ps).

Lemma reachable_inv db : reachable db → inv db.
Proof.
  intros [ps Hsteps].
  refine (pool_adequate inv (λ _, grows) (λ _, grows) started _ (λ _ _ _, True) _ empty_db [] (db, ps) _ _ Hsteps).
  - done.
  - intros i p db' (env & actor & c & Hc & ->) _.
    eapply wp_mono; [| by apply (wp_handle env actor c)]. done.
  - apply inv_empty_db.
  - done.
Qed.

Lemma reachable_run db env actor c :
  reachable db → command_wf c → reachable (run (handle env actor c) db).1.
Proof.
  intros [ps Hsteps] Hc. eexists. etransitivity; [exact Hsteps|].
  eapply rtc_l; [apply pool_spawn; by exists env, actor, c | apply run_steps].
Qed.

Lemma reachable_empty : reachable empty_db.
Proof. by exists []. Qed.

(** C15. Any number of policy requests, interleaved at every port call and with any
    of those calls failing (an append that reports a failure may even have landed),
    leave rows that the streams account for.  Every policy row is the fold of a
    prefix of its policy's stream, the one its version names; every stream folds,
    so a stale row can always be re-derived; no exclusion row suppresses a finding
    without the event, in its policy's stream, that added it; and no two rows share
    a name, nor two active ones a scope. *)
Theorem policy_rows_restate_their_streams (db : PolicyDb) :
  reachable db →
  (∀ id p, rows db !! id = Some p →
     ∃ k l r, streams db !! id = Some l ∧ k `prefix_of` l ∧ fold_scan_policy k = Ok r ∧
              replay_policy r ≡ p ∧ stream_version p = len k - 1) ∧
  (∀ id l, streams db !! id = Some l →
     ∃ r, fold_scan_policy l = Ok r ∧ stream_version (replay_policy r) = len l - 1) ∧
  (∀ id x, exclusion_rows db !! id = Some x → recorded db x) ∧
  (∀ i j p q, rows db !! i = Some p → rows db !! j = Some q → i ≠ j →
     p_name p ≠ p_name q ∧ (archived p = false → archived q = false → p_scope p ≠ p_scope q)).
Proof.
  intros Hi%reachable_inv. split_and!.
  - intros id p Hp. destruct (inv_rows _ Hi id p Hp) as (_ & k & l & Hl & Hk & r & Hr & Heq & Hv).
    by exists k, l, r.
  - intros id l Hl. destruct (inv_streams _ Hi id l Hl) as (_ & r & Hr & _ & Hv). by exists r.
  - apply Hi.
  - intros i j p q Hp Hq Hne. pose proof (inv_unique _ Hi i j p q Hp Hq Hne) as Hc.
    unfold clashes in Hc. apply orb_false_iff in Hc as [Hn%bool_decide_eq_false Hs].
    split; [done|]. intros Ha Hb. rewrite Ha, Hb in Hs. by apply bool_decide_eq_false in Hs.
Qed.
End coherence.
