(* ===== verification/PolicyRefinement.v ===== *)
(** What one policy command does when it runs alone and its ports work.

    The abstract policy is what its stream folds to ([authority]); a command is a
    function on it ([spec_command]).  [run_mutation] is the lemma the handlers
    share: from a row that may be any number of events behind, the append cycle
    either refuses the command or brings the stream and the row to the state the
    command specifies. *)

From coqutil Require Import Datatypes.RecordSetters.
From S2P Require Import Prelude.
From S2P Require Import RustStd.
From S2P Require Import Json.
From S2P Require Import Types.
From S2P Require Import Events.
From S2P Require Import Store.
From S2P Require Import ScanPolicyFold.
From S2P Require Import Concurrent.
From S2P Require Import PolicyUseCase.
From S2P Require Import PolicyCoherence.
Import DoubleBraceUpdate.

Section refinement.
Context `{EventWire, SerdeJson, PolicySerde}.

(** ** The specification *)

Definition authority (db : PolicyDb) (id : Uuid) : option ScanPolicyProjection :=
  match fold_scan_policy (policy_events db id) with
  | Ok r => Some (replay_policy r)
  | Err _ => None
  end.

Definition spec_command (c : Command) (p : ScanPolicyProjection) : ScanPolicyProjection :=
  match c with
  | C_Update cmd => desired_projection cmd p
  | C_Archive _ => p {{ archived := true }}
  | C_Reactivate _ => p {{ archived := false }}
  | C_Create _ _ | C_AddExclusion _ _ | C_RemoveExclusion _ => p
  end.

Definition spec_exclusions (c : Command) (actor : Actor) (m : gmap Uuid ExclusionProjection)
    : gmap Uuid ExclusionProjection :=
  match c with
  | C_AddExclusion cmd id => put_exclusion (exclusion_projection (new_exclusion_event cmd id) actor) m
  | C_RemoveExclusion cmd => delete (rx_exclusion_id cmd) m
  | _ => m
  end.

Record fault_free (env : Env) : Prop := {
  no_find_fault : find_fails env = None;
  no_append_fault : append_fails env = None;
  no_read_fault : read_fails env = None;
  no_upsert_fault : upsert_fails env = None;
  no_exclusion_fault : exclusion_write_fails env = None;
  no_enqueue_fault : enqueue_fails env = None;
}.

(** The row says what the stream says, and up to which event. *)
Definition caught_up (db : PolicyDb) (id : Uuid) : Prop :=
  ∃ p q, authority db id = Some p ∧ rows db !! id = Some q ∧ q ≡ p ∧
         stream_version q = len (policy_events db id) - 1.

(** An error that is neither a conflict nor contention. *)
Definition not_contention (e : AppError) : Prop :=
  match e with AE_Domain (Conflict _) | AE_Domain (Contended _) => False | _ => True end.

(** ** Validation never looks like a conflict *)

Definition merely_invalid {A} (r : DomainResult A) : Prop :=
  match r with Ok _ | Err (Validation _) => True | Err _ => False end.

Lemma merely_invalid_bind {A B} (r : DomainResult A) (f : A → DomainResult B) :
  merely_invalid r → (∀ a, merely_invalid (f a)) → merely_invalid (r ≫= f).
Proof. destruct r as [a|[]]; try done. intros _ Hf. apply Hf. Qed.

Lemma validate_string_invalid field value max : merely_invalid (validate_string field value max).
Proof. unfold validate_string. by repeat case_match. Qed.

Lemma validate_json_invalid field value size depth :
  merely_invalid (validate_json field value size depth).
Proof. unfold validate_json. by repeat case_match. Qed.

Definition is_mutation (e : DomainEvent) : Prop :=
  match e with
  | DE_PolicyUpdated _ | DE_PolicyArchived _ | DE_PolicyReactivated _
  | DE_ExclusionAdded _ | DE_ExclusionRemoved _ => True
  | _ => False
  end.

Lemma validate_mutation e : is_mutation e → merely_invalid (DomainEvent_validate e).
Proof.
  destruct e; try done; intros _; cbn [DomainEvent_validate].
  all: unfold PolicyUpdated_validate, ExclusionAdded_validate, ExclusionRemoved_validate,
    validate_optional_string.
  all: repeat (apply merely_invalid_bind || intros ? || apply validate_json_invalid
               || apply validate_string_invalid).
  all: case_match; [apply validate_string_invalid | done].
Qed.

Lemma validate_and_serialize_invalid batch :
  Forall is_mutation batch → merely_invalid (validate_and_serialize batch).
Proof.
  unfold validate_and_serialize. induction 1 as [|e batch He _ IH]; [done|]. cbn [validate_all].
  apply merely_invalid_bind; [| done].
  apply merely_invalid_bind; [by apply validate_mutation|]. intros _. by case_match.
Qed.

(** ** One append *)

Lemma run_append env id expected batch actor db :
  fault_free env → run (append env id expected batch actor) db =
  let '(db', r) := append_batch env id expected batch actor db in (db', Ok r).
Proof.
  intros Hf. cbn. rewrite (no_append_fault _ Hf). by destruct (append_batch _ _ _ _ _ _).
Qed.

Lemma run_ask {A} (m : PolicyDb → PolicyDb * A) db :
  run (ask None m) db = let '(db', a) := m db in (db', Ok a).
Proof. unfold ask. rewrite run_bind. cbn. by destruct (m db). Qed.

(** Why a mutation is refused: by its decision, or because an event it asks for
    is not valid. *)
Definition refused (decide : ScanPolicyReplay → AppResult PolicyIntent) (e : AppError) : Prop :=
  (∃ state, decide state = Err e) ∨
  ∃ state events err, decide state = Ok (PI_Append events) ∧
    validate_and_serialize events = Err err ∧ e = AE_Domain err.

(** The outcomes of a mutation of a stream [l] that runs alone. *)
Inductive mutation_outcome (env : Env) (id : Uuid) (actor : Actor)
    (decide : ScanPolicyReplay → AppResult PolicyIntent) (db : PolicyDb)
    (l : list PolicyStreamEvent) : PolicyDb * AppResult HealedMutation → Prop :=
  | MO_rejected e :
      not_contention e → refused decide e → mutation_outcome env id actor decide db l (db, Err e)
  | MO_satisfied r :
      fold_scan_policy l = Ok r → decide r = Ok PI_Satisfied →
      mutation_outcome env id actor decide db l
        (db, Ok {| hm_projection := replay_policy r; hm_events := []; hm_appended := false;
                   hm_healed := true |})
  | MO_appended state state' events healed c u :
      folds_to l (replay_policy state) → decide state = Ok (PI_Append events) →
      applies id actor events state state' →
      let s := l ++ persist (len l) actor (stored_at_now env) events in
      mutation_outcome env id actor decide db l
        (db {{ streams ::= <[id := s]> }},
         Ok {| hm_projection := stamp (len s - 1) c u (replay_policy state'); hm_events := events;
               hm_appended := true; hm_healed := healed |}).

(** A decision that asks only for mutations, and refuses without contention. *)
Definition plain_decision (decide : ScanPolicyReplay → AppResult PolicyIntent) : Prop :=
  ∀ state, match decide state with
           | Ok (PI_Append events) => Forall is_mutation events
           | Ok PI_Satisfied => True
           | Err e => not_contention e
           end.

(** One attempt that decides on [state]. *)
Inductive cycle_outcome (env : Env) (id : Uuid) (actor : Actor)
    (decide : ScanPolicyReplay → AppResult PolicyIntent) (db : PolicyDb)
    (l : list PolicyStreamEvent) (state : ScanPolicyReplay) (healed : bool)
    : PolicyDb * AppResult (ConflictCycleOutcome HealedMutation) → Prop :=
  | CO_rejected e :
      not_contention e → refused decide e →
      cycle_outcome env id actor decide db l state healed (db, Err e)
  | CO_retry :
      stream_version (replay_policy state) ≠ len l - 1 →
      cycle_outcome env id actor decide db l state healed (db, Ok CC_Retry)
  | CO_satisfied :
      decide state = Ok PI_Satisfied →
      cycle_outcome env id actor decide db l state healed
        (db, Ok (CC_Satisfied {| hm_projection := replay_policy state; hm_events := [];
                                 hm_appended := false; hm_healed := healed |}))
  | CO_appended db' hm :
      mutation_outcome env id actor decide db l (db', Ok hm) → hm_appended hm = true →
      cycle_outcome env id actor decide db l state healed (db', Ok (CC_Satisfied hm)).

Lemma run_decided env id actor decide db l state healed :
  fault_free env → inv db → streams db !! id = Some l → coherent db id (replay_policy state) →
  sound_decision id actor decide → plain_decision decide →
  cycle_outcome env id actor decide db l state healed (run (decided_cycle env id actor decide state healed) db).
Proof.
  intros Hf Hi Hl Hc Hsound Hplain. specialize (Hplain state). unfold decided_cycle.
  rewrite run_bind. cbn [run].
  destruct (decide state) as [[|events]|e] eqn:Hd;
    [by constructor | | constructor; [done | left; by exists state]].
  rewrite run_bind, run_append by done. unfold append_batch.
  assert (policy_events db id = l) as -> by (unfold policy_events; by rewrite Hl).
  pose proof (validate_and_serialize_invalid events Hplain) as Hv.
  destruct (validate_and_serialize events) as [[]|[]] eqn:Hval; try done.
  2: { constructor; [done|]. right. by eexists state, events, _. }
  destruct (check_expected_version _ _ l) as [[]|e] eqn:Hcheck.
  - apply check_exact_Ok in Hcheck.
    destruct (Hsound state events) as (state' & Ha); [apply Hc | done |].
    rewrite (apply_policy_batch_applies id actor events state state') by done.
    eapply CO_appended; [| done]. eapply MO_appended; [| done | done].
    by apply (coherent_current db id).
  - unfold check_expected_version in Hcheck. case_match eqn:Hne; [| done].
    simplify_eq. constructor. intros Hv'. rewrite Hv', Z.eqb_refl in Hne. done.
Qed.

Lemma run_rebase env id db l r :
  fault_free env → streams db !! id = Some l → fold_scan_policy l = Ok r →
  run (rebase_policy_from_stream env id) db = (db, Ok r).
Proof.
  intros Hf Hl Hr. unfold rebase_policy_from_stream.
  rewrite (no_read_fault _ Hf), run_bind, run_ask. unfold policy_events. rewrite Hl. cbn.
  by rewrite Hr.
Qed.

Lemma stream_ok_coherent db id l r :
  inv db → streams db !! id = Some l → fold_scan_policy l = Ok r →
  coherent db id (replay_policy r) ∧ stream_version (replay_policy r) = len l - 1.
Proof.
  intros Hi Hl Hr. destruct (inv_streams _ Hi id l Hl) as (_ & r' & Hr' & Hwf & Hv).
  assert (r' = r) as -> by congruence. split; [| done]. split; [done|].
  exists l, l. split_and!; [done | done |]. by exists r.
Qed.

Lemma run_mutation env id base actor decide db l events :
  fault_free env → inv db → streams db !! id = Some l → coherent db id (replay_policy base) →
  sound_decision id actor decide → plain_decision decide → decide base = Ok (PI_Append events) →
  mutation_outcome env id actor decide db l (run (mutate_policy_stream env id base actor decide) db).
Proof.
  intros Hf Hi Hl Hc Hsound Hplain Hd.
  unfold mutate_policy_stream, append_with_conflict_retry.
  change (Z.to_nat POLICY_APPEND_ATTEMPTS) with 2%nat. cbn [retry_loop].
  rewrite run_bind. unfold mutation_cycle at 1. change (1 <? 1) with false. cbv iota.
  rewrite run_bind. cbn [run mret prog_ret].
  pose proof (run_decided env id actor decide db l base false Hf Hi Hl Hc Hsound Hplain) as H1st.
  inversion H1st as [e He Href Heq | Hv Heq | Hs Heq | db' hm Hm Ha Heq];
    [by constructor | | congruence | done].
  rewrite run_bind. unfold mutation_cycle at 1. change (1 <? 1 + 1) with true. cbv iota.
  destruct (inv_streams _ Hi id l Hl) as (_ & r & Hr & _).
  rewrite run_bind, (run_rebase env id db l r) by done.
  destruct (stream_ok_coherent db id l r Hi Hl Hr) as [Hcr Hvr].
  pose proof (run_decided env id actor decide db l r true Hf Hi Hl Hcr Hsound Hplain) as H2nd.
  inversion H2nd as [e He Href Heq2 | Hv2 Heq2 | Hs Heq2 | db' hm Hm Ha Heq2];
    [by constructor | done | by constructor | done].
Qed.

(** ** From the mutation to the row *)

Lemma run_write_projection env p db :
  fault_free env → run (write_projection env p) db =
  if admits (rows db) p then (upsert_projection p db, Ok ())
  else (db, Err (AE_Domain (Invariant (Lit "policy_projections upsert: " :: constraint_error env)))).
Proof.
  intros Hf. unfold write_projection. rewrite run_bind. cbn. rewrite (no_upsert_fault _ Hf).
  by destruct (admits (rows db) p).
Qed.

#[local] Instance admits_proper m : Proper ((≡) ==> (=)) (admits m).
Proof. intros p q ->%equiv_is_stamp. done. Qed.

(** The abstract policy before and after, and the rows after. *)
Definition refines (c : Command) (actor : Actor) (db db' : PolicyDb) : Prop :=
  caught_up db' (target c) ∧
  exclusion_rows db' = spec_exclusions c actor (exclusion_rows db) ∧
  ∃ p', authority db' (target c) = Some p' ∧
  match c with
  | C_Create cmd id => p' ≡ new_projection cmd id 0
  | _ => ∃ p, authority db (target c) = Some p ∧ p' ≡ spec_command c p
  end.

Lemma refines_intro c actor db db' :
  (∀ cmd id, c ≠ C_Create cmd id) →
  exclusion_rows db' = spec_exclusions c actor (exclusion_rows db) →
  (∃ p p', authority db (target c) = Some p ∧ authority db' (target c) = Some p' ∧
           p' ≡ spec_command c p ∧ caught_up db' (target c)) →
  refines c actor db db'.
Proof.
  intros Hc Hx (p & p' & Hp & Hp' & Hs & Hup). split; [done|]. split; [done|]. exists p'. split; [done|].
  destruct c as [cmd id| | | | |]; [by destruct (Hc cmd id) | by exists p..].
Qed.

Lemma authority_folds db id l p :
  streams db !! id = Some l → folds_to l p → ∃ q, authority db id = Some q ∧ q ≡ p.
Proof.
  intros Hl (r & Hr & Heq & _). exists (replay_policy r). split; [| done].
  unfold authority, policy_events. rewrite Hl. cbn. by rewrite Hr.
Qed.

Lemma policy_events_Some db id l : streams db !! id = Some l → policy_events db id = l.
Proof. unfold policy_events. by intros ->. Qed.

#[local] Instance spec_command_proper c : Proper ((≡) ==> (≡)) (spec_command c).
Proof. intros p q ->%equiv_is_stamp. by destruct c, p. Qed.

(** What a decision asks for is what the command specifies. *)
Definition implements (c : Command) (actor : Actor)
    (decide : ScanPolicyReplay → AppResult PolicyIntent) : Prop :=
  ∀ state, well_formed (target c) (replay_policy state) →
    match decide state with
    | Ok PI_Satisfied => spec_command c (replay_policy state) ≡ replay_policy state
    | Ok (PI_Append events) =>
        ∀ state', applies (target c) actor events state state' →
        replay_policy state' ≡ spec_command c (replay_policy state)
    | Err _ => True
    end.

(** The stream took the command, but the table does not admit the row. *)
Definition unadmitted (c : Command) (actor : Actor) (db db' : PolicyDb) : Prop :=
  rows db' = rows db ∧ re_evaluations db' = re_evaluations db ∧
  exclusion_rows db' = spec_exclusions c actor (exclusion_rows db) ∧
  ∃ p p', authority db (target c) = Some p ∧ authority db' (target c) = Some p' ∧
          p' ≡ spec_command c p ∧ admits (rows db) p' = false.

(** What a mutation leaves in the stream is the command, applied. *)
Lemma outcome_authority env c actor decide db l db1 hm db2 :
  inv db → streams db !! target c = Some l → sound_decision (target c) actor decide →
  implements c actor decide →
  mutation_outcome env (target c) actor decide db l (db1, Ok hm) → streams db2 = streams db1 →
  ∃ p p', authority db (target c) = Some p ∧ authority db2 (target c) = Some p' ∧
          p' ≡ spec_command c p ∧ hm_projection hm ≡ p' ∧
          stream_version (hm_projection hm) = len (policy_events db2 (target c)) - 1.
Proof.
  intros Hi Hl Hsound Himp Hm Hs.
  destruct (inv_streams _ Hi _ l Hl) as (_ & r0 & Hr0 & Hwf0 & Hv0).
  inversion Hm as [| r Hr Hd Heq1 | state state' events healed c0 u Hto Hd Ha s Heq1]; subst.
  - assert (r0 = r) as -> by congruence. cbn [hm_projection] in *.
    specialize (Himp r Hwf0). rewrite Hd in Himp.
    assert (∀ db', streams db' = streams db1 → authority db' (target c) = Some (replay_policy r)) as Hau.
    { intros db' Hs'. unfold authority. rewrite (policy_events_Some db' _ l) by congruence.
      by rewrite Hr. }
    exists (replay_policy r), (replay_policy r).
    split_and!; [by apply Hau.. | by rewrite Himp | done |].
    by rewrite (policy_events_Some db2 _ l) by congruence.
  - cbn [hm_projection] in *.
    destruct (authority_folds db (target c) l _ Hl Hto) as (p & Hp & Hpeq).
    assert (well_formed (target c) (replay_policy state)) as Hwf.
    { destruct Hto as (r & Hr & Hreq & _). assert (r0 = r) as -> by congruence.
      destruct Hwf0. split; [by rewrite <- (policy_id_proper _ _ Hreq)
                            | by rewrite <- (projection_wf_proper _ _ Hreq)]. }
    specialize (Himp state Hwf). rewrite Hd in Himp. specialize (Himp state' Ha).
    destruct (stream_ok_extend (target c) l events actor (stored_at_now env) state state'
      (replay_policy state)) as [_ Hto']; [by apply Hi | done.. |].
    assert (streams db2 !! target c = Some s) as Hs2 by (rewrite Hs; apply lookup_insert_eq).
    destruct (authority_folds db2 (target c) s (stamp (len s - 1) c0 u (replay_policy state')))
      as (p' & Hp' & Hpeq'); [done | by apply Hto' |].
    exists p, p'. split_and!; [done | done | | by symmetry |].
    + rewrite Hpeq', equiv_stamp, Himp. apply spec_command_proper. by symmetry.
    + by rewrite (policy_events_Some db2 _ s).
Qed.

Lemma outcome_keeps_tables env id actor decide db l db1 r :
  mutation_outcome env id actor decide db l (db1, r) →
  rows db1 = rows db ∧ exclusion_rows db1 = exclusion_rows db ∧ re_evaluations db1 = re_evaluations db.
Proof. by inversion 1. Qed.

Lemma upsert_projection_lookup p db :
  ∃ q, rows (upsert_projection p db) !! policy_id p = Some q ∧ q ≡ p ∧
       stream_version q = stream_version p.
Proof.
  unfold upsert_projection. cbn. rewrite lookup_insert_eq. eexists. split; [done|].
  by destruct (rows db !! policy_id p).
Qed.

(** ** The decisions implement their commands *)

Lemma applies_one_inv id actor e state state' :
  applies id actor [e] state state' → apply_policy_event e actor state = (state', Ok ()).
Proof.
  intros [He _]. cbn [for_each] in He. cbv [mbind mut_bind] in He.
  destruct (apply_policy_event e actor state) as [s' [[]|]]; [| done].
  cbv in He. by injection He as ->.
Qed.

(** The policy after one event that is not an update. *)
Ltac one_event :=
  let state' := fresh "state'" in let Ha := fresh "Ha" in
  intros state' Ha%applies_one_inv; revert Ha;
  unfold apply_policy_event, require_same_policy; cbv [mbind mut_bind self lift];
  cbn [ea_policy_id er_policy_id];
  match goal with Hid : policy_id _ = _ |- _ => rewrite Hid, Z.eqb_refl end;
  intros [= <-]; done.

Lemma archived_same p : archived p = true → p {{ archived := true }} = p.
Proof. destruct p. cbn. by intros ->. Qed.

Lemma reactivated_same p : archived p = false → p {{ archived := false }} = p.
Proof. destruct p. cbn. by intros ->. Qed.

Lemma archive_implements id actor : implements (C_Archive id) actor (decide_archive id).
Proof.
  intros state [Hid Hwf]. cbn in Hid. unfold decide_archive.
  destruct (archived (replay_policy state)) eqn:Ha; [| one_event].
  unfold spec_command. by rewrite archived_same.
Qed.

Lemma reactivate_implements id actor : implements (C_Reactivate id) actor (decide_reactivate id).
Proof.
  intros state [Hid Hwf]. cbn in Hid. unfold decide_reactivate.
  destruct (archived (replay_policy state)) eqn:Ha; [one_event |].
  unfold spec_command. by rewrite reactivated_same.
Qed.

Lemma add_implements cmd id actor added :
  ea_policy_id added = ax_policy_id cmd →
  implements (C_AddExclusion cmd id) actor (decide_add_exclusion added).
Proof.
  intros He state [Hid Hwf]. cbn in Hid. unfold decide_add_exclusion.
  destruct (archived (replay_policy state)); [done|]. rewrite <- He in Hid. one_event.
Qed.

Lemma remove_implements cmd actor removed :
  er_policy_id removed = rx_policy_id cmd →
  implements (C_RemoveExclusion cmd) actor (decide_remove_exclusion removed).
Proof.
  intros He state [Hid Hwf]. cbn in Hid. unfold decide_remove_exclusion.
  destruct (archived (replay_policy state)); [done|]. rewrite <- He in Hid.
  destruct (existsb _ _); [one_event | done].
Qed.

Lemma configure_desired cmd p : configure (desired_projection cmd p) p = desired_projection cmd p.
Proof. by destruct p. Qed.

Lemma update_implements cmd actor :
  command_wf (C_Update cmd) → implements (C_Update cmd) actor (decide_update cmd).
Proof.
  intros Hcmd state [Hid Hwf]. cbn in Hid. unfold decide_update.
  destruct (archived (replay_policy state)); [done|].
  pose proof (desired_projection_wf cmd _ Hcmd Hwf) as Hwf'.
  destruct (diff_policy_fields _ _ _) as [|u us] eqn:Hd.
  - apply diff_policy_fields_nil in Hd; [| done..].
    rewrite configure_desired in Hd. unfold spec_command. by rewrite Hd.
  - intros state' [Ha _]. rewrite <- Hd, <- Hid in Ha.
    rewrite apply_diff in Ha by done. injection Ha as <-. by rewrite configure_desired.
Qed.

Lemma archive_plain id : plain_decision (decide_archive id).
Proof.
  intros state. unfold decide_archive. destruct (archived _); [done | by apply Forall_singleton].
Qed.

Lemma reactivate_plain id : plain_decision (decide_reactivate id).
Proof.
  intros state. unfold decide_reactivate. destruct (archived _); [by apply Forall_singleton | done].
Qed.

Lemma add_plain added : plain_decision (decide_add_exclusion added).
Proof.
  intros state. unfold decide_add_exclusion.
  destruct (archived _); [done | by apply Forall_singleton].
Qed.

Lemma remove_plain removed : plain_decision (decide_remove_exclusion removed).
Proof.
  intros state. unfold decide_remove_exclusion.
  destruct (archived _); [done|]. destruct (existsb _ _); [by apply Forall_singleton | done].
Qed.

Lemma update_plain cmd : plain_decision (decide_update cmd).
Proof.
  intros state. unfold decide_update. destruct (archived _); [done|].
  destruct (diff_policy_fields _ _ _); [done|]. apply Forall_fmap, Forall_true. done.
Qed.

(** ** The handlers *)

(** A run that succeeded did what its command specifies; one that failed was refused
    for the command's own sake and changed nothing, or the table refused its row. *)
Definition settles {A} (c : Command) (actor : Actor) (db : PolicyDb) (o : PolicyDb * AppResult A)
    : Prop :=
  match o.2 with
  | Ok _ => refines c actor db o.1
  | Err e => not_contention e ∧ (o.1 = db ∨ unadmitted c actor db o.1)
  end.

Ltac refused := solve [cbn; split; [done | by left]].

(** The writes behind a mutation leave its projection in the row, if the table
    admits it. *)
Definition leaves_row {A} (id : Uuid) (p : ScanPolicyProjection)
    (F : gmap Uuid ExclusionProjection → gmap Uuid ExclusionProjection) (k : handler A) : Prop :=
  ∀ db1, is_Some (rows db1 !! id) →
    let '(db2, r) := run k db1 in
    streams db2 = streams db1 ∧ exclusion_rows db2 = F (exclusion_rows db1) ∧
    match r with
    | Ok _ => ∃ q, rows db2 !! id = Some q ∧ q ≡ p ∧ stream_version q = stream_version p
    | Err e => not_contention e ∧ rows db2 = rows db1 ∧ re_evaluations db2 = re_evaluations db1 ∧
               admits (rows db1) p = false
    end.

Lemma settles_mutation {A} env c actor decide db base events (k : HealedMutation → handler A) :
  fault_free env → inv db → (∀ cmd id, c ≠ C_Create cmd id) →
  coherent db (target c) (replay_policy base) → is_Some (rows db !! target c) →
  sound_decision (target c) actor decide → plain_decision decide → implements c actor decide →
  decide base = Ok (PI_Append events) →
  (∀ hm, policy_id (hm_projection hm) = target c →
     leaves_row (target c) (hm_projection hm) (spec_exclusions c actor) (k hm)) →
  settles c actor db (run (mutate_policy_stream env (target c) base actor decide ≫= k) db).
Proof.
  intros Hf Hi Hnew Hc Hrow Hsound Hplain Himp Hd Hk. rewrite run_bind.
  assert (∃ l, streams db !! target c = Some l) as [l Hl] by (destruct Hc as (_ & _ & l & ? & _); by exists l).
  pose proof (run_mutation env (target c) base actor decide db l events Hf Hi Hl Hc Hsound Hplain Hd)
    as Hm.
  destruct (run (mutate_policy_stream _ _ _ _ _) db) as [db1 [hm|e]];
    [| inversion Hm; subst; split; [done | by left]].
  assert (policy_id (hm_projection hm) = target c) as Hid.
  { inversion Hm as [| r Hr | state state' ? ? ? ? ? ? Ha]; subst; cbn.
    - by destruct (stream_ok_coherent _ _ l r Hi Hl Hr) as [[[? ?] _] _].
    - by destruct Ha as [_ [? ?]]. }
  destruct (outcome_keeps_tables _ _ _ _ _ _ _ _ Hm) as (Hr1 & Hx1 & Hj1).
  specialize (Hk hm Hid db1). rewrite Hr1 in Hk. specialize (Hk Hrow).
  destruct (run (k hm) db1) as [db2 r]. destruct Hk as (Hs & Hx & Hout). rewrite Hx1 in Hx.
  destruct (outcome_authority _ _ _ _ _ _ _ _ _ Hi Hl Hsound Himp Hm Hs)
    as (p & p' & Hp & Hp' & Hspec & Heq & Hv).
  destruct r as [a|e]; cbn.
  - destruct Hout as (q & Hq & Hqeq & Hqv). apply refines_intro; [done | done |].
    exists p, p'. split_and!; [done.. |]. exists p', q. split_and!; [done | done | by rewrite Hqeq |].
    by rewrite Hqv.
  - destruct Hout as (He & Hr2 & Hj & Hadm). split; [done | right]. split_and!; [done | congruence | done |].
    exists p, p'. split_and!; [done.. |]. by rewrite <- Heq.
Qed.

Lemma leaves_row_write {A} env p (k : handler A) :
  fault_free env →
  (∀ db, ∃ db' a, run k db = (db', Ok a) ∧ streams db' = streams db ∧ rows db' = rows db ∧
                  exclusion_rows db' = exclusion_rows db) →
  leaves_row (policy_id p) p (λ m, m) (write_projection env p ≫= λ _, k).
Proof.
  intros Hf Hk db1 _. rewrite run_bind, run_write_projection by done.
  destruct (admits (rows db1) p) eqn:Hadm; [| done].
  destruct (Hk (upsert_projection p db1)) as (db2 & a & -> & Hs & Hr & Hx).
  destruct (upsert_projection_lookup p db1) as (q & Hq & Heq & Hv).
  split_and!; [by rewrite Hs | by rewrite Hx |]. exists q. by rewrite Hr.
Qed.

Lemma leaves_row_last env p :
  fault_free env → leaves_row (policy_id p) p (λ m, m) (write_projection env p).
Proof.
  intros Hf db1 _. rewrite run_write_projection by done.
  destruct (admits (rows db1) p) eqn:Hadm; [| done].
  split_and!; [done | done | apply upsert_projection_lookup].
Qed.

(** A write of another table first. *)
Lemma leaves_row_after {A B} id p F (k0 : handler B) (k : handler A) :
  (∀ db, is_Some (rows db !! id) →
     ∃ db' b, run k0 db = (db', Ok b) ∧ streams db' = streams db ∧ rows db' = rows db ∧
              exclusion_rows db' = F (exclusion_rows db) ∧ re_evaluations db' = re_evaluations db) →
  leaves_row id p (λ m, m) k → leaves_row id p F (k0 ≫= λ _, k).
Proof.
  intros Hfirst Hk db1 Hrow. destruct (Hfirst db1 Hrow) as (db2 & b & Hrun & Hs & Hr & Hx & Hj).
  rewrite run_bind, Hrun. rewrite <- Hr in Hrow. specialize (Hk db2 Hrow).
  destruct (run k db2) as [db3 r]. by rewrite Hs, Hx, Hr, Hj in Hk.
Qed.

Lemma run_enqueue env id trigger db :
  ∃ db' a, run (enqueue_re_evaluation env id trigger) db = (db', Ok a) ∧
           streams db' = streams db ∧ rows db' = rows db ∧ exclusion_rows db' = exclusion_rows db.
Proof.
  unfold enqueue_re_evaluation. rewrite run_bind. cbn.
  destruct (enqueue_fails env); eexists _, (); (split; [done|]); done.
Qed.

Lemma settles_archive env id actor db :
  fault_free env → inv db → settles (C_Archive id) actor db (run (archive_policy env id actor) db).
Proof.
  intros Hf Hi. unfold archive_policy, find_by_id. rewrite (no_find_fault _ Hf), run_bind, run_ask.
  rewrite run_bind. destruct (rows db !! id) as [p|] eqn:Hp; [| refused]. cbn [ok_or run].
  destruct (archived p) eqn:Ha; [refused|].
  eapply (settles_mutation env (C_Archive id)); try done.
  - by apply Hi.
  - apply sound_archive.
  - apply archive_plain.
  - apply archive_implements.
  - unfold decide_archive. cbn. by rewrite Ha.
  - intros hm <-. by apply leaves_row_last.
Qed.

Lemma settles_reactivate env id actor db :
  fault_free env → inv db → settles (C_Reactivate id) actor db (run (reactivate_policy env id actor) db).
Proof.
  intros Hf Hi. unfold reactivate_policy, find_by_id.
  rewrite (no_find_fault _ Hf), run_bind, run_ask, run_bind.
  destruct (rows db !! id) as [p|] eqn:Hp; [| refused]. cbn [ok_or run].
  destruct (archived p) eqn:Ha; [| refused].
  eapply (settles_mutation env (C_Reactivate id)); try done.
  - by apply Hi.
  - apply sound_reactivate.
  - apply reactivate_plain.
  - apply reactivate_implements.
  - unfold decide_reactivate. cbn. by rewrite Ha.
  - intros hm <-. apply leaves_row_write; [done|]. apply run_enqueue.
Qed.

Lemma settles_add env cmd id actor db :
  fault_free env → inv db →
  settles (C_AddExclusion cmd id) actor db (run (add_exclusion env cmd id actor) db).
Proof.
  intros Hf Hi. unfold add_exclusion, find_by_id. destruct (ax_scope cmd); [| refused].
  rewrite (no_find_fault _ Hf), run_bind, run_ask.
  destruct (rows db !! ax_policy_id cmd) as [p|] eqn:Hp; [| refused].
  destruct (archived p) eqn:Ha; [refused|]. set (added := new_exclusion_event cmd id).
  eapply (settles_mutation env (C_AddExclusion cmd id)); try done.
  - by apply Hi.
  - apply (sound_add_exclusion actor added).
  - apply add_plain.
  - by apply add_implements.
  - unfold decide_add_exclusion. cbn. by rewrite Ha.
  - intros hm Hid. apply leaves_row_after.
    + intros db1 [row Hrow]. unfold upsert_exclusion. rewrite run_bind. cbn.
      rewrite (no_exclusion_fault _ Hf). cbn in Hrow. rewrite Hrow. by eexists _, _.
    + rewrite <- Hid. apply leaves_row_write; [done|]. intros db1. rewrite run_bind.
      destruct (run_enqueue env (ax_policy_id cmd) (RT_ExclusionAdded id) db1)
        as (db2 & [] & -> & Hs & Hr & Hx). by exists db2, id.
Qed.

Lemma settles_remove env cmd actor db :
  fault_free env → inv db →
  settles (C_RemoveExclusion cmd) actor db (run (remove_exclusion env cmd actor) db).
Proof.
  intros Hf Hi. unfold remove_exclusion, find_by_id, list_exclusions_for_policy.
  rewrite (no_find_fault _ Hf), run_bind, run_ask.
  destruct (rows db !! rx_policy_id cmd) as [p|] eqn:Hp; [| refused].
  destruct (archived p) eqn:Ha; [refused|]. rewrite run_bind, run_ask.
  set (xs := filter _ _). destruct (List.find _ xs) as [x|] eqn:Hx; [| refused].
  destruct (negb _); [refused|]. set (removed := {| er_policy_id := _ |}).
  eapply (settles_mutation env (C_RemoveExclusion cmd)); try done.
  - by apply Hi.
  - apply (sound_remove_exclusion actor removed).
  - apply remove_plain.
  - by apply remove_implements.
  - unfold decide_remove_exclusion. cbn. rewrite Ha.
    apply List.find_some in Hx as [Hin Hx].
    by rewrite (proj2 (List.existsb_exists _ _) (ex_intro _ x (conj Hin Hx))).
  - intros hm <-. apply leaves_row_after.
    + intros db1 _. unfold delete_exclusion. rewrite (no_exclusion_fault _ Hf), run_ask. by eexists _, _.
    + apply leaves_row_write; [done|]. apply run_enqueue.
Qed.

(** An update whose row already says what it asks for returns at once; that is
    right when the row is up to date. *)
Definition no_stale_shortcut (c : Command) (db : PolicyDb) : Prop :=
  ∀ cmd row, c = C_Update cmd → rows db !! target c = Some row →
    diff_policy_fields (target c) row (desired_projection cmd row) = [] → caught_up db (target c).

Lemma refines_shortcut cmd actor db row :
  command_wf (C_Update cmd) → inv db → rows db !! up_policy_id cmd = Some row →
  diff_policy_fields (up_policy_id cmd) row (desired_projection cmd row) = [] →
  caught_up db (up_policy_id cmd) → refines (C_Update cmd) actor db db.
Proof.
  intros Hcmd Hi Hrow Hd Hup. apply refines_intro; [done | done |]. cbn [target].
  destruct Hup as (p & q & Hp & Hq & Heq & Hv). assert (q = row) as -> by congruence.
  destruct (inv_rows _ Hi _ row Hrow) as [[_ Hwf] _].
  apply diff_policy_fields_nil in Hd; [| done | by apply desired_projection_wf].
  rewrite configure_desired in Hd.
  exists p, p. split_and!; [done | done | | by exists p, row].
  transitivity row; [done|]. transitivity (spec_command (C_Update cmd) row).
  - unfold spec_command. by rewrite Hd.
  - by apply spec_command_proper.
Qed.

Lemma settles_update env cmd actor db :
  fault_free env → command_wf (C_Update cmd) → inv db → no_stale_shortcut (C_Update cmd) db →
  settles (C_Update cmd) actor db (run (update_policy env cmd actor) db).
Proof.
  intros Hf Hcmd Hi Hshort. unfold update_policy, find_by_id.
  rewrite (no_find_fault _ Hf), run_bind, run_ask, run_bind.
  destruct (rows db !! up_policy_id cmd) as [p|] eqn:Hp; [| refused]. cbn [ok_or run].
  destruct (archived p) eqn:Ha; [refused|]. rewrite run_bind. cbn [run].
  destruct (decide_update cmd _) as [[|events]|e] eqn:Hd.
  - unfold decide_update in Hd. cbn [replay_policy] in Hd. rewrite Ha in Hd.
    destruct (diff_policy_fields _ _ _) eqn:Hdiff; [| done].
    cbn. eapply refines_shortcut; try done. by eapply Hshort.
  - eapply (settles_mutation env (C_Update cmd)); try done.
    + by apply Hi.
    + by apply sound_update.
    + apply update_plain.
    + by apply update_implements.
    + intros hm <-. apply leaves_row_write; [done|]. intros db1.
      set (owed := if hm_appended hm then _ else _).
      destruct owed; [apply run_enqueue | by exists db1, ()].
  - unfold decide_update in Hd. cbn [replay_policy] in Hd. rewrite Ha in Hd. by case_match.
Qed.

Lemma settles_create env cmd id actor db db' r :
  fault_free env → command_wf (C_Create cmd id) →
  run (create_policy env cmd id actor) db = (db', Ok r) →
  refines (C_Create cmd id) actor db db'.
Proof.
  intros Hf Hcmd. unfold create_policy, find_by_name. rewrite (no_find_fault _ Hf), run_bind, run_ask.
  destruct (head _); [done|]. rewrite run_bind, run_append by done. unfold append_batch.
  set (p := new_projection cmd id (utc_now env)).
  destruct (stream_ok_created p actor (stored_at_now env)) as [_ Hto]; [exact Hcmd | done |].
  destruct (validate_and_serialize _) as [[]|]; [| done].
  destruct (check_expected_version _ _ _) as [[]|] eqn:Hc; [| done].
  apply check_no_stream_Ok in Hc. rewrite Hc. cbn [app].
  set (s := persist _ _ _ _). change (len s - 1) with 0. cbn [lift_domain map_err].
  rewrite run_bind. cbn [run]. rewrite run_bind. unfold upsert. cbn [run port].
  rewrite (no_upsert_fault _ Hf). destruct (admits _ _); [| done].
  intros [= <- _]. set (q := p {{ stream_version := 0 }}).
  set (db1 := db {{ streams ::= <[id := s]> }}).
  destruct (upsert_projection_lookup q db1) as (q' & Hq' & Heq & Hv).
  assert (streams (upsert_projection q db1) !! id = Some s) as Hs by apply lookup_insert_eq.
  destruct (authority_folds (upsert_projection q db1) id s q) as (a & Ha & Haq);
    [done | by apply Hto |].
  split; [| split; [done|]].
  - exists a, q'. split_and!; [done | done | by rewrite Heq, Haq |].
    by rewrite (policy_events_Some _ id s), Hv.
  - exists a. split; [done|]. rewrite Haq. done.
Qed.

Lemma settles_bind_ret {A} c actor db (k : handler A) :
  settles c actor db (run k db) → settles c actor db (run (k ≫= λ _, mret ()) db).
Proof. rewrite run_bind. by destruct (run k db) as [db' [a|e]]. Qed.

Lemma settles_handle env actor c db :
  fault_free env → command_wf c → inv db → (∀ cmd id, c ≠ C_Create cmd id) →
  no_stale_shortcut c db → settles c actor db (run (handle env actor c) db).
Proof.
  intros Hf Hcmd Hi Hnew Hshort. destruct c as [cmd id|cmd|id|id|cmd id|cmd]; cbn [handle].
  - by destruct (Hnew cmd id).
  - by apply settles_update.
  - by apply settles_archive.
  - by apply settles_reactivate.
  - by apply settles_bind_ret, settles_add.
  - by apply settles_remove.
Qed.

(** The row already says what the update asks for. *)
Definition answered_by_row (c : Command) (db : PolicyDb) : Prop :=
  ∃ cmd row, c = C_Update cmd ∧ rows db !! target c = Some row ∧
    diff_policy_fields (target c) row (desired_projection cmd row) = [].

Lemma run_answered env cmd actor db db' :
  fault_free env → answered_by_row (C_Update cmd) db →
  run (update_policy env cmd actor) db = (db', Ok ()) → db' = db.
Proof.
  intros Hf (cmd' & row & [= <-] & Hrow & Hdiff). cbn [target] in *. unfold update_policy, find_by_id.
  rewrite (no_find_fault _ Hf), run_bind, run_ask, run_bind, Hrow. cbn [ok_or run].
  destruct (archived row) eqn:Ha; [done|]. rewrite run_bind. cbn [run].
  unfold decide_update. cbn [replay_policy]. rewrite Ha, Hdiff. cbn. by intros [= <-].
Qed.

(** C24. A policy command that runs alone and whose ports work implements the
    command on the abstract policy, from every state that interleaved and failing
    handlers can leave, with one exception.  When it succeeds, what the stream folds to is
    the command applied to what it folded to before; the row agrees with the stream again,
    however far behind it was; and the exclusion rows changed by exactly the
    exclusion added or removed.  The exception is an update that asks for what its row
    already says while the row is behind its stream: it succeeds and changes nothing.
    (See [reverted_update_comes_back].) *)
Theorem commands_refine_the_policy (env : Env) (actor : Actor) (c : Command) (db db' : PolicyDb) :
  reachable db → fault_free env → command_wf c →
  run (handle env actor c) db = (db', Ok ()) →
  (caught_up db (target c) ∨ ¬ answered_by_row c db → refines c actor db db') ∧
  (answered_by_row c db → db' = db).
Proof.
  intros Hreach%reachable_inv Hf Hcmd Hrun. split.
  - intros Hor. assert (no_stale_shortcut c db) as Hshort.
    { intros cmd row -> Hrow Hdiff. destruct Hor as [? | Hno]; [done|]. destruct Hno. by exists cmd, row. }
    destruct c as [cmd id| | | | |];
      [| pose proof (settles_handle env actor _ db Hf Hcmd Hreach ltac:(done) Hshort) as Hs;
         by rewrite Hrun in Hs ..].
    cbn [handle] in Hrun. rewrite run_bind in Hrun.
    destruct (run (create_policy env cmd id actor) db) as [db1 [r|]] eqn:Hc; [| done].
    injection Hrun as <-. by eapply settles_create.
  - intros Hans. destruct (Hans) as (cmd & row & -> & _). by eapply run_answered.
Qed.

(** ** Refusals *)

(** A policy command that runs alone, whose ports work and that is refused has
    changed nothing at all, neither stream nor row nor job; or its row is one the
    table does not admit (a name or an active scope already taken), and then it is
    recorded in the stream, and in no row.  It never fails with a conflict or with
    contention, however far its row is behind the stream: the second attempt stands
    on the stream itself, so two attempts are enough. *)
Theorem refused_commands_change_nothing (env : Env) (actor : Actor) (c : Command)
    (db db' : PolicyDb) (e : AppError) :
  reachable db → fault_free env → command_wf c → (∀ cmd id, c ≠ C_Create cmd id) →
  run (handle env actor c) db = (db', Err e) →
  not_contention e ∧ (db' = db ∨ unadmitted c actor db db').
Proof.
  intros Hi%reachable_inv Hf Hcmd Hnew Hrun.
  assert (no_stale_shortcut c db ∨ ∀ cmd, c = C_Update cmd → not_contention e ∧ db' = db) as [Hs | Hu].
  { destruct c as [|cmd| | | |]; try (left; done).
    destruct (rows db !! up_policy_id cmd) as [row|] eqn:Hrow.
    2: { left. intros cmd' row [= <-] Hrow'. cbn [target] in Hrow'. by rewrite Hrow in Hrow'. }
    destruct (diff_policy_fields (up_policy_id cmd) row (desired_projection cmd row)) eqn:Hd.
    2: { left. intros cmd' row' [= <-] Hrow' Hd'. cbn [target] in Hrow', Hd'.
         rewrite Hrow in Hrow'. injection Hrow' as <-. by rewrite Hd in Hd'. }
    right. intros cmd' [= <-]. revert Hrun. cbn [handle]. unfold update_policy, find_by_id.
    rewrite (no_find_fault _ Hf), run_bind, run_ask, run_bind, Hrow. cbn [ok_or run].
    destruct (archived row) eqn:Ha; [by intros [= <- <-] |].
    rewrite run_bind. unfold decide_update. cbn [replay_policy run]. by rewrite Ha, Hd. }
  - pose proof (settles_handle env actor c db Hf Hcmd Hi Hnew Hs) as Hset. by rewrite Hrun in Hset.
  - destruct c as [|cmd| | | |];
      try (destruct (Hu cmd eq_refl) as [? ->]; split; [done | by left]);
      pose proof (settles_handle env actor _ db Hf Hcmd Hi Hnew ltac:(done)) as Hset;
      by rewrite Hrun in Hset.
Qed.

(** *** Archiving always goes through *)

Definition toggle (id : Uuid) (to : bool) : Command :=
  if to then C_Archive id else C_Reactivate id.

Definition toggle_event (id : Uuid) (to : bool) : DomainEvent :=
  if to then DE_PolicyArchived id else DE_PolicyReactivated id.

Definition decide_toggle (id : Uuid) (to : bool) : ScanPolicyReplay → AppResult PolicyIntent :=
  if to then decide_archive id else decide_reactivate id.

Definition fits (e : DomainEvent) : Prop :=
  strlen (json_to_string (serialize_event_data e)) ≤ MAX_EVENT_JSON_BYTES.

Lemma toggle_not_refused id to e : fits (toggle_event id to) → ¬ refused (decide_toggle id to) e.
Proof.
  intros Hfit. assert (validate_and_serialize [toggle_event id to] = Ok ()) as Hval.
  { unfold validate_and_serialize. cbn [validate_all]. unfold fits in Hfit.
    destruct to; cbn [toggle_event DomainEvent_validate] in *; cbv [mbind result_bind];
      by rewrite (proj2 (Z.ltb_ge _ _) Hfit). }
  intros [[state Hd] | (state & events & err & Hd & Hv & _)];
    destruct to; unfold decide_toggle, decide_archive, decide_reactivate in Hd;
    destruct (archived _); cbn [negb] in Hd; try done;
    injection Hd as <-; cbn [toggle_event] in Hval; by rewrite Hval in Hv.
Qed.

Lemma toggle_implements id to actor : implements (toggle id to) actor (decide_toggle id to).
Proof. destruct to; [apply archive_implements | apply reactivate_implements]. Qed.

Lemma toggle_sound id to actor : sound_decision id actor (decide_toggle id to).
Proof. destruct to; [apply sound_archive | apply sound_reactivate]. Qed.

Lemma run_toggle env actor id to db row :
  fault_free env → inv db → rows db !! id = Some row → archived row = negb to →
  fits (toggle_event id to) →
  (∀ p, authority db id = Some p → admits (rows db) (spec_command (toggle id to) p) = true) →
  ∃ db', run (handle env actor (toggle id to)) db = (db', Ok ()).
Proof.
  intros Hf Hi Hrow Ha Hfit Hadm. pose proof (inv_rows _ Hi id row Hrow) as Hc.
  assert (∃ l, streams db !! id = Some l) as [l Hl] by (destruct Hc as (_ & _ & l & ? & _); by exists l).
  set (base := {| replay_policy := row; replay_exclusions := [] |}).
  assert (mutation_outcome env id actor (decide_toggle id to) db l
    (run (mutate_policy_stream env id base actor (decide_toggle id to)) db)) as Hm.
  { apply (run_mutation env id base actor _ db l [toggle_event id to]); try done.
    - apply toggle_sound.
    - destruct to; [apply archive_plain | apply reactivate_plain].
    - destruct to; unfold decide_toggle, decide_archive, decide_reactivate; cbn; by rewrite Ha. }
  destruct (run (mutate_policy_stream _ _ _ _ _) db) as [db1 [hm|e]] eqn:Hrun.
  2: { inversion Hm as [e' _ Href| |]; subst. by destruct (toggle_not_refused id to e). }
  assert (target (toggle id to) = id) as Ht by (by destruct to).
  assert (run (write_projection env (hm_projection hm)) db1 =
    (upsert_projection (hm_projection hm) db1, Ok ())) as Hwrite.
  { destruct (outcome_authority env (toggle id to) actor (decide_toggle id to) db l db1 hm db1)
      as (p & p' & Hp & _ & Hspec & Heq & _);
      rewrite ?Ht; try done; [apply toggle_sound | apply toggle_implements |].
    rewrite run_write_projection, (proj1 (outcome_keeps_tables _ _ _ _ _ _ _ _ Hm)) by done.
    rewrite (admits_proper _ _ _ Heq), (admits_proper _ _ _ Hspec).
    rewrite Ht in Hp. by rewrite Hadm. }
  destruct to; cbn [toggle handle]; unfold archive_policy, reactivate_policy, find_by_id;
    rewrite (no_find_fault _ Hf), run_bind, run_ask, run_bind, Hrow; cbn [ok_or run];
    rewrite Ha; cbn [negb]; rewrite run_bind; fold base; cbn [decide_toggle] in Hrun; rewrite Hrun.
  - rewrite Hwrite. by eexists.
  - rewrite run_bind, Hwrite.
    destruct (run_enqueue env id (RT_PolicyUpdated id) (upsert_projection (hm_projection hm) db1))
      as (db2 & [] & -> & _). by eexists.
Qed.

(** Archiving an active policy and reactivating an archived one always
    succeed when they run alone, their ports work and the table admits the result:
    from every reachable state, and however stale the row the request was checked
    against.  Afterwards the stream and the row both say so. *)
Theorem archiving_always_goes_through (env : Env) (actor : Actor) (id : Uuid) (to : bool)
    (db : PolicyDb) (row : ScanPolicyProjection) :
  reachable db → fault_free env → rows db !! id = Some row → archived row = negb to →
  fits (toggle_event id to) →
  (∀ p, authority db id = Some p → admits (rows db) (spec_command (toggle id to) p) = true) →
  ∃ db' p, run (handle env actor (toggle id to)) db = (db', Ok ()) ∧
           authority db' id = Some p ∧ archived p = to ∧ caught_up db' id.
Proof.
  intros Hreach%reachable_inv Hf Hrow Ha Hfit Hadm.
  destruct (run_toggle env actor id to db row Hf Hreach Hrow Ha Hfit Hadm) as [db' Hrun].
  pose proof (settles_handle env actor (toggle id to) db Hf) as Hs. rewrite Hrun in Hs.
  assert (refines (toggle id to) actor db db') as (Hup & _ & p' & Hp' & Hspec) by (destruct to; by apply Hs).
  assert (target (toggle id to) = id) as Ht by (by destruct to). rewrite Ht in Hup, Hp', Hspec.
  exists db', p'. split_and!; [done | done | | done].
  destruct to; destruct Hspec as (p & _ & Heq); by rewrite (archived_proper _ _ Heq).
Qed.

(** ** Creating under a name that an archived policy holds *)

Lemma same_name_clashes p q : p_name p = p_name q → clashes p q = true.
Proof. intros Hn. unfold clashes. by rewrite bool_decide_eq_true_2. Qed.

Lemma name_taken_not_admitted m rid row p :
  m !! rid = Some row → rid ≠ policy_id p → p_name row = p_name p → admits m p = false.
Proof.
  intros Hrow Hne Hn. apply not_true_iff_false. intros [_ Hall]%admits_spec.
  specialize (Hall rid row Hrow Hne). by rewrite same_name_clashes in Hall.
Qed.

(** The lookup by name passes over an archived row. *)
Lemma archived_name_not_found db rid row :
  inv db → rows db !! rid = Some row → archived row = true →
  head (filter (λ p, p_name p = p_name row ∧ archived p = false) ((map_to_list (rows db)).*2)) = None.
Proof.
  intros Hi Hrow Ha. destruct (head _) as [p|] eqn:Hp; [| done]. exfalso.
  apply head_Some_elem_of, list_elem_of_filter in Hp as [[Hn Hact] Hin].
  apply list_elem_of_fmap in Hin as ([id p'] & Heq & Hin). cbn in Heq. subst p'.
  apply elem_of_map_to_list in Hin.
  destruct (decide (id = rid)) as [-> | Hne]; [congruence|].
  pose proof (inv_unique _ Hi id rid p row Hin Hrow Hne) as Hc.
  by rewrite same_name_clashes in Hc.
Qed.

(** The append of a creation: refused, or a stream that has no row yet. *)
Lemma append_created env cmd id actor db :
  command_wf (C_Create cmd id) →
  let p := new_projection cmd id (utc_now env) in
  let batch := [DE_PolicyCreated (policy_created p)] in
  (∃ e, append_batch env id EV_NoStream batch actor db = (db, Err e)) ∨
  ∃ db1 q, append_batch env id EV_NoStream batch actor db = (db1, Ok 0) ∧ rows db1 = rows db ∧
           policy_events db id = [] ∧ authority db1 id = Some q ∧ q ≡ new_projection cmd id 0.
Proof.
  intros Hcmd p batch. unfold append_batch.
  destruct (stream_ok_created p actor (stored_at_now env)) as [_ Hto]; [exact Hcmd | done |].
  destruct (validate_and_serialize batch) as [[]|e]; [| left; by exists e].
  destruct (check_expected_version _ _ _) as [[]|e] eqn:Hc; [right | left; by exists e].
  apply check_no_stream_Ok in Hc. rewrite Hc. set (s := persist _ _ _ _).
  destruct (authority_folds (db {{ streams ::= <[id := s]> }}) id s (p {{ stream_version := 0 }}))
    as (q & Hq & Heq); [apply lookup_insert_eq | by apply Hto |].
  eexists _, q. split_and!; [done | done | done | exact Hq |]. by rewrite Heq.
Qed.

Lemma row_has_stream db id row : inv db → rows db !! id = Some row → policy_events db id ≠ [].
Proof.
  intros Hi Hrow. destruct (inv_rows _ Hi id row Hrow) as (_ & k & l & Hl & Hk & r & Hf & _).
  rewrite (policy_events_Some db id l Hl). intros ->. apply prefix_nil_inv in Hk as ->. done.
Qed.

Lemma run_upsert_refused env p db :
  admits (rows db) p = false → ∃ e, run (upsert env p) db = (db, Ok (Err e)).
Proof. intros Hadm. cbn. destruct (upsert_fails env); [by eexists|]. rewrite Hadm. by eexists. Qed.

(** Behind the append, a creation under a taken name only fails. *)
Lemma run_create_taken env cmd id rid db row :
  inv db → rows db !! rid = Some row → p_name row = cp_name cmd → policy_events db id = [] →
  ∀ db1, rows db1 = rows db →
  let p := (new_projection cmd id (utc_now env)) {{ stream_version := 0 }} in
  ∃ e, run (w ← upsert env p; _ ← Done (lift_domain w); mret id) db1 = (db1, Err e).
Proof.
  intros Hi Hrow Hn Hnil db1 Hr p. rewrite run_bind.
  destruct (run_upsert_refused env p db1) as [e ->]; [| by exists (AE_Domain e)].
  rewrite Hr. apply (name_taken_not_admitted _ rid row); [done | | done].
  intros ->. by apply (row_has_stream db id row).
Qed.

(** A name stays taken when its policy is archived.  Creating a policy under a
    name that any row holds never succeeds, whatever the ports do, and never writes
    a row; and when the row is archived, so that the lookup by name passes over it,
    a creation whose ports work has by then appended its event: it leaves a stream
    that says there is a policy, which no row will ever show, and the next attempt,
    under a new identifier, does the same. *)
Theorem archived_names_stay_taken (env : Env) (actor : Actor) (cmd : CreatePolicyCommand)
    (id rid : Uuid) (db : PolicyDb) (row : ScanPolicyProjection) :
  reachable db → command_wf (C_Create cmd id) →
  rows db !! rid = Some row → p_name row = cp_name cmd →
  let '(db', r) := run (handle env actor (C_Create cmd id)) db in
  is_ok r = false ∧ rows db' = rows db ∧
  (fault_free env → archived row = true → streams db !! id = None →
   validate_and_serialize [DE_PolicyCreated (policy_created (new_projection cmd id (utc_now env)))]
     = Ok () →
   rows db' !! id = None ∧ ∃ p, authority db' id = Some p ∧ p ≡ new_projection cmd id 0).
Proof.
  intros Hi%reachable_inv Hcmd Hrow Hn. set (valid := validate_and_serialize _ = Ok ()). cbn [handle]. rewrite run_bind. unfold create_policy, find_by_name.
  pose proof (run_create_taken env cmd id rid db row Hi Hrow Hn) as Htaken.
  rewrite run_bind. destruct (find_fails env) as [e|] eqn:Hfind.
  { split_and!; [done | done |]. intros Hf. by rewrite (no_find_fault _ Hf) in Hfind. }
  rewrite run_ask. destruct (head _) as [old|] eqn:Hhead.
  { split_and!; [done | done |]. intros _ Ha. by rewrite <- Hn, (archived_name_not_found db rid row) in Hhead. }
  rewrite run_bind. cbn [append run port].
  destruct (append_created env cmd id actor db Hcmd) as [[e He] | (db1 & q & He & Hr & Hnil & Hq & Heq)].
  - rewrite He. destruct (append_fails env) as [[[] e']|] eqn:Hfail; cbn; split_and!; try done.
    all: intros Hf _ Hnone Hval; try by rewrite (no_append_fault _ Hf) in Hfail.
    exfalso. revert He. unfold append_batch, policy_events. by rewrite Hnone, (Hval : validate_and_serialize _ = Ok ()).
  - rewrite He. destruct (append_fails env) as [[[] e']|] eqn:Hfail; cbn [fst snd].
    1, 2: cbn; split_and!; [done | done |]; intros Hf; by rewrite (no_append_fault _ Hf) in Hfail.
    cbn [run]. rewrite run_bind. cbn [run lift_domain map_err]. destruct (Htaken Hnil db1 Hr) as [e ->].
    split_and!; [done | done |]. intros _ _ Hnone _. split; [| by exists q].
    rewrite Hr. apply eq_None_not_Some. intros [row' Hrow']. by apply (row_has_stream db id row').
Qed.
End refinement.
