(* ===== verification/PolicyExamples.v ===== *)
(** Concrete runs of policy administration: instances of its theorems, and two
    runs that show where their provisos come from. *)

From coqutil Require Import Datatypes.RecordSetters.
From S2P Require Import Prelude.
From S2P Require Import RustStd.
From S2P Require Import Json.
From S2P Require Import Types.
From S2P Require Import Events.
From S2P Require Import Store.
From S2P Require Import ScanPolicyFold.
From S2P Require Import Concurrent.
From S2P Require Import PolicyUseCase.
From S2P Require Import PolicyCoherence.
From S2P Require Import PolicyRefinement.
Import DoubleBraceUpdate.

Module SampleAdministration.
Export SamplePolicy.
#[export] Instance wire : EventWire := λ _, VNull.

Definition actor : Actor := Actor_GitOps.

Definition working : Env :=
  {| find_fails := None; append_fails := None; read_fails := None; upsert_fails := None;
     exclusion_write_fails := None; enqueue_fails := None; constraint_error := [];
     stored_at_now := 10; utc_now := 11 |}.

(** The row cannot be written. *)
Definition failing : Env := working {{ upsert_fails := Some (Invariant [Lit "connection reset"]) }}.

Lemma working_fault_free : fault_free working.
Proof. done. Qed.

Definition default_policy (enforcement : ScanEnforcement) : CreatePolicyCommand :=
           {| cp_name := "default"; cp_scope := PS_Global; cp_severity_threshold := High;
              cp_quarantine_duration_secs := 86400; cp_require_approval := false;
              cp_provenance_mode := PM_VerifyIfPresent; cp_provenance_backends := ["cosign"%string];
              cp_provenance_identities := []; cp_max_artifact_age_secs := None;
              cp_license_policy := VNull; cp_scan_backends := ["trivy"%string];
              cp_rescan_interval_hours := 24; cp_negligible_action := NA_Ignore;
              cp_enforcement := enforcement; cp_composite_verdict_mode := CV_Observed |}.

Definition create (e : ScanEnforcement) : Command := C_Create (default_policy e) 7.

Definition enforce (e : ScanEnforcement) : Command :=
  C_Update ((UpdatePolicyCommand_new 7) {{ up_enforcement := Set_ e }}).

Definition exclude : Command :=
  C_AddExclusion {| ax_policy_id := 7; ax_cve_id := "CVE-2024-1"; ax_package_pattern := None;
                    ax_scope := PS_Global; ax_reason := "not reachable"; ax_expires_at := None |} 8.

Lemma create_wf e : command_wf (create e).
Proof.
  unfold command_wf, create, default_policy, projection_wf, i32_MIN, i32_MAX, i64_MAX. cbn -[Z.pow].
  split_and!; [lia.. | done].
Qed.

(** The policy is created, then an update is appended whose row write fails: the
    row says [reject], the stream says [record]. *)
Definition db1 : PolicyDb := (run (handle working actor (create SE_Reject)) empty_db).1.
Definition db2 : PolicyDb := (run (handle failing actor (enforce SE_Record)) db1).1.

Lemma reachable_db1 : reachable db1.
Proof. apply reachable_run; [apply reachable_empty | apply create_wf]. Qed.

Lemma reachable_db2 : reachable db2.
Proof. by apply reachable_run; [apply reachable_db1 |]. Qed.
End SampleAdministration.

Module PolicyWitnesses.
Import SampleAdministration.

Lemma policy_rows_restate_their_streams_witness :
  reachable db2 ∧ enforcement <$> rows db2 !! 7 = Some SE_Reject ∧ len (policy_events db2 7) = 2 ∧
  ∀ p, rows db2 !! 7 = Some p →
    ∃ k l r, streams db2 !! 7 = Some l ∧ k `prefix_of` l ∧ fold_scan_policy k = Ok r ∧
             replay_policy r ≡ p ∧ stream_version p = len k - 1.
Proof.
  split; [apply reachable_db2|]. split; [by vm_compute|]. split; [by vm_compute|].
  apply (proj1 (policy_rows_restate_their_streams db2 reachable_db2)).
Defined.

(** The exclusion is added from the stale row, which it also repairs. *)
Definition db3 : PolicyDb := (run (handle working actor exclude) db2).1.

Lemma run_exclude : run (handle working actor exclude) db2 = (db3, Ok ()).
Proof. apply run_result. by vm_compute. Qed.

Lemma commands_refine_the_policy_witness :
  refines exclude actor db2 db3 ∧ enforcement <$> rows db3 !! 7 = Some SE_Record ∧
  is_Some (exclusion_rows db3 !! 8).
Proof.
  split; [| split; [by vm_compute | by eexists; vm_compute]].
  apply (commands_refine_the_policy working actor exclude db2 db3 reachable_db2 working_fault_free I run_exclude).
  right. intros (cmd & row & Hc & _). discriminate Hc.
Defined.

(** A policy that does not exist cannot be archived. *)
Lemma refused_commands_change_nothing_witness :
  run (handle working actor (C_Archive 9)) db2 =
    (db2, Err (AE_Domain (not_found_policy 9))) ∧
  not_contention (AE_Domain (not_found_policy 9)).
Proof.
  assert (run (handle working actor (C_Archive 9)) db2 =
    (db2, Err (AE_Domain (not_found_policy 9)))) as Hrun.
  { rewrite (run_result _ db2 (Err (AE_Domain (not_found_policy 9)))) by (by vm_compute).
    f_equal. }
  split; [exact Hrun|].
  refine (proj1 (refused_commands_change_nothing working actor (C_Archive 9) db2 db2 _ reachable_db2
    working_fault_free _ _ Hrun)); done.
Defined.

(** The stale row does not stand in the way of archiving. *)
Lemma archiving_always_goes_through_witness :
  ∃ db' p, run (handle working actor (toggle 7 true)) db2 = (db', Ok ()) ∧
           authority db' 7 = Some p ∧ archived p = true ∧ caught_up db' 7.
Proof.
  destruct (rows db2 !! 7) as [row|] eqn:Hrow; [| exfalso; by vm_compute in Hrow].
  apply (archiving_always_goes_through working actor 7 true db2 row reachable_db2
    working_fault_free Hrow); [| by vm_compute |].
  - assert (archived <$> rows db2 !! 7 = Some false) as Ha by (by vm_compute).
    rewrite Hrow in Ha. by injection Ha.
  - intros p Hp. assert ((λ p, admits (rows db2) (spec_command (toggle 7 true) p)) <$> authority db2 7 =
      Some true) as Ha by (by vm_compute).
    rewrite Hp in Ha. by injection Ha.
Defined.

(** The policy is archived; its name cannot be used again. *)
Definition archived_db : PolicyDb := (run (handle working actor (C_Archive 7)) db2).1.

Lemma reachable_archived_db : reachable archived_db.
Proof. by apply reachable_run; [apply reachable_db2 |]. Qed.

Lemma archived_names_stay_taken_witness :
  let '(db', r) := run (handle working actor (C_Create (default_policy SE_Record) 9)) archived_db in
  is_ok r = false ∧ rows db' = rows archived_db ∧ rows db' !! 9 = None ∧
  ∃ p, authority db' 9 = Some p ∧ p ≡ new_projection (default_policy SE_Record) 9 0.
Proof.
  destruct (rows archived_db !! 7) as [row|] eqn:Hrow; [| exfalso; by vm_compute in Hrow].
  assert ((λ p, (archived p, p_name p)) <$> rows archived_db !! 7 = Some (true, "default"%string)) as Ha
    by (by vm_compute).
  rewrite Hrow in Ha. injection Ha as Ha Hn.
  pose proof (archived_names_stay_taken working actor (default_policy SE_Record) 9 7 archived_db row
    reachable_archived_db (create_wf SE_Record) Hrow Hn) as Htaken.
  destruct (run _ archived_db) as [db' r]. destruct Htaken as (Hr & Hrows & Horphan).
  destruct (Horphan working_fault_free Ha ltac:(by vm_compute) ltac:(by vm_compute)) as [Hnone Hau].
  split_and!; done.
Defined.
End PolicyWitnesses.

(** ** Two writers *)

Module Race.
Import SampleAdministration.

(** A request whose ports work. *)
Definition started_working (place : nat) (p : handler unit) : Prop :=
  ∃ env actor c, fault_free env ∧ command_wf c ∧ p = handle env actor c.

Definition pool : list (handler unit) :=
  [Done (Ok ()); handle working actor exclude; handle working actor (enforce SE_Reject)].

(** The exclusion's append lands first, its row write last; the update runs
    wholly in between. *)
Definition order : list nat := [1; 1; 1; 2; 2; 2; 2; 2; 2; 1; 1]%nat.

Definition created : PolicyDb := (run (handle working actor (create SE_Record)) empty_db).1.

Definition after : PolicyDb * list (handler unit) := schedule order (created, pool).

Lemma after_reachable : rtc (pool_step started_working) (empty_db, []) after.
Proof.
  eapply rtc_l.
  { apply pool_spawn. exists working, actor, (create SE_Record). split; [done|].
    split; [apply create_wf | done]. }
  etransitivity; [apply (run_steps _ [])|].
  assert ((run (handle working actor (create SE_Record)) empty_db).2 = Ok ()) as -> by (by vm_compute).
  eapply rtc_l; [apply pool_spawn; by exists working, actor, exclude|].
  eapply rtc_l; [apply pool_spawn; by exists working, actor, (enforce SE_Reject)|].
  apply (schedule_steps _ order (created, pool)).
Qed.

(** Two requests can leave a row behind its stream although no port fails and
    both report success: the row write is unconditional, so the request that
    appended first may write last.  Here a policy that only records is switched to
    rejecting while an exclusion is added; both succeed, the stream says [reject],
    and the row that every gate reads still says [record]. *)
Theorem concurrent_requests_can_leave_a_row_behind :
  ∃ db ps,
    rtc (pool_step started_working) (empty_db, []) (db, ps) ∧
    Forall (λ p, p = Done (Ok ())) ps ∧
    enforcement <$> authority db 7 = Some SE_Reject ∧
    enforcement <$> rows db !! 7 = Some SE_Record.
Proof.
  exists after.1, after.2. split; [rewrite <- surjective_pairing; apply after_reachable|].
  split; [| by vm_compute]. assert (after.2 = [Done (Ok ()); Done (Ok ()); Done (Ok ())]) as ->;
    [by vm_compute | by repeat constructor].
Qed.
End Race.

(** ** A reverted update *)

Module Revert.
Import SampleAdministration.

(** An update whose row write failed cannot be taken back by updating to the
    old value: the row still holds that value, so the update returns success
    without an event, and the stream keeps the change.  The next command of any
    kind re-derives the row from the stream and brings the change into force: a
    policy set back to [reject], and acknowledged, turns to [record] when an
    unrelated exclusion is added. *)
Theorem reverted_update_comes_back :
  is_ok (run (handle failing actor (enforce SE_Record)) db1).2 = false ∧
  enforcement <$> rows db2 !! 7 = Some SE_Reject ∧
  run (handle working actor (enforce SE_Reject)) db2 = (db2, Ok ()) ∧
  let '(db3, result) := run (handle working actor exclude) db2 in
  result = Ok () ∧ enforcement <$> rows db3 !! 7 = Some SE_Record.
Proof. by vm_compute. Qed.
End Revert.
