(* ===== verification/Retention.v ===== *)
(** Retention rules (crates/hort-domain/src/retention/): predicates and scopes
    with their validation, the age anchor of a finding, the evaluation of a
    predicate on one artifact and the reason it records, and the policy aggregate
    folded from its events. *)

From coqutil Require Import Datatypes.RecordSetters.
From S2P Require Import Prelude.
From S2P Require Import RustStd.
From S2P Require Import Types.
From S2P Require Import Events.
From S2P Require Import Exclusion.
Import DoubleBraceUpdate.

(** ** Predicates (predicate.rs) *)

Inductive BooleanOp : Type :=
  | And
  | Or.

Inductive PolicyPredicate : Type :=
  | AgeExceeds (secs : Z)
  | UnusedFor (secs : Z)
  | KeepLastN (n : Z)
  | Composite (op : BooleanOp) (children : list PolicyPredicate)
  | HasFindingAboveSeverity (threshold : SeverityThreshold)
  | HasFindingAboveCvss (min : f32)
  | HasFixAvailable
  | HasFindingDetectedFor (secs : Z).

Section predicate_ind.
Context (P : PolicyPredicate → Prop).
Context (P_leaf : ∀ p, match p with Composite _ _ => False | _ => True end → P p).
Context (P_composite : ∀ op children, (∀ k, k ∈ children → P k) → P (Composite op children)).

Fixpoint predicate_induction (p : PolicyPredicate) : P p.
Proof.
  destruct p as [| | | op children | | | |]; try (apply P_leaf; exact I).
  apply P_composite. induction children as [|k children IH].
  - intros k Hk. destruct (proj1 (elem_of_nil k) Hk).
  - intros k' Hk'. apply elem_of_cons in Hk' as [-> | Hk'];
      [apply predicate_induction | exact (IH k' Hk')].
Defined.
End predicate_ind.

Definition MAX_COMPOSITE_DEPTH : Z := 8.
Definition MAX_COMPOSITE_CHILDREN : Z := 64.

(** Is the node one of the four scan-data variants? *)
Definition is_security_leaf (p : PolicyPredicate) : bool :=
  match p with
  | HasFindingAboveSeverity _ | HasFindingAboveCvss _ | HasFixAvailable | HasFindingDetectedFor _ => true
  | _ => false
  end.

Fixpoint is_security_driven (p : PolicyPredicate) : bool :=
  match p with
  | Composite _ children => existsb is_security_driven children
  | leaf => is_security_leaf leaf
  end.

(** [for child in children { child.validate_at_depth(depth + 1)?; }] is
    [validate_all].  The offending score at the end of the range message is not
    kept. *)
Fixpoint validate_at_depth (depth : Z) (p : PolicyPredicate) {struct p} : DomainResult unit :=
  match p with
  | AgeExceeds secs | UnusedFor secs | HasFindingDetectedFor secs =>
      if secs =? 0 then
        Err (Validation [Lit "duration-bearing predicate must be > 0 seconds"])
      else Ok ()
  | KeepLastN n =>
      if n =? 0 then
        Err (Validation [Lit "KeepLastN(0) would expire every artifact in scope; ";
                         Lit "use an explicit age or manual policy instead"])
      else Ok ()
  | HasFindingAboveCvss score =>
      if negb (f32_is_finite score) then
        Err (Validation [Lit "HasFindingAboveCvss threshold must be a finite number"])
      else if f32_lt score f32_zero || f32_lt f32_ten score then
        Err (Validation [Lit "HasFindingAboveCvss threshold must be within [0.0, 10]"])
      else Ok ()
  | Composite _ children =>
      if MAX_COMPOSITE_DEPTH <=? depth then
        Err (Validation [Lit "Composite predicate nesting exceeds the maximum depth of ";
                         ArgInt MAX_COMPOSITE_DEPTH])
      else if is_empty children then
        Err (Validation [Lit "Composite predicate must have at least one child"])
      else if MAX_COMPOSITE_CHILDREN <? len children then
        Err (Validation [Lit "Composite predicate exceeds the maximum of ";
                         ArgInt MAX_COMPOSITE_CHILDREN; Lit " children (got ";
                         ArgInt (len children); Lit ")"])
      else validate_all (validate_at_depth (depth + 1)) children
  | HasFindingAboveSeverity _ | HasFixAvailable => Ok ()
  end.

Definition PolicyPredicate_validate (p : PolicyPredicate) : DomainResult unit :=
  validate_at_depth 0 p.

(** ** Scopes (scope.rs) *)

Inductive RetentionScope : Type :=
  | RS_AllRepos
  | RS_Repos (ids : list Uuid)
  | RS_Format (format : RepositoryFormat)
  | RS_PackageNamePattern (pattern : string)
  | RS_IngestSource (source : IngestSource).

#[export] Instance IngestSource_eq_dec : EqDecision IngestSource.
Proof. solve_decision. Defined.

Definition MAX_REPOS_IN_SCOPE : Z := 1024.

Definition excludes_direct_uploads (s : RetentionScope) : bool :=
  match s with RS_IngestSource IS_Proxied => true | _ => false end.

Definition scope_matches (s : RetentionScope) (repository_id : Uuid) (format : RepositoryFormat)
    (name : string) (ingest_source : IngestSource) : bool :=
  match s with
  | RS_AllRepos => true
  | RS_Repos ids => bool_decide (repository_id ∈ ids)
  | RS_Format f => bool_decide (f = format)
  | RS_PackageNamePattern p => pattern_matches p name
  | RS_IngestSource source => bool_decide (source = ingest_source)
  end.

Definition RetentionScope_validate (s : RetentionScope) : DomainResult unit :=
  match s with
  | RS_Repos ids =>
      if is_empty ids then
        Err (Validation [Lit "RetentionScope::Repos must name at least one repository"])
      else if MAX_REPOS_IN_SCOPE <? len ids then
        Err (Validation [Lit "RetentionScope::Repos exceeds the maximum of ";
                         ArgInt MAX_REPOS_IN_SCOPE; Lit " repositories (got "; ArgInt (len ids);
                         Lit ")"])
      else Ok ()
  | RS_PackageNamePattern p =>
      if strlen p =? 0 then
        Err (Validation [Lit "RetentionScope::PackageNamePattern must not be empty"])
      else if MAX_PACKAGE_PATTERN_LEN <? strlen p then
        Err (Validation [Lit "RetentionScope::PackageNamePattern exceeds the maximum length of ";
                         ArgInt MAX_PACKAGE_PATTERN_LEN; Lit " (got "; ArgInt (strlen p); Lit ")"])
      else Ok ()
  | RS_AllRepos | RS_Format _ | RS_IngestSource _ => Ok ()
  end.

(** ** The age of a finding (anchor.rs) *)

Record FindingAgeAnchor : Type := {
  known_since : DateTime;
  anchor_source : FindingAgeAnchorSource;
}.

Definition distinct_vulnerability_ids (findings : list Finding) : list string :=
  foldl (λ ids f, let id := to_ascii_lowercase (vulnerability_id f) in
                  if bool_decide (id ∈ ids) then ids else ids ++ [id]) [] findings.

(** [min_by_key]: the first of the least. *)
Definition min_by_key {A} (key : A → Z) (l : list A) : option A :=
  match l with
  | [] => None
  | x :: l' => Some (foldl (λ best y, if key y <? key best then y else best) x l')
  end.

Definition published_anchor (findings : list Finding) (vuln_id : string) : option FindingAgeAnchor :=
  (λ '(at_, scanner), {| known_since := at_; anchor_source := AdvisoryPublication scanner |}) <$>
  min_by_key fst
    (omap (λ f, (λ at_, (at_, source_scanner f)) <$> advisory_published_at f)
       (filter (λ f, eq_ignore_ascii_case (vulnerability_id f) vuln_id = true) findings)).

Definition observed_anchor (first_observed : list (string * DateTime)) (vuln_id : string)
    : option FindingAgeAnchor :=
  (λ at_, {| known_since := at_; anchor_source := FirstObservation |}) <$>
  min_by_key (λ t, t)
    ((filter (λ o, eq_ignore_ascii_case o.1 vuln_id = true) first_observed).*2).

Definition keep_earlier (best : option FindingAgeAnchor) (candidate : FindingAgeAnchor)
    : option FindingAgeAnchor :=
  match best with
  | None => Some candidate
  | Some b => if known_since candidate <? known_since b then Some candidate else best
  end.

Definition resolve_finding_age_anchor (findings : list Finding)
    (first_observed : list (string * DateTime)) : option FindingAgeAnchor :=
  foldl (λ best vuln_id,
    let per_vuln := match published_anchor findings vuln_id with
                    | Some a => Some a
                    | None => observed_anchor first_observed vuln_id
                    end in
    match per_vuln with Some candidate => keep_earlier best candidate | None => best end)
    None (distinct_vulnerability_ids findings).

(** ** Evaluation (evaluate.rs) *)

Record EvaluationInputs : Type := {
  now : DateTime;
  created_at : DateTime;
  last_downloaded_at : option DateTime;
  (** 1-based rank, newest first, and the number of siblings. *)
  keep_rank : option (Z * Z);
  tag_targeted : bool;
  findings : list Finding;
  finding_age_anchor : option FindingAgeAnchor;
  latest_scan_at : DateTime;
}.

Definition severity_rank (s : SeverityThreshold) : Z :=
  match s with Critical => 3 | High => 2 | Medium => 1 | Low => 0 end.

Definition severity_at_or_above (have threshold : SeverityThreshold) : bool :=
  severity_rank threshold <=? severity_rank have.

Definition elapsed_at_least (anchor now : DateTime) (secs : Z) : bool :=
  match to_std_as_secs (signed_duration_since now anchor) with
  | Some d => secs <=? d
  | None => false
  end.

Definition has_fix (f : Finding) : bool := negb (is_empty (fixed_versions f)).

(** Where rustc's [f32 >= f32] is [f32_le] with its arguments swapped. *)
Definition cvss_at_least (min : f32) (f : Finding) : bool :=
  match cvss_score f with Some c => f32_le min c | None => false end.

Section evaluation.
Context (inputs : EvaluationInputs).

Fixpoint matches_bool (p : PolicyPredicate) : bool :=
  match p with
  | AgeExceeds secs => elapsed_at_least (created_at inputs) (now inputs) secs
  | UnusedFor secs =>
      match last_downloaded_at inputs with
      | None => elapsed_at_least (created_at inputs) (now inputs) secs
      | Some dl => elapsed_at_least dl (now inputs) secs
      end
  | KeepLastN keep =>
      match keep_rank inputs with
      | None => false
      | Some (rank, _) => if tag_targeted inputs then false else keep <? rank
      end
  | HasFindingAboveSeverity threshold =>
      existsb (λ f, severity_at_or_above (severity f) threshold) (findings inputs)
  | HasFindingAboveCvss min => existsb (cvss_at_least min) (findings inputs)
  | HasFixAvailable => existsb has_fix (findings inputs)
  | HasFindingDetectedFor secs =>
      match finding_age_anchor inputs with
      | None => false
      | Some anchor =>
          negb (is_empty (findings inputs)) &&
          elapsed_at_least (known_since anchor) (now inputs) secs
      end
  | Composite And kids => forallb matches_bool kids
  | Composite Or kids => existsb matches_bool kids
  end.

Fixpoint matched_via_security (p : PolicyPredicate) : bool :=
  match p with
  | Composite And kids => existsb matched_via_security kids
  | Composite Or kids => existsb (λ k, matches_bool k && matched_via_security k) kids
  | leaf => is_security_leaf leaf
  end.

(** [u32::try_from(n).unwrap_or(u32::MAX)]. *)
Definition to_u32 (n : Z) : Z := if n <=? u32_MAX then n else u32_MAX.

Definition max_severity_of (fs : list Finding) : SeverityThreshold :=
  foldl (λ m f, if severity_at_or_above (severity f) m then severity f else m) Low fs.

Definition max_cvss_of (fs : list Finding) : option f32 :=
  foldl (λ acc c, Some (match acc with Some a => f32_max a c | None => c end)) None
    (omap cvss_score fs).

Definition security_reason : ExpirationReason :=
  ER_SecurityFinding (max_severity_of (findings inputs)) (max_cvss_of (findings inputs))
    (to_u32 (len (findings inputs))) (existsb has_fix (findings inputs))
    (known_since <$> finding_age_anchor inputs) (anchor_source <$> finding_age_anchor inputs)
    (latest_scan_at inputs).

(** [u32::saturating_add(1)]. *)
Definition saturating_succ (n : Z) : Z := if n <? u32_MAX then n + 1 else u32_MAX.

(** [kids.iter().find(...).map(|k| self(k))] as one pass over the list. *)
Fixpoint non_security_reason (p : PolicyPredicate) : ExpirationReason :=
  match p with
  | AgeExceeds secs => ER_AgeExceeded (created_at inputs) secs
  | UnusedFor secs => ER_UnusedTtl (last_downloaded_at inputs) secs
  | KeepLastN keep =>
      let '(rank, total) := default (saturating_succ keep, keep) (keep_rank inputs) in
      ER_KeepLastN keep total rank
  | Composite _ kids =>
      (fix first (l : list PolicyPredicate) : ExpirationReason :=
         match l with
         | [] => ER_AgeExceeded (created_at inputs) 0
         | k :: l' => if matches_bool k && negb (matched_via_security k)
                      then non_security_reason k else first l'
         end) kids
  | HasFindingAboveSeverity _ | HasFindingAboveCvss _ | HasFixAvailable
  | HasFindingDetectedFor _ => security_reason
  end.

Inductive EvaluationOutcome : Type :=
  | EO_NoMatch
  | EO_Matched (reason : ExpirationReason).

Definition evaluate (p : PolicyPredicate) : EvaluationOutcome :=
  if negb (matches_bool p) then EO_NoMatch
  else if matched_via_security p then EO_Matched security_reason
  else EO_Matched (non_security_reason p).
End evaluation.

(** ** The policy aggregate (policy.rs) *)

Definition MAX_RETENTION_NAME_LEN : Z := 256.

Inductive RetentionPolicyEvent : Type :=
  | RP_Created (id : Uuid) (name : string) (predicate : PolicyPredicate) (scope : RetentionScope)
      (created_at : DateTime)
  | RP_Updated (id : Uuid) (predicate : PolicyPredicate) (scope : RetentionScope)
      (updated_at : DateTime)
  | RP_Archived (id by_ : Uuid) (archived_at : DateTime)
  | RP_Evaluated (id : Uuid) (evaluated_at : DateTime) (matched_count expired_count : Z).

Definition aggregate_id (e : RetentionPolicyEvent) : Uuid :=
  match e with
  | RP_Created id _ _ _ _ | RP_Updated id _ _ _ | RP_Archived id _ _ | RP_Evaluated id _ _ _ => id
  end.

Definition variant_name (e : RetentionPolicyEvent) : string :=
  match e with
  | RP_Created _ _ _ _ _ => "Created"
  | RP_Updated _ _ _ _ => "Updated"
  | RP_Archived _ _ _ => "Archived"
  | RP_Evaluated _ _ _ _ => "Evaluated"
  end.

Definition validate_name (name : string) : DomainResult unit :=
  if strlen name =? 0 then Err (Validation [Lit "RetentionPolicy name must not be empty"])
  else if MAX_RETENTION_NAME_LEN <? strlen name then
    Err (Validation [Lit "RetentionPolicy name exceeds the maximum length of ";
                     ArgInt MAX_RETENTION_NAME_LEN; Lit " (got "; ArgInt (strlen name); Lit ")"])
  else Ok ().

Definition RetentionPolicyEvent_validate (e : RetentionPolicyEvent) : DomainResult unit :=
  match e with
  | RP_Created _ name predicate scope _ =>
      _ ← validate_name name; _ ← PolicyPredicate_validate predicate; RetentionScope_validate scope
  | RP_Updated _ predicate scope _ =>
      _ ← PolicyPredicate_validate predicate; RetentionScope_validate scope
  | RP_Archived _ _ _ | RP_Evaluated _ _ _ _ => Ok ()
  end.

Record RetentionPolicy : Type := {
  rp_id : Uuid;
  rp_name : string;
  rp_predicate : PolicyPredicate;
  rp_scope : RetentionScope;
  rp_archived : bool;
  rp_created_at : DateTime;
  rp_updated_at : DateTime;
  rp_last_evaluated_at : option DateTime;
  rp_last_matched_count : Z;
  rp_last_expired_count : Z;
  rp_stream_version : Z;
}.

Definition apply_appended (e : RetentionPolicyEvent) : mut RetentionPolicy DomainError unit :=
  p ← self;
  if negb (aggregate_id e =? rp_id p) then
    throw (Invariant [Lit "RetentionPolicy stream mixes aggregate ids: stream is ";
                      ArgUuid (rp_id p); Lit ", event is "; ArgUuid (aggregate_id e)])
  else if rp_archived p then
    throw (Invariant [Lit "RetentionPolicy "; ArgUuid (rp_id p);
                      Lit " is archived; no further events are valid (got ";
                      ArgStr (variant_name e); Lit ")"])
  else
    _ ← match e with
        | RP_Created _ _ _ _ _ =>
            throw (Invariant [Lit "RetentionPolicy stream has a second Created event"])
        | RP_Updated _ predicate scope updated_at =>
            _ ← lift (RetentionPolicyEvent_validate e);
            modify (λ p, p {{ rp_predicate := predicate; rp_scope := scope;
                              rp_updated_at := updated_at }})
        | RP_Archived _ _ archived_at =>
            modify (λ p, p {{ rp_archived := true; rp_updated_at := archived_at }})
        | RP_Evaluated _ evaluated_at matched_count expired_count =>
            modify (λ p, p {{ rp_last_evaluated_at := Some evaluated_at;
                              rp_last_matched_count := matched_count;
                              rp_last_expired_count := expired_count }})
        end;
    modify (λ p, p {{ rp_stream_version ::= (λ v, v + 1) }}).

Fixpoint apply_all (events : list RetentionPolicyEvent) : mut RetentionPolicy DomainError unit :=
  match events with
  | [] => mret ()
  | e :: events' => _ ← apply_appended e; apply_all events'
  end.

Definition project (events : list RetentionPolicyEvent) : DomainResult RetentionPolicy :=
  match events with
  | [] => Err (Invariant [Lit "RetentionPolicy stream is empty"])
  | RP_Created id name predicate scope created_at as first :: rest =>
      _ ← RetentionPolicyEvent_validate first;
      let '(p, r) := apply_all rest
        {| rp_id := id; rp_name := name; rp_predicate := predicate; rp_scope := scope;
           rp_archived := false; rp_created_at := created_at; rp_updated_at := created_at;
           rp_last_evaluated_at := None; rp_last_matched_count := 0; rp_last_expired_count := 0;
           rp_stream_version := 0 |} in
      _ ← r; mret p
  | other :: _ =>
      Err (Invariant [Lit "RetentionPolicy stream must open with Created, got ";
                      ArgStr (variant_name other)])
  end.

(** ** What an evaluation reports *)

Section attribution.
Context (inputs : EvaluationInputs).
Abbreviation fires p := (matches_bool inputs p = true).

(** The leaves a match rests on: all of a conjunction's, and of a disjunction's
    those of the children that hold. *)
Inductive contributes : PolicyPredicate → PolicyPredicate → Prop :=
  | contributes_leaf p : match p with Composite _ _ => False | _ => True end → contributes p p
  | contributes_and kids k leaf :
      k ∈ kids → contributes k leaf → contributes (Composite And kids) leaf
  | contributes_or kids k leaf :
      k ∈ kids → fires k → contributes k leaf → contributes (Composite Or kids) leaf.

Lemma existsb_elem {A} (f : A → bool) l : existsb f l = true ↔ ∃ x, x ∈ l ∧ f x = true.
Proof. rewrite List.existsb_exists. by setoid_rewrite list_elem_of_In. Qed.

Lemma forallb_elem {A} (f : A → bool) l : forallb f l = true ↔ ∀ x, x ∈ l → f x = true.
Proof. rewrite List.forallb_forall. by setoid_rewrite list_elem_of_In. Qed.

Lemma contributes_fires p leaf : fires p → contributes p leaf → fires leaf.
Proof.
  intros Hp Hc. induction Hc as [| kids k leaf Hk Hc IH | kids k leaf Hk Hf Hc IH]; [done | | by apply IH].
  apply IH. cbn in Hp. rewrite forallb_elem in Hp. by apply Hp.
Qed.

Lemma matched_via_security_spec p :
  matched_via_security inputs p = true ↔ ∃ leaf, contributes p leaf ∧ is_security_leaf leaf = true.
Proof.
  induction p as [p Hleaf | op kids IH] using predicate_induction.
  - assert (matched_via_security inputs p = is_security_leaf p) as -> by (by destruct p).
    split; [intros ?; exists p; by split; [constructor |] |].
    intros (leaf & Hc & Hs). inversion Hc; subst; done.
  - destruct op; cbn [matched_via_security]; rewrite existsb_elem; split.
    + intros (k & Hk & Hm). apply IH in Hm as (leaf & Hc & Hs); [| done].
      exists leaf. split; [by eapply contributes_and | done].
    + intros (leaf & Hc & Hs). inversion Hc as [? ? | ? k ? Hk Hc' |]; subst; [done |].
      exists k. split; [done|]. apply IH; [done|]. by exists leaf.
    + intros (k & Hk & [Hf Hm]%andb_true_iff). apply IH in Hm as (leaf & Hc & Hs); [| done].
      exists leaf. split; [by eapply contributes_or | done].
    + intros (leaf & Hc & Hs). inversion Hc as [? ? | | ? k ? Hk Hf Hc']; subst; [done |].
      exists k. split; [done|]. apply andb_true_iff. split; [done|]. apply IH; [done|]. by exists leaf.
Qed.

Lemma validate_all_elem {A} (f : A → DomainResult unit) l x :
  validate_all f l = Ok () → x ∈ l → f x = Ok ().
Proof.
  induction l as [|y l IH]; [by intros _ ?%elem_of_nil |]. cbn [validate_all].
  cbv [mbind result_bind]. destruct (f y) as [[]|] eqn:Hy; [| done].
  intros Hl [-> | Hx]%elem_of_cons; [done | by apply IH].
Qed.

(** A composite that passed validation has children, which passed as well. *)
Lemma validate_composite depth op kids :
  validate_at_depth depth (Composite op kids) = Ok () →
  kids ≠ [] ∧ ∀ k, k ∈ kids → validate_at_depth (depth + 1) k = Ok ().
Proof.
  cbn [validate_at_depth]. repeat case_match; try done. intros Hall. split.
  - by intros ->.
  - intros k Hk. by eapply validate_all_elem.
Qed.

(** The reason a composite gives is the reason of the first child to qualify. *)
Lemma non_security_reason_composite op kids k :
  k ∈ kids → fires k → matched_via_security inputs k = false →
  ∃ k', k' ∈ kids ∧ fires k' ∧ matched_via_security inputs k' = false ∧
        non_security_reason inputs (Composite op kids) = non_security_reason inputs k'.
Proof.
  intros Hk Hf Hs. cbn [non_security_reason]. induction kids as [|k0 kids IH]; [by apply elem_of_nil in Hk|].
  destruct (matches_bool inputs k0 && negb (matched_via_security inputs k0)) eqn:Hq.
  { apply andb_true_iff in Hq as [Hf0 Hs0%negb_true_iff]. exists k0. split_and!; [left | done..]. }
  apply elem_of_cons in Hk as [-> | Hk]; [by rewrite Hf, Hs in Hq|].
  destruct (IH Hk) as (k' & ? & ? & ? & ?). exists k'. split_and!; [by right | done..].
Qed.

Lemma non_security_reason_spec p depth :
  validate_at_depth depth p = Ok () → fires p → matched_via_security inputs p = false →
  ∃ leaf, contributes p leaf ∧ non_security_reason inputs p = non_security_reason inputs leaf.
Proof.
  revert depth; induction p as [p Hleaf | op kids IH] using predicate_induction; intros depth Hv Hf Hs.
  { exists p. split; [by constructor | done]. }
  destruct (validate_composite depth op kids Hv) as [Hne Hall].
  assert (∃ k, k ∈ kids ∧ fires k ∧ matched_via_security inputs k = false) as (k & Hk & Hfk & Hsk).
  { destruct op; cbn in Hf, Hs.
    - rewrite forallb_elem in Hf. destruct kids as [|k kids]; [done|]. exists k.
      split_and!; [left | apply Hf; left |]. cbn in Hs. by apply orb_false_iff in Hs as [? _].
    - apply existsb_elem in Hf as (k & Hk & Hfk). exists k. split_and!; [done | done |].
      destruct (matched_via_security inputs k) eqn:Hm; [| done].
      rewrite <- Hs. symmetry. apply existsb_elem. exists k. by rewrite Hfk, Hm. }
  destruct (non_security_reason_composite op kids k Hk Hfk Hsk) as (k' & Hk' & Hfk' & Hsk' & ->).
  destruct (IH k' Hk' (depth + 1)) as (leaf & Hc & Heq); [by apply Hall | done | done |].
  exists leaf. split; [| done]. destruct op; [by eapply contributes_and | by eapply contributes_or].
Qed.

(** What the readers of the inputs deliver: a rank within its siblings, scores the
    finding validation admits, and an observation that the latest scan does not
    precede (the two are stamped by different clocks). *)
Record sane : Prop := {
  sane_rank rank total : keep_rank inputs = Some (rank, total) → 1 ≤ rank ≤ total;
  sane_scores f c : f ∈ findings inputs → cvss_score f = Some c → cvss_out_of_range c = false;
  sane_anchor a : finding_age_anchor inputs = Some a → anchor_source a = FirstObservation →
    known_since a ≤ latest_scan_at inputs;
}.

Lemma f32_max_or x y : f32_max x y = x ∨ f32_max x y = y.
Proof. unfold f32_max. repeat case_match; auto. Qed.

Lemma max_cvss_of_elem fs c : max_cvss_of fs = Some c → ∃ f, f ∈ fs ∧ cvss_score f = Some c.
Proof.
  unfold max_cvss_of. intros Hm. rewrite <- list_elem_of_omap.
  set (scores := omap cvss_score fs) in *. clearbody scores.
  assert (∀ acc, foldl (λ acc c, Some (match acc with Some a => f32_max a c | None => c end)) acc scores
                 = Some c → acc = Some c ∨ c ∈ scores) as Hfold.
  { clear Hm. induction scores as [|x scores IH]; intros acc; [by left|]. cbn [foldl].
    intros [Heq | Hin]%IH; [| right; by right]. injection Heq as <-.
    destruct acc as [a|]; [| right; left].
    destruct (f32_max_or a x) as [-> | ->]; [by left | right; left]. }
  by destruct (Hfold None Hm).
Qed.

Lemma security_reason_valid :
  sane → findings inputs ≠ [] → ExpirationReason_validate (security_reason inputs) = Ok ().
Proof.
  intros [_ Hscores Hanchor] Hne. unfold security_reason, ExpirationReason_validate.
  assert ((to_u32 (len (findings inputs)) =? 0) = false) as ->.
  { apply Z.eqb_neq. unfold to_u32, len, u32_MAX. destruct (findings inputs); [done|].
    case_match; cbn [length]; lia. }
  assert (match max_cvss_of (findings inputs) with Some c => cvss_out_of_range c | None => false end
          = false) as ->.
  { destruct (max_cvss_of (findings inputs)) as [c|] eqn:Hc; [| done].
    apply max_cvss_of_elem in Hc as (f & Hf & Hc). by eapply Hscores. }
  destruct (finding_age_anchor inputs) as [[k src]|] eqn:Ha; [| done]. cbn.
  destruct src; [done|]. specialize (Hanchor _ eq_refl eq_refl). cbn in Hanchor.
  by rewrite (proj2 (Z.ltb_ge _ _) Hanchor).
Qed.

Lemma security_leaf_has_findings leaf :
  is_security_leaf leaf = true → fires leaf → findings inputs ≠ [].
Proof.
  destruct leaf; cbn; try done; intros _; try (by destruct (findings inputs)).
  destruct (finding_age_anchor inputs); [| done]. by destruct (findings inputs).
Qed.

Lemma leaf_reason_valid leaf :
  sane → match leaf with Composite _ _ => False | _ => True end → fires leaf →
  ExpirationReason_validate (non_security_reason inputs leaf) = Ok ().
Proof.
  intros Hs Hleaf Hf. destruct (is_security_leaf leaf) eqn:Hsec.
  { assert (non_security_reason inputs leaf = security_reason inputs) as -> by (by destruct leaf).
    apply security_reason_valid; [done | by apply (security_leaf_has_findings leaf)]. }
  destruct leaf; try done.
  cbn in Hf |- *. destruct (keep_rank inputs) as [[rank total]|] eqn:Hr; [| done].
  destruct (sane_rank Hs rank total Hr). destruct (tag_targeted inputs); [done|].
  cbn. apply Z.ltb_lt in Hf.
  destruct (Z.eqb_spec rank 0), (Z.ltb_spec total rank), (Z.leb_spec rank n); done || lia.
Qed.

Lemma contributes_is_leaf p leaf :
  contributes p leaf → match leaf with Composite _ _ => False | _ => True end.
Proof. by induction 1. Qed.
End attribution.

(** The verdict of the retention evaluator on a validated predicate: it reports
    a match exactly when the predicate holds, and the reason it records is that of
    a leaf the match rests on and that holds itself.  A security reason is given
    whenever a scan-data leaf contributed, and only then; what it carries is never
    an invented default.  On inputs the readers can deliver, the recorded reason
    passes the event's own validation, so a matching artifact is not lost to an
    event that cannot be written. *)
Theorem evaluation_names_a_leaf_that_holds (p : PolicyPredicate) (inputs : EvaluationInputs) :
  PolicyPredicate_validate p = Ok () →
  match evaluate inputs p with
  | EO_NoMatch => matches_bool inputs p = false
  | EO_Matched r =>
      matches_bool inputs p = true ∧
      (∃ leaf, contributes inputs p leaf ∧ matches_bool inputs leaf = true ∧
         r = non_security_reason inputs leaf ∧
         (is_security_leaf leaf = true ↔
            ∃ leaf', contributes inputs p leaf' ∧ is_security_leaf leaf' = true)) ∧
      (sane inputs → ExpirationReason_validate r = Ok ())
  end.
Proof.
  intros Hv. unfold evaluate. destruct (matches_bool inputs p) eqn:Hm; [| done]. cbn [negb].
  assert (∀ r, (∃ leaf, contributes inputs p leaf ∧ r = non_security_reason inputs leaf ∧
      (is_security_leaf leaf = true ↔
         ∃ leaf', contributes inputs p leaf' ∧ is_security_leaf leaf' = true)) →
    (∃ leaf, contributes inputs p leaf ∧ matches_bool inputs leaf = true ∧
       r = non_security_reason inputs leaf ∧
       (is_security_leaf leaf = true ↔
          ∃ leaf', contributes inputs p leaf' ∧ is_security_leaf leaf' = true)) ∧
    (sane inputs → ExpirationReason_validate r = Ok ())) as Hwrap.
  { intros r (leaf & Hc & -> & Hiff). pose proof (contributes_fires inputs p leaf Hm Hc) as Hf.
    split; [by exists leaf|]. intros Hs. apply leaf_reason_valid; try done.
    by eapply contributes_is_leaf. }
  destruct (matched_via_security inputs p) eqn:Hs; (split; [done|]); apply Hwrap.
  - apply matched_via_security_spec in Hs as Hs'. destruct Hs' as (leaf & Hc & Hsec).
    exists leaf. split_and!; [done | by destruct leaf |]. split; [| done]. intros _. by exists leaf.
  - destruct (non_security_reason_spec inputs p 0 Hv Hm Hs) as (leaf & Hc & Heq).
    exists leaf. split_and!; [done | done |]. split; [intros ?; by exists leaf |].
    intros Hex. apply matched_via_security_spec in Hex. congruence.
Qed.

(** *** The aggregate is its events *)

Lemma apply_all_app es es' p p' :
  apply_all es p = (p', Ok ()) → apply_all (es ++ es') p = apply_all es' p'.
Proof.
  revert p; induction es as [|e es IH]; intros p; cbn [apply_all app]; [cbv; by intros [= <-] |].
  cbv [mbind mut_bind]. destruct (apply_appended e p) as [p1 [[]|]]; [apply IH | done].
Qed.

(** Appending to a stream and folding the longer stream agree. *)
Lemma project_snoc es e p :
  project es = Ok p → project (es ++ [e]) = let '(p', r) := apply_appended e p in _ ← r; mret p'.
Proof.
  destruct es as [|first rest]; [done|]. cbn [app project].
  destruct first; try done. cbv [mbind result_bind].
  destruct (RetentionPolicyEvent_validate _) as [[]|]; [| done].
  destruct (apply_all rest _) as [p0 r0] eqn:Hall. destruct r0 as [[]|]; [| done].
  intros [= <-]. rewrite (apply_all_app _ _ _ _ Hall). cbn [apply_all]. cbv [mbind mut_bind].
  destruct (apply_appended e p0) as [p1 [[]|]]; done.
Qed.

(** An archived policy accepts nothing more. *)
Lemma archived_is_terminal e p p' : rp_archived p = true → apply_appended e p ≠ (p', Ok ()).
Proof.
  intros Ha. unfold apply_appended. cbv [mbind mut_bind self throw]. rewrite Ha.
  by destruct (negb _).
Qed.

Module SampleRetention.
Definition finding : Finding :=
  {| purl := "pkg:npm/left-pad@1.0.0"; vulnerability_id := "CVE-2024-1"; severity := High;
     cvss_score := None; title := "prototype pollution"; fixed_versions := ["1.0.1"%string];
     source_scanner := "trivy"; references := []; aliases := []; informational_class := None;
     severity_basis := Assessed; component_relation := Subject; statement := FS_Bytes;
     advisory_published_at := None |}.

(** Severe and fixable, or beyond the third newest. *)
Definition predicate : PolicyPredicate :=
  Composite Or [KeepLastN 3; Composite And [HasFindingAboveSeverity High; HasFixAvailable]].

Definition inputs : EvaluationInputs :=
  {| now := 1000 * NANOS; created_at := 0; last_downloaded_at := None; keep_rank := Some (5, 9);
     tag_targeted := false; findings := [finding]; finding_age_anchor := None;
     latest_scan_at := 900 * NANOS |}.

Lemma inputs_sane : sane inputs.
Proof. split; cbn; [naive_solver lia | | done]. intros f c Hf. by apply list_elem_of_singleton in Hf as ->. Qed.

Lemma evaluation_names_a_leaf_that_holds_witness :
  ∃ r, evaluate inputs predicate = EO_Matched r ∧ ExpirationReason_validate r = Ok () ∧
       r = ER_SecurityFinding High None 1 true None None (900 * NANOS).
Proof.
  pose proof (evaluation_names_a_leaf_that_holds predicate inputs eq_refl) as H.
  destruct (evaluate inputs predicate) as [|r] eqn:He; [by vm_compute in He |].
  exists r. split; [done|]. split; [by apply H, inputs_sane|].
  vm_compute in He. by injection He.
Defined.
End SampleRetention.
