(* ===== verification/RetentionUseCase.v ===== *)
(** The retention sweep (crates/hort-app/src/use_cases/retention_use_case.rs): for
    every policy and every candidate artifact, decide whether the artifact expires
    and, unless the sweep is a dry run, append the [ArtifactExpired] event.

    The state is the artifact streams; a sweep is a [prog], one port call at a
    time.  What the scan reader answers is a parameter ([ScanReader]), and so is
    whether an append fails.  Metrics and logs are left out. *)

From coqutil Require Import Datatypes.RecordSetters.
From S2P Require Import Prelude.
From S2P Require Import RustStd.
From S2P Require Import Types.
From S2P Require Import Events.
From S2P Require Import Artifact.
From S2P Require Import Store.
From S2P Require Import Concurrent.
From S2P Require Import Retention.
Import DoubleBraceUpdate.

Abbreviation Streams := (gmap Uuid (list PersistedEvent)).
Abbreviation sweep := (prog Streams AppError).

(** The [RetentionScanReader] port, and the event store's failures. *)
Class ScanReader : Type := {
  list_findings_for_artifact : Uuid → DomainResult (list Finding);
  first_observed_at : Uuid → list string → DomainResult (list (string * DateTime));
  read_fault : Uuid → option DomainError;
  append_fault : Uuid → option DomainError;
  stored_now : DateTime;
}.

Inductive RetentionEvaluationMode : Type :=
  | Execute
  | DryRun.

Definition is_destructive (m : RetentionEvaluationMode) : bool :=
  match m with Execute => true | DryRun => false end.

Record RetentionCandidate : Type := {
  rc_artifact : Artifact;
  rc_format : RepositoryFormat;
  rc_repository_key : string;
  resolved_rescan_interval_hours : option Z;
  rc_keep_rank : option (Z * Z);
  rc_tag_targeted : bool;
}.

Record EvaluateSummary : Type := {
  evaluated : Z;
  expired : Z;
  already_expired : Z;
  skipped_protected : Z;
  skipped_stale_scan : Z;
  errors : Z;
}.

Record EvaluationMatch : Type := {
  m_policy_id : Uuid;
  m_policy_name : string;
  m_artifact_id : Uuid;
  m_repository_id : Uuid;
  m_repository_key : string;
  m_name : string;
  m_version : option string;
  m_created_at : DateTime;
  m_checksum_sha256 : string;
}.

Record EvaluationReport : Type := {
  summary : EvaluateSummary;
  matches : list EvaluationMatch;
}.

Definition EvaluationReport_default : EvaluationReport :=
  {| summary := {| evaluated := 0; expired := 0; already_expired := 0; skipped_protected := 0;
                   skipped_stale_scan := 0; errors := 0 |};
     matches := [] |}.

Inductive EvalStep : Type :=
  | ES_Matched
  | ES_NoMatch
  | ES_AlreadyExpired
  | ES_SkippedProtected
  | ES_SkippedStaleScan
  | ES_Errored.

Definition DEFAULT_RESCAN_INTERVAL_HOURS : Z := 24.

(** [chrono::Duration::hours]; the interval is an [i32] of a policy or the default,
    far from the range where it panics. *)
Definition hours (n : Z) : Duration := n * 3600 * NANOS.

Definition scan_is_fresh (now : DateTime) (candidate : RetentionCandidate)
    (latest_scan_at : option DateTime) : bool :=
  let interval_hours :=
    Z.max (default DEFAULT_RESCAN_INTERVAL_HOURS (resolved_rescan_interval_hours candidate)) 0 in
  let window := hours (2 * interval_hours) in
  match latest_scan_at with
  | None => false
  | Some last_scan_at =>
      let age := signed_duration_since now last_scan_at in
      (age <=? window) && (0 <=? age)
  end.

(** The time of the last [ScanCompleted] on the stream. *)
Definition latest_scan_at_of (stream : list PersistedEvent) : option DateTime :=
  head (omap (λ ev, match event ev with DE_ScanCompleted _ => Some (stored_at ev) | _ => None end)
          (rev stream)).

Definition is_expired_by (policy_id : Uuid) (ev : PersistedEvent) : bool :=
  match event ev with DE_ArtifactExpired x => ax_policy_id x =? policy_id | _ => false end.

Definition ingest_source_of (stream : list PersistedEvent) : option IngestSource :=
  head (omap (λ ev, match event ev with DE_ArtifactIngested e => Some (ai_source e) | _ => None end)
          stream).

(** Statuses whose artifacts are evidence, not garbage. *)
Definition is_protected (s : QuarantineStatus) : bool :=
  match s with
  | QS_Quarantined | QS_Rejected | QS_ScanIndeterminate => true
  | QS_None | QS_Released => false
  end.

Section sweep.
Context `{EventWire, SerdeJson, ScanReader}.

Definition read_artifact_stream (id : Uuid) : sweep (AppResult (list PersistedEvent)) :=
  port (λ s, (s, match read_fault id with
                 | Some e => Err (AE_Domain e)
                 | None =>
                     let read := capped_read (default [] (s !! id)) in
                     if over_cap read then Err (over_cap_refusal id) else Ok (events read)
                 end)).

(** The method of the use case. *)
Definition resolve_anchor (artifact : Artifact) (findings : list Finding)
    : DomainResult (option FindingAgeAnchor) :=
  if is_empty findings then Ok None
  else
    first_observed ← first_observed_at (artifact_id artifact) (distinct_vulnerability_ids findings);
    mret (resolve_finding_age_anchor findings first_observed).

(** From the stream to the evaluator's verdict: an early outcome, or the reason to
    record. *)
Definition assess (now : DateTime) (policy : RetentionPolicy) (candidate : RetentionCandidate)
    (stream : list PersistedEvent) : EvalStep + ExpirationReason :=
  let artifact := rc_artifact candidate in
  if existsb (is_expired_by (rp_id policy)) stream then inl ES_AlreadyExpired
  else
    match ingest_source_of stream with
    | None => inl ES_NoMatch
    | Some ingest_source =>
        if negb (scope_matches (rp_scope policy) (repository_id artifact) (rc_format candidate)
                   (name artifact) ingest_source)
        then inl ES_NoMatch
        else
          match list_findings_for_artifact (artifact_id artifact) with
          | Err _ => inl ES_Errored
          | Ok findings =>
              let latest_scan_at_opt := latest_scan_at_of stream in
              let security := is_security_driven (rp_predicate policy) in
              if security && negb (scan_is_fresh now candidate latest_scan_at_opt)
              then inl ES_SkippedStaleScan
              else
                match (if security then resolve_anchor artifact findings else Ok None) with
                | Err _ => inl ES_Errored
                | Ok finding_age_anchor =>
                    let inputs :=
                      {| now := now; created_at := a_created_at artifact;
                         last_downloaded_at := None; keep_rank := rc_keep_rank candidate;
                         tag_targeted := rc_tag_targeted candidate; findings := findings;
                         finding_age_anchor := finding_age_anchor;
                         latest_scan_at := default (a_created_at artifact) latest_scan_at_opt |} in
                    match evaluate inputs (rp_predicate policy) with
                    | EO_NoMatch => inl ES_NoMatch
                    | EO_Matched reason => inr reason
                    end
                end
          end
    end.

(** [append] at [ExpectedVersion::Any]. *)
Definition append_any (id : Uuid) (batch : list DomainEvent) : sweep (DomainResult unit) :=
  port (λ s,
    match append_fault id, validate_and_serialize batch with
    | Some e, _ | None, Err e => (s, Err e)
    | None, Ok _ =>
        (<[id := default [] (s !! id) ++ ((λ e, {| event := e; stored_at := stored_now |}) <$> batch)]> s,
         Ok ())
    end).

Definition append_expired (policy : RetentionPolicy) (artifact : Artifact)
    (reason : ExpirationReason) (now : DateTime) (stream_len : Z) : sweep (AppResult unit) :=
  let id := artifact_id artifact in
  if STREAM_EVENT_CAP <? stream_len + 1 then
    mret (Err (AE_Domain (Conflict ([Lit "stream "] ++ artifact_stream id ++
      [Lit " holds "; ArgInt stream_len; Lit " events; appending ArtifactExpired would exceed the ";
       ArgInt STREAM_EVENT_CAP; Lit "-event cap"]))))
  else
    let expired := {| ax_artifact_id := id; ax_policy_id := rp_id policy;
                      ax_policy_name := rp_name policy; ax_reason := reason;
                      ax_eligible_at := now |} in
    match ArtifactExpired_validate expired with
    | Err e => mret (Err (AE_Domain e))
    | Ok _ => r ← append_any id [DE_ArtifactExpired expired]; mret (lift_domain r)
    end.

Definition evaluate_one (now : DateTime) (policy : RetentionPolicy)
    (candidate : RetentionCandidate) (mode : RetentionEvaluationMode) : sweep EvalStep :=
  let artifact := rc_artifact candidate in
  if is_protected (quarantine_status artifact) then mret ES_SkippedProtected
  else
    read ← read_artifact_stream (artifact_id artifact);
    match read with
    | Err _ => mret ES_Errored
    | Ok stream =>
        match assess now policy candidate stream with
        | inl step => mret step
        | inr reason =>
            r ← (if is_destructive mode
                 then append_expired policy artifact reason now (len stream)
                 else mret (Ok ()));
            mret (match r with Ok _ => ES_Matched | Err _ => ES_Errored end)
        end
    end.

Definition to_match (policy : RetentionPolicy) (candidate : RetentionCandidate) : EvaluationMatch :=
  let a := rc_artifact candidate in
  {| m_policy_id := rp_id policy; m_policy_name := rp_name policy; m_artifact_id := artifact_id a;
     m_repository_id := repository_id a; m_repository_key := rc_repository_key candidate;
     m_name := name a; m_version := version a; m_created_at := a_created_at a;
     m_checksum_sha256 := sha256_checksum a |}.

Definition count_step (step : EvalStep) (s : EvaluateSummary) : EvaluateSummary :=
  match step with
  | ES_Matched => s {{ expired ::= Z.succ }}
  | ES_NoMatch => s
  | ES_AlreadyExpired => s {{ already_expired ::= Z.succ }}
  | ES_SkippedProtected => s {{ skipped_protected ::= Z.succ }}
  | ES_SkippedStaleScan => s {{ skipped_stale_scan ::= Z.succ }}
  | ES_Errored => s {{ errors ::= Z.succ }}
  end.

(** The report after one pair. *)
Definition record_step (policy : RetentionPolicy) (candidate : RetentionCandidate) (step : EvalStep)
    (report : EvaluationReport) : EvaluationReport :=
  {| summary := count_step step ((summary report) {{ evaluated ::= Z.succ }});
     matches := matches report ++ match step with ES_Matched => [to_match policy candidate] | _ => [] end |}.

Fixpoint evaluate_candidates (now : DateTime) (policy : RetentionPolicy)
    (mode : RetentionEvaluationMode) (candidates : list RetentionCandidate)
    (report : EvaluationReport) : sweep EvaluationReport :=
  match candidates with
  | [] => mret report
  | candidate :: candidates' =>
      step ← evaluate_one now policy candidate mode;
      evaluate_candidates now policy mode candidates' (record_step policy candidate step report)
  end.

Fixpoint evaluate_policies_from (now : DateTime) (mode : RetentionEvaluationMode)
    (candidates : list RetentionCandidate) (policies : list RetentionPolicy)
    (report : EvaluationReport) : sweep EvaluationReport :=
  match policies with
  | [] => mret report
  | policy :: policies' =>
      report' ← (if rp_archived policy then mret report
                 else evaluate_candidates now policy mode candidates report);
      evaluate_policies_from now mode candidates policies' report'
  end.

Definition evaluate_policies_in_mode (now : DateTime) (policies : list RetentionPolicy)
    (candidates : list RetentionCandidate) (mode : RetentionEvaluationMode) : sweep EvaluationReport :=
  evaluate_policies_from now mode candidates policies EvaluationReport_default.

Definition evaluate_policies (now : DateTime) (policies : list RetentionPolicy)
    (candidates : list RetentionCandidate) : sweep EvaluateSummary :=
  report ← evaluate_policies_in_mode now policies candidates Execute; mret (summary report).
End sweep.
