(* ===== verification/RetentionSafety.v ===== *)
(** What a retention sweep may do: the events it appends and why, once per policy
    and artifact, and that a dry run foretells it. *)

From coqutil Require Import Datatypes.RecordSetters.
From S2P Require Import Prelude.
From S2P Require Import RustStd.
From S2P Require Import Types.
From S2P Require Import Events.
From S2P Require Import Artifact.
From S2P Require Import Store.
From S2P Require Import Concurrent.
From S2P Require Import Retention.
From S2P Require Import RetentionUseCase.
Import DoubleBraceUpdate.

Section safety.
Context `{EventWire, SerdeJson, ScanReader}.

Definition stream_at (s : Streams) (id : Uuid) : list PersistedEvent := default [] (s !! id).

Definition is_expiry (ev : PersistedEvent) : Prop :=
  match event ev with DE_ArtifactExpired _ => True | _ => False end.

(** ** Expiries do not disturb what the evaluator reads *)

Lemma omap_app_nil {A B} (f : A → option B) l k :
  (∀ x, x ∈ k → f x = None) → omap f (l ++ k) = omap f l.
Proof.
  intros Hk. rewrite omap_app. assert (omap f k = []) as ->; [| by rewrite app_nil_r].
  induction k as [|x k IH]; [done|]. cbn. rewrite (Hk x) by left. apply IH. intros y Hy. apply Hk. by right.
Qed.

Lemma ingest_source_of_app l ext :
  Forall is_expiry ext → ingest_source_of (l ++ ext) = ingest_source_of l.
Proof.
  rewrite Forall_forall. intros He. unfold ingest_source_of. rewrite omap_app_nil; [done|].
  intros ev Hev. specialize (He ev Hev). unfold is_expiry in He. by destruct (event ev).
Qed.

Lemma latest_scan_at_of_app l ext :
  Forall is_expiry ext → latest_scan_at_of (l ++ ext) = latest_scan_at_of l.
Proof.
  rewrite Forall_forall. intros He. unfold latest_scan_at_of. rewrite rev_app_distr.
  rewrite omap_app. assert (omap _ (rev ext) = []) as ->; [| done].
  apply elem_of_nil_inv. intros t (ev & Hev & Ht)%list_elem_of_omap.
  rewrite list_elem_of_In, <- in_rev, <- list_elem_of_In in Hev.
  specialize (He ev Hev). unfold is_expiry in He. by destruct (event ev).
Qed.

(** The verdict on a longer stream, when the extra events are other policies'
    expiries. *)
Lemma assess_app now policy candidate l ext :
  Forall is_expiry ext → existsb (is_expired_by (rp_id policy)) ext = false →
  assess now policy candidate (l ++ ext) = assess now policy candidate l.
Proof.
  intros He Hn. unfold assess. rewrite existsb_app, Hn, orb_false_r.
  by rewrite ingest_source_of_app, latest_scan_at_of_app.
Qed.

(** ** One pair *)

Lemma capped_read_whole l : over_cap (capped_read l) = false → events (capped_read l) = l.
Proof.
  unfold capped_read. cbn. intros Hc%Z.ltb_ge. unfold len, STREAM_EVENT_CAP in *.
  apply take_ge. rewrite length_take in Hc. lia.
Qed.

Definition expiry (policy : RetentionPolicy) (artifact : Artifact) (reason : ExpirationReason)
    (now : DateTime) : PersistedEvent :=
  {| event := DE_ArtifactExpired
       {| ax_artifact_id := artifact_id artifact; ax_policy_id := rp_id policy;
          ax_policy_name := rp_name policy; ax_reason := reason; ax_eligible_at := now |};
     stored_at := stored_now |}.

(** The step the inputs of a pair call for. *)
Definition called_for (now : DateTime) (policy : RetentionPolicy) (candidate : RetentionCandidate)
    (stream : list PersistedEvent) : EvalStep :=
  if is_protected (quarantine_status (rc_artifact candidate)) then ES_SkippedProtected
  else match assess now policy candidate stream with inl step => step | inr _ => ES_Matched end.

(** The stream is read only when the artifact is not protected. *)
Definition readable (candidate : RetentionCandidate) (s : Streams) : Prop :=
  is_protected (quarantine_status (rc_artifact candidate)) = true ∨
  read_fault (artifact_id (rc_artifact candidate)) = None ∧
  over_cap (capped_read (stream_at s (artifact_id (rc_artifact candidate)))) = false.

(** The outcomes of one evaluation that runs alone. *)
Inductive pair_outcome (now : DateTime) (policy : RetentionPolicy) (candidate : RetentionCandidate)
    (mode : RetentionEvaluationMode) (s : Streams) : Streams * AppResult EvalStep → Prop :=
  | PO_unchanged step :
      step ≠ ES_Matched →
      (step ≠ ES_Errored →
         readable candidate s ∧
         step = called_for now policy candidate (stream_at s (artifact_id (rc_artifact candidate)))) →
      pair_outcome now policy candidate mode s (s, Ok step)
  | PO_matched reason :
      let id := artifact_id (rc_artifact candidate) in
      is_protected (quarantine_status (rc_artifact candidate)) = false →
      assess now policy candidate (stream_at s id) = inr reason →
      over_cap (capped_read (stream_at s id)) = false → read_fault id = None →
      pair_outcome now policy candidate mode s
        (if is_destructive mode
         then <[id := stream_at s id ++ [expiry policy (rc_artifact candidate) reason now]]> s
         else s,
         Ok ES_Matched).

Lemma assess_not_matched now policy candidate l step :
  assess now policy candidate l = inl step → step ≠ ES_Matched.
Proof. unfold assess. repeat case_match; naive_solver. Qed.

Lemma run_evaluate_one now policy candidate mode s :
  pair_outcome now policy candidate mode s (run (evaluate_one now policy candidate mode) s).
Proof.
  unfold evaluate_one. destruct (is_protected _) eqn:Hp.
  { apply PO_unchanged; [done|]. intros _. unfold called_for. rewrite Hp. split; [by left | done]. }
  rewrite run_bind. cbn [run read_artifact_stream port]. set (id := artifact_id (rc_artifact candidate)).
  destruct (read_fault id) as [e|] eqn:Hr; [by apply PO_unchanged |]. cbv zeta. fold (stream_at s id).
  destruct (over_cap (capped_read (stream_at s id))) eqn:Hc; [by apply PO_unchanged |].
  rewrite (capped_read_whole _ Hc).
  destruct (assess now policy candidate (stream_at s id)) as [step|reason] eqn:Ha.
  { apply PO_unchanged; [by eapply assess_not_matched|]. intros _. unfold called_for. fold id.
    rewrite Hp, Ha. split; [by right | done]. }
  rewrite run_bind. pose proof (PO_matched now policy candidate mode s reason Hp Ha Hc Hr) as Hm.
  destruct mode; cbn [is_destructive] in *; [| exact Hm].
  unfold append_expired. fold id. destruct (_ <? _); [by apply PO_unchanged |].
  destruct (ArtifactExpired_validate _) as [[]|]; [| by apply PO_unchanged].
  rewrite run_bind. cbn [run append_any port]. fold id.
  destruct (append_fault id); [by apply PO_unchanged |].
  destruct (validate_and_serialize _) as [[]|]; [| by apply PO_unchanged]. exact Hm.
Qed.

(** ** Why an expiry was written *)

(** The inputs the evaluator saw come from the candidate and its own stream. *)
Definition drawn_from (now : DateTime) (candidate : RetentionCandidate)
    (stream : list PersistedEvent) (i : EvaluationInputs) : Prop :=
  Retention.now i = now ∧ created_at i = a_created_at (rc_artifact candidate) ∧
  keep_rank i = rc_keep_rank candidate ∧ tag_targeted i = rc_tag_targeted candidate ∧
  list_findings_for_artifact (artifact_id (rc_artifact candidate)) = Ok (findings i) ∧
  latest_scan_at i = default (a_created_at (rc_artifact candidate)) (latest_scan_at_of stream).

Definition covers (now : DateTime) (policy : RetentionPolicy) (candidate : RetentionCandidate)
    (stream : list PersistedEvent) (reason : ExpirationReason) : Prop :=
  (∃ source, ingest_source_of stream = Some source ∧
     scope_matches (rp_scope policy) (repository_id (rc_artifact candidate)) (rc_format candidate)
       (name (rc_artifact candidate)) source = true) ∧
  (is_security_driven (rp_predicate policy) = true →
     scan_is_fresh now candidate (latest_scan_at_of stream) = true) ∧
  ∃ i, drawn_from now candidate stream i ∧ evaluate i (rp_predicate policy) = EO_Matched reason.

Lemma assess_covers now policy candidate l reason :
  assess now policy candidate l = inr reason →
  existsb (is_expired_by (rp_id policy)) l = false ∧ covers now policy candidate l reason.
Proof.
  unfold assess, covers. destruct (existsb _ l); [done|].
  destruct (ingest_source_of l) as [source|]; [| done].
  destruct (scope_matches _ _ _ _ _) eqn:Hs; [| done]. cbn [negb].
  destruct (list_findings_for_artifact _) as [fs|] eqn:Hfs; [| done].
  destruct (_ && _) eqn:Hfresh; [done|].
  destruct (if is_security_driven (rp_predicate policy) then _ else _) as [anchor|]; [| done].
  destruct (evaluate _ _) eqn:He; [done|]. intros [= <-].
  split; [done|]. split; [by exists source|]. split.
  - intros Hsec. rewrite Hsec in Hfresh. by destruct (scan_is_fresh _ _ _).
  - eexists. split; [| exact He]. by split_and!.
Qed.

Definition justified (now : DateTime) (policies : list RetentionPolicy)
    (candidates : list RetentionCandidate) (s : Streams) (id : Uuid) (ev : PersistedEvent) : Prop :=
  ∃ policy candidate x,
    policy ∈ policies ∧ rp_archived policy = false ∧
    candidate ∈ candidates ∧ artifact_id (rc_artifact candidate) = id ∧
    is_protected (quarantine_status (rc_artifact candidate)) = false ∧
    event ev = DE_ArtifactExpired x ∧ ax_artifact_id x = id ∧ ax_policy_id x = rp_id policy ∧
    covers now policy candidate (stream_at s id) (ax_reason x).

Definition expiries_by (policy_id : Uuid) (l : list PersistedEvent) : nat :=
  length (filter (λ ev, is_expired_by policy_id ev = true) l).

Lemma expiries_by_zero policy_id l :
  existsb (is_expired_by policy_id) l = false → expiries_by policy_id l = 0%nat.
Proof.
  unfold expiries_by. induction l as [|ev l IH]; [done|]. cbn [existsb].
  intros [Hev Hl]%orb_false_iff. rewrite filter_cons_False by congruence. by apply IH.
Qed.

Lemma expiries_by_app policy_id l k :
  expiries_by policy_id (l ++ k) = (expiries_by policy_id l + expiries_by policy_id k)%nat.
Proof. unfold expiries_by. by rewrite filter_app, length_app. Qed.

(** What a sweep in progress has made of [s0]. *)
Record swept (now : DateTime) (policies : list RetentionPolicy)
    (candidates : list RetentionCandidate) (mode : RetentionEvaluationMode) (s0 s : Streams) : Prop := {
  swept_dry : mode = DryRun → s = s0;
  swept_ext id : ∃ ext, stream_at s id = stream_at s0 id ++ ext ∧ Forall is_expiry ext ∧
    ∀ ev, ev ∈ ext → justified now policies candidates s0 id ev;
  swept_once id policy_id : (expiries_by policy_id (stream_at s0 id) ≤ 1)%nat →
    (expiries_by policy_id (stream_at s id) ≤ 1)%nat;
}.

Lemma covers_app now policy candidate l ext reason :
  Forall is_expiry ext → covers now policy candidate (l ++ ext) reason →
  covers now policy candidate l reason.
Proof.
  intros He. unfold covers, drawn_from.
  by rewrite ingest_source_of_app, latest_scan_at_of_app.
Qed.

Lemma stream_at_insert s id l id' :
  stream_at (<[id := l]> s) id' = if bool_decide (id = id') then l else stream_at s id'.
Proof.
  unfold stream_at. case_bool_decide as Hid.
  - subst. by rewrite lookup_insert_eq.
  - by rewrite lookup_insert_ne.
Qed.

Lemma swept_pair now policies candidates mode s0 s policy candidate s' step :
  swept now policies candidates mode s0 s →
  policy ∈ policies → rp_archived policy = false → candidate ∈ candidates →
  pair_outcome now policy candidate mode s (s', Ok step) →
  swept now policies candidates mode s0 s'.
Proof.
  intros Hsw Hpol Har Hcand Ho.
  inversion Ho as [step' Hne Hwhy Heq1 | reason id Hprot Ha Hcap Hread Heq1]; subst; [done|].
  destruct mode; cbn [is_destructive]; [| done].
  apply assess_covers in Ha as [Hnot Hcov]. destruct Hsw as [_ Hext Honce].
  set (ev := expiry policy (rc_artifact candidate) reason now).
  split; [done | |].
  - intros id'. rewrite stream_at_insert. case_bool_decide as Hid; [| apply Hext]. subst id'.
    destruct (Hext id) as (ext & Heq & Hexp & Hjust). exists (ext ++ [ev]).
    split; [by rewrite Heq, (assoc_L (++)) |]. split; [apply Forall_app; by split; [| apply Forall_singleton] |].
    intros ev' [Hev | ->%list_elem_of_singleton]%elem_of_app; [by apply Hjust|].
    eexists policy, candidate, _. split_and!; [done.. |].
    eapply covers_app; [exact Hexp | by rewrite <- Heq].
  - intros id' policy_id. rewrite stream_at_insert. case_bool_decide as Hid; [| apply Honce]. subst id'.
    rewrite expiries_by_app. intros Hone. specialize (Honce id policy_id Hone).
    destruct (Z.eqb_spec (rp_id policy) policy_id) as [Hp | Hp].
    + subst policy_id. rewrite (expiries_by_zero _ _ Hnot). unfold expiries_by.
      apply (length_filter (λ ev, is_expired_by (rp_id policy) ev = true) [ev]).
    + rewrite (expiries_by_zero policy_id [ev]); [lia|]. cbn. apply orb_false_iff.
      split; [by apply Z.eqb_neq | done].
Qed.

(** ** The loops *)

(** The sweep as one loop over its pairs; an archived policy has none. *)
Definition pairs (policies : list RetentionPolicy) (candidates : list RetentionCandidate)
    : list (RetentionPolicy * RetentionCandidate) :=
  policies ≫= λ policy, if rp_archived policy then [] else pair policy <$> candidates.

Fixpoint evaluate_pairs (now : DateTime) (mode : RetentionEvaluationMode)
    (ps : list (RetentionPolicy * RetentionCandidate)) (report : EvaluationReport)
    : sweep EvaluationReport :=
  match ps with
  | [] => mret report
  | (policy, candidate) :: ps' =>
      step ← evaluate_one now policy candidate mode;
      evaluate_pairs now mode ps' (record_step policy candidate step report)
  end.

Lemma run_evaluate_pairs_app now mode ps qs report s :
  run (evaluate_pairs now mode (ps ++ qs) report) s =
  let '(s', r) := run (evaluate_pairs now mode ps report) s in
  match r with Ok report' => run (evaluate_pairs now mode qs report') s' | Err e => (s', Err e) end.
Proof.
  revert report s; induction ps as [|[policy candidate] ps IH]; intros report s; [done|].
  cbn [evaluate_pairs app]. rewrite !run_bind.
  destruct (run (evaluate_one now policy candidate mode) s) as [s1 [step|]]; [apply IH | done].
Qed.

Lemma run_evaluate_candidates now policy mode candidates report s :
  run (evaluate_candidates now policy mode candidates report) s =
  run (evaluate_pairs now mode (pair policy <$> candidates) report) s.
Proof.
  revert report s; induction candidates as [|c candidates IH]; intros report s; [done|].
  cbn [evaluate_candidates fmap list_fmap evaluate_pairs]. rewrite !run_bind.
  destruct (run (evaluate_one now policy c mode) s) as [s1 [step|]]; [apply IH | done].
Qed.

Lemma run_evaluate_policies now mode candidates policies report s :
  run (evaluate_policies_from now mode candidates policies report) s =
  run (evaluate_pairs now mode (pairs policies candidates) report) s.
Proof.
  revert report s; induction policies as [|p policies IH]; intros report s; [done|].
  cbn [evaluate_policies_from]. unfold pairs. cbn [mbind list_bind]. fold (pairs policies candidates).
  rewrite run_evaluate_pairs_app, run_bind.
  destruct (rp_archived p); [apply IH|]. rewrite run_evaluate_candidates.
  destruct (run (evaluate_pairs _ _ _ report) s) as [s1 [r|]]; [apply IH | done].
Qed.

Lemma elem_of_pairs policies candidates policy candidate :
  (policy, candidate) ∈ pairs policies candidates →
  policy ∈ policies ∧ rp_archived policy = false ∧ candidate ∈ candidates.
Proof.
  unfold pairs. intros (p & Hin & Hp)%list_elem_of_bind.
  destruct (rp_archived p) eqn:Ha; [by apply elem_of_nil in Hin|].
  apply list_elem_of_fmap in Hin as (c & [= -> ->] & Hc). done.
Qed.

Lemma swept_pairs now policies candidates mode s0 ps s report :
  (∀ policy candidate, (policy, candidate) ∈ ps → (policy, candidate) ∈ pairs policies candidates) →
  swept now policies candidates mode s0 s →
  ∃ s' report', run (evaluate_pairs now mode ps report) s = (s', Ok report') ∧
                swept now policies candidates mode s0 s'.
Proof.
  revert s report; induction ps as [|[policy candidate] ps IH]; intros s report Hin Hs.
  { by exists s, report. }
  cbn [evaluate_pairs]. rewrite run_bind.
  pose proof (run_evaluate_one now policy candidate mode s) as Ho.
  destruct (run (evaluate_one now policy candidate mode) s) as [s1 r].
  assert (∃ step, r = Ok step) as [step ->] by (inversion Ho; by eexists).
  apply IH; [intros p c Hpc; apply Hin; by right|].
  destruct (elem_of_pairs policies candidates policy candidate) as (? & ? & ?); [apply Hin; left|].
  by eapply swept_pair.
Qed.

(** C30. A retention sweep always completes with a report, and only ever appends
    expiries it can answer for.  Each is the expiry of a candidate by a policy of
    the sweep that is not archived: the artifact is not quarantined, rejected or
    indeterminate; the policy's scope covers it, by the source its own stream
    records; its predicate matched, for the reason the event carries; and a
    predicate that rests on scan data was only evaluated on a scan of this artifact
    within twice its rescan interval.  However often sweeps run, one after the
    other, a policy expires an artifact at most once; a dry run appends nothing. *)
Theorem sweeps_expire_only_what_policies_cover (now : DateTime) (policies : list RetentionPolicy)
    (candidates : list RetentionCandidate) (mode : RetentionEvaluationMode) (s : Streams) :
  ∃ s' report,
    run (evaluate_policies_in_mode now policies candidates mode) s = (s', Ok report) ∧
    (mode = DryRun → s' = s) ∧
    (∀ id, ∃ ext, stream_at s' id = stream_at s id ++ ext ∧
       ∀ ev, ev ∈ ext → justified now policies candidates s id ev) ∧
    (∀ id policy_id, (expiries_by policy_id (stream_at s id) ≤ 1)%nat →
       (expiries_by policy_id (stream_at s' id) ≤ 1)%nat).
Proof.
  unfold evaluate_policies_in_mode. rewrite run_evaluate_policies.
  destruct (swept_pairs now policies candidates mode s (pairs policies candidates) s
    EvaluationReport_default) as (s' & report & Hrun & [Hdry Hext Honce]); [done | |].
  { split; [done | | done]. intros id. exists []. rewrite app_nil_r.
    split_and!; [done | constructor | by intros ev ?%elem_of_nil]. }
  exists s', report. split_and!; [done | done | | done].
  intros id. destruct (Hext id) as (ext & Heq & _ & Hj). by exists ext.
Qed.

(** ** Dry runs *)

Lemma run_dry now policy candidate s :
  readable candidate s →
  run (evaluate_one now policy candidate DryRun) s =
  (s, Ok (called_for now policy candidate (stream_at s (artifact_id (rc_artifact candidate))))).
Proof.
  unfold evaluate_one, called_for. intros [Hp | [Hr Hc]]; [by rewrite Hp|].
  destruct (is_protected _); [done|]. rewrite run_bind. cbn [run read_artifact_stream port].
  rewrite Hr. fold (stream_at s (artifact_id (rc_artifact candidate))). cbv zeta.
  rewrite Hc, (capped_read_whole _ Hc). by destruct (assess _ _ _ _).
Qed.

Definition key (p : RetentionPolicy * RetentionCandidate) : Uuid * Uuid :=
  (rp_id p.1, artifact_id (rc_artifact p.2)).

(** [s] is [s0] with expiries of the pairs already evaluated. *)
Definition ahead (evaluated : list (Uuid * Uuid)) (s0 s : Streams) : Prop :=
  ∀ id, ∃ ext, stream_at s id = stream_at s0 id ++ ext ∧ Forall is_expiry ext ∧
    ∀ ev policy_id, ev ∈ ext → is_expired_by policy_id ev = true → (policy_id, id) ∈ evaluated.

Lemma over_cap_prefix l ext :
  over_cap (capped_read (l ++ ext)) = false → over_cap (capped_read l) = false.
Proof.
  unfold capped_read. cbn. rewrite !Z.ltb_ge. unfold len, STREAM_EVENT_CAP.
  rewrite !length_take, length_app. lia.
Qed.

Lemma ahead_pair evaluated s0 s policy candidate :
  ahead evaluated s0 s → key (policy, candidate) ∉ evaluated →
  let id := artifact_id (rc_artifact candidate) in
  (readable candidate s → readable candidate s0) ∧
  ∀ now, called_for now policy candidate (stream_at s id) =
         called_for now policy candidate (stream_at s0 id).
Proof.
  intros Hah Hk id. destruct (Hah id) as (ext & Heq & Hexp & Hdone). split.
  - intros [Hp | [Hr Hc]]; [by left | right]. split; [done|]. fold id in Hc |- *.
    rewrite Heq in Hc. by eapply over_cap_prefix.
  - intros now. unfold called_for. rewrite Heq, assess_app; [done | done |].
    destruct (existsb (is_expired_by (rp_id policy)) ext) eqn:He; [| done].
    apply existsb_elem in He as (ev & Hev & Hby). destruct Hk. by eapply Hdone.
Qed.

Lemma ahead_step evaluated s0 s policy candidate now s' step :
  ahead evaluated s0 s → pair_outcome now policy candidate Execute s (s', Ok step) →
  ahead (key (policy, candidate) :: evaluated) s0 s'.
Proof.
  intros Hah Ho. inversion Ho as [step' Hne Hwhy Heq1 | reason id Hprot Ha Hcap Hread Heq1]; subst.
  { intros id. destruct (Hah id) as (ext & Heq & Hexp & Hdone). exists ext. split_and!; [done | done |].
    intros ev pid Hev Hby. right. by eapply Hdone. }
  cbn [is_destructive]. intros id'. rewrite stream_at_insert.
  destruct (Hah id') as (ext & Heq & Hexp & Hdone). case_bool_decide as Hid.
  - subst id'. exists (ext ++ [expiry policy (rc_artifact candidate) reason now]).
    split; [by rewrite Heq, (assoc_L (++)) |]. split; [apply Forall_app; by split; [| apply Forall_singleton] |].
    intros ev pid [Hev | ->%list_elem_of_singleton]%elem_of_app Hby; [right; by eapply Hdone|].
    cbn in Hby. apply Z.eqb_eq in Hby as <-. left.
  - exists ext. split_and!; [done | done |]. intros ev pid Hev Hby. right. by eapply Hdone.
Qed.

Lemma errors_record policy candidate step report :
  errors (summary report) ≤ errors (summary (record_step policy candidate step report)) ∧
  (step = ES_Errored →
     errors (summary report) < errors (summary (record_step policy candidate step report))).
Proof.
  destruct report as [[] ?], step; cbn; split; (lia || done).
Qed.

Lemma errors_monotone now mode ps report s s' report' :
  run (evaluate_pairs now mode ps report) s = (s', Ok report') →
  errors (summary report) ≤ errors (summary report').
Proof.
  revert report s; induction ps as [|[policy candidate] ps IH]; intros report s; cbn [evaluate_pairs].
  { by intros [= _ <-]. }
  rewrite run_bind. destruct (run (evaluate_one _ _ _ _) s) as [s1 [step|]]; [| done].
  intros Hrun%IH. destruct (errors_record policy candidate step report). lia.
Qed.

Lemma dry_run_pairs now ps evaluated report s0 s s' report' :
  NoDup (key <$> ps) → (∀ k, k ∈ key <$> ps → k ∉ evaluated) → ahead evaluated s0 s →
  run (evaluate_pairs now Execute ps report) s = (s', Ok report') →
  errors (summary report') = errors (summary report) →
  run (evaluate_pairs now DryRun ps report) s0 = (s0, Ok report').
Proof.
  revert evaluated report s; induction ps as [|[policy candidate] ps IH];
    intros evaluated report s Hnd Hfresh Hah Hrun Herr; cbn [evaluate_pairs] in *.
  { injection Hrun as _ <-. done. }
  rewrite fmap_cons in Hnd, Hfresh. apply NoDup_cons in Hnd as [Hk Hnd].
  rewrite run_bind in Hrun |- *.
  pose proof (run_evaluate_one now policy candidate Execute s) as Ho.
  destruct (run (evaluate_one now policy candidate Execute) s) as [s1 [step|]]; [| done].
  pose proof (errors_monotone _ _ _ _ _ _ _ Hrun) as Hmono.
  destruct (errors_record policy candidate step report) as [Hle Hlt].
  assert (step ≠ ES_Errored) as Hok by (intros ->; specialize (Hlt eq_refl); lia).
  destruct (ahead_pair evaluated s0 s policy candidate Hah) as [Hread Hcall];
    [apply Hfresh; left|].
  assert (readable candidate s ∧
    step = called_for now policy candidate (stream_at s (artifact_id (rc_artifact candidate))))
    as [Hr ->].
  { inversion Ho as [? ? Hwhy | reason id Hprot Ha Hcap Hrd]; subst; [by apply Hwhy|].
    split; [by right|]. unfold called_for. fold id. by rewrite Hprot, Ha. }
  rewrite (run_dry now policy candidate s0) by (by apply Hread). rewrite <- Hcall.
  eapply (IH (key (policy, candidate) :: evaluated)); [done | | by eapply ahead_step | done | lia].
  intros k Hkin. rewrite not_elem_of_cons. split; [by intros -> |]. apply Hfresh. by right.
Qed.

Lemma NoDup_pairs policies candidates :
  NoDup (rp_id <$> policies) → NoDup ((artifact_id ∘ rc_artifact) <$> candidates) →
  NoDup (key <$> pairs policies candidates).
Proof.
  intros Hp Hc. induction policies as [|p policies IH]; [constructor|].
  rewrite fmap_cons in Hp. apply NoDup_cons in Hp as [Hnew Hp].
  unfold pairs. cbn [mbind list_bind]. fold (pairs policies candidates). rewrite fmap_app.
  apply NoDup_app. split_and!; [| | by apply IH].
  - destruct (rp_archived p); [constructor|]. rewrite <- list_fmap_compose.
    apply (NoDup_fmap_1 snd). rewrite <- list_fmap_compose. exact Hc.
  - intros k Hk (k' & -> & Hk')%list_elem_of_fmap. destruct k' as [p' c'].
    apply elem_of_pairs in Hk' as (Hp' & _). destruct (rp_archived p); [by apply elem_of_nil in Hk|].
    rewrite <- list_fmap_compose in Hk. apply list_elem_of_fmap in Hk as (c & [= Hid _] & _).
    apply Hnew. rewrite <- Hid. by apply list_elem_of_fmap_2.
Qed.

(** A dry run foretells the sweep: when the sweep it stands for runs from the
    same streams and meets no error, the dry run's report is the sweep's report,
    the same matches in the same order and the same counts.  An expiry the sweep
    writes never changes what a later pair of the same sweep is judged by. *)
Theorem dry_run_foretells_the_sweep (now : DateTime) (policies : list RetentionPolicy)
    (candidates : list RetentionCandidate) (s s' : Streams) (report : EvaluationReport) :
  NoDup (rp_id <$> policies) → NoDup ((artifact_id ∘ rc_artifact) <$> candidates) →
  run (evaluate_policies_in_mode now policies candidates Execute) s = (s', Ok report) →
  errors (summary report) = 0 →
  run (evaluate_policies_in_mode now policies candidates DryRun) s = (s, Ok report).
Proof.
  intros Hp Hc. unfold evaluate_policies_in_mode. rewrite !run_evaluate_policies. intros Hrun Herr.
  eapply (dry_run_pairs now _ []); [by apply NoDup_pairs | | | exact Hrun | exact Herr].
  - intros k _. apply not_elem_of_nil.
  - intros id. exists []. rewrite app_nil_r.
    split_and!; [done | constructor | by intros ev pid ?%elem_of_nil].
Qed.
End safety.

Module SampleSweep.
Import SampleRetention.
#[export] Instance wire : EventWire := λ _, Json.VNull.
#[export] Instance serde : SerdeJson := λ _, "null"%string.
#[export] Instance reader : ScanReader :=
  {| list_findings_for_artifact := λ _, Ok [finding]; first_observed_at := λ _ _, Ok [];
     read_fault := λ _, None; append_fault := λ _, None; stored_now := 0 |}.

Definition policy : RetentionPolicy :=
  {| rp_id := 1; rp_name := "drop fixable"; rp_predicate := predicate; rp_scope := RS_AllRepos;
     rp_archived := false; rp_created_at := 0; rp_updated_at := 0; rp_last_evaluated_at := None;
     rp_last_matched_count := 0; rp_last_expired_count := 0; rp_stream_version := 0 |}.

Definition candidate (id : Uuid) (status : QuarantineStatus) : RetentionCandidate :=
  {| rc_artifact := set_status status (SampleStore.artifact id); rc_format := Npm;
     rc_repository_key := "npm"; resolved_rescan_interval_hours := None;
     rc_keep_rank := Some (5, 9); rc_tag_targeted := false |}.

Definition candidates : list RetentionCandidate :=
  [candidate 5 QS_Released; candidate 6 QS_Rejected].

(** Ingested through the proxy and scanned a minute ago. *)
Definition history (id : Uuid) : list PersistedEvent :=
  [{| event := DE_ArtifactIngested
        {| ai_artifact_id := id; ai_repository_id := 2; ai_name := "left-pad"; ai_version := None;
           ai_sha256 := "00"; ai_size_bytes := 10; ai_source := IS_Proxied; ai_metadata := Json.VNull;
           ai_metadata_blob := None; ai_upstream_published_at := None |}; stored_at := 0 |};
   {| event := DE_ScanCompleted
        {| sc_artifact_id := id; scanner := "trivy"; finding_count := 1;
           severity_summary := {| critical := 0; high := 1; medium := 0; low := 0; negligible := 0 |};
           findings_blob := Some "00"%string; assessment := SA_Analysed |};
      stored_at := 940 * NANOS |}].

Definition streams : Streams := {[ 5 := history 5; 6 := history 6 ]}.

Definition after : Streams * AppResult EvaluationReport :=
  run (evaluate_policies_in_mode (1000 * NANOS) [policy] candidates Execute) streams.

Lemma dry_run_foretells_the_sweep_witness :
  match after.2 with
  | Ok report =>
      errors (summary report) = 0 ∧ expired (summary report) = 1 ∧
      skipped_protected (summary report) = 1 ∧ len (stream_at after.1 5) = 3 ∧
      run (evaluate_policies_in_mode (1000 * NANOS) [policy] candidates DryRun) streams =
      (streams, Ok report)
  | Err _ => False
  end.
Proof.
  destruct after.2 as [report|] eqn:Hafter; [| by vm_compute in Hafter].
  pose proof (run_result _ _ _ Hafter) as Hrun.
  assert (errors (summary report) = 0 ∧ expired (summary report) = 1 ∧
          skipped_protected (summary report) = 1) as (He & Hx & Hs).
  { clear Hrun. vm_compute in Hafter. injection Hafter as <-. repeat split. }
  split_and!; [exact He | exact Hx | exact Hs | by vm_compute |].
  refine (dry_run_foretells_the_sweep _ [policy] candidates streams _ report _ _ Hrun He).
  - apply NoDup_singleton.
  - apply (bool_decide_unpack _). by vm_compute.
Defined.
End SampleSweep.
