(* ===== verification/ContentRefs.v ===== *)
(** The content store and the claims on it: CAS blobs, the rows and streams of the
    artifacts that serve them, the [content_references] edges that keep them, and
    the advisory lock under which edges are written.

    crates/hort-adapters-postgres/src/blob_lock.rs, pg_content_reference_repo.rs,
    contention.rs and artifact_lifecycle.rs ([commit_transition_with_enqueues]);
    crates/hort-domain/src/ports/content_reference_index.rs;
    crates/hort-app/src/use_cases/ingest_use_case.rs ([ingest_edges],
    [ingest_signature_manifest], [rollback_unreferenced_cas]); and the sweep of a
    rejected artifact's edges in quarantine_use_case.rs and
    apply_config_use_case/curation.rs.

    The state is a [World]; a task is a [prog] over it, one port call at a time.  A
    transaction is one call: it waits until the locks it needs are free, then runs
    whole.  Any call may fail, as the [Backend] says.  The sidecar of an edge and
    its time, job rows, logs and metrics are left out. *)

From coqutil Require Import Datatypes.RecordSetters.
From S2P Require Import Prelude.
From S2P Require Import RustStd.
From S2P Require Import Json.
From S2P Require Import Types.
From S2P Require Import Events.
From S2P Require Import QuarantineTransitions.
From S2P Require Import Artifact.
From S2P Require Import ScanEngine.
From S2P Require Import Store.
From S2P Require Import Lifecycle.
From S2P Require Import Concurrent.
Import DoubleBraceUpdate.

(** ** State *)

Record ContentReference : Type := {
  source_artifact_id : Uuid;
  target_content_hash : ContentHash;
  kind : string;
  cr_repository_id : Uuid;
}.

#[export] Instance ContentReference_eq_dec : EqDecision ContentReference.
Proof. solve_decision. Defined.
#[export] Instance ContentReference_countable : Countable ContentReference.
Proof.
  refine (inj_countable' (λ r, (source_artifact_id r, target_content_hash r, kind r, cr_repository_id r))
            (λ '(s, t, k, r), {| source_artifact_id := s; target_content_hash := t; kind := k;
                                 cr_repository_id := r |}) _).
  by intros [].
Defined.

Record ContentReferenceClaim : Type := {
  cl_target_content_hash : ContentHash;
  cl_kind : string;
}.

Definition resolve (c : ContentReferenceClaim) (source repository : Uuid) : ContentReference :=
  {| source_artifact_id := source; target_content_hash := cl_target_content_hash c;
     kind := cl_kind c; cr_repository_id := repository |}.

Inductive RefTarget : Type :=
  | RT_ContentHash (hash : ContentHash)
  | RT_Version (version : string).

Record MutableRef : Type := {
  mr_repository_id : Uuid;
  mr_namespace : string;
  mr_ref_name : string;
  mr_target : RefTarget;
}.

Record WorklistRow : Type := {
  wl_refs_remaining : Z;
  wl_completed_at : option DateTime;
}.

Record World : Type := {
  artifacts : Db;
  (** [artifact_metadata.metadata_blob], where it is not null. *)
  metadata_blobs : gmap Uuid ContentHash;
  content_references : gset ContentReference;
  worklist : gmap (Uuid * ContentHash) WorklistRow;
  mutable_refs : list MutableRef;
  (** The blobs the content store holds. *)
  storage : gset ContentHash;
  (** The advisory locks held across calls, each with the task that holds it. *)
  leases : gmap Z nat;
  (** How many port calls have been made. *)
  calls : nat;
}.

Abbreviation task := (prog World AppError).

(** The failures of the database and of the content store, as a function of the
    call they hit, and what is not under the repository's control. *)
Class Backend : Type := {
  db_fault : nat → option DomainError;
  storage_fault : nat → option DomainError;
  (** A transaction in flight holds the lock. *)
  lock_busy : nat → bool;
  utc_now : nat → DateTime;
  (** A violated [REFERENCES artifacts(id)]. *)
  foreign_key_error : DomainError;
  (** A lock wait that was given up. *)
  wait_error : DomainError;
  (** [Uuid::new_v4] gives an id that is not in use. *)
  new_v4 : Db → Uuid;
  new_v4_fresh : ∀ db, db !! new_v4 db = None;
}.

(** ** The blob lock *)

Definition blob_lock_key (hash : ContentHash) : Z :=
  let head := if 16 <=? strlen hash then String.substring 0 16 hash else ""%string in
  u64_as_i64 (default 0 (u64_from_hex head)).

Definition blob_lock_order (hashes : list ContentHash) : list Z :=
  dedup (sort_by Z.leb (blob_lock_key <$> hashes)).

Definition unlocked (w : World) (key : Z) : bool :=
  match leases w !! key with None => true | Some _ => false end.

Section ports.
Context `{EventWire, SerdeJson, Backend}.

(** ** Calls *)

Definition tick (w : World) : World := w {{ calls ::= S }}.

(** One statement or one transaction on the database. *)
Definition on_db {A} (m : World → World * DomainResult A) (w : World) : World * DomainResult A :=
  match db_fault (calls w) with
  | Some e => (tick w, Err e)
  | None => m (tick w)
  end.

Definition query {A} (m : World → World * DomainResult A) : task (DomainResult A) := port (on_db m).

(** A transaction that takes the given locks and waits for them; [polls] bounds how
    often it is scheduled while it waits. *)
Fixpoint locking {A} (polls : nat) (keys : list Z) (m : World → World * DomainResult A)
    : task (DomainResult A) :=
  match polls with
  | O => mret (Err wait_error)
  | S polls' =>
      Call (λ w, if forallb (unlocked w) keys
                 then let '(w', r) := on_db m w in (w', Done (Ok r))
                 else (w, locking polls' keys m))
  end.

Definition CONTENTION_RETRY_ATTEMPTS : nat := 4.

Fixpoint with_contention_retry {A} (attempts : nat) (f : task (DomainResult A))
    : task (DomainResult A) :=
  match attempts with
  | S (S _ as attempts') =>
      r ← f;
      match r with
      | Err (Contended _) => with_contention_retry attempts' f
      | _ => mret r
      end
  | _ => f
  end.

(** ** Storage *)

Definition on_storage {A} (m : World → World * DomainResult A) : task (DomainResult A) :=
  port (λ w, match storage_fault (calls w) with
             | Some e => (tick w, Err e)
             | None => m (tick w)
             end).

(** [put] of a stream that hashes to [hash]. *)
Definition storage_put (hash : ContentHash) : task (DomainResult ContentHash) :=
  on_storage (λ w, (w {{ storage ::= λ s, {[ hash ]} ∪ s }}, Ok hash)).

(** A backend may also answer [Ok] for a missing blob. *)
Definition storage_delete (hash : ContentHash) : task (DomainResult unit) :=
  on_storage (λ w,
    if decide (hash ∈ storage w) then (w {{ storage ::= λ s, s ∖ {[ hash ]} }}, Ok ())
    else (w, Err (NotFound "content" [ArgStr hash]))).

(** ** Edges *)

(** The upsert inside a transaction that already holds the locks: the primary key
    is the whole edge, and the source has to exist. *)
Fixpoint upsert_edges (edges : list ContentReference) (w : World) : World * DomainResult unit :=
  match edges with
  | [] => (w, Ok ())
  | e :: edges' =>
      match artifacts w !! source_artifact_id e with
      | None => (w, Err foreign_key_error)
      | Some _ => upsert_edges edges' (w {{ content_references ::= λ s, {[ e ]} ∪ s }})
      end
  end.

(** Roll back what a failed transaction has written. *)
Definition in_tx {A} (m : World → World * DomainResult A) (w : World) : World * DomainResult A :=
  match m w with
  | (w', Ok a) => (w', Ok a)
  | (_, Err e) => (w, Err e)
  end.

Definition edge_locks (edges : list ContentReference) : list Z :=
  blob_lock_order (target_content_hash <$> edges).

(** [ContentReferenceIndex::insert]. *)
Definition insert_reference (polls : nat) (r : ContentReference) : task (DomainResult unit) :=
  with_contention_retry CONTENTION_RETRY_ATTEMPTS
    (locking polls (edge_locks [r]) (in_tx (upsert_edges [r]))).

Definition delete_by_source (source : Uuid) : task (DomainResult unit) :=
  query (λ w, (w {{ content_references ::= filter (λ r, source_artifact_id r ≠ source) }}, Ok ())).

(** ** The minting transition *)

(** [upsert_in_tx] of the metadata row, if the transition carries one. *)
Definition upsert_metadata (id : Uuid) (metadata : option (option ContentHash))
    (m : gmap Uuid ContentHash) : gmap Uuid ContentHash :=
  match metadata with
  | None => m
  | Some (Some blob) => <[id := blob]> m
  | Some None => base.delete id m
  end.

(** The transaction: events and row, metadata, edges.  The jobs it enqueues are left
    out. *)
Definition mint_tx (a : Artifact) (id : Uuid) (expected : ExpectedVersion)
    (batch : list DomainEvent) (now : DateTime) (metadata : option (option ContentHash))
    (edges : list ContentReference) (w : World) : World * DomainResult unit :=
  match commit_transition a id expected batch now (artifacts w) with
  | (_, Err e) => (w, Err e)
  | (db', Ok _) =>
      upsert_edges edges
        (w {{ artifacts := db' }} {{ metadata_blobs ::= upsert_metadata (artifact_id a) metadata }})
  end.

Definition commit_transition_with_enqueues (polls : nat) (a : Artifact) (id : Uuid)
    (expected : ExpectedVersion) (batch : list DomainEvent) (now : DateTime)
    (metadata : option (option ContentHash)) (edges : list ContentReference)
    : task (DomainResult unit) :=
  match require_paired_artifact_stream a id with
  | Err e => mret (Err e)
  | Ok _ =>
      with_contention_retry CONTENTION_RETRY_ATTEMPTS
        (locking polls (edge_locks edges) (in_tx (mint_tx a id expected batch now metadata edges)))
  end.

Definition ingest_edges (a : Artifact) (repository : Uuid) (metadata_blob : option ContentHash)
    (claimed : list ContentReferenceClaim) : list ContentReference :=
  let edge target kind :=
    {| source_artifact_id := artifact_id a; target_content_hash := target; kind := kind;
       cr_repository_id := repository |} in
  [edge (sha256_checksum a) "primary_content"%string] ++
  match metadata_blob with Some blob => [edge blob "metadata_blob"%string] | None => [] end ++
  ((λ c, resolve c (artifact_id a) repository) <$> claimed).

(** [Uuid::new_v4] and the [read_unpaired_append_version] that follows it. *)
Definition genesis : task (AppResult (Uuid * DateTime * ExpectedVersion)) :=
  port (λ w,
    let id := new_v4 (artifacts w) in
    let now := utc_now (calls w) in
    let read := capped_artifact_read (artifacts w) id in
    (tick w,
     match db_fault (calls w) with
     | Some e => Err (AE_Domain e)
     | None =>
         if over_cap read then
           Err (AE_Domain (Conflict [Lit "stream artifact-"; ArgUuid id; Lit " exceeds ";
                                     ArgInt STREAM_EVENT_CAP; Lit "-event cap"]))
         else Ok (id, now, read_expected_version read)
     end)).

(** What an ingest mints once it has an id: the row, its events, the metadata and
    the claims. *)
Record Mint : Type := {
  mint_artifact : Uuid → DateTime → Artifact;
  mint_events : Uuid → list DomainEvent;
  mint_metadata : option (option ContentHash);
  mint_claims : list ContentReferenceClaim;
}.

(** The tail the ingests share: a fresh stream, the edges, the commit. *)
Definition mint (polls : nat) (m : Mint) : task Artifact :=
  g ← genesis;
  match g with
  | Err e => Done (Err e)
  | Ok (id, now, expected) =>
      let a := mint_artifact m id now in
      let edges := ingest_edges a (repository_id a) (default None (mint_metadata m)) (mint_claims m) in
      r ← commit_transition_with_enqueues polls a id expected (mint_events m id) now
            (mint_metadata m) edges;
      match r with
      | Err e => Done (Err (AE_Domain e))
      | Ok _ => mret a
      end
  end.

(** A manifest without lifecycle: neither scanned nor quarantined. *)
Definition signature_manifest (repository : Uuid) (coords : ArtifactCoords) (content_type : string)
    (uploader : option Uuid) (payload : Value) (claimed : list ContentReferenceClaim)
    (hash : ContentHash) (size : Z) : Mint :=
  let artifact id now :=
    {| artifact_id := id; repository_id := repository; name := co_name coords;
       name_as_published := co_name_as_published coords; version := co_version coords;
       path := co_path coords; size_bytes := size; sha256_checksum := hash;
       sha1_checksum := None; md5_checksum := None; content_type := content_type;
       quarantine_status := QS_None; rejection_reason := None; quarantine_window_start := None;
       quarantine_deadline := None; provenance_hold_indefinite := false;
       upstream_published_at := None; uploaded_by := uploader; a_created_at := now;
       a_updated_at := now; deleted_at := None |} in
  {| mint_artifact := artifact;
     mint_events := λ id,
       [DE_ArtifactIngested
          {| ai_artifact_id := id; ai_repository_id := repository; ai_name := co_name coords;
             ai_version := co_version coords; ai_sha256 := hash; ai_size_bytes := size;
             ai_source := IS_Direct; ai_metadata := payload; ai_metadata_blob := None;
             ai_upstream_published_at := None |}];
     mint_metadata := Some None;
     mint_claims := claimed |}.

(** The stream of the manifest hashes to [hash] and has [size] bytes.  The
    verification job for the signed image, which cannot fail the ingest, is left
    out. *)
Definition ingest_signature_manifest (polls : nat) (repository : Uuid) (coords : ArtifactCoords)
    (content_type : string) (uploader : option Uuid) (payload : Value)
    (declared_digest : ContentHash) (claimed : list ContentReferenceClaim) (hash : ContentHash)
    (size : Z) : task Artifact :=
  put ← storage_put hash;
  match put with
  | Err e => Done (Err (AE_Storage (DomainError_display e)))
  | Ok put_hash =>
      if negb (bool_decide (put_hash = declared_digest)) then
        Done (Err (AE_Domain (Conflict
          [Lit "signature manifest content hash "; ArgStr put_hash;
           Lit " does not match declared digest "; ArgStr declared_digest])))
      else
        mint polls
          (signature_manifest repository coords content_type uploader payload claimed put_hash size)
  end.

(** *** Rolling back a blob that failed verification *)

(** [WHERE checksum_sha256 = $1 AND deleted_at IS NULL LIMIT 1]. *)
Definition find_by_checksum (hash : ContentHash) (db : Db) : option Artifact :=
  head (omap (λ '(_, e), if bool_decide (sha256_checksum (row e) = hash) &&
                            negb (is_some (deleted_at (row e)))
                         then Some (hydrate (row e)) else None) (map_to_list db)).

Definition rollback_unreferenced_cas (hash : ContentHash) : task unit :=
  found ← query (λ w, (w, Ok (find_by_checksum hash (artifacts w))));
  let shared := match found with Ok (Some _) => true | Ok None => false | Err _ => true end in
  if negb shared then _ ← storage_delete hash; mret () else mret ().

(** The declared-digest check of an upload: [put_hash] has been stored. *)
Definition verify_declared_sha256 (declared : option ContentHash) (put_hash : ContentHash)
    : task unit :=
  match declared with
  | None => mret ()
  | Some declared =>
      if bool_decide (declared = put_hash) then mret ()
      else
        _ ← rollback_unreferenced_cas put_hash;
        Done (Err (AE_Domain (Conflict
          [Lit "declared sha256 does not match computed hash (declared="; ArgStr declared;
           Lit ", computed="; ArgStr put_hash; Lit ")"])))
  end.

(** ** Rejections and their edges *)

(** A handler of [Lifecycle], from its read to its commit. *)
Definition lifecycle {A} (h : handler A) : task (AppResult A) :=
  port (λ w, match db_fault (calls w) with
             | Some e => (tick w, Err (AE_Domain e))
             | None => let '(db', r) := h (artifacts w) in (tick w {{ artifacts := db' }}, r)
             end).

Definition status_in (db : Db) (id : Uuid) : option QuarantineStatus :=
  (λ e, quarantine_status (row e)) <$> db !! id.

(** The verdict and whether it is what rejected the artifact. *)
Definition freshly_rejecting (id : Uuid) (h : handler unit) : handler bool := λ db,
  let '(db', r) := h db in
  (db', match r with
        | Ok _ => Ok (negb (bool_decide (status_in db id = Some QS_Rejected)) &&
                      bool_decide (status_in db' id = Some QS_Rejected))
        | Err e => Err e
        end).

(** [record_scan_result], and the sweep of the edges behind a fresh rejection; a
    failed sweep is only logged. *)
Definition record_scan_result_task `{Unicode} (ports : Ports) (id : Uuid) (scanner : string)
    (findings : list Finding) (assessment : ScanAssessment) (k : ArtifactKind) : task unit :=
  r ← lifecycle (freshly_rejecting id (record_scan_result ports id scanner findings assessment k));
  match r with
  | Err e => Done (Err e)
  | Ok true => _ ← delete_by_source id; mret ()
  | Ok false => mret ()
  end.

(** A row of the page a retroactive curation pass walks, paired with the version its
    stream has now; the row itself is as old as the page. *)
Definition commit_retroactive_block (a : Artifact) (rule_id : Uuid) (reason : string)
    (now : DateTime) : handler unit :=
  db ← self;
  let expected := read_expected_version (capped_artifact_read db (artifact_id a)) in
  r ← apply_method (reject_from_retroactive_curation rule_id reason) a;
  commit (commit_transition r.1 (artifact_id a) expected [DE_ArtifactRejected r.2] now).

(** The block of one artifact of the page: read it, block it, sweep its edges. *)
Definition retroactive_block (id rule_id : Uuid) (reason : string) (now : DateTime) : task unit :=
  page ← query (λ w, (w, find_by_id (artifacts w) id));
  match page with
  | Err e => Done (Err (AE_Domain e))
  | Ok a =>
      r ← lifecycle (commit_retroactive_block a rule_id reason now);
      match r with
      | Err e => Done (Err e)
      | Ok _ => _ ← delete_by_source (artifact_id a); mret ()
      end
  end.

(** ** The other writers *)

(** The retention sweep's append of an expiry. *)
Definition append_expiry (id : Uuid) (x : ArtifactExpired) (now : DateTime) : handler unit :=
  db ← self;
  match db !! id with
  | None => throw (AE_Domain (not_found id))
  | Some e =>
      s ← lift (lift_domain (append_in_tx db id EV_Any [DE_ArtifactExpired x] now));
      modify <[id := {| row := row e; stream := s |}]>
  end.

Definition same_ref (r r' : MutableRef) : Prop :=
  mr_repository_id r = mr_repository_id r' ∧ mr_namespace r = mr_namespace r' ∧
  mr_ref_name r = mr_ref_name r'.

#[export] Instance same_ref_dec r r' : Decision (same_ref r r').
Proof. unfold same_ref. apply _. Defined.

(** The row of [mutable_refs] a tag write leaves; the events of the reference are
    left out. *)
Definition move_ref (r : MutableRef) : task (DomainResult unit) :=
  query (λ w, (w {{ mutable_refs ::= λ l, r :: filter (λ r', ¬ same_ref r r') l }}, Ok ())).

Definition retire_ref (repo : Uuid) (namespace ref_name : string) : task (DomainResult unit) :=
  query (λ w,
    if is_empty (filter (λ r, mr_repository_id r = repo ∧ mr_namespace r = namespace ∧
                              mr_ref_name r = ref_name) (mutable_refs w))
    then (w, Err (NotFound "MutableRef" [ArgUuid repo; Lit "/"; ArgStr namespace; Lit "/";
                                         ArgStr ref_name]))
    else (w {{ mutable_refs ::= filter (λ r, ¬ (mr_repository_id r = repo ∧
                 mr_namespace r = namespace ∧ mr_ref_name r = ref_name)) }}, Ok ())).
End ports.
