(* ===== verification/Purge.v ===== *)
(** Storage GC: the purge sweep of crates/hort-app/src/use_cases/purge_use_case.rs
    over the port of crates/hort-domain/src/ports/purge_gc.rs as
    crates/hort-adapters-postgres/src/purge_gc.rs implements it.

    A sweep takes the artifacts that were expired or deleted, retires each, drops its
    edges, and deletes the bytes no edge and no protected artifact claims any more.
    The reclaim of a blob holds the blob lock from the count to the deletion; every
    statement under it is a call of its own, so anything else may run in between. *)

From coqutil Require Import Datatypes.RecordSetters.
From S2P Require Import Prelude.
From S2P Require Import RustStd.
From S2P Require Import Json.
From S2P Require Import Types.
From S2P Require Import Events.
From S2P Require Import QuarantineTransitions.
From S2P Require Import Artifact.
From S2P Require Import Store.
From S2P Require Import Concurrent.
From S2P Require Import ContentRefs.
Import DoubleBraceUpdate.

(** ** The port's data *)

(** [GC_PROTECTED_QUARANTINE_STATUSES]: evidence is not garbage. *)
Definition gc_protected (s : QuarantineStatus) : bool :=
  match s with
  | QS_Quarantined | QS_Rejected | QS_ScanIndeterminate => true
  | QS_None | QS_Released => false
  end.

Record PendingPurge : Type := {
  pp_artifact_id : Uuid;
  pp_quarantine_status : QuarantineStatus;
  pp_tag_targeted : bool;
  expired_only_by_keep_last_n : bool;
  user_deleted : bool;
}.

Definition is_gc_protected (p : PendingPurge) : bool := gc_protected (pp_quarantine_status p).

Definition is_tag_exempt (p : PendingPurge) : bool :=
  pp_tag_targeted p && expired_only_by_keep_last_n p && negb (user_deleted p).

Record PurgedRef : Type := {
  pr_content_hash : ContentHash;
  pr_refs_remaining : Z;
  pr_completed : bool;
}.

Inductive PurgePreparation : Type :=
  | Prepared (refs : list PurgedRef)
  | NoArtifact
  | Protected (status : QuarantineStatus)
  | TagExempt.

(** The guard of a granted lease is the lock it holds. *)
Inductive BlobReclaim : Type :=
  | Granted (key : Z)
  | Referenced (refs_now : Z)
  | ProtectedClaim (claimants : Z)
  | BR_Contended.

(** ** What the statements read *)

(** [u32::try_from(count.max(0)).unwrap_or(u32::MAX)]. *)
Definition count_u32 {A} (l : list A) : Z := Z.min (len l) u32_MAX.

Definition references_to (hash : ContentHash) (w : World) : list ContentReference :=
  elements (filter (λ r, target_content_hash r = hash) (content_references w)).

Definition remaining_refs (hash : ContentHash) (w : World) : Z := count_u32 (references_to hash w).

(** The two hashes an artifact claims. *)
Definition claims_hash (w : World) (id : Uuid) (e : Entry) (hash : ContentHash) : bool :=
  bool_decide (sha256_checksum (row e) = hash) ||
  bool_decide (metadata_blobs w !! id = Some hash).

Definition protected_claimant (w : World) (hash : ContentHash) (p : Uuid * Entry) : bool :=
  let '(id, e) := p in
  negb (is_some (deleted_at (row e))) && gc_protected (quarantine_status (row e)) &&
  claims_hash w id e hash.

Definition protected_claimants (hash : ContentHash) (w : World) : Z :=
  count_u32 (filter (λ p, protected_claimant w hash p = true) (map_to_list (artifacts w))).

Definition load_worklist (id : Uuid) (w : World) : list (ContentHash * WorklistRow) :=
  sort_by (λ x y, str_leb x.1 y.1)
    (omap (λ '((a, hash), r), if bool_decide (a = id) then Some (hash, r) else None)
       (map_to_list (worklist w))).

(** [ARTIFACT_IS_TAG_TARGETED_SQL]. *)
Definition tag_targeted (w : World) (a : Artifact) : bool :=
  existsb (λ mr,
    bool_decide (mr_repository_id mr = repository_id a) &&
    match mr_target mr with
    | RT_ContentHash hash => bool_decide (hash = sha256_checksum a)
    | RT_Version v => bool_decide (mr_namespace mr = name a) && bool_decide (version a = Some v)
    end) (mutable_refs w).

(** [ARTIFACT_EXPIRED_ONLY_BY_KEEP_LAST_N_SQL]; every reason is stored as an object
    with the variant's name as its key. *)
Definition only_keep_last_n (s : list PersistedEvent) : bool :=
  negb (existsb (λ ev, match event ev with
                       | DE_ArtifactExpired x =>
                           match ax_reason x with ER_KeepLastN _ _ _ => false | _ => true end
                       | _ => false
                       end) s).

(** [ARTIFACT_USER_DELETED_SQL]. *)
Definition has_deletion (s : list PersistedEvent) : bool :=
  existsb (λ ev, match event ev with DE_ArtifactDeleted _ => true | _ => false end) s.

Definition has_expiry (s : list PersistedEvent) : bool :=
  existsb (λ ev, match event ev with DE_ArtifactExpired _ => true | _ => false end) s.

Definition has_purge (s : list PersistedEvent) : bool :=
  existsb (λ ev, match event ev with DE_ArtifactPurged _ => true | _ => false end) s.

Definition pending_of (w : World) (id : Uuid) (e : Entry) : PendingPurge :=
  {| pp_artifact_id := id; pp_quarantine_status := quarantine_status (row e);
     pp_tag_targeted := tag_targeted w (row e);
     expired_only_by_keep_last_n := only_keep_last_n (stream e);
     user_deleted := has_deletion (stream e) |}.

(** ** The port *)

Definition no_worklist_row (id : Uuid) (hash : ContentHash) : DomainError :=
  Invariant [Lit "purge_gc: no worklist row for artifact "; ArgUuid id; Lit " hash "; ArgStr hash].

Definition set_row (id : Uuid) (f : Artifact → Artifact) (w : World) : World :=
  w {{ artifacts ::= alter (λ e, {| row := f (row e); stream := stream e |}) id }}.

(** [retire_row]: whether the row is there. *)
Definition retire_row (id : Uuid) (retired_at : DateTime) (w : World) : World * bool :=
  (set_row id (retire retired_at) w, is_some (artifacts w !! id)).

Definition map_worklist (rows : list (ContentHash * WorklistRow)) : DomainResult (list PurgedRef) :=
  mapM (λ '(hash, r),
    if (0 <=? wl_refs_remaining r) && (wl_refs_remaining r <=? u32_MAX) then
      Ok {| pr_content_hash := hash; pr_refs_remaining := wl_refs_remaining r;
            pr_completed := is_some (wl_completed_at r) |}
    else Err (Invariant [Lit "purge_gc: invalid refs_remaining "; ArgInt (wl_refs_remaining r);
                         Lit " in worklist"])) rows.

Definition refresh_worklist_refs (id : Uuid) (hash : ContentHash) (claims : Z) (w : World)
    : World * DomainResult unit :=
  match worklist w !! (id, hash) with
  | None => (w, Err (no_worklist_row id hash))
  | Some r =>
      (w {{ worklist ::= <[(id, hash) := {| wl_refs_remaining := claims;
                                            wl_completed_at := wl_completed_at r |}]> }}, Ok ())
  end.

Record AppendBatch : Type := {
  ab_stream : Uuid;
  ab_events : list DomainEvent;
}.

(** The events of the terminal batch as the map they are compared as. *)
Fixpoint terminal_map (id : Uuid) (retired_at : DateTime) (batch : list DomainEvent)
    (actual : gmap ContentHash Z) : DomainResult (gmap ContentHash Z) :=
  match batch with
  | [] => Ok actual
  | DE_ArtifactPurged e :: batch' =>
      if negb (ap_artifact_id e =? id) || negb (purged_at e =? retired_at) then
        Err (Invariant [Lit "purge_gc: terminal event does not match its artifact transition"])
      else if is_some (actual !! ap_content_hash e) then
        Err (Invariant [Lit "purge_gc: terminal batch contains a duplicate content hash"])
      else terminal_map id retired_at batch' (<[ap_content_hash e := refs_remaining e]> actual)
  | _ :: _ => Err (Invariant [Lit "purge_gc: terminal batch contains a non-ArtifactPurged event"])
  end.

Definition validate_terminal_batch (id : Uuid) (retired_at : DateTime)
    (rows : list (ContentHash * WorklistRow)) (batch : AppendBatch) : DomainResult unit :=
  if negb (ab_stream batch =? id) then
    Err (Invariant [Lit "purge_gc: terminal batch targets the wrong artifact stream"])
  else
    let expected : gmap ContentHash Z :=
      list_to_map ((λ '(hash, r), (hash, wl_refs_remaining r)) <$> rows) in
    actual ← terminal_map id retired_at (ab_events batch) ∅;
    if negb (bool_decide (actual = expected)) then
      Err (Invariant [Lit "purge_gc: terminal events do not exactly match the purge worklist"])
    else Ok ().

Section port.
Context `{EventWire, SerdeJson, Backend}.

Definition list_pending_purge (limit : Z) (after : option Uuid) : task (DomainResult (list PendingPurge)) :=
  query (λ w,
    (w, Ok (take (Z.to_nat limit)
      (omap (λ '(id, e),
         if (has_expiry (stream e) || has_deletion (stream e)) && negb (has_purge (stream e)) &&
            negb (gc_protected (quarantine_status (row e))) &&
            match after with None => true | Some a => a <? id end
         then Some (pending_of w id e) else None)
       (sort_by (λ x y, x.1 <=? y.1) (map_to_list (artifacts w))))))).

(** A worklist that is already there: retire again, hand it out. *)
Definition resume (id : Uuid) (retired_at : DateTime) (existing : list (ContentHash * WorklistRow))
    (w : World) : World * DomainResult PurgePreparation :=
  let '(w', present) := retire_row id retired_at w in
  (w', if (present : bool) then refs ← map_worklist existing; mret (Prepared refs) else Ok NoArtifact).

(** The targets the artifact's edges named, or else the hashes of the row itself. *)
Definition purge_targets (id : Uuid) (a : Artifact) (w : World) : list ContentHash :=
  let deleted := elements (filter (λ r, source_artifact_id r = id) (content_references w)) in
  let hashes := target_content_hash <$> deleted in
  sort_by str_leb (remove_dups
    (if is_empty hashes
     then sha256_checksum a :: match metadata_blobs w !! id with Some h => [h] | None => [] end
     else hashes)).

(** The row the worklist gets for one hash. *)
Definition insert_worklist_row (id : Uuid) (hash : ContentHash) (w : World) : World :=
  w {{ worklist ::= <[(id, hash) := {| wl_refs_remaining := remaining_refs hash w;
                                       wl_completed_at := None |}]> }}.

Fixpoint insert_worklist (id : Uuid) (hashes : list ContentHash) (w : World) : World :=
  match hashes with
  | [] => w
  | hash :: hashes' => insert_worklist id hashes' (insert_worklist_row id hash w)
  end.

(** The transaction once the artifact's row is locked. *)
Definition prepare_locked (id : Uuid) (retired_at : DateTime) (w : World)
    : World * DomainResult PurgePreparation :=
  match artifacts w !! id with
  | None => (w, Ok NoArtifact)
  | Some e =>
      let existing := load_worklist id w in
      if negb (is_empty existing) then resume id retired_at existing w
      else
        let fresh := pending_of w id e in
        if is_gc_protected fresh then (w, Ok (Protected (pp_quarantine_status fresh)))
        else if is_tag_exempt fresh then (w, Ok TagExempt)
        else
          let hashes := purge_targets id (row e) w in
          let w1 := (retire_row id retired_at w).1 in
          let w2 := w1 {{ content_references ::= filter (λ r, source_artifact_id r ≠ id) }} in
          let w3 := insert_worklist id hashes w2 in
          (w3, refs ← map_worklist (load_worklist id w3); mret (Prepared refs))
  end.

(** The first statement looks for a worklist before the row is locked. *)
Definition purge_artifact_refs (id : Uuid) (retired_at : DateTime)
    : task (DomainResult PurgePreparation) :=
  first ← query (λ w,
    let existing := load_worklist id w in
    if is_empty existing then (w, Ok None)
    else let '(w', r) := resume id retired_at existing w in (w', p ← r; mret (Some p)));
  match first with
  | Err e => mret (Err e)
  | Ok (Some p) => mret (Ok p)
  | Ok None => query (prepare_locked id retired_at)
  end.

(** *** The reclaim of a blob *)

Definition end_lease (key : Z) (w : World) : World := w {{ leases ::= base.delete key }}.

(** A statement of the transaction that holds the lock [key]: when it fails, the
    transaction and the lock end. *)
Definition holding {A} (key : Z) (m : World → World * DomainResult A) : task (DomainResult A) :=
  port (λ w, match on_db m w with
             | (w', Ok a) => (w', Ok a)
             | (w', Err e) => (end_lease key w', Err e)
             end).

(** The count found claims: correct the worklist, commit. *)
Definition keep_blob (id : Uuid) (hash : ContentHash) (claims : Z) (outcome : BlobReclaim)
    (w : World) : World * DomainResult (option BlobReclaim) :=
  match refresh_worklist_refs id hash claims w with
  | (_, Err e) => (w, Err e)
  | (w', Ok _) => (end_lease (blob_lock_key hash) w', Ok (Some outcome))
  end.

Definition start_lease (me : nat) (key : Z) (w : World) : World := w {{ leases ::= <[key := me]> }}.

Definition try_lock_blob_in_tx (me : nat) (hash : ContentHash) : task (DomainResult bool) :=
  let key := blob_lock_key hash in
  port (λ w,
    if lock_busy (calls w) || negb (unlocked w key) then (tick w, Ok false)
    else on_db (λ w, (start_lease me key w, Ok true)) w).

(** The count of the references under the lock, and what a positive one means. *)
Definition recount_references (id : Uuid) (hash : ContentHash)
    : task (DomainResult (option BlobReclaim)) :=
  holding (blob_lock_key hash) (λ w,
    let refs_now := remaining_refs hash w in
    if 0 <? refs_now then keep_blob id hash refs_now (Referenced refs_now) w else (w, Ok None)).

Definition count_claimants (id : Uuid) (hash : ContentHash)
    : task (DomainResult (option BlobReclaim)) :=
  holding (blob_lock_key hash) (λ w,
    let claimants := protected_claimants hash w in
    if 0 <? claimants then keep_blob id hash claimants (ProtectedClaim claimants) w
    else (w, Ok None)).

Definition begin_blob_reclaim (me : nat) (id : Uuid) (hash : ContentHash)
    : task (DomainResult BlobReclaim) :=
  taken ← try_lock_blob_in_tx me hash;
  match taken with
  | Err e => mret (Err e)
  | Ok false => mret (Ok BR_Contended)
  | Ok true =>
      refs ← recount_references id hash;
      match refs with
      | Err e => mret (Err e)
      | Ok (Some outcome) => mret (Ok outcome)
      | Ok None =>
          claims ← count_claimants id hash;
          mret (match claims with
                | Err e => Err e
                | Ok (Some outcome) => Ok outcome
                | Ok None => Ok (Granted (blob_lock_key hash))
                end)
      end
  end.

(** [BlobReclaimGuard::release]: the lock ends whether or not the commit is
    acknowledged. *)
Definition release_guard (key : Z) : task (DomainResult unit) :=
  port (λ w, (end_lease key (tick w), match db_fault (calls w) with Some e => Err e | None => Ok () end)).

Definition mark_purge_ref_complete (id : Uuid) (hash : ContentHash) (completed_at : DateTime)
    : task (DomainResult unit) :=
  query (λ w,
    match worklist w !! (id, hash) with
    | None => (w, Err (no_worklist_row id hash))
    | Some r =>
        let at' := match wl_completed_at r with Some t => t | None => completed_at end in
        (w {{ worklist ::= <[(id, hash) := {| wl_refs_remaining := wl_refs_remaining r;
                                              wl_completed_at := Some at' |}]> }}, Ok ())
    end).

(** The unit of work of the terminal transition. *)
Definition complete_tx (id : Uuid) (retired_at : DateTime) (batch : AppendBatch) (w : World)
    : World * DomainResult unit :=
  let rows := load_worklist id w in
  if is_empty rows then
    (w, Err (Invariant [Lit "purge_gc: artifact "; ArgUuid id; Lit " has no purge worklist"]))
  else if existsb (λ '(_, r), negb (is_some (wl_completed_at r))) rows then
    (w, Err (Invariant [Lit "purge_gc: artifact "; ArgUuid id;
                        Lit " still has incomplete storage work"]))
  else
    match validate_terminal_batch id retired_at rows batch with
    | Err e => (w, Err e)
    | Ok _ =>
        match append_in_tx (artifacts w) (ab_stream batch) EV_Any (ab_events batch) (utc_now (calls w)) with
        | Err e => (w, Err e)
        | Ok s =>
            match artifacts w !! id with
            | None => (w, Err (not_found id))
            | Some e =>
                let a := set_updated retired_at
                           (match deleted_at (row e) with
                            | Some _ => row e
                            | None => set_deleted (Some retired_at) (row e)
                            end) in
                (w {{ artifacts ::= <[id := {| row := a; stream := s |}]> }}
                   {{ worklist ::= filter (λ x, x.1.1 ≠ id) }}, Ok ())
            end
        end
    end.

Definition complete_artifact_purge (id : Uuid) (retired_at : DateTime) (batch : AppendBatch)
    : task (DomainResult unit) :=
  query (complete_tx id retired_at batch).

(** ** The use case *)

Record PurgeSummary : Type := {
  artifacts_visited : Z;
  blobs_deleted : Z;
  blobs_kept : Z;
  blobs_deferred : Z;
  purged_events : Z;
  ps_skipped_protected : Z;
  skipped_tag_exempt : Z;
  skipped_protected_under_lock : Z;
  skipped_tag_exempt_under_lock : Z;
  user_deletes_visited : Z;
  ps_errors : Z;
}.

Definition PurgeSummary_default : PurgeSummary :=
  {| artifacts_visited := 0; blobs_deleted := 0; blobs_kept := 0; blobs_deferred := 0;
     purged_events := 0; ps_skipped_protected := 0; skipped_tag_exempt := 0;
     skipped_protected_under_lock := 0; skipped_tag_exempt_under_lock := 0;
     user_deletes_visited := 0; ps_errors := 0 |}.

Definition BATCH_SIZE : Z := 1000.
Definition MAX_BATCHES_PER_TICK : nat := 64.

(** The storage step for a hash nothing seemed to claim: the reference with its
    corrected count, or [None] when the sweep gives up on the artifact for now. *)
Definition reclaim (me : nat) (id : Uuid) (pr : PurgedRef) (summary : PurgeSummary)
    : task (option PurgedRef * PurgeSummary) :=
  lease ← begin_blob_reclaim me id (pr_content_hash pr);
  match lease with
  | Err _ => mret (None, summary {{ ps_errors ::= Z.succ }})
  | Ok BR_Contended => mret (None, summary {{ blobs_deferred ::= Z.succ }})
  | Ok (Referenced refs_now) => mret (Some (pr {{ pr_refs_remaining := refs_now }}), summary)
  | Ok (ProtectedClaim claimants) => mret (Some (pr {{ pr_refs_remaining := claimants }}), summary)
  | Ok (Granted key) =>
      deleted ← storage_delete (pr_content_hash pr);
      _ ← release_guard key;
      match deleted with
      | Ok _ | Err (NotFound _ _) => mret (Some pr, summary)
      | Err _ => mret (None, summary {{ ps_errors ::= Z.succ }})
      end
  end.

Definition finish_one_ref (me : nat) (now : DateTime) (id : Uuid) (pr : PurgedRef)
    (summary : PurgeSummary) : task (option PurgedRef * PurgeSummary) :=
  step ← (if pr_refs_remaining pr =? 0 then reclaim me id pr summary
          else mret (Some pr, summary));
  match step with
  | (None, summary) => mret (None, summary)
  | (Some pr, summary) =>
      r ← mark_purge_ref_complete id (pr_content_hash pr) now;
      mret (match r with
            | Ok _ => (Some pr, if pr_refs_remaining pr =? 0 then summary {{ blobs_deleted ::= Z.succ }}
                                else summary {{ blobs_kept ::= Z.succ }})
            | Err _ => (None, summary {{ ps_errors ::= Z.succ }})
            end)
  end.

(** The loop over the references; [None] is the early return. *)
Fixpoint finish_refs (me : nat) (now : DateTime) (id : Uuid) (refs : list PurgedRef)
    (summary : PurgeSummary) : task (option (list PurgedRef) * PurgeSummary) :=
  match refs with
  | [] => mret (Some [], summary)
  | pr :: refs' =>
      step ← (if pr_completed pr then mret (Some pr, summary)
              else finish_one_ref me now id pr summary);
      match step with
      | (None, summary) => mret (None, summary)
      | (Some pr, summary) =>
          rest ← finish_refs me now id refs' summary;
          mret (cons pr <$> rest.1, rest.2)
      end
  end.

Definition purged_event (id : Uuid) (now : DateTime) (pr : PurgedRef) : DomainEvent :=
  DE_ArtifactPurged {| ap_artifact_id := id; ap_content_hash := pr_content_hash pr;
                       refs_remaining := pr_refs_remaining pr; purged_at := now |}.

Definition finish_artifact (me : nat) (now : DateTime) (id : Uuid) (refs : list PurgedRef)
    (summary : PurgeSummary) : task PurgeSummary :=
  finished ← finish_refs me now id refs summary;
  match finished with
  | (None, summary) => mret summary
  | (Some refs, summary) =>
      r ← complete_artifact_purge id now
            {| ab_stream := id; ab_events := purged_event id now <$> refs |};
      mret (match r with
            | Ok _ => summary {{ purged_events ::= Z.add (len refs) }}
            | Err _ => summary {{ ps_errors ::= Z.succ }}
            end)
  end.

Definition process_one (me : nat) (now : DateTime) (item : PendingPurge) (summary : PurgeSummary)
    : task PurgeSummary :=
  let id := pp_artifact_id item in
  if is_gc_protected item then mret (summary {{ ps_skipped_protected ::= Z.succ }})
  else if is_tag_exempt item then mret (summary {{ skipped_tag_exempt ::= Z.succ }})
  else
    prepared ← purge_artifact_refs id now;
    match prepared with
    | Err _ => mret (summary {{ ps_errors ::= Z.succ }})
    | Ok (Protected _) => mret (summary {{ skipped_protected_under_lock ::= Z.succ }})
    | Ok TagExempt => mret (summary {{ skipped_tag_exempt_under_lock ::= Z.succ }})
    | Ok NoArtifact => mret summary
    | Ok (Prepared refs) =>
        if is_empty refs then mret summary else finish_artifact me now id refs summary
    end.

Fixpoint process_page (me : nat) (now : DateTime) (page : list PendingPurge)
    (summary : PurgeSummary) : task PurgeSummary :=
  match page with
  | [] => mret summary
  | item :: page' =>
      let summary := summary {{ artifacts_visited ::= Z.succ }} in
      let summary := if user_deleted item then summary {{ user_deletes_visited ::= Z.succ }}
                     else summary in
      summary ← process_one me now item summary;
      process_page me now page' summary
  end.

Fixpoint process_batches (me : nat) (now : DateTime) (batch_size : Z) (batches : nat)
    (after : option Uuid) (summary : PurgeSummary) : task PurgeSummary :=
  match batches with
  | O => mret summary
  | S batches' =>
      page ← list_pending_purge batch_size after;
      match page with
      | Err e => Done (Err (AE_Domain e))
      | Ok page =>
          match last page with
          | None => mret summary
          | Some item =>
              summary ← process_page me now page summary;
              if len page <? batch_size then mret summary
              else process_batches me now batch_size batches' (Some (pp_artifact_id item)) summary
          end
      end
  end.

(** [is_converged] is the answer of the [RefcountReconcileGate]. *)
Definition process_expired (me : nat) (is_converged : bool) (now : DateTime) : task PurgeSummary :=
  if negb is_converged then
    Done (Err (AE_Domain (Invariant
      [Lit "PurgeUseCase start-gate: RefcountReconcileUseCase has not converged; storage GC is refused (reconcile-converged binding constraint)"])))
  else process_batches me now BATCH_SIZE MAX_BATCHES_PER_TICK None PurgeSummary_default.
End port.
