(* ===== verification/Reconcile.v ===== *)
(** The refcount reconcile sweep: crates/hort-app/src/use_cases/
    refcount_reconcile_use_case.rs over the port of
    crates/hort-domain/src/ports/refcount_reconcile.rs as
    crates/hort-adapters-postgres/src/refcount_reconcile.rs implements it.

    The sweep compares the edges of every repository with its artifact rows and
    repairs what it finds.  Storage GC is refused until a sweep ended without an
    error. *)

From coqutil Require Import Datatypes.RecordSetters.
From S2P Require Import Prelude.
From S2P Require Import RustStd.
From S2P Require Import Types.
From S2P Require Import Events.
From S2P Require Import Artifact.
From S2P Require Import Store.
From S2P Require Import Concurrent.
From S2P Require Import ContentRefs.
From S2P Require Import Purge.
Import DoubleBraceUpdate.

Inductive RefcountRepair : Type :=
  | CreatePrimaryContent (source : Uuid) (expected_hash : ContentHash)
  | RepairPrimaryContent (source : Uuid) (found_hash expected_hash : ContentHash)
  | UpsertMetadataBlob (source : Uuid) (found_hash : option ContentHash) (expected_hash : ContentHash)
  | DeleteRejectedSourceRows (source : Uuid) (kind : string).

Record ReconcileSummary : Type := {
  repos_swept : Z;
  drift_repaired : Z;
  rs_errors : Z;
}.

Definition ReconcileSummary_default : ReconcileSummary :=
  {| repos_swept := 0; drift_repaired := 0; rs_errors := 0 |}.

Definition converged (s : ReconcileSummary) : bool := rs_errors s =? 0.

(** ** What the scans read *)

(** The edges of one artifact under one kind. *)
Definition edges_of (w : World) (repo source : Uuid) (k : string) : list ContentReference :=
  elements (filter (λ r, cr_repository_id r = repo ∧ source_artifact_id r = source ∧ kind r = k)
              (content_references w)).

(** The rows of a repository that are owed their edges. *)
Definition owed (repo : Uuid) (e : Entry) : bool :=
  (repository_id (row e) =? repo) && negb (is_some (deleted_at (row e))) &&
  negb (gc_protected (quarantine_status (row e))).

(** The left join of one row: no edge, or an edge with another target. *)
Definition drift (found : list ContentReference) (expected : ContentHash)
    (missing : RefcountRepair) (wrong : ContentHash → RefcountRepair) : list RefcountRepair :=
  match found with
  | [] => [missing]
  | _ => omap (λ r, if bool_decide (target_content_hash r = expected) then None
                    else Some (wrong (target_content_hash r))) found
  end.

Lemma drift_cases found expected missing wrong r :
  r ∈ drift found expected missing wrong → r = missing ∨ ∃ h, r = wrong h.
Proof.
  unfold drift. destruct found as [| x l]; [by intros ->%list_elem_of_singleton; left|].
  intros (y & _ & Hy)%list_elem_of_omap. case_bool_decide; simplify_eq. right. by eexists.
Qed.

Definition primary_drift (repo : Uuid) (w : World) : list RefcountRepair :=
  '(id, e) ← map_to_list (artifacts w);
  if owed repo e then
    let expected := sha256_checksum (row e) in
    drift (edges_of w repo id "primary_content") expected (CreatePrimaryContent id expected)
      (λ found, RepairPrimaryContent id found expected)
  else [].

Definition metadata_drift (repo : Uuid) (w : World) : list RefcountRepair :=
  '(id, e) ← map_to_list (artifacts w);
  match metadata_blobs w !! id with
  | Some expected =>
      if owed repo e then
        drift (edges_of w repo id "metadata_blob") expected (UpsertMetadataBlob id None expected)
          (λ found, UpsertMetadataBlob id (Some found) expected)
      else []
  | None => []
  end.

(** [DISTINCT ON (source_artifact_id) ... ORDER BY source_artifact_id, kind]: of each
    rejected source the edge with the smallest kind. *)
Definition rejected_drift (repo : Uuid) (w : World) : list RefcountRepair :=
  '(id, e) ← sort_by (λ x y, x.1 <=? y.1) (map_to_list (artifacts w));
  if bool_decide (quarantine_status (row e) = QS_Rejected) then
    match sort_by str_leb
            (kind <$> elements (filter (λ r, cr_repository_id r = repo ∧ source_artifact_id r = id)
                                  (content_references w))) with
    | [] => []
    | k :: _ => [DeleteRejectedSourceRows id k]
    end
  else [].

Section reconcile.
Context `{EventWire, SerdeJson, Backend}.

(** ** The port *)

Definition list_repository_ids : task (DomainResult (list Uuid)) :=
  query (λ w, (w, Ok (dedup (sort_by Z.leb
                        ((λ p, repository_id (row p.2)) <$> map_to_list (artifacts w)))))).

(** Three statements, one after the other. *)
Definition scan_repo_drift (repo : Uuid) : task (DomainResult (list RefcountRepair)) :=
  primary ← query (λ w, (w, Ok (primary_drift repo w)));
  match primary with
  | Err e => mret (Err e)
  | Ok primary =>
      meta ← query (λ w, (w, Ok (metadata_drift repo w)));
      match meta with
      | Err e => mret (Err e)
      | Ok meta =>
          rejected ← query (λ w, (w, Ok (rejected_drift repo w)));
          mret (match rejected with
                | Err e => Err e
                | Ok rejected => Ok (primary ++ meta ++ rejected)
                end)
      end
  end.

(** The transaction of [upsert_row]: delete whatever the kind points at, insert. *)
Definition replace_edge (repo source : Uuid) (k : string) (target : ContentHash) (w : World)
    : World * DomainResult unit :=
  let w1 := w {{ content_references ::= filter (λ r,
              ¬ (cr_repository_id r = repo ∧ source_artifact_id r = source ∧ kind r = k)) }} in
  upsert_edges [{| source_artifact_id := source; target_content_hash := target; kind := k;
                   cr_repository_id := repo |}] w1.

Definition upsert_row (polls : nat) (repo source : Uuid) (k : string) (target : ContentHash)
    : task (DomainResult unit) :=
  locking polls [blob_lock_key target] (in_tx (replace_edge repo source k target)).

Definition apply_repair (polls : nat) (repo : Uuid) (r : RefcountRepair) : task (DomainResult unit) :=
  match r with
  | CreatePrimaryContent source expected => upsert_row polls repo source "primary_content" expected
  | RepairPrimaryContent source _ expected => upsert_row polls repo source "primary_content" expected
  | UpsertMetadataBlob source _ expected => upsert_row polls repo source "metadata_blob" expected
  | DeleteRejectedSourceRows source _ =>
      query (λ w, (w {{ content_references ::= filter (λ r,
                        ¬ (cr_repository_id r = repo ∧ source_artifact_id r = source)) }}, Ok ()))
  end.

(** ** The use case *)

Fixpoint apply_repairs (polls : nat) (repo : Uuid) (repairs : list RefcountRepair)
    (repaired errors : Z) : task (Z * Z) :=
  match repairs with
  | [] => mret (repaired, errors)
  | r :: repairs' =>
      outcome ← apply_repair polls repo r;
      match outcome with
      | Ok _ => apply_repairs polls repo repairs' (repaired + 1) errors
      | Err _ => apply_repairs polls repo repairs' repaired (errors + 1)
      end
  end.

Definition sweep_one_repo (polls : nat) (repo : Uuid) : task (Z * Z) :=
  found ← scan_repo_drift repo;
  match found with
  | Err _ => mret (0, 1)
  | Ok repairs => apply_repairs polls repo repairs 0 0
  end.

Fixpoint sweep_repos (polls : nat) (repos : list Uuid) (summary : ReconcileSummary)
    : task ReconcileSummary :=
  match repos with
  | [] => mret summary
  | repo :: repos' =>
      r ← sweep_one_repo polls repo;
      sweep_repos polls repos'
        {| repos_swept := repos_swept summary + 1;
           drift_repaired := drift_repaired summary + r.1;
           rs_errors := rs_errors summary + r.2 |}
  end.

Definition sweep_drift (polls : nat) : task ReconcileSummary :=
  repos ← list_repository_ids;
  match repos with
  | Err e => Done (Err (AE_Domain e))
  | Ok repos => sweep_repos polls repos ReconcileSummary_default
  end.
End reconcile.
