(* ===== verification/Claims.v ===== *)
(** Claims on the content store.

    [claimed] says which blobs have to stay: those an edge points at, and those of an
    artifact in service, unless a rejection of that artifact has been lifted.  The
    invariant [sound] and the rely and guarantee of a task are stated over it; the
    rules say which steps keep to them. *)

From coqutil Require Import Datatypes.RecordSetters.
From S2P Require Import Prelude.
From S2P Require Import RustStd.
From S2P Require Import Json.
From S2P Require Import Types.
From S2P Require Import Events.
From S2P Require Import QuarantineTransitions.
From S2P Require Import Artifact.
From S2P Require Import ScanEngine.
From S2P Require Import Store.
From S2P Require Import Lifecycle.
From S2P Require Import LifecycleSafety.
From S2P Require Import Concurrent.
From S2P Require Import ContentRefs.
From S2P Require Import Purge.
From S2P Require Import Reconcile.
Import DoubleBraceUpdate.

(** ** Rejections that were lifted *)

(** The status, and whether a rejection has been left again on the way. *)
Definition lift_step (s : QuarantineStatus * bool) (e : DomainEvent) : QuarantineStatus * bool :=
  let s' := project s.1 e in
  (s', s.2 || (bool_decide (s.1 = QS_Rejected) && negb (bool_decide (s' = QS_Rejected)))).

Definition lift_state (s : list PersistedEvent) : QuarantineStatus * bool :=
  foldl lift_step (QS_None, false) (event <$> s).

Definition was_lifted (s : list PersistedEvent) : bool := (lift_state s).2.

(** Rejected, now or before a lift. *)
Definition disowned (s : QuarantineStatus * bool) : Prop := s.2 = true ∨ s.1 = QS_Rejected.

Lemma lift_state_status s : (lift_state s).1 = projected_status s.
Proof.
  unfold lift_state, projected_status. generalize (event <$> s). intros evs.
  change QS_None with (fst (QS_None, false)) at 2. generalize (QS_None, false).
  induction evs as [| e evs IH]; intros p; [done | apply IH].
Qed.

Lemma lift_state_app s more :
  lift_state (s ++ more) = foldl lift_step (lift_state s) (event <$> more).
Proof. unfold lift_state. by rewrite fmap_app, foldl_app. Qed.

Lemma lifted_app s more : was_lifted s = true → was_lifted (s ++ more) = true.
Proof.
  unfold was_lifted. rewrite lift_state_app. generalize (lift_state s), (event <$> more).
  intros p evs. revert p. induction evs as [| e evs IH]; intros p Hp; [done|].
  apply IH. simpl. by rewrite Hp.
Qed.

Lemma disowned_app s more : disowned (lift_state s) → disowned (lift_state (s ++ more)).
Proof.
  rewrite lift_state_app. generalize (lift_state s), (event <$> more).
  intros p evs. revert p. induction evs as [| e evs IH]; intros p Hp; [done|].
  apply IH. unfold disowned, lift_step in *. cbn. destruct Hp as [-> | ->]; [by left|].
  case_bool_decide as H1; [| done]. case_bool_decide; [by right | left; by destruct p.2].
Qed.

(** ** Claims *)

Definition live (e : Entry) : Prop := deleted_at (row e) = None.

Definition claimant (w : World) (h : ContentHash) (id : Uuid) (e : Entry) : Prop :=
  artifacts w !! id = Some e ∧ live e ∧ claims_hash w id e h = true ∧ was_lifted (stream e) = false.

Definition claimed (w : World) (h : ContentHash) : Prop :=
  (∃ r, r ∈ content_references w ∧ target_content_hash r = h) ∨ ∃ id e, claimant w h id e.

Definition own_edge (id : Uuid) (e : Entry) (target : ContentHash) (k : string) : ContentReference :=
  {| source_artifact_id := id; target_content_hash := target; kind := k;
     cr_repository_id := repository_id (row e) |}.

Definition has_edges (w : World) (id : Uuid) (e : Entry) : Prop :=
  own_edge id e (sha256_checksum (row e)) "primary_content" ∈ content_references w ∧
  ∀ blob, metadata_blobs w !! id = Some blob →
    own_edge id e blob "metadata_blob" ∈ content_references w.

(** Statuses are those of the streams, and every artifact in service that was never
    rejected has its edges. *)
Record sound (w : World) : Prop := {
  sound_db : db_ok (artifacts w);
  sound_stream : ∀ id e, artifacts w !! id = Some e → stream e ≠ [];
  sound_metadata : ∀ id b, metadata_blobs w !! id = Some b → is_Some (artifacts w !! id);
  sound_edges : ∀ id e, artifacts w !! id = Some e → live e → ¬ disowned (lift_state (stream e)) →
    has_edges w id e;
}.

(** ** What a step may do *)

(** An artifact stays the artifact it is, its stream grows, and it does not come back
    into service. *)
Definition follows (e e' : Entry) : Prop :=
  identity (row e') = identity (row e) ∧ (live e' → live e) ∧ ∃ more, stream e' = stream e ++ more.

Definition monotone (w w' : World) : Prop :=
  ∀ id e, artifacts w !! id = Some e →
    metadata_blobs w' !! id = metadata_blobs w !! id ∧
    ∃ e', artifacts w' !! id = Some e' ∧ follows e e'.

Definition no_new_claims (h : ContentHash) (w w' : World) : Prop :=
  (∀ r, r ∈ content_references w' → target_content_hash r = h → r ∈ content_references w) ∧
  ∀ id e', claimant w' h id e' → ∃ e, claimant w h id e.

(** While a task holds a lock, the lock stays and nobody claims what it guards. *)
Definition Rely (i : nat) (w w' : World) : Prop :=
  monotone w w' ∧
  ∀ h, leases w !! blob_lock_key h = Some i →
    leases w' !! blob_lock_key h = Some i ∧ no_new_claims h w w'.

Definition Guar (i : nat) (w w' : World) : Prop :=
  monotone w w' ∧
  (∀ h j, j ≠ i → leases w !! blob_lock_key h = Some j →
    leases w' !! blob_lock_key h = Some j ∧ no_new_claims h w w') ∧
  ∀ h, h ∈ storage w → h ∉ storage w' → ¬ claimed w h.

#[export] Instance follows_preorder : PreOrder follows.
Proof.
  split.
  - intros e. split_and!; [done | done | by exists []; rewrite app_nil_r].
  - intros e1 e2 e3 (Hi & Hl & m1 & Hs) (Hi' & Hl' & m2 & Hs'). split_and!; [congruence | by auto |].
    exists (m1 ++ m2). by rewrite Hs', Hs, app_assoc.
Qed.

#[export] Instance monotone_preorder : PreOrder monotone.
Proof.
  split.
  - intros w id e He. split; [done|]. by exists e.
  - intros w1 w2 w3 H12 H23 id e He. destruct (H12 id e He) as (Hm & e' & He' & Hf).
    destruct (H23 id e' He') as (Hm' & e'' & He'' & Hf'). split; [congruence|].
    exists e''. split; [done | by transitivity e'].
Qed.

#[export] Instance no_new_claims_preorder h : PreOrder (no_new_claims h).
Proof. split; [intros w; split; by eauto | intros w1 w2 w3 [H1 H2] [H3 H4]; split; naive_solver]. Qed.

#[export] Instance Rely_preorder i : PreOrder (Rely i).
Proof.
  split; [intros w; split; [done | intros h Hh; by split]|].
  intros w1 w2 w3 [M12 H12] [M23 H23]. split; [by transitivity w2|]. intros h Hh.
  destruct (H12 h Hh) as [Hh' Hn]. destruct (H23 h Hh') as [Hh'' Hn'].
  split; [done | by transitivity w2].
Qed.

Lemma Guar_Rely i j w w' : i ≠ j → Guar i w w' → Rely j w w'.
Proof. intros Hne (Hm & Hl & _). split; [done|]. intros h Hh. by apply Hl. Qed.

Lemma not_claimed_stays h w w' : no_new_claims h w w' → ¬ claimed w h → ¬ claimed w' h.
Proof.
  intros [Hr Hc] Hn [(r & Hin & Ht) | (id & e & He)]; apply Hn.
  - left. by exists r; auto.
  - right. destruct (Hc id e He) as [e0 ?]. by exists id, e0.
Qed.

(** ** Steps *)

Definition step_ok (i : nat) (w w' : World) : Prop := sound w' ∧ Guar i w w'.

(** Leases of other tasks, and the blobs, stay. *)
Definition keeps_others (i : nat) (w w' : World) : Prop :=
  (∀ key j, j ≠ i → leases w !! key = Some j → leases w' !! key = Some j) ∧ storage w ⊆ storage w'.

Lemma keeps_others_same i w w' :
  leases w' = leases w → storage w ⊆ storage w' → keeps_others i w w'.
Proof. intros Hl Hs. split; [by rewrite Hl | done]. Qed.

Lemma guar_intro i w w' :
  keeps_others i w w' → monotone w w' →
  (∀ h j, j ≠ i → leases w !! blob_lock_key h = Some j → no_new_claims h w w') → Guar i w w'.
Proof.
  intros [Hl Hs] Hm Hn. split_and!; [done | by eauto |]. intros h Hin Hout. by apply Hs in Hin.
Qed.

(** Nothing that is claimed or that the invariant speaks of changes. *)
Definition quiet (w w' : World) : Prop :=
  artifacts w' = artifacts w ∧ metadata_blobs w' = metadata_blobs w ∧
  content_references w' = content_references w.

Lemma quiet_no_new_claims h w w' : quiet w w' → no_new_claims h w w'.
Proof.
  intros (Ha & Hm & Hr). split; [by rewrite Hr|].
  intros id e (He & Hl & Hc & Hw). exists e. split_and!; [congruence | done | | done].
  unfold claims_hash in *. by rewrite <- Hm.
Qed.

Lemma quiet_monotone w w' : quiet w w' → monotone w w'.
Proof. intros (Ha & Hm & Hr) id e He. rewrite Ha, Hm. split; [done|]. by exists e. Qed.

Lemma quiet_sound w w' : quiet w w' → sound w → sound w'.
Proof.
  intros (Ha & Hm & Hr) [Hdb Hs Hmeta He]. split; unfold has_edges in *; rewrite ?Ha, ?Hm, ?Hr; done.
Qed.

Lemma step_quiet i w w' : quiet w w' → keeps_others i w w' → sound w → step_ok i w w'.
Proof.
  intros Hq Hk Hs. split; [by eapply quiet_sound|].
  apply guar_intro; [done | by apply quiet_monotone | intros; by apply quiet_no_new_claims].
Qed.

(** Every row follows the row it was, and no edge appears. *)
Definition settles (w w' : World) : Prop :=
  (∀ id, option_Forall2 follows (artifacts w !! id) (artifacts w' !! id)) ∧
  metadata_blobs w' = metadata_blobs w ∧ content_references w' ⊆ content_references w.

Lemma rows_same w w' :
  artifacts w' = artifacts w →
  ∀ id, option_Forall2 follows (artifacts w !! id) (artifacts w' !! id).
Proof. intros -> id. by destruct (artifacts w !! id); constructor. Qed.

#[export] Instance settles_preorder : PreOrder settles.
Proof.
  split; [intros w; split_and!; [by apply rows_same | done | done]|].
  intros w1 w2 w3 (F12 & M12 & R12) (F23 & M23 & R23). split_and!; [| congruence | by set_solver].
  intros id. specialize (F12 id). specialize (F23 id). by transitivity (artifacts w2 !! id).
Qed.

Lemma settles_monotone w w' : settles w w' → monotone w w'.
Proof.
  intros (Hf & Hm & _) id e He. rewrite Hm. split; [done|].
  specialize (Hf id). rewrite He in Hf. inversion Hf as [? e' Hf' |]; subst. by exists e'.
Qed.

Lemma follows_claimant w w' h id e e' :
  metadata_blobs w' !! id = metadata_blobs w !! id → artifacts w !! id = Some e → follows e e' →
  claimant w' h id e' → claimant w h id e.
Proof.
  intros Hm He (Hi & Hlive & more & Hs) (_ & Hl & Hc & Hw). injection Hi as _ _ Hi.
  split_and!; [done | by auto | unfold claims_hash in *; by rewrite <- Hm, <- Hi |].
  destruct (was_lifted (stream e)) eqn:E; [| done].
  rewrite Hs, lifted_app in Hw by done. done.
Qed.

Lemma settles_no_new_claims h w w' : settles w w' → no_new_claims h w w'.
Proof.
  intros (Hf & Hm & Hr). split; [by set_solver|]. intros id e' Hc. pose proof Hc as (He' & _).
  specialize (Hf id). rewrite He' in Hf. inversion Hf as [e ? Hf' Heq |]; subst.
  exists e. by eapply follows_claimant; [by rewrite Hm | ..].
Qed.

Lemma guar_settles i w w' : keeps_others i w w' → settles w w' → Guar i w w'.
Proof.
  intros Hk Hs. apply guar_intro; [done | by apply settles_monotone |].
  intros. by apply settles_no_new_claims.
Qed.

Lemma follows_has_edges w w' id e e' :
  content_references w ⊆ content_references w' → metadata_blobs w' !! id = metadata_blobs w !! id →
  follows e e' → has_edges w id e → has_edges w' id e'.
Proof.
  intros Hr Hm (Hi & _) [Hp Hb]. injection Hi as _ Hrepo Hsum. unfold has_edges, own_edge in *.
  rewrite Hrepo, Hsum, Hm. split; [by apply Hr|]. intros b Hb'. by apply Hr, Hb.
Qed.

Lemma follows_disowned e e' :
  follows e e' → ¬ disowned (lift_state (stream e')) → ¬ disowned (lift_state (stream e)).
Proof. intros (_ & _ & more & ->) Hn Hd. by apply Hn, disowned_app. Qed.

(** *** Edges go *)

(** Edges may go when nothing in service that was never rejected needs them. *)
Lemma step_drop i w (P : ContentReference → Prop) `{!∀ r, Decision (P r)} :
  (∀ r e, r ∈ content_references w → ¬ P r → artifacts w !! source_artifact_id r = Some e →
     live e → disowned (lift_state (stream e))) →
  sound w → step_ok i w (w {{ content_references ::= filter P }}).
Proof.
  intros Hd [Hdb Hs Hmeta He]. split.
  - split; [done.. |]. cbn. intros id e Hid Hl Hn. destruct (He id e Hid Hl Hn) as [Hp Hb].
    assert (∀ t k, own_edge id e t k ∈ content_references w → P (own_edge id e t k)) as HP.
    { intros t k Hin. destruct (decide (P (own_edge id e t k))); [done|].
      destruct Hn. by eapply Hd. }
    split; cbn; [| intros b Hb']; apply elem_of_filter; naive_solver.
  - apply guar_settles; [by apply keeps_others_same|]. split_and!; [by apply rows_same | done | set_solver].
Qed.

(** *** Rows move on *)

Lemma advances_follows J w db' :
  advances J (artifacts w) db' → settles w (w {{ artifacts := db' }}).
Proof.
  intros Ha. split_and!; [| done | done]. destruct Ha as
    [-> | (id' & e & e' & evs & now & Hl & -> & _ & Hs & Hi & Hd & _)]; [by apply rows_same|].
  intros id. change (artifacts (w {{ artifacts := <[id':=e']> (artifacts w) }}))
    with (<[id':=e']> (artifacts w)).
  destruct (decide (id' = id)) as [-> |].
  - rewrite lookup_insert_eq, Hl. constructor. split_and!; [done | done | by eexists].
  - rewrite lookup_insert_ne by done. by destruct (artifacts w !! id); constructor.
Qed.

Lemma settles_sound w w' :
  settles w w' → content_references w ⊆ content_references w' → db_ok (artifacts w') →
  sound w → sound w'.
Proof.
  intros (Hf & Hm & _) Hr Hdb' [Hdb Hs Hmeta He]. split; [done | | |].
  - intros id e' He'. specialize (Hf id). rewrite He' in Hf.
    inversion Hf as [e ? (_ & _ & more & Happ) Heq |]; subst. rewrite Happ.
    intros [Hnil _]%app_eq_nil. by eapply Hs.
  - intros id b. rewrite Hm. intros [e Hid]%Hmeta. specialize (Hf id). rewrite Hid in Hf.
    inversion Hf; subst. by eexists.
  - intros id e' He' Hl Hn. specialize (Hf id). rewrite He' in Hf.
    inversion Hf as [e ? Hfe Heq |]; subst.
    eapply follows_has_edges; [done | by rewrite Hm | done |].
    apply He; [done | by apply Hfe | by eapply follows_disowned].
Qed.

Lemma step_advances_ok i J w db' :
  advances J (artifacts w) db' → sound w → step_ok i w (w {{ artifacts := db' }}).
Proof.
  intros Ha Hs. pose proof (advances_follows _ _ _ Ha) as Hset. split.
  - eapply settles_sound; [done | done | by eapply advances_db_ok, Hs | done].
  - apply guar_settles; [by apply keeps_others_same | done].
Qed.

(** *** Edges and rows come *)

Section growth.
Context `{EventWire, SerdeJson, Backend}.

Lemma upsert_edges_Ok edges w w' u :
  upsert_edges edges w = (w', Ok u) →
  w' = w {{ content_references := list_to_set edges ∪ content_references w }}.
Proof.
  revert w. induction edges as [| e edges IH]; intros w; cbn [upsert_edges].
  - intros [= <- _]. replace (list_to_set [] ∪ content_references w) with (content_references w)
      by set_solver. by destruct w.
  - destruct (artifacts w !! source_artifact_id e); [| done]. intros ->%IH. cbn.
    f_equal. set_solver.
Qed.

Lemma edge_locks_free w edges r :
  forallb (unlocked w) (edge_locks edges) = true → r ∈ edges →
  leases w !! blob_lock_key (target_content_hash r) = None.
Proof.
  intros Hall Hr. rewrite forallb_forall in Hall.
  assert (unlocked w (blob_lock_key (target_content_hash r)) = true) as Hu.
  { apply Hall, list_elem_of_In. unfold edge_locks, blob_lock_order.
    rewrite elem_of_dedup, sort_by_Permutation. by do 2 apply list_elem_of_fmap_2. }
  unfold unlocked in Hu. by destruct (leases w !! _).
Qed.

(** Edges onto blobs that nobody has locked. *)
Lemma step_edges i w edges :
  (∀ r, r ∈ edges → leases w !! blob_lock_key (target_content_hash r) = None) → sound w →
  step_ok i w (w {{ content_references := list_to_set edges ∪ content_references w }}).
Proof.
  intros Hfree [Hdb Hs Hmeta He]. split.
  - split; [done.. |]. intros id e Hid Hl Hn. destruct (He id e Hid Hl Hn) as [Hp Hb].
    split; [apply elem_of_union_r, Hp | intros b Hb'; by apply elem_of_union_r, Hb].
  - apply guar_intro; [by apply keeps_others_same | |].
    + intros id e Hid. split; [done|]. by exists e.
    + intros h j _ Hj. split; [| by intros id e Hc; exists e].
      intros r Hr <-. change (r ∈ list_to_set edges ∪ content_references w) in Hr.
      apply elem_of_union in Hr as [Hr%elem_of_list_to_set | Hr]; [| done].
      rewrite Hfree in Hj by done. done.
Qed.

(** A new artifact, with its edges. *)
Lemma step_mint i w id e metadata edges :
  artifacts w !! id = None → artifact_id (row e) = id →
  quarantine_status (row e) = projected_status (stream e) → stream e ≠ [] →
  own_edge id e (sha256_checksum (row e)) "primary_content" ∈ edges →
  (∀ blob, metadata = Some (Some blob) → own_edge id e blob "metadata_blob" ∈ edges) →
  (∀ r, r ∈ edges → leases w !! blob_lock_key (target_content_hash r) = None) → sound w →
  step_ok i w (w {{ artifacts := <[id := e]> (artifacts w) }}
                 {{ metadata_blobs ::= upsert_metadata id metadata }}
                 {{ content_references := list_to_set edges ∪ content_references w }}).
Proof.
  intros Hnew Hid Hq Hne Hp Hb Hfree [Hdb Hs Hmeta He].
  assert (∀ b, upsert_metadata id metadata (metadata_blobs w) !! id = Some b →
          metadata = Some (Some b)) as Hown.
  { intros b. destruct metadata as [[blob|]|]; cbn.
    - rewrite lookup_insert_eq. congruence.
    - by rewrite lookup_delete_eq.
    - intros [x Hx]%Hmeta. congruence. }
  assert (∀ id', id' ≠ id → upsert_metadata id metadata (metadata_blobs w) !! id' =
          metadata_blobs w !! id') as Hother.
  { intros id' Hne'. destruct metadata as [[blob|]|]; cbn; [| | done];
      [by rewrite lookup_insert_ne | by rewrite lookup_delete_ne]. }
  set (w' := w {{ artifacts := _ }} {{ metadata_blobs ::= _ }} {{ content_references := _ }}).
  assert (∀ id' e', artifacts w' !! id' = Some e' →
          id' = id ∧ e' = e ∨ id' ≠ id ∧ artifacts w !! id' = Some e') as Hcases.
  { intros id' e' H'. change (<[id := e]> (artifacts w) !! id' = Some e') in H'. apply lookup_insert_Some in H' as [[<- <-] | [? ?]]; auto. }
  split; [split |].
  - intros id' e' [[-> ->] | [? H']]%Hcases; [done | by apply Hdb].
  - intros id' e' [[-> ->] | [? H']]%Hcases; [done | by eapply Hs].
  - intros id' b Hb'. change (is_Some (<[id := e]> (artifacts w) !! id')).
    destruct (decide (id' = id)) as [-> |].
    + rewrite lookup_insert_eq. by eexists.
    + rewrite lookup_insert_ne by done. apply (Hmeta _ b). by rewrite <- Hother.
  - intros id' e' [[-> ->] | [Hn H']]%Hcases Hl Hd.
    + split; [apply elem_of_union_l, elem_of_list_to_set, Hp |].
      intros b Hb'%Hown. by apply elem_of_union_l, elem_of_list_to_set, Hb.
    + destruct (He id' e' H' Hl Hd) as [Hp' Hb']. split; [apply elem_of_union_r, Hp' |].
      intros b Hbl. apply elem_of_union_r, Hb'. by rewrite <- Hother.
  - apply guar_intro; [by apply keeps_others_same | |].
    + intros id' e' H'. assert (id' ≠ id) by congruence. split; [by apply Hother|].
      exists e'. split; [| done].
      change (<[id := e]> (artifacts w) !! id' = Some e'). by rewrite lookup_insert_ne.
    + intros h j _ Hj. split.
      * intros r Hr <-. change (r ∈ list_to_set edges ∪ content_references w) in Hr.
        apply elem_of_union in Hr as [Hr%elem_of_list_to_set | Hr]; [| done].
        rewrite Hfree in Hj by done. done.
      * intros id' e' (H' & Hl & Hc & Hw). apply Hcases in H' as [[-> ->] | [Hn H']].
        { exfalso. apply orb_true_iff in Hc as [Hc%bool_decide_eq_true | Hc%bool_decide_eq_true].
          - subst h. apply Hfree in Hp. cbn in Hp. congruence.
          - apply Hown, Hb, Hfree in Hc. cbn in Hc. congruence. }
        exists e'. split_and!; [done | done | | done]. unfold claims_hash in *.
        by rewrite <- (Hother id').
Qed.
End growth.

(** ** Tasks *)

Section tasks.
Context `{EventWire, SerdeJson, Backend}.
Context (i : nat).

Abbreviation WP := (wp sound (Rely i) (Guar i)).

(** A task every step of which keeps the invariant and the guarantee, from any state. *)
Definition harmless {A} (p : task A) : Prop := ∀ w, WP p (λ _ _, True) w.

(** A task never takes anything back that [monotone] speaks of. *)
Lemma wp_tracks {A} (p : task A) (Q : AppResult A → World → Prop) w :
  WP p Q w → WP p (λ r w', Q r w' ∧ monotone w w') w.
Proof.
  assert (monotone w w) as Hm by done. revert Hm. generalize w at 1 4 as w0. intros w0. revert w.
  induction p as [r | step IH] using prog_induction; intros w Hm; cbn [wp]; [done|].
  intros Hwp w1 Hr Hs. specialize (Hwp w1 Hr Hs). specialize (IH w1).
  destruct (step w1) as [w2 p']. destruct Hwp as (Hs2 & Hg & Hwp). split_and!; [done..|].
  apply IH; [| done]. transitivity w; [done|]. transitivity w1; [apply Hr | apply Hg].
Qed.

Lemma harmless_done {A} (r : AppResult A) : harmless (Done r).
Proof. done. Qed.

Lemma harmless_bind {A B} (p : task A) (f : A → task B) :
  harmless p → (∀ a, harmless (f a)) → harmless (p ≫= f).
Proof.
  intros Hp Hf w. apply wp_bind. eapply wp_mono; [| apply Hp]. intros [a|e] w' _; [apply Hf | done].
Qed.

Lemma harmless_port {A} (m : World → World * A) :
  (∀ w, sound w → step_ok i w (m w).1) → harmless (port m).
Proof. intros Hm w. apply wp_port. intros w1 _ Hs. destruct (Hm w1 Hs). done. Qed.

Lemma step_same w : sound w → step_ok i w w.
Proof. intros Hs. apply step_quiet; [done | by apply keeps_others_same | done]. Qed.

Lemma step_tick w : sound w → step_ok i w (tick w).
Proof. intros Hs. apply step_quiet; [done | by apply keeps_others_same | done]. Qed.

Lemma step_on_db {A} (m : World → World * DomainResult A) w :
  (∀ w', sound w' → step_ok i w' (m w').1) → sound w → step_ok i w (on_db m w).1.
Proof.
  intros Hm Hs. unfold on_db. destruct (db_fault (calls w)); [by apply step_tick|].
  exact (Hm (tick w) (proj1 (step_tick w Hs))).
Qed.

Lemma harmless_query {A} (m : World → World * DomainResult A) :
  (∀ w, sound w → step_ok i w (m w).1) → harmless (query m).
Proof. intros Hm. apply harmless_port. intros w. by apply step_on_db. Qed.

Lemma harmless_on_storage {A} (m : World → World * DomainResult A) :
  (∀ w, sound w → step_ok i w (m w).1) → harmless (on_storage m).
Proof.
  intros Hm. apply harmless_port. intros w Hs. destruct (storage_fault (calls w)); [by apply step_tick|].
  exact (Hm (tick w) (proj1 (step_tick w Hs))).
Qed.

Lemma harmless_locking {A} polls keys (m : World → World * DomainResult A) :
  (∀ w, forallb (unlocked w) keys = true → sound w → step_ok i w (m w).1) →
  harmless (locking polls keys m).
Proof.
  intros Hm. induction polls as [| polls IH]; intros w; [done|]. cbn [locking wp].
  intros w1 Hr Hs. destruct (forallb (unlocked w1) keys) eqn:Hk.
  - assert (step_ok i w1 (on_db m w1).1) as [??].
    { unfold on_db. destruct (db_fault (calls w1)); [by apply step_tick|].
      exact (Hm (tick w1) Hk (proj1 (step_tick w1 Hs))). }
    by destruct (on_db m w1).
  - destruct (step_same w1 Hs). split_and!; [done | done | apply IH].
Qed.

Lemma harmless_retry {A} n (f : task (DomainResult A)) :
  harmless f → harmless (with_contention_retry n f).
Proof.
  intros Hf. induction n as [| [| n] IH]; [done..|]. cbn [with_contention_retry].
  apply harmless_bind; [done|]. intros [a | []]; by try apply IH.
Qed.

Lemma step_in_tx {A} (m : World → World * DomainResult A) w :
  (∀ w' a, m w = (w', Ok a) → step_ok i w w') → sound w → step_ok i w (in_tx m w).1.
Proof.
  intros Hm Hs. unfold in_tx. destruct (m w) as [w' [a|e]]; [by eapply Hm | by apply step_same].
Qed.

Lemma harmless_read {A} (f : World → DomainResult A) : harmless (query (λ w, (w, f w))).
Proof. apply harmless_query. intros w. apply step_same. Qed.
End tasks.
