(* ===== verification/PurgeSafety.v ===== *)
(** Storage GC beside everything else that touches the content store: every task keeps
    the invariant of [Claims] and its guarantee, so a blob that is claimed is never
    deleted, whatever runs at the same time. *)

From coqutil Require Import Datatypes.RecordSetters.
From S2P Require Import Prelude.
From S2P Require Import RustStd.
From S2P Require Import Json.
From S2P Require Import Types.
From S2P Require Import Events.
From S2P Require Import QuarantineTransitions.
From S2P Require Import Artifact.
From S2P Require Import ScanEngine.
From S2P Require Import Store.
From S2P Require Import Lifecycle.
From S2P Require Import LifecycleSafety.
From S2P Require Import Concurrent.
From S2P Require Import ContentRefs.
From S2P Require Import Purge.
From S2P Require Import Reconcile.
From S2P Require Import Claims.
Import DoubleBraceUpdate.

Section tasks.
Context `{EventWire, SerdeJson, Backend}.
Context (i : nat).

Abbreviation WP := (wp sound (Rely i) (Guar i)).
Abbreviation harmless := (harmless i).
Abbreviation step_ok := (step_ok i).

(** ** Ingests and edges *)

Lemma storage_put_harmless h : harmless (storage_put h).
Proof.
  apply harmless_on_storage. intros w Hs.
  apply step_quiet; [done | apply keeps_others_same; [done | set_solver] | done].
Qed.

Lemma insert_reference_harmless polls r : harmless (insert_reference polls r).
Proof.
  apply harmless_retry, harmless_locking. intros w Hk Hs. apply step_in_tx; [| done].
  intros w' u ->%upsert_edges_Ok. apply step_edges; [| done].
  intros r'. by apply edge_locks_free.
Qed.

(** What a mint has to be: filed under its id, its status that of its events. *)
Definition mints (m : Mint) : Prop :=
  ∀ id now, artifact_id (mint_artifact m id now) = id ∧ mint_events m id ≠ [] ∧
    quarantine_status (mint_artifact m id now) = foldl project QS_None (mint_events m id).

Lemma project_persisted now evs : projected_status (persisted now evs) = foldl project QS_None evs.
Proof.
  unfold projected_status, persisted. rewrite <- list_fmap_compose. simpl. by rewrite list_fmap_id.
Qed.

Lemma no_stream_absent w id :
  sound w → check_expected_version EV_NoStream (artifact_stream id) (stream_of (artifacts w) id) = Ok () →
  artifacts w !! id = None.
Proof.
  intros Hs Hc. destruct (artifacts w !! id) as [e|] eqn:El; [| done].
  pose proof (sound_stream _ Hs _ _ El) as Hne. unfold check_expected_version, stream_of in Hc.
  rewrite El in Hc. destruct (stream e) as [| x l]; [done|].
  destruct (Z.eqb_spec (len (x :: l) - 1) (-1)) as [Heq|]; [| done]. unfold len in Heq. simpl in Heq. lia.
Qed.

Lemma mint_tx_step m id now evs w w' u :
  let a := mint_artifact m id now in
  let edges := ingest_edges a (repository_id a) (default None (mint_metadata m)) (mint_claims m) in
  mints m → evs = mint_events m id → forallb (unlocked w) (edge_locks edges) = true → sound w →
  mint_tx a id EV_NoStream evs now (mint_metadata m) edges w = (w', Ok u) → step_ok w w'.
Proof.
  intros a edges Hm -> Hk Hs. destruct (Hm id now) as (Hid & Hne & Hq). unfold mint_tx.
  destruct (commit_transition _ _ _ _ _ _) as [db' [[]|]] eqn:Ec; [| done].
  apply commit_transition_Ok in Ec as (_ & Hc & ->).
  pose proof (no_stream_absent _ _ Hs Hc) as Hnew. fold a in Hid. rewrite Hid.
  intros ->%upsert_edges_Ok. unfold stream_of. rewrite Hnew.
  apply (step_mint i w id {| row := upsert None a; stream := persisted now (mint_events m id) |}
           (mint_metadata m) edges); [done | done | | | | | | done].
  - cbn [row stream]. rewrite project_persisted. exact Hq.
  - cbn. by destruct (mint_events m id).
  - unfold edges, ingest_edges, own_edge. rewrite Hid. left.
  - intros blob Hb. unfold edges, ingest_edges, own_edge. rewrite Hb, Hid. right. left.
  - intros r. by apply edge_locks_free.
Qed.

Lemma genesis_wp w :
  WP genesis (λ r _, ∀ id now v, r = Ok (Ok (id, now, v)) → v = EV_NoStream) w.
Proof.
  apply wp_port. intros w1 _ Hs. destruct (step_tick i w1 Hs). split_and!; [done..|]. cbn [snd].
  intros id now v. destruct (db_fault (calls w1)); [done|]. case_match; [done|]. intros [= <- <- <-].
  unfold read_expected_version, capped_artifact_read, stream_of. by rewrite new_v4_fresh.
Qed.

Lemma mint_harmless polls m : mints m → harmless (mint polls m).
Proof.
  intros Hm w. apply wp_bind. eapply wp_mono; [| apply genesis_wp].
  intros [[[[id now] v] | e] | e] w' Hv; [| done | done]. rewrite (Hv id now v eq_refl).
  apply harmless_bind; [| intros [?|?]; apply harmless_done].
  unfold commit_transition_with_enqueues. destruct (require_paired_artifact_stream _ _); [| done].
  apply harmless_retry, harmless_locking. intros w1 Hk Hs. apply step_in_tx; [| done].
  intros w2 u. by apply mint_tx_step.
Qed.

Lemma ingest_signature_manifest_harmless polls repo coords ct up payload declared claimed h size :
  harmless (ingest_signature_manifest polls repo coords ct up payload declared claimed h size).
Proof.
  apply harmless_bind; [apply storage_put_harmless|]. intros [put|e]; [| done].
  destruct (negb _); [done|]. by apply mint_harmless.
Qed.

(** ** Rows and rejections *)

Lemma lifecycle_harmless {A} J (h : handler A) :
  (∀ db, db_ok db → advances J db (h db).1) → harmless (lifecycle h).
Proof.
  intros Hh. apply harmless_port. intros w Hs. destruct (db_fault (calls w)); [by apply step_tick|].
  specialize (Hh (artifacts w) (sound_db _ Hs)). destruct (h (artifacts w)) as [db' r].
  exact (step_advances_ok i J (tick w) db' Hh (proj1 (step_tick i w Hs))).
Qed.

(** An artifact that is, or has been, rejected. *)
Definition disowned_at (id : Uuid) (w : World) : Prop :=
  ∃ e, artifacts w !! id = Some e ∧ disowned (lift_state (stream e)).

Lemma disowned_at_stays id w w' : monotone w w' → disowned_at id w → disowned_at id w'.
Proof.
  intros Hm (e & He & Hd). destruct (Hm id e He) as (_ & e' & He' & _ & _ & more & Hs).
  exists e'. split; [done|]. rewrite Hs. by apply disowned_app.
Qed.

Lemma rejected_disowned id w :
  sound w → status_in (artifacts w) id = Some QS_Rejected → disowned_at id w.
Proof.
  intros Hs Hst. unfold status_in in Hst. destruct (artifacts w !! id) as [e|] eqn:El; [| done].
  injection Hst as Hst. exists e. split; [done|]. right.
  rewrite lift_state_status, <- Hst. symmetry. exact (proj2 (sound_db _ Hs id e El)).
Qed.

Lemma step_sweep_edges (P : ContentReference → Prop) `{!∀ r, Decision (P r)} id w :
  disowned_at id w → (∀ r, ¬ P r → source_artifact_id r = id) → sound w →
  step_ok w (w {{ content_references ::= filter P }}).
Proof.
  intros (e & He & Hd) HP Hs. apply step_drop; [| done].
  intros r e' _ Hn He' _. rewrite (HP r Hn) in He'. congruence.
Qed.

(** Only what is left of a rejected artifact is swept. *)
Lemma wp_sweep_edges (P : ContentReference → Prop) `{!∀ r, Decision (P r)} id w :
  disowned_at id w → (∀ r, ¬ P r → source_artifact_id r = id) →
  WP (query (λ w, (w {{ content_references ::= filter P }}, Ok ()))) (λ _ _, True) w.
Proof.
  intros Hd HP. apply wp_port. intros w1 [Hm _] Hs. unfold on_db.
  pose proof (disowned_at_stays _ _ _ Hm Hd) as Hd1.
  assert (∀ w2, step_ok w1 w2 → sound w2 ∧ Guar i w1 w2 ∧ True) as Hgo by (by intros w2 []).
  destruct (db_fault (calls w1)); apply Hgo; [by apply step_tick|].
  exact (step_sweep_edges P id (tick w1) Hd1 HP (proj1 (step_tick i w1 Hs))).
Qed.

Lemma wp_delete_by_source id w : disowned_at id w → WP (delete_by_source id) (λ _ _, True) w.
Proof. intros Hd. apply (wp_sweep_edges _ id); [done|]. intros r Hr. by apply dec_stable. Qed.

(** A lifecycle step, and what its outcome says of the state it leaves. *)
Lemma wp_lifecycle {A} J (h : handler A) (Q : AppResult A → World → Prop) w :
  (∀ w1, monotone w w1 → sound w1 → advances J (artifacts w1) (h (artifacts w1)).1) →
  (∀ w1 a, monotone w w1 → sound w1 → (h (artifacts w1)).2 = Ok a →
     sound (tick w1 {{ artifacts := (h (artifacts w1)).1 }}) →
     Q (Ok a) (tick w1 {{ artifacts := (h (artifacts w1)).1 }})) →
  (∀ e w1, Q (Err e) w1) →
  WP (lifecycle h) (λ r w', ∀ x, r = Ok x → Q x w') w.
Proof.
  intros Hh HQ He. apply wp_port. intros w1 [Hm _] Hs. destruct (db_fault (calls w1)).
  { destruct (step_tick i w1 Hs). split_and!; [done..|]. by intros x [= <-]. }
  specialize (Hh w1 Hm Hs). specialize (HQ w1).
  destruct (h (artifacts w1)) as [db' r]. 
  destruct (step_advances_ok i J (tick w1) db' Hh (proj1 (step_tick i w1 Hs))) as [Hs' Hg].
  split_and!; [done | exact Hg |]. intros x [= <-]. destruct r as [a|e]; [by apply HQ | apply He].
Qed.

Lemma record_scan_result_task_harmless `{Unicode} ports id scanner findings assessment k :
  harmless (record_scan_result_task ports id scanner findings assessment k).
Proof.
  intros w. apply wp_bind. eapply wp_mono; cycle 1.
  - apply (wp_lifecycle (release_justified ports) _ (λ r w', r = Ok true → disowned_at id w')).
    + intros w1 _ _. unfold freshly_rejecting.
      destruct (record_scan_result _ _ _ _ _ _ _) as [db' r] eqn:E.
      by eapply (record_scan_result_safe ports).
    + intros w1 a _ _. unfold freshly_rejecting.
      destruct (record_scan_result _ _ _ _ _ _ _) as [db' [[]|]]; [| done]. cbn [fst snd].
      intros [= <-] Hs [= Hf]. apply rejected_disowned; [done|].
      by apply andb_true_iff in Hf as [_ Hf%bool_decide_eq_true].
    + done.
  - intros [x|] w' Hx; [| done]. specialize (Hx x eq_refl). destruct x as [[]|]; [| done..].
    apply wp_bind. eapply wp_mono; [| by apply wp_delete_by_source, Hx]. by intros [].
Qed.

(** The artifact [a] was read from this world, at some time. *)
Definition known (a : Artifact) (w : World) : Prop :=
  ∃ e, artifacts w !! artifact_id a = Some e ∧ identity (row e) = identity a.

Lemma known_stays a w w' : monotone w w' → known a w → known a w'.
Proof.
  intros Hm (e & He & Hi). destruct (Hm _ e He) as (_ & e' & He' & Hi' & _).
  exists e'. split; [done | congruence].
Qed.

Lemma commit_retroactive_block_advances a rule reason now w :
  known a w →
  advances (λ _ _, True) (artifacts w) (commit_retroactive_block a rule reason now (artifacts w)).1.
Proof.
  intros (e & He & Hi).
  enough (safe (λ _ _, True) (commit_retroactive_block a rule reason now) (artifacts w)) as Hsafe
    by (eapply Hsafe, surjective_pairing).
  unfold commit_retroactive_block. apply safe_self, safe_apply_method. intros a' x Hm.
  unfold reject_from_retroactive_curation in Hm. run_method Hm.
  apply safe_commit_transition with e; [done | done | | done | done].
  unfold identity. cbn. congruence.
Qed.

Lemma commit_retroactive_block_rejects a rule reason now db u :
  (commit_retroactive_block a rule reason now db).2 = Ok u →
  status_in (commit_retroactive_block a rule reason now db).1 (artifact_id a) = Some QS_Rejected.
Proof.
  unfold commit_retroactive_block. cbv [mbind mut_bind self apply_method].
  destruct (reject_from_retroactive_curation rule reason a) as [a' [x|]] eqn:Em; [| done].
  unfold reject_from_retroactive_curation in Em. run_method Em.
  cbv [mret mut_ret commit]. cbn [fst snd].
  destruct (commit_transition _ _ _ _ _ db) as [db' [[]|]] eqn:Ec; [| done].
  apply commit_transition_Ok in Ec as (_ & _ & ->). intros _. unfold status_in. cbn [fst].
  by rewrite lookup_insert_eq.
Qed.

Lemma retroactive_block_harmless id rule reason now :
  harmless (retroactive_block id rule reason now).
Proof.
  intros w. apply wp_bind. eapply (wp_mono _ _ _ _ (λ r w', ∀ a, r = Ok (Ok a) → known a w')).
  - intros [[a|e]|e] w' Ha; [| done..]. specialize (Ha a eq_refl). apply wp_bind.
    eapply wp_mono; cycle 1.
    + apply (wp_lifecycle (λ _ _, True) _ (λ r w', r = Ok () → disowned_at (artifact_id a) w')); [| | done].
      * intros w1 Hm _. by eapply commit_retroactive_block_advances, known_stays.
      * intros w1 [] _ _ Hok Hs _. apply rejected_disowned; [done|].
        by apply (commit_retroactive_block_rejects a rule reason now (artifacts w1) ()).
    + intros [x|] w'' Hx; [| done]. specialize (Hx x eq_refl). destruct x as [[]|]; [| done].
      apply wp_bind. eapply wp_mono; [| by apply wp_delete_by_source, Hx]. by intros [].
  - apply wp_port. intros w1 _ Hs. unfold on_db. destruct (step_tick i w1 Hs).
    destruct (db_fault (calls w1)); cbn [fst snd]; (split_and!; [done | done |]); [done|].
    intros a Heq. assert (find_by_id (artifacts w1) id = Ok a) as Ha
      by (injection Heq as Heq; exact Heq).
    unfold find_by_id in Ha.
    destruct (artifacts w1 !! id) as [e|] eqn:El; [| done].
    destruct (is_some _); [done|]. injection Ha as <-. exists e. cbn [artifact_id hydrate].
    split; [| done]. by rewrite (proj1 (sound_db _ Hs id e El)).
Qed.

Lemma append_expiry_advances id x now db :
  advances (λ _ _, True) db (append_expiry id x now db).1.
Proof.
  unfold append_expiry. cbv [mbind mut_bind self lift modify throw lift_domain map_err].
  destruct (db !! id) as [e|] eqn:El; [| by left].
  destruct (append_in_tx _ _ _ _ _) as [s|] eqn:Ea; [| by left].
  apply append_in_tx_Ok in Ea as [_ ->]. right. unfold stream_of. rewrite El.
  by exists id, e, {| row := row e; stream := stream e ++ persisted now [DE_ArtifactExpired x] |},
    [DE_ArtifactExpired x], now.
Qed.

Lemma move_ref_harmless r : harmless (move_ref r).
Proof.
  apply harmless_query. intros w Hs.
  apply step_quiet; [done | by apply keeps_others_same | done].
Qed.

Lemma retire_ref_harmless repo namespace ref_name : harmless (retire_ref repo namespace ref_name).
Proof.
  apply harmless_query. intros w Hs. destruct (is_empty _); [by apply step_same|].
  apply step_quiet; [done | by apply keeps_others_same | done].
Qed.

(** ** The reconcile sweep *)

(** What the scan found still applies when the repair does. *)
Definition repair_ok (repo : Uuid) (w : World) (r : RefcountRepair) : Prop :=
  match r with
  | CreatePrimaryContent source expected | RepairPrimaryContent source _ expected =>
      ∃ e, artifacts w !! source = Some e ∧ repository_id (row e) = repo ∧
           sha256_checksum (row e) = expected
  | UpsertMetadataBlob source _ expected =>
      ∃ e, artifacts w !! source = Some e ∧ repository_id (row e) = repo ∧
           metadata_blobs w !! source = Some expected
  | DeleteRejectedSourceRows source _ => disowned_at source w
  end.

Lemma repair_ok_stays repo r w w' : monotone w w' → repair_ok repo w r → repair_ok repo w' r.
Proof.
  intros Hm. destruct r as [s h | s f h | s f h | s k]; cbn; [.. | by apply disowned_at_stays].
  all: intros (e & He & Hr & Hh); destruct (Hm s e He) as (Hb & e' & He' & Hi & _).
  all: injection Hi as _ Hrepo Hsum; exists e'; split_and!; congruence.
Qed.

Lemma Forall_repair_ok_stays repo rs w w' :
  monotone w w' → Forall (repair_ok repo w) rs → Forall (repair_ok repo w') rs.
Proof. intros Hm Hrs. eapply Forall_impl; [done|]. intros r. by apply repair_ok_stays. Qed.

Lemma primary_drift_ok repo w : Forall (repair_ok repo w) (primary_drift repo w).
Proof.
  apply Forall_forall. intros r ([id e] & Hr & Hin%elem_of_map_to_list)%list_elem_of_bind.
  unfold owed in Hr. destruct (Z.eqb_spec (repository_id (row e)) repo); [| by apply not_elem_of_nil in Hr].
  destruct (_ && _); [| by apply not_elem_of_nil in Hr].
  apply drift_cases in Hr as [-> | [h ->]]; by exists e.
Qed.

Lemma metadata_drift_ok repo w : Forall (repair_ok repo w) (metadata_drift repo w).
Proof.
  apply Forall_forall. intros r ([id e] & Hr & Hin%elem_of_map_to_list)%list_elem_of_bind.
  destruct (metadata_blobs w !! id) as [b|] eqn:Eb; [| by apply not_elem_of_nil in Hr].
  unfold owed in Hr. destruct (Z.eqb_spec (repository_id (row e)) repo); [| by apply not_elem_of_nil in Hr].
  destruct (_ && _); [| by apply not_elem_of_nil in Hr].
  apply drift_cases in Hr as [-> | [h ->]]; by exists e.
Qed.

Lemma rejected_drift_ok repo w : sound w → Forall (repair_ok repo w) (rejected_drift repo w).
Proof.
  intros Hs. apply Forall_forall. intros r ([id e] & Hr & Hin)%list_elem_of_bind.
  rewrite sort_by_Permutation in Hin. apply elem_of_map_to_list in Hin.
  case_bool_decide as Hq; [| by apply not_elem_of_nil in Hr].
  destruct (sort_by _ _) as [| k l]; [by apply not_elem_of_nil in Hr|].
  apply list_elem_of_singleton in Hr as ->. apply rejected_disowned; [done|].
  unfold status_in. rewrite Hin. cbn. by rewrite Hq.
Qed.

(** The edge a repair leaves is the one the row is owed. *)
Lemma step_replace_edge repo source k target e w w' u :
  artifacts w !! source = Some e → repository_id (row e) = repo →
  (k = "primary_content"%string ∧ sha256_checksum (row e) = target ∨
   k = "metadata_blob"%string ∧ metadata_blobs w !! source = Some target) →
  leases w !! blob_lock_key target = None → sound w →
  replace_edge repo source k target w = (w', Ok u) → step_ok w w'.
Proof.
  intros He Hrepo Hk Hfree [Hdb Hs Hmeta Hedges].
  unfold replace_edge. intros ->%upsert_edges_Ok.
  set (new := {| source_artifact_id := source; target_content_hash := target; kind := k;
                 cr_repository_id := repo |}).
  set (rest := filter (λ r, ¬ (cr_repository_id r = repo ∧ source_artifact_id r = source ∧ kind r = k))
                 (content_references w)).
  enough (step_ok w (w {{ content_references := list_to_set [new] ∪ rest }})) as Hok by exact Hok.
  assert (∀ id e' t k', artifacts w !! id = Some e' → own_edge id e' t k' ∈ content_references w →
          (id = source → k' = k → t = target) →
          own_edge id e' t k' ∈ (list_to_set [new] ∪ rest : gset ContentReference)) as Hkeep.
  { intros id e' t k' Hid Hin Ht.
    destruct (decide (id = source ∧ k' = k)) as [[-> ->] | Hn].
    - assert (e' = e) as -> by congruence. rewrite (Ht eq_refl eq_refl). unfold own_edge, new.
      rewrite Hrepo. set_solver.
    - apply elem_of_union_r, elem_of_filter. cbn. naive_solver. }
  split.
  - split; [done.. |]. intros id e' Hid Hl Hd. change (artifacts w !! id = Some e') in Hid.
    destruct (Hedges id e' Hid Hl Hd) as [Hp Hb].
    split; [apply Hkeep; [done..|] | intros b Hb'; apply Hkeep; [done | by apply Hb |];
      change (metadata_blobs w !! id = Some b) in Hb'].
    all: intros -> <-; assert (e' = e) as -> by congruence.
    all: destruct Hk as [[Hk Ht] | [Hk Ht]]; [done || congruence..].
  - apply guar_intro; [by apply keeps_others_same | |].
    + intros id e' Hid. split; [done|]. by exists e'.
    + intros h j _ Hj. split; [| by intros id e' Hc; exists e'].
      intros r Hr <-. change (r ∈ (list_to_set [new] ∪ rest : gset ContentReference)) in Hr.
      apply elem_of_union in Hr as [Hr | Hr%elem_of_filter]; [| by apply Hr].
      assert (r = new) as -> by set_solver. cbn in Hj. congruence.
Qed.

Lemma upsert_row_wp polls repo source k target w :
  (∀ w1, monotone w w1 → ∃ e, artifacts w1 !! source = Some e ∧ repository_id (row e) = repo ∧
    (k = "primary_content"%string ∧ sha256_checksum (row e) = target ∨
     k = "metadata_blob"%string ∧ metadata_blobs w1 !! source = Some target)) →
  WP (upsert_row polls repo source k target) (λ _ _, True) w.
Proof.
  revert w. induction polls as [| polls IH]; intros w Hrow; [done|]. unfold upsert_row.
  cbn [locking wp]. intros w1 Hr Hs. destruct (forallb _ _) eqn:Hk.
  - assert (step_ok w1 (on_db (in_tx (replace_edge repo source k target)) w1).1) as [??].
    { unfold on_db. destruct (db_fault (calls w1)); [by apply step_tick|].
      apply (step_in_tx i _ (tick w1)); [| by apply (step_tick i)]. intros w2 u Hw2.
      destruct (Hrow w1) as (e & He & Hrepo & Hcase); [apply Hr|].
      cbn in Hk. unfold unlocked in Hk.
      eapply (step_replace_edge _ _ _ _ e (tick w1)); [done | done | done | | | done].
      - change (leases (tick w1)) with (leases w1). by destruct (leases w1 !! _).
      - by apply (step_tick i). }
    by destruct (on_db _ w1).
  - destruct (step_same i w1 Hs). split_and!; [done | done |]. apply (IH w1).
    intros w2 Hm. apply Hrow. transitivity w1; [apply Hr | done].
Qed.

Lemma apply_repair_wp polls repo r w :
  repair_ok repo w r → WP (apply_repair polls repo r) (λ _ _, True) w.
Proof.
  intros Hok. assert (∀ w1, monotone w w1 → repair_ok repo w1 r) as Hok'
    by (intros w1 Hm; by eapply repair_ok_stays). clear Hok.
  destruct r as [s h | s f h | s f h | s k]; cbn [apply_repair repair_ok] in *.
  1-3: apply upsert_row_wp; intros w1 Hm; destruct (Hok' w1 Hm) as (e & ? & ? & ?); exists e; by auto.
  apply (wp_sweep_edges _ s); [by apply Hok'|]. intros r Hr.
  destruct (decide (source_artifact_id r = s)); [done|]. naive_solver.
Qed.

Lemma apply_repairs_wp polls repo rs n m w :
  Forall (repair_ok repo w) rs → WP (apply_repairs polls repo rs n m) (λ _ _, True) w.
Proof.
  revert n m w. induction rs as [| r rs IH]; intros n m w Hok; [done|]. cbn [apply_repairs].
  apply Forall_cons in Hok as [Hr Hrs]. apply wp_bind.
  eapply wp_mono; [| by apply wp_tracks, apply_repair_wp].
  intros [[u|e]|e] w' [_ Hm]; [apply IH | apply IH | done]; by eapply Forall_repair_ok_stays.
Qed.

(** A read whose answer keeps being right. *)
Lemma wp_scan {A} (f : World → A) (Q : A → World → Prop) w :
  (∀ w1, sound w1 → Q (f w1) w1) →
  WP (query (λ w, (w, Ok (f w)))) (λ r w', ∀ a, r = Ok (Ok a) → Q a w' ∧ monotone w w') w.
Proof.
  intros HQ. apply wp_port. intros w1 [Hm _] Hs. unfold on_db. destruct (step_tick i w1 Hs) as [Ht ?].
  destruct (db_fault (calls w1)); cbn [fst snd]; (split_and!; [done | done |]); [done|].
  intros a [= <-]. split; [by apply HQ | exact Hm].
Qed.

Lemma scan_repo_drift_wp repo w :
  WP (scan_repo_drift repo) (λ r w', ∀ rs, r = Ok (Ok rs) → Forall (repair_ok repo w') rs) w.
Proof.
  apply wp_bind. eapply wp_mono; [| apply (wp_scan _ (λ rs w', Forall (repair_ok repo w') rs));
                                    intros; apply primary_drift_ok].
  intros [[p|]|] w1 Q1; [| done..]. destruct (Q1 p eq_refl) as [Hp _].
  apply wp_bind. eapply wp_mono; [| apply (wp_scan _ (λ rs w', Forall (repair_ok repo w') rs));
                                    intros; apply metadata_drift_ok].
  intros [[m|]|] w2 Q2; [| done..]. destruct (Q2 m eq_refl) as [Hmeta M12].
  apply wp_bind. eapply wp_mono; [| apply (wp_scan _ (λ rs w', Forall (repair_ok repo w') rs));
                                    intros; by apply rejected_drift_ok].
  intros [[rj|]|] w3 Q3; [| done..]. destruct (Q3 rj eq_refl) as [Hr M23].
  intros rs [= <-]. rewrite !Forall_app. split_and!; [| | done].
  - eapply Forall_repair_ok_stays; [by transitivity w2 | done].
  - by eapply Forall_repair_ok_stays.
Qed.

Lemma sweep_drift_harmless polls : harmless (sweep_drift polls).
Proof.
  apply harmless_bind; [apply harmless_read|]. intros [repos|]; [| done].
  generalize ReconcileSummary_default. induction repos as [| repo repos IH]; intros summary; [done|].
  apply harmless_bind; [| intros; apply IH]. intros w. apply wp_bind.
  eapply wp_mono; [| apply scan_repo_drift_wp]. intros [[rs|]|] w' Hrs; [| done..].
  apply apply_repairs_wp. by apply Hrs.
Qed.

(** ** The purge *)

(** *** Retiring *)

Lemma settles_set_row id now w : settles w (set_row id (retire now) w).
Proof.
  split_and!; [| done | done]. intros id'.
  change (artifacts (set_row id (retire now) w)) with
    (alter (λ e, {| row := retire now (row e); stream := stream e |}) id (artifacts w)).
  destruct (decide (id = id')) as [-> |]; [| rewrite lookup_alter_ne by done; by apply (rows_same w w)].
  rewrite lookup_alter_eq. destruct (artifacts w !! id') as [e|]; constructor.
  split_and!; [| | by exists []; rewrite app_nil_r]; unfold live; cbn [row stream];
    unfold retire; destruct (deleted_at (row e)) eqn:Ed; first [done | cbn; congruence].
Qed.

Lemma alter_as_insert (f : Entry → Entry) (id : Uuid) (db : Db) :
  alter f id db = match db !! id with Some e => <[id := f e]> db | None => db end.
Proof.
  apply map_eq. intros id'. destruct (decide (id = id')) as [-> |].
  - rewrite lookup_alter_eq. destruct (db !! id') eqn:E; [by rewrite lookup_insert_eq | by rewrite E].
  - rewrite lookup_alter_ne by done. destruct (db !! id); [by rewrite lookup_insert_ne | done].
Qed.

Lemma retired_not_live id now w e : artifacts (set_row id (retire now) w) !! id = Some e → ¬ live e.
Proof.
  change (artifacts (set_row id (retire now) w)) with
    (alter (λ e, {| row := retire now (row e); stream := stream e |}) id (artifacts w)).
  rewrite lookup_alter_eq. destruct (artifacts w !! id) as [e0|]; [| done]. intros [= <-].
  unfold live. cbn [row]. unfold retire. destruct (deleted_at (row e0)) eqn:Ed; [congruence | done].
Qed.

(** A step that rewrites one row and its stream, without touching the status. *)
Lemma db_ok_insert db id e e' :
  db_ok db → db !! id = Some e → artifact_id (row e') = artifact_id (row e) →
  quarantine_status (row e') = quarantine_status (row e) →
  projected_status (stream e') = projected_status (stream e) → db_ok (<[id := e']> db).
Proof.
  intros Hdb He Hi Hq Hp id' x [[<- <-] | [_ Hx]]%lookup_insert_Some; [| by apply Hdb].
  destruct (Hdb id e He) as [? ?]. split; congruence.
Qed.

Lemma sound_set_row id now w : sound w → sound (set_row id (retire now) w).
Proof.
  intros Hs. eapply settles_sound; [apply settles_set_row | done | | done].
  change (artifacts (set_row id (retire now) w)) with
    (alter (λ e, {| row := retire now (row e); stream := stream e |}) id (artifacts w)).
  rewrite alter_as_insert. destruct (artifacts w !! id) as [e|] eqn:El; [| apply Hs].
  eapply db_ok_insert; [apply Hs | done | ..]; [| | done].
  all: cbn [row]; unfold retire; by destruct (deleted_at (row e)).
Qed.

Lemma step_resume id now existing w : sound w → step_ok w (resume id now existing w).1.
Proof.
  intros Hs. split; [by apply sound_set_row|].
  apply guar_settles; [by apply keeps_others_same | apply settles_set_row].
Qed.

Lemma insert_worklist_quiet id hashes w :
  quiet w (insert_worklist id hashes w) ∧
  leases (insert_worklist id hashes w) = leases w ∧ storage (insert_worklist id hashes w) = storage w.
Proof.
  revert w. induction hashes as [| h hashes IH]; intros w; [done|].
  exact (IH (insert_worklist_row id h w)).
Qed.

Lemma step_prepare_locked id now w : sound w → step_ok w (prepare_locked id now w).1.
Proof.
  intros Hs. unfold prepare_locked. destruct (artifacts w !! id) as [e|]; [| by apply step_same].
  destruct (negb _); [by apply step_resume|].
  destruct (is_gc_protected _); [by apply step_same|]. destruct (is_tag_exempt _); [by apply step_same|].
  cbn [fst retire_row]. set (w1 := set_row id (retire now) w).
  set (w2 := w1 {{ content_references ::= filter (λ r, source_artifact_id r ≠ id) }}).
  destruct (insert_worklist_quiet id (purge_targets id (row e) w) w2) as (Hq & Hl & Hst).
  set (w3 := insert_worklist _ _ w2) in *.
  assert (step_ok w1 w2) as [Hs2 _].
  { apply step_drop; [| by apply sound_set_row]. intros r e' _ Hn He' Hlive.
    assert (source_artifact_id r = id) as Hr by (by apply dec_stable). rewrite Hr in He'.
    by apply retired_not_live in He'. }
  split; [by apply (quiet_sound w2)|]. apply guar_settles.
  { by apply keeps_others_same; rewrite ?Hl, ?Hst. }
  transitivity w1; [apply settles_set_row|]. destruct Hq as (Ha & Hm & Hr).
  split_and!; [by apply rows_same; rewrite Ha | by rewrite Hm | rewrite Hr].
  intros r Hin. by apply elem_of_filter in Hin as [_ ?].
Qed.

Lemma purge_artifact_refs_harmless id now : harmless (purge_artifact_refs id now).
Proof.
  apply harmless_bind.
  - apply harmless_query. intros w Hs.
    pose proof (step_resume id now (load_worklist id w) w Hs) as Hr. cbv zeta.
    destruct (is_empty (load_worklist id w)); [by apply step_same|].
    by destruct (resume _ _ _ w) as [w' r].
  - intros [[p|]|]; [done | | done]. apply harmless_query. intros w. apply step_prepare_locked.
Qed.

(** *** Finishing *)

Lemma terminal_map_project id now evs actual m s :
  terminal_map id now evs actual = Ok m → foldl project s evs = s.
Proof.
  revert actual. induction evs as [| ev evs IH]; intros actual; [done|]. cbn [terminal_map].
  destruct ev; try done. destruct (_ || _); [done|]. destruct (is_some _); [done|].
  intros Hm. cbn [foldl project]. by eapply IH.
Qed.

Lemma step_complete_tx id now batch w : sound w → step_ok w (complete_tx id now batch w).1.
Proof.
  intros Hs. unfold complete_tx. do 2 (destruct (_ : bool); [by apply step_same|]).
  destruct (validate_terminal_batch _ _ _ _) eqn:Hv; [| by apply step_same].
  unfold validate_terminal_batch in Hv. destruct (Z.eqb_spec (ab_stream batch) id) as [Hid|]; [| done].
  cbn [negb] in Hv. unbind. rewrite Hid.
  destruct (append_in_tx _ _ _ _ _) as [s|] eqn:Ha; [| by apply step_same].
  destruct (artifacts w !! id) as [e|] eqn:El; [| by apply step_same].
  apply append_in_tx_Ok in Ha as [_ ->]. unfold stream_of. rewrite El. cbn [fst].
  set (a := set_updated _ _). set (s := stream e ++ _).
  assert (identity a = identity (row e) ∧ quarantine_status a = quarantine_status (row e) ∧
          deleted_at a ≠ None) as (Hi & Hq & Hd).
  { unfold a. cbn. by destruct (deleted_at (row e)) eqn:Ed; cbn; rewrite ?Ed. }
  set (w' := w {{ artifacts ::= _ }} {{ worklist ::= _ }}).
  assert (settles w w') as Hset.
  { split_and!; [| done | done]. intros id'.
    change (artifacts w') with (<[id := {| row := a; stream := s |}]> (artifacts w)).
    destruct (decide (id = id')) as [<- |].
    - rewrite lookup_insert_eq, El. constructor. split_and!; [done | done | by eexists].
    - rewrite lookup_insert_ne by done. by apply (rows_same w w). }
  split; [| apply guar_settles; [by apply keeps_others_same | done]].
  eapply settles_sound; [done | done | | done].
  eapply db_ok_insert; [apply Hs | done | by injection Hi | done |].
  unfold s, projected_status. cbn [stream]. rewrite fmap_app, foldl_app.
  change (list_fmap _ _ _ (ab_events batch)) with (persisted (utc_now (calls w)) (ab_events batch)).
  unfold persisted. rewrite <- list_fmap_compose. simpl. rewrite list_fmap_id.
  by eapply terminal_map_project.
Qed.

(** *** Reclaiming *)

Definition held (h : ContentHash) (w : World) : Prop := leases w !! blob_lock_key h = Some i.

Lemma held_stays h w w' : Rely i w w' → held h w → held h w' ∧ no_new_claims h w w'.
Proof. intros [_ Hl] Hh. by apply Hl. Qed.

(** A step that only drops the task's own lock. *)
Lemma step_end_lease h w w' :
  held h w → quiet w w' → leases w' = base.delete (blob_lock_key h) (leases w) →
  storage w' = storage w → sound w → step_ok w w'.
Proof.
  intros Hh Hq Hl Hst Hs. apply step_quiet; [done | | done]. split; [| by rewrite Hst].
  intros key j Hj Hk. rewrite Hl. destruct (decide (blob_lock_key h = key)) as [<- |].
  - unfold held in Hh. congruence.
  - by rewrite lookup_delete_ne.
Qed.

Lemma wp_holding {A} h (m : World → World * DomainResult A) (Q : A → World → Prop) w :
  held h w →
  (∀ w1, Rely i w w1 → held h w1 → sound w1 →
     match m w1 with (w2, Ok a) => step_ok w1 w2 ∧ Q a w2 | (w2, Err _) => w2 = w1 end) →
  WP (holding (blob_lock_key h) m) (λ r w', ∀ a, r = Ok (Ok a) → Q a w') w.
Proof.
  intros Hh Hm. apply wp_port. intros w1 Hr Hs. destruct (step_tick i w1 Hs) as [Hst _].
  destruct (held_stays _ _ _ Hr Hh) as [Hh1 _]. specialize (Hm (tick w1) Hr Hh1 Hst).
  assert (step_ok w1 (end_lease (blob_lock_key h) (tick w1))) as [He Hge]
    by (by apply (step_end_lease h)).
  unfold on_db. destruct (db_fault (calls w1)); cbn [fst snd].
  { split_and!; [done | done |]. done. }
  destruct (m (tick w1)) as [w2 [a|e]]; cbn [fst snd].
  - destruct Hm as [[Hs2 Hg] HQ]. split_and!; [done | exact Hg |]. by intros x [= <-].
  - subst w2. by split_and!.
Qed.

Lemma keep_blob_spec id h claims outcome w :
  held h w → sound w →
  match keep_blob id h claims outcome w with
  | (w2, Ok o) => step_ok w w2 ∧ o = Some outcome
  | (w2, Err _) => w2 = w
  end.
Proof.
  intros Hh Hs. unfold keep_blob, refresh_worklist_refs.
  destruct (worklist w !! (id, h)); [| done]. split; [| done]. by apply (step_end_lease h).
Qed.

Lemma count_zero {A} (l : list A) : (0 <? count_u32 l) = false → l = [].
Proof. unfold count_u32, len, u32_MAX. intros Hc. apply Z.ltb_ge in Hc. destruct l; [done|]. simpl in Hc. lia. Qed.

Lemma no_references h w r :
  (0 <? remaining_refs h w) = false → r ∈ content_references w → target_content_hash r ≠ h.
Proof.
  intros Hc%count_zero Hr Ht. assert (r ∈ references_to h w) as Hin.
  { apply elem_of_elements, elem_of_filter. done. }
  rewrite Hc in Hin. by apply not_elem_of_nil in Hin.
Qed.

(** Without an edge and without a protected claimant, there is no claim. *)
Lemma unclaimed h w :
  sound w → (∀ r, r ∈ content_references w → target_content_hash r ≠ h) →
  (0 <? protected_claimants h w) = false → ¬ claimed w h.
Proof.
  intros Hs Hr Hc%count_zero [(r & Hin & Ht) | (id & e & He & Hl & Hcl & Hw)]; [by eapply Hr|].
  destruct (decide (quarantine_status (row e) = QS_Rejected)) as [Hq | Hq].
  - assert ((id, e) ∈ filter (λ p, protected_claimant w h p = true) (map_to_list (artifacts w))) as Hin.
    { apply list_elem_of_filter. split; [| by apply elem_of_map_to_list].
      unfold protected_claimant. unfold live in Hl. rewrite Hl, Hq, Hcl. done. }
    rewrite Hc in Hin. by apply not_elem_of_nil in Hin.
  - assert (has_edges w id e) as [Hp Hb].
    { apply (sound_edges _ Hs); [done..|]. intros [Hd | Hd]; [unfold was_lifted in Hw; congruence|].
      rewrite lift_state_status, <- (proj2 (sound_db _ Hs id e He)) in Hd. done. }
    apply orb_true_iff in Hcl as [Hcl%bool_decide_eq_true | Hcl%bool_decide_eq_true].
    + by apply (Hr _ Hp).
    + by apply (Hr _ (Hb _ Hcl)).
Qed.

Lemma try_lock_wp h w :
  WP (try_lock_blob_in_tx i h) (λ r w', r = Ok (Ok true) → held h w') w.
Proof.
  apply wp_port. intros w1 _ Hs. destruct (step_tick i w1 Hs) as [Hst Hg].
  destruct (lock_busy _ || _) eqn:Hb; [by split_and!|]. unfold on_db.
  destruct (db_fault (calls w1)); [by split_and!|]. cbn [fst snd].
  apply orb_false_iff in Hb as [_ Hb]. unfold unlocked in Hb.
  destruct (leases w1 !! blob_lock_key h) eqn:Hfree; [done|].
  set (w2 := start_lease i (blob_lock_key h) (tick w1)).
  assert (leases w2 = <[blob_lock_key h := i]> (leases w1)) as Hl by done.
  assert (step_ok w1 w2) as [??].
  { apply step_quiet; [done | | done]. split; [| done]. intros key j _ Hk.
    rewrite Hl, lookup_insert_ne; [done|]. intros <-. congruence. }
  split_and!; [done..|]. intros _. unfold held. rewrite Hl. apply lookup_insert_eq.
Qed.

(** An outcome that grants nothing, or a fact about the state. *)
Definition refused_or (P : World → Prop) (o : option BlobReclaim) (w : World) : Prop :=
  match o with Some o => ∀ key, o ≠ Granted key | None => P w end.

Lemma recount_references_wp id h w :
  held h w →
  WP (recount_references id h) (λ r w', ∀ o, r = Ok (Ok o) → refused_or (λ w',
        held h w' ∧ ∀ r, r ∈ content_references w' → target_content_hash r ≠ h) o w') w.
Proof.
  intros Hh. apply wp_holding; [done|]. intros w2 _ Hh2 Hs2. cbv zeta.
  set (n := remaining_refs h w2). destruct (0 <? n) eqn:Hc.
  - pose proof (keep_blob_spec id h n (Referenced n) w2 Hh2 Hs2) as Hk.
    destruct (keep_blob _ _ _ _ _) as [w3 [o|]]; [| done]. destruct Hk as [Hk ->]. by split.
  - split; [by apply step_same|]. split; [done|]. intros r. by apply no_references.
Qed.

Lemma count_claimants_wp id h w :
  held h w → (∀ r, r ∈ content_references w → target_content_hash r ≠ h) →
  WP (count_claimants id h) (λ r w', ∀ o, r = Ok (Ok o) →
        refused_or (λ w', held h w' ∧ ¬ claimed w' h) o w') w.
Proof.
  intros Hh Hnone. apply wp_holding; [done|]. intros w3 Hr Hh3 Hs3. cbv zeta.
  destruct (held_stays _ _ _ Hr Hh) as [_ [Hnew _]].
  set (n := protected_claimants h w3). destruct (0 <? n) eqn:Hc.
  - pose proof (keep_blob_spec id h n (ProtectedClaim n) w3 Hh3 Hs3) as Hk.
    destruct (keep_blob _ _ _ _ _) as [w4 [o|]]; [| done]. destruct Hk as [Hk ->]. by split.
  - split; [by apply step_same|]. split; [done|]. apply unclaimed; [done | | done].
    intros r Hin Ht. by apply (Hnone r (Hnew r Hin Ht)).
Qed.

(** A granted lease is on bytes nothing claims. *)
Lemma begin_blob_reclaim_wp id h w :
  WP (begin_blob_reclaim i id h)
     (λ r w', ∀ key, r = Ok (Ok (Granted key)) →
        key = blob_lock_key h ∧ held h w' ∧ ¬ claimed w' h) w.
Proof.
  apply wp_bind. eapply wp_mono; [| apply try_lock_wp].
  intros [[[]|]|] w1 Hh; [| done..]. specialize (Hh eq_refl). apply wp_bind.
  eapply wp_mono; [| by apply recount_references_wp].
  intros [[[o|]|]|] w2 Ho; [| | done..]; specialize (Ho _ eq_refl).
  { intros key [= ->]. by destruct (Ho key). }
  destruct Ho as [Hh2 Hnone]. apply wp_bind. eapply wp_mono; [| by apply count_claimants_wp].
  intros [[[o|]|]|] w3 Ho; [| | done..]; specialize (Ho _ eq_refl).
  - intros key [= ->]. by destruct (Ho key).
  - by intros key [= <-].
Qed.

Lemma storage_delete_wp h w :
  held h w → ¬ claimed w h → WP (storage_delete h) (λ _ w', held h w') w.
Proof.
  intros Hh Hn. apply wp_port. intros w1 Hr Hs. destruct (held_stays _ _ _ Hr Hh) as [Hh1 Hnew].
  destruct (step_tick i w1 Hs) as [Hst Hg].
  destruct (storage_fault (calls w1)); [by split_and!|].
  destruct (decide (h ∈ storage (tick w1))); [| by split_and!]. cbn [fst snd].
  set (w2 := tick w1 {{ storage ::= λ s, s ∖ {[ h ]} }}).
  split_and!; [by apply (quiet_sound w1) | | exact Hh1].
  split_and!; [by apply quiet_monotone | |].
  - intros h' j _ Hj. split; [exact Hj | by apply quiet_no_new_claims].
  - intros h' Hin Hout. assert (h' = h) as ->.
    { apply dec_stable. intros Hne. apply Hout. change (h' ∈ storage w1 ∖ {[ h ]}). set_solver. }
    by eapply not_claimed_stays.
Qed.

Lemma release_guard_wp h w : held h w → WP (release_guard (blob_lock_key h)) (λ _ _, True) w.
Proof.
  intros Hh. apply wp_port. intros w1 Hr Hs. destruct (held_stays _ _ _ Hr Hh) as [Hh1 _].
  destruct (step_tick i w1 Hs) as [Hst _].
  assert (step_ok w1 (end_lease (blob_lock_key h) (tick w1))) as [??] by (by apply (step_end_lease h)).
  by split_and!.
Qed.

Lemma reclaim_harmless id pr summary : harmless (reclaim i id pr summary).
Proof.
  intros w. apply wp_bind. eapply wp_mono; [| apply begin_blob_reclaim_wp].
  intros [[[key | n | n |]|]|] w1 Hg; [| done..]. destruct (Hg key eq_refl) as (-> & Hh & Hn).
  apply wp_bind. eapply wp_mono; [| by apply storage_delete_wp]. intros [deleted|] w2 Hh2; [| done].
  apply wp_bind. eapply wp_mono; [| by apply release_guard_wp]. intros [] w3 _; [| done].
  by destruct deleted as [|[]].
Qed.

(** *** The sweep *)

Lemma mark_purge_ref_complete_harmless id h now : harmless (mark_purge_ref_complete id h now).
Proof.
  apply harmless_query. intros w Hs. destruct (worklist w !! (id, h)); [| by apply step_same].
  apply step_quiet; [done | by apply keeps_others_same | done].
Qed.

Lemma finish_one_ref_harmless now id pr summary : harmless (finish_one_ref i now id pr summary).
Proof.
  apply harmless_bind; [destruct (_ =? _); [apply reclaim_harmless | done]|].
  intros [[pr'|] s]; [| done]. apply harmless_bind; [apply mark_purge_ref_complete_harmless | done].
Qed.

Lemma finish_refs_harmless now id refs summary : harmless (finish_refs i now id refs summary).
Proof.
  revert summary. induction refs as [| pr refs IH]; intros summary; [done|]. apply harmless_bind.
  - destruct (pr_completed pr); [done | apply finish_one_ref_harmless].
  - intros [[pr'|] s]; [| done]. by apply harmless_bind; [apply IH|].
Qed.

Lemma process_one_harmless now item summary : harmless (process_one i now item summary).
Proof.
  unfold process_one. destruct (is_gc_protected item); [done|]. destruct (is_tag_exempt item); [done|].
  apply harmless_bind; [apply purge_artifact_refs_harmless|]. intros [[refs| | |]|]; [| done..].
  destruct (is_empty refs); [done|]. apply harmless_bind; [apply finish_refs_harmless|].
  intros [[refs'|] s]; [| done]. apply harmless_bind; [| done].
  apply harmless_query. intros w. apply step_complete_tx.
Qed.

Lemma process_page_harmless now page summary : harmless (process_page i now page summary).
Proof.
  revert summary. induction page as [| item page IH]; intros summary; [done|].
  apply harmless_bind; [apply process_one_harmless | intros s; apply IH].
Qed.

Lemma process_expired_harmless converged now : harmless (process_expired i converged now).
Proof.
  unfold process_expired. destruct (negb converged); [done|].
  generalize MAX_BATCHES_PER_TICK, (None : option Uuid), PurgeSummary_default. intros n.
  induction n as [| n IH]; intros after summary; [done|].
  apply harmless_bind; [apply harmless_read|]. intros [page|]; [| done].
  destruct (last page); [| done]. apply harmless_bind; [apply process_page_harmless|].
  intros s. destruct (_ <? _); [done | apply IH].
Qed.
End tasks.

(** ** Every interleaving *)

Section pool.
Context `{EventWire, SerdeJson, Unicode, Backend}.

Definition discard {A} (p : task A) : task unit := _ ← p; mret ().

(** Everything that touches the content store and what claims it, except for the
    check of an upload. *)
Inductive ordinary (i : nat) : task unit → Prop :=
  | started_purge is_converged now : ordinary i (discard (process_expired i is_converged now))
  | started_reconcile polls : ordinary i (discard (sweep_drift polls))
  | started_put h : ordinary i (discard (storage_put h))
  | started_mint polls m : mints m → ordinary i (discard (mint polls m))
  | started_signature polls repo coords ct uploader payload declared claims h size :
      ordinary i (discard (ingest_signature_manifest polls repo coords ct uploader payload declared
                            claims h size))
  | started_reference polls r : ordinary i (discard (insert_reference polls r))
  | started_scan ports id scanner findings assessment k :
      ordinary i (record_scan_result_task ports id scanner findings assessment k)
  | started_retroactive_block id rule reason now : ordinary i (retroactive_block id rule reason now)
  | started_lifecycle A ports (h : handler A) :
      (∀ db, lifecycle_step ports db (h db).1) → ordinary i (discard (lifecycle h))
  | started_expiry id x now : ordinary i (discard (lifecycle (append_expiry id x now)))
  | started_move_ref r : ordinary i (discard (move_ref r))
  | started_retire_ref repo namespace ref_name :
      ordinary i (discard (retire_ref repo namespace ref_name)).

(** The check of an upload whose bytes [h] have been put: a mismatch of the declared digest,
    or of one that the upstream gave, rolls them back. *)
Inductive checks_upload (h : ContentHash) : task unit → Prop :=
  | checks_declared declared : checks_upload h (verify_declared_sha256 declared h)
  | checks_upstream : checks_upload h (rollback_unreferenced_cas h).

(** [uploads i]: the bytes of the upload that is checked at place [i], if one is. *)
Context (uploads : nat → option ContentHash).

Definition started (i : nat) (p : task unit) : Prop :=
  match uploads i with Some h => checks_upload h p | None => ordinary i p end.

Lemma discard_harmless i {A} (p : task A) : harmless i p → harmless i (discard p).
Proof. intros Hp. by apply harmless_bind. Qed.

(** The rollback of an upload answers for its own blob only. *)
Definition pool_guar (i : nat) (w w' : World) : Prop :=
  monotone w w' ∧
  (∀ h j, j ≠ i → leases w !! blob_lock_key h = Some j →
    leases w' !! blob_lock_key h = Some j ∧ no_new_claims h w w') ∧
  ∀ h, h ∈ storage w → h ∉ storage w' → claimed w h → uploads i = Some h.

Lemma pool_guar_Rely i j w w' : i ≠ j → pool_guar i w w' → Rely j w w'.
Proof. intros Hne (Hm & Hl & _). split; [done|]. intros h Hh. by apply Hl. Qed.

Lemma Guar_pool i w w' : Guar i w w' → pool_guar i w w'.
Proof. intros (Hm & Hl & Hd). split_and!; [done | done |]. intros h Hin Hout Hc. by destruct (Hd h). Qed.

Abbreviation allowed i p := (∀ w, sound w → wp sound (Rely i) (pool_guar i) p (λ _ _, True) w).

Lemma harmless_allowed i {A} (p : task A) : harmless i p → allowed i p.
Proof. intros Hp w _. eapply wp_guar; [| apply Hp]. intros ? ? _. apply Guar_pool. Qed.

Lemma storage_delete_allowed i h w :
  uploads i = Some h → wp sound (Rely i) (pool_guar i) (storage_delete h) (λ _ _, True) w.
Proof.
  intros Hu. apply wp_port. intros w1 _ Hs. destruct (step_tick i w1 Hs) as [Hst Hg%Guar_pool].
  destruct (storage_fault (calls w1)); [by split_and!|].
  destruct (decide (h ∈ storage (tick w1))); [| by split_and!]. cbn [fst snd].
  split_and!; [by apply (quiet_sound w1) | | done].
  split_and!; [by apply quiet_monotone | |].
  - intros h' j _ Hj. split; [exact Hj | by apply quiet_no_new_claims].
  - intros h' Hin Hout _. rewrite Hu. f_equal. apply dec_stable. intros Hne. apply Hout.
    change (h' ∈ storage w1 ∖ {[ h ]}). set_solver.
Qed.

Lemma rollback_allowed i h w :
  uploads i = Some h →
  wp sound (Rely i) (pool_guar i) (rollback_unreferenced_cas h) (λ _ _, True) w.
Proof.
  intros Hu. apply wp_bind. eapply wp_guar; [intros ? ? _; apply Guar_pool |].
  eapply wp_mono; [| apply harmless_read]. intros [found|] w1 _; [| done].
  destruct found as [[|]|]; [done | | done]. apply wp_bind.
  eapply wp_mono; [| by apply storage_delete_allowed]. by intros [].
Qed.

Lemma ordinary_harmless i p : ordinary i p → harmless i p.
Proof.
  destruct 1; try apply discard_harmless.
  - apply process_expired_harmless.
  - apply sweep_drift_harmless.
  - apply storage_put_harmless.
  - by apply mint_harmless.
  - apply ingest_signature_manifest_harmless.
  - apply insert_reference_harmless.
  - apply record_scan_result_task_harmless.
  - apply retroactive_block_harmless.
  - eapply lifecycle_harmless. intros db Hok. by apply step_advances.
  - eapply lifecycle_harmless. intros db _. apply append_expiry_advances.
  - apply move_ref_harmless.
  - apply retire_ref_harmless.
Qed.

Lemma started_allowed i p : started i p → allowed i p.
Proof.
  unfold started. destruct (uploads i) as [h|] eqn:Hu; [| by intros Hp%ordinary_harmless; apply harmless_allowed].
  intros [[declared|] |] w _; [| done | by apply rollback_allowed].
  unfold verify_declared_sha256. destruct (bool_decide _); [done |].
  apply wp_bind. eapply wp_mono; [| by apply rollback_allowed]. by intros [].
Qed.

(** C3. Storage GC deletes only bytes that nothing claims.  Starting from rows
    that have their edges ([sound]), let any number of purge sweeps, reconcile sweeps,
    uploads and their digest checks, ingests, edge writers, scans, curator actions,
    rejections with their edge sweeps, deletions, expiries and tag writes interleave at
    every port call, with any failures of the database and of the store: no step
    removes a blob that an edge targets, or that is the content or the metadata of an
    artifact in service (unless a rejection of that artifact was lifted), except the
    rollback of an upload of that same blob whose digest did not match.  (For that one see
    [a_failed_upload_can_delete_claimed_bytes].) *)
Theorem claimed_bytes_stay w c c' h :
  sound w → rtc (pool_step started) (w, []) c → pool_step started c c' →
  claimed c.1 h → h ∈ storage c.1 →
  h ∈ storage c'.1 ∨ ∃ i, uploads i = Some h ∧ moved i c.2 c'.2.
Proof.
  intros Hs Hsteps Hstep Hc Hin. destruct (decide (h ∈ storage c'.1)) as [? | Hout]; [by left | right].
  destruct (pool_step_guar sound Rely pool_guar started pool_guar_Rely (λ _ _ _, True)
              (λ i p s Hp, started_allowed i p Hp s) w [] c c' Hs) as [Heq | (i & Hm & _ & Hg)];
    [done | done | done | by rewrite Heq in Hout |].
  exists i. by split; [apply (proj2 (proj2 Hg) h) |].
Qed.
End pool.
