(* ===== verification/ReconcileSafety.v ===== *)
(** What a converged reconcile sweep has achieved: when it ends without an error, the
    edges agree with the rows, and another sweep would find nothing. *)

From coqutil Require Import Datatypes.RecordSetters.
From S2P Require Import Prelude.
From S2P Require Import RustStd.
From S2P Require Import Types.
From S2P Require Import Events.
From S2P Require Import Artifact.
From S2P Require Import Store.
From S2P Require Import Concurrent.
From S2P Require Import ContentRefs.
From S2P Require Import Purge.
From S2P Require Import Reconcile.
From S2P Require Import Claims.
Import DoubleBraceUpdate.

(** ** Drift, edge by edge *)

(** An edge of [source] under kind [k] in the repository. *)
Definition of_kind (repo source : Uuid) (k : string) (r : ContentReference) : Prop :=
  cr_repository_id r = repo ∧ source_artifact_id r = source ∧ kind r = k.

(** The edges under a kind are there and point at the right bytes. *)
Definition settled (w : World) (repo source : Uuid) (k : string) (expected : ContentHash) : Prop :=
  (∃ r, r ∈ content_references w ∧ of_kind repo source k r) ∧
  ∀ r, r ∈ content_references w → of_kind repo source k r → target_content_hash r = expected.

Definition swept (w : World) (repo source : Uuid) : Prop :=
  ∀ r, r ∈ content_references w → cr_repository_id r = repo → source_artifact_id r ≠ source.

(** What a row is owed under the two kinds. *)
Definition expects (w : World) (repo source : Uuid) (k : string) (expected : ContentHash) : Prop :=
  ∃ e, artifacts w !! source = Some e ∧ owed repo e = true ∧
    (k = "primary_content"%string ∧ sha256_checksum (row e) = expected ∨
     k = "metadata_blob"%string ∧ metadata_blobs w !! source = Some expected).

Definition rejected_row (w : World) (source : Uuid) : Prop :=
  ∃ e, artifacts w !! source = Some e ∧ quarantine_status (row e) = QS_Rejected.

(** Nothing is left to repair in a repository. *)
Definition agrees (w : World) (repo : Uuid) : Prop :=
  (∀ source k expected, expects w repo source k expected → settled w repo source k expected) ∧
  ∀ source, rejected_row w source → swept w repo source.

(** What a repair is about, and what it leaves. *)
Definition repairs (r : RefcountRepair) (source : Uuid) (k : string) (expected : ContentHash)
    : Prop :=
  match r with
  | CreatePrimaryContent s h | RepairPrimaryContent s _ h =>
      s = source ∧ k = "primary_content"%string ∧ h = expected
  | UpsertMetadataBlob s _ h => s = source ∧ k = "metadata_blob"%string ∧ h = expected
  | DeleteRejectedSourceRows _ _ => False
  end.

Definition sweeps (r : RefcountRepair) (source : Uuid) : Prop :=
  match r with DeleteRejectedSourceRows s _ => s = source | _ => False end.

(** A repair the scan of [w] could have asked for. *)
Definition scanned (w : World) (repo : Uuid) (r : RefcountRepair) : Prop :=
  (∃ source k expected, repairs r source k expected ∧ expects w repo source k expected) ∨
  ∃ source, sweeps r source ∧ rejected_row w source.

Lemma edges_of_spec w repo source k r :
  r ∈ edges_of w repo source k ↔ r ∈ content_references w ∧ of_kind repo source k r.
Proof. unfold edges_of, of_kind. rewrite elem_of_elements, elem_of_filter. naive_solver. Qed.

(** The join reports drift unless the edges are settled. *)
Lemma drift_nil w repo source k expected missing wrong :
  drift (edges_of w repo source k) expected missing wrong = [] ↔ settled w repo source k expected.
Proof.
  unfold settled. setoid_rewrite <- edges_of_spec.
  assert ((∀ r, r ∈ content_references w → of_kind repo source k r → target_content_hash r = expected) ↔
          ∀ r, r ∈ edges_of w repo source k → target_content_hash r = expected) as ->
    by (setoid_rewrite edges_of_spec; naive_solver).
  unfold drift. destruct (edges_of w repo source k) as [| x l] eqn:El.
  { split; [done|]. intros [[r Hr] _]. by apply not_elem_of_nil in Hr. }
  split.
  - intros Hnil. split; [exists x; left|]. intros r Hr.
    destruct (decide (target_content_hash r = expected)) as [| Hne]; [done|]. exfalso.
    assert (wrong (target_content_hash r) ∈ omap (λ r, if bool_decide (target_content_hash r = expected)
              then None else Some (wrong (target_content_hash r))) (x :: l)) as Hin.
    { apply list_elem_of_omap. exists r. by rewrite bool_decide_eq_false_2. }
    rewrite Hnil in Hin. by apply not_elem_of_nil in Hin.
  - intros [_ Hall]. apply elem_of_nil_inv. intros y (r & Hr & Hy)%list_elem_of_omap.
    by rewrite bool_decide_eq_true_2 in Hy by (by apply Hall).
Qed.

Definition scan_list (w : World) (repo : Uuid) : list RefcountRepair :=
  primary_drift repo w ++ metadata_drift repo w ++ rejected_drift repo w.

(** Everything the scan asks for is warranted. *)
Lemma scan_list_scanned w repo r : r ∈ scan_list w repo → scanned w repo r.
Proof.
  unfold scan_list. rewrite !elem_of_app. intros [Hr | [Hr | Hr]]; [left | left | right].
  - apply list_elem_of_bind in Hr as ([id e] & Hr & Hin%elem_of_map_to_list).
    destruct (owed repo e) eqn:Ho; [| by apply not_elem_of_nil in Hr].
    exists id, "primary_content"%string, (sha256_checksum (row e)).
    split; [| exists e; by auto]. by apply drift_cases in Hr as [-> | [h ->]].
  - apply list_elem_of_bind in Hr as ([id e] & Hr & Hin%elem_of_map_to_list).
    destruct (metadata_blobs w !! id) as [b|] eqn:Eb; [| by apply not_elem_of_nil in Hr].
    destruct (owed repo e) eqn:Ho; [| by apply not_elem_of_nil in Hr].
    exists id, "metadata_blob"%string, b.
    split; [| exists e; by auto]. by apply drift_cases in Hr as [-> | [h ->]].
  - apply list_elem_of_bind in Hr as ([id e] & Hr & Hin).
    rewrite sort_by_Permutation in Hin. apply elem_of_map_to_list in Hin.
    case_bool_decide; [| by apply not_elem_of_nil in Hr].
    destruct (sort_by _ _); [by apply not_elem_of_nil in Hr|].
    apply list_elem_of_singleton in Hr as ->. exists id. split; [done | by exists e].
Qed.

(** Whatever does not agree, the scan asks for. *)
Lemma scan_list_repairs w repo source k expected :
  expects w repo source k expected →
  settled w repo source k expected ∨ ∃ r, r ∈ scan_list w repo ∧ repairs r source k expected.
Proof.
  intros (e & He & Ho & Hk). unfold scan_list.
  assert (∀ missing wrong, (∀ h, repairs (wrong h) source k expected) → repairs missing source k expected →
    settled w repo source k expected ∨
    ∃ r, r ∈ drift (edges_of w repo source k) expected missing wrong ∧ repairs r source k expected)
    as Hdrift.
  { intros missing wrong Hw Hm.
    destruct (drift (edges_of w repo source k) expected missing wrong) as [| r l] eqn:Ed.
    - left. by eapply drift_nil.
    - right. exists r. split; [left|]. assert (r ∈ r :: l) as Hin by left. rewrite <- Ed in Hin.
      by apply drift_cases in Hin as [-> | [h ->]]. }
  destruct Hk as [[-> <-] | [-> Hb]].
  - destruct (Hdrift (CreatePrimaryContent source (sha256_checksum (row e)))
                (λ found, RepairPrimaryContent source found (sha256_checksum (row e))))
      as [? | (r & Hr & ?)]; [done | done | by left | right; exists r; split; [| done]].
    apply elem_of_app. left. apply list_elem_of_bind. exists (source, e). rewrite Ho.
    split; [done | by apply elem_of_map_to_list].
  - destruct (Hdrift (UpsertMetadataBlob source None expected)
                (λ found, UpsertMetadataBlob source (Some found) expected))
      as [? | (r & Hr & ?)]; [done | done | by left | right; exists r; split; [| done]].
    apply elem_of_app. right. apply elem_of_app. left. apply list_elem_of_bind. exists (source, e).
    rewrite Hb, Ho. split; [done | by apply elem_of_map_to_list].
Qed.

Lemma scan_list_sweeps w repo source :
  rejected_row w source → swept w repo source ∨ ∃ r, r ∈ scan_list w repo ∧ sweeps r source.
Proof.
  intros (e & He & Hq).
  destruct (sort_by str_leb (kind <$> elements (filter (λ r, cr_repository_id r = repo ∧
              source_artifact_id r = source) (content_references w)))) as [| k l] eqn:Es.
  - left. intros r Hr Hrepo Hs. assert (kind r ∈ @nil string) as Hin.
    { rewrite <- Es, sort_by_Permutation. apply list_elem_of_fmap_2, elem_of_elements, elem_of_filter.
      done. }
    by apply not_elem_of_nil in Hin.
  - right. exists (DeleteRejectedSourceRows source k). split; [| done]. unfold scan_list.
    rewrite !elem_of_app. right. right. apply list_elem_of_bind. exists (source, e).
    rewrite bool_decide_eq_true_2, Es by done. split; [left|].
    rewrite sort_by_Permutation. by apply elem_of_map_to_list.
Qed.

(** Where rows and edges agree, a scan finds nothing. *)
Lemma agrees_scan_nil w repo : agrees w repo → scan_list w repo = [].
Proof.
  intros [Hset Hsw]. unfold scan_list. apply elem_of_nil_inv.
  intros r. rewrite !elem_of_app. intros [Hr | [Hr | Hr]].
  - apply list_elem_of_bind in Hr as ([id e] & Hr & Hin%elem_of_map_to_list).
    destruct (owed repo e) eqn:Ho; [| by apply not_elem_of_nil in Hr].
    assert (settled w repo id "primary_content" (sha256_checksum (row e))) as Hd
      by (apply Hset; exists e; auto). eapply drift_nil in Hd. cbv zeta in Hr. rewrite Hd in Hr.
    by apply not_elem_of_nil in Hr.
  - apply list_elem_of_bind in Hr as ([id e] & Hr & Hin%elem_of_map_to_list).
    destruct (metadata_blobs w !! id) as [b|] eqn:Eb; [| by apply not_elem_of_nil in Hr].
    destruct (owed repo e) eqn:Ho; [| by apply not_elem_of_nil in Hr].
    assert (settled w repo id "metadata_blob" b) as Hd by (apply Hset; exists e; auto).
    eapply drift_nil in Hd. rewrite Hd in Hr. by apply not_elem_of_nil in Hr.
  - apply list_elem_of_bind in Hr as ([id e] & Hr & Hin).
    rewrite sort_by_Permutation in Hin. apply elem_of_map_to_list in Hin.
    case_bool_decide; [| by apply not_elem_of_nil in Hr].
    destruct (sort_by _ _) as [| k l] eqn:Es; [by apply not_elem_of_nil in Hr|].
    assert (k ∈ k :: l) as Hk by left. rewrite <- Es, sort_by_Permutation in Hk.
    apply list_elem_of_fmap in Hk as (x & _ & Hx%elem_of_elements%elem_of_filter).
    destruct Hx as [[Hrepo Hsrc] Hx]. eapply (Hsw id); [by exists e | done..].
Qed.

(** ** What the repairs leave *)

Definition repaired (repo : Uuid) (r : RefcountRepair) (s : gset ContentReference)
    : gset ContentReference :=
  let replace source k h :=
    {[ {| source_artifact_id := source; target_content_hash := h; kind := k;
          cr_repository_id := repo |} ]} ∪
    filter (λ x, ¬ (cr_repository_id x = repo ∧ source_artifact_id x = source ∧ kind x = k)) s in
  match r with
  | CreatePrimaryContent source h | RepairPrimaryContent source _ h =>
      replace source "primary_content"%string h
  | UpsertMetadataBlob source _ h => replace source "metadata_blob"%string h
  | DeleteRejectedSourceRows source _ =>
      filter (λ x, ¬ (cr_repository_id x = repo ∧ source_artifact_id x = source)) s
  end.

Lemma repaired_repairs repo r s source k expected x :
  repairs r source k expected →
  x ∈ repaired repo r s ↔
  (of_kind repo source k x ∧ target_content_hash x = expected) ∨ (x ∈ s ∧ ¬ of_kind repo source k x).
Proof.
  unfold of_kind. destruct r; cbn; [intros (-> & -> & ->).. | done];
    rewrite elem_of_union, elem_of_filter, elem_of_singleton; destruct x; cbn; naive_solver.
Qed.

Lemma repaired_sweeps repo r s source x :
  sweeps r source →
  x ∈ repaired repo r s ↔ x ∈ s ∧ ¬ (cr_repository_id x = repo ∧ source_artifact_id x = source).
Proof. destruct r; cbn; try done. intros ->. rewrite elem_of_filter. naive_solver. Qed.

(** The rows stay as they are, and so does who holds the locks. *)
Definition same_rows (w w' : World) : Prop :=
  artifacts w' = artifacts w ∧ metadata_blobs w' = metadata_blobs w ∧ leases w' = leases w.

#[export] Instance same_rows_preorder : PreOrder same_rows.
Proof.
  split; [done|]. intros w1 w2 w3 (?&?&?) (?&?&?). repeat split; by etransitivity.
Qed.

Lemma expects_same w w' repo source k expected :
  same_rows w w' → expects w' repo source k expected ↔ expects w repo source k expected.
Proof. intros (Ha & Hm & _). unfold expects. by rewrite Ha, Hm. Qed.

Lemma rejected_same w w' source : same_rows w w' → rejected_row w' source ↔ rejected_row w source.
Proof. intros (Ha & _ & _). unfold rejected_row. by rewrite Ha. Qed.

(** One row is owed at most one target under a kind, and a rejected row is owed none. *)
Lemma expects_fun w repo source k h1 h2 :
  expects w repo source k h1 → expects w repo source k h2 → h1 = h2.
Proof.
  intros (e1 & He1 & _ & H1) (e2 & He2 & _ & H2).
  assert (e1 = e2) as -> by (rewrite He1 in He2; by injection He2).
  destruct H1 as [[-> <-] | [-> H1]], H2 as [[? <-] | [? H2]]; try done.
  rewrite H1 in H2. by injection H2.
Qed.

Lemma expects_not_rejected w repo source k h : expects w repo source k h → ¬ rejected_row w source.
Proof.
  intros (e1 & He1 & Ho & _) (e2 & He2 & Hq).
  assert (e1 = e2) as -> by (rewrite He1 in He2; by injection He2).
  unfold owed in Ho. rewrite Hq in Ho. cbn in Ho. by rewrite andb_false_r in Ho.
Qed.

(** The edges after one warranted repair. *)
Definition fixed (repo : Uuid) (r : RefcountRepair) (w w' : World) : Prop :=
  same_rows w w' ∧ content_references w' = repaired repo r (content_references w).

Section fixed.
Context (repo : Uuid) (r : RefcountRepair) (w w' : World).
Context (Hscan : scanned w repo r) (Hfix : fixed repo r w w').

(** A repair settles what it is about ... *)
Lemma fixed_settles source k expected :
  repairs r source k expected → settled w' repo source k expected.
Proof.
  destruct Hfix as [_ Hr]. intros Hrep. unfold settled. setoid_rewrite Hr.
  setoid_rewrite (repaired_repairs repo r _ source k expected); [| done..]. split; [| naive_solver].
  exists {| source_artifact_id := source; target_content_hash := expected; kind := k;
            cr_repository_id := repo |}. split; [by left | done].
Qed.

Lemma fixed_sweeps source : sweeps r source → swept w' repo source.
Proof.
  destruct Hfix as [_ Hr]. intros Hs x. rewrite Hr, repaired_sweeps by done. naive_solver.
Qed.

(** ... and leaves alone what was settled, here and in other repositories. *)
Lemma fixed_keeps_settled repo' source k expected :
  expects w repo' source k expected → settled w repo' source k expected →
  settled w' repo' source k expected.
Proof.
  destruct Hfix as [_ Hr]. intros He [(x & Hx & Hxk) Hall]. unfold settled. setoid_rewrite Hr.
  destruct Hscan as [(s & k' & h & Hrep & Hexp) | (s & Hsw & Hrej)].
  - destruct (decide (repo = repo' ∧ s = source ∧ k' = k)) as [(<- & -> & ->) | Hne].
    + rewrite (expects_fun _ _ _ _ _ _ He Hexp) in *.
      setoid_rewrite (repaired_repairs repo r _ source k h); [| done..]. split; [| naive_solver].
      exists x. split; [| done]. left. split; [done | by apply Hall].
    + setoid_rewrite (repaired_repairs repo r _ s k' h); [| done..]. unfold of_kind in *.
      split; [exists x; split; [| done]; right; naive_solver | naive_solver].
  - assert (s ≠ source) by (intros ->; by eapply expects_not_rejected).
    setoid_rewrite (repaired_sweeps repo r _ s); [| done..]. unfold of_kind in *.
    split; [exists x; naive_solver | naive_solver].
Qed.

Lemma fixed_keeps_swept repo' source :
  rejected_row w source → swept w repo' source → swept w' repo' source.
Proof.
  destruct Hfix as [_ Hr]. intros Hrej Hsw x. rewrite Hr.
  destruct Hscan as [(s & k' & h & Hrep & Hexp) | (s & Hs & _)].
  - rewrite (repaired_repairs repo r _ s k' h) by done. intros [[(_ & Hxs & _) _] | [Hx _]]; [| by apply Hsw].
    intros _ Hx. rewrite <- Hx, Hxs in *. by eapply expects_not_rejected.
  - rewrite (repaired_sweeps repo r _ s) by done. intros [Hx _]. by apply Hsw.
Qed.
End fixed.

(** A list of warranted repairs, applied one after the other. *)
Inductive all_fixed (repo : Uuid) : list RefcountRepair → World → World → Prop :=
  | all_fixed_nil w w' : same_rows w w' → content_references w' = content_references w →
      all_fixed repo [] w w'
  | all_fixed_cons r rs w w1 w2 : fixed repo r w w1 → all_fixed repo rs w1 w2 →
      all_fixed repo (r :: rs) w w2.

Lemma scanned_same w w' repo r : same_rows w w' → scanned w repo r → scanned w' repo r.
Proof.
  intros Hs [(s & k & h & ? & ?) | (s & ? & ?)]; [left; exists s, k, h | right; exists s];
    by rewrite ?(expects_same w), ?(rejected_same w).
Qed.

Section all_fixed.
Context (repo : Uuid).

Lemma all_fixed_same rs w w' : all_fixed repo rs w w' → same_rows w w'.
Proof. induction 1 as [| r rs w w1 w2 [? _] _ IH]; [done | by etransitivity]. Qed.

Lemma all_fixed_settled rs w w' repo' source k h :
  all_fixed repo rs w w' → Forall (scanned w repo) rs → expects w repo' source k h →
  settled w repo' source k h → settled w' repo' source k h.
Proof.
  induction 1 as [w w' _ Hr | r rs w w1 w2 Hf _ IH]; intros Hscan He Hs.
  - unfold settled. by rewrite Hr.
  - apply Forall_cons in Hscan as [Hr Hscan]. destruct (Hf) as [Hsame _]. apply IH.
    + eapply Forall_impl; [done|]. intros r'. by apply scanned_same.
    + by rewrite (expects_same w).
    + by eapply fixed_keeps_settled.
Qed.

Lemma all_fixed_swept rs w w' repo' source :
  all_fixed repo rs w w' → Forall (scanned w repo) rs → rejected_row w source →
  swept w repo' source → swept w' repo' source.
Proof.
  induction 1 as [w w' _ Hr | r rs w w1 w2 Hf _ IH]; intros Hscan He Hs.
  - unfold swept. by rewrite Hr.
  - apply Forall_cons in Hscan as [Hr Hscan]. destruct (Hf) as [Hsame _]. apply IH.
    + eapply Forall_impl; [done|]. intros r'. by apply scanned_same.
    + by rewrite (rejected_same w).
    + by eapply fixed_keeps_swept.
Qed.

(** The repairs of a list do what each of them is for. *)
Lemma all_fixed_repairs rs w w' r source k h :
  all_fixed repo rs w w' → Forall (scanned w repo) rs → r ∈ rs → repairs r source k h →
  expects w repo source k h → settled w' repo source k h.
Proof.
  induction 1 as [| r' rs w w1 w2 Hf Hrest IH]; intros Hscan Hin Hrep He;
    [by apply not_elem_of_nil in Hin|].
  apply Forall_cons in Hscan as [Hr Hscan]. destruct (Hf) as [Hsame _].
  assert (Forall (scanned w1 repo) rs) by (eapply Forall_impl; [done | intros ?; by apply scanned_same]).
  assert (expects w1 repo source k h) by by rewrite (expects_same w).
  apply elem_of_cons in Hin as [-> | Hin]; [| by apply IH].
  eapply all_fixed_settled; [done.. |]. by eapply fixed_settles.
Qed.

Lemma all_fixed_sweeps rs w w' r source :
  all_fixed repo rs w w' → Forall (scanned w repo) rs → r ∈ rs → sweeps r source →
  rejected_row w source → swept w' repo source.
Proof.
  induction 1 as [| r' rs w w1 w2 Hf Hrest IH]; intros Hscan Hin Hrep He;
    [by apply not_elem_of_nil in Hin|].
  apply Forall_cons in Hscan as [Hr Hscan]. destruct (Hf) as [Hsame _].
  assert (Forall (scanned w1 repo) rs) by (eapply Forall_impl; [done | intros ?; by apply scanned_same]).
  assert (rejected_row w1 source) by by rewrite (rejected_same w).
  apply elem_of_cons in Hin as [-> | Hin]; [| by apply IH].
  eapply all_fixed_swept; [done.. |]. by eapply fixed_sweeps.
Qed.

(** All repairs of a scan applied: the repository agrees, and the others still do. *)
Lemma all_fixed_agrees w w' : all_fixed repo (scan_list w repo) w w' → agrees w' repo.
Proof.
  intros Hall. assert (Forall (scanned w repo) (scan_list w repo))
    by (apply Forall_forall; apply scan_list_scanned).
  pose proof (all_fixed_same _ _ _ Hall) as Hsame. split.
  - intros source k h He. rewrite (expects_same w) in He by done.
    destruct (scan_list_repairs w repo source k h He) as [? | (r & ? & ?)];
      [by eapply all_fixed_settled | by eapply all_fixed_repairs].
  - intros source Hrej. rewrite (rejected_same w) in Hrej by done.
    destruct (scan_list_sweeps w repo source Hrej) as [? | (r & ? & ?)];
      [by eapply all_fixed_swept | by eapply all_fixed_sweeps].
Qed.

Lemma all_fixed_keeps_agrees w w' repo' :
  all_fixed repo (scan_list w repo) w w' → agrees w repo' → agrees w' repo'.
Proof.
  intros Hall [Hset Hsw]. assert (Forall (scanned w repo) (scan_list w repo))
    by (apply Forall_forall; apply scan_list_scanned).
  pose proof (all_fixed_same _ _ _ Hall) as Hsame. split.
  - intros source k h He. rewrite (expects_same w) in He by done.
    eapply all_fixed_settled; [done.. | by apply Hset].
  - intros source Hrej. rewrite (rejected_same w) in Hrej by done.
    eapply all_fixed_swept; [done.. | by apply Hsw].
Qed.
End all_fixed.

(** ** The sweep, run alone *)

Section sweep.
Context `{EventWire, SerdeJson, Backend}.

(** A lock that is taken stays taken while nobody else runs. *)
Lemma run_locking {A} polls keys (m : World → World * DomainResult A) w :
  run (locking polls keys m) w =
  if forallb (unlocked w) keys && negb (Nat.eqb polls 0)
  then let '(w', r) := on_db m w in (w', Ok r) else (w, Ok (Err wait_error)).
Proof.
  induction polls as [| polls IH]; cbn; [by rewrite andb_false_r|].
  destruct (forallb (unlocked w) keys) eqn:Ek; cbn; [by destruct (on_db m w)|].
  done.
Qed.

Lemma run_query {A} (m : World → World * DomainResult A) w :
  run (query m) w = let '(w', r) := on_db m w in (w', Ok r).
Proof. cbn. by destruct (on_db m w). Qed.

(** Nothing is in the way of a run. *)
Definition unhindered (polls : nat) (w : World) : Prop :=
  (∀ n, db_fault n = None) ∧ leases w = ∅ ∧ polls ≠ O.

Lemma unhindered_same polls w w' : same_rows w w' → unhindered polls w → unhindered polls w'.
Proof. intros (_ & _ & Hl) (? & ? & ?). split; [done|]. by rewrite Hl. Qed.

Lemma run_upsert_row polls repo source k h w :
  is_Some (artifacts w !! source) →
  ∃ w' x, run (upsert_row polls repo source k h) w = (w', Ok x) ∧ same_rows w w' ∧
    (x = Ok () → content_references w' = {[ {| source_artifact_id := source; target_content_hash := h;
       kind := k; cr_repository_id := repo |} ]} ∪ filter (λ r,
         ¬ (cr_repository_id r = repo ∧ source_artifact_id r = source ∧ kind r = k))
       (content_references w)) ∧
    (unhindered polls w → x = Ok ()).
Proof.
  intros [e He]. unfold upsert_row. rewrite run_locking.
  destruct (forallb (unlocked w) [blob_lock_key h] && negb (Nat.eqb polls 0)) eqn:Eg.
  - unfold on_db. destruct (db_fault (calls w)) as [err|] eqn:Ef.
    + eexists _, _. split; [done|]. repeat split; [done|]. intros [Hn _]. by rewrite Hn in Ef.
    + unfold in_tx, replace_edge, upsert_edges. cbn [source_artifact_id].
      change (artifacts _ !! source) with (artifacts w !! source). rewrite He.
      eexists _, _. split; [done|]. by repeat split.
  - eexists _, _. split; [done|]. repeat split; [done|]. intros (_ & Hl & Hp).
    cbn in Eg. unfold unlocked in Eg. rewrite Hl, lookup_empty in Eg. by destruct polls.
Qed.

Lemma run_apply_repair polls repo r w :
  scanned w repo r →
  ∃ w' x, run (apply_repair polls repo r) w = (w', Ok x) ∧ same_rows w w' ∧
    (x = Ok () → fixed repo r w w') ∧ (unhindered polls w → x = Ok ()).
Proof.
  intros Hscan.
  assert (∀ source k h, (∀ s, repaired repo r s = {[ {| source_artifact_id := source;
       target_content_hash := h; kind := k; cr_repository_id := repo |} ]} ∪ filter (λ r,
         ¬ (cr_repository_id r = repo ∧ source_artifact_id r = source ∧ kind r = k)) s) →
    (∃ k' h', repairs r source k' h') →
    ∃ w' x, run (upsert_row polls repo source k h) w = (w', Ok x) ∧ same_rows w w' ∧
      (x = Ok () → fixed repo r w w') ∧ (unhindered polls w → x = Ok ())) as Hup.
  { intros source k h Heq (k' & h' & Hr). destruct (run_upsert_row polls repo source k h w)
      as (w' & x & Hrun & Hsame & Hok & Hun).
    { destruct Hscan as [(s & k2 & h2 & Hr2 & (e & He & _)) | (s & Hsw & _)].
      - exists e. by destruct r; cbn in *; destruct_and?; subst.
      - by destruct r. }
    exists w', x. split_and!; try done. intros Hx. split; [done|]. by rewrite Heq, Hok. }
  destruct r as [source h | source ? h | source ? h | source k].
  - apply Hup; [done | by eexists _, _].
  - apply Hup; [done | by eexists _, _].
  - apply Hup; [done | by eexists _, _].
  - unfold apply_repair. rewrite run_query. unfold on_db.
    destruct (db_fault (calls w)) as [err|] eqn:Ef.
    + eexists _, _. split; [done|]. repeat split; [done..|]. intros [Hn _]. by rewrite Hn in Ef.
    + eexists _, _. split; [done|]. by repeat split.
Qed.

Lemma run_apply_repairs polls repo rs w n m :
  Forall (scanned w repo) rs →
  ∃ w' n' m', run (apply_repairs polls repo rs n m) w = (w', Ok (n', m')) ∧ same_rows w w' ∧ m ≤ m' ∧
    (m' = m → all_fixed repo rs w w') ∧ (unhindered polls w → m' = m).
Proof.
  revert w n m. induction rs as [| r rs IH]; intros w n m Hscan.
  { exists w, n, m. split; [done|]. repeat split; [done|]. by constructor. }
  apply Forall_cons in Hscan as [Hr Hscan].
  destruct (run_apply_repair polls repo r w Hr) as (w1 & x & Hrun & Hsame & Hok & Hun).
  assert (Forall (scanned w1 repo) rs) as Hscan1
    by (eapply Forall_impl; [done | intros ?; by apply scanned_same]).
  cbn [apply_repairs]. rewrite run_bind, Hrun. destruct x as [[]|err].
  - destruct (IH w1 (n + 1) m Hscan1) as (w2 & n2 & m2 & Hrun2 & Hs2 & Hle & Hall & Hun2).
    exists w2, n2, m2. split_and!; [done | by etransitivity | done | |].
    + intros Hm. eapply all_fixed_cons; [by apply Hok | by apply Hall].
    + intros Hu. apply Hun2. by eapply unhindered_same.
  - destruct (IH w1 n (m + 1) Hscan1) as (w2 & n2 & m2 & Hrun2 & Hs2 & Hle & _ & _).
    exists w2, n2, m2. split_and!; [done | by etransitivity | lia | lia |].
    intros Hu. by specialize (Hun Hu).
Qed.

(** The scan reads, and reads one state. *)
Lemma run_scan repo w :
  ∃ w' x, run (scan_repo_drift repo) w = (w', Ok x) ∧ same_rows w w' ∧
    content_references w' = content_references w ∧
    (∀ rs, x = Ok rs → rs = scan_list w repo) ∧
    ((∀ n, db_fault n = None) → is_Some (match x with Ok rs => Some rs | Err _ => None end)).
Proof.
  unfold scan_repo_drift. rewrite run_bind, run_query. unfold on_db at 1.
  destruct (db_fault (calls w)) as [err|] eqn:E1.
  { eexists _, _. split; [done|]. repeat split; [done|]. intros Hn. by rewrite Hn in E1. }
  rewrite run_bind, run_query. unfold on_db at 1.
  destruct (db_fault (calls (tick w))) as [err|] eqn:E2.
  { eexists _, _. split; [done|]. repeat split; [done|]. intros Hn. by rewrite Hn in E2. }
  rewrite run_bind, run_query. unfold on_db at 1.
  destruct (db_fault (calls (tick (tick w)))) as [err|] eqn:E3.
  { eexists _, _. split; [done|]. repeat split; [done|]. intros Hn. by rewrite Hn in E3. }
  eexists _, _. split; [done|]. split_and!; [done | done | by intros rs [= <-] | by eexists].
Qed.

(** One repository: without an error, every repair of the scan was applied. *)
Lemma run_sweep_one_repo polls repo w :
  ∃ w' n m, run (sweep_one_repo polls repo) w = (w', Ok (n, m)) ∧ same_rows w w' ∧ 0 ≤ m ∧
    (m = 0 → all_fixed repo (scan_list w repo) w w') ∧ (unhindered polls w → m = 0).
Proof.
  destruct (run_scan repo w) as (w1 & x & Hrun & Hsame & Hrefs & Hx & Hfine).
  unfold sweep_one_repo. rewrite run_bind, Hrun. destruct x as [rs|err].
  - rewrite (Hx rs) by done. clear Hx Hfine.
    destruct (run_apply_repairs polls repo (scan_list w repo) w1 0 0) as
      (w2 & n & m & Hrun2 & Hs2 & Hle & Hall & Hun).
    { apply Forall_forall. intros r Hr. eapply scanned_same; [done | by apply scan_list_scanned]. }
    exists w2, n, m. split_and!; [done | by etransitivity | done | |].
    + intros Hm. specialize (Hall Hm). revert Hall. generalize (scan_list w repo). clear -Hsame Hrefs Hs2.
      intros rs Hall. inversion Hall as [? ? Hr1 Hr2 | r rs' ? w3 ? [Hr3 Hr4] Hrest]; subst.
      * constructor; [by etransitivity | by rewrite Hr2].
      * econstructor; [| done]. split; [by etransitivity | by rewrite Hr4, Hrefs].
    + intros Hu. apply Hun. by eapply unhindered_same.
  - exists w1, 0, 1. split_and!; [done | done | lia | lia |].
    intros [Hn _]. destruct (Hfine Hn) as [? ?]. done.
Qed.

Lemma run_sweep_repos polls repos w s :
  ∃ w' s', run (sweep_repos polls repos s) w = (w', Ok s') ∧ same_rows w w' ∧
    rs_errors s ≤ rs_errors s' ∧
    (rs_errors s' = rs_errors s →
      (∀ repo, repo ∈ repos → agrees w' repo) ∧ ∀ repo, agrees w repo → agrees w' repo) ∧
    (unhindered polls w → rs_errors s' = rs_errors s).
Proof.
  revert w s. induction repos as [| repo repos IH]; intros w s.
  { exists w, s. split; [done|]. split_and!; [done | done | | done]. intros _. split; [| done].
    intros repo Hin. by apply not_elem_of_nil in Hin. }
  destruct (run_sweep_one_repo polls repo w) as (w1 & n & m & Hrun & Hs1 & Hm & Hall & Hun).
  cbn [sweep_repos]. rewrite run_bind, Hrun. cbn [fst snd].
  match goal with |- context [sweep_repos polls repos ?t] =>
    destruct (IH w1 t) as (w2 & s2 & Hrun2 & Hs2 & Hle & Hag & Hun2) end.
  cbn [rs_errors] in Hle, Hag, Hun2.
  exists w2, s2. split_and!; [done | by etransitivity | lia | |].
  - intros Heq. destruct Hag as [Hin Hkeep]; [lia|]. specialize (Hall ltac:(lia)). split.
    + intros repo' [-> | Hr]%elem_of_cons; [| by apply Hin].
      apply Hkeep. by eapply all_fixed_agrees.
    + intros repo' Hr. apply Hkeep. by eapply all_fixed_keeps_agrees.
  - intros Hu. rewrite Hun2 by by eapply unhindered_same. rewrite Hun by done. lia.
Qed.

Lemma run_sweep_drift polls w :
  ∃ w' x, run (sweep_drift polls) w = (w', x) ∧ same_rows w w' ∧
    (∀ s, x = Ok s → converged s = true →
      ∀ id e, artifacts w !! id = Some e → agrees w' (repository_id (row e))) ∧
    (unhindered polls w → ∃ s, x = Ok s ∧ converged s = true).
Proof.
  unfold sweep_drift, list_repository_ids. rewrite run_bind, run_query. unfold on_db at 1.
  destruct (db_fault (calls w)) as [err|] eqn:E1.
  { eexists _, _. split; [done|]. split_and!; [done | done |]. intros [Hn _]. by rewrite Hn in E1. }
  match goal with |- context [sweep_repos polls ?l ?t] =>
    destruct (run_sweep_repos polls l (tick w) t) as (w2 & s2 & Hrun & Hs2 & _ & Hag & Hun) end.
  eexists _, _. split; [exact Hrun|]. split_and!; [done | |].
  - intros s [= <-] Hc id e He. apply Z.eqb_eq in Hc. destruct (Hag Hc) as [Hin _]. apply Hin.
    apply elem_of_dedup. rewrite sort_by_Permutation. apply list_elem_of_fmap. exists (id, e).
    split; [done | by apply elem_of_map_to_list].
  - intros Hu. exists s2. split; [done|]. apply Z.eqb_eq. by apply Hun.
Qed.

(** Rows that agree have their edges. *)
Lemma agrees_has_edges w id e :
  artifacts w !! id = Some e → owed (repository_id (row e)) e = true →
  agrees w (repository_id (row e)) → has_edges w id e.
Proof.
  intros He Ho [Hset _].
  assert (∀ k h, settled w (repository_id (row e)) id k h → own_edge id e h k ∈ content_references w)
    as Hown.
  { intros k h [(r & Hr & Hk) Hall]. specialize (Hall r Hr Hk). destruct Hk as (Hrepo & Hsrc & Hkind).
    destruct r. cbn in *. by subst. }
  split; [| intros blob Hb]; apply Hown, Hset; exists e; auto.
Qed.

(** C25. The reconcile sweep, run alone under any database faults: if it reports that it
    converged then the rows are untouched, every row in service that is neither protected
    nor deleted has the edges it is owed, a rejected row has none in any repository that
    holds artifacts, and scanning such a repository again finds nothing to repair.  And
    without faults and with no blob locked the sweep does converge, so that the gate it
    holds opens. *)
Theorem reconcile_converges polls w :
  (∀ w' s, run (sweep_drift polls) w = (w', Ok s) → converged s = true →
    artifacts w' = artifacts w ∧
    (∀ id e, artifacts w' !! id = Some e → deleted_at (row e) = None →
      gc_protected (quarantine_status (row e)) = false → has_edges w' id e) ∧
    ∀ id e, artifacts w' !! id = Some e → let repo := repository_id (row e) in
      (∀ r, r ∈ content_references w' → cr_repository_id r = repo →
        ∀ e', artifacts w' !! source_artifact_id r = Some e' →
          quarantine_status (row e') ≠ QS_Rejected) ∧
      primary_drift repo w' ++ metadata_drift repo w' ++ rejected_drift repo w' = []) ∧
  ((∀ n, db_fault n = None) → leases w = ∅ → polls ≠ O →
    ∃ w' s, run (sweep_drift polls) w = (w', Ok s) ∧ converged s = true).
Proof.
  destruct (run_sweep_drift polls w) as (w1 & x & Hrun & (Ha & Hm & Hl) & Hag & Hun). split.
  - intros w' s Hw Hc. rewrite Hrun in Hw. injection Hw as <- ->.
    specialize (Hag s eq_refl Hc). rewrite <- Ha in Hag. split_and!; [done | |].
    + intros id e He Hd Hp. apply agrees_has_edges; [done | | by eapply Hag].
      unfold owed. by rewrite Hd, Hp, Z.eqb_refl.
    + intros id e He repo. pose proof (Hag id e He) as Hr. split; [| by apply agrees_scan_nil].
      intros r Hin Hrepo e' He' Hq. destruct Hr as [_ Hsw].
      by eapply (Hsw (source_artifact_id r)); [exists e' | done..].
  - intros Hn Hlw Hp. destruct Hun as (s & -> & Hc); [done|]. by exists w1, s.
Qed.
End sweep.
