(* ===== verification/PurgeExamples.v ===== *)
(** Runs of storage GC: the witnesses of the safety theorems, and the three ways in which
    an artifact in service loses its bytes. *)

From coqutil Require Import Datatypes.RecordSetters.
From S2P Require Import Prelude.
From S2P Require Import RustStd.
From S2P Require Import Json.
From S2P Require Import Types.
From S2P Require Import Events.
From S2P Require Import QuarantineTransitions.
From S2P Require Import Artifact.
From S2P Require Import ScanEngine.
From S2P Require Import Store.
From S2P Require Import Lifecycle.
From S2P Require Import LifecycleSafety.
From S2P Require Import Concurrent.
From S2P Require Import ContentRefs.
From S2P Require Import Purge.
From S2P Require Import Reconcile.
From S2P Require Import Claims.
From S2P Require Import PurgeSafety.
From S2P Require Import ReconcileSafety.
Import DoubleBraceUpdate.

#[local] Existing Instances SampleStore.wire SampleStore.serde SampleLifecycle.uppercase.

Module SamplePurge.
(** An id above all ids in use. *)
Definition next_id (db : Db) : Uuid := 1 + foldr (λ p, Z.max p.1) 0 (map_to_list db).

Lemma next_id_fresh db : db !! next_id db = None.
Proof.
  destruct (db !! next_id db) as [e|] eqn:El; [| done]. apply elem_of_map_to_list in El.
  assert (∀ l : list (Uuid * Entry), (next_id db, e) ∈ l →
          next_id db ≤ foldr (λ p, Z.max p.1) 0 l) as Hmax.
  { induction l as [| p l IH]; [by intros ?%not_elem_of_nil|]. cbn.
    intros [<- | Hin]%elem_of_cons; cbn; [lia|]. specialize (IH Hin). lia. }
  apply Hmax in El. unfold next_id in El at 1. lia.
Qed.

(** Nothing fails. *)
#[export] Instance calm : Backend :=
  {| db_fault := λ _, None; storage_fault := λ _, None; lock_busy := λ _, false;
     utc_now := λ _, 10 ^ 18;
     foreign_key_error := Invariant [Lit "foreign key"]; wait_error := Contended [];
     new_v4 := next_id; new_v4_fresh := next_id_fresh |}.

Definition blob : ContentHash :=
  "aaaaaaaaaaaaaaaaaaaaaaaaaaaaaaaaaaaaaaaaaaaaaaaaaaaaaaaaaaaaaaaa".
Definition metadata : ContentHash :=
  "bbbbbbbbbbbbbbbbbbbbbbbbbbbbbbbbbbbbbbbbbbbbbbbbbbbbbbbbbbbbbbbb".

Definition at_time (t : DateTime) (e : DomainEvent) : PersistedEvent := {| event := e; stored_at := t |}.

(** In quarantine, waiting for its scan. *)
Definition waiting : Entry :=
  {| row := (SampleStore.artifact 5) {{ sha256_checksum := blob }};
     stream := [SampleStore.quarantined 5] |}.

(** Released, then deleted by its owner: the purge is due. *)
Definition deleted : Entry :=
  {| row := (SampleStore.artifact 6)
              {{ sha256_checksum := blob }} {{ quarantine_status := QS_Released }}
              {{ deleted_at := Some 9 }};
     stream := [SampleStore.quarantined 6;
                at_time 2 (DE_ArtifactReleased {| ar_artifact_id := 6; released_by := RL_Timer;
                             released_by_user_id := None; justification := None |});
                at_time 9 (DE_ArtifactDeleted {| ad_artifact_id := 6; ad_repository_id := 2;
                             ad_path := "left-pad-1.0.0.tgz"; ad_content_hash := blob |})] |}.

Definition primary (id : Uuid) : ContentReference :=
  {| source_artifact_id := id; target_content_hash := blob; kind := "primary_content";
     cr_repository_id := 2 |}.

(** Both artifacts serve the same bytes. *)
Definition shared : World :=
  {| artifacts := {[ 5 := waiting; 6 := deleted ]}; metadata_blobs := ∅;
     content_references := {[ primary 5; primary 6 ]}; worklist := ∅; mutable_refs := [];
     storage := {[ blob ]}; leases := ∅; calls := 0 |}.

(** Only the deleted one is there. *)
Definition leftover : World :=
  {| artifacts := {[ 6 := deleted ]}; metadata_blobs := ∅;
     content_references := {[ primary 6 ]}; worklist := ∅; mutable_refs := [];
     storage := {[ blob ]}; leases := ∅; calls := 0 |}.

(** An artifact whose metadata is a blob of its own. *)
Definition split : World :=
  {| artifacts := {[ 5 := waiting ]}; metadata_blobs := {[ 5 := metadata ]};
     content_references := {[ primary 5; {| source_artifact_id := 5; target_content_hash := metadata;
                                            kind := "metadata_blob"; cr_repository_id := 2 |} ]};
     worklist := ∅; mutable_refs := []; storage := {[ blob; metadata ]}; leases := ∅; calls := 0 |}.

(** In service without an edge, beside an edge of a rejected artifact. *)
Definition serving : Entry :=
  {| row := (row deleted) {{ deleted_at := None }}; stream := take 2 (stream deleted) |}.

Definition refused : Entry :=
  {| row := (row waiting) {{ quarantine_status := QS_Rejected }};
     stream := stream waiting ++
       [at_time 2 (DE_ArtifactRejected {| rj_artifact_id := 5; rejected_by := RR_Scanner;
                                          rj_reason := "malware" |})] |}.

Definition drifted : World :=
  {| artifacts := {[ 5 := refused; 6 := serving ]}; metadata_blobs := ∅;
     content_references := {[ primary 5 ]}; worklist := ∅; mutable_refs := [];
     storage := {[ blob ]}; leases := ∅; calls := 0 |}.

Definition critical_finding : Finding :=
  {| purl := "pkg:npm/left-pad@1.0.0"; vulnerability_id := "CVE-2024-0001"; severity := Critical;
     cvss_score := None; title := "remote code execution"; fixed_versions := [];
     source_scanner := "trivy"; references := []; aliases := []; informational_class := None;
     severity_basis := Assessed; component_relation := Contained; statement := FS_Bytes;
     advisory_published_at := None |}.

Definition coords : ArtifactCoords :=
  {| co_name := "left-pad"; co_name_as_published := "left-pad"; co_version := None;
     co_path := "manifests/sha256:aa"; co_format := Oci; co_metadata := VNull |}.
End SamplePurge.
Import SamplePurge.
#[local] Existing Instance calm.

(** ** The sample worlds are sound *)

Definition entry_check (w : World) (id : Uuid) (e : Entry) : bool :=
  (artifact_id (row e) =? id) &&
  bool_decide (quarantine_status (row e) = projected_status (stream e)) &&
  negb (is_empty (stream e)) &&
  (is_some (deleted_at (row e)) || was_lifted (stream e) ||
   bool_decide (projected_status (stream e) = QS_Rejected) ||
   (bool_decide (own_edge id e (sha256_checksum (row e)) "primary_content" ∈ content_references w) &&
    match metadata_blobs w !! id with
    | Some b => bool_decide (own_edge id e b "metadata_blob" ∈ content_references w)
    | None => true
    end)).

Definition sound_check (w : World) : bool :=
  forallb (λ p, entry_check w p.1 p.2) (map_to_list (artifacts w)) &&
  forallb (λ p, is_some (artifacts w !! p.1)) (map_to_list (metadata_blobs w)).

Lemma sound_check_sound w : sound_check w = true → sound w.
Proof.
  unfold sound_check. rewrite andb_true_iff, !forallb_forall. intros [He Hm].
  assert (∀ id e, artifacts w !! id = Some e → entry_check w id e = true) as Hcheck.
  { intros id e Hid. apply (He (id, e)), list_elem_of_In, elem_of_map_to_list, Hid. }
  split.
  - intros id e Hid%Hcheck. unfold entry_check in Hid. breflect. by split.
  - intros id e Hid%Hcheck. unfold entry_check in Hid. breflect. by destruct (stream e).
  - intros id b Hid%elem_of_map_to_list%list_elem_of_In%Hm. cbn in Hid.
    destruct (artifacts w !! id); [by eexists | done].
  - intros id e Hid%Hcheck Hl Hd. unfold entry_check in Hid.
    rewrite !andb_true_iff, !orb_true_iff in Hid. destruct Hid as [_ [[[Hx | Hx] | Hx] | Hx]].
    + unfold live in Hl. by rewrite Hl in Hx.
    + destruct Hd. by left.
    + destruct Hd. right. rewrite lift_state_status. by apply bool_decide_eq_true in Hx.
    + apply andb_true_iff in Hx as [Hp%bool_decide_eq_true Hb]. split; [done|].
      intros b Hbl. rewrite Hbl in Hb. by apply bool_decide_eq_true in Hb.
Qed.

Lemma shared_sound : sound shared.
Proof. apply sound_check_sound. by vm_compute. Qed.

Lemma leftover_sound : sound leftover.
Proof. apply sound_check_sound. by vm_compute. Qed.

Lemma split_sound : sound split.
Proof. apply sound_check_sound. by vm_compute. Qed.

(** ** One task after the other *)

(** Tasks none of which is an upload that is checked. *)
Abbreviation started := ordinary.

Lemma spawn_and_run w ps p :
  started (length ps) p →
  rtc (pool_step started) (w, ps) ((run p w).1, ps ++ [Done (run p w).2]).
Proof. intros Hp. eapply rtc_l; [by apply pool_spawn | apply run_steps]. Qed.

Definition purge (place : nat) : task unit := discard (process_expired place true 100).

(** A sweep of the shared bytes keeps them: the artifact in quarantine still has its
    edge.  One call before the last, and after it. *)
Definition near_the_end : World * list (task unit) := schedule (repeat 0%nat 4) (shared, [purge 0]).
Definition at_the_end : World * list (task unit) := schedule [0%nat] near_the_end.

Lemma claimed_bytes_stay_witness :
  sound shared ∧ claimed near_the_end.1 blob ∧ blob ∈ storage near_the_end.1 ∧
  at_the_end.2 = [Done (Ok ())] ∧ blob ∈ storage at_the_end.1.
Proof.
  assert (claimed near_the_end.1 blob) as Hc.
  { left. exists (primary 5). split; [| done]. refine (bool_decide_eq_true_1 _ _). by vm_compute. }
  assert (blob ∈ storage near_the_end.1) as Hb by (refine (bool_decide_eq_true_1 _ _); by vm_compute).
  split_and!; [apply shared_sound | done | done | by vm_compute |].
  destruct (claimed_bytes_stay (λ _, None) shared near_the_end at_the_end blob) as [? | (i & [=] & _)];
    [apply shared_sound | | | done | done | done].
  - eapply rtc_l; [apply pool_spawn, started_purge | apply schedule_steps].
  - apply schedule_step. by vm_compute.
Defined.

(** The sweep of [drifted] converges, and afterwards the artifact in service has its
    edge and the rejected one has none. *)
Lemma reconcile_converges_witness :
  length (primary_drift 2 drifted ++ rejected_drift 2 drifted) = 2%nat ∧
  ∃ w s, run (sweep_drift 1) drifted = (w, Ok s) ∧ converged s = true ∧ has_edges w 6 serving ∧
    primary_drift 2 w ++ metadata_drift 2 w ++ rejected_drift 2 w = [].
Proof.
  split; [by vm_compute|].
  destruct (reconcile_converges 1 drifted) as [Hfixed Hruns].
  destruct Hruns as (w & s & Hrun & Hc); [done | done | done |]. exists w, s.
  destruct (Hfixed w s Hrun Hc) as (Ha & Hedges & Hscan).
  assert (artifacts w !! 6 = Some serving) as H6 by (rewrite Ha; by vm_compute).
  split_and!; [done | done | by apply Hedges |]. apply (Hscan 6 serving H6).
Defined.

(** ** Bytes lost *)

Definition scan : task unit :=
  record_scan_result_task SampleLifecycle.ports 5 "trivy" [critical_finding] SA_Analysed AK_Other.

Definition waiver : task unit :=
  discard (lifecycle (waive SampleLifecycle.ports 5 7 SampleLifecycle.curator "accepted")).

Definition after_rejection : World := (run scan shared).1.
Definition after_waiver : World := (run waiver after_rejection).1.
Definition after_purge : World := (run (purge 2) after_waiver).1.

(** What a client would be served. *)
Definition served (w : World) (id : Uuid) : option ContentHash :=
  e ← artifacts w !! id; if is_downloadable (row e) then Some (sha256_checksum (row e)) else None.

(** A lifted rejection leaves an artifact without a claim on its bytes.  A scan
    rejects an artifact and sweeps its edges; a curator waives the rejection, which
    puts the artifact back into service but writes no edge; the purge of a deleted
    artifact with the same content then finds no reference and no protected
    claimant, and deletes the bytes of the artifact in service.  No task fails and
    none overlaps another. *)
Theorem a_waived_artifact_loses_its_bytes :
  ∃ w w' ps h,
    sound w ∧ h ∈ storage w ∧ rtc (pool_step started) (w, []) (w', ps) ∧
    Forall (λ p, p = Done (Ok ())) ps ∧ served w' 5 = Some h ∧ h ∉ storage w'.
Proof.
  exists shared, after_purge, [Done (Ok ()); Done (Ok ()); Done (Ok ())], blob.
  split_and!; [apply shared_sound | refine (bool_decide_eq_true_1 _ _); by vm_compute | | by repeat constructor | |].
  - pose proof (spawn_and_run shared [] scan (started_scan _ _ _ _ _ _ _)) as S1.
    assert (started 1 waiver) as Hw.
    { apply (started_lifecycle 1 unit SampleLifecycle.ports). intros db. eapply ls_waive, surjective_pairing. }
    pose proof (spawn_and_run after_rejection [Done (Ok ())] waiver Hw) as S2.
    pose proof (spawn_and_run after_waiver [Done (Ok ()); Done (Ok ())] (purge 2)
                  (started_purge _ _ _)) as S3.
    assert ((run scan shared).2 = Ok ()) as R1 by (by vm_compute).
    assert ((run waiver after_rejection).2 = Ok ()) as R2 by (by vm_compute).
    assert ((run (purge 2) after_waiver).2 = Ok ()) as R3 by (by vm_compute).
    rewrite R1 in S1. rewrite R2 in S2. rewrite R3 in S3.
    etransitivity; [exact S1|]. etransitivity; [exact S2 | exact S3].
  - by vm_compute.
  - refine (bool_decide_eq_false_1 _ _). by vm_compute.
Qed.

(** The push of a manifest, with the sweep that runs after its upload. *)
Definition push : task unit :=
  discard (ingest_signature_manifest 1 2 coords "application/json" None VNull blob [] blob 10).

Definition overlap : list nat := ([0] ++ repeat 1 11 ++ [0; 0])%nat.
Definition after_overlap : World * list (task unit) := schedule overlap (leftover, [push; purge 1]).

(** An ingest can commit an artifact whose bytes are already gone.  The upload
    finds the bytes in the store; the purge of the last artifact that had them takes
    the blob lock, counts nothing and deletes them; the ingest then takes the lock
    and commits row and edge.  Both tasks report success, and the new artifact is in
    service without its bytes. *)
Theorem an_ingest_can_commit_missing_bytes :
  ∃ w w' ps h id,
    sound w ∧ rtc (pool_step started) (w, []) (w', ps) ∧ Forall (λ p, p = Done (Ok ())) ps ∧
    artifacts w !! id = None ∧ served w' id = Some h ∧ claimed w' h ∧ h ∉ storage w'.
Proof.
  exists leftover, after_overlap.1, after_overlap.2, blob, 7.
  assert (rtc (pool_step started) (leftover, []) after_overlap) as Hsteps.
  { eapply rtc_l; [apply pool_spawn, started_signature|].
    eapply rtc_l; [apply pool_spawn, started_purge | apply (schedule_steps _ overlap)]. }
  split_and!; [apply leftover_sound | by rewrite <- surjective_pairing | | done | by vm_compute | |].
  - assert (after_overlap.2 = [Done (Ok ()); Done (Ok ())]) as -> by (by vm_compute).
    by repeat constructor.
  - left. exists (primary 7). split; [| done]. refine (bool_decide_eq_true_1 _ _). by vm_compute.
  - refine (bool_decide_eq_false_1 _ _). by vm_compute.
Qed.

(** An upload of bytes that are in the store already, with a digest that is not theirs. *)
Definition bad_upload : task unit :=
  _ ← storage_put metadata; verify_declared_sha256 (Some blob) metadata.

(** A failed upload can delete bytes that are in use.  The rollback of an upload
    whose digest does not match asks only whether an artifact has the uploaded bytes
    as its content; a blob that is an artifact's metadata, or that another edge
    claims, does not count, and the blob lock is not taken.  Uploading the metadata
    of an artifact under a wrong digest therefore deletes it. *)
Theorem a_failed_upload_can_delete_claimed_bytes :
  ∃ w h, sound w ∧ claimed w h ∧ h ∈ storage w ∧
    let w' := (run bad_upload w).1 in sound w' ∧ claimed w' h ∧ h ∉ storage w'.
Proof.
  exists split, metadata. cbv zeta. set (w' := (run bad_upload split).1).
  assert (∀ w, bool_decide (own_edge 5 waiting metadata "metadata_blob" ∈ content_references w) = true →
          claimed w metadata) as Hclaim.
  { intros w Hr%bool_decide_eq_true. left. by eexists. }
  split_and!; [apply split_sound | apply Hclaim; by vm_compute | refine (bool_decide_eq_true_1 _ _); by vm_compute
              | apply sound_check_sound; by vm_compute | apply Hclaim; by vm_compute |].
  refine (bool_decide_eq_false_1 _ _). by vm_compute.
Qed.
