(* ===== verification/Rbac.v ===== *)
(** Authority: permissions and grants (crates/hort-domain/src/entities/rbac.rs), the cap
    a token carries (entities/api_token.rs), the authenticated caller
    (entities/caller.rs), and the evaluator that decides what a caller may do
    (crates/hort-app/src/rbac.rs). *)

From S2P Require Import Prelude.
From S2P Require Import RustStd.
From S2P Require Import Types.

(** ** Entities *)

Inductive Permission : Type :=
  | Read
  | Write
  | Delete
  | Admin
  | AdminTaskInvoke
  | Curate
  | Prefetch
  | ReadMetrics.

#[export] Instance Permission_eq_dec : EqDecision Permission.
Proof. solve_decision. Defined.

#[export] Instance Permission_display : Display Permission := λ p,
  match p with
  | Read => "read"
  | Write => "write"
  | Delete => "delete"
  | Admin => "admin"
  | AdminTaskInvoke => "admin_task_invoke"
  | Curate => "curate"
  | Prefetch => "prefetch"
  | ReadMetrics => "read_metrics"
  end.

Definition Permission_from_str : string → DomainResult Permission :=
  from_str "permission"
    [("read", Read); ("write", Write); ("delete", Delete); ("admin", Admin);
     ("admin_task_invoke", AdminTaskInvoke); ("curate", Curate); ("prefetch", Prefetch);
     ("read_metrics", ReadMetrics)]%string.

Inductive GrantSubject : Type :=
  | GS_Claims (required : list string)
  | GS_User (id : Uuid).

Record PermissionGrant : Type := {
  pg_id : Uuid;
  pg_subject : GrantSubject;
  pg_repository_id : option Uuid;
  pg_permission : Permission;
  pg_managed_by : ManagedBy;
  pg_managed_by_digest : option (list byte);
  pg_created_at : DateTime;
}.

Record ClaimMapping : Type := {
  cm_id : Uuid;
  cm_idp_group : string;
  cm_claim : string;
  cm_managed_by : ManagedBy;
  cm_managed_by_digest : option (list byte);
}.

Inductive TokenKind : Type :=
  | Pat
  | ServiceAccount
  | CliSession.

#[export] Instance TokenKind_eq_dec : EqDecision TokenKind.
Proof. solve_decision. Defined.

Record TokenCap : Type := {
  tc_permissions : list Permission;
  tc_repository_ids : option (list Uuid);
  tc_per_repository_permissions : option (gmap Uuid (list Permission));
}.

Record CallerPrincipal : Type := {
  cp_user_id : Uuid;
  cp_external_id : string;
  cp_username : string;
  cp_email : string;
  cp_claims : list string;
  cp_token_kind : option TokenKind;
  cp_issued_at : DateTime;
  cp_token_cap : option TokenCap;
}.

(** ** The cap of a token *)

Definition cap_allows_optional_repo (cap : option TokenCap) (requested : Permission)
    (repository_id : option Uuid) : bool :=
  match cap with
  | None => true
  | Some cap =>
      if negb (bool_decide (requested ∈ tc_permissions cap)) then false
      else
        let repository_ids_leg :=
          match tc_repository_ids cap, repository_id with
          | None, _ => true
          | Some ids, Some repo => bool_decide (repo ∈ ids)
          | Some _, None => false
          end in
        if negb repository_ids_leg then false
        else
          match tc_per_repository_permissions cap, repository_id with
          | None, _ => true
          | Some per_repo, Some repo =>
              match per_repo !! repo with
              | Some actions => bool_decide (requested ∈ actions)
              | None => false
              end
          | Some _, None => false
          end
  end.

(** ** The evaluator *)

Definition is_admin_claim (claims : list string) : bool := bool_decide ("admin"%string ∈ claims).

Definition subject_matches (subject : GrantSubject) (claims : list string) (user_id : option Uuid)
    : bool :=
  match subject with
  | GS_Claims required => forallb (λ c, bool_decide (c ∈ claims)) required
  | GS_User uid => bool_decide (user_id = Some uid)
  end.

Inductive AuthzDecision : Type :=
  | Allowed
  | DeniedGrants
  | DeniedCap
  | DeniedBoth.

Definition is_allowed (d : AuthzDecision) : bool :=
  match d with Allowed => true | _ => false end.

Definition denial_reason (d : AuthzDecision) : option string :=
  match d with
  | Allowed => None
  | DeniedGrants => Some "grants"%string
  | DeniedCap => Some "cap"%string
  | DeniedBoth => Some "both"%string
  end.

(** The evaluator is the list of grants it was loaded with. *)
Definition RbacEvaluator : Type := list PermissionGrant.

(** A grant of the permission in the repository, for the caller. *)
Definition grant_covers (principal : CallerPrincipal) (permission : Permission)
    (repository_id : option Uuid) (grant : PermissionGrant) : bool :=
  bool_decide (pg_permission grant = permission) &&
  match pg_repository_id grant with
  | None => true
  | Some scoped => bool_decide (repository_id = Some scoped)
  end &&
  subject_matches (pg_subject grant) (cp_claims principal) (Some (cp_user_id principal)).

Definition user_grants_authorize (rbac : RbacEvaluator) (principal : CallerPrincipal)
    (permission : Permission) (repository_id : option Uuid) : bool :=
  if negb (bool_decide (permission = ReadMetrics)) && is_admin_claim (cp_claims principal) then
    negb (match cp_token_kind principal with
          | Some Pat | Some ServiceAccount => negb (is_some (cp_token_cap principal))
          | _ => false
          end)
  else existsb (grant_covers principal permission repository_id) rbac.

Definition authorize_explained (rbac : RbacEvaluator) (principal : CallerPrincipal)
    (permission : Permission) (repository_id : option Uuid) : AuthzDecision :=
  match user_grants_authorize rbac principal permission repository_id,
        cap_allows_optional_repo (cp_token_cap principal) permission repository_id with
  | true, true => Allowed
  | false, true => DeniedGrants
  | true, false => DeniedCap
  | false, false => DeniedBoth
  end.

Definition authorize (rbac : RbacEvaluator) (principal : CallerPrincipal) (permission : Permission)
    (repository_id : option Uuid) : bool :=
  is_allowed (authorize_explained rbac principal permission repository_id).

Definition authorize_granted : RbacEvaluator → CallerPrincipal → Permission → option Uuid → bool :=
  user_grants_authorize.

(** *** Footprints *)

Definition dedup_preserving_order (perms : list Permission) : list Permission :=
  foldl push_new [] perms.

Record EffectiveGrantSet : Type := {
  is_global_admin : bool;
  cells : list (option Uuid * Permission);
}.

Definition effective_grants (rbac : RbacEvaluator) (claims : list string) (user_id : option Uuid)
    (is_admin : bool) : EffectiveGrantSet :=
  let is_global_admin := is_admin || is_admin_claim claims in
  let counts grant :=
    negb (is_global_admin && negb (bool_decide (pg_permission grant = ReadMetrics))) &&
    subject_matches (pg_subject grant) claims user_id in
  {| is_global_admin := is_global_admin;
     cells := foldl push_new []
       (omap (λ grant, if counts grant then Some (pg_repository_id grant, pg_permission grant)
                       else None) rbac) |}.

Definition claims_satisfy (principal : CallerPrincipal) (required : list string) : bool :=
  is_admin_claim (cp_claims principal) ||
  forallb (λ c, bool_decide (c ∈ cp_claims principal)) required.

Definition footprint_candidate_repos (footprint : EffectiveGrantSet) : list Uuid :=
  foldl push_new [] (omap fst (cells footprint)).

Definition held_globally (footprint : EffectiveGrantSet) (perm : Permission) : bool :=
  bool_decide ((None, perm) ∈ cells footprint).

Definition held_per_repo (footprint : EffectiveGrantSet) (perm : Permission) : bool :=
  existsb (λ cell, is_some cell.1 && bool_decide (cell.2 = perm)) (cells footprint).

(** The loop over the requested permissions: those held, and whether all of them are
    held globally. *)
Fixpoint collect_held (footprint : EffectiveGrantSet) (requested held : list Permission)
    (all_held_globally : bool) : list Permission * bool :=
  match requested with
  | [] => (held, all_held_globally)
  | perm :: requested' =>
      if bool_decide (perm ∈ held) then collect_held footprint requested' held all_held_globally
      else if held_globally footprint perm then
        collect_held footprint requested' (held ++ [perm]) all_held_globally
      else if held_per_repo footprint perm then collect_held footprint requested' (held ++ [perm]) false
      else collect_held footprint requested' held all_held_globally
  end.

Definition flat_cap (permissions : list Permission) (repository_ids : option (list Uuid)) : TokenCap :=
  {| tc_permissions := permissions; tc_repository_ids := repository_ids;
     tc_per_repository_permissions := None |}.

Definition derive_cli_session_cap (rbac : RbacEvaluator) (principal : CallerPrincipal)
    (requested : list Permission) : option TokenCap :=
  if is_admin_claim (cp_claims principal) then
    let permissions := filter (λ p, p ≠ ReadMetrics ∨
                                 user_grants_authorize rbac principal ReadMetrics None = true)
                         (dedup_preserving_order requested) in
    if is_empty permissions then None else Some (flat_cap permissions None)
  else if bool_decide (Admin ∈ requested) then
    Some (flat_cap (dedup_preserving_order requested) None)
  else
    let footprint := effective_grants rbac (cp_claims principal) (Some (cp_user_id principal)) false in
    let '(held, all_held_globally) := collect_held footprint requested [] true in
    if is_empty held then None
    else if (all_held_globally : bool) then Some (flat_cap held None)
    else
      let repos := filter (λ repo, Forall (λ perm, held_globally footprint perm = true ∨
                                              (Some repo, perm) ∈ cells footprint) held)
                     (footprint_candidate_repos footprint) in
      if is_empty repos then None else Some (flat_cap held (Some repos)).

Definition service_account_cap_permissions (rbac : RbacEvaluator) (backing_user_id : Uuid)
    (requested_scope : list Permission) : list Permission :=
  let footprint := effective_grants rbac [] (Some backing_user_id) false in
  let held := dedup_preserving_order (snd <$> cells footprint) in
  if is_empty requested_scope then held
  else filter (λ p, p ∈ held) (dedup_preserving_order requested_scope).

(** ** Claims *)

Definition resolve_claims (mappings : list ClaimMapping) (idp_groups : list string) : list string :=
  foldl (λ out m, if bool_decide (cm_idp_group m ∈ idp_groups) then push_new out (cm_claim m) else out)
    [] mappings.

Definition add_admin_claim_if_admin (claims : list string) (is_admin : bool) : list string :=
  if is_admin && negb (is_admin_claim claims) then claims ++ ["admin"%string] else claims.

(** ** What the evaluator decides *)

Lemma authorize_spec rbac p perm repo :
  authorize rbac p perm repo = true ↔
  user_grants_authorize rbac p perm repo = true ∧
  cap_allows_optional_repo (cp_token_cap p) perm repo = true.
Proof.
  unfold authorize, authorize_explained.
  destruct (user_grants_authorize _ _ _ _), (cap_allows_optional_repo _ _ _); cbn; naive_solver.
Qed.

(** The pairs a cap lets through. *)
Definition in_cap (c : TokenCap) (perm : Permission) (repo : option Uuid) : Prop :=
  perm ∈ tc_permissions c ∧
  (∀ ids, tc_repository_ids c = Some ids → ∃ r, repo = Some r ∧ r ∈ ids) ∧
  ∀ m, tc_per_repository_permissions c = Some m →
    ∃ r actions, repo = Some r ∧ m !! r = Some actions ∧ perm ∈ actions.

Lemma cap_allows_spec c perm repo : cap_allows_optional_repo (Some c) perm repo = true ↔ in_cap c perm repo.
Proof.
  unfold in_cap. cbn. destruct (bool_decide_reflect (perm ∈ tc_permissions c)); cbn; [| naive_solver].
  destruct (tc_repository_ids c) as [ids|], repo as [r|]; cbn; try case_bool_decide; cbn;
    destruct (tc_per_repository_permissions c) as [m|]; cbn;
    repeat match goal with
    | |- context [match ?m !! ?r with _ => _ end] => destruct (m !! r) eqn:?
    | |- context [bool_decide ?P] => case_bool_decide
    end; naive_solver.
Qed.

(** Authority over no repository in particular is authority over each. *)
Lemma authorize_global rbac p perm repo :
  authorize rbac p perm None = true → authorize rbac p perm repo = true.
Proof.
  rewrite !authorize_spec. intros [Hg Hc]. split.
  - revert Hg. unfold user_grants_authorize. case_match; [done|]. rewrite !existsb_exists.
    intros (g & Hin & Hg). exists g. split; [done|]. revert Hg. unfold grant_covers.
    destruct (pg_repository_id g); rewrite ?bool_decide_eq_false_2, ?andb_false_r by done; done.
  - destruct (cp_token_cap p) as [c|]; [| done]. revert Hc. rewrite !cap_allows_spec.
    intros (Hp & Hids & Hm). split; [done|]. split; [intros ids Hi | intros m Hi].
    + by destruct (Hids ids Hi) as (? & ? & _).
    + by destruct (Hm m Hi) as (? & ? & ? & _).
Qed.

(** *** Footprints are exact *)

Lemma elem_of_foldl_push_new {A} `{EqDecision A} (l out : list A) y :
  y ∈ foldl push_new out l ↔ y ∈ out ∨ y ∈ l.
Proof.
  revert out; induction l as [| x l IH]; intros out; cbn; [set_solver|].
  rewrite IH, elem_of_push_new, elem_of_cons. naive_solver.
Qed.

Lemma elem_of_dedup_preserving_order perms p : p ∈ dedup_preserving_order perms ↔ p ∈ perms.
Proof. unfold dedup_preserving_order. rewrite elem_of_foldl_push_new. set_solver. Qed.

Lemma elem_of_cells rbac claims user c :
  c ∈ cells (effective_grants rbac claims user false) ↔
  ∃ g, g ∈ rbac ∧ c = (pg_repository_id g, pg_permission g) ∧
    subject_matches (pg_subject g) claims user = true ∧
    (is_admin_claim claims = true → pg_permission g = ReadMetrics).
Proof.
  unfold effective_grants. cbn. rewrite elem_of_foldl_push_new, list_elem_of_omap.
  split.
  - intros [?%not_elem_of_nil | (g & Hin & Hg)]; [done|]. exists g.
    destruct (_ && _) eqn:Hc in Hg; [| done]. injection Hg as <-.
    apply andb_true_iff in Hc as [Ha ?]. split_and!; [done.. |]. intros Hadm. rewrite Hadm in Ha.
    by destruct (bool_decide_reflect (pg_permission g = ReadMetrics)).
  - intros (g & Hin & -> & Hs & Ha). right. exists g. split; [done|]. rewrite Hs, andb_true_r.
    destruct (is_admin_claim claims) eqn:Hadm; cbn; [| done].
    by rewrite bool_decide_eq_true_2 by auto.
Qed.

(** A caller without the admin claim may do exactly what the footprint lists. *)
Lemma footprint_exact rbac p perm repo :
  is_admin_claim (cp_claims p) = false →
  user_grants_authorize rbac p perm repo = true ↔
  let footprint := effective_grants rbac (cp_claims p) (Some (cp_user_id p)) false in
  (None, perm) ∈ cells footprint ∨ ∃ r, repo = Some r ∧ (Some r, perm) ∈ cells footprint.
Proof.
  intros Hadm. cbv zeta. unfold user_grants_authorize. rewrite Hadm, andb_false_r, existsb_exists.
  setoid_rewrite elem_of_cells. setoid_rewrite Hadm. unfold grant_covers. split.
  - intros (g & Hin%list_elem_of_In & Hg). breflect. destruct (pg_repository_id g) as [r|] eqn:Er; breflect.
    + right. exists r. split; [done|]. exists g. rewrite Er. naive_solver.
    + left. exists g. rewrite Er. naive_solver.
  - intros [(g & Hin & Hc & Hs & _) | (r & -> & g & Hin & Hc & Hs & _)]; exists g;
      (split; [by apply list_elem_of_In |]); injection Hc as <- <-; rewrite bool_decide_eq_true_2, Hs by done;
      [done | by rewrite bool_decide_eq_true_2].
Qed.

(** *** The cap derived for a session *)

Lemma collect_held_sub footprint requested held all p :
  p ∈ (collect_held footprint requested held all).1 → p ∈ held ∨ p ∈ requested.
Proof.
  revert held all; induction requested as [| q requested IH]; intros held all; cbn; [by left|].
  rewrite elem_of_cons.
  repeat case_match; intros [Hp | Hp]%IH; try apply elem_of_app in Hp as [Hp | ->%list_elem_of_singleton]; auto.
Qed.

Lemma collect_held_all footprint requested held all :
  (collect_held footprint requested held all).2 = true →
  all = true ∧
  ∀ p, p ∈ (collect_held footprint requested held all).1 → p ∈ held ∨ held_globally footprint p = true.
Proof.
  revert held all; induction requested as [| q requested IH]; intros held all; cbn; [by auto|].
  repeat case_match; intros [Ha Hp]%IH; (split; [done|]); [done | | done..].
  intros p [[Hq | ->%list_elem_of_singleton]%elem_of_app | Hq]%Hp; auto.
Qed.

(** Not a long-lived token: the callers of the session exchange. *)
Definition uncapped (p : CallerPrincipal) : Prop :=
  cp_token_cap p = None ∧ cp_token_kind p ≠ Some Pat ∧ cp_token_kind p ≠ Some ServiceAccount.

Lemma uncapped_admin rbac p perm repo :
  uncapped p → is_admin_claim (cp_claims p) = true → perm ≠ ReadMetrics →
  authorize rbac p perm repo = true.
Proof.
  intros (Hc & Hp & Hs) Ha Hr. rewrite authorize_spec, Hc. split; [| done].
  unfold user_grants_authorize. rewrite Ha, bool_decide_eq_false_2 by done. cbn.
  by destruct (cp_token_kind p) as [[]|].
Qed.

(** What is derived was asked for, and the caller may do it. *)
Lemma derived_cap_within rbac p requested c perm repo :
  uncapped p → is_admin_claim (cp_claims p) = true ∨ Admin ∉ requested →
  derive_cli_session_cap rbac p requested = Some c → in_cap c perm repo →
  perm ∈ requested ∧ authorize rbac p perm repo = true.
Proof.
  intros Hu Hadm Hd (Hp & Hids & _). unfold derive_cli_session_cap in Hd.
  destruct (is_admin_claim (cp_claims p)) eqn:Ha.
  - case_match; [done|]. injection Hd as <-. cbn in Hp. apply list_elem_of_filter in Hp as [Hor Hp].
    rewrite elem_of_dedup_preserving_order in Hp. split; [done|].
    destruct (decide (perm = ReadMetrics)) as [-> |]; [| by apply uncapped_admin].
    destruct Hor as [? | Hg]; [done|]. apply authorize_global, authorize_spec.
    by destruct Hu as (-> & _).
  - destruct Hadm as [? | Hadm]; [done|]. rewrite bool_decide_eq_false_2 in Hd by done.
    set (footprint := effective_grants _ _ _ _) in Hd.
    pose proof (collect_held_sub footprint requested [] true perm) as Hsub.
    pose proof (collect_held_all footprint requested [] true) as Hall.
    destruct (collect_held footprint requested [] true) as [held all]. cbn in *.
    assert (perm ∈ requested ∧ (perm ∈ held →
      (None, perm) ∈ cells footprint ∨ ∃ r, repo = Some r ∧ (Some r, perm) ∈ cells footprint)) as [Hreq Hcell].
    { destruct (is_empty held); [done|]. destruct all.
      - injection Hd as <-. cbn in Hp. destruct (Hsub Hp) as [?%not_elem_of_nil |]; [done|].
        split; [done|]. intros _. left. destruct (Hall eq_refl) as [_ Hg].
        destruct (Hg perm Hp) as [?%not_elem_of_nil | Hgl]; [done|].
        by apply bool_decide_eq_true in Hgl.
      - case_match; [done|]. injection Hd as <-. cbn in Hp, Hids.
        destruct (Hsub Hp) as [?%not_elem_of_nil |]; [done|]. split; [done|]. intros _.
        destruct (Hids _ eq_refl) as (r & -> & Hr). apply list_elem_of_filter in Hr as [Hr _].
        rewrite Forall_forall in Hr. destruct (Hr perm Hp) as [Hg%bool_decide_eq_true |]; eauto. }
    split; [done|]. apply authorize_spec. destruct Hu as (-> & _). split; [| done].
    apply footprint_exact; [done|]. apply Hcell. by destruct (is_empty held), all; repeat case_match; simplify_eq.
Qed.
