(* ===== verification/TokenCache.v ===== *)
(** The validation cache of native tokens: crates/hort-app/src/use_cases/pat_cache.rs.

    The cache maps the digest of a presented token to the outcome of its validation,
    and keeps a reverse index from token ids so that a revocation can drop the entry.
    The least-recently-used map under it is the [lru] crate, which is a parameter:
    [Lru] lists its operations and what its documentation says they do to the
    entries; which entry a full map gives up is left open. *)

From coqutil Require Import Datatypes.RecordSetters.
From S2P Require Import Prelude.
From S2P Require Import RustStd.
From S2P Require Import Types.
From S2P Require Import Rbac.
Import DoubleBraceUpdate.

(** ** The map under the cache *)

Class Lru (K V : Type) `{Countable K} : Type := {
  lru : Type;
  lru_new : Z → lru;
  entries : lru → gmap K V;
  lru_get : lru → K → lru * option V;
  lru_pop : lru → K → lru * option V;
  lru_push : lru → K → V → lru * option (K * V);
  lru_iter : lru → list (K * V);
  lru_clear : lru → lru;
  lru_new_empty capacity : entries (lru_new capacity) = ∅;
  (** A read moves the entry to the front and changes nothing else. *)
  lru_get_spec c k : entries (lru_get c k).1 = entries c ∧ (lru_get c k).2 = entries c !! k;
  lru_pop_spec c k : entries (lru_pop c k).1 = delete k (entries c) ∧ (lru_pop c k).2 = entries c !! k;
  (** An insertion returns the entry it replaced, or the one it evicted. *)
  lru_push_spec c k v :
    match (lru_push c k v).2 with
    | None => entries c !! k = None ∧ entries (lru_push c k v).1 = <[k := v]> (entries c)
    | Some (k', v') =>
        entries c !! k' = Some v' ∧ (is_Some (entries c !! k) → k' = k) ∧
        entries (lru_push c k v).1 = <[k := v]> (delete k' (entries c))
    end;
  lru_iter_spec c k v : (k, v) ∈ lru_iter c ↔ entries c !! k = Some v;
  lru_clear_spec c : entries (lru_clear c) = ∅;
}.

(** ** The cache *)


(** A SHA-256 digest. *)
Definition CacheKey : Type := list byte.

#[export] Instance CacheKey_eq_dec : EqDecision CacheKey := _.
#[export] Instance CacheKey_countable : Countable CacheKey := _.

Record ApiTokenValidation : Type := {
  v_token_id : Uuid;
  v_user_id : Uuid;
  v_kind : TokenKind;
  v_token_cap : TokenCap;
  v_expires_at : option DateTime;
  v_revoked_at : option DateTime;
}.

Record CachedEntry : Type := {
  ce_validation : ApiTokenValidation;
  ce_inserted_at : DateTime;
}.

Section cache.
Context {L : Lru CacheKey CachedEntry}.

Record PatCache : Type := {
  primary : lru;
  reverse : gmap Uuid CacheKey;
  ttl : Duration;
}.

Definition new_with_clock (capacity : Z) (ttl : Duration) : PatCache :=
  {| primary := lru_new (Z.max capacity 1); reverse := ∅; ttl := ttl |}.

(** The age is refused as a [std] duration when it is negative, and then not held
    against the entry. *)
Definition is_stale (ttl : Duration) (now : DateTime) (e : CachedEntry) : bool :=
  let age := signed_duration_since now (ce_inserted_at e) in
  if age <? 0 then false else ttl <? age.

Definition cache_get (now : DateTime) (k : CacheKey) (c : PatCache)
    : PatCache * option ApiTokenValidation :=
  match entries (primary c) !! k with
  | None => (c, None)
  | Some e =>
      if is_stale (ttl c) now e then
        let '(primary', popped) := lru_pop (primary c) k in
        (match popped with
         | Some e => {| primary := primary'; reverse := delete (v_token_id (ce_validation e)) (reverse c);
                        ttl := ttl c |}
         | None => {| primary := primary'; reverse := reverse c; ttl := ttl c |}
         end, None)
      else
        let '(primary', found) := lru_get (primary c) k in
        ({| primary := primary'; reverse := reverse c; ttl := ttl c |}, ce_validation <$> found)
  end.

Definition cache_insert (now : DateTime) (k : CacheKey) (v : ApiTokenValidation) (c : PatCache)
    : PatCache :=
  let token_id := v_token_id v in
  let primary1 :=
    match reverse c !! token_id with
    | Some old_key => if bool_decide (old_key = k) then primary c else (lru_pop (primary c) old_key).1
    | None => primary c
    end in
  let '(primary2, evicted) := lru_push primary1 k {| ce_validation := v; ce_inserted_at := now |} in
  let reverse1 := <[token_id := k]> (reverse c) in
  let reverse2 :=
    match evicted with
    | Some (evicted_key, evicted_entry) =>
        if negb (bool_decide (evicted_key = k)) &&
           negb (bool_decide (v_token_id (ce_validation evicted_entry) = token_id))
        then delete (v_token_id (ce_validation evicted_entry)) reverse1
        else reverse1
    | None => reverse1
    end in
  {| primary := primary2; reverse := reverse2; ttl := ttl c |}.

Definition invalidate_token (token_id : Uuid) (c : PatCache) : PatCache :=
  match reverse c !! token_id with
  | Some k => {| primary := (lru_pop (primary c) k).1; reverse := delete token_id (reverse c); ttl := ttl c |}
  | None => c
  end.

(** One entry of the sweep over a user. *)
Definition drop_entry (p : CacheKey * Uuid) (c : PatCache) : PatCache :=
  {| primary := (lru_pop (primary c) p.1).1; reverse := delete p.2 (reverse c); ttl := ttl c |}.

Definition invalidate_user (user_id : Uuid) (c : PatCache) : PatCache :=
  let to_drop := omap (λ '(k, e), if bool_decide (v_user_id (ce_validation e) = user_id)
                                  then Some (k, v_token_id (ce_validation e)) else None)
                   (lru_iter (primary c)) in
  foldl (λ c p, drop_entry p c) c to_drop.

Definition drop_all (c : PatCache) : PatCache :=
  {| primary := lru_clear (primary c); reverse := ∅; ttl := ttl c |}.

(** ** Histories *)

Inductive CacheOp : Type :=
  | C_get (now : DateTime) (k : CacheKey)
  | C_insert (now : DateTime) (k : CacheKey) (v : ApiTokenValidation)
  | C_invalidate_token (token_id : Uuid)
  | C_invalidate_user (user_id : Uuid)
  | C_drop_all.

Definition cache_step (c : PatCache) (op : CacheOp) : PatCache :=
  match op with
  | C_get now k => (cache_get now k c).1
  | C_insert now k v => cache_insert now k v c
  | C_invalidate_token id => invalidate_token id c
  | C_invalidate_user id => invalidate_user id c
  | C_drop_all => drop_all c
  end.

(** An operation that leaves the entry for [v] under [k] alone. *)
Definition spares (k : CacheKey) (v : ApiTokenValidation) (op : CacheOp) : Prop :=
  match op with
  | C_get _ _ => True
  | C_insert _ k' v' => k' ≠ k ∧ v_token_id v' ≠ v_token_id v
  | C_invalidate_token id => id ≠ v_token_id v
  | C_invalidate_user id => id ≠ v_user_id v
  | C_drop_all => False
  end.

(** Every entry is in the reverse index. *)
Definition indexed (c : PatCache) : Prop :=
  ∀ k e, entries (primary c) !! k = Some e → reverse c !! v_token_id (ce_validation e) = Some k.

(** What one operation does to the entries. *)
Definition keeps (op : CacheOp) (c c' : PatCache) : Prop :=
  ttl c' = ttl c ∧ indexed c' ∧
  ∀ k e, entries (primary c') !! k = Some e →
    entries (primary c) !! k = Some e ∧ spares k (ce_validation e) op ∨
    op = C_insert (ce_inserted_at e) k (ce_validation e).

Lemma cache_get_keeps now k c : indexed c → keeps (C_get now k) c (cache_get now k c).1.
Proof.
  intros Hc. unfold cache_get. destruct (entries (primary c) !! k) as [e|] eqn:Hk; [| by split_and!; [| | left]].
  destruct (is_stale (ttl c) now e).
  - pose proof (lru_pop_spec (primary c) k) as [He Hp]. rewrite Hk in Hp.
    destruct (lru_pop (primary c) k) as [primary' popped]. cbn in *. subst popped.
    unfold keeps, indexed. cbn. rewrite He. split_and!; [done | |].
    + intros k0 e0 [Hne Hk0]%lookup_delete_Some. rewrite lookup_delete_ne; [by apply Hc|].
      intros Heq. apply Hc in Hk, Hk0. rewrite <- Heq in Hk0. congruence.
    + intros k0 e0 [Hne Hk0]%lookup_delete_Some. by left.
  - pose proof (lru_get_spec (primary c) k) as [He _].
    destruct (lru_get (primary c) k) as [primary' found]. cbn in *.
    unfold keeps, indexed. cbn. rewrite He. split_and!; [done | done | by left].
Qed.

Lemma cache_insert_keeps now k v c : indexed c → keeps (C_insert now k v) c (cache_insert now k v c).
Proof.
  intros Hc. unfold cache_insert.
  set (primary1 := match reverse c !! v_token_id v with Some _ => _ | None => _ end).
  (* What is left of the old entries names other tokens, unless it is under the same key. *)
  assert (∀ k0 e0, entries primary1 !! k0 = Some e0 →
    entries (primary c) !! k0 = Some e0 ∧
    (k0 ≠ k → v_token_id (ce_validation e0) ≠ v_token_id v)) as Hold.
  { intros k0 e0. subst primary1. destruct (reverse c !! v_token_id v) as [old|] eqn:Hr.
    - case_bool_decide as Hok.
      + intros Hk0. split; [done|]. intros Hne Heq. apply Hc in Hk0. rewrite Heq in Hk0. congruence.
      + rewrite (proj1 (lru_pop_spec _ _)). intros [Hne Hk0]%lookup_delete_Some. split; [done|].
        intros _ Heq. apply Hc in Hk0. rewrite Heq in Hk0. congruence.
    - intros Hk0. split; [done|]. intros _ Heq. apply Hc in Hk0. rewrite Heq in Hk0. congruence. }
  pose proof (lru_push_spec primary1 k {| ce_validation := v; ce_inserted_at := now |}) as Hpush.
  destruct (lru_push primary1 k _) as [primary2 evicted]. cbn in Hpush.
  assert (∀ k0 e0, entries primary2 !! k0 = Some e0 →
    k0 = k ∧ e0 = {| ce_validation := v; ce_inserted_at := now |} ∨
    k0 ≠ k ∧ entries primary1 !! k0 = Some e0 ∧ ∀ k' e', evicted = Some (k', e') → k0 ≠ k') as Hnew.
  { intros k0 e0. destruct evicted as [[k' e']|].
    - destruct Hpush as (_ & _ & ->). intros [[<- <-] | [Hne [Hne' Hk0]%lookup_delete_Some]]%lookup_insert_Some;
        [by left | right; naive_solver].
    - destruct Hpush as [_ ->]. intros [[<- <-] | [Hne Hk0]]%lookup_insert_Some;
        [by left | right; naive_solver]. }
  unfold keeps, indexed. cbn. split_and!; [done | |].
  - intros k0 e0 [[-> ->] | (Hne & Hk0 & Hev)]%Hnew; cbn.
    + destruct evicted as [[k' e']|]; [| by rewrite lookup_insert_eq]. case_match; [| by rewrite lookup_insert_eq].
      breflect. by rewrite lookup_delete_ne, lookup_insert_eq.
    + destruct (Hold _ _ Hk0) as [Hk0' Htok]. specialize (Htok Hne).
      assert (<[v_token_id v := k]> (reverse c) !! v_token_id (ce_validation e0) = Some k0) as Hr
        by (rewrite lookup_insert_ne by done; by apply Hc).
      destruct evicted as [[k' e']|]; [| done]. case_match; [| done].
      rewrite lookup_delete_ne; [done|]. intros Heq. destruct Hpush as (Hk' & _ & _).
      apply Hold in Hk' as [Hk' _]. apply Hc in Hk'. apply Hc in Hk0'. rewrite Heq in Hk'.
      by apply (Hev k' e'); [| congruence].
  - intros k0 e0 [[-> ->] | (Hne & Hk0 & Hev)]%Hnew; [by right | left].
    destruct (Hold _ _ Hk0) as [Hk0' Htok]. split; [done|]. cbn. split; [done|].
    intros Heq. by apply (Htok Hne).
Qed.

Lemma invalidate_token_keeps id c : indexed c → keeps (C_invalidate_token id) c (invalidate_token id c).
Proof.
  intros Hc. unfold invalidate_token, keeps, indexed. destruct (reverse c !! id) as [k|] eqn:Hr; cbn.
  - rewrite (proj1 (lru_pop_spec _ _)).
    assert (∀ k0 e0, delete k (entries (primary c)) !! k0 = Some e0 →
      entries (primary c) !! k0 = Some e0 ∧ id ≠ v_token_id (ce_validation e0)) as Hleft.
    { intros k0 e0 [Hne Hk0]%lookup_delete_Some. split; [done|]. intros ->. apply Hc in Hk0. congruence. }
    split_and!; [done | |]; intros k0 e0 [Hk0 Hid]%Hleft; [| by left].
    rewrite lookup_delete_ne by done. by apply Hc.
  - split_and!; [done | done |]. intros k0 e0 Hk0. left. split; [done|]. intros ->.
    apply Hc in Hk0. congruence.
Qed.

Lemma foldl_drop_entry l c :
  let c' := foldl (λ c p, drop_entry p c) c l in
  ttl c' = ttl c ∧
  (∀ k e, entries (primary c') !! k = Some e ↔ entries (primary c) !! k = Some e ∧ k ∉ l.*1) ∧
  ∀ t, t ∉ l.*2 → reverse c' !! t = reverse c !! t.
Proof.
  revert c; induction l as [| [k0 t0] l IH]; intros c; cbn; [split_and!; set_solver|].
  destruct (IH (drop_entry (k0, t0) c)) as (Ht & He & Hr). split_and!; [by rewrite Ht | |].
  - intros k e. rewrite He. cbn. rewrite (proj1 (lru_pop_spec _ _)), lookup_delete_Some, not_elem_of_cons.
    naive_solver.
  - intros t [Hne Hl]%not_elem_of_cons. rewrite Hr by done. cbn. by rewrite lookup_delete_ne.
Qed.

Lemma invalidate_user_keeps id c : indexed c → keeps (C_invalidate_user id) c (invalidate_user id c).
Proof.
  intros Hc. unfold invalidate_user. set (l := omap _ (lru_iter (primary c))).
  assert (∀ k t, (k, t) ∈ l ↔ ∃ e, entries (primary c) !! k = Some e ∧ v_user_id (ce_validation e) = id ∧
                                   v_token_id (ce_validation e) = t) as Hl.
  { intros k t. subst l. rewrite list_elem_of_omap. split.
    - intros ([k0 e0] & Hin & He). apply lru_iter_spec in Hin. case_bool_decide; simplify_eq. eauto.
    - intros (e & He & Hu & <-). exists (k, e). rewrite lru_iter_spec, bool_decide_eq_true_2; auto. }
  destruct (foldl_drop_entry l c) as (Ht & He & Hr). unfold keeps, indexed. split_and!; [done | |].
  - intros k e [Hk Hout]%He. rewrite Hr; [by apply Hc|]. intros ([k' t] & Heq & Hin)%list_elem_of_fmap.
    cbn in Heq. subst t. pose proof Hin as (e' & He' & _ & Ht')%Hl. apply Hc in Hk, He'.
    rewrite Ht' in He'. assert (k' = k) as -> by congruence.
    apply Hout. by apply (list_elem_of_fmap_2 fst) in Hin.
  - intros k e [Hk Hout]%He. left. split; [done|]. cbn. intros Hid. apply Hout.
    change k with (k, v_token_id (ce_validation e)).1. apply list_elem_of_fmap_2, Hl. eauto.
Qed.

Lemma cache_step_keeps op c : indexed c → keeps op c (cache_step c op).
Proof.
  destruct op; cbn; auto using cache_get_keeps, cache_insert_keeps, invalidate_token_keeps, invalidate_user_keeps.
  intros _. unfold keeps, indexed. cbn. rewrite lru_clear_spec. split_and!; [done | by intros ?? ?..].
Qed.

(** Where an entry comes from: its insertion is in the history, and nothing after it
    touched the entry. *)
Definition inserted (ops : list CacheOp) (k : CacheKey) (t : DateTime) (v : ApiTokenValidation) : Prop :=
  ∃ before after, ops = before ++ [C_insert t k v] ++ after ∧ Forall (spares k v) after.

Lemma history_explains capacity d ops :
  let c := foldl cache_step (new_with_clock capacity d) ops in
  ttl c = d ∧ indexed c ∧
  ∀ k e, entries (primary c) !! k = Some e → inserted ops k (ce_inserted_at e) (ce_validation e).
Proof.
  cbv zeta. induction ops as [| op ops IH] using rev_ind.
  { cbn. split; [done|]. unfold indexed. cbn. rewrite lru_new_empty. split; by intros ?? ?. }
  rewrite foldl_snoc. destruct IH as (Ht & Hc & He).
  destruct (cache_step_keeps op _ Hc) as (Ht' & Hc' & Hkeep). split_and!; [by rewrite Ht' | done |].
  intros k e [[Hk Hs] | ->]%Hkeep.
  - destruct (He k e Hk) as (before & after & -> & Hafter). exists before, (after ++ [op]).
    rewrite <- !(assoc_L (++)). split; [done|]. apply Forall_app. by auto using Forall_singleton.
  - exists ops, []. by rewrite app_nil_r.
Qed.

(** C38. Whatever validations, revocations and sweeps the cache has seen, a hit returns
    a validation that was inserted under the same digest at most one lifetime ago (or,
    after the clock was set back, at a later reading of it), and since then neither the
    token nor its user was invalidated, the cache was not dropped, and nothing was
    inserted for the same digest or the same token. *)
Theorem cache_hits_are_fresh capacity d ops now k v :
  (cache_get now k (foldl cache_step (new_with_clock capacity d) ops)).2 = Some v →
  ∃ t before after,
    ops = before ++ [C_insert t k v] ++ after ∧ Forall (spares k v) after ∧ now ≤ Z.max t (t + d).
Proof.
  destruct (history_explains capacity d ops) as (Ht & _ & He). set (c := foldl _ _ _) in *.
  unfold cache_get. destruct (entries (primary c) !! k) as [e|] eqn:Hk; [| done].
  destruct (is_stale (ttl c) now e) eqn:Hs; [by destruct (lru_pop _ _)|].
  pose proof (lru_get_spec (primary c) k) as [_ Hg]. destruct (lru_get (primary c) k) as [c' found].
  cbn in *. rewrite Hg, Hk. intros [= <-]. destruct (He k e Hk) as (before & after & Hops & Hafter).
  exists (ce_inserted_at e), before, after. split_and!; [done..|].
  unfold is_stale, signed_duration_since in Hs. rewrite Ht in Hs.
  destruct (now - ce_inserted_at e <? 0) eqn:Hn; breflect; lia.
Qed.
End cache.
#[global] Arguments PatCache {_} : assert.
