(* ===== verification/RepositoryAccess.v ===== *)
(** Repositories (crates/hort-domain/src/entities/repository.rs), the reads of their
    table (crates/hort-adapters-postgres/src/repository_repo.rs), and the one place
    where a repository is resolved for a caller
    (crates/hort-app/src/use_cases/repository_access.rs and the member walk of
    virtual_resolution.rs).

    A use case is a [prog] over the table, one query at a time; any query may fail.
    The evaluator is the snapshot the call has loaded.  Logs are left out. *)

From coqutil Require Import Datatypes.RecordSetters.
From S2P Require Import Prelude.
From S2P Require Import RustStd.
From S2P Require Import Types.
From S2P Require Import Store.
From S2P Require Import Concurrent.
From S2P Require Import Rbac.
Import DoubleBraceUpdate.

(** ** Entities *)

Definition KNOWN_FORMATS : list (string * RepositoryFormat) :=
  [("maven", Maven); ("gradle", Gradle); ("npm", Npm); ("pypi", Pypi); ("nuget", Nuget); ("go", Go);
   ("rubygems", Rubygems); ("docker", Docker); ("oci", Oci); ("helm", Helm); ("rpm", Rpm);
   ("debian", Debian); ("conan", Conan); ("cargo", Cargo); ("generic", Generic);
   ("podman", Podman); ("buildx", Buildx); ("oras", Oras); ("wasm_oci", WasmOci);
   ("helm_oci", HelmOci); ("poetry", Poetry); ("conda", Conda); ("yarn", Yarn); ("bower", Bower);
   ("pnpm", Pnpm); ("chocolatey", Chocolatey); ("powershell", Powershell);
   ("terraform", Terraform); ("opentofu", Opentofu); ("alpine", Alpine);
   ("conda_native", CondaNative); ("composer", Composer); ("hex", Hex); ("cocoapods", Cocoapods);
   ("swift", Swift); ("pub", Pub); ("sbt", Sbt); ("chef", Chef); ("puppet", Puppet);
   ("ansible", Ansible); ("gitlfs", Gitlfs); ("vscode", Vscode); ("jetbrains", Jetbrains);
   ("huggingface", Huggingface); ("mlmodel", Mlmodel); ("cran", Cran); ("vagrant", Vagrant);
   ("opkg", Opkg); ("p2", P2); ("bazel", Bazel); ("protobuf", Protobuf); ("incus", Incus);
   ("lxc", Lxc)]%string.

#[export] Instance RepositoryFormat_display : Display RepositoryFormat := λ f,
  match f with
  | Maven => "maven" | Gradle => "gradle" | Npm => "npm" | Pypi => "pypi" | Nuget => "nuget"
  | Go => "go" | Rubygems => "rubygems" | Docker => "docker" | Oci => "oci" | Helm => "helm"
  | Rpm => "rpm" | Debian => "debian" | Conan => "conan" | Cargo => "cargo"
  | Generic => "generic" | Podman => "podman" | Buildx => "buildx" | Oras => "oras"
  | WasmOci => "wasm_oci" | HelmOci => "helm_oci" | Poetry => "poetry" | Conda => "conda"
  | Yarn => "yarn" | Bower => "bower" | Pnpm => "pnpm" | Chocolatey => "chocolatey"
  | Powershell => "powershell" | Terraform => "terraform" | Opentofu => "opentofu"
  | Alpine => "alpine" | CondaNative => "conda_native" | Composer => "composer" | Hex => "hex"
  | Cocoapods => "cocoapods" | Swift => "swift" | Pub => "pub" | Sbt => "sbt" | Chef => "chef"
  | Puppet => "puppet" | Ansible => "ansible" | Gitlfs => "gitlfs" | Vscode => "vscode"
  | Jetbrains => "jetbrains" | Huggingface => "huggingface" | Mlmodel => "mlmodel"
  | Cran => "cran" | Vagrant => "vagrant" | Opkg => "opkg" | P2 => "p2" | Bazel => "bazel"
  | Protobuf => "protobuf" | Incus => "incus" | Lxc => "lxc"
  | RF_Other name => name
  end.

Definition RepositoryFormat_from_str (s : string) : RepositoryFormat :=
  default (RF_Other (to_lowercase s)) (match_literal s KNOWN_FORMATS).

Inductive RepositoryType : Type :=
  | Hosted
  | Proxy
  | Virtual
  | Staging.

#[export] Instance RepositoryType_eq_dec : EqDecision RepositoryType.
Proof. solve_decision. Defined.

#[export] Instance RepositoryType_display : Display RepositoryType := λ t,
  match t with
  | Hosted => "hosted"
  | Proxy => "proxy"
  | Virtual => "virtual"
  | Staging => "staging"
  end.

Definition RepositoryType_from_str : string → DomainResult RepositoryType :=
  from_str "repository type"
    [("hosted", Hosted); ("proxy", Proxy); ("virtual", Virtual); ("staging", Staging)]%string.

Inductive ReplicationPriority : Type :=
  | Immediate
  | RP_Scheduled
  | OnDemand
  | LocalOnly.

#[export] Instance ReplicationPriority_display : Display ReplicationPriority := λ p,
  match p with
  | Immediate => "immediate"
  | RP_Scheduled => "scheduled"
  | OnDemand => "on_demand"
  | LocalOnly => "local_only"
  end.

Definition ReplicationPriority_from_str : string → DomainResult ReplicationPriority :=
  from_str "replication priority"
    [("immediate", Immediate); ("scheduled", RP_Scheduled); ("on_demand", OnDemand);
     ("local_only", LocalOnly)]%string.

Inductive IndexMode : Type :=
  | ReleasedOnly
  | IncludePending.

#[export] Instance IndexMode_display : Display IndexMode := λ m,
  match m with ReleasedOnly => "released_only" | IncludePending => "include_pending" end.

Definition IndexMode_from_str : string → DomainResult IndexMode :=
  from_str "index_mode"
    [("released_only", ReleasedOnly); ("include_pending", IncludePending)]%string.

Inductive PrefetchTrigger : Type :=
  | TransitiveDeps
  | PT_Scheduled
  | OnDistTagMove.

#[export] Instance PrefetchTrigger_display : Display PrefetchTrigger := λ t,
  match t with
  | TransitiveDeps => "transitive_deps"
  | PT_Scheduled => "scheduled"
  | OnDistTagMove => "on_dist_tag_move"
  end.

Definition PrefetchTrigger_from_str : string → DomainResult PrefetchTrigger :=
  from_str "prefetch_trigger"
    [("transitive_deps", TransitiveDeps); ("scheduled", PT_Scheduled);
     ("on_dist_tag_move", OnDistTagMove)]%string.

Record PrefetchPolicy : Type := {
  pp_enabled : bool;
  pp_triggers : list PrefetchTrigger;
  pp_depth : Z;
  pp_transitive_depth : Z;
  pp_max_age_days : option Z;
  pp_max_descendants : Z;
}.

Definition PrefetchPolicy_default : PrefetchPolicy :=
  {| pp_enabled := false; pp_triggers := []; pp_depth := 3; pp_transitive_depth := 5;
     pp_max_age_days := None; pp_max_descendants := 200 |}.

Record PromotionConfig : Type := {
  target_id : Uuid;
  pc_policy_id : option Uuid;
}.

Record Repository : Type := {
  repo_id : Uuid;
  repo_key : string;
  repo_name : string;
  repo_description : option string;
  repo_format : RepositoryFormat;
  repo_type : RepositoryType;
  storage_backend : string;
  storage_path : string;
  upstream_url : option string;
  index_upstream_url : option string;
  is_public : bool;
  download_audit_enabled : bool;
  quota_bytes : option Z;
  replication_priority : ReplicationPriority;
  promotion : option PromotionConfig;
  curation_rule_names : list string;
  index_mode : IndexMode;
  prefetch_policy : PrefetchPolicy;
  repo_created_at : DateTime;
  repo_updated_at : DateTime;
  repo_managed_by : ManagedBy;
  repo_managed_by_digest : option (list byte);
}.

Record PageRequest : Type := {
  offset : Z;
  limit : Z;
}.

Definition MAX_LIMIT : Z := 1000.

Definition PageRequest_new (offset limit : Z) : PageRequest :=
  {| offset := offset; limit := Z.min limit MAX_LIMIT |}.

Record Page (T : Type) : Type := {
  items : list T;
  total : Z;
}.
Arguments items {T} _.
Arguments total {T} _.

(** ** The table *)

Record RepositoryWorld : Type := {
  repositories : list Repository;
  (** [virtual_repo_members]: the virtual repository, the member, its priority. *)
  virtual_repo_members : list (Uuid * Uuid * Z);
  (** How many queries have been made. *)
  repo_calls : nat;
}.

Abbreviation query_prog := (prog RepositoryWorld AppError).

(** What PostgreSQL decides: which queries fail, how [ORDER BY] breaks ties, how text
    is compared, and how a pattern matches. *)
Class RepositoryBackend : Type := {
  repo_fault : nat → option DomainError;
  (** [NotFound] is for a missing row. *)
  repo_fault_found : ∀ n entity id, repo_fault n ≠ Some (NotFound entity id);
  order_by : (Repository → Repository → bool) → list Repository → list Repository;
  order_by_perm : ∀ le rows, order_by le rows ≡ₚ rows;
  order_by_sorted : ∀ le rows, (∀ x y, le x y = true ∨ le y x = true) → Sorted le (order_by le rows);
  collate_le : string → string → bool;
  (** [LOWER(text) LIKE pattern ESCAPE '\']. *)
  lower_like : string → string → bool;
  (** [OFFSET] or [LIMIT] below zero. *)
  negative_row_count : DomainError;
}.

Definition repo_tick (w : RepositoryWorld) : RepositoryWorld := w {{ repo_calls ::= S }}.

(** [str::replace] of one character. *)
Fixpoint replace (c : byte) (by_ s : string) : string :=
  match s with
  | EmptyString => EmptyString
  | String a s' => if decide (a = c) then by_ +:+ replace c by_ s' else String a (replace c by_ s')
  end.

(** The backslash first, then the percent sign and the underscore. *)
Definition escape_like_pattern (input : string) : string :=
  replace (byte_of_Z 95) "\_" (replace (byte_of_Z 37) "\%" (replace (byte_of_Z 92) "\\" input)).

Section access.
Context `{RepositoryBackend}.

Definition repo_query {A} (f : RepositoryWorld → DomainResult A) : query_prog (DomainResult A) :=
  port (λ w, (repo_tick w, match repo_fault (repo_calls w) with Some e => Err e | None => f w end)).

Definition repo_not_found (id : fmt) : DomainError := NotFound "Repository" id.

(** [fetch_one]: the first row, or [RowNotFound]. *)
Definition fetch_one (p : Repository → bool) (id : fmt) (w : RepositoryWorld) : DomainResult Repository :=
  match filter p (repositories w) with
  | row :: _ => Ok row
  | [] => Err (repo_not_found id)
  end.

Definition repo_find_by_id (id : Uuid) : query_prog (DomainResult Repository) :=
  repo_query (fetch_one (λ r, bool_decide (repo_id r = id)) [ArgUuid id]).

Definition repo_find_by_key (key : string) : query_prog (DomainResult Repository) :=
  repo_query (fetch_one (λ r, bool_decide (repo_key r = key)) [ArgStr key]).

Definition matches_search (search : option string) (r : Repository) : bool :=
  match search with
  | None => true
  | Some pattern =>
      lower_like pattern (repo_key r) || lower_like pattern (repo_name r) ||
      lower_like pattern (default ""%string (repo_description r))
  end.

Definition repo_list (page : PageRequest) (search : option string)
    : query_prog (DomainResult (Page Repository)) :=
  let search := (λ s, "%" +:+ escape_like_pattern (to_lowercase s) +:+ "%") <$> search in
  let offset := u64_as_i64 (offset page) in
  let limit := u64_as_i64 (limit page) in
  rows ← repo_query (λ w,
    if (offset <? 0) || (limit <? 0) then Err negative_row_count
    else Ok (take (Z.to_nat limit) (drop (Z.to_nat offset)
               (order_by (λ a b, collate_le (repo_name a) (repo_name b))
                  (filter (matches_search search) (repositories w))))));
  match rows with
  | Err e => mret (Err e)
  | Ok rows =>
      count ← repo_query (λ w, Ok (len (filter (matches_search search) (repositories w))));
      match count with
      | Err e => mret (Err e)
      | Ok count => mret (Ok {| items := rows; total := count |})
      end
  end.

Definition member_priority (w : RepositoryWorld) (virtual_repo_id : Uuid) (r : Repository) : option Z :=
  (λ m, m.2) <$> head (filter (λ m, m.1 = (virtual_repo_id, repo_id r)) (virtual_repo_members w)).

(** [NULL] sorts last; no row of the result has it. *)
Definition priority_le (a b : option Z) : bool :=
  match a, b with
  | Some a, Some b => a <=? b
  | _, None => true
  | None, Some _ => false
  end.

Definition get_virtual_members (virtual_repo_id : Uuid) : query_prog (DomainResult (list Repository)) :=
  repo_query (λ w,
    Ok (order_by (λ a b, priority_le (member_priority w virtual_repo_id a)
                           (member_priority w virtual_repo_id b))
          (filter (λ r, is_some (member_priority w virtual_repo_id r)) (repositories w)))).

(** ** The use case *)

Inductive AccessLevel : Type :=
  | AL_Read
  | AL_Write.

Inductive AuthorityBasis : Type :=
  | CapIntersected
  | GrantedOnly.

Inductive RbacAccess : Type :=
  | RA_Disabled
  | RA_Enabled (rbac : RbacEvaluator).

Definition load_by_key (key : string) : query_prog Repository :=
  r ← repo_find_by_key key;
  match r with
  | Ok repo => mret repo
  | Err (NotFound _ _) => Done (Err (AE_Domain (repo_not_found [ArgStr key])))
  | Err other => Done (Err (AE_Domain other))
  end.

Definition allows (basis : AuthorityBasis) (rbac : RbacEvaluator) (repo : Repository)
    (p : CallerPrincipal) (permission : Permission) : bool :=
  match basis with
  | CapIntersected => authorize rbac p permission (Some (repo_id repo))
  | GrantedOnly => authorize_granted rbac p permission (Some (repo_id repo))
  end.

Definition by_actor (actor : option CallerPrincipal) (f : CallerPrincipal → bool) : bool :=
  match actor with Some p => f p | None => false end.

Definition write_denied (repo : Repository) : DomainError :=
  Forbidden [Lit "write permission denied for repository "; ArgStr (repo_key repo)].

Definition enforce (auth : RbacAccess) (repo : Repository) (actor : option CallerPrincipal)
    (level : AccessLevel) (basis : AuthorityBasis) : AppResult Repository :=
  match auth with
  | RA_Disabled => Ok repo
  | RA_Enabled rbac =>
      let can_read := is_public repo || by_actor actor (λ p, allows basis rbac repo p Read) in
      match level with
      | AL_Read =>
          if can_read then Ok repo else Err (AE_Domain (repo_not_found [ArgStr (repo_key repo)]))
      | AL_Write =>
          let can_write := by_actor actor (λ p, allows basis rbac repo p Write) in
          if can_write then Ok repo
          else if can_read then Err (AE_Domain (write_denied repo))
          else Err (AE_Domain (repo_not_found [ArgStr (repo_key repo)]))
      end
  end.

Definition resolve_key (auth : RbacAccess) (key : string) (actor : option CallerPrincipal)
    (level : AccessLevel) : query_prog Repository :=
  repo ← load_by_key key; Done (enforce auth repo actor level CapIntersected).

Definition resolve_granted_write (auth : RbacAccess) (key : string) (actor : option CallerPrincipal)
    : query_prog Repository :=
  repo ← load_by_key key; Done (enforce auth repo actor AL_Write GrantedOnly).

Definition resolve_by_id (auth : RbacAccess) (id : Uuid) (actor : option CallerPrincipal)
    (level : AccessLevel) : query_prog Repository :=
  r ← repo_find_by_id id;
  match r with
  | Ok repo => Done (enforce auth repo actor level CapIntersected)
  | Err (NotFound _ _) => Done (Err (AE_Domain (repo_not_found [ArgUuid id])))
  | Err other => Done (Err (AE_Domain other))
  end.

Definition can_see (auth : RbacAccess) (repo : Repository) (actor : option CallerPrincipal) : bool :=
  if is_public repo then true
  else
    match auth, actor with
    | RA_Disabled, _ => true
    | RA_Enabled _, None => false
    | RA_Enabled rbac, Some p => authorize rbac p Read (Some (repo_id repo))
    end.

Definition list_visible (auth : RbacAccess) (actor : option CallerPrincipal) (page : PageRequest)
    : query_prog (Page Repository) :=
  raw ← repo_list page None;
  match raw with
  | Err e => Done (Err (AE_Domain e))
  | Ok raw =>
      mret {| items := filter (λ r, can_see auth r actor) (items raw); total := total raw |}
  end.

(** *** The route [GET /api/v1/repositories] (hort-http-discovery) *)

Definition MAX_REPOSITORIES : Z := 1000.

Record RepoSummaryDto : Type := {
  rs_key : string;
  rs_format : string;
  rs_kind : string;
}.

Definition repo_summary (r : Repository) : RepoSummaryDto :=
  {| rs_key := repo_key r; rs_format := display (repo_format r); rs_kind := display (repo_type r) |}.

(** The answer has no total, which would count hidden repositories. *)
Definition list_repositories (auth : RbacAccess) (caller : option CallerPrincipal)
    : query_prog (list RepoSummaryDto) :=
  visible ← list_visible auth caller (PageRequest_new 0 MAX_REPOSITORIES);
  mret (repo_summary <$> items visible).

Definition find_by_key_unchecked (key : string) : query_prog (option Repository) :=
  r ← repo_find_by_key key;
  match r with
  | Ok repo => mret (Some repo)
  | Err (NotFound _ _) => mret None
  | Err other => Done (Err (AE_Domain other))
  end.

Definition find_repo_id_by_key_unchecked (key : string) : query_prog (option Uuid) :=
  r ← repo_find_by_key key;
  match r with
  | Ok repo => mret (Some (repo_id repo))
  | Err (NotFound _ _) => mret None
  | Err other => Done (Err (AE_Domain other))
  end.

(** *** Virtual repositories *)

Fixpoint visible_members (auth : RbacAccess) (caller : option CallerPrincipal)
    (members visible : list Repository) : query_prog (list Repository) :=
  match members with
  | [] => mret visible
  | member :: members' =>
      if bool_decide (repo_type member = Virtual) then visible_members auth caller members' visible
      else
        r ← attempt (resolve_by_id auth (repo_id member) caller AL_Read);
        match r with
        | Ok resolved => visible_members auth caller members' (visible ++ [resolved])
        | Err (AE_Domain (NotFound _ _)) => visible_members auth caller members' visible
        | Err other => Done (Err other)
        end
  end.

Definition resolve_members (auth : RbacAccess) (virtual_repo : Repository)
    (caller : option CallerPrincipal) : query_prog (list Repository) :=
  members ← get_virtual_members (repo_id virtual_repo);
  match members with
  | Err e => Done (Err (AE_Domain e))
  | Ok members => visible_members auth caller members []
  end.
End access.

(** ** Wire forms *)

(** A known format is written in the form it is read back from, and no other. *)
Lemma format_roundtrip f :
  (∀ name, f = RF_Other name → name = to_lowercase name ∧ match_literal name KNOWN_FORMATS = None) →
  RepositoryFormat_from_str (display f) = f.
Proof.
  intros Hother. destruct f; try reflexivity. destruct (Hother _ eq_refl) as [Hl Hn].
  unfold RepositoryFormat_from_str, display, RepositoryFormat_display. rewrite Hn. cbn [default].
  by rewrite <- Hl.
Qed.

Lemma repository_type_roundtrip x : RepositoryType_from_str (display x) = Ok x.
Proof. by destruct x. Qed.
Lemma replication_priority_roundtrip x : ReplicationPriority_from_str (display x) = Ok x.
Proof. by destruct x. Qed.
Lemma index_mode_roundtrip x : IndexMode_from_str (display x) = Ok x.
Proof. by destruct x. Qed.
Lemma prefetch_trigger_roundtrip x : PrefetchTrigger_from_str (display x) = Ok x.
Proof. by destruct x. Qed.

(** ** Visibility *)

Section visibility.
Context `{RepositoryBackend} (auth : RbacAccess) (actor : option CallerPrincipal).

(** The caller may write to the repository. *)
Definition can_write (repo : Repository) : bool :=
  match auth with
  | RA_Disabled => true
  | RA_Enabled rbac => by_actor actor (λ p, authorize rbac p Write (Some (repo_id repo)))
  end.

(** The repository exists for the caller. *)
Definition in_reach (repo : Repository) : bool := can_see auth repo actor || can_write repo.

Lemma enforce_spec repo level :
  enforce auth repo actor level CapIntersected =
  match level with
  | AL_Read =>
      if can_see auth repo actor then Ok repo
      else Err (AE_Domain (repo_not_found [ArgStr (repo_key repo)]))
  | AL_Write =>
      if can_write repo then Ok repo
      else if can_see auth repo actor then Err (AE_Domain (write_denied repo))
      else Err (AE_Domain (repo_not_found [ArgStr (repo_key repo)]))
  end.
Proof.
  unfold enforce, can_see, can_write, allows, by_actor.
  destruct auth, level, (is_public repo), actor; done.
Qed.

(** Out of reach, a repository is denied as if its key were not taken. *)
Lemma enforce_out_of_reach repo level :
  in_reach repo = false →
  enforce auth repo actor level CapIntersected =
  Err (AE_Domain (repo_not_found [ArgStr (repo_key repo)])).
Proof.
  unfold in_reach. intros [Hs Hw]%orb_false_iff. rewrite enforce_spec, Hs, Hw. by destruct level.
Qed.

Lemma run_resolve_key w key level :
  (run (resolve_key auth key actor level) w).2 =
  match repo_fault (repo_calls w) with
  | Some (NotFound _ _) => Err (AE_Domain (repo_not_found [ArgStr key]))
  | Some e => Err (AE_Domain e)
  | None =>
      match filter (λ r, bool_decide (repo_key r = key)) (repositories w) with
      | repo :: _ => enforce auth repo actor level CapIntersected
      | [] => Err (AE_Domain (repo_not_found [ArgStr key]))
      end
  end.
Proof.
  cbn. unfold fetch_one. destruct (repo_fault _) as [[]|]; try done. by destruct (filter _ _).
Qed.

Lemma run_list_visible w page :
  (run (list_visible auth actor page) w).2 =
  match repo_fault (repo_calls w) with
  | Some e => Err (AE_Domain e)
  | None =>
      if (u64_as_i64 (offset page) <? 0) || (u64_as_i64 (limit page) <? 0)
      then Err (AE_Domain negative_row_count)
      else
        match repo_fault (S (repo_calls w)) with
        | Some e => Err (AE_Domain e)
        | None =>
            Ok {| items := filter (λ r, can_see auth r actor)
                             (take (Z.to_nat (u64_as_i64 (limit page)))
                                (drop (Z.to_nat (u64_as_i64 (offset page)))
                                   (order_by (λ a b, collate_le (repo_name a) (repo_name b))
                                      (filter (matches_search None) (repositories w)))));
                  total := len (filter (matches_search None) (repositories w)) |}
        end
  end.
Proof.
  cbn. destruct (repo_fault (repo_calls w)); [done|]. cbn.
  destruct (_ || _); [done|]. cbn. by destruct (repo_fault (S _)).
Qed.

Lemma run_list_repositories w :
  (run (list_repositories auth actor) w).2 =
  match (run (list_visible auth actor (PageRequest_new 0 MAX_REPOSITORIES)) w).2 with
  | Ok visible => Ok (repo_summary <$> items visible)
  | Err e => Err e
  end.
Proof.
  unfold list_repositories. rewrite run_bind. by destruct (run (list_visible _ _ _) w) as [w' []].
Qed.
End visibility.

(** *** Non-interference *)

Section non_interference.
Context `{RepositoryBackend} (auth : RbacAccess) (actor : option CallerPrincipal).

(** The [UNIQUE] constraint on [repositories.key]. *)
Definition unique_keys (w : RepositoryWorld) : Prop := NoDup (repo_key <$> repositories w).

Lemma unique_key_head w r :
  unique_keys w → r ∈ repositories w →
  ∃ rest, filter (λ r', bool_decide (repo_key r' = repo_key r)) (repositories w) = r :: rest.
Proof.
  unfold unique_keys. induction (repositories w) as [|r' rows IH]; intros Hnd Hr; [by apply not_elem_of_nil in Hr|].
  apply NoDup_cons in Hnd as [Hnew Hnd]. rewrite filter_cons. apply elem_of_cons in Hr as [<- | Hr].
  - rewrite decide_True by (by apply bool_decide_pack). eauto.
  - rewrite decide_False; [auto|]. intros Heq%bool_decide_unpack. apply Hnew. rewrite Heq.
    by apply list_elem_of_fmap_2.
Qed.

(** Two tables the caller cannot tell apart: they hold the same repositories in the
    caller's reach. *)
Record same_view (w1 w2 : RepositoryWorld) : Prop := {
  sv_calls : repo_calls w1 = repo_calls w2;
  sv_unique1 : unique_keys w1;
  sv_unique2 : unique_keys w2;
  sv_rows : filter (in_reach auth actor) (repositories w1) ≡ₚ filter (in_reach auth actor) (repositories w2);
}.

Lemma same_view_sym w1 w2 : same_view w1 w2 → same_view w2 w1.
Proof. by intros []; split. Qed.

Lemma same_view_row w1 w2 r :
  same_view w1 w2 → r ∈ repositories w1 → in_reach auth actor r = true → r ∈ repositories w2.
Proof.
  intros Hs Hr Hin.
  assert (Hf : r ∈ filter (in_reach auth actor) (repositories w1))
    by (apply list_elem_of_filter; split; [by apply Is_true_true | done]).
  rewrite (sv_rows _ _ Hs) in Hf. by apply list_elem_of_filter in Hf as [_ Hf].
Qed.

(** What a key resolves to depends on the repositories in reach alone. *)
Lemma enforce_same_view w1 w2 key level :
  same_view w1 w2 →
  let by_key w := filter (λ r, bool_decide (repo_key r = key)) (repositories w) in
  let answer rows :=
    match rows with
    | repo :: _ => enforce auth repo actor level CapIntersected
    | [] => Err (AE_Domain (repo_not_found [ArgStr key]))
    end in
  answer (by_key w1) = answer (by_key w2).
Proof.
  intros Hs by_key answer.
  assert (Hhead : ∀ w r rest, by_key w = r :: rest → r ∈ repositories w ∧ repo_key r = key).
  { intros w r rest Hb. assert (Hr : r ∈ by_key w) by (rewrite Hb; left).
    apply list_elem_of_filter in Hr as [Hk%bool_decide_unpack Hr]. done. }
  assert (Hmiss : ∀ w, (∀ r, r ∈ repositories w → repo_key r = key → in_reach auth actor r = false) →
    answer (by_key w) = Err (AE_Domain (repo_not_found [ArgStr key]))).
  { intros w Hw. destruct (by_key w) as [|r rest] eqn:Hb; [done|].
    destruct (Hhead _ _ _ Hb) as [Hr Hk]. cbn. rewrite enforce_out_of_reach by auto. by rewrite Hk. }
  assert (Hhit : ∀ w r, unique_keys w → r ∈ repositories w → repo_key r = key →
    answer (by_key w) = enforce auth r actor level CapIntersected).
  { intros w r Hu Hr Hk. destruct (unique_key_head w r Hu Hr) as [rest Hf].
    unfold by_key. by rewrite <- Hk, Hf. }
  destruct (decide (Exists (λ r, repo_key r = key ∧ in_reach auth actor r = true) (repositories w1)))
    as [(r & Hr & Hk & Hin)%Exists_exists | Hno].
  - rewrite (Hhit w1 r), (Hhit w2 r); try apply Hs; eauto using same_view_row.
  - rewrite !Hmiss; [done| |]; intros r Hr Hk; apply not_true_iff_false; intros Hin;
      apply Hno, Exists_exists; exists r; eauto using same_view_row, same_view_sym.
Qed.

Lemma filter_no_search (rows : list Repository) : filter (matches_search None) rows = rows.
Proof. induction rows as [|r rows IH]; [done|]. by rewrite filter_cons_True, IH. Qed.

(** The page reaches every row. *)
Definition covers (page : PageRequest) (w : RepositoryWorld) : Prop :=
  offset page = 0 ∧ len (repositories w) ≤ limit page ≤ i64_MAX.

Lemma covering_page page w :
  covers page w →
  take (Z.to_nat (u64_as_i64 (limit page)))
    (drop (Z.to_nat (u64_as_i64 (offset page)))
       (order_by (λ a b, collate_le (repo_name a) (repo_name b))
          (filter (matches_search None) (repositories w)))) ≡ₚ repositories w.
Proof.
  intros [-> Hl]. unfold u64_as_i64. rewrite (proj2 (Z.leb_le (limit page) _)) by lia. cbn.
  rewrite drop_0, filter_no_search, take_ge; [apply order_by_perm|].
  rewrite order_by_perm. unfold len in Hl. lia.
Qed.

Lemma listing_covers w :
  len (repositories w) ≤ MAX_REPOSITORIES → covers (PageRequest_new 0 MAX_REPOSITORIES) w.
Proof. intros Hl. split; [done|]. cbn. unfold MAX_REPOSITORIES, MAX_LIMIT, i64_MAX in *. lia. Qed.

(** Two answers of the listing with the same summaries, whose order is the database's for
    repositories of one name, or the same error. *)
Definition same_listing (r1 r2 : AppResult (list RepoSummaryDto)) : Prop :=
  match r1, r2 with
  | Ok l1, Ok l2 => l1 ≡ₚ l2
  | Err e1, Err e2 => e1 = e2
  | _, _ => False
  end.

Lemma filter_within (p q : Repository → bool) (rows : list Repository) :
  (∀ r, p r = true → q r = true) → filter p (filter q rows) = filter p rows.
Proof.
  intros Hpq. rewrite list_filter_filter_l; [done|]. intros r Hp. apply Is_true_true, Hpq.
  by apply Is_true_true.
Qed.

Lemma visible_same_view w1 w2 :
  same_view w1 w2 →
  filter (λ r, can_see auth r actor) (repositories w1) ≡ₚ filter (λ r, can_see auth r actor) (repositories w2).
Proof.
  intros Hs.
  rewrite <- (filter_within _ (in_reach auth actor) (repositories w1)),
          <- (filter_within _ (in_reach auth actor) (repositories w2)), (sv_rows _ _ Hs); [done| |];
    intros r Hr; unfold in_reach; by rewrite Hr.
Qed.

(** C16. Hidden repositories look missing: two tables that hold the same repositories in
    the reach of a caller give that caller the same answers.  A key resolves to the same
    repository or to the same error, for reads and for writes, and the list of
    repositories, which shows up to a thousand rows, is the same as long as both tables fit
    in it.  The queries may fail. *)
Theorem hidden_repositories_look_missing w1 w2 :
  same_view w1 w2 →
  (∀ key level, (run (resolve_key auth key actor level) w1).2 = (run (resolve_key auth key actor level) w2).2) ∧
  (len (repositories w1) ≤ MAX_REPOSITORIES → len (repositories w2) ≤ MAX_REPOSITORIES →
     same_listing (run (list_repositories auth actor) w1).2 (run (list_repositories auth actor) w2).2).
Proof.
  intros Hs. split.
  - intros key level. rewrite !run_resolve_key, (sv_calls _ _ Hs).
    destruct (repo_fault _); [done|]. by apply enforce_same_view.
  - intros H1%listing_covers H2%listing_covers. rewrite !run_list_repositories, !run_list_visible, (sv_calls _ _ Hs).
    destruct (repo_fault (repo_calls w2)); [done|]. destruct (_ || _); [done|].
    destruct (repo_fault (S (repo_calls w2))); [done|]. cbn [same_listing items].
    rewrite (covering_page _ _ H1), (covering_page _ _ H2). by apply fmap_Permutation, visible_same_view.
Qed.
End non_interference.

(** *** Members of a virtual repository *)

Section members.
Context `{RepositoryBackend} (auth : RbacAccess) (caller : option CallerPrincipal).

Lemma unique_id_head w r :
  NoDup (repo_id <$> repositories w) → r ∈ repositories w →
  fetch_one (λ r', bool_decide (repo_id r' = repo_id r)) [ArgUuid (repo_id r)] w = Ok r.
Proof.
  unfold fetch_one. induction (repositories w) as [|r' rows IH]; intros Hnd Hr; [by apply not_elem_of_nil in Hr|].
  apply NoDup_cons in Hnd as [Hnew Hnd]. rewrite filter_cons. apply elem_of_cons in Hr as [<- | Hr].
  - by rewrite decide_True by (by apply bool_decide_pack).
  - rewrite decide_False; [auto|]. intros Heq%bool_decide_unpack. apply Hnew. rewrite Heq.
    by apply list_elem_of_fmap_2.
Qed.

Definition shown (m : Repository) : bool :=
  negb (bool_decide (repo_type m = Virtual)) && can_see auth m caller.

Lemma filter_shown_cons m members :
  filter shown (m :: members) = (if shown m then [m] else []) ++ filter shown members.
Proof. rewrite filter_cons. case_decide as Hd; destruct (shown m); done. Qed.

Lemma visible_members_ok members : ∀ visible w w' rs,
  NoDup (repo_id <$> repositories w) → Forall (.∈ repositories w) members →
  run (visible_members auth caller members visible) w = (w', Ok rs) →
  rs = visible ++ filter shown members.
Proof.
  induction members as [|m members IH]; intros visible w w' rs Hnd Hall; cbn [visible_members].
  { intros [= _ <-]. by rewrite app_nil_r. }
  apply Forall_cons in Hall as [Hm Hall]. rewrite filter_shown_cons. unfold shown at 1.
  destruct (bool_decide (repo_type m = Virtual)); [by apply IH|].
  rewrite run_bind, run_attempt. cbn. destruct (repo_fault (repo_calls w)) as [e|] eqn:Hf.
  { destruct e; cbn; try discriminate. by apply repo_fault_found in Hf. }
  rewrite (unique_id_head _ _ Hnd Hm). cbn. rewrite enforce_spec.
  destruct (can_see auth m caller); cbn; intros Hrun.
  - apply IH in Hrun; [|done..]. by rewrite Hrun, <- app_assoc.
  - by apply IH in Hrun.
Qed.

(** A virtual repository serves the members the caller can see, in their order of
    priority, and no virtual one. *)
Theorem members_are_the_visible_ones virtual_repo w w' rs :
  NoDup (repo_id <$> repositories w) →
  run (resolve_members auth virtual_repo caller) w = (w', Ok rs) →
  ∃ members,
    (run (get_virtual_members (repo_id virtual_repo)) w).2 = Ok (Ok members) ∧
    rs = filter shown members.
Proof.
  intros Hnd. cbn. destruct (repo_fault (repo_calls w)); [done|]. intros Hrun.
  eexists; split; [done|]. eapply (visible_members_ok _ []); [| | exact Hrun]; [done|].
  apply Forall_forall. intros r Hr. cbn. rewrite order_by_perm in Hr.
  by apply list_elem_of_filter in Hr as [_ Hr].
Qed.
End members.
