(* ===== verification/Tokens.v ===== *)
(** Native tokens: users and token rows (crates/hort-domain/src/entities/user.rs,
    entities/api_token.rs, events/api_token_events.rs), their tables
    (crates/hort-adapters-postgres/src/api_token_repo.rs, user_repo.rs,
    replay_guard_repo.rs), the short-lived store
    (crates/hort-domain/src/ports/ephemeral_store.rs), and the use case that issues and
    revokes tokens (crates/hort-app/src/use_cases/api_token_use_case.rs).

    The state is an [AuthWorld]; a handler is a [prog] over it, one port call at a time.
    Reading the clock, drawing random bytes and hashing count as calls, so time passes
    between them.  A panic ends the handler with [Panicked].  The replay guard records
    which handler made a claim; the code does not.  Logs and metrics are left out. *)

From coqutil Require Import Datatypes.RecordSetters.
From S2P Require Import Prelude.
From S2P Require Import RustStd.
From S2P Require Import Types.
From S2P Require Import Store.
From S2P Require Import Concurrent.
From S2P Require Import Rbac.
From S2P Require Import TokenCache.
From S2P Require Import RepositoryAccess.
Import DoubleBraceUpdate.

(** ** Data *)

Inductive AuthProvider : Type :=
  | AP_Local
  | AP_Ldap
  | AP_Saml
  | AP_Oidc.

#[export] Instance AuthProvider_eq_dec : EqDecision AuthProvider.
Proof. solve_decision. Defined.

Record User : Type := {
  u_id : Uuid;
  u_username : string;
  u_email : string;
  u_auth_provider : AuthProvider;
  u_external_id : option string;
  u_display_name : option string;
  u_is_active : bool;
  u_is_admin : bool;
  u_is_service_account : bool;
  u_last_login_at : option DateTime;
  u_created_at : DateTime;
  u_updated_at : DateTime;
}.

Record ApiToken : Type := {
  t_id : Uuid;
  t_user_id : Uuid;
  t_name : string;
  t_description : option string;
  t_kind : TokenKind;
  t_token_hash : string;
  t_token_prefix : string;
  t_declared_permissions : list Permission;
  t_repository_ids : option (list Uuid);
  t_expires_at : option DateTime;
  t_revoked_at : option DateTime;
  t_last_used_at : option DateTime;
  t_last_used_ip : option string;
  t_last_used_user_agent : option string;
  t_created_by_user_id : Uuid;
  t_created_at : DateTime;
}.

Inductive RevokeReason : Type :=
  | OperatorRequest
  | AdminBulk.

Inductive DenialReason : Type :=
  | DR_CapExceedsAuthority
  | DR_ServiceAccountSelfMint
  | DR_AdminTokenDisallowed
  | DR_UnboundedSvcTokenDisallowed
  | DR_InvalidRepositorySet
  | DR_AdminTokenExceedsThirtyDays
  | DR_NotServiceAccount
  | DR_BootstrapAdminMintForbidden.

Record ApiTokenIssued : Type := {
  is_token_id : Uuid;
  is_user_id : Uuid;
  is_kind : TokenKind;
  is_declared_permissions : list Permission;
  is_repository_ids : option (list Uuid);
  is_expires_at : option DateTime;
  minted_by_admin_id : option Uuid;
  is_at : DateTime;
  source_issuer : option string;
  source_jti : option string;
  source_sub : option string;
}.

Record ApiTokenRevoked : Type := {
  rv_token_id : Uuid;
  rv_user_id : Uuid;
  revoked_by_admin_id : option Uuid;
  rv_reason : RevokeReason;
  rv_at : DateTime;
}.

Record ApiTokenIssuanceDenied : Type := {
  target_user_id : Uuid;
  requested_kind : TokenKind;
  requested_permissions : list Permission;
  requested_repository_ids : option (list Uuid);
  dn_reason : DenialReason;
  dn_at : DateTime;
}.

Inductive TokenEvent : Type :=
  | TE_Issued (e : ApiTokenIssued)
  | TE_Revoked (e : ApiTokenRevoked)
  | TE_IssuanceDenied (e : ApiTokenIssuanceDenied).

(** [None] is the system actor. *)
Abbreviation TokenActor := (option Uuid).

Inductive ReplayKey : Type :=
  | RK_Jti (issuer_name jti : string)
  | RK_Composite (issuer_name iss sub : string) (iat exp : Z).

#[export] Instance ReplayKey_eq_dec : EqDecision ReplayKey.
Proof. solve_decision. Defined.
#[export] Instance ReplayKey_countable : Countable ReplayKey.
Proof.
  refine (inj_countable'
    (λ k, match k with
          | RK_Jti i j => inl (i, j)
          | RK_Composite i s u a e => inr (i, s, u, a, e)
          end)
    (λ x, match x with
          | inl (i, j) => RK_Jti i j
          | inr (i, s, u, a, e) => RK_Composite i s u a e
          end) _).
  by intros [].
Defined.

Inductive ReplayClaim : Type :=
  | FirstSeen
  | Replayed.

(** The keys of the short-lived store that tokens use: [cli-session-revoked:],
    [cli-session-cutoff:], [pat-attempt-counter:] and [pat-attempt:]. *)
Inductive EphemeralKey : Type :=
  | EK_SessionRevoked (jti : Uuid)
  | EK_SessionCutoff (user_id : Uuid)
  | EK_AttemptCounter (bucket : string)
  | EK_AttemptFlag (bucket : string).

#[export] Instance EphemeralKey_eq_dec : EqDecision EphemeralKey.
Proof. solve_decision. Defined.
#[export] Instance EphemeralKey_countable : Countable EphemeralKey.
Proof.
  refine (inj_countable'
    (λ k, match k with
          | EK_SessionRevoked j => inl (inl j)
          | EK_SessionCutoff u => inl (inr u)
          | EK_AttemptCounter b => inr (inl b)
          | EK_AttemptFlag b => inr (inr b)
          end)
    (λ x, match x with
          | inl (inl j) => EK_SessionRevoked j
          | inl (inr u) => EK_SessionCutoff u
          | inr (inl b) => EK_AttemptCounter b
          | inr (inr b) => EK_AttemptFlag b
          end) _).
  by intros [].
Defined.

(** What is stored under a key: the mark [1], the decimal seconds of a cutoff, or the
    eight bytes of a counter. *)
Inductive EphemeralValue : Type :=
  | EV_Mark
  | EV_Seconds (secs : Z)
  | EV_Count (n : Z).

(** The payload of a [NOTIFY api_token_revocation]. *)
Inductive RevocationNotice : Type :=
  | RN_Token (token_id : Uuid)
  | RN_User (user_id : Uuid).

Record ApiTokenIssuanceConfig : Type := {
  allow_admin_tokens : bool;
  allow_unbounded_svc_tokens : bool;
}.

Record FederationSource : Type := {
  fs_issuer : string;
  fs_jti : option string;
  fs_subject : string;
  fs_iss : string;
  fs_iat : option Z;
  fs_exp : Z;
  fs_require_jti : bool;
}.

Record IssueTokenRequest : Type := {
  rq_name : string;
  rq_description : option string;
  rq_declared_permissions : list Permission;
  rq_repository_ids : option (list Uuid);
  rq_expires_in_days : option Z;
  rq_expires_in_seconds : option Z;
  rq_federation_source : option FederationSource;
}.

Record IssueCliSessionRequest : Type := {
  client_name : option string;
  source_ip : string;
  requested_scope : list Permission;
  requested_lifetime_secs : option Z;
}.

Record IssuedToken : Type := {
  it_id : Uuid;
  it_name : string;
  it_kind : TokenKind;
  it_plaintext : string;
  it_expires_at : option DateTime;
}.

Record CliSessionCutoff : Type := {
  cut_user_id : Uuid;
  cut_at : DateTime;
  cut_expires_at : DateTime;
}.

Inductive ApiTokenError : Type :=
  | CapExceedsAuthority (failed : list (option Uuid * Permission))
  | ServiceAccountSelfMint
  | BootstrapAdminMintForbidden
  | AdminTokenDisallowed
  | AdminAuthorityRequired
  | AdminTokenExceedsThirtyDays
  | AdminTokenUnboundedNotAllowed
  | UnboundedSvcTokenDisallowed
  | InvalidRepositorySet
  | NotServiceAccount
  | NotAuthorized
  | TokenNotFound
  | NameEmpty
  | NameTooLong
  | DescriptionTooLong
  | ExpiryZero
  | ExpiryTooLong
  | LifetimeBelowMinimum
  | ExpiryUnitConflict
  | ReplayDetected (composite : bool)
  | ReplayGuardUnavailable
  | JtiRequired
  | TokenContended
  | Infrastructure (e : DomainError)
  | Panicked.

Definition MAX_DESCRIPTION_LEN : Z := 1024.
Definition MAX_NAME_LEN : Z := 255.
Definition DEFAULT_PAT_EXPIRY_DAYS : Z := 90.
Definition DEFAULT_SVC_EXPIRY_DAYS : Z := 365.
Definition MAX_EXPIRY_DAYS : Z := 365.
Definition MAX_ADMIN_EXPIRY_DAYS : Z := 30.
Definition MAX_BOOTSTRAP_ADMIN_LIFETIME_SECS : Z := 3600.
Definition BOOTSTRAP_ADMIN_USERNAME : string := "bootstrap-admin".
Definition MIN_CLI_SESSION_LIFETIME_SECS : Z := 300.
Definition MAX_ADMIN_CLI_SESSION_LIFETIME_SECS : Z := 900.
Definition MAX_NON_ADMIN_CLI_SESSION_LIFETIME_SECS : Z := 900.
Definition DEFAULT_CLI_SESSION_LIFETIME_SECS : Z := 900.
Definition TOKEN_PREFIX_LEN : nat := 8.
Definition BASE32_ALPHABET : string := "abcdefghijklmnopqrstuvwxyz234567".
Definition EVENT_APPEND_RETRY_ATTEMPTS : nat := 5.

(** ** State *)

Section world.
Context {L : Lru CacheKey CachedEntry}.

Record AuthWorld : Type := {
  users : gmap Uuid User;
  tokens : gmap Uuid ApiToken;
  (** The stream of each user. *)
  user_streams : gmap Uuid (list (TokenActor * TokenEvent));
  (** The evaluator in force, and those that were. *)
  rbac : RbacEvaluator;
  past_rbac : list RbacEvaluator;
  (** [jwt_replay_seen]: the row's horizon, and the handler that made the claim. *)
  replay_seen : gmap ReplayKey (DateTime * nat);
  (** The short-lived store: the value of a key and when it lapses. *)
  ephemeral : gmap EphemeralKey (EphemeralValue * DateTime);
  (** Notices sent and not yet delivered. *)
  notices : list RevocationNotice;
  pat_cache : PatCache;
  (** How many calls have been made. *)
  auth_calls : nat;
}.

Definition auth_tick (w : AuthWorld) : AuthWorld := w {{ auth_calls ::= S }}.
End world.

(** What is not under the repository's control: which calls fail, the clock, random
    bytes and ids, argon2, and the row a [LIMIT 1] returns. *)
Class TokenBackend : Type := {
  auth_fault : nat → option DomainError;
  clock : nat → DateTime;
  clock_mono : ∀ n m, (n ≤ m)%nat → clock n ≤ clock m;
  clock_in_range : ∀ n, in_range (clock n);
  random_bytes : nat → list byte;
  random_bytes_len : ∀ n, length (random_bytes n) = 20%nat;
  new_uuid : nat → Uuid;
  hash_token : nat → string → result fmt string;
  verify_token : string → string → bool;
  hash_verifies : ∀ n plaintext hash,
    hash_token n plaintext = Ok hash → verify_token plaintext hash = true;
  pick_row : list ApiToken → option ApiToken;
  pick_row_spec : ∀ rows, match pick_row rows with Some row => row ∈ rows | None => rows = [] end;
}.

(** The claims of a session on the wire: times in whole seconds. *)
Record SessionWire : Type := {
  s_iss : string;
  s_sub : Uuid;
  s_aud : string;
  s_exp : Z;
  s_iat : option Z;
  s_jti : Uuid;
  s_token_kind : string;
  s_claims : list string;
}.

Inductive JwtErrorKind : Type :=
  | ExpiredSignature
  | JE_InvalidAudience
  | JE_InvalidSignature
  | JE_Other (message : string).

(** The [jsonwebtoken] crate under Ed25519 keys.  A token that was signed decodes to the
    claims it was signed with, unless [exp] lies before the second [now] or the audience
    is another one. *)
Class Jwt : Type := {
  SigningKey : Type;
  jwt_encode : SigningKey → SessionWire → result string string;
  jwt_decode : SigningKey → Z → string → string → result JwtErrorKind SessionWire;
  jwt_roundtrip : ∀ key claims jwt now aud,
    jwt_encode key claims = Ok jwt →
    jwt_decode key now aud jwt =
    if s_exp claims <? now then Err ExpiredSignature
    else if bool_decide (s_aud claims = aud) then Ok claims else Err JE_InvalidAudience;
  (** Three parts with dots between them. *)
  jwt_dotted : ∀ key claims jwt, jwt_encode key claims = Ok jwt → byte_of_Z 46 ∈ as_bytes jwt;
}.

Section ports.
Context {L : Lru CacheKey CachedEntry} `{TokenBackend}.

Abbreviation auth := (prog AuthWorld).

(** ** Calls *)

(** The time of the next call. *)
Definition time (w : AuthWorld) : DateTime := clock (auth_calls w).

Definition ask {E A} (f : AuthWorld → A) : auth E A := port (λ w, (auth_tick w, f w)).

Definition fallible {E A} (f : AuthWorld → AuthWorld * DomainResult A) : auth E (DomainResult A) :=
  port (λ w, match auth_fault (auth_calls w) with
             | Some e => (auth_tick w, Err e)
             | None => let '(w', r) := f w in (auth_tick w', r)
             end).

Definition utc_now {E} : auth E DateTime := ask time.

Definition new_v4 {E} : auth E Uuid := ask (λ w, new_uuid (auth_calls w)).

(** *** Tables *)

Definition user_not_found (id : Uuid) : DomainError := NotFound "User" [ArgUuid id].

Definition user_find_by_id {E} (id : Uuid) : auth E (DomainResult User) :=
  fallible (λ w, (w, match users w !! id with Some u => Ok u | None => Err (user_not_found id) end)).

Definition token_insert {E} (token : ApiToken) : auth E (DomainResult unit) :=
  fallible (λ w,
    match tokens w !! t_id token with
    | Some _ => (w, Err (Conflict [Lit "ApiToken already exists"]))
    | None => (w {{ tokens ::= <[t_id token := token]> }}, Ok ())
    end).

Definition token_find_by_id {E} (id : Uuid) : auth E (DomainResult ApiToken) :=
  fallible (λ w, (w, match tokens w !! id with
                     | Some t => Ok t
                     | None => Err (NotFound "ApiToken" [ArgUuid id])
                     end)).

Definition token_find_by_prefix {E} (prefix : string) : auth E (DomainResult (option ApiToken)) :=
  fallible (λ w, (w, Ok (pick_row (filter (λ t, t_token_prefix t = prefix)
                                     (map_to_list (tokens w)).*2)))).

(** The row is stamped once; the notice is sent either way. *)
Definition token_revoke {E} (id : Uuid) : auth E (DomainResult unit) :=
  fallible (λ w,
    let stamp t := if is_some (t_revoked_at t) then t else t {{ t_revoked_at := Some (time w) }} in
    (w {{ tokens ::= alter stamp id; notices ::= λ ns, ns ++ [RN_Token id] }}, Ok ())).

Definition user_save {E} (user : User) : auth E (DomainResult unit) :=
  fallible (λ w,
    let row := match users w !! u_id user with
               | Some old => user {{ u_created_at := u_created_at old }}
               | None => user
               end in
    (w {{ users ::= <[u_id user := row]>;
          notices ::= λ ns, if u_is_active user then ns else ns ++ [RN_User (u_id user)] }}, Ok ())).

(** *** Revocation notices *)

(** [dispatch_payload] of the next notice. *)
Definition dispatch_notice {E} : auth E unit :=
  port (λ w,
    (auth_tick
       match notices w with
       | [] => w
       | RN_Token id :: rest => w {{ notices := rest; pat_cache ::= invalidate_token id }}
       | RN_User id :: rest => w {{ notices := rest; pat_cache ::= invalidate_user id }}
       end, ())).

(** A lost connection loses the notices in flight and drops the cache. *)
Definition listener_lost {E} : auth E unit :=
  port (λ w, (auth_tick (w {{ notices := []; pat_cache ::= drop_all }}), ())).

(** [ArcSwap::store]. *)
Definition store_rbac {E} (evaluator : RbacEvaluator) : auth E unit :=
  port (λ w, (auth_tick (w {{ past_rbac ::= cons (rbac w); rbac := evaluator }}), ())).

(** *** Streams *)

Definition append_user {E} (user_id : Uuid) (actor : TokenActor) (event : TokenEvent)
    : auth E (DomainResult unit) :=
  fallible (λ w,
    (w {{ user_streams ::= λ s, <[user_id := default [] (s !! user_id) ++ [(actor, event)]]> s }}, Ok ())).

Fixpoint with_conflict_retry {E A} (attempts : nat) (f : auth E (DomainResult A))
    : auth E (DomainResult A) :=
  match attempts with
  | S (S _ as attempts') =>
      r ← f;
      match r with
      | Err (Conflict _) => with_conflict_retry attempts' f
      | _ => mret r
      end
  | _ => f
  end.

Definition append_any_with_conflict_retry {E} (user_id : Uuid) (actor : TokenActor) (event : TokenEvent)
    : auth E (DomainResult unit) :=
  with_conflict_retry EVENT_APPEND_RETRY_ATTEMPTS (append_user user_id actor event).

(** *** The replay guard *)

(** [INSERT ... ON CONFLICT DO NOTHING RETURNING]. *)
Definition replay_claim {E} (who : nat) (key : ReplayKey) (expires_at : DateTime)
    : auth E (DomainResult ReplayClaim) :=
  fallible (λ w,
    match replay_seen w !! key with
    | Some _ => (w, Ok Replayed)
    | None => (w {{ replay_seen ::= <[key := (expires_at, who)]> }}, Ok FirstSeen)
    end).

Definition prune_expired {E} : auth E (DomainResult unit) :=
  fallible (λ w,
    (w {{ replay_seen ::= filter (λ row, time w ≤ row.2.1) }}, Ok ())).

(** *** The short-lived store *)

Definition live (w : AuthWorld) (k : EphemeralKey) : option EphemeralValue :=
  match ephemeral w !! k with
  | Some (v, lapses) => if lapses <=? time w then None else Some v
  | None => None
  end.

Definition eph_get {E} (k : EphemeralKey) : auth E (DomainResult (option EphemeralValue)) :=
  fallible (λ w, (w, Ok (live w k))).

Definition eph_put {E} (k : EphemeralKey) (v : EphemeralValue) (ttl_secs : Z)
    : auth E (DomainResult unit) :=
  fallible (λ w, (w {{ ephemeral ::= <[k := (v, time w + ttl_secs * NANOS)]> }}, Ok ())).

Definition eph_put_if_absent {E} (k : EphemeralKey) (v : EphemeralValue) (ttl_secs : Z)
    : auth E (DomainResult bool) :=
  fallible (λ w,
    if is_some (live w k) then (w, Ok false)
    else (w {{ ephemeral ::= <[k := (v, time w + ttl_secs * NANOS)]> }}, Ok true)).
End ports.

(** ** Token text *)

Section text.
(** The [while] over the bits in the buffer. *)
Fixpoint emit_digits (fuel : nat) (buffer bits_left : Z) : string * Z :=
  match fuel with
  | O => (""%string, bits_left)
  | S fuel' =>
      if bits_left <? 5 then (""%string, bits_left)
      else
        let bits_left := bits_left - 5 in
        let idx := Z.land (Z.shiftr buffer bits_left) 31 in
        let digit := default (byte_of_Z 0) (as_bytes BASE32_ALPHABET !! Z.to_nat idx) in
        let '(rest, remaining) := emit_digits fuel' buffer bits_left in
        (String digit rest, remaining)
  end.

(** The [for] over the bytes; the buffer is a [u32]. *)
Fixpoint encode_from (bytes : list byte) (buffer bits_left : Z) : string :=
  match bytes with
  | [] => ""%string
  | b :: bytes' =>
      let buffer := Z.lor (wrap 32 (Z.shiftl buffer 8)) (Z_of_byte b) in
      let bits_left := bits_left + 8 in
      let '(digits, remaining) := emit_digits (Z.to_nat bits_left) buffer bits_left in
      digits +:+ encode_from bytes' buffer remaining
  end.

Definition encode_base32_lowercase (bytes : list byte) : string := encode_from bytes 0 0.

Definition kind_prefix (kind : TokenKind) : string :=
  match kind with Pat => "pat" | ServiceAccount => "svc" | CliSession => "cli" end.

Definition is_char_boundary (s : string) (i : nat) : bool :=
  match i, as_bytes s !! i with
  | O, _ => true
  | _, Some b => negb ((128 <=? Z_of_byte b) && (Z_of_byte b <=? 191))
  | _, None => bool_decide (i = String.length s)
  end.

(** [while cut > 0 && !s.is_char_boundary(cut)] *)
Fixpoint floor_char_boundary (s : string) (cut : nat) : nat :=
  match cut with
  | O => O
  | S cut' => if is_char_boundary s cut then cut else floor_char_boundary s cut'
  end.

Definition session_name (client_name : option string) : string :=
  if is_empty (as_bytes (trim (default ""%string client_name))) then "hort-cli"
  else
    let original := default ""%string client_name in
    if MAX_NAME_LEN <? strlen original
    then String.substring 0 (floor_char_boundary original (Z.to_nat MAX_NAME_LEN)) original
    else original.
End text.

(** [Uuid]'s [Display]: lowercase hex in five groups. *)
Definition uuid_to_string (u : Uuid) : string :=
  let hex x := default (byte_of_Z 0) (as_bytes "0123456789abcdef" !! Z.to_nat x) in
  let digits := b ← uuid_bytes u; [hex (Z_of_byte b / 16); hex (Z_of_byte b mod 16)] in
  let group a n := String.string_of_list_ascii (take n (drop a digits)) in
  String.concat "-" [group 0%nat 8%nat; group 8%nat 4%nat; group 12%nat 4%nat; group 16%nat 4%nat;
                     group 20%nat 12%nat].

Definition clamp_lifetime (secs : Z) (has_admin : bool) : result ApiTokenError Z :=
  if secs <? MIN_CLI_SESSION_LIFETIME_SECS then Err LifetimeBelowMinimum
  else
    let max := if has_admin then MAX_ADMIN_CLI_SESSION_LIFETIME_SECS
               else MAX_NON_ADMIN_CLI_SESSION_LIFETIME_SECS in
    Ok (Z.min secs max).

Definition max_cli_session_lifetime : Z :=
  Z.max MAX_ADMIN_CLI_SESSION_LIFETIME_SECS MAX_NON_ADMIN_CLI_SESSION_LIFETIME_SECS.

Definition validate_request (r : IssueTokenRequest) : result ApiTokenError unit :=
  if is_some (rq_expires_in_days r) && is_some (rq_expires_in_seconds r)
  then Err ExpiryUnitConflict else Ok ().

Definition build_replay_key (fs : FederationSource) : result ApiTokenError ReplayKey :=
  match fs_jti fs, fs_require_jti fs with
  | Some jti, _ => Ok (RK_Jti (fs_issuer fs) jti)
  | None, true => Err JtiRequired
  | None, false =>
      match fs_iat fs with
      | Some iat => Ok (RK_Composite (fs_issuer fs) (fs_iss fs) (fs_subject fs) iat (fs_exp fs))
      | None => Err JtiRequired
      end
  end.

(** The body of a request for a token, and what the handler makes of it. *)
Record IssueTokenRequestBody : Type := {
  bd_name : string;
  bd_description : option string;
  bd_declared_permissions : list string;
  bd_repository_ids : option (list Uuid);
  bd_expires_in_days : option Z;
}.

Fixpoint parse_permissions (raws : list string) : result string (list Permission) :=
  match raws with
  | [] => Ok []
  | raw :: raws' =>
      match Permission_from_str raw with
      | Err _ => Err raw
      | Ok p => match parse_permissions raws' with Ok ps => Ok (p :: ps) | Err e => Err e end
      end
  end.

Definition parse_request (body : IssueTokenRequestBody) : result string IssueTokenRequest :=
  match parse_permissions (bd_declared_permissions body) with
  | Err raw => Err raw
  | Ok declared =>
      Ok {| rq_name := bd_name body; rq_description := bd_description body;
            rq_declared_permissions := declared; rq_repository_ids := bd_repository_ids body;
            rq_expires_in_days := bd_expires_in_days body; rq_expires_in_seconds := None;
            rq_federation_source := None |}
  end.

(** [DateTime::from_timestamp(secs, 0)] *)
Definition from_timestamp (secs : Z) : option DateTime := checked_time (secs * NANOS).

(** [DateTime::timestamp] rounds down. *)
Definition timestamp (t : DateTime) : Z := t / NANOS.

(** The pairs of the request that the evaluator refuses. *)
Definition exceeding (rbac : RbacEvaluator) (subject : CallerPrincipal) (r : IssueTokenRequest)
    : list (option Uuid * Permission) :=
  let scopes := match rq_repository_ids r with None => [None] | Some ids => Some <$> ids end in
  scope ← scopes;
  omap (λ perm, if authorize rbac subject perm scope then None else Some (scope, perm))
    (rq_declared_permissions r).

Section use_case.
Context {L : Lru CacheKey CachedEntry} `{TokenBackend, Jwt}.

(** The key that signs and verifies, and the one before it, which still verifies. *)
Record CliSessionTokenSigner : Type := {
  signing_key : SigningKey;
  prev_verifying : option SigningKey;
  signer_issuer : string;
}.

(** [ApiTokenUseCase], with what composition has wired. *)
Record ApiTokenUseCase : Type := {
  config : ApiTokenIssuanceConfig;
  replay_guard : bool;
  cli_session_signer : option CliSessionTokenSigner;
  revocation_denylist : bool;
}.

Context (uc : ApiTokenUseCase).
Abbreviation issue := (prog AuthWorld ApiTokenError).

(** [?] on a [DomainResult]. *)
Definition infra {A} (p : issue (DomainResult A)) : issue A :=
  r ← p; Done (map_err Infrastructure r).

(** [Utc::now() + Duration::seconds(secs)] *)
Definition expiring_in (secs : Z) : issue (option DateTime) :=
  now ← utc_now;
  match d ← duration_seconds secs; time_add now d with
  | Some t => mret (Some t)
  | None => Done (Err Panicked)
  end.

Definition DAY : Z := 86400.

Definition generate_token_plaintext (kind : TokenKind) : issue (string * string) :=
  bytes ← ask (λ w, random_bytes (auth_calls w));
  let body := encode_base32_lowercase bytes in
  mret (String.concat "_" ["hort"%string; kind_prefix kind; body],
        String.substring 0 TOKEN_PREFIX_LEN body).

Definition hashed (plaintext : string) : issue string :=
  r ← ask (λ w, hash_token (auth_calls w) plaintext);
  Done (map_err (λ e, Infrastructure (Invariant ([Lit "argon2 hash failed: "] ++ e))) r).

Definition emit_denial (actor target : Uuid) (kind : TokenKind) (r : IssueTokenRequest)
    (reason : DenialReason) : issue unit :=
  at_ ← utc_now;
  infra (append_any_with_conflict_retry actor (Some actor)
    (TE_IssuanceDenied
       {| target_user_id := target; requested_kind := kind;
          requested_permissions := rq_declared_permissions r;
          requested_repository_ids := rq_repository_ids r; dn_reason := reason; dn_at := at_ |})).

(** A denial that is recorded before the handler gives up. *)
Definition deny {A} (actor target : Uuid) (kind : TokenKind) (r : IssueTokenRequest)
    (reason : DenialReason) (e : ApiTokenError) : issue A :=
  _ ← emit_denial actor target kind r reason; Done (Err e).

(** The checks of the request's text. *)
Definition check_text (name : string) (description : option string) : result ApiTokenError unit :=
  if is_empty (as_bytes (trim name)) then Err NameEmpty
  else if MAX_NAME_LEN <? strlen name then Err NameTooLong
  else if match description with Some d => MAX_DESCRIPTION_LEN <? strlen d | None => false end
  then Err DescriptionTooLong
  else Ok ().

Definition empty_repository_set (r : IssueTokenRequest) : bool :=
  match rq_repository_ids r with Some [] => true | _ => false end.

Definition resolve_expiry (actor : Uuid) (caller : CallerPrincipal) (target : Uuid) (kind : TokenKind)
    (r : IssueTokenRequest) (declares_admin : bool) : issue (option DateTime) :=
  match rq_expires_in_seconds r with
  | Some secs => expiring_in (u64_as_i64 secs)
  | None =>
      match declares_admin, kind, rq_expires_in_days r with
      | true, _, None =>
          deny actor target kind r DR_AdminTokenExceedsThirtyDays AdminTokenUnboundedNotAllowed
      | true, _, Some days =>
          if (days <? 1) || (MAX_ADMIN_EXPIRY_DAYS <? days)
          then deny actor target kind r DR_AdminTokenExceedsThirtyDays AdminTokenExceedsThirtyDays
          else expiring_in (days * DAY)
      | false, ServiceAccount, None =>
          if negb (allow_unbounded_svc_tokens (config uc)) || negb (is_admin_claim (cp_claims caller))
          then deny actor target kind r DR_UnboundedSvcTokenDisallowed UnboundedSvcTokenDisallowed
          else mret None
      | false, _, Some days =>
          if days =? 0 then Done (Err ExpiryZero)
          else if MAX_EXPIRY_DAYS <? days then Done (Err ExpiryTooLong)
          else expiring_in (days * DAY)
      | false, Pat, None => expiring_in (DEFAULT_PAT_EXPIRY_DAYS * DAY)
      | false, CliSession, None => expiring_in DEFAULT_CLI_SESSION_LIFETIME_SECS
      end
  end.

Definition run_issuance_gates (actor : Uuid) (caller authz_subject : CallerPrincipal) (target : User)
    (kind : TokenKind) (r : IssueTokenRequest) : issue (option DateTime) :=
  let deny {A} := @deny A actor (u_id target) kind r in
  if bool_decide (u_username target = BOOTSTRAP_ADMIN_USERNAME)
  then deny DR_BootstrapAdminMintForbidden BootstrapAdminMintForbidden
  else
    _ ← Done (validate_request r);
    _ ← Done (check_text (rq_name r) (rq_description r));
    if empty_repository_set r then deny DR_InvalidRepositorySet InvalidRepositorySet
    else
      let declares_admin := bool_decide (Admin ∈ rq_declared_permissions r) in
      if declares_admin && negb (allow_admin_tokens (config uc))
      then deny DR_AdminTokenDisallowed AdminTokenDisallowed
      else if declares_admin && negb (is_admin_claim (cp_claims caller))
      then deny DR_AdminTokenDisallowed AdminAuthorityRequired
      else
        expires_at ← resolve_expiry actor caller (u_id target) kind r declares_admin;
        loaded ← ask rbac;
        let failed := exceeding loaded authz_subject r in
        if negb (is_empty failed) then deny DR_CapExceedsAuthority (CapExceedsAuthority failed)
        else mret expires_at.

(** *** Rows and events *)

Definition fresh_row (id : Uuid) (target : User) (name : string) (description : option string)
    (kind : TokenKind) (hash prefix : string) (permissions : list Permission)
    (repository_ids : option (list Uuid)) (expires_at : option DateTime) (created_by : Uuid)
    (now : DateTime) : ApiToken :=
  {| t_id := id; t_user_id := u_id target; t_name := name; t_description := description;
     t_kind := kind; t_token_hash := hash; t_token_prefix := prefix;
     t_declared_permissions := permissions; t_repository_ids := repository_ids;
     t_expires_at := expires_at; t_revoked_at := None; t_last_used_at := None;
     t_last_used_ip := None; t_last_used_user_agent := None;
     t_created_by_user_id := created_by; t_created_at := now |}.

Definition issued_event (t : ApiToken) (minted_by : option Uuid) (now : DateTime)
    (source : option FederationSource) : TokenEvent :=
  TE_Issued
    {| is_token_id := t_id t; is_user_id := t_user_id t; is_kind := t_kind t;
       is_declared_permissions := t_declared_permissions t; is_repository_ids := t_repository_ids t;
       is_expires_at := t_expires_at t; minted_by_admin_id := minted_by; is_at := now;
       source_issuer := fs_issuer <$> source; source_jti := source ≫= fs_jti;
       source_sub := fs_subject <$> source |}.

Definition issued (t : ApiToken) (plaintext : string) : IssuedToken :=
  {| it_id := t_id t; it_name := t_name t; it_kind := t_kind t; it_plaintext := plaintext;
     it_expires_at := t_expires_at t |}.

(** *** Issuance *)

Definition issue_inner (actor : Uuid) (caller authz_subject : CallerPrincipal) (target : User)
    (kind : TokenKind) (r : IssueTokenRequest) : issue IssuedToken :=
  expires_at ← run_issuance_gates actor caller authz_subject target kind r;
  '(plaintext, body_prefix) ← generate_token_plaintext kind;
  token_hash ← hashed plaintext;
  now ← utc_now;
  id ← new_v4;
  let token := fresh_row id target (rq_name r) (rq_description r) kind token_hash body_prefix
                 (rq_declared_permissions r) (rq_repository_ids r) expires_at actor now in
  _ ← infra (token_insert token);
  let minted_by := if bool_decide (actor = u_id target) then None else Some actor in
  _ ← infra (append_any_with_conflict_retry (u_id target) (Some actor)
               (issued_event token minted_by now (rq_federation_source r)));
  mret (issued token plaintext).

Definition issue_self_token (principal : CallerPrincipal) (r : IssueTokenRequest) : issue IssuedToken :=
  target ← infra (user_find_by_id (cp_user_id principal));
  if u_is_service_account target
  then deny (cp_user_id principal) (cp_user_id principal) Pat r DR_ServiceAccountSelfMint
         ServiceAccountSelfMint
  else issue_inner (cp_user_id principal) principal principal target Pat r.

(** [user.external_id.unwrap_or_else(|| user.id.to_string())] *)
Definition external_id_or_id (u : User) : string :=
  default (uuid_to_string (u_id u)) (u_external_id u).

(** The principal that stands for a service account while its token is issued. *)
Definition service_account_subject (now : DateTime) (target : User)
    : CallerPrincipal :=
  {| cp_user_id := u_id target; cp_external_id := external_id_or_id target;
     cp_username := u_username target; cp_email := u_email target;
     cp_claims := add_admin_claim_if_admin [] (u_is_admin target);
     cp_token_kind := Some ServiceAccount; cp_issued_at := now; cp_token_cap := None |}.

Definition issue_for_service_account (admin : CallerPrincipal) (target_id : Uuid)
    (r : IssueTokenRequest) : issue IssuedToken :=
  if negb (is_admin_claim (cp_claims admin)) then Done (Err NotAuthorized)
  else if bool_decide (Admin ∈ rq_declared_permissions r) then Done (Err AdminAuthorityRequired)
  else
    target ← infra (user_find_by_id target_id);
    if negb (u_is_service_account target)
    then deny (cp_user_id admin) target_id ServiceAccount r DR_NotServiceAccount NotServiceAccount
    else
      now ← utc_now;
      issue_inner (cp_user_id admin) admin (service_account_subject now target) target
        ServiceAccount r.

Definition claim_source (who : nat) (source : option FederationSource) : issue unit :=
  match source with
  | None => mret ()
  | Some fs =>
      match from_timestamp (fs_exp fs) with
      | None =>
          Done (Err (Infrastructure (Invariant
            [Lit "federation source jwt exp ("; ArgInt (fs_exp fs);
             Lit ") is not a representable Utc timestamp — replay seen-set TTL horizon is not derivable"])))
      | Some seen_expires_at =>
          key ← Done (build_replay_key fs);
          if negb (replay_guard uc) then Done (Err ReplayGuardUnavailable)
          else
            claim ← replay_claim who key seen_expires_at;
            match claim with
            | Ok FirstSeen => mret ()
            | Ok Replayed =>
                Done (Err (ReplayDetected (match key with RK_Composite _ _ _ _ _ => true | _ => false end)))
            | Err _ => Done (Err ReplayGuardUnavailable)
            end
      end
  end.

Definition system_expiry (r : IssueTokenRequest) : issue (option DateTime) :=
  match rq_expires_in_seconds r, rq_expires_in_days r with
  | Some secs, _ => expiring_in (u64_as_i64 secs)
  | None, Some days =>
      if days =? 0 then Done (Err ExpiryZero)
      else if MAX_EXPIRY_DAYS <? days then Done (Err ExpiryTooLong)
      else expiring_in (days * DAY)
  | None, None => expiring_in (DEFAULT_SVC_EXPIRY_DAYS * DAY)
  end.

Definition issue_for_service_account_system (who : nat) (target_id : Uuid) (r : IssueTokenRequest)
    : issue IssuedToken :=
  _ ← Done (validate_request r);
  _ ← Done (check_text (rq_name r) (rq_description r));
  if empty_repository_set r then Done (Err InvalidRepositorySet)
  else if bool_decide (Admin ∈ rq_declared_permissions r) then Done (Err AdminAuthorityRequired)
  else
    target ← infra (user_find_by_id target_id);
    if negb (u_is_service_account target) then Done (Err NotServiceAccount)
    else
      expires_at ← system_expiry r;
      '(plaintext, body_prefix) ← generate_token_plaintext ServiceAccount;
      token_hash ← hashed plaintext;
      now ← utc_now;
      id ← new_v4;
      let token := fresh_row id target (rq_name r) (rq_description r) ServiceAccount token_hash
                     body_prefix (rq_declared_permissions r) (rq_repository_ids r) expires_at
                     (u_id target) now in
      _ ← claim_source who (rq_federation_source r);
      _ ← infra (token_insert token);
      appended ← append_any_with_conflict_retry (u_id target) None
                   (issued_event token None now (rq_federation_source r));
      match appended with
      | Ok _ => mret (issued token plaintext)
      | Err (Conflict _) => Done (Err TokenContended)
      | Err other => Done (Err (Infrastructure other))
      end.

Definition issue_for_bootstrap_admin_system (target_id : Uuid) (name : string)
    (permissions : list Permission) (lifetime_secs : Z) : issue IssuedToken :=
  _ ← Done (check_text name None);
  if negb (bool_decide (Admin ∈ permissions)) then Done (Err AdminAuthorityRequired)
  else
    target ← infra (user_find_by_id target_id);
    if negb (u_is_admin target) || u_is_service_account target then Done (Err NotAuthorized)
    else if lifetime_secs =? 0 then Done (Err ExpiryZero)
    else
      let clamped_secs := Z.min lifetime_secs MAX_BOOTSTRAP_ADMIN_LIFETIME_SECS in
      now ← utc_now;
      match d ← duration_seconds (u64_as_i64 clamped_secs); time_add now d with
      | None => Done (Err Panicked)
      | Some expires_at =>
          '(plaintext, body_prefix) ← generate_token_plaintext Pat;
          token_hash ← hashed plaintext;
          id ← new_v4;
          let token := fresh_row id target name
                         (Some "Issued by hort-server admin bootstrap-session (break-glass)"%string)
                         Pat token_hash body_prefix permissions None (Some expires_at)
                         (u_id target) now in
          _ ← infra (token_insert token);
          _ ← infra (append_any_with_conflict_retry (u_id target) None (issued_event token None now None));
          mret (issued token plaintext)
      end.

(** *** CLI sessions *)

Definition CLI_SESSION_AUDIENCE : string := "urn:hort:cli-session".
Definition CLI_SESSION_TOKEN_KIND : string := "cli_session".

(** [exp] and [iat] go to the wire as whole seconds. *)
Definition session_payload (signer : CliSessionTokenSigner) (sub : Uuid) (claims : list string)
    (jti : Uuid) (exp iat : DateTime) : SessionWire :=
  {| s_iss := signer_issuer signer; s_sub := sub; s_aud := CLI_SESSION_AUDIENCE;
     s_exp := timestamp exp; s_iat := Some (timestamp iat); s_jti := jti;
     s_token_kind := CLI_SESSION_TOKEN_KIND; s_claims := claims |}.

Definition mint (signer : CliSessionTokenSigner) (sub : Uuid) (claims : list string) (jti : Uuid)
    (exp : DateTime) : issue (result string string) :=
  iat ← utc_now;
  mret (jwt_encode (signing_key signer) (session_payload signer sub claims jti exp iat)).

Definition session_request (name : string) (r : IssueCliSessionRequest) (permissions : list Permission)
    (repository_ids : option (list Uuid)) (secs : Z) : IssueTokenRequest :=
  {| rq_name := name; rq_description := Some ("Issued via /exchange from " +:+ source_ip r);
     rq_declared_permissions := permissions; rq_repository_ids := repository_ids;
     rq_expires_in_days := None; rq_expires_in_seconds := Some secs; rq_federation_source := None |}.

Definition not_configured {A} (what : string) : issue A :=
  Done (Err (Infrastructure (Invariant [Lit what]))).

(** What the session is worth to the audit trail: the cap derived for the caller. *)
Definition session_issued_event (jti : Uuid) (target : User) (r : IssueTokenRequest)
    (expires_at now : DateTime) : TokenEvent :=
  TE_Issued
    {| is_token_id := jti; is_user_id := u_id target; is_kind := CliSession;
       is_declared_permissions := rq_declared_permissions r; is_repository_ids := rq_repository_ids r;
       is_expires_at := Some expires_at; minted_by_admin_id := None; is_at := now;
       source_issuer := None; source_jti := None; source_sub := None |}.

Definition issue_cli_session (principal : CallerPrincipal) (r : IssueCliSessionRequest)
    : issue IssuedToken :=
  let actor := cp_user_id principal in
  target ← infra (user_find_by_id actor);
  let name := session_name (client_name r) in
  let requested := if is_empty (requested_scope r) then [Read; Write; Delete] else requested_scope r in
  loaded ← ask rbac;
  match derive_cli_session_cap loaded principal requested with
  | None =>
      deny actor (u_id target) CliSession
        (session_request name r requested None DEFAULT_CLI_SESSION_LIFETIME_SECS)
        DR_CapExceedsAuthority (CapExceedsAuthority ((λ p, (None, p)) <$> requested))
  | Some cap =>
      let has_admin := bool_decide (Admin ∈ tc_permissions cap) in
      secs ← Done (clamp_lifetime
               (default DEFAULT_CLI_SESSION_LIFETIME_SECS (requested_lifetime_secs r)) has_admin);
      let inner := session_request name r (tc_permissions cap) (tc_repository_ids cap) secs in
      gate ← run_issuance_gates actor principal principal target CliSession inner;
      match gate with
      | None =>
          not_configured "CliSession gate resolved an unbounded expiry — issue_cli_session always sets expires_in_seconds"
      | Some expires_at =>
          match cli_session_signer uc with
          | None => not_configured "cli session signer not configured"
          | Some signer =>
              jti ← new_v4;
              minted ← mint signer actor (cp_claims principal) jti expires_at;
              plaintext ← Done (map_err (λ e, Infrastructure (Invariant
                            [Lit "cli session jwt mint failed: "; ArgStr e])) minted);
              now ← utc_now;
              _ ← infra (append_any_with_conflict_retry (u_id target) (Some actor)
                           (session_issued_event jti target inner expires_at now));
              mret {| it_id := jti; it_name := name; it_kind := CliSession;
                      it_plaintext := plaintext; it_expires_at := Some expires_at |}
          end
      end
  end.

(** *** Revocation *)

Definition revoke (actor token_id : Uuid) (admin_authority : bool) : issue unit :=
  found ← token_find_by_id token_id;
  match found with
  | Err (NotFound _ _) => Done (Err TokenNotFound)
  | Err other => Done (Err (Infrastructure other))
  | Ok token =>
      if negb admin_authority && negb (bool_decide (actor = t_user_id token)) then Done (Err NotAuthorized)
      else
        _ ← infra (token_revoke token_id);
        let by_admin := if admin_authority && negb (bool_decide (actor = t_user_id token))
                        then Some actor else None in
        at_ ← utc_now;
        infra (append_any_with_conflict_retry (t_user_id token) (Some actor)
          (TE_Revoked {| rv_token_id := token_id; rv_user_id := t_user_id token;
                         revoked_by_admin_id := by_admin; rv_reason := OperatorRequest; rv_at := at_ |}))
  end.

Definition revoke_cli_session (jti : Uuid) (exp : DateTime) : issue unit :=
  if negb (revocation_denylist uc) then not_configured "cli session revocation denylist not configured"
  else
    now ← utc_now;
    let remaining := Z.min (Z.max (num_seconds (signed_duration_since exp now)) 1) max_cli_session_lifetime in
    infra (eph_put (EK_SessionRevoked jti) EV_Mark remaining).

Definition revoke_cli_sessions_for_user (user_id : Uuid) : issue CliSessionCutoff :=
  if negb (revocation_denylist uc) then not_configured "cli session revocation denylist not configured"
  else
    cutoff ← utc_now;
    _ ← infra (eph_put (EK_SessionCutoff user_id) (EV_Seconds (timestamp cutoff)) max_cli_session_lifetime);
    match time_add cutoff (max_cli_session_lifetime * NANOS) with
    | Some expires_at =>
        mret {| cut_user_id := user_id; cut_at := cutoff; cut_expires_at := expires_at |}
    | None => Done (Err Panicked)
    end.
End use_case.
