(* ===== verification/Authenticate.v ===== *)
(** Who a bearer is: the native-token path with its lockout and its cache
    (crates/hort-app/src/use_cases/pat_validation_use_case.rs), the signed CLI session
    (cli_session_signing.rs, oci_token_signing.rs) and the identity provider's token
    (authenticate_use_case.rs), and the exchange of a bearer for a CLI session
    (crates/hort-http-core/src/handlers/exchange.rs, the [access_token] branch).

    A client address stands for its bucket.  The audit events of a login and of a token's
    use, logs and metrics are left out. *)

From coqutil Require Import Datatypes.RecordSetters.
From S2P Require Import Prelude.
From S2P Require Import RustStd.
From S2P Require Import Types.
From S2P Require Import Store.
From S2P Require Import Concurrent.
From S2P Require Import Rbac.
From S2P Require Import TokenCache.
From S2P Require Import RepositoryAccess.
From S2P Require Import Tokens.
Import DoubleBraceUpdate.

(** ** Data *)

Record PatLockoutConfig : Type := {
  threshold : Z;
  window_secs : Z;
  duration_secs : Z;
}.

Definition PatLockoutConfig_DEFAULT : PatLockoutConfig :=
  {| threshold := 30; window_secs := 300; duration_secs := 900 |}.

Inductive PatValidationError : Type :=
  | PV_RateLimited
  | PV_PrefixNotFound
  | PV_HashMismatch
  | PV_Expired
  | PV_Revoked
  | PV_UserDeactivated
  | PV_Infrastructure (e : DomainError).

Inductive TokenFormatError : Type :=
  | BadLength
  | UnknownKind
  | NonBase32Body.

Record CliSessionClaims : Type := {
  cs_iss : string;
  cs_sub : Uuid;
  cs_aud : string;
  cs_exp : DateTime;
  cs_iat : option DateTime;
  cs_jti : Uuid;
  cs_token_kind : string;
  cs_claims : list string;
}.

Inductive CliSessionRejection : Type :=
  | SessionExpired
  | WrongTokenKind.

Inductive CliSessionVerifyOutcome : Type :=
  | Verified (claims : CliSessionClaims)
  | Rejected (reason : CliSessionRejection)
  | NotOurToken.

Inductive VerificationError : Type :=
  | VE_Expired
  | VE_InvalidAudience
  | VE_InvalidSignature
  | VE_Malformed (message : string).

Record IdpClaims : Type := {
  idp_subject : string;
  idp_username : string;
  idp_email : string;
  idp_groups : list string;
  idp_issued_at : DateTime;
}.

(** The identity provider, and the digest of the [sha2] crate. *)
Class Identity : Type := {
  validate_token : nat → string → result OidcValidationError IdpClaims;
  sha256 : list byte → list byte;
}.

(** ** Token format *)

Definition is_base32 (b : byte) : bool :=
  is_lower b || ((50 <=? Z_of_byte b) && (Z_of_byte b <=? 55)).

(** The kind of the token and the first eight characters of its body. *)
Definition parse_pat_token_format (s : string) : result TokenFormatError (TokenKind * string) :=
  if negb (strlen s =? 41) then Err BadLength
  else if negb (bool_decide (String.substring 0 5 s = "hort_"%string)) ||
          negb (bool_decide (String.substring 8 1 s = "_"%string)) then Err UnknownKind
  else
    let kind :=
      if bool_decide (String.substring 5 3 s = "pat"%string) then Some Pat
      else if bool_decide (String.substring 5 3 s = "svc"%string) then Some ServiceAccount
      else None in
    match kind with
    | None => Err UnknownKind
    | Some kind =>
        let body := String.substring 9 32 s in
        if negb (forallb is_base32 (as_bytes body)) then Err NonBase32Body
        else Ok (kind, String.substring 0 8 body)
    end.

Section authenticate.
Context {L : Lru CacheKey CachedEntry} `{TokenBackend, Jwt, Identity}.

Definition compute_cache_key (token : string) : CacheKey := sha256 (as_bytes token).

(** ** Native tokens *)

Section pat.
Context (lockout : PatLockoutConfig).
Abbreviation pat := (prog AuthWorld PatValidationError).

Definition pat_infra {A} (p : pat (DomainResult A)) : pat A :=
  r ← p; Done (map_err PV_Infrastructure r).

(** [decode_count(&value).unwrap_or(0)] *)
Definition stored_count (v : EphemeralValue) : Z :=
  match v with EV_Count n => n | _ => 0 end.

Definition bookkeep_failure (bucket : option string) : pat unit :=
  match bucket with
  | None => mret ()
  | Some bucket =>
      found ← pat_infra (eph_get (EK_AttemptCounter bucket));
      new_count ←
        match found with
        | Some value =>
            let n := Z.min (stored_count value + 1) u64_MAX in
            _ ← pat_infra (eph_put (EK_AttemptCounter bucket) (EV_Count n) (window_secs lockout));
            mret n
        | None =>
            _ ← pat_infra (eph_put_if_absent (EK_AttemptCounter bucket) (EV_Count 1) (window_secs lockout));
            mret 1
        end;
      if threshold lockout <=? new_count
      then pat_infra (eph_put (EK_AttemptFlag bucket) EV_Mark (duration_secs lockout))
      else mret ()
  end.

Definition fail {A} (bucket : option string) (e : PatValidationError) : pat A :=
  _ ← bookkeep_failure bucket; Done (Err e).

(** The checks that a hit of the cache and a row of the table share. *)
Definition check_live {A} (bucket : option string) (expires_at revoked_at : option DateTime)
    (user_id : Uuid) (k : pat A) : pat A :=
  now ← utc_now;
  if match expires_at with Some exp => exp <=? now | None => false end then fail bucket PV_Expired
  else if is_some revoked_at then fail bucket PV_Revoked
  else
    user ← pat_infra (user_find_by_id user_id);
    if negb (u_is_active user) then fail bucket PV_UserDeactivated
    else k.

Definition pat_cache_get (k : CacheKey) : pat (option ApiTokenValidation) :=
  port (λ w, let '(c, r) := cache_get (time w) k (pat_cache w) in (auth_tick (w {{ pat_cache := c }}), r)).

Definition pat_cache_insert (k : CacheKey) (v : ApiTokenValidation) : pat unit :=
  port (λ w, (auth_tick (w {{ pat_cache ::= cache_insert (time w) k v }}), ())).

Definition validation_of (t : ApiToken) : ApiTokenValidation :=
  {| v_token_id := t_id t; v_user_id := t_user_id t; v_kind := t_kind t;
     v_token_cap := flat_cap (t_declared_permissions t) (t_repository_ids t);
     v_expires_at := t_expires_at t; v_revoked_at := t_revoked_at t |}.

Definition check_lockout (bucket : option string) : pat unit :=
  match bucket with
  | None => mret ()
  | Some bucket =>
      flag ← pat_infra (eph_get (EK_AttemptFlag bucket));
      if is_some flag then Done (Err PV_RateLimited) else mret ()
  end.

Definition validate_pat (token : string) (bucket : option string) : pat ApiTokenValidation :=
  _ ← check_lockout bucket;
  let cache_key := compute_cache_key token in
  hit ← pat_cache_get cache_key;
  match hit with
  | Some cached =>
      check_live bucket (v_expires_at cached) (v_revoked_at cached) (v_user_id cached) (mret cached)
  | None =>
      lookup ←
        match parse_pat_token_format token with
        | Ok (_, prefix) => pat_infra (token_find_by_prefix prefix)
        | Err _ => mret None
        end;
      match lookup with
      | None => fail bucket PV_PrefixNotFound
      | Some row =>
          if negb (verify_token token (t_token_hash row)) then fail bucket PV_HashMismatch
          else
            check_live bucket (t_expires_at row) (t_revoked_at row) (t_user_id row)
              (_ ← pat_cache_insert cache_key (validation_of row); mret (validation_of row))
      end
  end.
End pat.

Definition map_pat_error (e : PatValidationError) : AppError :=
  match e with
  | PV_Infrastructure domain => AE_Domain domain
  | PV_RateLimited => AE_Unauthorized [Lit "rate limited"]
  | PV_PrefixNotFound => AE_Unauthorized [Lit "prefix not found"]
  | PV_HashMismatch => AE_Unauthorized [Lit "hash mismatch"]
  | PV_Expired => AE_Unauthorized [Lit "token expired"]
  | PV_Revoked => AE_Unauthorized [Lit "token revoked"]
  | PV_UserDeactivated => AE_Unauthorized [Lit "user deactivated"]
  end.

(** ** CLI sessions *)

Definition map_jwt_error (e : JwtErrorKind) : VerificationError :=
  match e with
  | ExpiredSignature => VE_Expired
  | JE_InvalidAudience => VE_InvalidAudience
  | JE_InvalidSignature => VE_InvalidSignature
  | JE_Other message => VE_Malformed message
  end.

(** [exp_serde] and [iat_serde]: whole seconds, in the range of a [DateTime]. *)
Definition claims_of_wire (s : SessionWire) : result JwtErrorKind CliSessionClaims :=
  match from_timestamp (s_exp s), from_timestamp <$> s_iat s with
  | None, _ => Err (JE_Other "exp out of range"%string)
  | _, Some None => Err (JE_Other "iat out of range"%string)
  | Some exp, iat =>
      Ok {| cs_iss := s_iss s; cs_sub := s_sub s; cs_aud := s_aud s; cs_exp := exp;
            cs_iat := iat ≫= id; cs_jti := s_jti s; cs_token_kind := s_token_kind s;
            cs_claims := s_claims s |}
  end.

Definition decode_session (key : SigningKey) (now : Z) (aud jwt : string)
    : result JwtErrorKind CliSessionClaims :=
  match jwt_decode key now aud jwt with
  | Ok wire => claims_of_wire wire
  | Err e => Err e
  end.

Definition verify_claims (signer : CliSessionTokenSigner) (now : Z) (jwt aud : string)
    : result VerificationError CliSessionClaims :=
  match decode_session (signing_key signer) now aud jwt with
  | Ok claims => Ok claims
  | Err active_err =>
      match active_err, prev_verifying signer with
      | JE_InvalidSignature, Some prev => map_err map_jwt_error (decode_session prev now aud jwt)
      | _, _ => Err (map_jwt_error active_err)
      end
  end.

Definition verify (signer : CliSessionTokenSigner) (now : Z) (jwt : string) : CliSessionVerifyOutcome :=
  match verify_claims signer now jwt CLI_SESSION_AUDIENCE with
  | Ok claims =>
      if negb (bool_decide (cs_token_kind claims = CLI_SESSION_TOKEN_KIND))
      then Rejected WrongTokenKind else Verified claims
  | Err VE_InvalidAudience | Err VE_InvalidSignature | Err (VE_Malformed _) => NotOurToken
  | Err VE_Expired => Rejected SessionExpired
  end.

(** [AuthenticateUseCase], with what composition has wired. *)
Record AuthenticateUseCase : Type := {
  pat_validation : option PatLockoutConfig;
  cli_session_verifier : option CliSessionTokenSigner;
  cli_session_revocation_denylist : bool;
  idp : bool;
  claim_mappings : list ClaimMapping;
}.

Context (uc : AuthenticateUseCase).
Abbreviation login := (prog AuthWorld AppError).

(** [?] on a [DomainResult]. *)
Definition domain {A} (p : login (DomainResult A)) : login A :=
  r ← p; Done (lift_domain r).

Definition unauthorized {A} (text : string) : login A := Done (Err (AE_Unauthorized [Lit text])).

(** [parse_cli_session_cutoff]: only decimal seconds in range name an instant. *)
Definition parse_cli_session_cutoff (raw : EphemeralValue) : option DateTime :=
  match raw with EV_Seconds secs => from_timestamp secs | _ => None end.

Definition principal_of_session (claims : CliSessionClaims) (user : User) (now : DateTime)
    : CallerPrincipal :=
  {| cp_user_id := u_id user; cp_external_id := external_id_or_id user;
     cp_username := u_username user; cp_email := u_email user; cp_claims := cs_claims claims;
     cp_token_kind := Some CliSession; cp_issued_at := now; cp_token_cap := None |}.

Definition check_revoked_session (claims : CliSessionClaims) : login unit :=
  found ← eph_get (EK_SessionRevoked (cs_jti claims));
  match found with
  | Ok (Some _) => unauthorized "cli session token revoked"
  | Ok None => mret ()
  | Err _ => unauthorized "cli session revocation check unavailable"
  end.

Definition check_cutoff (claims : CliSessionClaims) : login unit :=
  found ← eph_get (EK_SessionCutoff (cs_sub claims));
  match found with
  | Ok (Some raw) =>
      match parse_cli_session_cutoff raw with
      | None => unauthorized "cli session revocation check unavailable"
      | Some cutoff =>
          let revoked := match cs_iat claims with None => true | Some iat => iat <=? cutoff end in
          if revoked then unauthorized "cli session token revoked" else mret ()
      end
  | Ok None => mret ()
  | Err _ => unauthorized "cli session revocation check unavailable"
  end.

Definition build_cli_session_principal (claims : CliSessionClaims) : login CallerPrincipal :=
  if negb (cli_session_revocation_denylist uc)
  then unauthorized "cli session revocation denylist not configured"
  else
    _ ← check_revoked_session claims;
    _ ← check_cutoff claims;
    user ← domain (user_find_by_id (cs_sub claims));
    if negb (u_is_active user) then unauthorized "user deactivated"
    else
      now ← utc_now;
      mret (principal_of_session claims user now).

(** ** The bearer *)

Definition authenticate_pat (lockout : PatLockoutConfig) (token : string) (bucket : option string)
    : login CallerPrincipal :=
  validation ← map_error map_pat_error (validate_pat lockout token bucket);
  user ← domain (user_find_by_id (v_user_id validation));
  now ← utc_now;
  mret {| cp_user_id := u_id user; cp_external_id := external_id_or_id user;
          cp_username := u_username user; cp_email := u_email user;
          cp_claims := add_admin_claim_if_admin [] (u_is_admin user);
          cp_token_kind := Some (v_kind validation); cp_issued_at := now;
          cp_token_cap := Some (v_token_cap validation) |}.

Definition user_find_by_external_id (provider : AuthProvider) (external_id : string)
    : login (DomainResult (option User)) :=
  fallible (λ w, (w, Ok (head (filter (λ u, u_auth_provider u = provider ∧ u_external_id u = Some external_id)
                                 (map_to_list (users w)).*2)))).

Definition taken (w : AuthWorld) (user : User) : bool :=
  existsb (λ u, bool_decide (u_id u ≠ u_id user) &&
                (bool_decide (u_username u = u_username user) || bool_decide (u_email u = u_email user)))
    (map_to_list (users w)).*2.

(** [INSERT ... ON CONFLICT (auth_provider, external_id) DO UPDATE]: the account keeps
    its id, its active bit and its service-account bit.  The name and the address are
    [UNIQUE]. *)
Definition upsert_on_login (draft : User) : login (DomainResult User) :=
  fallible (λ w,
    let row :=
      match filter (λ u, u_auth_provider u = u_auth_provider draft ∧ is_Some (u_external_id u) ∧
                         u_external_id u = u_external_id draft) (map_to_list (users w)).*2 with
      | old :: _ =>
          Some (old {{ u_username := u_username draft; u_email := u_email draft;
                       u_display_name := u_display_name draft; u_is_admin := u_is_admin draft;
                       u_last_login_at := u_last_login_at draft; u_updated_at := time w }})
      | [] => match users w !! u_id draft with Some _ => None | None => Some draft end
      end in
    match row with
    | Some row =>
        if taken w row then (w, Err (Conflict [Lit "User already exists"]))
        else (w {{ users ::= <[u_id row := row]> }}, Ok row)
    | None => (w, Err (Conflict [Lit "User already exists"]))
    end).

Definition ADMIN_ROLE : string := "admin".

Definition login_draft (existing : option User) (claims : IdpClaims) (is_admin : bool) (id : Uuid)
    (now : DateTime) : User :=
  match existing with
  | Some user =>
      {| u_id := u_id user; u_username := idp_username claims; u_email := idp_email claims;
         u_auth_provider := AP_Oidc; u_external_id := Some (idp_subject claims);
         u_display_name := u_display_name user; u_is_active := u_is_active user;
         u_is_admin := is_admin; u_is_service_account := u_is_service_account user;
         u_last_login_at := Some now; u_created_at := u_created_at user; u_updated_at := now |}
  | None =>
      {| u_id := id; u_username := idp_username claims; u_email := idp_email claims;
         u_auth_provider := AP_Oidc; u_external_id := Some (idp_subject claims);
         u_display_name := None; u_is_active := true; u_is_admin := is_admin;
         u_is_service_account := false; u_last_login_at := Some now; u_created_at := now;
         u_updated_at := now |}
  end.

Definition authenticate_oidc (token : string) : login CallerPrincipal :=
  validated ← ask (λ w, validate_token (auth_calls w) token);
  claims ← Done (map_err AE_OidcValidation validated);
  let resolved := resolve_claims (claim_mappings uc) (idp_groups claims) in
  let is_admin := bool_decide (ADMIN_ROLE ∈ resolved) in
  let resolved := add_admin_claim_if_admin resolved is_admin in
  existing ← domain (user_find_by_external_id AP_Oidc (idp_subject claims));
  now ← utc_now;
  id ← new_v4;
  upserted ← domain (upsert_on_login (login_draft existing claims is_admin id now));
  issued_at ← utc_now;
  mret {| cp_user_id := u_id upserted; cp_external_id := idp_subject claims;
          cp_username := u_username upserted; cp_email := u_email upserted;
          cp_claims := resolved; cp_token_kind := None; cp_issued_at := issued_at;
          cp_token_cap := None |}.

Definition oidc_or_refuse (token : string) : login CallerPrincipal :=
  if idp uc then authenticate_oidc token
  else unauthorized "OIDC bearer rejected: no identity provider configured (this server is running in local-only auth mode — use HTTP Basic against a local admin row, or a Bearer hort_<kind>_* native token)".

Definition authenticate_bearer (token : string) (bucket : option string) : login CallerPrincipal :=
  match parse_pat_token_format token with
  | Ok _ =>
      match pat_validation uc with
      | None => unauthorized "native-token validator not configured"
      | Some lockout => authenticate_pat lockout token bucket
      end
  | Err _ =>
      match cli_session_verifier uc with
      | None => oidc_or_refuse token
      | Some verifier =>
          now ← utc_now;
          match verify verifier (timestamp now) token with
          | Verified claims => build_cli_session_principal claims
          | Rejected SessionExpired => unauthorized "cli session token invalid: expired"
          | Rejected WrongTokenKind => unauthorized "cli session token invalid: wrong_token_kind"
          | NotOurToken => oidc_or_refuse token
          end
      end
  end.

(** ** Exchange *)

Record ExchangeForm : Type := {
  subject_token : string;
  requested_token_type : option string;
  (** The words of [scope]. *)
  scope : list string;
  client_id : option string;
  requested_token_lifetime : option Z;
}.

Record ExchangeError : Type := {
  xe_status : Z;
  xe_error : string;
  xe_description : fmt;
}.

Definition TOKEN_TYPE_ACCESS_TOKEN : string := "urn:ietf:params:oauth:token-type:access_token".

Fixpoint parse_requested_scope (words : list string) : result fmt (list Permission) :=
  match words with
  | [] => Ok []
  | word :: words' =>
      match Permission_from_str word with
      | Err _ => Err [Lit "scope contains unknown permission: "; ArgStr word]
      | Ok p => match parse_requested_scope words' with Ok ps => Ok (p :: ps) | Err e => Err e end
      end
  end.

Definition truncate_client_id (s : string) : string :=
  if strlen s <=? 255 then s else String.substring 0 (floor_char_boundary s 255) s.

Definition login_refusal (e : AppError) : ExchangeError :=
  match e with
  | AE_OidcValidation Oidc_Expired => {| xe_status := 401; xe_error := "invalid_token"; xe_description := [Lit "subject_token expired"] |}
  | AE_OidcValidation Oidc_IdpUnavailable => {| xe_status := 503; xe_error := "temporarily_unavailable"; xe_description := [Lit "identity provider unavailable"] |}
  | AE_OidcValidation _ => {| xe_status := 401; xe_error := "invalid_token"; xe_description := [Lit "subject_token invalid"] |}
  | AE_Domain _ | AE_Unauthorized _ => {| xe_status := 403; xe_error := "access_denied"; xe_description := [Lit "subject not authorised"] |}
  | AE_Storage _ => {| xe_status := 500; xe_error := "server_error"; xe_description := [Lit "internal error"] |}
  end.

Definition issuance_refusal (e : ApiTokenError) : ExchangeError :=
  match e with
  | LifetimeBelowMinimum => {| xe_status := 400; xe_error := "invalid_request"; xe_description := [Lit "requested_token_lifetime below 300-second minimum"] |}
  | AdminTokenDisallowed => {| xe_status := 400; xe_error := "invalid_request"; xe_description := [Lit "admin tokens disabled by composition-root config"] |}
  | AdminAuthorityRequired => {| xe_status := 403; xe_error := "access_denied"; xe_description := [Lit "admin authority required to declare admin permission"] |}
  | CapExceedsAuthority _ => {| xe_status := 403; xe_error := "access_denied"; xe_description := [Lit "issuance not authorized for the resolved user"] |}
  | Infrastructure _ => {| xe_status := 500; xe_error := "server_error"; xe_description := [Lit "internal error"] |}
  | _ => {| xe_status := 500; xe_error := "server_error"; xe_description := [Lit "internal validation error"] |}
  end.

Definition refuse_exchange {A} (status : Z) (error : string) (description : fmt)
    : prog AuthWorld ExchangeError A :=
  Done (Err {| xe_status := status; xe_error := error; xe_description := description |}).

(** The token and how many seconds it has left. *)
Definition exchange (tokens_uc : ApiTokenUseCase) (form : ExchangeForm) (ip : string) (bucket : option string)
    : prog AuthWorld ExchangeError (IssuedToken * Z) :=
  if match requested_token_type form with
     | Some t => negb (is_empty (as_bytes t)) && negb (bool_decide (t = TOKEN_TYPE_ACCESS_TOKEN))
     | None => false
     end
  then refuse_exchange 400 "invalid_target"
         [Lit "requested_token_type must be "; Lit TOKEN_TYPE_ACCESS_TOKEN]
  else
    match parse_requested_scope (scope form) with
    | Err msg => refuse_exchange 400 "invalid_request" msg
    | Ok requested =>
        match parse_pat_token_format (subject_token form) with
        | Ok _ =>
            refuse_exchange 401 "invalid_token" [Lit "source token must be an IdP-issued JWT"]
        | Err _ =>
            principal ← map_error login_refusal (authenticate_bearer (subject_token form) bucket);
            issued ← map_error issuance_refusal
                       (issue_cli_session tokens_uc principal
                          {| client_name := truncate_client_id <$> client_id form; source_ip := ip;
                             requested_scope := requested;
                             requested_lifetime_secs := requested_token_lifetime form |});
            now ← utc_now;
            mret (issued, match it_expires_at issued with
                          | Some exp => Z.max (num_seconds (signed_duration_since exp now)) 0
                          | None => 0
                          end)
        end
    end.
End authenticate.

(** ** Token text *)

Lemma alphabet_base32 i :
  0 ≤ i < 32 → ∃ b, as_bytes BASE32_ALPHABET !! Z.to_nat i = Some b ∧ is_base32 b = true.
Proof.
  intros Hi. destruct (lookup_lt_is_Some_2 (as_bytes BASE32_ALPHABET) (Z.to_nat i)) as [b Hb].
  { change (length (as_bytes BASE32_ALPHABET)) with 32%nat. lia. }
  exists b. split; [done|].
  assert (Hall : forallb is_base32 (as_bytes BASE32_ALPHABET) = true) by reflexivity.
  rewrite forallb_forall in Hall. apply Hall, list_elem_of_In. by eapply list_elem_of_lookup_2.
Qed.

Lemma as_bytes_app s t : as_bytes (s +:+ t) = as_bytes s ++ as_bytes t.
Proof.
  induction s as [|c s IH]; [done|]. change (c :: as_bytes (s +:+ t) = c :: as_bytes s ++ as_bytes t).
  by rewrite IH.
Qed.

Lemma strlen_app s t : strlen (s +:+ t) = strlen s + strlen t.
Proof. rewrite <- !len_as_bytes, as_bytes_app. unfold len. rewrite length_app. lia. Qed.

Lemma emit_digits_spec fuel buffer : ∀ bits,
  0 ≤ bits ≤ Z.of_nat fuel →
  (emit_digits fuel buffer bits).2 = bits mod 5 ∧
  strlen (emit_digits fuel buffer bits).1 = bits / 5 ∧
  forallb is_base32 (as_bytes (emit_digits fuel buffer bits).1) = true.
Proof.
  induction fuel as [|fuel IH]; intros bits Hb; cbn [emit_digits].
  { replace bits with 0 by lia. done. }
  destruct (Z.ltb_spec bits 5) as [Hlt | Hge].
  { cbn. rewrite Z.mod_small, Z.div_small by lia. done. }
  destruct (IH (bits - 5)) as (Hr & Hl & Hd); [lia|].
  destruct (emit_digits fuel buffer (bits - 5)) as [rest remaining]. cbn [fst snd] in *.
  destruct (alphabet_base32 (Z.land (Z.shiftr buffer (bits - 5)) 31)) as (b & Hlook & Hb32).
  { change 31 with (Z.ones 5). rewrite Z.land_ones by lia. by apply Z.mod_pos_bound. }
  rewrite Hlook. cbn [default fst snd]. split_and!.
  - rewrite Hr. rewrite <- (Z_mod_plus_full (bits - 5) 1 5). f_equal. lia.
  - unfold strlen in *. cbn. replace bits with (bits - 5 + 1 * 5) by lia.
    rewrite Z_div_plus_full by lia. lia.
  - cbn. by rewrite Hb32.
Qed.

Lemma encode_from_spec bytes : ∀ buffer bits,
  0 ≤ bits < 5 →
  strlen (encode_from bytes buffer bits) = (bits + 8 * len bytes) / 5 ∧
  forallb is_base32 (as_bytes (encode_from bytes buffer bits)) = true.
Proof.
  induction bytes as [|b bytes IH]; intros buffer bits Hb; cbn [encode_from].
  { cbn. split; [| done]. by rewrite Z.add_0_r, Z.div_small by lia. }
  set (buffer' := Z.lor _ _).
  destruct (emit_digits_spec (Z.to_nat (bits + 8)) buffer' (bits + 8)) as (Hr & Hl & Hd); [lia|].
  destruct (emit_digits _ _ _) as [digits remaining]. cbn [fst snd] in Hr, Hl, Hd. subst remaining.
  destruct (IH buffer' ((bits + 8) mod 5)) as [Hl' Hd']; [apply Z.mod_pos_bound; lia|].
  rewrite strlen_app, as_bytes_app, forallb_app, Hl, Hl', Hd, Hd'. split; [| done].
  unfold len. cbn [length]. rewrite Nat2Z.inj_succ.
  replace (bits + 8 * Z.succ (Z.of_nat (length bytes)))
    with (((bits + 8) mod 5 + 8 * Z.of_nat (length bytes)) + (bits + 8) / 5 * 5)
    by (pose proof (Z.div_mod (bits + 8) 5); lia).
  rewrite Z_div_plus_full by lia. lia.
Qed.

(** Twenty bytes make thirty-two characters of the alphabet. *)
Lemma encode_base32_spec bytes :
  length bytes = 20%nat →
  strlen (encode_base32_lowercase bytes) = 32 ∧
  forallb is_base32 (as_bytes (encode_base32_lowercase bytes)) = true.
Proof.
  intros Hb. destruct (encode_from_spec bytes 0 0) as [Hl Hd]; [lia|].
  split; [| done]. unfold encode_base32_lowercase. rewrite Hl. unfold len. by rewrite Hb.
Qed.

Lemma substring_app_r s t n : String.substring (String.length s) n (s +:+ t) = String.substring 0 n t.
Proof. induction s as [|c s IH]; [done|]. apply IH. Qed.

Lemma substring_full s n : String.length s = n → String.substring 0 n s = s.
Proof.
  intros <-. induction s as [|c s IH]; [done|]. cbn. by rewrite IH.
Qed.

Lemma as_bytes_substring a n s : as_bytes (String.substring a n s) = take n (drop a (as_bytes s)).
Proof.
  revert a n; induction s as [|c s IH]; intros a n; [by destruct a, n|].
  destruct a as [|a]; [| exact (IH a n)]. destruct n as [|n]; [done|].
  change (c :: as_bytes (String.substring 0 n s) = c :: take n (as_bytes s)). by rewrite IH, drop_0.
Qed.

(** A native token parses back to its kind and to the prefix under which its row is
    found. *)
Lemma parse_generated kind body :
  kind ≠ CliSession → strlen body = 32 → forallb is_base32 (as_bytes body) = true →
  parse_pat_token_format (String.concat "_" ["hort"%string; kind_prefix kind; body]) =
  Ok (kind, String.substring 0 TOKEN_PREFIX_LEN body).
Proof.
  intros Hk Hl Hd. unfold parse_pat_token_format.
  set (s := String.concat _ _).
  assert (Hs : s = ("hort_" +:+ kind_prefix kind +:+ "_") +:+ body) by (by destruct kind).
  assert (Hlen : strlen s = 41) by (rewrite Hs, !strlen_app, Hl; by destruct kind).
  assert (Hbody : String.substring 9 32 s = body).
  { rewrite Hs. set (pre := "hort_" +:+ _).
    trans (String.substring (String.length pre) 32 (pre +:+ body)); [by destruct kind|].
    rewrite substring_app_r. apply substring_full. unfold strlen in Hl. lia. }
  rewrite Hlen, Hbody, Hd, Hs. by destruct kind, body.
Qed.

(** A token with a dot in it is not a native one. *)
Lemma parse_no_dot s r : parse_pat_token_format s = Ok r → byte_of_Z 46 ∉ as_bytes s.
Proof.
  unfold parse_pat_token_format. destruct (Z.eqb_spec (strlen s) 41) as [Hl|]; [| done].
  rewrite <- len_as_bytes in Hl. unfold len in Hl. cbn [negb].
  destruct (bool_decide_reflect (String.substring 0 5 s = "hort_"%string)) as [H0|]; [| done].
  destruct (bool_decide_reflect (String.substring 8 1 s = "_"%string)) as [H8|]; [| done].
  cbn [negb orb]. intros Hparse.
  assert (Hkind : (byte_of_Z 46 ∉ as_bytes (String.substring 5 3 s)) ∧
                  forallb is_base32 (as_bytes (String.substring 9 32 s)) = true).
  { destruct (bool_decide_reflect (String.substring 5 3 s = "pat"%string)) as [H5|];
      [| destruct (bool_decide_reflect (String.substring 5 3 s = "svc"%string)) as [H5|]; [| done]];
      destruct (forallb _ _); try done; rewrite H5; split; [| done | | done]; cbn; set_solver by done. }
  destruct Hkind as [H5 H9]. apply (f_equal as_bytes) in H0, H8.
  rewrite !as_bytes_substring in *. rewrite drop_0 in H0. set (l := as_bytes s) in *.
  assert (Hsplit : l = take 5 l ++ take 3 (drop 5 l) ++ take 1 (drop 8 l) ++ take 32 (drop 9 l)).
  { rewrite <- (take_drop 5 l) at 1. f_equal. rewrite <- (take_drop 3 (drop 5 l)) at 1. f_equal.
    rewrite drop_drop. rewrite <- (take_drop 1 (drop (5 + 3) l)) at 1. f_equal.
    rewrite drop_drop, take_ge; [done|]. rewrite length_drop. lia. }
  rewrite Hsplit, !elem_of_app, H0, H8. intros [Hin | [Hin | [Hin | Hin]]].
  - by vm_compute in Hin; repeat (apply elem_of_cons in Hin as [? | Hin]; [done|]); apply not_elem_of_nil in Hin.
  - done.
  - by vm_compute in Hin; repeat (apply elem_of_cons in Hin as [? | Hin]; [done|]); apply not_elem_of_nil in Hin.
  - rewrite forallb_forall in H9. apply list_elem_of_In in Hin. by apply H9 in Hin.
Qed.
