(* ===== verification/TokenSafety.v ===== *)
(** What every interleaving of the token handlers keeps: rows are well formed and
    short-lived, a personal token grants nothing its owner did not hold, and a federated
    token is exchanged once.

    [AuthJob] lists the handlers over tokens, users and sessions.  A pool of them starts
    from any sound state; each place of the pool runs the job assigned to it, and any
    call may fail. *)

From coqutil Require Import Datatypes.RecordSetters.
From S2P Require Import Prelude.
From S2P Require Import RustStd.
From S2P Require Import Types.
From S2P Require Import Store.
From S2P Require Import Concurrent.
From S2P Require Import Rbac.
From S2P Require Import TokenCache.
From S2P Require Import RepositoryAccess.
From S2P Require Import Tokens.
From S2P Require Import Authenticate.
Import DoubleBraceUpdate.

Create HintDb quiet discriminated.

Section safety.
Context {L : Lru CacheKey CachedEntry} `{TokenBackend, Jwt, Identity}.
Context (tuc : ApiTokenUseCase) (auc : AuthenticateUseCase).

(** ** Jobs *)

Inductive AuthJob : Type :=
  | J_SelfToken (principal : CallerPrincipal) (body : IssueTokenRequestBody)
  | J_ServiceAccountToken (admin : CallerPrincipal) (target : Uuid) (body : IssueTokenRequestBody)
  | J_SystemToken (target : Uuid) (r : IssueTokenRequest)
  | J_BootstrapToken (target : Uuid) (name : string) (permissions : list Permission) (secs : Z)
  | J_CliSession (principal : CallerPrincipal) (r : IssueCliSessionRequest)
  | J_Exchange (form : ExchangeForm) (ip : string) (bucket : option string)
  | J_Bearer (token : string) (bucket : option string)
  | J_Revoke (actor token_id : Uuid) (admin_authority : bool)
  | J_RevokeSession (jti : Uuid) (exp : DateTime)
  | J_RevokeSessions (user_id : Uuid)
  | J_SaveUser (user : User)
  | J_StoreRbac (evaluator : RbacEvaluator)
  | J_PruneReplay
  | J_DispatchNotice
  | J_ListenerLost.

Inductive AuthReply : Type :=
  | R_Issued (r : result ApiTokenError IssuedToken)
  | R_Principal (r : AppResult CallerPrincipal)
  | R_CutOff (r : result ApiTokenError CliSessionCutoff)
  | R_Other.

Abbreviation handler := (prog AuthWorld Empty_set AuthReply).

Definition from_body (body : IssueTokenRequestBody)
    (k : IssueTokenRequest → prog AuthWorld ApiTokenError IssuedToken) : handler :=
  match parse_request body with
  | Err _ => mret R_Other
  | Ok r => conclude R_Issued (k r)
  end.

(** The handler of a job, at a place of the pool. *)
Definition handle_job (i : nat) (j : AuthJob) : handler :=
  match j with
  | J_SelfToken principal body => from_body body (issue_self_token tuc principal)
  | J_ServiceAccountToken admin target body => from_body body (issue_for_service_account tuc admin target)
  | J_SystemToken target r => conclude R_Issued (issue_for_service_account_system tuc i target r)
  | J_BootstrapToken target name permissions secs =>
      conclude R_Issued (issue_for_bootstrap_admin_system target name permissions secs)
  | J_CliSession principal r => conclude R_Issued (issue_cli_session tuc principal r)
  | J_Exchange form ip bucket => conclude (λ _, R_Other) (exchange auc tuc form ip bucket)
  | J_Bearer token bucket => conclude R_Principal (authenticate_bearer auc token bucket)
  | J_Revoke actor token_id admin => conclude (λ _, R_Other) (revoke actor token_id admin)
  | J_RevokeSession jti exp => conclude (λ _, R_Other) (revoke_cli_session tuc jti exp)
  | J_RevokeSessions user_id => conclude R_CutOff (revoke_cli_sessions_for_user tuc user_id)
  | J_SaveUser user => conclude (λ _, R_Other) (user_save (E := DomainError) user)
  | J_StoreRbac evaluator => conclude (λ _, R_Other) (store_rbac (E := DomainError) evaluator)
  | J_PruneReplay => conclude (λ _, R_Other) (prune_expired (E := DomainError))
  | J_DispatchNotice => conclude (λ _, R_Other) (dispatch_notice (E := DomainError))
  | J_ListenerLost => conclude (λ _, R_Other) (listener_lost (E := DomainError))
  end.

(** ** What holds *)

Definition DAYS (n : Z) : Duration := n * DAY * NANOS.

(** A stored row. *)
Record well_formed (t : ApiToken) : Prop := {
  wf_name : as_bytes (trim (t_name t)) ≠ [] ∧ strlen (t_name t) ≤ MAX_NAME_LEN;
  wf_description d : t_description t = Some d → strlen d ≤ MAX_DESCRIPTION_LEN;
  wf_kind : t_kind t ≠ CliSession;
  wf_repositories : t_repository_ids t ≠ Some [];
  wf_prefix : strlen (t_token_prefix t) = 8 ∧ forallb is_base32 (as_bytes (t_token_prefix t)) = true;
  wf_admin : Admin ∈ t_declared_permissions t → t_kind t = Pat;
}.

(** How long it can last. *)
Record short_lived (t : ApiToken) : Prop := {
  sl_pat : t_kind t = Pat →
    ∃ e, t_expires_at t = Some e ∧ e ≤ t_created_at t + DAYS MAX_EXPIRY_DAYS;
  sl_admin : Admin ∈ t_declared_permissions t →
    ∃ e, t_expires_at t = Some e ∧ e ≤ t_created_at t + DAYS MAX_ADMIN_EXPIRY_DAYS;
  sl_unbounded : t_expires_at t = None →
    t_kind t = ServiceAccount ∧ allow_unbounded_svc_tokens (config tuc) = true;
}.

Record sound (w : AuthWorld) : Prop := {
  so_rows : map_Forall (λ id t, t_id t = id ∧ well_formed t ∧ short_lived t) (tokens w);
  so_users : map_Forall (λ id u, u_id u = id) (users w);
}.

(** The users whose CLI sessions nobody is cutting off. *)
Context (frozen : Uuid → Prop).

Definition was_loaded (w : AuthWorld) (e : RbacEvaluator) : Prop := e = rbac w ∨ e ∈ past_rbac w.

(** How the state moves: time goes on, evaluators are remembered, a row only gets its
    revocation stamp, and a claim of the replay guard stays until its horizon. *)
Record evolves (w w' : AuthWorld) : Prop := {
  ev_calls : (auth_calls w ≤ auth_calls w')%nat;
  ev_loaded e : was_loaded w e → was_loaded w' e;
  ev_rows id t : tokens w !! id = Some t →
    ∃ stamp, tokens w' !! id = Some (t {{ t_revoked_at := stamp }});
  ev_claims key d i : replay_seen w !! key = Some (d, i) →
    replay_seen w' !! key = Some (d, i) ∨ d < time w';
}.

(** A step also leaves the cutoffs of the frozen users alone. *)
Definition moves (w w' : AuthWorld) : Prop :=
  evolves w w' ∧
  ∀ u, frozen u → ephemeral w' !! EK_SessionCutoff u = ephemeral w !! EK_SessionCutoff u.

Lemma time_mono w w' : (auth_calls w ≤ auth_calls w')%nat → time w ≤ time w'.
Proof. apply clock_mono. Qed.

#[export] Instance evolves_preorder : PreOrder evolves.
Proof.
  split.
  - intros w. split; try done; [| by left]. intros id t Ht. exists (t_revoked_at t). by destruct t.
  - intros w1 w2 w3 [Hc1 Hl1 Hr1 Hk1] [Hc2 Hl2 Hr2 Hk2].
    split; [lia | auto | |].
    + intros id t Ht. destruct (Hr1 id t Ht) as [s1 Hs1]. destruct (Hr2 id _ Hs1) as [s2 Hs2].
      exists s2. by destruct t.
    + intros key d i Hk. destruct (Hk1 _ _ _ Hk) as [Hk' | Hd]; [auto|].
      right. pose proof (time_mono w2 w3 Hc2). lia.
Qed.

#[export] Instance moves_preorder : PreOrder moves.
Proof.
  split; [by intros w; split |]. intros w1 w2 w3 [He1 Hu1] [He2 Hu2].
  split; [by trans w2 | intros u Hu; by rewrite Hu2, Hu1].
Qed.

(** A state that differs from [w] in none of what [moves] speaks of. *)
Definition same_core (w w' : AuthWorld) : Prop :=
  (auth_calls w ≤ auth_calls w')%nat ∧ rbac w' = rbac w ∧ past_rbac w' = past_rbac w ∧
  tokens w' = tokens w ∧ replay_seen w' = replay_seen w ∧
  ∀ u, frozen u → ephemeral w' !! EK_SessionCutoff u = ephemeral w !! EK_SessionCutoff u.

Lemma same_core_moves w w' : same_core w w' → moves w w'.
Proof.
  intros (Hc & Hr & Hp & Ht & Hs & Hu). split; [| done]. split; [done | | |].
  - intros e. unfold was_loaded. by rewrite Hr, Hp.
  - intros id t Hid. rewrite Ht. exists (t_revoked_at t). by destruct t.
  - rewrite Hs. by left.
Qed.

Lemma moves_tick w : moves w (auth_tick w).
Proof. apply same_core_moves. split_and!; [exact (Nat.le_succ_diag_r _) | done..]. Qed.

Lemma evolves_tick w : evolves w (auth_tick w).
Proof. apply moves_tick. Qed.

Lemma sound_tick w : sound w → sound (auth_tick w).
Proof. by intros []; split. Qed.

(** ** Specifications

    [spec w p Q]: whatever the others do, from [w] the handler keeps the state sound,
    takes steps that [moves] allows, and if it succeeds then [Q].  The others may do
    more than that: they may cut off the sessions of a frozen user. *)

Definition ok_post {E A} (Q : A → AuthWorld → Prop) (r : result E A) (w : AuthWorld) : Prop :=
  match r with Ok a => Q a w | Err _ => True end.

Definition spec {E A} (w : AuthWorld) (p : prog AuthWorld E A) (Q : A → AuthWorld → Prop) : Prop :=
  wp sound evolves moves p (ok_post Q) w.

Lemma spec_ret {E A} w (a : A) Q : Q a w → spec w (mret a : prog AuthWorld E A) Q.
Proof. done. Qed.

Lemma spec_err {E A} w (e : E) (Q : A → AuthWorld → Prop) : spec w (Done (Err e)) Q.
Proof. done. Qed.

Lemma spec_done {E A} w (r : result E A) Q : (∀ a, r = Ok a → Q a w) → spec w (Done r) Q.
Proof. intros HQ. destruct r as [a|e]; [by apply HQ | done]. Qed.

Lemma spec_bind {E A B} w (p : prog AuthWorld E A) (f : A → prog AuthWorld E B) Q :
  spec w p (λ a w', spec w' (f a) Q) → spec w (p ≫= f) Q.
Proof. intros Hp. apply wp_bind. eapply wp_mono; [| exact Hp]. by intros [a|e] w'. Qed.

Lemma spec_mono {E A} w (p : prog AuthWorld E A) (Q Q' : A → AuthWorld → Prop) :
  (∀ a w', Q a w' → Q' a w') → spec w p Q → spec w p Q'.
Proof. intros HQ. apply wp_mono. intros [a|e] w'; [apply HQ | done]. Qed.

Lemma spec_map_error {E E' A} w (f : E' → E) (p : prog AuthWorld E' A) Q :
  spec w p Q → spec w (map_error f p) Q.
Proof. intros Hp. apply wp_map_error. eapply wp_mono; [| exact Hp]. by intros [a|e] w'. Qed.

Lemma spec_ask {E A} w (f : AuthWorld → A) Q :
  (∀ w1, evolves w w1 → Q (f w1) (auth_tick w1)) → spec w (ask f : prog AuthWorld E A) Q.
Proof.
  intros HQ. apply wp_port. intros w1 Hr Hi.
  split_and!; [by apply sound_tick | apply moves_tick | by apply HQ].
Qed.

(** A call that may fail: it keeps the state sound, whatever it answers. *)
Lemma spec_fallible {E A} w (f : AuthWorld → AuthWorld * DomainResult A) Q :
  (∀ w1, evolves w w1 → sound w1 →
     (∀ e, Q (Err e) (auth_tick w1)) ∧
     sound (f w1).1 ∧ moves w1 (auth_tick (f w1).1) ∧ Q (f w1).2 (auth_tick (f w1).1)) →
  spec w (fallible f : prog AuthWorld E (DomainResult A)) Q.
Proof.
  intros HQ. apply wp_port. intros w1 Hr Hi. destruct (HQ w1 Hr Hi) as (He & Hs & Hg & Hq).
  destruct (auth_fault (auth_calls w1)) as [e|].
  - split_and!; [by apply sound_tick | apply moves_tick | apply He].
  - destruct (f w1) as [w2 r]. cbn in *. split_and!; [by apply sound_tick | done | done].
Qed.

Lemma spec_infra {A} w (p : prog AuthWorld ApiTokenError (DomainResult A)) Q :
  spec w p (λ r w', ∀ a, r = Ok a → Q a w') → spec w (infra p) Q.
Proof.
  intros Hp. apply spec_bind. eapply spec_mono; [| exact Hp]. cbn. intros r w' Hr.
  apply spec_done. intros a Ha. apply Hr. destruct r; cbn in Ha; congruence.
Qed.

(** A read of the tables. *)
Lemma spec_read {E A} w (f : AuthWorld → DomainResult A) Q :
  (∀ w1, evolves w w1 → sound w1 → Q (f w1) (auth_tick w1)) → (∀ e w', evolves w w' → Q (Err e) w') →
  spec w (fallible (λ w, (w, f w)) : prog AuthWorld E (DomainResult A)) Q.
Proof.
  intros HQ He. apply spec_fallible. intros w1 Hr Hi. split_and!; [| done | apply moves_tick | by apply HQ].
  intros e. apply He. etrans; [done | apply evolves_tick].
Qed.

(** The state a handler leaves has evolved from the one it started in. *)
Lemma spec_evolves {E A} w (p : prog AuthWorld E A) Q :
  spec w p Q → spec w p (λ a w', evolves w w' ∧ Q a w').
Proof.
  intros Hp. unfold spec.
  enough (Hg : ∀ w0, evolves w0 w → wp sound evolves moves p (ok_post (λ a w', evolves w0 w' ∧ Q a w')) w)
    by (by apply Hg).
  revert w Hp. induction p as [r | step IH] using prog_induction; intros w Hp w0 Hw0.
  { destruct r as [a|e]; [by split | done]. }
  cbn in *. intros w1 Hr Hi. specialize (Hp w1 Hr Hi). specialize (IH w1).
  destruct (step w1) as [w2 p']. destruct Hp as (? & Hm & Hp). split_and!; [done..|].
  apply IH; [done|]. trans w1; [by trans w | apply Hm].
Qed.

Definition quiet {E A} (p : prog AuthWorld E A) : Prop := ∀ w, spec w p (λ _ _, True).

(** Continue after a handler of which no more is known than that it evolves the state. *)
Lemma spec_then {E A B} w (p : prog AuthWorld E A) (f : A → prog AuthWorld E B) Q :
  quiet p → (∀ a w', evolves w w' → spec w' (f a) Q) → spec w (p ≫= f) Q.
Proof.
  intros Hp Hf. apply spec_bind. eapply spec_mono; [| by apply spec_evolves, Hp]. cbn. naive_solver.
Qed.

Lemma quiet_bind {E A B} (p : prog AuthWorld E A) (f : A → prog AuthWorld E B) :
  quiet p → (∀ a, quiet (f a)) → quiet (p ≫= f).
Proof. intros Hp Hf w. apply spec_then; [apply Hp | intros a w' _; apply Hf]. Qed.

Lemma quiet_done {E A} (r : result E A) : quiet (Done r).
Proof. intros w. by apply spec_done. Qed.

Lemma quiet_ret {E A} (a : A) : quiet (mret a : prog AuthWorld E A).
Proof. by intros w. Qed.

Lemma quiet_ask {E A} (f : AuthWorld → A) : quiet (ask f : prog AuthWorld E A).
Proof. intros w. by apply spec_ask. Qed.

Lemma quiet_spec {E A} (p : prog AuthWorld E A) Q : (∀ w, spec w p (Q w)) → quiet p.
Proof. intros Hp w. by eapply spec_mono; [| apply Hp]. Qed.

(** A call that touches none of what is tracked. *)
Lemma quiet_fallible {E A} (f : AuthWorld → AuthWorld * DomainResult A) :
  (∀ w, same_core w (f w).1) → (∀ w, sound w → sound (f w).1) →
  quiet (fallible f : prog AuthWorld E (DomainResult A)).
Proof.
  intros Hc Hs w. apply spec_fallible. intros w1 _ Hi. split_and!; [done | by apply Hs | | done].
  etrans; [apply same_core_moves, Hc | apply moves_tick].
Qed.

Lemma quiet_port {E A} (m : AuthWorld → AuthWorld * A) :
  (∀ w, same_core w (m w).1) → (∀ w, sound w → sound (m w).1) →
  quiet (port m : prog AuthWorld E A).
Proof. intros Hc Hs w. apply wp_port. intros w1 _ Hi. split_and!; [by apply Hs | | done].
  apply same_core_moves, Hc. Qed.

Lemma quiet_retry {E A} n (f : prog AuthWorld E (DomainResult A)) :
  quiet f → quiet (with_conflict_retry n f).
Proof.
  intros Hf. induction n as [|[|n] IH]; [done..|]. change (quiet (r ← f;
    match r with Err (Conflict _) => with_conflict_retry (S n) f | _ => mret r end)).
  apply quiet_bind; [done|]. intros [a|[]]; first [exact IH | apply quiet_done].
Qed.

Lemma quiet_infra {A} (p : prog AuthWorld ApiTokenError (DomainResult A)) :
  quiet p → quiet (infra p).
Proof. intros Hp. apply quiet_bind; [done|]. intros r. apply quiet_done. Qed.
#[local] Hint Resolve quiet_done quiet_ret quiet_ask quiet_retry quiet_infra : quiet.

(** ** Calls *)

Lemma quiet_append {E} user actor event :
  quiet (append_any_with_conflict_retry user actor event : prog AuthWorld E _).
Proof.
  apply quiet_retry, quiet_fallible; [done|]. by intros w []; split.
Qed.

Lemma quiet_utc_now {E} : quiet (utc_now : prog AuthWorld E _).
Proof. apply quiet_ask. Qed.

Lemma quiet_user_find {E} id : quiet (user_find_by_id id : prog AuthWorld E _).
Proof. by apply quiet_fallible. Qed.

Lemma quiet_eph_get {E} k : quiet (eph_get k : prog AuthWorld E _).
Proof. by apply quiet_fallible. Qed.

(** A write to the short-lived store under any key but the cutoff of a frozen user. *)
Definition thawed (k : EphemeralKey) : Prop :=
  match k with EK_SessionCutoff u => ¬ frozen u | _ => True end.

Lemma same_core_ephemeral w k x : thawed k → same_core w (w {{ ephemeral ::= <[k := x]> }}).
Proof.
  intros Hk. split_and!; [done..|]. intros u Hu.
  apply (lookup_insert_ne (ephemeral w) k (EK_SessionCutoff u) x). by intros ->.
Qed.

Lemma quiet_eph_put {E} k v secs : thawed k → quiet (eph_put k v secs : prog AuthWorld E _).
Proof.
  intros Hk. apply quiet_fallible; [intros w; by apply same_core_ephemeral|]. by intros w []; split.
Qed.

Lemma quiet_eph_put_if_absent {E} k v secs :
  thawed k → quiet (eph_put_if_absent k v secs : prog AuthWorld E _).
Proof.
  intros Hk. apply quiet_fallible; intros w; [destruct (is_some _); [done | by apply same_core_ephemeral]|].
  intros Hs. destruct (is_some _); [done|]. by destruct Hs; split.
Qed.
#[local] Hint Resolve quiet_append quiet_utc_now quiet_user_find quiet_eph_get
  quiet_eph_put quiet_eph_put_if_absent : quiet.

#[local] Hint Extern 1 (thawed _) => exact I || assumption : quiet.

Ltac quiet :=
  repeat first
    [ solve [auto 3 with quiet nocore]
    | apply quiet_bind; [| intros ?]
    | case_match ].

Lemma quiet_emit_denial actor target kind r reason : quiet (emit_denial actor target kind r reason).
Proof. unfold emit_denial. quiet. Qed.

(** A denial never succeeds. *)
Lemma spec_deny {A} w actor target kind r reason e (Q : A → AuthWorld → Prop) :
  spec w (deny actor target kind r reason e) Q.
Proof. apply spec_then; [apply quiet_emit_denial | intros; apply spec_err]. Qed.

Lemma quiet_deny {A} actor target kind r reason e : quiet (deny (A := A) actor target kind r reason e).
Proof. intros w. apply spec_deny. Qed.
#[local] Hint Resolve quiet_deny : quiet.

(** The clock is read while the handler runs. *)
Lemma spec_utc_now {E} w (Q : DateTime → AuthWorld → Prop) :
  (∀ t w', evolves w w' → t ≤ time w' → Q t w') → spec w (utc_now : prog AuthWorld E _) Q.
Proof.
  intros HQ. apply spec_ask. intros w1 Hr. apply HQ; [by etrans; [| apply evolves_tick]|].
  apply time_mono. exact (Nat.le_succ_diag_r _).
Qed.

Lemma spec_find_user w id Q :
  (∀ u w', evolves w w' → u_id u = id → Q u w') → spec w (infra (user_find_by_id id)) Q.
Proof.
  intros HQ. apply spec_infra, spec_read; [| done]. intros w1 Hr Hi u. destruct (users w1 !! id) eqn:Hu; [| done].
  intros [= <-]. apply HQ; [by etrans; [| apply evolves_tick]|]. by apply (so_users _ Hi).
Qed.

(** An expiry lies at most so many seconds after the clock. *)
Lemma spec_expiring_in w secs Q :
  (∀ e w', evolves w w' → in_range e → e ≤ time w' + secs * NANOS → Q (Some e) w') →
  spec w (expiring_in secs) Q.
Proof.
  intros HQ. apply spec_bind, spec_utc_now. intros now w' Hev Hnow. unfold duration_seconds.
  destruct (Z.leb_spec (Z.abs secs) (i64_MAX / 1000)); [| apply spec_err]. cbn.
  destruct (time_add now (secs * NANOS)) as [e|] eqn:He; [| apply spec_err].
  apply checked_time_Some in He as [-> Hin]. apply (spec_ret (E := ApiTokenError)), HQ; [done | done | lia].
Qed.

(** ** The gates *)

(** The expiry a request gets: bounded by its seconds, or by the rules for its kind. *)
Record expiry_ok (kind : TokenKind) (r : IssueTokenRequest) (w : AuthWorld) (e : option DateTime) : Prop := {
  eo_seconds secs : rq_expires_in_seconds r = Some secs →
    ∃ x, e = Some x ∧ in_range x ∧ x ≤ time w + u64_as_i64 secs * NANOS;
  eo_pat : rq_expires_in_seconds r = None → kind = Pat →
    ∃ x, e = Some x ∧ x ≤ time w + DAYS MAX_EXPIRY_DAYS;
  eo_admin : rq_expires_in_seconds r = None → Admin ∈ rq_declared_permissions r →
    ∃ x, e = Some x ∧ x ≤ time w + DAYS MAX_ADMIN_EXPIRY_DAYS;
  eo_unbounded : e = None → kind = ServiceAccount ∧ allow_unbounded_svc_tokens (config tuc) = true;
}.

Lemma expiry_ok_later kind r w w' e : evolves w w' → expiry_ok kind r w e → expiry_ok kind r w' e.
Proof.
  intros Hev [Hs Hp Ha Hu]. pose proof (time_mono w w' (ev_calls _ _ Hev)) as Ht.
  split; [| | | done]; intros.
  - edestruct Hs as (x & -> & ? & ?); [done|]. exists x. split_and!; [done.. | lia].
  - destruct Hp as (x & -> & ?); [done..|]. exists x. split; [done | lia].
  - destruct Ha as (x & -> & ?); [done..|]. exists x. split; [done | lia].
Qed.

(** An expiry of some days, within the bound of its kind. *)
Lemma expiry_ok_days kind r w e days :
  rq_expires_in_seconds r = None → e ≤ time w + days * DAY * NANOS → days ≤ MAX_EXPIRY_DAYS →
  (Admin ∈ rq_declared_permissions r → days ≤ MAX_ADMIN_EXPIRY_DAYS) → expiry_ok kind r w (Some e).
Proof.
  intros Hsec He Hd Ha. unfold MAX_EXPIRY_DAYS, MAX_ADMIN_EXPIRY_DAYS in *.
  split; [congruence | | | done]; intros; exists e; (split; [done|]);
    unfold DAYS, DAY, NANOS, MAX_EXPIRY_DAYS, MAX_ADMIN_EXPIRY_DAYS in *; [lia|].
  specialize (Ha ltac:(done)). lia.
Qed.

Lemma spec_resolve_expiry w actor caller target kind r Q :
  (∀ e w', evolves w w' → expiry_ok kind r w' e → Q e w') →
  spec w (resolve_expiry tuc actor caller target kind r (bool_decide (Admin ∈ rq_declared_permissions r))) Q.
Proof.
  intros HQ. unfold resolve_expiry.
  destruct (rq_expires_in_seconds r) as [secs|] eqn:Hsec.
  { apply spec_expiring_in. intros e w' Hev Hin He. apply HQ; [done|].
    split; try congruence. intros secs' Hs. injection (eq_trans (eq_sym Hsec) Hs) as <-. eauto. }
  assert (Hdays : ∀ days, days ≤ MAX_EXPIRY_DAYS →
    (Admin ∈ rq_declared_permissions r → days ≤ MAX_ADMIN_EXPIRY_DAYS) → spec w (expiring_in (days * DAY)) Q).
  { intros days Hd Ha. apply spec_expiring_in. intros e w' Hev _ He. apply HQ; [done|].
    by eapply expiry_ok_days. }
  destruct (bool_decide_reflect (Admin ∈ rq_declared_permissions r)) as [Hadm | Hadm].
  - destruct (rq_expires_in_days r) as [days|]; [| apply spec_deny].
    destruct (Z.ltb_spec days 1), (Z.ltb_spec MAX_ADMIN_EXPIRY_DAYS days); try apply spec_deny.
    apply Hdays; [| done]. unfold MAX_ADMIN_EXPIRY_DAYS, MAX_EXPIRY_DAYS in *. lia.
  - assert (Hbounded : ∀ days, spec w (if days =? 0 then Done (Err ExpiryZero)
      else if MAX_EXPIRY_DAYS <? days then Done (Err ExpiryTooLong) else expiring_in (days * DAY)) Q).
    { intros days. destruct (days =? 0); [apply spec_err|].
      destruct (Z.ltb_spec MAX_EXPIRY_DAYS days); [apply spec_err | by apply Hdays]. }
    destruct kind, (rq_expires_in_days r) as [days|]; try apply Hbounded.
    + by apply Hdays.
    + destruct (allow_unbounded_svc_tokens (config tuc)) eqn:Hallow, (is_admin_claim (cp_claims caller)); try apply spec_deny.
      apply (spec_ret (E := ApiTokenError)), HQ; [done|]. by split; rewrite ?Hsec.
    + apply spec_expiring_in. intros e w' Hev _ He. apply HQ; [done|]. by split; rewrite ?Hsec.
Qed.

(** What a request that passed the gates satisfies. *)
Record passed (subject : CallerPrincipal) (kind : TokenKind) (r : IssueTokenRequest) (w : AuthWorld)
    (e : option DateTime) : Prop := {
  pa_text : check_text (rq_name r) (rq_description r) = Ok ();
  pa_repositories : rq_repository_ids r ≠ Some [];
  pa_expiry : expiry_ok kind r w e;
  pa_authority : ∃ evaluator, was_loaded w evaluator ∧ exceeding evaluator subject r = [];
}.

Lemma passed_later subject kind r w w' e :
  evolves w w' → passed subject kind r w e → passed subject kind r w' e.
Proof.
  intros Hev [? ? Hx (ev & Hl & Hex)]. split; [done | done | by eapply expiry_ok_later |].
  exists ev. split; [| done]. by apply (ev_loaded _ _ Hev).
Qed.

Lemma spec_run_issuance_gates w actor caller subject target kind r Q :
  (∀ e w', evolves w w' → passed subject kind r w' e → Q e w') →
  spec w (run_issuance_gates tuc actor caller subject target kind r) Q.
Proof.
  intros HQ. unfold run_issuance_gates. destruct (bool_decide _); [apply spec_deny|].
  apply spec_bind, spec_done. intros [] Hval. apply spec_bind, spec_done. intros [] Htext.
  destruct (empty_repository_set r) eqn:Hrepo; [apply spec_deny|].
  destruct (_ && _); [apply spec_deny|]. destruct (_ && _); [apply spec_deny|].
  apply spec_bind, spec_resolve_expiry. intros e w1 Hev1 Hexp. apply spec_bind, spec_ask.
  intros w2 Hev2. destruct (exceeding (rbac w2) subject r) as [|x failed] eqn:Hex; [| apply spec_deny].
  apply (spec_ret (E := ApiTokenError)). pose proof (evolves_tick w2) as Htick.
  apply HQ; [by repeat (etrans; [done|])|]. split; [done | | |].
  - intros Hr. unfold empty_repository_set in Hrepo. by rewrite Hr in Hrepo.
  - eapply expiry_ok_later; [| done]. by etrans.
  - exists (rbac w2). split; [by left | done].
Qed.

(** ** Rows *)

Lemma check_text_ok name description :
  check_text name description = Ok () →
  (as_bytes (trim name) ≠ [] ∧ strlen name ≤ MAX_NAME_LEN) ∧
  ∀ d, description = Some d → strlen d ≤ MAX_DESCRIPTION_LEN.
Proof.
  unfold check_text. destruct (as_bytes (trim name)) eqn:Ht; [done|]. cbn.
  destruct (Z.ltb_spec MAX_NAME_LEN (strlen name)); [done|].
  destruct description as [d|]; [| by intros _; split_and!].
  destruct (Z.ltb_spec MAX_DESCRIPTION_LEN (strlen d)); [done|]. intros _. split_and!; [done..|].
  by intros ? [= <-].
Qed.

Definition good_prefix (prefix : string) : Prop :=
  strlen prefix = 8 ∧ forallb is_base32 (as_bytes prefix) = true.

Lemma spec_generate w kind Q :
  kind ≠ CliSession →
  (∀ plaintext prefix w', evolves w w' → good_prefix prefix →
     parse_pat_token_format plaintext = Ok (kind, prefix) → Q (plaintext, prefix) w') →
  spec w (generate_token_plaintext kind) Q.
Proof.
  intros Hk HQ. apply spec_bind, spec_ask. intros w1 Hev. apply (spec_ret (E := ApiTokenError)).
  destruct (encode_base32_spec (random_bytes (auth_calls w1)) (random_bytes_len _)) as [Hl Hd].
  apply HQ; [by etrans; [| apply evolves_tick] | | by apply parse_generated].
  unfold good_prefix. rewrite <- len_as_bytes in *. rewrite as_bytes_substring, drop_0.
  unfold len in *. rewrite length_take. split; [unfold TOKEN_PREFIX_LEN; lia|].
  rewrite forallb_forall in *. intros b Hb. apply Hd, list_elem_of_In.
  rewrite <- (take_drop TOKEN_PREFIX_LEN (as_bytes _)). apply elem_of_app. left. by apply list_elem_of_In.
Qed.

Lemma quiet_hashed plaintext : quiet (hashed plaintext).
Proof. unfold hashed. quiet. Qed.

Lemma spec_hashed w plaintext Q :
  (∀ hash w', evolves w w' → verify_token plaintext hash = true → Q hash w') → spec w (hashed plaintext) Q.
Proof.
  intros HQ. apply spec_bind, spec_ask. intros w1 Hev. apply spec_done. intros hash Hh.
  apply HQ; [by etrans; [| apply evolves_tick]|]. eapply (hash_verifies (auth_calls w1)).
  destruct (hash_token _ _); cbn in Hh; congruence.
Qed.

Lemma quiet_new_v4 {E} : quiet (new_v4 : prog AuthWorld E _).
Proof. apply quiet_ask. Qed.
#[local] Hint Resolve quiet_hashed quiet_new_v4 : quiet.

(** A good row is stored, under its id. *)
Lemma spec_insert w t Q :
  well_formed t → short_lived t →
  (∀ w', evolves w w' → tokens w' !! t_id t = Some t → Q () w') →
  spec w (infra (token_insert t)) Q.
Proof.
  intros Hwf Hsl HQ. apply spec_infra, spec_fallible. intros w1 Hev Hi. split; [done|].
  destruct (tokens w1 !! t_id t) eqn:Ht; cbn [fst snd].
  { split_and!; [done | apply moves_tick | done]. }
  assert (Hev' : evolves w1 (auth_tick (w1 {{ tokens ::= <[t_id t := t]> }}))).
  { split; [exact (Nat.le_succ_diag_r _) | done | | by left].
    intros id t' Hid. exists (t_revoked_at t'). cbn.
    rewrite lookup_insert_ne by congruence. change (tokens w1 !! id = Some (t' {{ t_revoked_at := t_revoked_at t' }})).
    rewrite Hid. by destruct t'. }
  split_and!; [| by split |].
  - split; [| by destruct Hi]. apply map_Forall_insert_2; [done | by destruct Hi].
  - intros [] _. apply HQ; [by etrans|]. cbn. apply lookup_insert_eq.
Qed.

(** ** Authority *)

Definition row_cap (t : ApiToken) : TokenCap := flat_cap (t_declared_permissions t) (t_repository_ids t).

(** Whatever the row lets through, the subject was authorised for. *)
Definition within (evaluator : RbacEvaluator) (subject : CallerPrincipal) (t : ApiToken) : Prop :=
  ∀ perm repo, cap_allows_optional_repo (Some (row_cap t)) perm repo = true →
    authorize evaluator subject perm repo = true.

Lemma exceeding_nil evaluator subject r perm scope :
  exceeding evaluator subject r = [] → perm ∈ rq_declared_permissions r →
  scope ∈ match rq_repository_ids r with None => [None] | Some ids => Some <$> ids end →
  authorize evaluator subject perm scope = true.
Proof.
  intros Hex Hp Hs. destruct (authorize evaluator subject perm scope) eqn:Ha; [done|].
  enough (Hin : (scope, perm) ∈ exceeding evaluator subject r) by (rewrite Hex in Hin; by apply not_elem_of_nil in Hin).
  apply list_elem_of_bind. exists scope. split; [| done]. apply list_elem_of_omap. exists perm.
  by rewrite Ha.
Qed.

Lemma passed_within evaluator subject r t :
  exceeding evaluator subject r = [] → t_declared_permissions t = rq_declared_permissions r →
  t_repository_ids t = rq_repository_ids r → within evaluator subject t.
Proof.
  intros Hex Hp Hr perm repo. rewrite cap_allows_spec. intros (Hperm & Hids & _).
  cbn in Hperm, Hids. rewrite Hp in Hperm. rewrite Hr in Hids.
  destruct (rq_repository_ids r) as [ids|] eqn:Hrepo.
  - destruct (Hids ids eq_refl) as (x & -> & Hx). eapply exceeding_nil; [done..|].
    rewrite Hrepo. by apply list_elem_of_fmap_2.
  - apply authorize_global. eapply exceeding_nil; [done..|]. rewrite Hrepo. by apply list_elem_of_singleton.
Qed.

(** ** Issuance *)

Lemma fresh_row_ok id target kind hash prefix r e actor now w subject :
  kind ≠ CliSession → rq_expires_in_seconds r = None → passed subject kind r w e → good_prefix prefix →
  (Admin ∈ rq_declared_permissions r → kind = Pat) → time w ≤ now →
  let t := fresh_row id target (rq_name r) (rq_description r) kind hash prefix
             (rq_declared_permissions r) (rq_repository_ids r) e actor now in
  well_formed t ∧ short_lived t.
Proof.
  intros Hk Hsec [Htext Hrepo [_ Hpat Hadm Hunb] _] Hpre Hakind Hnow t.
  destruct (check_text_ok _ _ Htext) as [Hname Hdesc]. split.
  - split; [done..|]. exact Hakind.
  - split; cbn.
    + intros Hkind. destruct (Hpat Hsec Hkind) as (x & -> & Hx). exists x. split; [done | lia].
    + intros Ha. destruct (Hadm Hsec Ha) as (x & -> & Hx). exists x. split; [done | lia].
    + exact Hunb.
Qed.

(** The text that was handed out leads to the row. *)
Record opens (it : IssuedToken) (kind : TokenKind) (t : ApiToken) : Prop := {
  op_kind : t_kind t = kind;
  op_format : parse_pat_token_format (it_plaintext it) = Ok (kind, t_token_prefix t);
  op_hash : verify_token (it_plaintext it) (t_token_hash t) = true;
}.

(** What is known of a token that was issued. *)
Definition granted (subject : CallerPrincipal) (user : Uuid) (kind : TokenKind) (it : IssuedToken)
    (w : AuthWorld) : Prop :=
  ∃ t evaluator, tokens w !! it_id it = Some t ∧ t_user_id t = user ∧ opens it kind t ∧
    was_loaded w evaluator ∧ within evaluator subject t.

Lemma spec_issue_inner w actor caller subject target kind r :
  kind ≠ CliSession → rq_expires_in_seconds r = None →
  (Admin ∈ rq_declared_permissions r → kind = Pat) →
  spec w (issue_inner tuc actor caller subject target kind r) (granted subject (u_id target) kind).
Proof.
  intros Hk Hsec Hadm. apply spec_bind, spec_run_issuance_gates. intros e w1 _ Hpass.
  apply spec_bind, spec_generate; [done|]. intros plaintext prefix w2 Hev2 Hpre Hfmt.
  apply spec_bind, spec_hashed. intros hash w3 Hev3 Hhash.
  apply spec_bind, spec_ask. intros w4 Hev4. apply spec_then; [apply quiet_new_v4|]. intros id w5 Hev5.
  assert (Hev : evolves w1 w4) by (by repeat (etrans; [done|])).
  destruct (fresh_row_ok id target kind hash prefix r e actor (time w4) w1 subject) as [Hwf Hsl];
    [done.. | by apply time_mono, ev_calls|].
  apply spec_bind, spec_insert; [done..|]. intros w6 Hev6 Hrow.
  apply spec_then; [apply quiet_infra, quiet_append|]. intros _ w7 Hev7.
  apply (spec_ret (E := ApiTokenError)). destruct (ev_rows _ _ Hev7 _ _ Hrow) as [stamp Hrow7].
  destruct (pa_authority _ _ _ _ _ Hpass) as (evaluator & Hload & Hex).
  eexists _, evaluator. split; [exact Hrow7|]. split_and!; [done | done | |].
  - assert (Hev17 : evolves w1 w7).
    { etrans; [exact Hev|]. etrans; [apply evolves_tick|]. by repeat (etrans; [done|]). }
    by apply (ev_loaded _ _ Hev17).
  - by eapply passed_within.
Qed.

Lemma granted_later subject user kind it w w' :
  evolves w w' → granted subject user kind it w → granted subject user kind it w'.
Proof.
  intros Hev (t & ev & Ht & Hu & [] & Hl & Hw). destruct (ev_rows _ _ Hev _ _ Ht) as [stamp Ht'].
  eexists _, ev. split; [exact Ht'|]. split_and!; [done | done | by apply (ev_loaded _ _ Hev) | done].
Qed.

Lemma spec_issue_self_token w principal r :
  rq_expires_in_seconds r = None →
  spec w (issue_self_token tuc principal r) (granted principal (cp_user_id principal) Pat).
Proof.
  intros Hsec. apply spec_bind, spec_find_user. intros u w1 _ <-.
  destruct (u_is_service_account u); [apply spec_deny | by apply spec_issue_inner].
Qed.

Lemma quiet_service_account_token admin target r :
  rq_expires_in_seconds r = None → quiet (issue_for_service_account tuc admin target r).
Proof.
  intros Hsec. unfold issue_for_service_account. destruct (negb _); [auto with quiet|].
  destruct (bool_decide_reflect (Admin ∈ rq_declared_permissions r)); [auto with quiet|].
  apply quiet_bind; [auto with quiet|]. intros u. destruct (negb _); [auto with quiet|].
  apply quiet_bind; [auto with quiet|]. intros now w.
  by eapply spec_mono; [| apply spec_issue_inner].
Qed.

(** *** System tokens *)

(** The handler at place [i] has claimed the source of the request, or the horizon of the
    claim has passed. *)
Definition claimed (i : nat) (r : IssueTokenRequest) (w : AuthWorld) : Prop :=
  ∀ fs key, rq_federation_source r = Some fs → build_replay_key fs = Ok key →
    ∃ d, from_timestamp (fs_exp fs) = Some d ∧ (replay_seen w !! key = Some (d, i) ∨ d < time w).

Lemma claimed_later i r w w' : evolves w w' → claimed i r w → claimed i r w'.
Proof.
  intros Hev Hc fs key Hfs Hkey. destruct (Hc fs key Hfs Hkey) as (d & Hd & Hcl). exists d. split; [done|].
  destruct Hcl as [Hcl | Hlt]; [by apply (ev_claims _ _ Hev)|].
  right. pose proof (time_mono w w' (ev_calls _ _ Hev)). lia.
Qed.

Lemma spec_claim_source w i r Q :
  (∀ w', evolves w w' → claimed i r w' → Q () w') → spec w (claim_source tuc i (rq_federation_source r)) Q.
Proof.
  intros HQ. destruct (rq_federation_source r) as [fs|] eqn:Hfs; cbn [claim_source].
  2: { apply (spec_ret (E := ApiTokenError)), HQ; [done|]. intros fs key Hs. congruence. }
  destruct (from_timestamp (fs_exp fs)) as [d|] eqn:Hd; [| apply spec_err].
  apply spec_bind, spec_done. intros key Hkey. destruct (negb _); [apply spec_err|].
  apply spec_bind, spec_fallible. intros w1 Hev Hi. split; [intros; apply spec_err|].
  destruct (replay_seen w1 !! key) eqn:Hseen; cbn [fst snd].
  { split_and!; [done | apply moves_tick | apply spec_err]. }
  assert (Hev' : evolves w1 (auth_tick (w1 {{ replay_seen ::= <[key := (d, i)]> }}))).
  { split; [exact (Nat.le_succ_diag_r _) | done | |].
    - intros id t Ht. exists (t_revoked_at t). change (tokens w1 !! id = Some (t {{ t_revoked_at := t_revoked_at t }})).
      rewrite Ht. by destruct t.
    - intros key' d' i' Hk. left. change (<[key := (d, i)]> (replay_seen w1) !! key' = Some (d', i')).
      rewrite lookup_insert_ne; congruence. }
  split_and!; [by destruct Hi; split | by split |].
  apply (spec_ret (E := ApiTokenError)), HQ; [by etrans|]. intros fs' key' Hfs' Hkey'.
  assert (fs' = fs) as -> by congruence. assert (key' = key) as -> by congruence.
  exists d. split; [done|]. left. apply lookup_insert_eq.
Qed.

Lemma spec_system_expiry w r Q :
  (∀ e w', evolves w w' → Q (Some e) w') → spec w (system_expiry r) Q.
Proof.
  intros HQ. unfold system_expiry.
  destruct (rq_expires_in_seconds r); [apply spec_expiring_in; eauto|].
  destruct (rq_expires_in_days r) as [days|]; [| apply spec_expiring_in; eauto].
  destruct (days =? 0); [apply spec_err|]. destruct (_ <? _); [apply spec_err | apply spec_expiring_in; eauto].
Qed.

Lemma spec_system_token w i target r :
  spec w (issue_for_service_account_system tuc i target r) (λ _, claimed i r).
Proof.
  apply spec_bind, spec_done. intros [] _. apply spec_bind, spec_done. intros [] Htext.
  destruct (empty_repository_set r) eqn:Hrepo; [apply spec_err|].
  destruct (bool_decide_reflect (Admin ∈ rq_declared_permissions r)) as [|Hadm]; [apply spec_err|].
  apply spec_then; [auto with quiet|]. intros u w1 _. destruct (negb _); [apply spec_err|].
  apply spec_bind, spec_system_expiry. intros e w2 _. apply spec_bind, spec_generate; [done|].
  intros plaintext prefix w3 _ Hpre _. apply spec_then; [auto with quiet|]. intros hash w4 _.
  apply spec_then; [auto with quiet|]. intros now w5 _.
  apply spec_then; [auto with quiet|]. intros id w6 _.
  apply spec_bind, spec_claim_source. intros w7 _ Hclaim.
  destruct (check_text_ok _ _ Htext) as [Hname Hdesc]. apply spec_bind, spec_insert.
  - split; [done.. | | done | done]. intros Hr. cbn in Hr. unfold empty_repository_set in Hrepo.
    by rewrite Hr in Hrepo.
  - by split.
  - intros w8 Hev8 _. apply spec_then; [auto with quiet|]. intros [[]|[]] w9 Hev9; try apply spec_err.
    apply (spec_ret (E := ApiTokenError)). eapply claimed_later; [| done]. by etrans.
Qed.

(** *** The break-glass token *)

Lemma quiet_bootstrap_token target name permissions secs :
  quiet (issue_for_bootstrap_admin_system target name permissions secs).
Proof.
  intros w. apply spec_bind, spec_done. intros [] Htext.
  destruct (negb _); [apply spec_err|]. apply spec_then; [auto with quiet|]. intros u w1 _.
  destruct (_ || _); [apply spec_err|]. destruct (secs =? 0); [apply spec_err|].
  apply spec_then; [auto with quiet|]. intros now w2 _.
  set (clamped := Z.min secs _).
  assert (Hcl : u64_as_i64 clamped = clamped).
  { unfold u64_as_i64. rewrite (proj2 (Z.leb_le clamped i64_MAX)); [done|].
    trans MAX_BOOTSTRAP_ADMIN_LIFETIME_SECS; [apply Z.le_min_r | done]. }
  rewrite Hcl. unfold duration_seconds.
  destruct (Z.leb_spec (Z.abs clamped) (i64_MAX / 1000)); [| apply spec_err]. cbn [option_bind mbind].
  destruct (time_add now (clamped * NANOS)) as [e|] eqn:He; [| apply spec_err].
  apply checked_time_Some in He as [-> _]. apply spec_bind, spec_generate; [done|].
  intros plaintext prefix w3 _ Hpre _. apply spec_then; [auto with quiet|]. intros hash w4 _.
  apply spec_then; [auto with quiet|]. intros id w5 _.
  destruct (check_text_ok _ _ Htext) as [Hname _].
  assert (Hshort : now + clamped * NANOS ≤ now + DAYS MAX_ADMIN_EXPIRY_DAYS).
  { unfold clamped, MAX_BOOTSTRAP_ADMIN_LIFETIME_SECS, DAYS, MAX_ADMIN_EXPIRY_DAYS, DAY, NANOS. lia. }
  apply spec_bind, spec_insert.
  - split; try done. cbn. intros d [= <-]. done.
  - split; cbn; [| eauto | done]. intros _. eexists; split; [done|].
    unfold DAYS, MAX_ADMIN_EXPIRY_DAYS, MAX_EXPIRY_DAYS, DAY, NANOS in *. lia.
  - intros w6 _ _. apply spec_then; [auto with quiet|]. intros. by apply (spec_ret (E := ApiTokenError)).
Qed.

(** *** Sessions *)

Lemma clamp_lifetime_bounds secs has_admin s :
  clamp_lifetime secs has_admin = Ok s → MIN_CLI_SESSION_LIFETIME_SECS ≤ s ≤ max_cli_session_lifetime.
Proof.
  unfold clamp_lifetime, max_cli_session_lifetime, MAX_ADMIN_CLI_SESSION_LIFETIME_SECS,
    MAX_NON_ADMIN_CLI_SESSION_LIFETIME_SECS, MIN_CLI_SESSION_LIFETIME_SECS.
  destruct (Z.ltb_spec secs 300); [done|]. destruct has_admin; intros [= <-]; lia.
Qed.

(** What is known of a session that was issued: it is signed for its principal, and it
    ends soon after it was. *)
Definition minted (principal : CallerPrincipal) (it : IssuedToken) (w : AuthWorld) : Prop :=
  ∃ signer e iat,
    cli_session_signer tuc = Some signer ∧ it_expires_at it = Some e ∧
    jwt_encode (signing_key signer)
      (session_payload signer (cp_user_id principal) (cp_claims principal) (it_id it) e iat) =
      Ok (it_plaintext it) ∧
    in_range e ∧ in_range iat ∧ iat ≤ time w ∧ e ≤ iat + max_cli_session_lifetime * NANOS.

Lemma spec_mint w signer sub claims jti exp Q :
  (∀ iat w', evolves w w' → in_range iat → time w ≤ iat ≤ time w' →
     Q (jwt_encode (signing_key signer) (session_payload signer sub claims jti exp iat)) w') →
  spec w (mint signer sub claims jti exp) Q.
Proof.
  intros HQ. apply spec_bind, spec_ask. intros w1 Hev. apply (spec_ret (E := ApiTokenError)), HQ.
  - by etrans; [| apply evolves_tick].
  - apply clock_in_range.
  - split; apply time_mono; [by apply ev_calls | exact (Nat.le_succ_diag_r _)].
Qed.

Lemma spec_issue_cli_session w principal r : spec w (issue_cli_session tuc principal r) (minted principal).
Proof.
  apply spec_then; [auto with quiet|]. intros u w1 _. apply spec_then; [auto with quiet|]. intros ev w2 _.
  destruct (derive_cli_session_cap ev principal _) as [cap|]; [| apply spec_deny].
  apply spec_bind, spec_done. intros secs Hsecs. apply clamp_lifetime_bounds in Hsecs.
  apply spec_bind, spec_run_issuance_gates. intros e w3 _ Hpass.
  destruct (eo_seconds _ _ _ _ (pa_expiry _ _ _ _ _ Hpass) secs eq_refl) as (x & -> & Hin & Hx).
  destruct (cli_session_signer tuc) as [signer|] eqn:Hsigner; [| apply spec_err].
  apply spec_then; [auto with quiet|]. intros jti w4 Hev4. apply spec_bind, spec_mint.
  intros iat w5 Hev5 Hiat [Hlo Hhi]. apply spec_bind, spec_done. intros plaintext Henc.
  apply spec_then; [auto with quiet|]. intros now w6 Hev6.
  apply spec_then; [auto with quiet|]. intros _ w7 Hev7. apply (spec_ret (E := ApiTokenError)).
  assert (Ht : time w3 ≤ time w4) by (by apply time_mono, ev_calls).
  assert (Ht' : time w5 ≤ time w7) by (apply time_mono, ev_calls; by repeat (etrans; [done|])).
  exists signer, x, iat. split_and!; [done | done | | done | done | lia |].
  - cbn. destruct (jwt_encode _ _); cbn in Henc; congruence.
  - unfold u64_as_i64 in Hx. unfold max_cli_session_lifetime, MAX_ADMIN_CLI_SESSION_LIFETIME_SECS,
      MAX_NON_ADMIN_CLI_SESSION_LIFETIME_SECS, NANOS in *.
    rewrite (proj2 (Z.leb_le secs i64_MAX)) in Hx by (trans 900; [lia | done]). lia.
Qed.

Lemma minted_later principal it w w' : evolves w w' → minted principal it w → minted principal it w'.
Proof.
  intros Hev (signer & e & iat & ? & ? & ? & ? & ? & ? & ?). exists signer, e, iat.
  pose proof (time_mono w w' (ev_calls _ _ Hev)). split_and!; [done.. | lia | done].
Qed.

(** *** Everything else *)

Lemma quiet_token_find {E} id : quiet (token_find_by_id id : prog AuthWorld E _).
Proof. by apply quiet_fallible. Qed.

Lemma stamped_ok t stamp :
  well_formed t → short_lived t →
  well_formed (t {{ t_revoked_at := stamp }}) ∧ short_lived (t {{ t_revoked_at := stamp }}).
Proof. intros [] []. by split; split. Qed.

Lemma quiet_token_revoke {E} id : quiet (token_revoke id : prog AuthWorld E _).
Proof.
  intros w. apply spec_fallible. intros w1 _ Hi. split; [done|]. cbn [fst snd].
  set (stamp t := if is_some (t_revoked_at t) then t else t {{ t_revoked_at := Some (time w1) }}).
  assert (Hst : ∀ t, ∃ s, stamp t = t {{ t_revoked_at := s }}).
  { intros t. unfold stamp. destruct (is_some _); [| eauto]. exists (t_revoked_at t). by destruct t. }
  split_and!; [| | done].
  - split; [| by destruct Hi]. intros id' t'. cbn. rewrite lookup_alter_Some.
    intros [(<- & t & Ht & ->) | [_ Ht]]; [| by apply (so_rows _ Hi)].
    destruct (so_rows _ Hi _ _ Ht) as (Hid & Hwf & Hsl). destruct (Hst t) as [s ->].
    split; [done | by apply stamped_ok].
  - split; [| done]. split; [exact (Nat.le_succ_diag_r _) | done | | by left]. intros id' t Ht.
    change (∃ s, alter stamp id (tokens w1) !! id' = Some (t {{ t_revoked_at := s }})).
    destruct (decide (id = id')) as [<-|Hne].
    + rewrite lookup_alter_eq, Ht. destruct (Hst t) as [s Hs]. exists s. cbn [fmap option_fmap option_map]. by rewrite Hs.
    + rewrite lookup_alter_ne by done. rewrite Ht. exists (t_revoked_at t). by destruct t.
Qed.
#[local] Hint Resolve quiet_token_find quiet_token_revoke : quiet.

Lemma quiet_revoke actor id admin : quiet (revoke actor id admin).
Proof. unfold revoke. quiet. Qed.

Lemma quiet_revoke_session jti exp : quiet (revoke_cli_session tuc jti exp).
Proof. unfold revoke_cli_session, not_configured. quiet. Qed.

Lemma quiet_revoke_sessions user : ¬ frozen user → quiet (revoke_cli_sessions_for_user tuc user).
Proof. intros Hf. unfold revoke_cli_sessions_for_user, not_configured. quiet. Qed.

Lemma quiet_save_user {E} user : quiet (user_save user : prog AuthWorld E _).
Proof.
  apply quiet_fallible; [done|]. intros w [Hr Hu]. split; [done|]. cbn [fst].
  apply map_Forall_insert_2; [| done]. by destruct (users w !! u_id user).
Qed.

Lemma quiet_store_rbac {E} evaluator : quiet (store_rbac evaluator : prog AuthWorld E _).
Proof.
  intros w. apply wp_port. intros w1 _ Hi. split_and!; [by destruct Hi; split | | done].
  split; [| done]. split; [exact (Nat.le_succ_diag_r _) | | | by left].
  - intros e [-> | He]; right; [left | by right].
  - intros id t Ht. exists (t_revoked_at t). change (tokens w1 !! id = Some (t {{ t_revoked_at := t_revoked_at t }})).
    rewrite Ht. by destruct t.
Qed.

Lemma quiet_prune {E} : quiet (prune_expired : prog AuthWorld E _).
Proof.
  intros w. apply spec_fallible. intros w1 _ Hi. split_and!; [done | by destruct Hi; split | | done].
  split; [| done]. split; [exact (Nat.le_succ_diag_r _) | done | |].
  - intros id t Ht. exists (t_revoked_at t). change (tokens w1 !! id = Some (t {{ t_revoked_at := t_revoked_at t }})).
    rewrite Ht. by destruct t.
  - intros key d i Hk. destruct (decide (time w1 ≤ d)) as [Hle | Hgt].
    + left. change (filter (λ row, time w1 ≤ row.2.1) (replay_seen w1) !! key = Some (d, i)).
      by apply map_lookup_filter_Some_2.
    + right. apply Z.lt_le_trans with (time w1); [lia|]. apply time_mono. exact (Nat.le_succ_diag_r _).
Qed.

Lemma quiet_dispatch {E} : quiet (dispatch_notice : prog AuthWorld E _).
Proof.
  apply quiet_port; intros w; [| intros []]; cbn [fst]; destruct (notices w) as [|[]]; try (by split);
    split_and!; (exact (Nat.le_succ_diag_r _) || done).
Qed.

Lemma quiet_listener_lost {E} : quiet (listener_lost : prog AuthWorld E _).
Proof.
  apply quiet_port; intros w; [split_and!; (exact (Nat.le_succ_diag_r _) || done)|]. by intros []; split.
Qed.

(** *** Bearers *)

Lemma quiet_pat_infra {A} (p : prog AuthWorld PatValidationError (DomainResult A)) :
  quiet p → quiet (pat_infra p).
Proof. intros Hp. apply quiet_bind; [done|]. intros r. apply quiet_done. Qed.

Lemma quiet_domain {A} (p : prog AuthWorld AppError (DomainResult A)) :
  quiet p → quiet (domain p).
Proof. intros Hp. apply quiet_bind; [done|]. intros r. apply quiet_done. Qed.

Lemma quiet_map_error {E E' A} (f : E' → E) (p : prog AuthWorld E' A) :
  quiet p → quiet (map_error f p).
Proof. intros Hp w. apply spec_map_error, Hp. Qed.

Lemma quiet_find_prefix {E} prefix : quiet (token_find_by_prefix prefix : prog AuthWorld E _).
Proof. by apply quiet_fallible. Qed.

Lemma quiet_cache_get k : quiet (pat_cache_get k).
Proof.
  apply quiet_port; intros w; [| intros []]; destruct (cache_get _ _ _);
    [split_and!; (exact (Nat.le_succ_diag_r _) || done) | by split].
Qed.

Lemma quiet_cache_insert k v : quiet (pat_cache_insert k v).
Proof.
  apply quiet_port; intros w; [split_and!; (exact (Nat.le_succ_diag_r _) || done)|]. by intros []; split.
Qed.
#[local] Hint Resolve quiet_pat_infra quiet_domain quiet_map_error quiet_find_prefix
  quiet_cache_get quiet_cache_insert : quiet.

Lemma quiet_fail {A} lockout bucket e : quiet (fail (A := A) lockout bucket e).
Proof. unfold fail, bookkeep_failure. quiet. Qed.
#[local] Hint Resolve quiet_fail : quiet.

Lemma quiet_validate_pat lockout token bucket : quiet (validate_pat lockout token bucket).
Proof. unfold validate_pat, check_lockout, check_live. quiet. Qed.

Lemma quiet_upsert draft : quiet (upsert_on_login draft).
Proof.
  apply quiet_fallible; intros w; cbv zeta;
    match goal with |- context [match ?r with Some _ => _ | None => _ end] => destruct r as [row|] end;
    try destruct (taken w row); try done.
  intros [Hr Hu]. split; [done|]. by apply map_Forall_insert_2.
Qed.

Lemma quiet_find_external provider id : quiet (user_find_by_external_id provider id).
Proof. by apply quiet_fallible. Qed.
#[local] Hint Resolve quiet_validate_pat quiet_upsert quiet_find_external : quiet.

Lemma quiet_bearer token bucket : quiet (authenticate_bearer auc token bucket).
Proof.
  unfold authenticate_bearer, oidc_or_refuse, authenticate_pat, authenticate_oidc,
    build_cli_session_principal, check_revoked_session, check_cutoff, unauthorized. quiet.
Qed.

Lemma quiet_cli_session principal r : quiet (issue_cli_session tuc principal r).
Proof. intros w. by eapply spec_mono; [| apply spec_issue_cli_session]. Qed.
#[local] Hint Resolve quiet_bearer quiet_cli_session : quiet.

Lemma quiet_exchange form ip bucket : quiet (exchange auc tuc form ip bucket).
Proof. unfold exchange, refuse_exchange. quiet. Qed.

(** ** Pools *)

Section pool.
(** The job of each place. *)
Context (jobs : nat → AuthJob).

Definition started (i : nat) (p : handler) : Prop := p = handle_job i (jobs i).

Definition done_with (i : nat) (r : result Empty_set AuthReply) (w : AuthWorld) : Prop :=
  match jobs i, r with
  | J_SelfToken principal _, Ok (R_Issued (Ok it)) => granted principal (cp_user_id principal) Pat it w
  | J_SystemToken _ request, Ok (R_Issued (Ok _)) => claimed i request w
  | J_CliSession principal _, Ok (R_Issued (Ok it)) => minted principal it w
  | _, _ => True
  end.

Lemma done_with_later i r w w' : evolves w w' → done_with i r w → done_with i r w'.
Proof.
  intros Hev. unfold done_with.
  destruct (jobs i), r as [[[it|]| | |]|]; eauto using granted_later, claimed_later, minted_later.
Qed.

Lemma parse_request_seconds body r : parse_request body = Ok r → rq_expires_in_seconds r = None.
Proof. unfold parse_request. destruct (parse_permissions _); [by intros [= <-] | done]. Qed.

(** A handler that keeps to its specification keeps to it as a job. *)
Lemma wp_concluded {E A} i (f : result E A → AuthReply) (p : prog AuthWorld E A) Q w :
  spec w p Q →
  (∀ a w', Q a w' → done_with i (Ok (f (Ok a))) w') → (∀ e w', done_with i (Ok (f (Err e))) w') →
  wp sound evolves moves (conclude f p : handler) (done_with i) w.
Proof.
  intros Hp Hok Herr. apply wp_conclude. eapply wp_mono; [| exact Hp]. intros [a|e] w'; cbn; auto.
Qed.

Lemma started_wp i p w :
  (∀ u, jobs i = J_RevokeSessions u → ¬ frozen u) → started i p →
  wp sound evolves moves p (done_with i) w.
Proof.
  intros Hthawed ->. unfold handle_job, from_body. destruct (jobs i) eqn:Hj.
  all: try destruct (parse_request body) as [r|] eqn:Hr.
  all: try apply parse_request_seconds in Hr.
  all: try (eapply wp_concluded;
    [ first [ by apply spec_issue_self_token | by apply quiet_service_account_token
            | apply spec_system_token | apply quiet_bootstrap_token | apply spec_issue_cli_session
            | apply quiet_exchange | apply quiet_bearer | apply quiet_revoke
            | apply quiet_revoke_session | by apply quiet_revoke_sessions, Hthawed | apply quiet_save_user
            | apply quiet_store_rbac | apply quiet_prune | apply quiet_dispatch
            | apply quiet_listener_lost ]
    | unfold done_with; rewrite Hj; done | unfold done_with; rewrite Hj; done ]).
  all: cbn; unfold done_with; by rewrite Hj.
Qed.

(** A state that a pool of jobs reaches. *)
Definition reaches (w w' : AuthWorld) (ps : list handler) : Prop :=
  rtc (pool_step started) (w, []) (w', ps).

End pool.
End safety.

(** ** Theorems *)

Section theorems.
Context {L : Lru CacheKey CachedEntry} `{TokenBackend, Jwt, Identity}.
Context (tuc : ApiTokenUseCase) (auc : AuthenticateUseCase) (jobs : nat → AuthJob).

Abbreviation reaches := (reaches tuc auc jobs).
Abbreviation sound := (sound tuc).

Lemma started_sound i p w :
  started tuc auc jobs i p → sound w → wp sound evolves evolves p (done_with tuc jobs i) w.
Proof.
  intros Hp _. eapply wp_guar; [| by apply (started_wp tuc auc (λ _, False) jobs); [intros ? ? [] |]].
  by intros ? ? _ [].
Qed.

Lemma reached_sound w w' ps : sound w → reaches w w' ps → sound w'.
Proof.
  intros Hs Hr. exact (pool_adequate sound (λ _, evolves) (λ _, evolves) (started tuc auc jobs)
    (λ _ _ _ _ _ He, He) (done_with tuc jobs) started_sound w [] (w', ps) Hs ltac:(done) Hr).
Qed.

Lemma reached_done w w' ps i r :
  sound w → reaches w w' ps → ps !! i = Some (Done r) → done_with tuc jobs i r w'.
Proof.
  intros Hs Hr Hi.
  destruct (pool_result sound (λ _, evolves) (λ _, evolves) (started tuc auc jobs) (λ _ _ _ _ _ He, He)
              (done_with tuc jobs) started_sound w [] (w', ps) i r Hs) as (w0 & Hev & Hd);
    [done | done | done |].
  by eapply done_with_later.
Qed.

(** C8. A personal token never exceeds its owner: when a request for one has succeeded,
    there is a row under the issued id, it belongs to the principal who asked, and
    there is an evaluator, in force now or before, that authorises the principal for
    whatever permission in whatever repository the cap of the row lets through.  Other handlers may run
    between any two steps, among them changes of the grants, and any call may fail. *)
Theorem tokens_never_exceed_their_owner w w' ps i principal body it :
  sound w → reaches w w' ps → jobs i = J_SelfToken principal body →
  ps !! i = Some (Done (Ok (R_Issued (Ok it)))) →
  ∃ t evaluator, tokens w' !! it_id it = Some t ∧ t_user_id t = cp_user_id principal ∧
    was_loaded w' evaluator ∧
    ∀ perm repo, cap_allows_optional_repo (Some (row_cap t)) perm repo = true →
      authorize evaluator principal perm repo = true.
Proof.
  intros Hs Hr Hj Hi. pose proof (reached_done _ _ _ _ _ Hs Hr Hi) as Hd.
  unfold done_with in Hd. rewrite Hj in Hd. destruct Hd as (t & ev & ? & ? & _ & ? & ?). by exists t, ev.
Qed.

(** Stored tokens are well formed: in every state the handlers reach, every row has a
    name that is not blank and at most 255 bytes long, a description of at most 1024, a
    prefix of eight base32 characters, no empty set of repositories, and it is no CLI
    session; only a personal token carries the admin permission. *)
Theorem stored_tokens_are_well_formed w w' ps id t :
  sound w → reaches w w' ps → tokens w' !! id = Some t → t_id t = id ∧ well_formed t.
Proof. intros Hs Hr Ht. by destruct (so_rows _ _ (reached_sound _ _ _ Hs Hr) id t Ht) as (? & ? & _). Qed.

(** Tokens are short-lived: in every state the handlers reach, a personal token ends
    within 365 days of its creation, one with the admin permission within 30, and a row
    without an end is a service account's, on a server that allows it.  A CLI session ends
    within fifteen minutes. *)
Theorem token_lifetimes_are_bounded w w' ps :
  sound w → reaches w w' ps →
  (∀ id t, tokens w' !! id = Some t →
     (t_kind t = Pat → ∃ e, t_expires_at t = Some e ∧ e ≤ t_created_at t + DAYS 365) ∧
     (Admin ∈ t_declared_permissions t → ∃ e, t_expires_at t = Some e ∧ e ≤ t_created_at t + DAYS 30) ∧
     (t_expires_at t = None → t_kind t = ServiceAccount ∧ allow_unbounded_svc_tokens (config tuc) = true)) ∧
  (∀ i principal r it, jobs i = J_CliSession principal r → ps !! i = Some (Done (Ok (R_Issued (Ok it)))) →
     ∃ e, it_expires_at it = Some e ∧ e ≤ time w' + 900 * NANOS).
Proof.
  intros Hs Hr. split.
  - intros id t Ht. by destruct (so_rows _ _ (reached_sound _ _ _ Hs Hr) id t Ht) as (_ & _ & []).
  - intros i principal r it Hj Hi. pose proof (reached_done _ _ _ _ _ Hs Hr Hi) as Hd.
    unfold done_with in Hd. rewrite Hj in Hd.
    destruct Hd as (signer & e & iat & _ & He & _ & _ & _ & Hiat & Hle). exists e. split; [done|].
    change (max_cli_session_lifetime) with 900 in Hle. lia.
Qed.

(** C31. A federated token is exchanged once: of all the requests that present the same
    source, however they interleave with each other and with the sweep of old claims, at
    most one has succeeded as long as the source has not expired. *)
Theorem federated_tokens_mint_once w w' ps i j target_i target_j ri rj fsi fsj key di dj it_i it_j :
  sound w → reaches w w' ps →
  jobs i = J_SystemToken target_i ri → jobs j = J_SystemToken target_j rj →
  rq_federation_source ri = Some fsi → rq_federation_source rj = Some fsj →
  build_replay_key fsi = Ok key → build_replay_key fsj = Ok key →
  from_timestamp (fs_exp fsi) = Some di → from_timestamp (fs_exp fsj) = Some dj →
  time w' ≤ di → time w' ≤ dj → i ≠ j →
  ps !! i = Some (Done (Ok (R_Issued (Ok it_i)))) → ps !! j ≠ Some (Done (Ok (R_Issued (Ok it_j)))).
Proof.
  intros Hs Hr Hji Hjj Hfi Hfj Hki Hkj Hdi Hdj Hti Htj Hne Hi Hj.
  pose proof (reached_done _ _ _ _ _ Hs Hr Hi) as Hci. pose proof (reached_done _ _ _ _ _ Hs Hr Hj) as Hcj.
  unfold done_with in Hci, Hcj. rewrite Hji in Hci. rewrite Hjj in Hcj.
  destruct (Hci fsi key Hfi Hki) as (x & Hx & Hci'). destruct (Hcj fsj key Hfj Hkj) as (y & Hy & Hcj').
  rewrite Hdi in Hx. rewrite Hdj in Hy. injection Hx as <-. injection Hy as <-.
  destruct Hci' as [Hci' | ?], Hcj' as [Hcj' | ?]; [congruence | lia..].
Qed.
End theorems.
