(* ===== verification/SessionSafety.v ===== *)
(** CLI sessions and native tokens at the door: a session that was cut off stays out,
    and a token that was issued lets its owner in. *)

From coqutil Require Import Datatypes.RecordSetters.
From S2P Require Import Prelude.
From S2P Require Import RustStd.
From S2P Require Import Types.
From S2P Require Import Store.
From S2P Require Import Concurrent.
From S2P Require Import Rbac.
From S2P Require Import TokenCache.
From S2P Require Import RepositoryAccess.
From S2P Require Import Tokens.
From S2P Require Import Authenticate.
From S2P Require Import TokenSafety.
Import DoubleBraceUpdate.

(** ** Whole seconds *)

Lemma timestamp_le t u : t ≤ u → timestamp t ≤ timestamp u.
Proof. intros Ht. unfold timestamp. apply Z.div_le_mono; [done | lia]. Qed.

(** Rounding down to a second stays in the range of a [DateTime]. *)
Lemma from_timestamp_floor t : in_range t → from_timestamp (timestamp t) = Some (timestamp t * NANOS).
Proof.
  intros [Hlo Hhi]. apply checked_time_Some. split; [done|].
  unfold in_range, timestamp in *. split.
  - unfold MIN_UTC in *. apply Z.mul_le_mono_nonneg_r; [done|]. apply Z.div_le_lower_bound; [done | lia].
  - trans t; [| done]. rewrite Z.mul_comm. by apply Z.mul_div_le.
Qed.

Section sessions.
Context {L : Lru CacheKey CachedEntry} `{TokenBackend, Jwt, Identity}.
Context (tuc : ApiTokenUseCase) (auc : AuthenticateUseCase).

(** ** Cut-off sessions *)

Lemma verify_minted signer u claims jti e iat token now :
  jwt_encode (signing_key signer) (session_payload signer u claims jti e iat) = Ok token →
  in_range e → in_range iat →
  verify signer now token =
  if timestamp e <? now then Rejected SessionExpired
  else Verified {| cs_iss := signer_issuer signer; cs_sub := u; cs_aud := CLI_SESSION_AUDIENCE;
                   cs_exp := timestamp e * NANOS; cs_iat := Some (timestamp iat * NANOS); cs_jti := jti;
                   cs_token_kind := CLI_SESSION_TOKEN_KIND; cs_claims := claims |}.
Proof.
  intros Henc He Hiat. unfold verify, verify_claims, decode_session.
  rewrite (jwt_roundtrip _ _ _ now CLI_SESSION_AUDIENCE Henc). cbn [s_exp s_aud session_payload].
  destruct (timestamp e <? now); [done|]. rewrite bool_decide_eq_true_2 by done.
  unfold claims_of_wire. cbn [s_exp s_iat session_payload fmap option_fmap option_map].
  rewrite !from_timestamp_floor by done. done.
Qed.

Lemma jwt_is_not_native key claims token : jwt_encode key claims = Ok token →
  ∃ err, parse_pat_token_format token = Err err.
Proof.
  intros Henc. destruct (parse_pat_token_format token) as [r|err] eqn:Hp; [| eauto].
  apply parse_no_dot in Hp. by apply jwt_dotted in Henc.
Qed.

Section cut.
(** A session of the user [u], issued at [iat], that ends at [e]. *)
Context (u : Uuid) (iat e : DateTime).
Context (iat_in_range : in_range iat) (e_in_range : in_range e).
Context (short : e ≤ iat + max_cli_session_lifetime * NANOS).

(** A cutoff of the user covers it, for as long as it has time left. *)
Definition covered (w : AuthWorld) : Prop :=
  ∃ s d, ephemeral w !! EK_SessionCutoff u = Some (EV_Seconds s, d) ∧
    timestamp iat ≤ s ∧ from_timestamp s = Some (s * NANOS) ∧ e ≤ d.

(** Once it has been issued, the cutoff of the user stays or is replaced by one that
    covers it. *)
Definition renews (w w' : AuthWorld) : Prop :=
  evolves w w' ∧
  (ephemeral w' !! EK_SessionCutoff u = ephemeral w !! EK_SessionCutoff u ∨ covered w').

Lemma covered_later w w' : renews w w' → covered w → covered w'.
Proof. intros [_ [Heq | ?]] (s & d & Hrest); [| done]. exists s, d. by rewrite Heq. Qed.

#[export] Instance renews_preorder : PreOrder renews.
Proof.
  split; [by intros w; split; [| left] |]. intros w1 w2 w3 [E12 H12] H23. split; [by trans w2; [| apply H23] |].
  destruct H12 as [H12 | ?]; [| right; by eapply covered_later].
  destruct H23 as [_ [H23 | ?]]; [left; congruence | by right].
Qed.

Lemma moves_renews w w' : moves (λ x, x = u) w w' → renews w w'.
Proof. intros [Hev Hu]. split; [done | left; by apply Hu]. Qed.

Lemma renews_time w w' t : renews w w' → t ≤ time w → t ≤ time w'.
Proof. intros [Hev _] Ht. trans (time w); [done | by apply time_mono, ev_calls]. Qed.

(** The session has been issued; and it has been cut off. *)
Definition session_issued (w : AuthWorld) : Prop := sound tuc w ∧ iat ≤ time w.
Definition cut (w : AuthWorld) : Prop := session_issued w ∧ covered w.

Lemma session_issued_tick w : session_issued w → session_issued (auth_tick w).
Proof.
  intros [Hs Ht]. split; [by apply sound_tick |]. eapply renews_time; [apply moves_renews, moves_tick | done].
Qed.

Lemma renews_tick w : renews w (auth_tick w).
Proof. apply moves_renews, moves_tick. Qed.

(** A handler that does not touch the cutoff of the user. *)
Lemma session_issued_quiet {E A} (p : prog AuthWorld E A) Q w :
  wp (sound tuc) evolves (moves (λ x, x = u)) p Q w → wp session_issued renews renews p (λ _ _, True) w.
Proof.
  apply (wp_resume (sound tuc) (λ w, iat ≤ time w) evolves renews (moves (λ x, x = u)) renews p Q w w);
    [by intros ? ? [] | apply moves_renews | | done].
  intros w1 w2 Ht Hm. by eapply renews_time; [apply moves_renews |].
Qed.

Lemma cut_quiet {E A} (p : prog AuthWorld E A) w :
  quiet tuc (λ x, x = u) p → wp cut renews renews p (λ _ w', renews w w') w.
Proof.
  intros Hp. eapply wp_mono; [| apply (wp_moves cut renews renews renews p (λ _ _, True)); [done | done |]].
  { by intros r w' []. }
  eapply (wp_resume session_issued covered renews renews renews renews p _ w w);
    [done | done | intros; by eapply covered_later | done |].
  eapply session_issued_quiet, Hp.
Qed.

(** A cut-off that starts after the issue covers the session once it has succeeded. *)
Lemma cut_off_covers i w :
  wp session_issued renews renews (handle_job tuc auc i (J_RevokeSessions u))
     (λ r w', ∀ c, r = Ok (R_CutOff (Ok c)) → covered w') w.
Proof.
  apply wp_conclude. unfold revoke_cli_sessions_for_user. destruct (negb _); [by intros c |].
  apply wp_bind, wp_port. intros w1 _ [Hs1 Ht1]. split_and!; [by apply session_issued_tick | apply renews_tick |].
  cbn [fst snd]. set (cutoff := time w1) in *. apply wp_bind, wp_bind, wp_port. intros w2 Hr2 Hi2.
  destruct (auth_fault (auth_calls w2)).
  { cbn. split_and!; [by apply session_issued_tick | apply renews_tick | done]. }
  cbn [fst snd]. set (w3 := auth_tick _).
  assert (covered w3) as Hc.
  { exists (timestamp cutoff). eexists. split; [apply lookup_insert_eq |].
    split_and!; [by apply timestamp_le | apply from_timestamp_floor, clock_in_range |].
    trans (iat + max_cli_session_lifetime * NANOS); [done | apply Z.add_le_mono_r, Hi2]. }
  assert (session_issued w3) as Hi3.
  { destruct (session_issued_tick w2 Hi2) as [_ Ht3]. split; [| exact Ht3]. destruct Hi2 as [[] _]. by split. }
  split_and!; [done | split; [| by right] |].
  - destruct (evolves_tick (λ _, False) w2) as [Hcalls Hl Hr Hk]. by split.
  - cbn. destruct (time_add _ _); [| by intros c]. by intros c _.
Qed.

Lemma quiet_check_revoked claims : quiet tuc (λ x, x = u) (check_revoked_session claims).
Proof.
  apply quiet_bind; [apply quiet_eph_get|]. intros [[|]|]; [.. | apply quiet_done];
    first [apply quiet_done | apply quiet_ret].
Qed.

(** The cutoff refuses the session for as long as it has time left. *)
Lemma check_cutoff_refuses claims w :
  cs_sub claims = u → cs_iat claims = Some (timestamp iat * NANOS) →
  wp cut renews renews (check_cutoff claims) (λ r w', r = Ok () → e ≤ time w') w.
Proof.
  intros Hsub Hiat. apply wp_bind, wp_port. intros w1 _ Hcut.
  assert (cut (auth_tick w1)) as Hcut'.
  { split; [apply session_issued_tick, Hcut | eapply covered_later; [apply renews_tick | apply Hcut]]. }
  destruct (auth_fault (auth_calls w1)); [by split_and!; [| apply renews_tick |] |]. cbn [fst snd].
  split_and!; [done | apply renews_tick |]. rewrite Hsub. unfold live.
  destruct Hcut as [Hi (s & d & -> & Hle & Hs & Hed)]. destruct (Z.leb_spec d (time w1)) as [Hd | Hd].
  - intros _. apply (renews_time w1); [apply renews_tick | lia].
  - cbn [parse_cli_session_cutoff]. rewrite Hs, Hiat.
    rewrite (proj2 (Z.leb_le _ _)); [done |]. by apply Z.mul_le_mono_nonneg_r.
Qed.

(** A request that starts after the cut-off does not get in with the session before it
    would have ended. *)
Lemma cut_off_refuses signer claims jti token bucket w :
  cli_session_verifier auc = Some signer →
  jwt_encode (signing_key signer) (session_payload signer u claims jti e iat) = Ok token →
  wp cut renews renews (authenticate_bearer auc token bucket) (λ r w', ∀ p, r = Ok p → e ≤ time w') w.
Proof.
  intros Hver Henc. unfold authenticate_bearer. destruct (jwt_is_not_native _ _ _ Henc) as [err ->]. rewrite Hver.
  apply wp_bind. eapply wp_mono; [| apply cut_quiet, quiet_utc_now]. intros [now|] w1 _; [| done].
  rewrite (verify_minted signer u claims jti e iat token _ Henc e_in_range iat_in_range).
  destruct (timestamp e <? timestamp now); [by intros p |].
  unfold build_cli_session_principal. destruct (negb _); [by intros p |].
  apply wp_bind. eapply wp_mono; [| apply cut_quiet, quiet_check_revoked]. intros [[]|] w2 _; [| done].
  apply wp_bind. eapply wp_mono; [| by apply check_cutoff_refuses]. intros [[]|] w3 Hd; [| done].
  specialize (Hd eq_refl). apply wp_bind.
  eapply wp_mono; [| apply cut_quiet, quiet_domain, quiet_user_find]. intros [user|] w4 Hr4; [| done].
  destruct (negb _); [by intros p |].
  apply wp_bind. eapply wp_mono; [| apply cut_quiet, quiet_utc_now]. intros [now'|] w5 Hr5; [| done].
  intros p _. eapply renews_time; [exact Hr5 |]. by eapply renews_time.
Qed.

(** *** In a pool *)

Context (jobs : nat → AuthJob).

(** Before the issue, only the cut-offs of the user touch the cutoff of the user. *)
Definition before_issue (i : nat) (w w' : AuthWorld) : Prop :=
  evolves w w' ∧ (jobs i ≠ J_RevokeSessions u → moves (λ x, x = u) w w').

Lemma cuts_off_or_not i : jobs i = J_RevokeSessions u ∨ jobs i ≠ J_RevokeSessions u.
Proof.
  destruct (jobs i) as [ | | | | | | | | | x | | | | |]; try (by right).
  destruct (decide (x = u)) as [-> |]; [by left | right; congruence].
Qed.

Lemma started_moves i p w :
  jobs i ≠ J_RevokeSessions u → started tuc auc jobs i p →
  wp (sound tuc) evolves (moves (λ x, x = u)) p (done_with tuc jobs i) w.
Proof. intros Hno Hp. apply (started_wp tuc auc); [| done]. intros x Hx ->. congruence. Qed.

Lemma started_before_issue i p w :
  started tuc auc jobs i p → sound tuc w →
  wp (sound tuc) evolves (before_issue i) p (done_with tuc jobs i) w.
Proof.
  intros Hp Hs. destruct (cuts_off_or_not i) as [Hj | Hno].
  - eapply wp_guar; [| by apply (started_sound tuc auc)]. intros w1 w2 _ Hev. by split.
  - eapply wp_guar; [| by apply started_moves]. intros w1 w2 _ Hm. by split; [apply Hm |].
Qed.

Definition covers (i : nat) (r : result Empty_set AuthReply) (w : AuthWorld) : Prop :=
  jobs i = J_RevokeSessions u → ∀ c, r = Ok (R_CutOff (Ok c)) → covered w.

Lemma started_issued i p w :
  started tuc auc jobs i p → wp session_issued renews renews p (covers i) w.
Proof.
  intros Hp. destruct (cuts_off_or_not i) as [Hj | Hno].
  - unfold started in Hp. rewrite Hj in Hp. subst p.
    eapply wp_mono; [| apply cut_off_covers]. by intros r w' Hc _.
  - eapply wp_mono; [| by eapply session_issued_quiet, started_moves]. by intros r w' _ ?.
Qed.

Context (token : string) (bucket : option string).

Definition refuses (i : nat) (r : result Empty_set AuthReply) (w : AuthWorld) : Prop :=
  jobs i = J_Bearer token bucket → ∀ p, r = Ok (R_Principal (Ok p)) → e ≤ time w.

Lemma started_cut signer claims jti i p w :
  cli_session_verifier auc = Some signer →
  jwt_encode (signing_key signer) (session_payload signer u claims jti e iat) = Ok token →
  started tuc auc jobs i p → wp cut renews renews p (refuses i) w.
Proof.
  intros Hver Henc Hp.
  assert (jobs i ≠ J_Bearer token bucket → wp cut renews renews p (refuses i) w) as Hother.
  { intros Hne. eapply wp_mono; [| apply wp_keep; [intros; by eapply covered_later | by apply started_issued]].
    by intros r w' _ ?. }
  destruct (jobs i) as [ | | | | | | token' bucket' | | | | | | | |] eqn:Hj; try by apply Hother.
  destruct (decide (token' = token)) as [-> |]; [| apply Hother; congruence].
  destruct (decide (bucket' = bucket)) as [-> |]; [| apply Hother; congruence].
  unfold started in Hp. rewrite Hj in Hp. subst p. apply wp_conclude.
  eapply wp_mono; [| by eapply cut_off_refuses]. intros [x|err] w' Hx _ y [=]. by eapply Hx.
Qed.

(** What a cut-off that starts after the issue leaves, whatever runs besides it. *)
Lemma cut_off_pool w0 w1 ps1 w2 ps2 k c :
  sound tuc w0 → reaches tuc auc jobs w0 w1 ps1 → iat ≤ time w1 →
  (∀ i p, jobs i = J_RevokeSessions u → ps1 !! i = Some p → finished p) →
  rtc (pool_step (started tuc auc jobs)) (w1, ps1) (w2, ps2) →
  (length ps1 ≤ k)%nat → jobs k = J_RevokeSessions u → ps2 !! k = Some (Done (Ok (R_CutOff (Ok c)))) →
  covered w2 ∧
  pool_ok session_issued (λ _, renews) (λ _, renews) (λ i r w, (length ps1 ≤ i)%nat → covers i r w) (w2, ps2).
Proof.
  intros Hs Hr Ht Hfin Hsteps Hk Hj Hdone.
  assert (pool_ok (sound tuc) (λ _, evolves) before_issue (done_with tuc jobs) (w1, ps1)) as Hok1.
  { eapply (pool_ok_steps _ _ _ (started tuc auc jobs)); [| | | exact Hr].
    - by intros i j s s' _ [].
    - intros. by apply started_before_issue.
    - apply (pool_ok_start _ _ _ (started tuc auc jobs)); [| done | done].
      intros. by apply started_before_issue. }
  pose proof (pool_resume (sound tuc) (λ w, iat ≤ time w) (λ _, evolves) (λ _, renews) before_issue (λ _, renews)
                (done_with tuc jobs) covers (w1, ps1) Hok1 Ht) as Hok2.
  assert (pool_ok session_issued (λ _, renews) (λ _, renews) (λ i r w, (length ps1 ≤ i)%nat → covers i r w) (w2, ps2)) as Hok3.
  { eapply (pool_ok_steps _ _ _ (started tuc auc jobs)); [| | apply Hok2 | exact Hsteps].
    - done.
    - intros i p s Hp _. eapply wp_mono; [| by apply started_issued]. by intros r s' Hc _.
    - by intros i s s' [].
    - intros i p Hp. destruct (cuts_off_or_not i) as [Hi | Hno]; [left; by eapply Hfin |].
      right. intros s s' [_ Hm%moves_renews]; [| done]. split; [done |]. by apply renews_time. }
  split; [| done]. destruct Hok3 as [_ Hall]. destruct (Hall k _ Hdone) as (s0 & Hr0 & Hpost).
  eapply covered_later; [exact Hr0 |]. by eapply Hpost.
Qed.
End cut.

(** C9. A revoked CLI session stays out.  A pool of requests has issued a session to a user;
    a cut-off of that user's sessions starts after that and succeeds; then no request
    that starts later still and presents the session is let in while the session has time
    left.  All of them, and any other handlers, run in one pool and interleave at every
    port call, and any call may fail; further cut-offs of the user may overlap, except
    one that had started before the issue and was not finished by then.  The verifier at
    the door is the signer of the issue. *)
Theorem revoked_sessions_stay_out jobs w0 w1 ps1 i principal r it e w2 ps2 k c w3 ps3 j bucket p :
  cli_session_signer tuc = cli_session_verifier auc →
  sound tuc w0 → reaches tuc auc jobs w0 w1 ps1 →
  jobs i = J_CliSession principal r → ps1 !! i = Some (Done (Ok (R_Issued (Ok it)))) →
  it_expires_at it = Some e →
  (∀ n q, jobs n = J_RevokeSessions (cp_user_id principal) → ps1 !! n = Some q → finished q) →
  rtc (pool_step (started tuc auc jobs)) (w1, ps1) (w2, ps2) →
  (length ps1 ≤ k)%nat → jobs k = J_RevokeSessions (cp_user_id principal) →
  ps2 !! k = Some (Done (Ok (R_CutOff (Ok c)))) →
  rtc (pool_step (started tuc auc jobs)) (w2, ps2) (w3, ps3) →
  (length ps2 ≤ j)%nat → jobs j = J_Bearer (it_plaintext it) bucket →
  time w3 < e → ps3 !! j ≠ Some (Done (Ok (R_Principal (Ok p)))).
Proof.
  intros Hsig Hs0 Hr1 Hi Hissued He Hfin Hr2 Hk Hjk Hcut Hr3 Hj Hjj Htime Hin.
  pose proof (reached_done _ _ _ _ _ _ _ _ Hs0 Hr1 Hissued) as Hmint. unfold done_with in Hmint.
  rewrite Hi in Hmint. destruct Hmint as (signer & e' & iat & Hsigner & He' & Henc & Hre & Hri & Hiat & Hlen).
  rewrite He in He'. injection He' as <-. rewrite Hsig in Hsigner.
  destruct (cut_off_pool (cp_user_id principal) iat e Hlen jobs w0 w1 ps1 w2 ps2 k c) as [Hcov Hok]; try done.
  set (u := cp_user_id principal) in *.
  pose proof (pool_resume (session_issued iat) (covered u iat e) (λ _, renews u iat e) (λ _, renews u iat e)
                (λ _, renews u iat e) (λ _, renews u iat e) _ (refuses e jobs (it_plaintext it) bucket)
                (w2, ps2) Hok Hcov) as Hok3.
  assert (pool_ok (cut u iat e) (λ _, renews u iat e) (λ _, renews u iat e)
            (λ i r w, (length ps2 ≤ i)%nat → refuses e jobs (it_plaintext it) bucket i r w) (w3, ps3)) as [_ Hall].
  { eapply (pool_ok_steps _ _ _ (started tuc auc jobs)); [done | | apply Hok3; [done |] | exact Hr3].
    - intros n q s Hq _. eapply wp_mono; [| by eapply started_cut]. by intros ? ? Hc _.
    - intros n q _. right. intros s s' Hrn. split; [done | by apply covered_later]. }
  destruct (Hall j _ Hin) as (s0 & Hrn & Hpost).
  enough (e ≤ time w3) by lia. eapply renews_time; [exact Hrn |]. by eapply Hpost.
Qed.

(** ** Native tokens at the door *)

(** The row that the text leads to is in force, it is the only one with its prefix, and
    its owner is active. *)
Record in_force (it : IssuedToken) (t : ApiToken) (u : User) (w : AuthWorld) : Prop := {
  if_row : tokens w !! it_id it = Some t;
  if_unrevoked : t_revoked_at t = None;
  if_live e : t_expires_at t = Some e → clock (3 + auth_calls w) < e;
  if_alone id t' : tokens w !! id = Some t' → t_token_prefix t' = t_token_prefix t → id = it_id it;
  if_owner : users w !! t_user_id t = Some u;
  if_active : u_is_active u = true;
}.

Lemma pick_row_unique it t u w :
  in_force it t u w →
  pick_row (filter (λ r, t_token_prefix r = t_token_prefix t) (map_to_list (tokens w)).*2) = Some t.
Proof.
  intros Hf. pose proof (pick_row_spec (filter (λ r, t_token_prefix r = t_token_prefix t)
                                          (map_to_list (tokens w)).*2)) as Hpick.
  destruct (pick_row _) as [t'|].
  - apply list_elem_of_filter in Hpick as [Hpre Hin]. apply list_elem_of_fmap in Hin as ([id r] & -> & Hin).
    apply elem_of_map_to_list in Hin. cbn [snd] in *.
    pose proof (if_alone _ _ _ _ Hf _ _ Hin Hpre) as ->. rewrite (if_row _ _ _ _ Hf) in Hin. by injection Hin as ->.
  - exfalso. apply (not_elem_of_nil (A := ApiToken) t). rewrite <- Hpick. apply list_elem_of_filter.
    split; [done|]. apply list_elem_of_fmap. exists (it_id it, t). split; [done|].
    apply elem_of_map_to_list, (if_row _ _ _ _ Hf).
Qed.

(** The client is not locked out, and what the cache holds of the token is what its row
    says. *)
Definition not_locked_out (bucket : option string) (w : AuthWorld) : Prop :=
  ∀ b, bucket = Some b → live w (EK_AttemptFlag b) = None.

Definition cache_agrees (it : IssuedToken) (t : ApiToken) (w : AuthWorld) : Prop :=
  ∀ x, entries (primary (pat_cache w)) !! compute_cache_key (it_plaintext it) = Some x →
    ce_validation x = validation_of t.

Section working.
Context (no_faults : ∀ n, auth_fault n = None) (lockout : PatLockoutConfig).

(** At most [n] calls later, with the same users and tokens. *)
Definition shortly_after (n : nat) (w w' : AuthWorld) : Prop :=
  users w' = users w ∧ tokens w' = tokens w ∧ (auth_calls w' ≤ n + auth_calls w)%nat.

Lemma run_check_lockout bucket w :
  not_locked_out bucket w →
  ∃ w', run (check_lockout bucket) w = (w', Ok ()) ∧ shortly_after 1 w w' ∧ pat_cache w' = pat_cache w.
Proof.
  intros Hb. destruct bucket as [b|]; [| exists w; split_and!; [done | by split_and!; [| | lia] | done]].
  specialize (Hb b eq_refl). cbn. rewrite no_faults. cbn. rewrite Hb. by eexists.
Qed.

Lemma run_cache_get it t w :
  cache_agrees it t w →
  ∃ w' r, run (pat_cache_get (compute_cache_key (it_plaintext it))) w = (w', Ok r) ∧ shortly_after 1 w w' ∧
    (r = None ∨ r = Some (validation_of t)).
Proof.
  intros Hc. unfold cache_agrees in Hc. cbn. unfold cache_get.
  destruct (entries _ !! _) as [x|] eqn:Hx; cbn; [| eexists _, _; split_and!; [done.. | by left]].
  specialize (Hc x eq_refl). destruct (is_stale _ _ _).
  - destruct (lru_pop _ _) as [c o]. cbn. eexists _, _. split_and!; [done.. | by left].
  - pose proof (lru_get_spec (primary (pat_cache w)) (compute_cache_key (it_plaintext it))) as [_ Hget].
    destruct (lru_get _ _) as [c o]. cbn in *. rewrite Hx in Hget. subst o. cbn.
    eexists _, _. split_and!; [done.. | right; by rewrite Hc].
Qed.

Lemma run_check_live {A} bucket exp user_id u (k : prog AuthWorld PatValidationError A) w :
  (∀ e, exp = Some e → time w < e) → users w !! user_id = Some u → u_is_active u = true →
  run (check_live lockout bucket exp None user_id k) w = run k (auth_tick (auth_tick w)).
Proof.
  intros Hlive Hu Hact. destruct w as [us ts st rb past seen eph ns pc n].
  unfold time in Hlive. cbn [users auth_calls] in *. unfold check_live. cbn. unfold time. cbn.
  assert (match exp with Some e => e <=? clock n | None => false end = false) as ->.
  { destruct exp as [e|]; [| done]. by apply Z.leb_gt, Hlive. }
  cbn. rewrite no_faults. cbn. rewrite Hu. cbn. by rewrite Hact.
Qed.

(** The row validates, and the outcome is what the row says. *)
Lemma validate_in_force bucket it t u kind w :
  opens it kind t → in_force it t u w → not_locked_out bucket w → cache_agrees it t w →
  ∃ w', run (validate_pat lockout (it_plaintext it) bucket) w = (w', Ok (validation_of t)) ∧ users w' = users w.
Proof.
  intros [_ Hfmt Hhash] Hf Hb Hc. pose proof (pick_row_unique it t u w Hf) as Hpick.
  destruct Hf as [_ Hrev Hlive _ Hown Hact]. unfold validate_pat.
  destruct (run_check_lockout bucket w Hb) as (w1 & Hrun1 & (Hu1 & Ht1 & Hn1) & Hcache).
  rewrite run_bind, Hrun1. destruct (run_cache_get it t w1) as (w2 & r & Hrun2 & (Hu2 & Ht2 & Hn2) & Hr).
  { unfold cache_agrees. by rewrite Hcache. }
  rewrite run_bind, Hrun2.
  assert (∀ w', users w' = users w → (auth_calls w' ≤ 3 + auth_calls w)%nat → ∀ A (k : prog AuthWorld PatValidationError A),
    run (check_live lockout bucket (t_expires_at t) (t_revoked_at t) (t_user_id t) k) w' =
    run k (auth_tick (auth_tick w'))) as Hcheck.
  { intros w' Hu Hn A k. rewrite Hrev. apply (run_check_live _ _ _ u); [| by rewrite Hu | done].
    intros e He. eapply Z.le_lt_trans; [by apply clock_mono | by apply Hlive]. }
  destruct Hr as [-> | ->].
  - assert (run (pat_infra (token_find_by_prefix (t_token_prefix t))) w2 = (auth_tick w2, Ok (Some t))) as Hfind.
    { cbn. rewrite no_faults. cbn. by rewrite Ht2, Ht1, Hpick. }
    rewrite Hfmt, run_bind, Hfind, Hhash. cbn [negb].
    rewrite Hcheck; [| by trans (users w1); [trans (users w2) |] | change (S (auth_calls w2) ≤ 3 + auth_calls w)%nat; lia].
    eexists. split; [done |]. by trans (users w1); [trans (users w2) |].
  - cbn [v_expires_at v_revoked_at v_user_id validation_of].
    rewrite Hcheck; [| congruence | lia]. eexists. split; [done |]. by trans (users w1); [trans (users w2) |].
Qed.
End working.

(** C27. Issuing and presenting a token are inverse: the text of a personal token that the
    use case handed out, presented as a bearer while the row is neither revoked nor expired
    and its owner is active, authenticates as the owner, with exactly the permissions and
    repositories of the row as its cap.  The generated text parses back to the row's prefix,
    the hash verifies, and the cap travels from the row, or from the cache, to the
    principal.  It holds for every interleaving of the issue with other handlers, when
    native tokens are accepted at all, the client is not locked out, no call fails, what
    the cache holds of the token is what its row says, and the eight random characters of
    the prefix are not those of another row. *)
Theorem issued_tokens_authenticate jobs w0 w ps i principal r it t u lockout bucket :
  sound tuc w0 → reaches tuc auc jobs w0 w ps →
  jobs i = J_SelfToken principal r → ps !! i = Some (Done (Ok (R_Issued (Ok it)))) →
  (∀ n, auth_fault n = None) → in_force it t u w → not_locked_out bucket w → cache_agrees it t w →
  pat_validation auc = Some lockout →
  ∃ w' p, run (authenticate_bearer auc (it_plaintext it) bucket) w = (w', Ok p) ∧
    cp_user_id p = cp_user_id principal ∧ cp_token_kind p = Some Pat ∧
    cp_token_cap p = Some (flat_cap (t_declared_permissions t) (t_repository_ids t)).
Proof.
  intros Hs0 Hr Hi Hdone Hnf Hf Hb Hc Hpat.
  pose proof (reached_sound _ _ _ _ _ _ Hs0 Hr) as Hs.
  pose proof (reached_done _ _ _ _ _ _ _ _ Hs0 Hr Hdone) as Hg. unfold done_with in Hg. rewrite Hi in Hg.
  destruct Hg as (t' & _ & Hrow & Hown & Hopens & _). rewrite (if_row _ _ _ _ Hf) in Hrow.
  injection Hrow as <-.
  destruct (validate_in_force Hnf lockout bucket it t u Pat w) as (w' & Hrun & Husers); [done..|].
  unfold authenticate_bearer. rewrite (op_format _ _ _ Hopens), Hpat. unfold authenticate_pat.
  rewrite run_bind, run_map_error, Hrun. cbn. rewrite Hnf. cbn.
  rewrite Husers, (if_owner _ _ _ _ Hf). cbn. eexists _, _. split; [done|]. cbn.
  rewrite (op_kind _ _ _ Hopens). split; [| done]. rewrite <- Hown.
  by apply (so_users _ _ Hs), (if_owner _ _ _ _ Hf).
Qed.
End sessions.
