(* ===== verification/TokenExamples.v ===== *)
(** Runs of authentication and of the token use case: the witnesses of the theorems on
    access control, and four ways in which a CLI session or a login does more than the
    documentation says. *)

From coqutil Require Import Datatypes.RecordSetters.
From stdpp Require Import sorting.
From S2P Require Import Prelude.
From S2P Require Import RustStd.
From S2P Require Import Types.
From S2P Require Import Store.
From S2P Require Import Concurrent.
From S2P Require Import Rbac.
From S2P Require Import TokenCache.
From S2P Require Import RepositoryAccess.
From S2P Require Import Tokens.
From S2P Require Import Authenticate.
From S2P Require Import TokenSafety.
From S2P Require Import SessionSafety.
Import DoubleBraceUpdate.

(** ** Instances *)

Module SampleAuth.

(** A map with a bound, which gives up some entry when it is full. *)
Definition sample_push {K V} `{Countable K} (c : Z * gmap K V) (k : K) (v : V)
    : (Z * gmap K V) * option (K * V) :=
  match c.2 !! k with
  | Some old => ((c.1, <[k := v]> (delete k c.2)), Some (k, old))
  | None =>
      match (if c.1 <=? len (map_to_list c.2) then map_to_list c.2 else []) with
      | (k', v') :: _ => ((c.1, <[k := v]> (delete k' c.2)), Some (k', v'))
      | [] => ((c.1, <[k := v]> c.2), None)
      end
  end.

#[export, refine] Instance sample_lru {K V} `{Countable K} : Lru K V := {
  lru := Z * gmap K V;
  lru_new capacity := (capacity, ∅);
  entries := snd;
  lru_get c k := (c, c.2 !! k);
  lru_pop c k := ((c.1, delete k c.2), c.2 !! k);
  lru_push := sample_push;
  lru_iter c := map_to_list c.2;
  lru_clear c := (c.1, ∅);
}.
Proof.
  - done.
  - done.
  - done.
  - intros [n m] k v. unfold sample_push. cbn. destruct (m !! k) as [old|] eqn:Hk; [done|].
    destruct (if n <=? len (map_to_list m) then map_to_list m else []) as [|[k' v'] rest] eqn:Hl; cbn; [done|].
    split_and!; [| by intros [] | done]. apply elem_of_map_to_list. destruct (_ <=? _); [| done].
    rewrite Hl. left.
  - intros [n m] k v. apply elem_of_map_to_list.
  - done.
Defined.

(** A call takes 0.3 seconds, until the clock stands still after a year. *)
Definition start_time : DateTime := 1700000000 * NANOS.
Definition sample_clock (n : nat) : DateTime :=
  start_time + Z.min (Z.of_nat n * 300000000) (DAYS 365).

Lemma sample_clock_in_range n : in_range (sample_clock n).
Proof.
  unfold in_range, sample_clock, start_time, MIN_UTC, MAX_UTC, DAYS, DAY, NANOS. lia.
Qed.

#[export, refine] Instance sample_backend : TokenBackend := {
  auth_fault _ := None;
  clock := sample_clock;
  random_bytes n := replicate 20 (byte_of_Z (Z.of_nat n mod 256));
  new_uuid n := 1000 + Z.of_nat n;
  hash_token _ plaintext := Ok ("argon2:" +:+ plaintext)%string;
  verify_token plaintext hash := bool_decide (hash = "argon2:" +:+ plaintext)%string;
  pick_row := head;
}.
Proof.
  - intros n m Hle. unfold sample_clock. lia.
  - exact sample_clock_in_range.
  - intros n. apply length_replicate.
  - intros n plaintext hash [= <-]. by apply bool_decide_eq_true_2.
  - intros [|row rows]; [done | left].
Defined.

(** Tokens in binary, with a dot at the end: a list of numbers, of which the first is
    the key. *)
Fixpoint bits (p : positive) : string :=
  match p with
  | xH => "."
  | xO p => "0" +:+ bits p
  | xI p => "1" +:+ bits p
  end.

Fixpoint of_bits (s : string) : positive :=
  match s with
  | String c s =>
      if bool_decide (c = byte_of_Z 48) then xO (of_bits s)
      else if bool_decide (c = byte_of_Z 49) then xI (of_bits s)
      else xH
  | EmptyString => xH
  end.

Lemma of_bits_bits p : of_bits (bits p) = p.
Proof.
  induction p as [p IH | p IH |]; [| | done].
  - trans (xI (of_bits (bits p))); [done | by rewrite IH].
  - trans (xO (of_bits (bits p))); [done | by rewrite IH].
Qed.

Lemma bits_dotted p : byte_of_Z 46 ∈ as_bytes (bits p).
Proof. induction p as [p IH | p IH |]; cbn; [by right..| by left]. Qed.

Definition wire_numbers (key : string) (s : SessionWire) : list positive :=
  [encode key; encode (s_iss s); encode (s_sub s); encode (s_aud s); encode (s_exp s);
   encode (s_iat s); encode (s_jti s); encode (s_token_kind s); encode (s_claims s)].

Definition of_wire_numbers (ns : list positive) : option (string * SessionWire) :=
  match ns with
  | [key; iss; sub; aud; exp; iat; jti; kind; claims] =>
      key ← decode key; iss ← decode iss; sub ← decode sub; aud ← decode aud; exp ← decode exp;
      iat ← decode iat; jti ← decode jti; kind ← decode kind; claims ← decode claims;
      Some (key, {| s_iss := iss; s_sub := sub; s_aud := aud; s_exp := exp; s_iat := iat;
                    s_jti := jti; s_token_kind := kind; s_claims := claims |})
  | _ => None
  end.

Lemma of_wire_wire key s : of_wire_numbers (wire_numbers key s) = Some (key, s).
Proof. destruct s. unfold of_wire_numbers, wire_numbers. by rewrite !decode_encode. Qed.

Definition sample_decode (key : string) (now : Z) (aud jwt : string) : result JwtErrorKind SessionWire :=
  match positives_unflatten (of_bits jwt) ≫= of_wire_numbers with
  | None => Err (JE_Other "malformed"%string)
  | Some (key', s) =>
      if negb (bool_decide (key' = key)) then Err JE_InvalidSignature
      else if s_exp s <? now then Err ExpiredSignature
      else if bool_decide (s_aud s = aud) then Ok s else Err JE_InvalidAudience
  end.

#[export, refine] Instance sample_jwt : Jwt := {
  SigningKey := string;
  jwt_encode key s := Ok (bits (positives_flatten (wire_numbers key s)));
  jwt_decode := sample_decode;
}.
Proof.
  - intros key s jwt now aud [= <-]. unfold sample_decode.
    rewrite of_bits_bits, positives_unflatten_flatten. cbn [mbind option_bind].
    by rewrite of_wire_wire, bool_decide_eq_true_2.
  - intros key s jwt [= <-]. apply bits_dotted.
Defined.

(** The provider knows one token. *)
#[export] Instance sample_identity : Identity := {
  validate_token _ token :=
    if bool_decide (token = "idp"%string)
    then Ok {| idp_subject := "sub-alice"; idp_username := "alice"; idp_email := "alice@example.org";
               idp_groups := ["ops"%string]; idp_issued_at := start_time |}
    else Err Oidc_Malformed;
  sha256 bytes := bytes;
}.

(** Rows are sorted, and text is equal or not. *)
#[export, refine] Instance sample_repositories : RepositoryBackend := {
  repo_fault _ := None;
  order_by le := merge_sort (λ x y, Is_true (le x y));
  collate_le _ _ := true;
  lower_like text pattern := bool_decide (text = pattern);
  negative_row_count := Invariant [Lit "OFFSET must not be negative"];
}.
Proof.
  - done.
  - intros le rows. apply merge_sort_Permutation.
  - intros le rows Hle. assert (Total (λ x y, Is_true (le x y))).
    { intros x y. destruct (Hle x y) as [-> | ->]; [by left | by right]. }
    apply Sorted_merge_sort, _.
Defined.
End SampleAuth.
Import SampleAuth.

(** ** A server *)

Module SampleServer.

Definition alice : User :=
  {| u_id := 1; u_username := "alice"; u_email := "alice@example.org"; u_auth_provider := AP_Oidc;
     u_external_id := Some "sub-alice"%string; u_display_name := None; u_is_active := true;
     u_is_admin := false; u_is_service_account := false; u_last_login_at := None;
     u_created_at := start_time; u_updated_at := start_time |}.

Definition robot : User :=
  {| u_id := 2; u_username := "robot"; u_email := "robot@example.org"; u_auth_provider := AP_Local;
     u_external_id := None; u_display_name := None; u_is_active := true;
     u_is_admin := false; u_is_service_account := true; u_last_login_at := None;
     u_created_at := start_time; u_updated_at := start_time |}.

(** Alice may read repository 10. *)
Definition reader : PermissionGrant :=
  {| pg_id := 50; pg_subject := GS_User 1; pg_repository_id := Some 10; pg_permission := Read;
     pg_managed_by := MB_Local; pg_managed_by_digest := None; pg_created_at := start_time |}.

Definition world : AuthWorld :=
  {| users := {[1 := alice; 2 := robot]}; tokens := ∅; user_streams := ∅; rbac := [reader];
     past_rbac := []; replay_seen := ∅; ephemeral := ∅; notices := [];
     pat_cache := new_with_clock 100 (300 * NANOS); auth_calls := 0 |}.

Definition signer : CliSessionTokenSigner :=
  {| signing_key := "key"%string; prev_verifying := None; signer_issuer := "https://hort.example.org" |}.

Definition tuc : ApiTokenUseCase :=
  {| config := {| allow_admin_tokens := false; allow_unbounded_svc_tokens := false |};
     replay_guard := true; cli_session_signer := Some signer; revocation_denylist := true |}.

(** The group [ops] makes an admin. *)
Definition auc : AuthenticateUseCase :=
  {| pat_validation := Some PatLockoutConfig_DEFAULT; cli_session_verifier := Some signer;
     cli_session_revocation_denylist := true; idp := true;
     claim_mappings := [{| cm_id := 60; cm_idp_group := "ops"; cm_claim := "admin"; cm_managed_by := MB_Local;
                           cm_managed_by_digest := None |}] |}.

Definition principal : CallerPrincipal :=
  {| cp_user_id := 1; cp_external_id := "sub-alice"; cp_username := "alice";
     cp_email := "alice@example.org"; cp_claims := []; cp_token_kind := None;
     cp_issued_at := start_time; cp_token_cap := None |}.

Lemma world_sound : sound tuc world.
Proof.
  split; [by intros ?? ?|]. change (users world) with (<[1 := alice]> {[2 := robot]} : gmap Uuid User).
  apply map_Forall_insert_2; [done|]. by apply map_Forall_singleton.
Qed.

(** *** Pools *)

(** The first [n] jobs start, and then their calls are made in the order of [picks]. *)
Definition pool (jobs : list AuthJob) (picks : list nat) (w : AuthWorld)
    : AuthWorld * list (prog AuthWorld Empty_set AuthReply) :=
  schedule picks (w, imap (handle_job tuc auc) jobs).

Definition job (jobs : list AuthJob) (i : nat) : AuthJob := default J_ListenerLost (jobs !! i).

Lemma pool_reached_among all jobs picks w :
  (∀ i j, jobs !! i = Some j → job all i = j) →
  reaches tuc auc (job all) w (pool jobs picks w).1 (pool jobs picks w).2.
Proof.
  intros Hall. unfold reaches. rewrite <- surjective_pairing. etrans; [| apply schedule_steps].
  apply spawn_all. intros i p Hp. rewrite list_lookup_imap in Hp.
  apply fmap_Some in Hp as (j & Hj & ->). unfold started. by rewrite (Hall i j Hj).
Qed.

Lemma pool_reached jobs picks w :
  reaches tuc auc (job jobs) w (pool jobs picks w).1 (pool jobs picks w).2.
Proof. apply pool_reached_among. intros i j Hj. unfold job. by rewrite Hj. Qed.

(** What a job has handed out. *)
Definition token_of (c : AuthWorld * list (prog AuthWorld Empty_set AuthReply)) (i : nat) : IssuedToken :=
  match c.2 !! i with
  | Some (Done (Ok (R_Issued (Ok it)))) => it
  | _ => {| it_id := 0; it_name := ""; it_kind := Pat; it_plaintext := ""; it_expires_at := None |}
  end.

Definition body : IssueTokenRequestBody :=
  {| bd_name := "laptop"; bd_description := None; bd_declared_permissions := ["read"%string];
     bd_repository_ids := Some [10]; bd_expires_in_days := Some 7 |}.

(** Alice asks for a token, and the grants are withdrawn while it is being issued. *)
Definition issuing : list AuthJob := [J_SelfToken principal body; J_StoreRbac []].
Definition issued_pool := pool issuing (replicate 4 0 ++ [1] ++ replicate 10 0)%nat world.

(** The row of that token. *)
Definition issued_row : ApiToken :=
  {| t_id := 1007; t_user_id := 1; t_name := "laptop"; t_description := None; t_kind := Pat;
     t_token_hash := "argon2:hort_pat_ambqgaydambqgaydambqgaydambqgayd"; t_token_prefix := "ambqgayd";
     t_declared_permissions := [Read]; t_repository_ids := Some [10];
     t_expires_at := Some (start_time + 604800300000000); t_revoked_at := None; t_last_used_at := None;
     t_last_used_ip := None; t_last_used_user_agent := None; t_created_by_user_id := 1;
     t_created_at := start_time + 1800000000 |}.

(** Two federated requests present the same source, call by call in turn. *)
Definition source : FederationSource :=
  {| fs_issuer := "ci"; fs_jti := Some "job-7"%string; fs_subject := "repo:main";
     fs_iss := "https://ci.example.org"; fs_iat := Some 1700000000; fs_exp := 1700000600;
     fs_require_jti := true |}.

Definition federated : IssueTokenRequest :=
  {| rq_name := "ci"; rq_description := None; rq_declared_permissions := [Read];
     rq_repository_ids := Some [10]; rq_expires_in_days := None; rq_expires_in_seconds := Some 600;
     rq_federation_source := Some source |}.

Definition federating : list AuthJob := [J_SystemToken 2 federated; J_SystemToken 2 federated].
Definition federated_pool := pool federating (concat (replicate 12 [0; 1]))%nat world.

(** Alice opens a CLI session, and is cut off. *)
Definition cli_request : IssueCliSessionRequest :=
  {| client_name := Some "hort-cli"%string; source_ip := "192.0.2.1"; requested_scope := [Read];
     requested_lifetime_secs := None |}.

Definition opening : list AuthJob := [J_CliSession principal cli_request].
Definition session_pool := pool opening (replicate 12 0)%nat world.
Definition session : IssuedToken := token_of session_pool 0.

(** They present the session once the cut-off is through. *)
Definition visiting : list AuthJob :=
  [J_CliSession principal cli_request; J_RevokeSessions 1; J_Bearer (it_plaintext session) None].
Definition next_job (picks : list nat) (c : AuthWorld * list (prog AuthWorld Empty_set AuthReply)) :=
  schedule picks (c.1, c.2 ++ [handle_job tuc auc (length c.2) (job visiting (length c.2))]).
Definition cut_pool := next_job (replicate 4 1)%nat session_pool.
Definition presented_pool := next_job (replicate 12 2)%nat cut_pool.

Lemma next_job_reached picks c :
  rtc (pool_step (started tuc auc (job visiting))) c (next_job picks c).
Proof. destruct c as [w ps]. eapply rtc_l; [by apply pool_spawn | apply schedule_steps]. Qed.

Lemma issued_reached : reaches tuc auc (job issuing) world issued_pool.1 issued_pool.2.
Proof. unfold issued_pool. apply pool_reached. Qed.

Lemma federated_reached : reaches tuc auc (job federating) world federated_pool.1 federated_pool.2.
Proof. unfold federated_pool. apply pool_reached. Qed.

Lemma session_reached : reaches tuc auc (job opening) world session_pool.1 session_pool.2.
Proof. unfold session_pool. apply pool_reached. Qed.

Lemma session_visited : reaches tuc auc (job visiting) world session_pool.1 session_pool.2.
Proof. unfold session_pool. apply pool_reached_among. by intros [|i] j [= <-]. Qed.

Lemma cut_reached :
  rtc (pool_step (started tuc auc (job visiting))) (session_pool.1, session_pool.2) (cut_pool.1, cut_pool.2).
Proof. rewrite <- !surjective_pairing. apply next_job_reached. Qed.

Lemma presented_reached :
  rtc (pool_step (started tuc auc (job visiting))) (cut_pool.1, cut_pool.2) (presented_pool.1, presented_pool.2).
Proof. rewrite <- !surjective_pairing. apply next_job_reached. Qed.
End SampleServer.
Import SampleServer.

(** Both sides compute to the same value; the type of the equation is left alone. *)
Ltac evaluate := match goal with |- ?a = ?b => exact (eq_refl b <: a = b) end.

(** ** Witnesses *)

(** An entry is found while it is fresh, after a revocation of another token. *)
Definition alices : ApiTokenValidation :=
  {| v_token_id := 7; v_user_id := 1; v_kind := Pat; v_token_cap := flat_cap [Read] None;
     v_expires_at := None; v_revoked_at := None |}.
Definition robots : ApiTokenValidation :=
  {| v_token_id := 8; v_user_id := 2; v_kind := ServiceAccount; v_token_cap := flat_cap [Read] None;
     v_expires_at := None; v_revoked_at := None |}.
Definition cache_history : list CacheOp :=
  [C_insert 0 (as_bytes "a") alices; C_insert 1 (as_bytes "b") robots; C_invalidate_token 8].

Lemma cache_hits_are_fresh_witness :
  ∃ t before after,
    cache_history = before ++ [C_insert t (as_bytes "a") alices] ++ after ∧
    Forall (spares (as_bytes "a") alices) after ∧ 5 ≤ Z.max t (t + 10).
Proof. apply (cache_hits_are_fresh 2 10 cache_history 5 (as_bytes "a") alices). by vm_compute. Defined.

(** A repository that anonymous callers cannot see, and one that they can. *)
Definition repository (id : Uuid) (key : string) (public : bool) : Repository :=
  {| repo_id := id; repo_key := key; repo_name := key; repo_description := None;
     repo_format := Npm; repo_type := Hosted; storage_backend := "filesystem";
     storage_path := key; upstream_url := None; index_upstream_url := None; is_public := public;
     download_audit_enabled := false; quota_bytes := None; replication_priority := LocalOnly;
     promotion := None; curation_rule_names := []; index_mode := ReleasedOnly;
     prefetch_policy := PrefetchPolicy_default; repo_created_at := start_time;
     repo_updated_at := start_time; repo_managed_by := MB_Local; repo_managed_by_digest := None |}.

Definition with_secret : RepositoryWorld :=
  {| repositories := [repository 10 "secret" false; repository 11 "open" true];
     virtual_repo_members := []; repo_calls := 0 |}.
Definition without_secret : RepositoryWorld :=
  {| repositories := [repository 11 "open" true]; virtual_repo_members := []; repo_calls := 0 |}.

Lemma secret_hidden : same_view (RA_Enabled [reader]) None with_secret without_secret.
Proof.
  split; [done | | | by vm_compute].
  all: unfold unique_keys; apply (bool_decide_unpack _); by vm_compute.
Qed.

Lemma hidden_repositories_look_missing_witness :
  (∀ key level, (run (resolve_key (RA_Enabled [reader]) key None level) with_secret).2 =
                (run (resolve_key (RA_Enabled [reader]) key None level) without_secret).2) ∧
  same_listing (run (list_repositories (RA_Enabled [reader]) None) with_secret).2
               (run (list_repositories (RA_Enabled [reader]) None) without_secret).2.
Proof.
  destruct (hidden_repositories_look_missing _ _ _ _ secret_hidden) as [Hkeys Hlist].
  split; [exact Hkeys | apply Hlist; by vm_compute].
Defined.

Lemma tokens_never_exceed_their_owner_witness :
  ∃ t evaluator, tokens issued_pool.1 !! it_id (token_of issued_pool 0) = Some t ∧
    t_user_id t = 1 ∧ was_loaded issued_pool.1 evaluator ∧
    ∀ perm repo, cap_allows_optional_repo (Some (row_cap t)) perm repo = true →
      authorize evaluator principal perm repo = true.
Proof.
  apply (tokens_never_exceed_their_owner tuc auc (job issuing) world issued_pool.1 issued_pool.2 0 principal body
           (token_of issued_pool 0) world_sound issued_reached); evaluate.
Defined.

Lemma stored_tokens_are_well_formed_witness :
  ∃ t, tokens issued_pool.1 !! 1007 = Some t ∧ t_id t = 1007 ∧ well_formed t.
Proof.
  assert (Ht : tokens issued_pool.1 !! 1007 = Some issued_row) by evaluate. exists issued_row. split; [done|].
  exact (stored_tokens_are_well_formed tuc auc (job issuing) world issued_pool.1 issued_pool.2 1007 issued_row
           world_sound issued_reached Ht).
Defined.

Lemma token_lifetimes_are_bounded_witness :
  ∃ e, it_expires_at session = Some e ∧ e ≤ time session_pool.1 + 900 * NANOS.
Proof.
  destruct (token_lifetimes_are_bounded tuc auc (job opening) world session_pool.1 session_pool.2
              world_sound session_reached) as [_ Hs].
  apply (Hs 0%nat principal cli_request session); evaluate.
Defined.

Lemma federated_tokens_mint_once_witness :
  federated_pool.2 !! 1%nat ≠ Some (Done (Ok (R_Issued (Ok (token_of federated_pool 0))))).
Proof.
  apply (federated_tokens_mint_once tuc auc (job federating) world federated_pool.1 federated_pool.2 0 1 2 2
           federated federated source source (RK_Jti "ci" "job-7") (1700000600 * NANOS) (1700000600 * NANOS)
           (token_of federated_pool 0) _ world_sound federated_reached); first [evaluate | by vm_compute | done].
Defined.

Lemma revoked_sessions_stay_out_witness :
  presented_pool.2 !! 2%nat ≠ Some (Done (Ok (R_Principal (Ok principal)))).
Proof.
  assert (Hone : length session_pool.2 = 1%nat) by evaluate.
  assert (Htwo : length cut_pool.2 = 2%nat) by evaluate.
  eapply (revoked_sessions_stay_out tuc auc (job visiting) world session_pool.1 session_pool.2 0
            principal cli_request session (start_time + 900600000000) cut_pool.1 cut_pool.2 1
            {| cut_user_id := 1; cut_at := start_time + 2400000000; cut_expires_at := start_time + 902400000000 |}
            presented_pool.1 presented_pool.2 2 None principal).
  1: exact eq_refl.
  1: exact world_sound.
  1: exact session_visited.
  1-3: evaluate.
  1: intros n q Hn Hq%lookup_lt_Some; rewrite Hone in Hq; destruct n; [discriminate Hn | lia].
  1: exact cut_reached.
  1: rewrite Hone; exact (le_n 1).
  1-2: evaluate.
  1: exact presented_reached.
  1: rewrite Htwo; exact (le_n 2).
  1: exact eq_refl.
  by vm_compute.
Defined.

Lemma issued_in_force : in_force (token_of issued_pool 0) issued_row alice issued_pool.1.
Proof.
  assert (Hrows : tokens issued_pool.1 = {[1007 := issued_row]}) by evaluate.
  assert (Hid : it_id (token_of issued_pool 0) = 1007) by evaluate.
  split; rewrite ?Hrows, ?Hid; [evaluate | done | | | evaluate | done].
  - intros e [= <-]. by vm_compute.
  - by intros id t' [<- _]%lookup_singleton_Some.
Qed.

Lemma issued_tokens_authenticate_witness :
  ∃ w' p, run (authenticate_bearer auc (it_plaintext (token_of issued_pool 0)) (Some "192.0.2.1"%string))
            issued_pool.1 = (w', Ok p) ∧
    cp_user_id p = 1 ∧ cp_token_kind p = Some Pat ∧ cp_token_cap p = Some (flat_cap [Read] (Some [10])).
Proof.
  assert (Hflag : live issued_pool.1 (EK_AttemptFlag "192.0.2.1") = None) by evaluate.
  assert (Hmiss : entries (primary (pat_cache issued_pool.1)) !!
            compute_cache_key (it_plaintext (token_of issued_pool 0)) = None) by evaluate.
  apply (issued_tokens_authenticate tuc auc (job issuing) world issued_pool.1 issued_pool.2 0 principal body
           (token_of issued_pool 0) issued_row alice PatLockoutConfig_DEFAULT (Some "192.0.2.1"%string)
           world_sound issued_reached).
  1-2: evaluate.
  1: done.
  1: exact issued_in_force.
  1: intros b [= <-]; exact Hflag.
  1: intros x Hx; rewrite Hmiss in Hx; discriminate Hx.
  exact eq_refl.
Defined.

(** ** Divergences *)

(** The value of a run that succeeds. *)
Definition outcome {E A} (r : AuthWorld * result E A) : option A :=
  match r.2 with Ok a => Some a | Err _ => None end.

(** Time passes without calls. *)
Definition at_call (n : nat) (w : AuthWorld) : AuthWorld := w {{ auth_calls := n }}.

(** Alice logs in at the provider, whose group makes them an admin, and opens a session for
    reading. *)
Definition login := run (authenticate_bearer auc "idp" None) world.
Definition admin : CallerPrincipal := default principal (outcome login).
Definition admin_opens := run (issue_cli_session tuc admin cli_request) login.1.
Definition admin_session : IssuedToken := default session (outcome admin_opens).
Definition admin_returns := run (authenticate_bearer auc (it_plaintext admin_session) None) admin_opens.1.

(** The session of an admin is not bound to the scope it was asked for: the server disallows
    admin tokens, the request and the audit event name [Read], and the session's bearer may
    write, delete and administer in every repository. *)
Theorem a_session_outranks_its_scope :
  allow_admin_tokens (config tuc) = false ∧
  (∃ e, user_streams admin_opens.1 !! 1 = Some [(Some 1, TE_Issued e)] ∧
     is_token_id e = it_id admin_session ∧ is_declared_permissions e = [Read]) ∧
  ∃ p, outcome admin_returns = Some p ∧ cp_token_kind p = Some CliSession ∧
    ∀ repo, Forall (λ perm, authorize (rbac admin_returns.1) p perm repo = true) [Read; Write; Delete; Admin].
Proof.
  split; [done|]. split.
  - match goal with |- ∃ e, ?stream = _ ∧ _ =>
      match eval vm_compute in stream with Some [(_, TE_Issued ?e)] => exists e end end.
    split_and!; evaluate.
  - exists (default principal (outcome admin_returns)). split_and!; [evaluate | evaluate |].
    intros repo. repeat constructor; destruct repo; evaluate.
Qed.

(** The session's own text is a subject token.  Ten minutes later it is exchanged for a
    session that ends later, although the provider refuses the text. *)
Definition renewal : ExchangeForm :=
  {| subject_token := it_plaintext session; requested_token_type := None; scope := ["read"%string];
     client_id := None; requested_token_lifetime := None |}.
Definition renewed := run (exchange auc tuc renewal "192.0.2.1" None) (at_call 2000 session_pool.1).

Theorem a_session_renews_itself :
  (∀ n, validate_token n (subject_token renewal) = Err Oidc_Malformed) ∧
  ∃ it secs e e', outcome renewed = Some (it, secs) ∧ it_kind it = CliSession ∧
    it_expires_at session = Some e ∧ it_expires_at it = Some e' ∧ e < e'.
Proof.
  split; [intros n; evaluate|].
  match eval vm_compute in (outcome renewed) with
  | Some (?it, ?secs) =>
      match eval vm_compute in (it_expires_at it) with
      | Some ?e' => exists it, secs, (start_time + 900600000000), e'
      end
  end.
  split_and!; [evaluate.. | by vm_compute].
Qed.

(** A deactivated user logs in at the provider. *)
Definition deactivated : AuthWorld :=
  world {{ users ::= <[1 := alice {{ u_is_active := false }}]> }}.
Definition late_login := run (authenticate_bearer auc "idp" None) deactivated.

Theorem a_deactivated_user_logs_in :
  ∃ p u, outcome late_login = Some p ∧ cp_user_id p = 1 ∧
    users late_login.1 !! 1 = Some u ∧ u_is_active u = false.
Proof.
  exists (default principal (outcome late_login)), (default alice (users late_login.1 !! 1)).
  split_and!; evaluate.
Qed.

(** A session is revoked by its id, with the end that its text names.  The mark lapses with
    the first instant of the last second in which the text is accepted. *)
Definition session_end : DateTime := start_time + 900 * NANOS.
Definition session_revoked := run (revoke_cli_session tuc (it_id session) session_end) session_pool.1.
Definition after_the_mark : AuthWorld := at_call 3001 session_revoked.1.

Theorem a_revoked_session_comes_back :
  session_revoked.2 = Ok () ∧
  (∃ p, outcome (run (authenticate_bearer auc (it_plaintext session) None) session_revoked.1) = None ∧
        outcome (run (authenticate_bearer auc (it_plaintext session) None) after_the_mark) = Some p) ∧
  ∃ e, it_expires_at session = Some e ∧ time after_the_mark < e.
Proof.
  split; [evaluate|]. split.
  - exists (default principal (outcome (run (authenticate_bearer auc (it_plaintext session) None) after_the_mark))).
    split; evaluate.
  - exists (start_time + 900600000000). split; [evaluate | by vm_compute].
Qed.

(** Two cut-offs of the same user overlap: the first has read the clock, a session is
    opened, the second runs, and the first writes its earlier instant over the later one.
    The session was opened before the second cut-off began, and is let in. *)
Definition overlapping : list AuthJob :=
  [J_RevokeSessions 1; J_CliSession principal cli_request; J_RevokeSessions 1].
Definition overlapped := pool overlapping ([0] ++ replicate 12 1 ++ replicate 3 2 ++ replicate 3 0)%nat world.

Theorem overlapping_cutoffs_readmit :
  (∀ i, i ∈ [0; 2]%nat → ∃ c, overlapped.2 !! i = Some (Done (Ok (R_CutOff (Ok c))))) ∧
  overlapped.2 !! 1%nat = Some (Done (Ok (R_Issued (Ok (token_of overlapped 1))))) ∧
  ∃ p, outcome (run (authenticate_bearer auc (it_plaintext (token_of overlapped 1)) None) overlapped.1) = Some p.
Proof.
  split_and!.
  - intros i Hi. rewrite !elem_of_cons in Hi. destruct Hi as [-> | [-> | []%not_elem_of_nil]].
    + exists {| cut_user_id := 1; cut_at := start_time; cut_expires_at := start_time + 900 * NANOS |}. evaluate.
    + exists {| cut_user_id := 1; cut_at := start_time + 2700000000;
                cut_expires_at := start_time + 902700000000 |}. evaluate.
  - evaluate.
  - exists (default principal (outcome (run (authenticate_bearer auc (it_plaintext (token_of overlapped 1)) None)
                                         overlapped.1))). evaluate.
Qed.
