(* ===== verification/VersionOrder.v ===== *)
(** Which of two versions is newer, and which versions an index serves:
    crates/hort-app/src/use_cases/index_serve_filter.rs.

    The comparators of npm (and Cargo), PyPI and Maven work on the bytes of the version.
    Text is UTF-8, and every separator and marker they look for is ASCII, so that bytes
    and characters split at the same places. *)

From Stdlib Require Import Ascii.
From S2P Require Import Prelude.
From S2P Require Import RustStd.
From S2P Require Import Types.
From S2P Require Import Artifact.
From S2P Require Import RepositoryAccess.

Abbreviation bytes := (list byte).

(** ** [str] *)

Fixpoint split_once (c : byte) (l : bytes) : option (bytes * bytes) :=
  match l with
  | [] => None
  | b :: l' =>
      if bool_decide (b = c) then Some ([], l')
      else match split_once c l' with Some (x, y) => Some (b :: x, y) | None => None end
  end.

(** [str::split] by a character: the first piece and the others. *)
Fixpoint split_pieces (c : byte) (l : bytes) : bytes * list bytes :=
  match l with
  | [] => ([], [])
  | b :: l' =>
      let '(x, xs) := split_pieces c l' in
      if bool_decide (b = c) then ([], x :: xs) else (b :: x, xs)
  end.

Definition split (c : byte) (l : bytes) : list bytes :=
  let '(x, xs) := split_pieces c l in x :: xs.

Definition starts_with (p l : bytes) : bool := is_some (strip_prefix p l).

(** [str::find] and [str::rfind] of a text. *)
Fixpoint find_sub (p l : bytes) : option nat :=
  if starts_with p l then Some O
  else match l with [] => None | _ :: l' => S <$> find_sub p l' end.

Fixpoint rfind_sub (p l : bytes) : option nat :=
  match l with
  | [] => if starts_with p l then Some O else None
  | _ :: l' =>
      match rfind_sub p l' with
      | Some i => Some (S i)
      | None => if starts_with p l then Some O else None
      end
  end.

(** [str::replace]: from the left, without overlaps; [skip] bytes belong to the last
    match. *)
Fixpoint replace_from (skip : nat) (p by_ l : bytes) : bytes :=
  match l with
  | [] => []
  | b :: l' =>
      match skip with
      | S skip' => replace_from skip' p by_ l'
      | O => if starts_with p l then by_ ++ replace_from (length p - 1) p by_ l'
             else b :: replace_from O p by_ l'
      end
  end.

Definition str_replace (p by_ : string) (l : bytes) : bytes :=
  replace_from O (as_bytes p) (as_bytes by_) l.

(** [str::parse::<u64>]: one leading plus sign is accepted. *)
Definition digit_value (b : byte) : Z := Z_of_byte b - 48.

Definition decimal_value (digits : bytes) : Z := foldl (λ acc b, acc * 10 + digit_value b) 0 digits.

Definition parse_u64 (l : bytes) : option Z :=
  let digits := match l with "+"%char :: l' => l' | _ => l end in
  if is_empty digits || negb (forallb is_digit digits) then None
  else
    let n := decimal_value digits in
    if n <=? u64_MAX then Some n else None.

(** [str::to_lowercase] follows the Unicode tables, of which only the ASCII part is
    known here. *)
Class Lowercase : Type := {
  to_lower : bytes → bytes;
  to_lower_ascii : ∀ l, Forall (λ b, Z_of_byte b < 128) l → to_lower l = byte_to_lower <$> l;
}.

(** [strip_prefix(['v', 'V'])] *)
Definition strip_v (l : bytes) : bytes :=
  match l with
  | "v"%char :: l' | "V"%char :: l' => l'
  | _ => l
  end.

(** ** Comparators *)

Definition byte_cmp (a b : byte) : comparison := Z.compare (Z_of_byte a) (Z_of_byte b).
Definition bytes_cmp : bytes → bytes → comparison := list_cmp byte_cmp.

(** Both texts are parsed; one that parses is greater than one that does not, and two
    that do not are compared as text. *)
Definition parsed_cmp {A} (parse : bytes → option A) (cmp : A → A → comparison) (a b : bytes)
    : comparison :=
  match parse a, parse b with
  | Some x, Some y => cmp x y
  | Some _, None => Gt
  | None, Some _ => Lt
  | None, None => bytes_cmp a b
  end.

(** ** npm and Cargo *)

Inductive PrereleaseIdent : Type :=
  | PI_Numeric (n : Z)
  | PI_Alphanumeric (s : bytes).

Record ParsedNpmVersion : Type := {
  major : Z;
  minor : Z;
  patch : Z;
  prerelease : list PrereleaseIdent;
}.

Definition prerelease_ident (seg : bytes) : PrereleaseIdent :=
  let leading_zero := (1 <? len seg) && starts_with (as_bytes "0") seg in
  if negb (is_empty seg) && forallb is_digit seg && negb leading_zero
  then match parse_u64 seg with Some n => PI_Numeric n | None => PI_Alphanumeric seg end
  else PI_Alphanumeric seg.

(** A segment of the core that is missing is zero. *)
Definition segment (segs : list bytes) (i : nat) : option Z :=
  match segs !! i with Some s => parse_u64 s | None => Some 0 end.

Definition parse_npm (input : bytes) : option ParsedNpmVersion :=
  let input := strip_v input in
  let core_and_pre := match split_once "+"%char input with Some (cp, _) => cp | None => input end in
  let '(core, prerelease_str) :=
    match split_once "-"%char core_and_pre with
    | Some (c, p) => (c, Some p)
    | None => (core_and_pre, None)
    end in
  let segs := split "."%char core in
  major ← segment segs 0;
  minor ← segment segs 1;
  patch ← segment segs 2;
  if 3 <? len segs then None
  else
    Some {| major := major; minor := minor; patch := patch;
            prerelease := match prerelease_str with
                          | Some s => prerelease_ident <$> split "."%char s
                          | None => []
                          end |}.

Definition ident_cmp (a b : PrereleaseIdent) : comparison :=
  match a, b with
  | PI_Numeric x, PI_Numeric y => Z.compare x y
  | PI_Numeric _, PI_Alphanumeric _ => Lt
  | PI_Alphanumeric _, PI_Numeric _ => Gt
  | PI_Alphanumeric x, PI_Alphanumeric y => bytes_cmp x y
  end.

(** A release comes after its pre-releases. *)
Definition prerelease_cmp (a b : list PrereleaseIdent) : comparison :=
  match a, b with
  | [], [] => Eq
  | [], _ :: _ => Gt
  | _ :: _, [] => Lt
  | _ :: _, _ :: _ => list_cmp ident_cmp a b
  end.

Definition npm_cmp (a b : ParsedNpmVersion) : comparison :=
  cmp_then (Z.compare (major a) (major b))
    (cmp_then (Z.compare (minor a) (minor b))
       (cmp_then (Z.compare (patch a) (patch b)) (prerelease_cmp (prerelease a) (prerelease b)))).

(** [NpmSemverOrdering] *)
Definition npm_compare : bytes → bytes → comparison := parsed_cmp parse_npm npm_cmp.

Definition npm_is_prerelease (version : bytes) : bool :=
  match parse_npm version with
  | Some v => negb (is_empty (prerelease v))
  | None => false
  end.

(** ** PyPI: PEP 440 *)

Inductive Pep440PreKind : Type :=
  | Alpha
  | Beta
  | Rc.

Inductive Pep440LocalSegment : Type :=
  | LS_Alphanumeric (s : bytes)
  | LS_Numeric (n : Z).

Record ParsedPep440Version : Type := {
  epoch : Z;
  release : list Z;
  pre : option (Pep440PreKind * Z);
  post : option Z;
  dev : option Z;
  local : list Pep440LocalSegment;
}.

(** [String::push(b as char)]: the byte as a code point, in UTF-8. *)
Definition push_as_char (b : byte) : bytes :=
  let x := Z_of_byte b in
  if x <? 128 then [b] else [byte_of_Z (192 + x / 64); byte_of_Z (128 + x mod 64)].

(** A [c] at the start, or after a digit or a separator, is spelled [rc]. *)
Fixpoint canonicalise_from (prev : option byte) (l : bytes) : bytes :=
  match l with
  | [] => []
  | b :: l' =>
      let is_standalone :=
        match prev with
        | None => true
        | Some p => is_digit p || bool_decide (p ∈ as_bytes ".-_")
        end in
      (if bool_decide (b = "c"%char) && is_standalone then as_bytes "rc" else push_as_char b)
      ++ canonicalise_from (Some b) l'
  end.

Definition pep440_canonicalise_c : bytes → bytes := canonicalise_from None.

Definition is_ascii_alphabetic (b : byte) : bool := is_lower b || is_upper b.

Definition pep440_inject_dot_before (marker : string) (s : bytes) : bytes :=
  match find_sub (as_bytes marker) s with
  | None => s
  | Some pos =>
      match s !! pred pos with
      | Some prev =>
          if (pos =? 0)%nat || bool_decide (prev = "."%char) || is_ascii_alphabetic prev then s
          else take pos s ++ ["."%char] ++ drop pos s
      | None => s
      end
  end.

(** The text before the last marker and the number after it, zero when nothing is. *)
Definition pep440_pop_suffix (s : bytes) (marker : string) : bytes * option Z :=
  match rfind_sub (as_bytes marker) s with
  | None => (s, None)
  | Some pos =>
      let rest := drop (pos + String.length marker) s in
      if is_empty rest then (take pos s, Some 0)
      else match parse_u64 rest with
           | Some n => (take pos s, Some n)
           | None => (s, None)
           end
  end.

Definition pre_markers : list (string * Pep440PreKind) :=
  [("rc"%string, Rc); ("b"%string, Beta); ("a"%string, Alpha)].

(** The first marker of the table whose last occurrence ends the text. *)
Fixpoint pop_pre_loop (s : bytes) (markers : list (string * Pep440PreKind))
    : bytes * option (Pep440PreKind * Z) :=
  match markers with
  | [] => (s, None)
  | (marker, kind) :: markers' =>
      match rfind_sub (as_bytes marker) s with
      | None => pop_pre_loop s markers'
      | Some pos =>
          let mid_token :=
            match pos with
            | O => false
            | S i => match s !! i with
                     | Some prev => negb (is_digit prev) && negb (bool_decide (prev = "."%char))
                     | None => false
                     end
            end in
          let rest := drop (pos + String.length marker) s in
          if mid_token then pop_pre_loop s markers'
          else if is_empty rest then (take pos s, Some (kind, 0))
          else match parse_u64 rest with
               | Some n => (take pos s, Some (kind, n))
               | None => pop_pre_loop s markers'
               end
      end
  end.

Definition pep440_pop_pre (s : bytes) : bytes * option (Pep440PreKind * Z) := pop_pre_loop s pre_markers.

(** [while release.len() > 1 && *release.last() == 0 { release.pop() }], on the segments
    from the last to the first. *)
Fixpoint pop_zeros (rev_release : list Z) : list Z :=
  match rev_release with
  | x :: ((_ :: _) as rest) => if x =? 0 then pop_zeros rest else rev_release
  | _ => rev_release
  end.

Definition strip_trailing_zeros (release : list Z) : list Z := rev (pop_zeros (rev release)).

Definition local_segment (seg : bytes) : Pep440LocalSegment :=
  match parse_u64 seg with Some n => LS_Numeric n | None => LS_Alphanumeric seg end.

Section lowercase.
Context `{Lowercase}.

Definition pep440_normalise_public (s : bytes) : bytes :=
  let lower := to_lower s in
  let lower := str_replace "pre" "rc" (str_replace "preview" "rc"
                 (str_replace "beta" "b" (str_replace "alpha" "a" lower))) in
  let lower := pep440_canonicalise_c lower in
  let lower := str_replace "-dev" ".dev" (str_replace "_dev" ".dev"
                 (str_replace "-post" ".post" (str_replace "_post" ".post" lower))) in
  pep440_inject_dot_before "dev" (pep440_inject_dot_before "post" lower).

Definition parse_local (s : bytes) : list Pep440LocalSegment :=
  local_segment <$> filter (λ seg, seg ≠ [])
    (split "."%char (str_replace "_" "." (str_replace "-" "." (to_lower s)))).

Definition parse_pep440 (input : bytes) : option ParsedPep440Version :=
  let input := strip_v input in
  let '(public, local_str) :=
    match split_once "+"%char input with Some (p, l) => (p, Some l) | None => (input, None) end in
  '(epoch, rest) ← match split_once "!"%char public with
                   | Some (e, r) => n ← parse_u64 e; Some (n, r)
                   | None => Some (0, public)
                   end;
  let normalised := pep440_normalise_public rest in
  let '(without_dev, dev) := pep440_pop_suffix normalised ".dev" in
  let '(without_post, post) := pep440_pop_suffix without_dev ".post" in
  let '(release_str, pre) := pep440_pop_pre without_post in
  release_raw ← mapM parse_u64 (split "."%char release_str);
  Some {| epoch := epoch; release := strip_trailing_zeros release_raw; pre := pre; post := post;
          dev := dev; local := match local_str with Some s => parse_local s | None => [] end |}.
End lowercase.

(** The shorter side is padded with zeros. *)
Fixpoint padded_right (b : list Z) : comparison :=
  match b with
  | [] => Eq
  | y :: b' => cmp_then (Z.compare 0 y) (padded_right b')
  end.

Fixpoint padded_cmp (a b : list Z) : comparison :=
  match a, b with
  | [], [] => Eq
  | x :: a', [] => cmp_then (Z.compare x 0) (padded_cmp a' [])
  | [], _ :: _ => padded_right b
  | x :: a', y :: b' => cmp_then (Z.compare x y) (padded_cmp a' b')
  end.

Definition pre_disc (k : Pep440PreKind) : Z := match k with Alpha => 0 | Beta => 1 | Rc => 2 end.

(** The seven components, in their order. *)
Definition pep440_postpredev_key (v : ParsedPep440Version) : list Z :=
  let '(pre_tier, pre_kind_disc, pre_num) :=
    match pre v, post v, dev v with
    | None, None, Some _ => (0, 0, 0)
    | Some (kind, n), _, _ => (1, pre_disc kind, n)
    | None, _, _ => (2, 0, 0)
    end in
  [pre_tier; pre_kind_disc; pre_num;
   if is_some (post v) then 1 else 0; default 0 (post v);
   if is_some (dev v) then 0 else 1; default 0 (dev v)].

Definition local_segment_cmp (a b : Pep440LocalSegment) : comparison :=
  match a, b with
  | LS_Alphanumeric x, LS_Alphanumeric y => bytes_cmp x y
  | LS_Alphanumeric _, LS_Numeric _ => Lt
  | LS_Numeric _, LS_Alphanumeric _ => Gt
  | LS_Numeric x, LS_Numeric y => Z.compare x y
  end.

Definition local_cmp (a b : list Pep440LocalSegment) : comparison :=
  match a, b with
  | [], [] => Eq
  | [], _ :: _ => Lt
  | _ :: _, [] => Gt
  | _ :: _, _ :: _ => list_cmp local_segment_cmp a b
  end.

Definition pep440_cmp (a b : ParsedPep440Version) : comparison :=
  cmp_then (Z.compare (epoch a) (epoch b))
    (cmp_then (padded_cmp (release a) (release b))
       (cmp_then (list_cmp Z.compare (pep440_postpredev_key a) (pep440_postpredev_key b))
          (local_cmp (local a) (local b)))).

(** [Pep440Ordering] *)
Definition pep440_compare `{Lowercase} : bytes → bytes → comparison := parsed_cmp parse_pep440 pep440_cmp.

(** ** Maven: [ComparableVersion] *)

Inductive MavenItem : Type :=
  | MI_Int (digits : bytes)
  | MI_Str (s : bytes)
  | MI_List (items : list MavenItem).

Definition MAVEN_VERSION_PARSE_MAX_BYTES : Z := 1024.

Definition MAVEN_QUALIFIERS : list bytes :=
  as_bytes <$> ["alpha"; "beta"; "milestone"; "rc"; "snapshot"; ""; "sp"]%string.

Definition MAVEN_RELEASE_INDEX : nat := 5.

(** [usize::to_string], below ten. *)
Definition index_to_string (n : nat) : bytes := [byte_of_Z (48 + Z.of_nat n)].

Fixpoint position_of (q : bytes) (l : list bytes) : option nat :=
  match l with
  | [] => None
  | x :: l' => if bool_decide (x = q) then Some O else S <$> position_of q l'
  end.

Definition maven_comparable_qualifier (qualifier : bytes) : bytes :=
  match position_of qualifier MAVEN_QUALIFIERS with
  | Some idx => index_to_string idx
  | None => index_to_string (length MAVEN_QUALIFIERS) ++ as_bytes "-" ++ qualifier
  end.

Definition maven_release_version_index : bytes := index_to_string MAVEN_RELEASE_INDEX.

Definition maven_compare_qualifiers (a b : bytes) : comparison :=
  bytes_cmp (maven_comparable_qualifier a) (maven_comparable_qualifier b).

Definition maven_int_cmp (a b : bytes) : comparison :=
  cmp_then (Z.compare (len a) (len b)) (bytes_cmp a b).

Fixpoint drop_zeros (buf : bytes) : bytes :=
  match buf with
  | "0"%char :: buf' => drop_zeros buf'
  | _ => buf
  end.

Definition maven_strip_leading_zeros (buf : bytes) : bytes :=
  match drop_zeros buf with [] => as_bytes "0" | digits => digits end.

Definition maven_string_value (value : bytes) (followed_by_digit : bool) : bytes :=
  let v :=
    if followed_by_digit then
      if bool_decide (value = as_bytes "a") then as_bytes "alpha"
      else if bool_decide (value = as_bytes "b") then as_bytes "beta"
      else if bool_decide (value = as_bytes "m") then as_bytes "milestone"
      else value
    else value in
  if bool_decide (v = as_bytes "ga") || bool_decide (v = as_bytes "final") ||
     bool_decide (v = as_bytes "release") then []
  else if bool_decide (v = as_bytes "cr") then as_bytes "rc"
  else v.

Definition maven_string_item (value : bytes) (followed_by_digit : bool) : MavenItem :=
  MI_Str (maven_string_value value followed_by_digit).

Definition maven_parse_item (digits : bool) (buf : bytes) : MavenItem :=
  if digits then MI_Int (maven_strip_leading_zeros buf) else maven_string_item buf false.

(** The open lists, the innermost first; whether the token under way is a number; and
    the token. *)
Record MavenParser : Type := {
  current : list MavenItem;
  parents : list (list MavenItem);
  in_digits : bool;
  token : bytes;
}.

Definition push_item (item : MavenItem) (p : MavenParser) : MavenParser :=
  {| current := current p ++ [item]; parents := parents p; in_digits := in_digits p; token := token p |}.

Definition open_sublist (p : MavenParser) : MavenParser :=
  {| current := []; parents := current p :: parents p; in_digits := in_digits p; token := token p |}.

Definition set_token (digits : bool) (t : bytes) (p : MavenParser) : MavenParser :=
  {| current := current p; parents := parents p; in_digits := digits; token := t |}.

(** What a separator does with the token under way. *)
Definition flush (p : MavenParser) : MavenParser :=
  let item := if is_empty (token p) then MI_Int (as_bytes "0")
              else maven_parse_item (in_digits p) (token p) in
  set_token (in_digits p) [] (push_item item p).

Definition maven_char (p : MavenParser) (c : byte) : MavenParser :=
  if bool_decide (c = "."%char) then flush p
  else if bool_decide (c = "-"%char) then open_sublist (flush p)
  else if is_digit c then
    if negb (in_digits p) && negb (is_empty (token p)) then
      let p1 := if is_empty (current p) then p else open_sublist p in
      let p2 := push_item (maven_string_item (token p) true) p1 in
      set_token true [c] (open_sublist p2)
    else set_token true (token p ++ [c]) p
  else if in_digits p && negb (is_empty (token p)) then
    set_token false [c] (open_sublist (push_item (maven_parse_item true (token p)) p))
  else set_token false (token p ++ [c]) p.

(** Each open list becomes the last item of the one around it. *)
Fixpoint close_lists (child : list MavenItem) (rest : list (list MavenItem)) : list MavenItem :=
  match rest with
  | [] => child
  | parent :: rest' => close_lists (parent ++ [MI_List child]) rest'
  end.

(** The token that ends the text, and the collapse of the stack. *)
Definition maven_finish (p : MavenParser) : list MavenItem :=
  let p :=
    if is_empty (token p) then p
    else
      let p1 := if negb (in_digits p) && negb (is_empty (current p)) then open_sublist p else p in
      push_item (maven_parse_item (in_digits p) (token p)) p1 in
  close_lists (current p) (parents p).

Definition maven_parse_version (version : bytes) : list MavenItem :=
  maven_finish (foldl maven_char {| current := []; parents := []; in_digits := false; token := [] |} version).

Fixpoint is_null (i : MavenItem) : bool :=
  match i with
  | MI_Int d => bool_decide (d = as_bytes "0")
  | MI_Str s => bool_decide (maven_comparable_qualifier s = maven_release_version_index)
  | MI_List items => forallb is_null items
  end.

(** From the last item to the first: null items go, a list stays and the scan goes on,
    any other item ends it. *)
Fixpoint trim_nulls (rev_items : list MavenItem) : list MavenItem :=
  match rev_items with
  | [] => []
  | i :: rest =>
      if is_null i then trim_nulls rest
      else match i with MI_List _ => i :: trim_nulls rest | _ => rev_items end
  end.

Fixpoint normalize_item (i : MavenItem) : MavenItem :=
  match i with
  | MI_List items => MI_List (rev (trim_nulls (rev (map normalize_item items))))
  | _ => i
  end.

Definition maven_normalize (items : list MavenItem) : list MavenItem :=
  rev (trim_nulls (rev (map normalize_item items))).

(** The first result that is not [Equal]. *)
Definition first_unequal (results : list comparison) : comparison := foldr cmp_then Eq results.

(** [compare(None)] *)
Fixpoint compare_null (i : MavenItem) : comparison :=
  match i with
  | MI_Int d => if bool_decide (d = as_bytes "0") then Eq else Gt
  | MI_Str s => bytes_cmp (maven_comparable_qualifier s) maven_release_version_index
  | MI_List items => first_unequal (map compare_null items)
  end.

(** Item by item; the shorter side is compared with nothing. *)
Section list_vs_list.
Variable compare : MavenItem → MavenItem → comparison.

Fixpoint maven_list_vs_list (ls rs : list MavenItem) : comparison :=
  match ls, rs with
  | [], _ => first_unequal (map (λ r, CompOpp (compare_null r)) rs)
  | l :: ls', [] => cmp_then (compare_null l) (maven_list_vs_list ls' [])
  | l :: ls', r :: rs' => cmp_then (compare l r) (maven_list_vs_list ls' rs')
  end.
End list_vs_list.

(** [compare(Some(_))] *)
Fixpoint compare_item (a b : MavenItem) : comparison :=
  match a, b with
  | MI_Int x, MI_Int y => maven_int_cmp x y
  | MI_Int _, MI_Str _ | MI_Int _, MI_List _ => Gt
  | MI_Str _, MI_Int _ | MI_Str _, MI_List _ => Lt
  | MI_Str x, MI_Str y => maven_compare_qualifiers x y
  | MI_List _, MI_Int _ => Lt
  | MI_List _, MI_Str _ => Gt
  | MI_List ls, MI_List rs => maven_list_vs_list compare_item ls rs
  end.

Section maven.
Context `{Lowercase}.

Definition parse_maven (input : bytes) : MavenItem :=
  MI_List (maven_normalize (maven_parse_version (to_lower input))).

(** [MavenVersionOrdering] *)
Definition maven_compare (a b : bytes) : comparison :=
  if (MAVEN_VERSION_PARSE_MAX_BYTES <? len a) || (MAVEN_VERSION_PARSE_MAX_BYTES <? len b)
  then bytes_cmp a b
  else compare_item (parse_maven a) (parse_maven b).

End maven.

(** ** The trait *)

Record VersionOrdering : Type := {
  compare : string → string → comparison;
  is_prerelease : string → bool;
}.

(** The default of the trait: every version is a release. *)
Definition on_text (cmp : bytes → bytes → comparison) : VersionOrdering :=
  {| compare a b := cmp (as_bytes a) (as_bytes b); is_prerelease _ := false |}.

Definition NpmSemverOrdering : VersionOrdering :=
  {| compare a b := npm_compare (as_bytes a) (as_bytes b);
     is_prerelease v := npm_is_prerelease (as_bytes v) |}.

Definition CargoSemverOrdering : VersionOrdering := NpmSemverOrdering.

Section orderings.
Context `{Lowercase}.

Definition Pep440Ordering : VersionOrdering := on_text pep440_compare.
Definition MavenVersionOrdering : VersionOrdering := on_text maven_compare.

Definition ordering_for_format (format : RepositoryFormat) : option VersionOrdering :=
  match format with
  | Npm => Some NpmSemverOrdering
  | Cargo => Some CargoSemverOrdering
  | Pypi => Some Pep440Ordering
  | Maven => Some MavenVersionOrdering
  | _ => None
  end.
End orderings.

(** ** The served versions of an index *)

Record ServedIndex : Type := {
  served : list string;
  latest : option string;
}.

Definition is_servable_status (s : QuarantineStatus) : bool :=
  match s with QS_Released | QS_None => true | _ => false end.

(** [HashMap::collect]: the last row of a version is the one that stays. *)
Definition status_by_version (status : list (string * QuarantineStatus)) : gmap string QuarantineStatus :=
  foldl (λ m row, <[row.1 := row.2]> m) ∅ status.

Definition known_non_servable (status : list (string * QuarantineStatus)) (v : string) : bool :=
  match status_by_version status !! v with
  | Some s => negb (is_servable_status s)
  | None => false
  end.

Definition pick_latest (served : list string) (ordering : VersionOrdering) : option string :=
  max_by (compare ordering) served.

Definition filter_served_versions (upstream_versions : list string)
    (status : list (string * QuarantineStatus)) (mode : IndexMode) (ordering : VersionOrdering)
    : ServedIndex :=
  let upstream := btree_set upstream_versions in
  let served :=
    match mode with
    | ReleasedOnly =>
        btree_set (filter (λ v, v ∈ upstream)
                     (filter (λ row, Is_true (is_servable_status row.2)) status).*1)
    | IncludePending => filter (λ v, ¬ Is_true (known_non_servable status v)) upstream
    end in
  {| served := served; latest := pick_latest served ordering |}.

(** * Lawfulness

    The comparators of npm, Cargo and PyPI order every text, well formed or not. *)

Ltac lawful :=
  match goal with
  | |- ?f ?b ?a = CompOpp (?f ?a ?b) => apply (cmp_sym (cmp := f))
  | |- ?f ?a ?b ≠ Lt → ?f ?b ?c ≠ Lt → ?f ?a ?c ≠ Lt => apply (cmp_ge_trans (cmp := f))
  end.

#[export] Instance byte_cmp_lawful : LawfulCmp byte_cmp.
Proof. apply (cmp_on_lawful Z_of_byte), _. Qed.

#[export] Instance bytes_cmp_lawful : LawfulCmp bytes_cmp.
Proof. apply list_cmp_lawful, _. Qed.

#[export] Instance parsed_cmp_lawful {A} (parse : bytes → option A) cmp :
  LawfulCmp cmp → LawfulCmp (parsed_cmp parse cmp).
Proof.
  intros Hcmp. unfold parsed_cmp. split.
  - intros a b. destruct (parse a), (parse b); simpl; try done; lawful.
  - intros a b c. destruct (parse a), (parse b), (parse c); simpl; try done; lawful.
Qed.

#[export] Instance ident_cmp_lawful : LawfulCmp ident_cmp.
Proof.
  split.
  - intros [x | x] [y | y]; simpl; try done; lawful.
  - intros [x | x] [y | y] [z | z]; simpl; try done; lawful.
Qed.

#[export] Instance prerelease_cmp_lawful : LawfulCmp prerelease_cmp.
Proof.
  split.
  - intros [| x a] [| y b]; try done; unfold prerelease_cmp; lawful.
  - intros [| x a] [| y b] [| z c]; try done; unfold prerelease_cmp; lawful.
Qed.

#[export] Instance npm_cmp_lawful : LawfulCmp npm_cmp.
Proof.
  unfold npm_cmp.
  apply cmp_then_lawful; [apply (cmp_on_lawful major), _ |].
  apply cmp_then_lawful; [apply (cmp_on_lawful minor), _ |].
  apply cmp_then_lawful; [apply (cmp_on_lawful patch), _ |].
  apply (cmp_on_lawful prerelease), _.
Qed.

#[export] Instance local_segment_cmp_lawful : LawfulCmp local_segment_cmp.
Proof.
  split.
  - intros [x | x] [y | y]; simpl; try done; lawful.
  - intros [x | x] [y | y] [z | z]; simpl; try done; lawful.
Qed.

Lemma local_cmp_list a b : local_cmp a b = list_cmp local_segment_cmp a b.
Proof. by destruct a, b. Qed.

#[export] Instance local_cmp_lawful : LawfulCmp local_cmp.
Proof.
  split; [intros a b | intros a b c]; rewrite !local_cmp_list; lawful.
Qed.

(** A step on both sides; a missing segment is zero. *)
Lemma padded_cmp_step a b :
  padded_cmp a b = cmp_then (Z.compare (hd 0 a) (hd 0 b)) (padded_cmp (tail a) (tail b)).
Proof. by destruct a, b as [| y [| y' b]]. Qed.

Lemma length_tail {A} (l : list A) n : (length l ≤ S n)%nat → (length (tail l) ≤ n)%nat.
Proof. destruct l; simpl; lia. Qed.

Lemma padded_cmp_sym a b : padded_cmp b a = CompOpp (padded_cmp a b).
Proof.
  assert (∀ n a b, (length a ≤ n)%nat → (length b ≤ n)%nat →
    padded_cmp b a = CompOpp (padded_cmp a b)) as H; [| by eapply (H (length a + length b)%nat); lia].
  clear. intros n. induction n as [| n IH]; intros a b Ha Hb.
  - by rewrite (nil_length_inv a), (nil_length_inv b) by lia.
  - rewrite (padded_cmp_step b a), (padded_cmp_step a b), cmp_then_opp, <- Z.compare_antisym.
    by rewrite (IH (tail a) (tail b)) by (by apply length_tail).
Qed.

Lemma padded_cmp_ge_trans a b c :
  padded_cmp a b ≠ Lt → padded_cmp b c ≠ Lt → padded_cmp a c ≠ Lt.
Proof.
  assert (∀ n a b c, (length a ≤ n)%nat → (length b ≤ n)%nat → (length c ≤ n)%nat →
    padded_cmp a b ≠ Lt → padded_cmp b c ≠ Lt → padded_cmp a c ≠ Lt) as H;
    [| by eapply (H (length a + length b + length c)%nat); lia].
  clear. intros n. induction n as [| n IH]; intros a b c Ha Hb Hc.
  - by rewrite (nil_length_inv a), (nil_length_inv c) by lia.
  - rewrite (padded_cmp_step a b), (padded_cmp_step b c), (padded_cmp_step a c).
    apply cmp_then_ge_trans, IH; [apply _ | by apply length_tail ..].
Qed.

#[export] Instance padded_cmp_lawful : LawfulCmp padded_cmp.
Proof. split; [apply padded_cmp_sym | apply padded_cmp_ge_trans]. Qed.

#[export] Instance pep440_cmp_lawful : LawfulCmp pep440_cmp.
Proof.
  unfold pep440_cmp.
  apply cmp_then_lawful; [apply (cmp_on_lawful epoch), _ |].
  apply cmp_then_lawful; [apply (cmp_on_lawful release), _ |].
  apply cmp_then_lawful; [| apply (cmp_on_lawful local), _].
  apply (cmp_on_lawful pep440_postpredev_key), list_cmp_lawful, _.
Qed.

#[export] Instance on_text_lawful cmp : LawfulCmp cmp → LawfulCmp (compare (on_text cmp)).
Proof. intros Hcmp. apply (cmp_on_lawful as_bytes), Hcmp. Qed.

Lemma ordering_lawful `{Lowercase} format ordering :
  ordering_for_format format = Some ordering → format ≠ Maven → LawfulCmp (compare ordering).
Proof.
  intros E Hne. destruct format; simplify_eq/=.
  all: try by apply (cmp_on_lawful as_bytes), parsed_cmp_lawful, _.
Qed.
