(* ===== verification/VersionSafety.v ===== *)
(** What the version orderings and the served set of
    crates/hort-app/src/use_cases/index_serve_filter.rs guarantee.

    The orderings of npm, Cargo and PyPI are total orders on all texts, the one of Maven
    is not; on dotted numbers all of them compare the numbers.  An index serves exactly
    the versions its mode promises and its [latest] is the newest of them. *)

From Stdlib Require Import Ascii.
From S2P Require Import Prelude.
From S2P Require Import RustStd.
From S2P Require Import Types.
From S2P Require Import Artifact.
From S2P Require Import RepositoryAccess.
From S2P Require Import VersionOrder.

(** * Dotted numbers *)

Fixpoint dotted (segs : list bytes) : bytes :=
  match segs with
  | [] => []
  | [s] => s
  | s :: rest => s ++ "."%char :: dotted rest
  end.

Definition digits (s : bytes) : Prop := s ≠ [] ∧ forallb is_digit s = true.

(** A text of digits and dots. *)
Definition plain_byte (b : byte) : bool := is_digit b || bool_decide (b = "."%char).
Definition plain (l : bytes) : Prop := forallb plain_byte l = true.

Lemma plain_app l k : plain (l ++ k) ↔ plain l ∧ plain k.
Proof. unfold plain. rewrite forallb_app. apply andb_true_iff. Qed.

Lemma digits_plain s : forallb is_digit s = true → plain s.
Proof.
  unfold plain. rewrite !forallb_forall. intros H b Hb. unfold plain_byte. by rewrite H.
Qed.

Lemma dotted_plain segs : Forall digits segs → plain (dotted segs).
Proof.
  induction 1 as [| s segs [_ Hs] _ IH]; [done |]. apply digits_plain in Hs.
  destruct segs; [done |]. change (plain (s ++ ["."%char] ++ dotted (l :: segs))).
  by rewrite !plain_app.
Qed.

Lemma plain_elem l b : plain l → b ∈ l → plain_byte b = true.
Proof. unfold plain. rewrite forallb_forall. intros H Hb. by apply H, list_elem_of_In. Qed.

(** ** Texts that have no marker *)

Lemma strip_prefix_plain p l r : strip_prefix p l = Some r → plain l → plain p ∧ plain r.
Proof.
  revert l. induction p as [| a p IH]; intros [| b l] E Hl; simplify_eq/=; [done .. |].
  case_bool_decide as Hab; [subst | done]. apply andb_true_iff in Hl as [Hb Hl].
  destruct (IH l E Hl). split; [| done]. unfold plain. simpl. by apply andb_true_iff.
Qed.

Lemma starts_with_plain p l : forallb plain_byte p = false → plain l → starts_with p l = false.
Proof.
  intros Hp Hl. unfold starts_with. destruct (strip_prefix p l) eqn:E; [| done].
  apply strip_prefix_plain in E as [Hp' _]; [| done]. unfold plain in Hp'. congruence.
Qed.

Lemma plain_cons b l : plain (b :: l) → plain_byte b = true ∧ plain l.
Proof. apply andb_true_iff. Qed.

Lemma find_sub_plain p l : forallb plain_byte p = false → plain l → find_sub p l = None.
Proof.
  intros Hp. induction l as [| b l IH]; intros Hl; simpl; rewrite starts_with_plain by done; [done |].
  apply plain_cons in Hl as [_ Hl]. by rewrite IH.
Qed.

Lemma rfind_sub_plain p l : forallb plain_byte p = false → plain l → rfind_sub p l = None.
Proof.
  intros Hp. induction l as [| b l IH]; intros Hl; simpl; [by rewrite starts_with_plain |].
  rewrite IH by apply (plain_cons b l Hl). by rewrite starts_with_plain.
Qed.

Lemma replace_plain p q l :
  forallb plain_byte (as_bytes p) = false → plain l → str_replace p q l = l.
Proof.
  intros Hp. unfold str_replace. induction l as [| b l IH]; intros Hl; [done |]. simpl.
  rewrite starts_with_plain by done. f_equal. apply IH, (plain_cons b l Hl).
Qed.

Lemma split_once_plain c l : plain_byte c = false → plain l → split_once c l = None.
Proof.
  intros Hc. induction l as [| b l IH]; intros Hl; [done |]. apply plain_cons in Hl as [Hb Hl].
  simpl. rewrite bool_decide_eq_false_2 by congruence. by rewrite IH.
Qed.

Lemma strip_v_plain l : plain l → strip_v l = l.
Proof.
  destruct l as [| b l]; [done |]. intros [Hb _]%plain_cons.
  by destruct b as [[] [] [] [] [] [] [] []].
Qed.

Lemma plain_byte_facts b : plain_byte b = true →
  Z_of_byte b < 128 ∧ byte_to_lower b = b ∧ b ≠ "c"%char ∧ push_as_char b = [b].
Proof. destruct b as [[] [] [] [] [] [] [] []]; done. Qed.

Lemma to_lower_plain `{Lowercase} l : plain l → to_lower l = l.
Proof.
  intros Hl. rewrite to_lower_ascii.
  - rewrite <- (list_fmap_id l) at 2. apply list_fmap_ext. intros i b Hb. simpl.
    by apply plain_byte_facts, (plain_elem l), (list_elem_of_lookup_2 _ i).
  - apply Forall_forall. intros b Hb. by apply plain_byte_facts, (plain_elem l).
Qed.

Lemma canonicalise_plain prev l : plain l → canonicalise_from prev l = l.
Proof.
  revert prev. induction l as [| b l IH]; intros prev Hl; [done |].
  apply plain_cons in Hl as [Hb Hl]. apply plain_byte_facts in Hb as (_ & _ & Hc & Hp). simpl.
  rewrite (bool_decide_eq_false_2 (b = _)) by done. simpl. by rewrite Hp, IH.
Qed.

(** ** The pieces *)

Lemma split_pieces_app s l :
  forallb is_digit s = true →
  split_pieces "."%char (s ++ l) = (s ++ (split_pieces "."%char l).1, (split_pieces "."%char l).2).
Proof.
  induction s as [| b s IH]; intros Hs; simpl; [by destruct (split_pieces _ l) |].
  apply andb_true_iff in Hs as [Hb Hs]. rewrite IH by done.
  rewrite bool_decide_eq_false_2; [done |]. by intros ->.
Qed.

Lemma split_dotted s segs : Forall digits (s :: segs) → split "."%char (dotted (s :: segs)) = s :: segs.
Proof.
  unfold split. revert s. induction segs as [| t segs IH]; intros s [[_ Hs] Hsegs]%Forall_cons.
  - simpl. rewrite <- (app_nil_r s) at 1. rewrite split_pieces_app by done. simpl. by rewrite app_nil_r.
  - change (dotted (s :: t :: segs)) with (s ++ "."%char :: dotted (t :: segs)).
    rewrite split_pieces_app by done. specialize (IH t Hsegs). cbn [split_pieces].
    destruct (split_pieces "."%char (dotted (t :: segs))) as [x xs].
    rewrite bool_decide_eq_true_2 by done. simpl. by rewrite IH, app_nil_r.
Qed.

(** A number that fits. *)
Definition numeral (s : bytes) : Prop := digits s ∧ decimal_value s ≤ u64_MAX.

Lemma numerals_digits segs : Forall numeral segs → Forall digits segs.
Proof. intros H. by eapply Forall_impl; [done |]; intros s []. Qed.

Lemma parse_numeral s : numeral s → parse_u64 s = Some (decimal_value s).
Proof.
  intros [[Hne Hs] Hmax]. destruct s as [| b s]; [done |].
  assert (match b :: s with "+"%char :: l' => l' | _ => b :: s end = b :: s) as E.
  { apply andb_true_iff in Hs as [Hb _]. by destruct b as [[] [] [] [] [] [] [] []]. }
  unfold parse_u64. rewrite E, Hs. cbn [is_empty orb negb].
  by rewrite (proj2 (Z.leb_le _ _) Hmax).
Qed.

(** ** npm and Cargo *)

Lemma segment_numerals segs i : Forall numeral segs →
  segment segs i = Some (default 0 ((decimal_value <$> segs) !! i)).
Proof.
  intros H. unfold segment. rewrite list_lookup_fmap.
  destruct (segs !! i) as [s |] eqn:E; [| done].
  by apply parse_numeral, (Forall_lookup_1 _ _ _ _ H E).
Qed.

Lemma parse_npm_dotted segs : Forall numeral segs → segs ≠ [] → (length segs ≤ 3)%nat →
  parse_npm (dotted segs) =
    Some {| major := default 0 ((decimal_value <$> segs) !! 0%nat);
            minor := default 0 ((decimal_value <$> segs) !! 1%nat);
            patch := default 0 ((decimal_value <$> segs) !! 2%nat);
            prerelease := [] |}.
Proof.
  intros Hs Hne Hlen. pose proof (dotted_plain segs (numerals_digits _ Hs)) as Hp.
  unfold parse_npm. rewrite strip_v_plain by done. rewrite (split_once_plain "+"%char) by done.
  rewrite (split_once_plain "-"%char) by done.
  destruct segs as [| s segs]; [done |]. rewrite split_dotted by by apply numerals_digits.
  rewrite !segment_numerals by done. cbn [mbind option_bind].
  replace (3 <? len (s :: segs)) with false; [done |]. symmetry. apply Z.ltb_ge. unfold len. lia.
Qed.

Lemma npm_dotted a b :
  Forall numeral a → Forall numeral b → a ≠ [] → b ≠ [] → (length a ≤ 3)%nat → (length b ≤ 3)%nat →
  npm_compare (dotted a) (dotted b) = padded_cmp (decimal_value <$> a) (decimal_value <$> b).
Proof.
  intros Ha Hb Hna Hnb La Lb. unfold npm_compare, parsed_cmp.
  rewrite (parse_npm_dotted a), (parse_npm_dotted b) by done. unfold npm_cmp. cbn [major minor patch prerelease].
  clear Ha Hb. destruct a as [| a0 [| a1 [| a2 [|]]]], b as [| b0 [| b1 [| b2 [|]]]]; try done.
  all: simpl in La, Lb; lia.
Qed.

(** ** PyPI *)

Lemma inject_plain marker l :
  forallb plain_byte (as_bytes marker) = false → plain l → pep440_inject_dot_before marker l = l.
Proof. intros Hm Hl. unfold pep440_inject_dot_before. by rewrite find_sub_plain. Qed.

Lemma normalise_plain `{Lowercase} l : plain l → pep440_normalise_public l = l.
Proof.
  intros Hl. unfold pep440_normalise_public, pep440_canonicalise_c. rewrite to_lower_plain by done.
  rewrite (replace_plain "alpha"), (replace_plain "beta") by done.
  rewrite (replace_plain "preview"), (replace_plain "pre"), canonicalise_plain by done.
  rewrite (replace_plain "_post"), (replace_plain "-post") by done.
  rewrite (replace_plain "_dev"), (replace_plain "-dev") by done.
  by rewrite (inject_plain "post"), (inject_plain "dev").
Qed.

Lemma mapM_numerals segs : Forall numeral segs → mapM parse_u64 segs = Some (decimal_value <$> segs).
Proof.
  intros H. apply mapM_Some. induction H; simpl; constructor; [by apply parse_numeral | done].
Qed.

Lemma parse_pep440_dotted `{Lowercase} segs : Forall numeral segs → segs ≠ [] →
  parse_pep440 (dotted segs) =
    Some {| epoch := 0; release := strip_trailing_zeros (decimal_value <$> segs);
            pre := None; post := None; dev := None; local := [] |}.
Proof.
  intros Hs Hne. pose proof (dotted_plain segs (numerals_digits _ Hs)) as Hp.
  unfold parse_pep440. rewrite strip_v_plain by done. rewrite (split_once_plain "+"%char) by done.
  rewrite (split_once_plain "!"%char) by done. cbn [mbind option_bind].
  rewrite normalise_plain by done. unfold pep440_pop_suffix, pep440_pop_pre, pre_markers, pop_pre_loop.
  rewrite !rfind_sub_plain by done. destruct segs as [| s segs]; [done |].
  rewrite split_dotted by by apply numerals_digits. by rewrite mapM_numerals.
Qed.

(** Zeros at the end do not count. *)
Lemma padded_right_zero b : padded_right (b ++ [0]) = padded_right b.
Proof. induction b as [| x b IH]; simpl; [done | by rewrite IH]. Qed.

Lemma padded_cmp_zero a b : padded_cmp (a ++ [0]) b = padded_cmp a b.
Proof.
  revert b. induction a as [| x a IH]; intros [| y b]; [done | | by simpl; rewrite IH ..].
  simpl. destruct b; [by destruct (0 ?= y) | done].
Qed.

Lemma padded_cmp_strip a b : padded_cmp (strip_trailing_zeros a) b = padded_cmp a b.
Proof.
  unfold strip_trailing_zeros. induction a as [| x a IH] using rev_ind; [done |].
  rewrite rev_app_distr. cbn [rev app pop_zeros].
  destruct (rev a) as [| y r] eqn:E.
  - apply (f_equal (@rev Z)) in E. rewrite rev_involutive in E. by subst.
  - destruct (x =? 0) eqn:Ex.
    + apply Z.eqb_eq in Ex as ->. by rewrite padded_cmp_zero.
    + change (x :: y :: r) with ([x] ++ y :: r). rewrite rev_app_distr. simpl.
      f_equal. f_equal. by rewrite <- (rev_involutive a), E.
Qed.

Lemma pep440_dotted `{Lowercase} a b :
  Forall numeral a → Forall numeral b → a ≠ [] → b ≠ [] →
  pep440_compare (dotted a) (dotted b) = padded_cmp (decimal_value <$> a) (decimal_value <$> b).
Proof.
  intros Ha Hb Hna Hnb. unfold pep440_compare, parsed_cmp.
  rewrite (parse_pep440_dotted a), (parse_pep440_dotted b) by done.
  unfold pep440_cmp. cbn [epoch release local pep440_postpredev_key pre post dev].
  rewrite padded_cmp_strip, padded_cmp_sym, padded_cmp_strip, <- padded_cmp_sym.
  by destruct (padded_cmp _ _).
Qed.

(** ** Maven *)

Lemma decimal_value_acc s acc :
  foldl (λ acc b, acc * 10 + digit_value b) acc s = acc * 10 ^ len s + decimal_value s.
Proof.
  unfold decimal_value. revert acc. induction s as [| b s IH]; intros acc; [unfold len; simpl; lia |]. simpl.
  rewrite IH, (IH (0 * 10 + digit_value b)). unfold len. simpl length.
  rewrite Nat2Z.inj_succ, Z.pow_succ_r by lia. lia.
Qed.

Lemma decimal_value_cons b s : decimal_value (b :: s) = digit_value b * 10 ^ len s + decimal_value s.
Proof. unfold decimal_value at 1. simpl. by rewrite decimal_value_acc. Qed.

Lemma digit_value_range b : is_digit b = true → 0 ≤ digit_value b ≤ 9.
Proof. unfold is_digit, digit_value. lia. Qed.

Lemma decimal_value_range s : forallb is_digit s = true → 0 ≤ decimal_value s < 10 ^ len s.
Proof.
  induction s as [| b s IH]; intros Hs; [done |]. apply andb_true_iff in Hs as [Hb Hs].
  rewrite decimal_value_cons. specialize (IH Hs). apply digit_value_range in Hb.
  unfold len in *. simpl length. rewrite Nat2Z.inj_succ, Z.pow_succ_r by lia. nia.
Qed.

Lemma bytes_cmp_decimal s t :
  forallb is_digit s = true → forallb is_digit t = true → length s = length t →
  bytes_cmp s t = Z.compare (decimal_value s) (decimal_value t).
Proof.
  revert t. induction s as [| b s IH]; intros [| c t] Hs Ht Hl; try done.
  apply andb_true_iff in Hs as [Hb Hs]. apply andb_true_iff in Ht as [Hc Ht].
  injection Hl as Hl. rewrite !decimal_value_cons.
  pose proof (decimal_value_range s Hs) as Rs. pose proof (decimal_value_range t Ht) as Rt.
  unfold len in *. rewrite Hl in *. change (bytes_cmp (b :: s) (c :: t)) with
    (cmp_then (byte_cmp b c) (bytes_cmp s t)). rewrite IH by done.
  unfold byte_cmp, digit_value. destruct (Z.compare_spec (Z_of_byte b) (Z_of_byte c)) as [-> | H | H];
    unfold cmp_then; symmetry.
  - apply Z.add_compare_mono_l.
  - apply Z.compare_lt_iff. nia.
  - apply Z.compare_gt_iff. nia.
Qed.

(** No zero in front, unless there is nothing else. *)
Definition canonical (s : bytes) : Prop :=
  forallb is_digit s = true ∧
  (s = as_bytes "0" ∨ ∃ b s', s = b :: s' ∧ b ≠ "0"%char).

Lemma canonical_value s : canonical s → s = as_bytes "0" ∨ 10 ^ (len s - 1) ≤ decimal_value s.
Proof.
  intros [Hs [-> | (b & s' & -> & Hb)]]; [by left |]. right.
  apply andb_true_iff in Hs as [Hd Hs]. pose proof (decimal_value_range s' Hs).
  rewrite decimal_value_cons. replace (len (b :: s') - 1) with (len s') by (unfold len; simpl; lia).
  assert (1 ≤ digit_value b); [| nia].
  apply digit_value_range in Hd as [H0 _]. unfold digit_value in *.
  destruct (decide (Z_of_byte b = 48)) as [E |]; [| lia].
  destruct Hb. by rewrite <- (byte_of_Z_of_byte b), E.
Qed.

Lemma longer_is_greater s t :
  canonical s → canonical t → len s < len t → decimal_value s < decimal_value t.
Proof.
  intros Hs Ht Hl. pose proof (decimal_value_range s (proj1 Hs)).
  destruct (canonical_value t Ht) as [-> | Hv].
  - destruct Hs as [_ [-> | (b & s' & -> & _)]]; unfold len in Hl; simpl in Hl; lia.
  - assert (10 ^ len s ≤ 10 ^ (len t - 1)) by (apply Z.pow_le_mono_r; lia). lia.
Qed.

Lemma maven_int_cmp_value s t :
  canonical s → canonical t → maven_int_cmp s t = Z.compare (decimal_value s) (decimal_value t).
Proof.
  intros Hs Ht. unfold maven_int_cmp. destruct (Z.compare_spec (len s) (len t)); simpl; symmetry.
  - symmetry. apply bytes_cmp_decimal; [apply Hs | apply Ht | unfold len in *; lia].
  - by apply Z.compare_lt_iff, longer_is_greater.
  - by apply Z.compare_gt_iff, longer_is_greater.
Qed.

Lemma drop_zeros_value s : decimal_value (drop_zeros s) = decimal_value s.
Proof.
  induction s as [| b s IH]; [done |]. destruct (decide (b = "0"%char)) as [-> | Hb].
  - simpl. rewrite IH, decimal_value_cons. change (digit_value "0"%char) with 0. lia.
  - by destruct b as [[] [] [] [] [] [] [] []].
Qed.

Lemma drop_zeros_digits s : forallb is_digit s = true → forallb is_digit (drop_zeros s) = true.
Proof.
  induction s as [| b s IH]; [done |]. intros Hs. destruct (decide (b = "0"%char)) as [-> | Hb].
  - apply IH, Hs.
  - by destruct b as [[] [] [] [] [] [] [] []].
Qed.

Lemma drop_zeros_head s : drop_zeros s = [] ∨ ∃ b s', drop_zeros s = b :: s' ∧ b ≠ "0"%char.
Proof.
  induction s as [| b s IH]; [by left |]. destruct (decide (b = "0"%char)) as [-> | Hb]; [done |].
  right. exists b, s. by destruct b as [[] [] [] [] [] [] [] []].
Qed.

Lemma strip_value s : decimal_value (maven_strip_leading_zeros s) = decimal_value s.
Proof.
  unfold maven_strip_leading_zeros. rewrite <- (drop_zeros_value s). by destruct (drop_zeros s).
Qed.

Lemma strip_canonical s : forallb is_digit s = true → canonical (maven_strip_leading_zeros s).
Proof.
  intros Hs. apply drop_zeros_digits in Hs. unfold maven_strip_leading_zeros.
  destruct (drop_zeros_head s) as [-> | (b & s' & E & Hb)]; [by split; [| left] |].
  rewrite E in *. split; [done | eauto].
Qed.

(** The text of dotted numbers is one list of numbers. *)
Definition int_item (s : bytes) : MavenItem := MI_Int (maven_strip_leading_zeros s).

Lemma maven_digits s p : forallb is_digit s = true → in_digits p = true ∨ token p = [] → s ≠ [] →
  foldl maven_char p s = set_token true (token p ++ s) p.
Proof.
  revert p. induction s as [| b s IH]; intros p Hs Hp Hne; [done |].
  apply andb_true_iff in Hs as [Hb Hs]. cbn [foldl].
  assert (maven_char p b = set_token true (token p ++ [b]) p) as ->.
  { unfold maven_char. rewrite !bool_decide_eq_false_2 by (by intros ->). rewrite Hb.
    by destruct Hp as [-> | ->]; [| rewrite andb_false_r]. }
  destruct s as [| c s]; [done |]. rewrite IH; [| done | by left | done].
  unfold set_token. cbn [token current parents]. by rewrite <- app_assoc.
Qed.

Lemma maven_parse_dotted s segs p : Forall digits (s :: segs) → token p = [] →
  maven_finish (foldl maven_char p (dotted (s :: segs))) =
    close_lists (current p ++ (int_item <$> s :: segs)) (parents p).
Proof.
  revert s p. induction segs as [| t segs IH]; intros s p [[Hne Hs] Hsegs]%Forall_cons Hp.
  - cbn [dotted]. rewrite maven_digits, Hp by auto. unfold maven_finish. simpl.
    by rewrite (proj2 (is_empty_false s) Hne).
  - change (dotted (s :: t :: segs)) with (s ++ "."%char :: dotted (t :: segs)).
    rewrite foldl_app, (maven_digits s), Hp by auto. cbn [foldl app].
    rewrite IH; [| done | done]. unfold maven_char, flush. simpl.
    rewrite (proj2 (is_empty_false s) Hne). by rewrite <- app_assoc.
Qed.

(** Lists of numbers. *)
Lemma compare_null_int s : canonical s → compare_null (MI_Int s) = Z.compare (decimal_value s) 0.
Proof.
  intros Hs. simpl. case_bool_decide as E; [by rewrite E |]. symmetry. apply Z.compare_gt_iff.
  destruct (canonical_value s Hs) as [|]; [done |].
  assert (0 < 10 ^ (len s - 1)); [| lia]. apply Z.pow_pos_nonneg; [lia |].
  destruct Hs as [_ [-> | (x & s' & -> & _)]]; unfold len; simpl; lia.
Qed.

Lemma padded_cmp_nil b : padded_cmp [] b = padded_right b.
Proof. by destruct b. Qed.

Lemma compare_nothing_ints b : Forall canonical b →
  first_unequal (map (λ r, CompOpp (compare_null r)) (MI_Int <$> b)) = padded_right (decimal_value <$> b).
Proof.
  induction 1 as [| t b Ht Hb IH]; [done |].
  change (cmp_then (CompOpp (compare_null (MI_Int t)))
    (first_unequal (map (λ r, CompOpp (compare_null r)) (MI_Int <$> b))) =
    cmp_then (Z.compare 0 (decimal_value t)) (padded_right (decimal_value <$> b))).
  by rewrite IH, compare_null_int, <- Z.compare_antisym.
Qed.

Lemma compare_ints a b :
  Forall canonical a → Forall canonical b →
  maven_list_vs_list compare_item (MI_Int <$> a) (MI_Int <$> b) =
    padded_cmp (decimal_value <$> a) (decimal_value <$> b).
Proof.
  intros Ha. revert b. induction Ha as [| s a Hs Ha IH]; intros b Hb.
  - cbn [fmap list_fmap]. rewrite padded_cmp_nil. by apply compare_nothing_ints.
  - destruct Hb as [| t b Ht Hb]; cbn [fmap list_fmap maven_list_vs_list padded_cmp].
    + rewrite compare_null_int by done. f_equal. by apply (IH []).
    + cbn [compare_item]. rewrite maven_int_cmp_value by done. f_equal. by apply IH.
Qed.

Lemma trim_ints r : Forall canonical r → ∃ r', trim_nulls (MI_Int <$> r) = MI_Int <$> r' ∧
  Forall canonical r' ∧ ∃ n, r = replicate n (as_bytes "0") ++ r'.
Proof.
  induction 1 as [| s r Hs Hr (r' & E & Hc & n & Hn)]; [by exists []; split_and!; [| | exists O] |].
  cbn [fmap list_fmap trim_nulls is_null]. case_bool_decide as Hz.
  - exists r'. split_and!; [done .. |]. exists (S n). by rewrite Hz, Hn.
  - exists (s :: r). split_and!; [done | by constructor | by exists O].
Qed.

Lemma padded_cmp_zeros a n b : padded_cmp (a ++ replicate n 0) b = padded_cmp a b.
Proof.
  induction n as [| n IH]; [by rewrite app_nil_r |].
  by rewrite replicate_S_end, app_assoc, padded_cmp_zero.
Qed.

Lemma fmap_rev {A B} (f : A → B) l : f <$> rev l = rev (f <$> l).
Proof. apply map_rev. Qed.

Lemma rev_replicate {A} n (x : A) : rev (replicate n x) = replicate n x.
Proof. rewrite rev_alt. apply reverse_replicate. Qed.

Lemma normalize_ints a : Forall canonical a → ∃ a', maven_normalize (MI_Int <$> a) = MI_Int <$> a' ∧
  Forall canonical a' ∧
  ∀ b, padded_cmp (decimal_value <$> a') b = padded_cmp (decimal_value <$> a) b.
Proof.
  intros Ha. unfold maven_normalize.
  assert (map normalize_item (MI_Int <$> a) = MI_Int <$> a) as ->.
  { clear. induction a as [| s a IH]; [done |]. simpl. by f_equal. }
  rewrite <- fmap_rev. destruct (trim_ints (rev a)) as (r' & -> & Hr' & n & Hn).
  { by apply Forall_rev. }
  exists (rev r'). split_and!; [by rewrite fmap_rev | by apply Forall_rev |]. intros b.
  rewrite <- (rev_involutive a), Hn, rev_app_distr, rev_replicate, fmap_app, fmap_replicate.
  symmetry. apply padded_cmp_zeros.
Qed.

Lemma maven_dotted `{Lowercase} a b :
  Forall digits a → Forall digits b → a ≠ [] → b ≠ [] →
  len (dotted a) ≤ MAVEN_VERSION_PARSE_MAX_BYTES → len (dotted b) ≤ MAVEN_VERSION_PARSE_MAX_BYTES →
  maven_compare (dotted a) (dotted b) = padded_cmp (decimal_value <$> a) (decimal_value <$> b).
Proof.
  intros Ha Hb Hna Hnb La Lb. unfold maven_compare.
  rewrite (proj2 (Z.ltb_ge _ _) La), (proj2 (Z.ltb_ge _ _) Lb). cbn [orb].
  assert (∀ l, Forall digits l → l ≠ [] → ∃ l', parse_maven (dotted l) = MI_List (MI_Int <$> l') ∧
    Forall canonical l' ∧ ∀ k, padded_cmp (decimal_value <$> l') k = padded_cmp (decimal_value <$> l) k)
    as Hparse.
  { intros l Hl Hne. destruct l as [| s l]; [done |]. unfold parse_maven, maven_parse_version.
    rewrite to_lower_plain by by apply dotted_plain. rewrite maven_parse_dotted by done.
    cbn [current parents close_lists app].
    destruct (normalize_ints (maven_strip_leading_zeros <$> s :: l)) as (l' & E & Hl' & Hk).
    { apply Forall_fmap. eapply Forall_impl; [done |]. intros t [_ Ht]. by apply strip_canonical. }
    exists l'. split_and!; [| done |].
    - f_equal. rewrite <- E, <- list_fmap_compose. done.
    - intros k. rewrite Hk, <- list_fmap_compose. f_equal. apply list_fmap_ext. intros. apply strip_value. }
  destruct (Hparse a Ha Hna) as (a' & -> & Ha' & Ea). destruct (Hparse b Hb Hnb) as (b' & -> & Hb' & Eb).
  change (maven_list_vs_list compare_item (MI_Int <$> a') (MI_Int <$> b') =
    padded_cmp (decimal_value <$> a) (decimal_value <$> b)).
  by rewrite compare_ints, Ea, padded_cmp_sym, Eb, <- padded_cmp_sym.
Qed.

(** * The orderings *)

Definition text (segs : list bytes) : string := String.string_of_list_ascii (dotted segs).

Lemma as_bytes_text segs : as_bytes (text segs) = dotted segs.
Proof. apply String.list_ascii_of_string_of_list_ascii. Qed.

(** C37. The orderings of npm, Cargo and PyPI are total orders up to equality on all texts,
    malformed ones included: comparing the other way round gives the opposite answer, and
    "not older" is transitive. *)
Theorem orderings_are_total_orders `{Lowercase} format ordering :
  ordering_for_format format = Some ordering → format ≠ Maven →
  (∀ a b, compare ordering b a = CompOpp (compare ordering a b)) ∧
  (∀ a b c, compare ordering a b ≠ Lt → compare ordering b c ≠ Lt → compare ordering a c ≠ Lt).
Proof.
  intros E Hne. pose proof (ordering_lawful format ordering E Hne).
  split; intros; [by apply (cmp_sym (cmp := compare ordering)) |].
  by eapply (cmp_ge_trans (cmp := compare ordering)).
Qed.

(** Every ordering compares dotted numbers as lists of numbers, the shorter one padded
    with zeros.  Leading zeros do not count, and the text comparison of Maven's digits of
    any length is the comparison of their values. *)
Theorem dotted_numbers_compare_numerically `{Lowercase} format ordering a b :
  ordering_for_format format = Some ordering →
  a ≠ [] → b ≠ [] →
  Forall (if bool_decide (format = Maven) then digits else numeral) (a ++ b) →
  (format = Npm ∨ format = Cargo → (length a ≤ 3)%nat ∧ (length b ≤ 3)%nat) →
  (format = Maven → len (dotted a) ≤ 1024 ∧ len (dotted b) ≤ 1024) →
  compare ordering (text a) (text b) = padded_cmp (decimal_value <$> a) (decimal_value <$> b).
Proof.
  intros E Ha Hb Hsegs Hnpm Hmaven.
  destruct format; simplify_eq/=; apply Forall_app in Hsegs as [Fa Fb]; rewrite !as_bytes_text.
  all: first [ by apply pep440_dotted | by apply npm_dotted; [.. | apply Hnpm; auto | apply Hnpm; auto]
             | by apply maven_dotted; [.. | by apply Hmaven | by apply Hmaven] ].
Qed.

(** The ordering of Maven is not an order: an older version can be newer than a newer
    one. *)
Theorem maven_order_is_cyclic `{Lowercase} :
  compare MavenVersionOrdering "1.0.alpha.2" "1" = Lt ∧
  compare MavenVersionOrdering "1" "1.sp.1" = Lt ∧
  compare MavenVersionOrdering "1.sp.1" "1.0.alpha.2" = Lt.
Proof.
  assert (∀ v, Forall (λ b, Z_of_byte b < 128) (as_bytes v) →
    parse_maven (as_bytes v) = MI_List (maven_normalize (maven_parse_version (byte_to_lower <$> as_bytes v))))
    as Hp by (intros v Hv; unfold parse_maven; by rewrite to_lower_ascii).
  unfold MavenVersionOrdering, on_text, compare, maven_compare.
  rewrite !Hp by (apply (bool_decide_unpack _); vm_compute; done).
  split_and!; vm_compute; done.
Qed.

(** A pre-release marker after a dot or a dash makes the version malformed, and so older
    than every well-formed one. *)
Lemma separated_prerelease_is_oldest `{Lowercase} v w :
  v = "1.0.rc1"%string ∨ v = "1.0-rc1"%string → is_some (parse_pep440 (as_bytes w)) = true →
  compare Pep440Ordering v w = Lt.
Proof.
  intros Hv Hw. assert (parse_pep440 (as_bytes v) = None) as E.
  { assert (split_once "+"%char (strip_v (as_bytes v)) = None ∧
      split_once "!"%char (strip_v (as_bytes v)) = None ∧
      Forall (λ b, Z_of_byte b < 128) (strip_v (as_bytes v))) as (H1 & H2 & H3).
    { apply (bool_decide_unpack _). destruct Hv as [-> | ->]; vm_compute; done. }
    unfold parse_pep440. rewrite H1, H2. cbn [mbind option_bind]. unfold pep440_normalise_public.
    rewrite to_lower_ascii by done. destruct Hv as [-> | ->]; vm_compute; done. }
  simpl. unfold pep440_compare, parsed_cmp. rewrite E. by destruct (parse_pep440 (as_bytes w)).
Qed.

(** * The served versions *)

Lemma is_servable_servable s : is_servable_status s = servable s.
Proof. by destruct s. Qed.

(** The rows of a version, when each version has one. *)
Lemma status_by_version_lookup status v s :
  NoDup status.*1 → status_by_version status !! v = Some s ↔ (v, s) ∈ status.
Proof.
  unfold status_by_version. induction status as [| [u t] status IH] using rev_ind.
  { intros _. cbn [foldl]. rewrite lookup_empty. set_solver. }
  rewrite fmap_app, foldl_snoc. cbn [fst snd]. intros (Hnd & Hdis & _)%NoDup_app.
  rewrite elem_of_app, list_elem_of_singleton. destruct (decide (u = v)) as [-> | Hne].
  - rewrite lookup_insert_eq. split; [intros [= ->]; auto |].
    intros [Hin | [= ->]]; [| done]. destruct (Hdis v); [| set_solver].
    by apply (list_elem_of_fmap_2 fst _ (v, s)).
  - rewrite lookup_insert_ne, IH by done. split; [auto | intros [| [= ]]; congruence].
Qed.

(** The last row of a version. *)
Definition last_row (status : list (string * QuarantineStatus)) (v : string) : option QuarantineStatus :=
  snd <$> last (filter (λ row, row.1 = v) status).

Lemma status_by_version_last status v : status_by_version status !! v = last_row status v.
Proof.
  unfold status_by_version, last_row. induction status as [| [u t] status IH] using rev_ind; [done |].
  rewrite foldl_snoc, filter_app, filter_cons, filter_nil. cbn [fst snd]. destruct (decide (u = v)) as [-> | Hne].
  - by rewrite lookup_insert_eq, last_snoc.
  - by rewrite lookup_insert_ne, app_nil_r.
Qed.

Lemma last_row_unique status v s : NoDup status.*1 → last_row status v = Some s ↔ (v, s) ∈ status.
Proof. intros Hnd. rewrite <- status_by_version_last. by apply status_by_version_lookup. Qed.

Lemma known_non_servable_spec status v :
  known_non_servable status v = true ↔ ∃ s, last_row status v = Some s ∧ servable s = false.
Proof.
  unfold known_non_servable. rewrite status_by_version_last.
  destruct (last_row status v) as [s |]; [| naive_solver].
  rewrite is_servable_servable, negb_true_iff. naive_solver.
Qed.

(** What a mode serves: a version with a servable row, or one whose last row, if any, is
    servable. *)
Definition serves (mode : IndexMode) (status : list (string * QuarantineStatus)) (v : string) : Prop :=
  match mode with
  | ReleasedOnly => ∃ s, (v, s) ∈ status ∧ servable s = true
  | IncludePending => ∀ s, last_row status v = Some s → servable s = true
  end.

Lemma elem_of_served upstream status mode ordering v :
  v ∈ served (filter_served_versions upstream status mode ordering) ↔
    v ∈ upstream ∧ serves mode status v.
Proof.
  unfold filter_served_versions, serves. cbn [served]. destruct mode.
  - rewrite elem_of_btree_set, list_elem_of_filter, elem_of_btree_set, list_elem_of_fmap.
    split; [intros [Hu ([u s] & -> & Hin)] | intros [Hu (s & Hin & Hs)]].
    + apply list_elem_of_filter in Hin as [Hs Hin]. cbn [fst snd] in *.
      rewrite is_servable_servable in Hs. split; [done |]. exists s. split; [done | by apply Is_true_true].
    + split; [done |]. exists (v, s). split; [done |]. apply list_elem_of_filter. cbn.
      rewrite is_servable_servable, Hs. done.
  - rewrite list_elem_of_filter, elem_of_btree_set, Is_true_true, known_non_servable_spec.
    split; [intros [Hk Hu] | intros [Hu Hs]]; (split; [| done || idtac]); try done.
    + intros s Hin. destruct (servable s) eqn:E; [done |]. destruct Hk. eauto.
    + intros (s & Hin & E). rewrite Hs in E by done. done.
Qed.

(** C36. An index serves exactly the versions its mode promises, however many rows a version
    has: of the upstream, those with a servable row, or those whose last row is servable or
    missing.  Whatever the format, its latest version is one of them, and there is one
    unless nothing is served; for npm, Cargo and PyPI no served version is newer.  (The
    order of Maven has cycles, see [maven_order_is_cyclic].) *)
Theorem served_versions_are_exact `{Lowercase} upstream status mode ordering :
  let index := filter_served_versions upstream status mode ordering in
  (∀ v, v ∈ served index ↔ v ∈ upstream ∧ serves mode status v) ∧
  (latest index = None ↔ served index = []) ∧
  (∀ m, latest index = Some m →
     m ∈ served index ∧
     ∀ format, ordering_for_format format = Some ordering → format ≠ Maven →
     ∀ v, v ∈ served index → compare ordering m v ≠ Lt).
Proof.
  intros index. split_and!.
  - intros v. apply elem_of_served.
  - apply max_by_None.
  - intros m Hm. split; [exact (max_by_elem _ _ _ Hm) |].
    intros format E Hne. pose proof (ordering_lawful format ordering E Hne).
    apply max_by_Some; [apply cmp_sym | apply cmp_ge_trans | apply Hm].
Qed.
