(* ===== verification/IndexServe.v ===== *)
(** Serving the index of a package: the entries of a version and their filters
    (crates/hort-app/src/use_cases/index_serve.rs and index_filters.rs), the
    aggregation of the members of a virtual repository (virtual_resolution.rs), and
    the packument of npm (crates/hort-formats/src/npm/index.rs, and
    crates/hort-http-npm/src/index_source.rs and serve.rs).

    A handler works on the repository table and on a state [X] of which nothing is
    assumed: the sources of a hosted and of a proxy repository read and write it.
    Headers, logs and metrics are left out. *)

From Stdlib Require Import Ascii.
From S2P Require Import Prelude.
From S2P Require Import RustStd.
From S2P Require Import Json.
From S2P Require Import Types.
From S2P Require Import Store.
From S2P Require Import Concurrent.
From S2P Require Import Rbac.
From S2P Require Import RepositoryAccess.
From S2P Require Import VersionOrder.

(** * Entries *)

Record NpmVersionPayload : Type := {
  name_as_published : string;
  tarball_basename : string;
  integrity : option string;
  shasum : string;
  manifest : list (string * Value);
}.

Record PypiVersionFile : Type := {
  filename : string;
  hash_sha256 : option ContentHash;
  requires_python : option string;
  metadata_hash : option ContentHash;
}.

Record PypiVersionPayload : Type := {
  files : list PypiVersionFile;
}.

Record CargoVersionPayload : Type := {
  cargo_name_as_published : string;
  vers : string;
  cksum : string;
  deps : Value;
  features : Value;
  yanked : bool;
  links : option string;
  rust_version : option string;
  cargo_v : option Z;
  features2 : option Value;
  pubtime : option DateTime;
}.

Record MavenSnapshotArtifact : Type := {
  classifier : option string;
  extension : string;
  value : string;
  updated : string;
  timestamp : string;
  build_number : Z;
}.

Inductive MavenVersionPayload : Type :=
  | MV_Artifact (last_updated : option string)
  | MV_Snapshot (snapshot : MavenSnapshotArtifact).

Inductive PerVersionPayload : Type :=
  | PV_Npm (p : NpmVersionPayload)
  | PV_Pypi (p : PypiVersionPayload)
  | PV_Cargo (p : CargoVersionPayload)
  | PV_Maven (p : MavenVersionPayload).

(** A version without a status has no row. *)
Record VersionEntry : Type := {
  version : string;
  status : option QuarantineStatus;
  payload : PerVersionPayload;
}.

(** * Filters *)

Inductive HeldVisibility : Type :=
  | Hidden
  | WriteAuthorized.

Definition admits (held : HeldVisibility) (s : QuarantineStatus) : bool :=
  match s with
  | QS_Released | QS_None => true
  | QS_Quarantined => match held with WriteAuthorized => true | Hidden => false end
  | QS_Rejected | QS_ScanIndeterminate => false
  end.

(** [IndexFilter::apply] *)
Definition IndexFilter : Type := list VersionEntry → list VersionEntry.

Definition retain (p : VersionEntry → bool) : IndexFilter := filter (λ e, Is_true (p e)).

Definition non_servable_keeps (held : HeldVisibility) (e : VersionEntry) : bool :=
  match status e with None => true | Some s => admits held s end.

Definition NonServableStatusFilter (held : HeldVisibility) : IndexFilter :=
  retain (non_servable_keeps held).

Definition index_mode_keeps (mode : IndexMode) (held : HeldVisibility) (e : VersionEntry) : bool :=
  match mode, status e with
  | ReleasedOnly, None => false
  | IncludePending, None => true
  | _, Some s => admits held s
  end.

Definition IndexModeFilter (mode : IndexMode) (held : HeldVisibility) : IndexFilter :=
  retain (index_mode_keeps mode held).

(** [filters.iter().fold(entries, |acc, f| f.apply(acc))] *)
Definition apply_filters (filters : list IndexFilter) (entries : list VersionEntry) : list VersionEntry :=
  foldl (λ acc f, f acc) entries filters.

(** * Aggregation *)

Inductive MemberFetch : Type :=
  | Present (entries : list VersionEntry)
  | Unavailable.

Abbreviation Tags := (gmap string string).

Record MemberIndexFetch : Type := {
  member_type : RepositoryType;
  fetch : MemberFetch;
  member_tags : Tags;
}.

Record TaggedIndex : Type := {
  entries : list VersionEntry;
  tags : Tags;
}.

(** The first entry of a version wins it. *)
Definition merge_entry (acc : list VersionEntry * list string) (e : VersionEntry)
    : list VersionEntry * list string :=
  let '(merged, seen) := acc in
  if bool_decide (version e ∈ seen) then (merged, seen) else (merged ++ [e], version e :: seen).

Definition merge_members_authoritative (members : list (list VersionEntry)) : list VersionEntry :=
  (foldl (λ acc member_entries, foldl merge_entry acc member_entries) ([], []) members).1.

Definition owns (f : MemberFetch) : bool :=
  match f with Present entries => negb (is_empty entries) | Unavailable => true end.

Definition is_proxy (t : RepositoryType) : bool := bool_decide (t = Proxy).

(** [for (tag, version) in member.tags { tags.entry(tag).or_insert(version) }] *)
Definition or_insert_all (tags member_tags : Tags) : Tags := tags ∪ member_tags.

Definition aggregate_index_members_tagged (members : list MemberIndexFetch) : TaggedIndex :=
  let name_is_owned := existsb (λ m, negb (is_proxy (member_type m)) && owns (fetch m)) members in
  let '(surviving, tags) :=
    foldl (λ acc m,
      let '(surviving, tags) := acc in
      if name_is_owned && is_proxy (member_type m) then acc
      else (surviving ++ [match fetch m with Present es => es | Unavailable => [] end],
            or_insert_all tags (member_tags m)))
      ([], ∅) members in
  {| entries := merge_members_authoritative surviving; tags := tags |}.

Definition aggregate_index_members (members : list (RepositoryType * MemberFetch)) : list VersionEntry :=
  entries (aggregate_index_members_tagged
    ((λ '(t, f), {| member_type := t; fetch := f; member_tags := ∅ |}) <$> members)).

Definition classify_member_fetch (r : AppResult TaggedIndex) : MemberFetch * Tags :=
  match r with
  | Ok index => (Present (entries index), tags index)
  | Err (AE_Domain (NotFound _ _)) => (Present [], ∅)
  | Err _ => (Unavailable, ∅)
  end.

(** * Virtual repositories *)

Inductive MemberNamePresence : Type :=
  | NP_Present
  | NP_Absent
  | NP_Unavailable.

Section virtual.
Context `{RepositoryBackend} {X : Type} (auth : RbacAccess).

Abbreviation serve := (prog (RepositoryWorld * X) AppError).

Definition unfiltered_members (virtual_repo : Repository) : serve (list Repository) :=
  on_fst (members ← get_virtual_members (repo_id virtual_repo);
          match members with
          | Err e => Done (Err (AE_Domain e))
          | Ok members => mret (filter (λ m, repo_type m ≠ Virtual) members)
          end).

(** A handler that cannot fail. *)
Abbreviation infallible := (prog (RepositoryWorld * X) Empty_set).

(** A member that cannot be asked may own the name; the first owner ends the walk. *)
Fixpoint name_owned_by_members (name_present : Repository → infallible MemberNamePresence)
    (members : list Repository) : infallible bool :=
  match members with
  | [] => mret false
  | member :: members' =>
      if is_proxy (repo_type member) then name_owned_by_members name_present members'
      else
        p ← name_present member;
        match p with
        | NP_Present | NP_Unavailable => mret true
        | NP_Absent => name_owned_by_members name_present members'
        end
  end.

(** The first member that has the coordinate is authoritative. *)
Fixpoint first_authoritative {T} (name_is_owned : bool)
    (fetch_coord : Repository → serve (option T)) (members : list Repository) : serve (option T) :=
  match members with
  | [] => mret None
  | member :: members' =>
      if name_is_owned && is_proxy (repo_type member)
      then first_authoritative name_is_owned fetch_coord members'
      else
        found ← fetch_coord member;
        match found with
        | Some t => mret (Some t)
        | None => first_authoritative name_is_owned fetch_coord members'
        end
  end.

Definition resolve_download {T} (virtual_repo : Repository) (caller : option CallerPrincipal)
    (name_present : Repository → infallible MemberNamePresence)
    (fetch_coord : Repository → serve (option T)) : serve (option T) :=
  members ← on_fst (resolve_members auth virtual_repo caller);
  name_is_owned ← map_error (Empty_set_rect (λ _, AppError)) (name_owned_by_members name_present members);
  first_authoritative name_is_owned fetch_coord members.

(** The first phase asks the members that are no proxies, all of them. *)
Fixpoint fetch_owners (fetch_member : Repository → serve TaggedIndex) (members : list Repository)
    (slots : list (option (MemberFetch * Tags))) (name_is_owned : bool)
    : serve (list (option (MemberFetch * Tags)) * bool) :=
  match members with
  | [] => mret (slots, name_is_owned)
  | member :: members' =>
      if is_proxy (repo_type member)
      then fetch_owners fetch_member members' (slots ++ [None]) name_is_owned
      else
        r ← attempt (fetch_member member);
        let '(f, t) := classify_member_fetch r in
        fetch_owners fetch_member members' (slots ++ [Some (f, t)]) (name_is_owned || owns f)
  end.

(** The second phase asks the proxies, when nobody owns the name. *)
Fixpoint fetch_deferred (fetch_member : Repository → serve TaggedIndex) (name_is_owned : bool)
    (members : list (Repository * option (MemberFetch * Tags))) (per_member : list MemberIndexFetch)
    : serve (list MemberIndexFetch) :=
  match members with
  | [] => mret per_member
  | (member, Some (f, t)) :: members' =>
      fetch_deferred fetch_member name_is_owned members'
        (per_member ++ [{| member_type := repo_type member; fetch := f; member_tags := t |}])
  | (member, None) :: members' =>
      if name_is_owned then fetch_deferred fetch_member name_is_owned members' per_member
      else
        r ← attempt (fetch_member member);
        let '(f, t) := classify_member_fetch r in
        fetch_deferred fetch_member name_is_owned members'
          (per_member ++ [{| member_type := repo_type member; fetch := f; member_tags := t |}])
  end.

Definition aggregate_virtual_index_tagged (virtual_repo : Repository) (caller : option CallerPrincipal)
    (fetch_member : Repository → serve TaggedIndex) : serve TaggedIndex :=
  members ← on_fst (resolve_members auth virtual_repo caller);
  '(slots, name_is_owned) ← fetch_owners fetch_member members [] false;
  per_member ← fetch_deferred fetch_member name_is_owned (zip members slots) [];
  mret (aggregate_index_members_tagged per_member).

Definition aggregate_virtual_index (virtual_repo : Repository) (caller : option CallerPrincipal)
    (fetch_member : Repository → serve (list VersionEntry)) : serve (list VersionEntry) :=
  aggregated ← aggregate_virtual_index_tagged virtual_repo caller
    (λ member, es ← fetch_member member; mret {| entries := es; tags := ∅ |});
  mret (entries aggregated).
End virtual.

(** * The packument of npm *)

Inductive HeldReason : Type :=
  | HR_Quarantined
  | HR_Rejected
  | HR_ScanIndeterminate.

Definition HeldReason_from_status (s : QuarantineStatus) : option HeldReason :=
  match s with
  | QS_Released | QS_None => None
  | QS_Quarantined => Some HR_Quarantined
  | QS_Rejected => Some HR_Rejected
  | QS_ScanIndeterminate => Some HR_ScanIndeterminate
  end.

Definition wire (r : HeldReason) : string :=
  match r with
  | HR_Quarantined => "quarantined"
  | HR_Rejected => "rejected"
  | HR_ScanIndeterminate => "scan_indeterminate"
  end.

Record HeldVersion : Type := {
  held_version : string;
  reason : HeldReason;
  available_after : option DateTime;
}.

(** A verdict has no deadline. *)
Definition HeldVersion_new (version : string) (reason : HeldReason) (available_after : option DateTime)
    : HeldVersion :=
  {| held_version := version; reason := reason;
     available_after := match reason with HR_Quarantined => available_after | _ => None end |}.

Definition intersect_dist_tags (stored : Tags) (entries : list VersionEntry) : Tags :=
  filter (λ '(_, target), target ∈ version <$> entries) stored.

(** The newest release, or the newest of all when every version is a pre-release. *)
Definition resolve_served_latest (entries : list VersionEntry) (ordering : VersionOrdering)
    : option string :=
  let versions := version <$> entries in
  match max_by (compare ordering) (filter (λ v, is_prerelease ordering v = false) versions) with
  | Some v => Some v
  | None => max_by (compare ordering) versions
  end.

Definition version_entry_json (base_url : string) (e : VersionEntry) : option Value :=
  match payload e with
  | PV_Npm p =>
      let tarball_url := base_url ++ "/" ++ name_as_published p ++ "/-/" ++ tarball_basename p in
      let dist := map_insert "shasum" (VString (shasum p)) (map_insert "tarball" (VString tarball_url) []) in
      let dist := match integrity p with
                  | Some sri => map_insert "integrity" (VString sri) dist
                  | None => dist
                  end in
      let out := map_insert "dist" (VObject dist)
                   (map_insert "version" (VString (version e))
                      (map_insert "name" (VString (name_as_published p)) [])) in
      Some (VObject (foldl (λ out kv, map_insert kv.1 kv.2 out) out (manifest p)))
  | _ => None
  end%string.

Record BuildContext : Type := {
  package_name : string;
  base_url : string;
  ordering : VersionOrdering;
}.

Record NpmIndexBuilder : Type := {
  dist_tags : Tags;
  held : list HeldVersion;
}.

(** The instant of a deadline is written by [chrono]. *)
Class Rfc3339 : Type := to_rfc3339 : DateTime → string.

Section npm.
Context `{Rfc3339}.

Definition held_to_json (h : HeldVersion) : Value :=
  let out := map_insert "status" (VString (wire (reason h)))
               (map_insert "version" (VString (held_version h)) []) in
  VObject (match available_after h with
           | Some deadline => map_insert "available_after" (VString (to_rfc3339 deadline)) out
           | None => out
           end).

(** The tags a packument carries. *)
Definition served_tags (b : NpmIndexBuilder) (ctx : BuildContext) (entries : list VersionEntry) : Tags :=
  let tags := if is_empty entries then ∅ else dist_tags b in
  if negb (is_empty entries) && negb (is_some (tags !! "latest"%string)) then
    match resolve_served_latest entries (ordering ctx) with
    | Some derived => <["latest"%string := derived]> tags
    | None => tags
    end
  else tags.

Definition build (b : NpmIndexBuilder) (ctx : BuildContext) (entries : list VersionEntry) : Value :=
  let tags := served_tags b ctx entries in
  let versions :=
    foldl (λ versions e,
      match version_entry_json (base_url ctx) e with
      | Some v => map_insert (version e) v versions
      | None => versions
      end) [] entries in
  let packument := map_insert "versions" (VObject versions)
                     (map_insert "name" (VString (package_name ctx)) []) in
  let packument :=
    if bool_decide (tags = ∅) then packument
    else map_insert "dist-tags"
           (VObject (map_collect ((λ '(tag, version), (tag, VString version)) <$> map_to_list tags)))
           packument in
  VObject (if is_empty (held b) then packument
           else map_insert "hort" (VObject (map_insert "held" (VArray (held_to_json <$> held b)) []))
                  packument).
End npm.

(** ** Sources and the handlers *)

Record IndexSourceOutput : Type := {
  src_entries : list VersionEntry;
  truncated : bool;
  canonical_name : string;
  src_dist_tags : Tags;
}.

Record ResolvedIndex : Type := {
  filtered : list VersionEntry;
  resolved_tags : Tags;
  resolved_held : list HeldVersion;
  resolved_name : string;
  base_str : string;
  resolved_truncated : bool;
}.

(** [str::trim_end_matches('/')] *)
Fixpoint trim_end_slashes (s : string) : string :=
  match s with
  | EmptyString => EmptyString
  | String c s' =>
      match trim_end_slashes s' with
      | EmptyString => if bool_decide (c = "/"%char) then EmptyString else String c EmptyString
      | s'' => String c s''
      end
  end.

(** A version without a row is not held. *)
Definition collect_held (entries : list VersionEntry) (deadlines : gmap string DateTime) : list HeldVersion :=
  omap (λ e, s ← status e; r ← HeldReason_from_status s;
             Some (HeldVersion_new (version e) r (deadlines !! version e))) entries.

Definition artifact_not_found (pkg_name : string) : AppError :=
  AE_Domain (NotFound "Artifact" [ArgStr pkg_name]).

Definition find_version (es : list VersionEntry) (v : string) : option VersionEntry :=
  snd <$> list_find (λ e, version e = v) es.

Section serve.
Context `{RepositoryBackend} `{Rfc3339} {X : Type} (auth : RbacAccess).

Abbreviation serve := (prog (RepositoryWorld * X) AppError).

(** The implementations of [IndexSource] for a hosted and for a proxy repository, and the
    read of the hold deadlines. *)
Context (HostedNpmSource ProxyNpmSource :
  Repository → string → option CallerPrincipal → serve IndexSourceOutput).
Context (package_hold_deadlines : Uuid → string → serve (gmap string DateTime)).

(** The source of a repository.  The walk of a virtual repository leaves virtual members
    out, so that [depth] one is enough. *)
Fixpoint select_source (depth : nat) (repo : Repository) (package_name : string)
    (caller : option CallerPrincipal) : serve IndexSourceOutput :=
  match repo_type repo, depth with
  | Proxy, _ => ProxyNpmSource repo package_name caller
  | Hosted, _ | Staging, _ => HostedNpmSource repo package_name caller
  | Virtual, O => Done (Err (AE_Storage [Lit "nested virtual repository"]))
  | Virtual, S depth' =>
      aggregated ← aggregate_virtual_index_tagged auth repo caller (λ member,
        output ← select_source depth' member package_name caller;
        mret {| entries := src_entries output; tags := src_dist_tags output |});
      mret {| src_entries := entries aggregated; truncated := false; canonical_name := package_name;
              src_dist_tags := tags aggregated |}
  end.

Definition resolve_served_versions (repo_key pkg_name root_url : string)
    (caller : option CallerPrincipal) : serve ResolvedIndex :=
  repo ← on_fst (resolve_key auth repo_key caller AL_Read);
  output ← select_source 1 repo pkg_name caller;
  if bool_decide (repo_type repo ≠ Proxy) && is_empty (src_entries output)
  then Done (Err (artifact_not_found pkg_name))
  else
    deadlines ←
      (if existsb (λ e, bool_decide (status e = Some QS_Quarantined)) (src_entries output) then
         r ← attempt (package_hold_deadlines (repo_id repo) (canonical_name output));
         mret (match r with Ok deadlines => deadlines | Err _ => ∅ end)
       else mret ∅);
    let filtered := apply_filters [NonServableStatusFilter Hidden; IndexModeFilter (index_mode repo) Hidden]
                      (src_entries output) in
    mret {| filtered := filtered;
            resolved_tags := intersect_dist_tags (src_dist_tags output) filtered;
            resolved_held := collect_held (src_entries output) deadlines;
            resolved_name := canonical_name output;
            base_str := (trim_end_slashes root_url ++ "/npm/" ++ repo_key)%string;
            resolved_truncated := truncated output |}.

(** The packument and whether the listing was cut. *)
Definition serve_packument_unified (repo_key pkg_name root_url : string)
    (caller : option CallerPrincipal) : serve (Value * bool) :=
  resolved ← resolve_served_versions repo_key pkg_name root_url caller;
  mret (build {| dist_tags := resolved_tags resolved; held := resolved_held resolved |}
          {| package_name := resolved_name resolved; base_url := base_str resolved;
             ordering := NpmSemverOrdering |}
          (filtered resolved), resolved_truncated resolved).

(** A version by its own name, then by a tag, then the derived latest. *)
Definition resolve_version_or_tag (resolved : ResolvedIndex) (version_or_tag : string)
    : option VersionEntry :=
  match find_version (filtered resolved) version_or_tag with
  | Some e => Some e
  | None =>
      match resolved_tags resolved !! version_or_tag ≫= find_version (filtered resolved) with
      | Some e => Some e
      | None =>
          if bool_decide (version_or_tag = "latest"%string)
          then resolve_served_latest (filtered resolved) NpmSemverOrdering ≫= find_version (filtered resolved)
          else None
      end
  end.

Definition serve_npm_version_unified (repo_key pkg_name version_or_tag root_url : string)
    (caller : option CallerPrincipal) : serve Value :=
  resolved ← resolve_served_versions repo_key pkg_name root_url caller;
  match resolve_version_or_tag resolved version_or_tag ≫= version_entry_json (base_str resolved) with
  | None => Done (Err (artifact_not_found pkg_name))
  | Some body => mret body
  end.
End serve.
