(* ===== verification/IndexSafety.v ===== *)
(** What the served indexes of IndexServe guarantee: a version comes from the first
    surviving member that has it, a name that a member owns is never taken from a proxy,
    and what a packument names can be downloaded. *)

From Stdlib Require Import Ascii.
From S2P Require Import Prelude.
From S2P Require Import RustStd.
From S2P Require Import Json.
From S2P Require Import Types.
From S2P Require Import Artifact.
From S2P Require Import Store.
From S2P Require Import Concurrent.
From S2P Require Import Rbac.
From S2P Require Import RepositoryAccess.
From S2P Require Import VersionOrder.
From S2P Require Import VersionSafety.
From S2P Require Import IndexServe.

(** * The merge *)

Lemma find_version_Some es v e :
  find_version es v = Some e ↔
    ∃ before after, es = before ++ e :: after ∧ version e = v ∧ v ∉ version <$> before.
Proof.
  unfold find_version. split.
  - destruct (list_find _ es) as [[i x] |] eqn:E; [| done]. intros [= <-].
    apply list_find_Some in E as (Hi & Hv & Hbefore). exists (take i es), (drop (S i) es).
    split_and!; [by rewrite (take_drop_middle _ _ _ Hi) | done |].
    intros (y & Hy & Hin)%list_elem_of_fmap. apply list_elem_of_lookup in Hin as [j Hj].
    apply lookup_take_Some in Hj as [Hj Hlt]. by apply (Hbefore j y Hj Hlt).
  - intros (before & after & -> & Hv & Hnew).
    assert (list_find (λ e', version e' = v) (before ++ e :: after) = Some (length before, e)) as ->; [| done].
    apply list_find_Some. split_and!; [by apply list_lookup_middle | done |].
    intros j y Hj Hlt Hy. rewrite lookup_app_l in Hj by done. apply Hnew.
    rewrite <- Hy. by apply list_elem_of_fmap_2, (list_elem_of_lookup_2 _ j).
Qed.

Lemma find_version_None es v : find_version es v = None ↔ v ∉ version <$> es.
Proof.
  unfold find_version. destruct (list_find _ es) as [[i x] |] eqn:E; cbn.
  - apply list_find_Some in E as (Hi & Hv & _). split; [done | intros []].
    rewrite <- Hv. by apply list_elem_of_fmap_2, (list_elem_of_lookup_2 _ i).
  - apply list_find_None in E. split; [intros _ | done]. rewrite Forall_forall in E.
    intros (y & -> & Hy)%list_elem_of_fmap. by apply (E y Hy).
Qed.

Lemma find_version_app es es' v :
  find_version (es ++ es') v = match find_version es v with Some e => Some e | None => find_version es' v end.
Proof.
  destruct (find_version es v) as [e |] eqn:E.
  - apply find_version_Some in E as (b & a & -> & Hv & Hb). apply find_version_Some.
    exists b, (a ++ es'). by rewrite <- app_assoc.
  - apply find_version_None in E. destruct (find_version es' v) as [e |] eqn:E'.
    + apply find_version_Some in E' as (b & a & -> & Hv & Hb). apply find_version_Some.
      exists (es ++ b), a. rewrite fmap_app, elem_of_app. split_and!; [by rewrite app_assoc | done |]. tauto.
    + apply find_version_None in E'. apply find_version_None. rewrite fmap_app, elem_of_app. tauto.
Qed.

(** Deduplication keeps the first entry of a version. *)
Definition dedup_versions (es : list VersionEntry) : list VersionEntry := (foldl merge_entry ([], []) es).1.

Lemma merge_entries es :
  let '(merged, seen) := foldl merge_entry ([], []) es in
  (∀ v, v ∈ seen ↔ v ∈ version <$> merged) ∧ NoDup (version <$> merged) ∧
  ∀ v, find_version merged v = find_version es v.
Proof.
  induction es as [| e es IH] using rev_ind; [split_and!; [set_solver | constructor | done] |].
  rewrite foldl_snoc. destruct (foldl merge_entry ([], []) es) as [merged seen].
  destruct IH as (Hseen & Hnd & Hfind). unfold merge_entry. case_bool_decide as Hin.
  - split_and!; [done .. |]. intros v. rewrite find_version_app, <- Hfind.
    destruct (find_version merged v) eqn:E; [done |]. symmetry. apply find_version_None.
    apply find_version_None in E. intros ->%list_elem_of_singleton. by apply E, Hseen.
  - split_and!.
    + intros v. rewrite fmap_app, elem_of_app, elem_of_cons, Hseen. set_solver.
    + rewrite fmap_app. apply NoDup_app. split_and!; [done | | by apply NoDup_singleton].
      intros v Hv ->%list_elem_of_singleton. by apply Hin, Hseen.
    + intros v. by rewrite !find_version_app, Hfind.
Qed.

Lemma merge_members_concat members : merge_members_authoritative members = dedup_versions (concat members).
Proof.
  unfold merge_members_authoritative, dedup_versions. f_equal. generalize (@nil VersionEntry, @nil string).
  induction members as [| m members IH]; intros acc; [done |]. simpl. by rewrite foldl_app, IH.
Qed.

Lemma find_version_merge members v :
  find_version (merge_members_authoritative members) v = find_version (concat members) v.
Proof.
  rewrite merge_members_concat. unfold dedup_versions. pose proof (merge_entries (concat members)) as Hm.
  destruct (foldl merge_entry _ _). apply Hm.
Qed.

Lemma merge_NoDup members : NoDup (version <$> merge_members_authoritative members).
Proof.
  rewrite merge_members_concat. unfold dedup_versions. pose proof (merge_entries (concat members)) as Hm.
  destruct (foldl merge_entry _ _). apply Hm.
Qed.

Lemma elem_of_unique es e : NoDup (version <$> es) → e ∈ es ↔ find_version es (version e) = Some e.
Proof.
  intros Hnd. split.
  - intros He. apply list_elem_of_split in He as (b & a & ->). apply find_version_Some. exists b, a.
    split_and!; [done .. |]. rewrite fmap_app in Hnd. apply NoDup_app in Hnd as (_ & Hd & _).
    intros Hb. apply (Hd _ Hb). rewrite fmap_cons. set_solver.
  - intros (b & a & -> & _)%find_version_Some. set_solver.
Qed.

Lemma find_version_concat (ls : list (list VersionEntry)) v e :
  find_version (concat ls) v = Some e ↔
    ∃ i l, ls !! i = Some l ∧ find_version l v = Some e ∧
           ∀ j l', (j < i)%nat → ls !! j = Some l' → v ∉ version <$> l'.
Proof.
  induction ls as [| l ls IH]; simpl.
  { split; [done | by intros (i & l & [=] & _)]. }
  rewrite find_version_app. destruct (find_version l v) as [e' |] eqn:E.
  - split; [intros [= ->] | intros (i & l' & Hi & Hf & Hb)].
    + exists O, l. split_and!; [done .. |]. lia.
    + destruct i as [| i]; [by simplify_eq/= |].
      destruct (Hb O l); [lia | done |]. apply find_version_Some in E as (b & a & -> & <- & _). set_solver.
  - rewrite IH. split; intros (i & l' & Hi & Hf & Hb).
    + exists (S i), l'. split_and!; [done .. |]. intros [| j] l'' Hj Hl; simplify_eq/=.
      * by apply find_version_None.
      * apply (Hb j); [lia | done].
    + destruct i as [| i]; simplify_eq/=. exists i, l'. split_and!; [done .. |].
      intros j l'' Hj Hl. apply (Hb (S j)); [lia | done].
Qed.

(** * Aggregation *)

Definition name_owned (ms : list MemberIndexFetch) : bool :=
  existsb (λ m, negb (is_proxy (member_type m)) && owns (fetch m)) ms.

Definition contribution (m : MemberIndexFetch) : list VersionEntry :=
  match fetch m with Present es => es | Unavailable => [] end.

(** When the name is owned the proxies are out. *)
Definition survives (owned : bool) (m : MemberIndexFetch) : bool :=
  negb (owned && is_proxy (member_type m)).

Definition survivors (ms : list MemberIndexFetch) : list MemberIndexFetch :=
  filter (λ m, Is_true (survives (name_owned ms) m)) ms.

Lemma aggregate_spec ms :
  aggregate_index_members_tagged ms =
    {| entries := merge_members_authoritative (contribution <$> survivors ms);
       tags := foldl (λ ts m, ts ∪ member_tags m) ∅ (survivors ms) |}.
Proof.
  unfold aggregate_index_members_tagged, survivors. fold (name_owned ms). generalize (name_owned ms).
  intros owned.
  assert (∀ acc ts,
    foldl (λ acc m, let '(surviving, tags) := acc in
      if owned && is_proxy (member_type m) then acc
      else (surviving ++ [match fetch m with Present es => es | Unavailable => [] end],
            or_insert_all tags (member_tags m))) (acc, ts) ms =
    (acc ++ (contribution <$> filter (λ m, Is_true (survives owned m)) ms),
     foldl (λ ts m, ts ∪ member_tags m) ts (filter (λ m, Is_true (survives owned m)) ms))) as ->; [| done].
  unfold survives. induction ms as [| m ms IH]; intros acc ts; [by rewrite app_nil_r |].
  rewrite filter_cons. cbn [foldl]. destruct (owned && is_proxy (member_type m)); cbn [negb].
  - rewrite decide_False by auto. apply IH.
  - rewrite decide_True by done. rewrite IH. cbn [fmap list_fmap foldl]. by rewrite <- app_assoc.
Qed.

Lemma survivors_owned ms m : name_owned ms = true → m ∈ survivors ms → member_type m ≠ Proxy.
Proof.
  intros Ho (Hs & _)%list_elem_of_filter. unfold survives, is_proxy in Hs. rewrite Ho in Hs.
  case_bool_decide; done.
Qed.

(** * Filters *)

Lemma elem_of_retain p es e : e ∈ retain p es ↔ p e = true ∧ e ∈ es.
Proof. unfold retain. by rewrite list_elem_of_filter, Is_true_true. Qed.

(** The mode decides what the first filter lets through. *)
Lemma pipeline_keeps mode visibility es :
  apply_filters [NonServableStatusFilter visibility; IndexModeFilter mode visibility] es =
    retain (index_mode_keeps mode visibility) es.
Proof.
  cbn. unfold IndexModeFilter, NonServableStatusFilter, retain. rewrite list_filter_filter.
  apply list_filter_iff. intros e. unfold index_mode_keeps, non_servable_keeps.
  destruct mode, (status e); naive_solver.
Qed.

(** C21. An index of a virtual repository serves a version as the first member that has it
    holds it, and serves it or not by the status it has there.  No member below decides,
    and for an owned name no proxy is a member at all. *)
Theorem served_versions_are_authoritative ms mode visibility e :
  e ∈ apply_filters [NonServableStatusFilter visibility; IndexModeFilter mode visibility]
        (entries (aggregate_index_members_tagged ms)) ↔
  index_mode_keeps mode visibility e = true ∧
  ∃ i m, survivors ms !! i = Some m ∧
    (name_owned ms = true → member_type m ≠ Proxy) ∧
    find_version (contribution m) (version e) = Some e ∧
    ∀ j m', (j < i)%nat → survivors ms !! j = Some m' → version e ∉ version <$> contribution m'.
Proof.
  rewrite pipeline_keeps, elem_of_retain, aggregate_spec. cbn [entries].
  rewrite (elem_of_unique _ _ (merge_NoDup _)), find_version_merge, find_version_concat.
  split; intros [Hk (i & l & Hi & H)]; (split; [done |]).
  - rewrite list_lookup_fmap in Hi. apply fmap_Some in Hi as (m & Hm & ->). destruct H as [Hf Hb].
    exists i, m. split_and!; [done | | done |].
    + intros Ho. by apply (survivors_owned ms), (list_elem_of_lookup_2 _ i).
    + intros j m' Hj Hm'. apply (Hb j); [done |]. by rewrite list_lookup_fmap, Hm'.
  - destruct H as (_ & Hf & Hb). exists i, (contribution l).
    split_and!; [by rewrite list_lookup_fmap, Hi | done |]. intros j l' Hj Hl.
    rewrite list_lookup_fmap in Hl. apply fmap_Some in Hl as (m' & Hm' & ->). by apply (Hb j).
Qed.

Lemma admits_hidden s : admits Hidden s = servable s.
Proof. by destruct s. Qed.

(** On entries that carry the rows of their versions, the filters of a reader keep
    exactly the versions that [filter_served_versions] serves. *)
Theorem filters_refine_served_versions es rows mode ordering :
  NoDup rows.*1 → (∀ e, e ∈ es → status e = status_by_version rows !! version e) →
  ∀ v, v ∈ version <$> apply_filters [NonServableStatusFilter Hidden; IndexModeFilter mode Hidden] es ↔
       v ∈ served (filter_served_versions (version <$> es) rows mode ordering).
Proof.
  intros Hnd Hrows v. rewrite elem_of_served, pipeline_keeps, !list_elem_of_fmap.
  assert (∀ e, e ∈ es → index_mode_keeps mode Hidden e = true ↔ serves mode rows (version e)) as Hkeeps.
  { intros e He. unfold index_mode_keeps, serves. rewrite (Hrows e He), status_by_version_last.
    pose proof (λ s, last_row_unique rows (version e) s Hnd) as Hu.
    destruct (last_row rows (version e)) as [s |].
    - destruct mode; rewrite admits_hidden; [| naive_solver].
      split; [| intros (t & [= ->]%Hu & ?); done]. intros Hs. exists s. by split; [apply Hu |].
    - destruct mode; [| naive_solver]. split; [done |]. by intros (t & Ht%Hu & _). }
  setoid_rewrite elem_of_retain. naive_solver.
Qed.

(** * Lazy aggregation *)

Section aggregate.
Context `{RepositoryBackend} {X : Type} (auth : RbacAccess).

Abbreviation serve := (prog (RepositoryWorld * X) AppError).

(** A fetch whose outcome does not depend on the state. *)
Definition answers {A} (p : serve A) (r : AppResult A) : Prop := ∀ s, (run p s).2 = r.

Definition claims (r : AppResult TaggedIndex) : bool := owns (classify_member_fetch r).1.

Definition eager (outcome : Repository → AppResult TaggedIndex) (m : Repository) : MemberIndexFetch :=
  let '(f, t) := classify_member_fetch (outcome m) in
  {| member_type := repo_type m; fetch := f; member_tags := t |}.

Definition slot (outcome : Repository → AppResult TaggedIndex) (m : Repository)
    : option (MemberFetch * Tags) :=
  if is_proxy (repo_type m) then None else Some (classify_member_fetch (outcome m)).

Definition claimed (outcome : Repository → AppResult TaggedIndex) (members : list Repository) : bool :=
  existsb (λ m, negb (is_proxy (repo_type m)) && claims (outcome m)) members.

Lemma fetch_owners_answers fetch_member outcome members : ∀ slots owned,
  (∀ m, m ∈ members → repo_type m ≠ Proxy → answers (fetch_member m) (outcome m)) →
  answers (fetch_owners fetch_member members slots owned)
    (Ok (slots ++ (slot outcome <$> members), owned || claimed outcome members)).
Proof.
  induction members as [| m members IH]; intros slots owned Hm s; simpl.
  { by rewrite app_nil_r, orb_false_r. }
  assert (∀ m, m ∈ members → repo_type m ≠ Proxy → answers (fetch_member m) (outcome m)) as Hms.
  { intros m' Hm'. apply Hm. by right. }
  unfold slot at 1. fold (slot outcome). destruct (is_proxy (repo_type m)) eqn:Ep; simpl.
  - rewrite IH by done. by rewrite <- app_assoc.
  - rewrite run_bind, run_attempt. pose proof (Hm m) as Ho. unfold answers in Ho.
    specialize (Ho ltac:(by left) ltac:(by apply bool_decide_eq_false in Ep) s).
    destruct (run (fetch_member m) s) as [s' r]. simpl in Ho. subst r.
    unfold claims. destruct (classify_member_fetch (outcome m)) as [f t]. rewrite IH by done. cbn [fst].
    by rewrite <- app_assoc, orb_assoc.
Qed.

Lemma filter_survives_cons owned m ms :
  filter (λ m, Is_true (survives owned m)) (m :: ms) =
    (if survives owned m then [m] else []) ++ filter (λ m, Is_true (survives owned m)) ms.
Proof. rewrite filter_cons. case_decide as Hd; by destruct (survives owned m). Qed.

Lemma fetch_deferred_answers fetch_member outcome owned members : ∀ acc,
  (∀ m, m ∈ members → answers (fetch_member m) (outcome m)) →
  answers (fetch_deferred fetch_member owned (zip members (slot outcome <$> members)) acc)
    (Ok (acc ++ filter (λ m, Is_true (survives owned m)) (eager outcome <$> members))).
Proof.
  induction members as [| m members IH]; intros acc Hm s; [by rewrite app_nil_r |].
  assert (∀ m, m ∈ members → answers (fetch_member m) (outcome m)) as Hms.
  { intros m' Hm'. apply Hm. by right. }
  specialize (Hm m ltac:(by left)). rewrite !fmap_cons, filter_survives_cons.
  destruct (classify_member_fetch (outcome m)) as [f t] eqn:Ec.
  assert (eager outcome m = {| member_type := repo_type m; fetch := f; member_tags := t |}) as ->
    by (unfold eager; by rewrite Ec).
  unfold slot at 1, survives at 1. unfold answers in IH. rewrite Ec. cbn [member_type zip zip_with].
  destruct (is_proxy (repo_type m)) eqn:Ep; cbn [fetch_deferred].
  - destruct owned; cbn [negb andb]; [by rewrite IH |]. rewrite run_bind, run_attempt. specialize (Hm s).
    destruct (run (fetch_member m) s) as [s' r]. simpl in Hm. subst r. rewrite Ec, IH by done.
    by rewrite <- app_assoc.
  - rewrite andb_false_r, IH by done. by rewrite <- app_assoc.
Qed.

Lemma eager_owned outcome members : name_owned (eager outcome <$> members) = claimed outcome members.
Proof.
  unfold name_owned, claimed. induction members as [| m members IH]; [done |]. cbn. rewrite IH.
  f_equal. unfold eager, claims. by destruct (classify_member_fetch (outcome m)).
Qed.

Lemma list_filter_all {A} (P : A → Prop) `{∀ x, Decision (P x)} l : Forall P l → filter P l = l.
Proof. induction 1 as [| x l Hx _ IH]; [done |]. rewrite filter_cons, decide_True by done. by f_equal. Qed.

(** Pinning a second time changes nothing. *)
Lemma aggregate_survivors ms :
  aggregate_index_members_tagged (survivors ms) = aggregate_index_members_tagged ms.
Proof.
  assert (survivors (survivors ms) = survivors ms) as E; [| by rewrite (aggregate_spec ms), aggregate_spec, E].
  unfold survivors at 1. apply list_filter_all.
  apply Forall_forall. intros m Hm. destruct (name_owned (survivors ms)) eqn:Eo; [| done].
  assert (name_owned ms = true) as Ho.
  { unfold name_owned in *. apply existsb_exists in Eo as (x & Hx & Hp). apply existsb_exists.
    exists x. split; [| done]. apply list_elem_of_In. apply list_elem_of_In in Hx.
    by apply list_elem_of_filter in Hx as [_ Hx]. }
  unfold survives, is_proxy. rewrite bool_decide_eq_false_2; [done |]. by apply (survivors_owned ms).
Qed.

(** C26. Asking the proxies only when nobody else owns the name gives the index that
    asking every member and dropping the proxies afterwards would give. *)
Theorem lazy_aggregation_is_exact virtual_repo caller fetch_member outcome w w' x members :
  run (resolve_members auth virtual_repo caller) w = (w', Ok members) →
  (∀ m, m ∈ members → answers (fetch_member m) (outcome m)) →
  (run (aggregate_virtual_index_tagged (X := X) auth virtual_repo caller fetch_member) (w, x)).2 =
    Ok (aggregate_index_members_tagged (eager outcome <$> members)).
Proof.
  intros Hres Hm. unfold aggregate_virtual_index_tagged. rewrite run_bind, run_on_fst, Hres, run_bind.
  pose proof (fetch_owners_answers fetch_member outcome members [] false (λ m Hin _, Hm m Hin) (w', x)) as H1.
  destruct (run (fetch_owners _ _ _ _) _) as [s1 r1]. simpl in H1. subst r1. rewrite run_bind.
  pose proof (fetch_deferred_answers fetch_member outcome (claimed outcome members) members [] Hm s1) as H2.
  destruct (run (fetch_deferred _ _ _ _) _) as [s2 r2]. simpl in H2. subst r2. cbn. f_equal.
  rewrite <- eager_owned. apply aggregate_survivors.
Qed.

(** * Owned names *)

Lemma fetch_owners_agree fetch1 fetch2 members :
  (∀ m, repo_type m ≠ Proxy → fetch1 m = fetch2 m) →
  ∀ slots owned (s : RepositoryWorld * X),
    run (fetch_owners fetch1 members slots owned) s = run (fetch_owners fetch2 members slots owned) s.
Proof.
  intros Hagree. induction members as [| m members IH]; intros slots owned s; [done |]. simpl.
  destruct (is_proxy (repo_type m)) eqn:Ep; [apply IH |]. apply bool_decide_eq_false in Ep.
  rewrite (Hagree m Ep), !run_bind. destruct (run (attempt (fetch2 m)) s) as [s' [r |]]; [| done].
  destruct (classify_member_fetch r). apply IH.
Qed.

(** The first phase finds an owner. *)
Lemma fetch_owners_owned fetch_member members owner :
  owner ∈ members → repo_type owner ≠ Proxy →
  (∀ s, claims (run (fetch_member owner) s).2 = true) →
  ∀ slots owned (s : RepositoryWorld * X), ∃ s' slots',
    run (fetch_owners fetch_member members slots owned) s = (s', Ok (slots', true)).
Proof.
  intros Hin Hp Hclaims.
  assert (∀ members slots (s : RepositoryWorld * X), ∃ s' slots',
    run (fetch_owners fetch_member members slots true) s = (s', Ok (slots', true))) as Hrest.
  { clear. induction members as [| m members IH]; intros slots s; simpl; [eauto |].
    destruct (is_proxy (repo_type m)); [apply IH |]. rewrite run_bind, run_attempt.
    destruct (run (fetch_member m) s) as [s' r]. destruct (classify_member_fetch r). apply IH. }
  induction members as [| m members IH]; intros slots owned s; [by apply not_elem_of_nil in Hin |]. simpl.
  apply elem_of_cons in Hin as [<- | Hin].
  - unfold is_proxy. rewrite bool_decide_eq_false_2 by done. rewrite run_bind, run_attempt.
    specialize (Hclaims s). unfold claims in Hclaims. destruct (run (fetch_member owner) s) as [s' r].
    cbn [snd] in Hclaims. destruct (classify_member_fetch r) as [f t]. cbn [fst] in Hclaims.
    rewrite Hclaims, orb_true_r. apply Hrest.
  - destruct (is_proxy (repo_type m)); [by apply IH |]. rewrite run_bind, run_attempt.
    destruct (run (fetch_member m) s) as [s' r]. destruct (classify_member_fetch r). by apply IH.
Qed.

Lemma fetch_deferred_owned fetch1 fetch2 zs acc (s : RepositoryWorld * X) :
  run (fetch_deferred fetch1 true zs acc) s = run (fetch_deferred fetch2 true zs acc) s.
Proof. revert acc. induction zs as [| [m [[f t] |]] zs IH]; intros acc; [done | apply IH ..]. Qed.

Lemma aggregate_owned virtual_repo caller fetch1 fetch2 w w' x members owner :
  run (resolve_members auth virtual_repo caller) w = (w', Ok members) →
  owner ∈ members → repo_type owner ≠ Proxy →
  (∀ s, claims (run (fetch1 owner) s).2 = true) →
  (∀ m, repo_type m ≠ Proxy → fetch1 m = fetch2 m) →
  run (aggregate_virtual_index_tagged (X := X) auth virtual_repo caller fetch1) (w, x) =
  run (aggregate_virtual_index_tagged auth virtual_repo caller fetch2) (w, x).
Proof.
  intros Hres Hin Hp Hclaims Hagree. unfold aggregate_virtual_index_tagged.
  rewrite !run_bind, !run_on_fst, Hres, !run_bind.
  rewrite (fetch_owners_agree fetch1 fetch2) by done.
  rewrite (Hagree owner Hp) in Hclaims.
  destruct (fetch_owners_owned fetch2 members owner Hin Hp Hclaims [] false (w', x)) as (s' & slots & ->).
  by rewrite !run_bind, (fetch_deferred_owned fetch1 fetch2).
Qed.
End aggregate.

Section owned.
Context `{RepositoryBackend} `{Rfc3339} {X : Type} (auth : RbacAccess).

Abbreviation serve := (prog (RepositoryWorld * X) AppError).
Abbreviation source := (Repository → string → option CallerPrincipal → serve IndexSourceOutput).

(** The member has versions of the name, or cannot be asked. *)
Definition owner_answer (r : AppResult IndexSourceOutput) : bool :=
  match r with
  | Ok output => negb (is_empty (src_entries output))
  | Err (AE_Domain (NotFound _ _)) => false
  | Err _ => true
  end.

Definition holds_locally (m : Repository) : Prop := repo_type m = Hosted ∨ repo_type m = Staging.

Lemma select_source_owned (hosted proxy1 proxy2 : source) repo w w' x pkg caller members owner :
  repo_type repo = Virtual →
  run (resolve_members auth repo caller) w = (w', Ok members) →
  owner ∈ members → holds_locally owner → (∀ s, owner_answer (run (hosted owner pkg caller) s).2 = true) →
  run (select_source auth hosted proxy1 1 repo pkg caller) (w, x) =
  run (select_source auth hosted proxy2 1 repo pkg caller) (w, x).
Proof.
  intros Ht Hres Hin Hloc Hans. cbn [select_source]. rewrite Ht, !run_bind.
  rewrite (aggregate_owned auth repo caller _ (λ member,
    output ← select_source auth hosted proxy2 0 member pkg caller;
    mret {| entries := src_entries output; tags := src_dist_tags output |}) w w' x members owner);
    [done .. | by destruct Hloc as [-> | ->] | |].
  - intros s. specialize (Hans s). rewrite run_bind.
    replace (select_source auth hosted proxy1 0 owner pkg caller) with (hosted owner pkg caller)
      by (by destruct Hloc as [E | E]; simpl; rewrite E).
    destruct (run (hosted owner pkg caller) s) as [s' [output | e]]; [done |].
    simpl in *. unfold claims. destruct e as [[] | | |]; done.
  - intros m Hm. simpl. by destruct (repo_type m).
Qed.

Lemma resolve_served_owned (hosted proxy1 proxy2 : source) deadlines
    w w1 w2 x repo_key pkg root_url caller repo members owner :
  run (resolve_key auth repo_key caller AL_Read) w = (w1, Ok repo) → repo_type repo = Virtual →
  run (resolve_members auth repo caller) w1 = (w2, Ok members) →
  owner ∈ members → holds_locally owner → (∀ s, owner_answer (run (hosted owner pkg caller) s).2 = true) →
  run (resolve_served_versions auth hosted proxy1 deadlines repo_key pkg root_url caller) (w, x) =
  run (resolve_served_versions auth hosted proxy2 deadlines repo_key pkg root_url caller) (w, x).
Proof.
  intros Hkey Ht Hres Hin Hloc Hans. unfold resolve_served_versions.
  rewrite !run_bind, !run_on_fst, Hkey, !run_bind.
  by rewrite (select_source_owned hosted proxy1 proxy2 repo w1 w2 x pkg caller members owner).
Qed.

(** C6. When a hosted or staging member that the caller can read has versions of a name,
    or cannot be asked about it, no request for that name to the virtual repository reaches
    a proxy: replies and effects are the same whatever the proxies would do.  So no public
    package shadows an internal one, and the internal name does not leak. *)
Theorem owned_names_never_reach_a_proxy (hosted proxy1 proxy2 : source) deadlines
    w w1 w2 x repo_key pkg root_url caller repo members owner :
  run (resolve_key auth repo_key caller AL_Read) w = (w1, Ok repo) → repo_type repo = Virtual →
  run (resolve_members auth repo caller) w1 = (w2, Ok members) →
  owner ∈ members → holds_locally owner → (∀ s, owner_answer (run (hosted owner pkg caller) s).2 = true) →
  run (serve_packument_unified auth hosted proxy1 deadlines repo_key pkg root_url caller) (w, x) =
  run (serve_packument_unified auth hosted proxy2 deadlines repo_key pkg root_url caller) (w, x) ∧
  ∀ tag,
    run (serve_npm_version_unified auth hosted proxy1 deadlines repo_key pkg tag root_url caller) (w, x) =
    run (serve_npm_version_unified auth hosted proxy2 deadlines repo_key pkg tag root_url caller) (w, x).
Proof.
  intros Hkey Ht Hres Hin Hloc Hans.
  split; [| intros tag]; unfold serve_packument_unified, serve_npm_version_unified; rewrite !run_bind;
    by rewrite (resolve_served_owned hosted proxy1 proxy2 deadlines w w1 w2 x repo_key pkg root_url
                  caller repo members owner).
Qed.
End owned.

(** ** Downloads *)

Section downloads.
Context `{RepositoryBackend} {X T : Type} (auth : RbacAccess).

Abbreviation serve := (prog (RepositoryWorld * X) AppError).
Abbreviation infallible := (prog (RepositoryWorld * X) Empty_set).

Definition may_own (r : result Empty_set MemberNamePresence) : bool :=
  match r with Ok NP_Absent => false | _ => true end.

Lemma name_owned_true (name_present : Repository → infallible MemberNamePresence) members owner :
  owner ∈ members → repo_type owner ≠ Proxy → (∀ s, may_own (run (name_present owner) s).2 = true) →
  ∀ s, (run (name_owned_by_members name_present members) s).2 = Ok true.
Proof.
  intros Hin Hp Hown. induction members as [| m members IH]; intros s; [by apply not_elem_of_nil in Hin |].
  simpl. apply elem_of_cons in Hin as [<- | Hin].
  - unfold is_proxy. rewrite bool_decide_eq_false_2 by done. rewrite run_bind. specialize (Hown s).
    destruct (run (name_present owner) s) as [s' [[] | []]]; done.
  - destruct (is_proxy (repo_type m)); [by apply IH |]. rewrite run_bind.
    destruct (run (name_present m) s) as [s' [[] | []]]; [done | by apply IH | done].
Qed.

Lemma first_authoritative_owned (fetch1 fetch2 : Repository → serve (option T)) members :
  (∀ m, repo_type m ≠ Proxy → fetch1 m = fetch2 m) →
  ∀ s, run (first_authoritative true fetch1 members) s = run (first_authoritative true fetch2 members) s.
Proof.
  intros Hagree. induction members as [| m members IH]; intros s; [done |]. simpl.
  destruct (is_proxy (repo_type m)) eqn:Ep; [apply IH |]. apply bool_decide_eq_false in Ep.
  rewrite (Hagree m Ep), !run_bind. destruct (run (fetch2 m) s) as [s' [[] |]]; [done | apply IH | done].
Qed.

(** A member ahead of the first hit has been asked and does not have the coordinate. *)
Lemma first_authoritative_hit owned (fetch_coord : Repository → serve (option T)) members t : ∀ s s',
  run (first_authoritative owned fetch_coord members) s = (s', Ok (Some t)) →
  ∃ before m after, members = before ++ m :: after ∧ (owned = true → repo_type m ≠ Proxy) ∧
    (∃ s1, run (fetch_coord m) s1 = (s', Ok (Some t))) ∧
    ∀ m', m' ∈ before → (owned = true ∧ repo_type m' = Proxy) ∨
                        ∃ s1 s2, run (fetch_coord m') s1 = (s2, Ok None).
Proof.
  induction members as [| m members IH]; intros s s'; simpl; [done |].
  destruct (owned && is_proxy (repo_type m)) eqn:Ep.
  - intros (b & m1 & a & -> & Hm & Hhit & Hb)%IH. apply andb_true_iff in Ep as [-> Ep].
    apply bool_decide_eq_true in Ep. exists (m :: b), m1, a. split_and!; [done .. |].
    intros m' [-> | Hin]%elem_of_cons; [by left | by apply Hb].
  - rewrite run_bind. destruct (run (fetch_coord m) s) as [s1 [[t' |] | e]] eqn:E; [| | done].
    + intros [= <- <-]. exists [], m, members. split_and!; [done | | by exists s | set_solver].
      intros ->. by apply bool_decide_eq_false in Ep.
    + intros (b & m1 & a & -> & Hm & Hhit & Hb)%IH. exists (m :: b), m1, a. split_and!; [done .. |].
      intros m' [-> | Hin]%elem_of_cons; [right; eauto | by apply Hb].
Qed.

(** A download through a virtual repository is answered by the first member that has
    the coordinate; the members before it do not have it.  For a name that a readable
    member owns, or may own, proxies are neither asked nor served. *)
Theorem downloads_are_authoritative virtual_repo caller name_present
    (fetch1 fetch2 : Repository → serve (option T)) w w' x members :
  run (resolve_members auth virtual_repo caller) w = (w', Ok members) →
  (∀ m, repo_type m ≠ Proxy → fetch1 m = fetch2 m) →
  (∀ s t, run (resolve_download auth virtual_repo caller name_present fetch1) (w, x) = (s, Ok (Some t)) →
    ∃ before m after, members = before ++ m :: after ∧
      (∃ s1, run (fetch1 m) s1 = (s, Ok (Some t))) ∧
      ∀ m', m' ∈ before → repo_type m' = Proxy ∨ ∃ s1 s2, run (fetch1 m') s1 = (s2, Ok None)) ∧
  ((∃ owner, owner ∈ members ∧ repo_type owner ≠ Proxy ∧
      ∀ s, may_own (run (name_present owner) s).2 = true) →
    run (resolve_download auth virtual_repo caller name_present fetch1) (w, x) =
    run (resolve_download auth virtual_repo caller name_present fetch2) (w, x)).
Proof.
  intros Hres Hagree. split.
  - intros s t. unfold resolve_download. rewrite run_bind, run_on_fst, Hres, run_bind, run_map_error.
    destruct (run (name_owned_by_members _ _) _) as [s1 [owned | []]]. cbn [map_err].
    intros (b & m & a & -> & _ & Hhit & Hb)%first_authoritative_hit. exists b, m, a.
    split_and!; [done .. |]. intros m' Hm'. destruct (Hb m' Hm') as [[_ ?] | ?]; auto.
  - intros (owner & Hin & Hp & Hown). unfold resolve_download.
    rewrite !run_bind, !run_on_fst, Hres, !run_bind, !run_map_error.
    pose proof (name_owned_true name_present members owner Hin Hp Hown (w', x)) as E.
    destruct (run (name_owned_by_members _ _) _) as [s1 r]. simpl in E. subst r. cbn [map_err].
    by apply first_authoritative_owned.
Qed.
End downloads.

(** * Packuments *)

#[export] Instance npm_ordering_lawful : LawfulCmp (compare NpmSemverOrdering).
Proof. apply (cmp_on_lawful as_bytes), parsed_cmp_lawful, _. Qed.

Lemma max_by_lawful {A} (cmp : A → A → comparison) `{!LawfulCmp cmp} l m :
  max_by cmp l = Some m → m ∈ l ∧ ∀ x, x ∈ l → cmp m x ≠ Lt.
Proof. apply max_by_Some; [apply cmp_sym | apply cmp_ge_trans]. Qed.

(** A pre-release is the latest only when there are no releases. *)
Lemma resolve_served_latest_spec es m :
  resolve_served_latest es NpmSemverOrdering = Some m →
  m ∈ version <$> es ∧
  ∀ v, v ∈ version <$> es →
    is_prerelease NpmSemverOrdering v = false ∨ is_prerelease NpmSemverOrdering m = true →
    is_prerelease NpmSemverOrdering m = false ∧ is_prerelease NpmSemverOrdering v = true ∨
    compare NpmSemverOrdering m v ≠ Lt.
Proof.
  unfold resolve_served_latest. set (releases := filter _ _).
  destruct (max_by (compare NpmSemverOrdering) releases) as [m' |] eqn:E.
  - intros [= ->]. apply max_by_lawful in E as [Hm Hmax]; [| apply _].
    apply list_elem_of_filter in Hm as [Hrel Hm]. split; [done |]. intros v Hv.
    destruct (is_prerelease NpmSemverOrdering v) eqn:Ev; [by left |]. right. apply Hmax.
    by apply list_elem_of_filter.
  - apply max_by_None in E. intros Hm. apply max_by_lawful in Hm as [Hm Hmax]; [| apply _].
    split; [done |]. intros v Hv _. right. by apply Hmax.
Qed.

Lemma resolve_served_latest_None es : resolve_served_latest es NpmSemverOrdering = None ↔ es = [].
Proof.
  unfold resolve_served_latest. destruct (max_by _ (filter _ _)) as [m |] eqn:E.
  - split; [done | intros ->; done].
  - rewrite max_by_None. split; [apply fmap_nil_inv | by intros ->].
Qed.

Lemma find_version_elem es v : v ∈ version <$> es → ∃ e, find_version es v = Some e.
Proof.
  intros Hv. destruct (find_version es v) eqn:E; [eauto |]. by apply find_version_None in E.
Qed.

Section packument.
Context `{RepositoryBackend} `{Rfc3339} {X : Type} (auth : RbacAccess).

Abbreviation serve := (prog (RepositoryWorld * X) AppError).
Abbreviation source := (Repository → string → option CallerPrincipal → serve IndexSourceOutput).

Context (hosted proxy : source) (deadlines : Uuid → string → serve (gmap string DateTime)).

(** What the handler has resolved: the filtered entries of a source. *)
Record resolved_from (es : list VersionEntry) (mode : IndexMode) (r : ResolvedIndex) : Prop := {
  rf_filtered : filtered r = retain (index_mode_keeps mode Hidden) es;
  rf_tags : ∃ stored, resolved_tags r = intersect_dist_tags stored (filtered r);
  rf_held : ∃ ds, resolved_held r = collect_held es ds;
}.

(** The repository a request reads and the entries its source gives. *)
Definition sourced (repo_key pkg : string) (caller : option CallerPrincipal) (s : RepositoryWorld * X)
    (repo : Repository) (es : list VersionEntry) : Prop :=
  ∃ s1 s2 output, run (on_fst (resolve_key auth repo_key caller AL_Read)) s = (s1, Ok repo) ∧
    run (select_source auth hosted proxy 1 repo pkg caller) s1 = (s2, Ok output) ∧
    es = src_entries output.

Definition base_of (root_url repo_key : string) : string :=
  (trim_end_slashes root_url ++ "/npm/" ++ repo_key)%string.

Lemma resolve_served_from repo_key pkg root_url caller s s' r :
  run (resolve_served_versions auth hosted proxy deadlines repo_key pkg root_url caller) s = (s', Ok r) →
  ∃ repo es, sourced repo_key pkg caller s repo es ∧ resolved_from es (index_mode repo) r ∧
    base_str r = base_of root_url repo_key.
Proof.
  unfold resolve_served_versions. rewrite run_bind.
  destruct (run (on_fst _) s) as [s1 [repo |]] eqn:Hrepo; [| done]. rewrite run_bind.
  destruct (run (select_source _ _ _ _ _ _ _) _) as [s2 [output |]] eqn:Hsrc; [| done].
  assert (sourced repo_key pkg caller s repo (src_entries output)) as Hs by by exists s1, s2, output.
  destruct (bool_decide _ && _); [done |]. rewrite run_bind. destruct (existsb _ _).
  - rewrite run_bind, run_attempt. destruct (run (deadlines _ _) s2) as [s3 ds].
    intros [= _ <-]. exists repo, (src_entries output). split_and!; [done | | done].
    by split; [apply (pipeline_keeps _ Hidden) | eexists | eexists].
  - intros [= _ <-]. exists repo, (src_entries output). split_and!; [done | | done].
    by split; [apply (pipeline_keeps _ Hidden) | eexists | eexists].
Qed.

Definition builder (r : ResolvedIndex) : NpmIndexBuilder :=
  {| dist_tags := resolved_tags r; held := resolved_held r |}.
Definition context (r : ResolvedIndex) : BuildContext :=
  {| package_name := resolved_name r; base_url := base_str r; ordering := NpmSemverOrdering |}.

(** The tags of the packument. *)
Definition packument_tags (r : ResolvedIndex) : Tags := served_tags (builder r) (context r) (filtered r).

Lemma packument_tags_spec es mode r tag :
  resolved_from es mode r →
  packument_tags r !! tag =
    (if is_empty (filtered r) then None
     else match resolved_tags r !! tag with
          | Some v => Some v
          | None => if bool_decide (tag = "latest"%string)
                    then resolve_served_latest (filtered r) NpmSemverOrdering else None
          end).
Proof.
  intros Hr. unfold packument_tags, served_tags. cbn [builder context dist_tags ordering].
  destruct (is_empty (filtered r)); cbn [negb andb]; [by rewrite lookup_empty |].
  destruct (resolved_tags r !! "latest"%string) as [l |] eqn:El; cbn [is_some negb].
  - case_bool_decide as Ht; [by subst; rewrite El | by destruct (resolved_tags r !! tag)].
  - destruct (resolve_served_latest _ _) as [m |]; case_bool_decide as Ht; subst.
    + by rewrite lookup_insert_eq, El.
    + rewrite lookup_insert_ne by done. by destruct (resolved_tags r !! tag).
    + by rewrite El.
    + by destruct (resolved_tags r !! tag).
Qed.

Lemma resolved_tags_served es mode r tag v :
  resolved_from es mode r → resolved_tags r !! tag = Some v → v ∈ version <$> filtered r.
Proof.
  intros [_ [stored ->] _] Hv. by apply map_lookup_filter_Some in Hv as [_ Hv].
Qed.

Lemma packument_tags_served es mode r tag v :
  resolved_from es mode r → packument_tags r !! tag = Some v → v ∈ version <$> filtered r.
Proof.
  intros Hr. rewrite (packument_tags_spec es mode) by done. destruct (is_empty _); [done |].
  destruct (resolved_tags r !! tag) as [v' |] eqn:E.
  - intros [= ->]. by apply (resolved_tags_served es mode r tag).
  - case_bool_decide; [| done]. intros Hl. by apply resolve_served_latest_spec in Hl as [Hl _].
Qed.

Lemma packument_latest es mode r :
  resolved_from es mode r → is_Some (packument_tags r !! "latest"%string) ↔ filtered r ≠ [].
Proof.
  intros Hr. rewrite (packument_tags_spec es mode), <- is_empty_false by done.
  destruct (is_empty (filtered r)) eqn:Ee; [split; [by intros [] | done] |]. split; [done | intros _].
  destruct (resolved_tags r !! "latest"%string); [done |]. rewrite bool_decide_eq_true_2 by done.
  apply not_eq_None_Some. rewrite resolve_served_latest_None. by apply is_empty_false.
Qed.

(** The route of one version and the packument resolve a tag to the same entry. *)
Lemma tag_routes_agree es mode r tag :
  resolved_from es mode r → tag ∉ version <$> filtered r →
  resolve_version_or_tag r tag = packument_tags r !! tag ≫= find_version (filtered r).
Proof.
  intros Hr Hnot. unfold resolve_version_or_tag.
  rewrite (proj2 (find_version_None _ _) Hnot), (packument_tags_spec es mode) by done.
  destruct (is_empty (filtered r)) eqn:Ee.
  - apply is_empty_true in Ee. rewrite Ee. destruct (resolved_tags r !! tag) as [v |] eqn:Et; cbn.
    + apply (resolved_tags_served es mode) in Et; [| done]. rewrite Ee in Et. set_solver.
    + by case_bool_decide.
  - destruct (resolved_tags r !! tag) as [v |] eqn:Et; cbn.
    + apply (resolved_tags_served es mode), find_version_elem in Et as [e ->]; done.
    + by case_bool_decide.
Qed.

(** *** The document *)

Definition field (k : string) (v : Value) : option Value :=
  match v with VObject m => map_get k m | _ => None end.

(** What a packument says: whether it lists a version, where a tag points, what is held. *)
Definition lists (p : Value) (v : string) : Prop := is_Some (field "versions" p ≫= field v).
Definition tag_of (p : Value) (tag : string) : option string :=
  match field "dist-tags" p ≫= field tag with Some (VString v) => Some v | _ => None end.
Definition held_in (p : Value) (h : Value) : Prop :=
  ∃ hs, field "hort" p ≫= field "held" = Some (VArray hs) ∧ h ∈ hs.

Lemma build_versions base es v versions :
  is_Some (map_get v (foldl (λ versions e,
      match version_entry_json base e with
      | Some j => map_insert (version e) j versions
      | None => versions
      end) versions es)) ↔
  is_Some (map_get v versions) ∨ ∃ e, e ∈ es ∧ version e = v ∧ is_Some (version_entry_json base e).
Proof.
  revert versions. induction es as [| e es IH]; intros versions; cbn [foldl]; [set_solver |].
  rewrite IH. destruct (version_entry_json base e) as [j |] eqn:Ej.
  - rewrite map_insert_get. case_bool_decide as Hv; [subst |]; split.
    + intros _. right. exists e. rewrite Ej. split_and!; [left | done | done].
    + intros _. left. done.
    + intros [? | (e' & ? & ?)]; [by left |]. right. exists e'. split; [by right | done].
    + intros [? | (e' & [-> | ?]%elem_of_cons & ? & ?)]; [by left | done |]. right. eauto.
  - split; [set_solver |]. intros [? | (e' & [-> | ?]%elem_of_cons & Hv & Hj)]; [by left | | set_solver].
    rewrite Ej in Hj. by destruct Hj.
Qed.

Lemma lists_build r v :
  lists (build (builder r) (context r) (filtered r)) v ↔
  ∃ e, e ∈ filtered r ∧ version e = v ∧ is_Some (version_entry_json (base_str r) e).
Proof.
  unfold lists, build. set (versions := foldl _ _ _).
  assert (field "versions" (VObject versions) = map_get "versions" versions) as _ by done.
  transitivity (is_Some (map_get v versions)).
  - cbn [field]. by destruct (is_empty _), (bool_decide _); rewrite ?map_insert_get.
  - unfold versions. rewrite build_versions. split; [intros [[]|]; done | auto].
Qed.

Lemma tag_of_build r tag :
  tag_of (build (builder r) (context r) (filtered r)) tag = packument_tags r !! tag.
Proof.
  unfold tag_of, build. fold (packument_tags r).
  set (tags := map_collect _).
  assert (map_get tag tags = VString <$> packument_tags r !! tag) as Htags.
  { apply option_eq. intros v. unfold tags. rewrite map_collect_get.
    - rewrite list_elem_of_fmap, fmap_Some. split.
      + intros ([t w] & [= -> ->] & Hin%elem_of_map_to_list). eauto.
      + intros (w & Hw%elem_of_map_to_list & ->). by exists (tag, w).
    - rewrite <- list_fmap_compose. erewrite (list_fmap_ext _ fst); [apply NoDup_fst_map_to_list |].
      by intros i [t w] _. }
  cbn [field]. destruct (is_empty (held _)); case_bool_decide as He; rewrite ?map_insert_get; cbn [field].
  1, 3: by rewrite He, lookup_empty.
  all: change (match map_get tag tags with Some (VString v) => Some v | _ => None end = packument_tags r !! tag);
    rewrite Htags; by destruct (packument_tags r !! tag).
Qed.

Lemma held_in_build r h :
  held_in (build (builder r) (context r) (filtered r)) h → h ∈ held_to_json <$> resolved_held r.
Proof.
  unfold held_in, build. cbn [field held builder]. destruct (is_empty (resolved_held r)) eqn:Ee.
  - destruct (bool_decide _); rewrite ?map_insert_get; cbn; by intros (hs & ? & ?).
  - intros (hs & Hhs & Hin). destruct (bool_decide _); rewrite ?map_insert_get in Hhs; cbn in Hhs;
      by injection Hhs as <-.
Qed.

(** The route of one version, once the index is resolved. *)
Lemma run_version_route repo_key pkg root_url caller s s' r tag es mode :
  run (resolve_served_versions auth hosted proxy deadlines repo_key pkg root_url caller) s = (s', Ok r) →
  resolved_from es mode r →
  (run (serve_npm_version_unified auth hosted proxy deadlines repo_key pkg tag root_url caller) s).2 =
  match ((if bool_decide (tag ∈ version <$> filtered r) then Some tag else packument_tags r !! tag)
          ≫= find_version (filtered r)) ≫= version_entry_json (base_str r) with
  | Some body => Ok body
  | None => Err (artifact_not_found pkg)
  end.
Proof.
  intros Hrun Hr. unfold serve_npm_version_unified. rewrite run_bind, Hrun.
  assert (resolve_version_or_tag r tag =
    (if bool_decide (tag ∈ version <$> filtered r) then Some tag else packument_tags r !! tag)
      ≫= find_version (filtered r)) as ->.
  { case_bool_decide as Ht; [| by apply (tag_routes_agree es mode)].
    unfold resolve_version_or_tag. cbn. by apply find_version_elem in Ht as [e ->]. }
  by destruct (_ ≫= version_entry_json _).
Qed.

Lemma held_json es r mode h :
  resolved_from es mode r → h ∈ held_to_json <$> resolved_held r →
  ∃ e st, e ∈ es ∧ status e = Some st ∧ servable st = false ∧
    field "version" h = Some (VString (version e)) ∧
    (is_Some (field "available_after" h) → st = QS_Quarantined).
Proof.
  intros Hr (hv & -> & Hin)%list_elem_of_fmap. destruct (rf_held _ _ _ Hr) as [ds Hds]. rewrite Hds in Hin.
  apply list_elem_of_omap in Hin as (e & He & Hh).
  destruct (status e) as [st |] eqn:Hst; [| done]. cbn in Hh.
  exists e, st. destruct st; simplify_eq/=; unfold held_to_json; cbn;
    try destruct (ds !! version e); split_and!; try done; by intros [].
Qed.

(** C20. A packument names only versions that its reader may download.  It lists exactly
    the versions of the source's entries that the repository's mode keeps, with npm
    metadata, and none of these has a row that is held, rejected or undecided; no tag
    points at another version, and there is a tag [latest] unless nothing is kept.  The
    route of a single version answers a text that is a kept version with that version and
    any other text with the version its tag in the packument points at.  Whatever is
    reported as held has a row that is not servable, and a date only if it is quarantined. *)
Theorem packuments_name_only_servable_versions repo_key pkg root_url caller s s' p cut :
  run (serve_packument_unified auth hosted proxy deadlines repo_key pkg root_url caller) s = (s', Ok (p, cut)) →
  ∃ repo es, sourced repo_key pkg caller s repo es ∧
  let kept := retain (index_mode_keeps (index_mode repo) Hidden) es in
  let base := base_of root_url repo_key in
  (∀ e st, e ∈ kept → status e = Some st → servable st = true) ∧
  (∀ v, lists p v ↔ ∃ e, e ∈ kept ∧ version e = v ∧ is_Some (version_entry_json base e)) ∧
  (∀ tag v, tag_of p tag = Some v → v ∈ version <$> kept) ∧
  (is_Some (tag_of p "latest") ↔ kept ≠ []) ∧
  (∀ tag,
    (run (serve_npm_version_unified auth hosted proxy deadlines repo_key pkg tag root_url caller) s).2 =
    match ((if bool_decide (tag ∈ version <$> kept) then Some tag else tag_of p tag)
            ≫= find_version kept) ≫= version_entry_json base with
    | Some body => Ok body
    | None => Err (artifact_not_found pkg)
    end) ∧
  (∀ h, held_in p h →
    ∃ e st, e ∈ es ∧ status e = Some st ∧ servable st = false ∧
      field "version" h = Some (VString (version e)) ∧
      (is_Some (field "available_after" h) → st = QS_Quarantined)).
Proof.
  unfold serve_packument_unified. rewrite run_bind.
  destruct (run (resolve_served_versions _ _ _ _ _ _ _ _) s) as [s1 [r |]] eqn:Hrun; [| done].
  intros [= _ <- _]. fold (builder r). fold (context r).
  destruct (resolve_served_from _ _ _ _ _ _ _ Hrun) as (repo & es & Hs & Hr & Hbase).
  exists repo, es. split; [done |]. cbv zeta. rewrite <- (rf_filtered _ _ _ Hr), <- Hbase. split_and!.
  - intros e st He Hst. rewrite (rf_filtered _ _ _ Hr) in He. apply elem_of_retain in He as [Hk _].
    unfold index_mode_keeps in Hk. rewrite Hst in Hk. rewrite <- admits_hidden. by destruct (index_mode repo).
  - intros v. apply lists_build.
  - intros tag v. rewrite tag_of_build. by apply (packument_tags_served es (index_mode repo)).
  - rewrite tag_of_build. by apply (packument_latest es (index_mode repo)).
  - intros tag. rewrite tag_of_build. by eapply run_version_route.
  - intros h Hh%held_in_build. by eapply held_json.
Qed.
End packument.
