(* ===== verification/IndexExamples.v ===== *)
(** Runs of the version orderings, of the served indexes and of the virtual repositories:
    the witnesses of their theorems, and three ways in which they do less than the
    documentation says. *)

From coqutil Require Import Datatypes.RecordSetters.
From S2P Require Import Prelude.
From S2P Require Import RustStd.
From S2P Require Import Json.
From S2P Require Import Types.
From S2P Require Import Artifact.
From S2P Require Import Store.
From S2P Require Import Concurrent.
From S2P Require Import Rbac.
From S2P Require Import RepositoryAccess.
From S2P Require Import VersionOrder.
From S2P Require Import VersionSafety.
From S2P Require Import IndexServe.
From S2P Require Import IndexSafety.
From S2P Require Import TokenExamples.
Import SampleAuth.
Import SampleServer.
Import DoubleBraceUpdate.

(** ** Orderings *)

(** Lower case on the ASCII letters only. *)
#[export, refine] Instance sample_lowercase : Lowercase := { to_lower l := byte_to_lower <$> l }.
Proof. done. Defined.

Lemma orderings_are_total_orders_witness :
  compare NpmSemverOrdering "2.0.0" "1.0.0" = Gt ∧
  compare NpmSemverOrdering "1.0.0" "2.0.0" = CompOpp (compare NpmSemverOrdering "2.0.0" "1.0.0").
Proof.
  split; [evaluate |]. apply (orderings_are_total_orders Npm NpmSemverOrdering eq_refl ltac:(done)).
Defined.

Definition v1_10 : list (list byte) := [as_bytes "1"; as_bytes "010"].
Definition v1_9_0 : list (list byte) := [as_bytes "1"; as_bytes "9"; as_bytes "0"].

Lemma dotted_numbers_compare_numerically_witness :
  compare Pep440Ordering (text v1_10) (text v1_9_0) = padded_cmp [1; 10] [1; 9; 0] ∧
  padded_cmp [1; 10] [1; 9; 0] = Gt.
Proof.
  split; [| done].
  apply (dotted_numbers_compare_numerically Pypi Pep440Ordering v1_10 v1_9_0 eq_refl); try done.
  - repeat constructor; done.
  - by intros [|].
Defined.

Definition rows : list (string * QuarantineStatus) :=
  [("1.0.0", QS_Released); ("1.1.0", QS_Quarantined); ("2.0.0-rc.1", QS_None)]%string.

Lemma served_versions_are_exact_witness :
  latest (filter_served_versions ["1.0.0"; "1.1.0"; "3.0.0"]%string rows ReleasedOnly NpmSemverOrdering)
    = Some "1.0.0"%string ∧
  "1.0.0"%string ∈ served (filter_served_versions ["1.0.0"; "1.1.0"; "3.0.0"]%string rows ReleasedOnly
    NpmSemverOrdering).
Proof.
  split; [evaluate |].
  apply (served_versions_are_exact ["1.0.0"; "1.1.0"; "3.0.0"]%string rows ReleasedOnly NpmSemverOrdering).
  evaluate.
Defined.

(** Two rows of one version: the table says that the last one counts, and does not look at
    it when only releases are served. *)
Lemma duplicate_rows_are_not_last_write_wins :
  let status := [("1.0.0", QS_Released); ("1.0.0", QS_Rejected)]%string in
  status_by_version status !! "1.0.0"%string = Some QS_Rejected ∧
  served (filter_served_versions ["1.0.0"%string] status ReleasedOnly NpmSemverOrdering) = ["1.0.0"%string].
Proof. split; evaluate. Qed.

(** ** A virtual repository *)

Definition entry (v : string) (s : option QuarantineStatus) : VersionEntry :=
  {| version := v; status := s;
     payload := PV_Npm {| name_as_published := "left-pad"; tarball_basename := "left-pad.tgz";
                          integrity := None; shasum := ""; manifest := [] |} |}.

(** The virtual repository [all] has the hosted member [internal] and the proxy [public]. *)
Definition all (mode : IndexMode) : Repository :=
  (repository 20 "all" true) {{ repo_type := Virtual }} {{ index_mode := mode }}.
Definition internal (is_open : bool) : Repository := repository 21 "internal" is_open.
Definition public : Repository := (repository 22 "public" true) {{ repo_type := Proxy }}.

Definition table (mode : IndexMode) (is_open : bool) : RepositoryWorld :=
  {| repositories := [all mode; internal is_open; public];
     virtual_repo_members := [(20, 21, 0); (20, 22, 1)]; repo_calls := 0 |}.

Abbreviation serve := (prog (RepositoryWorld * unit) AppError).

Definition output (es : list VersionEntry) (tags : Tags) : IndexSourceOutput :=
  {| src_entries := es; truncated := false; canonical_name := "left-pad"; src_dist_tags := tags |}.

Definition hosted (m : Repository) (pkg : string) (caller : option CallerPrincipal) : serve IndexSourceOutput :=
  Done (Ok (output [entry "1.0.0" (Some QS_Released); entry "1.1.0" (Some QS_Quarantined)]
              {["next"%string := "1.1.0"%string]})).
Definition proxy (m : Repository) (pkg : string) (caller : option CallerPrincipal) : serve IndexSourceOutput :=
  Done (Ok (output [entry "1.1.0" None; entry "9.9.9" None] ∅)).
Definition no_proxy (m : Repository) (pkg : string) (caller : option CallerPrincipal) : serve IndexSourceOutput :=
  Done (Err (AE_Domain (Invariant [Lit "unreachable"]))).
Definition no_deadlines (id : Uuid) (name : string) : serve (gmap string DateTime) := Done (Ok ∅).

#[export] Instance sample_rfc3339 : Rfc3339 := λ _, "1970-01-01T00:00:00Z"%string.

Abbreviation guard := (RA_Enabled [reader]).

Definition after_key : RepositoryWorld := (run (resolve_key guard "all" None AL_Read) (table IncludePending true)).1.
Definition after_members : RepositoryWorld := (run (resolve_members guard (all IncludePending) None) after_key).1.

Lemma all_resolved :
  run (resolve_key guard "all" None AL_Read) (table IncludePending true) = (after_key, Ok (all IncludePending)).
Proof. evaluate. Qed.

Lemma members_resolved :
  run (resolve_members guard (all IncludePending) None) after_key = (after_members, Ok [internal true; public]).
Proof. evaluate. Qed.

Lemma owned_names_never_reach_a_proxy_witness :
  run (serve_packument_unified guard hosted proxy no_deadlines "all" "left-pad" "https://r" None)
      (table IncludePending true, ()) =
  run (serve_packument_unified guard hosted no_proxy no_deadlines "all" "left-pad" "https://r" None)
      (table IncludePending true, ()).
Proof.
  apply (owned_names_never_reach_a_proxy guard hosted proxy no_proxy no_deadlines (table IncludePending true)
    after_key after_members () "all" "left-pad" "https://r" None (all IncludePending) [internal true; public]
    (internal true) all_resolved eq_refl members_resolved); [by left | by left | done].
Defined.

Definition outcome (m : Repository) : AppResult TaggedIndex :=
  if bool_decide (repo_id m = 21) then Err (AE_Domain (NotFound "Artifact" []))
  else Ok {| entries := [entry "9.9.9" None]; tags := ∅ |}.

Lemma lazy_aggregation_is_exact_witness :
  (run (aggregate_virtual_index_tagged (X := unit) guard (all IncludePending) None (λ m, Done (outcome m)))
     (after_key, ())).2 = Ok (aggregate_index_members_tagged (eager outcome <$> [internal true; public])).
Proof.
  apply (lazy_aggregation_is_exact guard (all IncludePending) None (λ m, Done (outcome m)) outcome
    after_key after_members () [internal true; public] members_resolved). by intros m _ s.
Defined.

Definition has_tarball (m : Repository) : serve (option string) :=
  if bool_decide (repo_id m = 22) then Done (Ok (Some "public tarball"%string)) else Done (Ok None).
Definition no_tarball (m : Repository) : serve (option string) :=
  if bool_decide (repo_type m = Proxy) then Done (Err (AE_Domain (Invariant [Lit "unreachable"])))
  else has_tarball m.

Lemma tarballs_agree m : repo_type m ≠ Proxy → has_tarball m = no_tarball m.
Proof. intros Hm. unfold no_tarball. by rewrite bool_decide_eq_false_2. Qed.

Lemma downloads_are_authoritative_witness :
  run (resolve_download guard (all IncludePending) None (λ _, Done (Ok NP_Unavailable)) has_tarball)
    (after_key, ()) =
  run (resolve_download guard (all IncludePending) None (λ _, Done (Ok NP_Unavailable)) no_tarball)
    (after_key, ()).
Proof.
  apply (downloads_are_authoritative guard (all IncludePending) None (λ _, Done (Ok NP_Unavailable))
    has_tarball no_tarball after_key after_members () [internal true; public] members_resolved tarballs_agree).
  exists (internal true). split_and!; [by left | done | done].
Defined.

Lemma filters_refine_served_versions_witness :
  ("1.0.0"%string ∈ version <$> apply_filters [NonServableStatusFilter Hidden; IndexModeFilter ReleasedOnly Hidden]
     [entry "1.0.0" (Some QS_Released); entry "3.0.0" None]) ↔
  "1.0.0"%string ∈ served (filter_served_versions ["1.0.0"; "3.0.0"]%string rows ReleasedOnly NpmSemverOrdering).
Proof.
  apply (filters_refine_served_versions [entry "1.0.0" (Some QS_Released); entry "3.0.0" None] rows ReleasedOnly
    NpmSemverOrdering ltac:(apply (bool_decide_unpack _); vm_compute; done)).
  apply Forall_forall. repeat constructor.
Defined.

(** *** What is served *)

Definition served_run (mode : IndexMode) (is_open : bool) (hosted : _) (key : string) :=
  run (resolve_served_versions guard hosted proxy no_deadlines key "left-pad" "https://r" None)
    (table mode is_open, ()).

Definition served_names (mode : IndexMode) (is_open : bool) (hosted : _) (key : string) : list string :=
  match (served_run mode is_open hosted key).2 with Ok r => version <$> filtered r | Err _ => [] end.

Abbreviation packument_run :=
  (run (serve_packument_unified guard hosted proxy no_deadlines "all" "left-pad" "https://r" None)
     (table IncludePending true, ())).

Definition owned_packument : Value :=
  match packument_run.2 with Ok (p, _) => p | Err _ => VNull end.

Lemma owned_packument_served : packument_run = (packument_run.1, Ok (owned_packument, false)).
Proof. evaluate. Qed.

Lemma packuments_name_only_servable_versions_witness :
  tag_of owned_packument "latest" = Some "1.0.0"%string ∧
  ∃ repo es, sourced guard hosted proxy "all" "left-pad" None (table IncludePending true, ()) repo es ∧
    "1.0.0"%string ∈ version <$> retain (index_mode_keeps (index_mode repo) Hidden) es.
Proof.
  assert (tag_of owned_packument "latest" = Some "1.0.0"%string) as Htag by evaluate. split; [exact Htag |].
  destruct (packuments_name_only_servable_versions guard hosted proxy no_deadlines "all" "left-pad" "https://r" None
    (table IncludePending true, ()) _ owned_packument false owned_packument_served)
    as (repo & es & Hs & _ & _ & Htags & _).
  exists repo, es. split; [exact Hs | exact (Htags _ _ Htag)].
Defined.

(** A member that the caller cannot read does not own its names: the request goes to the
    proxy, and the public versions are served. *)
Lemma a_hidden_owner_does_not_pin :
  served_names IncludePending true hosted "all" = ["1.0.0"%string] ∧
  served_names IncludePending false hosted "all" = ["1.1.0"%string; "9.9.9"%string].
Proof. split; evaluate. Qed.

(** The mode of the virtual repository replaces the mode of its members: a member that
    serves releases only advertises versions that were never ingested. *)
Lemma a_members_index_mode_is_ignored :
  let empty m pkg caller : serve IndexSourceOutput := Done (Ok (output [] ∅)) in
  index_mode public = ReleasedOnly ∧
  served_names IncludePending true empty "public" = [] ∧
  served_names IncludePending true empty "all" = ["1.1.0"%string; "9.9.9"%string].
Proof. cbv zeta. split_and!; evaluate. Qed.
