(* ===== verification/Downloads.v ===== *)
(** Reading artifacts: the lookups and listings of crates/hort-app/src/use_cases/
    artifact_use_case.rs with the quarantine window of quarantine_hold.rs and
    release_clearance.rs, the queries of
    crates/hort-adapters-postgres/src/artifact_repo.rs behind them, the gate of
    crates/hort-http-core/src/artifact_gate.rs, and the npm routes that serve bytes
    and the hosted index (crates/hort-http-npm/src/lib.rs and index_source.rs,
    crates/hort-formats/src/npm.rs).

    The state is the repositories beside a [ServingWorld]: the content store of
    ContentRefs.v, the metadata rows and the download audit.  Bytes are the hash they
    are stored under.  Every optional port is wired, as the server composes it.  The
    pull from an upstream is a parameter; logs and metrics are left out. *)

From coqutil Require Import Datatypes.RecordSetters.
From S2P Require Import Prelude.
From S2P Require Import RustStd.
From S2P Require Import Json.
From S2P Require Import Types.
From S2P Require Import Events.
From S2P Require Import QuarantineTransitions.
From S2P Require Import Artifact.
From S2P Require Import ScanPolicyFold.
From S2P Require Import ScanEngine.
From S2P Require Import ScanHistory.
From S2P Require Import Store.
From S2P Require Import Lifecycle.
From S2P Require Import Concurrent.
From S2P Require Import ContentRefs.
From S2P Require Import Rbac.
From S2P Require Import RepositoryAccess.
From S2P Require Import IndexServe.
Import DoubleBraceUpdate.

(** ** State *)

Inductive DownloadActor : Type :=
  | DA_User (user_id : Uuid) (external_id : string)
  | DA_Anonymous.

Record ArtifactDownloaded : Type := {
  ad_artifact_id : Uuid;
  ad_repository_id : Uuid;
  ad_content_hash : ContentHash;
  ad_actor : DownloadActor;
  ad_occurred_at : DateTime;
}.

Record ServingWorld : Type := {
  content : World;
  (** [artifact_metadata.metadata]; the blob column is [metadata_blobs]. *)
  metadata_rows : gmap Uuid Value;
  (** The streams of [StreamCategory::DownloadAudit], in the order of the appends. *)
  download_audit : list ArtifactDownloaded;
}.

Abbreviation serve := (prog (RepositoryWorld * ServingWorld) AppError).

Definition on_content {A} (p : task A) : serve A :=
  on_part (λ s, content s.2) (λ w s, (s.1, s.2 {{ content := w }})) p.

(** What the database decides: the order of rows without [ORDER BY], and the order of
    rows with the same version. *)
Class ArtifactQueries `{RepositoryBackend} : Type := {
  scan_order : nat → list Artifact → list Artifact;
  scan_order_perm : ∀ n rows, scan_order n rows ≡ₚ rows;
  order_by_version : nat → list Artifact → list Artifact;
  order_by_version_perm : ∀ n rows, order_by_version n rows ≡ₚ rows;
  order_by_version_sorted : ∀ n rows,
    Sorted (λ a b, match Artifact.version a, Artifact.version b with
                   | Some a, Some b => collate_le a b = true
                   | _, None => True
                   | None, Some _ => False
                   end) (order_by_version n rows);
}.

(** Code of other crates: percent decoding, JSON text in the content store, and which
    texts are header values. *)
Class ServingCode : Type := {
  urlencoding_decode : string → option string;
  blob_json : ContentHash → option Value;
  header_value : string → bool;
}.

(** A list that stops at a cap and says so. *)
Record LimitedList (T : Type) : Type := {
  ll_items : list T;
  ll_truncated : bool;
}.
Arguments ll_items {T} _.
Arguments ll_truncated {T} _.

Definition LIMIT_LIST_MAX_ITEMS : Z := 10000.
Definition PER_PAGE_LIMIT : Z := 1000.

(** The loop of [iterate_pages_capped].  Every round but the last adds a row, so that
    [cap + 2] rounds are enough. *)
Fixpoint pages_loop {S T} (rounds : nat) (cap : Z) (fetch : PageRequest → prog S AppError (Page T))
    (acc : list T) (from : Z) : prog S AppError (LimitedList T) :=
  match rounds with
  | O => Done (Err (AE_Storage [Lit "unreachable"]))
  | S rounds' =>
      let want := cap - len acc + 1 in
      let limit := Z.min want PER_PAGE_LIMIT in
      page ← fetch (PageRequest_new from limit);
      let fetched := len (items page) in
      if fetched =? 0 then mret {| ll_items := acc; ll_truncated := false |}
      else
        let acc := acc ++ items page in
        if cap <? len acc then mret {| ll_items := take (Z.to_nat cap) acc; ll_truncated := true |}
        else if fetched <? limit then mret {| ll_items := acc; ll_truncated := false |}
        else pages_loop rounds' cap fetch acc (from + fetched)
  end.

Definition iterate_pages_capped {S T} (cap : Z) (fetch : PageRequest → prog S AppError (Page T))
    : prog S AppError (LimitedList T) :=
  pages_loop (Z.to_nat (cap + 2)) cap fetch [] 0.

Section reading.
Context `{RepositoryBackend, Backend, !ArtifactQueries, ServingCode} (auth : RbacAccess).
(** What the policy projections answer, call by call. *)
Context (ports : nat → Ports).

(** ** Queries *)

(** The [?] on the result of a port. *)
Definition ok {A} (p : task (DomainResult A)) : task A :=
  r ← p; Done (lift_domain r).

Definition select {A} (f : World → DomainResult A) : task (DomainResult A) :=
  query (λ w, (w, f w)).

Definition artifact_by_id (id : Uuid) : task (DomainResult Artifact) :=
  select (λ w, find_by_id (artifacts w) id).

(** The rows that are not deleted and match, as they are read back. *)
Definition live_rows (p : Artifact → bool) (db : Db) : list Artifact :=
  hydrate <$> filter (λ a, deleted_at a = None ∧ p a = true) (row <$> (map_to_list db).*2).

Definition first_row (p : Artifact → bool) : task (DomainResult (option Artifact)) :=
  select (λ w, Ok (head (scan_order (calls w) (live_rows p (artifacts w))))).

Definition find_by_path (repository : Uuid) (path : string) : task (DomainResult (option Artifact)) :=
  first_row (λ a, bool_decide (repository_id a = repository ∧ Artifact.path a = path)).

Definition find_by_repo_and_checksum (repository : Uuid) (sha256 : ContentHash)
    : task (DomainResult (option Artifact)) :=
  first_row (λ a, bool_decide (repository_id a = repository ∧ sha256_checksum a = sha256)).

(** [ORDER BY version OFFSET $3 LIMIT $4], then the count. *)
Definition version_page (p : Artifact → bool) (page : PageRequest) : task (Page Artifact) :=
  let offset := u64_as_i64 (offset page) in
  let limit := u64_as_i64 (limit page) in
  rows ← ok (select (λ w,
    if (offset <? 0) || (limit <? 0) then Err negative_row_count
    else Ok (take (Z.to_nat limit) (drop (Z.to_nat offset)
               (order_by_version (calls w) (live_rows p (artifacts w)))))));
  count ← ok (select (λ w, Ok (len (live_rows p (artifacts w)))));
  mret {| items := rows; total := count |}.

Definition find_by_name_in_repo (repository : Uuid) (name : string) : PageRequest → task (Page Artifact) :=
  version_page (λ a, bool_decide (repository_id a = repository ∧ Artifact.name a = name)).

Definition find_by_name_as_published (repository : Uuid) (raw : string)
    : PageRequest → task (Page Artifact) :=
  version_page (λ a, bool_decide (repository_id a = repository ∧ Artifact.name_as_published a = raw)).

(** The versioned rows of a package, each with its status and its anchor. *)
Definition package_version_anchors (repository : Uuid) (package : string)
    : task (list (string * QuarantineStatus * option DateTime)) :=
  ok (select (λ w, Ok (omap
    (λ a, v ← Artifact.version a; Some (v, quarantine_status a, quarantine_window_start a))
    (scan_order (calls w)
       (live_rows (λ a, bool_decide (repository_id a = repository ∧ Artifact.name a = package))
          (artifacts w)))))).

Definition package_version_status (repository : Uuid) (package : string)
    : task (list (string * QuarantineStatus)) :=
  ok (select (λ w, Ok (omap (λ a, v ← Artifact.version a; Some (v, quarantine_status a))
    (scan_order (calls w)
       (live_rows (λ a, bool_decide (repository_id a = repository ∧ Artifact.name a = package))
          (artifacts w)))))).

(** ** The clock, the streams and the policies *)

Definition now : task DateTime := port (λ w, (tick w, utc_now (calls w))).

Definition read_artifact_stream (id : Uuid) : task (list PersistedEvent) :=
  read ← ok (select (λ w, Ok (capped_artifact_read (artifacts w) id)));
  if over_cap read then Done (Err (over_cap_refusal id)) else mret (events read).

Definition active_policy (repository : Uuid) : task (option ScanPolicyProjection) :=
  r ← port (λ w, (tick w, resolve_active_policy_for_repo (ports (calls w)) repository));
  Done r.

(** ** The quarantine window *)

Definition read_path_provenance_clearance (id : Uuid) (mode : ProvenanceMode) : task ProvenanceClearance :=
  match mode with
  | PM_Off | PM_VerifyIfPresent => mret PC_NotRequired
  | PM_Required =>
      persisted ← read_artifact_stream id; mret (provenance_clearance_from persisted mode)
  end.

Record TransientHold : Type := {
  hold_deadline : DateTime;
  hold_indefinite : bool;
}.

Definition panicking {A} (o : option A) : task A :=
  match o with Some a => mret a | None => Done (Err (AE_Storage [Lit "panic"])) end.

Definition resolve_transient_hold (id : Uuid) (anchor : DateTime) (duration : Duration)
    (mode : ProvenanceMode) : task TransientHold :=
  deadline ← panicking (effective_quarantine_deadline anchor duration);
  t ← now;
  indefinite ← (if deadline <=? t then
                  c ← read_path_provenance_clearance id mode;
                  mret (bool_decide (c = PC_Pending))
                else mret false);
  mret {| hold_deadline := deadline; hold_indefinite := indefinite |}.

Definition resolve_quarantine_window (repository : Uuid)
    : task (Duration * option ScanPolicyProjection) :=
  policy ← active_policy repository;
  duration ← panicking (duration_seconds
    (policy_or quarantine_duration_secs DefaultPolicy.quarantine_duration_secs policy));
  mret (duration, policy).

Definition set_hold (deadline : option DateTime) (indefinite : bool) (a : Artifact) : Artifact :=
  set_deadline deadline a {{ provenance_hold_indefinite := indefinite }}.

(** Every failure leaves the reason unset. *)
Definition hydrate_rejection_reason (a : Artifact) : task Artifact :=
  r ← attempt (read_artifact_stream (artifact_id a));
  mret (match r with
        | Ok stream =>
            match last_rejection_reason stream with
            | Some reason => set_reason (Some reason) a
            | None => a
            end
        | Err _ => a
        end).

Definition hydrate_quarantine_deadline (a : Artifact) : task Artifact :=
  match quarantine_status a, quarantine_window_start a with
  | QS_Quarantined, Some anchor =>
      window ← resolve_quarantine_window (repository_id a);
      hold ← resolve_transient_hold (artifact_id a) anchor window.1 (provenance_mode_of window.2);
      mret (set_hold (Some (hold_deadline hold)) (hold_indefinite hold) a)
  | status, _ =>
      let a := set_hold None false a in
      if bool_decide (status = QS_Rejected) then hydrate_rejection_reason a else mret a
  end.

Definition package_hold_deadlines (repository : Uuid) (package : string)
    : task (gmap string DateTime) :=
  rows ← package_version_anchors repository package;
  let held := omap (λ '(version, status, anchor),
                      if bool_decide (status = QS_Quarantined)
                      then anchor ← anchor; Some (version, anchor) else None) rows in
  if is_empty held then mret ∅
  else
    window ← resolve_quarantine_window repository;
    deadlines ← panicking (mapM (λ '(version, anchor),
      d ← effective_quarantine_deadline anchor window.1; Some (version, d)) held);
    mret (list_to_map (reverse deadlines)).

(** ** Lookups *)

Definition get_by_id (id : Uuid) : task Artifact :=
  a ← ok (artifact_by_id id); hydrate_quarantine_deadline a.

Definition path_not_found (key path : string) : AppError :=
  AE_Domain (NotFound "Artifact" [ArgStr key; Lit ":"; ArgStr path]).

Definition find_visible_by_path (key path : string) (actor : option CallerPrincipal)
    : serve (Repository * Artifact) :=
  repo ← on_fst (resolve_key auth key actor AL_Read);
  row ← on_content (ok (find_by_path (repo_id repo) path));
  match row with
  | Some a => a ← on_content (hydrate_quarantine_deadline a); mret (repo, a)
  | None => Done (Err (path_not_found key path))
  end.

(** A repository that the caller cannot read hides its artifacts. *)
Definition find_visible_by_id (id : Uuid) (actor : option CallerPrincipal)
    : serve (Repository * Artifact) :=
  row ← on_content (artifact_by_id id);
  match row with
  | Err (NotFound _ _) => Done (Err (AE_Domain (not_found id)))
  | Err other => Done (Err (AE_Domain other))
  | Ok a =>
      repo ← attempt (on_fst (resolve_by_id auth (repository_id a) actor AL_Read));
      match repo with
      | Err (AE_Domain (NotFound _ _)) => Done (Err (AE_Domain (not_found id)))
      | Err other => Done (Err other)
      | Ok repo => a ← on_content (hydrate_quarantine_deadline a); mret (repo, a)
      end
  end.

Definition find_in_repo_by_hash (repository : Uuid) (hash : ContentHash) : task (option Artifact) :=
  row ← ok (find_by_repo_and_checksum repository hash);
  match row with
  | Some a => a ← hydrate_quarantine_deadline a; mret (Some a)
  | None => mret None
  end.

(** ** Listings *)

(** By the stored name, and by the name as published when no row has it. *)
Definition list_by_raw_name_limited (repository : Uuid) (normalize_name : string → string)
    (raw_name : string) : task (LimitedList Artifact) :=
  primary ← iterate_pages_capped LIMIT_LIST_MAX_ITEMS
              (find_by_name_in_repo repository (normalize_name raw_name));
  if negb (is_empty (ll_items primary)) then mret primary
  else iterate_pages_capped LIMIT_LIST_MAX_ITEMS (find_by_name_as_published repository raw_name).

Definition list_by_raw_name_visible (key : string) (normalize_name : string → string)
    (raw_name : string) (actor : option CallerPrincipal) : serve (Repository * LimitedList Artifact) :=
  repo ← on_fst (resolve_key auth key actor AL_Read);
  rows ← on_content (list_by_raw_name_limited (repo_id repo) normalize_name raw_name);
  mret (repo, rows).

(** ** Bytes *)

Definition storage_get (hash : ContentHash) : task (DomainResult ContentHash) :=
  on_storage (λ w, (w, if decide (hash ∈ storage w) then Ok hash
                       else Err (NotFound "content" [ArgStr hash]))).

(** The error of the content store as text. *)
Definition storage_error {A} (p : task (DomainResult A)) : task A :=
  r ← p; Done (map_err (λ e, AE_Storage (DomainError_display e)) r).

Definition not_downloadable (id : Uuid) (status : QuarantineStatus) : AppError :=
  AE_Domain (Forbidden [Lit "artifact "; ArgUuid id; Lit " is not downloadable (status: ";
                        ArgStr (display status); Lit ")"]).

Definition download_actor (actor : option CallerPrincipal) : DownloadActor :=
  match actor with
  | Some p => DA_User (cp_user_id p) (cp_external_id p)
  | None => DA_Anonymous
  end.

(** The append of an audit event; its failure is not the reader's. *)
Definition append_audit (event : ArtifactDownloaded) : serve () :=
  port (λ s,
    let w := content s.2 in
    let s' := s.2 {{ content := tick w }} in
    ((s.1, match db_fault (calls w) with
           | Some _ => s'
           | None => s' {{ download_audit ::= λ l, l ++ [event] }}
           end), ())).

(** [download]: the row and the hash whose bytes are streamed. *)
Definition download (id : Uuid) (actor : option CallerPrincipal) : serve (Artifact * ContentHash) :=
  a ← on_content (ok (artifact_by_id id));
  repository ← on_fst (repo_find_by_id (repository_id a));
  if negb (is_downloadable a) then Done (Err (not_downloadable id (quarantine_status a)))
  else
    stream ← on_content (storage_error (storage_get (sha256_checksum a)));
    _ ← match repository with
        | Ok repo =>
            if download_audit_enabled repo then
              t ← on_content now;
              append_audit {| ad_artifact_id := artifact_id a; ad_repository_id := repo_id repo;
                              ad_content_hash := sha256_checksum a;
                              ad_actor := download_actor actor; ad_occurred_at := t |}
            else mret ()
        | Err _ => mret ()
        end;
    mret (a, stream).

Inductive ByteRange : Type :=
  | BR_Inclusive (start end_ : Z)
  | BR_From (start : Z)
  | BR_Suffix (last : Z).

Definition download_range (id : Uuid) (range : ByteRange) : task (Artifact * (ContentHash * ByteRange)) :=
  a ← ok (artifact_by_id id);
  if negb (is_downloadable a) then Done (Err (not_downloadable id (quarantine_status a)))
  else
    stream ← storage_error (storage_get (sha256_checksum a));
    mret (a, (stream, range)).

(** A held manifest, for a caller who may write to the repository. *)
Definition download_hold_read (id : Uuid) : task (Artifact * ContentHash) :=
  a ← ok (artifact_by_id id);
  if negb (bool_decide (quarantine_status a = QS_Quarantined)) then
    Done (Err (AE_Domain (Forbidden
      [Lit "artifact "; ArgUuid id; Lit " is not a held manifest hold-read (status: ";
       ArgStr (display (quarantine_status a)); Lit ")"])))
  else
    stream ← storage_error (storage_get (sha256_checksum a));
    mret (a, stream).
End reading.
