(* ===== verification/NpmRoutes.v ===== *)
(** The npm routes that serve bytes, and the index of a hosted repository: the status
    gate of crates/hort-http-core/src/artifact_gate.rs, [serve_tarball] and what it
    calls in crates/hort-http-npm/src/lib.rs, the answers of upstream_pull.rs to a pull
    that failed, [HostedNpmSource] of index_source.rs with the manifest keys of
    crates/hort-formats/src/npm.rs and the tags of
    crates/hort-app/src/use_cases/ref_use_case.rs.

    A response keeps its status, the headers a client acts on and its body; a streamed
    body is the hash it is read from.  The pull from an upstream and the index of a
    proxy are parameters. *)

From Stdlib Require Import Ascii.
From coqutil Require Import Datatypes.RecordSetters.
From S2P Require Import Prelude.
From S2P Require Import RustStd.
From S2P Require Import Json.
From S2P Require Import Types.
From S2P Require Import Events.
From S2P Require Import QuarantineTransitions.
From S2P Require Import Artifact.
From S2P Require Import Store.
From S2P Require Import Lifecycle.
From S2P Require Import Concurrent.
From S2P Require Import ContentRefs.
From S2P Require Import Rbac.
From S2P Require Import RepositoryAccess.
From S2P Require Import IndexServe.
From S2P Require Import Downloads.
Import DoubleBraceUpdate.

Local Open Scope string_scope.

(** ** Responses *)

Inductive Body : Type :=
  | B_Json (v : Value)
  | B_Stream (hash : ContentHash).

Record Response : Type := {
  code : Z;
  headers : list (string * fmt);
  body : Body;
}.

Definition json_error (text : string) : Body := B_Json (VObject [("error", VString text)]).

Inductive UpstreamPullError : Type :=
  | NoUpstream
  | UpstreamUnavailable (cause : string)
  | MetadataMalformed (cause : string)
  | TarballUrlInvalid (cause : string)
  | FilenameMismatch (expected actual : string)
  | ChecksumMismatch
  | CurationBlocked
  | IngestFailed (cause : string)
  | Internal (cause : string).

Definition reply (code : Z) (reason : option string) (text : string) : Response :=
  {| code := code;
     headers := [("Content-Type", [ArgStr "application/json"])] ++
                match reason with Some r => [("X-Hort-Reason", [ArgStr r])] | None => [] end;
     body := json_error text |}.

Definition map_upstream_pull_error (e : UpstreamPullError) : Response :=
  match e with
  | NoUpstream | CurationBlocked => reply 404 None "package not found"
  | UpstreamUnavailable _ => reply 502 (Some "upstream-unavailable") "upstream unavailable"
  | MetadataMalformed _ | TarballUrlInvalid _ =>
      reply 502 (Some "upstream-metadata-malformed") "upstream metadata invalid"
  | FilenameMismatch _ _ =>
      reply 502 (Some "upstream-filename-mismatch") "upstream tarball filename mismatch"
  | ChecksumMismatch => reply 502 (Some "upstream-checksum-mismatch") "upstream tampering detected"
  | IngestFailed _ => reply 500 None "ingest failed"
  | Internal _ => reply 500 None "internal error"
  end.

(** ** Names *)

(** What follows the last slash. *)
Fixpoint after_last_slash (s : string) : option string :=
  match s with
  | EmptyString => None
  | String c s' =>
      match after_last_slash s' with
      | Some t => Some t
      | None => if bool_decide (c = "/"%char) then Some s' else None
      end
  end.

Definition unscoped_basename (pkg_name : string) : string :=
  default pkg_name (after_last_slash pkg_name).

Fixpoint str_strip_prefix (p s : string) : option string :=
  match p, s with
  | EmptyString, _ => Some s
  | String a p', String b s' => if bool_decide (a = b) then str_strip_prefix p' s' else None
  | String _ _, EmptyString => None
  end.

Fixpoint str_strip_suffix (q s : string) : option string :=
  if bool_decide (s = q) then Some EmptyString
  else match s with
       | EmptyString => None
       | String c s' => String c <$> str_strip_suffix q s'
       end.

Definition extract_version (filename basename : string) : option string :=
  rest ← str_strip_prefix (basename ++ "-") filename;
  stripped ← str_strip_suffix ".tgz" rest;
  if bool_decide (stripped = EmptyString) then None else Some stripped.

Definition NPM_INSTALL_V1_MANIFEST_KEYS : list string :=
  ["dependencies"; "optionalDependencies"; "peerDependencies"; "peerDependenciesMeta";
   "bundledDependencies"; "bin"; "directories"; "engines"; "os"; "cpu"; "libc"; "deprecated";
   "hasInstallScript"; "funding"].

Definition extract_install_v1_manifest (block : Value) : list (string * Value) :=
  match as_object block with
  | None => []
  | Some obj =>
      foldl (λ out key, match map_get key obj with
                        | Some v => map_insert key v out
                        | None => out
                        end) [] NPM_INSTALL_V1_MANIFEST_KEYS
  end.

Definition DEFAULT_QUARANTINE_RETRY_AFTER_SECS : Z := 3600.
Definition REF_LIST_MAX : Z := 1000.
Definition DEFAULT_LIST_LIMIT : Z := 100.
Definition MAX_LIST_LIMIT : Z := 1000.

Definition effective_limit (n : Z) : Z :=
  Z.max 1 (Z.min (if (n =? 0)%Z then DEFAULT_LIST_LIMIT else n) MAX_LIST_LIMIT).

Section routes.
Context `{RepositoryBackend, Backend, !ArtifactQueries, ServingCode} (auth : RbacAccess).
Context (ports : nat → Ports) (retry_after_floor_secs : Z).

Definition normalize_name (name : string) : string := default name (urlencoding_decode name).

(** ** The gate *)

(** No header for a hold that only an external event ends. *)
Definition quarantine_retry_after_seconds (a : Artifact) : task (option Z) :=
  if provenance_hold_indefinite a then mret None
  else
    match quarantine_deadline a with
    | Some deadline =>
        t ← now;
        mret (Some (Z.max (num_seconds (signed_duration_since deadline t)) retry_after_floor_secs))
    | None => mret (Some DEFAULT_QUARANTINE_RETRY_AFTER_SECS)
    end.

Definition rejected_response (a : Artifact) : Response :=
  {| code := 403; headers := [];
     body := B_Json (VObject (match rejection_reason a with
                              | Some reason => [("axis", VString (wire_kind reason));
                                                ("error", VString "artifact is rejected")]
                              | None => [("error", VString "artifact is rejected")]
                              end)) |}.

Definition non_servable_response (a : Artifact) : task (option Response) :=
  match quarantine_status a with
  | QS_Quarantined =>
      secs ← quarantine_retry_after_seconds a;
      mret (Some {| code := 503;
                    headers := match secs with
                               | Some secs => [("Retry-After", [ArgInt secs])]
                               | None => []
                               end;
                    body := json_error "artifact is quarantined" |})
  | QS_Rejected => mret (Some (rejected_response a))
  | QS_ScanIndeterminate =>
      mret (Some {| code := 403; headers := []; body := json_error "artifact scan is indeterminate" |})
  | QS_None | QS_Released => mret None
  end.

Definition render_artifact_response (a : Artifact) (actor : option CallerPrincipal) : serve Response :=
  blocked ← on_content (non_servable_response a);
  match blocked with
  | Some blocked => mret blocked
  | None =>
      served ← download (artifact_id a) actor;
      mret {| code := 200;
              headers := [("Content-Type",
                            [ArgStr (if header_value (content_type a) then content_type a
                                     else "application/octet-stream")]);
                          ("Content-Length", [ArgInt (size_bytes a)])];
              body := B_Stream served.2 |}
  end.

(** ** The index of a hosted repository *)

Definition list_by_artifact_ids (ids : list Uuid)
    : serve (DomainResult (gmap Uuid (Value * option ContentHash))) :=
  port (λ s,
    let w := content s.2 in
    ((s.1, s.2 {{ content := tick w }}),
     match db_fault (calls w) with
     | Some e => Err e
     | None => Ok (map_imap (λ id v, if bool_decide (id ∈ ids) then Some (v, metadata_blobs w !! id)
                                     else None) (metadata_rows s.2))
     end)).

Definition batch_metadata (ids : list Uuid) : serve (gmap Uuid (Value * option ContentHash)) :=
  if is_empty ids then mret ∅
  else r ← list_by_artifact_ids ids; Done (lift_domain r).

Definition load_full_metadata (row : Value * option ContentHash) : task Value :=
  match row.2 with
  | None => mret row.1
  | Some hash =>
      _ ← storage_error (storage_get hash);
      match blob_json hash with
      | Some v => mret v
      | None => Done (Err (AE_Storage [Lit "metadata blob deserialisation failed"]))
      end
  end.

Definition with_manifest (m : list (string * Value)) (e : VersionEntry) : VersionEntry :=
  match payload e with
  | PV_Npm p => e {{ payload := PV_Npm (p {{ manifest := m }}) }}
  | _ => e
  end.

Fixpoint hydrate_entries (metadata : gmap Uuid (Value * option ContentHash))
    (es : list (Uuid * VersionEntry)) : task (list VersionEntry) :=
  match es with
  | [] => mret []
  | (id, e) :: es' =>
      e ← match metadata !! id with
          | None => mret e
          | Some row =>
              block ← load_full_metadata row;
              mret (with_manifest (extract_install_v1_manifest block) e)
          end;
      es ← hydrate_entries metadata es';
      mret (e :: es)
  end.

Definition hydrate_hosted_manifests (es : list (Uuid * VersionEntry)) : serve (list VersionEntry) :=
  metadata ← batch_metadata es.*1;
  on_content (hydrate_entries metadata es).

(** [RefUseCase::list] from the first name on. *)
Definition ref_list (repository : Uuid) (namespace : string) (n : Z) : task (list MutableRef) :=
  all ← ok (select (λ w, Ok (filter (λ r, mr_repository_id r = repository ∧ mr_namespace r = namespace)
                               (mutable_refs w))));
  let all := sort_by (λ a b, str_leb (mr_ref_name a) (mr_ref_name b)) all in
  mret (take (Z.to_nat (effective_limit n)) all).

Definition read_hosted_dist_tags (repo : Repository) (package : string) : task Tags :=
  page ← ref_list (repo_id repo) package REF_LIST_MAX;
  mret (list_to_map (reverse (omap (λ r, match mr_target r with
                                         | RT_Version version => Some (mr_ref_name r, version)
                                         | RT_ContentHash _ => None
                                         end) page))).

Definition hosted_entry (a : Artifact) : option (Uuid * VersionEntry) :=
  version ← Artifact.version a;
  Some (artifact_id a,
        {| version := version; status := Some (quarantine_status a);
           payload := PV_Npm {| name_as_published := Artifact.name a;
                                tarball_basename := default (path a) (after_last_slash (path a));
                                integrity := None; shasum := default "" (sha1_checksum a);
                                manifest := [] |} |}).

Definition HostedNpmSource (repo : Repository) (package_name : string)
    (caller : option CallerPrincipal) : serve IndexSourceOutput :=
  listed ← list_by_raw_name_visible auth (repo_key repo) normalize_name package_name caller;
  let rows := ll_items listed.2 in
  let canonical_name := match rows with a :: _ => Artifact.name a | [] => package_name end in
  entries ← hydrate_hosted_manifests (omap hosted_entry rows);
  dist_tags ← (if is_empty entries then mret ∅
               else on_content (read_hosted_dist_tags repo canonical_name));
  mret {| src_entries := entries; truncated := ll_truncated listed.2;
          canonical_name := canonical_name; src_dist_tags := dist_tags |}.

(** ** Tarballs *)

(** The pull of one tarball, and the index of a proxy. *)
Context (try_upstream_tarball_pull :
  Repository → string → string → string → serve (result UpstreamPullError ())).
Context (ProxyNpmSource : Repository → string → option CallerPrincipal → serve IndexSourceOutput).

Inductive VirtualMemberDownload : Type :=
  | VMD_Found (a : Artifact)
  | VMD_Rendered (r : Response).

Definition npm_member_name_presence (pkg_name : string) (actor : option CallerPrincipal)
    (member : Repository) : prog (RepositoryWorld * ServingWorld) Empty_set MemberNamePresence :=
  conclude (λ r, match r with
                 | Ok out => if is_empty (src_entries out) then NP_Absent else NP_Present
                 | Err (AE_Domain (NotFound _ _)) => NP_Absent
                 | Err _ => NP_Unavailable
                 end)
    (select_source auth HostedNpmSource ProxyNpmSource 1 member pkg_name actor).

Definition npm_member_coord_fetch (pkg_name artifact_path filename : string)
    (actor : option CallerPrincipal) (member : Repository) : serve (option VirtualMemberDownload) :=
  r ← attempt (find_visible_by_path auth ports (repo_key member) artifact_path actor);
  match r with
  | Ok (_, a) => mret (Some (VMD_Found a))
  | Err (AE_Domain (NotFound entity _)) =>
      if negb (bool_decide (entity = "Artifact")) then mret None
      else if negb (bool_decide (repo_type member = Proxy)) then mret None
      else
        match extract_version filename (unscoped_basename pkg_name) with
        | None => mret None
        | Some version =>
            pulled ← try_upstream_tarball_pull member pkg_name version filename;
            match pulled with
            | Ok _ =>
                found ← find_visible_by_path auth ports (repo_key member) artifact_path actor;
                mret (Some (VMD_Found found.2))
            | Err (NoUpstream | CurationBlocked) => mret None
            | Err e => mret (Some (VMD_Rendered (map_upstream_pull_error e)))
            end
        end
  | Err other => Done (Err other)
  end.

Definition serve_virtual_tarball (virtual_repo : Repository) (pkg_name artifact_path filename : string)
    (actor : option CallerPrincipal) : serve Response :=
  resolved ← resolve_download auth virtual_repo actor (npm_member_name_presence pkg_name actor)
               (npm_member_coord_fetch pkg_name artifact_path filename actor);
  match resolved with
  | Some (VMD_Found a) => render_artifact_response a actor
  | Some (VMD_Rendered r) => mret r
  | None => Done (Err (path_not_found (repo_key virtual_repo) artifact_path))
  end.

Definition serve_tarball (repo_key pkg_name filename : string) (actor : option CallerPrincipal)
    : serve Response :=
  let artifact_path := pkg_name ++ "/-/" ++ filename in
  r ← attempt (find_visible_by_path auth ports repo_key artifact_path actor);
  match r with
  | Ok (_, a) => render_artifact_response a actor
  | Err (AE_Domain (NotFound entity id)) =>
      if negb (bool_decide (entity = "Artifact")) then Done (Err (AE_Domain (NotFound entity id)))
      else
        repo ← on_fst (resolve_key auth repo_key actor AL_Read);
        match repo_type repo with
        | Proxy =>
            match extract_version filename (unscoped_basename pkg_name) with
            | None => Done (Err (path_not_found repo_key artifact_path))
            | Some version =>
                pulled ← try_upstream_tarball_pull repo pkg_name version filename;
                match pulled with
                | Ok _ =>
                    found ← find_visible_by_path auth ports repo_key artifact_path actor;
                    render_artifact_response found.2 actor
                | Err e => mret (map_upstream_pull_error e)
                end
            end
        | Virtual => serve_virtual_tarball repo pkg_name artifact_path filename actor
        | Hosted | Staging => Done (Err (path_not_found repo_key artifact_path))
        end
  | Err other => Done (Err other)
  end.
End routes.
