(* ===== verification/DownloadSafety.v ===== *)
(** What the read paths of Downloads.v and NpmRoutes.v promise: listings by pages are
    complete up to the cap, bytes are served only while the artifact is in service and
    from a repository the caller can read, what an index lists can be downloaded, and
    audited downloads leave one event. *)

From Stdlib Require Import Ascii.
From coqutil Require Import Datatypes.RecordSetters.
From S2P Require Import Prelude.
From S2P Require Import RustStd.
From S2P Require Import Json.
From S2P Require Import Types.
From S2P Require Import Events.
From S2P Require Import QuarantineTransitions.
From S2P Require Import Artifact.
From S2P Require Import ScanPolicyFold.
From S2P Require Import ScanEngine.
From S2P Require Import ScanHistory.
From S2P Require Import Store.
From S2P Require Import Lifecycle.
From S2P Require Import Concurrent.
From S2P Require Import ContentRefs.
From S2P Require Import Rbac.
From S2P Require Import RepositoryAccess.
From S2P Require Import IndexServe.
From S2P Require Import IndexSafety.
From S2P Require Import Downloads.
From S2P Require Import NpmRoutes.
Import DoubleBraceUpdate.

(** ** Pages *)

Section pages.
Context {S T : Type}.
Implicit Types (fetch : PageRequest → prog S AppError (Page T)) (acc l : list T).

(** How many rounds may follow: each adds a row. *)
Definition enough (rounds : nat) (cap : Z) (acc : list T) : Prop :=
  len acc ≤ cap ∧ cap - len acc + 2 ≤ Z.of_nat rounds.

(** The fetch serves the pages of [l], whatever the state. *)
Definition serves_pages fetch l : Prop :=
  ∀ page s, 0 ≤ offset page → 0 ≤ limit page →
    ∃ count, (run (fetch page) s).2 =
      Ok {| items := take (Z.to_nat (limit page)) (drop (Z.to_nat (offset page)) l); total := count |}.

Lemma pages_loop_stable n1 n2 cap fetch acc from :
  enough n1 cap acc → enough n2 cap acc →
  ∀ s, run (pages_loop n1 cap fetch acc from) s = run (pages_loop n2 cap fetch acc from) s.
Proof.
  revert n2 acc from. induction n1 as [|n1 IH]; intros n2 acc from [Ha Hn1] [_ Hn2] s; [lia|].
  destruct n2 as [|n2]; [lia|]. cbn [pages_loop]. rewrite !run_bind.
  destruct (run (fetch _) s) as [s' [page|e]]; [| done].
  destruct (Z.eqb_spec (len (items page)) 0) as [| Hne]; [done|].
  destruct (Z.ltb_spec cap (len (acc ++ items page))) as [| Hle]; [done|].
  destruct (_ <? _); [done|]. unfold len in *. rewrite length_app in *.
  apply IH; split; unfold len; rewrite length_app; lia.
Qed.

Lemma pages_loop_exact rounds cap fetch l acc rest s :
  serves_pages fetch l → l = acc ++ rest → enough rounds cap acc →
  (run (pages_loop rounds cap fetch acc (len acc)) s).2 =
    Ok {| ll_items := take (Z.to_nat cap) l; ll_truncated := cap <? len l |}.
Proof.
  intros Hserves. revert acc rest s. induction rounds as [|rounds IH]; intros acc rest s Hl [Ha Hn]; [lia|].
  cbn [pages_loop]. set (lim := Z.min (cap - len acc + 1) PER_PAGE_LIMIT).
  assert (0 < lim ≤ PER_PAGE_LIMIT) as Hlim by (unfold lim, PER_PAGE_LIMIT; lia).
  destruct (Hserves (PageRequest_new (len acc) lim) s) as [count Hpage].
  { unfold len. cbn. lia. } { cbn. unfold MAX_LIMIT. lia. }
  rewrite run_bind. destruct (run (fetch _) s) as [s' r].
  unfold PageRequest_new in Hpage. cbn [snd offset limit] in Hpage. subst r. cbn [items].
  rewrite Z.min_l by (unfold MAX_LIMIT; unfold PER_PAGE_LIMIT in Hlim; lia).
  replace (Z.to_nat (len acc)) with (length acc) by (unfold len; lia).
  rewrite Hl, drop_app_length.
  set (page := take (Z.to_nat lim) rest).
  assert (len page = Z.min lim (len rest)) as Hpl.
  { unfold page, len. rewrite length_take. lia. }
  assert (len (acc ++ rest) = len acc + len rest) as Hlen.
  { unfold len. rewrite length_app. lia. }
  destruct (Z.eqb_spec (len page) 0) as [H0 | Hne].
  { cbn. assert (rest = []) as ->. { apply length_zero_iff_nil. unfold len in *. lia. }
    rewrite app_nil_r, take_ge by (unfold len in *; lia).
    f_equal. f_equal. symmetry. apply Z.ltb_ge. lia. }
  assert (len (acc ++ page) = len acc + len page) as Hlen'.
  { unfold len. rewrite length_app. lia. }
  assert (acc ++ rest = (acc ++ page) ++ drop (Z.to_nat lim) rest) as Hsplit.
  { unfold page. by rewrite <- app_assoc, take_drop. }
  destruct (Z.ltb_spec cap (len (acc ++ page))) as [Hgt | Hle].
  { cbn. f_equal. f_equal.
    - rewrite Hsplit, (take_app_le (acc ++ page)) by (unfold len in *; lia). done.
    - symmetry. apply Z.ltb_lt. lia. }
  destruct (Z.ltb_spec (len page) lim) as [Hlt | Hge].
  { cbn. assert (page = rest) as -> by (apply take_ge; unfold len in *; lia).
    rewrite take_ge by (unfold len in *; lia). f_equal. f_equal. symmetry. apply Z.ltb_ge. lia. }
  rewrite <- Hlen', <- Hl. apply (IH _ (drop (Z.to_nat lim) rest)); [by rewrite Hl, Hsplit |].
  split; lia.
Qed.

(** A listing by pages ends: more rounds change nothing.  When every page is cut from
    the same rows it returns those rows up to the cap, none twice and none missing, and
    says whether there are more. *)
Theorem page_listings_are_exact cap fetch :
  0 ≤ cap →
  (∀ rounds s, cap + 2 ≤ Z.of_nat rounds →
     run (pages_loop rounds cap fetch [] 0) s = run (iterate_pages_capped cap fetch) s) ∧
  (∀ l s, serves_pages fetch l →
     (run (iterate_pages_capped cap fetch) s).2 =
       Ok {| ll_items := take (Z.to_nat cap) l; ll_truncated := cap <? len l |}).
Proof.
  intros Hcap. split.
  - intros rounds s Hrounds. apply pages_loop_stable; split; unfold len; cbn [length]; lia.
  - intros l s Hserves. apply (pages_loop_exact _ _ _ l [] l); [done | done |]. split; unfold len; cbn [length]; lia.
Qed.
End pages.

(** ** What a handler has seen *)

Lemma observes_Done {S E A} (r r' : result E A) (seen : list S) :
  observes (Done r) seen r' → seen = [] ∧ r' = r.
Proof. by inversion 1. Qed.

Lemma observes_run {S E A} (p : prog S E A) s r : observes p [s] r → (run p s).2 = r.
Proof.
  intros Hobs. inversion Hobs as [| ? ? s' p' ? ? Hs Hobs']; subst. inversion Hobs'; subst.
  cbn. by rewrite Hs.
Qed.

Lemma fmap_one {A B} (f : A → B) l y : f <$> l = [y] → ∃ x, l = [x] ∧ y = f x.
Proof. destruct l as [|x [|]]; intros [=]. by exists x. Qed.

Lemma observes_bind_Ok {S E A B} (p : prog S E A) (f : A → prog S E B) seen b :
  observes (p ≫= f) seen (Ok b) →
  ∃ a seen1 seen2, seen = seen1 ++ seen2 ∧ observes p seen1 (Ok a) ∧ observes (f a) seen2 (Ok b).
Proof. intros [(e & [=] & _) | H]%observes_bind. exact H. Qed.

(** Splits an observation of a sequence that succeeded. *)
Ltac obs_bind H a seen1 seen2 Ha :=
  let Heq := fresh in
  apply observes_bind_Ok in H as (a & seen1 & seen2 & Heq & Ha & H); subst.

Ltac obs_done H :=
  apply observes_Done in H as [? H]; simplify_eq.

Section seen.
Context `{RepositoryBackend, Backend, !ArtifactQueries, ServingCode} (auth : RbacAccess).
Context (ports : nat → Ports) (floor : Z).
Implicit Types (s : RepositoryWorld * ServingWorld) (actor : option CallerPrincipal).

Lemma observes_on_content {A} (p : task A) seen r :
  observes (on_content p) seen r → observes p ((λ s, content s.2) <$> seen) r.
Proof. apply observes_on_part. Qed.

Lemma observes_select {A} (f : World → DomainResult A) seen a :
  observes (ok (select f)) seen (Ok a) → ∃ w, seen = [w] ∧ f (tick w) = Ok a.
Proof.
  unfold ok. intros Hobs. obs_bind Hobs r seen1 seen2 Hr.
  apply observes_port in Hr as (w & -> & [= ->]). obs_done Hobs. exists w. split; [done|].
  unfold on_db in Hobs. destruct (db_fault _); [done|]. cbn in *. by destruct (f _); simplify_eq/=.
Qed.

Lemma observes_on_select {A} (f : World → DomainResult A) seen a :
  observes (on_content (ok (select f))) seen (Ok a) →
  ∃ s, seen = [s] ∧ f (tick (content s.2)) = Ok a.
Proof.
  intros (w & (s & -> & ->)%fmap_one & Hf)%observes_on_content%observes_select. by exists s.
Qed.

(** The caller can read the repository of that key. *)
Definition sees actor (key : string) (r : Repository) s : Prop :=
  r ∈ repositories s.1 ∧ repo_key r = key ∧ can_see auth r actor = true.

Lemma observes_resolve_key key actor seen r :
  observes (on_fst (resolve_key auth key actor AL_Read)) seen (Ok r) →
  ∃ s, seen = [s] ∧ sees actor key r s.
Proof.
  intros Hobs%observes_on_fst.
  assert (∃ w, seen.*1 = [w]) as [w Hw].
  { unfold resolve_key, load_by_key in Hobs. obs_bind Hobs x seen1 seen2 Hx. obs_done Hobs.
    obs_bind Hx y seen3 seen4 Hy. apply observes_port in Hy as (w & -> & [= ->]).
    exists w. destruct (match repo_fault _ with Some _ => _ | None => _ end) as [?|[]];
      by obs_done Hx. }
  apply fmap_one in Hw as (s & -> & ->). exists s. split; [done|].
  apply observes_run in Hobs. rewrite run_resolve_key in Hobs.
  destruct (repo_fault _) as [[]|]; simplify_eq.
  destruct (filter _ _) as [|r' l] eqn:Hf; [done|].
  assert (r' ∈ filter (λ r, bool_decide (repo_key r = key)) (repositories s.1)) as Hr'.
  { rewrite Hf. by left. }
  apply list_elem_of_filter in Hr' as [Hk%bool_decide_unpack Hin].
  rewrite enforce_spec in Hobs. destruct (can_see auth r' actor) eqn:Hsee; simplify_eq. done.
Qed.

Lemma live_rows_elem p db a :
  a ∈ live_rows p db ↔
  ∃ id e, db !! id = Some e ∧ deleted_at (row e) = None ∧ p (row e) = true ∧ a = hydrate (row e).
Proof.
  unfold live_rows. rewrite list_elem_of_fmap. setoid_rewrite list_elem_of_filter.
  setoid_rewrite list_elem_of_fmap. setoid_rewrite list_elem_of_fmap. split.
  - intros (b & -> & [Hd Hp] & e & -> & [id e'] & -> & He%elem_of_map_to_list). by exists id, e'.
  - intros (id & e & He & Hd & Hp & ->). exists (row e). split_and!; [done..|].
    exists e. split; [done|]. exists (id, e). split; [done|]. by apply elem_of_map_to_list.
Qed.

(** A row of the repository has the path. *)
Definition holds_path (repository : Uuid) (path : string) (id : Uuid) s : Prop :=
  ∃ k e, artifacts (content s.2) !! k = Some e ∧ artifact_id (row e) = id ∧
    deleted_at (row e) = None ∧ repository_id (row e) = repository ∧ Artifact.path (row e) = path.

Lemma observes_find_by_path repository path seen a :
  observes (on_content (ok (find_by_path repository path))) seen (Ok (Some a)) →
  ∃ s, seen = [s] ∧ holds_path repository path (artifact_id a) s.
Proof.
  intros (s & -> & [= Ha])%observes_on_select. exists s. split; [done|].
  assert (a ∈ live_rows (λ a, bool_decide (repository_id a = repository ∧ Artifact.path a = path))
                (artifacts (content s.2))) as Hin.
  { rewrite <- (scan_order_perm (Datatypes.S (calls (content s.2)))).
    by apply head_Some_elem_of. }
  apply live_rows_elem in Hin as (k & e & He & Hd & [Hr Hp]%bool_decide_eq_true & ->).
  by exists k, e.
Qed.

Lemma observes_hydrate a seen a' :
  observes (hydrate_quarantine_deadline ports a) seen (Ok a') → artifact_id a' = artifact_id a.
Proof.
  unfold hydrate_quarantine_deadline. intros Hobs.
  destruct (decide (quarantine_status a = QS_Quarantined ∧ is_Some (quarantine_window_start a)))
    as [[Hq [anchor Ha]] | Hn].
  - rewrite Hq, Ha in Hobs. obs_bind Hobs window seen1 seen2 Hw. obs_bind Hobs hold seen3 seen4 Hh.
    by obs_done Hobs.
  - assert (observes (if bool_decide (quarantine_status a = QS_Rejected)
                      then hydrate_rejection_reason (set_hold None false a)
                      else mret (set_hold None false a)) seen (Ok a')) as Hobs'.
    { destruct (quarantine_status a), (quarantine_window_start a) eqn:?; try done. naive_solver. }
    clear Hobs. case_bool_decide; [| by obs_done Hobs'].
    unfold hydrate_rejection_reason in Hobs'. obs_bind Hobs' r seen1 seen2 Hr. obs_done Hobs'.
    destruct r; [by case_match | done].
Qed.

(** ** Bytes in service *)

(** The artifact is in service, with these bytes. *)
Definition in_service (id : Uuid) (hash : ContentHash) s : Prop :=
  ∃ e, artifacts (content s.2) !! id = Some e ∧ is_downloadable (row e) = true ∧
    sha256_checksum (row e) = hash.

Definition has_blob (hash : ContentHash) s : Prop := hash ∈ storage (content s.2).

Lemma observes_storage_get hash seen h :
  observes (on_content (storage_error (storage_get hash))) seen (Ok h) →
  ∃ s, seen = [s] ∧ h = hash ∧ has_blob hash s.
Proof.
  intros Hobs%observes_on_content. unfold storage_error in Hobs.
  apply observes_bind_Ok in Hobs as (r & seen1 & seen2 & Heq & Hr & Hobs).
  apply observes_port in Hr as (w & -> & [= ->]). apply observes_Done in Hobs as [-> Hobs].
  apply fmap_one in Heq as (s & -> & ->). exists s. split; [done|].
  destruct (storage_fault _); [done|]. cbn in *. by case_decide; simplify_eq/=.
Qed.

Lemma observes_download id actor seen a hash :
  observes (download id actor) seen (Ok (a, hash)) →
  ∃ s1 s2 s3 rest, seen = s1 :: s2 :: s3 :: rest ∧ in_service id hash s1 ∧ has_blob hash s3.
Proof.
  unfold download. intros Hobs. obs_bind Hobs a1 seen1 seen2 Ha.
  apply observes_on_select in Ha as (s1 & -> & Ha).
  obs_bind Hobs repo seen3 seen4 Hr.
  apply observes_on_fst, observes_port in Hr as (w2 & (s2 & -> & ->)%fmap_one & _).
  destruct (is_downloadable a1) eqn:Hd; cbn [negb] in Hobs; [| by obs_done Hobs].
  obs_bind Hobs got seen5 seen6 Hs. obs_bind Hobs u seen7 seen8 Hu. obs_done Hobs.
  apply observes_storage_get in Hs as (s3 & -> & -> & Hs).
  exists s1, s2, s3, (seen7 ++ []). split_and!; [done | | done].
  change (artifacts (tick ?w)) with (artifacts w) in Ha. unfold find_by_id in Ha.
  destruct (artifacts (content s1.2) !! id) as [e|] eqn:He; [| done].
  destruct (is_some (deleted_at (row e))) eqn:Hdel; simplify_eq. by exists e.
Qed.

(** A read of the path that found the row [id]. *)
Definition found_at actor (key path : string) (id : Uuid)
    (seen : list (RepositoryWorld * ServingWorld)) : Prop :=
  ∃ r s1 s2, [s1; s2] `sublist_of` seen ∧ sees actor key r s1 ∧ holds_path (repo_id r) path id s2.

(** The read of a path, and later the bytes of the row it found. *)
Definition serves_path actor (key path : string) (hash : ContentHash)
    (seen : list (RepositoryWorld * ServingWorld)) : Prop :=
  ∃ r id s1 s2 s3 s4, [s1; s2; s3; s4] `sublist_of` seen ∧
    sees actor key r s1 ∧ holds_path (repo_id r) path id s2 ∧ in_service id hash s3 ∧ has_blob hash s4.

Lemma observes_find_visible key path actor seen repo a :
  observes (find_visible_by_path auth ports key path actor) seen (Ok (repo, a)) →
  found_at actor key path (artifact_id a) seen.
Proof.
  unfold find_visible_by_path. intros Hobs. obs_bind Hobs r seen1 seen2 Hr.
  apply observes_resolve_key in Hr as (s1 & -> & Hs1). obs_bind Hobs found seen3 seen4 Hrow.
  destruct found as [b|]; [| by obs_done Hobs].
  apply observes_find_by_path in Hrow as (s2 & -> & Hs2).
  obs_bind Hobs a1 seen5 seen6 Ha. obs_done Hobs.
  apply observes_on_content, observes_hydrate in Ha.
  exists r, s1, s2. split_and!; [| done | by rewrite Ha].
  cbn. apply sublist_skip, sublist_skip, sublist_nil_l.
Qed.

Lemma observes_gate a seen b :
  observes (on_content (non_servable_response floor a)) seen (Ok (Some b)) →
  ∃ v, body b = B_Json v.
Proof.
  intros Hobs%observes_on_content. unfold non_servable_response in Hobs.
  destruct (quarantine_status a);
    [by obs_done Hobs | | by obs_done Hobs | obs_done Hobs; by eexists | obs_done Hobs; by eexists].
  obs_bind Hobs secs seen1 seen2 Hs. obs_done Hobs. by eexists.
Qed.

Lemma observes_render a actor seen resp hash :
  observes (render_artifact_response floor a actor) seen (Ok resp) → body resp = B_Stream hash →
  ∃ s3 s4, [s3; s4] `sublist_of` seen ∧ in_service (artifact_id a) hash s3 ∧ has_blob hash s4.
Proof.
  unfold render_artifact_response. intros Hobs Hb. obs_bind Hobs blocked seen1 seen2 Hg.
  destruct blocked as [b|].
  { obs_done Hobs. apply observes_gate in Hg as [v Hv]. congruence. }
  obs_bind Hobs served seen3 seen4 Hd. obs_done Hobs. cbn in Hb. simplify_eq.
  destruct served as [a' h]. apply observes_download in Hd as (s1 & s2 & s3 & rest & -> & Hs1 & Hs3).
  exists s1, s3. split_and!; [| done..]. apply sublist_inserts_l. rewrite app_nil_r.
  apply sublist_skip, sublist_cons, sublist_skip, sublist_nil_l.
Qed.

Lemma observes_attempt_Ok {A} (p : serve A) seen r :
  observes (attempt p) seen (Ok r) → observes p seen r.
Proof. by intros (r' & [= ->] & H')%observes_attempt. Qed.

Lemma observes_first {T} owned (fetch : Repository → serve (option T)) members seen t :
  observes (first_authoritative owned fetch members) seen (Ok (Some t)) →
  ∃ m before seen', m ∈ members ∧ seen = before ++ seen' ∧ observes (fetch m) seen' (Ok (Some t)).
Proof.
  revert seen. induction members as [|m members IH]; intros seen Hobs; cbn [first_authoritative] in Hobs.
  { by obs_done Hobs. }
  assert (∀ seen, observes (first_authoritative owned fetch members) seen (Ok (Some t)) →
    ∃ m' before seen', m' ∈ m :: members ∧ seen = before ++ seen' ∧
      observes (fetch m') seen' (Ok (Some t))) as Hnext.
  { intros seen' (m' & before & seen1 & Hm & -> & Ho)%IH. exists m', before, seen1.
    split_and!; [by right | done | done]. }
  destruct (_ && _); [by apply Hnext|]. obs_bind Hobs found seen1 seen2 Hf.
  destruct found as [t'|].
  - obs_done Hobs. exists m, [], seen1. split_and!; [by left | by rewrite app_nil_r | done].
  - apply Hnext in Hobs as (m' & before & seen' & Hm & -> & Ho).
    exists m', (seen1 ++ before), seen'. split_and!; [done | by rewrite app_assoc | done].
Qed.

(** A member of the virtual repository, read as [m] once the caller was found to see it. *)
Definition is_member actor (v m : Repository) (seen : list RepositoryWorld) : Prop :=
  ∃ w w' m', w ∈ seen ∧ w' ∈ seen ∧
    is_some (member_priority w (repo_id v) m') = true ∧ m' ∈ repositories w ∧
    m ∈ repositories w' ∧ repo_id m = repo_id m' ∧ can_see auth m actor = true.

Lemma observes_resolve_by_id id actor seen r :
  observes (resolve_by_id auth id actor AL_Read) seen (Ok r) →
  ∃ w, seen = [w] ∧ r ∈ repositories w ∧ repo_id r = id ∧ can_see auth r actor = true.
Proof.
  unfold resolve_by_id. intros Hobs. obs_bind Hobs x seen1 seen2 Hx.
  apply observes_port in Hx as (w & -> & [= ->]).
  destruct (repo_fault _) as [[]|]; [by obs_done Hobs..|]. unfold fetch_one in Hobs. cbn in Hobs.
  destruct (filter _ _) as [|r' l] eqn:Hf; [by obs_done Hobs|].
  assert (r' ∈ filter (λ r, bool_decide (repo_id r = id)) (repositories w)) as Hr'.
  { rewrite Hf. by left. }
  apply list_elem_of_filter in Hr' as [Hk%bool_decide_unpack Hin].
  apply observes_Done in Hobs as [-> Hobs]. rewrite enforce_spec in Hobs.
  destruct (can_see auth r' actor) eqn:Hsee; simplify_eq. exists w. by rewrite app_nil_r.
Qed.

Lemma observes_visible_members actor members visible seen ms :
  observes (visible_members auth actor members visible) seen (Ok ms) →
  ∀ m, m ∈ ms → m ∈ visible ∨
    ∃ m' w, m' ∈ members ∧ w ∈ seen ∧ m ∈ repositories w ∧ repo_id m = repo_id m' ∧
      can_see auth m actor = true.
Proof.
  revert visible seen. induction members as [|m0 members IH]; intros visible seen Hobs m Hm;
    cbn [visible_members] in Hobs.
  { obs_done Hobs. by left. }
  case_bool_decide.
  { destruct (IH _ _ Hobs m Hm) as [? | (m' & w & ? & ?)]; [by left|]. right. exists m', w.
    split; [by right | done]. }
  obs_bind Hobs r seen1 seen2 Hr. apply observes_attempt in Hr as (r' & [= ->] & Hr).
  assert (∀ visible', observes (visible_members auth actor members visible') seen2 (Ok ms) →
    m ∈ visible' ∨ ∃ m' w, m' ∈ m0 :: members ∧ w ∈ seen1 ++ seen2 ∧ m ∈ repositories w ∧
      repo_id m = repo_id m' ∧ can_see auth m actor = true) as Hnext.
  { intros visible' Ho. destruct (IH _ _ Ho m Hm) as [? | (m' & w & ? & ? & Hrest)]; [by left|].
    right. exists m', w. split_and!; [by right | apply elem_of_app; by right | apply Hrest..]. }
  destruct r' as [resolved | [e| | |]]; [| | by obs_done Hobs..].
  - apply observes_resolve_by_id in Hr as (w & -> & Hin & Hid & Hsee).
    destruct (Hnext _ Hobs) as [[Hv | ->%list_elem_of_singleton]%elem_of_app | Hright];
      [by left | | by right].
    right. exists m0, w. split_and!; [by left | by left | done..].
  - destruct e; [| by obs_done Hobs..]. by apply Hnext.
Qed.

Lemma observes_resolve_members v actor seen ms m :
  observes (resolve_members auth v actor) seen (Ok ms) → m ∈ ms → is_member actor v m seen.
Proof.
  unfold resolve_members. intros Hobs Hm. obs_bind Hobs r seen1 seen2 Hr.
  apply observes_port in Hr as (w & -> & [= ->]).
  destruct (repo_fault _); [by obs_done Hobs|].
  destruct (observes_visible_members _ _ _ _ _ Hobs m Hm) as [[]%elem_of_nil | (m' & w' & Hm' & Hw' & Hrest)].
  rewrite order_by_perm in Hm'. apply list_elem_of_filter in Hm' as [Hp Hin].
  exists w, w', m'. split_and!; [by left | by right | | done | apply Hrest..].
  by destruct (is_some _).
Qed.

Lemma serves_path_app actor key path id hash seen1 seen2 s3 s4 :
  found_at actor key path id seen1 → [s3; s4] `sublist_of` seen2 →
  in_service id hash s3 → has_blob hash s4 → serves_path actor key path hash (seen1 ++ seen2).
Proof.
  intros (r & s1 & s2 & Hsub & Hr & Hp) Hsub2 H3 H4. exists r, id, s1, s2, s3, s4.
  split_and!; [| done..]. change ([s1; s2] ++ [s3; s4] `sublist_of` seen1 ++ seen2). by apply sublist_app.
Qed.

Lemma serves_path_mono actor key path hash seen seen' :
  serves_path actor key path hash seen → seen `sublist_of` seen' →
  serves_path actor key path hash seen'.
Proof.
  intros (r & id & s1 & s2 & s3 & s4 & Hsub & Hrest) Hs. exists r, id, s1, s2, s3, s4.
  split; [by etrans | done].
Qed.

Lemma found_at_mono actor key path id seen seen' :
  found_at actor key path id seen → seen `sublist_of` seen' → found_at actor key path id seen'.
Proof.
  intros (r & s1 & s2 & Hsub & Hrest) Hs. exists r, s1, s2. split; [by etrans | done].
Qed.

Lemma map_upstream_pull_error_json e : ∃ v, body (map_upstream_pull_error e) = B_Json v.
Proof. destruct e; by eexists. Qed.

Context (pull : Repository → string → string → string → serve (result UpstreamPullError ())).
Context (proxy : Repository → string → option CallerPrincipal → serve IndexSourceOutput).

Lemma observes_coord_fetch pkg path file actor m seen d :
  observes (npm_member_coord_fetch auth ports pull pkg path file actor m) seen (Ok (Some d)) →
  match d with
  | VMD_Found a => found_at actor (repo_key m) path (artifact_id a) seen
  | VMD_Rendered r => ∃ v, body r = B_Json v
  end.
Proof.
  unfold npm_member_coord_fetch. intros Hobs. obs_bind Hobs r seen1 seen2 Hr.
  apply observes_attempt_Ok in Hr. destruct r as [[repo a] | [e| | |]]; [| | by obs_done Hobs..].
  { obs_done Hobs. apply observes_find_visible in Hr. by rewrite app_nil_r. }
  destruct e; [| by obs_done Hobs..]. clear Hr.
  destruct (bool_decide (entity = _)); cbn [negb] in Hobs; [| by obs_done Hobs].
  destruct (bool_decide (repo_type m = Proxy)); cbn [negb] in Hobs; [| by obs_done Hobs].
  destruct (extract_version _ _) as [v|]; [| by obs_done Hobs].
  obs_bind Hobs pulled seen3 seen4 Hp. destruct pulled as [u|e].
  - obs_bind Hobs found seen5 seen6 Hf. obs_done Hobs. destruct found as [repo a].
    apply observes_find_visible in Hf. eapply found_at_mono; [done|]. rewrite app_nil_r.
    by do 2 apply sublist_inserts_l.
  - destruct e; obs_done Hobs; by eexists.
Qed.

(** The key names the repository itself, or a virtual one that the caller sees and whose
    member has that key. *)
Definition leads_to actor (key key' : string) (seen : list (RepositoryWorld * ServingWorld)) : Prop :=
  key' = key ∨
  ∃ v m s, s ∈ seen ∧ sees actor key v s ∧ repo_type v = Virtual ∧
    is_member actor v m seen.*1 ∧ repo_key m = key'.

Lemma observes_virtual_tarball v pkg path file actor seen resp hash :
  observes (serve_virtual_tarball auth ports floor pull proxy v pkg path file actor) seen (Ok resp) →
  body resp = B_Stream hash →
  ∃ m, is_member actor v m seen.*1 ∧ serves_path actor (repo_key m) path hash seen.
Proof.
  unfold serve_virtual_tarball. intros Hobs Hb. obs_bind Hobs found seen1 seen2 Hf.
  unfold resolve_download in Hf. obs_bind Hf ms seen3 seen4 Hms. obs_bind Hf owned seen5 seen6 Ho.
  destruct found as [d|]; [| by obs_done Hobs].
  apply observes_first in Hf as (m & before & seen7 & Hm & -> & Hd).
  apply observes_coord_fetch in Hd. destruct d as [a|r]; cycle 1.
  { obs_done Hobs. destruct Hd as [j Hj]. congruence. }
  apply (observes_render _ _ _ _ _ Hobs) in Hb as (s3 & s4 & Hsub & H3 & H4). exists m. split.
  - apply observes_on_fst, (observes_resolve_members _ _ _ _ m) in Hms as (w & w' & m' & Hw & Hw' & Hrest);
      [| done].
    exists w, w', m'. rewrite !fmap_app, <- !app_assoc.
    split_and!; [apply elem_of_app; by left | apply elem_of_app; by left | apply Hrest..].
  - eapply serves_path_mono; [by eapply (serves_path_app _ _ _ _ _ seen7 seen2 s3 s4)|].
    rewrite <- !app_assoc. by do 3 apply sublist_inserts_l.
Qed.

(** C7. Whatever else runs beside it, a request for a tarball that streams bytes has found,
    in this order, a repository that the caller can read, in it a row with that path, that
    row in service with those bytes, and the bytes in the content store.  The repository is
    the one asked for, or a member of it when it is virtual. *)
Theorem served_bytes_are_in_service key pkg file actor seen resp hash :
  observes (serve_tarball auth ports floor pull proxy key pkg file actor) seen (Ok resp) →
  body resp = B_Stream hash →
  ∃ key', leads_to actor key key' seen ∧
    serves_path actor key' (pkg +:+ "/-/" +:+ file) hash seen.
Proof.
  unfold serve_tarball. intros Hobs Hb. obs_bind Hobs r seen1 seen2 Hr.
  apply observes_attempt_Ok in Hr. destruct r as [[repo a] | [e| | |]]; [| | by obs_done Hobs..].
  { apply observes_find_visible in Hr.
    apply (observes_render _ _ _ _ _ Hobs) in Hb as (s3 & s4 & Hsub & H3 & H4).
    exists key. split; [by left | by eapply serves_path_app]. }
  destruct e; [| by obs_done Hobs..]. clear Hr.
  destruct (bool_decide _); cbn [negb] in Hobs; [| by obs_done Hobs].
  obs_bind Hobs repo seen3 seen4 Hr. apply observes_resolve_key in Hr as (s & -> & Hs).
  destruct (repo_type repo) eqn:Ht; [by obs_done Hobs | | | by obs_done Hobs].
  - destruct (extract_version _ _) as [v|]; [| by obs_done Hobs].
    obs_bind Hobs pulled seen5 seen6 Hp. destruct pulled as [u|e]; cycle 1.
    { obs_done Hobs. destruct (map_upstream_pull_error_json e) as [j Hj]. congruence. }
    obs_bind Hobs found seen7 seen8 Hf. destruct found as [repo' a].
    apply observes_find_visible in Hf.
    apply (observes_render _ _ _ _ _ Hobs) in Hb as (s3 & s4 & Hsub & H3 & H4).
    exists key. split; [by left|].
    eapply serves_path_mono; [by eapply (serves_path_app _ _ _ _ _ seen7 seen8)|].
    by do 3 apply sublist_inserts_l.
  - destruct (observes_virtual_tarball _ _ _ _ _ _ _ _ Hobs Hb) as (m & (w & w' & m' & Hm) & Hp).
    exists (repo_key m). split.
    + right. exists repo, m, s. split_and!; [apply elem_of_app; right; by left | done | done | | done].
      exists w, w', m'. rewrite !fmap_app. split_and!; [do 2 (apply elem_of_app; right); apply Hm | do 2 (apply elem_of_app; right); apply Hm |
        apply Hm..].
    + eapply serves_path_mono; [done|]. by do 2 apply sublist_inserts_l.
Qed.
End seen.
