(* ===== verification/DownloadPromise.v ===== *)
(** An index and the bytes behind it: what the packument of a hosted npm repository
    lists is served by the tarball route, as long as the tables stay as they are. *)

From Stdlib Require Import Ascii.
From coqutil Require Import Datatypes.RecordSetters.
From S2P Require Import Prelude.
From S2P Require Import RustStd.
From S2P Require Import Json.
From S2P Require Import Types.
From S2P Require Import Events.
From S2P Require Import QuarantineTransitions.
From S2P Require Import Artifact.
From S2P Require Import ScanPolicyFold.
From S2P Require Import ScanEngine.
From S2P Require Import ScanHistory.
From S2P Require Import Store.
From S2P Require Import Lifecycle.
From S2P Require Import Concurrent.
From S2P Require Import ContentRefs.
From S2P Require Import Rbac.
From S2P Require Import RepositoryAccess.
From S2P Require Import IndexServe.
From S2P Require Import IndexSafety.
From S2P Require Import Downloads.
From S2P Require Import NpmRoutes.
From S2P Require Import DownloadSafety.
Import DoubleBraceUpdate.

(** ** Reads *)

Definition repo_tables (w : RepositoryWorld) : list Repository * list (Uuid * Uuid * Z) :=
  (repositories w, virtual_repo_members w).

Definition content_tables (w : World)
    : Db * gset ContentHash * list MutableRef * gmap Uuid ContentHash :=
  (artifacts w, storage w, mutable_refs w, metadata_blobs w).

(** What the read paths look at, without the counters of calls and the audit. *)
Definition tables (s : RepositoryWorld * ServingWorld) :=
  (repo_tables s.1, content_tables (content s.2), metadata_rows s.2).

(** The handler leaves them alone. *)
Definition reads {A} (p : serve A) : Prop := ∀ T, keeps (λ s, tables s = T) p.

Lemma reads_on_fst {A} (p : query_prog A) :
  (∀ T, keeps (λ w, repo_tables w = T) p) → reads (on_fst p).
Proof.
  intros Hp T. eapply (keeps_on_fst (λ w, repo_tables w = T.1.1)); [| | done].
  - by intros s x <-.
  - intros s x s' <-. unfold tables. cbn. by intros ->.
Qed.

Lemma reads_on_content {A} (p : task A) :
  (∀ T, keeps (λ w, content_tables w = T) p) → reads (on_content p).
Proof.
  intros Hp T. eapply (keeps_on_part (λ w, content_tables w = T.1.2)); [| | done].
  - by intros s <-.
  - intros s w <- Hw. exact (f_equal (λ c, (repo_tables s.1, c, metadata_rows s.2)) Hw).
Qed.

Lemma reads_bind {A B} (p : serve A) (f : A → serve B) : reads p → (∀ a, reads (f a)) → reads (p ≫= f).
Proof. intros Hp Hf T. apply keeps_bind; [apply Hp | intros a; apply Hf]. Qed.

Lemma reads_attempt {A} (p : serve A) : reads p → reads (attempt p).
Proof. intros Hp T. apply keeps_attempt, Hp. Qed.

Section reading.
Context `{RepositoryBackend, Backend, !ArtifactQueries, ServingCode} (auth : RbacAccess).
Context (ports : nat → Ports) (floor : Z).
Implicit Types (s : RepositoryWorld * ServingWorld) (actor : option CallerPrincipal).

Lemma keeps_select {A} (f : World → DomainResult A) T :
  keeps (λ w, content_tables w = T) (select f).
Proof.
  apply keeps_port. intros w Hw. unfold on_db. by destruct (db_fault _).
Qed.

Lemma keeps_ok {A} (p : task (DomainResult A)) T :
  keeps (λ w, content_tables w = T) p → keeps (λ w, content_tables w = T) (ok p).
Proof. intros Hp. apply keeps_bind; [done | by intros []]. Qed.

Lemma keeps_resolve_key key actor level T :
  keeps (λ w, repo_tables w = T) (resolve_key auth key actor level).
Proof.
  unfold resolve_key, load_by_key. apply keeps_bind; [| by intros r]. apply keeps_bind.
  - by apply keeps_port.
  - intros [r|e]; [done | by destruct e].
Qed.

Lemma keeps_pages {U} (fetch : PageRequest → task (Page U)) T :
  (∀ page, keeps (λ w, content_tables w = T) (fetch page)) →
  ∀ rounds cap acc from, keeps (λ w, content_tables w = T) (pages_loop rounds cap fetch acc from).
Proof.
  intros Hf rounds cap. induction rounds as [|rounds IH]; intros acc from; [done|].
  cbn [pages_loop]. apply keeps_bind; [apply Hf|]. intros page.
  destruct (_ =? 0); [done|]. destruct (cap <? _); [done|]. destruct (_ <? _); [done | apply IH].
Qed.

Lemma keeps_version_page p page T : keeps (λ w, content_tables w = T) (version_page p page).
Proof.
  unfold version_page. apply keeps_bind; [apply keeps_ok, keeps_select|]. intros rows.
  apply keeps_bind; [apply keeps_ok, keeps_select | done].
Qed.

Lemma keeps_list_by_raw_name repository normalise raw T :
  keeps (λ w, content_tables w = T) (list_by_raw_name_limited repository normalise raw).
Proof.
  unfold list_by_raw_name_limited, iterate_pages_capped. apply keeps_bind.
  - apply keeps_pages. intros page. apply keeps_version_page.
  - intros l. destruct (negb _); [done|]. apply keeps_pages. intros page. apply keeps_version_page.
Qed.

Lemma keeps_storage_get {A} hash (f : ContentHash → task A) T :
  (∀ h, keeps (λ w, content_tables w = T) (f h)) →
  keeps (λ w, content_tables w = T) (storage_error (storage_get hash) ≫= f).
Proof.
  intros Hf. apply keeps_bind; [| apply Hf]. apply keeps_bind; [| by intros []].
  apply keeps_port. intros w Hw. by destruct (storage_fault _).
Qed.

Lemma keeps_hydrate_entries metadata es T :
  keeps (λ w, content_tables w = T) (hydrate_entries metadata es).
Proof.
  induction es as [|[id e] es IH]; [done|]. cbn [hydrate_entries]. apply keeps_bind.
  - destruct (metadata !! id) as [[v [h|]]|]; [| done..]. apply keeps_bind; [| done].
    apply keeps_storage_get. intros _. by destruct (blob_json h).
  - intros e'. apply keeps_bind; [done | by intros ?].
Qed.

Lemma reads_hosted repo pkg actor : reads (HostedNpmSource auth repo pkg actor).
Proof.
  apply reads_bind.
  { apply reads_bind; [apply reads_on_fst; intros T; apply keeps_resolve_key|]. intros r.
    apply reads_bind; [apply reads_on_content; intros T; apply keeps_list_by_raw_name | done]. }
  intros listed. apply reads_bind.
  { apply reads_bind; [| intros m; apply reads_on_content; intros T; apply keeps_hydrate_entries].
    unfold batch_metadata. destruct (is_empty _); [done|]. apply reads_bind; [| by intros []].
    intros T. by apply keeps_port. }
  intros entries. apply reads_bind; [| done]. destruct (is_empty entries); [done|].
  apply reads_on_content. intros T. apply keeps_bind; [| done].
  apply keeps_bind; [apply keeps_ok, keeps_select | done].
Qed.

Lemma keeps_window repository T : keeps (λ w, content_tables w = T) (resolve_quarantine_window ports repository).
Proof.
  unfold resolve_quarantine_window. apply keeps_bind.
  { apply keeps_bind; [by apply keeps_port | by intros []]. }
  intros policy. apply keeps_bind; [| done]. by destruct (duration_seconds _).
Qed.

Lemma reads_deadlines repository package :
  reads (on_content (package_hold_deadlines ports repository package)).
Proof.
  apply reads_on_content. intros T. unfold package_hold_deadlines. apply keeps_bind.
  { apply keeps_ok, keeps_select. }
  intros rows. destruct (is_empty _); [done|]. apply keeps_bind; [apply keeps_window|]. intros window.
  apply keeps_bind; [| done]. by destruct (mapM _ _).
Qed.

(** ** What a hosted index lists *)

Lemma observes_pages {U} (fetch : PageRequest → task (Page U)) rounds cap acc from seen l x :
  observes (pages_loop rounds cap fetch acc from) seen (Ok l) → x ∈ ll_items l →
  x ∈ acc ∨ ∃ page seen' pg, seen' ⊆ seen ∧ observes (fetch page) seen' (Ok pg) ∧ x ∈ items pg.
Proof.
  revert acc from seen. induction rounds as [|rounds IH]; intros acc from seen Hobs Hx.
  { by obs_done Hobs. }
  cbn [pages_loop] in Hobs. obs_bind Hobs pg seen1 seen2 Hpg.
  assert (x ∈ acc ++ items pg → x ∈ acc ∨ ∃ page seen' pg, seen' ⊆ seen1 ++ seen2 ∧
    observes (fetch page) seen' (Ok pg) ∧ x ∈ items pg) as Hin.
  { intros [?|Hi]%elem_of_app; [by left | right]. do 2 eexists. exists pg.
    split_and!; [| done | done]. set_solver. }
  destruct (_ =? 0); [obs_done Hobs; by left|].
  destruct (cap <? _); [obs_done Hobs; by apply Hin; eapply subseteq_take|].
  destruct (_ <? _); [obs_done Hobs; by apply Hin|].
  destruct (IH _ _ _ Hobs Hx) as [? | (page & seen' & pg' & Hsub & Ho & Hi)]; [by apply Hin|].
  right. exists page, seen', pg'. split_and!; [set_solver | done | done].
Qed.

Lemma observes_iterate {U} (fetch : PageRequest → task (Page U)) cap seen l x :
  observes (iterate_pages_capped cap fetch) seen (Ok l) → x ∈ ll_items l →
  ∃ page seen' pg, seen' ⊆ seen ∧ observes (fetch page) seen' (Ok pg) ∧ x ∈ items pg.
Proof.
  intros Hobs Hx. by destruct (observes_pages _ _ _ _ _ _ _ _ Hobs Hx) as [[]%elem_of_nil |].
Qed.

Lemma observes_version_page p page seen pg a :
  observes (version_page p page) seen (Ok pg) → a ∈ items pg →
  ∃ w, w ∈ seen ∧ a ∈ live_rows p (artifacts w).
Proof.
  unfold version_page. intros Hobs Ha. obs_bind Hobs rows seen1 seen2 Hr.
  obs_bind Hobs count seen3 seen4 Hc. obs_done Hobs.
  apply observes_select in Hr as (w & -> & Hr). exists w. split; [by left|].
  destruct (_ || _); [done|]. injection Hr as <-. cbn in Ha.
  rewrite <- (order_by_version_perm (Datatypes.S (calls w))).
  by eapply subseteq_drop, subseteq_take.
Qed.

(** The row stands for the entry. *)
Definition listed_as (T : Db) (repository : Uuid) (e : VersionEntry) : Prop :=
  ∃ k en p, T !! k = Some en ∧ deleted_at (row en) = None ∧ repository_id (row en) = repository ∧
    Artifact.version (row en) = Some (version e) ∧ status e = Some (quarantine_status (row en)) ∧
    payload e = PV_Npm p ∧ name_as_published p = Artifact.name (row en) ∧
    tarball_basename p = default (path (row en)) (after_last_slash (path (row en))).

Lemma observes_list_by_raw_name repository normalise raw seen l a :
  observes (list_by_raw_name_limited repository normalise raw) seen (Ok l) → a ∈ ll_items l →
  ∃ w k en, w ∈ seen ∧ artifacts w !! k = Some en ∧ deleted_at (row en) = None ∧
    repository_id (row en) = repository ∧ a = hydrate (row en).
Proof.
  unfold list_by_raw_name_limited. generalize LIMIT_LIST_MAX_ITEMS. intros cap Hobs Ha.
  obs_bind Hobs primary seen1 seen2 Hp.
  assert (∃ q seen', (∀ a, q a = true → repository_id a = repository) ∧ seen' ⊆ seen1 ++ seen2 ∧
    observes (iterate_pages_capped cap (version_page q)) seen' (Ok l)) as (q & seen' & Hq & Hsub & Ho).
  { destruct (negb _).
    - obs_done Hobs. eexists. exists seen1. split_and!; [| set_solver | exact Hp].
      by intros b [? _]%bool_decide_eq_true.
    - eexists. exists seen2. split_and!; [| set_solver | exact Hobs].
      by intros b [? _]%bool_decide_eq_true. }
  destruct (observes_iterate _ _ _ _ _ Ho Ha) as (page & seen3 & pg & Hsub' & Hpg & Hi).
  destruct (observes_version_page _ _ _ _ _ Hpg Hi) as (w & Hw & Hin).
  apply live_rows_elem in Hin as (k & en & He & Hd & Hqa & ->).
  exists w, k, en. split_and!; [set_solver | done | done | by apply Hq | done].
Qed.

Lemma observes_hydrate_entries metadata es seen es' e :
  observes (hydrate_entries metadata es) seen (Ok es') → e ∈ es' →
  ∃ id e0, (id, e0) ∈ es ∧ (e = e0 ∨ ∃ m, e = with_manifest m e0).
Proof.
  revert seen es'. induction es as [|[id e0] es IH]; intros seen es' Hobs He;
    cbn [hydrate_entries] in Hobs.
  { obs_done Hobs. by apply elem_of_nil in He. }
  obs_bind Hobs e1 seen1 seen2 He1. obs_bind Hobs es1 seen3 seen4 Hes. obs_done Hobs.
  apply elem_of_cons in He as [-> | He].
  - exists id, e0. split; [by left|]. destruct (metadata !! id) as [row|]; [| obs_done He1; by left].
    obs_bind He1 blk seen5 seen6 Hb. obs_done He1. right. by eexists.
  - destruct (IH _ _ Hes He) as (id' & e' & Hin & Hor). exists id', e'. split; [by right | done].
Qed.

Lemma hosted_entry_listed T k en id e m :
  T !! k = Some en → deleted_at (row en) = None →
  hosted_entry (hydrate (row en)) = Some (id, e) →
  listed_as T (repository_id (row en)) e ∧ listed_as T (repository_id (row en)) (with_manifest m e).
Proof.
  unfold hosted_entry. intros Hk Hd Hh. cbn in Hh.
  destruct (Artifact.version (row en)) as [v|] eqn:Hv; simplify_eq/=.
  split; eexists k, en, _; split_and!; cbn; done.
Qed.

Lemma observes_hosted repo pkg actor seen out T e :
  observes (HostedNpmSource auth repo pkg actor) seen (Ok out) → Forall (λ s, tables s = T) seen →
  e ∈ src_entries out →
  ∃ r s, s ∈ seen ∧ sees auth actor (repo_key repo) r s ∧ listed_as T.1.2.1.1.1 (repo_id r) e.
Proof.
  unfold HostedNpmSource. intros Hobs HT He. obs_bind Hobs listed seen1 seen2 Hl.
  obs_bind Hobs es seen3 seen4 Hes. obs_bind Hobs dist seen5 seen6 Ht. obs_done Hobs. cbn in He.
  unfold list_by_raw_name_visible in Hl. obs_bind Hl r seen7 seen8 Hr.
  apply observes_resolve_key in Hr as (s & -> & Hs). obs_bind Hl rows seen9 seen10 Hrows.
  obs_done Hl. exists r, s. split_and!; [by left | done |]. cbn [snd] in *.
  unfold hydrate_hosted_manifests in Hes. obs_bind Hes md seen11 seen12 Hmd.
  apply observes_on_content in Hes.
  destruct (observes_hydrate_entries _ _ _ _ _ Hes He) as (id & e0 & Hin & Hor).
  apply list_elem_of_omap in Hin as (a & Ha & Hh).
  apply observes_on_content in Hrows.
  destruct (observes_list_by_raw_name _ _ _ _ _ _ Hrows Ha) as (w & k & en & Hw & Hk & Hd & Hrep & ->).
  apply list_elem_of_fmap in Hw as (s' & -> & Hs').
  rewrite Forall_forall in HT. assert (tables s' = T) as HTs.
  { apply HT. rewrite app_nil_r. apply elem_of_app. left. by right. }
  rewrite <- HTs. rewrite <- Hrep.
  destruct Hor as [-> | [m ->]]; [by apply (hosted_entry_listed _ k en id e0 []) |
    by apply (hosted_entry_listed _ k en id e0 m)].
Qed.

(** ** Serving a row *)

Lemma run_on_content {A} (p : task A) s :
  run (on_content p) s =
  let '(w, r) := run p (content s.2) in ((s.1, s.2 {{ content := w }}), r).
Proof. unfold on_content. by rewrite run_on_part; [| | intros [? []] |]. Qed.

Context (no_repo_fault : ∀ n, repo_fault n = None) (no_db_fault : ∀ n, db_fault n = None).
Context (no_storage_fault : ∀ n, storage_fault n = None).

Lemma run_select {A} (f : World → DomainResult A) w :
  run (ok (select f)) w = (tick w, lift_domain (f (tick w))).
Proof. cbn. unfold on_db. by rewrite no_db_fault. Qed.

Lemma run_on_select {A} (f : World → DomainResult A) s :
  run (on_content (select f)) s =
    ((s.1, s.2 {{ content := tick (content s.2) }}), Ok (f (tick (content s.2)))).
Proof. rewrite run_on_content. cbn. unfold on_db. by rewrite no_db_fault. Qed.

(** What the content store answers: the bytes, or that it does not have them. *)
Definition stored_bytes (w : World) (hash : ContentHash) : AppResult ContentHash :=
  if decide (hash ∈ storage w) then Ok hash
  else Err (AE_Storage (DomainError_display (NotFound "content" [ArgStr hash]))).

Lemma run_storage_get hash w :
  run (storage_error (storage_get hash)) w = (tick w, stored_bytes w hash).
Proof.
  unfold stored_bytes. destruct w. cbn. rewrite no_storage_fault. cbn. by destruct (decide _).
Qed.

(** The row is the only one of its repository with its path. *)
Definition only_at (db : Db) (k : Uuid) (en : Entry) : Prop :=
  db !! k = Some en ∧ artifact_id (row en) = k ∧
  ∀ k' en', db !! k' = Some en' → repository_id (row en') = repository_id (row en) →
    path (row en') = path (row en) → k' = k.

Lemma live_row_only db k en :
  only_at db k en → deleted_at (row en) = None →
  ∀ n, head (scan_order n (live_rows (λ a, bool_decide
    (repository_id a = repository_id (row en) ∧ path a = path (row en))) db)) = Some (hydrate (row en)).
Proof.
  intros (Hk & _ & Honly) Hd n.
  set (rows := live_rows _ db).
  assert (hydrate (row en) ∈ rows) as Hin.
  { apply live_rows_elem. exists k, en. split_and!; [done | done | by apply bool_decide_eq_true | done]. }
  assert (∀ a, a ∈ rows → a = hydrate (row en)) as Hall.
  { intros a (k' & en' & Hk' & _ & [Hr Hp]%bool_decide_eq_true & ->)%live_rows_elem.
    assert (k' = k) as -> by (by eapply Honly). by simplify_eq. }
  rewrite <- (scan_order_perm n) in Hin. destruct (scan_order n rows) as [|a l] eqn:Ho.
  { by apply elem_of_nil in Hin. }
  cbn. f_equal. apply Hall. rewrite <- (scan_order_perm n), Ho. by left.
Qed.

Lemma find_by_id_live (db : Db) k en :
  db !! k = Some en → is_downloadable (row en) = true → find_by_id db k = Ok (hydrate (row en)).
Proof.
  unfold find_by_id, is_downloadable. intros -> [Hd _]%andb_true_iff.
  by destruct (is_some (deleted_at (row en))).
Qed.

Lemma run_download k en actor s :
  artifacts (content s.2) !! k = Some en → is_downloadable (row en) = true →
  (run (download k actor) s).2 =
    match stored_bytes (content s.2) (sha256_checksum (row en)) with
    | Ok hash => Ok (hydrate (row en), hash)
    | Err e => Err e
    end.
Proof.
  intros Hk Hd. unfold download, artifact_by_id. rewrite run_bind, run_on_content, run_select.
  change (artifacts (tick ?w)) with (artifacts w). rewrite (find_by_id_live _ k en) by done.
  cbn [lift_domain map_err]. rewrite run_bind, run_on_fst.
  destruct (run (repo_find_by_id _) _) as [w' r] eqn:Hr.
  assert (∃ repo, r = Ok repo) as [repo ->].
  { cbn in Hr. rewrite no_repo_fault in Hr. injection Hr as _ <-. by eexists. }
  change (is_downloadable (hydrate (row en))) with (is_downloadable (row en)). rewrite Hd.
  cbn [negb]. rewrite run_bind, run_on_content, run_storage_get.
  change (stored_bytes (content (_, _ {{ content := tick ?w }}).2) ?h) with (stored_bytes w h).
  change (sha256_checksum (hydrate (row en))) with (sha256_checksum (row en)).
  destruct (stored_bytes (content s.2) _) as [hash | e]; [| done].
  rewrite run_bind. destruct repo as [repo|e]; [| done]. destruct (download_audit_enabled repo); [| done].
  rewrite run_bind, run_on_content. cbn. done.
Qed.

Lemma run_resolve_visible key actor s r :
  unique_keys s.1 → r ∈ repositories s.1 → repo_key r = key → can_see auth r actor = true →
  run (resolve_key auth key actor AL_Read) s.1 = (repo_tick s.1, Ok r).
Proof.
  intros Hu Hr <- Hsee. rewrite (run_result _ _ (Ok r)).
  - f_equal. cbn. rewrite no_repo_fault. unfold fetch_one. by destruct (filter _ _).
  - rewrite run_resolve_key, no_repo_fault. destruct (unique_key_head _ _ Hu Hr) as [rest ->].
    by rewrite enforce_spec, Hsee.
Qed.

(** The repository [r] is the one the caller names, and not an aggregate. *)
Record names (key : string) actor (r : Repository) s : Prop := {
  n_unique : unique_keys s.1;
  n_row : r ∈ repositories s.1;
  n_key : repo_key r = key;
  n_sees : can_see auth r actor = true;
  n_type : repo_type r = Hosted ∨ repo_type r = Staging;
}.

Lemma names_tables key actor r s s' : tables s = tables s' → names key actor r s → names key actor r s'.
Proof.
  intros Ht [Hu Hr ? ? ?]. assert (repositories s.1 = repositories s'.1) as Heq.
  { apply (f_equal (λ t, t.1.1.1)) in Ht. done. }
  split; [| | done..]; unfold unique_keys in *; by rewrite <- Heq.
Qed.

Context (pull : Repository → string → string → string → serve (result UpstreamPullError ())).
Context (proxy : Repository → string → option CallerPrincipal → serve IndexSourceOutput).

(** The index of the repository, as the routes compose it. *)
Definition hosted_index (key pkg url : string) actor : serve ResolvedIndex :=
  resolve_served_versions auth (HostedNpmSource auth) proxy
    (λ repository package, on_content (package_hold_deadlines ports repository package)) key pkg url actor.

Lemma unique_key_eq (w : RepositoryWorld) r r' :
  unique_keys w → r ∈ repositories w → r' ∈ repositories w → repo_key r' = repo_key r → r' = r.
Proof.
  intros Hu Hr Hr' Hk. destruct (unique_key_head _ _ Hu Hr) as [rest Hf].
  destruct (unique_key_head _ _ Hu Hr') as [rest' Hf']. rewrite Hk in Hf'. congruence.
Qed.

Lemma kept_entries db repository es mode e :
  (∀ e, e ∈ es → listed_as db repository e) →
  e ∈ apply_filters [NonServableStatusFilter Hidden; IndexModeFilter mode Hidden] es →
  listed_as db repository e ∧ ∃ st, status e = Some st ∧ servable st = true.
Proof.
  intros Hes He. rewrite pipeline_keeps, elem_of_retain in He. destruct He as [Hm He].
  specialize (Hes e He). split; [done|]. destruct Hes as (k & en & p & _ & _ & _ & _ & Hst & _).
  eexists. split; [done|]. unfold index_mode_keeps in Hm. rewrite Hst in Hm.
  destruct mode; by rewrite admits_hidden in Hm.
Qed.

Lemma run_hosted key pkg actor r s s' out :
  names key actor r s → run (HostedNpmSource auth r pkg actor) s = (s', Ok out) →
  tables s' = tables s ∧ ∀ e, e ∈ src_entries out → listed_as (artifacts (content s.2)) (repo_id r) e.
Proof.
  intros Hn Hrun.
  destruct (run_observes (λ s', tables s' = tables s) (HostedNpmSource auth r pkg actor) s)
    as [Hs1 (seen & Hobs & Hseen)]; [done | apply reads_hosted |].
  rewrite Hrun in Hs1, Hobs. split; [done|]. intros e He.
  destruct (observes_hosted _ _ _ _ _ (tables s) e Hobs Hseen He) as (r' & s0 & Hs0 & Hsees & Hlisted).
  rewrite Forall_forall in Hseen. specialize (Hseen s0 Hs0).
  assert (repositories s0.1 = repositories s.1) as Heq.
  { apply (f_equal (λ t, t.1.1.1)) in Hseen. done. }
  destruct Hsees as (Hr' & Hk' & _). rewrite Heq in Hr'.
  rewrite <- (unique_key_eq s.1 r r'); [done | apply Hn | apply Hn | done | done].
Qed.

Lemma hosted_index_entries key pkg url actor r s s' index :
  names key actor r s → run (hosted_index key pkg url actor) s = (s', Ok index) →
  tables s' = tables s ∧
  ∀ e, e ∈ filtered index → listed_as (artifacts (content s.2)) (repo_id r) e ∧
    ∃ st, status e = Some st ∧ servable st = true.
Proof.
  intros Hn Hrun. unfold hosted_index, resolve_served_versions in Hrun.
  rewrite run_bind in Hrun. destruct s as [rw sw]. rewrite run_on_fst in Hrun.
  rewrite (run_resolve_visible _ _ (rw, sw) r) in Hrun by apply Hn.
  assert (select_source auth (HostedNpmSource auth) proxy 1 r pkg actor = HostedNpmSource auth r pkg actor)
    as Hsrc. { cbn [select_source]. by destruct (n_type _ _ _ _ Hn) as [-> | ->]. }
  rewrite run_bind, Hsrc in Hrun. cbn [fst] in Hrun.
  destruct (run (HostedNpmSource auth r pkg actor) (repo_tick rw, sw)) as [s1 [out|]] eqn:Hout; [| done].
  destruct (run_hosted key pkg actor r (repo_tick rw, sw) _ _ ltac:(by eapply names_tables, Hn) Hout) as [Hs1 Hall].
  destruct (bool_decide _ && _); [done|]. rewrite run_bind in Hrun. destruct (existsb _ _).
  - rewrite run_bind, run_attempt in Hrun.
    destruct (run_observes (λ s, tables s = tables (rw, sw))
      (on_content (package_hold_deadlines ports (repo_id r) (canonical_name out))) s1)
      as [Hs2 _]; [done | apply reads_deadlines |].
    destruct (run (on_content _) s1) as [s2 ds]. cbn [fst] in Hs2. injection Hrun as <- <-.
    split; [done|]. intros e. by apply kept_entries.
  - injection Hrun as <- <-. split; [done|]. intros e. by apply kept_entries.
Qed.


(** The primary key of the artifacts and the [UNIQUE] constraint on repository and path. *)
Definition unique_paths (w : World) : Prop :=
  ∀ k en, artifacts w !! k = Some en → only_at (artifacts w) k en.

Lemma run_find_visible key actor r s k en :
  names key actor r s → only_at (artifacts (content s.2)) k en →
  repository_id (row en) = repo_id r → is_downloadable (row en) = true →
  run (find_visible_by_path auth ports key (path (row en)) actor) s =
    ((repo_tick s.1, s.2 {{ content := tick (content s.2) }}),
     Ok (r, set_hold None false (hydrate (row en)))).
Proof.
  intros Hn Honly Hr Hd. unfold find_visible_by_path. destruct s as [rw sw].
  rewrite run_bind, run_on_fst, (run_resolve_visible _ _ (rw, sw) r) by apply Hn. cbn [fst].
  rewrite run_bind, run_on_content. cbn [snd]. unfold find_by_path, first_row. rewrite run_select.
  change (artifacts (tick ?w)) with (artifacts w). rewrite <- Hr.
  unfold is_downloadable in Hd. apply andb_true_iff in Hd as [Hdel Hst].
  rewrite (live_row_only _ k) by (done || by destruct (deleted_at (row en))).
  cbn [lift_domain map_err]. rewrite run_bind, run_on_content.
  unfold hydrate_quarantine_deadline.
  change (quarantine_status (hydrate (row en))) with (quarantine_status (row en)).
  by destruct (quarantine_status (row en)).
Qed.

(** What a tarball route answers for a row in service: its bytes, if they are there. *)
Definition tarball_answer (w : World) (a : Artifact) (answer : AppResult Response) : Prop :=
  match stored_bytes w (sha256_checksum a) with
  | Ok hash => ∃ resp, answer = Ok resp ∧ code resp = 200 ∧ body resp = B_Stream hash
  | Err e => answer = Err e
  end.

Lemma run_serve_row key actor r s k en base :
  names key actor r s → unique_paths (content s.2) → artifacts (content s.2) !! k = Some en →
  repository_id (row en) = repo_id r → is_downloadable (row en) = true →
  path (row en) = Artifact.name (row en) +:+ "/-/" +:+ base →
  tarball_answer (content s.2) (row en)
    (run (serve_tarball auth ports floor pull proxy key (Artifact.name (row en)) base actor) s).2.
Proof.
  intros Hn Hrows Hk Hr Hd Hp. unfold serve_tarball. rewrite run_bind, run_attempt.
  change (String.append ?x (String.append "/-/"%string ?y)) with (x +:+ "/-/" +:+ y). rewrite <- Hp.
  rewrite (run_find_visible _ _ r _ k) by (done || by apply Hrows).
  unfold render_artifact_response. rewrite run_bind, run_on_content.
  assert (run (non_servable_response floor (set_hold None false (hydrate (row en))))
    (content (s.2 {{ content := tick (content s.2) }})) = (tick (content s.2), Ok None)) as Hgate.
  { unfold is_downloadable in Hd. apply andb_true_iff in Hd as [_ Hst].
    unfold non_servable_response. change (quarantine_status (set_hold _ _ (hydrate ?a)))
      with (quarantine_status a). by destruct (quarantine_status (row en)). }
  cbn [snd]. rewrite Hgate, run_bind.
  assert (artifact_id (set_hold None false (hydrate (row en))) = k) as -> by apply (Hrows k en Hk).
  match goal with |- context [run (download k actor) ?s'] =>
    destruct (run (download k actor) s') as [s2 r2] eqn:Hrun;
    pose proof (run_download k en actor s' Hk Hd) as Hdl end.
  rewrite Hrun in Hdl. unfold tarball_answer. set (answer := stored_bytes (content s.2) (sha256_checksum (row en))).
  assert (r2 = match answer with Ok hash => Ok (hydrate (row en), hash) | Err e => Err e end) as -> by exact Hdl.
  destruct answer; [by eexists | done].
Qed.

(** C13. Whatever version the index of a hosted npm repository lists belongs to a row in
    service, and as long as the tables stay as they were and no port fails, the tarball it
    points to is served to the same caller: where the row has the path of that tarball, as
    npm publishing stores it, the route answers 200 with the row's bytes if the content
    store has them, and with the content store's error if it does not.  Keys and paths are
    unique, as the tables' constraints say. *)
Theorem listed_versions_can_be_downloaded key pkg url actor r s s' index e :
  names key actor r s → unique_paths (content s.2) →
  run (hosted_index key pkg url actor) s = (s', Ok index) → e ∈ filtered index →
  tables s' = tables s ∧
  ∃ p k en, payload e = PV_Npm p ∧ artifacts (content s.2) !! k = Some en ∧
    repository_id (row en) = repo_id r ∧ Artifact.version (row en) = Some (version e) ∧
    is_downloadable (row en) = true ∧
    (path (row en) = name_as_published p +:+ "/-/" +:+ tarball_basename p →
     ∀ s2, tables s2 = tables s →
     tarball_answer (content s.2) (row en)
       (run (serve_tarball auth ports floor pull proxy key (name_as_published p) (tarball_basename p) actor) s2).2).
Proof.
  intros Hn Hrows Hrun He. destruct (hosted_index_entries _ _ _ _ _ _ _ _ Hn Hrun) as [Ht Hall].
  split; [done|].
  destruct (Hall e He) as [(k & en & p & Hk & Hdel & Hr & Hv & Hst & Hp & Hname & _) (st & Hst' & Hserv)].
  assert (is_downloadable (row en) = true) as Hd.
  { unfold is_downloadable. rewrite Hdel. rewrite Hst in Hst'. by injection Hst' as ->. }
  exists p, k, en. split_and!; [done.. |]. rewrite Hname. intros Hpath s2 Hs2.
  assert (content_tables (content s2.2) = content_tables (content s.2)) as Hc.
  { by apply (f_equal (λ t, t.1.2)) in Hs2. }
  unfold content_tables in Hc. injection Hc as Ha Hsto _ _.
  unfold tarball_answer, stored_bytes. rewrite <- Hsto.
  apply (run_serve_row key actor r s2 k); [by eapply names_tables | | by rewrite Ha | done | done | done].
  intros k' en'. rewrite Ha. apply Hrows.
Qed.

(** ** The audit *)

(** The event of a download of [a] at [t], if its repository is audited. *)
Definition audit_of (a : Artifact) actor (t : DateTime) (w : RepositoryWorld) : list ArtifactDownloaded :=
  match filter (λ r, bool_decide (repo_id r = repository_id a)) (repositories w) with
  | repo :: _ =>
      if download_audit_enabled repo then
        [{| ad_artifact_id := artifact_id a; ad_repository_id := repo_id repo;
            ad_content_hash := sha256_checksum a; ad_actor := download_actor actor;
            ad_occurred_at := t |}]
      else []
  | [] => []
  end.

(** A download that is served appends one event to the audit when the repository is
    audited and none otherwise, with the bytes that were served and the caller; one that is
    refused appends none. *)
Theorem served_downloads_are_audited id actor s s' r :
  run (download id actor) s = (s', r) →
  match r with
  | Ok (a, hash) => hash = sha256_checksum a ∧
      ∃ t, download_audit s'.2 = download_audit s.2 ++ audit_of a actor t s.1
  | Err _ => download_audit s'.2 = download_audit s.2
  end.
Proof.
  unfold download, artifact_by_id. rewrite run_bind, run_on_content, run_select.
  destruct (find_by_id _ id) as [a|e]; cbn [lift_domain map_err]; [| by intros [= <- <-]].
  rewrite run_bind, run_on_fst. cbn [run repo_find_by_id repo_query port fst]. rewrite no_repo_fault.
  destruct (is_downloadable a); cbn [negb]; [| by intros [= <- <-]].
  rewrite run_bind, run_on_content. cbn [snd].
  destruct (run (storage_error (storage_get (sha256_checksum a))) _) as [w2 [h|e]] eqn:Hget;
    [| by intros [= <- <-]].
  assert (h = sha256_checksum a) as ->.
  { cbn in Hget. rewrite no_storage_fault in Hget. cbn in Hget. by case_decide; simplify_eq/=. }
  rewrite run_bind. unfold fetch_one, audit_of. destruct (filter _ _) as [|repo rest] eqn:Hf.
  { intros [= <- <-]. split; [done|]. exists 0. by rewrite Hf, app_nil_r. }
  destruct (download_audit_enabled repo) eqn:Haudit.
  - rewrite run_bind, run_on_content. cbn. rewrite no_db_fault. intros [= <- <-]. split; [done|].
    eexists. by rewrite Hf, Haudit.
  - intros [= <- <-]. split; [done|]. exists 0. by rewrite Hf, Haudit, app_nil_r.
Qed.

(** A range is not audited, not even the one that is the whole artifact. *)
Lemma a_range_of_everything_is_not_audited k en s :
  artifacts (content s.2) !! k = Some en → is_downloadable (row en) = true →
  sha256_checksum (row en) ∈ storage (content s.2) →
  ∃ s', run (on_content (download_range k (BR_From 0))) s =
      (s', Ok (hydrate (row en), (sha256_checksum (row en), BR_From 0))) ∧
    download_audit s'.2 = download_audit s.2.
Proof.
  intros Hk Hd Hb. rewrite run_on_content. unfold download_range, artifact_by_id.
  rewrite run_bind, run_select. change (artifacts (tick ?w)) with (artifacts w).
  rewrite (find_by_id_live _ k en) by done. cbn [lift_domain map_err].
  change (is_downloadable (hydrate (row en))) with (is_downloadable (row en)). rewrite Hd. cbn [negb].
  rewrite run_bind, run_storage_get. unfold stored_bytes. rewrite decide_True by done. by eexists.
Qed.

(** ** Hidden artifacts *)

Definition without (id : Uuid) s : RepositoryWorld * ServingWorld :=
  (s.1, s.2 {{ content := (content s.2) {{ artifacts ::= base.delete id }} }}).

Lemma run_missing id actor s :
  artifacts (content s.2) !! id = None →
  (run (find_visible_by_id auth ports id actor) s).2 = Err (AE_Domain (not_found id)).
Proof.
  intros Hid. unfold find_visible_by_id, artifact_by_id. rewrite run_bind, run_on_select.
  change (artifacts (tick ?w)) with (artifacts w). unfold find_by_id. by rewrite Hid.
Qed.

(** C17. To a caller who cannot read its repository an artifact looks as if it did not exist:
    the lookup by id gives the answer it would give without the row. *)
Theorem hidden_artifacts_look_missing id actor s en :
  artifacts (content s.2) !! id = Some en →
  (∀ r, r ∈ repositories s.1 → repo_id r = repository_id (row en) → can_see auth r actor = false) →
  (run (find_visible_by_id auth ports id actor) s).2 =
  (run (find_visible_by_id auth ports id actor) (without id s)).2.
Proof.
  intros Hid Hhide. rewrite (run_missing id actor (without id s)) by apply lookup_delete_eq.
  unfold find_visible_by_id, artifact_by_id. rewrite run_bind, run_on_select.
  change (artifacts (tick ?w)) with (artifacts w). unfold find_by_id. rewrite Hid.
  destruct (is_some (deleted_at (row en))); [done|]. rewrite run_bind, run_attempt, run_on_fst.
  change (repository_id (hydrate (row en))) with (repository_id (row en)).
  cbn [run resolve_by_id repo_find_by_id repo_query port fst]. cbn. rewrite no_repo_fault.
  unfold fetch_one. destruct (filter _ _) as [|r rest] eqn:Hf; [done|].
  assert (r ∈ filter (λ r, bool_decide (repo_id r = repository_id (row en))) (repositories s.1)) as Hr.
  { rewrite Hf. by left. }
  apply list_elem_of_filter in Hr as [Hk%bool_decide_unpack Hin].
  cbn. by rewrite enforce_spec, Hhide.
Qed.

(** ** Deadlines *)

Context (stable_policy : ∀ n m repository,
  resolve_active_policy_for_repo (ports n) repository = resolve_active_policy_for_repo (ports m) repository).

Lemma window_stable repository w w' :
  (run (resolve_quarantine_window ports repository) w).2 =
  (run (resolve_quarantine_window ports repository) w').2.
Proof.
  unfold resolve_quarantine_window, active_policy. rewrite !run_bind. cbn.
  rewrite (stable_policy (calls w) (calls w')).
  destruct (resolve_active_policy_for_repo _ _) as [policy|]; [| done]. cbn.
  by destruct (duration_seconds _).
Qed.

(** The hold of one row. *)
Lemma run_hydrate_held a anchor w a' :
  quarantine_status a = QS_Quarantined → quarantine_window_start a = Some anchor →
  (run (hydrate_quarantine_deadline ports a) w).2 = Ok a' →
  ∃ window d, (run (resolve_quarantine_window ports (repository_id a)) w).2 = Ok window ∧
    effective_quarantine_deadline anchor window.1 = Some d ∧ quarantine_deadline a' = Some d.
Proof.
  intros Hq Ha. unfold hydrate_quarantine_deadline. rewrite Hq, Ha, run_bind.
  destruct (run (resolve_quarantine_window _ _) w) as [w1 [window|]]; [| done].
  rewrite run_bind. unfold resolve_transient_hold. rewrite run_bind.
  destruct (effective_quarantine_deadline anchor window.1) as [d|] eqn:Hd; [| done]. cbn [panicking].
  change (run (mret d) w1) with (w1, @Ok AppError _ d). cbv beta iota. rewrite run_bind.
  destruct (run now w1) as [w2 [t|]]; [| done]. rewrite run_bind.
  match goal with |- context [run ?p w2] => destruct (run p w2) as [w3 [b|]] end; [| done].
  intros [= <-]. by exists window, d.
Qed.

(** The versions that are held, with their anchors. *)
Definition held_anchors (rows : list (string * QuarantineStatus * option DateTime))
    : list (string * DateTime) :=
  omap (λ '(version, status, anchor),
          if bool_decide (status = QS_Quarantined)
          then anchor ← anchor; Some (version, anchor) else None) rows.

Lemma run_deadlines repository package w ds :
  (run (package_hold_deadlines ports repository package) w).2 = Ok ds →
  ∃ rows, (run (package_version_anchors repository package) w).2 = Ok rows ∧
    ((held_anchors rows = [] ∧ ds = ∅) ∨
     ∃ w' window deadlines, (run (resolve_quarantine_window ports repository) w').2 = Ok window ∧
       Forall2 (λ '(version, anchor) '(version', d), version' = version ∧
         effective_quarantine_deadline anchor window.1 = Some d) (held_anchors rows) deadlines ∧
       ds = list_to_map (reverse deadlines)).
Proof.
  unfold package_hold_deadlines. rewrite run_bind.
  destruct (run (package_version_anchors _ _) w) as [w1 [rows|]]; [| done]. fold (held_anchors rows).
  intros Hrun. exists rows. split; [done|].
  destruct (is_empty (held_anchors rows)) eqn:Hempty.
  { injection Hrun as <-. left. by destruct (held_anchors rows). }
  right. rewrite run_bind in Hrun.
  destruct (run (resolve_quarantine_window _ _) w1) as [w2 [window|]] eqn:Hw; [| done].
  rewrite run_bind in Hrun. destruct (mapM _ (held_anchors rows)) as [deadlines|] eqn:Hm; [| done].
  injection Hrun as <-. exists w1, window, deadlines. rewrite Hw. split_and!; [done | | done].
  apply mapM_Some_1 in Hm. eapply Forall2_impl; [done|]. intros [v anchor] [v' d] Hd. cbn in Hd.
  destruct (effective_quarantine_deadline anchor window.1); simplify_eq/=. done.
Qed.

Lemma elem_of_held_anchors repository package w rows v anchor :
  (run (package_version_anchors repository package) w).2 = Ok rows →
  (v, anchor) ∈ held_anchors rows ↔
  ∃ k en, artifacts w !! k = Some en ∧ deleted_at (row en) = None ∧
    repository_id (row en) = repository ∧ Artifact.name (row en) = package ∧
    Artifact.version (row en) = Some v ∧ quarantine_status (row en) = QS_Quarantined ∧
    quarantine_window_start (row en) = Some anchor.
Proof.
  unfold package_version_anchors. rewrite run_select. intros [= <-]. unfold held_anchors.
  rewrite list_elem_of_omap. setoid_rewrite list_elem_of_omap. setoid_rewrite scan_order_perm.
  setoid_rewrite live_rows_elem. split.
  - intros ([[v' st] an] & (a & (k & en & Hk & Hd & [Hr Hn]%bool_decide_eq_true & ->) & Hv) & Hb).
    cbn in Hv. destruct (Artifact.version (row en)) as [v0|] eqn:Hv0; simplify_eq/=.
    case_bool_decide; [| done]. destruct (quarantine_window_start (row en)) eqn:Hw; simplify_eq/=.
    by exists k, en.
  - intros (k & en & Hk & Hd & Hr & Hn & Hv & Hq & Hw).
    exists (v, QS_Quarantined, Some anchor). split; [| done]. exists (hydrate (row en)). split.
    + exists k, en. split_and!; [done | done | by apply bool_decide_eq_true | done].
    + cbn. by rewrite Hv, Hq, Hw.
Qed.

(** The index and the download routes announce the same instant: for a held version of a
    package the deadline in the packument is the one behind the Retry-After of its
    tarball, whenever the two are read, while policies and the row stay as they are. *)
Theorem routes_announce_the_same_deadline repository package v anchor k en w w' ds a :
  artifacts w !! k = Some en → deleted_at (row en) = None → repository_id (row en) = repository →
  Artifact.name (row en) = package → Artifact.version (row en) = Some v →
  quarantine_status (row en) = QS_Quarantined → quarantine_window_start (row en) = Some anchor →
  (∀ k' en', artifacts w !! k' = Some en' → deleted_at (row en') = None →
     repository_id (row en') = repository → Artifact.name (row en') = package →
     Artifact.version (row en') = Some v → k' = k) →
  (run (package_hold_deadlines ports repository package) w).2 = Ok ds →
  (run (hydrate_quarantine_deadline ports (hydrate (row en))) w').2 = Ok a →
  is_Some (ds !! v) ∧ quarantine_deadline a = ds !! v.
Proof.
  intros Hk Hd Hr Hn Hv Hq Hw Hone Hds Ha.
  destruct (run_hydrate_held (hydrate (row en)) anchor _ _ Hq Hw Ha) as (window & d & Hwin & Hdl & ->).
  destruct (run_deadlines _ _ _ _ Hds) as (rows & Hrows & Hcases).
  assert ((v, anchor) ∈ held_anchors rows) as Hin.
  { apply (elem_of_held_anchors repository package w); [done|]. by exists k, en. }
  destruct Hcases as [[Hnil _] | (w2 & window2 & deadlines & Hwin2 & Hall & ->)].
  { rewrite Hnil in Hin. by apply elem_of_nil in Hin. }
  change (repository_id (hydrate (row en))) with (repository_id (row en)) in Hwin.
  rewrite Hr, (window_stable _ _ w2), Hwin2 in Hwin. injection Hwin as ->.
  assert (list_to_map (reverse deadlines) !! v = Some d) as ->; [| done].
  apply elem_of_list_to_map'.
  - intros x _ Hx. rewrite elem_of_reverse in Hx.
    apply list_elem_of_lookup in Hx as [i Hi].
    destruct (Forall2_lookup_r _ _ _ _ _ Hall Hi) as ([v' an'] & Hin'%list_elem_of_lookup_2 & -> & Hd').
    apply (elem_of_held_anchors repository package w) in Hin' as (k' & en' & Hk' & Hd2 & Hr' & Hn' & Hv' & _ & Hw');
      [| done].
    assert (k' = k) as -> by (by eapply Hone). by simplify_eq.
  - rewrite elem_of_reverse. apply list_elem_of_lookup in Hin as [i Hi].
    destruct (Forall2_lookup_l _ _ _ _ _ Hall Hi) as ([v' d'] & Hin'%list_elem_of_lookup_2 & -> & Hd').
    congruence.
Qed.
End reading.
