(* ===== verification/DownloadExamples.v ===== *)
(** Runs of the read paths: the witnesses of their theorems, and two ways in which they do
    less than the documentation says. *)

From Stdlib Require Import Ascii.
From coqutil Require Import Datatypes.RecordSetters.
From S2P Require Import Prelude.
From S2P Require Import RustStd.
From S2P Require Import Json.
From S2P Require Import Types.
From S2P Require Import Events.
From S2P Require Import QuarantineTransitions.
From S2P Require Import Artifact.
From S2P Require Import ScanEngine.
From S2P Require Import Store.
From S2P Require Import Lifecycle.
From S2P Require Import LifecycleSafety.
From S2P Require Import Concurrent.
From S2P Require Import ContentRefs.
From S2P Require Import PurgeExamples.
From S2P Require Import Rbac.
From S2P Require Import RepositoryAccess.
From S2P Require Import IndexServe.
From S2P Require Import TokenExamples.
From S2P Require Import Downloads.
From S2P Require Import NpmRoutes.
From S2P Require Import DownloadSafety.
From S2P Require Import DownloadPromise.
Import SampleAuth.
Import SampleServer.
Import SamplePurge.
Import DoubleBraceUpdate.

Module SampleServing.

(** Versions before no version; every text collates like every other. *)
Definition version_leb (a b : Artifact) : bool :=
  match Artifact.version a, Artifact.version b with
  | _, None => true
  | None, Some _ => false
  | Some _, Some _ => true
  end.

Lemma version_leb_sorted rows :
  Sorted (λ a b, match Artifact.version a, Artifact.version b with
                 | Some a, Some b => collate_le a b = true
                 | _, None => True
                 | None, Some _ => False
                 end) (sort_by version_leb rows).
Proof.
  assert (Sorted version_leb (sort_by version_leb rows)) as Hs.
  { apply sort_by_Sorted. intros x y. unfold version_leb.
    destruct (Artifact.version x), (Artifact.version y); auto. }
  induction Hs as [|a l Hl IH Hd]; constructor; [done|]. destruct Hd as [|b l Hb]; constructor.
  unfold version_leb in Hb. by destruct (Artifact.version a), (Artifact.version b).
Qed.

#[export, refine] Instance stable_rows : ArtifactQueries := {
  scan_order _ rows := rows;
  order_by_version _ rows := sort_by version_leb rows;
}.
Proof.
  - done.
  - intros _ rows. apply sort_by_Permutation.
  - intros _ rows. apply version_leb_sorted.
Defined.

(** Rows of the same version come in another order from the third query on. *)
#[refine] Instance unstable_rows : ArtifactQueries := {
  scan_order _ rows := rows;
  order_by_version n rows := sort_by version_leb (if (n <=? 2)%nat then rows else reverse rows);
}.
Proof.
  - done.
  - intros n rows. rewrite sort_by_Permutation. destruct (n <=? 2)%nat; [done|].
    apply reverse_Permutation.
  - intros n rows. apply version_leb_sorted.
Defined.

(** Names are not encoded, no metadata is in a blob, and every text is a header. *)
#[export] Instance plain_code : ServingCode :=
  {| urlencoding_decode := Some; blob_json := λ _, None; header_value := λ _, true |}.

Definition npm_row (id : Uuid) (v : string) (status : QuarantineStatus) : Entry :=
  {| row := (SampleStore.artifact id) {{ repository_id := 11 }} {{ Artifact.version := Some v }}
              {{ path := ("left-pad/-/left-pad-" +:+ v +:+ ".tgz")%string }}
              {{ sha256_checksum := blob }} {{ quarantine_status := status }};
     stream := [SampleStore.quarantined id] |}.

Definition released : Entry := npm_row 5 "1.0.0" QS_Released.
Definition held : Entry := npm_row 6 "1.1.0" QS_Quarantined.

Definition shelf : World :=
  {| artifacts := {[ 5 := released; 6 := held ]}; metadata_blobs := ∅; content_references := ∅;
     worklist := ∅; mutable_refs := []; storage := {[ blob ]}; leases := ∅; calls := 0 |}.

Definition audited : Repository := (repository 11 "open" true) {{ download_audit_enabled := true }}.

Definition shop : RepositoryWorld * ServingWorld :=
  ({| repositories := [repository 10 "secret" false; audited]; virtual_repo_members := [];
      repo_calls := 0 |},
   {| content := shelf; metadata_rows := ∅; download_audit := [] |}).

Definition no_pull (repo : Repository) (pkg version filename : string)
    : serve (result UpstreamPullError ()) := mret (Err NoUpstream).
Definition no_proxy (repo : Repository) (pkg : string) (caller : option CallerPrincipal)
    : serve IndexSourceOutput := Done (Err (artifact_not_found pkg)).

Definition everyone : RbacAccess := RA_Enabled [reader].
Definition answers (n : nat) : Ports := SampleLifecycle.ports.
End SampleServing.
Import SampleServing.

Lemma page_listings_are_exact_witness :
  (run (iterate_pages_capped (S := unit) 2 (λ page, mret {| items :=
     take (Z.to_nat (limit page)) (drop (Z.to_nat (offset page)) [1; 2; 3]); total := 3 |})) ()).2 =
  Ok {| ll_items := [1; 2]; ll_truncated := true |}.
Proof.
  match goal with |- (run (iterate_pages_capped _ ?fetch) _).2 = _ =>
    destruct (page_listings_are_exact (S := unit) 2 fetch ltac:(done)) as [_ Hexact] end.
  rewrite (Hexact [1; 2; 3]); [done|]. intros page s _ _. by exists 3.
Defined.

(** ** Tarballs *)

Definition get_tarball (file : string) (caller : option CallerPrincipal) : serve Response :=
  serve_tarball everyone answers 20 no_pull no_proxy "open" "left-pad" file caller.

Definition tarball : Response :=
  {| code := 200;
     headers := [("Content-Type", [ArgStr "application/gzip"]); ("Content-Length", [ArgInt 10])]%string;
     NpmRoutes.body := B_Stream blob |}.

Lemma served_bytes_are_in_service_witness :
  ∃ seen key', observes (get_tarball "left-pad-1.0.0.tgz" None) seen (Ok tarball) ∧
    leads_to everyone None "open" key' seen ∧
    serves_path everyone None key' "left-pad/-/left-pad-1.0.0.tgz" blob seen.
Proof.
  destruct (run_observes (λ _, True) (get_tarball "left-pad-1.0.0.tgz" None) shop I
    (keeps_anything _)) as [_ (seen & Hobs & _)].
  assert ((run (get_tarball "left-pad-1.0.0.tgz" None) shop).2 = Ok tarball) as Hrun by evaluate.
  rewrite Hrun in Hobs. exists seen.
  destruct (served_bytes_are_in_service _ _ _ _ _ _ _ _ _ _ _ blob Hobs eq_refl) as (key' & Hk & Hs).
  by exists key'.
Defined.

(** A held version is refused until its window ends, here at the end of the first day. *)
Lemma a_held_tarball_is_refused :
  (run (get_tarball "left-pad-1.1.0.tgz" None) shop).2 =
  Ok {| code := 503; headers := [("Retry-After"%string, [ArgInt 20])];
        NpmRoutes.body := json_error "artifact is quarantined" |}.
Proof. evaluate. Qed.

Lemma served_downloads_are_audited_witness :
  ∃ s a hash t, run (download 5 None) shop = (s, Ok (a, hash)) ∧
    download_audit s.2 = [] ++ audit_of a None t shop.1 ∧ length (audit_of a None t shop.1) = 1%nat.
Proof.
  destruct (run (download 5 None) shop) as [s r] eqn:Hrun.
  assert ((run (download 5 None) shop).2 = Ok (hydrate (row released), blob)) as Hr by evaluate.
  rewrite Hrun in Hr. cbn in Hr. subst r.
  destruct (served_downloads_are_audited ltac:(done) ltac:(done) ltac:(done) 5 None shop s _ Hrun)
    as [_ [t Ht]].
  exists s, (hydrate (row released)), blob, t. split_and!; [done | done | done].
Defined.

Lemma hidden_artifacts_look_missing_witness :
  let s := (shop.1, shop.2 {{ content := shelf {{ artifacts := {[ 5 := {| row := (row released)
              {{ repository_id := 10 }}; stream := stream released |} ]} }} }}) in
  (run (find_visible_by_id everyone answers 5 None) s).2 =
  (run (find_visible_by_id everyone answers 5 None) (without 5 s)).2.
Proof.
  cbv zeta.
  match goal with |- (run _ ?s).2 = _ =>
    eapply (hidden_artifacts_look_missing everyone answers ltac:(done) ltac:(done) 5 None s) end.
  - apply lookup_singleton_eq.
  - cbn. intros r Hr Hid. repeat (apply elem_of_cons in Hr as [-> | Hr]; [done|]). by apply elem_of_nil in Hr.
Defined.

(** ** The index and what is behind it *)

Lemma shop_names : names everyone "open" None audited shop.
Proof.
  split; [| right; by left | done | done | by left].
  unfold unique_keys. apply (bool_decide_unpack _). by vm_compute.
Qed.

Lemma shelf_entries k en :
  artifacts shelf !! k = Some en → (k = 5 ∧ en = released) ∨ (k = 6 ∧ en = held).
Proof. cbn. intros [[-> ->] | [_ [-> ->]%lookup_singleton_Some]]%lookup_insert_Some; auto. Qed.

Lemma shop_rows : unique_paths (content shop.2).
Proof.
  intros k en Hk. split_and!; [done | by destruct (shelf_entries k en Hk) as [[-> ->] | [-> ->]] |].
  intros k' en' Hk' _ Hp. destruct (shelf_entries k en Hk) as [[-> ->] | [-> ->]],
    (shelf_entries k' en' Hk') as [[-> ->] | [-> ->]]; done.
Qed.

Definition open_index : serve ResolvedIndex :=
  hosted_index everyone answers no_proxy "open" "left-pad" "https://hort.example" None.

Definition first_version : VersionEntry :=
  {| IndexServe.version := "1.0.0"; status := Some QS_Released;
     payload := PV_Npm {| name_as_published := "left-pad"; tarball_basename := "left-pad-1.0.0.tgz";
                          integrity := None; shasum := ""; manifest := [] |} |}.

Lemma listed_versions_can_be_downloaded_witness :
  ∃ s index, run open_index shop = (s, Ok index) ∧ first_version ∈ filtered index ∧
    ∃ resp, (run (get_tarball "left-pad-1.0.0.tgz" None) s).2 = Ok resp ∧ code resp = 200.
Proof.
  destruct (run open_index shop) as [s r] eqn:Hrun.
  assert ((λ r, match r with Ok i => filtered i | Err _ => [] end) (run open_index shop).2 = [first_version])
    as Hf by evaluate.
  rewrite Hrun in Hf. destruct r as [index|]; [| done]. cbn in Hf.
  assert (first_version ∈ filtered index) as Hin by (rewrite Hf; by left).
  exists s, index. split; [reflexivity |]. split; [exact Hin |].
  destruct (listed_versions_can_be_downloaded everyone answers 20 ltac:(done) ltac:(done) ltac:(done)
    no_pull no_proxy "open" "left-pad" "https://hort.example" None audited shop s index first_version
    shop_names shop_rows Hrun Hin) as [Ht (p & k & en & [= <-] & Hk & _ & Hv & Hd & Hserve)].
  destruct (shelf_entries k en Hk) as [[-> ->] | [-> ->]]; [| discriminate Hv].
  destruct (Hserve eq_refl s Ht) as (resp & Hresp & Hcode & _). exists resp. split; [exact Hresp | exact Hcode].
Defined.

Lemma held_is_alone k en :
  artifacts shelf !! k = Some en → deleted_at (row en) = None → repository_id (row en) = 11 →
  Artifact.name (row en) = "left-pad"%string → Artifact.version (row en) = Some "1.1.0"%string → k = 6.
Proof. intros [[-> ->] | [-> ->]]%shelf_entries; done. Qed.

Lemma routes_announce_the_same_deadline_witness :
  ∃ ds a, (run (package_hold_deadlines answers 11 "left-pad") shelf).2 = Ok ds ∧
    (run (hydrate_quarantine_deadline answers (hydrate (row held))) shelf).2 = Ok a ∧
    quarantine_deadline a = ds !! "1.1.0"%string ∧ is_Some (ds !! "1.1.0"%string).
Proof.
  destruct (run (package_hold_deadlines answers 11 "left-pad") shelf) as [w1 [ds|]] eqn:Hds; cycle 1.
  { assert (is_ok (run (package_hold_deadlines answers 11 "left-pad") shelf).2 = true) as Hok by evaluate.
    by rewrite Hds in Hok. }
  destruct (run (hydrate_quarantine_deadline answers (hydrate (row held))) shelf) as [w2 [a|]] eqn:Ha; cycle 1.
  { assert (is_ok (run (hydrate_quarantine_deadline answers (hydrate (row held))) shelf).2 = true) as Hok
      by evaluate.
    by rewrite Ha in Hok. }
  assert ((run (package_hold_deadlines answers 11 "left-pad") shelf).2 = Ok ds) as Hds'
    by (rewrite Hds; reflexivity).
  assert ((run (hydrate_quarantine_deadline answers (hydrate (row held))) shelf).2 = Ok a) as Ha'
    by (rewrite Ha; reflexivity).
  destruct (routes_announce_the_same_deadline answers ltac:(done) ltac:(done) 11 "left-pad" "1.1.0"
    0 6 held shelf shelf ds a eq_refl eq_refl eq_refl eq_refl eq_refl eq_refl eq_refl held_is_alone Hds' Ha')
    as [Hsome Heq].
  exists ds, a. split; [reflexivity |]. split; [reflexivity |]. split; [exact Heq | exact Hsome].
Defined.

(** ** Divergences *)

(** A package with one file more than a page holds, all of the same version. *)
Definition file (id : nat) : Uuid * Entry :=
  (Z.of_nat id,
   {| row := (row (npm_row (Z.of_nat id) "1.0.0" QS_Released))
        {{ path := String.append "left-pad/-/" (String.string_of_list_ascii (replicate id (ascii_of_nat 97))) }};
      stream := [] |}).
Definition crowd : World := shelf {{ artifacts := list_to_map (file <$> seq 1 1001) }}.

Definition crowd_listing : AppResult (LimitedList Artifact) :=
  (run (list_by_raw_name_limited (H1 := unstable_rows) 11 (λ n, n) "left-pad") crowd).2.

(** The two pages are cut from different orders: the list has as many files as the package
    and says that it is complete, and yet one file is missing and another is there twice. *)
Lemma pages_of_one_version_can_lose_a_file :
  match crowd_listing with
  | Ok l => len (ll_items l) = 1001 ∧ ll_truncated l = false ∧
      bool_decide (NoDup (artifact_id <$> ll_items l)) = false
  | Err _ => False
  end.
Proof.
  assert (match crowd_listing with
          | Ok l => (len (ll_items l), ll_truncated l, bool_decide (NoDup (artifact_id <$> ll_items l)))
          | Err _ => (0, true, true)
          end = (1001, false, false)) as Hv by evaluate.
  destruct crowd_listing as [l|]; [| discriminate Hv]. injection Hv as H1 H2 H3.
  rewrite H1, H2, H3. split_and!; reflexivity.
Qed.
