(* ===== verification/Liveness.v ===== *)
(** Is a scheduled task still running?  The three predicates the server evaluates when it
    boots, over the newest completion the [jobs] table knows:
    crates/hort-domain/src/policy/staging_sweep_liveness.rs,
    event_chain_verify_liveness.rs and rescan_drive_liveness.rs. *)

From S2P Require Import Prelude.
From S2P Require Import RustStd.
From S2P Require Import Types.

(** ** Runs at a fixed interval *)

(** [StagingSweepLiveness] and [EventChainVerifyLiveness]. *)
Inductive RunLiveness : Type :=
  | Healthy (age_secs : Z)
  | Overdue (age_secs threshold_secs : Z)
  | NeverRan.

Definition is_overdue (l : RunLiveness) : bool :=
  match l with Healthy _ => false | Overdue _ _ | NeverRan => true end.

(** [i64::saturating_mul] of values that are not negative. *)
Definition saturating_mul (a b : Z) : Z := Z.min (a * b) i64_MAX.

Definition staleness_threshold (expected_interval : Duration) (staleness_multiplier : Z) : Z :=
  saturating_mul (Z.min (expected_interval / NANOS) i64_MAX) staleness_multiplier.

Definition evaluate_staging_sweep_liveness (last_completed_at : option DateTime) (now : DateTime)
    (expected_interval : Duration) (staleness_multiplier : Z) : RunLiveness :=
  match last_completed_at with
  | None => NeverRan
  | Some last =>
      let age_secs := num_seconds (now - last) in
      let threshold_secs := staleness_threshold expected_interval staleness_multiplier in
      if threshold_secs <? age_secs then Overdue age_secs threshold_secs else Healthy age_secs
  end.

Definition evaluate_event_chain_verify_liveness (last_completed_at : option DateTime) (now : DateTime)
    (expected_interval : Duration) (staleness_multiplier : Z) : RunLiveness :=
  match last_completed_at with
  | None => NeverRan
  | Some last =>
      let age_secs := num_seconds (now - last) in
      let threshold_secs := staleness_threshold expected_interval staleness_multiplier in
      if threshold_secs <? age_secs then Overdue age_secs threshold_secs else Healthy age_secs
  end.

(** ** The declared rescan cadence *)

Record DeclaredCadence : Type := {
  interval_hours : Z;
  dc_policy_name : string;
}.

Inductive RescanDriveLiveness : Type :=
  | NoCadenceDeclared
  | Driven (cadence : DeclaredCadence) (age_secs threshold_secs : Z)
  | Stale (cadence : DeclaredCadence) (age_secs threshold_secs : Z)
  | NeverDriven (cadence : DeclaredCadence) (threshold_secs : Z).

Definition is_undriven (l : RescanDriveLiveness) : bool :=
  match l with Stale _ _ _ | NeverDriven _ _ => true | NoCadenceDeclared | Driven _ _ _ => false end.

Definition declares_cadence (p : ScanPolicyProjection) : bool :=
  negb (archived p) && (0 <? rescan_interval_hours p).

Definition cadence_leb (a b : ScanPolicyProjection) : bool :=
  (rescan_interval_hours a <? rescan_interval_hours b) ||
  ((rescan_interval_hours a =? rescan_interval_hours b) && str_leb (p_name a) (p_name b)).

(** [Iterator::min_by]: the first of the least elements. *)
Definition shortest_declared_cadence (policies : list ScanPolicyProjection) : option DeclaredCadence :=
  match filter (λ p, declares_cadence p) policies with
  | [] => None
  | p :: ps =>
      let least := foldl (λ best q, if cadence_leb best q then best else q) p ps in
      Some {| interval_hours := rescan_interval_hours least; dc_policy_name := p_name least |}
  end.

Definition evaluate_rescan_drive_liveness (policies : list ScanPolicyProjection)
    (last_completed_at : option DateTime) (now : DateTime) (staleness_multiplier : Z)
    : RescanDriveLiveness :=
  match shortest_declared_cadence policies with
  | None => NoCadenceDeclared
  | Some cadence =>
      let threshold_secs :=
        saturating_mul (saturating_mul (interval_hours cadence) 3600) staleness_multiplier in
      match last_completed_at with
      | None => NeverDriven cadence threshold_secs
      | Some last =>
          let age_secs := num_seconds (now - last) in
          if threshold_secs <? age_secs then Stale cadence age_secs threshold_secs
          else Driven cadence age_secs threshold_secs
      end
  end.

(** ** What they decide *)

Lemma foldl_least p ps :
  let least := foldl (λ best q, if cadence_leb best q then best else q) p ps in
  least ∈ p :: ps ∧ ∀ q, q ∈ p :: ps → rescan_interval_hours least ≤ rescan_interval_hours q.
Proof.
  revert p. induction ps as [| q ps IH]; intros p; cbn.
  { split; [set_solver|]. intros q ->%list_elem_of_singleton. lia. }
  set (best := if cadence_leb p q then p else q). destruct (IH best) as [H1 H2]. cbn in H1, H2.
  assert (rescan_interval_hours best ≤ rescan_interval_hours p ∧
          rescan_interval_hours best ≤ rescan_interval_hours q) as [? ?].
  { unfold best, cadence_leb. destruct (Z.ltb_spec (rescan_interval_hours p) (rescan_interval_hours q)); cbn; [lia|].
    destruct (Z.eqb_spec (rescan_interval_hours p) (rescan_interval_hours q)); cbn; [| lia].
    destruct (str_leb _ _); lia. }
  pose proof (H2 best (list_elem_of_here _ _)). split.
  - unfold best in H1 |- *. destruct (cadence_leb p q); set_solver.
  - intros r [-> | [-> | Hr]%elem_of_cons]%elem_of_cons; [lia | lia |]. apply H2. set_solver.
Qed.

(** The reported cadence is one an active policy declares, and none is shorter. *)
Theorem reported_cadence_is_shortest policies :
  match shortest_declared_cadence policies with
  | Some c =>
      (∃ p, p ∈ policies ∧ declares_cadence p = true ∧
            c = {| interval_hours := rescan_interval_hours p; dc_policy_name := p_name p |}) ∧
      ∀ p, p ∈ policies → declares_cadence p = true → interval_hours c ≤ rescan_interval_hours p
  | None => ∀ p, p ∈ policies → declares_cadence p = false
  end.
Proof.
  unfold shortest_declared_cadence. destruct (filter _ policies) as [| p ps] eqn:Hf.
  { intros p Hp. destruct (declares_cadence p) eqn:Hd; [| done].
    assert (p ∈ (@nil ScanPolicyProjection)) as []%elem_of_nil. rewrite <- Hf.
    apply list_elem_of_filter. split; [by apply Is_true_true | done]. }
  assert (∀ q, q ∈ policies ∧ declares_cadence q = true ↔ q ∈ p :: ps) as Hin.
  { intros q. rewrite <- Hf, list_elem_of_filter, Is_true_true. tauto. }
  destruct (foldl_least p ps) as [Hmem Hmin]. set (least := foldl _ p ps) in *.
  split.
  - exists least. apply Hin in Hmem as [? ?]. done.
  - intros q Hq Hd. by apply Hmin, Hin.
Qed.

(** A task is overdue exactly when it never ran, or ran more whole seconds ago than the
    threshold. *)
Theorem overdue_exactly last now interval multiplier :
  is_overdue (evaluate_staging_sweep_liveness last now interval multiplier) = true ↔
  ∀ t, last = Some t → staleness_threshold interval multiplier < num_seconds (now - t).
Proof.
  destruct last as [t|]; cbn; [| naive_solver].
  destruct (Z.ltb_spec (staleness_threshold interval multiplier) (num_seconds (now - t))); naive_solver lia.
Qed.

(** The comments say that a threshold of nothing makes every completion that is not in
    the future overdue; a completion less than a second ago is not. *)
Theorem a_fresh_run_is_never_overdue t now interval :
  t ≤ now < t + NANOS → is_overdue (evaluate_staging_sweep_liveness (Some t) now interval 0) = false.
Proof.
  intros Ht. cbn. replace (staleness_threshold interval 0) with 0.
  - unfold num_seconds. rewrite Z.quot_small by (unfold NANOS in *; lia). done.
  - unfold staleness_threshold, saturating_mul. rewrite Z.mul_0_r. done.
Qed.
