(* ===== verification/Jobs.v ===== *)
(** The queue of background work: the [jobs] table (migrations/009_scan_jobs_and_findings.sql
    with the kinds of 027_jobs_kind_jobs_row_retention_sweep.sql) behind the port of
    crates/hort-domain/src/ports/jobs_repository.rs, as the statements of
    crates/hort-adapters-postgres/src/jobs_repository.rs work on it.

    A statement is a function on the table and the time of its transaction, and a port
    call runs one.  What SQL leaves open is a parameter: the order rows are scanned in,
    the rows other transactions hold when [SKIP LOCKED] looks, the ids of new rows and
    the calls that fail.  [executions] records every claim of a row, with the attempt
    it was given; the code keeps no such record.

    A statement is atomic and happens at one instant.  So [created_at] is the time of
    the insertion, which for the [now()] of a longer transaction is the time of its start;
    the [SELECT] around a fenced write sees the table the write saw, where under READ
    COMMITTED a write that lost against a concurrent claim may still be told the number
    of attempts before that claim; and a call whose reply is lost after the commit is not
    modelled.  Timestamps beyond the range of [timestamptz] are not modelled, and neither
    are logs and metrics. *)

From coqutil Require Import Datatypes.RecordSetters.
From S2P Require Import Prelude.
From S2P Require Import RustStd.
From S2P Require Import Json.
From S2P Require Import Types.
From S2P Require Import Concurrent.
From S2P Require Import Rbac.
From S2P Require Import Tokens.
Import DoubleBraceUpdate.

(** ** Data *)

Inductive JobStatus : Type :=
  | Pending
  | Running
  | Completed
  | Failed.

#[export] Instance JobStatus_eq_dec : EqDecision JobStatus.
Proof. solve_decision. Defined.

#[export] Instance JobStatus_display : Display JobStatus := λ s,
  match s with
  | Pending => "pending"
  | Running => "running"
  | Completed => "completed"
  | Failed => "failed"
  end.

Inductive TriggerSource : Type :=
  | TS_Ingest
  | TS_Cron
  | TS_Advisory
  | TS_Manual.

Definition TriggerSource_from_str (s : string) : DomainResult TriggerSource :=
  match s with
  | "ingest" => Ok TS_Ingest
  | "cron" => Ok TS_Cron
  | "advisory" => Ok TS_Advisory
  | "manual" => Ok TS_Manual
  | other => Err (Validation [Lit "unknown trigger_source "; ArgStr other;
                              Lit " (expected one of 'ingest' | 'cron' | 'advisory' | 'manual')"])
  end%string.

(** A row of [public.jobs]. *)
Record Job : Type := {
  j_id : Uuid;
  j_kind : string;
  j_params : Value;
  j_actor_id : option Uuid;
  j_priority : Z;
  j_trigger_source : string;
  j_result_summary : option Value;
  j_target_key : option string;
  j_artifact_id : option Uuid;
  j_repository_id : option Uuid;
  j_content_hash : option string;
  j_format : option string;
  j_status : JobStatus;
  j_attempts : Z;
  j_locked_by : option string;
  j_locked_until : option DateTime;
  j_last_error : option string;
  j_idempotency_key : option string;
  j_created_at : DateTime;
  j_updated_at : DateTime;
  j_completed_at : option DateTime;
}.

Abbreviation Table := (gmap Uuid Job).

Record ScanKindFields : Type := {
  sk_artifact_id : Uuid;
  sk_repository_id : Uuid;
  sk_content_hash : ContentHash;
  sk_format : string;
}.

Inductive KindFields : Type :=
  | KF_Scan (fields : ScanKindFields)
  | KF_Other.

Record JobRow : Type := {
  jr_id : Uuid;
  jr_kind : string;
  jr_status : JobStatus;
  jr_params : option Value;
  jr_actor_id : option Uuid;
  jr_priority : Z;
  jr_trigger_source : string;
  jr_attempts : Z;
  jr_created_at : DateTime;
  jr_updated_at : DateTime;
  jr_completed_at : option DateTime;
  jr_last_error : option string;
  jr_result_summary : option Value;
  jr_kind_fields : KindFields;
}.

Record ScanJob : Type := {
  sj_id : Uuid;
  sj_artifact_id : Uuid;
  sj_repository_id : Uuid;
  sj_content_hash : ContentHash;
  sj_format : string;
  sj_status : JobStatus;
  sj_attempts : Z;
  sj_locked_by : option string;
  sj_locked_until : option DateTime;
  sj_last_error : option string;
  sj_created_at : DateTime;
  sj_updated_at : DateTime;
  sj_trigger_source : TriggerSource;
  sj_priority : Z;
}.

Inductive EnqueueOutcome : Type :=
  | Enqueued (job_id : Uuid)
  | Duplicate (existing_job_id : Uuid).

Inductive CompensatingDelete : Type :=
  | RolledBack
  | NoLongerPending.

Inductive ResultWriteOutcome : Type :=
  | Applied
  | Superseded (current_attempt : Z)
  | RowGone.

Inductive RequeueOutcome : Type :=
  | Requeued
  | RetriesExhausted.

#[export] Instance RequeueOutcome_eq_dec : EqDecision RequeueOutcome.
Proof. solve_decision. Defined.

Record RequeuedJob : Type := {
  rj_id : Uuid;
  rj_kind : string;
  rj_attempts : Z;
  rj_outcome : RequeueOutcome;
}.

Record PendingKindBacklog : Type := {
  pb_kind : string;
  pb_count : Z;
  pb_oldest_created_at : DateTime;
}.

Record ListJobsFilter : Type := {
  lf_kind : option string;
  lf_status : option JobStatus;
}.

Record ListJobsPage : Type := {
  lp_items : list JobRow;
  lp_next_cursor : option Uuid;
}.

Record PrefetchEnqueueRow : Type := {
  pe_kind : string;
  pe_params : Value;
  pe_priority : Z;
  pe_trigger_source : string;
  pe_target_key : string;
}.

Record IdempotentEnqueueRow : Type := {
  ie_kind : string;
  ie_params : Value;
  ie_priority : Z;
  ie_trigger_source : string;
  ie_idempotency_key : string;
}.

(** ** Kinds *)

(** The [jobs_kind_check] constraint in force. *)
Definition JOBS_KIND_CHECK : list string :=
  ["scan"; "cron-rescan-tick"; "advisory-watch-tick"; "retention-evaluate"; "retention-purge";
   "eventstore-archive"; "staging-sweep"; "noop"; "service-account-rotation";
   "eventstore-checkpoint"; "replay-seen-prune"; "quarantine-release-sweep"; "seed-import";
   "prefetch-tick"; "prefetch"; "prefetch-dependencies"; "prefetch-row-retention-sweep";
   "wheel-metadata-backfill"; "provenance-verify"; "scanner-registry-prune";
   "verify-event-chain"; "policy-reevaluation"; "oci-membership-edge-backfill";
   "scan-row-retention-sweep"; "oci-index-child-ingest"; "jobs-row-retention-sweep"]%string.

Definition TRIGGER_SOURCE_CHECK : list string :=
  ["manual"; "cron"; "advisory"; "ingest"; "seed-import"; "prefetch"; "self_service";
   "scheduled"]%string.

Definition REQUEUE_ON_LEASE_EXPIRY_KINDS : list string :=
  ["scan"; "provenance-verify"; "prefetch"; "prefetch-dependencies"; "prefetch-tick";
   "cron-rescan-tick"; "advisory-watch-tick"; "quarantine-release-sweep"; "policy-reevaluation";
   "replay-seen-prune"; "scanner-registry-prune"; "prefetch-row-retention-sweep";
   "scan-row-retention-sweep"; "jobs-row-retention-sweep"; "staging-sweep";
   "oci-index-child-ingest"; "oci-membership-edge-backfill"; "wheel-metadata-backfill";
   "noop"]%string.

Definition NO_REQUEUE_ON_LEASE_EXPIRY_KINDS : list string :=
  ["eventstore-archive"; "retention-purge"; "retention-evaluate"; "eventstore-checkpoint";
   "service-account-rotation"; "seed-import"; "verify-event-chain"]%string.

Definition REQUEUE_BACKOFF : Duration := 30 * NANOS.

Definition REQUEUE_LAST_ERROR : string :=
  "claim lease expired past the grace window without renewal — the worker holding this row      stopped heartbeating and is presumed dead".

(** ** Projections of a row *)

Definition decide_kind_fields (job_id : Uuid) (kind : string) (artifact_id repository_id : option Uuid)
    (content_hash : option ContentHash) (format : option string) : DomainResult KindFields :=
  let missing column :=
    Invariant [Lit "jobs row "; ArgUuid job_id; Lit ": kind='scan' but "; Lit column] in
  if negb (bool_decide (kind = "scan"%string)) then Ok KF_Other
  else
    artifact_id ← ok_or (missing "artifact_id was NULL/unprojected (RETURNING/SELECT clause missing the `artifact_id` column?)")
                     artifact_id;
    repository_id ← ok_or (missing "repository_id was NULL/unprojected") repository_id;
    content_hash ← ok_or (missing "content_hash was NULL/unprojected") content_hash;
    format ← ok_or (missing "format was NULL/unprojected") format;
    Ok (KF_Scan {| sk_artifact_id := artifact_id; sk_repository_id := repository_id;
                   sk_content_hash := content_hash; sk_format := format |}).

Definition negative_attempts (row : Job) : DomainError :=
  Invariant [Lit "jobs row "; ArgUuid (j_id row); Lit ": attempts is negative (";
             ArgInt (j_attempts row); Lit ")"].

(** [.as_deref().map(ContentHash::from_str).transpose()] *)
Definition stored_hash (row : Job) : DomainResult (option ContentHash) :=
  match j_content_hash row with
  | None => Ok None
  | Some s =>
      match ContentHash_from_str s with
      | Ok h => Ok (Some h)
      | Err e => Err (Invariant ([Lit "jobs row "; ArgUuid (j_id row);
                                  Lit ": content_hash not a valid SHA-256: "] ++ DomainError_display e))
      end
  end.

Definition row_to_job_row (row : Job) : DomainResult JobRow :=
  if j_attempts row <? 0 then Err (negative_attempts row)
  else
    content_hash ← stored_hash row;
    kind_fields ← decide_kind_fields (j_id row) (j_kind row) (j_artifact_id row)
                    (j_repository_id row) content_hash (j_format row);
    Ok {| jr_id := j_id row; jr_kind := j_kind row; jr_status := j_status row;
          jr_params := Some (j_params row); jr_actor_id := j_actor_id row;
          jr_priority := j_priority row; jr_trigger_source := j_trigger_source row;
          jr_attempts := j_attempts row; jr_created_at := j_created_at row;
          jr_updated_at := j_updated_at row; jr_completed_at := j_completed_at row;
          jr_last_error := j_last_error row; jr_result_summary := j_result_summary row;
          jr_kind_fields := kind_fields |}.

Definition row_to_scan_job (row : Job) : DomainResult ScanJob :=
  let null column :=
    Invariant [Lit "jobs row "; ArgUuid (j_id row); Lit ": kind='scan' has NULL "; Lit column] in
  artifact_id ← ok_or (null "artifact_id") (j_artifact_id row);
  repository_id ← ok_or (null "repository_id") (j_repository_id row);
  content_hash_str ← ok_or (null "content_hash") (j_content_hash row);
  content_hash ← map_err (λ e, Invariant ([Lit "jobs row "; ArgUuid (j_id row); Lit ": content_hash ";
                                           ArgStr content_hash_str; Lit " not a valid SHA-256: "]
                                          ++ DomainError_display e))
                   (ContentHash_from_str content_hash_str);
  format ← ok_or (null "format") (j_format row);
  if j_attempts row <? 0 then Err (negative_attempts row)
  else if negb ((0 <=? j_priority row) && (j_priority row <=? 255)) then
    Err (Invariant [Lit "jobs row "; ArgUuid (j_id row); Lit ": priority ";
                    ArgInt (j_priority row); Lit " outside u8 range"])
  else
    trigger_source ← map_err (λ e, Invariant ([Lit "jobs row "; ArgUuid (j_id row);
                                               Lit ": trigger_source "; ArgStr (j_trigger_source row);
                                               Lit " not a known literal: "] ++ DomainError_display e))
                       (TriggerSource_from_str (j_trigger_source row));
    Ok {| sj_id := j_id row; sj_artifact_id := artifact_id; sj_repository_id := repository_id;
          sj_content_hash := content_hash; sj_format := format; sj_status := j_status row;
          sj_attempts := j_attempts row; sj_locked_by := j_locked_by row;
          sj_locked_until := j_locked_until row; sj_last_error := j_last_error row;
          sj_created_at := j_created_at row; sj_updated_at := j_updated_at row;
          sj_trigger_source := trigger_source; sj_priority := j_priority row |}.

(** [priority DESC, created_at ASC, id ASC]. *)
Definition claimed_leb (a b : JobRow) : bool :=
  (jr_priority b <? jr_priority a) ||
  ((jr_priority a =? jr_priority b) &&
   ((jr_created_at a <? jr_created_at b) ||
    ((jr_created_at a =? jr_created_at b) && (jr_id a <=? jr_id b)))).

Definition sort_claimed_jobs (jobs : list JobRow) : list JobRow := sort_by claimed_leb jobs.

Definition claimed_scan_leb (a b : ScanJob) : bool :=
  (sj_priority b <? sj_priority a) ||
  ((sj_priority a =? sj_priority b) &&
   ((sj_created_at a <? sj_created_at b) ||
    ((sj_created_at a =? sj_created_at b) && (sj_id a <=? sj_id b)))).

Definition sort_claimed_scan_jobs (jobs : list ScanJob) : list ScanJob := sort_by claimed_scan_leb jobs.

(** ** State *)

Inductive AuditStream : Type :=
  | AS_Authorization
  | AS_EventstoreRetention.

Record TaskInvoked : Type := {
  ti_task_job_id : Uuid;
  ti_kind : string;
  ti_params_digest : string;
  ti_duplicate_of : option Uuid;
}.

(** The lease renewal beside a running handler: the row it renews, and the flag it
    shares with the handler.  A renewal whose guard was dropped is aborted. *)
Record LeaseRenewalGuard : Type := {
  g_job_id : Uuid;
  g_lost : bool;
  g_dropped : bool;
}.

Record JobWorld : Type := {
  jobs : Table;
  requesters : gmap Uuid User;
  grants : list PermissionGrant;
  (** The evaluator the server has loaded. *)
  evaluator : RbacEvaluator;
  (** The [TaskInvoked] events, with their stream and actor. *)
  task_audit : list (AuditStream * Uuid * TaskInvoked);
  guards : list LeaseRenewalGuard;
  (** Every claim so far: the row and the attempt it was given. *)
  executions : list (Uuid * Z);
  job_calls : nat;
}.

Definition job_tick (w : JobWorld) : JobWorld := w {{ job_calls ::= S }}.

(** What is not under the repository's control: which calls fail, the clock, the ids of
    new rows, the order rows are scanned in, what other transactions hold or have just
    committed, how formatted text prints and the digest of parameters. *)
Class JobBackend : Type := {
  job_fault : nat → option DomainError;
  job_clock : nat → DateTime;
  job_clock_mono : ∀ n m, (n ≤ m)%nat → job_clock n ≤ job_clock m;
  (** [gen_random_uuid()] in call [n], for the [i]-th row. *)
  gen_random_uuid : nat → nat → Uuid;
  gen_random_uuid_inj : ∀ n i m j, gen_random_uuid n i = gen_random_uuid m j → n = m ∧ i = j;
  row_order : nat → list Job → list Job;
  row_order_perm : ∀ n rows, row_order n rows ≡ₚ rows;
  row_locked : nat → Uuid → bool;
  (** A row that was committed after call [n] took its snapshot: a unique index sees it,
      a [SELECT] of the same statement does not. *)
  snapshot_misses : nat → Uuid → bool;
  to_text : fmt → string;
  (** [blake3] of the JSON of a value, in hex. *)
  params_digest : Value → string;
}.

(** [PgInterval]: whole microseconds, at most [i64::MAX] of them. *)
Definition duration_to_pg_interval (d : Duration) : Duration := Z.min (d / 1000) i64_MAX * 1000.

Definition is_finished (row : Job) : bool :=
  bool_decide (j_status row = Completed ∨ j_status row = Failed).

Definition in_flight (row : Job) : bool :=
  bool_decide (j_status row = Pending ∨ j_status row = Running).

(** *** Constraints *)

(** [jobs_scan_unique] *)
Definition scan_index (row : Job) : option Uuid :=
  if bool_decide (j_kind row = "scan"%string) && in_flight row then j_artifact_id row else None.

(** [jobs_prefetch_unique] and [jobs_prefetch_dependencies_unique] *)
Definition target_index (row : Job) : option (string * string) :=
  if bool_decide (j_kind row ∈ ["prefetch"; "prefetch-dependencies"]%string) && in_flight row then
    pair (j_kind row) <$> j_target_key row
  else None.

Definition shares {K} `{EqDecision K} (index : Job → option K) (a b : Job) : bool :=
  is_some (index a) && bool_decide (index a = index b).

Definition index_conflict (a b : Job) : bool :=
  shares scan_index a b || shares target_index a b || shares j_idempotency_key a b.

Definition idempotency_key_chk (key : string) : bool :=
  (1 <=? strlen key) && (strlen key <=? 256) &&
  forallb (λ b, is_digit b || is_upper b || is_lower b || bool_decide (b ∈ as_bytes "-_/:.")) (as_bytes key).

(** The [CHECK]s on a new row, and its reference to [users]. *)
Definition row_checks (w : JobWorld) (row : Job) : bool :=
  bool_decide (j_kind row ∈ JOBS_KIND_CHECK) &&
  (0 <=? j_priority row) && (j_priority row <=? 100) &&
  bool_decide (j_trigger_source row ∈ TRIGGER_SOURCE_CHECK) &&
  match j_idempotency_key row with Some key => idempotency_key_chk key | None => true end &&
  match j_actor_id row with Some actor => is_some (requesters w !! actor) | None => true end.

Definition check_violation : DomainError := Invariant [Lit "database error: violates a constraint"].

Definition already_exists (entity : string) : DomainError := Conflict [Lit entity; Lit " already exists"].

Definition out_of_range : DomainError := Invariant [Lit "database error: integer out of range"].

Definition i32_MAX : Z := 2 ^ 31 - 1.

(** ** Statements *)

Section statements.
Context `{JobBackend}.

(** [now()] in the next call. *)
Definition job_time (w : JobWorld) : DateTime := job_clock (job_calls w).

(** The rows of a table in the order call [n] scans them. *)
Definition scan_table (n : nat) (t : Table) : list Job := row_order n (map_to_list t).*2.

Definition scan_rows (w : JobWorld) : list Job := scan_table (job_calls w) (jobs w).

(** [UPDATE ... SET ... WHERE] *)
Definition update_where (P : Job → bool) (f : Job → Job) (t : Table) : Table :=
  (λ row, if P row then f row else row) <$> t.

Definition has_id (rows : list Job) (row : Job) : bool := bool_decide (j_id row ∈ j_id <$> rows).

(** *** Claims *)

Definition eligible (now : DateTime) (row : Job) : bool :=
  bool_decide (j_status row = Pending) &&
  match j_locked_until row with None => true | Some until => until <? now end.

(** A row the claim may take: [FOR UPDATE SKIP LOCKED]. *)
Definition claimable (kinds : list string) (w : JobWorld) (row : Job) : bool :=
  eligible (job_time w) row && bool_decide (j_kind row ∈ kinds) &&
  negb (row_locked (job_calls w) (j_id row)).

Definition oldest_leb (a b : Job) : bool :=
  (j_created_at a <? j_created_at b) ||
  ((j_created_at a =? j_created_at b) && (j_id a <=? j_id b)).

Definition ranked_leb (a b : Job) : bool :=
  (j_priority b <? j_priority a) ||
  ((j_priority a =? j_priority b) && (j_created_at a <=? j_created_at b)).

(** The reserved slot: the oldest row of any priority. *)
Definition oldest (kinds : list string) (batch_size : Z) (w : JobWorld) : list Job :=
  take (Z.to_nat (Z.min batch_size 1))
    (sort_by oldest_leb (filter (λ row, claimable kinds w row) (scan_rows w))).

Definition ranked (kinds : list string) (batch_size : Z) (w : JobWorld) : list Job :=
  take (Z.to_nat (Z.max (batch_size - 1) 0))
    (sort_by ranked_leb
       (filter (λ row, claimable kinds w row && negb (has_id (oldest kinds batch_size w) row))
          (scan_rows w))).

Definition start_execution (worker_id : string) (lock_duration : Duration) (now : DateTime) (row : Job)
    : Job :=
  row {{ j_status := Running; j_locked_by := Some worker_id;
         j_locked_until := Some (now + duration_to_pg_interval lock_duration);
         j_attempts ::= Z.add 1; j_updated_at := now }}.

Definition execution_of (row : Job) : Uuid * Z := (j_id row, j_attempts row).

(** The [UPDATE] of a claim, and the rows it returns. *)
Definition claim_rows (picked : list Job) (worker_id : string) (lock_duration : Duration) (w : JobWorld)
    : JobWorld * DomainResult (list Job) :=
  if existsb (λ row, j_attempts row =? i32_MAX) picked then (w, Err out_of_range)
  else
    let t := update_where (has_id picked) (start_execution worker_id lock_duration (job_time w)) (jobs w) in
    let rows := filter (λ row, has_id picked row) (scan_table (job_calls w) t) in
    (w {{ jobs := t; executions ::= λ es, es ++ (execution_of <$> rows) }}, Ok rows).

Definition claim_pending_sql (kinds : list string) (batch_size : Z) (worker_id : string)
    (lock_duration : Duration) (w : JobWorld) : JobWorld * DomainResult (list Job) :=
  claim_rows (oldest kinds batch_size w ++ ranked kinds batch_size w) worker_id lock_duration w.

Definition claim_scan_sql (batch_size : Z) (worker_id : string) (lock_duration : Duration) (w : JobWorld)
    : JobWorld * DomainResult (list Job) :=
  claim_rows
    (take (Z.to_nat batch_size)
       (sort_by ranked_leb (filter (λ row, claimable ["scan"%string] w row) (scan_rows w))))
    worker_id lock_duration w.

(** *** Leases *)

Definition holds (worker_id : string) (job_id : Uuid) (row : Job) : bool :=
  bool_decide (j_id row = job_id ∧ j_locked_by row = Some worker_id ∧ j_status row = Running).

(** Whether exactly one row was updated. *)
Definition renew_lease_sql (job_id : Uuid) (worker_id : string) (lock_duration : Duration) (w : JobWorld)
    : JobWorld * DomainResult bool :=
  let extend row := row {{ j_locked_until := Some (job_time w + duration_to_pg_interval lock_duration);
                           j_updated_at := job_time w }} in
  (w {{ jobs ::= update_where (holds worker_id job_id) extend }},
   Ok (match jobs w !! job_id with Some row => holds worker_id job_id row | None => false end)).

Definition abandoned (kinds : list string) (grace : Duration) (w : JobWorld) (row : Job) : bool :=
  bool_decide (j_status row = Running) && bool_decide (j_kind row ∈ kinds) &&
  match j_locked_until row with
  | Some until => until <? job_time w - duration_to_pg_interval grace
  | None => false
  end &&
  negb (row_locked (job_calls w) (j_id row)).

Definition lease_leb (a b : Job) : bool :=
  let until row := default 0 (j_locked_until row) in
  (until a <? until b) || ((until a =? until b) && (j_id a <=? j_id b)).

Definition requeue (attempt_cap : Z) (now : DateTime) (row : Job) : Job :=
  let exhausted := attempt_cap <=? j_attempts row in
  row {{ j_status := if exhausted then Failed else Pending; j_locked_by := None;
         j_locked_until := if exhausted then None
                           else Some (now + duration_to_pg_interval REQUEUE_BACKOFF);
         j_last_error := Some REQUEUE_LAST_ERROR; j_updated_at := now }}.

Definition requeue_abandoned_sql (kinds : list string) (grace : Duration) (attempt_cap batch_size : Z)
    (w : JobWorld) : JobWorld * list Job :=
  let picked := take (Z.to_nat batch_size)
                  (sort_by lease_leb (filter (λ row, abandoned kinds grace w row) (scan_rows w))) in
  let t := update_where (has_id picked) (requeue attempt_cap (job_time w)) (jobs w) in
  (w {{ jobs := t }}, filter (λ row, has_id picked row) (scan_table (job_calls w) t)).

(** *** Results *)

(** Another row holds a key that [row] would hold too. *)
Definition violates_index (row : Job) (t : Table) : bool :=
  existsb (λ other, negb (bool_decide (j_id other = j_id row)) && index_conflict row other)
    (map_to_list t).*2.

Definition fenced_result_write (set_clause : Job → Job) (job_id : Uuid) (attempt : Z) (w : JobWorld)
    : JobWorld * DomainResult ResultWriteOutcome :=
  match jobs w !! job_id with
  | None => (w, Ok RowGone)
  | Some row =>
      if j_attempts row =? attempt then
        let row' := (set_clause row) {{ j_updated_at := job_time w }} in
        if violates_index row' (jobs w) then (w, Err (already_exists "ScanJob"))
        else (w {{ jobs ::= <[job_id := row']> }}, Ok Applied)
      else if j_attempts row <? 0 then
        (w, Err (Invariant [Lit "job "; ArgUuid job_id; Lit ": attempts "; ArgInt (j_attempts row);
                            Lit " is negative; only the claim writes the column and it only ever increments"]))
      else (w, Ok (Superseded (j_attempts row)))
  end.

Definition completed_set (result_summary : Value) (now : DateTime) (row : Job) : Job :=
  row {{ j_status := Completed; j_completed_at := Some now;
         j_result_summary := if is_null result_summary then None else Some result_summary }}.

Definition reschedule_set (backoff : Duration) (last_error : string) (now : DateTime) (row : Job) : Job :=
  row {{ j_status := Pending; j_locked_by := None;
         j_locked_until := Some (now + duration_to_pg_interval backoff);
         j_last_error := Some last_error }}.

Definition failed_set (last_error : string) (row : Job) : Job :=
  row {{ j_status := Failed; j_last_error := Some last_error }}.

(** *** New rows *)

(** The columns of an [INSERT] and the defaults of the others, for the [i]-th row of the
    statement. *)
Definition new_row (i : nat) (kind : string) (params : Value) (actor_id : option Uuid) (priority : Z)
    (trigger_source : string) (w : JobWorld) : Job :=
  {| j_id := gen_random_uuid (job_calls w) i; j_kind := kind; j_params := params;
     j_actor_id := actor_id; j_priority := priority; j_trigger_source := trigger_source;
     j_result_summary := None; j_target_key := None; j_artifact_id := None; j_repository_id := None;
     j_content_hash := None; j_format := None; j_status := Pending; j_attempts := 0;
     j_locked_by := None; j_locked_until := None; j_last_error := None; j_idempotency_key := None;
     j_created_at := job_time w; j_updated_at := job_time w; j_completed_at := None |}.

Definition scan_row (artifact_id repository_id : Uuid) (content_hash : ContentHash) (format : string)
    (priority : Z) (trigger_source : string) (w : JobWorld) : Job :=
  (new_row 0 "scan" (VObject []) None priority trigger_source w)
    {{ j_artifact_id := Some artifact_id; j_repository_id := Some repository_id;
       j_content_hash := Some content_hash; j_format := Some format }}.

Inductive InsertOutcome : Type :=
  | Inserted
  | CheckFailed
  | KeyTaken.

(** One row of an [INSERT]: the [CHECK]s come before the unique indexes. *)
Definition insert_row (row : Job) (w : JobWorld) : JobWorld * InsertOutcome :=
  if negb (row_checks w row) then (w, CheckFailed)
  else if is_some (jobs w !! j_id row) || violates_index row (jobs w) then (w, KeyTaken)
  else (w {{ jobs ::= <[j_id row := row]> }}, Inserted).

(** [INSERT ... ON CONFLICT DO NOTHING RETURNING id] over several rows: all of it is
    undone when a [CHECK] fails. *)
Fixpoint insert_rows (rows : list Job) (w : JobWorld) : option (JobWorld * list Uuid) :=
  match rows with
  | [] => Some (w, [])
  | row :: rows' =>
      match insert_row row w with
      | (_, CheckFailed) => None
      | (w', KeyTaken) => insert_rows rows' w'
      | (w', Inserted) => '(w'', ids) ← insert_rows rows' w'; Some (w'', j_id row :: ids)
      end
  end.

Definition insert_batch (rows : list Job) (w : JobWorld) : JobWorld * DomainResult (list Uuid) :=
  match insert_rows rows w with
  | Some (w', ids) => (w', Ok ids)
  | None => (w, Err check_violation)
  end.

Definition enqueue_scan_sql (artifact_id repository_id : Uuid) (content_hash : ContentHash)
    (format : string) (priority : Z) (trigger_source : string) (w : JobWorld)
    : JobWorld * DomainResult Uuid :=
  let row := scan_row artifact_id repository_id content_hash format priority trigger_source w in
  match insert_row row w with
  | (w', Inserted) => (w', Ok (j_id row))
  | (_, KeyTaken) => (w, Err (Conflict [Lit "scan job already exists for artifact "; ArgUuid artifact_id]))
  | (_, CheckFailed) => (w, Err check_violation)
  end.

Definition enqueue_task_sql (kind : string) (params : Value) (actor_id : option Uuid) (priority : Z)
    (trigger_source : string) (idempotency_key : option string) (w : JobWorld)
    : JobWorld * DomainResult EnqueueOutcome :=
  let row := (new_row 0 kind params actor_id priority trigger_source w)
               {{ j_idempotency_key := idempotency_key }} in
  match insert_row row w with
  | (w', Inserted) => (w', Ok (Enqueued (j_id row)))
  | (_, CheckFailed) => (w, Err check_violation)
  | (_, KeyTaken) =>
      let same other := is_some idempotency_key && bool_decide (j_idempotency_key other = idempotency_key) in
      let seen other := same other && negb (snapshot_misses (job_calls w) (j_id other)) in
      if negb (existsb same (scan_rows w)) then (w, Err (already_exists "Job"))
      else
        match filter (λ other, seen other) (scan_rows w) with
        | other :: _ => (w, Ok (Duplicate (j_id other)))
        | [] => (w, Err (NotFound "Job" [ArgStr kind]))
        end
  end.

Definition record_run_completion_sql (kind : string) (at_ : DateTime) (w : JobWorld)
    : JobWorld * DomainResult unit :=
  let row := (new_row 0 kind (VObject []) None 0 "scheduled" w)
               {{ j_status := Completed; j_completed_at := Some at_ }} in
  match insert_row row w with
  | (w', Inserted) => (w', Ok ())
  | (_, CheckFailed) => (w, Err check_violation)
  | (_, KeyTaken) => (w, Err (already_exists "Job"))
  end.

Definition prefetch_row (w : JobWorld) (i : nat) (r : PrefetchEnqueueRow) : Job :=
  (new_row i (pe_kind r) (pe_params r) None (pe_priority r) (pe_trigger_source r) w)
    {{ j_target_key := Some (pe_target_key r) }}.

Definition idempotent_row (w : JobWorld) (i : nat) (r : IdempotentEnqueueRow) : Job :=
  (new_row i (ie_kind r) (ie_params r) None (ie_priority r) (ie_trigger_source r) w)
    {{ j_idempotency_key := Some (ie_idempotency_key r) }}.

(** *** Deletes *)

Definition delete_where (P : Job → bool) (t : Table) : Table := filter (λ kv, P kv.2 = false) t.

Definition delete_pending_job_sql (job_id : Uuid) (w : JobWorld) : JobWorld * DomainResult CompensatingDelete :=
  match jobs w !! job_id with
  | Some row =>
      if bool_decide (j_status row = Pending) then (w {{ jobs ::= delete job_id }}, Ok RolledBack)
      else (w, Ok NoLongerPending)
  | None => (w, Ok NoLongerPending)
  end.

(** [kind LIKE 'prefetch%'] *)
Definition like_prefetch (kind : string) : bool :=
  is_some (strip_prefix (as_bytes "prefetch") (as_bytes kind)).

Definition aged (now : DateTime) (horizon : Duration) (row : Job) : bool :=
  j_updated_at row <? now - duration_to_pg_interval horizon.

Definition prefetch_sweep_kind (kind : string) : bool :=
  (like_prefetch kind && negb (bool_decide (kind = "prefetch-tick"))) ||
  bool_decide (kind = "oci-index-child-ingest")%string.

Definition other_sweep_kind (kind : string) : bool :=
  (negb (like_prefetch kind) || bool_decide (kind = "prefetch-tick")) &&
  negb (bool_decide (kind ∈ ["scan"; "oci-index-child-ingest"]%string)).

Definition prefetch_swept (now : DateTime) (horizon : Duration) (row : Job) : bool :=
  prefetch_sweep_kind (j_kind row) && is_finished row && aged now horizon row.

Definition scan_swept (now : DateTime) (horizon : Duration) (row : Job) : bool :=
  bool_decide (j_kind row = "scan"%string) && is_finished row && aged now horizon row.

(** [max] over a group; [None] when every value is [NULL]. *)
Definition sql_max (values : list (option Z)) : option Z :=
  foldr (λ v acc, match v, acc with
                  | Some x, Some y => Some (Z.max x y)
                  | Some x, None => Some x
                  | None, acc => acc
                  end) None values.

(** The terminal rows of a kind, as the [live] query groups them. *)
Definition live_group (t : Table) (kind : string) : list Job :=
  filter (λ row, is_finished row && other_sweep_kind (j_kind row) && bool_decide (j_kind row = kind))
    (map_to_list t).*2.

Definition newest_completed_at (t : Table) (kind : string) : option DateTime :=
  sql_max (j_completed_at <$> filter (λ row, j_status row = Completed) (live_group t kind)).

Definition newest_created_at (t : Table) (kind : string) : option DateTime :=
  sql_max (Some ∘ j_created_at <$> live_group t kind).

Definition other_swept (now : DateTime) (horizon : Duration) (t : Table) (row : Job) : bool :=
  other_sweep_kind (j_kind row) && is_finished row && aged now horizon row &&
  negb (bool_decide (j_status row = Completed ∧ j_completed_at row = newest_completed_at t (j_kind row))) &&
  negb (bool_decide (newest_created_at t (j_kind row) = Some (j_created_at row))).

(** The rows deleted and how many there were. *)
Definition sweep (P : Job → bool) (w : JobWorld) : JobWorld * DomainResult Z :=
  (w {{ jobs ::= delete_where P }}, Ok (len (filter (λ row, P row) (scan_rows w)))).

(** *** Reads *)

Definition last_completed_at (t : Table) (kind : string) : option DateTime :=
  sql_max (j_completed_at <$>
    filter (λ row, j_kind row = kind ∧ j_status row = Completed) (map_to_list t).*2).

(** [ORDER BY completed_at DESC]: [NULL] comes first. *)
Definition completed_geb (a b : Job) : bool :=
  match j_completed_at a, j_completed_at b with
  | None, _ => true
  | Some _, None => false
  | Some x, Some y => y <=? x
  end.

Definition last_result_summary (n : nat) (t : Table) (kind : string) : option Value :=
  match sort_by completed_geb
          (filter (λ row, j_kind row = kind ∧ j_status row = Completed) (scan_table n t)) with
  | row :: _ => j_result_summary row
  | [] => None
  end.

(** [LIMIT 1] over the rows in flight. *)
Definition active_id (P : Job → bool) (w : JobWorld) : option Uuid :=
  j_id <$> head (filter (λ row, in_flight row && P row) (scan_rows w)).
End statements.

(** ** The port *)

Section repository.
Context `{JobBackend}.

Abbreviation queue := (prog JobWorld).

(** One statement; a call that fails has no effect. *)
Definition statement {E A} (f : JobWorld → JobWorld * DomainResult A) : queue E (DomainResult A) :=
  port (λ w, match job_fault (job_calls w) with
             | Some e => (job_tick w, Err e)
             | None => let '(w', r) := f w in (job_tick w', r)
             end).

Definition query {E A} (f : JobWorld → DomainResult A) : queue E (DomainResult A) :=
  statement (λ w, (w, f w)).

(** *** Results *)

Definition mark_completed {E} (job_id : Uuid) (attempt : Z) (result_summary : Value)
    : queue E (DomainResult ResultWriteOutcome) :=
  statement (λ w, fenced_result_write (completed_set result_summary (job_time w)) job_id attempt w).

Definition reschedule {E} (job_id : Uuid) (attempt : Z) (backoff : Duration) (last_error : string)
    : queue E (DomainResult ResultWriteOutcome) :=
  statement (λ w, fenced_result_write (reschedule_set backoff last_error (job_time w)) job_id attempt w).

Definition mark_failed {E} (job_id : Uuid) (attempt : Z) (last_error : string)
    : queue E (DomainResult ResultWriteOutcome) :=
  statement (fenced_result_write (failed_set last_error) job_id attempt).

(** *** Claims *)

(** [address_claimed_row] *)
Definition address_claimed_row (row : Job) : option (Uuid * Z) :=
  if j_attempts row <? 0 then None else Some (execution_of row).

(** The loop over the claimed rows: those that project, and the others with the reason. *)
Fixpoint project_claimed (rows : list Job) : list JobRow * list (Uuid * Z * string) :=
  match rows with
  | [] => ([], [])
  | row :: rows' =>
      let '(jobs, unmappable) := project_claimed rows' in
      match row_to_job_row row with
      | Ok job => (job :: jobs, unmappable)
      | Err e =>
          match address_claimed_row row with
          | Some execution => (jobs, (execution, to_text (DomainError_display e)) :: unmappable)
          | None => (jobs, unmappable)
          end
      end
  end.

Fixpoint fail_unmappable {E} (unmappable : list (Uuid * Z * string)) : queue E unit :=
  match unmappable with
  | [] => mret ()
  | (id, attempt, reason) :: unmappable' => mark_failed id attempt reason ;; fail_unmappable unmappable'
  end.

Definition claim_pending_by_kinds {E} (kinds : list string) (batch_size : Z) (worker_id : string)
    (lock_duration : Duration) : queue E (DomainResult (list JobRow)) :=
  claimed ← statement (claim_pending_sql kinds batch_size worker_id lock_duration);
  match claimed with
  | Err e => mret (Err e)
  | Ok rows =>
      let '(jobs, unmappable) := project_claimed rows in
      fail_unmappable unmappable ;;
      mret (Ok (sort_claimed_jobs jobs))
  end.

Definition claim_scan_jobs {E} (worker_id : string) (batch_size : Z) (lock_duration : Duration)
    : queue E (DomainResult (list ScanJob)) :=
  claimed ← statement (claim_scan_sql batch_size worker_id lock_duration);
  mret (rows ← claimed; jobs ← mapM row_to_scan_job rows; Ok (sort_claimed_scan_jobs jobs)).

(** *** Leases *)

Definition renew_lease {E} (job_id : Uuid) (worker_id : string) (lock_duration : Duration)
    : queue E (DomainResult bool) :=
  statement (renew_lease_sql job_id worker_id lock_duration).

Definition requeued_job (row : Job) : DomainResult RequeuedJob :=
  outcome ← match j_status row with
            | Pending => Ok Requeued
            | Failed => Ok RetriesExhausted
            | other => Err (Invariant [Lit "requeue_abandoned returned status "; ArgStr (display other);
                                       Lit "; the CASE produces only 'pending' or 'failed'"])
            end;
  Ok {| rj_id := j_id row; rj_kind := j_kind row;
        rj_attempts := if j_attempts row <? 0 then u32_MAX else j_attempts row;
        rj_outcome := outcome |}.

Definition requeue_abandoned {E} (kinds : list string) (grace : Duration) (attempt_cap batch_size : Z)
    : queue E (DomainResult (list RequeuedJob)) :=
  if is_empty kinds then mret (Ok [])
  else
    statement (λ w, let '(w', rows) := requeue_abandoned_sql kinds grace attempt_cap batch_size w in
                    (w', mapM requeued_job rows)).

(** *** New rows *)

Definition enqueue_scan {E} (artifact_id repository_id : Uuid) (content_hash : ContentHash)
    (format : string) (priority : Z) (trigger_source : string) : queue E (DomainResult Uuid) :=
  statement (enqueue_scan_sql artifact_id repository_id content_hash format priority trigger_source).

(** Inside the transaction of an ingest: a taken key is no error. *)
Definition enqueue_scan_in_tx {E} (artifact_id repository_id : Uuid) (content_hash : ContentHash)
    (format : string) (priority : Z) (trigger_source : string) : queue E (DomainResult unit) :=
  statement (λ w,
    let row := scan_row artifact_id repository_id content_hash format priority trigger_source w in
    let '(w', r) := insert_batch [row] w in (w', ids ← r; Ok ())).

Definition enqueue_provenance_verify_in_tx {E} (artifact_id : Uuid) (priority : Z)
    (trigger_source : string) : queue E (DomainResult unit) :=
  statement (λ w,
    let params := VObject [("artifact_id"%string, VString (to_text [ArgUuid artifact_id]))] in
    match insert_row (new_row 0 "provenance-verify" params None priority trigger_source w) w with
    | (w', Inserted) => (w', Ok ())
    | (_, CheckFailed) => (w, Err check_violation)
    | (_, KeyTaken) => (w, Err (already_exists "ProvenanceVerifyJob"))
    end).

Definition enqueue_task {E} (kind : string) (params : Value) (actor_id : option Uuid) (priority : Z)
    (trigger_source : string) (idempotency_key : option string) : queue E (DomainResult EnqueueOutcome) :=
  statement (enqueue_task_sql kind params actor_id priority trigger_source idempotency_key).

Definition record_run_completion {E} (kind : string) (at_ : DateTime) : queue E (DomainResult unit) :=
  statement (record_run_completion_sql kind at_).

(** The loop over the kinds of a batch, in the order of the [BTreeMap]. *)
Fixpoint enqueue_prefetch_kinds {E} (kinds : list string) (rows : list PrefetchEnqueueRow)
    (inserted : list Uuid) : queue E (DomainResult (list Uuid)) :=
  match kinds with
  | [] => mret (Ok inserted)
  | kind :: kinds' =>
      if bool_decide (kind ∈ ["prefetch"; "prefetch-dependencies"]%string) then
        let kind_rows := filter (λ r, pe_kind r = kind) rows in
        ids ← statement (λ w, insert_batch (imap (prefetch_row w) kind_rows) w);
        match ids with
        | Ok ids => enqueue_prefetch_kinds kinds' rows (inserted ++ ids)
        | Err e => mret (Err e)
        end
      else
        mret (Err (Invariant [Lit "enqueue_prefetch_batch: unsupported kind "; ArgStr kind;
                              Lit " (only 'prefetch' and 'prefetch-dependencies' are valid)"]))
  end.

Definition enqueue_prefetch_batch {E} (rows : list PrefetchEnqueueRow) : queue E (DomainResult (list Uuid)) :=
  enqueue_prefetch_kinds (sort_by str_leb (remove_dups (pe_kind <$> rows))) rows [].

Definition enqueue_idempotent_batch {E} (rows : list IdempotentEnqueueRow)
    : queue E (DomainResult (list Uuid)) :=
  if is_empty rows then mret (Ok [])
  else statement (λ w, insert_batch (imap (idempotent_row w) rows) w).

(** *** Deletes *)

Definition delete_job {E} (job_id : Uuid) : queue E (DomainResult CompensatingDelete) :=
  statement (delete_pending_job_sql job_id).

Definition delete_terminal_prefetch_rows_older_than {E} (horizon : Duration) : queue E (DomainResult Z) :=
  statement (λ w, sweep (prefetch_swept (job_time w) horizon) w).

Definition delete_terminal_scan_rows_older_than {E} (horizon : Duration) : queue E (DomainResult Z) :=
  statement (λ w, sweep (scan_swept (job_time w) horizon) w).

Definition delete_terminal_other_kind_rows_older_than {E} (horizon : Duration) : queue E (DomainResult Z) :=
  statement (λ w, sweep (other_swept (job_time w) horizon (jobs w)) w).

(** *** Reads *)

Definition last_completed_at_by_kind {E} (kind : string) : queue E (DomainResult (option DateTime)) :=
  query (λ w, Ok (last_completed_at (jobs w) kind)).

Definition last_result_summary_by_kind {E} (kind : string) : queue E (DomainResult (option Value)) :=
  query (λ w, Ok (last_result_summary (job_calls w) (jobs w) kind)).

Definition find_active_scan_for_artifact {E} (artifact_id : Uuid) : queue E (DomainResult (option Uuid)) :=
  query (λ w, Ok (active_id (λ row, bool_decide (j_kind row = "scan"%string) &&
                                    bool_decide (j_artifact_id row = Some artifact_id)) w)).

(** [params->>'artifact_id'] is the text of a string; the text of any other value is not
    that of an id. *)
Definition find_active_provenance_for_artifact {E} (artifact_id : Uuid)
    : queue E (DomainResult (option Uuid)) :=
  let names row :=
    match as_object (j_params row) ≫= map_get "artifact_id" with
    | Some (VString s) => bool_decide (s = to_text [ArgUuid artifact_id])
    | _ => false
    end in
  query (λ w, Ok (active_id (λ row, bool_decide (j_kind row = "provenance-verify"%string) && names row) w)).

Definition pending_scan_count {E} : queue E (DomainResult Z) :=
  query (λ w, Ok (len (filter (λ row, j_kind row = "scan"%string ∧ j_status row = Pending) (scan_rows w)))).

(** One group per kind. *)
Definition backlog_of (rows : list Job) (kind : string) : PendingKindBacklog :=
  let group := filter (λ row, j_kind row = kind) rows in
  {| pb_kind := kind; pb_count := len group;
     pb_oldest_created_at :=
       match j_created_at <$> group with t :: ts => foldr Z.min t ts | [] => 0 end |}.

Definition eligible_pending_by_kind {E} : queue E (DomainResult (list PendingKindBacklog)) :=
  query (λ w,
    let rows := filter (λ row, eligible (job_time w) row) (scan_rows w) in
    Ok (backlog_of rows <$> remove_dups (j_kind <$> rows))).

Definition page_size (limit : Z) : Z :=
  if limit =? 0 then 51 else if 500 <? limit then 501 else limit + 1.

Definition listed (filter : ListJobsFilter) (cursor : option Uuid) (row : Job) : bool :=
  match cursor with Some c => j_id row <? c | None => true end &&
  match lf_kind filter with Some kind => bool_decide (j_kind row = kind) | None => true end &&
  match lf_status filter with Some status => bool_decide (j_status row = status) | None => true end.

Definition list_jobs {E} (filter_by : ListJobsFilter) (limit : Z) (cursor : option Uuid)
    : queue E (DomainResult ListJobsPage) :=
  query (λ w,
    let rows := take (Z.to_nat (page_size limit))
                  (sort_by (λ a b, j_id b <=? j_id a)
                     (filter (λ row, listed filter_by cursor row) (scan_rows w))) in
    let display_limit := Z.to_nat (page_size limit - 1) in
    let has_more := bool_decide (display_limit < length rows)%nat in
    let rows := if has_more then take display_limit rows else rows in
    items ← mapM row_to_job_row rows;
    Ok {| lp_items := items; lp_next_cursor := if has_more then jr_id <$> last items else None |}).

Definition get_job {E} (job_id : Uuid) : queue E (DomainResult (option JobRow)) :=
  query (λ w, match jobs w !! job_id with
              | Some row => job ← row_to_job_row row; Ok (Some job)
              | None => Ok None
              end).
End repository.
