(* ===== verification/TaskDispatch.v ===== *)
(** Background tasks: who may ask for one, and how a worker runs it.

    The kinds of tasks and which of them destroy something
    (crates/hort-domain/src/events/authorization_events.rs), the outcome of a handler
    (crates/hort-domain/src/ports/task_handler.rs), the use case behind the admin routes
    (crates/hort-app/src/use_cases/task_use_case.rs), the second check of a requester's
    authority (crates/hort-app/src/destructive_task_reauthorization.rs), the wait before
    a retry (crates/hort-app/src/retry_backoff.rs), the fence around results
    (crates/hort-app/src/result_write_fence.rs) and the poll loop
    (crates/hort-app/src/task_dispatcher.rs).

    A handler of a kind is a parameter.  [tokio::spawn] starts a handler of the pool at
    any later time, so the wait for a permit of the kind's semaphore is a delay before
    [dispatch_one].  The renewal of a lease is a handler of its own, which shares a
    guard with the task it belongs to. *)

From coqutil Require Import Datatypes.RecordSetters.
From S2P Require Import Prelude.
From S2P Require Import RustStd.
From S2P Require Import Json.
From S2P Require Import Types.
From S2P Require Import Store.
From S2P Require Import RetentionUseCase.
From S2P Require Import Concurrent.
From S2P Require Import Rbac.
From S2P Require Import Tokens.
From S2P Require Import Jobs.
Import DoubleBraceUpdate.

(** ** Kinds *)

Definition ADMIN_INVOKABLE_TASK_KINDS : list string :=
  ["cron-rescan-tick"; "advisory-watch-tick"; "retention-evaluate"; "retention-purge";
   "eventstore-archive"; "staging-sweep"; "noop"; "service-account-rotation";
   "eventstore-checkpoint"; "replay-seen-prune"; "quarantine-release-sweep"; "seed-import";
   "prefetch-tick"; "prefetch"; "prefetch-dependencies"; "prefetch-row-retention-sweep";
   "scan-row-retention-sweep"; "jobs-row-retention-sweep"; "wheel-metadata-backfill";
   "provenance-verify"; "scanner-registry-prune"; "policy-reevaluation";
   "oci-membership-edge-backfill"]%string.

Definition EVENT_TASK_KINDS : list string :=
  ["scan"; "cron-rescan-tick"; "advisory-watch-tick"; "retention-evaluate"; "retention-purge";
   "eventstore-archive"; "staging-sweep"; "noop"; "service-account-rotation";
   "eventstore-checkpoint"; "replay-seen-prune"; "quarantine-release-sweep"; "seed-import";
   "prefetch-tick"; "prefetch"; "prefetch-dependencies"; "prefetch-row-retention-sweep";
   "scan-row-retention-sweep"; "jobs-row-retention-sweep"; "wheel-metadata-backfill";
   "provenance-verify"; "scanner-registry-prune"; "verify-event-chain"; "policy-reevaluation";
   "oci-membership-edge-backfill"; "oci-index-child-ingest"]%string.

Definition DESTRUCTIVE_TASK_KINDS : list string :=
  ["retention-evaluate"; "retention-purge"; "eventstore-archive"]%string.

Definition DESTRUCTIVE_TASK_CLAIM : string := "task:destructive".

Definition RETENTION_EVALUATE_TASK_KIND : string := "retention-evaluate".

Definition task_kind_is_destructive (kind : string) : bool :=
  bool_decide (kind ∈ DESTRUCTIVE_TASK_KINDS).

Definition RetentionEvaluationMode_from_str (value : string) : result string RetentionEvaluationMode :=
  match value with
  | "execute" => Ok Execute
  | "dry_run" => Ok DryRun
  | _ => Err "mode must be one of: execute, dry_run"
  end%string.

Definition retention_evaluate_mode (params : Value) : DomainResult RetentionEvaluationMode :=
  let raw := default "execute"%string ((as_object params ≫= map_get "mode") ≫= as_str) in
  map_err (λ message, Validation [Lit message]) (RetentionEvaluationMode_from_str raw).

Definition task_invocation_is_destructive (kind : string) (params : Value) : DomainResult bool :=
  if negb (task_kind_is_destructive kind) then Ok false
  else if negb (bool_decide (kind = RETENTION_EVALUATE_TASK_KIND)) then Ok true
  else mode ← retention_evaluate_mode params; Ok (is_destructive mode).

(** ** The outcome of a handler *)

Definition REASON_MAX_BYTES : nat := 4096.

Inductive TaskOutcome : Type :=
  | TO_Completed (result_summary : Value)
  | TO_Failed (reason : string) (retry : bool).

Definition TaskOutcome_fail (reason : string) (retry : bool) : TaskOutcome :=
  TO_Failed
    (if bool_decide (REASON_MAX_BYTES < String.length reason)%nat then
       String.substring 0 (floor_char_boundary reason REASON_MAX_BYTES) reason
     else reason) retry.

(** ** Waiting and retrying *)

Definition DEFAULT_MAX_ATTEMPTS : Z := 6.

Definition compute_backoff (attempts : Z) : Duration :=
  if attempts <=? 1 then 60 * NANOS
  else if attempts =? 2 then 5 * 60 * NANOS
  else if attempts =? 3 then 30 * 60 * NANOS
  else 60 * 60 * NANOS.

(** Whether the result landed. *)
Definition surface_result_write (outcome : ResultWriteOutcome) : bool :=
  match outcome with Applied => true | Superseded _ | RowGone => false end.

Definition surface_attempted_result_write (written : DomainResult ResultWriteOutcome) : bool :=
  match written with Ok outcome => surface_result_write outcome | Err _ => false end.

(** ** Starvation *)

Inductive StarvationReason : Type :=
  | STARVED_UNREGISTERED
  | STARVED_NOT_CLAIMED
  | STARVED_OLDEST_ROW.

Record StarvationFinding : Type := {
  sf_kind : string;
  sf_count : Z;
  sf_reason : StarvationReason;
  sf_stalled_for_secs : Z;
}.

Definition STARVATION_THRESHOLD : Duration := 600 * NANOS.

(** The findings on one kind. *)
Definition starvation_of (registered : list string) (last_claimed : gmap string DateTime)
    (now started_at : DateTime) (threshold : Duration) (b : PendingKindBacklog) : list StarvationFinding :=
  if pb_count b <=? 0 then []
  else
    let finding reason stalled :=
      {| sf_kind := pb_kind b; sf_count := pb_count b; sf_reason := reason;
         sf_stalled_for_secs := num_seconds stalled |} in
    let reference := Z.max (default started_at (last_claimed !! pb_kind b)) (pb_oldest_created_at b) in
    let stalled_for := now - reference in
    let oldest_age := now - pb_oldest_created_at b in
    (if threshold <? stalled_for then
       [finding (if bool_decide (pb_kind b ∈ registered) then STARVED_NOT_CLAIMED
                 else STARVED_UNREGISTERED) stalled_for]
     else []) ++
    (if threshold <? oldest_age then [finding STARVED_OLDEST_ROW oldest_age] else []).

Definition detect_starvation (backlogs : list PendingKindBacklog) (registered : list string)
    (last_claimed : gmap string DateTime) (now started_at : DateTime) (threshold : Duration)
    : list StarvationFinding :=
  backlogs ≫= starvation_of registered last_claimed now started_at threshold.

(** ** The worker *)

Section dispatch.
Context `{JobBackend}.

Abbreviation queue := (prog JobWorld DomainError).

(** [TaskHandler::run] *)
Abbreviation Handler := (Value → JobRow → queue TaskOutcome).

Record TaskDispatcher : Type := {
  handlers : gmap string Handler;
  semaphores : gmap string Z;
  worker_id : string;
  lock_duration : Duration;
  batch_size : Z;
  attempt_cap : Z;
}.

(** [None] is the panic on a kind that is registered twice. *)
Definition register (kind : string) (handler : Handler) (max_concurrency : Z) (d : TaskDispatcher)
    : option TaskDispatcher :=
  if is_some (handlers d !! kind) then None
  else Some {| handlers := <[kind := handler]> (handlers d);
               semaphores := <[kind := Z.max max_concurrency 1]> (semaphores d);
               worker_id := worker_id d; lock_duration := lock_duration d;
               batch_size := batch_size d; attempt_cap := attempt_cap d |}.

Definition registered_kinds (d : TaskDispatcher) : list string := (map_to_list (handlers d)).*1.

Definition job_now : queue DateTime := port (λ w, (job_tick w, job_time w)).

(** *** Authority at execution *)

Inductive ReauthorizationVerdict : Type :=
  | Authorized
  | Refused (reason : fmt)
  | Unavailable (reason : fmt).

Definition REFUSAL_PREFIX : string := "destructive task refused at execution".
Definition UNAVAILABLE_PREFIX : string := "destructive task authority could not be re-checked".

Definition find_requester (id : Uuid) : queue (DomainResult User) :=
  query (λ w, match requesters w !! id with Some u => Ok u | None => Err (user_not_found id) end).

Definition list_all_grants : queue (DomainResult (list PermissionGrant)) := query (λ w, Ok (grants w)).

Definition execution_time_principal (user : User) (now : DateTime) : CallerPrincipal :=
  {| cp_user_id := u_id user;
     cp_external_id := default (to_text [ArgUuid (u_id user)]) (u_external_id user);
     cp_username := u_username user; cp_email := u_email user;
     cp_claims := add_admin_claim_if_admin [] (u_is_admin user);
     cp_token_kind := None; cp_issued_at := now; cp_token_cap := None |}.

Definition authorize_execution (job : JobRow) (params : Value) : queue ReauthorizationVerdict :=
  match task_invocation_is_destructive (jr_kind job) params with
  | Err err =>
      mret (Refused ([Lit REFUSAL_PREFIX; Lit ": the invocation could not be classified as destructive or not ("]
                     ++ DomainError_display err ++
                     [Lit "), so the authority it requires cannot be determined"]))
  | Ok false => mret Authorized
  | Ok true =>
      match jr_actor_id job with
      | None =>
          mret (Refused [Lit REFUSAL_PREFIX; Lit ": the jobs row names no requester, so there is no authority to re-check before destroying anything"])
      | Some actor_id =>
          found ← find_requester actor_id;
          match found with
          | Err (NotFound _ _) =>
              mret (Refused [Lit REFUSAL_PREFIX; Lit ": the requesting identity "; ArgUuid actor_id;
                             Lit " no longer resolves to a user"])
          | Err err =>
              mret (Unavailable ([Lit UNAVAILABLE_PREFIX; Lit ": the requesting identity "; ArgUuid actor_id;
                                  Lit " could not be read ("] ++ DomainError_display err ++
                                 [Lit "); nothing ran"]))
          | Ok user =>
              if negb (u_is_active user) then
                mret (Refused [Lit REFUSAL_PREFIX; Lit ": the requester's account was deactivated before execution"])
              else
                read ← list_all_grants;
                match read with
                | Err err =>
                    mret (Unavailable ([Lit UNAVAILABLE_PREFIX; Lit ": the permission-grant set could not be read ("]
                                       ++ DomainError_display err ++ [Lit "); nothing ran"]))
                | Ok rbac =>
                    now ← job_now;
                    let principal := execution_time_principal user now in
                    if negb (authorize rbac principal AdminTaskInvoke None) then
                      mret (Refused [Lit REFUSAL_PREFIX; Lit ": the requester no longer holds Permission::AdminTaskInvoke — it was revoked before execution"])
                    else if negb (claims_satisfy principal [DESTRUCTIVE_TASK_CLAIM]) then
                      mret (Refused [Lit REFUSAL_PREFIX; Lit ": the requester's "; ArgStr DESTRUCTIVE_TASK_CLAIM;
                                     Lit " claim was revoked before execution"])
                    else mret Authorized
                end
          end
      end
  end.

Definition refuse_unauthorized_execution (job : JobRow) (params : Value) : queue (option TaskOutcome) :=
  verdict ← authorize_execution job params;
  mret match verdict with
       | Authorized => None
       | Refused reason => Some (TaskOutcome_fail (to_text reason) false)
       | Unavailable reason => Some (TaskOutcome_fail (to_text reason) true)
       end.

(** *** Results *)

Definition record_outcome_for_row (d : TaskDispatcher) (job : JobRow) (outcome : TaskOutcome) : queue unit :=
  match outcome with
  | TO_Completed result_summary =>
      mark_completed (jr_id job) (jr_attempts job) result_summary ;; mret ()
  | TO_Failed reason retry =>
      if retry && (jr_attempts job <? attempt_cap d) then
        reschedule (jr_id job) (jr_attempts job) (compute_backoff (jr_attempts job)) reason ;; mret ()
      else
        mark_failed (jr_id job) (jr_attempts job) reason ;; mret ()
  end.

Definition return_to_pending (job : JobRow) (reason : string) : queue unit :=
  reschedule (jr_id job) (jr_attempts job) (compute_backoff (jr_attempts job)) reason ;; mret ().

(** *** Leases *)

Definition RENEWALS_PER_LEASE : Z := 3.
Definition MIN_RENEWAL_INTERVAL : Duration := 1 * NANOS.
Definition LEASE_EXPIRY_GRACE_MULTIPLE : Z := 1.
Definition LEASE_SWEEP_INTERVAL : Duration := 60 * NANOS.
Definition STARVATION_AUDIT_INTERVAL : Duration := 60 * NANOS.
Definition LEASE_SWEEP_BATCH : Z := 100.

(** The new guard; its renewal is a handler of its own. *)
Definition spawn_lease_renewal (job_id : Uuid) : queue nat :=
  port (λ w, (job_tick w {{ guards ::= λ gs, gs ++ [{| g_job_id := job_id; g_lost := false;
                                                       g_dropped := false |}] }},
              length (guards w))).

(** [lost_the_row], and then the guard is dropped. *)
Definition lost_the_row (guard : nat) : queue bool :=
  port (λ w, (job_tick w {{ guards ::= alter (λ g, g {{ g_dropped := true }}) guard }},
              match guards w !! guard with Some g => g_lost g | None => false end)).

Definition lose_the_row (guard : nat) : queue unit :=
  port (λ w, (job_tick w {{ guards ::= alter (λ g, g {{ g_lost := true }}) guard }}, ())).

Definition guard_dropped (guard : nat) : queue bool :=
  port (λ w, (job_tick w, match guards w !! guard with Some g => g_dropped g | None => true end)).

(** The loop of a renewal, for at most [ticks] ticks. *)
Fixpoint renew_while_held (d : TaskDispatcher) (guard : nat) (job_id : Uuid) (ticks : nat) : queue unit :=
  match ticks with
  | O => mret ()
  | S ticks' =>
      aborted ← guard_dropped guard;
      if (aborted : bool) then mret ()
      else
        renewed ← renew_lease job_id (worker_id d) (lock_duration d);
        match renewed with
        | Ok false => lose_the_row guard
        | Ok true | Err _ => renew_while_held d guard job_id ticks'
        end
  end.

Definition sweep_abandoned_leases (d : TaskDispatcher) : queue unit :=
  requeue_abandoned REQUEUE_ON_LEASE_EXPIRY_KINDS (lock_duration d * LEASE_EXPIRY_GRACE_MULTIPLE)
    (attempt_cap d) LEASE_SWEEP_BATCH ;; mret ().

Definition renewal_interval (d : TaskDispatcher) : Duration :=
  Z.max (lock_duration d / RENEWALS_PER_LEASE) MIN_RENEWAL_INTERVAL.

(** *** One task *)

Definition dispatch_one (d : TaskDispatcher) (job : JobRow) (handler : Handler) : queue unit :=
  let params := default VNull (jr_params job) in
  refused ← refuse_unauthorized_execution job params;
  match refused with
  | Some outcome => record_outcome_for_row d job outcome
  | None =>
      guard ← spawn_lease_renewal (jr_id job);
      outcome ← attempt (handler params job);
      lost ← lost_the_row guard;
      if (lost : bool) then mret ()
      else
        match outcome with
        | Ok task_outcome => record_outcome_for_row d job task_outcome
        | Err e => record_outcome_for_row d job (TaskOutcome_fail (to_text (DomainError_display e)) true)
        end
  end.

(** *** The poll loop *)

(** What the loop keeps between two ticks. *)
Record PollState : Type := {
  ps_started_at : DateTime;
  ps_last_claimed : gmap string DateTime;
  ps_last_audit : option DateTime;
  ps_last_lease_sweep : option DateTime;
}.

Definition due (last : option DateTime) (now : DateTime) (interval : Duration) : bool :=
  match last with None => true | Some t => interval <=? now - t end.

(** The findings go to the log and to a counter. *)
Definition audit_starvation (d : TaskDispatcher) (st : PollState) : queue (list StarvationFinding) :=
  backlogs ← eligible_pending_by_kind;
  match backlogs with
  | Err _ => mret []
  | Ok backlogs =>
      now ← job_now;
      mret (detect_starvation backlogs (registered_kinds d) (ps_last_claimed st) now
              (ps_started_at st) STARVATION_THRESHOLD)
  end.

(** The jobs that are spawned; the others go back to the queue. *)
Fixpoint dispatch_claimed (d : TaskDispatcher) (claimed : list JobRow) : queue (list JobRow) :=
  match claimed with
  | [] => mret []
  | job :: claimed' =>
      match handlers d !! jr_kind job, semaphores d !! jr_kind job with
      | None, _ =>
          return_to_pending job "claimed job has unregistered kind" ;; dispatch_claimed d claimed'
      | Some _, None =>
          return_to_pending job "no semaphore registered for kind" ;; dispatch_claimed d claimed'
      | Some _, Some _ => spawned ← dispatch_claimed d claimed'; mret (job :: spawned)
      end
  end.

(** One tick of [run]: the new state and the jobs that are spawned. *)
Definition poll_once (d : TaskDispatcher) (st : PollState) : queue (PollState * list JobRow) :=
  claimed ← claim_pending_by_kinds (registered_kinds d) (batch_size d) (worker_id d) (lock_duration d);
  match claimed with
  | Err _ => mret (st, [])
  | Ok claimed =>
      claimed_at ← job_now;
      let st := st {{ ps_last_claimed ::= λ m, foldl (λ m job, <[jr_kind job := claimed_at]> m) m claimed }} in
      now ← job_now;
      st ← (if due (ps_last_audit st) now STARVATION_AUDIT_INTERVAL then
              audit_starvation d st ;; mret (st {{ ps_last_audit := Some now }})
            else mret st);
      now ← job_now;
      st ← (if due (ps_last_lease_sweep st) now LEASE_SWEEP_INTERVAL then
              sweep_abandoned_leases d ;; mret (st {{ ps_last_lease_sweep := Some now }})
            else mret st);
      spawned ← dispatch_claimed d claimed;
      mret (st, spawned)
  end.

(** [run] until it is cancelled, after [ticks] ticks. *)
Fixpoint poll_loop (d : TaskDispatcher) (ticks : nat) (st : PollState) : queue unit :=
  match ticks with
  | O => mret ()
  | S ticks' => next ← poll_once d st; poll_loop d ticks' next.1
  end.
End dispatch.

(** ** Asking for a task *)

Section enqueue.
Context `{JobBackend}.

Abbreviation app := (prog JobWorld AppError).

Definition TASK_AUDIT_APPEND_RETRY_ATTEMPTS : nat := 5.

Definition load_rbac : app RbacEvaluator := port (λ w, (job_tick w, evaluator w)).

Definition authorize_kind (actor : CallerPrincipal) (kind : string) (params : Value) : app unit :=
  rbac ← load_rbac;
  if negb (authorize rbac actor AdminTaskInvoke None) then
    Done (Err (AE_Domain (Forbidden [Lit "Permission::AdminTaskInvoke required to invoke task kind "; ArgStr kind])))
  else
    requires_destructive_claim ← Done (lift_domain (task_invocation_is_destructive kind params));
    if requires_destructive_claim && negb (claims_satisfy actor [DESTRUCTIVE_TASK_CLAIM]) then
      Done (Err (AE_Domain (Forbidden [Lit "destructive task kind "; ArgStr kind; Lit " requires the ";
                                       ArgStr DESTRUCTIVE_TASK_CLAIM;
                                       Lit " claim in addition to Permission::AdminTaskInvoke"])))
    else mret ().

Definition task_audit_stream (kind : string) : AuditStream :=
  if task_kind_is_destructive kind then AS_EventstoreRetention else AS_Authorization.

(** [events.append] *)
Definition append_task_invoked {E} (stream : AuditStream) (actor : Uuid) (event : TaskInvoked)
    : prog JobWorld E (DomainResult unit) :=
  statement (λ w, (w {{ task_audit ::= λ es, es ++ [(stream, actor, event)] }}, Ok ())).

(** The append, tried again on a conflict as long as there are attempts left. *)
Fixpoint append_with_retry {E} (attempts : nat) (stream : AuditStream) (actor : Uuid)
    (event : TaskInvoked) : prog JobWorld E (DomainResult unit) :=
  r ← append_task_invoked stream actor event;
  match r, attempts with
  | Err (Conflict _), S attempts' => append_with_retry attempts' stream actor event
  | r, _ => mret r
  end.

Definition enqueue (actor : CallerPrincipal) (kind : string) (params : Value)
    (idempotency_key : option string) : app EnqueueOutcome :=
  if negb (bool_decide (kind ∈ ADMIN_INVOKABLE_TASK_KINDS)) then
    Done (Err (AE_Domain (Validation [Lit "unknown task kind "; ArgStr kind; Lit "; expected one of ";
                                      Lit "ADMIN_INVOKABLE_TASK_KINDS"])))
  else
    authorize_kind actor kind params ;;
    inserted ← enqueue_task kind params (Some (cp_user_id actor)) 0 "manual" idempotency_key;
    outcome ← Done (lift_domain inserted);
    let '(audit_job_id, duplicate_of, is_fresh_enqueue) :=
      match outcome with
      | Enqueued job_id => (job_id, None, true)
      | Duplicate existing_job_id => (existing_job_id, Some existing_job_id, false)
      end in
    let event := {| ti_task_job_id := audit_job_id; ti_kind := kind;
                    ti_params_digest := params_digest params; ti_duplicate_of := duplicate_of |} in
    appended ← append_with_retry (TASK_AUDIT_APPEND_RETRY_ATTEMPTS - 1) (task_audit_stream kind)
                 (cp_user_id actor) event;
    match appended with
    | Ok _ => mret outcome
    | Err append_err =>
        if (is_fresh_enqueue : bool) then
          delete_job audit_job_id ;; Done (Err (AE_Domain append_err))
        else Done (Err (AE_Domain append_err))
    end.
End enqueue.
