(* ===== verification/JobSafety.v ===== *)
(** The queue keeps its promises: what holds of the [jobs] table whatever its users do
    at the same time.

    [queue_ok] is the invariant: every attempt of a row was given to one claim, results
    come from attempts that were given, waiting rows have attempts left, and the unique
    indexes hold.  [moves] is what a single call may do to a table.  [tame] programs
    keep both; every program of Jobs.v and TaskDispatch.v is tame, so every pool of them
    is. *)

From coqutil Require Import Datatypes.RecordSetters.
From S2P Require Import Prelude.
From S2P Require Import RustStd.
From S2P Require Import Json.
From S2P Require Import Types.
From S2P Require Import Store.
From S2P Require Import Concurrent.
From S2P Require Import Rbac.
From S2P Require Import Tokens.
From S2P Require Import Jobs.
From S2P Require Import TaskDispatch.
Import DoubleBraceUpdate.

Section safety.
Context `{JobBackend}.
(** The attempts a row may have; a row gets one even when fewer are configured. *)
Context (cap : Z).

Definition budget : Z := Z.max cap 1.

(** ** Tables *)

Definition keyed (t : Table) : Prop := ∀ id row, t !! id = Some row → j_id row = id.

Lemma elem_of_scan n t row : row ∈ scan_table n t ↔ ∃ id, t !! id = Some row.
Proof.
  unfold scan_table. rewrite row_order_perm, list_elem_of_fmap. split.
  - intros ([id row'] & -> & Hin%elem_of_map_to_list). by exists id.
  - intros [id Hid]. exists (id, row). split; [done|]. by apply elem_of_map_to_list.
Qed.

Lemma keyed_fst_map_to_list t : keyed t → j_id <$> (map_to_list t).*2 = (map_to_list t).*1.
Proof.
  intros Hk. rewrite <- list_fmap_compose. apply list_fmap_ext. intros i [id row] Hi.
  apply list_elem_of_lookup_2, elem_of_map_to_list in Hi. by apply Hk.
Qed.

Lemma NoDup_scan_ids n t : keyed t → NoDup (j_id <$> scan_table n t).
Proof.
  intros Hk. unfold scan_table. rewrite row_order_perm, keyed_fst_map_to_list by done.
  apply NoDup_fst_map_to_list.
Qed.

Lemma lookup_update_where P f t id :
  update_where P f t !! id = (λ row, if P row then f row else row) <$> t !! id.
Proof. apply lookup_fmap. Qed.

Lemma lookup_delete_where P t id row :
  delete_where P t !! id = Some row ↔ t !! id = Some row ∧ P row = false.
Proof. unfold delete_where. apply map_lookup_filter_Some. Qed.

Lemma has_id_spec rows row : has_id rows row = true ↔ ∃ row', row' ∈ rows ∧ j_id row' = j_id row.
Proof.
  unfold has_id. rewrite bool_decide_eq_true, list_elem_of_fmap.
  split; intros (r & ? & ?); exists r; split; congruence.
Qed.

(** ** The unique indexes *)

Definition unique (t : Table) : Prop :=
  ∀ id1 id2 row1 row2, id1 ≠ id2 → t !! id1 = Some row1 → t !! id2 = Some row2 →
    index_conflict row1 row2 = false.

Lemma shares_false {K} `{EqDecision K} (index : Job → option K) a b :
  shares index a b = false ↔ ∀ k, index a = Some k → index b ≠ Some k.
Proof.
  unfold shares. destruct (index a) as [k|] eqn:Ha; cbn; [| naive_solver].
  case_bool_decide; naive_solver.
Qed.

Lemma index_conflict_false a b :
  index_conflict a b = false ↔
  shares scan_index a b = false ∧ shares target_index a b = false ∧ shares j_idempotency_key a b = false.
Proof. unfold index_conflict. rewrite !orb_false_iff. tauto. Qed.

Lemma index_conflict_sym a b : index_conflict a b = false → index_conflict b a = false.
Proof. rewrite !index_conflict_false, !shares_false. naive_solver. Qed.

(** A row that holds no key it did not hold before. *)
Definition keys_shrink (row row' : Job) : Prop :=
  (∀ k, scan_index row' = Some k → scan_index row = Some k) ∧
  (∀ k, target_index row' = Some k → target_index row = Some k) ∧
  (∀ k, j_idempotency_key row' = Some k → j_idempotency_key row = Some k).

#[local] Instance keys_shrink_refl : Reflexive keys_shrink.
Proof. intros row. by split_and!. Qed.

Lemma keys_shrink_conflict a a' b b' :
  keys_shrink a a' → keys_shrink b b' → index_conflict a b = false → index_conflict a' b' = false.
Proof.
  intros (Ha1 & Ha2 & Ha3) (Hb1 & Hb2 & Hb3). rewrite !index_conflict_false, !shares_false.
  naive_solver.
Qed.

Lemma unique_shrink t t' :
  (∀ id row', t' !! id = Some row' → ∃ row, t !! id = Some row ∧ keys_shrink row row') →
  unique t → unique t'.
Proof.
  intros Hsub Hu id1 id2 row1 row2 Hne (r1 & Hr1 & Hs1)%Hsub (r2 & Hr2 & Hs2)%Hsub.
  eapply keys_shrink_conflict; [done | done |]. by eapply Hu.
Qed.

Lemma violates_index_false row t :
  violates_index row t = false →
  ∀ id other, t !! id = Some other → j_id other ≠ j_id row → index_conflict row other = false.
Proof.
  unfold violates_index. intros Hv id other Ho Hne.
  destruct (index_conflict row other) eqn:Hc; [| done].
  enough (violates_index row t = true) by (unfold violates_index in *; congruence).
  apply existsb_exists. exists other. rewrite Hc. split.
  - apply list_elem_of_In, list_elem_of_fmap. exists (id, other). split; [done|].
    by apply elem_of_map_to_list.
  - by rewrite bool_decide_eq_false_2.
Qed.

Lemma unique_insert_row row t :
  keyed t → unique t → violates_index row t = false → unique (<[j_id row := row]> t).
Proof.
  intros Hk Hu Hv.
  assert (∀ id other, id ≠ j_id row → t !! id = Some other → index_conflict row other = false) as Hrow.
  { intros id other Hne Ho. eapply violates_index_false; [done | done |]. by rewrite (Hk _ _ Ho). }
  intros id1 id2 row1 row2 Hne H1 H2.
  apply lookup_insert_Some in H1 as [[<- <-] | [Hn1 H1]];
    apply lookup_insert_Some in H2 as [[Heq <-] | [Hn2 H2]].
  - by destruct (Hne Heq).
  - by apply (Hrow id2).
  - apply index_conflict_sym. subst. by apply (Hrow id1).
  - by apply (Hu id1 id2).
Qed.

(** ** The invariant *)

Definition drawn (w : JobWorld) (id : Uuid) : Prop :=
  ∃ n i, (n < job_calls w)%nat ∧ id = gen_random_uuid n i.

Record row_ok (row : Job) : Prop := {
  row_attempts : 0 ≤ j_attempts row ≤ budget;
  row_waiting : j_status row = Pending → j_attempts row < budget;
  row_completed : j_status row = Completed → is_Some (j_completed_at row);
}.

Record queue_ok (w : JobWorld) : Prop := {
  ok_keyed : keyed (jobs w);
  ok_unique : unique (jobs w);
  ok_rows : ∀ id row, jobs w !! id = Some row → drawn w id ∧ row_ok row;
  (** Every attempt of a row was given to a claim, and to one only. *)
  ok_given : ∀ id row a, jobs w !! id = Some row → 1 ≤ a ≤ j_attempts row → (id, a) ∈ executions w;
  ok_nodup : NoDup (executions w);
  ok_executions : ∀ id a, (id, a) ∈ executions w → drawn w id ∧ 1 ≤ a ≤ budget;
  ok_latest : ∀ id a row, (id, a) ∈ executions w → jobs w !! id = Some row → a ≤ j_attempts row;
}.

(** What one call may do. *)
Definition row_moves (w : JobWorld) (id : Uuid) (row row' : option Job) : Prop :=
  match row, row' with
  | Some row, Some row' =>
      j_kind row' = j_kind row ∧ j_created_at row' = j_created_at row ∧
      j_attempts row ≤ j_attempts row'
  | None, Some row' => j_created_at row' = job_time w ∧ ¬ drawn w id
  | _, None => True
  end.

Definition moves (w w' : JobWorld) : Prop :=
  job_calls w' = S (job_calls w) ∧
  (∃ new, executions w' = executions w ++ new) ∧
  task_audit w `prefix_of` task_audit w' ∧
  ∀ id, row_moves w id (jobs w !! id) (jobs w' !! id).

(** A call that keeps the invariant. *)
Definition good (w w' : JobWorld) : Prop := queue_ok w' ∧ moves w w'.

Lemma issued_mono w w' id : (job_calls w ≤ job_calls w')%nat → drawn w id → drawn w' id.
Proof. intros Hle (n & i & Hn & ->). exists n, i. split; [lia | done]. Qed.

Lemma issued_tick w t id : drawn w id → drawn (job_tick (w {{ jobs := t }})) id.
Proof. apply issued_mono. change (job_calls (job_tick _)) with (S (job_calls w)). lia. Qed.

(** *** Rows that change in place, or go *)

Record row_step (row row' : Job) : Prop := {
  step_id : j_id row' = j_id row;
  step_kind : j_kind row' = j_kind row;
  step_created : j_created_at row' = j_created_at row;
  step_attempts : j_attempts row' = j_attempts row;
  step_waiting : j_status row' = Pending → j_attempts row < budget;
  step_completed : j_status row' = Completed → is_Some (j_completed_at row');
}.

Lemma row_step_refl row : row_ok row → row_step row row.
Proof. intros []. by split. Qed.

Lemma row_step_ok row row' : row_step row row' → row_ok row → row_ok row'.
Proof. intros [] []. split; [congruence | intros; rewrite step_attempts0; auto | done]. Qed.

(** Rows step or go; no key is taken twice. *)
Lemma good_steps w t :
  queue_ok w → unique t →
  (∀ id row', t !! id = Some row' → ∃ row, jobs w !! id = Some row ∧ row_step row row') →
  good w (job_tick (w {{ jobs := t }})).
Proof.
  intros Hw Hu Hsub. split; [split |]; cbn.
  - intros id row' (row & Hrow & Hstep)%Hsub. rewrite (step_id _ _ Hstep). by apply (ok_keyed w).
  - done.
  - intros id row' (row & Hrow & Hstep)%Hsub. destruct (ok_rows w Hw _ _ Hrow). split.
    + by apply issued_tick.
    + by eapply row_step_ok.
  - intros id row' a (row & Hrow & Hstep)%Hsub. rewrite (step_attempts _ _ Hstep).
    by apply (ok_given w).
  - apply (ok_nodup w Hw).
  - intros id a (Hi & ?)%(ok_executions w Hw). split; [| done]. by apply issued_tick.
  - intros id a row' Ha (row & Hrow & Hstep)%Hsub. rewrite (step_attempts _ _ Hstep).
    by eapply (ok_latest w).
  - split_and!; [done | by exists []; rewrite app_nil_r | done |]. intros id.
    change (row_moves w id (jobs w !! id) (t !! id)).
    destruct (t !! id) as [row'|] eqn:Hid; [| by destruct (jobs w !! id)].
    destruct (Hsub _ _ Hid) as (row & -> & []). cbn. split_and!; [done | done | lia].
Qed.

(** The same when no row takes a key. *)
Lemma good_shrink w t :
  queue_ok w →
  (∀ id row', t !! id = Some row' → ∃ row, jobs w !! id = Some row ∧ row_step row row' ∧ keys_shrink row row') →
  good w (job_tick (w {{ jobs := t }})).
Proof.
  intros Hw Hsub. apply good_steps; [done | |].
  - eapply unique_shrink, (ok_unique w Hw). intros id row' (row & ? & ? & ?)%Hsub. eauto.
  - intros id row' (row & ? & ? & ?)%Hsub. eauto.
Qed.

(** A call that leaves the table alone. *)
Lemma good_same w w' :
  queue_ok w → jobs w' = jobs w → executions w' = executions w → job_calls w' = S (job_calls w) →
  task_audit w `prefix_of` task_audit w' → good w w'.
Proof.
  intros Hw Hj He Hc Haudit. destruct (good_shrink w (jobs w) Hw) as [Hok Hmv].
  { intros id row Hrow. exists row. split_and!; [done | | done]. apply row_step_refl.
    by apply (ok_rows w Hw id). }
  assert (∀ id, drawn (job_tick (w {{ jobs := jobs w }})) id → drawn w' id) as Hi.
  { intros id. apply issued_mono. change (job_calls (job_tick _)) with (S (job_calls w)). lia. }
  split.
  - destruct Hok. split; rewrite ?Hj, ?He; cbn in *; naive_solver.
  - destruct Hmv as (? & ? & _ & Hrows). split_and!; [done | by rewrite He | done |]. intros id. rewrite Hj. apply Hrows.
Qed.

Lemma good_update w P f :
  queue_ok w →
  (∀ row, row_ok row → P row = true → row_step row (f row) ∧ keys_shrink row (f row)) →
  good w (job_tick (w {{ jobs ::= update_where P f }})).
Proof.
  intros Hw Hf. apply (good_shrink w (update_where P f (jobs w))); [done|]. intros id row'. rewrite lookup_update_where.
  intros (row & Hrow & ->)%fmap_Some. exists row. destruct (ok_rows w Hw _ _ Hrow) as [_ Hok].
  split; [done|]. destruct (P row) eqn:HP; [by apply Hf | by split; [apply row_step_refl|]].
Qed.

Lemma good_delete w P : queue_ok w → good w (job_tick (w {{ jobs ::= delete_where P }})).
Proof.
  intros Hw. apply (good_shrink w (delete_where P (jobs w))); [done|]. intros id row' [Hrow _]%lookup_delete_where. exists row'.
  split_and!; [done | | done]. by apply row_step_refl, (ok_rows w Hw id).
Qed.

(** *** New rows *)

Definition newborn (w : JobWorld) (row : Job) : Prop :=
  (∃ i, j_id row = gen_random_uuid (job_calls w) i) ∧
  j_attempts row = 0 ∧ j_created_at row = job_time w ∧
  (j_status row = Completed → is_Some (j_completed_at row)).

(** The rows of one statement are inserted one by one, in the same call. *)
Record inserting (w w' : JobWorld) : Prop := {
  ins_calls : job_calls w' = job_calls w;
  ins_executions : executions w' = executions w;
  ins_audit : task_audit w' = task_audit w;
  ins_keyed : keyed (jobs w');
  ins_unique : unique (jobs w');
  ins_rows : ∀ id row, jobs w' !! id = Some row → jobs w !! id = Some row ∨ (newborn w row ∧ jobs w !! id = None);
  ins_kept : ∀ id row, jobs w !! id = Some row → jobs w' !! id = Some row;
}.

Lemma inserting_refl w : queue_ok w → inserting w w.
Proof. intros []. split; auto. Qed.

Lemma fresh_not_issued w i : ¬ drawn w (gen_random_uuid (job_calls w) i).
Proof. intros (n & j & Hn & [? ?]%gen_random_uuid_inj). lia. Qed.

Lemma inserting_good w w' : queue_ok w → inserting w w' → good w (job_tick w').
Proof.
  intros Hw []. assert (∀ id, drawn w id → drawn (job_tick w') id) as Hi.
  { intros id. apply issued_mono. change (job_calls (job_tick w')) with (S (job_calls w')). lia. }
  assert (1 ≤ budget) as Hb by (unfold budget; lia).
  split; [split |]; change (jobs (job_tick w')) with (jobs w');
    change (executions (job_tick w')) with (executions w'); rewrite ?ins_executions0.
  - done.
  - done.
  - intros id row Hrow. destruct (ins_rows0 id row Hrow) as [Hold | (((i & Hid) & Ha & Hc & Hs) & _)].
    { destruct (ok_rows w Hw _ _ Hold). by auto. }
    split; [| split; [lia | lia | done]]. exists (job_calls w), i. rewrite <- Hid.
    change (job_calls (job_tick w')) with (S (job_calls w')). split; [lia|].
    symmetry. by apply ins_keyed0.
  - intros id row a Hrow Hr.
    destruct (ins_rows0 id row Hrow) as [Hold | ((_ & Ha & _) & _)]; [by apply (ok_given w Hw id row) | lia].
  - apply (ok_nodup w Hw).
  - intros id a (? & ?)%(ok_executions w Hw). auto.
  - intros id a row Hin Hrow. destruct (ins_rows0 id row Hrow) as [Hold | (((i & Hid) & _) & _)].
    { by apply (ok_latest w Hw id). }
    apply (ok_executions w Hw) in Hin as [Hiss _]. rewrite <- (ins_keyed0 _ _ Hrow), Hid in Hiss.
    by apply fresh_not_issued in Hiss.
  - split_and!; [change (job_calls (job_tick w')) with (S (job_calls w')); lia | | |].
    + change (executions (job_tick w')) with (executions w'). exists []. by rewrite app_nil_r.
    + change (task_audit (job_tick w')) with (task_audit w'). by rewrite ins_audit0.
    + intros id. change (jobs (job_tick w')) with (jobs w').
      destruct (jobs w' !! id) as [row|] eqn:Hrow; [| by destruct (jobs w !! id)].
      destruct (ins_rows0 _ _ Hrow) as [-> | (((i & Hid) & _ & Hc & _) & ->)]; cbn.
      * split_and!; [done | done | lia].
      * split; [done|]. rewrite <- (ins_keyed0 _ _ Hrow), Hid. apply fresh_not_issued.
Qed.

Lemma inserting_insert w w1 row w2 outcome :
  inserting w w1 → newborn w row → insert_row row w1 = (w2, outcome) → inserting w w2.
Proof.
  intros Hi Hf. unfold insert_row. destruct (negb (row_checks w1 row)); [by intros [= <- _]|].
  destruct (is_some (jobs w1 !! j_id row)) eqn:Hpk; [by intros [= <- _]|].
  destruct (violates_index row (jobs w1)) eqn:Hv; intros [= <- _]; [done|].
  assert (jobs w1 !! j_id row = None) as Hnone by (by destruct (jobs w1 !! j_id row)).
  destruct Hi. split; [done | done | done | | | |]; cbn [jobs].
  - intros id row'. intros [[<- <-] | [_ Hr]]%lookup_insert_Some; [done | by apply ins_keyed0].
  - by apply unique_insert_row.
  - intros id row' [[<- <-] | [_ Hr]]%lookup_insert_Some; [right | by apply ins_rows0]. split; [done|].
    destruct (jobs w !! j_id row) eqn:Hw; [| done]. apply ins_kept0 in Hw. congruence.
  - intros id row' Hr%ins_kept0. rewrite lookup_insert_ne; [done | congruence].
Qed.

Lemma insert_rows_inserting w w1 rows w2 ids :
  inserting w w1 → Forall (newborn w) rows → insert_rows rows w1 = Some (w2, ids) → inserting w w2.
Proof.
  intros Hi Hf. revert w1 w2 ids Hi. induction Hf as [| row rows Hrow _ IH]; intros w1 w2 ids Hi; cbn.
  { by intros [= <- _]. }
  destruct (insert_row row w1) as [w' []] eqn:Hins; [| done |].
  - destruct (insert_rows rows w') as [[w'' ids']|] eqn:Hrows; cbn; [| done]. intros [= <- _].
    eapply IH; [by eapply inserting_insert | done].
  - intros Hrows. eapply IH; [by eapply inserting_insert | done].
Qed.

Lemma good_batch w rows :
  queue_ok w → Forall (newborn w) rows → good w (job_tick (insert_batch rows w).1).
Proof.
  intros Hw Hf. unfold insert_batch. destruct (insert_rows rows w) as [[w' ids]|] eqn:Hins; cbn.
  - apply inserting_good; [done|]. eapply insert_rows_inserting; [by apply inserting_refl | done | done].
  - by apply good_same.
Qed.

Lemma good_insert w row :
  queue_ok w → newborn w row → good w (job_tick (insert_row row w).1).
Proof.
  intros Hw Hf. destruct (insert_row row w) as [w' o] eqn:Hins. apply inserting_good; [done|].
  eapply inserting_insert; [by apply inserting_refl | done | done].
Qed.

(** *** Claims *)

(** Rows of the table that wait. *)
Definition waiting_rows (w : JobWorld) (picked : list Job) : Prop :=
  ∀ row, row ∈ picked → jobs w !! j_id row = Some row ∧ j_status row = Pending.

Lemma has_id_waiting w picked id row :
  queue_ok w → waiting_rows w picked → jobs w !! id = Some row → (has_id picked row = true ↔ row ∈ picked).
Proof.
  intros Hw Hp Hrow. rewrite has_id_spec. split.
  - intros (row' & Hin & Hid). destruct (Hp _ Hin) as [Hr _].
    rewrite Hid, (ok_keyed w Hw _ _ Hrow) in Hr. by simplify_eq.
  - intros Hin. by exists row.
Qed.

Section claim.
Context (w : JobWorld) (picked : list Job) (worker : string) (lock : Duration).
Context (Hw : queue_ok w) (Hpicked : waiting_rows w picked).

Let start := start_execution worker lock (job_time w).
Let t : Table := update_where (has_id picked) start (jobs w).

Lemma start_attempts row : j_attempts (start row) = 1 + j_attempts row.
Proof. done. Qed.

Lemma claimed_lookup id row' :
  t !! id = Some row' →
  ∃ row, jobs w !! id = Some row ∧
    ((row ∈ picked ∧ row' = start row) ∨ (¬ (row ∈ picked) ∧ row' = row)).
Proof.
  unfold t. rewrite lookup_update_where. intros (row & Hrow & ->)%fmap_Some. exists row. split; [done|].
  pose proof (has_id_waiting w picked id row Hw Hpicked Hrow) as Hiff.
  destruct (has_id picked row); [left | right]; naive_solver.
Qed.

Lemma start_keys_shrink row : j_status row = Pending → keys_shrink row (start row).
Proof.
  intros Hs. split_and!; [| | done];
    unfold scan_index, target_index, in_flight; rewrite Hs; cbn [start_execution j_kind j_status start];
    naive_solver.
Qed.

Lemma returned_rows row' :
  row' ∈ filter (λ row, has_id picked row) (scan_table (job_calls w) t) ↔
  ∃ row, row ∈ picked ∧ row' = start row.
Proof.
  rewrite list_elem_of_filter, elem_of_scan. split.
  - intros [Hid [id Hrow']]. destruct (claimed_lookup _ _ Hrow') as (row & Hrow & [[? ->] | [Hn ->]]).
    + by exists row.
    + apply Is_true_true in Hid. by apply (has_id_waiting w picked id row Hw Hpicked Hrow) in Hid.
  - intros (row & Hin & ->). destruct (Hpicked row Hin) as [Hrow _]. split.
    + apply Is_true_true, has_id_spec. by exists row.
    + exists (j_id row). unfold t. rewrite lookup_update_where, Hrow. cbn.
      by rewrite (proj2 (has_id_waiting w picked _ row Hw Hpicked Hrow) Hin).
Qed.

Lemma claimed_keyed : keyed t.
Proof.
  intros id row' (row & Hrow & [[_ ->] | [_ ->]])%claimed_lookup; by apply (ok_keyed w Hw _ row).
Qed.

Lemma claimed_executions id a :
  (id, a) ∈ execution_of <$> filter (λ row, has_id picked row) (scan_table (job_calls w) t) ↔
  ∃ row, row ∈ picked ∧ j_id row = id ∧ a = 1 + j_attempts row.
Proof.
  rewrite list_elem_of_fmap. split.
  - intros (row' & [= -> ->] & (row & Hin & ->)%returned_rows). by exists row.
  - intros (row & Hin & <- & ->). exists (start row). split; [done|]. apply returned_rows. by exists row.
Qed.

Lemma NoDup_claimed_executions :
  NoDup (execution_of <$> filter (λ row, has_id picked row) (scan_table (job_calls w) t)).
Proof.
  apply (NoDup_fmap_1 fst). rewrite <- list_fmap_compose.
  assert (j_id <$> filter (λ row, has_id picked row) (scan_table (job_calls w) t) `sublist_of`
          j_id <$> scan_table (job_calls w) t) as Hsub by apply fmap_sublist, sublist_filter.
  eapply sublist_NoDup; [apply NoDup_scan_ids, claimed_keyed | exact Hsub].
Qed.

Lemma good_claim : good w (job_tick (claim_rows picked worker lock w).1).
Proof.
  unfold claim_rows. destruct (existsb _ picked); [by apply good_same|].
  fold start. fold t. cbn [fst].
  set (new := execution_of <$> filter (λ row, has_id picked row) (scan_table (job_calls w) t)).
  assert (∀ row, row ∈ picked → row_ok row ∧ drawn w (j_id row)) as Hok.
  { intros row [Hrow _]%Hpicked. by destruct (ok_rows w Hw _ _ Hrow). }
  assert (∀ id, drawn w id → drawn (job_tick (w {{ jobs := t }})) id) as Hi by (intros; by apply issued_tick).
  split; [split |].
  - exact claimed_keyed.
  - eapply unique_shrink, (ok_unique w Hw). intros id row' (row & Hrow & Hr)%claimed_lookup.
    exists row. split; [done|]. destruct Hr as [[Hin ->] | [_ ->]]; [| done].
    by apply start_keys_shrink, Hpicked.
  - intros id row' (row & Hrow & Hr)%claimed_lookup. destruct (ok_rows w Hw _ _ Hrow) as [Hiss Hrok].
    split; [by apply Hi|]. destruct Hr as [[Hin ->] | [_ ->]]; [| done].
    destruct Hrok as [? Hp ?]. specialize (Hp (proj2 (Hpicked _ Hin))).
    split; [rewrite start_attempts; lia | done | done].
  - intros id row' a (row & Hrow & Hr)%claimed_lookup Ha. apply elem_of_app.
    destruct (decide (a ≤ j_attempts row)); [left; apply (ok_given w Hw id row); [done | lia]|].
    destruct Hr as [[Hin ->] | [_ ->]]; [right | lia]. apply claimed_executions. exists row.
    rewrite start_attempts in Ha. split_and!; [done | by apply (ok_keyed w Hw) | lia].
  - apply NoDup_app. split_and!; [apply (ok_nodup w Hw) | | apply NoDup_claimed_executions].
    intros [id a] Hold (row & Hin & <- & ->)%claimed_executions.
    destruct (Hpicked _ Hin) as [Hrow _]. pose proof (ok_latest w Hw _ _ _ Hold Hrow). lia.
  - intros id a [Hold | (row & Hin & <- & ->)%claimed_executions]%elem_of_app.
    + destruct (ok_executions w Hw _ _ Hold). split; [by apply Hi | done].
    + destruct (Hok _ Hin) as [[? Hp ?] Hiss]. specialize (Hp (proj2 (Hpicked _ Hin))).
      split; [by apply Hi | lia].
  - intros id a row' [Hold | (r & Hin & Hid & ->)%claimed_executions]%elem_of_app
      (row & Hrow & Hr)%claimed_lookup.
    + pose proof (ok_latest w Hw _ _ _ Hold Hrow). destruct Hr as [[_ ->] | [_ ->]]; rewrite ?start_attempts; lia.
    + destruct (Hpicked _ Hin) as [Hr' _]. rewrite Hid in Hr'. simplify_eq.
      destruct Hr as [[_ ->] | [Hn _]]; [rewrite start_attempts; lia | done].
  - split_and!; [done | by exists new | done |]. intros id. change (row_moves w id (jobs w !! id) (t !! id)).
    destruct (t !! id) as [row'|] eqn:Hid; [| by destruct (jobs w !! id)].
    destruct (claimed_lookup _ _ Hid) as (row & -> & [[_ ->] | [_ ->]]);
      (split_and!; [done | done | rewrite ?start_attempts; lia]).
Qed.
End claim.

(** *** The other statements *)

(** The rows a statement picks. *)
Lemma elem_of_picked w n le (P : Job → bool) row :
  queue_ok w → row ∈ take n (sort_by le (filter (λ r, P r) (scan_rows w))) →
  jobs w !! j_id row = Some row ∧ P row = true.
Proof.
  intros Hw (i & Hin & _)%elem_of_take. apply list_elem_of_lookup_2 in Hin. unfold scan_rows in Hin.
  rewrite sort_by_Permutation, list_elem_of_filter, elem_of_scan in Hin.
  destruct Hin as [HP [id Hrow]]. rewrite (ok_keyed w Hw _ _ Hrow). split; [done | by apply Is_true_true].
Qed.

Lemma good_fenced w set_clause job_id attempt :
  queue_ok w →
  (∀ row, row_ok row → j_attempts row = attempt → row_step row (set_clause row)) →
  good w (job_tick (fenced_result_write set_clause job_id attempt w).1).
Proof.
  intros Hw Hset. unfold fenced_result_write.
  destruct (jobs w !! job_id) as [row|] eqn:Hrow; [| by apply good_same].
  destruct (Z.eqb_spec (j_attempts row) attempt) as [Ha|]; [| by destruct (_ <? 0); apply good_same].
  destruct (violates_index _ (jobs w)) eqn:Hv; [by apply good_same|].
  set (row' := (set_clause row) {{ j_updated_at := job_time w }}) in *. cbn [fst].
  destruct (ok_rows w Hw _ _ Hrow) as [_ Hok].
  assert (row_step row row') as Hstep by (destruct (Hset row Hok Ha); by split).
  assert (j_id row' = job_id) as Hid.
  { rewrite (step_id _ _ Hstep). by apply (ok_keyed w Hw). }
  apply (good_steps w (<[job_id := row']> (jobs w))); [done | |].
  - rewrite <- Hid. apply unique_insert_row; [apply (ok_keyed w Hw) | apply (ok_unique w Hw) | done].
  - intros id r [[<- <-] | [_ Hr]]%lookup_insert_Some; [by exists row|].
    exists r. split; [done|]. by apply row_step_refl, (ok_rows w Hw id).
Qed.

Lemma good_renew w job_id worker lock :
  queue_ok w → good w (job_tick (renew_lease_sql job_id worker lock w).1).
Proof.
  intros Hw. apply good_update; [done|]. intros row [Ha Hp Hc] Hh. by repeat split.
Qed.

Lemma good_requeue w kinds grace cap' batch :
  cap' ≤ cap → queue_ok w → good w (job_tick (requeue_abandoned_sql kinds grace cap' batch w).1).
Proof.
  intros Hcap Hw. apply good_shrink; [done|]. intros id row'. rewrite lookup_update_where.
  intros (row & Hrow & ->)%fmap_Some. exists row. destruct (ok_rows w Hw _ _ Hrow) as [_ Hok].
  split; [done|]. destruct (has_id _ row) eqn:Hid; [| by split; [apply row_step_refl|]].
  assert (j_status row = Running) as Hrun.
  { apply has_id_spec in Hid as (r & [Hr Hab]%elem_of_picked & Heq); [| done].
    rewrite Heq, (ok_keyed w Hw _ _ Hrow) in Hr. simplify_eq. unfold abandoned in Hab.
    by repeat apply andb_true_iff in Hab as [Hab _]; apply bool_decide_eq_true in Hab. }
  split.
  - destruct Hok as [Ha Hp Hc]. split; try done; cbn.
    + destruct (Z.leb_spec cap' (j_attempts row)); [done|]. intros _. unfold budget. lia.
    + by destruct (cap' <=? j_attempts row).
  - split_and!; [| | done]; unfold scan_index, target_index, in_flight; rewrite Hrun; cbn;
      destruct (cap' <=? j_attempts row); cbn; rewrite ?andb_false_r; naive_solver.
Qed.

Lemma fresh_new_row w i kind params actor prio source : newborn w (new_row i kind params actor prio source w).
Proof. split_and!; [by exists i | done | done | done]. Qed.

(** An insert whose outcome only decides the reply. *)
Ltac good_by_insert Hw :=
  match goal with
  | |- context [insert_row ?row ?w] =>
      let Hg := fresh in
      assert (good w (job_tick (insert_row row w).1)) as Hg
        by (apply good_insert; [done | by split_and!; [exists 0%nat | | |]]);
      let o := fresh in
      destruct (insert_row row w) as [? o]; destruct o; cbn [fst]; [exact Hg | by apply good_same |]
  end.

Lemma good_enqueue_scan w artifact repo hash format prio source :
  queue_ok w → good w (job_tick (enqueue_scan_sql artifact repo hash format prio source w).1).
Proof. intros Hw. unfold enqueue_scan_sql. good_by_insert Hw. by apply good_same. Qed.

Lemma good_enqueue_task w kind params actor prio source key :
  queue_ok w → good w (job_tick (enqueue_task_sql kind params actor prio source key w).1).
Proof.
  intros Hw. unfold enqueue_task_sql. good_by_insert Hw.
  destruct (negb _); [by apply good_same|]. by destruct (filter _ _); apply good_same.
Qed.

Lemma good_record_run w kind at_ :
  queue_ok w → good w (job_tick (record_run_completion_sql kind at_ w).1).
Proof. intros Hw. unfold record_run_completion_sql. good_by_insert Hw. by apply good_same. Qed.

Lemma good_delete_pending w id : queue_ok w → good w (job_tick (delete_pending_job_sql id w).1).
Proof.
  intros Hw. unfold delete_pending_job_sql.
  destruct (jobs w !! id) as [row|]; [case_bool_decide|]; [| by apply good_same..].
  apply (good_shrink w (delete id (jobs w))); [done|]. intros id' row' [_ Hr]%lookup_delete_Some.
  exists row'. split_and!; [done | | done]. by apply row_step_refl, (ok_rows w Hw id').
Qed.

Lemma claimable_waiting kinds w row : claimable kinds w row = true → j_status row = Pending.
Proof.
  unfold claimable, eligible. intros Hc. by repeat apply andb_true_iff in Hc as [Hc _]; apply bool_decide_eq_true in Hc.
Qed.

Lemma oldest_waiting w kinds batch : queue_ok w → waiting_rows w (oldest kinds batch w).
Proof.
  intros Hw row [Hrow Hc]%elem_of_picked; [| done]. split; [done | by eapply claimable_waiting].
Qed.

Lemma ranked_waiting w kinds batch : queue_ok w → waiting_rows w (ranked kinds batch w).
Proof.
  intros Hw row [Hrow [Hc _]%andb_true_iff]%elem_of_picked; [| done].
  split; [done | by eapply claimable_waiting].
Qed.

Lemma good_claim_pending w kinds batch worker lock :
  queue_ok w → good w (job_tick (claim_pending_sql kinds batch worker lock w).1).
Proof.
  intros Hw. apply good_claim; [done|].
  intros row [Hin | Hin]%elem_of_app; [by eapply oldest_waiting | by eapply ranked_waiting].
Qed.

Lemma good_claim_scan w batch worker lock :
  queue_ok w → good w (job_tick (claim_scan_sql batch worker lock w).1).
Proof.
  intros Hw. apply good_claim; [done|]. intros row [Hrow Hc]%elem_of_picked; [| done].
  split; [done | by eapply claimable_waiting].
Qed.

(** ** Programs *)

(** Whatever happens between its calls, each call keeps the invariant and moves the table
    as a call may, and the reply satisfies [Q]. *)
Definition tame {E A} (p : prog JobWorld E A) (Q : A → Prop) : Prop :=
  ∀ w, wp queue_ok (λ _ _, True) moves p (λ r _, ∀ a, r = Ok a → Q a) w.

Abbreviation tame_any p := (tame p (λ _, True)).

Lemma tame_done {E A} (r : result E A) (Q : A → Prop) : (∀ a, r = Ok a → Q a) → tame (Done r) Q.
Proof. by intros HQ w. Qed.

Lemma tame_ret {E A} (a : A) (Q : A → Prop) : Q a → tame (E := E) (mret a) Q.
Proof. intros HQ. apply tame_done. by intros a' [= <-]. Qed.

Lemma tame_bind {E A B} (p : prog JobWorld E A) (f : A → prog JobWorld E B) Q R :
  tame p Q → (∀ a, Q a → tame (f a) R) → tame (p ≫= f) R.
Proof.
  intros Hp Hf w. apply wp_bind. eapply wp_mono, Hp. intros [a|e] w' HQ; [| done].
  apply Hf. by apply HQ.
Qed.

Lemma tame_weaken {E A} (p : prog JobWorld E A) (Q R : A → Prop) :
  tame p Q → (∀ a, Q a → R a) → tame p R.
Proof. intros Hp HQR w. eapply wp_mono, Hp. naive_solver. Qed.

Lemma tame_attempt {E A} (p : prog JobWorld E A) : tame_any p → tame_any (attempt p).
Proof.
  intros Hp w. specialize (Hp w). revert w Hp.
  induction p as [r | step IH] using prog_induction; intros w Hp; [done|]. cbn in *.
  intros w1 Hr Hw1. specialize (Hp w1 Hr Hw1). specialize (IH w1). destruct (step w1) as [w2 p'].
  naive_solver.
Qed.

Lemma tame_port {E A} (m : JobWorld → JobWorld * A) (Q : A → Prop) :
  (∀ w, queue_ok w → good w (m w).1 ∧ Q (m w).2) → tame (E := E) (port m) Q.
Proof.
  intros Hm w. apply wp_port. intros w1 _ Hw1. destruct (Hm w1 Hw1) as [[? ?] ?].
  split_and!; [done | done |]. by intros a [= <-].
Qed.

Lemma tame_statement_post {E A} (f : JobWorld → JobWorld * DomainResult A) (Q : DomainResult A → Prop) :
  (∀ w, queue_ok w → good w (job_tick (f w).1)) →
  (∀ e, Q (Err e)) → (∀ w, queue_ok w → Q (f w).2) → tame (E := E) (statement f) Q.
Proof.
  intros Hf He HQ. apply tame_port. intros w Hw. destruct (job_fault (job_calls w)).
  { split; [by apply good_same | by apply He]. }
  specialize (Hf w Hw). specialize (HQ w Hw). by destruct (f w).
Qed.

Lemma tame_statement {E A} (f : JobWorld → JobWorld * DomainResult A) :
  (∀ w, queue_ok w → good w (job_tick (f w).1)) → tame_any (statement (E := E) f).
Proof. intros Hf. by apply tame_statement_post. Qed.

Lemma tame_query {E A} (f : JobWorld → DomainResult A) : tame_any (query (E := E) f).
Proof. apply tame_statement. intros w Hw. by apply good_same. Qed.

Lemma tame_ask {E A} (f : JobWorld → A) : tame_any (port (E := E) (λ w, (job_tick w, f w))).
Proof. apply tame_port. intros w Hw. split; [by apply good_same | done]. Qed.

#[local] Hint Resolve tame_ret tame_query tame_ask : hort.

(** *** The port *)

Lemma tame_mark_completed {E} id a summary : tame_any (mark_completed (E := E) id a summary).
Proof.
  apply tame_statement. intros w Hw. apply good_fenced; [done|]. intros row [? ? ?] _. by split.
Qed.

Lemma tame_mark_failed {E} id a reason : tame_any (mark_failed (E := E) id a reason).
Proof.
  apply tame_statement. intros w Hw. apply good_fenced; [done|]. intros row [? ? ?] _. by split.
Qed.

Lemma tame_reschedule {E} id a backoff reason :
  a < budget → tame_any (reschedule (E := E) id a backoff reason).
Proof.
  intros Ha. apply tame_statement. intros w Hw. apply good_fenced; [done|]. intros row [? ? ?] Heq.
  split; try done. intros _. lia.
Qed.

Lemma tame_fail_unmappable {E} us : tame_any (fail_unmappable (E := E) us).
Proof.
  induction us as [| [[id a] reason] us IH]; cbn [fail_unmappable]; [by auto with hort|].
  eapply tame_bind; [apply tame_mark_failed | done].
Qed.

Lemma project_claimed_kinds rows job :
  job ∈ (project_claimed rows).1 → ∃ row, row ∈ rows ∧ j_kind row = jr_kind job.
Proof.
  induction rows as [| row rows IH]; cbn; [by intros ?%elem_of_nil|].
  destruct (project_claimed rows) as [jobs us]. cbn in IH.
  destruct (row_to_job_row row) as [j|e] eqn:Hrow; cbn.
  - intros [-> | Hin]%elem_of_cons; [| destruct (IH Hin) as (r & ? & ?); exists r; set_solver].
    exists row. split; [set_solver|]. unfold row_to_job_row in Hrow.
    destruct (j_attempts row <? 0); [done|]. unbind. by simplify_eq.
  - intros Hin. assert (job ∈ jobs) as (r & ? & ?)%IH by (by destruct (address_claimed_row row)).
    exists r. set_solver.
Qed.

Lemma claim_rows_kinds w picked worker lock rows row :
  queue_ok w → waiting_rows w picked → (claim_rows picked worker lock w).2 = Ok rows → row ∈ rows →
  ∃ r, r ∈ picked ∧ j_kind row = j_kind r.
Proof.
  intros Hw Hp. unfold claim_rows. destruct (existsb _ picked); [done|]. intros [= <-].
  intros (r & Hin & ->)%returned_rows; [| done | done]. by exists r.
Qed.

Lemma claimable_kind kinds w row : claimable kinds w row = true → j_kind row ∈ kinds.
Proof.
  unfold claimable. intros [[_ Hk]%andb_true_iff _]%andb_true_iff. by apply bool_decide_eq_true in Hk.
Qed.

Lemma claim_pending_kinds w kinds batch worker lock rows row :
  queue_ok w → (claim_pending_sql kinds batch worker lock w).2 = Ok rows → row ∈ rows →
  j_kind row ∈ kinds.
Proof.
  intros Hw Hr Hin. destruct (claim_rows_kinds _ _ _ _ _ _ Hw
    (λ row Hin, match proj1 (elem_of_app _ _ _) Hin with
                | or_introl Hin => oldest_waiting w kinds batch Hw row Hin
                | or_intror Hin => ranked_waiting w kinds batch Hw row Hin
                end) Hr Hin) as (r & Hpick & ->).
  apply elem_of_app in Hpick as [Hpick | Hpick]; apply elem_of_picked in Hpick as [_ Hc]; try done.
  - by eapply claimable_kind.
  - apply andb_true_iff in Hc as [Hc _]. by eapply claimable_kind.
Qed.

(** A claim only returns rows of the kinds it asked for. *)
Lemma tame_claim_pending {E} kinds batch worker lock :
  tame (claim_pending_by_kinds (E := E) kinds batch worker lock)
    (λ r, ∀ jobs job, r = Ok jobs → job ∈ jobs → jr_kind job ∈ kinds).
Proof.
  eapply (tame_bind _ _ (λ r, ∀ rows row, r = Ok rows → row ∈ rows → j_kind row ∈ kinds)).
  - apply tame_statement_post; [intros; by apply good_claim_pending | done |].
    intros w Hw rows row. by apply claim_pending_kinds.
  - intros [rows|e] Hrows; [| by apply tame_ret].
    pose proof (project_claimed_kinds rows) as Hkinds. destruct (project_claimed rows) as [js us].
    eapply tame_bind; [apply tame_fail_unmappable|]. intros _ _. apply tame_ret.
    intros jobs job [= <-] Hin. unfold sort_claimed_jobs in Hin. rewrite sort_by_Permutation in Hin.
    destruct (Hkinds job Hin) as (row & Hrow & <-). by eapply Hrows.
Qed.

Lemma tame_renew {E} id worker lock : tame_any (renew_lease (E := E) id worker lock).
Proof. apply tame_statement. intros. by apply good_renew. Qed.

Lemma tame_requeue {E} kinds grace cap' batch :
  cap' ≤ cap → tame_any (requeue_abandoned (E := E) kinds grace cap' batch).
Proof.
  intros Hcap. unfold requeue_abandoned. destruct (is_empty kinds); [by auto with hort|].
  apply tame_statement. intros w Hw. pose proof (good_requeue w kinds grace cap' batch Hcap Hw) as Hg.
  by destruct (requeue_abandoned_sql kinds grace cap' batch w).
Qed.

Lemma tame_enqueue_task {E} kind params actor prio source key :
  tame_any (enqueue_task (E := E) kind params actor prio source key).
Proof. apply tame_statement. intros. by apply good_enqueue_task. Qed.

Lemma tame_delete_job {E} id : tame_any (delete_job (E := E) id).
Proof. apply tame_statement. intros. by apply good_delete_pending. Qed.

Lemma tame_sweep {E} (P : JobWorld → Job → bool) : tame_any (statement (E := E) (λ w, sweep (P w) w)).
Proof. apply tame_statement. intros w Hw. by apply good_delete. Qed.

Lemma tame_enqueue_scan {E} artifact repo hash format prio source :
  tame_any (enqueue_scan (E := E) artifact repo hash format prio source).
Proof. apply tame_statement. intros. by apply good_enqueue_scan. Qed.

Lemma tame_enqueue_scan_in_tx {E} artifact repo hash format prio source :
  tame_any (enqueue_scan_in_tx (E := E) artifact repo hash format prio source).
Proof.
  apply tame_statement. intros w Hw.
  set (row := scan_row artifact repo hash format prio source w).
  assert (good w (job_tick (insert_batch [row] w).1)) as Hg.
  { apply good_batch; [done|]. constructor; [| constructor]. by split_and!; [exists 0%nat | | |]. }
  cbv zeta. by destruct (insert_batch [row] w).
Qed.

Lemma tame_enqueue_provenance {E} artifact prio source :
  tame_any (enqueue_provenance_verify_in_tx (E := E) artifact prio source).
Proof. apply tame_statement. intros w Hw. cbv zeta. good_by_insert Hw. by apply good_same. Qed.

Lemma tame_record_run {E} kind at_ : tame_any (record_run_completion (E := E) kind at_).
Proof. apply tame_statement. intros. by apply good_record_run. Qed.

Lemma fresh_imap {A} w (f : nat → A → Job) l :
  (∀ i a, newborn w (f i a)) → Forall (newborn w) (imap f l).
Proof.
  intros Hf. apply Forall_lookup. intros i row. rewrite list_lookup_imap.
  intros (a & _ & ->)%fmap_Some. apply Hf.
Qed.

Lemma tame_enqueue_prefetch {E} rows : tame_any (enqueue_prefetch_batch (E := E) rows).
Proof.
  unfold enqueue_prefetch_batch. generalize (sort_by str_leb (remove_dups (pe_kind <$> rows))), (@nil Uuid).
  intros kinds. induction kinds as [| kind kinds IH]; intros ids; cbn [enqueue_prefetch_kinds].
  { by auto with hort. }
  case_bool_decide; [| by auto with hort]. eapply tame_bind.
  - apply tame_statement. intros w Hw. apply good_batch; [done|]. apply fresh_imap.
    intros i r. by split_and!; [exists i | | |].
  - intros [new|e] _; [apply IH | by auto with hort].
Qed.

Lemma tame_enqueue_idempotent {E} rows : tame_any (enqueue_idempotent_batch (E := E) rows).
Proof.
  unfold enqueue_idempotent_batch. destruct (is_empty rows); [by auto with hort|].
  apply tame_statement. intros w Hw. apply good_batch; [done|]. apply fresh_imap.
  intros i r. by split_and!; [exists i | | |].
Qed.

Lemma tame_claim_scan {E} worker batch lock : tame_any (claim_scan_jobs (E := E) worker batch lock).
Proof.
  eapply tame_bind; [apply tame_statement; intros; by apply good_claim_scan | by auto with hort].
Qed.

(** *** The dispatcher *)

(** A worker as it is composed: the configured cap, a semaphore for every handler, and
    handlers that leave results to the dispatcher. *)
Record worker_ok (d : TaskDispatcher) : Prop := {
  worker_cap : attempt_cap d = cap;
  worker_semaphores : ∀ kind, is_Some (handlers d !! kind) → is_Some (semaphores d !! kind);
  worker_handlers : ∀ kind handler params job,
    handlers d !! kind = Some handler → tame_any (handler params job);
}.

Lemma tame_record_outcome d job outcome : worker_ok d → tame_any (record_outcome_for_row d job outcome).
Proof.
  intros [Hcap _ _]. destruct outcome as [summary | reason retry]; cbn [record_outcome_for_row].
  - eapply tame_bind; [apply tame_mark_completed | by auto with hort].
  - destruct (retry && _) eqn:Hr.
    + apply andb_true_iff in Hr as [_ Ha%Z.ltb_lt].
      eapply tame_bind; [apply tame_reschedule; unfold budget; lia | by auto with hort].
    + eapply tame_bind; [apply tame_mark_failed | by auto with hort].
Qed.

Lemma tame_refuse job params : tame_any (refuse_unauthorized_execution job params).
Proof.
  apply (tame_bind _ _ (λ _, True)); [| by auto with hort]. unfold authorize_execution.
  destruct (task_invocation_is_destructive _ _) as [[]|]; [| by auto with hort..].
  destruct (jr_actor_id job); [| by auto with hort].
  eapply tame_bind; [apply tame_query|]. intros [user|[]] _; try by auto with hort.
  repeat (destruct (negb _); [by auto with hort|]). eapply tame_bind; [apply tame_query|].
  intros [rbac|] _; [| by auto with hort]. eapply tame_bind; [apply tame_ask|].
  intros now _. repeat (destruct (negb _); [by auto with hort|]). by auto with hort.
Qed.

Lemma tame_guards {E A} (f : JobWorld → list LeaseRenewalGuard) (r : JobWorld → A) :
  tame_any (port (E := E) (λ w, (job_tick w {{ guards := f w }}, r w))).
Proof. apply tame_port. intros w Hw. split; [by apply good_same | done]. Qed.

Lemma tame_dispatch_one d job handler :
  worker_ok d → (∀ params, tame_any (handler params job)) → tame_any (dispatch_one d job handler).
Proof.
  intros Hd Hh. eapply tame_bind; [apply tame_refuse|]. intros [outcome|] _; [by apply tame_record_outcome|].
  eapply tame_bind; [apply tame_guards|]. intros guard _.
  eapply tame_bind; [by apply tame_attempt, Hh|]. intros outcome _.
  eapply tame_bind; [apply tame_guards|]. intros lost _.
  destruct lost; [by auto with hort|]. destruct outcome; by apply tame_record_outcome.
Qed.

Lemma tame_renewal d guard id ticks : tame_any (renew_while_held d guard id ticks).
Proof.
  induction ticks as [| ticks IH]; cbn [renew_while_held]; [by auto with hort|].
  eapply tame_bind; [apply tame_ask|]. intros [] _; [by auto with hort|].
  eapply tame_bind; [apply tame_renew|]. intros [[]|] _; [done | apply tame_guards | done].
Qed.

(** A claimed row has a handler, so no row goes back for want of one. *)
Lemma tame_dispatch_claimed d claimed :
  worker_ok d → (∀ job, job ∈ claimed → jr_kind job ∈ registered_kinds d) →
  tame_any (dispatch_claimed d claimed).
Proof.
  intros Hd. induction claimed as [| job claimed IH]; intros Hk; cbn [dispatch_claimed]; [by auto with hort|].
  assert (is_Some (handlers d !! jr_kind job)) as Hh.
  { specialize (Hk job (list_elem_of_here _ _)). unfold registered_kinds in Hk.
    apply list_elem_of_fmap in Hk as ([kind handler] & -> & Hin%elem_of_map_to_list). by exists handler. }
  destruct (worker_semaphores d Hd _ Hh) as [n ->]. destruct Hh as [handler ->].
  eapply tame_bind; [apply IH; set_solver | by auto with hort].
Qed.

Lemma tame_poll_once d st : worker_ok d → tame_any (poll_once d st).
Proof.
  intros Hd. eapply tame_bind; [apply tame_claim_pending|]. intros [claimed|e] Hk; [| by auto with hort].
  eapply tame_bind; [apply tame_ask|]. intros claimed_at _.
  eapply tame_bind; [apply tame_ask|]. intros now _.
  apply (tame_bind _ _ (λ _, True)).
  { destruct (due _ _ _); [| by auto with hort]. apply (tame_bind _ _ (λ _, True)); [| by auto with hort].
    eapply tame_bind; [apply tame_query|]. intros [backlogs|] _; [| by auto with hort].
    eapply tame_bind; [apply tame_ask | by auto with hort]. }
  intros st1 _. eapply tame_bind; [apply tame_ask|]. intros now' _. apply (tame_bind _ _ (λ _, True)).
  { destruct (due _ _ _); [| by auto with hort]. apply (tame_bind _ _ (λ _, True)); [| by auto with hort].
    apply (tame_bind _ _ (λ _, True)); [| by auto with hort]. apply tame_requeue. rewrite (worker_cap d Hd). lia. }
  intros st2 _. apply (tame_bind _ _ (λ _, True)); [| by auto with hort]. apply tame_dispatch_claimed; [done|].
  intros job Hin. by eapply Hk.
Qed.

Lemma tame_poll_loop d ticks st : worker_ok d → tame_any (poll_loop d ticks st).
Proof.
  intros Hd. revert st. induction ticks as [| ticks IH]; intros st; cbn [poll_loop]; [by auto with hort|].
  eapply tame_bind; [by apply tame_poll_once | intros next _; apply IH].
Qed.

(** *** The use case *)

Lemma tame_append {E} stream actor event : tame_any (append_task_invoked (E := E) stream actor event).
Proof. apply tame_statement. intros w Hw. apply good_same; [done.. |]. apply prefix_app_r. done. Qed.

Lemma tame_append_with_retry {E} n stream actor event :
  tame_any (append_with_retry (E := E) n stream actor event).
Proof.
  induction n as [| n IH]; cbn [append_with_retry]; (eapply tame_bind; [apply tame_append|]);
    intros [[]|[]] _; solve [apply IH | by auto with hort].
Qed.

Lemma tame_authorize_kind actor kind params : tame_any (authorize_kind actor kind params).
Proof.
  eapply tame_bind; [apply tame_ask|]. intros rbac _. destruct (negb _); [by apply tame_done|].
  apply (tame_bind _ _ (λ _, True)); [by apply tame_done|]. intros b _.
  destruct (b && _); by apply tame_done.
Qed.

Lemma tame_enqueue actor kind params key : tame_any (enqueue actor kind params key).
Proof.
  unfold enqueue. destruct (negb _); [by apply tame_done|].
  eapply tame_bind; [apply tame_authorize_kind|]. intros _ _.
  eapply tame_bind; [apply tame_enqueue_task|]. intros inserted _.
  apply (tame_bind _ _ (λ _, True)); [by apply tame_done|]. intros outcome _.
  destruct outcome as [id | id]; (eapply tame_bind; [apply tame_append_with_retry|]);
    intros [[]|e] _; try by apply tame_done.
  eapply tame_bind; [apply tame_delete_job | intros _ _; by apply tame_done].
Qed.

(** Somebody changes users, grants or the evaluator. *)
Definition administer {E} (f : JobWorld → gmap Uuid User * list PermissionGrant * RbacEvaluator)
    : prog JobWorld E unit :=
  port (λ w, (job_tick w {{ requesters := (f w).1.1; grants := (f w).1.2; evaluator := (f w).2 }}, ())).

Lemma tame_administer {E} f : tame_any (administer (E := E) f).
Proof. apply tame_port. intros w Hw. split; [by apply good_same | done]. Qed.

(** ** Pools *)

(** Everything that works on the queue, as a handler without a reply. *)
Inductive task_program : prog JobWorld DomainError unit → Prop :=
  | tp_poll d ticks st : worker_ok d → task_program (poll_loop d ticks st)
  | tp_dispatch d job handler :
      worker_ok d → handlers d !! jr_kind job = Some handler → task_program (dispatch_one d job handler)
  | tp_renewal d guard id ticks : task_program (renew_while_held d guard id ticks)
  | tp_enqueue actor kind params key :
      task_program (conclude (λ _, ()) (enqueue actor kind params key))
  | tp_scan artifact repo hash format prio source :
      task_program (enqueue_scan artifact repo hash format prio source ;; mret ())
  | tp_ingest_scan artifact repo hash format prio source :
      task_program (enqueue_scan_in_tx artifact repo hash format prio source ;; mret ())
  | tp_ingest_provenance artifact prio source :
      task_program (enqueue_provenance_verify_in_tx artifact prio source ;; mret ())
  | tp_prefetch rows : task_program (enqueue_prefetch_batch rows ;; mret ())
  | tp_idempotent rows : task_program (enqueue_idempotent_batch rows ;; mret ())
  | tp_run_completion kind at_ : task_program (record_run_completion kind at_ ;; mret ())
  | tp_claim_scan worker batch lock : task_program (claim_scan_jobs worker batch lock ;; mret ())
  | tp_prefetch_sweep horizon : task_program (delete_terminal_prefetch_rows_older_than horizon ;; mret ())
  | tp_scan_sweep horizon : task_program (delete_terminal_scan_rows_older_than horizon ;; mret ())
  | tp_other_sweep horizon : task_program (delete_terminal_other_kind_rows_older_than horizon ;; mret ())
  | tp_administer f : task_program (administer f).

Lemma tame_then {E A} (p : prog JobWorld E A) : tame_any p → tame_any (p ;; mret ()).
Proof. intros Hp. eapply tame_bind; [exact Hp | by auto with hort]. Qed.

Lemma tame_conclude {E E' A B} (f : result E' A → B) (p : prog JobWorld E' A) :
  tame_any p → tame_any (conclude (E' := E) f p).
Proof. intros Hp w. apply wp_conclude. eapply wp_mono, Hp. done. Qed.

Lemma task_program_tame p : task_program p → tame_any p.
Proof.
  destruct 1; try apply tame_then.
  - by apply tame_poll_loop.
  - apply tame_dispatch_one; [done|]. intros. by eapply worker_handlers.
  - apply tame_renewal.
  - apply tame_conclude, tame_enqueue.
  - apply tame_enqueue_scan.
  - apply tame_enqueue_scan_in_tx.
  - apply tame_enqueue_provenance.
  - apply tame_enqueue_prefetch.
  - apply tame_enqueue_idempotent.
  - apply tame_record_run.
  - apply tame_claim_scan.
  - apply (tame_sweep (λ w, prefetch_swept (job_time w) horizon)).
  - apply (tame_sweep (λ w, scan_swept (job_time w) horizon)).
  - apply (tame_sweep (λ w, other_swept (job_time w) horizon (jobs w))).
  - apply tame_administer.
Qed.

(** One call of a program that is under way, or the start of another one. *)
Definition task_step := pool_step (λ _ : nat, task_program).

Definition anything (w w' : JobWorld) : Prop := True.

#[local] Instance anything_preorder : PreOrder anything.
Proof. by split. Qed.

Lemma started_tame (i : nat) p w :
  task_program p → queue_ok w → wp queue_ok anything moves p (λ _ _, True) w.
Proof. intros Hp _. eapply wp_mono, (task_program_tame p Hp). done. Qed.

Lemma pool_queue_ok w c : queue_ok w → rtc task_step (w, []) c → queue_ok c.1.
Proof.
  intros Hw. by apply (pool_adequate queue_ok (λ _, anything) (λ _, moves) (λ _, task_program)
    (λ _ _ _ _ _ _, I) (λ _ _ _, True) started_tame).
Qed.

Lemma pool_moves w c c' :
  queue_ok w → rtc task_step (w, []) c → task_step c c' → c'.1 = c.1 ∨ moves c.1 c'.1.
Proof.
  intros Hw Hsteps Hstep.
  destruct (pool_step_guar queue_ok (λ _, anything) (λ _, moves) (λ _, task_program)
    (λ _ _ _ _ _ _, I) (λ _ _ _, True) started_tame w [] c c' Hw) as [? | (i & _ & _ & ?)];
    [done | done | done | by left | by right].
Qed.
End safety.
