(* ===== verification/TaskPromise.v ===== *)
(** What the queue and its workers promise.

    [results_land_on_their_own_execution] is the fence around results and
    [executions_are_bounded] the budget of a row.  [keys_are_single_flight] is about the
    unique indexes, [old_rows_are_served] about waiting behind other rows, and
    [retention_keeps_what_readers_read] about the sweeps of old rows and
    [only_abandoned_rows_are_swept] about the sweep of lapsed leases.
    [destructive_tasks_need_live_authority] and [accepted_tasks_are_audited] follow a
    task from the request to its handler. *)

From coqutil Require Import Datatypes.RecordSetters.
From S2P Require Import Prelude.
From S2P Require Import RustStd.
From S2P Require Import Json.
From S2P Require Import Types.
From S2P Require Import Store.
From S2P Require Import RetentionUseCase.
From S2P Require Import Concurrent.
From S2P Require Import Rbac.
From S2P Require Import Tokens.
From S2P Require Import Liveness.
From S2P Require Import Jobs.
From S2P Require Import TaskDispatch.
From S2P Require Import JobSafety.
Import DoubleBraceUpdate.

(** ** Results *)

Section results.
Context `{JobBackend} (cap : Z) (w : JobWorld) (Hw : queue_ok cap w).

Lemma superseded_write set_clause id a b :
  (id, a) ∈ executions w → (id, b) ∈ executions w → a < b →
  fenced_result_write set_clause id a w = (w, Ok RowGone) ∧ jobs w !! id = None ∨
  ∃ b', a < b' ∧ (id, b') ∈ executions w ∧ fenced_result_write set_clause id a w = (w, Ok (Superseded b')).
Proof.
  intros Ha Hb Hlt. unfold fenced_result_write.
  destruct (jobs w !! id) as [row|] eqn:Hrow; [right | by left].
  pose proof (ok_latest cap w Hw _ _ _ Hb Hrow) as Hle.
  destruct (ok_executions cap w Hw _ _ Ha) as [_ ?].
  exists (j_attempts row). split_and!; [lia | apply (ok_given cap w Hw id row); [done | lia] |].
  rewrite (proj2 (Z.eqb_neq _ _)) by lia. by rewrite (proj2 (Z.ltb_ge _ _)) by lia.
Qed.

Lemma latest_write set_clause id a row :
  (id, a) ∈ executions w → (∀ b, (id, b) ∈ executions w → b ≤ a) → jobs w !! id = Some row →
  j_attempts row = a ∧
  let row' := (set_clause row) {{ j_updated_at := job_time w }} in
  fenced_result_write set_clause id a w =
  if violates_index row' (jobs w) then (w, Err (already_exists "ScanJob"))
  else (w {{ jobs ::= <[id := row']> }}, Ok Applied).
Proof.
  intros Ha Hmax Hrow. pose proof (ok_latest cap w Hw _ _ _ Ha Hrow).
  destruct (ok_executions cap w Hw _ _ Ha) as [_ ?].
  assert (j_attempts row = a) as Heq.
  { enough (j_attempts row ≤ a) by lia. apply Hmax, (ok_given cap w Hw id row); [done | lia]. }
  split; [done|]. unfold fenced_result_write. by rewrite Hrow, Heq, Z.eqb_refl.
Qed.
End results.

(** C10. Of two executions of a row only the later one can write its result.  Whatever
    workers, sweeps, renewals and requests do at the same time: once a row has been
    claimed again, every result that the earlier execution offers is refused and the table
    stays as it is; and as long as it has not, a result that is offered is written to that
    row and to no other, unless a unique index forbids it.  (A dispatcher that believes it
    has lost its lease offers none.) *)
Theorem results_land_on_their_own_execution `{JobBackend} cap w c id a set_clause :
  queue_ok cap w → rtc (task_step cap) (w, []) c → (id, a) ∈ executions c.1 →
  (∀ b, (id, b) ∈ executions c.1 → a < b →
     fenced_result_write set_clause id a c.1 = (c.1, Ok RowGone) ∧ jobs c.1 !! id = None ∨
     ∃ b', a < b' ∧ (id, b') ∈ executions c.1 ∧
       fenced_result_write set_clause id a c.1 = (c.1, Ok (Superseded b'))) ∧
  ((∀ b, (id, b) ∈ executions c.1 → b ≤ a) → ∀ row, jobs c.1 !! id = Some row →
     j_attempts row = a ∧
     let row' := (set_clause row) {{ j_updated_at := job_time c.1 }} in
     fenced_result_write set_clause id a c.1 =
     if violates_index row' (jobs c.1) then (c.1, Err (already_exists "ScanJob"))
     else (c.1 {{ jobs ::= <[id := row']> }}, Ok Applied)).
Proof.
  intros Hw Hsteps Ha. assert (queue_ok cap c.1) as Hc by (by eapply pool_queue_ok). split.
  - intros b Hb Hlt. by eapply superseded_write.
  - intros Hmax row Hrow. by eapply latest_write.
Qed.

(** ** The budget *)

(** The executions of one row. *)
Definition executions_of (id : Uuid) (w : JobWorld) : list (Uuid * Z) :=
  filter (λ e, e.1 = id) (executions w).

Lemma bounded_attempts (l : list (Uuid * Z)) id n :
  NoDup l → (∀ e, e ∈ l → e.1 = id ∧ 1 ≤ e.2 ≤ n) → len l ≤ n ∨ l = [].
Proof.
  intros Hnd Hall. destruct l as [| e l']; [by right | left]. set (l := e :: l') in *.
  assert (1 ≤ n) by (destruct (Hall e (list_elem_of_here _ _)) as [_ ?]; lia).
  assert (l ⊆+ (pair id <$> seqZ 1 n)) as Hsub.
  { apply NoDup_submseteq; [done|]. intros [i a] [Hi Ha]%Hall. cbn in *. subst i.
    apply list_elem_of_fmap. exists a. split; [done|]. apply elem_of_seqZ. lia. }
  apply submseteq_length in Hsub. rewrite length_fmap, length_seqZ in Hsub. unfold len. lia.
Qed.

(** C12. A row is executed no more often than its budget allows.  However many workers
    poll, sweep and dispatch, no attempt of a row is given out twice, and a row gets at
    most the configured number of executions, or one where fewer are configured; a row
    that waits has attempts left. *)
Theorem executions_are_bounded `{JobBackend} cap w c id :
  queue_ok cap w → rtc (task_step cap) (w, []) c →
  NoDup (executions c.1) ∧ len (executions_of id c.1) ≤ Z.max cap 1 ∧
  ∀ row, jobs c.1 !! id = Some row →
    0 ≤ j_attempts row ≤ Z.max cap 1 ∧ (j_status row = Pending → j_attempts row < Z.max cap 1).
Proof.
  intros Hw Hsteps. assert (queue_ok cap c.1) as Hc by (by eapply pool_queue_ok).
  split_and!; [apply (ok_nodup cap _ Hc) | |].
  - destruct (bounded_attempts (executions_of id c.1) id (Z.max cap 1)) as [? | ->]; [| | done | unfold len; cbn; lia].
    + apply NoDup_filter, (ok_nodup cap _ Hc).
    + intros [i a] [Hi Hin]%list_elem_of_filter. split; [done|]. by apply (ok_executions cap _ Hc) in Hin as [_ ?].
  - intros row Hrow. destruct (ok_rows cap _ Hc _ _ Hrow) as [_ [? ? _]]. done.
Qed.

(** ** Keys *)

Section keys.
Context `{JobBackend} (cap : Z) (w : JobWorld) (Hw : queue_ok cap w).

Lemma same_key_same_row {K} `{EqDecision K} (index : Job → option K) k id1 id2 row1 row2 :
  (∀ a b, index_conflict a b = false → shares index a b = false) →
  jobs w !! id1 = Some row1 → jobs w !! id2 = Some row2 →
  index row1 = Some k → index row2 = Some k → id1 = id2.
Proof.
  intros Hi H1 H2 Hk1 Hk2. destruct (decide (id1 = id2)) as [|Hne]; [done|].
  pose proof (ok_unique cap w Hw _ _ _ _ Hne H1 H2) as Hc. apply Hi in Hc.
  rewrite shares_false in Hc. by destruct (Hc k Hk1).
Qed.

Lemma violates_fresh_key kind params actor prio source key :
  let row := (new_row 0 kind params actor prio source w) {{ j_idempotency_key := key }} in
  violates_index row (jobs w) = true →
  ∃ id other k, jobs w !! id = Some other ∧ j_id other = id ∧ key = Some k ∧ j_idempotency_key other = Some k.
Proof.
  intros row Hv. apply existsb_exists in Hv as (other & Hin & [_ Hc]%andb_true_iff).
  apply list_elem_of_In, list_elem_of_fmap in Hin as ([id other'] & Ho & Hin%elem_of_map_to_list).
  cbn in Ho. subst other'. exists id, other. unfold index_conflict in Hc.
  assert (shares scan_index row other = false) as Hs.
  { apply shares_false. unfold scan_index at 1, row. cbn. by destruct (_ && _). }
  assert (shares target_index row other = false) as Ht.
  { apply shares_false. unfold target_index at 1, row. cbn. by destruct (_ && _). }
  rewrite Hs, Ht in Hc. cbn [orb] in Hc. unfold shares in Hc.
  apply andb_true_iff in Hc as [Hk Heq%bool_decide_eq_true]. cbn in Hk, Heq.
  destruct key as [k|]; [| done]. exists k. split_and!; [done | by apply (ok_keyed cap w Hw) | done | done].
Qed.

(** A new row's id is free. *)
Lemma fresh_id_free i : jobs w !! gen_random_uuid (job_calls w) i = None.
Proof.
  destruct (jobs w !! _) as [row|] eqn:Hrow; [| done].
  by destruct (fresh_not_issued w i), (ok_rows cap w Hw _ _ Hrow).
Qed.

Lemma fresh_enqueue kind params actor prio source key row :
  row = (new_row 0 kind params actor prio source w) {{ j_idempotency_key := key }} →
  (∀ id other k, jobs w !! id = Some other → key = Some k → j_idempotency_key other ≠ Some k) →
  row_checks w row = true →
  enqueue_task_sql kind params actor prio source key w =
    (w {{ jobs ::= <[j_id row := row]> }}, Ok (Enqueued (j_id row))).
Proof.
  intros Hr Hfree Hchk. unfold enqueue_task_sql, insert_row. rewrite <- Hr, Hchk. cbn [negb].
  assert (jobs w !! j_id row = None) as -> by (rewrite Hr; apply (fresh_id_free 0)). cbn [is_some orb].
  destruct (violates_index row (jobs w)) eqn:Hv; [| done]. rewrite Hr in Hv.
  apply violates_fresh_key in Hv as (id & other & k & Ho & _ & -> & Hk). by destruct (Hfree id other k).
Qed.

Lemma duplicate_enqueue kind params actor prio source key id row :
  jobs w !! id = Some row → j_idempotency_key row = Some key →
  (enqueue_task_sql kind params actor prio source (Some key) w).1 = w ∧
  ((enqueue_task_sql kind params actor prio source (Some key) w).2 = Err check_violation ∨
   (enqueue_task_sql kind params actor prio source (Some key) w).2 =
     if snapshot_misses (job_calls w) id then Err (NotFound "Job" [ArgStr kind]) else Ok (Duplicate id)).
Proof.
  intros Hrow Hkey. unfold enqueue_task_sql, insert_row.
  set (new := (new_row 0 kind params actor prio source w) {{ j_idempotency_key := Some key }}).
  destruct (row_checks w new); cbn [negb]; [| by split; [| left]].
  assert (violates_index new (jobs w) = true) as ->.
  { apply existsb_exists. exists row. split.
    - apply list_elem_of_In, list_elem_of_fmap. exists (id, row). split; [done|]. by apply elem_of_map_to_list.
    - apply andb_true_iff. split.
      + rewrite bool_decide_eq_false_2; [done|]. rewrite (ok_keyed cap w Hw _ _ Hrow). intros Hid.
        pose proof (fresh_id_free 0 : jobs w !! j_id new = None). congruence.
      + unfold index_conflict. apply orb_true_iff. right. unfold shares. rewrite Hkey.
        change (j_idempotency_key new) with (Some key). cbn [is_some andb]. by apply bool_decide_eq_true_2. }
  rewrite orb_true_r. cbn [is_some andb].
  assert (row ∈ scan_rows w) as Hin by (apply elem_of_scan; by exists id).
  assert (∀ x, x ∈ scan_rows w → j_idempotency_key x = Some key → x = row) as Honly.
  { intros x [id' Hx]%elem_of_scan Hk. enough (id' = id) as -> by congruence.
    eapply (same_key_same_row j_idempotency_key key); try done.
    intros a b Hab%index_conflict_false. tauto. }
  assert (existsb (λ other, bool_decide (j_idempotency_key other = Some key)) (scan_rows w) = true) as ->.
  { apply existsb_exists. exists row. split; [by apply list_elem_of_In | by rewrite Hkey, bool_decide_eq_true_2]. }
  cbn [negb]. rewrite <- (ok_keyed cap w Hw _ _ Hrow).
  destruct (filter _ (scan_rows w)) as [| x l] eqn:Hf; (split; [done | right]); cbn [snd].
  - destruct (snapshot_misses (job_calls w) (j_id row)) eqn:Hm; [done|].
    assert (row ∈ (@nil Job)) as []%elem_of_nil. rewrite <- Hf. apply list_elem_of_filter. split; [| done].
    by rewrite Hkey, Hm, bool_decide_eq_true_2.
  - assert (x ∈ x :: l) as Hx by apply list_elem_of_here. rewrite <- Hf in Hx.
    apply list_elem_of_filter in Hx as [[Hk%bool_decide_eq_true Hm%negb_true_iff]%Is_true_true%andb_true_iff Hx].
    rewrite (Honly x Hx Hk) in Hm |- *. by rewrite Hm.
Qed.
End keys.

(** C22. A key is in flight once.  Whatever happens at the same time, no two rows hold the
    same idempotency key, no two scans of an artifact are in flight, and no two prefetches
    of a target; a request under a key that a row holds leaves the table alone and is
    answered with that row, as long as the statement's snapshot shows it, and a request
    under a free key adds one waiting row. *)
Theorem keys_are_single_flight `{JobBackend} cap w c :
  queue_ok cap w → rtc (task_step cap) (w, []) c →
  (∀ id1 id2 row1 row2, jobs c.1 !! id1 = Some row1 → jobs c.1 !! id2 = Some row2 →
     (∃ k, j_idempotency_key row1 = Some k ∧ j_idempotency_key row2 = Some k) ∨
     (∃ k, scan_index row1 = Some k ∧ scan_index row2 = Some k) ∨
     (∃ k, target_index row1 = Some k ∧ target_index row2 = Some k) → id1 = id2) ∧
  (∀ kind params actor prio source key id row,
     jobs c.1 !! id = Some row → j_idempotency_key row = Some key →
     (enqueue_task_sql kind params actor prio source (Some key) c.1).1 = c.1 ∧
     ((enqueue_task_sql kind params actor prio source (Some key) c.1).2 = Err check_violation ∨
      (enqueue_task_sql kind params actor prio source (Some key) c.1).2 =
        if snapshot_misses (job_calls c.1) id then Err (NotFound "Job" [ArgStr kind])
        else Ok (Duplicate id))) ∧
  (∀ kind params actor prio source key row,
     row = (new_row 0 kind params actor prio source c.1) {{ j_idempotency_key := key }} →
     (∀ id other k, jobs c.1 !! id = Some other → key = Some k → j_idempotency_key other ≠ Some k) →
     row_checks c.1 row = true →
     enqueue_task_sql kind params actor prio source key c.1 =
       (c.1 {{ jobs ::= <[j_id row := row]> }}, Ok (Enqueued (j_id row)))).
Proof.
  intros Hw Hsteps. assert (queue_ok cap c.1) as Hc by (by eapply pool_queue_ok). split_and!.
  - intros id1 id2 row1 row2 H1 H2 [(k & ? & ?) | [(k & ? & ?) | (k & ? & ?)]];
      [ apply (same_key_same_row cap c.1 Hc j_idempotency_key k id1 id2 row1 row2)
      | apply (same_key_same_row cap c.1 Hc scan_index k id1 id2 row1 row2)
      | apply (same_key_same_row cap c.1 Hc target_index k id1 id2 row1 row2) ];
      try done; intros x y Hxy%index_conflict_false; tauto.
  - intros kind params actor prio source key id row Hrow Hk.
    by apply (duplicate_enqueue cap c.1 Hc kind params actor prio source key id row).
  - intros kind params actor prio source key row Hr Hfree Hchk. by eapply (fresh_enqueue cap).
Qed.

(** ** Waiting *)

(** The sum of [f] over the rows of a table. *)
Definition total (f : Job → nat) (t : Table) : nat := sum_list_with (f ∘ snd) (map_to_list t).

Lemma total_insert f t id row : t !! id = None → total f (<[id := row]> t) = (f row + total f t)%nat.
Proof. intros Hid. unfold total. by rewrite map_to_list_insert. Qed.

Lemma total_delete f t id row : t !! id = Some row → total f t = (f row + total f (delete id t))%nat.
Proof.
  intros Hid. rewrite <- (insert_delete_id t id row Hid) at 1. apply total_insert, lookup_delete_eq.
Qed.

Lemma total_le f t t' :
  (∀ id row', t' !! id = Some row' → f row' = 0%nat ∨ ∃ row, t !! id = Some row ∧ (f row' ≤ f row)%nat) →
  (total f t' ≤ total f t)%nat.
Proof.
  revert t. induction t' as [| id row' t' Hid IH] using map_ind; intros t Hle.
  { unfold total. rewrite map_to_list_empty. cbn. lia. }
  rewrite total_insert by done.
  destruct (Hle id row' (lookup_insert_eq _ _ _)) as [-> | (row & Hrow & Hf)].
  - apply IH. intros id' r Hr. apply Hle. rewrite lookup_insert_ne; [done | congruence].
  - rewrite (total_delete f t id row Hrow). enough (total f t' ≤ total f (delete id t))%nat by lia.
    apply IH. intros id' r Hr. assert (id' ≠ id) by congruence.
    destruct (Hle id' r) as [? | (r0 & ? & ?)]; [by rewrite lookup_insert_ne | by left | right].
    exists r0. by rewrite lookup_delete_ne.
Qed.

Lemma total_lt f t t' id row row' :
  (∀ id row', t' !! id = Some row' → f row' = 0%nat ∨ ∃ row, t !! id = Some row ∧ (f row' ≤ f row)%nat) →
  t !! id = Some row → t' !! id = Some row' → (f row' < f row)%nat → (total f t' < total f t)%nat.
Proof.
  intros Hle Hrow Hrow' Hlt. rewrite (total_delete f t id row Hrow), (total_delete f t' id row' Hrow').
  enough (total f (delete id t') ≤ total f (delete id t))%nat by lia. apply total_le.
  intros id' r [Hne Hr]%lookup_delete_Some. destruct (Hle id' r Hr) as [? | (r0 & ? & ?)]; [by left | right].
  exists r0. by rewrite lookup_delete_ne.
Qed.

Section waiting.
Context `{JobBackend} (cap : Z) (kinds : list string) (id : Uuid) (created : DateTime).
Context (Hcap : cap ≤ i32_MAX).

(** The executions a row that is not newer may still have. *)
Definition chances (row : Job) : nat :=
  if bool_decide (j_kind row ∈ kinds ∧ j_created_at row ≤ created ∧ j_id row ≠ id) then
    Z.to_nat (budget cap - j_attempts row)
  else 0.

Definition ahead (t : Table) : nat := total chances t.

(** A poll that takes the kinds, finds the row waiting, and leaves it.  Polls are those of
    [claim_pending_by_kinds], the one the dispatcher makes, with one list of kinds;
    [claim_scan_jobs] keeps no slot for old rows and is not counted. *)
Definition passes_over (w w' : JobWorld) : Prop :=
  ∃ batch worker lock row,
    1 ≤ batch ∧ w' = job_tick (claim_pending_sql kinds batch worker lock w).1 ∧
    jobs w !! id = Some row ∧ claimable kinds w row = true ∧ jobs w' !! id = Some row.

(** A run of the pool in which [n] polls pass over the row. *)
Inductive passed_over : nat → JobWorld * list (prog JobWorld DomainError unit) →
    JobWorld * list (prog JobWorld DomainError unit) → Prop :=
  | po_refl c : passed_over 0 c c
  | po_step n c c1 c2 : task_step cap c c1 → passed_over n c1 c2 → passed_over n c c2
  | po_pass n c c1 c2 :
      task_step cap c c1 → passes_over c.1 c1.1 → passed_over n c1 c2 → passed_over (S n) c c2.

Lemma chances_moves w w' :
  queue_ok cap w → queue_ok cap w' → created < job_time w → moves w w' →
  ∀ id' row', jobs w' !! id' = Some row' →
    chances row' = 0%nat ∨ ∃ row, jobs w !! id' = Some row ∧ (chances row' ≤ chances row)%nat.
Proof.
  intros Hw Hw' Ht (_ & _ & _ & Hrows) id' row' Hrow'. specialize (Hrows id'). rewrite Hrow' in Hrows.
  destruct (jobs w !! id') as [row|] eqn:Hrow; cbn in Hrows.
  - right. exists row. split; [done|]. destruct Hrows as (Hk & Hc & Ha). unfold chances.
    rewrite Hk, Hc, (ok_keyed cap w Hw _ _ Hrow), (ok_keyed cap w' Hw' _ _ Hrow'). case_bool_decide; lia.
  - left. destruct Hrows as [Hc _]. unfold chances. case_bool_decide; [lia | done].
Qed.
Lemma oldest_leb_spec a b :
  oldest_leb a b = true ↔
  j_created_at a < j_created_at b ∨ (j_created_at a = j_created_at b ∧ j_id a ≤ j_id b).
Proof. unfold oldest_leb. rewrite orb_true_iff, andb_true_iff, Z.ltb_lt, Z.eqb_eq, Z.leb_le. done. Qed.

Lemma head_of_oldest l r l' row : sort_by oldest_leb l = r :: l' → row ∈ l → oldest_leb r row = true.
Proof.
  intros Hs Hin. assert (StronglySorted oldest_leb (r :: l')) as Hss.
  { rewrite <- Hs. apply Sorted_StronglySorted.
    - intros a b c Hab%Is_true_true Hbc%Is_true_true. apply Is_true_true.
      rewrite oldest_leb_spec in *. lia.
    - apply sort_by_Sorted. intros a b. rewrite !oldest_leb_spec. lia. }
  rewrite <- (sort_by_Permutation oldest_leb), Hs in Hin. apply elem_of_cons in Hin as [-> | Hin].
  { apply oldest_leb_spec. lia. }
  apply StronglySorted_inv in Hss as [_ Hall]. rewrite Forall_forall in Hall. by apply Is_true_true, Hall.
Qed.

(** The reserved slot goes to a row that is no newer than any row the poll may take. *)
Lemma oldest_slot w batch row :
  queue_ok cap w → 1 ≤ batch → jobs w !! id = Some row → claimable kinds w row = true →
  ∃ r, r ∈ oldest kinds batch w ∧ claimable kinds w r = true ∧ jobs w !! j_id r = Some r ∧
    oldest_leb r row = true.
Proof.
  intros Hw Hb Hrow Hc. unfold oldest. set (l := filter _ (scan_rows w)).
  assert (row ∈ l) as Hin.
  { apply list_elem_of_filter. split; [by apply Is_true_true|]. apply elem_of_scan. by exists id. }
  destruct (sort_by oldest_leb l) as [| r l'] eqn:Hs.
  { rewrite <- (sort_by_Permutation oldest_leb), Hs in Hin. by apply elem_of_nil in Hin. }
  replace (Z.to_nat (Z.min batch 1)) with 1%nat by lia. exists r.
  assert (r ∈ take 1 (sort_by oldest_leb l)) as Hr by (rewrite Hs; apply list_elem_of_here).
  destruct (elem_of_picked cap w _ _ _ _ Hw Hr).
  split_and!; [apply list_elem_of_here | done | done | by eapply head_of_oldest].
Qed.

Lemma picked_waiting w batch :
  queue_ok cap w → waiting_rows w (oldest kinds batch w ++ ranked kinds batch w).
Proof.
  intros Hw r [Hin | Hin]%elem_of_app; [by eapply oldest_waiting | by eapply ranked_waiting].
Qed.

Lemma claim_in_budget w picked :
  queue_ok cap w → waiting_rows w picked → existsb (λ row, j_attempts row =? i32_MAX) picked = false.
Proof.
  intros Hw Hp. destruct (existsb _ picked) eqn:He; [| done].
  apply existsb_exists in He as (r & Hin & Ha%Z.eqb_eq). apply list_elem_of_In, Hp in Hin as [Hr Hs].
  destruct (ok_rows cap w Hw _ _ Hr) as [_ [_ Hwait _]]. specialize (Hwait Hs).
  unfold budget in Hwait. unfold i32_MAX in *. lia.
Qed.

Lemma pass_uses_a_chance w w' :
  queue_ok cap w → queue_ok cap w' → created < job_time w → moves w w' →
  (∀ row, jobs w !! id = Some row → j_created_at row = created) → passes_over w w' →
  (ahead (jobs w') < ahead (jobs w))%nat.
Proof.
  intros Hw Hw' Ht Hm Hcr (batch & worker & lock & row & Hb & Heq & Hrow & Hc & Hrow').
  destruct (oldest_slot w batch row Hw Hb Hrow Hc) as (r & Hin & Hcr' & Hr & Hle).
  pose proof (picked_waiting w batch Hw) as Hp.
  assert (r ∈ oldest kinds batch w ++ ranked kinds batch w) as Hin' by (apply elem_of_app; by left).
  assert (jobs w' !! j_id r = Some (start_execution worker lock (job_time w) r)) as Hr'.
  { rewrite Heq. unfold claim_pending_sql, claim_rows. rewrite (claim_in_budget w) by done.
    change (update_where (has_id (oldest kinds batch w ++ ranked kinds batch w))
              (start_execution worker lock (job_time w)) (jobs w) !! j_id r =
            Some (start_execution worker lock (job_time w) r)).
    rewrite lookup_update_where, Hr. cbn [fmap option_fmap option_map].
    by rewrite (proj2 (has_id_waiting cap w _ _ r Hw Hp Hr) Hin'). }
  destruct (ok_rows cap w Hw _ _ Hr) as [_ [Ha Hwait _]]. specialize (Hwait (proj2 (Hp r Hin'))).
  eapply (total_lt chances _ _ (j_id r)); [by apply (chances_moves w w') | exact Hr | exact Hr' |].
  assert (j_id r ≠ id) as Hne.
  { intros Hid. rewrite Hid in Hr, Hr'. rewrite Hrow' in Hr'. rewrite Hrow in Hr. simplify_eq. }
  assert (j_created_at r ≤ created) as Hold.
  { rewrite <- (Hcr row Hrow). apply oldest_leb_spec in Hle. lia. }
  set (r' := start_execution worker lock (job_time w) r).
  change (chances r') with (if bool_decide (j_kind r ∈ kinds ∧ j_created_at r ≤ created ∧ j_id r ≠ id)
                            then Z.to_nat (budget cap - (1 + j_attempts r)) else 0%nat).
  unfold chances. apply claimable_kind in Hcr'. rewrite bool_decide_eq_true_2 by done. lia.
Qed.

Lemma passed_over_ahead n w0 c c' :
  queue_ok cap w0 → rtc (task_step cap) (w0, []) c → passed_over n c c' →
  drawn c.1 id → (∀ row, jobs c.1 !! id = Some row → j_created_at row = created) →
  created < job_time c.1 → (n ≤ ahead (jobs c.1))%nat.
Proof.
  intros Hw0 Hreach Hpo. revert Hreach.
  assert (∀ c c1, rtc (task_step cap) (w0, []) c → task_step cap c c1 →
    drawn c.1 id → (∀ row, jobs c.1 !! id = Some row → j_created_at row = created) → created < job_time c.1 →
    rtc (task_step cap) (w0, []) c1 ∧ drawn c1.1 id ∧
    (∀ row, jobs c1.1 !! id = Some row → j_created_at row = created) ∧ created < job_time c1.1 ∧
    (ahead (jobs c1.1) ≤ ahead (jobs c.1))%nat) as Hkeep.
  { clear c c' Hpo. intros c c1 Hreach Hstep Hi Hcr Ht.
    assert (rtc (task_step cap) (w0, []) c1) as Hreach1 by exact (rtc_r _ _ _ Hreach Hstep).
    pose proof (pool_queue_ok cap w0 c Hw0 Hreach) as Hc.
    pose proof (pool_queue_ok cap w0 c1 Hw0 Hreach1) as Hc1.
    destruct (pool_moves cap w0 c c1 Hw0 Hreach Hstep) as [-> | Hm]; [by split_and!|].
    pose proof Hm as (Hcalls & _ & _ & Hrows). split_and!; [done | | | |].
    - eapply issued_mono, Hi. lia.
    - intros row Hrow. specialize (Hrows id). rewrite Hrow in Hrows.
      destruct (jobs c.1 !! id) as [row0|] eqn:Hrow0; cbn in Hrows.
      + destruct Hrows as (_ & -> & _). by apply Hcr.
      + by destruct Hrows as [_ []].
    - unfold job_time. pose proof (job_clock_mono (job_calls c.1) (job_calls c1.1)).
      unfold job_time in Ht. lia.
    - apply total_le. by apply chances_moves. }
  induction Hpo as [c | n c c1 c2 Hstep _ IH | n c c1 c2 Hstep Hpass _ IH]; intros Hreach Hi Hcr Ht; [lia | |];
    destruct (Hkeep c c1 Hreach Hstep Hi Hcr Ht) as (Hreach1 & Hi1 & Hcr1 & Ht1 & Hle).
  - specialize (IH Hreach1 Hi1 Hcr1 Ht1). lia.
  - specialize (IH Hreach1 Hi1 Hcr1 Ht1). enough (ahead (jobs c1.1) < ahead (jobs c.1))%nat by lia.
    destruct (pool_moves cap w0 c c1 Hw0 Hreach Hstep) as [Heq | Hm].
    + exfalso. destruct Hpass as (batch & worker & lock & row & _ & Hj & _). apply (f_equal job_calls) in Hj.
      rewrite Heq in Hj. unfold claim_pending_sql, claim_rows in Hj.
      destruct (existsb _ _); change (job_calls c.1 = S (job_calls c.1)) in Hj; lia.
    + apply pass_uses_a_chance; try done; by apply (pool_queue_ok cap w0).
Qed.
End waiting.

(** C14. A row does not wait forever behind newer or more urgent ones.  In every run of
    workers, sweeps and requests from a moment after the row was created, the polls of a
    list of kinds that could take the waiting row and leave it are no more than the
    executions that the rows of these kinds created no later may still have: each such poll
    executes one of them, and each has a budget. *)
Theorem old_rows_are_served `{JobBackend} cap kinds id row n w c c' :
  cap ≤ i32_MAX → queue_ok cap w → rtc (task_step cap) (w, []) c →
  jobs c.1 !! id = Some row → j_created_at row < job_time c.1 →
  passed_over cap kinds id n c c' → (n ≤ ahead cap kinds id (j_created_at row) (jobs c.1))%nat.
Proof.
  intros Hcap Hw Hreach Hrow Ht Hpo.
  pose proof (pool_queue_ok cap w c Hw Hreach) as Hc. destruct (ok_rows cap _ Hc _ _ Hrow) as [Hi _].
  apply (passed_over_ahead cap kinds id (j_created_at row) Hcap n w c c'); try done. naive_solver.
Qed.

(** ** Retention of rows *)

Lemma sql_max_spec values :
  match sql_max values with
  | Some m => Some m ∈ values ∧ ∀ x, Some x ∈ values → x ≤ m
  | None => ∀ x, ¬ Some x ∈ values
  end.
Proof.
  unfold sql_max. induction values as [| v values IH]; cbn; [by intros x ?%elem_of_nil|].
  destruct v as [x|]; destruct (foldr _ None values) as [m|].
  - destruct IH as [Hin Hle]. split.
    + destruct (Z.max_spec x m) as [[_ ->] | [_ ->]]; set_solver.
    + intros y [[= <-] | Hy]%elem_of_cons; [lia | specialize (Hle y Hy); lia].
  - split; [set_solver|]. intros y [[= <-] | Hy]%elem_of_cons; [lia | by destruct (IH y)].
  - destruct IH as [Hin Hle]. split; [set_solver|]. intros y [? | Hy]%elem_of_cons; [done | by apply Hle].
  - intros y [? | Hy]%elem_of_cons; [done | by apply (IH y)].
Qed.

(** A part that keeps the greatest values has the same maximum. *)
Lemma sql_max_sub values part :
  (∀ x, Some x ∈ part → Some x ∈ values) →
  (∀ m, sql_max values = Some m → Some m ∈ part) → sql_max part = sql_max values.
Proof.
  intros Hsub Hkeep. pose proof (sql_max_spec values) as Hv. pose proof (sql_max_spec part) as Hp.
  destruct (sql_max values) as [m|] eqn:Hm, (sql_max part) as [m'|].
  - destruct Hv as [_ Hv], Hp as [Hin Hp]. specialize (Hv m' (Hsub _ Hin)).
    specialize (Hp m (Hkeep m eq_refl)). f_equal. lia.
  - by destruct (Hp m (Hkeep m eq_refl)).
  - destruct Hp as [Hin _]. by destruct (Hv m' (Hsub _ Hin)).
  - done.
Qed.

Section retention.
Context (now : DateTime) (horizon : Duration) (t : Table).

Lemma elem_of_rows (u : Table) row : row ∈ (map_to_list u).*2 ↔ ∃ id, u !! id = Some row.
Proof.
  rewrite list_elem_of_fmap. split.
  - intros ([id r] & -> & Hin%elem_of_map_to_list). by exists id.
  - intros [id Hid]. exists (id, row). split; [done|]. by apply elem_of_map_to_list.
Qed.

Lemma elem_of_completed (u : Table) kind v :
  v ∈ (j_completed_at <$> filter (λ row, j_kind row = kind ∧ j_status row = Completed) (map_to_list u).*2) ↔
  ∃ id row, u !! id = Some row ∧ j_kind row = kind ∧ j_status row = Completed ∧ v = j_completed_at row.
Proof.
  rewrite list_elem_of_fmap. split.
  - intros (row & -> & [[Hk Hs] [id Hid]%elem_of_rows]%list_elem_of_filter). by exists id, row.
  - intros (id & row & Hid & Hk & Hs & ->). exists row. split; [done|]. apply list_elem_of_filter.
    split; [done|]. apply elem_of_rows. by exists id.
Qed.

(** Deleting rows none of which is the newest completed one of a kind. *)
Lemma last_completed_at_delete P kind :
  (∀ id row, t !! id = Some row → j_kind row = kind → j_status row = Completed →
     j_completed_at row = last_completed_at t kind → P row = false) →
  last_completed_at (delete_where P t) kind = last_completed_at t kind.
Proof.
  intros HP. apply sql_max_sub.
  - intros x (id & row & [Hid _]%lookup_delete_where & Hr)%elem_of_completed.
    apply elem_of_completed. by exists id, row.
  - intros m Hm. pose proof (sql_max_spec (j_completed_at <$>
      filter (λ row, j_kind row = kind ∧ j_status row = Completed) (map_to_list t).*2)) as Hs.
    rewrite Hm in Hs. destruct Hs as [(id & row & Hid & Hk & Hc & Heq)%elem_of_completed _].
    apply elem_of_completed. exists id, row. split_and!; [| done..]. apply lookup_delete_where.
    split; [done|]. apply (HP id); [done.. |]. unfold last_completed_at. by rewrite Hm.
Qed.

Lemma newest_completed_is_last kind :
  other_sweep_kind kind = true → newest_completed_at t kind = last_completed_at t kind.
Proof.
  intros Hk. unfold newest_completed_at, live_group.
  apply sql_max_sub.
  - intros x Hx. apply list_elem_of_fmap in Hx as (row & Heq & [Hc [Hl Hin]%list_elem_of_filter]%list_elem_of_filter).
    apply Is_true_true, andb_true_iff in Hl as [_ Hkind%bool_decide_eq_true]. apply elem_of_rows in Hin as [id Hid].
    apply elem_of_completed. by exists id, row.
  - intros m Hm. pose proof (sql_max_spec (j_completed_at <$>
      filter (λ row, j_kind row = kind ∧ j_status row = Completed) (map_to_list t).*2)) as Hs.
    rewrite Hm in Hs. destruct Hs as [(id & row & Hid & Hkind & Hc & Heq)%elem_of_completed _].
    apply list_elem_of_fmap. exists row. split; [done|]. apply list_elem_of_filter. split; [done|].
    apply list_elem_of_filter. split; [| apply elem_of_rows; by exists id].
    unfold is_finished. rewrite Hkind, Hk, Hc, !bool_decide_eq_true_2; [done | done | by left].
Qed.

Lemma sweeps_partition kind :
  (prefetch_sweep_kind kind = true ∧ kind ≠ "scan"%string ∧ other_sweep_kind kind = false) ∨
  (prefetch_sweep_kind kind = false ∧ kind = "scan"%string ∧ other_sweep_kind kind = false) ∨
  (prefetch_sweep_kind kind = false ∧ kind ≠ "scan"%string ∧ other_sweep_kind kind = true).
Proof.
  destruct (decide (kind = "scan"%string)) as [-> | Hs]; [right; left; by vm_compute|].
  destruct (decide (kind = "oci-index-child-ingest"%string)) as [-> | Ho]; [left; by vm_compute|].
  destruct (decide (kind = "prefetch-tick"%string)) as [-> | Ht]; [right; right; by vm_compute|].
  unfold prefetch_sweep_kind, other_sweep_kind.
  rewrite (bool_decide_eq_false_2 (kind = "prefetch-tick"%string)) by done.
  rewrite (bool_decide_eq_false_2 (kind = "oci-index-child-ingest"%string)) by done.
  rewrite (bool_decide_eq_false_2 (kind ∈ _)) by set_solver.
  destruct (like_prefetch kind); [left | right; right]; done.
Qed.

Lemma in_flight_not_finished row : in_flight row = true → is_finished row = false.
Proof. unfold in_flight, is_finished. destruct (j_status row); by vm_compute. Qed.
(** The three sweeps. *)
Definition row_sweeps : list (Job → bool) :=
  [prefetch_swept now horizon; scan_swept now horizon; other_swept now horizon t].

Lemma swept_finished P row : P ∈ row_sweeps → P row = true → is_finished row = true.
Proof.
  unfold row_sweeps. rewrite !elem_of_cons, elem_of_nil.
  intros [-> | [-> | [-> | []]]]; unfold prefetch_swept, scan_swept, other_swept;
    rewrite !andb_true_iff; tauto.
Qed.

(** A row its readers look for is not swept. *)
Lemma newest_not_swept P kind row :
  other_sweep_kind kind = true → P ∈ row_sweeps → j_kind row = kind → j_status row = Completed →
  j_completed_at row = last_completed_at t kind → P row = false.
Proof.
  intros Ho HP Hk Hs Hc. destruct (sweeps_partition kind) as [(? & ? & ?) | [(? & ? & ?) | (Hp & Hscan & _)]];
    [congruence.. |].
  unfold row_sweeps in HP. rewrite !elem_of_cons, elem_of_nil in HP. destruct HP as [-> | [-> | [-> | []]]].
  - unfold prefetch_swept. by rewrite Hk, Hp.
  - unfold scan_swept. by rewrite Hk, bool_decide_eq_false_2.
  - unfold other_swept. rewrite Hk, (newest_completed_is_last kind Ho), (bool_decide_eq_true_2 (_ ∧ _)) by done.
    by rewrite andb_false_r, andb_false_l.
Qed.
End retention.

(** C33. Old rows can go without anybody noticing.  Every kind is swept by exactly one of
    the three sweeps; no sweep deletes a row that waits or runs; and for the kinds whose
    last run or last summary is read back - the ones the general sweep covers - none of
    the sweeps deletes the newest completed row or changes the time of the last run, so no
    verdict on whether a scheduled task is alive changes. *)
Theorem retention_keeps_what_readers_read now horizon t kind :
  ((prefetch_sweep_kind kind = true ∧ kind ≠ "scan"%string ∧ other_sweep_kind kind = false) ∨
   (prefetch_sweep_kind kind = false ∧ kind = "scan"%string ∧ other_sweep_kind kind = false) ∨
   (prefetch_sweep_kind kind = false ∧ kind ≠ "scan"%string ∧ other_sweep_kind kind = true)) ∧
  ∀ P, P ∈ row_sweeps now horizon t →
    (∀ id row, t !! id = Some row → in_flight row = true → delete_where P t !! id = Some row) ∧
    (other_sweep_kind kind = true →
      (∀ id row, t !! id = Some row → j_kind row = kind → j_status row = Completed →
         j_completed_at row = last_completed_at t kind → delete_where P t !! id = Some row) ∧
      last_completed_at (delete_where P t) kind = last_completed_at t kind ∧
      ∀ at_ interval multiplier policies,
        evaluate_staging_sweep_liveness (last_completed_at (delete_where P t) kind) at_ interval multiplier =
          evaluate_staging_sweep_liveness (last_completed_at t kind) at_ interval multiplier ∧
        evaluate_event_chain_verify_liveness (last_completed_at (delete_where P t) kind) at_ interval multiplier =
          evaluate_event_chain_verify_liveness (last_completed_at t kind) at_ interval multiplier ∧
        evaluate_rescan_drive_liveness policies (last_completed_at (delete_where P t) kind) at_ multiplier =
          evaluate_rescan_drive_liveness policies (last_completed_at t kind) at_ multiplier).
Proof.
  split; [apply sweeps_partition|]. intros P HP. split.
  - intros id row Hrow Ha. apply lookup_delete_where. split; [done|].
    destruct (P row) eqn:HPr; [| done]. apply (swept_finished now horizon t) in HPr; [| done].
    by rewrite (in_flight_not_finished _ Ha) in HPr.
  - intros Ho. assert (∀ id row, t !! id = Some row → j_kind row = kind → j_status row = Completed →
      j_completed_at row = last_completed_at t kind → P row = false) as Hkeep.
    { intros id row _. by apply (newest_not_swept now horizon t). }
    split.
    + intros id row Hrow Hk Hs Hc. apply lookup_delete_where. split; [done | by eapply Hkeep].
    + rewrite (last_completed_at_delete t P kind Hkeep). by split_and!.
Qed.

(** ** Authority *)

Section authority.
Context `{JobBackend}.

Lemma observes_query {E A} (f : JobWorld → DomainResult A) seen (r : result E (DomainResult A)) :
  observes (query f) seen r →
  ∃ w, seen = [w] ∧
    ((∃ e, job_fault (job_calls w) = Some e ∧ r = Ok (Err e)) ∨
     job_fault (job_calls w) = None ∧ r = Ok (f w)).
Proof.
  intros (w & -> & ->)%observes_port. exists w. split; [done|].
  destruct (job_fault (job_calls w)) as [e|]; [left; by exists e | by right].
Qed.

Lemma observes_mret {S E A} (a : A) seen (r : result E A) :
  observes (mret a : prog S E A) seen r → seen = [] ∧ r = Ok a.
Proof. by inversion 1. Qed.

(** The principal of an execution satisfies the claim of destructive tasks only as an
    administrator. *)
Lemma execution_time_claims user now :
  claims_satisfy (execution_time_principal user now) [DESTRUCTIVE_TASK_CLAIM] = u_is_admin user.
Proof. unfold execution_time_principal, claims_satisfy. cbn. by destruct (u_is_admin user). Qed.

(** What a requester has to hold, in the states the three reads find. *)
Definition live_authority (job : JobRow) (seen : list JobWorld) : Prop :=
  ∃ actor user w1 w2 w3, seen = [w1; w2; w3] ∧ jr_actor_id job = Some actor ∧
    requesters w1 !! actor = Some user ∧ u_is_active user = true ∧ u_is_admin user = true ∧
    authorize (grants w2) (execution_time_principal user (job_time w3)) AdminTaskInvoke None = true.

Ltac refused Hobs := apply observes_mret in Hobs as [-> ->]; eexists; split; done.

Lemma authorize_execution_spec job params seen r :
  task_invocation_is_destructive (jr_kind job) params ≠ Ok false →
  observes (authorize_execution job params) seen r →
  ∃ verdict, r = Ok verdict ∧
    match verdict with
    | Authorized => live_authority job seen
    | Refused _ => True
    | Unavailable _ => ∃ w e, w ∈ seen ∧ job_fault (job_calls w) = Some e
    end.
Proof.
  unfold authorize_execution. intros Hd Hobs.
  destruct (task_invocation_is_destructive _ _) as [[]|e]; [| done | refused Hobs].
  destruct (jr_actor_id job) as [actor|] eqn:Hactor; [| refused Hobs].
  apply observes_bind in Hobs as [(e & -> & (? & _ & [(? & _ & ?) | [_ ?]])%observes_query)
    | (found & seen1 & seen2 & -> & (w1 & -> & Hfound)%observes_query & Hobs)]; [done.. |].
  destruct Hfound as [(e & Hf & [= ->]) | [_ [= ->]]].
  { destruct e; apply observes_mret in Hobs as [-> ->]; eexists; (split; [done|]); try done;
      exists w1; eexists; (split; [apply list_elem_of_here | done]). }
  destruct (requesters w1 !! actor) as [user|] eqn:Huser; [| refused Hobs].
  destruct (u_is_active user) eqn:Hactive; [cbn [negb] in Hobs | refused Hobs].
  apply observes_bind in Hobs as [(e & -> & (? & _ & [(? & _ & ?) | [_ ?]])%observes_query)
    | (read & seen3 & seen4 & -> & (w2 & -> & Hread)%observes_query & Hobs)]; [done.. |].
  destruct Hread as [(e & Hf & [= ->]) | [_ [= ->]]].
  { apply observes_mret in Hobs as [-> ->]. eexists. split; [done|]. cbn.
    exists w2, e. split; [apply list_elem_of_further, list_elem_of_here | done]. }
  apply observes_bind in Hobs as [(e & -> & (? & _ & ?)%observes_port)
    | (now & seen5 & seen6 & -> & (w3 & -> & [= ->])%observes_port & Hobs)]; [done|].
  cbn zeta in Hobs. rewrite execution_time_claims in Hobs.
  destruct (authorize (grants w2) _ _ _) eqn:Hauth; cbn [negb] in Hobs;
    [destruct (u_is_admin user) eqn:Hadmin; cbn [negb] in Hobs |];
    apply observes_mret in Hobs as [-> ->]; eexists; (split; [done|]); [| done..].
  by exists actor, user, w1, w2, w3.
Qed.

(** A call that only reads. *)
Definition only_reads (w w' : JobWorld) : Prop := w' = job_tick w.

Lemma query_only_reads {E A} (f : JobWorld → DomainResult A) : calls_only only_reads (query f : prog JobWorld E _).
Proof. apply calls_only_port. intros w. unfold only_reads. by destruct (job_fault (job_calls w)). Qed.

Lemma authorize_execution_only_reads job params : calls_only only_reads (authorize_execution job params).
Proof.
  unfold authorize_execution.
  repeat first [ apply calls_only_done | apply query_only_reads | by apply calls_only_port
               | apply calls_only_bind; [| intros ?] | case_match ].
Qed.

Lemma fenced_write_elsewhere set_clause id a w id' :
  id' ≠ id → jobs (fenced_result_write set_clause id a w).1 !! id' = jobs w !! id'.
Proof.
  intros Hne. unfold fenced_result_write. repeat case_match; try done. by apply lookup_insert_ne.
Qed.

(** A failure is recorded in one statement, on the row of the job. *)
Lemma record_failed_spec d job reason retry trace r :
  performs (record_outcome_for_row d job (TO_Failed reason retry)) trace r →
  ∃ w w', trace = [(w, w')] ∧ run (record_outcome_for_row d job (TO_Failed reason retry)) w = (w', r) ∧
    ∀ id, id ≠ jr_id job → jobs w' !! id = jobs w !! id.
Proof.
  assert (∀ set_clause, performs (statement (λ w, fenced_result_write (set_clause w) (jr_id job) (jr_attempts job) w)
            ;; mret () : prog JobWorld DomainError unit) trace r →
    ∃ w w', trace = [(w, w')] ∧ ∀ id, id ≠ jr_id job → jobs w' !! id = jobs w !! id) as Hone.
  { intros set_clause [(e & -> & (w & _ & ?)%performs_port) | (a & t1 & t2 & -> & (w & -> & _)%performs_port & Hr)]%performs_bind;
      [done|]. inversion Hr; subst. eexists w, _. split; [done|]. intros id Hid.
    pose proof (fenced_write_elsewhere (set_clause w) (jr_id job) (jr_attempts job) w id Hid) as He.
    destruct (job_fault (job_calls w)); [done|]. by destruct (fenced_result_write _ _ _ _). }
  intros Hp. assert (∃ w w', trace = [(w, w')] ∧ ∀ id, id ≠ jr_id job → jobs w' !! id = jobs w !! id)
    as (w & w' & -> & Hrest).
  { unfold record_outcome_for_row in Hp. destruct (_ && _).
    - exact (Hone (λ w, reschedule_set (compute_backoff (jr_attempts job)) reason (job_time w)) Hp).
    - exact (Hone (λ _, failed_set reason) Hp). }
  exists w, w'. split_and!; [done | by apply performs_one | done].
Qed.
End authority.

(** C11. Nothing is destroyed on authority that is gone.  A task that destroys - or whose
    parameters do not say whether it does - reaches its handler only after three reads
    that find its requester in the registry, active, an administrator and granted the
    invocation of tasks by the grants of that moment.  Otherwise the handler is not
    reached, the dispatcher does the same with every other handler in its place: it
    only reads, and then records a failure in one write that leaves every other row
    alone; and only a read that failed leaves the row a further attempt.  The other workers
    may do anything between two of its calls. *)
Theorem destructive_tasks_need_live_authority `{JobBackend} d job handler trace r :
  task_invocation_is_destructive (jr_kind job) (default VNull (jr_params job)) ≠ Ok false →
  performs (dispatch_one d job handler) trace r →
  (∃ reads rest, trace = reads ++ rest ∧ Forall (λ x, only_reads x.1 x.2) reads ∧ live_authority job reads.*1) ∨
  (∀ handler', performs (dispatch_one d job handler') trace r) ∧
  ∃ reads w w' reason retry,
    trace = reads ++ [(w, w')] ∧ Forall (λ x, only_reads x.1 x.2) reads ∧
    run (record_outcome_for_row d job (TO_Failed reason retry)) w = (w', r) ∧
    (∀ id, id ≠ jr_id job → jobs w' !! id = jobs w !! id) ∧
    (retry = true → ∃ x e, x ∈ reads.*1 ∧ job_fault (job_calls x) = Some e).
Proof.
  intros Hd [(e & -> & Hr) | (refused & reads & rest & -> & Hr & Hp)]%performs_bind.
  { apply performs_bind in Hr as [(e' & [= <-] & (v & ? & _)%performs_observes%authorize_execution_spec)
      | (verdict & ? & ? & _ & _ & Hr)]; [done.. | inversion Hr]. }
  pose proof Hr as Hrefuse.
  apply performs_bind in Hr as [(e' & ? & _) | (verdict & t1 & t2 & -> & Hv & Hr)]; [done|].
  inversion Hr; subst. rewrite app_nil_r in *. pose proof (authorize_execution_only_reads _ _ _ _ Hv) as Hreads.
  apply performs_observes, authorize_execution_spec in Hv as (v & [= <-] & Hv); [| done].
  assert (∀ reason retry, performs (record_outcome_for_row d job (TO_Failed reason retry)) rest r →
    ∃ w w', rest = [(w, w')] ∧ run (record_outcome_for_row d job (TO_Failed reason retry)) w = (w', r) ∧
      ∀ id, id ≠ jr_id job → jobs w' !! id = jobs w !! id) as Hfail by (intros; by apply record_failed_spec).
  destruct verdict as [|reason|reason]; [left; by exists t1, rest | right..];
    (split; [intros handler'; by eapply performs_then |]);
    apply Hfail in Hp as (w & w' & -> & Hrun & Helse); eexists t1, w, w', _, _; by split_and!.
Qed.

(** ** The trail *)

Section trail.
Context `{JobBackend} (cap : Z).

Abbreviation anyhow := (wp (queue_ok cap) anything moves).

(** The event of an accepted request. *)
Definition invocation (kind : string) (params : Value) (outcome : EnqueueOutcome) : TaskInvoked :=
  {| ti_task_job_id := match outcome with Enqueued id | Duplicate id => id end; ti_kind := kind;
     ti_params_digest := params_digest params;
     ti_duplicate_of := match outcome with Enqueued _ => None | Duplicate id => Some id end |}.

Lemma tame_anyhow {E A} (p : prog JobWorld E A) Q w :
  tame cap p Q → anyhow p (λ r _, ∀ a, r = Ok a → Q a) w.
Proof. intros Hp. apply Hp. Qed.

Lemma append_anyhow {E} stream actor event w :
  anyhow (append_task_invoked (E := E) stream actor event)
    (λ r w', ∀ u, r = Ok (Ok u) → (stream, actor, event) ∈ task_audit w') w.
Proof.
  apply wp_port. intros w1 _ Hw1. destruct (job_fault (job_calls w1)) eqn:Hf.
  { destruct (good_same cap w1 (job_tick w1)) as [? ?]; done. }
  destruct (good_same cap w1 (job_tick (w1 {{ task_audit ::= λ es, es ++ [(stream, actor, event)] }}))) as [? ?];
    [done.. | by apply prefix_app_r |].
  split_and!; [done | done |]. intros u _. apply elem_of_app. right. by apply list_elem_of_singleton.
Qed.

Lemma append_with_retry_anyhow {E} n stream actor event w :
  anyhow (append_with_retry (E := E) n stream actor event)
    (λ r w', ∀ u, r = Ok (Ok u) → (stream, actor, event) ∈ task_audit w') w.
Proof.
  revert w. induction n as [| n IH]; intros w; cbn [append_with_retry]; apply wp_bind;
    (eapply wp_mono; [| apply append_anyhow]); intros [[u|e]|e'] w' Hr; by try destruct e.
Qed.

(** The recorded actor, stream and event are those of the request. *)
Lemma enqueue_anyhow actor kind params key w :
  anyhow (enqueue actor kind params key)
    (λ r w', ∀ outcome, r = Ok outcome →
       (task_audit_stream kind, cp_user_id actor, invocation kind params outcome) ∈ task_audit w') w.
Proof.
  unfold enqueue. destruct (negb _); [done|].
  apply wp_bind. eapply wp_mono; [| apply tame_anyhow, tame_authorize_kind]. intros [[]|e] w1 _; [| done].
  apply wp_bind. eapply wp_mono; [| apply tame_anyhow, tame_enqueue_task]. intros [inserted|e] w2 _; [| done].
  apply wp_bind. destruct inserted as [outcome|e]; [| done]. cbn [wp lift_domain].
  destruct outcome as [id|id]; apply wp_bind; (eapply wp_mono; [| apply append_with_retry_anyhow]);
    intros [[u|e]|e] w3 Hr; try done.
  - intros outcome [= <-]. by apply (Hr u).
  - apply wp_bind. eapply wp_mono; [| apply tame_anyhow, tame_delete_job]. by intros [r|e'] w4 _.
  - intros outcome [= <-]. by apply (Hr u).
Qed.

Lemma authorize_kind_observed actor kind params seen :
  observes (authorize_kind actor kind params) seen (Ok ()) →
  ∃ w destructive, w ∈ seen ∧ authorize (evaluator w) actor AdminTaskInvoke None = true ∧
    task_invocation_is_destructive kind params = Ok destructive ∧
    (destructive = true → claims_satisfy actor [DESTRUCTIVE_TASK_CLAIM] = true).
Proof.
  unfold authorize_kind. intros [(e & ? & _) | (rbac & s1 & s2 & -> & (w & -> & [= ->])%observes_port & Hobs)]%observes_bind;
    [done|]. destruct (authorize (evaluator w) _ _ _) eqn:Ha; [cbn [negb] in Hobs | by inversion Hobs].
  apply observes_bind in Hobs as [(e & ? & _) | (b & s3 & s4 & -> & Hb & Hobs)]; [done|].
  exists w, b. split_and!; [apply list_elem_of_here | done | |].
  - inversion Hb as [r Hr |]. destruct (task_invocation_is_destructive kind params); by simplify_eq/=.
  - intros ->. destruct (claims_satisfy _ _); [done | by inversion Hobs].
Qed.
End trail.

(** C18. Nobody runs a task unseen or unasked.  A request is accepted only for a kind that
    may be asked for, of somebody whom the evaluator of that moment allows to invoke tasks
    and, if the task destroys, who holds the claim for that.  Whatever else goes on
    between its calls, by the time it is accepted the audit log holds the event that names
    the row, the actor, the kind, the digest of the parameters and whether the row was
    there already; and no call of any program takes an event out of that log. *)
Theorem accepted_tasks_are_audited `{JobBackend} cap actor kind params key :
  (∀ seen outcome, observes (enqueue actor kind params key) seen (Ok outcome) →
     kind ∈ ADMIN_INVOKABLE_TASK_KINDS ∧
     ∃ w destructive, w ∈ seen ∧ authorize (evaluator w) actor AdminTaskInvoke None = true ∧
       task_invocation_is_destructive kind params = Ok destructive ∧
       (destructive = true → claims_satisfy actor [DESTRUCTIVE_TASK_CLAIM] = true)) ∧
  (∀ w, wp (queue_ok cap) anything moves (enqueue actor kind params key)
     (λ r w', ∀ outcome, r = Ok outcome →
        (task_audit_stream kind, cp_user_id actor, invocation kind params outcome) ∈ task_audit w') w) ∧
  (∀ w c c', queue_ok cap w → rtc (task_step cap) (w, []) c → task_step cap c c' →
     task_audit c.1 `prefix_of` task_audit c'.1).
Proof.
  split_and!.
  - intros seen outcome Hobs. unfold enqueue in Hobs. case_bool_decide as Hk; [| by inversion Hobs].
    split; [done|]. apply observes_bind in Hobs as [(e & ? & _) | ([] & s1 & s2 & -> & Ha & _)]; [done|].
    destruct (authorize_kind_observed _ _ _ _ Ha) as (w & b & Hw & ?). exists w, b.
    split; [apply elem_of_app; by left | done].
  - intros w. apply enqueue_anyhow.
  - intros w c c' Hw Hsteps Hstep.
    destruct (pool_moves cap w c c' Hw Hsteps Hstep) as [-> | (_ & _ & ? & _)]; done.
Qed.

(** ** The sweep *)

(** A sweep either leaves a row alone or finds it running on a lapsed lease. *)
Lemma requeue_cases `{JobBackend} cap kinds grace attempt_cap batch w id row :
  queue_ok cap w → jobs w !! id = Some row →
  jobs (requeue_abandoned_sql kinds grace attempt_cap batch w).1 !! id = Some row ∨
  abandoned kinds grace w row = true ∧
  jobs (requeue_abandoned_sql kinds grace attempt_cap batch w).1 !! id =
    Some (requeue attempt_cap (job_time w) row).
Proof.
  intros Hw Hrow. unfold requeue_abandoned_sql. cbn [fst]. set (picked := take _ _).
  change (jobs (w {{ jobs := ?t }})) with t. rewrite lookup_update_where, Hrow. cbn.
  destruct (has_id picked row) eqn:Hp; [right | by left]. split; [| done].
  apply has_id_spec in Hp as (r & Hin & Hid). apply (elem_of_picked cap) in Hin as [Hr Ha]; [| done].
  rewrite Hid, (ok_keyed cap w Hw _ _ Hrow), Hrow in Hr. by injection Hr as <-.
Qed.

Lemma requeued_kind_spares kind params :
  kind ∈ REQUEUE_ON_LEASE_EXPIRY_KINDS → task_invocation_is_destructive kind params = Ok false.
Proof.
  intros Hk. unfold task_invocation_is_destructive, task_kind_is_destructive.
  rewrite bool_decide_eq_false_2; [done|]. revert kind Hk.
  apply Forall_forall. by apply (bool_decide_unpack _).
Qed.

(** C32. The sweep repeats nothing that destroys, and takes back only what was let lapse.
    Every kind of row is in exactly one of the two lists of what to do when a lease lapses.
    A sweep changes a row only if it is running, of a kind that no parameters make
    destructive, and its lease ran out longer ago than the grace; then the row keeps its
    attempts and waits again, or has failed if it has used them up. *)
Theorem only_abandoned_rows_are_swept `{JobBackend} cap w grace attempt_cap batch id row :
  REQUEUE_ON_LEASE_EXPIRY_KINDS ++ NO_REQUEUE_ON_LEASE_EXPIRY_KINDS ≡ₚ JOBS_KIND_CHECK ∧
  JOBS_KIND_CHECK ≡ₚ EVENT_TASK_KINDS ∧
  (queue_ok cap w → jobs w !! id = Some row →
   let t := jobs (requeue_abandoned_sql REQUEUE_ON_LEASE_EXPIRY_KINDS grace attempt_cap batch w).1 in
   t !! id = Some row ∨
   j_status row = Running ∧
   (∀ params, task_invocation_is_destructive (j_kind row) params = Ok false) ∧
   (∃ until, j_locked_until row = Some until ∧ until + duration_to_pg_interval grace < job_time w) ∧
   ∃ row', t !! id = Some row' ∧ j_attempts row' = j_attempts row ∧
     j_status row' = if j_attempts row <? attempt_cap then Pending else Failed).
Proof.
  split_and!; [apply (bool_decide_unpack _); by vm_compute.. |]. intros Hw Hrow.
  destruct (requeue_cases cap REQUEUE_ON_LEASE_EXPIRY_KINDS grace attempt_cap batch w id row Hw Hrow)
    as [? | [Ha Ht]]; [by left | right].
  unfold abandoned in Ha. rewrite !andb_true_iff, !bool_decide_eq_true in Ha.
  destruct Ha as (((Hs & Hk) & Hl) & _). split_and!; [done | | |].
  - intros params. by apply requeued_kind_spares.
  - destruct (j_locked_until row) as [until|]; [| done]. exists until. split; [done|]. lia.
  - eexists. split; [exact Ht|]. split; [done|].
    change (j_status (requeue _ _ _)) with (if attempt_cap <=? j_attempts row then Failed else Pending).
    rewrite Z.ltb_antisym. by destruct (_ <=? _).
Qed.
