(* ===== verification/TaskExamples.v ===== *)
(** Runs of the job queue: the witnesses of the theorems on background tasks, and four
    runs that end otherwise than the documentation says.

    [waiting_for_a_permit_is_taken_for_dead] and [an_honest_late_result_is_dropped] are
    about leases, [an_unaudited_task_ran] is about the delete that makes up for a lost
    audit event, and [a_concurrent_duplicate_is_not_found] about two requests under one
    key. *)

From Stdlib Require Cantor.
From coqutil Require Import Datatypes.RecordSetters.
From S2P Require Import Prelude.
From S2P Require Import RustStd.
From S2P Require Import Json.
From S2P Require Import Types.
From S2P Require Import Store.
From S2P Require Import RetentionUseCase.
From S2P Require Import Concurrent.
From S2P Require Import Rbac.
From S2P Require Import Tokens.
From S2P Require Import Liveness.
From S2P Require Import Jobs.
From S2P Require Import TaskDispatch.
From S2P Require Import JobSafety.
From S2P Require Import TaskPromise.
From S2P Require Import TokenSafety.
From S2P Require Import TokenExamples.
Import DoubleBraceUpdate.

(** ** A database, two workers and an administrator *)

(** Every call takes 20 seconds. *)
#[refine] Definition sample_database (fault : nat → option DomainError) (misses : nat → Uuid → bool)
    : JobBackend := {|
  job_fault := fault;
  job_clock n := Z.of_nat n * (20 * NANOS);
  gen_random_uuid n i := Z.of_nat (Cantor.to_nat (n, i));
  row_order _ rows := rows;
  row_locked _ _ := false;
  snapshot_misses := misses;
  to_text _ := "text"%string;
  params_digest _ := "digest"%string;
|}.
Proof.
  - intros n m Hle. unfold NANOS. lia.
  - intros n i m j Heq. by apply Nat2Z.inj, Cantor.to_nat_inj in Heq as [= <- <-].
  - done.
Defined.

Definition healthy : JobBackend := sample_database (λ _, None) (λ _ _, false).

Definition root : User :=
  {| u_id := 1; u_username := "root"; u_email := "root@example.org"; u_auth_provider := AP_Local;
     u_external_id := None; u_display_name := None; u_is_active := true;
     u_is_admin := true; u_is_service_account := false; u_last_login_at := None;
     u_created_at := 0; u_updated_at := 0 |}.

Definition as_root : CallerPrincipal :=
  {| cp_user_id := 1; cp_external_id := "root"; cp_username := "root";
     cp_email := "root@example.org"; cp_claims := ["admin"%string]; cp_token_kind := None;
     cp_issued_at := 0; cp_token_cap := None |}.

Definition idle : JobWorld :=
  {| jobs := ∅; requesters := {[1 := root]}; grants := []; evaluator := []; task_audit := [];
     guards := []; executions := []; job_calls := 0 |}.

Lemma idle_ok `{JobBackend} cap : queue_ok cap idle.
Proof.
  split; cbn.
  - by intros id row.
  - by intros id1 id2 row1 row2 _ ?.
  - by intros id row ?.
  - by intros id row a ?.
  - constructor.
  - by intros id a ?%elem_of_nil.
  - by intros id a row ?%elem_of_nil.
Qed.

(** What a handler answers after asking for the time once. *)
Definition answering `{JobBackend} (outcome : TaskOutcome) (params : Value) (job : JobRow)
    : prog JobWorld DomainError TaskOutcome :=
  job_now ;; mret outcome.

(** A worker with leases of 200 seconds, two attempts a row and one [noop] at a time. *)
Definition worker `{JobBackend} (name : string) (outcome : TaskOutcome) : TaskDispatcher :=
  {| handlers := {["noop"%string := answering outcome]}; semaphores := {["noop"%string := 1]};
     worker_id := name; lock_duration := 200 * NANOS; batch_size := 2; attempt_cap := 2 |}.

Lemma workers_ok `{JobBackend} name outcome : worker_ok 2 (worker name outcome).
Proof.
  split; [done | |]; cbn [handlers semaphores worker].
  - intros kind [h [<- _]%lookup_singleton_Some]. exists 1. apply lookup_singleton_eq.
  - intros kind handler params job [_ <-]%lookup_singleton_Some.
    eapply tame_bind; [apply tame_ask | intros now _; by apply tame_ret].
Qed.

Definition at_start : PollState :=
  {| ps_started_at := 0; ps_last_claimed := ∅; ps_last_audit := None; ps_last_lease_sweep := None |}.

(** The row a claim returned. *)
Definition claimed_job (id : Uuid) (w : JobWorld) : JobRow :=
  match row_to_job_row <$> (jobs w !! id) with
  | Some (Ok job) => job
  | _ => {| jr_id := id; jr_kind := "noop"; jr_status := Running; jr_params := None; jr_actor_id := None;
            jr_priority := 0; jr_trigger_source := "manual"; jr_attempts := 1; jr_created_at := 0;
            jr_updated_at := 0; jr_completed_at := None; jr_last_error := None;
            jr_result_summary := None; jr_kind_fields := KF_Other |}
  end.

Lemma history_reached `{JobBackend} cap ps picks :
  Forall (task_program cap) ps → rtc (task_step cap) (idle, []) (schedule picks (idle, ps)).
Proof.
  intros Hps. etrans; [| apply schedule_steps]. apply spawn_all. intros i p. by apply Forall_lookup_1.
Qed.

(** A request for a [noop]. *)
Definition asks `{JobBackend} (key : option string) : prog JobWorld DomainError unit :=
  conclude (λ _, ()) (enqueue as_root "noop" VNull key).

(** Requests and polls of the sample workers are programs of a pool. *)
Ltac programs :=
  repeat match goal with
  | |- Forall _ [] => apply Forall_nil_2
  | |- Forall _ (_ :: _) => apply Forall_cons_2
  | |- Forall _ (_ ++ _) => apply Forall_app_2
  | |- task_program _ (asks _) => apply tp_enqueue
  | |- task_program _ (poll_loop _ _ _) => apply tp_poll; try apply workers_ok
  | |- task_program _ (renew_while_held _ _ _ _) => apply tp_renewal
  | |- task_program _ (dispatch_one _ _ _) => apply tp_dispatch; [apply workers_ok | evaluate]
  end.

(** ** One row, two executions *)

Module Healthy.
#[local] Existing Instance healthy.

Definition completes : TaskOutcome := TO_Completed VNull.
Definition left_worker : TaskDispatcher := worker "left" completes.
Definition right_worker : TaskDispatcher := worker "right" completes.

(** The left worker claims the row and is not heard of again; the right one sweeps it
    back and claims it. *)
Definition crash : list (prog JobWorld DomainError unit) :=
  [asks (Some "nightly"%string); poll_loop left_worker 1 at_start; poll_loop right_worker 6 at_start].

Definition recovered := schedule (replicate 3 0%nat ++ replicate 7 1%nat ++ replicate 42 2%nat) (idle, crash).

(** The row's id. *)
Definition nightly : Uuid := gen_random_uuid 1 0.

Lemma recovered_reached : rtc (task_step 2) (idle, []) recovered.
Proof. apply history_reached. unfold crash. programs. Qed.

Lemma recovered_executions : executions recovered.1 = [(nightly, 1); (nightly, 2)].
Proof. evaluate. Qed.

Lemma first_execution : (nightly, 1) ∈ executions recovered.1.
Proof. rewrite recovered_executions. left. Qed.

Lemma second_execution : (nightly, 2) ∈ executions recovered.1.
Proof. rewrite recovered_executions. right. left. Qed.

Lemma results_land_on_their_own_execution_witness :
  (nightly, 1) ∈ executions recovered.1 ∧ (nightly, 2) ∈ executions recovered.1 ∧
  (fenced_result_write (completed_set VNull (job_time recovered.1)) nightly 1 recovered.1 = (recovered.1, Ok RowGone) ∧
     jobs recovered.1 !! nightly = None ∨
   ∃ b', 1 < b' ∧ (nightly, b') ∈ executions recovered.1 ∧
     fenced_result_write (completed_set VNull (job_time recovered.1)) nightly 1 recovered.1 =
       (recovered.1, Ok (Superseded b'))).
Proof.
  refine (conj first_execution (conj second_execution _)).
  exact (proj1 (results_land_on_their_own_execution 2 idle recovered nightly 1
    (completed_set VNull (job_time recovered.1)) (idle_ok 2) recovered_reached first_execution)
    2 second_execution eq_refl).
Defined.

Lemma executions_are_bounded_witness :
  len (executions_of nightly recovered.1) = 2 ∧ len (executions_of nightly recovered.1) ≤ Z.max 2 1.
Proof.
  split; [evaluate|].
  exact (proj1 (proj2 (executions_are_bounded 2 idle recovered nightly (idle_ok 2) recovered_reached))).
Defined.

Definition nightly_row : Job := Eval vm_compute in default (new_row 0 "noop" VNull None 0 "manual" idle)
                                                     (jobs recovered.1 !! nightly).

Lemma nightly_row_held : jobs recovered.1 !! nightly = Some nightly_row.
Proof. evaluate. Qed.

(** Somebody asks for the same night again. *)
Lemma keys_are_single_flight_witness :
  jobs recovered.1 !! nightly = Some nightly_row ∧
  (enqueue_task_sql "noop" VNull (Some 1) 0 "manual" (Some "nightly"%string) recovered.1).1 = recovered.1.
Proof.
  refine (conj nightly_row_held _).
  destruct (keys_are_single_flight 2 idle recovered (idle_ok 2) recovered_reached) as (_ & Hdup & _).
  exact (proj1 (Hdup "noop"%string VNull (Some 1) 0 "manual"%string "nightly"%string nightly nightly_row
    nightly_row_held eq_refl)).
Defined.

(** The row before the right worker sweeps. *)
Definition unheard := schedule (replicate 3 0%nat ++ replicate 7 1%nat ++ replicate 16 2%nat) (idle, crash).
Definition unheard_row : Job := Eval vm_compute in default nightly_row (jobs unheard.1 !! nightly).

Lemma unheard_ok : queue_ok 2 unheard.1.
Proof.
  apply (pool_queue_ok 2 idle); [apply idle_ok|]. apply history_reached. unfold crash. programs.
Qed.

Lemma only_abandoned_rows_are_swept_witness :
  (j_status <$> jobs (requeue_abandoned_sql REQUEUE_ON_LEASE_EXPIRY_KINDS (200 * NANOS) 2 100 unheard.1).1 !! nightly)
    = Some Pending ∧
  j_status unheard_row = Running ∧
  ∃ until, j_locked_until unheard_row = Some until ∧
    until + duration_to_pg_interval (200 * NANOS) < job_time unheard.1.
Proof.
  refine (conj _ _); [evaluate|].
  assert (jobs unheard.1 !! nightly = Some unheard_row) as Hrow by evaluate.
  destruct (only_abandoned_rows_are_swept 2 unheard.1 (200 * NANOS) 2 100 nightly unheard_row) as (_ & _ & Hswept).
  destruct (Hswept unheard_ok Hrow) as [Hsame | (Hrun & _ & Huntil & _)]; [| exact (conj Hrun Huntil)].
  exfalso. vm_compute in Hsame. discriminate Hsame.
Defined.

(** *** Behind an older row *)

(** Two rows, and a worker that takes one at a time. *)
Definition narrow : TaskDispatcher := left_worker {{ batch_size := 1 }}.
Definition two_requests : list (prog JobWorld DomainError unit) :=
  [asks None; asks None; poll_loop narrow 1 at_start].
Definition both_wait := schedule (replicate 3 0%nat ++ replicate 3 1%nat) (idle, two_requests).
Definition first_taken := schedule [2%nat] both_wait.
Definition second : Uuid := gen_random_uuid 4 0.
Definition second_row : Job := Eval vm_compute in default nightly_row (jobs both_wait.1 !! second).

Lemma narrow_ok : worker_ok 2 narrow.
Proof. destruct (workers_ok "left" completes). by split. Qed.

Lemma both_wait_reached : rtc (task_step 2) (idle, []) both_wait.
Proof. apply history_reached. unfold two_requests. programs. apply narrow_ok. Qed.

Lemma second_waits : jobs both_wait.1 !! second = Some second_row.
Proof. evaluate. Qed.

Lemma second_passed_over : passed_over 2 ["noop"%string] second 1 both_wait first_taken.
Proof.
  eapply (po_pass _ _ _ 0 _ first_taken); [apply (schedule_step _ 2); evaluate | | apply po_refl].
  exists 1, "left"%string, (200 * NANOS), second_row.
  refine (conj _ (conj _ (conj second_waits (conj _ _)))); [lia | evaluate | evaluate | evaluate].
Qed.

Lemma old_rows_are_served_witness :
  (1 ≤ ahead 2 ["noop"%string] second (j_created_at second_row) (jobs both_wait.1))%nat.
Proof.
  refine (old_rows_are_served 2 ["noop"%string] second second_row 1 idle both_wait first_taken
    _ (idle_ok 2) both_wait_reached second_waits _ second_passed_over); [by unfold i32_MAX | apply Z.ltb_lt; evaluate].
Defined.

(** *** Old rows *)

(** Two runs of a nightly task and a waiting row, swept long after. *)
Definition done_at (id : Uuid) (at_ : DateTime) : Job :=
  nightly_row {{ j_id := id; j_status := Completed; j_idempotency_key := None; j_completed_at := Some at_;
                 j_created_at := at_; j_updated_at := at_ }}.
Definition old_rows : Table :=
  {[1 := done_at 1 (5 * NANOS); 2 := done_at 2 (7 * NANOS); 3 := second_row]}.
Definition sweep_now : Job → bool := other_swept (DAYS 60) (DAYS 30) old_rows.

Lemma retention_keeps_what_readers_read_witness :
  delete_where sweep_now old_rows !! 1 = None ∧
  delete_where sweep_now old_rows !! 2 = Some (done_at 2 (7 * NANOS)) ∧
  last_completed_at (delete_where sweep_now old_rows) "noop" = last_completed_at old_rows "noop".
Proof.
  destruct (retention_keeps_what_readers_read (DAYS 60) (DAYS 30) old_rows "noop") as [_ Hsweeps].
  destruct (Hsweeps sweep_now) as [_ Hkept]; [right; right; left|].
  destruct (Hkept eq_refl) as (Hrows & Hlast & _). split; [evaluate|]. split; [| exact Hlast].
  apply (Hrows 2 (done_at 2 (7 * NANOS))); evaluate.
Defined.

(** *** A purge *)

Definition purge_request := run (enqueue as_root "retention-purge" VNull None) idle.
Definition purge_id : Uuid := gen_random_uuid 1 0.
Definition purge_job : JobRow := claimed_job purge_id purge_request.1.

Lemma accepted_tasks_are_audited_witness :
  purge_request.2 = Ok (Enqueued purge_id) ∧
  (AS_EventstoreRetention, 1, invocation "retention-purge" VNull (Enqueued purge_id)) ∈ task_audit purge_request.1.
Proof.
  assert (purge_request.2 = Ok (Enqueued purge_id)) as Hok by evaluate. refine (conj Hok _).
  destruct (accepted_tasks_are_audited 2 as_root "retention-purge" VNull None) as (_ & Hwp & _).
  pose proof (run_post _ _ _ _ _ idle (λ _, I) (idle_ok 2) (Hwp idle)) as Hpost.
  exact (Hpost _ Hok).
Defined.

(** The administrator still is one. *)
Lemma destructive_tasks_need_live_authority_witness :
  ∃ trace r, performs (dispatch_one left_worker purge_job (answering completes)) trace r ∧
    ((∃ reads rest, trace = reads ++ rest ∧ Forall (λ x, only_reads x.1 x.2) reads ∧
        live_authority purge_job reads.*1) ∨
     (∀ handler', performs (dispatch_one left_worker purge_job handler') trace r) ∧
     ∃ reads w w' reason retry,
       trace = reads ++ [(w, w')] ∧ Forall (λ x, only_reads x.1 x.2) reads ∧
       run (record_outcome_for_row left_worker purge_job (TO_Failed reason retry)) w = (w', r) ∧
       (∀ id, id ≠ jr_id purge_job → jobs w' !! id = jobs w !! id) ∧
       (retry = true → ∃ x e, x ∈ reads.*1 ∧ job_fault (job_calls x) = Some e)).
Proof.
  destruct (run_performs (dispatch_one left_worker purge_job (answering completes)) purge_request.1)
    as [trace Hp].
  eexists trace, _. refine (conj Hp _).
  refine (destructive_tasks_need_live_authority left_worker purge_job (answering completes) trace _ _ Hp).
  by vm_compute.
Defined.
End Healthy.

(** ** Leases *)

Module Leases.
#[local] Existing Instance healthy.

Definition completes : TaskOutcome := TO_Completed (VString "done").
Definition left_worker : TaskDispatcher := worker "left" completes.
Definition right_worker : TaskDispatcher := worker "right" completes.
Definition first : Uuid := gen_random_uuid 1 0.
Definition second : Uuid := gen_random_uuid 4 0.

(** The left worker claims two rows; one task may run at a time, so the second waits for
    the permit of the first, whose lease is renewed beside it. *)
Definition claims : list (prog JobWorld DomainError unit) :=
  [asks None; asks None; poll_loop left_worker 1 at_start].
Definition claimed : JobWorld := (schedule (replicate 3 0 ++ replicate 3 1 ++ replicate 7 2)%nat (idle, claims)).1.
Definition first_job : JobRow := claimed_job first claimed.
Definition queued_behind : list (prog JobWorld DomainError unit) :=
  claims ++ [dispatch_one left_worker first_job (answering completes);
             renew_while_held left_worker 0 first 100; poll_loop right_worker 3 at_start].
Definition swept_while_alive :=
  schedule (replicate 3 0 ++ replicate 3 1 ++ replicate 7 2 ++ [3] ++ replicate 10 4 ++
            replicate 3 5 ++ [4; 4] ++ replicate 3 5 ++ [4; 4] ++ [5] ++ [4; 4] ++ [5])%nat
    (idle, queued_behind).

Lemma swept_while_alive_reached : rtc (task_step 2) (idle, []) swept_while_alive.
Proof. apply history_reached. unfold queued_behind, claims. programs. Qed.

(** A worker that waits for its own permit is taken for dead.  The left worker is alive: it
    runs the first task and holds a lease on it that is still good.  The second row, which it
    claimed in the same poll, has no renewal while it waits for the permit; it is swept,
    and the right worker executes it as well. *)
Theorem waiting_for_a_permit_is_taken_for_dead :
  rtc (task_step 2) (idle, []) swept_while_alive ∧
  running swept_while_alive 3 = true ∧ running swept_while_alive 4 = true ∧
  executions swept_while_alive.1 = [(second, 1); (first, 1); (second, 2)] ∧
  (j_status <$> jobs swept_while_alive.1 !! first) = Some Running ∧
  (jobs swept_while_alive.1 !! first ≫= j_locked_by) = Some "left"%string ∧
  (jobs swept_while_alive.1 !! second ≫= j_locked_by) = Some "right"%string ∧
  guards swept_while_alive.1 = [{| g_job_id := first; g_lost := false; g_dropped := false |}].
Proof.
  refine (conj swept_while_alive_reached _).
  refine (conj _ (conj _ (conj _ (conj _ (conj _ (conj _ _)))))); evaluate.
Qed.

(** The left worker is paused; its row is swept, and before anybody else claims it the
    renewal notices and the handler returns. *)
Definition paused : list (prog JobWorld DomainError unit) :=
  [asks None; poll_loop left_worker 1 at_start;
   dispatch_one left_worker
     (claimed_job first (schedule (replicate 3 0 ++ replicate 7 1)%nat
                           (idle, [asks None; poll_loop left_worker 1 at_start])).1) (answering completes);
   renew_while_held left_worker 0 first 100; poll_loop right_worker 2 at_start].
Definition result_dropped :=
  schedule (replicate 3 0 ++ replicate 7 1 ++ [2] ++ replicate 14 4 ++ replicate 3 3 ++ replicate 3 2)%nat
    (idle, paused).

Lemma result_dropped_reached : rtc (task_step 2) (idle, []) result_dropped.
Proof. apply history_reached. unfold paused. programs. Qed.

(** An honest late result is dropped.  The row was swept and nobody has claimed it since:
    the only execution is the one that has just completed, and the fence would still let
    its result in.  The worker ends without writing it, and the row waits to be executed
    again. *)
Theorem an_honest_late_result_is_dropped :
  rtc (task_step 2) (idle, []) result_dropped ∧
  running result_dropped 2 = false ∧
  executions result_dropped.1 = [(first, 1)] ∧
  (j_status <$> jobs result_dropped.1 !! first) = Some Pending ∧
  (jobs result_dropped.1 !! first ≫= j_result_summary) = None ∧
  (fenced_result_write (completed_set (VString "done") (job_time result_dropped.1)) first 1 result_dropped.1).2
    = Ok Applied.
Proof.
  refine (conj result_dropped_reached _).
  refine (conj _ (conj _ (conj _ (conj _ _)))); evaluate.
Qed.
End Leases.

(** ** Requests *)

(** The append of the audit event fails once a worker has run the task and put it back. *)
Module Unaudited.
#[local] Instance lost_append : JobBackend :=
  sample_database (λ n, if bool_decide (n = 13)%nat then Some (Invariant [Lit "event store is down"]) else None)
    (λ _ _, false).

Definition fails : TaskOutcome := TO_Failed "try again" true.
Definition flaky_worker : TaskDispatcher := worker "left" fails.
Definition retried : Uuid := gen_random_uuid 1 0.
Definition start : list (prog JobWorld DomainError unit) :=
  [asks (Some "nightly"%string); poll_loop flaky_worker 1 at_start].
Definition retried_job : JobRow :=
  claimed_job retried (schedule ([0; 0] ++ replicate 7 1)%nat (idle, start)).1.
Definition rolled_back :=
  schedule ([0; 0] ++ replicate 7 1 ++ replicate 4 2 ++ [0; 0])%nat
    (idle, start ++ [dispatch_one flaky_worker retried_job (answering fails)]).

Lemma rolled_back_reached : rtc (task_step 2) (idle, []) rolled_back.
Proof. apply history_reached. unfold start. programs. Qed.

(** A task has run that nothing tells of.  The request is refused because its audit event
    cannot be written, and the row is deleted as one that nobody has claimed; but it was
    claimed and executed, and only waited for its next attempt. *)
Theorem an_unaudited_task_ran :
  rtc (task_step 2) (idle, []) rolled_back ∧
  running rolled_back 0 = false ∧ running rolled_back 2 = false ∧
  executions rolled_back.1 = [(retried, 1)] ∧
  task_audit rolled_back.1 = [] ∧ jobs rolled_back.1 = ∅.
Proof.
  refine (conj rolled_back_reached _).
  refine (conj _ (conj _ (conj _ (conj _ _)))); evaluate.
Qed.
End Unaudited.

Module Concurrently.
(** The second request's statement starts before the first one commits. *)
#[local] Instance racing : JobBackend := sample_database (λ _, None) (λ n _, bool_decide (n = 4)%nat).

Definition first_request := run (enqueue as_root "noop" VNull (Some "nightly"%string)) idle.
Definition second_request := run (enqueue as_root "noop" VNull (Some "nightly"%string)) first_request.1.

(** Of two requests under one key at the same time one is told that there is no such row.
    The unique index sees the row of the other, the lookup of the same statement does not;
    the answer should be a duplicate. *)
Theorem a_concurrent_duplicate_is_not_found :
  first_request.2 = Ok (Enqueued (gen_random_uuid 1 0)) ∧
  (j_idempotency_key <$> jobs second_request.1 !! gen_random_uuid 1 0) = Some (Some "nightly"%string) ∧
  second_request.2 = Err (AE_Domain (NotFound "Job" [ArgStr "noop"])) ∧
  len (task_audit second_request.1) = 1.
Proof. refine (conj _ (conj _ (conj _ _))); evaluate. Qed.
End Concurrently.
