(* ===== verification/CheckpointObject.v ===== *)
(** Signed checkpoint objects: crates/hort-adapters-checkpoint-anchor/src/lib.rs.

    The emitter writes a checkpoint as one JSON object with a detached signature over
    its signed fields, and the reader turns every object of the store back into the
    checkpoint of the verifier, leaving out what does not parse or whose signature does
    not verify.  The signature scheme, the JSON text, the hex text and the text of a
    timestamp belong to other crates and are parameters. *)

From stdpp Require Import pretty.
From S2P Require Import Prelude.
From S2P Require Import RustStd.
From S2P Require Import EventChain.
From S2P Require Import ChainAnchor.

(** ** Wire data *)

Record StreamHeadWire : Type := {
  hw_stream_id : string;
  hw_final_stream_position : Z;
  hw_head_event_hash : string;
}.

Record SealedWire : Type := {
  sw_sealed_stream_id : string;
  sw_final_event_hash : string;
}.

Record BackfillBaselineWire : Type := {
  bw_backfill_baseline : bool;
  bw_baseline_max_global_position : Z;
  bw_migration_timestamp : DateTime;
}.

Record SignedBody : Type := {
  sb_chain_format_version : string;
  sb_checkpoint_seq : Z;
  sb_created_at : DateTime;
  sb_stream_heads : list StreamHeadWire;
  sb_sealed_streams : list SealedWire;
}.

(** What the reader parses: the signed fields and the signature. *)
Record CheckpointWire : Type := {
  cw_chain_format_version : string;
  cw_checkpoint_seq : Z;
  cw_created_at : DateTime;
  cw_stream_heads : list StreamHeadWire;
  cw_sealed_streams : list SealedWire;
  cw_signature : string;
}.

(** What the emitter writes: two more fields, which are not signed. *)
Record CheckpointObject : Type := {
  co_chain_format_version : string;
  co_checkpoint_seq : Z;
  co_created_at : DateTime;
  co_stream_heads : list StreamHeadWire;
  co_sealed_streams : list SealedWire;
  co_signature : string;
  co_max_global_position : Z;
  co_backfill_baseline : option BackfillBaselineWire;
}.

(** The fields of an object that the reader knows. *)
Definition wire_of (o : CheckpointObject) : CheckpointWire := {|
  cw_chain_format_version := co_chain_format_version o;
  cw_checkpoint_seq := co_checkpoint_seq o;
  cw_created_at := co_created_at o;
  cw_stream_heads := co_stream_heads o;
  cw_sealed_streams := co_sealed_streams o;
  cw_signature := co_signature o;
|}.

(** [ed25519_dalek], [serde_json], [hex] and [chrono].  A signature made with the
    signing key verifies under the operator's public key; JSON text reads back, without
    the fields the reader does not name, and differs for different bodies. *)
Class AnchorPrimitives : Type := {
  sign : list byte → list byte;
  sign_len : ∀ m, length (sign m) = 64%nat;
  verify_signature : list byte → list byte → bool;
  verify_sign : ∀ m, verify_signature m (sign m) = true;
  hex_encode : list byte → string;
  hex_decode : string → option (list byte);
  hex_decode_encode : ∀ bs, hex_decode (hex_encode bs) = Some bs;
  body_to_vec : SignedBody → list byte;
  body_to_vec_inj : ∀ b c, body_to_vec b = body_to_vec c → b = c;
  object_to_vec : CheckpointObject → list byte;
  object_from_slice : list byte → option CheckpointWire;
  object_round_trip : ∀ o, object_from_slice (object_to_vec o) = Some (wire_of o);
  to_rfc3339_secs : DateTime → string;
}.

Definition CHECKPOINT_PREFIX : string := "hort-event-chain-checkpoints".

Section wire.
Context `{AnchorPrimitives}.

Definition StreamHeadWire_from (h : StreamHead) : StreamHeadWire := {|
  hw_stream_id := sh_stream_id h;
  hw_final_stream_position := final_stream_position h;
  hw_head_event_hash := hex_encode (head_event_hash h);
|}.

Definition SealedWire_from (s : SealedStreamRecord) : SealedWire := {|
  sw_sealed_stream_id := sealed_stream_id s;
  sw_final_event_hash := hex_encode (final_event_hash s);
|}.

Definition BackfillBaselineWire_from (b : BackfillBaseline) : BackfillBaselineWire := {|
  bw_backfill_baseline := true;
  bw_baseline_max_global_position := baseline_max_global_position b;
  bw_migration_timestamp := migration_timestamp b;
|}.

(** [:] becomes [-]. *)
Fixpoint dash_colons (s : string) : string :=
  match s with
  | EmptyString => EmptyString
  | String a s' => String (if decide (a = byte_of_Z 58) then byte_of_Z 45 else a) (dash_colons s')
  end.

Definition checkpoint_object_key (created_at : DateTime) (seq : Z) : string :=
  let ts := dash_colons (to_rfc3339_secs created_at) in
  CHECKPOINT_PREFIX +:+ "/" +:+ ts +:+ "-" +:+ pretty seq +:+ ".json".

(** ** Writing *)

Definition sign_and_serialize (cp : CheckpointToEmit) : string * list byte :=
  let stream_heads := StreamHeadWire_from <$> e_stream_heads cp in
  let sealed_streams := SealedWire_from <$> e_sealed_streams cp in
  let body := {|
    sb_chain_format_version := e_chain_format_version cp;
    sb_checkpoint_seq := e_checkpoint_seq cp;
    sb_created_at := e_created_at cp;
    sb_stream_heads := stream_heads;
    sb_sealed_streams := sealed_streams |} in
  let sig := sign (body_to_vec body) in
  let object := {|
    co_chain_format_version := e_chain_format_version cp;
    co_checkpoint_seq := e_checkpoint_seq cp;
    co_created_at := e_created_at cp;
    co_stream_heads := stream_heads;
    co_sealed_streams := sealed_streams;
    co_signature := hex_encode sig;
    co_max_global_position := e_max_global_position cp;
    co_backfill_baseline := BackfillBaselineWire_from <$> e_backfill_baseline cp |} in
  (checkpoint_object_key (e_created_at cp) (e_checkpoint_seq cp), object_to_vec object).

(** ** Reading *)

Definition parse_hash_hex (hex_str : string) : option EventHash :=
  raw ← hex_decode hex_str;
  if bool_decide (length raw = 32%nat) then Some raw else None.

Definition signed_body (w : CheckpointWire) : SignedBody := {|
  sb_chain_format_version := cw_chain_format_version w;
  sb_checkpoint_seq := cw_checkpoint_seq w;
  sb_created_at := cw_created_at w;
  sb_stream_heads := cw_stream_heads w;
  sb_sealed_streams := cw_sealed_streams w;
|}.

Definition read_head (h : StreamHeadWire) : option (string * Z * EventHash) :=
  hash ← parse_hash_hex (hw_head_event_hash h);
  Some (hw_stream_id h, hw_final_stream_position h, hash).

Definition read_sealed (s : SealedWire) : option SealedStreamRecord :=
  hash ← parse_hash_hex (sw_final_event_hash s);
  Some {| sealed_stream_id := sw_sealed_stream_id s; final_event_hash := hash |}.

Definition verify_and_into_domain (w : CheckpointWire) : option Checkpoint :=
  sig ← hex_decode (cw_signature w);
  if negb (bool_decide (length sig = 64%nat)) then None
  else if negb (verify_signature (body_to_vec (signed_body w)) sig) then None
  else
    stream_heads ← mapM read_head (cw_stream_heads w);
    sealed_streams ← mapM read_sealed (cw_sealed_streams w);
    Some {| chain_format_version := cw_chain_format_version w;
            checkpoint_seq := cw_checkpoint_seq w;
            created_at := cw_created_at w;
            stream_heads := stream_heads;
            sealed_streams := sealed_streams |}.

(** One object of the store; [None] is dropped with a warning. *)
Definition read_object (bytes : list byte) : option Checkpoint :=
  wire ← object_from_slice bytes;
  verify_and_into_domain wire.

Definition read_objects (objects : list (string * list byte)) : list Checkpoint :=
  omap (λ o, read_object o.2) objects.

(** ** Round trip *)

(** The checkpoint the verifier is meant to see. *)
Definition emitted_as (cp : CheckpointToEmit) : Checkpoint := {|
  chain_format_version := e_chain_format_version cp;
  checkpoint_seq := e_checkpoint_seq cp;
  created_at := e_created_at cp;
  stream_heads := (λ h, (sh_stream_id h, final_stream_position h, head_event_hash h)) <$>
                    e_stream_heads cp;
  sealed_streams := e_sealed_streams cp;
|}.

(** Every hash is an [EventHash], which is 32 bytes. *)
Record hashes_wf (cp : CheckpointToEmit) : Prop := {
  hw_heads : Forall (λ h, length (head_event_hash h) = 32%nat) (e_stream_heads cp);
  hw_seals : Forall (λ s, length (final_event_hash s) = 32%nat) (e_sealed_streams cp);
}.

Lemma parse_hash_hex_encode h : length h = 32%nat → parse_hash_hex (hex_encode h) = Some h.
Proof.
  intros Hh. unfold parse_hash_hex. rewrite hex_decode_encode. cbn. by rewrite bool_decide_true.
Qed.

Lemma mapM_fmap_Some {A B C} (f : B → option C) (g : A → B) (h : A → C) (l : list A) :
  Forall (λ x, f (g x) = Some (h x)) l → mapM f (g <$> l) = Some (h <$> l).
Proof. induction 1 as [| x l Hx Hl IH]; [done |]. cbn. by rewrite Hx, IH. Qed.

Lemma read_heads_from heads :
  Forall (λ h, length (head_event_hash h) = 32%nat) heads →
  mapM read_head (StreamHeadWire_from <$> heads) =
    Some ((λ h, (sh_stream_id h, final_stream_position h, head_event_hash h)) <$> heads).
Proof.
  intros Hh. apply mapM_fmap_Some. eapply Forall_impl; [done |]. intros h Hl. cbn in *.
  unfold read_head. cbn. by rewrite parse_hash_hex_encode.
Qed.

Lemma read_seals_from seals :
  Forall (λ s, length (final_event_hash s) = 32%nat) seals →
  mapM read_sealed (SealedWire_from <$> seals) = Some seals.
Proof.
  intros Hs. rewrite (mapM_fmap_Some _ _ id); [by rewrite list_fmap_id |].
  eapply Forall_impl; [done |]. intros [sid h] Hl. cbn in *. unfold read_sealed. cbn.
  by rewrite parse_hash_hex_encode.
Qed.

Lemma read_object_emitted cp :
  hashes_wf cp → read_object (sign_and_serialize cp).2 = Some (emitted_as cp).
Proof.
  intros [Hh Hs]. unfold read_object, sign_and_serialize. cbn. rewrite object_round_trip. cbn.
  unfold verify_and_into_domain. cbn. rewrite hex_decode_encode. cbn.
  rewrite bool_decide_true by apply sign_len. cbn. rewrite verify_sign. cbn.
  by rewrite read_heads_from, read_seals_from.
Qed.

(** ** Forgeries *)

(** The message that is signed for a checkpoint. *)
Definition signed_message (cp : CheckpointToEmit) : list byte :=
  body_to_vec {|
    sb_chain_format_version := e_chain_format_version cp;
    sb_checkpoint_seq := e_checkpoint_seq cp;
    sb_created_at := e_created_at cp;
    sb_stream_heads := StreamHeadWire_from <$> e_stream_heads cp;
    sb_sealed_streams := SealedWire_from <$> e_sealed_streams cp |}.

(** An object whose signature verifies over a message that was never signed. *)
Definition forged (emitted : list CheckpointToEmit) (bytes : list byte) : Prop :=
  ∃ w sig, object_from_slice bytes = Some w ∧ hex_decode (cw_signature w) = Some sig ∧
    verify_signature (body_to_vec (signed_body w)) sig = true ∧
    body_to_vec (signed_body w) ∉ signed_message <$> emitted.

Lemma read_object_inv bytes cp :
  read_object bytes = Some cp →
  ∃ w sig, object_from_slice bytes = Some w ∧ hex_decode (cw_signature w) = Some sig ∧
    verify_signature (body_to_vec (signed_body w)) sig = true ∧
    mapM read_head (cw_stream_heads w) = Some (stream_heads cp) ∧
    mapM read_sealed (cw_sealed_streams w) = Some (sealed_streams cp) ∧
    chain_format_version cp = cw_chain_format_version w ∧
    checkpoint_seq cp = cw_checkpoint_seq w ∧ created_at cp = cw_created_at w.
Proof.
  unfold read_object. intros (w & Hw & Hv)%bind_Some. exists w.
  unfold verify_and_into_domain in Hv. apply bind_Some in Hv as (sig & Hsig & Hv). exists sig.
  destruct (bool_decide _); [| done]. cbn in Hv.
  destruct (verify_signature _ sig) eqn:Hver; [| done]. cbn in Hv.
  apply bind_Some in Hv as (heads & Hheads & Hv). apply bind_Some in Hv as (seals & Hseals & [= <-]).
  by split_and!.
Qed.

(** A checkpoint that is read is one that was emitted, or a forgery. *)
Lemma read_object_genuine emitted bytes cp :
  Forall hashes_wf emitted → read_object bytes = Some cp →
  (∃ e, e ∈ emitted ∧ cp = emitted_as e) ∨ forged emitted bytes.
Proof.
  intros Hwf (w & sig & Hw & Hsig & Hver & Hheads & Hseals & Hf & Hq & Hc)%read_object_inv.
  destruct (decide (body_to_vec (signed_body w) ∈ signed_message <$> emitted)) as [Hin | Hout];
    [left | right; by exists w, sig].
  apply list_elem_of_fmap in Hin as (e & Heq%body_to_vec_inj & He). exists e. split; [done |].
  rewrite Forall_forall in Hwf. destruct (Hwf e He) as [Hh Hs].
  destruct w as [fmtv seq at_ heads seals sg]. unfold signed_body in Heq. cbn in *. simplify_eq.
  rewrite read_heads_from in Hheads by done. rewrite read_seals_from in Hseals by done.
  destruct cp. cbn in *. by simplify_eq.
Qed.
End wire.
