(* ===== verification/EventLog.v ===== *)
(** The event store: the [events] table (migrations/004_events.sql) as
    crates/hort-adapters-postgres/src/event_store.rs appends to it and seals streams of
    it, and as terminal_stream_reader.rs, event_chain_head_reader.rs and
    event_chain_reader.rs beside it read it, together with the object store that holds
    the checkpoints.

    A port call is atomic.  A transaction that reads before it writes is one call per
    read and one for its writes and the commit, so that other transactions may commit in
    between, as they may under READ COMMITTED; the rows it inserts carry the time at
    which it began.  A write whose reply is lost has happened although the caller sees an
    error.  What a batch appends is the serialized form of its events, which Store.v
    validates; logs and metrics are not modelled. *)

From coqutil Require Import Datatypes.RecordSetters.
From S2P Require Import Prelude.
From S2P Require Import RustStd.
From S2P Require Import Json.
From S2P Require Import Types.
From S2P Require Import Events.
From S2P Require Import Store.
From S2P Require Import Concurrent.
From S2P Require Import EventChain.
From S2P Require Import ChainAnchor.
From S2P Require Import ChainVerify.
From S2P Require Import CheckpointObject.
Import DoubleBraceUpdate.

(** ** Stream ids *)

Inductive StreamCategory : Type :=
  | SC_Artifact
  | SC_Policy
  | SC_Admin
  | SC_Ref
  | SC_ArtifactGroup
  | SC_Curation
  | SC_Repository
  | SC_AuthAttempts
  | SC_Authorization
  | SC_User
  | SC_DownloadAudit
  | SC_TokenUse
  | SC_RetentionPolicy.

#[export] Instance StreamCategory_eq_dec : EqDecision StreamCategory.
Proof. solve_decision. Defined.

#[export] Instance StreamCategory_display : Display StreamCategory := λ c,
  match c with
  | SC_Artifact => "artifact"
  | SC_Policy => "policy"
  | SC_Admin => "admin"
  | SC_Ref => "ref"
  | SC_ArtifactGroup => "artifact_group"
  | SC_Curation => "curation"
  | SC_Repository => "repository"
  | SC_AuthAttempts => "auth"
  | SC_Authorization => "authorization"
  | SC_User => "user"
  | SC_DownloadAudit => "download_audit"
  | SC_TokenUse => "token_use"
  | SC_RetentionPolicy => "retention_policy"
  end.

Definition category_from_str (s : string) : option StreamCategory :=
  match s with
  | "artifact" => Some SC_Artifact
  | "policy" => Some SC_Policy
  | "admin" => Some SC_Admin
  | "ref" => Some SC_Ref
  | "artifact_group" => Some SC_ArtifactGroup
  | "curation" => Some SC_Curation
  | "repository" => Some SC_Repository
  | "auth" => Some SC_AuthAttempts
  | "authorization" => Some SC_Authorization
  | "user" => Some SC_User
  | "download_audit" => Some SC_DownloadAudit
  | "token_use" => Some SC_TokenUse
  | "retention_policy" => Some SC_RetentionPolicy
  | _ => None
  end%string.

Record StreamId : Type := {
  si_category : StreamCategory;
  si_entity_id : Uuid;
}.

(** [str::split_once('-')]. *)
Fixpoint split_dash (s : string) : option (string * string) :=
  match s with
  | EmptyString => None
  | String a s' =>
      if decide (a = byte_of_Z 45) then Some (EmptyString, s')
      else '(l, r) ← split_dash s'; Some (String a l, r)
  end.

(** ** The environment *)

(** A row of [public.events]. *)
Record EventRow : Type := {
  er_chain : ChainRow;
  er_global_position : Z;
  er_stored_at : DateTime;
}.

Definition er_stream (r : EventRow) : string := cr_stream_id (er_chain r).
Definition er_position (r : EventRow) : Z := cr_stream_position (er_chain r).
Definition er_hash (r : EventRow) : EventHash := cr_stored_hash (er_chain r).
Definition er_type (r : EventRow) : string := cr_event_type (er_chain r).

Record LogWorld : Type := {
  log_rows : list EventRow;
  log_objects : gmap string (list byte);
  log_calls : nat;
}.

Definition log_tick (w : LogWorld) : LogWorld := w {{ log_calls ::= S }}.

(** What is not under the repository's control: which calls fail, before or after they
    took effect, the clock, random and derived ids and their text, the sequence of
    global positions, the order of text, the listing of the object store, whether the
    login may assume the retention role, and what a stored payload decodes to. *)
Class LogBackend : Type := {
  log_fault : nat → option (bool * fmt);
  log_clock : nat → DateTime;
  log_clock_mono : ∀ n m, (n ≤ m)%nat → log_clock n ≤ log_clock m;
  (** [Uuid::new_v4] after call [n]. *)
  new_v4 : nat → nat → Uuid;
  (** [Uuid::new_v5(NAMESPACE_OID, b"eventstore-retention")]. *)
  retention_entity : Uuid;
  uuid_to_string : Uuid → string;
  uuid_parse : string → option Uuid;
  uuid_parse_to_string : ∀ u, uuid_parse (uuid_to_string u) = Some u;
  (** [nextval] for the [i]-th row that call [n] inserts. *)
  nextval : nat → nat → Z;
  order_by_text : list string → list string;
  order_by_text_perm : ∀ l, order_by_text l ≡ₚ l;
  list_objects : list (string * list byte) → list (string * list byte);
  list_objects_perm : ∀ l, list_objects l ≡ₚ l;
  retention_role_assumable : bool;
  (** The [event_type()] of the event a row decodes to, which is the column's. *)
  decode_event : EventRow → DomainResult string;
  decode_event_type : ∀ r t, decode_event r = Ok t → t = er_type r;
  log_text : fmt → string;
}.

Abbreviation log_prog := (prog LogWorld DomainError).

Section log.
Context `{LogBackend, SerdeJson, ChainPrimitives, AnchorPrimitives}.

Definition StreamId_display (s : StreamId) : string :=
  display (si_category s) +:+ "-" +:+ uuid_to_string (si_entity_id s).

Definition StreamId_from_str (s : string) : DomainResult StreamId :=
  match split_dash s with
  | None => Err (Validation [Lit "invalid stream ID format (expected 'category-uuid'): "; ArgStr s])
  | Some (cat_str, uuid_str) =>
      match category_from_str cat_str with
      | None => Err (Validation [Lit "unknown stream category: "; ArgStr cat_str])
      | Some category =>
          match uuid_parse uuid_str with
          | None => Err (Validation [Lit "invalid UUID in stream ID: "; ArgStr uuid_str])
          | Some entity_id => Ok {| si_category := category; si_entity_id := entity_id |}
          end
      end
  end.

(** [StreamId::eventstore_retention()]: the stream of the tombstones. *)
Definition eventstore_retention : StreamId :=
  {| si_category := SC_Admin; si_entity_id := retention_entity |}.

Definition retention_stream_id : string := StreamId_display eventstore_retention.

(** *** Calls *)

Definition log_time (w : LogWorld) : DateTime := log_clock (log_calls w).

Definition log_call {A} (f : LogWorld → LogWorld * DomainResult A) : log_prog A :=
  r ← port (λ w,
    match log_fault (log_calls w) with
    | None => let '(w', r) := f w in (log_tick w', r)
    | Some (lost, e) =>
        (log_tick (if lost then (f w).1 else w), Err (Invariant e))
    end);
  Done r.

Definition log_query {A} (f : LogWorld → DomainResult A) : log_prog A := log_call (λ w, (w, f w)).

(** [Utc::now()]. *)
Definition utc_now {E} : prog LogWorld E DateTime := port (λ w, (log_tick w, log_time w)).

(** *** Reading a stream *)

Definition position_leb (a b : EventRow) : bool := er_position a <=? er_position b.

(** [WHERE stream_id = $1 ORDER BY stream_position]. *)
Definition rows_of (sid : string) (rows : list EventRow) : list EventRow :=
  sort_by position_leb (filter (λ r, er_stream r = sid) rows).

(** [ORDER BY stream_position DESC LIMIT 1]. *)
Definition tail_row (sid : string) (rows : list EventRow) : option EventRow := last (rows_of sid rows).

Definition to_event_hash (bytes : list byte) (col : string) : DomainResult EventHash :=
  if bool_decide (length bytes = 32%nat) then Ok bytes
  else Err (Invariant [Lit col; Lit " is "; ArgInt (len bytes);
                       Lit " bytes, expected 32 (schema CHECK should make this unreachable)"]).

(** A transaction that begins with a read of a stream's tail: the call it is, the time
    of the transaction and the tail. *)
Definition begin_with_tail (sid : string) : log_prog (nat * DateTime * option EventRow) :=
  log_query (λ w, Ok (log_calls w, log_time w, tail_row sid (log_rows w))).

(** ** Appending *)

Record EventToAppend : Type := {
  ta_event_id : Uuid;
  ta_event_type : string;
  ta_event_data : Value;
}.

Record AppendEvents : Type := {
  ae_stream_id : StreamId;
  ae_expected_version : ExpectedVersion;
  ae_events : list EventToAppend;
  ae_correlation_id : Uuid;
  ae_causation_id : option Uuid;
  ae_actor : ActorCanonical;
}.

Record AppendResult : Type := {
  ar_stream_position : Z;
  ar_global_positions : list Z;
}.

Definition check_append_version (expected : ExpectedVersion) (sid : string) (current_position : Z)
    : DomainResult unit :=
  match expected with
  | EV_NoStream =>
      if negb (current_position =? -1) then
        Err (Conflict [Lit "stream "; ArgStr sid; Lit " already exists (position ";
                       ArgInt current_position; Lit "), expected NoStream"])
      else Ok ()
  | EV_Exact position =>
      if negb (current_position =? position) then
        Err (Conflict [Lit "stream "; ArgStr sid; Lit " at position "; ArgInt current_position;
                       Lit ", expected "; ArgInt position])
      else Ok ()
  | EV_Any => Ok ()
  end.

(** The rows a batch inserts behind [position] and [prev]. *)
Fixpoint chain_batch (b : AppendEvents) (position : Z) (prev : EventHash) (evs : list EventToAppend)
    : list ChainRow :=
  match evs with
  | [] => []
  | e :: evs' =>
      let position := position + 1 in
      let event_hash := compute_event_hash {|
        prev_event_hash := prev; event_id := ta_event_id e;
        stream_id := StreamId_display (ae_stream_id b);
        stream_category := display (si_category (ae_stream_id b));
        stream_position := position; event_type := ta_event_type e; event_version := 1;
        payload := ta_event_data e; correlation_id := ae_correlation_id b;
        causation_id := ae_causation_id b; actor := ae_actor b |} in
      {| cr_event_data := ta_event_data e; cr_event_id := ta_event_id e;
         cr_stream_id := StreamId_display (ae_stream_id b);
         cr_stream_category := display (si_category (ae_stream_id b));
         cr_stream_position := position; cr_event_type := ta_event_type e; cr_event_version := 1;
         cr_correlation_id := ae_correlation_id b; cr_causation_id := ae_causation_id b;
         cr_actor_type := actor_type (ae_actor b); cr_actor_id := actor_id (ae_actor b);
         cr_actor_source_file := actor_source_file (ae_actor b);
         cr_actor_spec_digest := actor_spec_digest (ae_actor b);
         cr_stored_prev := prev; cr_stored_hash := event_hash |}
        :: chain_batch b position event_hash evs'
  end.

(** The unique indexes: [(stream_id, stream_position)] and the primary key. *)
Definition collides_with (r : ChainRow) (row : EventRow) : bool :=
  (bool_decide (er_stream row = cr_stream_id r) && (er_position row =? cr_stream_position r)) ||
  (cr_event_id (er_chain row) =? cr_event_id r).

(** [INSERT] of the rows one after the other, as the rows [i], [i + 1], ... of call [n]. *)
Fixpoint insert_events (n i : nat) (at_ : DateTime) (new : list ChainRow) (rows : list EventRow)
    : DomainResult (list EventRow) :=
  match new with
  | [] => Ok rows
  | r :: new' =>
      if existsb (collides_with r) rows then
        Err (Conflict [Lit "stream "; ArgStr (cr_stream_id r);
                       Lit " concurrent append at position "; ArgInt (cr_stream_position r)])
      else
        insert_events n (S i) at_ new'
          (rows ++ [{| er_chain := r; er_global_position := nextval n i; er_stored_at := at_ |}])
  end.

(** The position and the hash a batch continues from. *)
Definition predecessor (sid : string) (tail : option EventRow) : DomainResult (Z * EventHash) :=
  match tail with
  | None => Ok (-1, genesis_hash)
  | Some row =>
      if bool_decide (length (er_hash row) = 32%nat) then Ok (er_position row, er_hash row)
      else Err (Invariant [Lit "event chain predecessor missing for stream "; ArgStr sid;
                           Lit " at position "; ArgInt (er_position row)])
  end.

(** [append], over [append_with_conn]. *)
Definition append (b : AppendEvents) : log_prog AppendResult :=
  let sid := StreamId_display (ae_stream_id b) in
  '(_, at_, tail) ← begin_with_tail sid;
  '(current_position, prev) ← Done (predecessor sid tail);
  _ ← Done (check_append_version (ae_expected_version b) sid current_position);
  log_call (λ w,
    match insert_events (log_calls w) 0 at_ (chain_batch b current_position prev (ae_events b))
            (log_rows w) with
    | Ok rows =>
        (w {{ log_rows := rows }},
         Ok {| ar_stream_position := current_position + len (ae_events b);
               ar_global_positions := nextval (log_calls w) <$> seq 0 (length (ae_events b)) |})
    | Err e => (w, Err e)
    end).

(** ** Tombstones *)

Record StreamSealed : Type := {
  ss_sealed_stream_id : string;
  ss_sealed_stream_category : string;
  ss_final_stream_position : Z;
  ss_final_event_hash : EventHash;
  ss_event_count : Z;
  ss_retention_policy_id : Uuid;
  ss_actor_id : option Uuid;
}.

Definition MAX_SEALED_STREAM_ID_LEN : Z := 256.
Definition MAX_SEALED_STREAM_CATEGORY_LEN : Z := 64.

Definition StreamSealed_validate (e : StreamSealed) : DomainResult unit :=
  _ ← validate_string "sealed_stream_id" (ss_sealed_stream_id e) MAX_SEALED_STREAM_ID_LEN;
  validate_string "sealed_stream_category" (ss_sealed_stream_category e)
    MAX_SEALED_STREAM_CATEGORY_LEN.

Definition uint_json (n : Z) : Value := VNumber (PosInt n).

Definition uuid_json (u : Uuid) : Value := VString (uuid_to_string u).

(** The derived [Serialize], in the envelope [stored_payload_envelope] gives an event. *)
Definition StreamSealed_to_json (e : StreamSealed) : Value :=
  VObject (map_collect [
    ("sealed_stream_id", VString (ss_sealed_stream_id e));
    ("sealed_stream_category", VString (ss_sealed_stream_category e));
    ("final_stream_position", uint_json (ss_final_stream_position e));
    ("final_event_hash", VArray ((λ b, uint_json (Z_of_byte b)) <$> ss_final_event_hash e));
    ("event_count", uint_json (ss_event_count e));
    ("retention_policy_id", uuid_json (ss_retention_policy_id e));
    ("actor_id", match ss_actor_id e with Some u => uuid_json u | None => VNull end)]%string).

Definition tombstone_json (e : StreamSealed) : Value :=
  VObject (map_collect [("type", VString "StreamSealed"); ("data", StreamSealed_to_json e)]%string).

(** A [PosInt] is a [u64]. *)
Definition as_u64 (v : Value) : option Z :=
  match v with VNumber (PosInt n) => Some n | _ => None end.

Definition as_u8 (v : Value) : option Z :=
  n ← as_u64 v;
  if n <? 256 then Some n else None.

Definition as_uuid (v : Value) : option Uuid := s ← as_str v; uuid_parse s.

(** The derived [Deserialize]: every field but [actor_id] has to be there. *)
Definition StreamSealed_from_json (v : Value) : option StreamSealed :=
  m ← as_object v;
  sealed_stream_id ← map_get "sealed_stream_id" m ≫= as_str;
  sealed_stream_category ← map_get "sealed_stream_category" m ≫= as_str;
  final_stream_position ← map_get "final_stream_position" m ≫= as_u64;
  hash ← map_get "final_event_hash" m ≫= as_array;
  hash ← mapM (as_u8) hash;
  hash ← (if bool_decide (length hash = 32%nat) then Some (byte_of_Z <$> hash) else None);
  event_count ← map_get "event_count" m ≫= as_u64;
  retention_policy_id ← map_get "retention_policy_id" m ≫= as_uuid;
  actor_id ← (match map_get "actor_id" m with
              | None | Some VNull => Some None
              | Some v => u ← as_uuid v; Some (Some u)
              end);
  Some {| ss_sealed_stream_id := sealed_stream_id;
          ss_sealed_stream_category := sealed_stream_category;
          ss_final_stream_position := final_stream_position;
          ss_final_event_hash := hash;
          ss_event_count := event_count;
          ss_retention_policy_id := retention_policy_id;
          ss_actor_id := actor_id |}.

Definition sealed_record_from_row (event_data : Value) : DomainResult SealedStreamRecord :=
  match as_object event_data ≫= map_get "data" with
  | None => Err (Invariant [Lit "StreamSealed event_data missing 'data' field"])
  | Some data =>
      match StreamSealed_from_json data with
      | None => Err (Invariant [Lit "failed to deserialize StreamSealed: "])
      | Some s => Ok {| sealed_stream_id := ss_sealed_stream_id s;
                        final_event_hash := ss_final_event_hash s |}
      end
  end.

(** [validate_and_serialize] of the tombstone. *)
Definition serialize_tombstone (e : StreamSealed) : DomainResult Value :=
  _ ← StreamSealed_validate e;
  let json := tombstone_json e in
  let size := strlen (json_to_string json) in
  if MAX_EVENT_JSON_BYTES <? size then
    Err (Validation [Lit "serialized event StreamSealed exceeds 64 KB limit ("; ArgInt size;
                     Lit " bytes)"])
  else Ok json.

(** ** Sealing *)

Inductive SealOutcome : Type :=
  | Sealed
  | NotAtProvenVersion.

Record SealAuthority : Type := { sa_final_stream_position : Z }.

(** The columns of [timer_actor()]. *)
Definition timer_actor : ActorCanonical :=
  {| actor_type := "timer"; actor_id := None; actor_source_file := None; actor_spec_digest := None |}.

(** The batch [n] calls into the run, with its tombstone already serialized. *)
Definition seal_batch (n : nat) (json : Value) : AppendEvents := {|
  ae_stream_id := eventstore_retention;
  ae_expected_version := EV_Any;
  ae_events := [{| ta_event_id := new_v4 n 0; ta_event_type := "StreamSealed";
                   ta_event_data := json |}];
  ae_correlation_id := new_v4 n 1;
  ae_causation_id := None;
  ae_actor := timer_actor;
|}.

Definition role_error : DomainError :=
  Invariant [Lit "retention role not assumable (HORT_RETENTION_DATABASE_URL unset or runtime user is not a member of hort_retention_role): SET LOCAL ROLE hort_retention_role failed: "].

(** The [INSERT] of the tombstone, [SET LOCAL ROLE], the [DELETE] that matches nothing
    when the stream has grown, the comparison of the counts, and the commit. *)
Definition remove_and_commit (target : string) (final_position event_count : Z) (at_ : DateTime)
    (tombstone : list ChainRow) (w : LogWorld) : LogWorld * DomainResult SealOutcome :=
  match insert_events (log_calls w) 0 at_ tombstone (log_rows w) with
  | Err e => (w, Err e)
  | Ok rows =>
      if negb retention_role_assumable then (w, Err role_error)
      else
        let grown := existsb (λ r, bool_decide (er_stream r = target) &&
                                   (final_position <? er_position r)) rows in
        let removed := if grown then 0 else len (filter (λ r, er_stream r = target) rows) in
        if negb (removed =? event_count) then
          if removed =? 0 then (w, Ok NotAtProvenVersion)
          else (w, Err (Invariant [Lit "sealed stream "; ArgStr target; Lit " removal removed ";
                                   ArgInt removed; Lit " rows but its tombstone claims ";
                                   ArgInt event_count;
                                   Lit " events (stream_position run is not contiguous) — rolled back"]))
        else (w {{ log_rows := filter (λ r, er_stream r ≠ target) rows }}, Ok Sealed)
  end.

Definition seal_and_remove (s : StreamId) (authority : SealAuthority) : log_prog SealOutcome :=
  let target_id := StreamId_display s in
  '(n, at_, tail) ← begin_with_tail target_id;
  match tail with
  | None => log_query (λ _, Ok NotAtProvenVersion)
  | Some row =>
      let final_position := er_position row in
      if negb (final_position =? sa_final_stream_position authority) then
        log_query (λ _, Ok NotAtProvenVersion)
      else if negb (bool_decide (length (er_hash row) = 32%nat)) then
        Done (Err (Invariant [Lit "sealed stream "; ArgStr target_id; Lit " head event_hash is ";
                              ArgInt (len (er_hash row));
                              Lit " bytes, expected 32 (schema CHECK should make this unreachable)"]))
      else
        let event_count := final_position + 1 in
        json ← Done (serialize_tombstone {|
          ss_sealed_stream_id := target_id;
          ss_sealed_stream_category := display (si_category s);
          ss_final_stream_position := final_position;
          ss_final_event_hash := er_hash row;
          ss_event_count := event_count;
          ss_retention_policy_id := 0;
          ss_actor_id := None |});
        let b := seal_batch n json in
        '(_, _, meta_tail) ← begin_with_tail retention_stream_id;
        '(position, prev) ← Done (predecessor retention_stream_id meta_tail);
        _ ← Done (check_append_version (ae_expected_version b) retention_stream_id position);
        log_call (remove_and_commit target_id final_position event_count at_
                    (chain_batch b position prev (ae_events b)))
  end.

Definition delete_stream (s : StreamId) (authority : SealAuthority) : log_prog SealOutcome :=
  seal_and_remove s authority.

(** The target only reaches a log line. *)
Definition archive_stream (s : StreamId) (target : string) (authority : SealAuthority)
    : log_prog SealOutcome :=
  seal_and_remove s authority.

(** [collect] into a [Result]: the first error wins. *)
Fixpoint collect {A B} (f : A → DomainResult B) (l : list A) : DomainResult (list B) :=
  match l with
  | [] => Ok []
  | a :: l' => b ← f a; bs ← collect f l'; mret (b :: bs)
  end.

(** ** Enumerating candidates *)

Record TerminalStreamCandidate : Type := {
  tc_stream_id : string;
  tc_category : StreamCategory;
  tc_first_event_at : DateTime;
  tc_last_event_at : DateTime;
  tc_last_event_type : string;
  tc_last_stream_position : Z;
}.

(** [SELECT DISTINCT stream_id ... ORDER BY stream_id]. *)
Definition distinct_streams (rows : list EventRow) : list string :=
  order_by_text (remove_dups (er_stream <$> rows)).

Definition earliest (t : DateTime) (rows : list EventRow) : DateTime :=
  foldr (λ r, Z.min (er_stored_at r)) t rows.

Definition latest (t : DateTime) (rows : list EventRow) : DateTime :=
  foldr (λ r, Z.max (er_stored_at r)) t rows.

(** One group of the enumeration; a stream id that does not parse is left out. *)
Definition candidate_of (rows : list EventRow) (sid : string) : option TerminalStreamCandidate :=
  tail ← tail_row sid rows;
  match StreamId_from_str sid with
  | Err _ => None
  | Ok stream => Some {|
      tc_stream_id := sid;
      tc_category := si_category stream;
      tc_first_event_at := earliest (er_stored_at tail) (rows_of sid rows);
      tc_last_event_at := latest (er_stored_at tail) (rows_of sid rows);
      tc_last_event_type := er_type tail;
      tc_last_stream_position := Z.max (er_position tail) 0 |}
  end.

Definition list_terminal_candidates : log_prog (list TerminalStreamCandidate) :=
  log_query (λ w,
    let rows := filter (λ r, er_stream r ≠ retention_stream_id) (log_rows w) in
    Ok (omap (candidate_of rows) (distinct_streams rows))).

(** ** Reading an artifact's stream *)

Record DecodedEvent : Type := {
  de_stream_position : Z;
  de_event_type : string;
}.

Definition decode_row (r : EventRow) : DomainResult DecodedEvent :=
  t ← decode_event r;
  mret {| de_stream_position := er_position r; de_event_type := t |}.

(** [read_stream] from the start. *)
Definition read_stream (s : StreamId) (max_count : Z) : log_prog (list DecodedEvent) :=
  log_query (λ w, collect decode_row (take (Z.to_nat max_count) (rows_of (StreamId_display s) (log_rows w)))).

(** [read_artifact_stream]: the whole stream of an artifact, or a refusal. *)
Definition read_artifact_stream (s : StreamId) : log_prog (list DecodedEvent) :=
  if negb (bool_decide (si_category s = SC_Artifact)) then
    Done (Err (Invariant [Lit "capped artifact-stream read called on non-artifact stream ";
                          ArgStr (StreamId_display s)]))
  else
    stream_events ← read_stream s (STREAM_EVENT_CAP + 1);
    if STREAM_EVENT_CAP <? len stream_events then
      Done (Err (Invariant [Lit "stream "; ArgStr (StreamId_display s); Lit " exceeds the ";
                            ArgInt STREAM_EVENT_CAP;
                            Lit "-event cap — a capped read cannot prove it reached the tail, so no decision is derived from it"]))
    else Done (Ok stream_events).

(** ** The live chain *)

Record LiveChainSnapshot : Type := {
  lc_heads : list StreamHead;
  lc_max_global_position : Z;
  lc_sealed : list SealedStreamRecord;
}.

(** [DISTINCT ON (stream_id) ... ORDER BY stream_id, stream_position DESC]. *)
Definition head_rows (rows : list EventRow) : list EventRow :=
  omap (λ sid, tail_row sid rows) (distinct_streams rows).

Definition stream_head (r : EventRow) : DomainResult StreamHead :=
  hash ← to_event_hash (er_hash r) "event_hash";
  mret {| sh_stream_id := er_stream r; final_stream_position := er_position r;
          head_event_hash := hash |}.

(** The tombstones, in the order of their stream. *)
Definition seal_rows (rows : list EventRow) : list EventRow :=
  filter (λ r, er_type r = "StreamSealed"%string) (rows_of retention_stream_id rows).

Definition sealed_records (rows : list EventRow) : DomainResult (list SealedStreamRecord) :=
  collect (λ r, sealed_record_from_row (cr_event_data (er_chain r))) (seal_rows rows).

(** One REPEATABLE READ transaction. *)
Definition snapshot_live_chain : log_prog LiveChainSnapshot :=
  log_query (λ w,
    heads ← collect stream_head (head_rows (log_rows w));
    sealed ← sealed_records (log_rows w);
    mret {| lc_heads := heads;
            lc_max_global_position := foldr Z.max 0 (er_global_position <$> log_rows w);
            lc_sealed := sealed |}).

(** ** The verifier's reader *)

Definition STREAM_PAGE : Z := 1024.

Definition list_streams_since (since_global : option Z) (rows : list EventRow) : list string :=
  match since_global with
  | Some n => distinct_streams (filter (λ r, n ≤ er_global_position r) rows)
  | None => distinct_streams rows
  end.

Definition chain_row (r : EventRow) : DomainResult ChainRow :=
  prev ← to_event_hash (cr_stored_prev (er_chain r)) "prev_event_hash";
  hash ← to_event_hash (er_hash r) "event_hash";
  mret (er_chain r).

(** The paging loop: [None] is out of fuel. *)
Fixpoint read_pages (fuel : nat) (sid : string) (rows : list EventRow) (after_position : Z)
    (out : list EventRow) : option (list EventRow) :=
  match fuel with
  | O => None
  | S fuel' =>
      let page := take (Z.to_nat STREAM_PAGE)
                    (filter (λ r, after_position < er_position r) (rows_of sid rows)) in
      match last page with
      | None => Some out
      | Some final =>
          if len page <? STREAM_PAGE then Some (out ++ page)
          else read_pages fuel' sid rows (er_position final) (out ++ page)
      end
  end.

Definition read_chain (sid : string) (rows : list EventRow) : DomainResult (list ChainRow) :=
  match read_pages (S (length (rows_of sid rows))) sid rows (-1) [] with
  | Some out => collect chain_row out
  | None => Ok []
  end.

Definition as_fmt {A} (r : DomainResult A) : result fmt A := map_err DomainError_display r.

(** [PgEventChainReader] over one state of the table. *)
Definition chain_reader (w : LogWorld) : EventChainReaderPort := {|
  list_stream_ids := λ since, Ok (list_streams_since since (log_rows w));
  read_stream_chain := λ sid, as_fmt (read_chain sid (log_rows w));
  read_sealed_records := as_fmt (sealed_records (log_rows w)) |}.

(** ** The object store *)

Definition stored_checkpoints (w : LogWorld) : list Checkpoint :=
  read_objects (list_objects (map_to_list (log_objects w))).

Definition read_all_checkpoints : log_prog (list Checkpoint) :=
  log_query (λ w, Ok (stored_checkpoints w)).

Definition checkpoint_anchor (w : LogWorld) : CheckpointAnchorPort :=
  {| read_all := Ok (stored_checkpoints w) |}.

(** A plain [put]. *)
Definition emit (cp : CheckpointToEmit) : log_prog unit :=
  let '(key, bytes) := sign_and_serialize cp in
  log_call (λ w, (w {{ log_objects ::= insert key bytes }}, Ok ())).
End log.
