(* ===== verification/EventRetention.v ===== *)
(** The audit-retention sweep and the checkpoint emission:
    crates/hort-app/src/use_cases/eventstore_retention_use_case.rs and the task handlers
    crates/hort-app/src/task_handlers/eventstore_archive.rs and
    eventstore_checkpoint.rs beside it.

    The sweep enumerates the streams, proves each one terminal and past its floor, seals
    it, and, where a checkpoint hook is wired, anchors its seals with one emission at the
    end. *)

From coqutil Require Import Datatypes.RecordSetters.
From S2P Require Import Prelude.
From S2P Require Import RustStd.
From S2P Require Import Json.
From S2P Require Import Types.
From S2P Require Import Events.
From S2P Require Import Store.
From S2P Require Import Concurrent.
From S2P Require Import TaskDispatch.
From S2P Require Import EventChain.
From S2P Require Import ChainAnchor.
From S2P Require Import ChainVerify.
From S2P Require Import CheckpointObject.
From S2P Require Import EventLog.
Import DoubleBraceUpdate.

(** ** Rules *)

Inductive SealMode : Type :=
  | TerminalGated (terminal_event_type : string)
  | AgeGated.

#[export] Instance SealMode_eq_dec : EqDecision SealMode.
Proof. solve_decision. Defined.

Record CategoryRetentionRule : Type := {
  cr_category : StreamCategory;
  cr_floor : Duration;
  cr_mode : SealMode;
}.

Definition ARTIFACT_LIFECYCLE_TERMINAL : string := "ArtifactPurged".

Definition canonical_retention_rules (authentication_floor artifact_lifecycle_floor
    download_audit_floor api_token_used_floor : Duration) : list CategoryRetentionRule :=
  [{| cr_category := SC_AuthAttempts; cr_floor := authentication_floor; cr_mode := AgeGated |};
   {| cr_category := SC_Artifact; cr_floor := artifact_lifecycle_floor;
      cr_mode := TerminalGated ARTIFACT_LIFECYCLE_TERMINAL |};
   {| cr_category := SC_DownloadAudit; cr_floor := download_audit_floor; cr_mode := AgeGated |};
   {| cr_category := SC_TokenUse; cr_floor := api_token_used_floor; cr_mode := AgeGated |}].

Inductive StreamRetentionModeRef : Type :=
  | SRM_Delete
  | SRM_Archive (target_prefix : string).

Record RetentionArchiveSummary : Type := {
  candidates_visited : Z;
  archived : Z;
  deleted : Z;
  skipped_non_terminal : Z;
  skipped_floor_not_elapsed : Z;
  skipped_meta_stream : Z;
  skipped_already_sealed : Z;
  skipped_unregistered_category : Z;
  skipped_stream_changed : Z;
  sweep_errors : Z;
  sealed_stream_ids : list string;
}.

Definition default_summary : RetentionArchiveSummary := {|
  candidates_visited := 0; archived := 0; deleted := 0; skipped_non_terminal := 0;
  skipped_floor_not_elapsed := 0; skipped_meta_stream := 0; skipped_already_sealed := 0;
  skipped_unregistered_category := 0; skipped_stream_changed := 0; sweep_errors := 0;
  sealed_stream_ids := [] |}.

Record EventStoreRetentionUseCase : Type := {
  uc_rules : list CategoryRetentionRule;
  uc_mode : StreamRetentionModeRef;
}.

Inductive TerminalProof : Type :=
  | TP_Terminal (final_stream_position : Z)
  | TP_NotTerminal (last_event_type : string)
  | TP_Sealed
  | TP_ReadError.

Record BackfillBaselineConfig : Type := {
  bc_baseline_max_global_position : Z;
  bc_migration_timestamp : DateTime;
}.

(** The inputs of the checkpoint handler that are not ports. *)
Record EventstoreCheckpointHandler : Type := { ck_backfill_baseline : option BackfillBaselineConfig }.

Record EventStoreArchiveHandler : Type := {
  ah_retention : EventStoreRetentionUseCase;
  ah_checkpoint_hook : option EventstoreCheckpointHandler;
}.

Section retention.
Context `{LogBackend, SerdeJson, ChainPrimitives, AnchorPrimitives}.

(** ** The sweep *)


Definition prove_terminal (c : TerminalStreamCandidate) (terminal_event_type : string)
    : log_prog TerminalProof :=
  match StreamId_from_str (tc_stream_id c) with
  | Err _ => mret TP_ReadError
  | Ok stream_id =>
      r ← attempt (read_artifact_stream stream_id);
      mret match r with
           | Err _ => TP_ReadError
           | Ok events =>
               match max_by (λ a b, de_stream_position a ?= de_stream_position b) events with
               | None => TP_Sealed
               | Some tail =>
                   if bool_decide (de_event_type tail = terminal_event_type) then
                     TP_Terminal (de_stream_position tail)
                   else TP_NotTerminal (de_event_type tail)
               end
           end
  end.

Definition record_stream_changed (s : RetentionArchiveSummary) : RetentionArchiveSummary :=
  s {{ skipped_stream_changed ::= Z.add 1 }}.

Definition seal_one (u : EventStoreRetentionUseCase) (c : TerminalStreamCandidate)
    (authority : SealAuthority) (s : RetentionArchiveSummary) : log_prog RetentionArchiveSummary :=
  match StreamId_from_str (tc_stream_id c) with
  | Err _ => mret (s {{ sweep_errors ::= Z.add 1 }})
  | Ok stream_id =>
      match uc_mode u with
      | SRM_Delete =>
          r ← attempt (delete_stream stream_id authority);
          mret match r with
               | Ok Sealed =>
                   s {{ deleted ::= Z.add 1;
                        sealed_stream_ids := sealed_stream_ids s ++ [tc_stream_id c] }}
               | Ok NotAtProvenVersion => record_stream_changed s
               | Err _ => s {{ sweep_errors ::= Z.add 1 }}
               end
      | SRM_Archive target_prefix =>
          r ← attempt (archive_stream stream_id (target_prefix +:+ "/" +:+ tc_stream_id c) authority);
          mret match r with
               | Ok Sealed =>
                   s {{ archived ::= Z.add 1;
                        sealed_stream_ids := sealed_stream_ids s ++ [tc_stream_id c] }}
               | Ok NotAtProvenVersion => record_stream_changed s
               | Err _ => s {{ sweep_errors ::= Z.add 1 }}
               end
      end
  end.

(** Steps 4 and 5: the floor against the oldest event, then the seal. *)
Definition check_floor (u : EventStoreRetentionUseCase) (now : DateTime) (c : TerminalStreamCandidate)
    (rule : CategoryRetentionRule) (proven_final_position : Z) (s : RetentionArchiveSummary)
    : log_prog RetentionArchiveSummary :=
  let elapsed := signed_duration_since now (tc_first_event_at c) in
  if elapsed <? cr_floor rule then mret (s {{ skipped_floor_not_elapsed ::= Z.add 1 }})
  else seal_one u c {| sa_final_stream_position := proven_final_position |} s.

Definition process_one (u : EventStoreRetentionUseCase) (now : DateTime) (c : TerminalStreamCandidate)
    (s : RetentionArchiveSummary) : log_prog RetentionArchiveSummary :=
  if bool_decide (tc_stream_id c = retention_stream_id) then
    mret (s {{ skipped_meta_stream ::= Z.add 1 }})
  else
    match find (λ r, bool_decide (cr_category r = tc_category c)) (uc_rules u) with
    | None => mret (s {{ skipped_unregistered_category ::= Z.add 1 }})
    | Some rule =>
        match cr_mode rule with
        | AgeGated => check_floor u now c rule (tc_last_stream_position c) s
        | TerminalGated terminal_event_type =>
            proof ← prove_terminal c terminal_event_type;
            match proof with
            | TP_Sealed => mret (s {{ skipped_already_sealed ::= Z.add 1 }})
            | TP_NotTerminal _ => mret (s {{ skipped_non_terminal ::= Z.add 1 }})
            | TP_ReadError => mret (s {{ sweep_errors ::= Z.add 1 }})
            | TP_Terminal final_stream_position => check_floor u now c rule final_stream_position s
            end
        end
    end.

Fixpoint process_all (u : EventStoreRetentionUseCase) (now : DateTime)
    (candidates : list TerminalStreamCandidate) (s : RetentionArchiveSummary)
    : log_prog RetentionArchiveSummary :=
  match candidates with
  | [] => mret s
  | c :: candidates' =>
      s ← process_one u now c (s {{ candidates_visited ::= Z.add 1 }});
      process_all u now candidates' s
  end.

Definition archive_terminal_streams (u : EventStoreRetentionUseCase) (now : DateTime)
    : log_prog RetentionArchiveSummary :=
  candidates ← list_terminal_candidates;
  process_all u now candidates default_summary.

(** ** Emission *)

Definition CHAIN_FORMAT_VERSION : string := "hort-evchain/v1".

Inductive CheckpointCycleError : Type :=
  | AnchorReadFailed (e : DomainError)
  | HeadSnapshotFailed (e : DomainError)
  | AnchorWriteFailed (e : DomainError).

Definition CheckpointCycleError_message (e : CheckpointCycleError) : fmt :=
  match e with
  | AnchorReadFailed e => Lit "reading existing checkpoints failed: " :: DomainError_display e
  | HeadSnapshotFailed e => Lit "live-chain snapshot failed: " :: DomainError_display e
  | AnchorWriteFailed e => Lit "anchor checkpoint write failed: " :: DomainError_display e
  end.

Definition to_domain (b : BackfillBaselineConfig) : BackfillBaseline := {|
  baseline_max_global_position := bc_baseline_max_global_position b;
  migration_timestamp := bc_migration_timestamp b |}.

Definition emit_once (h : EventstoreCheckpointHandler)
    : prog LogWorld CheckpointCycleError CheckpointToEmit :=
  existing ← map_error AnchorReadFailed read_all_checkpoints;
  snapshot ← map_error HeadSnapshotFailed snapshot_live_chain;
  now ← utc_now;
  let checkpoint := build_checkpoint CHAIN_FORMAT_VERSION existing (lc_heads snapshot)
                      (lc_sealed snapshot) (lc_max_global_position snapshot) now
                      (to_domain <$> ck_backfill_baseline h) in
  _ ← map_error AnchorWriteFailed (emit checkpoint);
  mret checkpoint.

Definition checkpoint_summary (cp : CheckpointToEmit) : Value :=
  VObject (map_collect [
    ("checkpoint_seq", uint_json (e_checkpoint_seq cp));
    ("max_global_position", uint_json (e_max_global_position cp));
    ("stream_count", uint_json (len (e_stream_heads cp)));
    ("sealed_count", uint_json (len (e_sealed_streams cp)));
    ("backfill_baseline", VBool (is_some (e_backfill_baseline cp)))]%string).

(** [EventstoreCheckpointHandler::run]. *)
Definition checkpoint_run (h : EventstoreCheckpointHandler) : log_prog TaskOutcome :=
  conclude (λ r, match r with
                 | Ok cp => TO_Completed (checkpoint_summary cp)
                 | Err e => TaskOutcome_fail (log_text (CheckpointCycleError_message e)) true
                 end) (emit_once h).

(** [CheckpointEmitterHookAdapter]. *)
Definition emit_checkpoint_now (h : EventstoreCheckpointHandler) : log_prog unit :=
  r ← conclude id (emit_once h);
  Done match r with
       | Ok _ => Ok ()
       | Err e => Err (Invariant (CheckpointCycleError_message e))
       end.

(** ** The archive task *)

Definition archive_summary (s : RetentionArchiveSummary) : Value :=
  VObject (map_collect [
    ("candidates", uint_json (candidates_visited s));
    ("archived", uint_json (archived s));
    ("deleted", uint_json (deleted s));
    ("skipped_non_terminal", uint_json (skipped_non_terminal s));
    ("skipped_floor_not_elapsed", uint_json (skipped_floor_not_elapsed s));
    ("skipped_meta_stream", uint_json (skipped_meta_stream s));
    ("skipped_already_sealed", uint_json (skipped_already_sealed s));
    ("skipped_unregistered_category", uint_json (skipped_unregistered_category s));
    ("skipped_stream_changed", uint_json (skipped_stream_changed s));
    ("errors", uint_json (sweep_errors s))]%string).

Definition unanchored_message (s : RetentionArchiveSummary) (e : DomainError) : fmt :=
  [Lit "eventstore-archive sealed "; ArgInt (len (sealed_stream_ids s)); Lit " stream(s) (archived=";
   ArgInt (archived s); Lit ", deleted="; ArgInt (deleted s); Lit ", errors=";
   ArgInt (sweep_errors s); Lit ") but the anchoring checkpoint emission failed: "] ++
  DomainError_display e ++
  [Lit ". Sealed-but-unanchored: "; ArgStr (String.concat "," (sealed_stream_ids s))].

(** What the task reports once the sweep is over. *)
Definition anchor_seals (hook : option EventstoreCheckpointHandler) (s : RetentionArchiveSummary)
    : log_prog TaskOutcome :=
  match hook with
  | Some h =>
      if is_empty (sealed_stream_ids s) then mret (TO_Completed (archive_summary s))
      else
        r ← attempt (emit_checkpoint_now h);
        mret match r with
             | Ok _ => TO_Completed (archive_summary s)
             | Err e => TaskOutcome_fail (log_text (unanchored_message s e)) false
             end
  | None => mret (TO_Completed (archive_summary s))
  end.

(** [EventStoreArchiveHandler::run]. *)
Definition archive_run (h : EventStoreArchiveHandler) : log_prog TaskOutcome :=
  now ← utc_now;
  r ← attempt (archive_terminal_streams (ah_retention h) now);
  match r with
  | Ok s => anchor_seals (ah_checkpoint_hook h) s
  | Err e =>
      mret (TaskOutcome_fail
              (log_text (Lit "archive_terminal_streams failed: " :: DomainError_display e)) true)
  end.
End retention.
