(* ===== verification/EventLogSafety.v ===== *)
(** What every writer of the event store keeps, in every order of their calls.

    Streams are chains of contiguous rows until somebody writes to one that was sealed
    ([revived]); tombstones decode and are never removed; and every head a stored
    checkpoint states is still in its stream, or the stream was sealed ([log_inv]).
    Other handlers only extend streams or seal them ([evolves]).  A handler that removes
    a row removes its whole stream, with a tombstone that names its head, for a stream
    the sweep proved ([removals_proven]). *)

From S2P Require Import Prelude.
From S2P Require Import RustStd.
From S2P Require Import Json.
From S2P Require Import Types.
From S2P Require Import Events.
From S2P Require Import Store.
From S2P Require Import Concurrent.
From S2P Require Import EventChain.
From S2P Require Import ChainAnchor.
From S2P Require Import ChainVerify.
From S2P Require Import CheckpointObject.
From S2P Require Import EventLog.
From S2P Require Import EventRetention.
From coqutil Require Import Datatypes.RecordSetters.
Import DoubleBraceUpdate.

Lemma filter_every {A} (P : A → Prop) `{∀ x, Decision (P x)} (l : list A) :
  (∀ x, x ∈ l → P x) → filter P l = l.
Proof.
  induction l as [| x l IH]; intros Hl; [done |]. rewrite filter_cons_True by (apply Hl; left).
  f_equal. apply IH. set_solver.
Qed.

Lemma filter_none {A} (P : A → Prop) `{∀ x, Decision (P x)} (l : list A) :
  (∀ x, x ∈ l → ¬ P x) → filter P l = [].
Proof.
  induction l as [| x l IH]; intros Hl; [done |]. rewrite filter_cons_False by (apply Hl; left).
  apply IH. set_solver.
Qed.

(** ** The table *)

Section table.
Implicit Types (rows : list EventRow) (r : EventRow).

Lemma elem_of_rows_of sid rows r : r ∈ rows_of sid rows ↔ r ∈ rows ∧ er_stream r = sid.
Proof. unfold rows_of. rewrite sort_by_Permutation, list_elem_of_filter. naive_solver. Qed.

Lemma len_rows_of sid rows : len (rows_of sid rows) = len (filter (λ r, er_stream r = sid) rows).
Proof. unfold rows_of, len. by rewrite sort_by_Permutation. Qed.

Lemma rows_of_removed target rows : rows_of target (filter (λ r, er_stream r ≠ target) rows) = [].
Proof.
  destruct (rows_of target _) as [| r l] eqn:E; [done |].
  assert (r ∈ rows_of target (filter (λ r, er_stream r ≠ target) rows)) as Hr by (rewrite E; left).
  apply elem_of_rows_of in Hr as [[? _]%list_elem_of_filter ?]. done.
Qed.

Lemma rows_of_kept sid target rows :
  sid ≠ target → rows_of sid (filter (λ r, er_stream r ≠ target) rows) = rows_of sid rows.
Proof.
  intros Hne. unfold rows_of. f_equal. rewrite list_filter_filter. apply list_filter_iff.
  naive_solver.
Qed.

Lemma rows_of_other sid rows new :
  (∀ r, r ∈ new → er_stream r ≠ sid) → rows_of sid (rows ++ new) = rows_of sid rows.
Proof.
  intros Hnew. unfold rows_of. rewrite filter_app.
  replace (filter _ new) with (@nil EventRow); [by rewrite app_nil_r |].
  symmetry. by apply filter_none.
Qed.

Lemma position_leb_sorted rows :
  StronglySorted (λ a b, er_position a < er_position b) rows → sort_by position_leb rows = rows.
Proof.
  induction 1 as [| r rows Hs IH Hr]; [done |].
  change (insert_by position_leb r (sort_by position_leb rows) = r :: rows). rewrite IH.
  destruct rows as [| r' rows]; [done |]. cbn. apply Forall_inv in Hr. unfold position_leb.
  by rewrite (proj2 (Z.leb_le _ _)) by lia.
Qed.

(** Rows behind the end of their stream. *)
Lemma rows_of_extended sid rows new :
  (∀ r, r ∈ new → er_stream r = sid) →
  StronglySorted (λ a b, er_position a < er_position b) new →
  (∀ r r', r ∈ rows_of sid rows → r' ∈ new → er_position r < er_position r') →
  rows_of sid (rows ++ new) = rows_of sid rows ++ new.
Proof.
  intros Hnew Hs Hgt. unfold rows_of. rewrite filter_app.
  replace (filter (λ r, er_stream r = sid) new) with new.
  - rewrite sort_by_app, (position_leb_sorted new) by
      (try done; intros x y Hx Hy; apply Z.leb_le; specialize (Hgt x y); unfold rows_of in Hgt;
       rewrite sort_by_Permutation in Hgt; specialize (Hgt Hx Hy); lia).
    done.
  - symmetry. by apply filter_every.
Qed.
End table.

(** ** Names and tombstones *)

Section data.
Context `{LogBackend, SerdeJson}.

Lemma split_dash_display (c : StreamCategory) t :
  split_dash (display c +:+ "-" +:+ t) = Some (display c, t).
Proof. by destruct c. Qed.

Lemma category_round_trip c : category_from_str (display c) = Some c.
Proof. by destruct c. Qed.

Lemma StreamId_round_trip s : StreamId_from_str (StreamId_display s) = Ok s.
Proof.
  unfold StreamId_from_str, StreamId_display.
  rewrite split_dash_display, category_round_trip, uuid_parse_to_string. by destruct s.
Qed.

Lemma StreamId_display_inj s t : StreamId_display s = StreamId_display t → s = t.
Proof.
  intros Heq. pose proof (StreamId_round_trip s) as Hs. rewrite Heq, StreamId_round_trip in Hs.
  by injection Hs.
Qed.

Lemma bytes_round_trip (h : list byte) :
  mapM (as_u8) ((λ b, uint_json (Z_of_byte b)) <$> h) = Some (Z_of_byte <$> h).
Proof.
  induction h as [| b h IH]; [done |]. rewrite !fmap_cons. cbn [mapM]. unfold as_u8. cbn.
  pose proof (Z_of_byte_range b). rewrite (proj2 (Z.ltb_lt _ _)) by lia. cbn.
  unfold as_u8 in IH. cbn in IH. by rewrite IH.
Qed.

Lemma bytes_of_Z_of_bytes (h : list byte) : byte_of_Z <$> (Z_of_byte <$> h) = h.
Proof. induction h as [| b h IH]; [done |]. cbn. by rewrite byte_of_Z_of_byte, IH. Qed.

Lemma StreamSealed_round_trip e :
  length (ss_final_event_hash e) = 32%nat →
  StreamSealed_from_json (StreamSealed_to_json e) = Some e.
Proof.
  intros Hl. unfold StreamSealed_to_json, StreamSealed_from_json. cbn [as_object].
  set (m := map_collect _).
  assert (map_get "sealed_stream_id" m = Some (VString (ss_sealed_stream_id e))) as E1 by reflexivity.
  assert (map_get "sealed_stream_category" m = Some (VString (ss_sealed_stream_category e)))
    as E2 by reflexivity.
  assert (map_get "final_stream_position" m = Some (uint_json (ss_final_stream_position e)))
    as E3 by reflexivity.
  assert (map_get "final_event_hash" m =
          Some (VArray ((λ b, uint_json (Z_of_byte b)) <$> ss_final_event_hash e))) as E4 by reflexivity.
  assert (map_get "event_count" m = Some (uint_json (ss_event_count e))) as E5 by reflexivity.
  assert (map_get "retention_policy_id" m = Some (uuid_json (ss_retention_policy_id e)))
    as E6 by reflexivity.
  assert (map_get "actor_id" m = Some (match ss_actor_id e with Some u => uuid_json u | None => VNull end))
    as E7 by reflexivity.
  clearbody m. cbn. rewrite E1, E2, E3, E4, E5, E6, E7. cbn. rewrite bytes_round_trip. cbn.
  rewrite bool_decide_true by (by rewrite length_fmap). cbn. unfold as_uuid. cbn.
  rewrite bytes_of_Z_of_bytes, uuid_parse_to_string. cbn.
  destruct e as [sid cat pos h n pol [a |]]; cbn; by rewrite ?uuid_parse_to_string.
Qed.

(** What the tombstone says is what the readers see. *)
Lemma sealed_record_round_trip e :
  length (ss_final_event_hash e) = 32%nat →
  sealed_record_from_row (tombstone_json e) =
    Ok {| ChainAnchor.sealed_stream_id := ss_sealed_stream_id e;
          final_event_hash := ss_final_event_hash e |}.
Proof.
  intros Hl. unfold sealed_record_from_row, tombstone_json.
  assert (as_object (VObject (map_collect [("type", VString "StreamSealed");
            ("data", StreamSealed_to_json e)]%string)) ≫= map_get "data" =
          Some (StreamSealed_to_json e)) as -> by reflexivity.
  by rewrite StreamSealed_round_trip.
Qed.
End data.

(** ** Chains of rows *)

Section chain.
Context `{LogBackend, SerdeJson, ChainPrimitives}.
Implicit Types (rows : list EventRow) (r : EventRow).

Fixpoint chained (prev : EventHash) (pos : Z) (rows : list EventRow) : Prop :=
  match rows with
  | [] => True
  | r :: rows' =>
      er_position r = pos ∧ cr_stored_prev (er_chain r) = prev ∧ chained (er_hash r) (pos + 1) rows'
  end.

Definition head_hash (prev : EventHash) rows : EventHash :=
  match last rows with Some r => er_hash r | None => prev end.

Definition sound_row (r : EventRow) : Prop :=
  er_hash r = compute_event_hash (input (as_stream_row (er_chain r))) ∧
  length (cr_stored_prev (er_chain r)) = 32%nat.

Lemma sound_row_len r : sound_row r → length (er_hash r) = 32%nat.
Proof. intros [-> _]. apply sha256_len. Qed.

Lemma head_hash_cons prev r rows : head_hash prev (r :: rows) = head_hash (er_hash r) rows.
Proof.
  unfold head_hash. rewrite last_cons. by destruct (last rows).
Qed.

Lemma chained_app prev pos rows1 rows2 :
  chained prev pos (rows1 ++ rows2) ↔
  chained prev pos rows1 ∧ chained (head_hash prev rows1) (pos + len rows1) rows2.
Proof.
  revert prev pos. induction rows1 as [| r rows1 IH]; intros prev pos; cbn [app chained].
  - unfold head_hash, len. cbn. rewrite Z.add_0_r. naive_solver.
  - rewrite IH, head_hash_cons.
    replace (pos + len (r :: rows1)) with (pos + 1 + len rows1) by (unfold len; cbn; lia).
    naive_solver.
Qed.

Lemma chained_lookup prev pos rows i r :
  chained prev pos rows → rows !! i = Some r → er_position r = pos + Z.of_nat i.
Proof.
  revert prev pos i. induction rows as [| r' rows IH]; intros prev pos i Hc Hi; [done |].
  destruct Hc as (Hp & _ & Hc). destruct i as [| i]; cbn in Hi; [simplify_eq; lia |].
  rewrite (IH _ _ _ Hc Hi). lia.
Qed.

Lemma chained_elem prev pos rows r :
  chained prev pos rows → r ∈ rows → pos ≤ er_position r < pos + len rows.
Proof.
  intros Hc (i & Hi)%list_elem_of_lookup. rewrite (chained_lookup _ _ _ _ _ Hc Hi).
  apply lookup_lt_Some in Hi. unfold len. lia.
Qed.

Lemma chained_sorted prev pos rows :
  chained prev pos rows → StronglySorted (λ a b, er_position a < er_position b) rows.
Proof.
  revert prev pos. induction rows as [| r rows IH]; intros prev pos Hc; [constructor |].
  destruct Hc as (Hp & _ & Hc). constructor; [by eapply IH |].
  apply Forall_forall. intros r' Hr'. pose proof (chained_elem _ _ _ _ Hc Hr'). lia.
Qed.

Lemma chained_last prev rows r :
  chained prev 0 rows → last rows = Some r → er_position r = len rows - 1.
Proof.
  intros Hc Hl. destruct rows as [| r' rows]; [done |]. rewrite last_lookup in Hl.
  rewrite (chained_lookup _ _ _ _ _ Hc Hl). unfold len. cbn. lia.
Qed.

(** A row at the position behind a chain is in every longer one. *)
Lemma chained_next prev rows0 rows :
  chained prev 0 rows → rows0 `prefix_of` rows →
  rows = rows0 ∨ ∃ r, r ∈ rows ∧ er_position r = len rows0.
Proof.
  intros Hc [k ->]. destruct k as [| r k]; [left; by rewrite app_nil_r | right].
  exists r. split; [set_solver |]. apply chained_app in Hc as [_ [Hp _]]. lia.
Qed.

(** *** Batches *)

Lemma insert_rows_Ok n i at_ new rows rows' :
  insert_events n i at_ new rows = Ok rows' →
  ∃ added, rows' = rows ++ added ∧ er_chain <$> added = new ∧
    ∀ (c : ChainRow) row, c ∈ new → row ∈ rows → collides_with c row = false.
Proof.
  revert i rows. induction new as [| r new IH]; intros i rows Hi; cbn in Hi.
  { injection Hi as <-. exists []. split_and!; [by rewrite app_nil_r | done | set_solver]. }
  destruct (existsb _ rows) eqn:E; [done |].
  destruct (IH _ _ Hi) as (added & -> & Hadd & Hnew). rewrite existsb_False in E.
  eexists (_ :: added). split_and!; [by rewrite <- app_assoc | cbn; by rewrite Hadd |].
  intros r' row [-> | Hr']%elem_of_cons Hrow; [by apply E |]. apply Hnew; set_solver.
Qed.

Lemma collides_with_false (c : ChainRow) row :
  collides_with c row = false → er_stream row = cr_stream_id c →
  er_position row ≠ cr_stream_position c.
Proof.
  unfold collides_with. intros [Hf _]%orb_false_iff Hs. rewrite bool_decide_true in Hf by done.
  cbn in Hf. by apply Z.eqb_neq in Hf.
Qed.

Lemma chain_batch_chained b pos prev evs added :
  er_chain <$> added = chain_batch b pos prev evs → length prev = 32%nat →
  chained prev (pos + 1) added ∧
  ∀ r, r ∈ added → sound_row r ∧ er_stream r = StreamId_display (ae_stream_id b) ∧
    ∃ e, e ∈ evs ∧ er_type r = ta_event_type e ∧ cr_event_data (er_chain r) = ta_event_data e.
Proof.
  revert pos prev added. induction evs as [| e evs IH]; intros pos prev added Hadd Hl; cbn in Hadd.
  { apply fmap_nil_inv in Hadd as ->. split; [done | set_solver]. }
  destruct added as [| r added]; [done |]. rewrite fmap_cons in Hadd.
  injection Hadd as Hr Hadd.
  destruct (IH _ _ _ Hadd (sha256_len _)) as [Hc Hall].
  destruct r as [c gp t]. cbn in Hr. subst c. split.
  - cbn. split_and!; [done | done |]. exact Hc.
  - intros r' [-> | Hr']%elem_of_cons.
    + split_and!; [by split | done |]. exists e. split_and!; [left | done | done].
    + destruct (Hall r' Hr') as (Hs & Hst & e' & He' & ?). split_and!; [done | done |].
      exists e'. split; [by right | done].
Qed.
End chain.

(** ** The invariant *)

Section invariant.
Context `{LogBackend, SerdeJson, ChainPrimitives}.
Implicit Types (rows : list EventRow) (r : EventRow).

Definition sealed_in rows (sid : string) : Prop :=
  ∃ r rec, r ∈ seal_rows rows ∧ sealed_record_from_row (cr_event_data (er_chain r)) = Ok rec ∧
    ChainAnchor.sealed_stream_id rec = sid.

(** Somebody wrote to the stream after it was sealed. *)
Definition revived rows (sid : string) : Prop := sealed_in rows sid ∧ rows_of sid rows ≠ [].

(** The stream has the hash at the position. *)
Definition borne_out rows (sid : string) (p : Z) (h : EventHash) : Prop :=
  ∃ r, r ∈ rows_of sid rows ∧ er_position r = p ∧ er_hash r = h.

Record table_inv rows : Prop := {
  ti_named : ∀ r, r ∈ rows → ∃ s, er_stream r = StreamId_display s;
  ti_sound : ∀ r, r ∈ rows → sound_row r;
  ti_position : ∀ r, r ∈ rows → 0 ≤ er_position r;
  ti_chain : ∀ sid, ¬ sealed_in rows sid → chained genesis_hash 0 (rows_of sid rows);
  ti_meta : ¬ sealed_in rows retention_stream_id;
  ti_seals : ∀ r, r ∈ seal_rows rows →
    ∃ rec, sealed_record_from_row (cr_event_data (er_chain r)) = Ok rec;
}.

(** What other transactions do to the table: streams grow at their end, or are sealed. *)
Record evolves rows rows' : Prop := {
  ev_sealed : ∀ sid, sealed_in rows sid → sealed_in rows' sid;
  ev_rows : ∀ sid, sealed_in rows' sid ∨ rows_of sid rows `prefix_of` rows_of sid rows';
}.

#[export] Instance evolves_preorder : PreOrder evolves.
Proof.
  split.
  - intros rows. split; [done |]. intros sid. by right.
  - intros rows1 rows2 rows3 [Hs1 Hr1] [Hs2 Hr2]. split; [by auto |]. intros sid.
    destruct (Hr2 sid) as [? | Hp2]; [by left |]. destruct (Hr1 sid) as [? | Hp1]; [left; auto |].
    right. by etrans.
Qed.

Lemma sealed_in_meta rows rows' sid :
  rows_of retention_stream_id rows `prefix_of` rows_of retention_stream_id rows' →
  sealed_in rows sid → sealed_in rows' sid.
Proof.
  intros [k Hk] (r & rec & Hr & Hrec). exists r, rec. split; [| done].
  unfold seal_rows in *. rewrite Hk, filter_app. set_solver.
Qed.

Lemma borne_out_prefix rows rows' sid p h :
  rows_of sid rows `prefix_of` rows_of sid rows' → borne_out rows sid p h → borne_out rows' sid p h.
Proof. intros [k Hk] (r & Hr & Hrest). exists r. rewrite Hk. set_solver. Qed.

(** What a checkpoint stated stays true, or its stream is sealed. *)
Lemma borne_out_evolves rows rows' sid p h :
  evolves rows rows' → sealed_in rows sid ∨ borne_out rows sid p h →
  sealed_in rows' sid ∨ borne_out rows' sid p h.
Proof.
  intros [Hs Hr] [? | Hb]; [left; auto |]. destruct (Hr sid) as [? | Hp]; [by left |].
  right. by eapply borne_out_prefix.
Qed.

Lemma ti_width rows r : table_inv rows → r ∈ rows → length (er_hash r) = 32%nat.
Proof. intros Ht Hr. by apply sound_row_len, (ti_sound _ Ht). Qed.

Lemma tail_row_elem sid rows r : tail_row sid rows = Some r → r ∈ rows ∧ er_stream r = sid.
Proof. intros Hl%last_Some_elem_of. by apply elem_of_rows_of in Hl. Qed.

(** The predecessor a batch reads. *)
Lemma predecessor_Ok rows sid pos prev :
  table_inv rows → ¬ sealed_in rows sid → predecessor sid (tail_row sid rows) = Ok (pos, prev) →
  pos = len (rows_of sid rows) - 1 ∧ prev = head_hash genesis_hash (rows_of sid rows).
Proof.
  intros Ht Hn. unfold predecessor, tail_row, head_hash.
  destruct (last (rows_of sid rows)) as [r |] eqn:E.
  - destruct (bool_decide _); [| done]. intros [= <- <-]. split; [| done].
    by eapply chained_last; [apply Ht |].
  - intros [= <- <-]. apply last_None in E. by rewrite E.
Qed.

Lemma predecessor_len sid tail pos prev :
  predecessor sid tail = Ok (pos, prev) → length prev = 32%nat.
Proof.
  unfold predecessor. destruct tail as [r |]; [case_bool_decide; [| done] |]; intros [= <- <-]; [done |].
  apply sha256_len.
Qed.

Lemma predecessor_position rows sid pos prev :
  table_inv rows → predecessor sid (tail_row sid rows) = Ok (pos, prev) → -1 ≤ pos.
Proof.
  intros Ht. unfold predecessor. destruct (tail_row sid rows) as [r |] eqn:E.
  - case_bool_decide; [| done]. intros [= <- _]. apply tail_row_elem in E as [Hr _].
    pose proof (ti_position _ Ht r Hr). lia.
  - intros [= <- _]. lia.
Qed.

(** A batch that may be appended: only the seal writes tombstones. *)
Definition tombstones_ok (b : AppendEvents) : Prop :=
  StreamId_display (ae_stream_id b) = retention_stream_id →
  ∀ e, e ∈ ae_events b → ta_event_type e = "StreamSealed"%string →
  ∃ rec, sealed_record_from_row (ta_event_data e) = Ok rec ∧
    ChainAnchor.sealed_stream_id rec ≠ retention_stream_id.

(** The rows of a batch come behind everything the stream has, if it is not sealed. *)
Lemma batch_behind rows0 rows b pos prev n at_ rows' :
  let sid := StreamId_display (ae_stream_id b) in
  table_inv rows0 → table_inv rows → evolves rows0 rows → ¬ sealed_in rows sid →
  predecessor sid (tail_row sid rows0) = Ok (pos, prev) →
  insert_events n 0 at_ (chain_batch b pos prev (ae_events b)) rows = Ok rows' →
  ∃ added, rows' = rows ++ added ∧ er_chain <$> added = chain_batch b pos prev (ae_events b) ∧
    rows_of sid rows' = rows_of sid rows ++ added ∧ chained genesis_hash 0 (rows_of sid rows') ∧
    (added ≠ [] → rows_of sid rows = rows_of sid rows0).
Proof.
  intros sid Ht0 Ht Hev Hn Hpre Hins.
  apply insert_rows_Ok in Hins as (added & -> & Hadd & Hfree).
  destruct (chain_batch_chained _ _ _ _ _ Hadd (predecessor_len _ _ _ _ Hpre)) as [Hc Hall].
  assert (¬ sealed_in rows0 sid) as Hn0 by (intros ?; by apply Hn, Hev).
  destruct (predecessor_Ok _ _ _ _ Ht0 Hn0 Hpre) as [Hpos Hprev].
  pose proof (ti_chain _ Ht sid Hn) as Hcr.
  destruct (ev_rows _ _ Hev sid) as [? | Hpref]; [done |].
  exists added. split; [done |]. split; [done |].
  destruct added as [| a added].
  { rewrite !app_nil_r. done. }
  assert (rows_of sid rows = rows_of sid rows0) as Heq.
  { destruct (chained_next _ _ _ Hcr Hpref) as [? | (r & Hr & Hp)]; [done | exfalso].
    apply elem_of_rows_of in Hr as [Hr Hs]. destruct (Hall a ltac:(left)) as (_ & Has & _).
    assert (er_position a = pos + 1) as Hap by apply Hc.
    refine (collides_with_false (er_chain a) r _ _ _).
    - apply Hfree; [| done]. rewrite <- Hadd. by left.
    - unfold er_stream in Has. by rewrite Hs, Has.
    - unfold er_position in Hap |- *. fold (er_position r). lia. }
  assert (rows_of sid (rows ++ a :: added) = rows_of sid rows ++ a :: added) as Hr.
  { apply rows_of_extended; [intros r Hr; by apply Hall | by eapply chained_sorted |].
    intros r r' Hr Hr'. pose proof (chained_elem _ _ _ _ Hcr Hr).
    pose proof (chained_elem _ _ _ _ Hc Hr'). rewrite Heq in *. lia. }
  split_and!; [done | | done]. rewrite Hr, chained_app. split; [done |].
  rewrite Heq. replace (0 + len (rows_of sid rows0)) with (pos + 1) by lia. by rewrite <- Hprev.
Qed.

#[export] Instance sealed_in_dec rows sid : Decision (sealed_in rows sid).
Proof.
  destruct (decide (sid ∈ omap (λ r, match sealed_record_from_row (cr_event_data (er_chain r)) with
      | Ok rec => Some (ChainAnchor.sealed_stream_id rec) | Err _ => None end) (seal_rows rows)))
    as [Hin | Hout]; [left | right].
  - apply list_elem_of_omap in Hin as (r & Hr & Hrec).
    destruct (sealed_record_from_row _) as [rec |] eqn:E; [| done]. injection Hrec as <-.
    by exists r, rec.
  - intros (r & rec & Hr & Hrec & <-). apply Hout, list_elem_of_omap. exists r. by rewrite Hrec.
Defined.

(** Every tombstone of the new table was there, or came with the batch. *)
Lemma seal_rows_app rows added :
  rows_of retention_stream_id (rows ++ added) = rows_of retention_stream_id rows ++ added →
  seal_rows (rows ++ added) = seal_rows rows ++ filter (λ r, er_type r = "StreamSealed"%string) added.
Proof. intros Heq. unfold seal_rows. by rewrite Heq, filter_app. Qed.

Lemma seal_rows_same rows rows' :
  rows_of retention_stream_id rows' = rows_of retention_stream_id rows → seal_rows rows' = seal_rows rows.
Proof. unfold seal_rows. by intros ->. Qed.

Lemma sealed_in_same rows rows' sid :
  seal_rows rows' = seal_rows rows → sealed_in rows' sid ↔ sealed_in rows sid.
Proof. unfold sealed_in. by intros ->. Qed.

(** What an append does to the tombstones. *)
Lemma insert_seals rows0 rows b pos prev n at_ rows' :
  let sid := StreamId_display (ae_stream_id b) in
  table_inv rows0 → table_inv rows → evolves rows0 rows → tombstones_ok b →
  predecessor sid (tail_row sid rows0) = Ok (pos, prev) →
  insert_events n 0 at_ (chain_batch b pos prev (ae_events b)) rows = Ok rows' →
  rows_of retention_stream_id rows `prefix_of` rows_of retention_stream_id rows' ∧
  ∀ r, r ∈ seal_rows rows' → r ∈ seal_rows rows ∨
    ∃ rec, sealed_record_from_row (cr_event_data (er_chain r)) = Ok rec ∧
      ChainAnchor.sealed_stream_id rec ≠ retention_stream_id.
Proof.
  intros sid Ht0 Ht Hev Htomb Hpre Hins.
  destruct (decide (sid = retention_stream_id)) as [Hm | Hm].
  - destruct (batch_behind rows0 rows b pos prev n at_ rows' Ht0 Ht Hev) as (added & -> & Hadd & Hr & _);
      [fold sid; rewrite Hm; apply Ht | done | done |].
    fold sid in Hr. rewrite Hm in Hr. split; [rewrite Hr; by eexists |].
    intros r. rewrite (seal_rows_app _ _ Hr), elem_of_app, list_elem_of_filter.
    intros [? | [Hty Hin]]; [by left | right].
    destruct (chain_batch_chained _ _ _ _ _ Hadd (predecessor_len _ _ _ _ Hpre)) as [_ Hall].
    destruct (Hall r Hin) as (_ & _ & e & He & Het & ->). apply (Htomb Hm e He). congruence.
  - pose proof Hins as (added & -> & Hadd & _)%insert_rows_Ok.
    destruct (chain_batch_chained _ _ _ _ _ Hadd (predecessor_len _ _ _ _ Hpre)) as [_ Hall].
    assert (rows_of retention_stream_id (rows ++ added) = rows_of retention_stream_id rows) as Heq.
    { apply rows_of_other. intros r Hr. destruct (Hall r Hr) as (_ & -> & _). exact Hm. }
    rewrite Heq. split; [done |]. intros r. rewrite (seal_rows_same _ _ Heq). by left.
Qed.

(** An append keeps the table's invariant. *)
Lemma insert_step rows0 rows b pos prev n at_ rows' :
  let sid := StreamId_display (ae_stream_id b) in
  table_inv rows0 → table_inv rows → evolves rows0 rows → tombstones_ok b →
  predecessor sid (tail_row sid rows0) = Ok (pos, prev) →
  insert_events n 0 at_ (chain_batch b pos prev (ae_events b)) rows = Ok rows' →
  table_inv rows' ∧ evolves rows rows'.
Proof.
  intros sid Ht0 Ht Hev Htomb Hpre Hins.
  destruct (insert_seals _ _ _ _ _ _ _ _ Ht0 Ht Hev Htomb Hpre Hins) as [Hmeta Hseals].
  pose proof Hins as (added & Hrows' & Hadd & _)%insert_rows_Ok.
  destruct (chain_batch_chained _ _ _ _ _ Hadd (predecessor_len _ _ _ _ Hpre)) as [Hc Hall].
  assert (∀ x, sealed_in rows x → sealed_in rows' x) as Hmono
    by (intros x; by apply sealed_in_meta).
  assert (∀ x, x ≠ sid → rows_of x rows' = rows_of x rows) as Hother.
  { intros x Hx. rewrite Hrows'. apply rows_of_other. intros r Hr.
    destruct (Hall r Hr) as (_ & -> & _). by intros <-. }
  split; split.
  - rewrite Hrows'. intros r [Hr | Hr]%elem_of_app; [by apply Ht |].
    exists (ae_stream_id b). by apply Hall.
  - rewrite Hrows'. intros r [Hr | Hr]%elem_of_app; [by apply Ht | by apply Hall].
  - rewrite Hrows'. intros r [Hr | Hr]%elem_of_app; [by apply Ht |].
    pose proof (chained_elem _ _ _ _ Hc Hr). pose proof (predecessor_position _ _ _ _ Ht0 Hpre). lia.
  - intros x Hx. assert (¬ sealed_in rows x) as Hn by auto.
    destruct (decide (x = sid)) as [-> | Hne]; [| rewrite Hother by done; by apply Ht].
    by destruct (batch_behind _ _ _ _ _ _ _ _ Ht0 Ht Hev Hn Hpre Hins) as (? & _ & _ & _ & ? & _).
  - intros (r & rec & Hr & Hrec & Hid). destruct (Hseals r Hr) as [Hold | (rec' & Hrec' & Hne)].
    + apply (ti_meta _ Ht). by exists r, rec.
    + congruence.
  - intros r Hr. destruct (Hseals r Hr) as [Hold | (rec' & Hrec' & _)]; [by apply Ht | by eexists].
  - done.
  - intros x. destruct (decide (x = sid)) as [-> | Hne]; [| right; by rewrite Hother].
    destruct (decide (sealed_in rows sid)) as [? | Hn]; [left; auto | right].
    destruct (batch_behind _ _ _ _ _ _ _ _ Ht0 Ht Hev Hn Hpre Hins) as (added' & _ & _ & Heq & _).
    exists added'. exact Heq.
Qed.

(** So does the removal of a stream that has its tombstone. *)
Lemma remove_step rows target :
  table_inv rows → sealed_in rows target →
  let rows' := filter (λ r, er_stream r ≠ target) rows in
  table_inv rows' ∧ evolves rows rows' ∧ seal_rows rows' = seal_rows rows.
Proof.
  intros Ht Hs rows'.
  assert (target ≠ retention_stream_id) as Hm by (intros ->; by apply (ti_meta _ Ht)).
  assert (seal_rows rows' = seal_rows rows) as Hseal
    by (apply seal_rows_same, rows_of_kept; by apply not_eq_sym).
  assert (∀ x, sealed_in rows' x ↔ sealed_in rows x) as Hiff by (intros x; by apply sealed_in_same).
  split_and!; [| | done]; split.
  - intros r [_ Hr]%list_elem_of_filter. by apply Ht.
  - intros r [_ Hr]%list_elem_of_filter. by apply Ht.
  - intros r [_ Hr]%list_elem_of_filter. by apply Ht.
  - intros x. rewrite Hiff. intros Hx. unfold rows'.
    destruct (decide (x = target)) as [-> | Hne]; [done |]. rewrite rows_of_kept by done. by apply Ht.
  - rewrite Hiff. apply Ht.
  - rewrite Hseal. apply Ht.
  - intros x. by rewrite Hiff.
  - intros x. rewrite Hiff. unfold rows'. destruct (decide (x = target)) as [-> | Hne]; [by left | right].
    by rewrite rows_of_kept.
Qed.
End invariant.

(** ** Steps *)

Section steps.
Context `{LogBackend, SerdeJson, ChainPrimitives, AnchorPrimitives}.
Context (rules : list CategoryRetentionRule).
Implicit Types (rows : list EventRow) (r : EventRow) (w : LogWorld).

Record log_inv w : Prop := {
  li_table : table_inv (log_rows w);
  li_anchored : ∀ sid p h, anchored (stored_checkpoints w) sid p h →
    sealed_in (log_rows w) sid ∨ borne_out (log_rows w) sid p h;
}.

Record log_rely w w' : Prop := {
  lr_rows : evolves (log_rows w) (log_rows w');
  lr_calls : (log_calls w ≤ log_calls w')%nat;
}.

#[export] Instance log_rely_preorder : PreOrder log_rely.
Proof.
  split; [by intros w; split |]. intros w1 w2 w3 [] []. split; [by etrans | lia].
Qed.

Lemma log_rely_time w w' : log_rely w w' → log_time w ≤ log_time w'.
Proof. intros [_ Hc]. by apply log_clock_mono. Qed.

(** What the sweep has to have proven: the stream ends as its rule wants, and one of its
    events is older than the floor. *)
Definition ends_as (mode : SealMode) rows : Prop :=
  match mode with
  | TerminalGated t => ∃ r, last rows = Some r ∧ er_type r = t
  | AgeGated => True
  end.

Definition past_floor (floor : Duration) (now : DateTime) rows : Prop :=
  ∃ r, r ∈ rows ∧ floor ≤ signed_duration_since now (er_stored_at r).

Definition lawful (sid : string) (now : DateTime) rows : Prop :=
  ∃ s rule, sid = StreamId_display s ∧ rule ∈ rules ∧ cr_category rule = si_category s ∧
    ends_as (cr_mode rule) rows ∧ past_floor (cr_floor rule) now rows.

(** A stream is removed as a whole, with a tombstone that names its head and its length. *)
Definition removal w w' (sid : string) : Prop :=
  rows_of sid (log_rows w') = [] ∧
  ∃ t e, rows_of retention_stream_id (log_rows w') = rows_of retention_stream_id (log_rows w) ++ [t] ∧
    er_type t = "StreamSealed"%string ∧ cr_event_data (er_chain t) = tombstone_json e ∧
    ss_sealed_stream_id e = sid ∧ ss_event_count e = len (rows_of sid (log_rows w)) ∧
    (sealed_in (log_rows w) sid ∨
     ss_final_event_hash e = head_hash genesis_hash (rows_of sid (log_rows w)) ∧
     lawful sid (log_time w) (rows_of sid (log_rows w))).

Definition removals_proven w w' : Prop :=
  ∀ r, r ∈ log_rows w → r ∉ log_rows w' → removal w w' (er_stream r).

(** A stream with a tombstone is empty or as it was before. *)
Definition tidy w w' : Prop :=
  ∀ sid, sealed_in (log_rows w') sid →
    rows_of sid (log_rows w') = [] ∨
    sealed_in (log_rows w) sid ∧ rows_of sid (log_rows w') = rows_of sid (log_rows w).

Definition log_guar w w' : Prop := log_rely w w' ∧ removals_proven w w'.

Definition housekeeping w w' : Prop := log_guar w w' ∧ tidy w w'.

Lemma housekeeping_same w w' :
  log_rows w' = log_rows w → (log_calls w ≤ log_calls w')%nat → housekeeping w w'.
Proof.
  intros Hr Hc. split; [split; [split; [by rewrite Hr | done] |] |].
  - intros r. by rewrite Hr.
  - intros sid. rewrite Hr. auto.
Qed.

Lemma housekeeping_tick w w' : housekeeping w w' → housekeeping w (log_tick w').
Proof.
  intros [[[Hr Hc] Hrem] Ht]. split; [split; [split |] |]; try done. etrans; [done |]. apply Nat.le_succ_diag_r.
Qed.

Lemma log_inv_tick w : log_inv w → log_inv (log_tick w).
Proof. intros [Ht Ha]. by split. Qed.

Lemma log_inv_rows w rows :
  log_inv w → table_inv rows → evolves (log_rows w) rows → log_inv (w {{ log_rows := rows }}).
Proof.
  intros [Ht Ha] Ht' Hev. split; [done |]. intros sid p h Hanch. cbn.
  eapply borne_out_evolves; [done |]. by apply Ha.
Qed.

(** *** Facts that other handlers leave alone *)

(** The first [p + 1] rows of the stream satisfy [P], unless it was sealed. *)
Definition at_tail (P : list EventRow → Prop) (sid : string) (p : Z) w : Prop :=
  sealed_in (log_rows w) sid ∨
  ∃ rows0, rows0 `prefix_of` rows_of sid (log_rows w) ∧ len rows0 = p + 1 ∧ P rows0.

Definition has_event_at (sid : string) (t : DateTime) w : Prop :=
  sealed_in (log_rows w) sid ∨ ∃ r, r ∈ rows_of sid (log_rows w) ∧ er_stored_at r = t.

Lemma at_tail_rely P sid p w w' : log_rely w w' → at_tail P sid p w → at_tail P sid p w'.
Proof.
  intros [[Hs Hr] _] [? | (rows0 & Hp & Hrest)]; [left; auto |].
  destruct (Hr sid) as [? | Hpre]; [by left | right]. exists rows0. split; [by etrans | done].
Qed.

Lemma has_event_rely sid t w w' : log_rely w w' → has_event_at sid t w → has_event_at sid t w'.
Proof.
  intros [[Hs Hr] _] [? | (r & Hin & Ht)]; [left; auto |].
  destruct (Hr sid) as [? | [k Hk]]; [by left | right]. exists r. rewrite Hk. set_solver.
Qed.

(** The license of one seal. *)
Definition licensed (s : StreamId) (p : Z) w : Prop :=
  ∃ rule first now, rule ∈ rules ∧ cr_category rule = si_category s ∧
    at_tail (ends_as (cr_mode rule)) (StreamId_display s) p w ∧
    has_event_at (StreamId_display s) first w ∧
    cr_floor rule ≤ signed_duration_since now first ∧ now ≤ log_time w.

Lemma licensed_rely s p w w' : log_rely w w' → licensed s p w → licensed s p w'.
Proof.
  intros Hr (rule & first & now & ? & ? & ? & ? & ? & ?). exists rule, first, now.
  pose proof (log_rely_time _ _ Hr).
  split_and!; [done | done | by eapply at_tail_rely | by eapply has_event_rely | done | lia].
Qed.

(** When the stream still has as many rows as the license covers, its removal is lawful. *)
Lemma licensed_lawful s p w :
  licensed s p w → ¬ sealed_in (log_rows w) (StreamId_display s) →
  len (rows_of (StreamId_display s) (log_rows w)) = p + 1 →
  lawful (StreamId_display s) (log_time w) (rows_of (StreamId_display s) (log_rows w)).
Proof.
  intros (rule & first & now & Hreg & Hcat & Hends & Hold & Hfloor & Hpast) Hn Hlen.
  destruct Hends as [? | (rows0 & [k Hk] & Hl & Hends)]; [done |].
  destruct Hold as [? | (r & Hin & Hat)]; [done |].
  assert (k = []) as ->.
  { apply length_zero_iff_nil. rewrite Hk in Hlen. unfold len in *. rewrite length_app in Hlen. lia. }
  rewrite app_nil_r in Hk. exists s, rule. split_and!; [done | done | done | by rewrite Hk |].
  exists r. split; [done |]. unfold signed_duration_since in *. lia.
Qed.
End steps.
