(* ===== verification/EventRetentionSafety.v ===== *)
(** The handlers of the event store keep the invariant of EventLogSafety.v, whatever the
    others do between their calls: an append ([append_safe]), the retention sweep
    ([archive_run_safe]) and the checkpoint emission ([emit_once_safe]). *)

From S2P Require Import Prelude.
From S2P Require Import RustStd.
From S2P Require Import Json.
From S2P Require Import Types.
From S2P Require Import Events.
From S2P Require Import Store.
From S2P Require Import Concurrent.
From S2P Require Import TaskDispatch.
From S2P Require Import EventChain.
From S2P Require Import ChainAnchor.
From S2P Require Import ChainVerify.
From S2P Require Import CheckpointObject.
From S2P Require Import EventLog.
From S2P Require Import EventRetention.
From S2P Require Import EventLogSafety.
From coqutil Require Import Datatypes.RecordSetters.
Import DoubleBraceUpdate.

(** ** One transaction *)

Section transactions.
Context `{LogBackend, SerdeJson, ChainPrimitives, AnchorPrimitives}.
Context (rules : list CategoryRetentionRule).
Implicit Types (rows : list EventRow) (r : EventRow) (w : LogWorld).

Lemma append_step w0 w b pos prev at_ rows' :
  let sid := StreamId_display (ae_stream_id b) in
  log_inv w0 → log_inv w → log_rely w0 w → tombstones_ok b →
  predecessor sid (tail_row sid (log_rows w0)) = Ok (pos, prev) →
  insert_events (log_calls w) 0 at_ (chain_batch b pos prev (ae_events b)) (log_rows w) = Ok rows' →
  log_inv (w {{ log_rows := rows' }}) ∧ log_guar rules w (w {{ log_rows := rows' }}).
Proof.
  intros sid [Ht0 _] Hi [Hev _] Htomb Hpre Hins. pose proof (li_table _ Hi) as Ht.
  destruct (insert_step _ _ _ _ _ _ _ _ Ht0 Ht Hev Htomb Hpre Hins) as [Ht' Hev'].
  split; [by apply log_inv_rows |]. split; [by split |].
  apply insert_rows_Ok in Hins as (added & -> & _). intros r Hr Hn. exfalso. apply Hn. cbn. set_solver.
Qed.

(** What the last call of a seal does: nothing, or all of it. *)
Lemma remove_and_commit_inv target final count at_ tomb w w' o :
  remove_and_commit target final count at_ tomb w = (w', o) →
  (w' = w ∧ o ≠ Ok Sealed) ∨
  (o = Ok Sealed ∧ ∃ rows1, insert_events (log_calls w) 0 at_ tomb (log_rows w) = Ok rows1 ∧
     w' = w {{ log_rows := filter (λ r, er_stream r ≠ target) rows1 }} ∧
     (∀ r, r ∈ rows1 → er_stream r = target → er_position r ≤ final) ∧
     len (rows_of target rows1) = count) ∨
  (o = Ok Sealed ∧ count = 0).
Proof.
  unfold remove_and_commit. destruct (insert_events _ _ _ _ _) as [rows1 |]; [| intros [= <- <-]; auto].
  destruct retention_role_assumable; cbn [negb]; [| intros [= <- <-]; auto].
  destruct (existsb _ rows1) eqn:E.
  - destruct (Z.eqb_spec 0 count) as [<- |]; cbn [negb]; [| intros [= <- <-]; auto].
    intros [= _ <-]. auto.
  - destruct (Z.eqb_spec (len (filter (λ r, er_stream r = target) rows1)) count) as [Hc |];
      cbn [negb]; [| destruct (_ =? 0); intros [= <- <-]; auto].
    intros [= <- <-]. right. left. split; [done |]. exists rows1. split_and!; [done | done | | ].
    + rewrite existsb_False in E. intros r Hr Hs. specialize (E r Hr).
      rewrite bool_decide_true in E by done. cbn in E. by apply Z.ltb_ge in E.
    + by rewrite len_rows_of.
Qed.

(** The commit of a seal whose stream was read in [w0], and the stream of the tombstones
    in [w1]. *)
Section commit.
Context (s : StreamId) (w0 w1 w : LogWorld) (row : EventRow) (p pos : Z) (prev : EventHash).
Context (at_ : DateTime) (e : StreamSealed) (n : nat) (rows1 : list EventRow).
Context (inv0 : log_inv w0) (inv1 : log_inv w1) (inv : log_inv w).
Context (rely01 : log_rely w0 w1) (rely1 : log_rely w1 w).
Context (license : licensed rules s p w).
Context (tail0 : tail_row (StreamId_display s) (log_rows w0) = Some row).
Context (tail_p : er_position row = p).
Context (meta1 : predecessor retention_stream_id
                   (tail_row retention_stream_id (log_rows w1)) = Ok (pos, prev)).
Context (e_sid : ss_sealed_stream_id e = StreamId_display s).
Context (e_hash : ss_final_event_hash e = er_hash row).
Context (e_count : ss_event_count e = p + 1).
Context (inserted : insert_events (log_calls w) 0 at_
                      (chain_batch (seal_batch n (tombstone_json e)) pos prev
                         (ae_events (seal_batch n (tombstone_json e)))) (log_rows w) = Ok rows1).
Context (not_grown : ∀ r, r ∈ rows1 → er_stream r = StreamId_display s → er_position r ≤ p).
Context (counted : len (rows_of (StreamId_display s) rows1) = p + 1).

Let target := StreamId_display s.

Lemma tombstone_decodes :
  sealed_record_from_row (tombstone_json e) =
    Ok {| ChainAnchor.sealed_stream_id := target; final_event_hash := er_hash row |}.
Proof using All.
  apply tail_row_elem in tail0 as [Hr _].
  rewrite sealed_record_round_trip, e_sid, e_hash; [done |].
  rewrite e_hash. by eapply ti_width; [apply inv0 |].
Qed.

(** The tombstone ends up behind the stream of the tombstones. *)
Lemma tombstone_added :
  ∃ t, rows1 = log_rows w ++ [t] ∧ er_stream t = retention_stream_id ∧
    er_position t = pos + 1 ∧ er_type t = "StreamSealed"%string ∧
    cr_event_data (er_chain t) = tombstone_json e ∧
    rows_of retention_stream_id rows1 = rows_of retention_stream_id (log_rows w) ++ [t].
Proof using All.
  destruct (batch_behind (log_rows w1) (log_rows w) (seal_batch n (tombstone_json e)) pos prev
              (log_calls w) at_ rows1) as (added & -> & Hadd & Hr & _);
    [apply inv1 | apply inv | apply rely1 | apply inv | done | done |].
  destruct added as [| t [| ? ?]]; [done | | done]. injection Hadd as Ht. exists t.
  unfold er_stream, er_position, er_type. rewrite Ht. by split_and!.
Qed.

(** A seal never removes the tombstones: its own would be behind what it read. *)
Lemma target_not_meta : target ≠ retention_stream_id.
Proof using All.
  intros Hm. destruct tombstone_added as (t & Hrows & Hts & Htp & _).
  assert (er_position t ≤ p) as Hle.
  { apply not_grown; [rewrite Hrows; set_solver |]. by rewrite Hts, <- Hm. }
  destruct (predecessor_Ok _ _ _ _ (li_table _ inv1) (ti_meta _ (li_table _ inv1)) meta1) as [Hpos _].
  assert (p = len (rows_of retention_stream_id (log_rows w0)) - 1) as Hp.
  { rewrite <- tail_p. eapply chained_last; [apply inv0, inv0 |]. by rewrite <- Hm. }
  destruct (ev_rows _ _ (lr_rows _ _ rely01) retention_stream_id) as [Hs | [k Hk]].
  - by apply (ti_meta _ (li_table _ inv1)).
  - rewrite Hk in Hpos. unfold len in *. rewrite length_app in Hpos. lia.
Qed.

(** Unless it was sealed before, the stream is what was read. *)
Lemma stream_unchanged :
  ¬ sealed_in (log_rows w) target →
  rows_of target (log_rows w) = rows_of target (log_rows w0) ∧
  len (rows_of target (log_rows w)) = p + 1 ∧
  er_hash row = head_hash genesis_hash (rows_of target (log_rows w)).
Proof using All.
  intros Hn. destruct tombstone_added as (t & Hrows & Hts & _).
  assert (rows_of target rows1 = rows_of target (log_rows w)) as Heq.
  { rewrite Hrows. apply rows_of_other. intros r ->%list_elem_of_singleton.
    rewrite Hts. apply not_eq_sym, target_not_meta. }
  rewrite <- Heq. fold target in counted. rewrite counted.
  assert (log_rely w0 w) as [Hev _] by (by etrans).
  destruct (ev_rows _ _ Hev target) as [? | [k Hk]]; [done |].
  assert (p = len (rows_of target (log_rows w0)) - 1) as Hp.
  { rewrite <- tail_p. eapply chained_last; [| done]. apply inv0. intros ?. by apply Hn, Hev. }
  assert (k = []) as ->.
  { apply length_zero_iff_nil. rewrite Heq, Hk in counted. unfold len in *.
    rewrite length_app in counted. lia. }
  rewrite app_nil_r in Hk. rewrite Heq, Hk. split_and!; [done | done |].
  unfold head_hash. unfold tail_row in tail0. fold target in tail0. by rewrite tail0.
Qed.

Let w' := w {{ log_rows := filter (λ r, er_stream r ≠ target) rows1 }}.

Lemma seal_step : log_inv w' ∧ housekeeping rules w w'.
Proof using All.
  destruct tombstone_added as (t & Hrows & Hts & Htp & Htt & Htd & Hmeta).
  pose proof target_not_meta as Hm. pose proof (li_table _ inv) as Ht.
  assert (tombstones_ok (seal_batch n (tombstone_json e))) as Htomb.
  { intros _ e' ->%list_elem_of_singleton _. eexists. split; [apply tombstone_decodes | exact Hm]. }
  destruct (insert_step _ _ _ _ _ _ _ _ (li_table _ inv1) Ht (lr_rows _ _ rely1) Htomb meta1 inserted)
    as [Ht1 Hev1].
  assert (sealed_in rows1 target) as Hsealed.
  { exists t, {| ChainAnchor.sealed_stream_id := target; final_event_hash := er_hash row |}.
    split_and!; [| rewrite Htd; apply tombstone_decodes | done].
    unfold seal_rows. rewrite Hmeta, filter_app, elem_of_app, !list_elem_of_filter. set_solver. }
  destruct (remove_step _ _ Ht1 Hsealed) as (Ht2 & Hev2 & Hseal).
  assert (evolves (log_rows w) (log_rows w')) as Hev by (by etrans).
  split; [by apply log_inv_rows |]. split; [split; [by split |] |].
  - intros r Hr Hgone. assert (er_stream r = target) as ->.
    { destruct (decide (er_stream r = target)) as [| Hne]; [done | exfalso]. apply Hgone.
      apply list_elem_of_filter. split; [done |]. rewrite Hrows. set_solver. }
    split; [apply rows_of_removed |]. exists t, e.
    assert (rows_of target rows1 = rows_of target (log_rows w)) as Heq.
    { rewrite Hrows. apply rows_of_other. intros r' ->%list_elem_of_singleton. congruence. }
    split_and!; [| done | done | done | by rewrite <- Heq, e_count |].
    + etrans; [apply rows_of_kept; by apply not_eq_sym | done].
    + destruct (decide (sealed_in (log_rows w) target)) as [? | Hn]; [by left | right].
      destruct (stream_unchanged Hn) as (_ & Hlen & Hhead). split; [by rewrite e_hash |].
      by apply (licensed_lawful rules s p).
  - intros x Hx. destruct (decide (x = target)) as [-> | Hne]; [left; apply rows_of_removed | right].
    change (log_rows w') with (filter (λ r, er_stream r ≠ target) rows1) in *.
    rewrite rows_of_kept by done. apply (sealed_in_same _ rows1) in Hx; [| done].
    destruct Hx as (r & rec & Hr & Hrec & <-). unfold seal_rows in Hr.
    rewrite Hmeta, filter_app, elem_of_app in Hr. destruct Hr as [Hr | Hr].
    + split; [by exists r, rec |]. rewrite Hrows.
      destruct (decide (retention_stream_id = ChainAnchor.sealed_stream_id rec)) as [Heq | Hne'].
      * exfalso. apply (ti_meta _ Ht). by exists r, rec.
      * apply rows_of_other. intros r' ->%list_elem_of_singleton. by rewrite Hts.
    + exfalso. apply Hne. apply list_elem_of_filter in Hr as [_ ->%list_elem_of_singleton].
      rewrite Htd, tombstone_decodes in Hrec. by injection Hrec as <-.
Qed.
End commit.
End transactions.

(** ** Handlers

    [R] is what the others may do between two calls, and [X] any fact about the state
    that neither they nor a call without effect destroy. *)

Section handlers.
Context `{LogBackend, SerdeJson, ChainPrimitives, AnchorPrimitives}.
Context (rules : list CategoryRetentionRule).
Context (R : relation LogWorld) (R_rely : ∀ w w', R w w' → log_rely w w').
Context (X : LogWorld → Prop) (X_rely : ∀ w w', R w w' → X w → X w').
Context (X_tick : ∀ w, X w → X (log_tick w)).
Implicit Types (w : LogWorld).

(** Some write may have happened although its caller saw an error. *)
Definition replies_get_lost : Prop := ∃ n e, log_fault n = Some (true, e).

Section calls.
Context (G : relation LogWorld) (G_tick : ∀ w, G w (log_tick w)).
Context {A : Type}.

Lemma wp_log_call (f : LogWorld → LogWorld * DomainResult A) (Q : DomainResult A → LogWorld → Prop) w :
  (∀ w1, R w w1 → log_inv w1 →
     (∀ e, Q (Err e) (log_tick w1)) ∧
     ∀ w2 r, f w1 = (w2, r) → log_inv w2 ∧ G w1 (log_tick w2) ∧ Q r (log_tick w2) ∧
       (replies_get_lost → ∀ e, Q (Err e) (log_tick w2))) →
  wp log_inv R G (log_call f) Q w.
Proof using G_tick.
  intros Hf. apply wp_bind, wp_port. intros w1 Hr Hi. destruct (Hf w1 Hr Hi) as [Herr Hok].
  destruct (f w1) as [w2 r] eqn:E. destruct (Hok w2 r eq_refl) as (Hi2 & Hg & Hq & Hlost).
  destruct (log_fault (log_calls w1)) as [[[|] e] |] eqn:Hfault; cbn.
  - split_and!; [by apply log_inv_tick | done |]. apply Hlost. by exists (log_calls w1), e.
  - split_and!; [by apply log_inv_tick | done | apply Herr].
  - split_and!; [by apply log_inv_tick | done | done].
Qed.

Lemma wp_log_query (f : LogWorld → DomainResult A) (Q : DomainResult A → LogWorld → Prop) w :
  (∀ w1, R w w1 → log_inv w1 →
     (∀ e, Q (Err e) (log_tick w1)) ∧ Q (f w1) (log_tick w1)) →
  wp log_inv R G (log_query f) Q w.
Proof using G_tick.
  intros Hf. apply wp_log_call. intros w1 Hr Hi. destruct (Hf w1 Hr Hi) as [Herr Hok].
  split; [done |]. intros w2 r [= <- <-]. by split_and!.
Qed.
End calls.

Lemma wp_utc_now {E} (G : relation LogWorld) (Q : result E DateTime → LogWorld → Prop) w :
  (∀ w, G w (log_tick w)) →
  (∀ w1, R w w1 → log_inv w1 → Q (Ok (log_time w1)) (log_tick w1)) →
  wp log_inv R G utc_now Q w.
Proof.
  intros HG HQ. apply wp_port. intros w1 Hr Hi. cbn.
  split_and!; [by apply log_inv_tick | done | by apply HQ].
Qed.

Lemma guar_tick w : log_guar rules w (log_tick w).
Proof. apply housekeeping_same; [done |]. cbn. apply Nat.le_succ_diag_r. Qed.

Lemma housekeeping_tick_same w : housekeeping rules w (log_tick w).
Proof. apply housekeeping_same; [done |]. apply Nat.le_succ_diag_r. Qed.

Lemma rely_tick w : log_rely w (log_tick w).
Proof. split; [done |]. apply Nat.le_succ_diag_r. Qed.

(** *** Appending *)

Lemma append_safe b w :
  tombstones_ok b →
  wp log_inv R (log_guar rules) (append b) (λ _ _, True) w.
Proof using R_rely.
  intros Htomb. unfold append. apply wp_bind, wp_log_query; [apply guar_tick |].
  intros w0 _ Hi0. split; [done |]. cbn [wp].
  apply wp_bind. destruct (predecessor _ _) as [[pos prev] |] eqn:Hpre; [| done]. cbn [wp].
  apply wp_bind. destruct (check_append_version _ _ _); [| done]. cbn [wp].
  apply wp_log_call; [apply guar_tick |]. intros w1 Hr1 Hi1. split; [done |].
  intros w2 r Hins. destruct (insert_events _ _ _ _ _) as [rows' |] eqn:Hrows; simplify_eq.
  - destruct (append_step rules w0 w1 b pos prev (log_time w0) rows' Hi0 Hi1) as [Hi2 [[Hg Hc] Hrem]]; try done.
    { etrans; [apply rely_tick | by apply R_rely]. }
    split_and!; [done | | done | done]. split; [split; [done |] | done].
    etrans; [apply Hc |]. apply Nat.le_succ_diag_r.
  - split_and!; [done | apply guar_tick | done | done].
Qed.

(** *** Sealing *)

Lemma serialize_tombstone_Ok e json : serialize_tombstone e = Ok json → json = tombstone_json e.
Proof.
  unfold serialize_tombstone. intros (? & _ & Hs)%bind_Ok. destruct (_ <? _); [done |].
  by injection Hs.
Qed.

(** Nothing happened unless the seal went through. *)
Definition sealed_or_kept (w : LogWorld) (r : DomainResult SealOutcome) (w' : LogWorld) : Prop :=
  r = Ok Sealed ∨ replies_get_lost ∨ (X w → X w').

Lemma seal_and_remove_safe s p w :
  licensed rules s p w →
  wp log_inv R (housekeeping rules) (seal_and_remove s {| sa_final_stream_position := p |})
    (sealed_or_kept w) w.
Proof using R_rely X_rely X_tick.
  intros Hlic. unfold seal_and_remove. cbn [sa_final_stream_position].
  apply wp_bind, wp_log_query; [apply housekeeping_tick_same |].
  intros w0 Hr0 Hi0. split; [intros e; do 2 right; by eauto |]. cbn [wp].
  assert (∀ o, wp log_inv R (housekeeping rules) (log_query (λ _, Ok o)) (sealed_or_kept w) (log_tick w0))
    as Hcommit.
  { intros o. apply wp_log_query; [apply housekeeping_tick_same |]. intros w1 Hr1 _.
    split; [intros e |]; do 2 right; eauto 6. }
  destruct (tail_row _ _) as [row |] eqn:Htail; [| apply Hcommit].
  destruct (Z.eqb_spec (er_position row) p) as [Hp |]; cbn [negb]; [| apply Hcommit].
  case_bool_decide as Hwidth; cbn [negb]; [| do 2 right; by eauto].
  apply wp_bind. destruct (serialize_tombstone _) as [json |] eqn:Hser; [| do 2 right; by eauto].
  cbn [wp]. apply wp_bind, wp_log_query; [apply housekeeping_tick_same |].
  intros w1 Hr1 Hi1. split; [intros e; do 2 right; by eauto 6 |]. cbn [wp].
  apply wp_bind. destruct (predecessor _ _) as [[pos prev] |] eqn:Hpre; [| do 2 right; by eauto 6].
  cbn [wp]. apply wp_bind. cbn [check_append_version wp seal_batch ae_expected_version].
  apply wp_log_call; [apply housekeeping_tick_same |]. intros w2 Hr2 Hi2.
  split; [intros e; do 2 right; by eauto 8 |]. intros w3 r Hcall.
  apply remove_and_commit_inv in Hcall as [[-> Hr] | [[-> (rows1 & Hins & -> & Hgrown & Hcount)] | [-> Hz]]].
  - split_and!; [done | apply housekeeping_tick_same | do 2 right; by eauto 8 | intros _ e; do 2 right; by eauto 8].
  - apply serialize_tombstone_Ok in Hser as ->.
    eassert (log_inv _ ∧ housekeeping rules w2 _) as [Hi3 Hh].
    { refine (seal_step rules s w0 w1 w2 row p pos prev (log_time w0) _ (log_calls w0) rows1
                Hi0 Hi1 Hi2 _ _ _ Htail Hp Hpre _ _ _ Hins _ _); try done.
      - etrans; [apply rely_tick | by apply R_rely].
      - etrans; [apply rely_tick | by apply R_rely].
      - eapply licensed_rely; [| exact Hlic]. etrans; [by apply R_rely |].
        etrans; [apply rely_tick |]. etrans; [by apply R_rely |].
        etrans; [apply rely_tick | by apply R_rely].
      - cbn. by rewrite Hp.
      - by rewrite <- Hp.
      - by rewrite Hcount, Hp. }
    split_and!; [done | by apply housekeeping_tick | by left | intros Hlost e; right; by left].
  - exfalso. apply tail_row_elem in Htail as [Hin _]. pose proof (ti_position _ (li_table _ Hi0) row Hin). lia.
Qed.

(** *** The sweep *)

(** What the enumeration says about a stream stays true. *)
Definition candidate_ok (c : TerminalStreamCandidate) (w : LogWorld) : Prop :=
  ∃ s, tc_stream_id c = StreamId_display s ∧ tc_category c = si_category s ∧
    has_event_at (StreamId_display s) (tc_first_event_at c) w ∧
    at_tail (λ _, True) (StreamId_display s) (tc_last_stream_position c) w.

Lemma candidate_ok_rely c w w' : log_rely w w' → candidate_ok c w → candidate_ok c w'.
Proof.
  intros Hr (s & ? & ? & ? & ?). exists s.
  split_and!; [done | done | by eapply has_event_rely | by eapply at_tail_rely].
Qed.

Lemma earliest_elem t rows :
  earliest t rows = t ∨ ∃ r, r ∈ rows ∧ er_stored_at r = earliest t rows.
Proof.
  induction rows as [| r rows IH]; [by left |]. cbn. fold (earliest t rows).
  destruct (Z.min_spec (er_stored_at r) (earliest t rows)) as [[_ ->] | [_ ->]].
  - right. exists r. split; [left | done].
  - destruct IH as [? | (r' & ? & ?)]; [by left | right]. exists r'. split; [by right | done].
Qed.

Lemma distinct_streams_elem sid rows : sid ∈ distinct_streams rows ↔ ∃ r, r ∈ rows ∧ er_stream r = sid.
Proof.
  unfold distinct_streams. rewrite order_by_text_perm, elem_of_remove_dups, list_elem_of_fmap.
  naive_solver.
Qed.

Lemma list_candidates_ok w c rows :
  rows = filter (λ r, er_stream r ≠ retention_stream_id) (log_rows w) →
  log_inv w → c ∈ omap (candidate_of rows) (distinct_streams rows) → candidate_ok c w.
Proof.
  intros Hrows Hi (sid & Hsid & Hc)%list_elem_of_omap.
  apply distinct_streams_elem in Hsid as (r & Hr & Hrs). rewrite Hrows in Hr.
  apply list_elem_of_filter in Hr as [Hne Hr].
  destruct (ti_named _ (li_table _ Hi) r Hr) as [s Hs].
  unfold candidate_of in Hc. apply bind_Some in Hc as (tail & Htail & Hc).
  rewrite <- Hrs, Hs, StreamId_round_trip in Hc. injection Hc as <-. cbn. exists s.
  assert (rows_of sid rows = rows_of sid (log_rows w)) as Heq.
  { rewrite Hrows. apply rows_of_kept. congruence. }
  assert (sid = StreamId_display s) as -> by congruence. unfold tail_row in Htail.
  rewrite Heq in Htail |- *. split_and!; [done | done | |].
  - right. apply last_Some_elem_of in Htail as Hin.
    destruct (earliest_elem (er_stored_at tail) (rows_of (StreamId_display s) (log_rows w)))
      as [-> | (r' & ? & ?)]; eauto.
  - destruct (decide (sealed_in (log_rows w) (StreamId_display s))) as [? | Hn]; [by left | right].
    exists (rows_of (StreamId_display s) (log_rows w)). split_and!; [done | | done].
    pose proof (chained_last _ _ _ (ti_chain _ (li_table _ Hi) _ Hn) Htail).
    apply last_Some_elem_of, elem_of_rows_of in Htail as [Hin _].
    pose proof (ti_position _ (li_table _ Hi) tail Hin). cbn. lia.
Qed.

(** *** The terminal proof *)

Lemma collect_Ok {A B} (f : A → DomainResult B) l bs :
  collect f l = Ok bs → Forall2 (λ a b, f a = Ok b) l bs.
Proof.
  revert bs. induction l as [| a l IH]; intros bs Hc; cbn in Hc; [injection Hc as <-; constructor |].
  apply bind_Ok in Hc as (b & Hb & Hc). apply bind_Ok in Hc as (bs' & Hbs & Hc).
  injection Hc as <-. constructor; [done | by apply IH].
Qed.

Lemma decode_row_Ok r d :
  decode_row r = Ok d → de_stream_position d = er_position r ∧ de_event_type d = er_type r.
Proof.
  unfold decode_row. intros (t & Ht & Hd)%bind_Ok. injection Hd as <-.
  by apply decode_event_type in Ht as ->.
Qed.

(** The event with the greatest position of a decoded chain is its last. *)
Lemma max_decoded prev rows ds d :
  chained prev 0 rows → collect decode_row rows = Ok ds →
  max_by (λ a b, de_stream_position a ?= de_stream_position b) ds = Some d →
  de_stream_position d = len rows - 1 ∧ ∃ r, last rows = Some r ∧ er_type r = de_event_type d.
Proof.
  intros Hc Hd%collect_Ok Hmax.
  apply max_by_Some in Hmax as [Hin Hge];
    [| intros a b; apply Z.compare_antisym | intros a b c; rewrite !Z.compare_lt_iff; lia].
  apply list_elem_of_lookup in Hin as [i Hi].
  destruct (Forall2_lookup_r _ _ _ _ _ Hd Hi) as (r & Hr & Hdec).
  apply decode_row_Ok in Hdec as [Hp Ht]. pose proof (chained_lookup _ _ _ _ _ Hc Hr) as Hpi.
  destruct (last rows) as [z |] eqn:Hl; [| apply last_None in Hl as ->; done].
  pose proof (chained_last _ _ _ Hc Hl) as Hz. rewrite last_lookup in Hl.
  destruct (Forall2_lookup_l _ _ _ _ _ Hd Hl) as (dz & Hdz & Hdecz).
  apply decode_row_Ok in Hdecz as [Hpz _].
  pose proof (Hge dz (list_elem_of_lookup_2 _ _ _ Hdz)) as Hle. rewrite Z.compare_lt_iff in Hle.
  apply lookup_lt_Some in Hr as Hlt. unfold len in *.
  assert (i = pred (length rows)) as -> by lia. rewrite Hl in Hr. injection Hr as ->.
  split; [lia | eauto].
Qed.

Definition kept (w w' : LogWorld) : Prop := X w → X w'.

Lemma prove_terminal_safe c s t w :
  tc_stream_id c = StreamId_display s →
  wp log_inv R (housekeeping rules) (prove_terminal c t)
    (λ r w', log_rely w w' ∧ kept w w' ∧
       match r with
       | Ok (TP_Terminal p) => at_tail (ends_as (TerminalGated t)) (StreamId_display s) p w'
       | Ok _ => True
       | Err _ => False
       end) w.
Proof using R_rely X_rely X_tick.
  intros Hsid. unfold prove_terminal. rewrite Hsid, StreamId_round_trip.
  apply wp_bind, wp_attempt. unfold read_artifact_stream.
  case_bool_decide; cbn [negb]; [| by cbn; unfold kept; auto].
  apply wp_bind, wp_log_query; [apply housekeeping_tick_same |]. intros w1 Hr1 Hi1.
  assert (log_rely w (log_tick w1)) as Hrely by (etrans; [by apply R_rely | apply rely_tick]).
  assert (kept w (log_tick w1)) as Hkept by (unfold kept; by eauto).
  split; [by intros e; cbn |].
  destruct (collect decode_row _) as [ds |] eqn:Hds; [| by cbn]. cbn [wp].
  destruct (STREAM_EVENT_CAP <? len ds) eqn:Hcap; [by cbn |]. cbn [wp].
  split_and!; [done | done |]. destruct (max_by _ ds) as [d |] eqn:Hmax; [| done].
  case_bool_decide as Ht; [| done].
  destruct (decide (sealed_in (log_rows w1) (StreamId_display s))) as [? | Hn]; [by left | right].
  pose proof (ti_chain _ (li_table _ Hi1) _ Hn) as Hc.
  rewrite take_ge in Hds.
  - destruct (max_decoded _ _ _ _ Hc Hds Hmax) as (Hp & r & Hlast & Hty).
    exists (rows_of (StreamId_display s) (log_rows w1)).
    split_and!; [done | lia | exists r; split; [done | congruence]].
  - pose proof (Forall2_length _ _ _ (collect_Ok _ _ _ Hds)) as Hlen. rewrite length_take in Hlen.
    apply Z.ltb_ge in Hcap. unfold len, STREAM_EVENT_CAP in *. lia.
Qed.

(** What a part of the sweep reports: no seal is reported only if none was made. *)
Definition swept (s : RetentionArchiveSummary) (w : LogWorld)
    (r : DomainResult RetentionArchiveSummary) (w' : LogWorld) : Prop :=
  ∃ s', r = Ok s' ∧ log_rely w w' ∧
    (sealed_stream_ids s' = [] → sealed_stream_ids s = [] ∧ (replies_get_lost ∨ kept w w')).

Lemma swept_same (f : RetentionArchiveSummary → RetentionArchiveSummary) s w w' :
  sealed_stream_ids (f s) = sealed_stream_ids s → log_rely w w' → kept w w' →
  swept s w (Ok (f s)) w'.
Proof. intros Hf Hr Hk. exists (f s). rewrite Hf. auto. Qed.

Lemma swept_here (f : RetentionArchiveSummary → RetentionArchiveSummary) s w :
  sealed_stream_ids (f s) = sealed_stream_ids s → swept s w (Ok (f s)) w.
Proof. intros Hf. by apply swept_same; [done | | intros ?]. Qed.

Lemma housekeeping_rely w w' : housekeeping rules w w' → log_rely w w'.
Proof. by intros [[? _] _]. Qed.

(** The license that the proofs of a candidate amount to. *)
Lemma candidate_licensed c s rule now p w :
  rule ∈ rules → cr_category rule = tc_category c → tc_category c = si_category s →
  at_tail (ends_as (cr_mode rule)) (StreamId_display s) p w →
  has_event_at (StreamId_display s) (tc_first_event_at c) w →
  cr_floor rule ≤ signed_duration_since now (tc_first_event_at c) → now ≤ log_time w →
  licensed rules s p w.
Proof.
  intros. exists rule, (tc_first_event_at c), now. split_and!; try done. by etrans.
Qed.

Lemma seal_one_safe u c s p sm w :
  tc_stream_id c = StreamId_display s → licensed rules s p w →
  wp log_inv R (housekeeping rules) (seal_one u c {| sa_final_stream_position := p |} sm)
    (swept sm w) w.
Proof using R_rely X_rely X_tick.
  intros Hsid Hlic. unfold seal_one. rewrite Hsid, StreamId_round_trip.
  pose proof (wp_moves _ _ _ log_rely _ _ _ R_rely housekeeping_rely (seal_and_remove_safe s p w Hlic))
    as Hwp.
  assert (∀ f : RetentionArchiveSummary → RetentionArchiveSummary, sealed_stream_ids (f sm) ≠ [] →
    wp log_inv R (housekeeping rules)
      (r ← attempt (seal_and_remove s {| sa_final_stream_position := p |});
       mret match r with
            | Ok Sealed => f sm
            | Ok NotAtProvenVersion => record_stream_changed sm
            | Err _ => sm {{ sweep_errors ::= Z.add 1 }}
            end) (swept sm w) w) as Hgen.
  { intros f Hf. apply wp_bind, wp_attempt. eapply wp_mono; [| exact Hwp]. cbn.
    intros r w' [Hr [-> | Hrest]].
    - exists (f sm). by split_and!.
    - destruct r as [[|] | e]; [by exists (f sm); split_and! | |].
      + exists (record_stream_changed sm). unfold kept. naive_solver.
      + exists (sm {{ sweep_errors ::= Z.add 1 }}). unfold kept. naive_solver. }
  destruct (uc_mode u) as [| prefix].
  - apply (Hgen (λ s0, s0 {{ deleted ::= Z.add 1;
      sealed_stream_ids := sealed_stream_ids s0 ++ [StreamId_display s] }})). cbn. by destruct (sealed_stream_ids sm).
  - apply (Hgen (λ s0, s0 {{ archived ::= Z.add 1;
      sealed_stream_ids := sealed_stream_ids s0 ++ [StreamId_display s] }})). cbn. by destruct (sealed_stream_ids sm).
Qed.

Lemma check_floor_safe u now c s rule p sm w :
  tc_stream_id c = StreamId_display s → rule ∈ rules → cr_category rule = tc_category c →
  tc_category c = si_category s → at_tail (ends_as (cr_mode rule)) (StreamId_display s) p w →
  has_event_at (StreamId_display s) (tc_first_event_at c) w → now ≤ log_time w →
  wp log_inv R (housekeeping rules) (check_floor u now c rule p sm) (swept sm w) w.
Proof using R_rely X_rely X_tick.
  intros. unfold check_floor. destruct (Z.ltb_spec (signed_duration_since now (tc_first_event_at c)) (cr_floor rule)).
  - by apply (swept_here (λ s0, s0 {{ skipped_floor_not_elapsed ::= Z.add 1 }})).
  - eapply seal_one_safe; [done |]. by eapply candidate_licensed.
Qed.

Lemma process_one_safe u now c sm w :
  uc_rules u = rules → candidate_ok c w → now ≤ log_time w →
  wp log_inv R (housekeeping rules) (process_one u now c sm) (swept sm w) w.
Proof using R_rely X_rely X_tick.
  intros Hu (s & Hsid & Hcat & Hold & Htail) Hnow. unfold process_one.
  case_bool_decide; [by apply (swept_here (λ s0, s0 {{ skipped_meta_stream ::= Z.add 1 }})) |].
  destruct (find _ _) as [rule |] eqn:Hfind;
    [| by apply (swept_here (λ s0, s0 {{ skipped_unregistered_category ::= Z.add 1 }}))].
  apply find_some in Hfind as [Hin%list_elem_of_In Hc%bool_decide_eq_true]. rewrite Hu in Hin.
  destruct (cr_mode rule) as [t |] eqn:Hmode.
  - apply wp_bind. eapply wp_mono; [| by apply (prove_terminal_safe c s t)].
    intros r w1 (Hr & Hk & Hp). destruct r as [[p | ty | |] | e]; [| | | | done].
    + eapply wp_mono; [| eapply (check_floor_safe u now c s rule p sm w1)]; try done.
      * intros r w2 (s' & -> & Hr2 & Hs). exists s'. split_and!; [done | by etrans |].
        unfold kept in *. naive_solver.
      * by rewrite Hmode.
      * by eapply has_event_rely.
      * etrans; [done | by apply log_rely_time].
    + by apply (swept_same (λ s0, s0 {{ skipped_non_terminal ::= Z.add 1 }})).
    + by apply (swept_same (λ s0, s0 {{ skipped_already_sealed ::= Z.add 1 }})).
    + by apply (swept_same (λ s0, s0 {{ sweep_errors ::= Z.add 1 }})).
  - eapply check_floor_safe; try done. by rewrite Hmode.
Qed.

Lemma process_all_safe u now cs sm w :
  uc_rules u = rules → (∀ c, c ∈ cs → candidate_ok c w) → now ≤ log_time w →
  wp log_inv R (housekeeping rules) (process_all u now cs sm) (swept sm w) w.
Proof using R_rely X_rely X_tick.
  intros Hu. revert sm w. induction cs as [| c cs IH]; intros sm w Hcs Hnow; cbn [process_all].
  { by apply (swept_here id). }
  apply wp_bind. eapply wp_mono; [| apply process_one_safe; [done | apply Hcs; left | done]].
  intros r w1 (s1 & -> & Hr1 & Hs1). eapply wp_mono; [| apply (IH s1 w1)].
  - intros r w2 (s2 & -> & Hr2 & Hs2). exists s2. split_and!; [done | by etrans |].
    cbn in Hs1. unfold kept in *. naive_solver.
  - intros c' Hc'. eapply candidate_ok_rely; [done |]. apply Hcs. by right.
  - etrans; [done | by apply log_rely_time].
Qed.

Lemma archive_terminal_streams_safe u now w :
  uc_rules u = rules → now ≤ log_time w →
  wp log_inv R (housekeeping rules) (archive_terminal_streams u now)
    (λ r w', match r with Ok _ => swept default_summary w r w' | Err _ => True end) w.
Proof using R_rely X_rely X_tick.
  intros Hu Hnow. unfold archive_terminal_streams. apply wp_bind, wp_log_query;
    [apply housekeeping_tick_same |].
  intros w1 Hr1 Hi1. split; [done |]. cbn [wp].
  assert (log_rely w (log_tick w1)) as Hrely by (etrans; [by apply R_rely | apply rely_tick]).
  eapply wp_mono; [| apply process_all_safe; [done | |]].
  - intros r w2 (s & -> & Hr2 & Hs). exists s. split_and!; [done | by etrans |].
    unfold kept in *. naive_solver.
  - intros c Hc. eapply candidate_ok_rely; [apply rely_tick |].
    by eapply list_candidates_ok.
  - etrans; [done | by apply log_rely_time].
Qed.

(** *** Emission *)

Lemma stored_put key bytes w c :
  c ∈ stored_checkpoints (w {{ log_objects ::= insert key bytes }}) →
  read_object bytes = Some c ∨ c ∈ stored_checkpoints w.
Proof.
  unfold stored_checkpoints, read_objects. cbn.
  rewrite !list_elem_of_omap. intros ([k b] & Hin & Hc).
  rewrite list_objects_perm, elem_of_map_to_list, lookup_insert_Some in Hin.
  destruct Hin as [[<- <-] | [_ Hin]]; [by left | right].
  exists (k, b). by rewrite list_objects_perm, elem_of_map_to_list.
Qed.

Lemma stored_put_new key bytes w c :
  read_object bytes = Some c → c ∈ stored_checkpoints (w {{ log_objects ::= insert key bytes }}).
Proof.
  intros Hc. unfold stored_checkpoints, read_objects. cbn. rewrite list_elem_of_omap.
  exists (key, bytes). by rewrite list_objects_perm, elem_of_map_to_list, lookup_insert_eq.
Qed.

(** The heads of a snapshot are rows of the table. *)
Lemma snapshot_heads rows heads h :
  collect stream_head (head_rows rows) = Ok heads → h ∈ heads →
  borne_out rows (sh_stream_id h) (final_stream_position h) (head_event_hash h) ∧
  length (head_event_hash h) = 32%nat.
Proof.
  intros Hc%collect_Ok (i & Hi)%list_elem_of_lookup.
  destruct (Forall2_lookup_r _ _ _ _ _ Hc Hi) as (r & Hr & Hh). unfold stream_head in Hh.
  apply bind_Ok in Hh as (hash & Hhash & Hh). injection Hh as <-. cbn.
  unfold to_event_hash in Hhash. case_bool_decide; [| done]. injection Hhash as <-.
  split; [| done]. exists r. split_and!; [| done | done].
  apply list_elem_of_lookup_2, list_elem_of_omap in Hr as (sid & _ & Hr).
  apply tail_row_elem in Hr as [Hr <-]. by apply elem_of_rows_of.
Qed.

Lemma sealed_record_len v rec :
  sealed_record_from_row v = Ok rec → length (final_event_hash rec) = 32%nat.
Proof.
  unfold sealed_record_from_row. destruct (as_object v ≫= map_get "data") as [data |]; [| done].
  destruct (StreamSealed_from_json data) as [s |] eqn:Hs; [| done]. intros [= <-]. cbn.
  unfold StreamSealed_from_json in Hs.
  apply bind_Some in Hs as (m & _ & Hs). apply bind_Some in Hs as (sid & _ & Hs).
  apply bind_Some in Hs as (cat & _ & Hs). apply bind_Some in Hs as (pos & _ & Hs).
  apply bind_Some in Hs as (arr & _ & Hs). apply bind_Some in Hs as (hash & _ & Hs).
  apply bind_Some in Hs as (h & Hh & Hs). case_bool_decide as Hl; [| done]. injection Hh as <-.
  apply bind_Some in Hs as (n & _ & Hs). apply bind_Some in Hs as (pol & _ & Hs).
  apply bind_Some in Hs as (a & _ & Hs). injection Hs as <-. cbn. by rewrite length_fmap.
Qed.

Lemma snapshot_seals rows recs rec :
  sealed_records rows = Ok recs → rec ∈ recs →
  length (final_event_hash rec) = 32%nat ∧
  ∃ r, r ∈ seal_rows rows ∧ sealed_record_from_row (cr_event_data (er_chain r)) = Ok rec.
Proof.
  intros Hc%collect_Ok (i & Hi)%list_elem_of_lookup.
  destruct (Forall2_lookup_r _ _ _ _ _ Hc Hi) as (r & Hr & Hrec).
  split; [by eapply sealed_record_len |]. exists r. split; [by eapply list_elem_of_lookup_2 | done].
Qed.

Lemma checkpoint_hashes_wf rows heads recs v existing gp now b :
  collect stream_head (head_rows rows) = Ok heads → sealed_records rows = Ok recs →
  hashes_wf (build_checkpoint v existing heads recs gp now b).
Proof.
  intros Hh Hs. split; apply Forall_forall; cbn.
  - intros h Hin. unfold sorted_witness in Hin. rewrite sort_by_Permutation in Hin.
    by eapply snapshot_heads.
  - intros rec Hin. by eapply snapshot_seals.
Qed.

(** A put of what a snapshot in [w0] says keeps the invariant. *)
Lemma put_step w0 w heads recs v existing gp now b :
  log_inv w → log_rely w0 w →
  collect stream_head (head_rows (log_rows w0)) = Ok heads → sealed_records (log_rows w0) = Ok recs →
  let cp := build_checkpoint v existing heads recs gp now b in
  log_inv (w {{ log_objects ::= insert (sign_and_serialize cp).1 (sign_and_serialize cp).2 }}).
Proof.
  intros Hi [Hev _] Hh Hs cp. split; [apply Hi |]. intros sid p h (c & Hc & Hin).
  apply stored_put in Hc as [Hc | Hc]; [| apply Hi; by exists c].
  rewrite read_object_emitted in Hc by (by eapply checkpoint_hashes_wf). injection Hc as <-.
  cbn in Hin. apply list_elem_of_fmap in Hin as (x & [= -> -> ->] & Hx).
  unfold sorted_witness in Hx. rewrite sort_by_Permutation in Hx.
  eapply borne_out_evolves; [exact Hev |]. right. by eapply snapshot_heads.
Qed.

(** What a successful emission has done, from states with [X]. *)
Definition emitted (w : LogWorld) (cp : CheckpointToEmit) (w' : LogWorld) : Prop :=
  X w → ∃ w1 w2 w3, X w1 ∧ X w2 ∧ X w3 ∧
    e_checkpoint_seq cp = next_checkpoint_seq (stored_checkpoints w1) ∧
    sealed_records (log_rows w2) = Ok (e_sealed_streams cp) ∧ hashes_wf cp ∧
    log_rows w' = log_rows w3 ∧
    log_objects w' = <[(sign_and_serialize cp).1 := (sign_and_serialize cp).2]> (log_objects w3).

Lemma emit_once_safe h w :
  wp log_inv R (housekeeping rules) (emit_once h)
    (λ r w', match r with Ok cp => emitted w cp w' | Err _ => True end) w.
Proof using R_rely X_rely X_tick.
  unfold emit_once. apply wp_bind, wp_map_error, wp_log_query; [apply housekeeping_tick_same |].
  intros w1 Hr1 Hi1. split; [done |]. cbn [map_err].
  apply wp_bind, wp_map_error, wp_log_query; [apply housekeeping_tick_same |].
  intros w2 Hr2 Hi2. split; [done |].
  destruct (mbind _ _) as [snap |] eqn:Hsnap; [| done]. cbn [map_err].
  apply bind_Ok in Hsnap as (heads & Hheads & Hsnap). apply bind_Ok in Hsnap as (recs & Hrecs & Hsnap).
  injection Hsnap as <-.
  apply wp_bind, wp_utc_now; [apply housekeeping_tick_same |]. intros w2' Hr2' _.
  cbn beta iota zeta delta [lc_heads lc_sealed lc_max_global_position].
  set (cp := build_checkpoint _ _ _ _ _ _ _).
  assert (hashes_wf cp) as Hwf by (by eapply checkpoint_hashes_wf).
  apply wp_bind, wp_map_error. unfold emit.
  destruct (sign_and_serialize cp) as [key bytes] eqn:Hser.
  apply wp_log_call; [apply housekeeping_tick_same |]. intros w3 Hr3 Hi3. split; [done |].
  intros w4 r [= <- <-]. split_and!.
  - pose proof (put_step (log_tick w2) w3 heads recs CHAIN_FORMAT_VERSION (stored_checkpoints w1)
      (foldr Z.max 0 (er_global_position <$> log_rows w2)) (log_time w2')
      (to_domain <$> ck_backfill_baseline h) Hi3) as Hput.
    cbv zeta in Hput. fold cp in Hput. rewrite Hser in Hput. apply Hput; [| done | done].
    etrans; [by apply R_rely |]. etrans; [apply rely_tick | by apply R_rely].
  - apply housekeeping_same; [done |]. apply Nat.le_succ_diag_r.
  - cbn. intros HX. exists w1, w2, w3. rewrite Hser. split_and!; try done; eauto 10.
  - done.
Qed.

Lemma emit_checkpoint_now_safe h w :
  wp log_inv R (housekeeping rules) (emit_checkpoint_now h)
    (λ r w', r = Ok () → ∃ cp, emitted w cp w') w.
Proof using R_rely X_rely X_tick.
  unfold emit_checkpoint_now. apply wp_bind, wp_conclude.
  eapply wp_mono; [| apply emit_once_safe]. intros [cp | e] w' Hr; cbn; [eauto | done].
Qed.

Lemma checkpoint_run_safe h w :
  wp log_inv R (housekeeping rules) (checkpoint_run h) (λ _ _, True) w.
Proof using R_rely X_rely X_tick.
  unfold checkpoint_run. apply wp_conclude. eapply wp_mono; [| apply emit_once_safe]. done.
Qed.

Lemma anchor_seals_safe hook sm w :
  wp log_inv R (housekeeping rules) (anchor_seals hook sm) (λ _ _, True) w.
Proof using R_rely X_rely X_tick.
  unfold anchor_seals. destruct hook as [h |]; [| done]. destruct (is_empty _); [done |].
  apply wp_bind, wp_attempt. eapply wp_mono; [| apply emit_checkpoint_now_safe].
  intros [[] | e] w' _; done.
Qed.

Lemma archive_run_safe h w :
  uc_rules (ah_retention h) = rules →
  wp log_inv R (housekeeping rules) (archive_run h) (λ _ _, True) w.
Proof using R_rely X_rely X_tick.
  intros Hu. unfold archive_run. apply wp_bind, wp_utc_now; [apply housekeeping_tick_same |].
  intros w1 _ _. apply wp_bind, wp_attempt. eapply wp_mono;
    [| apply archive_terminal_streams_safe; [done | apply log_rely_time, rely_tick]].
  intros [sm | e] w' _; [apply anchor_seals_safe | done].
Qed.
End handlers.

(** ** Pools

    Any number of appends, sweeps under the rules and emissions. *)

Inductive log_handler `{LogBackend, SerdeJson, ChainPrimitives, AnchorPrimitives}
    (rules : list CategoryRetentionRule) : prog LogWorld DomainError () → Prop :=
  | handler_append b : tombstones_ok b → log_handler rules (conclude (λ _, ()) (append b))
  | handler_sweep h : uc_rules (ah_retention h) = rules →
      log_handler rules (conclude (λ _, ()) (archive_run h))
  | handler_checkpoint h : log_handler rules (conclude (λ _, ()) (checkpoint_run h)).

Section pools.
Context `{LogBackend, SerdeJson, ChainPrimitives, AnchorPrimitives}.
Context (rules : list CategoryRetentionRule).

Lemma log_handler_safe p w :
  log_handler rules p → wp log_inv log_rely (log_guar rules) p (λ _ _, True) w.
Proof.
  assert (∀ A (q : log_prog A), wp log_inv log_rely (housekeeping rules) q (λ _ _, True) w →
    wp log_inv log_rely (log_guar rules) (conclude (E' := DomainError) (λ _, ()) q) (λ _ _, True) w) as Hhouse.
  { intros A q Hq. apply wp_conclude. eapply wp_guar; [| done]. by intros ? ? _ [? _]. }
  intros [b Htomb | h Hu | h].
  - apply wp_conclude, append_safe; [done | done].
  - apply Hhouse, (archive_run_safe rules log_rely (λ _ _ Hr, Hr) (λ _, True)); done.
  - apply Hhouse, (checkpoint_run_safe rules log_rely (λ _ _ Hr, Hr) (λ _, True)); done.
Qed.

Abbreviation steps := (rtc (pool_step (λ _ : nat, log_handler rules))).

(** The invariant holds throughout, and every step keeps to the guarantee. *)
Lemma log_pool_inv w c : log_inv w → steps (w, []) c → log_inv c.1.
Proof.
  intros Hi Hsteps.
  refine (pool_adequate log_inv (λ _, log_rely) (λ _, log_guar rules) (λ _, log_handler rules)
            _ (λ _ _ _, True) _ w [] c Hi _ Hsteps).
  - by intros i j s s' _ [? _].
  - intros i p s Hp _. by apply log_handler_safe.
  - done.
Qed.

Lemma log_pool_step w c c' :
  log_inv w → steps (w, []) c → pool_step (λ _, log_handler rules) c c' →
  c'.1 = c.1 ∨ log_guar rules c.1 c'.1.
Proof.
  intros Hi Hsteps Hstep.
  destruct (pool_step_guar log_inv (λ _, log_rely) (λ _, log_guar rules) (λ _, log_handler rules)
              ltac:(by intros i j s s' _ [? _]) (λ _ _ _, True)
              ltac:(intros i p s Hp _; by apply log_handler_safe) w [] c c' Hi ltac:(done) Hsteps Hstep)
    as [? | (i & _ & _ & ?)]; auto.
Qed.
End pools.
