(* ===== verification/EventLogPromise.v ===== *)
(** What the event store promises: the verifier of ChainVerify.v finds nothing wrong with
    what the handlers of the event store leave behind, in whatever order they run; rows
    disappear only as proven and recorded seals; and the checkpoints that are read are
    those that were emitted. *)

From S2P Require Import Prelude.
From S2P Require Import RustStd.
From S2P Require Import Json.
From S2P Require Import Types.
From S2P Require Import Events.
From S2P Require Import Store.
From S2P Require Import Concurrent.
From S2P Require Import TaskDispatch.
From S2P Require Import EventChain.
From S2P Require Import ChainAnchor.
From S2P Require Import ChainVerify.
From S2P Require Import CheckpointObject.
From S2P Require Import EventLog.
From S2P Require Import EventRetention.
From S2P Require Import EventLogSafety.
From S2P Require Import EventRetentionSafety.
From coqutil Require Import Datatypes.RecordSetters.
Import DoubleBraceUpdate.

(** ** The verifier's reader *)

Section reader.
Context `{LogBackend, SerdeJson, ChainPrimitives, AnchorPrimitives}.
Implicit Types (rows : list EventRow) (r : EventRow).

Abbreviation behind p := (filter (λ r, p < er_position r)).

Lemma behind_sorted_drop l n final :
  StronglySorted (λ a b, er_position a < er_position b) l →
  last (take n l) = Some final → behind (er_position final) l = drop n l.
Proof.
  intros Hs Hl. rewrite <- (take_drop n l) in Hs |- * at 1.
  rewrite filter_app, (filter_none _ (take n l)), filter_every.
  - done.
  - intros r Hr. apply last_Some_elem_of in Hl.
    apply StronglySorted_app in Hs as (Hs & _ & _). exact (Hs final r Hl Hr).
  - intros r Hr. apply last_Some in Hl as [l' Hl']. rewrite Hl' in Hr, Hs.
    apply StronglySorted_app in Hs as (_ & Hs & _). apply StronglySorted_app in Hs as (Hs & _ & _).
    apply elem_of_app in Hr as [Hr | ->%list_elem_of_singleton]; [| lia].
    specialize (Hs r final Hr ltac:(left)). lia.
Qed.

(** The paging loop reads the whole stream. *)
Lemma read_pages_all fuel sid rows after out :
  let l := rows_of sid rows in
  StronglySorted (λ a b, er_position a < er_position b) l →
  out ++ behind after l = l → (length (behind after l) < fuel)%nat →
  read_pages fuel sid rows after out = Some l.
Proof.
  intros l Hs. revert after out. induction fuel as [| fuel IH]; intros after out Hout Hfuel; [lia |].
  cbn [read_pages]. fold l. set (page := take (Z.to_nat STREAM_PAGE) (behind after l)).
  destruct (last page) as [final |] eqn:Hlast.
  - destruct (Z.ltb_spec (len page) STREAM_PAGE) as [Hshort | Hfull].
    + unfold page in *. rewrite take_ge, Hout; [done |]. unfold len, STREAM_PAGE in *.
      rewrite length_take in Hshort. lia.
    + assert (after < er_position final) as Hlt.
      { apply last_Some_elem_of, elem_of_take in Hlast as (i & Hi & _).
        apply list_elem_of_lookup_2, list_elem_of_filter in Hi. apply Hi. }
      assert (behind (er_position final) l = drop (Z.to_nat STREAM_PAGE) (behind after l)) as Hdrop.
      { rewrite <- (behind_sorted_drop (behind after l) _ final); [| | done].
        - rewrite list_filter_filter. apply list_filter_iff. intros r. lia.
        - rewrite <- Hout in Hs. apply StronglySorted_app in Hs. apply Hs. }
      apply IH; rewrite Hdrop.
      * rewrite <- app_assoc. unfold page. by rewrite take_drop.
      * rewrite length_drop. unfold len, STREAM_PAGE, page in Hfull |- *.
        rewrite length_take in Hfull. lia.
  - apply last_None in Hlast. assert (behind after l = []) as Hnil.
    { destruct (behind after l); [done |]. unfold page, STREAM_PAGE in Hlast. done. }
    rewrite Hnil, app_nil_r in Hout. by rewrite Hout.
Qed.

Lemma collect_all {A B} (f : A → DomainResult B) (g : A → B) (l : list A) :
  (∀ a, a ∈ l → f a = Ok (g a)) → collect f l = Ok (g <$> l).
Proof.
  induction l as [| a l IH]; intros Hf; [done |]. cbn. rewrite Hf by left. cbn.
  rewrite IH by (intros; apply Hf; by right). done.
Qed.

Lemma read_chain_whole rows sid :
  table_inv rows → chained genesis_hash 0 (rows_of sid rows) →
  read_chain sid rows = Ok (er_chain <$> rows_of sid rows).
Proof.
  intros Ht Hc. unfold read_chain. rewrite read_pages_all.
  - apply collect_all. intros r [Hr _]%elem_of_rows_of. destruct (ti_sound _ Ht r Hr) as [Hh Hp].
    unfold chain_row, to_event_hash. rewrite (bool_decide_true _ Hp). cbn.
    by rewrite bool_decide_true by by apply sound_row_len.
  - by eapply chained_sorted.
  - apply filter_every. intros r Hr. pose proof (chained_elem _ _ _ _ Hc Hr). lia.
  - apply Nat.lt_succ_r, length_filter.
Qed.

Lemma sealed_records_Ok rows : table_inv rows → ∃ recs, sealed_records rows = Ok recs.
Proof.
  intros Ht. unfold sealed_records. pose proof (ti_seals _ Ht) as Hs. revert Hs.
  induction (seal_rows rows) as [| r l IH]; intros Hs; [by eexists |].
  destruct (Hs r ltac:(left)) as [rec Hrec]. destruct IH as [recs Hrecs]; [intros; apply Hs; by right |].
  exists (rec :: recs). cbn. by rewrite Hrec, Hrecs.
Qed.

Lemma sealed_in_records rows recs sid :
  sealed_records rows = Ok recs → sealed_in rows sid →
  sid ∈ ChainAnchor.sealed_stream_id <$> recs.
Proof.
  intros Hc%collect_Ok (r & rec & (i & Hi)%list_elem_of_lookup & Hrec & <-).
  destruct (Forall2_lookup_l _ _ _ _ _ Hc Hi) as (rec' & Hi' & Hrec').
  rewrite Hrec in Hrec'. injection Hrec' as <-. apply list_elem_of_fmap. exists rec.
  split; [done | by eapply list_elem_of_lookup_2].
Qed.

(** ** What the verifier sees *)

Abbreviation chain_of sid rows := (er_chain <$> rows_of sid rows).

(** A chain is intact, unless a row hashes to the genesis hash. *)
Lemma chained_intact all prev pos rows :
  (∀ r, r ∈ rows → r ∈ all) → (∀ r, r ∈ all → sound_row r) →
  (pos ≠ 0 → ∃ r, r ∈ all ∧ prev = er_hash r) → 0 ≤ pos → chained prev pos rows →
  linked prev pos (as_stream_row <$> (er_chain <$> rows)) (head_hash prev rows) ∨
  collision_between (er_chain <$> all) (er_chain <$> all).
Proof.
  intros Hsub Hsound. revert prev pos. induction rows as [| r rows IH]; intros prev pos Hprev Hpos Hc.
  { left. constructor. }
  destruct Hc as (Hp & Hs & Hc). destruct (Hsound r (Hsub r ltac:(left))) as [Hh _].
  destruct (decide (pos ≠ 0 ∧ prev = genesis_hash)) as [[Hnz Hg] | Hok].
  - right. destruct (Hprev Hnz) as (q & Hq & ->). destruct (Hsound q Hq) as [Hqh _].
    exists (row_bytes (er_chain q)), GENESIS_PREIMAGE. unfold hashed.
    split; [right; by do 2 apply list_elem_of_fmap_2 |]. split; [left |].
    split; [apply genesis_not_row |]. unfold row_bytes, genesis_hash, compute_event_hash in *. congruence.
  - destruct (IH ltac:(intros; apply Hsub; by right) (er_hash r) (pos + 1)) as [Hl | ?];
      [intros _; exists r; split; [apply Hsub; left | done] | lia | done | left | by right].
    rewrite head_hash_cons. constructor; [done | done | naive_solver | done | done].
Qed.

Lemma unrevived_chained rows sid :
  table_inv rows → (∀ sid, ¬ revived rows sid) → chained genesis_hash 0 (rows_of sid rows).
Proof.
  intros Ht Hrev. destruct (decide (sealed_in rows sid)) as [Hs | Hn]; [| by apply Ht].
  destruct (rows_of sid rows) eqn:E; [done |]. exfalso. apply (Hrev sid). split; [done |]. by rewrite E.
Qed.

(** Either every stream of a list is intact, or one of them has a collision. *)
Lemma streams_intact rows (ids : list string) :
  table_inv rows → (∀ sid, ¬ revived rows sid) →
  (∀ sid, sid ∈ ids → ∃ h, intact (as_stream_row <$> chain_of sid rows) h) ∨
  ∃ sid, collision_between (chain_of sid rows) (chain_of sid rows).
Proof.
  intros Ht Hrev. induction ids as [| sid ids IH]; [left; set_solver |].
  destruct IH as [IH | ?]; [| by right].
  assert (chained genesis_hash 0 (rows_of sid rows)) as Hc by by apply unrevived_chained.
  destruct (chained_intact (rows_of sid rows) genesis_hash 0 (rows_of sid rows)) as [Hl | Hcol];
    [done | intros r [Hr _]%elem_of_rows_of; by apply Ht | done | done | done | |].
  - left. intros x [-> | Hx]%elem_of_cons; [by eexists | by apply IH].
  - right. by exists sid.
Qed.

(** All the ways a faithful store can be put to the verifier. *)
Record verifiable (w : LogWorld) : Prop := {
  vf_inv : log_inv w;
  vf_unrevived : ∀ sid, ¬ revived (log_rows w) sid;
  vf_seqs : NoDup (checkpoint_seq <$> stored_checkpoints w);
  vf_covered : ∀ recs rec, sealed_records (log_rows w) = Ok recs → rec ∈ recs →
    ∃ cp, cp ∈ stored_checkpoints w ∧ rec ∈ sealed_streams cp;
}.

(** The values fit the widths of their Rust types. *)
Definition fits (w : LogWorld) : Prop := ∀ sid, rows_wf (chain_of sid (log_rows w)).

(** The verdict on the whole store. *)
Definition verdict_clean (w : LogWorld) (args : VerifyEventChainArgs) (now : DateTime)
    (cadence : Duration) (expected : bool) : Prop :=
  ∃ s, verify (chain_reader w) args (checkpoint_anchor w) now cadence expected = Ok s ∧
    (report s ≠ CR_Broken ∨
     ∃ sid, collision_between (chain_of sid (log_rows w)) (chain_of sid (log_rows w))).

Lemma verify_streams_Ok reader (l : VerifyLoop) ids :
  (∀ sid, sid ∈ ids → ∃ rows : list ChainRow, read_stream_chain reader sid = Ok rows) →
  ∃ l', verify_streams reader l ids = Ok l'.
Proof.
  revert l. induction ids as [| sid ids IH]; intros l Hr; [by eexists |]. cbn [verify_streams].
  destruct (Hr sid ltac:(left)) as [rows Hrows]. unfold verify_stream. rewrite Hrows. cbn.
  destruct (verify_stream_chain_observing _ _ _) as [a v]. cbn. apply IH. intros; apply Hr; by right.
Qed.

Lemma unrevived_statement rows sid p h :
  table_inv rows → (∀ sid, ¬ revived rows sid) → sealed_in rows sid ∨ borne_out rows sid p h →
  ((sid ∉ distinct_streams rows) ∧ sealed_in rows sid) ∨
  (sid ∈ distinct_streams rows ∧ hash_at 0 p (as_stream_row <$> chain_of sid rows) = Some h).
Proof.
  intros Ht Hrev Hst.
  destruct (decide (rows_of sid rows = [])) as [Hnil | Hne].
  - left. split.
    + intros (r & Hr & Hs)%distinct_streams_elem. assert (r ∈ rows_of sid rows) as Hin
        by by apply elem_of_rows_of. rewrite Hnil in Hin. by apply elem_of_nil in Hin.
    + destruct Hst as [? | (r & Hr & _)]; [done |]. rewrite Hnil in Hr. by apply elem_of_nil in Hr.
  - destruct Hst as [Hs | (r & Hr & Hp & Hh)]; [exfalso; by apply (Hrev sid) | right]. split.
    + apply distinct_streams_elem. exists r. by apply elem_of_rows_of.
    + pose proof (unrevived_chained _ sid Ht Hrev) as Hc. apply list_elem_of_lookup in Hr as [i Hi].
      pose proof (chained_lookup _ _ _ _ _ Hc Hi) as Hpi. unfold hash_at.
      rewrite bool_decide_true by lia. rewrite !list_lookup_fmap.
      replace (Z.to_nat (p - 0)) with i by lia. rewrite Hi. cbn. by rewrite <- Hh.
Qed.

Lemma verifiable_clean w args now cadence expected :
  verifiable w → fits w → streams args = [] → since_global args = None →
  verdict_clean w args now cadence expected.
Proof.
  intros [Hi Hrev Hseq Hcov] Hfit Hargs Hsince. pose proof (li_table _ Hi) as Ht.
  assert (∀ sid, read_stream_chain (chain_reader w) sid = Ok (chain_of sid (log_rows w))) as Hread.
  { intros sid. cbn. unfold as_fmt. by rewrite read_chain_whole by (try done; by apply unrevived_chained). }
  destruct (sealed_records_Ok _ Ht) as [recs Hrecs].
  set (ids := distinct_streams (log_rows w)).
  assert (∃ s, verify (chain_reader w) args (checkpoint_anchor w) now cadence expected = Ok s) as [s Hs].
  { unfold verify. rewrite Hargs, Hsince. cbn. unfold as_fmt. rewrite Hrecs.
    destruct (verify_streams_Ok (chain_reader w) {| anchored_hashes := from_checkpoints (stored_checkpoints w);
      stream_verdicts := []; live_heads := []; rows_so_far := 0; first_broken := None |} ids) as [l Hl];
      [intros sid _; by rewrite Hread; eexists |].
    unfold ids in Hl. cbn in Hl. rewrite Hl. by eexists. }
  exists s. split; [done |].
  destruct (streams_intact (log_rows w) ids Ht Hrev) as [Hint | ?]; [| by right].
  destruct (faithful_store_is_not_broken _ _ _ _ _ _ s Hs) with (ids := ids)
    (cps := stored_checkpoints w) (sealed := recs) as [? | (sid & rows & Hr & Hcol)]; try done.
  - intros sid rs Hr. rewrite Hread in Hr. injection Hr as <-. apply Hfit.
  - unfold selected. by rewrite Hargs, Hsince.
  - cbn. unfold as_fmt. by rewrite Hrecs.
  - intros rec Hrec. by apply (Hcov recs).
  - intros sid Hsid. destruct (Hint sid Hsid) as [h Hh]. by exists (chain_of sid (log_rows w)), h.
  - intros sid p h Hanch.
    destruct (unrevived_statement (log_rows w) sid p h Ht Hrev (li_anchored _ Hi _ _ _ Hanch))
      as [[Hno Hse] | [Hin Hh]]; [left | right].
    + split; [done |]. by eapply sealed_in_records.
    + split; [done |]. by eexists.
  - by left.
  - right. rewrite Hread in Hr. injection Hr as <-. by exists sid.
Qed.
End reader.

(** ** Sequence numbers *)

Section sequence.
Context `{LogBackend, AnchorPrimitives}.

Lemma next_seq_fresh existing :
  (∀ cp, cp ∈ existing → 0 ≤ checkpoint_seq cp < u64_MAX) →
  next_checkpoint_seq existing ∉ checkpoint_seq <$> existing.
Proof.
  intros Hb Hin. unfold next_checkpoint_seq, max_seq in Hin.
  destruct (max_by Z.compare _) as [m |] eqn:Hmax.
  - apply max_by_Some in Hmax as [Hm Hge];
      [| intros; apply Z.compare_antisym | intros x y z; rewrite !Z.compare_lt_iff; lia].
    apply Hge in Hin. apply list_elem_of_fmap in Hm as (cp & -> & Hcp). specialize (Hb cp Hcp).
    rewrite Z.compare_lt_iff in Hin. unfold u64_add, wrap, u64_MAX in *.
    rewrite Z.mod_small in Hin by lia. lia.
  - apply max_by_None in Hmax. rewrite Hmax in Hin. by apply elem_of_nil in Hin.
Qed.

Lemma stored_perm w :
  stored_checkpoints w ≡ₚ omap (λ o : string * list byte, read_object o.2) (map_to_list (log_objects w)).
Proof. unfold stored_checkpoints, read_objects. by rewrite list_objects_perm. Qed.

Lemma stored_insert w key bytes cp :
  read_object bytes = Some cp →
  stored_checkpoints (w {{ log_objects ::= insert key bytes }}) ≡ₚ
  cp :: stored_checkpoints (w {{ log_objects ::= delete key }}).
Proof.
  intros Hr. rewrite !stored_perm. cbn. rewrite <- insert_delete_eq.
  rewrite map_to_list_insert by apply lookup_delete_eq. cbn. by rewrite Hr.
Qed.

Lemma stored_delete w key :
  stored_checkpoints (w {{ log_objects ::= delete key }}) ⊆+ stored_checkpoints w.
Proof.
  rewrite !stored_perm. cbn. destruct (log_objects w !! key) as [b |] eqn:E.
  - rewrite <- (map_to_list_delete (log_objects w) key b E). cbn.
    destruct (read_object b); [by apply submseteq_cons | done].
  - by rewrite delete_id.
Qed.

(** A fresh checkpoint leaves the sequence numbers distinct. *)
Lemma put_seqs_distinct w key bytes cp :
  read_object bytes = Some cp → NoDup (checkpoint_seq <$> stored_checkpoints w) →
  checkpoint_seq cp ∉ checkpoint_seq <$> stored_checkpoints w →
  NoDup (checkpoint_seq <$> stored_checkpoints (w {{ log_objects ::= insert key bytes }})).
Proof.
  intros Hr Hnd Hfresh. rewrite (stored_insert _ _ _ _ Hr). cbn.
  pose proof (fmap_submseteq checkpoint_seq _ _ (stored_delete w key)) as Hsub.
  apply NoDup_cons. split.
  - intros Hin. by apply Hfresh, (elem_of_submseteq _ _ _ Hin).
  - apply submseteq_Permutation in Hsub as [k Hk]. rewrite Hk in Hnd.
    apply NoDup_app in Hnd as [Hnd _]. exact Hnd.
Qed.
End sequence.

(** ** One sweep *)

Section sweep.
Context `{LogBackend, SerdeJson, ChainPrimitives, AnchorPrimitives}.

(** *** A sweep leaves the checkpoints alone *)

Abbreviation objects_are o := (λ w, log_objects w = o).

Lemma keeps_log_call {A} (I : LogWorld → Prop) (f : LogWorld → LogWorld * DomainResult A) :
  (∀ w, I w → I (log_tick w)) → (∀ w, I w → I (f w).1) → keeps I (log_call f).
Proof.
  intros Ht Hf. apply keeps_bind; [| done]. apply keeps_port. intros w Hw. specialize (Hf w Hw).
  destruct (log_fault _) as [[[|] e] |]; cbn; [by apply Ht | by apply Ht |].
  destruct (f w) as [w' r]. by apply Ht.
Qed.

Lemma remove_and_commit_objects target final count at_ tomb w :
  log_objects (remove_and_commit target final count at_ tomb w).1 = log_objects w.
Proof. unfold remove_and_commit. repeat case_match; done. Qed.

Lemma seal_keeps_objects o s a : keeps (objects_are o) (seal_and_remove s a).
Proof.
  assert (∀ A (f : LogWorld → DomainResult A), keeps (objects_are o) (log_query f)) as Hq
    by (intros A f; by apply keeps_log_call).
  unfold seal_and_remove. apply keeps_bind; [apply Hq |]. intros [[n at_] tail].
  destruct tail as [row |]; [| apply Hq]. destruct (negb _); [apply Hq |].
  destruct (negb _); [done |]. apply keeps_bind; [done |]. intros json.
  apply keeps_bind; [apply Hq |]. intros [[n' at'] tail']. apply keeps_bind; [done |].
  intros [pos prev]. apply keeps_bind; [done |]. intros _. apply keeps_log_call; [done |].
  intros w Hw. by rewrite remove_and_commit_objects.
Qed.

Lemma check_floor_keeps_objects o u now c rule p sm :
  keeps (objects_are o) (check_floor u now c rule p sm).
Proof.
  unfold check_floor. destruct (_ <? _); [done |]. unfold seal_one.
  destruct (StreamId_from_str _); [| done].
  destruct (uc_mode u); (apply keeps_bind; [apply keeps_attempt, seal_keeps_objects | done]).
Qed.

Lemma process_one_keeps_objects o u now c sm : keeps (objects_are o) (process_one u now c sm).
Proof.
  unfold process_one. case_bool_decide; [done |]. destruct (find _ _) as [rule |]; [| done].
  destruct (cr_mode rule); [| apply check_floor_keeps_objects]. apply keeps_bind.
  - unfold prove_terminal. destruct (StreamId_from_str _); [| done].
    apply keeps_bind; [| done]. apply keeps_attempt. unfold read_artifact_stream.
    destruct (negb _); [done |]. apply keeps_bind; [by apply keeps_log_call |].
    intros ds. by destruct (_ <? _).
  - intros []; [apply check_floor_keeps_objects | done ..].
Qed.

Lemma sweep_keeps_objects o u now : keeps (objects_are o) (archive_terminal_streams u now).
Proof.
  unfold archive_terminal_streams. apply keeps_bind; [by apply keeps_log_call |].
  intros cs. generalize default_summary. induction cs as [| c cs IH]; intros sm; [done |].
  cbn [process_all]. apply keeps_bind; [apply process_one_keeps_objects | done].
Qed.

(** *** What it leaves behind *)

Abbreviation none_revived := (λ w, ∀ sid, ¬ revived (log_rows w) sid).

Lemma housekeeping_none_revived rules w w' :
  none_revived w → housekeeping rules w w' → none_revived w'.
Proof.
  intros Hn [_ Ht] sid [Hs Hne]. destruct (Ht sid Hs) as [? | [Hs0 Heq]]; [done |].
  apply (Hn sid). split; [done |]. by rewrite <- Heq.
Qed.

(** Alone, a handler verified against nobody keeps the invariant and revives nothing. *)
Lemma run_housekeeping {E A} rules (p : prog LogWorld E A) (Q : result E A → LogWorld → Prop) w :
  log_inv w → none_revived w → wp log_inv eq (housekeeping rules) p Q w →
  let '(w', r) := run p w in log_inv w' ∧ none_revived w' ∧ Q r w'.
Proof.
  intros Hi Hn Hwp.
  apply (wp_keep _ none_revived) in Hwp; [| by intros; eapply housekeeping_none_revived].
  apply (wp_guar _ _ _ (λ _ _, True)) in Hwp; [| done].
  assert (PreOrder (λ _ _ : LogWorld, True)) as Hpre by (by split).
  pose proof (run_adequate _ _ _ p Q w _ Hpre (conj Hi Hn) Hwp) as Hrun.
  destruct (run p w) as [w' r]. tauto.
Qed.

(** The sweep proper: what it leaves verifiable, unless it sealed something. *)
Lemma sweep_run u now w w' sm :
  verifiable w → ¬ replies_get_lost → now ≤ log_time w →
  run (archive_terminal_streams u now) w = (w', Ok sm) →
  log_inv w' ∧ none_revived w' ∧ log_objects w' = log_objects w ∧
  (sealed_stream_ids sm = [] → verifiable w').
Proof.
  intros [Hi Hn Hseq Hcov] Hlost Hnow Hrun.
  set (X := λ w1, seal_rows (log_rows w1) = seal_rows (log_rows w)).
  pose proof (run_housekeeping (uc_rules u) _ _ w Hi Hn
    (archive_terminal_streams_safe (uc_rules u) eq ltac:(by intros ?? ->) X ltac:(by intros ?? ->)
       ltac:(done) u now w eq_refl Hnow)) as Hpost.
  rewrite Hrun in Hpost. destruct Hpost as (Hi' & Hn' & Hswept).
  destruct (run_observes (objects_are (log_objects w)) (archive_terminal_streams u now) w eq_refl
    (sweep_keeps_objects _ _ _)) as [Hobj _]. rewrite Hrun in Hobj. cbn in Hobj.
  split_and!; [done | done | done |]. intros Hnone.
  destruct Hswept as (s' & [= <-] & _ & Hs). destruct (Hs Hnone) as [_ [? | Hkept]]; [done |].
  assert (stored_checkpoints w' = stored_checkpoints w) as Hst
    by (unfold stored_checkpoints; by rewrite Hobj).
  split; [done | done | by rewrite Hst |]. intros recs rec Hrecs Hrec. rewrite Hst.
  apply (Hcov recs); [| done]. unfold sealed_records in *. by rewrite <- (Hkept eq_refl).
Qed.

(** An emission that nobody interferes with makes everything verifiable again. *)
Lemma emission_run h w w' :
  log_inv w → none_revived w → NoDup (checkpoint_seq <$> stored_checkpoints w) →
  (∀ cp, cp ∈ stored_checkpoints w → 0 ≤ checkpoint_seq cp < u64_MAX) →
  run (emit_checkpoint_now h) w = (w', Ok ()) → verifiable w'.
Proof.
  intros Hi Hn Hseq Hb Hrun.
  set (X := λ w1, log_rows w1 = log_rows w ∧ log_objects w1 = log_objects w).
  pose proof (run_housekeeping [] _ _ w Hi Hn
    (emit_checkpoint_now_safe [] eq ltac:(by intros ?? ->) X ltac:(by intros ?? ->)
       ltac:(done) h w)) as Hpost.
  rewrite Hrun in Hpost. destruct Hpost as (Hi' & Hn' & Hemit).
  destruct (Hemit eq_refl) as [cp Hcp]. 
  destruct Hcp as (w1 & w2 & w3 & [_ Ho1] & [Hr2 _] & [Hr3 Ho3] & Hnext & Hrecs & Hwf & Hrows & Hobj);
    [done |].
  pose proof (read_object_emitted _ Hwf) as Hread.
  assert (stored_checkpoints w1 = stored_checkpoints w) as Hst
    by (unfold stored_checkpoints; by rewrite Ho1).
  assert (stored_checkpoints w' = stored_checkpoints
    (w {{ log_objects ::= insert (sign_and_serialize cp).1 (sign_and_serialize cp).2 }})) as Hst'
    by (unfold stored_checkpoints; cbn; by rewrite Hobj, Ho3).
  split; [done | done | |].
  - rewrite Hst'. eapply put_seqs_distinct; [done | done |]. cbn. rewrite Hnext, Hst.
    by apply next_seq_fresh.
  - intros recs rec Hrecs' Hrec. exists (emitted_as cp). rewrite Hst'. split; [by apply stored_put_new |].
    cbn. rewrite Hrows, Hr3, <- Hr2, Hrecs in Hrecs'. by injection Hrecs' as ->.
Qed.

Lemma TaskOutcome_fail_not_completed reason retry v : TaskOutcome_fail reason retry ≠ TO_Completed v.
Proof. done. Qed.

Lemma archive_run_verifiable h ck w w' v :
  ah_checkpoint_hook h = Some ck → verifiable w → ¬ replies_get_lost →
  (∀ cp, cp ∈ stored_checkpoints w → 0 ≤ checkpoint_seq cp < u64_MAX) →
  run (archive_run h) w = (w', Ok (TO_Completed v)) → verifiable w'.
Proof.
  intros Hhook Hv Hlost Hb. unfold archive_run. rewrite run_bind. cbn [run utc_now port].
  rewrite run_bind, run_attempt.
  destruct (run (archive_terminal_streams _ _) (log_tick w)) as [w1 [sm | e]] eqn:Hsweep; cbn [run];
    [| by intros [= _ ?%TaskOutcome_fail_not_completed]].
  assert (verifiable (log_tick w)) as Hv' by (destruct Hv as [Hi ???]; split; try done; by apply log_inv_tick).
  apply (sweep_run _ _ _ _ _ Hv' Hlost) in Hsweep as (Hi1 & Hn1 & Ho1 & Hnone);
    [| apply log_rely_time, rely_tick].
  rewrite Hhook. unfold anchor_seals. destruct (is_empty (sealed_stream_ids sm)) eqn:Hempty.
  - intros [= <- _]. apply Hnone. by apply is_empty_true.
  - rewrite run_bind, run_attempt.
    destruct (run (emit_checkpoint_now ck) w1) as [w2 [[] | e]] eqn:Hemit; cbn [run];
      [| by intros [= _ ?%TaskOutcome_fail_not_completed]].
    intros [= <- _].
    assert (stored_checkpoints w1 = stored_checkpoints w) as Hst
      by (unfold stored_checkpoints; by rewrite Ho1).
    apply (emission_run ck w1); rewrite ?Hst; try done. apply Hv.
Qed.
End sweep.

(** ** Promises *)

Section promises.
Context `{LogBackend, SerdeJson, ChainPrimitives, AnchorPrimitives}.
Context (rules : list CategoryRetentionRule).

Lemma empty_log_inv w : log_rows w = [] → log_objects w = ∅ → log_inv w.
Proof.
  intros Hr Ho. assert (∀ sid, ¬ sealed_in (log_rows w) sid) as Hs.
  { intros sid (r & rec & Hin & _). unfold seal_rows in Hin. rewrite Hr in Hin.
    by apply elem_of_nil in Hin. }
  split; [split |].
  - rewrite Hr. set_solver.
  - rewrite Hr. set_solver.
  - rewrite Hr. set_solver.
  - intros sid _. by rewrite Hr.
  - apply Hs.
  - intros r Hin. unfold seal_rows in Hin. rewrite Hr in Hin. by apply elem_of_nil in Hin.
  - intros sid p h (c & Hc & _). rewrite stored_perm, Ho, map_to_list_empty in Hc.
    by apply elem_of_nil in Hc.
Qed.

Context (w : LogWorld) (c : LogWorld * list (prog LogWorld DomainError ())).
Hypothesis no_rows : log_rows w = [].
Hypothesis no_checkpoints : log_objects w = ∅.
Hypothesis reached : rtc (pool_step (λ _, log_handler rules)) (w, []) c.

(** C2.  Starting from an empty event store, let any number of appends, retention
    sweeps and checkpoint emissions run in any order, their database and object-store
    calls interleaved and failing at will.  Whatever state they reach, as long as nobody
    wrote to a stream after its seal, no two emissions took the same sequence number and
    every tombstone is in some stored checkpoint, a run of [verify-event-chain] over all
    streams succeeds and does not report [Broken] — unless a stream has two byte strings
    with the same SHA-256. *)
Theorem interleaved_logs_verify args now cadence expected :
  (∀ sid, ¬ revived (log_rows c.1) sid) →
  NoDup (checkpoint_seq <$> stored_checkpoints c.1) →
  (∀ recs rec, sealed_records (log_rows c.1) = Ok recs → rec ∈ recs →
     ∃ cp, cp ∈ stored_checkpoints c.1 ∧ rec ∈ sealed_streams cp) →
  fits c.1 → streams args = [] → since_global args = None →
  verdict_clean c.1 args now cadence expected.
Proof.
  intros. apply verifiable_clean; try done. split; try done.
  eapply log_pool_inv; [| done]. by apply empty_log_inv.
Qed.

(** C4.  In the same runs, a row leaves the event store in one way only: its whole stream
    goes in the transaction that adds a tombstone with the stream's name and its number
    of rows behind the tombstones there are.  Unless the stream had been sealed before,
    the tombstone has the hash of its last row, the stream's category has a rule, the
    stream ends with the rule's terminal event where it asks for one, and one of its
    events is at least as old as the rule's floor. *)
Theorem removals_are_proven_and_recorded c' r :
  pool_step (λ _, log_handler rules) c c' → r ∈ log_rows c.1 → r ∉ log_rows c'.1 →
  removal rules c.1 c'.1 (er_stream r).
Proof.
  intros Hstep Hr Hgone.
  destruct (log_pool_step rules w c c') as [Heq | [_ Hrem]]; try done.
  - by apply empty_log_inv.
  - rewrite Heq in Hgone. done.
  - by apply Hrem.
Qed.
End promises.

Section single.
Context `{LogBackend, SerdeJson, ChainPrimitives, AnchorPrimitives}.

(** C28.  When a sweep that has a checkpoint hook runs by itself over a store the verifier
    is content with, and reports success, the verifier is content with what it leaves:
    every stream it sealed is anchored.  No database reply may get lost, and the sequence
    numbers must not have used up [u64]. *)
Theorem completed_sweeps_leave_nothing_unanchored h ck w w' v args now cadence expected :
  ah_checkpoint_hook h = Some ck → verifiable w → ¬ replies_get_lost →
  (∀ cp, cp ∈ stored_checkpoints w → 0 ≤ checkpoint_seq cp < u64_MAX) →
  run (archive_run h) w = (w', Ok (TO_Completed v)) →
  fits w' → streams args = [] → since_global args = None →
  verdict_clean w' args now cadence expected.
Proof.
  intros. apply verifiable_clean; try done. by eapply archive_run_verifiable.
Qed.

(** C29.  Every emitted checkpoint that is in the object store is read back exactly, with
    its heads, its seals, its number and its time; and whatever else is read as a
    checkpoint comes from an object with a valid signature over bytes that were never
    signed. *)
Theorem checkpoints_are_read_back_or_forged emitted objects :
  Forall hashes_wf emitted →
  (∀ cp key, cp ∈ emitted → (key, (sign_and_serialize cp).2) ∈ objects →
     emitted_as cp ∈ read_objects objects) ∧
  (∀ c, c ∈ read_objects objects →
     (∃ cp, cp ∈ emitted ∧ c = emitted_as cp) ∨
     ∃ key bytes, (key, bytes) ∈ objects ∧ forged emitted bytes).
Proof.
  intros Hwf. split.
  - intros cp key Hcp Hin. apply list_elem_of_omap. eexists. split; [exact Hin |].
    rewrite Forall_forall in Hwf. by apply read_object_emitted, Hwf.
  - intros c ([key bytes] & Hin & Hc)%list_elem_of_omap.
    destruct (read_object_genuine emitted bytes c Hwf Hc) as [? | ?]; [by left | right; eauto].
Qed.
End single.
