(* ===== verification/EventLogExamples.v ===== *)
(** Runs of the event store: the witnesses of the theorems of EventLogPromise.v, and four
    runs that end otherwise than the documentation says.

    [young_events_are_removed] is about the retention floor,
    [writes_after_a_seal_read_as_tampering] about appends that meet a seal,
    [overlapping_emissions_break_the_anchor] about two checkpoints at a time, and
    [a_lost_reply_leaves_a_seal_unanchored] about a seal whose commit is not confirmed. *)

From coqutil Require Import Datatypes.RecordSetters.
From S2P Require Import Prelude.
From S2P Require Import RustStd.
From S2P Require Import Json.
From S2P Require Import Types.
From S2P Require Import Events.
From S2P Require Import Store.
From S2P Require Import Concurrent.
From S2P Require Import TaskDispatch.
From S2P Require Import TokenSafety.
From S2P Require Import TokenExamples.
From S2P Require Import EventChain.
From S2P Require Import ChainAnchor.
From S2P Require Import ChainVerify.
From S2P Require Import CheckpointObject.
From S2P Require Import EventLog.
From S2P Require Import EventRetention.
From S2P Require Import EventLogSafety.
From S2P Require Import EventRetentionSafety.
From S2P Require Import EventLogPromise.
Import DoubleBraceUpdate.

(** A hash that is quick to evaluate. *)
#[local] Instance quick_prims : ChainPrimitives.
Proof.
  refine {| sha256 m := to_be_bytes 32 (foldl (λ a b, Z.land (a * 31 + Z_of_byte b + 1) (Z.ones 40)) 0 m);
            to_vec := Sample.enc_value |}.
  - intros m. apply length_to_be_bytes.
  - exact (@to_vec_inj Sample.prims).
Defined.

(** ** Texts *)

(** Any countable type as a text of bits. *)
Fixpoint bits (p : positive) : list byte :=
  match p with
  | xH => []
  | xO p => byte_of_Z 48 :: bits p
  | xI p => byte_of_Z 49 :: bits p
  end.

Fixpoint unbits (l : list byte) : positive :=
  match l with
  | [] => xH
  | b :: l => if decide (b = byte_of_Z 48) then xO (unbits l) else xI (unbits l)
  end.

Lemma unbits_bits p : unbits (bits p) = p.
Proof. induction p as [p IH | p IH |]; cbn; [by rewrite IH | by rewrite IH | done]. Qed.

Definition text {A} `{Countable A} (a : A) : list byte := bits (encode a).
Definition untext {A} `{Countable A} (l : list byte) : option A := decode (unbits l).

Lemma untext_text {A} `{Countable A} (a : A) : untext (text a) = Some a.
Proof. unfold untext, text. by rewrite unbits_bits, decode_encode. Qed.

Definition string_of (l : list byte) : string := String.string_of_list_ascii l.

Lemma bytes_of_string_of l : as_bytes (string_of l) = l.
Proof. apply String.list_ascii_of_string_of_list_ascii. Qed.

(** *** Countable wire records *)

#[local] Instance StreamHeadWire_eq_dec : EqDecision StreamHeadWire.
Proof. solve_decision. Defined.
#[local] Instance SealedWire_eq_dec : EqDecision SealedWire.
Proof. solve_decision. Defined.
#[local] Instance SignedBody_eq_dec : EqDecision SignedBody.
Proof. solve_decision. Defined.
#[local] Instance CheckpointWire_eq_dec : EqDecision CheckpointWire.
Proof. solve_decision. Defined.

#[local] Instance StreamHeadWire_countable : Countable StreamHeadWire.
Proof.
  refine (inj_countable' (λ h, (hw_stream_id h, hw_final_stream_position h, hw_head_event_hash h))
    (λ '(a, b, c), {| hw_stream_id := a; hw_final_stream_position := b; hw_head_event_hash := c |}) _).
  by intros [].
Defined.

#[local] Instance SealedWire_countable : Countable SealedWire.
Proof.
  refine (inj_countable' (λ s, (sw_sealed_stream_id s, sw_final_event_hash s))
    (λ '(a, b), {| sw_sealed_stream_id := a; sw_final_event_hash := b |}) _).
  by intros [].
Defined.

#[local] Instance SignedBody_countable : Countable SignedBody.
Proof.
  refine (inj_countable' (λ b, (sb_chain_format_version b, sb_checkpoint_seq b, sb_created_at b,
      sb_stream_heads b, sb_sealed_streams b))
    (λ '(a, b, c, d, e), {| sb_chain_format_version := a; sb_checkpoint_seq := b; sb_created_at := c;
      sb_stream_heads := d; sb_sealed_streams := e |}) _).
  by intros [].
Defined.

#[local] Instance CheckpointWire_countable : Countable CheckpointWire.
Proof.
  refine (inj_countable' (λ w, (signed_body w, cw_signature w))
    (λ '(b, s), {| cw_chain_format_version := sb_chain_format_version b;
      cw_checkpoint_seq := sb_checkpoint_seq b; cw_created_at := sb_created_at b;
      cw_stream_heads := sb_stream_heads b; cw_sealed_streams := sb_sealed_streams b;
      cw_signature := s |}) _).
  by intros [].
Defined.

(** ** The environment *)

#[local] Instance anchor : AnchorPrimitives.
Proof.
  refine {|
    sign m := replicate 64 (byte_of_Z 0);
    verify_signature m sig := bool_decide (sig = replicate 64 (byte_of_Z 0));
    hex_encode := string_of;
    hex_decode s := Some (as_bytes s);
    body_to_vec := text;
    object_to_vec o := text (wire_of o);
    object_from_slice := untext;
    to_rfc3339_secs t := string_of (text (t / NANOS)) |}.
  - intros m. apply length_replicate.
  - intros m. by apply bool_decide_true.
  - intros bs. by rewrite bytes_of_string_of.
  - intros b c Heq. apply (f_equal (untext (A := SignedBody))) in Heq.
    rewrite !untext_text in Heq. by injection Heq.
  - intros o. apply untext_text.
Defined.

#[local] Instance json_text : SerdeJson := λ _, "null"%string.

(** A database with the given failures and clock. *)
#[refine] Definition database (fault : nat → option (bool * fmt)) (jump : nat) : LogBackend := {|
  log_fault := fault;
  log_clock n := (if decide (n < jump)%nat then 0 else DAYS 1127) + Z.of_nat n * NANOS;
  new_v4 n i := 1000 + 10 * Z.of_nat n + Z.of_nat i;
  retention_entity := 7;
  uuid_to_string u := string_of (text u);
  uuid_parse s := untext (as_bytes s);
  nextval n i := 10 * Z.of_nat n + Z.of_nat i;
  order_by_text l := l;
  list_objects l := l;
  retention_role_assumable := true;
  decode_event r := Ok (er_type r);
  log_text _ := "text"%string;
|}.
Proof.
  - intros n m Hle. assert (0 ≤ DAYS 1127) by (vm_compute; discriminate).
    unfold NANOS. repeat case_decide; lia.
  - intros u. by rewrite bytes_of_string_of, untext_text.
  - done.
  - done.
  - by intros r t [= <-].
Defined.

(** ** A store with one artifact *)

Definition artifact : StreamId := {| si_category := SC_Artifact; si_entity_id := 1 |}.

Definition one_event (id : Uuid) (type : string) : AppendEvents := {|
  ae_stream_id := artifact; ae_expected_version := EV_Any;
  ae_events := [{| ta_event_id := id; ta_event_type := type; ta_event_data := VNull |}];
  ae_correlation_id := 5; ae_causation_id := None;
  ae_actor := {| actor_type := "api"; actor_id := Some 3; actor_source_file := None;
                 actor_spec_digest := None |} |}.

Definition floors : list CategoryRetentionRule :=
  canonical_retention_rules (DAYS 183) (DAYS 1095) (DAYS 90) (DAYS 1095).

Definition checkpoints : EventstoreCheckpointHandler := {| ck_backfill_baseline := None |}.

Definition sweeper (hook : option EventstoreCheckpointHandler) : EventStoreArchiveHandler :=
  {| ah_retention := {| uc_rules := floors; uc_mode := SRM_Delete |}; ah_checkpoint_hook := hook |}.

Definition nothing : LogWorld := {| log_rows := []; log_objects := ∅; log_calls := 0 |}.

Definition done_with `{LogBackend} {A} (p : log_prog A) : prog LogWorld DomainError () :=
  conclude (λ _, ()) p.

Definition everything : VerifyEventChainArgs := {|
  streams := []; since_global := None; checkpoint_source := None; format := OF_Text;
  fail_on_missing_checkpoint := None |}.

Definition calm : LogBackend := database (λ _, None) 2.

(** The artifact is ingested, and purged more than three years later. *)
Definition life `{LogBackend} : list (prog LogWorld DomainError ()) :=
  [done_with (append (one_event 11 "ArtifactIngested"));
   done_with (append (one_event 12 "ArtifactPurged"));
   done_with (archive_run (sweeper (Some checkpoints)))].

Definition after `{LogBackend} (picks : list nat) : LogWorld * list (prog LogWorld DomainError ()) :=
  schedule picks (nothing, life).


Definition verdict `{LogBackend} (w : LogWorld) : option ChainReport :=
  match verify (chain_reader w) everything (checkpoint_anchor w) (log_time w) (3600 * NANOS) true with
  | Ok s => Some (report s)
  | Err _ => None
  end.

(** The same with a download and a periodic checkpoint. *)
Definition with_download `{LogBackend} : list (prog LogWorld DomainError ()) :=
  life ++ [done_with (append (one_event 13 "ArtifactDownloaded")); done_with (checkpoint_run checkpoints)].

(** What is in the store, and what the verifier says. *)
Definition contents `{LogBackend} (w : LogWorld) : list (string * Z) * option ChainReport :=
  ((λ r, (er_type r, er_position r)) <$> log_rows w, verdict w).

(** ** Checking a state *)

Fixpoint json_ok (v : Value) : bool :=
  match v with
  | VNull | VBool _ | VString _ => true
  | VNumber (PosInt n) => (0 <=? n) && (n <? 2 ^ 64)
  | VNumber (NegInt n) => (- 2 ^ 63 <=? n) && (n <? 0)
  | VNumber (Float b) => (0 <=? b) && (b <? 2 ^ 64)
  | VArray l => forallb json_ok l
  | VObject m => bool_decide (NoDup m.*1) && forallb (λ e, json_ok e.2) m
  end.

Lemma json_ok_wf v : json_ok v = true → json_wf v.
Proof.
  induction v as [| b | [n | n | n] | s | l IH | m IH] using Value_nested_ind; cbn [json_ok]; intros Hv;
    try (by constructor).
  - constructor. apply andb_true_iff in Hv as [?%Z.leb_le ?%Z.ltb_lt]. by split.
  - constructor. apply andb_true_iff in Hv as [?%Z.leb_le ?%Z.ltb_lt]. by split.
  - constructor. apply andb_true_iff in Hv as [?%Z.leb_le ?%Z.ltb_lt]. by split.
  - constructor. rewrite forallb_True in Hv. auto.
  - apply andb_true_iff in Hv as [Hnd%bool_decide_eq_true Hv]. constructor; [done |].
    rewrite forallb_True in Hv. intros k v Hin. apply (IH k v Hin). by apply (Hv (k, v)).
Qed.

Definition in_bits (n : Z) (x : Z) : bool := (0 <=? x) && (x <? 2 ^ n).

Lemma in_bits_uint n x : in_bits n x = true → is_uint n x.
Proof. intros [?%Z.leb_le ?%Z.ltb_lt]%andb_true_iff. by split. Qed.

Definition every {A} (f : A → bool) (o : option A) : bool :=
  match o with Some a => f a | None => true end.

Lemma every_true {A} (f : A → bool) o a : every f o = true → o = Some a → f a = true.
Proof. by intros H ->. Qed.

Definition input_ok (i : ChainInput) : bool :=
  bool_decide (length (prev_event_hash i) = 32%nat) && in_bits 128 (event_id i) &&
  (strlen (stream_id i) <? 2 ^ 64) && (strlen (stream_category i) <? 2 ^ 64) &&
  in_bits 64 (stream_position i) && (strlen (event_type i) <? 2 ^ 64) &&
  in_bits 32 (event_version i) && json_ok (payload i) &&
  (len (canonical_payload_bytes (payload i)) <? 2 ^ 64) && in_bits 128 (correlation_id i) &&
  every (in_bits 128) (causation_id i) && (strlen (actor_type (actor i)) <? 2 ^ 64) &&
  every (in_bits 128) (actor_id (actor i)) &&
  every (λ s, strlen s <? 2 ^ 64) (actor_source_file (actor i)) &&
  every (λ d, len d <? 2 ^ 64) (actor_spec_digest (actor i)).

Lemma input_ok_wf i : input_ok i = true → chain_input_wf i.
Proof.
  unfold input_ok. intros Hi.
  repeat match goal with H : _ && _ = true |- _ => apply andb_true_iff in H as [? ?] end.
  repeat match goal with
  | H : bool_decide _ = true |- _ => apply bool_decide_eq_true in H
  | H : in_bits _ _ = true |- _ => apply in_bits_uint in H
  | H : (_ <? _) = true |- _ => apply Z.ltb_lt in H
  | H : json_ok _ = true |- _ => apply json_ok_wf in H
  end.
  split; try done; intros x Hx.
  - by eapply in_bits_uint, (every_true (in_bits 128)); [| exact Hx].
  - by eapply in_bits_uint, (every_true (in_bits 128)); [| exact Hx].
  - apply Z.ltb_lt. by eapply (every_true (λ s, strlen s <? 2 ^ 64)); [| exact Hx].
  - apply Z.ltb_lt. by eapply (every_true (λ d : list byte, len d <? 2 ^ 64)); [| exact Hx].
Qed.

Section checks.
Context `{LogBackend}.

Definition fits_b (w : LogWorld) : bool :=
  (len (log_rows w) <? 2 ^ 64) &&
  forallb (λ r, input_ok (input (as_stream_row (er_chain r)))) (log_rows w).

Lemma fits_b_ok w : fits_b w = true → fits w.
Proof.
  intros [Hl%Z.ltb_lt Hr]%andb_true_iff sid. rewrite forallb_True in Hr. split.
  - unfold len in *. rewrite length_fmap. unfold rows_of. rewrite sort_by_Permutation.
    pose proof (length_filter (λ r, er_stream r = sid) (log_rows w)). lia.
  - intros c (r & -> & [Hin _]%elem_of_rows_of)%list_elem_of_fmap. by apply input_ok_wf, Hr.
Qed.

Definition unrevived_b (w : LogWorld) : bool :=
  forallb (λ r, match sealed_record_from_row (cr_event_data (er_chain r)) with
                | Ok rec => is_empty (rows_of (ChainAnchor.sealed_stream_id rec) (log_rows w))
                | Err _ => true
                end) (seal_rows (log_rows w)).

Lemma unrevived_b_ok w : unrevived_b w = true → ∀ sid, ¬ revived (log_rows w) sid.
Proof.
  intros Hb sid [(r & rec & Hr & Hrec & <-) Hne]. unfold unrevived_b in Hb. rewrite forallb_True in Hb.
  specialize (Hb r Hr). rewrite Hrec in Hb. by apply is_empty_true in Hb.
Qed.

Definition covered_b (w : LogWorld) : bool :=
  match sealed_records (log_rows w) with
  | Ok recs => forallb (λ rec, existsb (λ cp, bool_decide (rec ∈ sealed_streams cp))
                                 (stored_checkpoints w)) recs
  | Err _ => true
  end.

Lemma covered_b_ok w : covered_b w = true →
  ∀ recs rec, sealed_records (log_rows w) = Ok recs → rec ∈ recs →
  ∃ cp, cp ∈ stored_checkpoints w ∧ rec ∈ sealed_streams cp.
Proof.
  unfold covered_b. intros Hb recs rec Hr Hin. rewrite Hr in Hb. rewrite forallb_True in Hb.
  specialize (Hb rec Hin). apply existsb_True in Hb as (cp & ? & ?%bool_decide_eq_true). eauto.
Qed.

Definition seqs_b (w : LogWorld) : bool := bool_decide (NoDup (checkpoint_seq <$> stored_checkpoints w)).

(** The whole state at once. *)
Definition state_ok (w : LogWorld) : bool := fits_b w && unrevived_b w && covered_b w && seqs_b w.

Lemma state_ok_true w : state_ok w = true →
  fits w ∧ (∀ sid, ¬ revived (log_rows w) sid) ∧
  NoDup (checkpoint_seq <$> stored_checkpoints w) ∧
  ∀ recs rec, sealed_records (log_rows w) = Ok recs → rec ∈ recs →
    ∃ cp, cp ∈ stored_checkpoints w ∧ rec ∈ sealed_streams cp.
Proof.
  intros [[[Hf Hu]%andb_true_iff Hc]%andb_true_iff Hs%bool_decide_eq_true]%andb_true_iff.
  split; [by apply fits_b_ok |]. split; [by apply unrevived_b_ok |]. split; [exact Hs |].
  by apply covered_b_ok.
Qed.

Lemma tombless id type : tombstones_ok (one_event id type).
Proof. intros Heq%StreamId_display_inj. done. Qed.

Lemma handlers_reach ps picks :
  Forall (log_handler floors) ps →
  rtc (pool_step (λ _, log_handler floors)) (nothing, []) (schedule picks (nothing, ps)).
Proof.
  intros Hps. etrans; [apply spawn_all | apply schedule_steps].
  intros i p Hi. by eapply Forall_lookup_1.
Qed.

Lemma life_handlers : Forall (log_handler floors) life.
Proof.
  constructor; [apply handler_append, tombless |].
  constructor; [apply handler_append, tombless |].
  constructor; [by apply handler_sweep | constructor].
Qed.
End checks.

Definition swept : list nat := [0;0;1;1;2;2;2;2;2;2;2;2;2;2;2]%nat.

Section calm_runs.
#[local] Existing Instance calm.

Lemma interleaved_logs_verify_witness :
  (∀ sid, ¬ revived (log_rows (after swept).1) sid) ∧
  verdict_clean (after swept).1 everything (DAYS 1127) (3600 * NANOS) true.
Proof.
  destruct (state_ok_true (after swept).1) as (Hf & Hu & Hs & Hc); [evaluate |].
  split; [exact Hu |].
  exact (interleaved_logs_verify floors nothing (after swept) eq_refl eq_refl
    (handlers_reach _ _ life_handlers) everything _ _ _ Hu Hs Hc Hf eq_refl eq_refl).
Defined.

(** The sweep is about to commit. *)
Definition proven : list nat := [0;0;1;1;2;2;2;2;2]%nat.

Definition oldest_row (w : LogWorld) : option EventRow := head (log_rows w).

Definition gone (sid : string) (w : LogWorld) : bool :=
  forallb (λ r, bool_decide (er_stream r ≠ sid)) (log_rows w).

Lemma gone_row sid w r : gone sid w = true → er_stream r = sid → r ∉ log_rows w.
Proof.
  intros Hg Hs Hr. unfold gone in Hg. rewrite forallb_True in Hg.
  by apply Hg, bool_decide_eq_true in Hr.
Qed.

Lemma removals_are_proven_and_recorded_witness :
  removal floors (after proven).1 (schedule [2%nat] (after proven)).1 (StreamId_display artifact).
Proof.
  destruct (oldest_row (after proven).1) as [r |] eqn:Hr; [| exfalso; revert Hr; vm_compute; discriminate].
  assert (er_stream <$> oldest_row (after proven).1 = Some (StreamId_display artifact)) as Hs by evaluate.
  rewrite Hr in Hs. injection Hs as Hs. rewrite <- Hs.
  apply (removals_are_proven_and_recorded floors nothing (after proven) eq_refl eq_refl
    (handlers_reach _ _ life_handlers)).
  - apply schedule_step. evaluate.
  - exact (head_Some_elem_of _ _ Hr).
  - apply (gone_row (StreamId_display artifact)); [evaluate | exact Hs].
Defined.

(** The artifact is there, and not yet swept. *)
Definition purged : list nat := [0;0;1;1]%nat.

Definition hook : option EventstoreCheckpointHandler := Some checkpoints.

Abbreviation sweep_result := (run (archive_run (sweeper hook)) (after purged).1).

Lemma purged_verifiable : verifiable (after purged).1.
Proof.
  destruct (state_ok_true (after purged).1) as (_ & Hu & Hs & Hc); [evaluate |].
  split; [| exact Hu | exact Hs | exact Hc].
  exact (log_pool_inv floors _ _ (empty_log_inv nothing eq_refl eq_refl)
    (handlers_reach _ _ life_handlers)).
Qed.

Lemma calm_replies : ¬ replies_get_lost.
Proof. by intros (n & e & Hf). Qed.

Definition completed (r : DomainResult TaskOutcome) : bool :=
  match r with Ok (TO_Completed _) => true | _ => false end.

Lemma completed_sweeps_leave_nothing_unanchored_witness :
  verdict_clean sweep_result.1 everything (DAYS 1127) (3600 * NANOS) true.
Proof.
  assert (completed sweep_result.2 = true) as Hdone by evaluate.
  destruct (state_ok_true sweep_result.1) as (Hf & _); [evaluate |].
  destruct (run (archive_run (sweeper hook)) (after purged).1) as [w' [[v | reason retry] | e]] eqn:Hrun; try discriminate Hdone.
  refine (completed_sweeps_leave_nothing_unanchored (sweeper hook) checkpoints (after purged).1 w' v
    everything _ _ _ eq_refl purged_verifiable calm_replies _ Hrun Hf eq_refl eq_refl).
  assert (stored_checkpoints (after purged).1 = []) as -> by evaluate.
  intros cp Hcp. destruct (not_elem_of_nil cp Hcp).
Defined.

(** *** A checkpoint *)

Definition seal_of_one : CheckpointToEmit := {|
  e_chain_format_version := CHAIN_FORMAT_VERSION; e_checkpoint_seq := 1; e_created_at := DAYS 1127;
  e_max_global_position := 3;
  e_stream_heads := [{| sh_stream_id := "live"; final_stream_position := 4;
                        head_event_hash := replicate 32 (byte_of_Z 65) |}];
  e_sealed_streams := [{| ChainAnchor.sealed_stream_id := "sealed";
                          final_event_hash := replicate 32 (byte_of_Z 66) |}];
  e_backfill_baseline := None |}.

Lemma checkpoints_are_read_back_or_forged_witness :
  emitted_as seal_of_one ∈
    read_objects [("key"%string, (sign_and_serialize seal_of_one).2); ("note"%string, [])].
Proof.
  refine (proj1 (checkpoints_are_read_back_or_forged [seal_of_one]
    [("key"%string, (sign_and_serialize seal_of_one).2); ("note"%string, [])] _)
    seal_of_one "key"%string _ _).
  - constructor; [| constructor]. split; (constructor; [reflexivity | constructor]).
  - left.
  - left.
Defined.

(** ** Runs the documentation does not expect *)

Abbreviation steps := (rtc (pool_step (λ _, log_handler floors))).
Abbreviation step := (pool_step (λ _, log_handler floors)).

Lemma last_event w sid type age :
  option_map (λ r, (er_stream r, er_type r, log_time w - er_stored_at r)) (last (log_rows w)) =
    Some (sid, type, age) →
  ∃ r, r ∈ log_rows w ∧ er_stream r = sid ∧ er_type r = type ∧ log_time w - er_stored_at r = age.
Proof.
  destruct (last (log_rows w)) as [r |] eqn:Hr; intros [=].
  exists r. split; [by apply last_Some_elem_of | done].
Qed.

(** The floor of three years is proven against the oldest event of the stream: the sweep
    removes the [ArtifactPurged] event within a minute of its being written, on the day
    the artifact was purged. *)
Theorem young_events_are_removed :
  ∃ c c' r, steps (nothing, []) c ∧ step c c' ∧ r ∈ log_rows c.1 ∧ (r ∉ log_rows c'.1) ∧
    er_type r = "ArtifactPurged"%string ∧ log_time c.1 - er_stored_at r < 60 * NANOS ∧
    (cr_floor <$> find (λ rule, bool_decide (cr_category rule = SC_Artifact)) floors) = Some (DAYS 1095).
Proof.
  exists (after proven), (schedule [2%nat] (after proven)).
  destruct (last_event (after proven).1 (StreamId_display artifact) "ArtifactPurged" (7 * NANOS))
    as (r & Hr & Hs & Ht & Ha); [evaluate |].
  exists r. split; [exact (handlers_reach _ _ life_handlers) |].
  split; [apply schedule_step; evaluate |]. split; [exact Hr |].
  split; [apply (gone_row (StreamId_display artifact)); [evaluate | exact Hs] |].
  split; [exact Ht |]. rewrite Ha. split; [reflexivity | evaluate].
Qed.

Lemma with_download_handlers : Forall (log_handler floors) with_download.
Proof.
  apply Forall_app. split; [exact life_handlers |].
  constructor; [apply handler_append, tombless |]. constructor; [apply handler_checkpoint | constructor].
Qed.

(** An append has read the end of the stream before the sweep seals it. *)
Definition overtaken : LogWorld * list (prog LogWorld DomainError ()) :=
  schedule [0;0;1;1;3;2;2;2;2;2;2;2;2;2;2]%nat (nothing, with_download).

(** A checkpoint has the head of the stream, the sweep seals the stream, and an append
    has found it empty. *)
Definition started_over : LogWorld * list (prog LogWorld DomainError ()) :=
  schedule [0;0;1;1;4;4;4;4;2;2;2;2;2;2;2;2;2;2;3]%nat (nothing, with_download).

(** An event that is written when its stream has been sealed turns the verdict on the
    store from [Ok] to [Broken], whether its append started before the seal and goes on
    where the stream ended, or starts the stream afresh. *)
Theorem writes_after_a_seal_read_as_tampering :
  (∃ c c', steps (nothing, []) c ∧ step c c' ∧
     contents c.1 = ([("StreamSealed"%string, 0)], Some CR_Ok) ∧
     contents c'.1 = ([("StreamSealed"%string, 0); ("ArtifactDownloaded"%string, 2)], Some CR_Broken)) ∧
  (∃ c c', steps (nothing, []) c ∧ step c c' ∧
     contents c.1 = ([("StreamSealed"%string, 0)], Some CR_Ok) ∧
     contents c'.1 = ([("StreamSealed"%string, 0); ("ArtifactDownloaded"%string, 0)], Some CR_Broken)).
Proof.
  split.
  - exists overtaken, (schedule [3%nat] overtaken).
    split; [exact (handlers_reach _ _ with_download_handlers) |].
    split; [apply schedule_step; evaluate |]. split; evaluate.
  - exists started_over, (schedule [3%nat] started_over).
    split; [exact (handlers_reach _ _ with_download_handlers) |].
    split; [apply schedule_step; evaluate |]. split; evaluate.
Qed.

(** One artifact, a periodic checkpoint and one after a sweep. *)
Definition two_emissions : list (prog LogWorld DomainError ()) :=
  [done_with (append (one_event 11 "ArtifactIngested"));
   done_with (checkpoint_run checkpoints); done_with (checkpoint_run checkpoints)].

Lemma two_emissions_handlers : Forall (log_handler floors) two_emissions.
Proof.
  constructor; [apply handler_append, tombless |].
  repeat (constructor; [apply handler_checkpoint |]). constructor.
Qed.

Definition anchored (w : LogWorld) : list Z * option ChainReport :=
  (checkpoint_seq <$> stored_checkpoints w, verdict w).

(** Two emissions one after the other take the numbers 1 and 2.  When they overlap both
    take the number 1, both objects are stored, and the verifier reports [Broken]. *)
Theorem overlapping_emissions_break_the_anchor :
  ∃ c c', steps (nothing, []) c ∧ steps (nothing, []) c' ∧
    anchored c.1 = ([1; 2], Some CR_Ok) ∧ anchored c'.1 = ([1; 1], Some CR_Broken).
Proof.
  exists (schedule [0;0;1;1;1;1;2;2;2;2]%nat (nothing, two_emissions)),
    (schedule [0;0;1;2;1;2;1;2;1;2]%nat (nothing, two_emissions)).
  split; [exact (handlers_reach _ _ two_emissions_handlers) |].
  split; [exact (handlers_reach _ _ two_emissions_handlers) |]. split; evaluate.
Qed.
End calm_runs.

(** ** A lost reply *)

(** The reply to the commit of the seal does not arrive. *)
Definition lossy : LogBackend :=
  database (λ n, if decide (n = 13)%nat then Some (true, [Lit "connection reset"]) else None) 2.

Section lossy_runs.
#[local] Existing Instance lossy.

(** The artifact is purged and the periodic checkpoint emitted. *)
Definition ticked : LogWorld * list (prog LogWorld DomainError ()) :=
  schedule [0;0;1;1;4;4;4;4]%nat (nothing, with_download).

(** A sweep whose commit goes through although its reply is lost reports completion and
    does not emit the checkpoint that would anchor the seal: the verdict goes from [Ok] to
    [Broken], with every handler done. *)
Theorem a_lost_reply_leaves_a_seal_unanchored :
  contents ticked.1 = ([("ArtifactIngested"%string, 0); ("ArtifactPurged"%string, 1)], Some CR_Ok) ∧
  completed (run (archive_run (sweeper hook)) ticked.1).2 = true ∧
  contents (run (archive_run (sweeper hook)) ticked.1).1 =
    ([("StreamSealed"%string, 0)], Some CR_Broken).
Proof. split; [evaluate |]. split; evaluate. Qed.
End lossy_runs.
